(* ===== verification/_CoqProject ===== *)
-Q . S2P
Prelude.v
RustStr.v
Semver.v
Kinds.v
Facts.v
CycleCheck.v
Effects.v
Interleaving.v
Compatibility.v
Contracts.v
Plan.v
ObjectStore.v
Leases.v
StoreHistory.v
PlanQueries.v
Approvals.v
ReleaseSigning.v
HostState.v
HostApplier.v
Catalog.v
HostVerify.v
HostSteps.v
Holds.v
DependencyDocument.v
ReleaseSelection.v
Convergence.v
PlanCreation.v
ExecutionAdmission.v
Maintenance.v
DeliveryHolds.v
Criticality.v
ApprovalPolicy.v
Topology.v
ReconcileFence.v
Scheduler.v
Deployments.v
ProductExecution.v
HealthGate.v
StepLifecycle.v
PlanExecution.v
Reconciler.v
Waves.v
AuthContext.v
OidcGrants.v
GrantRules.v
RuntimeClaims.v
Outcomes.v
ExecutionLease.v
RuntimeCompletion.v
RuntimeDelivery.v
RuntimeHandoff.v
ReleaseEvidence.v
Publication.v
CatalogHistory.v
Canary.v
CanaryPromotion.v
CanaryAttempts.v
