(* ===== verification/Prelude.v ===== *)
(** * Tenkai: a verification development of the delivery control plane

    Tenkai delivers software releases to environments.  A catalog holds
    signed releases and the channels they are promoted to; an environment
    subscribes to products on channels; a planner compares what an environment
    desires with what it has deployed and writes an immutable plan; approvers,
    or a policy, sign the plan; execution runs its steps under leases of the
    store, with gates and a recorded outcome; a reconciler does this for every
    environment on every tick; waves and canaries spread a release over
    environments; and steps that need root on a machine are spooled to a
    separate process, the host applier, which trusts nothing but signed bytes,
    its own policy and its own records.

    ** Files, and the sources they model

    Shared ground:
    - [Prelude] (this file): [Result] and its [?], loops that return early,
      [i64]/[u64] bounds, ordered maps and sets as sorted lists, and the
      generic lemmas, hints and tactics of the other files.
    - [RustStr]: the [str] methods the sources use and
      [ontology.rs: validate_identifier].  A string is its bytes.
    - [Semver]: the [semver] crate as a class with its documented laws, and a
      concrete instance for examples.
    - [Effects]: programs over effects with typed answers, their runs, a
      weakest precondition, and the logic of what a run has learnt.
    - [Interleaving]: several programs on one world, each effect atomic, in
      any order, and what a thread may rely on of the others.

    Planning, from data to plan:
    - [Kinds]: [product_kind.rs], the step actions and states of [plan.rs],
      rollout ranks and [validate_model_routing_rollout_order], and executor
      resolution of [software_executor.rs].
    - [Facts]: environment facts ([environment.rs]) and the requirement fit of
      [plan/release_selection.rs] (architecture, memory, GPU, driver and
      runtime versions).
    - [CycleCheck]: the depth-first search that [visit_requirement_edge] and
      [visit_plan_contract_edge] share.
    - [Compatibility]: [software_compatibility.rs]: profiles, evidence, the
      evaluation of one against the other, holds, requirement cycles at
      publication, [refuse_unsatisfied_dependents].
    - [Contracts]: the contract edges of [plan/convergence.rs], the cycle and
      direction refusals, [name_ordered_ranks],
      [refuse_inverted_contract_order].
    - [Catalog]: what planning reads of the store: environments,
      subscriptions, links, release manifests, recalls, previews.
    - [ReleaseSelection]: [plan/release_selection.rs]: pins, ranges, facts,
      and the variants of a model runtime.
    - [Holds]: dependency holds of [environment.rs].
    - [DependencyDocument]: [dependency_document.rs].
    - [HostSteps]: how [plan/convergence.rs] reads the applier's record and
      binds host steps to it.
    - [Convergence]: the desired-versus-deployed snapshot, the pending
      changes, their order and their steps.
    - [PlanCreation]: plans made of those steps and stored; explicit rollback
      and restart steps.

    The embedded store:
    - [Plan]: [plan.rs] and [plan/lifecycle.rs]: content address, stored
      object, its checks, transitions.
    - [ObjectStore]: [storage/sqlite_objects]: the tables of environments,
      releases, channels, plans and properties, their upserts, reads and
      deletions.
    - [Leases]: [namespaced_leases.rs] and the writes and deletions of
      [object_writes.rs].
    - [StoreHistory]: what holds of every sequence of these operations.
    - [PlanQueries]: queries over the property index, and the plans of an
      environment by state.

    Trust:
    - [Approvals]: [plan_approval.rs], [signature_verification.rs] and
      [host_apply/policy.rs].
    - [ReleaseSigning]: [release_signing.rs]: envelopes, roots, revocation.
    - [ApprovalPolicy]: [approval_policy.rs]: who must sign, and when a plan
      is signed automatically.
    - [Criticality]: [criticality.rs] and [criticality_store.rs]: declared and
      derived levels.
    - [AuthContext]: [auth_context.rs]: who calls, and the authenticators a
      host composes.
    - [OidcGrants]: [oidc_auth.rs]: access tokens, their keys, actor chains
      and the grants of a token.
    - [GrantRules]: [grant_rules.rs] and [storage/grant_rules.rs]: stored
      grant rules on any number of replicas.

    The catalog of releases:
    - [ReleaseEvidence]: [release_provenance.rs], [change_set_pin.rs] and
      [family_release.rs]: what a release is published with, and stores of it.
    - [Publication]: [catalog.rs], [catalog/publication.rs] and
      [catalog/trust.rs]: publishing, recalling, promoting, looking up and
      verifying releases again.
    - [CatalogHistory]: all of these at once on one store.

    Executing a plan:
    - [ExecutionAdmission]: [apply/execution_admission.rs]: whether a stored
      plan is still what planning would say.
    - [Maintenance]: [maintenance.rs]: windows and eligibility.
    - [DeliveryHolds]: [delivery_hold.rs].
    - [Topology]: [topology.rs]: placement and availability of replicas.
    - [HealthGate]: [health_gate.rs]: samples, verdicts, the bake window.
    - [Deployments]: [apply/outcome.rs] and what is recorded of a step.
    - [ProductExecution]: [apply/product_execution.rs]: activation, restart
      and removal on a target.
    - [StepLifecycle]: [apply/step_lifecycle.rs]: one step, with recovery,
      restore and compensation.
    - [PlanExecution]: [apply.rs], [apply/start_admission.rs],
      [apply/execution_attempt.rs] and [apply/plan_completion.rs]: one plan
      under its lease.
    - [Outcomes]: [terminal_outcome.rs] and [feedback_observation.rs]: what a
      step's end proves, and the observation kept of it.
    - [ExecutionLease]: [apply/execution_lease.rs] and
      [runtime_credentials.rs]: an environment is claimed, renewed, handed
      over and given up.

    Runtimes that execute in their own environment:
    - [RuntimeClaims]: [storage/runtime_plans.rs]: the claim on a plan, one
      statement at a time, on any number of servers.
    - [RuntimeCompletion]: [runtime_delivery.rs: complete_runtime_work]: what
      the server records of a completion.
    - [RuntimeDelivery]: the handlers of [runtime_delivery.rs]: admission,
      work, completion, renewal, inventory, enrollment.
    - [RuntimeHandoff]: [storage/runtime_enrollment.rs], and servers and
      runtimes on one store: who executes an environment.

    Deciding what to execute:
    - [ReconcileFence]: [reconcile_fence.rs] and the clock guard.
    - [Scheduler]: [reconciler.rs] and [reconciler/tick_admission.rs]:
      admission, backoff, a tick.
    - [Reconciler]: [reconciler/environment_lifecycle.rs]: one environment,
      from recovery to execution.

    Spreading a release:
    - [Waves]: [wave/execution.rs]: a release over environments in order.
    - [Canary]: [canary.rs] and [canary/evaluation.rs]: policies, outcomes,
      verification, evaluation.
    - [CanaryPromotion]: [canary/promotion_lifecycle.rs] and the evaluation of
      what the store holds.
    - [CanaryAttempts]: [canary/attempt_lifecycle.rs].

    The host:
    - [HostState]: [host_apply/state.rs], the applied-state record.
    - [HostVerify]: [host_apply/request.rs] and [host_apply/verify.rs].
    - [HostApplier]: [crates/tenkai-host-applier]: [store.rs] and [apply.rs],
      with crashes.

    ** How code becomes definitions

    Every operation is one executable definition.  A [Result] is [result],
    with an [Inductive] error type per component that has one constructor per
    [bail!] site (messages are modelled only where another part reads them).
    A [BTreeMap] or [HashMap] is a [gmap], or an association list where the
    order of iteration is observed; the iteration order of a [HashMap] is a
    parameter ([Catalog.HashOrder], [CanaryPromotion.AttemptOrder]).  Machine
    integers are [Z] with the bounds, saturation or wrap-around of the source
    written out.  The clock, fresh UUIDs and what the machine answers are
    arguments or effects.

    Stateful code is modelled in one of four ways.  The store and the planner
    pass their state: the object store of [Plan], [ObjectStore] and [Leases]
    (each operation is one immediate transaction, so a history is a sequence
    of operations), the context [Catalog.Ctx].  Asynchronous code (execution,
    reconciliation, waves, canaries) is a program of [Effects]: a tree that
    says which effect comes next after every answer of the store, a target or
    a fence, failures included; a theorem holds whatever the answers are, so
    also when other processes write in between.  And the host applier returns
    the sequence of events it causes (atomic file writes, and the start of the
    command as root); a crash keeps any prefix of them, and
    [HostApplier.history] is the reflexive-transitive closure of such runs.
    A wave's history is cut short at any effect in the same way
    ([Waves.wave_command]).  Where several servers, replicas or agents share a
    store ([GrantRules], [RuntimeClaims], [RuntimeHandoff], [CatalogHistory])
    the programs are threads of [Interleaving]: a schedule says whose statement runs next, how
    it fares (done, failed, or done with its answer lost) and what the clock
    shows, and a theorem holds of every schedule.

    What a program may do is stated over what it has learnt: the facts its
    answers gave, in order.  [Waves.may_run], [CanaryPromotion.may_promote],
    [Reconciler.may_execute] are such statements.

    Recursion that is not structural runs on fuel that is proved to suffice:
    [CycleCheck.visit] gets one more than the number of nodes, since a visit
    recurses only after marking its node ([CycleCheck.visit_total]);
    [Contracts.rank_loop] one more than the number of members, since each
    round removes one ([Contracts.name_ordered_ranks_total]);
    [Reconciler.walk_batches] ends within the number of queued plans
    ([windowed_selection_equivalent]); [HealthGate.bake] within the polls of
    its window ([bake_window_ends]).  [CanaryPromotion.claim_with_retry] and
    the allocation of audit, attempt and outcome ids count down the bounds of
    the source.  [Waves.advance_until] is the one loop the source leaves
    unbounded; no theorem depends on its fuel.

    ** Interfaces

    Code outside the repository, and I/O, enters as classes and records whose
    laws are named hypotheses, each instantiated concretely by the witnesses:
    [Semver] (parsing and the two comparisons, total orders);
    [Plan.PlanEncoding], [Waves.WaveJson] (serde and SHA-256: decoding inverts
    encoding); [ReleaseEvidence.ProvenanceJson],
    [ReleaseEvidence.ChangeSetJson], [Publication.SignatureJson] (serde, with
    its round trip where a lemma needs it); [ReleaseEvidence.FamilyJson],
    [Canary.CanaryJson], [CanaryPromotion.EvaluationJson],
    [CanaryAttempts.AttemptJson], [ObjectStore.JsonText],
    [Criticality.DerivedJson], [HealthGate.GateJson], [HealthGate.FloatText]
    (serde, without laws); [Approvals.Crypto], [ApprovalPolicy.SigningKeys],
    [ReleaseSigning.Base64], [ReleaseSigning.UrlFormat] (Ed25519 and text
    formats); [Catalog.ManifestFormat], [Topology.TopologyFormat],
    [ApprovalPolicy.PolicyFiles] (TOML); [Maintenance.Calendar] (the zone
    database); [PlanQueries.Queries] (SQL over JSON);
    [Convergence.PlanningServices] (placement, stored evidence, workshop
    modules); [OidcGrants.TokenCodec], [GrantRules.GrantRowCodec] (tokens and
    stored rows); [RuntimeCompletion.OutcomeRecords] (the record of an outcome
    provider), [RuntimeDelivery.RunnerCa] (client certificates) and
    [RuntimeDelivery.CompletionJson] (serde), without laws.

    Between the components of the program: [HostSteps.HostExecutor] is the
    planner's view of the applier, and [planned_host_steps_converge] joins the
    two sides; [ReconcileFence.ReconcileTickFence] is what a scheduler needs
    of a fence, with its laws proved of the embedded one;
    [AuthContext.TenantFree] is what the community authenticators promise to
    the stack that holds them.

    ** What the theorems show

    - Root execution.  No instance's command starts twice in any history of
      runs, replays and crashes ([host_step_runs_at_most_once]); an accepted
      request runs only signed and approved content ([verify_request_sound]),
      approved by a real quorum ([host_quorum_sound]).
    - Planning.  The stored plan converges the environment, by a step of the
      right action for everything that is not deployed as desired
      ([created_plan_converges]), each of its steps has a reason in the
      snapshot ([planned_steps_justified]), their order is characterised by
      what the changes are ([order_pending_order], [contract_plan_order_iff],
      [contract_plan_order_errors]), host steps agree with the applier
      ([planned_host_steps_converge]), and compatibility is exact
      ([evaluation_clean_iff]).
    - The store.  Tables stay consistent and published releases keep their
      content until they are deleted ([store_integrity]), a retired
      environment stays retired unless its row is deleted
      ([retirement_is_final]), a plan's content is
      immutable and its states move along the lifecycle ([plan_history]), a
      superseded holder is fenced out ([superseded_is_fenced_out]), work is
      found in order ([work_selection_exact]).
    - Trust.  Releases and automatic approvals are what trusted keys signed
      ([verify_release_sound], [automatic_approval_sound]), a tenant comes
      only from the loaded extension ([tenant_only_from_extension]),
      criticality is written under its fence and newest wins
      ([criticality_writes_fenced], [newest_derived_wins]).  The rules a
      replica honours are the stored ones of a generation not older than its
      bound ([honoured_rules_current]), a token has the capabilities these
      rules give it and no other ([token_capabilities_current],
      [file_grants_stand]), and a refreshed replica has caught up
      ([refresh_catches_up]).
    - The catalog.  A version that was published stays what it was, whoever
      publishes it again ([published_releases_immutable]); a recall is final
      for every later lookup ([recalled_never_deployed]); what leaves for an
      environment was signed under roots its publication trusted
      ([deployable_releases_signed]).  Provenance, change-set pins and gate
      flags are read back as they were stored ([provenance_round_trip],
      [pin_round_trip], [gate_flags_round_trip]).
    - Execution.  A step runs only in its turn, for the plan that was loaded,
      verified, leased and found fresh ([steps_run_only_admitted],
      [admitted_iff_fresh], [created_plan_admissible], [plan_open_sound],
      [evaluate_spec], [hold_until_cleared]), mutates only under its fence
      ([step_mutations_fenced]), and its record says what happened on the
      target ([step_record_truthful]); a gate passes only when healthy and its
      window ends ([gate_passes_only_when_healthy], [bake_window_ends]); a
      plan the built-in executor runs settles as its steps ended and gives its
      lease back ([plan_execution_settles], [lease_given_back]).
    - Runtimes.  A plan is completed once, by the holder of its latest claim
      ([runtime_claims_fenced]); a runtime is handed a plan only if
      the token or certificate it presents admits it to the environment and
      the plan may start there ([work_handed_out_checked]); a completion is applied only once it is
      stored ([completions_applied_when_due]), is recorded as if the server
      had run the steps ([completion_recorded]), and the first one stands
      ([completion_replayed]); and a server and a runtime never execute one
      environment together ([server_and_runtime_exclude]).
    - Reconciliation.  What runs was selected and authorized
      ([reconcile_runs_only_selected], [windowed_selection_equivalent]), by
      one claimant at a time ([fence_excludes]); an environment that failed
      waits, within the bounds of its backoff ([backoff_follows_failures]).
    - Spreading a release.  Members of a wave start in order, a failure stops
      the rest, and what a member ended with stays ([wave_history_ordered]);
      each run is of the member's own plan, revalidated, authorized and leased
      ([wave_runs_in_order]).
      A promotion follows passed canaries ([promotion_follows_canaries]), and
      clean canaries allow it ([clean_canaries_allow]).

    Findings are examples next to the code they are about, such as
    [Waves.WaveExamples.interrupted_rollback_goes_forward].

    ** Not modelled

    Serialization (TOML, JSON, Kubernetes objects), cryptography and key
    providers, SQL and PostgreSQL, processes and executors (Helm, Docker,
    Kubernetes), HTTP, the command line, telemetry and the UI are I/O or
    foreign code.  Fleet budget, fairness and rollout time are measurement
    harnesses.  The runtime agent is a process; of the server's side of its
    protocol, certificates, attestation evidence and self-release files are
    not modelled, nor is the background renewal of a running mutation
    ([run_with_lease_renewal]), which is a matter of timers.  Core logic left
    out: the typed records of [storage/catalog.rs] and [storage/plans.rs],
    fixtures and migrations, which write the tables of [ObjectStore] by other
    statements; the exposure gate ([exposure.rs]), which execution asks as an effect;
    the listings of [catalog.rs]; tenant stores and signed assertions
    ([tenant_store.rs], [assertion_verifier.rs]); connectivity and offline
    bundles. *)

From stdpp Require Export base gmap strings list sorting pretty relations.
From Stdlib Require Export ZArith Ascii.

#[global] Open Scope Z_scope.
#[global] Set Default Goal Selector "!".

Declare Scope tenkai_scope.
Delimit Scope tenkai_scope with tenkai.
#[global] Open Scope tenkai_scope.

(** ** Fallible code

    Rust's [Result<T, E>], with the [?] operator as a binding notation.  The
    error type of a component is an [Inductive] whose constructors are the
    component's [bail!] sites. *)

Inductive result (T E : Type) : Type :=
| Ok (value : T)
| Err (error : E).
Arguments Ok {T E} value.
Arguments Err {T E} error.

Notation "'let?' x ':=' c 'in' k" :=
  (match c with Ok x => k | Err err => Err err end)
  (at level 10, x pattern, c at level 100, k at level 200,
   format "'[v' 'let?'  x  ':='  c  'in' '/' k ']'") : tenkai_scope.

Notation "'bail_if' b 'with' e 'in' k" :=
  (if b then Err e else k)
  (at level 10, b at level 100, e at level 100, k at level 200,
   format "'[v' 'bail_if'  b  'with'  e  'in' '/' k ']'") : tenkai_scope.

Definition is_ok {T E} (r : result T E) : bool :=
  match r with Ok _ => true | Err _ => false end.

Definition ok_or {T E} (o : option T) (e : E) : result T E :=
  match o with Some t => Ok t | None => Err e end.

Definition map_err {T E F} (f : E → F) (r : result T E) : result T F :=
  match r with Ok t => Ok t | Err e => Err (f e) end.

(** A [for] loop over a sequence whose body may return early with [?]. *)
Fixpoint try_fold {A S E} (body : S → A → result S E) (s : S) (l : list A) : result S E :=
  match l with
  | [] => Ok s
  | a :: rest => let? s' := body s a in try_fold body s' rest
  end.

(** The same loop where the body only checks. *)
Fixpoint try_for_each {A E} (body : A → result unit E) (l : list A) : result unit E :=
  match l with
  | [] => Ok tt
  | a :: rest => let? _ := body a in try_for_each body rest
  end.

(** [iter().find_map()] and [iter().find()]. *)
Fixpoint find_map {A B} (f : A → option B) (l : list A) : option B :=
  match l with
  | [] => None
  | a :: rest => match f a with Some b => Some b | None => find_map f rest end
  end.

Definition find_first {A} (p : A → bool) (l : list A) : option A :=
  find_map (λ a, if p a then Some a else None) l.

(** [Option::is_some_and] and [Option::is_none_or]. *)
Definition is_some_and {A} (o : option A) (p : A → bool) : bool :=
  match o with Some a => p a | None => false end.

Definition is_none_or {A} (o : option A) (p : A → bool) : bool :=
  match o with Some a => p a | None => true end.

Definition is_some_b {A} (o : option A) : bool :=
  match o with Some _ => true | None => false end.

Lemma is_some_b_true {A} (o : option A) : is_some_b o = true ↔ is_Some o.
Proof. destruct o; simpl; [|rewrite is_Some_alt]; naive_solver. Qed.

(** ** Machine integers *)

Definition u32_max : Z := 4294967295.
Definition u64_max : Z := 18446744073709551615.
Definition i64_max : Z := 9223372036854775807.
Definition i64_min : Z := -9223372036854775808.

(** [u64::checked_add], [i64::saturating_add], [i64::saturating_sub] and
    [i64::saturating_mul]. *)
Definition u64_checked_add (a b : Z) : option Z :=
  if a + b <=? u64_max then Some (a + b) else None.

Definition i64_clamp (a : Z) : Z := Z.max i64_min (Z.min i64_max a).
Definition i64_saturating_add (a b : Z) : Z := i64_clamp (a + b).
Definition i64_saturating_sub (a b : Z) : Z := i64_clamp (a - b).
Definition i64_saturating_mul (a b : Z) : Z := i64_clamp (a * b).

(** ** Orderings

    Rust's [Ordering], [Ord::cmp] and [Ordering::then_with].  A lawful
    comparison is a total preorder. *)

Definition then_with (first second : comparison) : comparison :=
  match first with Eq => second | _ => first end.

Class Ordered {A} (cmp : A → A → comparison) : Prop := {
  cmp_antisym x y : cmp y x = CompOpp (cmp x y);
  cmp_trans x y z : cmp x y ≠ Gt → cmp y z ≠ Gt → cmp x z ≠ Gt
}.
Arguments cmp_antisym {A} cmp {_} x y.
Arguments cmp_trans {A} cmp {_} x y z.

Definition cmp_on {A B} (f : A → B) (cmp : B → B → comparison) (x y : A) : comparison :=
  cmp (f x) (f y).

Definition cmp_lex {A} (c1 c2 : A → A → comparison) (x y : A) : comparison :=
  then_with (c1 x y) (c2 x y).

Definition bool_cmp (a b : bool) : comparison :=
  match a, b with
  | false, true => Lt
  | true, false => Gt
  | _, _ => Eq
  end.

Section Ordered.
Context {A : Type} (cmp : A → A → comparison) `{!Ordered cmp}.

Lemma cmp_refl x : cmp x x = Eq.
Proof. pose proof (cmp_antisym cmp x x) as H. destruct (cmp x x); done. Qed.

Lemma cmp_gt_lt x y : cmp x y = Gt ↔ cmp y x = Lt.
Proof. rewrite (cmp_antisym cmp x y). destruct (cmp x y); simpl; naive_solver. Qed.

Lemma cmp_total x y : cmp x y ≠ Gt ∨ cmp y x ≠ Gt.
Proof. rewrite (cmp_antisym cmp x y). destruct (cmp x y); simpl; naive_solver. Qed.

Lemma cmp_lt_le_trans x y z : cmp x y = Lt → cmp y z ≠ Gt → cmp x z = Lt.
Proof.
  intros Hxy Hyz.
  assert (cmp x z ≠ Gt) as Hxz by (apply (cmp_trans cmp) with y; congruence).
  destruct (cmp x z) eqn:E; [|done|done]. exfalso.
  assert (cmp y x ≠ Gt) as Hyx.
  { apply (cmp_trans cmp) with z; [done|]. rewrite (cmp_antisym cmp x z), E. done. }
  apply Hyx. rewrite (cmp_antisym cmp x y), Hxy. done.
Qed.

Lemma cmp_eq_sym x y : cmp x y = Eq → cmp y x = Eq.
Proof. intros E. rewrite (cmp_antisym cmp x y), E. done. Qed.

Lemma cmp_le_lt_trans x y z : cmp x y ≠ Gt → cmp y z = Lt → cmp x z = Lt.
Proof.
  intros Hxy Hyz.
  assert (cmp x z ≠ Gt) as Hxz by (apply (cmp_trans cmp) with y; congruence).
  destruct (cmp x z) eqn:E; [|done|done]. exfalso.
  assert (cmp z y ≠ Gt) as Hzy.
  { apply (cmp_trans cmp) with x; [|done]. rewrite (cmp_eq_sym _ _ E). done. }
  apply Hzy. rewrite (cmp_antisym cmp y z), Hyz. done.
Qed.
End Ordered.

#[export] Instance cmp_on_ordered {A B} (f : A → B) cmp :
  Ordered cmp → Ordered (cmp_on f cmp).
Proof.
  intros H. split; unfold cmp_on; [intros; apply (cmp_antisym cmp)|].
  intros x y z. apply (cmp_trans cmp).
Qed.

#[export] Instance cmp_lex_ordered {A} (c1 c2 : A → A → comparison) :
  Ordered c1 → Ordered c2 → Ordered (cmp_lex c1 c2).
Proof.
  intros H1 H2. split; unfold cmp_lex.
  - intros x y. rewrite (cmp_antisym c1 x y), (cmp_antisym c2 x y).
    by destruct (c1 x y).
  - intros x y z Hxy Hyz.
    destruct (c1 x y) eqn:E1; simpl in *; [|by rewrite (cmp_lt_le_trans c1 x y z); [|done|destruct (c1 y z)]|done].
    destruct (c1 y z) eqn:E2; simpl in *; [| |done].
    + destruct (c1 x z) eqn:E3; simpl; [by apply (cmp_trans c2 x y z)|done|].
      exfalso. apply (cmp_trans c1 x y z); congruence.
    + rewrite (cmp_le_lt_trans c1 x y z); [done|congruence|done].
Qed.

#[export] Instance Z_compare_ordered : Ordered Z.compare.
Proof.
  split.
  - intros. apply Z.compare_antisym.
  - intros x y z. rewrite !Z.compare_gt_iff. lia.
Qed.

#[export] Instance bool_cmp_ordered : Ordered bool_cmp.
Proof. split; [by intros [] []|by intros [] [] []]. Qed.

#[export] Instance string_compare_ordered : Ordered String.compare.
Proof.
  split.
  - intros x y. apply String.compare_antisym.
  - intros x y z Hxy Hyz.
    assert (Hle : ∀ a b, (a ?= b)%string ≠ Gt ↔ String.le a b).
    { intros a b. unfold String.le, String.leb. destruct (a ?= b)%string; simpl; naive_solver. }
    rewrite Hle in *. by etrans.
Qed.

(** [slice::sort_by] is stable: insertion from the right puts an element
    before the equal ones that followed it. *)
Section Sorting.
Context {A : Type} (cmp : A → A → comparison).

Fixpoint insert_by (x : A) (l : list A) : list A :=
  match l with
  | [] => [x]
  | y :: rest =>
    match cmp x y with
    | Gt => y :: insert_by x rest
    | _ => x :: y :: rest
    end
  end.

Definition sort_by (l : list A) : list A := foldr insert_by [] l.

Lemma insert_by_perm x l : insert_by x l ≡ₚ x :: l.
Proof.
  induction l as [|y l IH]; simpl; [done|].
  destruct (cmp x y); [done|done|]. rewrite IH. by apply perm_swap.
Qed.

Lemma sort_by_perm l : sort_by l ≡ₚ l.
Proof. induction l as [|x l IH]; simpl; [done|]. by rewrite insert_by_perm, IH. Qed.

Lemma elem_of_sort_by x l : x ∈ sort_by l ↔ x ∈ l.
Proof. by rewrite sort_by_perm. Qed.

Lemma sort_by_NoDup l : NoDup l → NoDup (sort_by l).
Proof. by rewrite sort_by_perm. Qed.

Lemma sort_by_length l : length (sort_by l) = length l.
Proof. by rewrite sort_by_perm. Qed.

Lemma insert_by_sorted `{!Ordered cmp} x l :
  StronglySorted (λ a b, cmp a b ≠ Gt) l →
  StronglySorted (λ a b, cmp a b ≠ Gt) (insert_by x l).
Proof.
  induction 1 as [|y l Hl IH Hy]; simpl; [by repeat constructor|].
  assert (Hle : cmp x y ≠ Gt → StronglySorted (λ a b, cmp a b ≠ Gt) (x :: y :: l)).
  { intros Hxy. constructor; [by constructor|]. constructor; [done|].
    eapply Forall_impl; [exact Hy|]. intros z Hyz. by apply (cmp_trans cmp) with y. }
  destruct (cmp x y) eqn:E; [by apply Hle|by apply Hle|].
  constructor; [done|]. rewrite insert_by_perm. constructor; [|done].
  apply cmp_gt_lt in E; [|done]. by rewrite E.
Qed.

Lemma sort_by_sorted `{!Ordered cmp} l :
  StronglySorted (λ a b, cmp a b ≠ Gt) (sort_by l).
Proof. induction l; simpl; [constructor|]. by apply insert_by_sorted. Qed.
End Sorting.

(** Positions in a sorted sequence follow the order. *)
Lemma StronglySorted_lookup {A} (R : relation A) l i j x y :
  StronglySorted R l → l !! i = Some x → l !! j = Some y → (i < j)%nat → R x y.
Proof.
  intros Hs. revert i j. induction Hs as [|a l Hl IH Ha]; intros i j Hi Hj Hij; [done|].
  destruct i as [|i], j as [|j]; [lia| |lia|]; simplify_eq/=.
  - rewrite Forall_forall in Ha. apply Ha. by eapply list_elem_of_lookup_2.
  - apply (IH i j); [done..|lia].
Qed.

Lemma StronglySorted_filter {A} (R : relation A) (P : A → Prop) `{∀ x, Decision (P x)} l :
  StronglySorted R l → StronglySorted R (filter P l).
Proof.
  induction 1 as [|x l _ IH Hx]; [constructor|]. rewrite filter_cons. case_decide; [|done].
  constructor; [done|]. apply Forall_forall. intros y [_ Hy]%list_elem_of_filter.
  by rewrite Forall_forall in Hx; apply Hx.
Qed.

(** What is paired with a sorted list is sorted. *)
Lemma StronglySorted_Forall2 {A B} (R : relation A) (S : relation B) (T : A → B → Prop) l k :
  (∀ a b x y, T a x → T b y → R a b → S x y) →
  StronglySorted R l → Forall2 T l k → StronglySorted S k.
Proof.
  intros HRS Hl Hlk. revert Hl. induction Hlk as [|a x l k Hax Hlk IH]; intros Hl; [constructor|].
  apply StronglySorted_inv in Hl as [Hl Ha]. constructor; [by apply IH|].
  apply Forall_forall. intros y [i Hy]%list_elem_of_lookup.
  destruct (Forall2_lookup_r _ _ _ _ _ Hlk Hy) as (b & Hb & Hby).
  rewrite Forall_forall in Ha. eapply HRS; [done..|]. apply Ha. by eapply list_elem_of_lookup_2.
Qed.

(** An element that is strictly smaller than another stands before it. *)
Lemma sort_by_before {A} (cmp : A → A → comparison) `{!Ordered cmp} l i j x y :
  sort_by cmp l !! i = Some x → sort_by cmp l !! j = Some y → cmp x y = Lt → (i < j)%nat.
Proof.
  intros Hi Hj Hlt. destruct (decide (i < j)%nat) as [|Hge]; [done|exfalso].
  destruct (decide (i = j)) as [->|Hne].
  { simplify_eq. rewrite cmp_refl in Hlt; done. }
  assert (cmp y x ≠ Gt) as Hyx.
  { eapply (StronglySorted_lookup (λ a b, cmp a b ≠ Gt)); [apply (sort_by_sorted cmp)|exact Hj|exact Hi|lia]. }
  apply Hyx. by apply cmp_gt_lt.
Qed.

Lemma sort_by_ext {A} (cmp cmp' : A → A → comparison) l :
  (∀ x y, x ∈ l → y ∈ l → cmp x y = cmp' x y) → sort_by cmp l = sort_by cmp' l.
Proof.
  induction l as [|x l IH]; intros Heq; [done|]. simpl. rewrite <-IH by set_solver.
  assert (∀ y, y ∈ sort_by cmp l → cmp x y = cmp' x y) as Hx.
  { intros y Hy%elem_of_sort_by. apply Heq; set_solver. }
  clear -Hx. induction (sort_by cmp l) as [|y r IHr]; [done|]. simpl.
  rewrite <-Hx by left. destruct (cmp x y); [done|done|]. rewrite IHr; [done|set_solver].
Qed.

(** [candidates.sort_by(cmp); candidates.pop()]. *)
Lemma sort_by_last_max {A} (cmp : A → A → comparison) `{!Ordered cmp} l x :
  last (sort_by cmp l) = Some x → x ∈ l ∧ ∀ y, y ∈ l → cmp y x ≠ Gt.
Proof.
  rewrite last_lookup. intros Hx. split.
  { apply (elem_of_sort_by cmp). by eapply list_elem_of_lookup_2. }
  intros y Hy. apply (elem_of_sort_by cmp), list_elem_of_lookup in Hy as [i Hi].
  pose proof (lookup_lt_Some _ _ _ Hi) as Hlt.
  destruct (decide (i = pred (length (sort_by cmp l)))) as [->|Hne].
  { simplify_eq. by rewrite (cmp_refl cmp). }
  eapply (StronglySorted_lookup (λ a b, cmp a b ≠ Gt)); [apply (sort_by_sorted cmp)|exact Hi|exact Hx|lia].
Qed.

(** ** Ordered collections

    [BTreeMap] and [BTreeSet] are [gmap] and [gset]; iterating one goes
    through its entries in key order. *)
Definition btree_iter {V} (m : gmap string V) : list (string * V) :=
  sort_by (cmp_on fst String.compare) (map_to_list m).

Definition btree_values {V} (m : gmap string V) : list V := (btree_iter m).*2.

Definition btree_keys {V} (m : gmap string V) : list string := (btree_iter m).*1.

Definition btree_set_iter (s : gset string) : list string :=
  sort_by String.compare (elements s).

Lemma elem_of_btree_iter {V} (m : gmap string V) k v :
  (k, v) ∈ btree_iter m ↔ m !! k = Some v.
Proof. unfold btree_iter. by rewrite elem_of_sort_by, elem_of_map_to_list. Qed.

Lemma btree_iter_keys_NoDup {V} (m : gmap string V) : NoDup (btree_iter m).*1.
Proof.
  unfold btree_iter. rewrite (fmap_Permutation fst _ _ (sort_by_perm _ _)).
  apply NoDup_fst_map_to_list.
Qed.

Lemma elem_of_btree_values {V} (m : gmap string V) v :
  v ∈ btree_values m ↔ ∃ k, m !! k = Some v.
Proof.
  unfold btree_values. rewrite list_elem_of_fmap. split.
  - intros ([k v'] & -> & Hin). exists k. by apply elem_of_btree_iter.
  - intros [k Hk]. exists (k, v). by rewrite elem_of_btree_iter.
Qed.

Lemma elem_of_btree_keys {V} (m : gmap string V) k :
  k ∈ btree_keys m ↔ is_Some (m !! k).
Proof.
  unfold btree_keys. rewrite list_elem_of_fmap. split.
  - intros ([k' v'] & -> & Hin). exists v'. by apply elem_of_btree_iter.
  - intros [v Hk]. exists (k, v). by rewrite elem_of_btree_iter.
Qed.

Lemma elem_of_btree_set_iter (s : gset string) k : k ∈ btree_set_iter s ↔ k ∈ s.
Proof. unfold btree_set_iter. by rewrite elem_of_sort_by, elem_of_elements. Qed.

Lemma NoDup_btree_set_iter (s : gset string) : NoDup (btree_set_iter s).
Proof. apply sort_by_NoDup, NoDup_elements. Qed.

(** ** Loops *)

Lemma try_for_each_ok {A E} (body : A → result unit E) l :
  try_for_each body l = Ok tt ↔ ∀ a, a ∈ l → body a = Ok tt.
Proof.
  induction l as [|a l IH]; simpl.
  - split; [intros _ a Ha; by apply not_elem_of_nil in Ha|done].
  - split.
    + intros H b [->|Hb]%elem_of_cons; destruct (body _) as [[]|e] eqn:Eb; simplify_eq; [done|].
      by apply IH.
    + intros H. rewrite (H a) by apply list_elem_of_here. apply IH. intros b Hb.
      apply H. by right.
Qed.

Lemma try_for_each_err {A E} (body : A → result unit E) l e :
  try_for_each body l = Err e → ∃ a, a ∈ l ∧ body a = Err e.
Proof.
  induction l as [|a l IH]; simpl; [done|].
  destruct (body a) as [[]|e'] eqn:Ea; intros H.
  - destruct (IH H) as (b & Hb & He). exists b. split; [by right|done].
  - simplify_eq. exists a. split; [apply list_elem_of_here|done].
Qed.

(** An invariant of the accumulator carries through a loop that returns. *)
Lemma try_fold_invariant {A S E} (P : S → Prop) (body : S → A → result S E) s l s' :
  P s → (∀ a s1 s2, a ∈ l → P s1 → body s1 a = Ok s2 → P s2) →
  try_fold body s l = Ok s' → P s'.
Proof.
  revert s. induction l as [|a l IH]; simpl; intros s Hs Hstep H; [by simplify_eq|].
  destruct (body s a) as [s1|e] eqn:Ea; [|done].
  eapply IH; [|intros b s2 s3 Hb; apply Hstep; by right|exact H].
  eapply Hstep; [apply list_elem_of_here|exact Hs|exact Ea].
Qed.

Lemma try_fold_app {A S E} (body : S → A → result S E) s l k :
  try_fold body s (l ++ k) = (let? s' := try_fold body s l in try_fold body s' k).
Proof.
  revert s. induction l as [|a l IH]; intros s; simpl; [done|]. by destruct (body s a); simpl.
Qed.

Lemma foldl_invariant {A S} (P : S → Prop) (body : S → A → S) l s :
  P s → (∀ a s1, a ∈ l → P s1 → P (body s1 a)) → P (foldl body s l).
Proof.
  revert s. induction l as [|a l IH]; simpl; intros s Hs Hstep; [done|].
  apply IH; [by apply Hstep; [apply list_elem_of_here|]|].
  intros b s1 Hb. apply Hstep. by right.
Qed.

Lemma find_map_some {A B} (f : A → option B) l b :
  find_map f l = Some b → ∃ a, a ∈ l ∧ f a = Some b.
Proof.
  induction l as [|a l IH]; simpl; [done|]. destruct (f a) eqn:Ef; intros H.
  - simplify_eq. exists a. split; [apply list_elem_of_here|done].
  - destruct (IH H) as (a' & Ha & Hf). exists a'. split; [by right|done].
Qed.

Lemma find_map_none {A B} (f : A → option B) l :
  find_map f l = None ↔ ∀ a, a ∈ l → f a = None.
Proof.
  induction l as [|a l IH]; simpl.
  - split; [intros _ a Ha; by apply not_elem_of_nil in Ha|done].
  - destruct (f a) eqn:Ef; split.
    + done.
    + intros H. rewrite (H a) in Ef; [done|apply list_elem_of_here].
    + intros H b [->|Hb]%elem_of_cons; [done|]. by apply IH.
    + intros H. apply IH. intros b Hb. apply H. by right.
Qed.

Lemma find_first_some {A} (p : A → bool) l a : find_first p l = Some a → a ∈ l ∧ p a = true.
Proof.
  unfold find_first. induction l as [|b l IH]; simpl; [done|].
  destruct (p b) eqn:Hb; [intros [= <-]; split; [left|done]|].
  intros [? ?]%IH. split; [by right|done].
Qed.

Lemma find_first_none {A} (p : A → bool) l :
  find_first p l = None ↔ ∀ a, a ∈ l → p a = false.
Proof.
  unfold find_first. induction l as [|a l IH]; simpl.
  { split; [intros _ a []%elem_of_nil|done]. }
  destruct (p a) eqn:Ha; [split; [done|]; intros H; by rewrite (H a) in Ha; [|left]|].
  rewrite IH. split; [intros H b [->|Hb]%elem_of_cons; auto|intros H b Hb; apply H; by right].
Qed.

(** A list whose set is as large as the list repeats nothing. *)
Lemma size_list_to_set_le (l : list string) : (size (list_to_set l : gset string) ≤ length l)%nat.
Proof.
  induction l as [|x l IH]; [done|]. simpl. rewrite size_union_alt, size_singleton.
  pose proof (subseteq_size (list_to_set l ∖ {[x]} : gset string) (list_to_set l) ltac:(set_solver)). lia.
Qed.

Lemma size_list_to_set_NoDup (l : list string) : size (list_to_set l : gset string) = length l → NoDup l.
Proof.
  induction l as [|x l IH]; simpl; [constructor|]. intros Hs.
  pose proof (size_list_to_set_le l). destruct (decide (x ∈ l)) as [Hx|Hx].
  - replace ({[x]} ∪ list_to_set l : gset string) with (list_to_set l : gset string) in Hs by set_solver. lia.
  - constructor; [done|]. apply IH. rewrite size_union, size_singleton in Hs by set_solver. lia.
Qed.

Lemma existsb_elem {A} (p : A → bool) l : existsb p l = true ↔ ∃ a, a ∈ l ∧ p a = true.
Proof. rewrite existsb_exists. by setoid_rewrite list_elem_of_In. Qed.

Lemma forallb_elem {A} (p : A → bool) l : forallb p l = true ↔ ∀ a, a ∈ l → p a = true.
Proof. rewrite forallb_forall. by setoid_rewrite list_elem_of_In. Qed.

(** Reachability only depends on the edges. *)
Lemma tc_iff {A} (R S : relation A) : (∀ a b, R a b ↔ S a b) → ∀ a b, tc R a b ↔ tc S a b.
Proof.
  intros H a b. split; intros Htc; induction Htc as [x y Hx|x y z Hx _ IH];
    [apply tc_once|eapply tc_l; [|exact IH]|apply tc_once|eapply tc_l; [|exact IH]]; by apply H.
Qed.

(** [map.entry(k).or_default().push(a)] on a map of lists, and what a loop of
    such updates accumulates. *)
Definition entries {A} (m : gmap string (list A)) (k : string) : list A := default [] (m !! k).

Definition push_entry {A} (m : gmap string (list A)) (k : string) (a : A) : gmap string (list A) :=
  <[k := entries m k ++ [a]]> m.

Lemma elem_of_push_entry {A} (m : gmap string (list A)) k a k' b :
  b ∈ entries (push_entry m k a) k' ↔ b ∈ entries m k' ∨ (k = k' ∧ b = a).
Proof.
  unfold push_entry. unfold entries at 1. rewrite lookup_insert. case_decide as Hk; simpl.
  - subst k'. rewrite elem_of_app, list_elem_of_singleton. naive_solver.
  - unfold entries. naive_solver.
Qed.

Lemma foldl_entries {A B} (body : gmap string (list A) → B → gmap string (list A))
    (Q : B → string → A → Prop) m l k a :
  (∀ x m k a, x ∈ l → a ∈ entries (body m x) k ↔ a ∈ entries m k ∨ Q x k a) →
  a ∈ entries (foldl body m l) k ↔ a ∈ entries m k ∨ ∃ x, x ∈ l ∧ Q x k a.
Proof.
  revert m. induction l as [|x l IH]; intros m Hbody; simpl.
  { split; [by left|]. intros [|(x & Hx & _)]; [done|]. by apply not_elem_of_nil in Hx. }
  rewrite IH by (intros; apply Hbody; by right).
  rewrite (Hbody x) by apply list_elem_of_here. setoid_rewrite elem_of_cons. naive_solver.
Qed.

(** ** Fallible sequences

    Inversion of a sequence of guards and [?] that returned [Ok]. *)
Lemma bail_ok {T E} (b : bool) (e : E) (k : result T E) v :
  (if b then Err e else k) = Ok v ↔ b = false ∧ k = Ok v.
Proof. destruct b; naive_solver. Qed.

Lemma bind_ok {S T E} (c : result S E) (k : S → result T E) v :
  match c with Ok x => k x | Err err => Err err end = Ok v ↔ ∃ x, c = Ok x ∧ k x = Ok v.
Proof. destruct c; naive_solver. Qed.

Lemma ok_or_ok {T E} (o : option T) (e : E) v : ok_or o e = Ok v ↔ o = Some v.
Proof. destruct o; simpl; naive_solver. Qed.

Lemma map_err_ok {T E F} (f : E → F) (r : result T E) v : map_err f r = Ok v ↔ r = Ok v.
Proof. destruct r; simpl; naive_solver. Qed.

Lemma negb_false b : negb b = false ↔ b = true.
Proof. destruct b; naive_solver. Qed.

(** ** Automation *)

(** Inverts [H : sequence = Ok v] guard by guard, leaving one fact per guard. *)
Ltac ok_inv H :=
  let E := fresh "Hg" in
  first
    [ apply bail_ok in H as [E H];
      rewrite ?negb_false, ?orb_false_iff, ?andb_false_iff, ?negb_false, ?bool_decide_eq_true,
        ?bool_decide_eq_false in E; ok_inv H
    | apply bind_ok in H as (? & E & H); rewrite ?ok_or_ok, ?map_err_ok in E; ok_inv H
    | idtac ].

(** Case analysis of a branching hypothesis, keeping the branch equations. *)
Ltac split_branches H :=
  repeat match type of H with
         | context [match ?x with _ => _ end] =>
           let E := fresh "E" in destruct x eqn:E; simplify_eq/=
         end.

(** Case analysis of the innermost scrutinee of the goal. *)
Ltac split_goal :=
  repeat match goal with
         | |- context [match ?x with _ => _ end] =>
           let E := fresh "E" in destruct x eqn:E; simplify_eq/=
         end.

Create HintDb tenkai.
#[export] Hint Rewrite @elem_of_btree_iter @elem_of_btree_values @elem_of_btree_keys
  elem_of_btree_set_iter @elem_of_sort_by : tenkai.
#[export] Hint Resolve sort_by_perm NoDup_btree_set_iter btree_iter_keys_NoDup : tenkai.
