(* ===== verification/RustStr.v ===== *)
(** * The parts of [str] the program uses

    A Rust string is modelled by its bytes, a [string] of [ascii].  Unicode
    whitespace outside ASCII is not trimmed here; every identifier the program
    accepts is ASCII. *)

From S2P Require Import Prelude.

Fixpoint strip_prefix (p s : string) : option string :=
  match p, s with
  | EmptyString, _ => Some s
  | String a p', String b s' => if decide (a = b) then strip_prefix p' s' else None
  | String _ _, EmptyString => None
  end.

Definition starts_with (p s : string) : bool := is_some_b (strip_prefix p s).

(** [str::split_once]: around the first occurrence of the pattern. *)
Fixpoint split_once (p s : string) : option (string * string) :=
  match strip_prefix p s with
  | Some rest => Some (EmptyString, rest)
  | None =>
    match s with
    | EmptyString => None
    | String c s' =>
      match split_once p s' with
      | Some (a, b) => Some (String c a, b)
      | None => None
      end
    end
  end.

(** [str::contains]. *)
Definition str_contains (p s : string) : bool := is_some_b (split_once p s).

(** [str::split] on one byte: always at least one piece. *)
Fixpoint split_on (sep : ascii) (s : string) : list string :=
  match s with
  | EmptyString => [EmptyString]
  | String c s' =>
    if decide (c = sep) then EmptyString :: split_on sep s'
    else match split_on sep s' with
         | piece :: rest => String c piece :: rest
         | [] => [String c EmptyString]
         end
  end.

Definition byte_of (c : ascii) : Z := Z.of_N (N_of_ascii c).

Definition is_whitespace (c : ascii) : bool :=
  let b := byte_of c in ((9 <=? b) && (b <=? 13)) || (b =? 32).

Definition is_control (c : ascii) : bool :=
  let b := byte_of c in (b <=? 31) || (b =? 127).

(** [str::chars().any(char::is_control)]: besides the ASCII ones, U+0080 to
    U+009F are controls, encoded as the byte 194 and one of 128 to 159. *)
Fixpoint any_control (s : string) : bool :=
  match s with
  | EmptyString => false
  | String c rest =>
    is_control c || any_control rest
    || match rest with
       | String d _ => (byte_of c =? 194) && (128 <=? byte_of d) && (byte_of d <=? 159)
       | EmptyString => false
       end
  end.

Definition is_ascii_digit (c : ascii) : bool :=
  let b := byte_of c in (48 <=? b) && (b <=? 57).

Definition is_ascii_alphanumeric (c : ascii) : bool :=
  let b := byte_of c in
  is_ascii_digit c || ((65 <=? b) && (b <=? 90)) || ((97 <=? b) && (b <=? 122)).

Definition is_ascii_hexdigit (c : ascii) : bool :=
  let b := byte_of c in
  is_ascii_digit c || ((65 <=? b) && (b <=? 70)) || ((97 <=? b) && (b <=? 102)).

Definition is_ascii_uppercase (c : ascii) : bool :=
  let b := byte_of c in (65 <=? b) && (b <=? 90).

Fixpoint all_bytes (p : ascii → bool) (s : string) : bool :=
  match s with
  | EmptyString => true
  | String c s' => p c && all_bytes p s'
  end.

Fixpoint any_byte (p : ascii → bool) (s : string) : bool :=
  match s with
  | EmptyString => false
  | String c s' => p c || any_byte p s'
  end.

Definition str_len (s : string) : Z := Z.of_nat (String.length s).

Definition str_is_empty (s : string) : bool :=
  match s with EmptyString => true | _ => false end.

Fixpoint trim_start (s : string) : string :=
  match s with
  | EmptyString => EmptyString
  | String c s' => if is_whitespace c then trim_start s' else s
  end.

Fixpoint trim_end (s : string) : string :=
  match s with
  | EmptyString => EmptyString
  | String c s' =>
    match trim_end s' with
    | EmptyString => if is_whitespace c then EmptyString else String c EmptyString
    | rest => String c rest
    end
  end.

Definition trim (s : string) : string := trim_end (trim_start s).

(** [str::parse] for an unsigned integer of maximum [max]: an optional plus
    sign, then at least one digit, refused on overflow. *)
Fixpoint parse_digits (max acc : Z) (s : string) : option Z :=
  match s with
  | EmptyString => Some acc
  | String c s' =>
    if is_ascii_digit c then
      let acc' := acc * 10 + (byte_of c - 48) in
      if acc' <=? max then parse_digits max acc' s' else None
    else None
  end.

Definition parse_uint (max : Z) (s : string) : option Z :=
  let digits := match s with
                | String c s' => if decide (c = "+"%char) then s' else s
                | EmptyString => s
                end in
  if str_is_empty digits then None else parse_digits max 0 digits.

Definition parse_u32 : string → option Z := parse_uint u32_max.
Definition parse_u64 : string → option Z := parse_uint u64_max.

(** [str::parse::<i64>]: an optional sign, then at least one digit. *)
Definition parse_i64 (s : string) : option Z :=
  match s with
  | String c rest =>
    if decide (c = "-"%char) then
      if str_is_empty rest then None
      else Z.opp <$> parse_digits (- i64_min) 0 rest
    else parse_uint i64_max s
  | EmptyString => None
  end.

(** [ontology::validate_identifier]. *)
Definition is_identifier_byte (c : ascii) : bool :=
  is_ascii_alphanumeric c || bool_decide (c = "."%char) || bool_decide (c = "_"%char)
  || bool_decide (c = "-"%char) || bool_decide (c = "+"%char).

Definition valid_identifier (value : string) : bool :=
  match value with
  | EmptyString => false
  | String first rest => is_ascii_alphanumeric first && all_bytes is_identifier_byte rest
  end.

(** ** Facts *)

Lemma strip_prefix_spec p s r : strip_prefix p s = Some r ↔ s = (p +:+ r)%string.
Proof.
  revert s. induction p as [|a p IH]; intros s; simpl.
  { split; [by intros [= ->]|by intros ->]. }
  destruct s as [|b s]; [done|]. destruct (decide (a = b)) as [->|Hne].
  - rewrite IH. split; [by intros ->|by intros [= ->]].
  - split; [done|]. by intros [= ->].
Qed.

Lemma strip_prefix_app p r : strip_prefix p (p +:+ r)%string = Some r.
Proof. by apply strip_prefix_spec. Qed.

Lemma split_once_spec p s a b :
  split_once p s = Some (a, b) → s = (a +:+ p +:+ b)%string.
Proof.
  revert a b. induction s as [|c s IH]; intros a b; simpl; destruct (strip_prefix p _) eqn:E.
  - intros [= <- <-]. by apply strip_prefix_spec in E.
  - done.
  - intros [= <- <-]. by apply strip_prefix_spec in E.
  - destruct (split_once p s) as [[a' b']|]; [|done]. intros [= <- <-].
    by rewrite (IH _ _ eq_refl) at 1.
Qed.

Lemma parse_digits_bounds max acc s z :
  0 ≤ acc ≤ max → parse_digits max acc s = Some z → acc ≤ z ≤ max.
Proof.
  revert acc. induction s as [|c s IH]; simpl; intros acc Hacc H; [simplify_eq; lia|].
  destruct (is_ascii_digit c) eqn:Ed; [|done].
  unfold is_ascii_digit in Ed. rewrite andb_true_iff, !Z.leb_le in Ed.
  destruct (Z.leb_spec (acc * 10 + (byte_of c - 48)) max); [|done].
  apply IH in H; lia.
Qed.

Lemma parse_uint_bounds max s z : 0 ≤ max → parse_uint max s = Some z → 0 ≤ z ≤ max.
Proof.
  unfold parse_uint. intros Hmax H. destruct (str_is_empty _); [done|].
  apply parse_digits_bounds in H; lia.
Qed.

(** Trimming a string it leaves unchanged starts by leaving it unchanged. *)
Lemma trim_start_cases s :
  trim_start s = s ∨ (String.length (trim_start s) < String.length s)%nat.
Proof.
  induction s as [|c s IH]; simpl; [by left|]. destruct (is_whitespace c); [|by left].
  right. destruct IH as [->|H]; lia.
Qed.

Lemma trim_end_length s : (String.length (trim_end s) ≤ String.length s)%nat.
Proof.
  induction s as [|c s IH]; simpl; [done|].
  destruct (trim_end s); [destruct (is_whitespace c); simpl; lia|simpl in *; lia].
Qed.

Lemma trim_id_start s : trim s = s → trim_start s = s.
Proof.
  unfold trim. intros H. destruct (trim_start_cases s) as [|Hlt]; [done|].
  pose proof (trim_end_length (trim_start s)) as Hle. rewrite H in Hle. lia.
Qed.

(** ** Printed integers parse back *)

Lemma pretty_N_char_digit d :
  (d < 10)%N → is_ascii_digit (pretty_N_char d) = true ∧ byte_of (pretty_N_char d) - 48 = Z.of_N d.
Proof.
  intros Hd. assert (d = 0 ∨ d = 1 ∨ d = 2 ∨ d = 3 ∨ d = 4 ∨ d = 5 ∨ d = 6 ∨ d = 7 ∨ d = 8 ∨ d = 9)%N
    as Hcases by lia.
  by destruct_or? Hcases; subst.
Qed.

Lemma parse_digits_pretty max x s :
  Z.of_N x ≤ max → parse_digits max 0 (pretty_N_go x s) = parse_digits max (Z.of_N x) s.
Proof.
  revert s. induction (N.lt_wf_0 x) as [x _ IH]; intros s Hmax.
  destruct (decide (x = 0)%N) as [->|Hx]; [by rewrite pretty_N_go_0|].
  rewrite pretty_N_go_step by lia.
  pose proof (N.Div0.div_mod x 10) as Hdm. pose proof (N.mod_lt x 10 ltac:(done)) as Hm.
  assert (Hq : Z.of_N x = 10 * Z.of_N (x `div` 10) + Z.of_N (x `mod` 10))
    by (rewrite Hdm at 1; rewrite N2Z.inj_add, N2Z.inj_mul; done).
  pose proof (N2Z.is_nonneg (x `div` 10)) as Hdiv. pose proof (N2Z.is_nonneg (x `mod` 10)) as Hmod.
  rewrite IH; [|apply N.div_lt; lia|clear Hdm Hm; lia].
  destruct (pretty_N_char_digit (x `mod` 10)%N Hm) as [Hd Hb]. simpl. rewrite Hd, Hb.
  replace (Z.of_N (x `div` 10) * 10 + Z.of_N (x `mod` 10)) with (Z.of_N x) by (clear Hdm Hm; lia).
  by rewrite (proj2 (Z.leb_le _ _) Hmax).
Qed.

(** Printed digits start with a digit. *)
Lemma pretty_N_go_head x s :
  (x ≠ 0)%N → ∃ d rest, (d < 10)%N ∧ pretty_N_go x s = String (pretty_N_char d) rest.
Proof.
  revert s. induction (N.lt_wf_0 x) as [x _ IH]; intros s Hx. rewrite pretty_N_go_step by lia.
  destruct (decide (x `div` 10 = 0)%N) as [E|].
  - rewrite E, pretty_N_go_0. exists (x `mod` 10)%N, s. split; [by apply N.mod_lt|done].
  - apply IH; [|done]. apply N.div_lt; lia.
Qed.

Lemma parse_uint_pretty max x : Z.of_N x ≤ max → parse_uint max (pretty x) = Some (Z.of_N x).
Proof.
  intros Hmax. unfold pretty, pretty_N. destruct (decide (x = 0)%N) as [->|Hx].
  { unfold parse_uint. rewrite decide_False by done. simpl in Hmax. simpl.
    change (0 * 10 + (byte_of "0" - 48)) with 0. by rewrite (proj2 (Z.leb_le 0 max) Hmax). }
  destruct (pretty_N_go_head x "" Hx) as (d & rest & Hd & Hgo).
  unfold parse_uint. rewrite Hgo. rewrite decide_False; [simpl|].
  - change (String (pretty_N_char d) rest) with (String (pretty_N_char d) rest).
    pose proof (parse_digits_pretty max x "" Hmax) as H. rewrite Hgo in H. exact H.
  - intros E. assert (is_ascii_digit "+" = true); [|done].
    rewrite <- E. by apply pretty_N_char_digit.
Qed.

Lemma parse_i64_pretty z : i64_min ≤ z ≤ i64_max → parse_i64 (pretty z) = Some z.
Proof.
  intros Hz. destruct z as [|p|p]; [done| |].
  - change (pretty (Zpos p)) with (pretty (Npos p)).
    assert (Hu : parse_uint i64_max (pretty (Npos p)) = Some (Zpos p))
      by (apply parse_uint_pretty; simpl; lia).
    destruct (pretty_N_go_head (Npos p) "" ltac:(done)) as (d & rest & Hd & Hgo).
    change (pretty (Npos p)) with (pretty_N_go (Npos p) "") in *.
    rewrite Hgo in *. unfold parse_i64. rewrite decide_False; [done|].
    intros E. assert (is_ascii_digit "-" = true); [|done].
    rewrite <- E. by apply pretty_N_char_digit.
  - change (pretty (Zneg p)) with (String "-" (pretty_N_go (Npos p) "")).
    unfold parse_i64. rewrite decide_True by done.
    rewrite (parse_digits_pretty (- i64_min) (Npos p) "") by (simpl; unfold i64_min in *; lia).
    by destruct (pretty_N_go_head (Npos p) "" ltac:(done)) as (d & rest & _ & ->).
Qed.

(** ** Splitting joined pieces *)

Definition lacks (c : ascii) (s : string) : bool := negb (any_byte (λ d, bool_decide (d = c)) s).

Lemma lacks_cons c d s : lacks c (String d s) = true ↔ d ≠ c ∧ lacks c s = true.
Proof. unfold lacks; simpl. rewrite negb_orb, andb_true_iff, negb_true_iff, bool_decide_eq_false. done. Qed.

Lemma split_on_lacks sep s : lacks sep s = true → split_on sep s = [s].
Proof.
  induction s as [|c s IH]; [done|]. rewrite lacks_cons. intros [Hc Hs]. simpl.
  by rewrite decide_False, IH.
Qed.

Lemma split_on_piece sep a b :
  lacks sep a = true → split_on sep (a +:+ String sep b)%string = a :: split_on sep b.
Proof.
  induction a as [|c a IH]; simpl; [by rewrite decide_True|].
  rewrite lacks_cons. intros [Hc Ha]. by rewrite decide_False, IH.
Qed.

Lemma split_on_concat sep l :
  l ≠ [] → (∀ s, s ∈ l → lacks sep s = true) →
  split_on sep (String.concat (String sep "") l) = l.
Proof.
  intros Hl Hs. induction l as [|a [|b l] IH]; [done|by apply split_on_lacks, Hs; left|].
  change (String.concat (String sep "") (a :: b :: l))
    with (a +:+ String sep (String.concat (String sep "") (b :: l)))%string.
  rewrite split_on_piece; [|by apply Hs; left].
  rewrite IH; [done|done|]. intros s Hin. apply Hs. by right.
Qed.

Lemma split_once_lacks c a b :
  lacks c a = true → split_once (String c "") (a +:+ String c b)%string = Some (a, b).
Proof.
  induction a as [|d a IH]; simpl.
  - by rewrite decide_True.
  - rewrite lacks_cons. intros [Hd Ha]. rewrite decide_False; [|congruence]. by rewrite IH.
Qed.

Lemma lacks_app c a b : lacks c (a +:+ b)%string = lacks c a && lacks c b.
Proof.
  unfold lacks. induction a as [|d a IH]; [done|]. simpl.
  destruct (bool_decide (d = c)); [done|]. simpl. exact IH.
Qed.

(** Numbers and identifiers have no separators. *)
Lemma digit_not c d : (d < 10)%N → is_ascii_digit c = false → pretty_N_char d ≠ c.
Proof. intros Hd Hc <-. by rewrite (proj1 (pretty_N_char_digit d Hd)) in Hc. Qed.

Lemma lacks_pretty_go c x s :
  is_ascii_digit c = false → lacks c s = true → lacks c (pretty_N_go x s) = true.
Proof.
  intros Hc. revert s. induction (N.lt_wf_0 x) as [x _ IH]; intros s Hs.
  destruct (decide (x = 0)%N) as [->|Hx]; [by rewrite pretty_N_go_0|].
  rewrite pretty_N_go_step by lia. apply IH; [apply N.div_lt; lia|]. apply lacks_cons. split; [|done].
  apply digit_not; [|done]. by apply N.mod_lt.
Qed.

Lemma lacks_pretty c (z : Z) : is_ascii_digit c = false → c ≠ "-"%char → lacks c (pretty z) = true.
Proof.
  intros Hc Hm. assert (∀ x : N, lacks c (pretty x) = true) as HN.
  { intros x. unfold pretty, pretty_N. case_decide; [|by apply lacks_pretty_go].
    apply lacks_cons. split; [|done]. by apply (digit_not c 0%N). }
  destruct z as [|p|p]; [apply (HN 0%N)|apply (HN (Npos p))|]. apply lacks_cons. split; [congruence|apply (HN (Npos p))].
Qed.

Lemma lacks_identifier c s :
  is_identifier_byte c = false → valid_identifier s = true → lacks c s = true.
Proof.
  intros Hc. destruct s as [|d s]; [done|]. simpl. intros [Hd Hs]%andb_true_iff.
  assert (is_identifier_byte d = true) as Hd' by (unfold is_identifier_byte; by rewrite Hd).
  apply lacks_cons. split; [congruence|]. clear Hd Hd'. induction s as [|e s IH]; [done|]. simpl in Hs.
  apply andb_true_iff in Hs as [He Hs]. apply lacks_cons. split; [congruence|by apply IH].
Qed.
