(* ===== verification/Semver.v ===== *)
(** * The [semver] crate

    Third-party code: a version type, its parser and its two comparisons are
    parameters, with the documented laws of [Ord] and [cmp_precedence] as a
    class.  [PlainSemver] is a concrete instance on plain [major.minor.patch]
    versions, on which the development's witnesses evaluate. *)

From S2P Require Import Prelude RustStr.

Class Semver := {
  Version : Type;
  Version_parse : string → option Version;
  (** [Ord for Version]: precedence, then build metadata. *)
  Version_cmp : Version → Version → comparison;
  (** [Version::cmp_precedence]: build metadata does not count. *)
  Version_cmp_precedence : Version → Version → comparison;
  Version_major : Version → Z;
  Version_minor : Version → Z;
  Version_pre_is_empty : Version → bool;
  Version_build_is_empty : Version → bool
}.

(** What the crate documents of its orders. *)
Class SemverLaws (S : Semver) : Prop := {
  Version_cmp_ordered :: Ordered Version_cmp;
  Version_cmp_precedence_ordered :: Ordered Version_cmp_precedence;
  Version_cmp_eq a b : Version_cmp a b = Eq → a = b;
  Version_precedence_lt a b : Version_cmp_precedence a b = Lt → Version_cmp a b = Lt;
  Version_major_le a b : Version_cmp_precedence a b ≠ Gt → Version_major a ≤ Version_major b
}.

Section Semver.
Context {S : Semver}.

Definition version_lt (a b : Version) : bool :=
  match Version_cmp a b with Lt => true | _ => false end.
Definition version_le (a b : Version) : bool :=
  match Version_cmp a b with Gt => false | _ => true end.

Lemma version_lt_spec a b : version_lt a b = true ↔ Version_cmp a b = Lt.
Proof. unfold version_lt. destruct (Version_cmp a b); naive_solver. Qed.

Lemma version_le_spec a b : version_le a b = true ↔ Version_cmp a b ≠ Gt.
Proof. unfold version_le. destruct (Version_cmp a b); naive_solver. Qed.
End Semver.

(** ** Plain versions *)
Module PlainSemver.
Record plain := Plain { major : Z; minor : Z; patch : Z }.

Definition parse (s : string) : option plain :=
  match split_on "."%char s with
  | [a; b; c] =>
    match parse_u64 a, parse_u64 b, parse_u64 c with
    | Some x, Some y, Some z => Some (Plain x y z)
    | _, _, _ => None
    end
  | _ => None
  end.

Definition cmp : plain → plain → comparison :=
  cmp_lex (cmp_on major Z.compare) (cmp_lex (cmp_on minor Z.compare) (cmp_on patch Z.compare)).

Definition instance : Semver := {|
  Version := plain;
  Version_parse := parse;
  Version_cmp := cmp;
  Version_cmp_precedence := cmp;
  Version_major := major;
  Version_minor := minor;
  Version_pre_is_empty := λ _, true;
  Version_build_is_empty := λ _, true
|}.

Lemma semver_laws : SemverLaws instance.
Proof.
  split; simpl; [apply _|apply _| |done|].
  - intros [a b c] [a' b' c']. unfold cmp, cmp_lex, cmp_on, then_with; simpl.
    destruct (Z.compare_spec a a'); [|done|done].
    destruct (Z.compare_spec b b'); [|done|done].
    destruct (Z.compare_spec c c'); [|done|done]. by subst.
  - intros [a b c] [a' b' c']. unfold cmp, cmp_lex, cmp_on, then_with; simpl.
    destruct (Z.compare_spec a a'); simpl; [lia|lia|done].
Qed.
End PlainSemver.
