(* ===== verification/Kinds.v ===== *)
(** * Product kinds, step actions and executors

    [product_kind.rs] (the closed policy of a product kind), the step actions
    of [plan.rs], the model/routing rollout order of [plan/convergence.rs] and
    the executor selection of [software_executor.rs]. *)

From S2P Require Import Prelude.

(** ** Product kinds *)

Inductive ProductKind :=
| Software | RoutingConfig | ModelRuntime | PolicyBundle | EvalSuite
| AgentDefinition | WorkerPool | PromptPackage | WorkshopModule.
#[export] Instance ProductKind_eq : EqDecision ProductKind.
Proof. solve_decision. Defined.

Inductive StagedKind :=
| StagedPolicyBundle | StagedEvalSuite | StagedAgentDefinition
| StagedPromptPackage | StagedWorkshopModule.

Inductive ProductTarget :=
| TargetSoftware | TargetRoutingConfig | TargetModelRuntime | TargetWorkerPool
| TargetStaged (kind : StagedKind).

#[export] Instance StagedKind_eq : EqDecision StagedKind.
Proof. solve_decision. Defined.
#[export] Instance ProductTarget_eq : EqDecision ProductTarget.
Proof. solve_decision. Defined.

Inductive CleanupPolicy := Atomic | UninstallIfDeclared.
Inductive RolloutDirection := Forward | Reverse.

(** [ProductKind::policy] with [ProductKindPolicy::target]. *)
Definition policy_target (kind : ProductKind) : ProductTarget :=
  match kind with
  | Software => TargetSoftware
  | RoutingConfig => TargetRoutingConfig
  | ModelRuntime => TargetModelRuntime
  | WorkerPool => TargetWorkerPool
  | PolicyBundle => TargetStaged StagedPolicyBundle
  | EvalSuite => TargetStaged StagedEvalSuite
  | AgentDefinition => TargetStaged StagedAgentDefinition
  | PromptPackage => TargetStaged StagedPromptPackage
  | WorkshopModule => TargetStaged StagedWorkshopModule
  end.

Definition staged_kind (target : ProductTarget) : option StagedKind :=
  match target with TargetStaged kind => Some kind | _ => None end.

Definition cleanup (target : ProductTarget) : CleanupPolicy :=
  match target with
  | TargetSoftware => UninstallIfDeclared
  | TargetRoutingConfig | TargetModelRuntime | TargetWorkerPool | TargetStaged _ => Atomic
  end.

Definition rollout_rank (target : ProductTarget) (direction : RolloutDirection) : Z :=
  match target, direction with
  | TargetModelRuntime, Forward | TargetRoutingConfig, Reverse => 0
  | TargetRoutingConfig, Forward | TargetModelRuntime, Reverse => 1
  | _, _ => 2
  end.

(** ** Step actions *)

Inductive Action := Install | Upgrade | Downgrade | Rollback | Restart | Remove.
#[export] Instance Action_eq : EqDecision Action.
Proof. solve_decision. Defined.

(** [reverse_contract_action]. *)
Definition reverse_contract_action (action : Action) : bool :=
  match action with Remove | Downgrade | Rollback => true | _ => false end.

(** [model_routing_rollout_rank]. *)
Definition model_routing_rollout_rank (kind : ProductKind) (action : Action) : Z :=
  let direction := match action with
                   | Install | Upgrade | Restart => Forward
                   | Downgrade | Rollback | Remove => Reverse
                   end in
  rollout_rank (policy_target kind) direction.

(** ** Executors *)

Inductive SoftwareExecutorKind := Shell | Host | Helm | Kubernetes | KubernetesInProcess | Docker.
#[export] Instance SoftwareExecutorKind_eq : EqDecision SoftwareExecutorKind.
Proof. solve_decision. Defined.

Inductive DeployInstances := One | Many.
Definition allows_several (mode : DeployInstances) : bool :=
  match mode with Many => true | One => false end.

Inductive executor_error :=
| HostExecutorUnavailable (reason : string)
| ProcessDefaultRefused (reason : string)
| HostRunsOnlyAsHostStep
| ExecutorNotInstalled (kind : SoftwareExecutorKind)
| ExecutorChanged (product : string) (installed target : option SoftwareExecutorKind).

(** [SoftwareExecutors], with the host executor and the adapters of a process
    abstracted to their identities. *)
Record SoftwareExecutors (HostExec Adapter : Type) := {
  default_kind : option SoftwareExecutorKind;
  default_adapter : option Adapter;
  declared : list (SoftwareExecutorKind * Adapter);
  host_executor : result HostExec string;
  process_default_error : option string
}.
Arguments default_kind {HostExec Adapter} _.
Arguments default_adapter {HostExec Adapter} _.
Arguments declared {HostExec Adapter} _.
Arguments host_executor {HostExec Adapter} _.
Arguments process_default_error {HostExec Adapter} _.

Section Executors.
Context {HostExec Adapter : Type}.
Implicit Types e : SoftwareExecutors HostExec Adapter.

Definition executors_host e : result HostExec executor_error :=
  map_err HostExecutorUnavailable (host_executor e).

Definition effective_kind e (declared : option SoftwareExecutorKind) :
    option SoftwareExecutorKind :=
  match declared with Some kind => Some kind | None => default_kind e end.

Definition resolve e (kind : option SoftwareExecutorKind) :
    result (option Adapter) executor_error :=
  match kind with
  | None =>
    match process_default_error e with
    | Some error => Err (ProcessDefaultRefused error)
    | None => Ok (default_adapter e)
    end
  | Some Shell => Ok None
  | Some Host =>
    let? _ := executors_host e in
    Err HostRunsOnlyAsHostStep
  | Some kind =>
    match find_first (λ entry, bool_decide (entry.1 = kind)) (declared e) with
    | Some entry => Ok (Some entry.2)
    | None => Err (ExecutorNotInstalled kind)
    end
  end.

Definition require_available e (kind : option SoftwareExecutorKind) :
    result unit executor_error :=
  if decide (kind = Some Host) then
    let? _ := executors_host e in Ok tt
  else
    let? _ := resolve e kind in Ok tt.

Definition require_same_executor e (product : string)
    (installed target : option SoftwareExecutorKind) : result unit executor_error :=
  let installed := effective_kind e installed in
  let target := effective_kind e target in
  bail_if negb (bool_decide (installed = target))
    with (ExecutorChanged product installed target) in
  Ok tt.
End Executors.

(** ** Model and routing rollout order *)

Inductive rollout_error :=
| MixedRolloutDirections
| RoutingBeforeModel (routing model : nat)
| ModelRetiredBeforeRouting (model routing : nat).

(** The last positions [validate_model_routing_rollout_order] tracks. *)
Record rollout_positions := {
  last_forward_model : option nat;
  last_forward_routing : option nat;
  last_reverse_routing : option nat;
  last_reverse_model : option nat
}.

Definition no_positions : rollout_positions := {|
  last_forward_model := None; last_forward_routing := None;
  last_reverse_routing := None; last_reverse_model := None
|}.

Definition track_position (p : rollout_positions) (entry : nat * (ProductKind * Action)) :
    rollout_positions :=
  let '(index, (kind, action)) := entry in
  match kind, action with
  | ModelRuntime, (Install | Upgrade) =>
    {| last_forward_model := Some index;
       last_forward_routing := last_forward_routing p;
       last_reverse_routing := last_reverse_routing p;
       last_reverse_model := last_reverse_model p |}
  | RoutingConfig, (Install | Upgrade) =>
    {| last_forward_model := last_forward_model p;
       last_forward_routing := Some index;
       last_reverse_routing := last_reverse_routing p;
       last_reverse_model := last_reverse_model p |}
  | RoutingConfig, (Downgrade | Rollback) =>
    {| last_forward_model := last_forward_model p;
       last_forward_routing := last_forward_routing p;
       last_reverse_routing := Some index;
       last_reverse_model := last_reverse_model p |}
  | ModelRuntime, (Downgrade | Rollback) =>
    {| last_forward_model := last_forward_model p;
       last_forward_routing := last_forward_routing p;
       last_reverse_routing := last_reverse_routing p;
       last_reverse_model := Some index |}
  | _, _ => p
  end.

(** [iter().enumerate()]. *)
Definition enumerate {A} (l : list A) : list (nat * A) := imap (λ i a, (i, a)) l.

Definition validate_model_routing_rollout_order (steps : list (ProductKind * Action)) :
    result unit rollout_error :=
  let p := foldl track_position no_positions (enumerate steps) in
  let has_forward := is_some_b (last_forward_model p) || is_some_b (last_forward_routing p) in
  let has_reverse := is_some_b (last_reverse_model p) || is_some_b (last_reverse_routing p) in
  let has_model := is_some_b (last_forward_model p) || is_some_b (last_reverse_model p) in
  let has_routing := is_some_b (last_forward_routing p) || is_some_b (last_reverse_routing p) in
  bail_if has_forward && has_reverse && has_model && has_routing
    with MixedRolloutDirections in
  let? _ := match last_forward_model p, last_forward_routing p with
            | Some model, Some routing =>
              bail_if (routing <? model)%nat with (RoutingBeforeModel routing model) in Ok tt
            | _, _ => Ok tt
            end in
  match last_reverse_routing p, last_reverse_model p with
  | Some routing, Some model =>
    bail_if (model <? routing)%nat with (ModelRetiredBeforeRouting model routing) in Ok tt
  | _, _ => Ok tt
  end.

(** *** What the validation tracks *)

Definition forward_step (kind : ProductKind) (step : ProductKind * Action) : bool :=
  bool_decide (step.1 = kind) && match step.2 with Install | Upgrade => true | _ => false end.

Definition reverse_step (kind : ProductKind) (step : ProductKind * Action) : bool :=
  bool_decide (step.1 = kind) && match step.2 with Downgrade | Rollback => true | _ => false end.

(** Both kinds and both directions occur. *)
Definition mixed_directions (steps : list (ProductKind * Action)) : Prop :=
  let occurs p := ∃ s, s ∈ steps ∧ p s = true in
  (occurs (forward_step ModelRuntime) ∨ occurs (forward_step RoutingConfig))
  ∧ (occurs (reverse_step ModelRuntime) ∨ occurs (reverse_step RoutingConfig))
  ∧ (occurs (forward_step ModelRuntime) ∨ occurs (reverse_step ModelRuntime))
  ∧ (occurs (forward_step RoutingConfig) ∨ occurs (reverse_step RoutingConfig)).

(** The last position of a step satisfying [p]. *)
Definition last_position {A} (p : A → bool) (l : list A) : option nat :=
  foldl (λ acc '(i, a), if p a then Some i else acc) None (enumerate l).

Lemma enumerate_snoc {A} (l : list A) x : enumerate (l ++ [x]) = enumerate l ++ [(length l, x)].
Proof. unfold enumerate. rewrite imap_app. simpl. by rewrite Nat.add_0_r. Qed.

Lemma last_position_snoc {A} (p : A → bool) l x :
  last_position p (l ++ [x]) = if p x then Some (length l) else last_position p l.
Proof. unfold last_position. by rewrite enumerate_snoc, foldl_snoc. Qed.

Lemma last_position_spec {A} (p : A → bool) l i :
  last_position p l = Some i ↔
  (∃ x, l !! i = Some x ∧ p x = true) ∧
  (∀ j x, l !! j = Some x → p x = true → (j ≤ i)%nat).
Proof.
  revert i. induction l as [|x l IH] using rev_ind; intros i.
  { split; [done|]. by intros [[x [Hx _]] _]. }
  rewrite last_position_snoc. destruct (p x) eqn:Ep.
  - split.
    + intros [= <-]. split.
      * exists x. by rewrite lookup_app_r, Nat.sub_diag by lia.
      * intros j y Hj _. apply lookup_lt_Some in Hj. rewrite length_app in Hj. simpl in Hj. lia.
    + intros [[y [Hy _]] Hmax]. f_equal. apply lookup_lt_Some in Hy.
      rewrite length_app in Hy. simpl in Hy.
      specialize (Hmax (length l) x). rewrite lookup_app_r, Nat.sub_diag in Hmax by lia.
      specialize (Hmax eq_refl Ep). lia.
  - rewrite IH. split; intros [[y [Hy Hpy]] Hmax].
    + split; [exists y; split; [by apply lookup_app_l_Some|done]|].
      intros j z Hj Hpz. apply lookup_app_Some in Hj as [Hj|[_ Hj]]; [by eapply Hmax|].
      apply list_lookup_singleton_Some in Hj as [_ ->]. congruence.
    + apply lookup_app_Some in Hy as [Hy|[_ Hy]].
      2:{ apply list_lookup_singleton_Some in Hy as [_ ->]. congruence. }
      split; [by exists y|]. intros j z Hj. apply Hmax. by apply lookup_app_l_Some.
Qed.

Lemma last_position_none {A} (p : A → bool) l :
  last_position p l = None ↔ ¬ ∃ x, x ∈ l ∧ p x = true.
Proof.
  induction l as [|x l IH] using rev_ind.
  { split; [|done]. intros _ (x & Hx & _). by apply not_elem_of_nil in Hx. }
  rewrite last_position_snoc. destruct (p x) eqn:Ep.
  - split; [done|]. intros []. exists x. split; [|done]. apply elem_of_app. right. by left.
  - rewrite IH. setoid_rewrite elem_of_app. setoid_rewrite list_elem_of_singleton.
    split; intros H (y & Hy & Hp); apply H; [|by exists y; auto].
    destruct Hy as [Hy| ->]; [by exists y|congruence].
Qed.

Lemma last_position_is_some {A} (p : A → bool) l :
  is_some_b (last_position p l) = true ↔ ∃ x, x ∈ l ∧ p x = true.
Proof.
  destruct (last_position p l) as [i|] eqn:E; simpl.
  - split; [intros _|done]. apply last_position_spec in E as [(x & Hx & Hp) _].
    exists x. split; [by eapply list_elem_of_lookup_2|done].
  - apply last_position_none in E. naive_solver.
Qed.

Lemma tracked_positions steps :
  foldl track_position no_positions (enumerate steps) = {|
    last_forward_model := last_position (forward_step ModelRuntime) steps;
    last_forward_routing := last_position (forward_step RoutingConfig) steps;
    last_reverse_routing := last_position (reverse_step RoutingConfig) steps;
    last_reverse_model := last_position (reverse_step ModelRuntime) steps
  |}.
Proof.
  induction steps as [|[kind action] l IH] using rev_ind; [done|].
  rewrite enumerate_snoc, foldl_snoc, IH, !last_position_snoc.
  by destruct kind, action.
Qed.

(** The condition [validate_model_routing_rollout_order] enforces on one pair
    of step classes: the last [later] step does not precede the last
    [earlier] step. *)
Definition last_follows {A} (earlier later : A → bool) (l : list A) : Prop :=
  ∀ i j, last_position earlier l = Some i → last_position later l = Some j → (i ≤ j)%nat.

Lemma validate_rollout_iff steps :
  validate_model_routing_rollout_order steps = Ok tt ↔
  ¬ mixed_directions steps
  ∧ last_follows (forward_step ModelRuntime) (forward_step RoutingConfig) steps
  ∧ last_follows (reverse_step RoutingConfig) (reverse_step ModelRuntime) steps.
Proof.
  unfold validate_model_routing_rollout_order. rewrite tracked_positions. simpl.
  assert (Hmix : (is_some_b (last_position (forward_step ModelRuntime) steps)
              || is_some_b (last_position (forward_step RoutingConfig) steps))
            && (is_some_b (last_position (reverse_step ModelRuntime) steps)
                || is_some_b (last_position (reverse_step RoutingConfig) steps))
            && (is_some_b (last_position (forward_step ModelRuntime) steps)
                || is_some_b (last_position (reverse_step ModelRuntime) steps))
            && (is_some_b (last_position (forward_step RoutingConfig) steps)
                || is_some_b (last_position (reverse_step RoutingConfig) steps)) = true
          ↔ mixed_directions steps).
  { rewrite !andb_true_iff, !orb_true_iff, !last_position_is_some.
    unfold mixed_directions. tauto. }
  unfold last_follows. destruct (_ && _) eqn:Em.
  { split; [done|]. intros [Hno _]. destruct Hno. by apply Hmix. }
  assert (¬ mixed_directions steps) by (rewrite <- Hmix; congruence).
  destruct (last_position (forward_step ModelRuntime) steps) as [i|],
    (last_position (forward_step RoutingConfig) steps) as [j|],
    (last_position (reverse_step RoutingConfig) steps) as [k|],
    (last_position (reverse_step ModelRuntime) steps) as [m|];
    repeat match goal with |- context [(?a <? ?b)%nat] => destruct (Nat.ltb_spec a b) end;
    (split; [intros Hok|intros (_ & Hf & Hr)]);
    first [done|split_and!; [done|intros; simplify_eq; lia..]
          |specialize (Hf _ _ eq_refl eq_refl); lia|specialize (Hr _ _ eq_refl eq_refl); lia].
Qed.

Lemma last_follows_sorted {A} (rank : A → Z) (earlier later : A → bool) l :
  StronglySorted (λ a b, rank a ≤ rank b) l →
  (∀ a b, earlier a = true → later b = true → rank a < rank b) →
  last_follows earlier later l.
Proof.
  intros Hs Hrank i j Hi Hj.
  apply last_position_spec in Hi as [(x & Hx & Hpx) _].
  apply last_position_spec in Hj as [(y & Hy & Hpy) _].
  destruct (decide (i ≤ j)%nat) as [|Hgt]; [done|exfalso].
  assert (rank y ≤ rank x).
  { apply (StronglySorted_lookup (λ a b, rank a ≤ rank b) l j i); [done..|lia]. }
  specialize (Hrank _ _ Hpx Hpy). lia.
Qed.

Lemma forward_rank x y :
  forward_step ModelRuntime x = true → forward_step RoutingConfig y = true →
  model_routing_rollout_rank x.1 x.2 < model_routing_rollout_rank y.1 y.2.
Proof. by destruct x as [[] []], y as [[] []]. Qed.

Lemma reverse_rank x y :
  reverse_step RoutingConfig x = true → reverse_step ModelRuntime y = true →
  model_routing_rollout_rank x.1 x.2 < model_routing_rollout_rank y.1 y.2.
Proof. by destruct x as [[] []], y as [[] []]. Qed.

(** *** Properties *)

Definition step_rank (step : ProductKind * Action) : Z :=
  model_routing_rollout_rank step.1 step.2.

(** Steps ordered by their rollout rank: every model install stands before
    every routing switch, every routing drain before every model retirement,
    and the validation refuses exactly the plans that mix directions. *)
Lemma sorted_rollout_positions steps i j x y :
  StronglySorted (λ a b, step_rank a ≤ step_rank b) steps →
  steps !! i = Some x → steps !! j = Some y →
  (forward_step ModelRuntime x = true ∧ forward_step RoutingConfig y = true)
  ∨ (reverse_step RoutingConfig x = true ∧ reverse_step ModelRuntime y = true) →
  (i < j)%nat.
Proof.
  intros Hs Hi Hj Hclass.
  assert (step_rank x < step_rank y) as Hrank.
  { destruct Hclass as [[Hx Hy]|[Hx Hy]]; [by apply forward_rank|by apply reverse_rank]. }
  destruct (decide (i < j)%nat) as [|Hge]; [done|exfalso].
  destruct (decide (i = j)) as [->|Hne]; [simplify_eq; lia|].
  assert (step_rank y ≤ step_rank x); [|lia].
  apply (StronglySorted_lookup (λ a b, step_rank a ≤ step_rank b) steps j i); [done..|lia].
Qed.

Lemma sorted_rollout_validates steps :
  StronglySorted (λ a b, step_rank a ≤ step_rank b) steps →
  validate_model_routing_rollout_order steps = Ok tt ↔ ¬ mixed_directions steps.
Proof.
  intros Hs. rewrite validate_rollout_iff. split; [by intros [? _]|].
  intros Hmix. split; [done|]. split.
  - eapply last_follows_sorted; [exact Hs|]. intros a b. apply forward_rank.
  - eapply last_follows_sorted; [exact Hs|]. intros a b. apply reverse_rank.
Qed.

(** The validation compares last positions only: a routing switch before the
    model is installed passes when another routing switch follows.  Sorted
    plans never contain this order. *)
Example early_switch_passes :
  validate_model_routing_rollout_order
    [(RoutingConfig, Install); (ModelRuntime, Install); (RoutingConfig, Install)] = Ok tt.
Proof. reflexivity. Qed.
