(* ===== verification/Facts.v ===== *)
(** * Environment facts and what a variant needs of them

    The fact vocabulary of [environment.rs], and the requirement fit of
    [plan/release_selection.rs]: dotted versions, GPU requirements, model
    requirements. *)

From S2P Require Import Prelude RustStr.

(** ** Fact validation *)

Inductive fact_error :=
| UnknownFact (key : string)
| EmptyFact (key : string)
| ControlInFact (key : string)
| CredentialInFact (key : string)
| FactNotAnInteger (key : string)
| FactIsZero (key : string)
| FactNotDotted (key : string).

Definition ENVIRONMENT_FACT_KEYS : list string :=
  ["architecture"; "memory_gib"; "accelerator"; "free_disk_gib"; "gpu_vendor"; "gpu_family";
   "gpu_model"; "gpu_vram_gib"; "gpu_count"; "gpu_driver_version"; "gpu_runtime";
   "gpu_runtime_version"; "host"; "zone"].

Definition validate_fact_key (key : string) : result unit fact_error :=
  bail_if negb (bool_decide (key ∈ ENVIRONMENT_FACT_KEYS)) with (UnknownFact key) in
  Ok tt.

(** [dotted_version]: numeric components with trailing zeros dropped. *)
Fixpoint parse_all (parts : list string) : option (list Z) :=
  match parts with
  | [] => Some []
  | part :: rest =>
    match parse_u64 part, parse_all rest with
    | Some n, Some ns => Some (n :: ns)
    | _, _ => None
    end
  end.

(** [while parts.last() == Some(&0) { parts.pop(); }] *)
Fixpoint pop_zeros (parts : list Z) : list Z :=
  match parts with
  | [] => []
  | n :: rest =>
    match pop_zeros rest with
    | [] => if n =? 0 then [] else [n]
    | rest' => n :: rest'
    end
  end.

Definition dotted_version (value : string) : option (list Z) :=
  match parse_all (split_on "."%char (trim value)) with
  | Some parts => Some (pop_zeros parts)
  | None => None
  end.

(** [Ord for Vec<u64>]: lexicographic. *)
Fixpoint components_cmp (a b : list Z) : comparison :=
  match a, b with
  | [], [] => Eq
  | [], _ => Lt
  | _, [] => Gt
  | x :: a', y :: b' => then_with (x ?= y) (components_cmp a' b')
  end.

(** [str::to_ascii_lowercase]. *)
Fixpoint to_ascii_lowercase (s : string) : string :=
  match s with
  | EmptyString => EmptyString
  | String c s' =>
    String (if is_ascii_uppercase c then ascii_of_N (N_of_ascii c + 32) else c)
           (to_ascii_lowercase s')
  end.

Definition validate_fact_value (key value : string) : result unit fact_error :=
  bail_if str_is_empty (trim value) with (EmptyFact key) in
  bail_if any_control value with (ControlInFact key) in
  let lower := to_ascii_lowercase value in
  bail_if existsb (λ needle, str_contains needle lower)
                  ["bearer "; "password="; "secret="; "token="]
    with (CredentialInFact key) in
  let? _ := if bool_decide (key ∈ ["memory_gib"; "free_disk_gib"; "gpu_vram_gib"]) then
              match parse_u64 value with
              | None => Err (FactNotAnInteger key)
              | Some parsed => bail_if parsed =? 0 with (FactIsZero key) in Ok tt
              end
            else Ok tt in
  let? _ := if bool_decide (key = "gpu_count") then
              match parse_u64 value with
              | None => Err (FactNotAnInteger key)
              | Some _ => Ok tt
              end
            else Ok tt in
  bail_if bool_decide (key ∈ ["gpu_driver_version"; "gpu_runtime_version"])
          && negb (is_some_b (dotted_version value))
    with (FactNotDotted key) in
  Ok tt.

(** ** GPU requirements *)

Record GpuRequirements := {
  vendor : list string;
  families : list string;
  vram_gib : Z;
  count : Z;
  tensor_parallel : Z;
  driver_min : option string;
  runtime : option string;
  runtime_min : option string
}.

Inductive FitRefusal :=
| MissingFact (fact : string)
| InvalidFact (fact actual : string)
| NotAllowed (fact actual : string) (allowed : list string)
| BelowMinimum (fact actual minimum : string).

Section Fit.
Variable facts : gmap string string.

(** The closures of [gpu_requirements_fit]. *)
Definition fact_of (name : string) : result string FitRefusal :=
  ok_or (facts !! name) (MissingFact name).

Definition one_of (name : string) (allowed : list string) : result unit FitRefusal :=
  match allowed with
  | [] => Ok tt
  | _ =>
    let? actual := fact_of name in
    if bool_decide (actual ∈ allowed) then Ok tt
    else Err (NotAllowed name actual allowed)
  end.

Definition at_least (name : string) (minimum : Z) : result unit FitRefusal :=
  let? actual := fact_of name in
  match parse_u32 actual with
  | None => Err (InvalidFact name actual)
  | Some parsed =>
    if minimum <=? parsed then Ok tt else Err (BelowMinimum name actual (pretty minimum))
  end.

Definition version_at_least (name : string) (minimum : option string) :
    result unit FitRefusal :=
  match minimum with
  | None => Ok tt
  | Some minimum =>
    let? actual := fact_of name in
    match dotted_version actual with
    | None => Err (InvalidFact name actual)
    | Some parsed =>
      match dotted_version minimum with
      | None => Err (InvalidFact name minimum)
      | Some required =>
        match components_cmp parsed required with
        | Lt => Err (BelowMinimum name actual minimum)
        | _ => Ok tt
        end
      end
    end
  end.

Definition gpu_requirements_fit (gpu : GpuRequirements) : result unit FitRefusal :=
  let? _ := one_of "gpu_vendor" (vendor gpu) in
  let? _ := one_of "gpu_family" (families gpu) in
  let? _ := at_least "gpu_count" (Z.max (count gpu) (tensor_parallel gpu)) in
  let? _ := at_least "gpu_vram_gib" (vram_gib gpu) in
  let? _ := version_at_least "gpu_driver_version" (driver_min gpu) in
  match runtime gpu with
  | Some runtime =>
    let? _ := one_of "gpu_runtime" [runtime] in
    version_at_least "gpu_runtime_version" (runtime_min gpu)
  | None => Ok tt
  end.
End Fit.

(** ** Model requirements *)

Record ModelRequirementsSection := {
  architecture : list string;
  memory_gib : Z;
  accelerator : list string;
  gpu : option GpuRequirements
}.

Inductive model_fit_error :=
| ModelFactMissing (fact : string)
| ModelFactInvalid (fact actual : string)
| ArchitectureNotIncluded (actual : string)
| MemoryBelowMinimum (actual minimum : Z)
| AcceleratorNotIncluded (actual : string)
| GpuDoesNotFit (refusal : FitRefusal).

Definition model_requirements_fit (facts : gmap string string)
    (requirements : ModelRequirementsSection) : result unit model_fit_error :=
  let? architecture_fact := ok_or (facts !! "architecture") (ModelFactMissing "architecture") in
  bail_if negb (bool_decide (architecture_fact ∈ architecture requirements))
    with (ArchitectureNotIncluded architecture_fact) in
  let? memory_raw := ok_or (facts !! "memory_gib") (ModelFactMissing "memory_gib") in
  let? memory := ok_or (parse_u32 memory_raw) (ModelFactInvalid "memory_gib" memory_raw) in
  bail_if memory <? memory_gib requirements
    with (MemoryBelowMinimum memory (memory_gib requirements)) in
  let? _ := match accelerator requirements with
            | [] => Ok tt
            | allowed =>
              let? fact := ok_or (facts !! "accelerator") (ModelFactMissing "accelerator") in
              bail_if negb (bool_decide (fact ∈ allowed)) with (AcceleratorNotIncluded fact) in
              Ok tt
            end in
  match gpu requirements with
  | Some gpu => map_err GpuDoesNotFit (gpu_requirements_fit facts gpu)
  | None => Ok tt
  end.

(** ** Dotted versions compare without their trailing zeros *)

Lemma pop_zeros_snoc l : pop_zeros (l ++ [0]) = pop_zeros l.
Proof. induction l as [|n l IH]; simpl; [done|]. by rewrite IH. Qed.

Lemma pop_zeros_last l n : last (pop_zeros l) = Some n → n ≠ 0.
Proof.
  induction l as [|m l IH]; simpl; [done|]. destruct (pop_zeros l) as [|k l'] eqn:E.
  - destruct (Z.eqb_spec m 0); [done|]. simpl. congruence.
  - intros H. apply IH. by simpl in *.
Qed.

Lemma parse_all_app a b :
  parse_all (a ++ b) =
  match parse_all a, parse_all b with Some x, Some y => Some (x ++ y) | _, _ => None end.
Proof.
  induction a as [|part a IH]; simpl; [by destruct (parse_all b)|].
  destruct (parse_u64 part); [|done]. rewrite IH.
  by destruct (parse_all a), (parse_all b).
Qed.

Lemma split_on_app sep s t :
  split_on sep (s +:+ String sep t) = split_on sep s ++ split_on sep t.
Proof.
  induction s as [|c s IH]; simpl.
  - by rewrite decide_True by done.
  - rewrite IH. destruct (decide (c = sep)); [done|].
    destruct (split_on sep s) as [|piece rest] eqn:E; [|done].
    exfalso. clear -E. destruct s as [|d s]; simpl in E; [done|].
    destruct (decide (d = sep)); [done|]. by destruct (split_on sep s).
Qed.

Lemma trim_start_app s t : trim_start s = s → s ≠ EmptyString → trim_start (s +:+ t) = (s +:+ t)%string.
Proof.
  destruct s as [|c s]; [done|]. simpl. destruct (is_whitespace c) eqn:E; [|done].
  intros H _. exfalso. destruct (trim_start_cases s) as [Hs|Hs]; rewrite H in Hs.
  - apply (f_equal String.length) in Hs. simpl in Hs. lia.
  - simpl in Hs. lia.
Qed.

Lemma trim_end_app s t : trim_end t = t → t ≠ EmptyString → trim_end (s +:+ t) = (s +:+ t)%string.
Proof.
  intros Ht Hne. induction s as [|c s IH]; [done|].
  change (trim_end (String c (s +:+ t)) = String c (s +:+ t)). simpl. rewrite IH.
  destruct (s +:+ t)%string eqn:E; [|done]. by destruct s, t.
Qed.

(** ** The declared fit *)

Definition allowed_fact (facts : gmap string string) name (allowed : list string) : Prop :=
  allowed = [] ∨ ∃ actual, facts !! name = Some actual ∧ actual ∈ allowed.

Definition minimum_fact (facts : gmap string string) name (minimum : Z) : Prop :=
  ∃ actual n, facts !! name = Some actual ∧ parse_u32 actual = Some n ∧ minimum ≤ n.

Definition version_fact (facts : gmap string string) name (minimum : option string) : Prop :=
  ∀ m, minimum = Some m → ∃ actual parsed required,
    facts !! name = Some actual ∧ dotted_version actual = Some parsed
    ∧ dotted_version m = Some required ∧ components_cmp parsed required ≠ Lt.

Lemma one_of_iff facts name allowed :
  one_of facts name allowed = Ok tt ↔ allowed_fact facts name allowed.
Proof.
  unfold one_of, allowed_fact, fact_of, ok_or. destruct allowed as [|a allowed]; [naive_solver|].
  destruct (facts !! name) as [actual|] eqn:E.
  - case_bool_decide; split; intros H'; try done.
    + right. by exists actual.
    + destruct H' as [|(b & Hb & Hin)]; [done|]. simplify_eq. done.
  - split; [done|]. intros [|(b & Hb & _)]; done.
Qed.

Lemma at_least_iff facts name minimum :
  at_least facts name minimum = Ok tt ↔ minimum_fact facts name minimum.
Proof.
  unfold at_least, minimum_fact, fact_of, ok_or. destruct (facts !! name) as [actual|] eqn:E.
  - destruct (parse_u32 actual) as [n|] eqn:Ep.
    + destruct (Z.leb_spec minimum n); split; intros Hx; try done.
      * by exists actual, n.
      * destruct Hx as (b & m & Hb & Hm & Hle). simplify_eq. lia.
    + split; [done|]. intros (b & m & Hb & Hm & Hle). simplify_eq.
  - split; [done|]. by intros (b & m & Hb & _).
Qed.

Lemma version_at_least_iff facts name minimum :
  version_at_least facts name minimum = Ok tt ↔ version_fact facts name minimum.
Proof.
  unfold version_at_least, version_fact, fact_of, ok_or.
  destruct minimum as [minimum|]; [|split; [by intros _ m|done]].
  destruct (facts !! name) as [actual|] eqn:E.
  2:{ split; [done|]. intros H. by destruct (H _ eq_refl) as (b & p & r & Hb & _). }
  destruct (dotted_version actual) as [parsed|] eqn:Ea.
  2:{ split; [done|]. intros H. destruct (H _ eq_refl) as (b & p & r & Hb & Hp & _). simplify_eq. }
  destruct (dotted_version minimum) as [required|] eqn:Em.
  2:{ split; [done|]. intros H. destruct (H _ eq_refl) as (b & p & r & _ & _ & Hr & _). simplify_eq. }
  split.
  - intros H m [= <-]. exists actual, parsed, required. split_and!; try done.
    by intros Hlt; rewrite Hlt in H.
  - intros H. destruct (H _ eq_refl) as (b & p & r & Hb & Hp & Hr & Hc). simplify_eq.
    by destruct (components_cmp _ _).
Qed.

(** The requirements a variant declares, as predicates on the facts. *)
Definition gpu_fits (facts : gmap string string) (gpu : GpuRequirements) : Prop :=
  allowed_fact facts "gpu_vendor" (vendor gpu)
  ∧ allowed_fact facts "gpu_family" (families gpu)
  ∧ minimum_fact facts "gpu_count" (count gpu) ∧ minimum_fact facts "gpu_count" (tensor_parallel gpu)
  ∧ minimum_fact facts "gpu_vram_gib" (vram_gib gpu)
  ∧ version_fact facts "gpu_driver_version" (driver_min gpu)
  ∧ (∀ r, runtime gpu = Some r → facts !! "gpu_runtime" = Some r
                                 ∧ version_fact facts "gpu_runtime_version" (runtime_min gpu)).

Lemma ok_unit_chain {E} (r k : result unit E) :
  (let? _ := r in k) = Ok tt ↔ r = Ok tt ∧ k = Ok tt.
Proof. destruct r as [[]|e]; naive_solver. Qed.

Lemma minimum_fact_max facts name a b :
  minimum_fact facts name (Z.max a b) ↔ minimum_fact facts name a ∧ minimum_fact facts name b.
Proof.
  unfold minimum_fact. split.
  - intros (s & n & Hs & Hn & Hle). split; exists s, n; split_and!; try done; lia.
  - intros [(s & n & Hs & Hn & Hle) (s' & n' & Hs' & Hn' & Hle')]. simplify_eq.
    exists s, n. split_and!; [done..|lia].
Qed.

Lemma gpu_requirements_fit_iff facts gpu :
  gpu_requirements_fit facts gpu = Ok tt ↔ gpu_fits facts gpu.
Proof.
  unfold gpu_requirements_fit, gpu_fits.
  rewrite !ok_unit_chain, !one_of_iff, !at_least_iff, !version_at_least_iff, minimum_fact_max.
  enough (match runtime gpu with
          | Some r => (let? _ := one_of facts "gpu_runtime" [r] in
                       version_at_least facts "gpu_runtime_version" (runtime_min gpu)) = Ok tt
          | None => True
          end ↔ ∀ r, runtime gpu = Some r → facts !! "gpu_runtime" = Some r
                  ∧ version_fact facts "gpu_runtime_version" (runtime_min gpu)) as Hr.
  { destruct (runtime gpu); rewrite <- Hr; tauto. }
  destruct (runtime gpu) as [r|]; [|naive_solver].
  rewrite ok_unit_chain, one_of_iff, version_at_least_iff. unfold allowed_fact. split.
  - intros [[|(a & Ha & Hin)] Hv] r' [= <-]; [done|].
    apply list_elem_of_singleton in Hin as ->. done.
  - intros H. destruct (H r eq_refl) as [Ha Hv]. split; [|done]. right. exists r.
    split; [done|]. apply list_elem_of_here.
Qed.

(** The declarative fit of a model-runtime variant. *)
Definition model_fits (facts : gmap string string) (r : ModelRequirementsSection) : Prop :=
  (∃ a, facts !! "architecture" = Some a ∧ a ∈ architecture r)
  ∧ minimum_fact facts "memory_gib" (memory_gib r)
  ∧ allowed_fact facts "accelerator" (accelerator r)
  ∧ ∀ g, gpu r = Some g → gpu_fits facts g.

(** ** Properties *)

(** A variant is offered to an environment exactly when every declared
    requirement is met by a recorded, well-formed fact: the architecture and
    the accelerator are allowed values, memory reaches the minimum, and each
    GPU requirement holds. An unknown or unparseable fact never fits. *)
Theorem model_requirements_fit_iff facts r :
  model_requirements_fit facts r = Ok tt ↔ model_fits facts r.
Proof.
  unfold model_requirements_fit, model_fits, ok_or.
  destruct (facts !! "architecture") as [arch|] eqn:Ea; [|naive_solver].
  case_bool_decide as Harch; simpl; [|naive_solver].
  unfold minimum_fact at 1. destruct (facts !! "memory_gib") as [raw|] eqn:Em; [|naive_solver].
  destruct (parse_u32 raw) as [memory|] eqn:Ep; [|naive_solver].
  destruct (Z.ltb_spec memory (memory_gib r)) as [Hlt|Hge].
  { split; [done|]. intros (_ & (s & n & Hs & Hn & Hle) & _). simplify_eq. lia. }
  rewrite ok_unit_chain.
  assert (Hacc : (match accelerator r with
                  | [] => Ok tt
                  | _ => let? fact := match facts !! "accelerator" with
                                      | Some t => Ok t
                                      | None => Err (ModelFactMissing "accelerator")
                                      end in
                         bail_if negb (bool_decide (fact ∈ accelerator r))
                           with (AcceleratorNotIncluded fact) in Ok tt
                  end) = Ok tt ↔ allowed_fact facts "accelerator" (accelerator r)).
  { unfold allowed_fact. destruct (accelerator r) as [|a l]; [naive_solver|].
    destruct (facts !! "accelerator") as [acc|]; [|naive_solver].
    case_bool_decide; simpl; naive_solver. }
  assert (Hgpu : match gpu r with
                 | Some g => map_err GpuDoesNotFit (gpu_requirements_fit facts g)
                 | None => Ok tt
                 end = Ok tt ↔ ∀ g, gpu r = Some g → gpu_fits facts g).
  { destruct (gpu r) as [g|]; [|naive_solver].
    pose proof (gpu_requirements_fit_iff facts g) as Hg.
    destruct (gpu_requirements_fit facts g) as [[]|e]; simpl; naive_solver. }
  rewrite Hgpu. destruct (accelerator r); rewrite Hacc; naive_solver.
Qed.

(** Dotted driver and runtime versions compare without trailing zeros:
    appending [.0] to a trimmed version changes nothing. *)
Theorem dotted_version_trailing_zero s :
  trim s = s → dotted_version (s +:+ ".0") = dotted_version s.
Proof.
  intros Hs. unfold dotted_version.
  assert (Hend : trim_end ".0" = ".0") by reflexivity.
  assert (Htrim : trim (s +:+ ".0") = (s +:+ ".0")%string).
  { destruct (decide (s = EmptyString)) as [->|Hne]; [done|].
    unfold trim. rewrite trim_start_app by (done || by apply trim_id_start).
    by apply trim_end_app. }
  rewrite Htrim, Hs, (split_on_app "."%char s "0"), parse_all_app. simpl.
  destruct (parse_all (split_on "." s)) as [parts|]; [|done]. by rewrite pop_zeros_snoc.
Qed.

Lemma dotted_version_trailing_zero_witness :
  dotted_version "12.2.0" = dotted_version "12.2" ∧ dotted_version "12.2" = Some [12; 2].
Proof. split; [apply (dotted_version_trailing_zero "12.2"); reflexivity|reflexivity]. Defined.
