(* ===== verification/CycleCheck.v ===== *)
(** * Depth-first cycle refusal

    [visit_plan_contract_edge] of [plan/convergence.rs] and
    [visit_requirement_edge] of [software_compatibility.rs] are the same
    depth-first search: a stack of visited edges, the stack position of every
    node being visited, and the set of finished nodes.  [visiting] and
    [visiting_set] are restored before a visit returns, so only the finished
    set is threaded; an error aborts the whole search.

    The recursion is on fuel.  A visit only recurses after adding its node to
    [visiting_set], so the number of nodes plus one is enough
    ([visit_total]). *)

From S2P Require Import Prelude.

Inductive cycle_error := Cycle (nodes contracts : list string).

Section Search.
(** [outgoing]: the successors of a node, each with the contract that links
    them. *)
Variable outgoing : gmap string (list (string * string)).

Definition successors (node : string) : list (string * string) :=
  match outgoing !! node with Some next => next | None => [] end.

Definition edge (a b : string) : Prop := ∃ contract, (b, contract) ∈ successors a.

(** The [for] loop over the successors of one node. *)
Fixpoint visit_each
    (visit : string → string → gset string → option (result (gset string) cycle_error))
    (next : list (string * string)) (finished : gset string) :
    option (result (gset string) cycle_error) :=
  match next with
  | [] => Some (Ok finished)
  | (target, contract) :: rest =>
    match visit target contract finished with
    | Some (Ok finished') => visit_each visit rest finished'
    | stop => stop
    end
  end.

Fixpoint visit (fuel : nat) (node : string) (visiting : list (string * string))
    (visiting_set : gmap string nat) (finished : gset string) :
    option (result (gset string) cycle_error) :=
  match fuel with
  | O => None
  | S fuel' =>
    if decide (node ∈ finished) then Some (Ok finished)
    else match visiting_set !! node with
         | Some index =>
           let loop := drop index visiting in
           Some (Err (Cycle (loop.*1 ++ [node]) loop.*2))
         | None =>
           let visiting_set' := <[node := length visiting]> visiting_set in
           match visit_each
                   (λ target contract finished,
                     visit fuel' target (visiting ++ [(node, contract)]) visiting_set' finished)
                   (successors node) finished with
           | Some (Ok finished') => Some (Ok ({[node]} ∪ finished'))
           | stop => stop
           end
         end
  end.

(** The outer loop over every node, each visited with an empty stack. *)
Fixpoint visit_all (fuel : nat) (nodes : list string) (finished : gset string) :
    option (result (gset string) cycle_error) :=
  match nodes with
  | [] => Some (Ok finished)
  | node :: rest =>
    match visit fuel node [] ∅ finished with
    | Some (Ok finished') => visit_all fuel rest finished'
    | stop => stop
    end
  end.

Definition search (nodes : gset string) : option (result (gset string) cycle_error) :=
  visit_all (S (size nodes)) (btree_set_iter nodes) ∅.

(** ** Reported cycles are real *)

(** A labelled walk along the stack that ends at [last]. *)
Fixpoint walk (stack : list (string * string)) (last : string) : Prop :=
  match stack with
  | [] => True
  | (a, contract) :: rest =>
    (match rest with [] => last | (b, _) :: _ => b end, contract) ∈ successors a
    ∧ walk rest last
  end.

(** A closed labelled walk: what the error reports. *)
Definition closed_walk (nodes contracts : list string) : Prop :=
  ∃ start stack, nodes = ((stack.*1 : list string) ++ [start])
                 ∧ contracts = stack.*2 ∧ head (stack.*1) = Some start ∧ walk stack start.

Lemma walk_drop stack last n : walk stack last → walk (drop n stack) last.
Proof.
  revert stack. induction n as [|n IH]; intros stack Hw; [by rewrite drop_0|].
  destruct stack as [|[a c] rest]; [done|]. simpl. apply IH. by destruct Hw.
Qed.

Lemma walk_snoc stack a c last :
  walk stack a → (last, c) ∈ successors a → walk (stack ++ [(a, c)]) last.
Proof.
  revert a c last. induction stack as [|[b d] rest IH]; intros a c last Hw He; [by split|].
  destruct Hw as [Hb Hw]. simpl. split; [|by apply IH].
  by destruct rest as [|[b' d'] rest]; simpl in *.
Qed.

Lemma walk_tc stack last start :
  walk stack last → head (stack.*1) = Some start → tc edge start last.
Proof.
  revert start. induction stack as [|[a c] rest IH]; intros start Hw Hs; [done|].
  destruct Hw as [He Hw]. simplify_eq/=. destruct rest as [|[b d] rest].
  - apply tc_once. by exists c.
  - eapply tc_l; [by exists c|]. by apply IH.
Qed.

(** The stack leads to the node being visited, and records the positions of
    the nodes on it. *)
Definition stack_ok (visiting : list (string * string)) (visiting_set : gmap string nat)
    (node : string) : Prop :=
  walk visiting node ∧ ∀ m i, visiting_set !! m = Some i → visiting.*1 !! i = Some m.

Lemma stack_ok_push visiting visiting_set node target contract :
  stack_ok visiting visiting_set node → (target, contract) ∈ successors node →
  stack_ok (visiting ++ [(node, contract)]) (<[node := length visiting]> visiting_set) target.
Proof.
  intros [Hw Hpos] He. split; [by apply walk_snoc|].
  intros m i. rewrite lookup_insert, fmap_app. case_decide as Hm.
  - intros [= <-]. simplify_eq. rewrite lookup_app_r by (by rewrite length_fmap).
    by rewrite length_fmap, Nat.sub_diag.
  - intros Hi. apply Hpos in Hi. by apply lookup_app_l_Some.
Qed.

Lemma visit_each_err visit next finished e :
  visit_each visit next finished = Some (Err e) →
  ∃ target contract finished', (target, contract) ∈ next ∧ visit target contract finished' = Some (Err e).
Proof.
  revert finished. induction next as [|[target contract] rest IH]; intros finished H; simpl in *; [done|].
  destruct (visit target contract finished) as [[finished'|e']|] eqn:Ev; simplify_eq.
  - destruct (IH _ H) as (t & c & d & Hin & Hv). exists t, c, d. split; [by right|done].
  - exists target, contract, finished. split; [apply list_elem_of_here|done].
Qed.

Lemma visit_err fuel node visiting visiting_set finished nodes contracts :
  stack_ok visiting visiting_set node →
  visit fuel node visiting visiting_set finished = Some (Err (Cycle nodes contracts)) →
  closed_walk nodes contracts.
Proof.
  revert node visiting visiting_set finished.
  induction fuel as [|fuel IH]; intros node visiting visiting_set finished Hok H; simpl in H; [done|].
  case_decide; [done|]. destruct (visiting_set !! node) as [index|] eqn:Ei.
  - simplify_eq. destruct Hok as [Hw Hpos]. exists node, (drop index visiting).
    split; [done|]. split; [done|]. split; [|by apply walk_drop].
    rewrite fmap_drop, head_lookup, lookup_drop, Nat.add_0_r. by apply Hpos.
  - destruct (visit_each _ _ _) as [[finished'|e]|] eqn:Ee; [done| |done]. simplify_eq.
    apply visit_each_err in Ee as (target & contract & finished' & Hin & Hv).
    eapply IH; [|exact Hv]. by apply stack_ok_push.
Qed.

(** ** Finished nodes lie on no cycle *)

(** The finished set is closed under edges and none of its nodes reaches
    itself. *)
Definition clean (finished : gset string) : Prop :=
  (∀ a b, a ∈ finished → edge a b → b ∈ finished)
  ∧ ∀ a, a ∈ finished → ¬ tc edge a a.

Lemma clean_reach finished a b : clean finished → a ∈ finished → tc edge a b → b ∈ finished.
Proof. intros [Hc _] Ha H. induction H as [x y H|x y z H _ IH]; eauto. Qed.

Lemma clean_add finished node :
  clean finished → node ∉ finished →
  (∀ b, edge node b → b ∈ finished) → clean ({[node]} ∪ finished).
Proof.
  intros Hclean Hnot Hsucc. split.
  - intros a b Ha He. apply elem_of_union in Ha as [->%elem_of_singleton|Ha].
    + apply elem_of_union. right. by apply Hsucc.
    + apply elem_of_union. right. by eapply (proj1 Hclean).
  - intros a Ha Htc. apply elem_of_union in Ha as [->%elem_of_singleton|Ha].
    + apply Hnot. inversion Htc as [x y He|x y z He Hrest]; simplify_eq; [by apply Hsucc|].
      eapply clean_reach; [exact Hclean|by apply Hsucc|done].
    + by eapply (proj2 Hclean).
Qed.

(** What one visit that succeeds establishes: it only adds nodes, keeps the
    set clean, never finishes a node on the stack, and finishes its node. *)
Definition visit_post (visiting_set : gmap string nat) (finished finished' : gset string) : Prop :=
  finished ⊆ finished' ∧ clean finished' ∧ ∀ m, m ∈ dom visiting_set → m ∉ finished'.

Lemma visit_each_post visiting_set
    (visit : string → string → gset string → option (result (gset string) cycle_error))
    next finished finished' :
  (∀ target contract d d', clean d → (∀ m, m ∈ dom visiting_set → m ∉ d) →
     visit target contract d = Some (Ok d') → visit_post visiting_set d d' ∧ target ∈ d') →
  clean finished → (∀ m, m ∈ dom visiting_set → m ∉ finished) →
  visit_each visit next finished = Some (Ok finished') →
  visit_post visiting_set finished finished' ∧ ∀ b c, (b, c) ∈ next → b ∈ finished'.
Proof.
  intros Hvisit. revert finished.
  induction next as [|[target contract] rest IH]; intros finished Hclean Hdisj H; simpl in *.
  - simplify_eq. split; [by split_and!|]. intros b c Hin. by apply not_elem_of_nil in Hin.
  - destruct (visit target contract finished) as [[d|e]|] eqn:Ev; simplify_eq.
    destruct (Hvisit _ _ _ _ Hclean Hdisj Ev) as [(Hsub & Hcl & Hdj) Ht].
    destruct (IH _ Hcl Hdj H) as [(Hsub' & Hcl' & Hdj') Hrest].
    split; [split_and!; [set_solver|done|done]|].
    intros b c [[= -> ->]|Hin]%elem_of_cons; [set_solver|by eapply Hrest].
Qed.

Lemma visit_ok fuel node visiting visiting_set finished finished' :
  clean finished → (∀ m, m ∈ dom visiting_set → m ∉ finished) →
  visit fuel node visiting visiting_set finished = Some (Ok finished') →
  visit_post visiting_set finished finished' ∧ node ∈ finished'.
Proof.
  revert node visiting visiting_set finished finished'.
  induction fuel as [|fuel IH]; intros node visiting visiting_set finished finished' Hcl Hdj H;
    simpl in H; [done|].
  case_decide as Hin; [by simplify_eq|].
  destruct (visiting_set !! node) as [index|] eqn:Ei; [done|].
  destruct (visit_each _ _ _) as [[d|e]|] eqn:Ee; simplify_eq.
  eapply (visit_each_post (<[node := length visiting]> visiting_set)) in Ee as [Hpost Hsucc].
  - destruct Hpost as (Hsub & Hcl' & Hdj'). rewrite dom_insert_L in Hdj'.
    split; [|set_solver]. split_and!; [set_solver| |].
    + apply clean_add; [done|apply Hdj'; set_solver|]. intros b [c Hc]. by eapply Hsucc.
    + intros m Hm. apply not_elem_of_union. split; [|apply Hdj'; set_solver].
      rewrite not_elem_of_singleton. intros ->. by apply not_elem_of_dom in Ei.
  - intros target contract d1 d2 Hc Hd Hv. by eapply IH in Hv.
  - done.
  - intros m. rewrite dom_insert_L. set_solver.
Qed.

(** ** Termination *)

Lemma visit_each_total (visit : string → string → gset string → option (result (gset string) cycle_error))
    next finished :
  (∀ target contract d, (target, contract) ∈ next → visit target contract d ≠ None) →
  visit_each visit next finished ≠ None.
Proof.
  revert finished. induction next as [|[target contract] rest IH]; intros finished Hv; simpl; [done|].
  destruct (visit target contract finished) as [[d|e]|] eqn:Ev; [|done|].
  - apply IH. intros. apply Hv. by right.
  - exfalso. by apply (Hv target contract finished); [apply list_elem_of_here|].
Qed.

Lemma visit_total nodes fuel node visiting visiting_set finished :
  (∀ a b, a ∈ nodes → edge a b → b ∈ nodes) → node ∈ nodes → dom visiting_set ⊆ nodes →
  (size (nodes ∖ dom visiting_set) < fuel)%nat →
  visit fuel node visiting visiting_set finished ≠ None.
Proof.
  intros Hclosed. revert node visiting visiting_set finished.
  induction fuel as [|fuel IH]; intros node visiting visiting_set finished Hnode Hdom Hfuel; [lia|].
  simpl. case_decide as Hin; [done|]. destruct (visiting_set !! node) as [i|] eqn:Ei; [done|].
  assert (visit_each
    (λ target contract d, visit fuel target (visiting ++ [(node, contract)])
                            (<[node := length visiting]> visiting_set) d)
    (successors node) finished ≠ None) as Heach.
  { apply visit_each_total. intros target contract d Hsucc. apply IH.
    - eapply Hclosed; [exact Hnode|by exists contract].
    - rewrite dom_insert_L. set_solver.
    - apply not_elem_of_dom in Ei. rewrite dom_insert_L.
      apply Nat.lt_le_trans with (size (nodes ∖ dom visiting_set)); [|lia].
      apply subset_size. set_solver. }
  by destruct (visit_each _ _ _) as [[d|e]|].
Qed.

(** ** The whole search *)

Lemma visit_all_ok fuel nodes finished finished' :
  clean finished → visit_all fuel nodes finished = Some (Ok finished') →
  clean finished' ∧ finished ⊆ finished' ∧ ∀ n, n ∈ nodes → n ∈ finished'.
Proof.
  revert finished. induction nodes as [|n rest IH]; intros finished Hcl H; simpl in H.
  { simplify_eq. split_and!; [done|done|]. intros n Hn. by apply not_elem_of_nil in Hn. }
  destruct (visit fuel n [] ∅ finished) as [[d|e]|] eqn:Ev; simplify_eq.
  apply visit_ok in Ev as [(Hsub & Hd & _) Hn]; [|done|intros m; rewrite dom_empty_L; set_solver].
  destruct (IH _ Hd H) as (Hcl' & Hsub' & Hrest). split_and!; [done|set_solver|].
  intros m [->|Hm]%elem_of_cons; [set_solver|by apply Hrest].
Qed.

Lemma visit_all_err fuel nodes finished ns cs :
  visit_all fuel nodes finished = Some (Err (Cycle ns cs)) → closed_walk ns cs.
Proof.
  revert finished. induction nodes as [|n rest IH]; intros finished H; simpl in H; [done|].
  destruct (visit fuel n [] ∅ finished) as [[d|e]|] eqn:Ev; simplify_eq; [by eapply IH|].
  eapply visit_err; [|exact Ev]. split; [done|]. intros m i. by rewrite lookup_empty.
Qed.

Section Closed.
(** Every edge runs between the given nodes. *)
Variable nodes : gset string.
Hypothesis edges_in_nodes : ∀ a b, edge a b → a ∈ nodes ∧ b ∈ nodes.

Lemma search_total : search nodes ≠ None.
Proof.
  unfold search. generalize (∅ : gset string) as finished.
  remember (S (size nodes)) as fuel eqn:Hfuel.
  assert (Hin : ∀ n, n ∈ btree_set_iter nodes → n ∈ nodes) by (intros n; by rewrite elem_of_btree_set_iter).
  induction (btree_set_iter nodes) as [|n rest IH]; intros finished; simpl; [done|].
  destruct (visit fuel n [] ∅ finished) as [[d|e]|] eqn:Ev; [|done|].
  - apply IH. intros m Hm. apply Hin. by right.
  - exfalso. revert Ev. apply (visit_total nodes).
    + intros a b _ He. by apply edges_in_nodes in He as [_ ?].
    + apply Hin, list_elem_of_here.
    + rewrite dom_empty_L. set_solver.
    + rewrite dom_empty_L, difference_empty_L. lia.
Qed.

Lemma search_ok finished : search nodes = Some (Ok finished) → ∀ a, ¬ tc edge a a.
Proof.
  intros H a Htc. apply visit_all_ok in H as (Hcl & _ & Hall); [|split; set_solver].
  eapply (proj2 Hcl); [|exact Htc]. apply Hall. rewrite elem_of_btree_set_iter.
  inversion Htc as [x y He|x y z He _]; simplify_eq; by apply edges_in_nodes in He as [? _].
Qed.

(** The search decides acyclicity. *)
Lemma search_decides : (∃ finished, search nodes = Some (Ok finished)) ↔ ∀ a, ¬ tc edge a a.
Proof.
  split; [intros [f Hf]; by eapply search_ok|]. intros Hac.
  destruct (search nodes) as [[f|[ns cs]]|] eqn:Es; [by exists f| |by destruct (search_total Es)].
  exfalso. apply visit_all_err in Es as (start & stack & _ & _ & Hhead & Hw).
  eapply Hac, walk_tc; [exact Hw|exact Hhead].
Qed.

Lemma search_err ns cs : search nodes = Some (Err (Cycle ns cs)) → closed_walk ns cs.
Proof. apply visit_all_err. Qed.
End Closed.
End Search.
