(* ===== verification/Effects.v ===== *)
(** * Programs over effects

    What asynchronous code asks of its surroundings (a store, a fence, a
    target) is an effect with a typed answer, and an operation is a tree: it
    says which effect comes next after every answer.  A semantics says how an
    answered effect changes a world and when an effect may happen; [wp] is
    what holds whatever the answers are. *)

From S2P Require Import Prelude.

(** ** Programs *)

Inductive prog (E : Type → Type) (A : Type) : Type :=
| Ret (a : A)
| Do {X : Type} (e : E X) (k : X → prog E A).
Arguments Ret {E A} a.
Arguments Do {E A X} e k.

Fixpoint bind {E A B} (p : prog E A) (f : A → prog E B) : prog E B :=
  match p with
  | Ret a => f a
  | Do e k => Do e (λ x, bind (k x) f)
  end.

Definition perform {E X} (e : E X) : prog E X := Do e Ret.

(** A program over some effects as one over others. *)
Fixpoint hoist {E E' : Type → Type} {A} (f : ∀ X, E X → E' X) (p : prog E A) : prog E' A :=
  match p with
  | Ret a => Ret a
  | Do e k => Do (f _ e) (λ x, hoist f (k x))
  end.

(** [x <- e.await?], for failures of type [F]. *)
Definition try_bind {E A B F} (p : prog E (result A F)) (f : A → prog E (result B F)) :
    prog E (result B F) :=
  bind p (λ r, match r with Ok a => f a | Err e => Ret (Err e) end).

Notation "'do' x ':=' p 'in' k" := (bind p (λ x, k))
  (at level 10, x pattern, p at level 100, k at level 200,
   format "'[v' 'do'  x  ':='  p  'in' '/' k ']'") : tenkai_scope.
Notation "'do?' x ':=' p 'in' k" := (try_bind p (λ x, k))
  (at level 10, x pattern, p at level 100, k at level 200,
   format "'[v' 'do?'  x  ':='  p  'in' '/' k ']'") : tenkai_scope.

(** A loop whose body may stop it. *)
Fixpoint each {E A S F} (body : S → A → prog E (result (S * bool) F)) (s : S) (l : list A) :
    prog E (result S F) :=
  match l with
  | [] => Ret (Ok s)
  | a :: l =>
    try_bind (body s a) (λ '(s', stop), if stop : bool then Ret (Ok s') else each body s' l)
  end.

(** ** Meaning *)

Record Semantics (E : Type → Type) (W : Type) := {
  after : ∀ X, E X → X → W → W;
  allowed_in : ∀ X, E X → W → Prop
}.
Arguments after {E W} _ {X} _ _ _.
Arguments allowed_in {E W} _ {X} _ _.

(** [wp p Q w]: from [w], whatever the effects answer, [p] performs only
    allowed effects and ends with a result and a world that satisfy [Q]. *)
Fixpoint wp {E W A} (S : Semantics E W) (p : prog E A) (Q : A → W → Prop) (w : W) : Prop :=
  match p with
  | Ret a => Q a w
  | Do e k => allowed_in S e w ∧ ∀ x, wp S (k x) Q (after S e x w)
  end.

(** One run of a program: its answers, as they come. *)
Inductive runs {E W A} (S : Semantics E W) : prog E A → W → A → W → Prop :=
| runs_ret a w : runs S (Ret a) w a w
| runs_do {X} (e : E X) k x w a w' :
    runs S (k x) (after S e x w) a w' → runs S (Do e k) w a w'.

(** One run step by step: [reaches e p w w'] says that [p] can come to perform
    [e] in the world [w']. *)
Inductive reaches {E W A X} (S : Semantics E W) (e : E X) : prog E A → W → W → Prop :=
| reaches_here k w : reaches S e (Do e k) w w
| reaches_later {Y} (e' : E Y) k x w w' :
    reaches S e (k x) (after S e' x w) w' → reaches S e (Do e' k) w w'.

(** A run against surroundings that answer each effect the same way every
    time. *)
Definition answers (E : Type → Type) := ∀ X, E X → X.

Fixpoint run {E W A} (S : Semantics E W) (h : answers E) (p : prog E A) (w : W) : A * W :=
  match p with
  | Ret a => (a, w)
  | Do e k => run S h (k (h _ e)) (after S e (h _ e) w)
  end.

Section Wp.
Context {E : Type → Type} {W A : Type} (S : Semantics E W).
Implicit Types (p : prog E A) (Q : A → W → Prop).

Lemma wp_mono p Q Q' w : wp S p Q w → (∀ a w', Q a w' → Q' a w') → wp S p Q' w.
Proof.
  revert w. induction p as [a|X e k IH]; simpl; [eauto|]. intros w [Ha Hk] HQ.
  split; [done|]. intros x. by apply IH.
Qed.

Lemma wp_bind {B} (p : prog E B) (f : B → prog E A) Q w :
  wp S p (λ b w', wp S (f b) Q w') w → wp S (bind p f) Q w.
Proof.
  revert w. induction p as [b|X e k IH]; simpl; [done|]. intros w [Ha Hk].
  split; [done|]. intros x. by apply IH.
Qed.

Lemma wp_runs p Q w a w' : wp S p Q w → runs S p w a w' → Q a w'.
Proof. intros Hwp Hr. induction Hr; simpl in *; [done|]. by apply IHHr, Hwp. Qed.

Lemma run_runs h p w : runs S p w (run S h p w).1 (run S h p w).2.
Proof. revert w. induction p; intros w; simpl; by econstructor. Qed.

Lemma run_bind {B} h (p : prog E B) (f : B → prog E A) w :
  run S h (bind p f) w = run S h (f (run S h p w).1) (run S h p w).2.
Proof. revert w. induction p as [b|X e k IH]; intros w; simpl; [done|]. apply IH. Qed.

Lemma reaches_answer {X Y} (h : answers E) (e : E X) (e' : E Y) (k : Y → prog E A) w w' :
  reaches S e (k (h _ e')) (after S e' (h _ e') w) w' → reaches S e (Do e' k) w w'.
Proof. apply reaches_later. Qed.

Lemma wp_reaches {X} (e : E X) p Q w w' : wp S p Q w → reaches S e p w w' → allowed_in S e w'.
Proof. intros Hwp Hr. induction Hr; simpl in *; [tauto|]. by apply IHHr, Hwp. Qed.
End Wp.

Section WpTry.
Context {E : Type → Type} {W F : Type} (S : Semantics E W).

Lemma wp_try {A B} (p : prog E (result B F)) (f : B → prog E (result A F)) Q w :
  wp S p (λ r w', match r with Ok b => wp S (f b) Q w' | Err e => Q (Err e) w' end) w →
  wp S (try_bind p f) Q w.
Proof.
  intros H. apply wp_bind. eapply wp_mono; [exact H|]. intros [b|e] w' Hb; simpl; done.
Qed.

(** A loop keeps an invariant of its state, what is left and the world. *)
Lemma wp_each {A St} (body : St → A → prog E (result (St * bool) F)) (I : St → list A → W → Prop)
    (Q : result St F → W → Prop) s l w :
  I s l w →
  (∀ s a l w, I s (a :: l) w →
     wp S (body s a) (λ r w', match r with
       | Ok (s', stop) => if stop : bool then Q (Ok s') w' else I s' l w'
       | Err e => Q (Err e) w'
       end) w) →
  (∀ s w, I s [] w → Q (Ok s) w) →
  wp S (each body s l) Q w.
Proof.
  intros HI Hbody Hend. revert s w HI. induction l as [|a l IH]; simpl; intros s w HI; [by apply Hend|].
  apply wp_try. eapply wp_mono; [by apply Hbody|]. intros [[s' []]|e] w' H; [done|by apply IH|done].
Qed.
End WpTry.

(** ** Learning

    A world that only records what the answers said: the facts learnt, the
    latest first. *)

Section Learning.
Context {E : Type → Type} {fact : Type}.
Context (learnt : ∀ X, E X → X → list fact) (allowed : ∀ X, E X → list fact → Prop).

Definition learning : Semantics E (list fact) :=
  {| after X e x w := learnt X e x ++ w; allowed_in := allowed |}.

Definition learns {A} (p : prog E A) (Q : A → list fact → Prop) (w : list fact) : Prop :=
  wp learning p (λ a w', w `suffix_of` w' ∧ Q a w') w.

Lemma learns_ret {A} (a : A) Q w : Q a w → learns (Ret a) Q w.
Proof. by split. Qed.

Lemma learns_do {A X} (e : E X) (k : X → prog E A) Q w :
  allowed X e w → (∀ x, learns (k x) Q (learnt X e x ++ w)) → learns (Do e k) Q w.
Proof.
  intros Ha Hk. split; [exact Ha|]. intros x. eapply wp_mono; [apply Hk|]. intros a w' [Hs HQ].
  split; [|done]. by eapply suffix_app_l.
Qed.

Lemma learns_mono {A} (p : prog E A) (Q Q' : A → list fact → Prop) w :
  learns p Q w → (∀ a w', w `suffix_of` w' → Q a w' → Q' a w') → learns p Q' w.
Proof. intros Hp HQ. eapply wp_mono; [exact Hp|]. intros a w' [Hs H]. eauto. Qed.

Lemma learns_bind {A B} (p : prog E B) (f : B → prog E A) (Q : B → list fact → Prop) Q' w :
  learns p Q w → (∀ b w', w `suffix_of` w' → Q b w' → learns (f b) Q' w') → learns (bind p f) Q' w.
Proof.
  intros Hp Hf. apply wp_bind. eapply wp_mono; [exact Hp|]. intros b w' [Hs HQ].
  eapply wp_mono; [by apply Hf|]. intros a w'' [Hs' HQ']. split; [by etrans|done].
Qed.

Lemma learns_try {A B F} (p : prog E (result B F)) (f : B → prog E (result A F))
    (Q : result B F → list fact → Prop) Q' w :
  learns p Q w → (∀ b w', w `suffix_of` w' → Q (Ok b) w' → learns (f b) Q' w') →
  (∀ e w', w `suffix_of` w' → Q (Err e) w' → Q' (Err e) w') → learns (try_bind p f) Q' w.
Proof.
  intros Hp Hf He. eapply learns_bind; [exact Hp|]. intros [b|e] w' Hs HQ; [by apply Hf|].
  apply learns_ret. by apply He.
Qed.

Lemma learns_perform {X} (e : E X) (Q : X → list fact → Prop) w :
  allowed X e w → (∀ x, Q x (learnt X e x ++ w)) → learns (perform e) Q w.
Proof. intros Ha HQ. apply learns_do; [done|]. intros x. by apply learns_ret. Qed.

Lemma learns_each {A T F} (body : T → A → prog E (result (T * bool) F))
    (I : T → list A → list fact → Prop) (Q : result T F → list fact → Prop) s l w :
  I s l w →
  (∀ s a l w, I s (a :: l) w →
     learns (body s a) (λ r w', match r with
       | Ok (s', stop) => if stop : bool then Q (Ok s') w' else I s' l w'
       | Err e => Q (Err e) w'
       end) w) →
  (∀ s w, I s [] w → Q (Ok s) w) →
  learns (each body s l) Q w.
Proof.
  intros HI Hbody Hend. revert s w HI. induction l as [|a l IH]; simpl; intros s w HI.
  { by apply learns_ret, Hend. }
  eapply learns_try; [by apply Hbody| |done].
  intros [s' []] w' Hs H; [by apply learns_ret|by apply IH].
Qed.

Lemma learns_reaches {A X} (e : E X) (p : prog E A) Q w w' :
  learns p Q w → reaches learning e p w w' → allowed X e w'.
Proof. apply wp_reaches. Qed.

Lemma learns_runs {A} (p : prog E A) Q w a w' : learns p Q w → runs learning p w a w' → Q a w'.
Proof. intros Hp Hr. by destruct (wp_runs _ _ _ _ _ _ Hp Hr). Qed.
End Learning.

(** What was learnt stays learnt. *)
Lemma suffix_elem {A} (x : A) w w' : w `suffix_of` w' → x ∈ w → x ∈ w'.
Proof. intros [k ->] Hx. apply elem_of_app. by right. Qed.

(** ** Extending what is known *)

(** [w'] adds to [w] only facts that satisfy [P]. *)
Definition extends {fact} (P : fact → bool) (w w' : list fact) : Prop :=
  ∃ l, w' = l ++ w ∧ forallb P l = true.

Section Extends.
Context {fact : Type} (P : fact → bool).

Lemma extends_refl w : extends P w w.
Proof. by exists []. Qed.

Lemma extends_trans w1 w2 w3 : extends P w1 w2 → extends P w2 w3 → extends P w1 w3.
Proof.
  intros (l1 & -> & H1) (l2 & -> & H2). exists (l2 ++ l1). rewrite app_assoc. split; [done|].
  by rewrite forallb_app, H1, H2.
Qed.

Lemma extends_suffix w w' : extends P w w' → w `suffix_of` w'.
Proof. intros (l & -> & _). by exists l. Qed.

Lemma extends_elem w w' f : extends P w w' → P f = false → f ∈ w' → f ∈ w.
Proof.
  intros (l & -> & Hl) Hf [Hin|?]%elem_of_app; [|done].
  by rewrite (proj1 (forallb_elem _ _) Hl f Hin) in Hf.
Qed.

Lemma extends_weaken (Q : fact → bool) w w' :
  (∀ f, P f = true → Q f = true) → extends P w w' → extends Q w w'.
Proof.
  intros HPQ (l & -> & Hl). exists l. split; [done|]. apply forallb_elem. intros f Hf.
  by apply HPQ, (proj1 (forallb_elem _ _) Hl).
Qed.
End Extends.

(** *** Reading

    [reads p Q w]: whatever the answers, [p] learns only facts that satisfy
    [quiet], and a result it returns satisfies [Q]. *)
Section Reading.
Context {E : Type → Type} {fact F : Type}.
Context (learnt : ∀ X, E X → X → list fact) (allowed : ∀ X, E X → list fact → Prop).
Context (quiet : fact → bool).

Definition reads {A} (p : prog E (result A F)) (Q : A → list fact → Prop) (w : list fact) : Prop :=
  learns learnt allowed p
    (λ res w', extends quiet w w' ∧ match res with Ok a => Q a w' | Err _ => True end) w.

Lemma reads_ret {A} (res : result A F) (Q : A → list fact → Prop) w :
  match res with Ok a => Q a w | Err _ => True end → reads (Ret res) Q w.
Proof. intros H. apply learns_ret. split; [apply extends_refl|done]. Qed.

Lemma reads_mono {A} (p : prog E (result A F)) (Q Q' : A → list fact → Prop) w :
  reads p Q w → (∀ a w', extends quiet w w' → Q a w' → Q' a w') → reads p Q' w.
Proof.
  intros Hp HQ. eapply learns_mono; [exact Hp|]. intros [a|] w' _ [Hc H]; (split; [done|]); [|done]. by apply HQ.
Qed.

Lemma reads_bind {A B} (p : prog E B) (f : B → prog E (result A F)) (Q : B → list fact → Prop)
    (Q' : A → list fact → Prop) w :
  learns learnt allowed p (λ b w', extends quiet w w' ∧ Q b w') w →
  (∀ b w', extends quiet w w' → Q b w' → reads (f b) Q' w') → reads (bind p f) Q' w.
Proof.
  intros Hp Hf. eapply learns_bind; [exact Hp|]. intros b w' _ [Hc HQ].
  eapply learns_mono; [by apply Hf|]. intros res w'' _ [Hc' HQ']. split; [by eapply extends_trans|done].
Qed.

Lemma reads_try {A B} (p : prog E (result B F)) (f : B → prog E (result A F))
    (Q : B → list fact → Prop) (Q' : A → list fact → Prop) w :
  reads p Q w → (∀ b w', extends quiet w w' → Q b w' → reads (f b) Q' w') → reads (try_bind p f) Q' w.
Proof.
  intros Hp Hf. eapply reads_bind; [exact Hp|]. intros [b|e] w' Hc HQ; [by apply Hf|by apply reads_ret].
Qed.

Lemma quiet_perform {X} (e : E X) w :
  allowed X e w → (∀ x, forallb quiet (learnt X e x) = true) →
  learns learnt allowed (perform e) (λ x w', extends quiet w w' ∧ w' = learnt X e x ++ w) w.
Proof. intros Ha Hc. apply learns_perform; [done|]. intros x. split; [by eexists|done]. Qed.

Lemma reads_perform {A} (e : E (result A F)) (Q : A → list fact → Prop) w :
  allowed _ e w → (∀ x, forallb quiet (learnt _ e x) = true) →
  (∀ a, Q a (learnt _ e (Ok a) ++ w)) → reads (perform e) Q w.
Proof.
  intros Ha Hc HQ. apply learns_perform; [done|]. intros x. split; [by eexists|].
  destruct x; [apply HQ|done].
Qed.

Lemma reads_each {A T} (body : T → A → prog E (result (T * bool) F)) (I : T → list A → list fact → Prop) s l w :
  I s l w →
  (∀ s a l w, I s (a :: l) w → reads (body s a) (λ '(s', stop) w', stop = false ∧ I s' l w') w) →
  reads (each body s l) (λ s' w', I s' [] w') w.
Proof.
  intros HI Hbody. revert s w HI. induction l as [|a l IH]; intros s w HI; simpl; [by apply reads_ret|].
  eapply reads_try; [by apply Hbody|]. intros [s' stop] w' _ [-> H']. by apply IH.
Qed.
End Reading.

(** What a program learns does not depend on what was known before. *)
Section Frame.
Context {E : Type → Type} {fact : Type} (learnt : ∀ X, E X → X → list fact).
Context (allowed allowed' : ∀ X, E X → list fact → Prop) (w0 : list fact).
Hypothesis allowed_more : ∀ X e w, allowed X e w → allowed' X e (w ++ w0).

Lemma wp_frame {A} (p : prog E A) Q w :
  wp (learning learnt allowed) p Q w →
  wp (learning learnt allowed') p (λ a w', ∃ w2, w' = w2 ++ w0 ∧ Q a w2) (w ++ w0).
Proof.
  revert w. induction p as [a|X e k IH]; intros w; simpl; [by exists w|].
  intros [He Hk]. split; [by apply allowed_more|]. intros x. rewrite app_assoc. by apply IH.
Qed.

Lemma reads_frame {A F} (quiet : fact → bool) (p : prog E (result A F)) (Q : A → list fact → Prop) :
  reads learnt allowed quiet p Q [] →
  reads learnt allowed' quiet p (λ a w', ∃ w2, w' = w2 ++ w0 ∧ Q a w2) w0.
Proof.
  intros H. apply wp_frame in H. eapply wp_mono; [exact H|].
  intros res w' (w2 & -> & _ & Hx & HQ). rewrite <- (app_nil_r w2) in Hx.
  split; [by exists w2|]. split.
  - destruct Hx as (l & Hl & Hq). apply app_inv_tail in Hl as ->. by exists l.
  - destruct res; [by exists w2|done].
Qed.
End Frame.

(** More may be allowed. *)
Lemma reads_allow {E : Type → Type} {fact A F} (learnt : ∀ X, E X → X → list fact)
    (allowed allowed' : ∀ X, E X → list fact → Prop) (quiet : fact → bool)
    (p : prog E (result A F)) (Q : A → list fact → Prop) w :
  (∀ X e w, allowed X e w → allowed' X e w) →
  reads learnt allowed quiet p Q w → reads learnt allowed' quiet p Q w.
Proof.
  intros Ha. unfold reads, learns. generalize (λ (a : result A F) w', w `suffix_of` w' ∧ extends quiet w w'
    ∧ match a with Ok a => Q a w' | Err _ => True end). intros R. revert w.
  induction p as [a|X e k IH]; intros w; simpl; [done|].
  intros [He Hk]. split; [by apply Ha|]. intros x. by apply IH.
Qed.

(** ** The effects of a run, one by one *)

(** Where a run is: at an effect, in a world, or at its end. *)
Inductive moment (E : Type → Type) (W : Type) : Type :=
| Ended
| At {X : Type} (e : E X) (w : W).
Arguments Ended {E W}.
Arguments At {E W X} e w.

Definition world_at {E W} (w0 : W) (m : moment E W) : W :=
  match m with Ended => w0 | At _ w => w end.

(** What comes after [n] effects of a run against [h], and the world then. *)
Fixpoint nth_effect {E W A} (S : Semantics E W) (h : answers E) (n : nat) (p : prog E A) (w : W) : moment E W :=
  match p with
  | Ret _ => Ended
  | Do e k =>
    match n with
    | O => At e w
    | Datatypes.S n => nth_effect S h n (k (h _ e)) (after S e (h _ e) w)
    end
  end.

Lemma nth_reaches {E W A} (S : Semantics E W) h n (p : prog E A) w m :
  nth_effect S h n p w = m → match m with At e w' => reaches S e p w w' | Ended => True end.
Proof.
  intros <-. revert p w. induction n as [|n IH]; intros [a|X e k] w; simpl; try done; [apply reaches_here|].
  specialize (IH (k (h X e)) (after S e (h X e) w)). destruct (nth_effect _ _ _ _ _); [done|].
  by eapply reaches_later.
Qed.
