(* ===== verification/Interleaving.v ===== *)
(** * Interleaved programs

    Several programs over one world, each effect atomic, in any order, with
    moves of the surroundings in between.  What a thread relies on is stated
    over the history of the world, which only grows, so that a fact one
    thread learnt survives the steps of all others; [interleave_sound] turns
    the threads' own arguments into an invariant of every schedule. *)

From S2P Require Import Prelude Effects.

(** ** Histories *)

Lemma suffix_subset {A} (l k : list A) : l `suffix_of` k → l ⊆ k.
Proof. intros [k' ->] x Hx. apply elem_of_app. by right. Qed.

(** Histories along which the world only develops one way, newest first. *)
Section NewestFirst.
Context {W : Type} (older : W → W → Prop) {older_preorder : PreOrder older}.

Definition newest_first : list W → Prop := StronglySorted (λ w' w, older w w').

Lemma newest_first_total h w1 w2 : newest_first h → w1 ∈ h → w2 ∈ h → older w1 w2 ∨ older w2 w1.
Proof using older_preorder.
  intros Ho. induction Ho as [|w h Ho IH Hw]; [by intros ?%not_elem_of_nil|].
  rewrite Forall_forall in Hw. intros [->|H1]%elem_of_cons [->|H2]%elem_of_cons; [by left|..].
  - right. by apply Hw.
  - left. by apply Hw.
  - by apply IH.
Qed.

Lemma newest_first_head w past w1 : newest_first (w :: past) → w1 ∈ w :: past → older w1 w.
Proof using older_preorder.
  intros Ho%StronglySorted_inv [->|Hin]%elem_of_cons; [done|]. destruct Ho as [_ Ho].
  rewrite Forall_forall in Ho. by apply Ho.
Qed.

Lemma newest_first_next w' w past : newest_first (w :: past) → older w w' → newest_first (w' :: w :: past).
Proof using older_preorder.
  intros Ho Hold. constructor; [done|]. apply Forall_forall. intros w1 H1. etrans; [|exact Hold].
  by apply (newest_first_head w past).
Qed.
End NewestFirst.
Arguments newest_first_total {W older _}.
Arguments newest_first_head {W older _}.
Arguments newest_first_next {W older _}.

(** ** Threads *)

(** What a thread slot holds: nothing, or the rest of a request's program. *)
Inductive slot (E : Type → Type) (R A : Type) : Type :=
| Idle
| Busy (request : R) (rest : prog E A).
Arguments Idle {E R A}.
Arguments Busy {E R A} request rest.

(** One step of a schedule: a request arrives, a thread performs its next
    effect (answered as [c] says), a thread that ended reports, or the
    surroundings move. *)
Inductive label (R C M : Type) : Type :=
| Arrive (i : nat) (request : R)
| Perform (i : nat) (c : C)
| Report (i : nat)
| Move (m : M).
Arguments Arrive {R C M} i request.
Arguments Perform {R C M} i c.
Arguments Report {R C M} i.
Arguments Move {R C M} m.

(** What runs, and in which world. *)
Record Threads (E : Type → Type) (W R A C M : Type) := {
  begin : R → prog E A;
  act : ∀ X, E X → C → W → option (X * W);
  report : R → A → W → W;
  move : M → W → option W
}.
Arguments begin {E W R A C M} _ _.
Arguments act {E W R A C M} _ {X} _ _ _.
Arguments report {E W R A C M} _ _ _ _.
Arguments move {E W R A C M} _ _ _.

Section Interleaving.
Context {E : Type → Type} {W R A C M : Type} (T : Threads E W R A C M).

Record system := { world : W; past : list W; slots : nat → slot E R A }.

Definition history (s : system) : list W := world s :: past s.

Definition put_slot (f : nat → slot E R A) (i : nat) (x : slot E R A) : nat → slot E R A :=
  λ j, if (j =? i)%nat then x else f j.

Definition turn (l : label R C M) (s : system) : option system :=
  match l with
  | Arrive i request =>
    match slots s i with
    | Idle => Some {| world := world s; past := past s; slots := put_slot (slots s) i (Busy request (begin T request)) |}
    | Busy _ _ => None
    end
  | Perform i c =>
    match slots s i with
    | Busy request (Do e k) =>
      match act T e c (world s) with
      | Some (x, w) =>
        Some {| world := w; past := history s; slots := put_slot (slots s) i (Busy request (k x)) |}
      | None => None
      end
    | _ => None
    end
  | Report i =>
    match slots s i with
    | Busy request (Ret a) =>
      Some {| world := report T request a (world s); past := history s; slots := put_slot (slots s) i Idle |}
    | _ => None
    end
  | Move m =>
    match move T m (world s) with
    | Some w => Some {| world := w; past := history s; slots := slots s |}
    | None => None
    end
  end.

Fixpoint interleave (ls : list (label R C M)) (s : system) : option system :=
  match ls with
  | [] => Some s
  | l :: ls => match turn l s with Some s' => interleave ls s' | None => None end
  end.

Definition at_rest (w : W) : system := {| world := w; past := []; slots := λ _, Idle |}.

(** ** What a thread may rely on *)

Context (Inv : W → list W → Prop).

(** [safe p Q h]: from the history [h] on, whatever happens in between and
    however its effects are answered, [p] keeps [Inv] and ends with [Q]. *)
Fixpoint safe {B} (p : prog E B) (Q : B → list W → Prop) (h : list W) : Prop :=
  match p with
  | Ret b => Q b h
  | Do e k =>
    ∀ w past, h `suffix_of` w :: past → Inv w past →
    ∀ c x w', act T e c w = Some (x, w') →
      Inv w' (w :: past) ∧ safe (k x) Q (w' :: w :: past)
  end.

Lemma safe_later {B} (p : prog E B) Q h h' :
  (∀ b h1 h2, h1 `suffix_of` h2 → Q b h1 → Q b h2) → h `suffix_of` h' → safe p Q h → safe p Q h'.
Proof.
  intros HQ Hs. destruct p as [b|X e k]; simpl; [by apply HQ|].
  intros Hp w past' Hs'. apply Hp. by etrans.
Qed.

Lemma safe_mono {B} (p : prog E B) (Q Q' : B → list W → Prop) h :
  safe p Q h → (∀ b h', h `suffix_of` h' → Q b h' → Q' b h') → safe p Q' h.
Proof.
  revert h. induction p as [b|X e k IH]; intros h; simpl; [eauto|]. intros Hp HQ w past' Hs HI c x w' Ha.
  destruct (Hp w past' Hs HI c x w' Ha) as [HI' Hk]. split; [done|]. apply IH; [done|].
  intros b h' Hs'. apply HQ. etrans; [exact Hs|]. etrans; [|exact Hs']. by exists [w'].
Qed.

Lemma safe_bind {B B'} (p : prog E B') (f : B' → prog E B) Q h :
  safe p (λ b h', safe (f b) Q h') h → safe (bind p f) Q h.
Proof.
  revert h. induction p as [b|X e k IH]; intros h; simpl; [done|]. intros Hp w past' Hs HI c x w' Ha.
  destruct (Hp w past' Hs HI c x w' Ha) as [HI' Hk]. split; [done|]. by apply IH.
Qed.

Lemma safe_try {B B' F} (p : prog E (result B' F)) (f : B' → prog E (result B F)) Q h :
  safe p (λ r h', match r with Ok b => safe (f b) Q h' | Err e => Q (Err e) h' end) h →
  safe (try_bind p f) Q h.
Proof.
  intros H. apply safe_bind. eapply safe_mono; [exact H|]. by intros [b|e] h' _ Hb.
Qed.

Lemma safe_perform {X} (e : E X) (Q : X → list W → Prop) h :
  (∀ w past, h `suffix_of` w :: past → Inv w past → ∀ c x w', act T e c w = Some (x, w') →
     Inv w' (w :: past) ∧ Q x (w' :: w :: past)) →
  safe (perform e) Q h.
Proof. done. Qed.

Lemma safe_and {B} (p : prog E B) (Q Q' : B → list W → Prop) h :
  safe p Q h → safe p Q' h → safe p (λ b h', Q b h' ∧ Q' b h') h.
Proof.
  revert h. induction p as [b|X e k IH]; intros h; simpl; [done|]. intros Hp Hp' w past' Hs HI c x w' Ha.
  destruct (Hp w past' Hs HI c x w' Ha) as [HI' Hk]. destruct (Hp' w past' Hs HI c x w' Ha) as [_ Hk'].
  split; [done|]. by apply IH.
Qed.

(** ** Every schedule *)

(** A thread that ended may report at any later moment. *)
Definition reportable (request : R) (a : A) (h : list W) : Prop :=
  ∀ w past, h `suffix_of` w :: past → Inv w past → Inv (report T request a w) (w :: past).

Lemma reportable_later request a h1 h2 : h1 `suffix_of` h2 → reportable request a h1 → reportable request a h2.
Proof. intros Hs Hr w past' Hs'. apply Hr. by etrans. Qed.

Definition slot_safe (h : list W) (x : slot E R A) : Prop :=
  match x with Idle => True | Busy request p => safe p (reportable request) h end.

Definition sound (s : system) : Prop :=
  Inv (world s) (past s) ∧ ∀ i, slot_safe (history s) (slots s i).

Lemma slot_safe_later h h' x : h `suffix_of` h' → slot_safe h x → slot_safe h' x.
Proof.
  destruct x as [|request p]; [done|]. intros Hs. apply safe_later; [|done].
  intros b h1 h2. apply reportable_later.
Qed.

Lemma put_slot_safe h f i x :
  (∀ j, slot_safe h (f j)) → slot_safe h x → ∀ j, slot_safe h (put_slot f i x j).
Proof. intros Hf Hx j. unfold put_slot. by destruct (j =? i)%nat. Qed.

Context (begin_safe : ∀ request w past, Inv w past → safe (begin T request) (reportable request) (w :: past)).
Context (move_safe : ∀ m w past w', Inv w past → move T m w = Some w' → Inv w' (w :: past)).

Lemma turn_sound l s s' : sound s → turn l s = Some s' → sound s'.
Proof.
  intros [HI Hsl] Hstep. unfold turn in Hstep.
  assert (∀ w' j, slot_safe (w' :: history s) (slots s j)) as Hlater.
  { intros w' j. eapply slot_safe_later; [|apply Hsl]. by exists [w']. }
  destruct l as [i request|i c|i|m].
  - destruct (slots s i); [|done]. injection Hstep as <-. split; [done|]. apply put_slot_safe; [done|].
    by apply begin_safe.
  - specialize (Hsl i). destruct (slots s i) as [|request [a|X e k]]; [done..|].
    destruct (act T e c (world s)) as [[x w']|] eqn:Ha; [|done]. injection Hstep as <-.
    destruct (Hsl (world s) (past s) (reflexivity _) HI c x w' Ha) as [HI' Hk].
    split; [done|]. apply put_slot_safe; [apply Hlater|done].
  - specialize (Hsl i). destruct (slots s i) as [|request [a|X e k]]; [done| |done].
    injection Hstep as <-. split; [apply Hsl; [reflexivity|done]|]. apply put_slot_safe; [apply Hlater|done].
  - destruct (move T m (world s)) as [w'|] eqn:Hm; [|done]. injection Hstep as <-.
    split; [by eapply move_safe|]. intros j. apply Hlater.
Qed.

Lemma interleave_sound ls s s' : sound s → interleave ls s = Some s' → sound s'.
Proof.
  revert s. induction ls as [|l ls IH]; intros s Hs; simpl; [by intros [= <-]|].
  destruct (turn l s) as [s1|] eqn:Hl; [|done]. apply IH. by eapply turn_sound.
Qed.

Lemma at_rest_sound w : Inv w [] → sound (at_rest w).
Proof. by split. Qed.

(** ** A thread on its own *)

(** What a program comes to when nothing happens in between and every effect
    fares alike. *)
Fixpoint solo {B} (c : C) (p : prog E B) (w : W) : option (B * W) :=
  match p with
  | Ret b => Some (b, w)
  | Do e k => match act T e c w with Some (x, w') => solo c (k x) w' | None => None end
  end.

Lemma solo_bind {B B'} c (p : prog E B') (f : B' → prog E B) w :
  solo c (bind p f) w = match solo c p w with Some (b, w') => solo c (f b) w' | None => None end.
Proof.
  revert w. induction p as [b|X e k IH]; intros w; simpl; [done|].
  destruct (act T e c w) as [[x w']|]; [apply IH|done].
Qed.

Lemma put_slot_same f i x : put_slot f i x i = x.
Proof. unfold put_slot. by rewrite Nat.eqb_refl. Qed.

Lemma interleave_app ls ls' s :
  interleave (ls ++ ls') s = match interleave ls s with Some s' => interleave ls' s' | None => None end.
Proof. revert s. induction ls as [|l ls IH]; intros s; simpl; [done|]. destruct (turn l s); [apply IH|done]. Qed.

(** The steps of a thread. *)
Definition elsewhere (i : nat) (l : label R C M) : Prop :=
  match l with Arrive j _ | Perform j _ | Report j => j ≠ i | Move _ => True end.

Lemma untouched_slot ls s s' i : Forall (elsewhere i) ls → interleave ls s = Some s' → slots s' i = slots s i.
Proof.
  intros Hls. revert s. induction Hls as [|l ls Hl _ IH]; intros s; simpl; [by intros [= <-]|].
  destruct (turn l s) as [s1|] eqn:Ht; [|done]. intros Hs. rewrite (IH _ Hs).
  assert (∀ j x, j ≠ i → put_slot (slots s) j x i = slots s i) as Hput.
  { intros j x Hj. unfold put_slot. by rewrite (proj2 (Nat.eqb_neq i j)) by congruence. }
  unfold turn in Ht. destruct l; simpl in Hl; repeat case_match; simplify_eq/=; auto.
Qed.

Lemma solo_performs c i request p s a w :
  slots s i = Busy request p → solo c p (world s) = Some (a, w) →
  ∃ k s', interleave (replicate k (Perform i c)) s = Some s' ∧ world s' = w
          ∧ slots s' i = Busy request (Ret a).
Proof.
  revert s. induction p as [b|X e k IH]; intros s Hi; simpl.
  { intros [= <- <-]. by exists 0%nat, s. }
  destruct (act T e c (world s)) as [[x w1]|] eqn:Ha; [|done]. intros Hsolo.
  destruct (IH x {| world := w1; past := history s; slots := put_slot (slots s) i (Busy request (k x)) |})
    as (n & s' & Hrun & ?); [apply put_slot_same|done|].
  exists (S n), s'. split; [|done]. simpl. by rewrite Hi, Ha.
Qed.

(** A request on its own, from its arrival to its report. *)
Lemma solo_request c i request s a w :
  slots s i = Idle → solo c (begin T request) (world s) = Some (a, w) →
  ∃ k s', interleave (Arrive i request :: replicate k (Perform i c) ++ [Report i]) s = Some s'
          ∧ world s' = report T request a w.
Proof.
  intros Hi Hsolo. simpl. rewrite Hi.
  destruct (solo_performs c i request (begin T request)
    {| world := world s; past := past s; slots := put_slot (slots s) i (Busy request (begin T request)) |} a w)
    as (k & s1 & Hrun & Hw & Hs1); [apply put_slot_same|done|].
  exists k. eexists. rewrite interleave_app, Hrun. simpl. rewrite Hs1. split; [done|]. by rewrite <- Hw.
Qed.
End Interleaving.

(** A thread that is safe stays so while something else holds that no effect
    ends. *)
Lemma safe_with {E W R A C M} (T : Threads E W R A C M) (Inv : W → list W → Prop) (J : W → Prop) {B} (p : prog E B) Q h :
  (∀ X (e : E X) c x w w' past, act T e c w = Some (x, w') → Inv w past → Inv w' (w :: past) → J w → J w') →
  safe T Inv p Q h → safe T (λ w past, Inv w past ∧ J w) p Q h.
Proof.
  intros HJ. revert h. induction p as [b|X e k IH]; intros h; simpl; [done|].
  intros Hp w past Hs [HI Hj] c x w' Ha. destruct (Hp w past Hs HI c x w' Ha) as [HI' Hk].
  split; [|by apply IH]. split; [done|]. by eapply HJ.
Qed.

(** ** Programs by their effects *)

Section Yields.
Context {E : Type → Type} (ok : ∀ X, E X → Prop).

(** Every effect is allowed and the result is as [P] says. *)
Fixpoint yields {A} (p : prog E A) (P : A → Prop) : Prop :=
  match p with
  | Ret a => P a
  | Do e k => ok _ e ∧ ∀ x, yields (k x) P
  end.

Lemma yields_mono {A} (p : prog E A) (P P' : A → Prop) : (∀ a, P a → P' a) → yields p P → yields p P'.
Proof. intros HP. induction p as [a|X e k IH]; simpl; [apply HP|]. intros [He Hk]. split; [done|]. intros x. by apply IH. Qed.

Lemma yields_bind {A B} (p : prog E B) (f : B → prog E A) (P : B → Prop) (P' : A → Prop) :
  yields p P → (∀ b, P b → yields (f b) P') → yields (bind p f) P'.
Proof.
  intros Hp Hf. induction p as [b|X e k IH]; simpl in *; [by apply Hf|]. destruct Hp as [He Hk]. split; [done|].
  intros x. by apply IH.
Qed.

Lemma yields_try {A B F} (p : prog E (result B F)) (f : B → prog E (result A F)) (P : B → Prop) (P' : result A F → Prop) :
  yields p (λ r, match r with Ok b => P b | Err _ => True end) → (∀ b, P b → yields (f b) P') → (∀ e, P' (Err e)) →
  yields (try_bind p f) P'.
Proof. intros Hp Hf He. eapply yields_bind; [exact Hp|]. intros [b|e] Hb; [by apply Hf|apply He]. Qed.

Lemma yields_perform {X} (e : E X) (P : X → Prop) : ok X e → (∀ x, P x) → yields (perform e) P.
Proof. by split. Qed.

Lemma yields_each {A St F} (body : St → A → prog E (result (St * bool) F)) s l :
  (∀ s a, yields (body s a) (λ _, True)) → yields (each body s l) (λ _, True).
Proof.
  intros Hb. revert s. induction l as [|a l IH]; intros s; simpl; [done|].
  eapply yields_try with (P := λ _, True); [eapply yields_mono; [|apply Hb]; by intros [|]| |done].
  intros [s' stop] _. destruct stop; [done|apply IH].
Qed.
End Yields.

Ltac unfold_head p := lazymatch p with ?f _ => unfold_head f | _ => unfold p end.

Ltac yielding :=
  lazymatch goal with
  | |- True => exact I
  | |- ∀ _, _ => intros; yielding
  | |- yields _ (Ret _) _ => first [exact I | done | simpl; repeat case_match; done]
  | |- yields _ (perform _) _ => apply yields_perform; [done|]; yielding
  | |- yields _ (try_bind _ _) _ => eapply (yields_try _ _ _ (λ _, True)); [yielding|yielding|yielding]
  | |- yields _ (bind _ _) _ => eapply (yields_bind _ _ _ (λ _, True)); [yielding|yielding]
  | |- yields _ (each _ _ _) _ => eapply yields_mono; [|apply yields_each; yielding]; by intros [|]
  | |- yields _ (match ?x with _ => _ end) _ => destruct x; yielding
  | |- yields _ (let _ := _ in _) _ => cbv zeta; yielding
  | |- yields _ ?p _ => unfold_head p; yielding
  | |- match ?x with _ => _ end => destruct x; yielding
  | |- _ => done
  end.

(** A history the thread knows is part of a longer one. *)
Ltac later :=
  solve [repeat first
    [ assumption | reflexivity
    | match goal with
      | H : ?a `suffix_of` ?b |- ?a `suffix_of` _ => etrans; [exact H|]; clear H
      | H : _ :: ?a `suffix_of` ?b |- ?a `suffix_of` _ => etrans; [exact (suffix_cons_l _ _ _ H)|]; clear H
      end
    | apply suffix_cons_r ]].
