(* ===== verification/Compatibility.v ===== *)
(** * Software compatibility

    [software_compatibility.rs]: the signed profile of a release, the
    observations an environment owner supplies, the evaluation of one against
    the other, holds for unmet contracts, and the refusal of plans that would
    leave an installed dependent without its provider. *)

From S2P Require Import Prelude RustStr Semver Facts CycleCheck.

(** ** Data *)

Inductive ContractRequirement :=
| Minimum (minimum : string)
| Detailed (minimum : string) (optional : bool).

Definition minimum (r : ContractRequirement) : string :=
  match r with Minimum value | Detailed value _ => value end.
Definition optional (r : ContractRequirement) : bool :=
  match r with Detailed _ true => true | _ => false end.
Definition is_table_form (r : ContractRequirement) : bool :=
  match r with Detailed _ _ => true | _ => false end.

Inductive ComponentPin := Revision (value : string) | Digest (value : string).
#[export] Instance ComponentPin_eq : EqDecision ComponentPin.
Proof. solve_decision. Defined.

Record ComponentRequirement := {
  pin : ComponentPin;
  requires : gmap string ContractRequirement;
  provides : gmap string string
}.

Definition required_minimums (c : ComponentRequirement) : gmap string string :=
  minimum <$> requires c.

Inductive MigrationState := Stable | Pending.
#[export] Instance MigrationState_eq : EqDecision MigrationState.
Proof. solve_decision. Defined.

Record SchemaRequirement := {
  schema_minimum : Z;
  schema_maximum : Z;
  schema_migration : MigrationState
}.

Record CompatibilityProfile := {
  version : Z;
  components : gmap string ComponentRequirement;
  capabilities : list string;
  facts : gmap string string;
  schema : option SchemaRequirement;
  max_evidence_age_ms : Z
}.

Record ComponentObservation := {
  observed_pin : ComponentPin;
  observed_requires : gmap string string;
  observed_provides : gmap string string
}.

Record CompatibilityEvidence := {
  evidence_version : Z;
  release_digest : string;
  environment : string;
  observed_at_ms : Z;
  evidence_components : gmap string ComponentObservation;
  contracts : gmap string string;
  evidence_capabilities : list string;
  schema_version : option Z;
  migration : MigrationState
}.

Inductive CompatibilityFailure :=
| MissingEvidence
| InvalidEvidence
| AmbiguousEvidence
| PreflightUnavailable
| AmbiguousComponent (component : string)
| ReleaseBinding
| EnvironmentBinding
| StaleEvidence
| MissingComponent (component : string)
| ComponentChanged (component : string)
| MissingCapability (capability : string)
| UnsatisfiedFact (fact : string)
| MissingContract (contract : string)
| AmbiguousContract (contract : string)
| IncompatibleContract (contract : string)
| UnsupportedSchema
| MigrationStateMismatch.

Record CompatibilityOutcome := {
  outcome_version : Z;
  outcome_release_digest : string;
  failures : list CompatibilityFailure;
  satisfied_by : gmap string string
}.

Record CompatibilityEval := {
  outcome : CompatibilityOutcome;
  candidate_unmet : gmap string string
}.

(** Last-successful deployments that offer a contract. *)
Definition DeployedOffers : Type := gmap string (list (string * string)).

Inductive ContractOfferSource := Observed | Deployed (release : string).

Record ContractOffer := {
  offer_version : string;
  source : ContractOfferSource
}.

Inductive compat_error :=
| ProfileShape
| EvidenceAge
| InvalidIdentifier
| InvalidPin
| TooManyContracts
| TableFormNeedsV2 (contract : string)
| InvalidContractVersion
| UnstableContractVersion
| RequirementCycle (cycle : cycle_error)
| SearchDiverged
| TooManyRequirements
| InvalidFactRequirement (error : option fact_error)
| SchemaRange
| UnparsedVersion (value : string)
| DependentAmbiguous (dependent contract : string)
| DependentUnsatisfied (dependent contract minimum : string).

Section Compatibility.
Context {SV : Semver}.

(** ** Validation *)

Definition validate_identifier (value : string) : result unit compat_error :=
  bail_if str_is_empty value || (128 <? str_len value)
          || negb (all_bytes (λ c, is_ascii_alphanumeric c || bool_decide (c = "."%char)
                                   || bool_decide (c = "_"%char) || bool_decide (c = "-"%char))
                             value)
    with InvalidIdentifier in
  Ok tt.

Definition validate_contract_version (value : string) : result unit compat_error :=
  match Version_parse value with
  | None => Err InvalidContractVersion
  | Some parsed =>
    bail_if negb (Version_pre_is_empty parsed) || negb (Version_build_is_empty parsed)
      with UnstableContractVersion in
    Ok tt
  end.

Definition validate_contracts (entries : gmap string string) : result unit compat_error :=
  bail_if 128 <? Z.of_nat (size entries) with TooManyContracts in
  try_for_each (λ '(name, value),
    let? _ := validate_identifier name in validate_contract_version value)
    (btree_iter entries).

Definition validate_requirements (profile_version : Z)
    (requirements : gmap string ContractRequirement) : result unit compat_error :=
  bail_if 128 <? Z.of_nat (size requirements) with TooManyContracts in
  try_for_each (λ '(name, requirement),
    let? _ := validate_identifier name in
    let? _ := validate_contract_version (minimum requirement) in
    bail_if (profile_version <? 2) && is_table_form requirement with (TableFormNeedsV2 name) in
    Ok tt)
    (btree_iter requirements).

(** [ComponentPin::validate]. *)
Definition validate_pin (value : ComponentPin) : result unit compat_error :=
  match value with
  | Digest value =>
    let valid := is_some_and (strip_prefix "sha256:" value) (λ hex,
      (str_len hex =? 64)
      && all_bytes (λ c, is_ascii_hexdigit c && negb (is_ascii_uppercase c)) hex) in
    bail_if negb valid with InvalidPin in Ok tt
  | Revision value =>
    bail_if negb ((str_len value =? 40) || (str_len value =? 64))
            || negb (all_bytes is_ascii_hexdigit value)
      with InvalidPin in
    Ok tt
  end.

(** The provider lists and edges [refuse_requirement_cycle] builds. *)
Definition component_providers (cs : gmap string ComponentRequirement) :
    gmap string (list string) :=
  foldl (λ acc '(name, c),
    foldl (λ acc contract, push_entry acc contract name) acc (btree_keys (provides c)))
    ∅ (btree_iter cs).

Definition requirement_edges (cs : gmap string ComponentRequirement) :
    gmap string (list (string * string)) :=
  let providers := component_providers cs in
  foldl (λ acc '(name, c),
    foldl (λ acc contract,
      match providers !! contract with
      | Some targets => foldl (λ acc target, push_entry acc name (target, contract)) acc targets
      | None => acc
      end) acc (btree_keys (requires c)))
    ∅ (btree_iter cs).

Definition refuse_requirement_cycle (cs : gmap string ComponentRequirement) :
    result unit compat_error :=
  match search (requirement_edges cs) (dom cs) with
  | Some (Ok _) => Ok tt
  | Some (Err cycle) => Err (RequirementCycle cycle)
  | None => Err SearchDiverged
  end.

(** [CompatibilityProfile::validate]. *)
Definition validate_profile (p : CompatibilityProfile) : result unit compat_error :=
  bail_if negb ((version p =? 1) || (version p =? 2))
          || (Z.of_nat (size (components p)) =? 0) || (128 <? Z.of_nat (size (components p)))
    with ProfileShape in
  bail_if (max_evidence_age_ms p =? 0) || (86400000 <? max_evidence_age_ms p)
    with EvidenceAge in
  let? _ := try_for_each (λ '(name, c),
    let? _ := validate_identifier name in
    let? _ := validate_pin (pin c) in
    let? _ := validate_requirements (version p) (requires c) in
    validate_contracts (provides c)) (btree_iter (components p)) in
  let? _ := if 2 <=? version p then refuse_requirement_cycle (components p) else Ok tt in
  bail_if (128 <? Z.of_nat (length (capabilities p))) || (128 <? Z.of_nat (size (facts p)))
    with TooManyRequirements in
  let? _ := try_for_each validate_identifier (capabilities p) in
  let? _ := try_for_each (λ '(key, value),
    let? _ := map_err (λ e, InvalidFactRequirement (Some e)) (validate_fact_key key) in
    let? _ := map_err (λ e, InvalidFactRequirement (Some e)) (validate_fact_value key value) in
    bail_if str_is_empty value || (128 <? str_len value) || any_control value
      with (InvalidFactRequirement None) in
    Ok tt) (btree_iter (facts p)) in
  bail_if is_some_and (schema p) (λ s, schema_maximum s <? schema_minimum s)
    with SchemaRange in
  Ok tt.

(** ** Contracts *)

(** [contract_satisfies]: the same major and at least the minimum; from
    profile version 2 on also the same minor below 1.0. *)
Definition contract_satisfies (profile_version : Z) (actual minimum : Version) : bool :=
  if negb (Version_major actual =? Version_major minimum) || version_lt actual minimum then false
  else if (2 <=? profile_version) && (Version_major minimum =? 0)
          && negb (Version_minor actual =? Version_minor minimum) then false
  else true.

Definition stricter_contract_minimum (left right : string) : string :=
  match Version_parse left, Version_parse right with
  | Some left_ver, Some right_ver => if version_lt left_ver right_ver then right else left
  | _, _ => left
  end.

(** [entry(contract).and_modify(stricter).or_insert(minimum)]. *)
Definition record_unmet (unmet : gmap string string) (contract minimum : string) :
    gmap string string :=
  match unmet !! contract with
  | Some existing => <[contract := stricter_contract_minimum existing minimum]> unmet
  | None => <[contract := minimum]> unmet
  end.

Definition contract_offers (evidence : option CompatibilityEvidence) (deployed : DeployedOffers) :
    gmap string (list ContractOffer) :=
  let observe acc '(name, value) :=
    push_entry acc name {| offer_version := value; source := Observed |} in
  let observed :=
    match evidence with
    | Some e =>
      let direct := foldl observe ∅ (btree_iter (contracts e)) in
      foldl (λ acc component, foldl observe acc (btree_iter (observed_provides component)))
            direct (btree_values (evidence_components e))
    | None => ∅
    end in
  foldl (λ acc '(name, offers),
    foldl (λ acc '(release, value),
      push_entry acc name {| offer_version := value; source := Deployed release |}) acc offers)
    observed (btree_iter deployed).

Definition add_deployed_provides (deployed : DeployedOffers) (product version : string)
    (profile : CompatibilityProfile) : DeployedOffers :=
  let release := (product +:+ "@" +:+ version)%string in
  foldl (λ acc component,
    foldl (λ acc '(contract, contract_version), push_entry acc contract (release, contract_version))
          acc (btree_iter (provides component)))
    deployed (btree_values (components profile)).

(** The verdict of [check_contracts] on one requirement, and the release
    that satisfies it when a deployment does. *)
Definition check_contract (profile_version : Z) (contract : string)
    (requirement : ContractRequirement) (offers : option (list ContractOffer)) :
    result (option CompatibilityFailure * option string) compat_error :=
  match offers with
  | None | Some [] =>
    if optional requirement then Ok (None, None)
    else Ok (Some (MissingContract contract), None)
  | Some [provided] =>
    let? actual := ok_or (Version_parse (offer_version provided))
                         (UnparsedVersion (offer_version provided)) in
    let? required := ok_or (Version_parse (minimum requirement))
                           (UnparsedVersion (minimum requirement)) in
    if negb (contract_satisfies profile_version actual required)
    then Ok (Some (IncompatibleContract contract), None)
    else Ok (None, match source provided with
                   | Deployed release => Some release
                   | Observed => None
                   end)
  | Some _ => Ok (Some (AmbiguousContract contract), None)
  end.

(** The accumulators of [check_contracts]. *)
Record contract_check := {
  check_failures : list CompatibilityFailure;
  check_satisfied_by : gmap string string;
  check_unmet : gmap string string
}.

Definition check_one (profile_version : Z) (offers : gmap string (list ContractOffer))
    (acc : contract_check) (entry : string * ContractRequirement) :
    result contract_check compat_error :=
  let '(contract, requirement) := entry in
  let? (failure, release) := check_contract profile_version contract requirement
                                            (offers !! contract) in
  let satisfied := match release with
                   | Some release => <[contract := release]> (check_satisfied_by acc)
                   | None => check_satisfied_by acc
                   end in
  match failure with
  | None => Ok {| check_failures := check_failures acc;
                  check_satisfied_by := satisfied;
                  check_unmet := check_unmet acc |}
  | Some failure =>
    let holdable := match failure with
                    | MissingContract _ | IncompatibleContract _ => negb (optional requirement)
                    | _ => false
                    end in
    Ok {| check_failures := check_failures acc ++ [failure];
          check_satisfied_by := satisfied;
          check_unmet := if holdable
                         then record_unmet (check_unmet acc) contract (minimum requirement)
                         else check_unmet acc |}
  end.

Definition check_contracts (profile_version : Z) (requirements : gmap string ContractRequirement)
    (offers : gmap string (list ContractOffer)) (failures : list CompatibilityFailure)
    (satisfied : gmap string string) : result contract_check compat_error :=
  try_fold (check_one profile_version offers)
    {| check_failures := failures; check_satisfied_by := satisfied; check_unmet := ∅ |}
    (btree_iter requirements).

(** ** Evaluation *)

(** [Vec::dedup]: consecutive duplicates collapse. *)
Fixpoint dedup {A} `{!EqDecision A} (l : list A) : list A :=
  match l with
  | a :: rest =>
    match rest with
    | b :: _ => if decide (a = b) then dedup rest else a :: dedup rest
    | [] => [a]
    end
  | [] => []
  end.

(** [check_environment_constraints]. *)
Definition check_environment_constraints (profile : CompatibilityProfile)
    (evidence : CompatibilityEvidence) (env_facts : gmap string string) :
    list CompatibilityFailure :=
  omap (λ capability, if bool_decide (capability ∈ evidence_capabilities evidence) then None
                      else Some (MissingCapability capability))
       (dedup (sort_by String.compare (capabilities profile)))
  ++ omap (λ '(fact, expected), if bool_decide (env_facts !! fact = Some expected) then None
                                else Some (UnsatisfiedFact fact)) (btree_iter (facts profile))
  ++ match schema profile with
     | Some s =>
       (if is_some_and (schema_version evidence)
             (λ v, (schema_minimum s <=? v) && (v <=? schema_maximum s)) then []
        else [UnsupportedSchema])
       ++ (if bool_decide (migration evidence = schema_migration s) then []
           else [MigrationStateMismatch])
     | None => []
     end.

(** The evidence [evaluate_owned] refuses to read. *)
Definition evidence_invalid (e : CompatibilityEvidence) : bool :=
  negb (evidence_version e =? 1)
  || (128 <? Z.of_nat (length (evidence_capabilities e)))
  || (128 <? Z.of_nat (size (evidence_components e)))
  || negb (is_ok (validate_contracts (contracts e)))
  || existsb (λ '(name, c),
       negb (is_ok (validate_identifier name)) || negb (is_ok (validate_pin (observed_pin c)))
       || negb (is_ok (validate_contracts (observed_provides c)))
       || negb (is_ok (validate_contracts (observed_requires c))))
       (btree_iter (evidence_components e))
  || existsb (λ name, negb (is_ok (validate_identifier name))) (evidence_capabilities e).

(** The binding and freshness failures. *)
Definition binding_failures (p : CompatibilityProfile) (digest env : string)
    (e : CompatibilityEvidence) (now_ms : Z) : list CompatibilityFailure :=
  (if bool_decide (environment e = env) then [] else [EnvironmentBinding])
  ++ (if bool_decide (release_digest e = digest) then [] else [ReleaseBinding])
  ++ (if (observed_at_ms e <=? 0) || (now_ms <? observed_at_ms e)
         || (max_evidence_age_ms p <? i64_saturating_sub now_ms (observed_at_ms e))
      then [StaleEvidence] else []).

(** A required component must be observed exactly as declared. *)
Definition observation_failures (e : CompatibilityEvidence) (name : string)
    (required : ComponentRequirement) : list CompatibilityFailure :=
  match evidence_components e !! name with
  | None => [MissingComponent name]
  | Some o =>
    if negb (bool_decide (observed_pin o = pin required))
       || negb (bool_decide (observed_provides o = provides required))
       || negb (bool_decide (observed_requires o = required_minimums required))
    then [ComponentChanged name] else []
  end.

(** One required component: its observation, then its contracts. *)
Definition evaluate_component (p : CompatibilityProfile) (e : CompatibilityEvidence)
    (offers : gmap string (list ContractOffer)) (acc : contract_check)
    (entry : string * ComponentRequirement) : result contract_check compat_error :=
  let '(name, required) := entry in
  let? checked := check_contracts (version p) (requires required) offers
                                  (check_failures acc ++ observation_failures e name required)
                                  (check_satisfied_by acc) in
  Ok {| check_failures := check_failures checked;
        check_satisfied_by := check_satisfied_by checked;
        check_unmet := foldl (λ unmet '(contract, m), record_unmet unmet contract m)
                             (check_unmet acc) (btree_iter (check_unmet checked)) |}.

(** Retained observations constrain the proposed final component set too. *)
Definition evaluate_retained (p : CompatibilityProfile) (owned : option (gset string))
    (offers : gmap string (list ContractOffer)) (failures : list CompatibilityFailure)
    (entry : string * ComponentObservation) : result (list CompatibilityFailure) compat_error :=
  let '(name, component) := entry in
  if is_some_b (components p !! name) then Ok failures
  else if is_some_and owned (λ set, bool_decide (name ∈ set)) then Ok failures
  else
    let? checked := check_contracts 1 (Minimum <$> observed_requires component) offers
                                    failures ∅ in
    Ok (check_failures checked).

Definition evaluate_owned (p : CompatibilityProfile) (digest env : string)
    (evidence : option CompatibilityEvidence) (env_facts : gmap string string) (now_ms : Z)
    (owned : option (gset string)) (deployed : DeployedOffers) :
    result CompatibilityEval compat_error :=
  let? _ := validate_profile p in
  let eval fs satisfied unmet :=
    {| outcome := {| outcome_version := 1; outcome_release_digest := digest;
                     failures := fs; satisfied_by := satisfied |};
       candidate_unmet := unmet |} in
  match evidence with
  | None => Ok (eval [MissingEvidence] ∅ ∅)
  | Some e =>
    if evidence_invalid e then Ok (eval [InvalidEvidence] ∅ ∅)
    else
      let offers := contract_offers (Some e) deployed in
      let? checked := try_fold (evaluate_component p e offers)
        {| check_failures := binding_failures p digest env e now_ms;
           check_satisfied_by := ∅; check_unmet := ∅ |} (btree_iter (components p)) in
      let? retained := try_fold (evaluate_retained p owned offers) (check_failures checked)
                                (btree_iter (evidence_components e)) in
      Ok (eval (retained ++ check_environment_constraints p e env_facts)
               (check_satisfied_by checked) (check_unmet checked))
  end.

(** ** Holds *)

(** [holdable_unmet_requirements]. *)
Definition holdable_unmet_requirements (o : CompatibilityOutcome) (unmet : gmap string string)
    (profile : CompatibilityProfile) : option (list (string * string)) :=
  if bool_decide (failures o = []) || bool_decide (unmet = ∅) then None
  else
    let required : gset string :=
      foldl (λ acc component,
        foldl (λ acc '(contract, requirement),
                if optional requirement then acc else {[contract]} ∪ acc)
              acc (btree_iter (requires component)))
        ∅ (btree_values (components profile)) in
    if forallb (λ failure,
         match failure with
         | MissingContract contract | IncompatibleContract contract =>
           bool_decide (contract ∈ required)
         | _ => false
         end) (failures o)
    then Some (btree_iter unmet) else None.

(** ** Remaining dependents *)

Inductive RemainingDependentKind := Ambiguous | Unsatisfied (minimum : string).

Record RemainingDependentRefusal := {
  dependent : string;
  contract : string;
  kind : RemainingDependentKind
}.

(** The inner loop of [matching_deployed_providers]: the first component of
    one provider whose offer satisfies the requirement. *)
Fixpoint offers_matching (profile_version : Z) (contract : string)
    (requirement : ContractRequirement) (cs : list ComponentRequirement) :
    result bool compat_error :=
  match cs with
  | [] => Ok false
  | component :: rest =>
    match provides component !! contract with
    | None => offers_matching profile_version contract requirement rest
    | Some value =>
      let? actual := ok_or (Version_parse value) (UnparsedVersion value) in
      let? required := ok_or (Version_parse (minimum requirement))
                             (UnparsedVersion (minimum requirement)) in
      if contract_satisfies profile_version actual required then Ok true
      else offers_matching profile_version contract requirement rest
    end
  end.

Definition match_provider (profile_version : Z) (contract : string)
    (requirement : ContractRequirement) (dependent : string) (acc : list string)
    (entry : string * CompatibilityProfile) : result (list string) compat_error :=
  let '(provider, profile) := entry in
  if decide (provider = dependent) then Ok acc
  else
    let? found := offers_matching profile_version contract requirement
                                  (btree_values (components profile)) in
    Ok (if found : bool then acc ++ [provider] else acc).

Definition matching_deployed_providers (profiles : gmap string CompatibilityProfile)
    (contract : string) (requirement : ContractRequirement) (profile_version : Z)
    (dependent : string) : result (list string) compat_error :=
  let? matching := try_fold (match_provider profile_version contract requirement dependent) []
                            (btree_iter profiles) in
  Ok (dedup (sort_by String.compare matching)).

(** The verdict on one requirement of one remaining dependent. *)
Definition dependent_verdict (remaining previous : gmap string CompatibilityProfile)
    (name : string) (profile : CompatibilityProfile) (c : string)
    (requirement : ContractRequirement) :
    result (option RemainingDependentRefusal) compat_error :=
  let? matching := matching_deployed_providers remaining c requirement (version profile) name in
  match matching with
  | _ :: _ :: _ => Ok (Some {| dependent := name; contract := c; kind := Ambiguous |})
  | [_] => Ok None
  | [] =>
    if optional requirement then Ok None
    else
      let? before := matching_deployed_providers previous c requirement (version profile) name in
      match before with
      | [] => Ok None
      | _ => Ok (Some {| dependent := name; contract := c;
                         kind := Unsatisfied (minimum requirement) |})
      end
  end.

(** The three nested loops, flattened in their iteration order. *)
Definition remaining_requirements (remaining : gmap string CompatibilityProfile) :
    list (string * CompatibilityProfile * string * ContractRequirement) :=
  '(name, profile) ← btree_iter remaining;
  component ← btree_values (components profile);
  '(c, requirement) ← btree_iter (requires component);
  [(name, profile, c, requirement)].

Fixpoint first_refusal (remaining previous : gmap string CompatibilityProfile)
    (l : list (string * CompatibilityProfile * string * ContractRequirement)) :
    result (option RemainingDependentRefusal) compat_error :=
  match l with
  | [] => Ok None
  | (name, profile, c, requirement) :: rest =>
    let? verdict := dependent_verdict remaining previous name profile c requirement in
    match verdict with
    | Some refusal => Ok (Some refusal)
    | None => first_refusal remaining previous rest
    end
  end.

Definition remaining_dependent_refusal (remaining previous : gmap string CompatibilityProfile) :
    result (option RemainingDependentRefusal) compat_error :=
  first_refusal remaining previous (remaining_requirements remaining).

Definition refuse_unsatisfied_dependents (remaining previous : gmap string CompatibilityProfile) :
    result unit compat_error :=
  let? refusal := remaining_dependent_refusal remaining previous in
  match refusal with
  | None => Ok tt
  | Some r =>
    match kind r with
    | Ambiguous => Err (DependentAmbiguous (dependent r) (contract r))
    | Unsatisfied m => Err (DependentUnsatisfied (dependent r) (contract r) m)
    end
  end.

(** ** The requirement graph *)

Lemma elem_of_component_providers cs contract name :
  name ∈ entries (component_providers cs) contract ↔
  ∃ c, cs !! name = Some c ∧ is_Some (provides c !! contract).
Proof.
  unfold component_providers.
  rewrite (foldl_entries _ (λ '(n, c) k a, a = n ∧ is_Some (provides c !! k))).
  - split.
    + intros [Hin|([n c] & Hin & -> & Hp)]; [by apply not_elem_of_nil in Hin|].
      apply elem_of_btree_iter in Hin. eauto.
    + intros (c & Hc & Hp). right. exists (name, c). by rewrite elem_of_btree_iter.
  - intros [n c] m k a _.
    rewrite (foldl_entries _ (λ key k a, key = k ∧ a = n)).
    + setoid_rewrite elem_of_btree_keys. naive_solver.
    + intros key m' k' a' _. apply elem_of_push_entry.
Qed.

Lemma elem_of_requirement_edges cs a b contract :
  (b, contract) ∈ successors (requirement_edges cs) a ↔
  ∃ ca cb, cs !! a = Some ca ∧ cs !! b = Some cb
           ∧ is_Some (requires ca !! contract) ∧ is_Some (provides cb !! contract).
Proof.
  change (successors (requirement_edges cs) a) with (entries (requirement_edges cs) a).
  unfold requirement_edges.
  rewrite (foldl_entries _ (λ '(n, c) k x, k = n ∧ is_Some (requires c !! x.2)
                              ∧ x.1 ∈ entries (component_providers cs) x.2)).
  - split.
    + intros [Hin|([n c] & Hin & -> & Hreq & Hp)]; [by apply not_elem_of_nil in Hin|].
      apply elem_of_btree_iter in Hin. apply elem_of_component_providers in Hp as (cb & Hb & Hp).
      eauto 10.
    + intros (ca & cb & Ha & Hb & Hr & Hp). right. exists (a, ca).
      rewrite elem_of_btree_iter, elem_of_component_providers. eauto 10.
  - intros [n c] m k [x1 x2] _.
    rewrite (foldl_entries _ (λ key k x, k = n ∧ x.2 = key
                                ∧ x.1 ∈ entries (component_providers cs) key)).
    + setoid_rewrite elem_of_btree_keys. naive_solver.
    + intros key m' k' [y1 y2] _. unfold entries at 3.
      destruct (component_providers cs !! key) as [targets|]; simpl.
      * rewrite (foldl_entries _ (λ target k x, n = k ∧ x = (target, key))); [naive_solver|].
        intros. apply elem_of_push_entry.
      * split; [by left|]. intros [|(_ & _ & Hin)]; [done|]. by apply not_elem_of_nil in Hin.
Qed.

(** A component needs another when it requires a contract the other
    provides. *)
Definition needs (cs : gmap string ComponentRequirement) (a b : string) : Prop :=
  ∃ ca cb contract, cs !! a = Some ca ∧ cs !! b = Some cb
    ∧ is_Some (requires ca !! contract) ∧ is_Some (provides cb !! contract).

Lemma needs_edge cs a b : edge (requirement_edges cs) a b ↔ needs cs a b.
Proof.
  unfold edge, needs. setoid_rewrite elem_of_requirement_edges. naive_solver.
Qed.

Lemma edges_in_components cs a b :
  edge (requirement_edges cs) a b → a ∈ dom cs ∧ b ∈ dom cs.
Proof.
  rewrite needs_edge. intros (ca & cb & c & Ha & Hb & _). rewrite !elem_of_dom. eauto.
Qed.

(** ** What a satisfied requirement means *)

(** The offers of a contract satisfy a requirement: exactly one offer, in
    range; or none, when the requirement is optional. *)
Definition requirement_met (profile_version : Z) (requirement : ContractRequirement)
    (offers : option (list ContractOffer)) : Prop :=
  (optional requirement = true ∧ (offers = None ∨ offers = Some []))
  ∨ ∃ o actual required, offers = Some [o]
      ∧ Version_parse (offer_version o) = Some actual
      ∧ Version_parse (minimum requirement) = Some required
      ∧ contract_satisfies profile_version actual required = true.

Lemma check_contract_verdict v c r offers failure release :
  check_contract v c r offers = Ok (failure, release) →
  failure = None ↔ requirement_met v r offers.
Proof.
  unfold check_contract, requirement_met, ok_or. intros H.
  destruct offers as [[|o [|o' l]]|];
    try (destruct (optional r); simplify_eq; naive_solver).
  destruct (Version_parse (offer_version o)) as [actual|] eqn:Ea; [|done].
  destruct (Version_parse (minimum r)) as [required|] eqn:Er; [|done].
  destruct (contract_satisfies v actual required) eqn:Es; simplify_eq/=.
  - split; [|done]. intros _. right. by exists o, actual, required.
  - split; [done|]. intros [[_ [|]]|(o' & a' & r' & Ho & Ha & Hr & Hs)]; simplify_eq. congruence.
Qed.

Lemma check_one_prefix v offers acc entry acc' :
  check_one v offers acc entry = Ok acc' →
  ∃ more, check_failures acc' = check_failures acc ++ more
    ∧ (more = [] ↔ requirement_met v entry.2 (offers !! entry.1)).
Proof.
  unfold check_one. destruct entry as [c r]. intros H.
  destruct (check_contract v c r (offers !! c)) as [[failure release]|e] eqn:Ec; [|done].
  apply check_contract_verdict in Ec. destruct failure as [f|]; simplify_eq; simpl.
  - exists [f]. split; [done|]. rewrite <- Ec. by split.
  - exists []. rewrite app_nil_r. split; [done|]. rewrite <- Ec. by split.
Qed.

(** A loop that only appends failures, none exactly for the elements where
    [P] holds, ends without failures exactly when [P] holds of every
    element. *)
Lemma failures_loop {A S} (body : S → A → result S compat_error)
    (fails : S → list CompatibilityFailure) (P : A → Prop) l s s' :
  (∀ a s1 s2, a ∈ l → body s1 a = Ok s2 →
     ∃ more, fails s2 = fails s1 ++ more ∧ (more = [] ↔ P a)) →
  try_fold body s l = Ok s' →
  ∃ more, fails s' = fails s ++ more ∧ (more = [] ↔ ∀ a, a ∈ l → P a).
Proof.
  revert s. induction l as [|a l IH]; simpl; intros s Hbody H.
  { simplify_eq. exists []. rewrite app_nil_r. split; [done|]. split; [|done].
    intros _ a Ha. by apply not_elem_of_nil in Ha. }
  destruct (body s a) as [s1|e] eqn:Ea; [|done].
  destruct (Hbody a s s1 ltac:(apply list_elem_of_here) Ea) as (m1 & Hm1 & HP1).
  destruct (IH s1) as (m2 & Hm2 & HP2); [intros; eapply Hbody; [by right|done]|done|].
  exists (m1 ++ m2). rewrite Hm2, Hm1, app_assoc. split; [done|].
  rewrite app_nil, HP1, HP2. setoid_rewrite elem_of_cons. naive_solver.
Qed.

Lemma check_contracts_prefix v reqs offers fs sat acc' :
  check_contracts v reqs offers fs sat = Ok acc' →
  ∃ more, check_failures acc' = fs ++ more
    ∧ (more = [] ↔ ∀ c r, reqs !! c = Some r → requirement_met v r (offers !! c)).
Proof.
  intros H. unfold check_contracts in H.
  eapply (failures_loop _ check_failures (λ e, requirement_met v e.2 (offers !! e.1))) in H
    as (more & Hmore & HP); [|intros a s1 s2 _; apply check_one_prefix].
  exists more. split; [done|]. rewrite HP. split.
  - intros Hall c r Hr. apply (Hall (c, r)). by apply elem_of_btree_iter.
  - intros Hall [c r] Hin. apply Hall. by apply elem_of_btree_iter.
Qed.

(** A required component is observed exactly as declared and all its
    contracts are met. *)
Definition component_met (p : CompatibilityProfile) (e : CompatibilityEvidence)
    (offers : gmap string (list ContractOffer)) (entry : string * ComponentRequirement) : Prop :=
  (∃ o, evidence_components e !! entry.1 = Some o ∧ observed_pin o = pin entry.2
        ∧ observed_provides o = provides entry.2
        ∧ observed_requires o = required_minimums entry.2)
  ∧ ∀ c r, requires entry.2 !! c = Some r → requirement_met (version p) r (offers !! c).

Lemma evaluate_component_prefix p e offers acc entry acc' :
  evaluate_component p e offers acc entry = Ok acc' →
  ∃ more, check_failures acc' = check_failures acc ++ more
    ∧ (more = [] ↔ component_met p e offers entry).
Proof.
  unfold evaluate_component. destruct entry as [name required]. intros H.
  destruct (check_contracts _ _ _ _ _) as [checked|err] eqn:Ec; [|done]. simplify_eq/=.
  apply check_contracts_prefix in Ec as (more & Hmore & Hreq). rewrite Hmore.
  exists (observation_failures e name required ++ more). rewrite app_assoc. split; [done|].
  rewrite app_nil, Hreq. unfold component_met; simpl. apply and_iff_compat_r.
  unfold observation_failures.
  destruct (evidence_components e !! name) as [o|] eqn:Eo; [|naive_solver].
  repeat case_bool_decide; simpl; naive_solver.
Qed.

(** An observed component the profile does not declare and no other profile
    owns has its observed requirements met too. *)
Definition retained_met (p : CompatibilityProfile) (owned : option (gset string))
    (offers : gmap string (list ContractOffer)) (entry : string * ComponentObservation) : Prop :=
  components p !! entry.1 = None →
  is_some_and owned (λ set, bool_decide (entry.1 ∈ set)) = false →
  ∀ c m, observed_requires entry.2 !! c = Some m → requirement_met 1 (Minimum m) (offers !! c).

Lemma evaluate_retained_prefix p owned offers fs entry fs' :
  evaluate_retained p owned offers fs entry = Ok fs' →
  ∃ more, fs' = fs ++ more ∧ (more = [] ↔ retained_met p owned offers entry).
Proof.
  unfold evaluate_retained, retained_met. destruct entry as [name o]; simpl. intros H.
  destruct (components p !! name) as [c|] eqn:Ecomp; simpl in H.
  { simplify_eq. exists []. rewrite app_nil_r. naive_solver. }
  destruct (is_some_and owned _) eqn:Eo.
  { simplify_eq. exists []. rewrite app_nil_r. naive_solver. }
  destruct (check_contracts _ _ _ _ _) as [checked|err] eqn:Ec; [|done]. simplify_eq.
  apply check_contracts_prefix in Ec as (more & Hmore & Hreq). exists more.
  split; [done|]. rewrite Hreq. split.
  - intros Hall _ _ c m Hm. apply Hall. by rewrite lookup_fmap, Hm.
  - intros Hall c r Hr. rewrite lookup_fmap in Hr.
    destruct (observed_requires o !! c) as [m|] eqn:Em; simplify_eq/=. by apply Hall.
Qed.

Lemma elem_of_dedup {A} `{!EqDecision A} (x : A) l : x ∈ dedup l ↔ x ∈ l.
Proof.
  induction l as [|a l IH]; [done|]. simpl. destruct l as [|b l]; [done|].
  case_decide as Hab; rewrite ?elem_of_cons, IH, ?elem_of_cons; naive_solver.
Qed.

Lemma omap_nil {A B} (f : A → option B) l : omap f l = [] ↔ ∀ a, a ∈ l → f a = None.
Proof.
  induction l as [|a l IH].
  { split; [|done]. intros _ a Ha. by apply not_elem_of_nil in Ha. }
  simpl. setoid_rewrite elem_of_cons. destruct (f a) eqn:Ef; naive_solver.
Qed.

(** What an environment must offer beyond components and contracts. *)
Definition environment_met (p : CompatibilityProfile) (e : CompatibilityEvidence)
    (env_facts : gmap string string) : Prop :=
  (∀ c, c ∈ capabilities p → c ∈ evidence_capabilities e)
  ∧ (∀ f v, facts p !! f = Some v → env_facts !! f = Some v)
  ∧ (∀ s, schema p = Some s → migration e = schema_migration s ∧
       ∃ v, schema_version e = Some v ∧ schema_minimum s ≤ v ≤ schema_maximum s).

Lemma check_environment_constraints_nil p e env_facts :
  check_environment_constraints p e env_facts = [] ↔ environment_met p e env_facts.
Proof.
  unfold check_environment_constraints, environment_met. rewrite !app_nil, !omap_nil.
  apply Morphisms_Prop.and_iff_morphism; [|apply Morphisms_Prop.and_iff_morphism].
  - setoid_rewrite elem_of_dedup. setoid_rewrite elem_of_sort_by. split.
    + intros H c Hc. specialize (H c Hc). by case_bool_decide.
    + intros H c Hc. rewrite bool_decide_true; auto.
  - split.
    + intros H f v Hf. specialize (H (f, v)). rewrite elem_of_btree_iter in H.
      specialize (H Hf). by case_bool_decide.
    + intros H [f v] Hf. rewrite elem_of_btree_iter in Hf. rewrite bool_decide_true; auto.
  - destruct (schema p) as [s|]; [|naive_solver]. rewrite app_nil.
    destruct (schema_version e) as [v|]; simpl; [|naive_solver].
    destruct (Z.leb_spec (schema_minimum s) v), (Z.leb_spec v (schema_maximum s)); simpl;
      case_bool_decide; split; try naive_solver;
      intros Hs; destruct (Hs s eq_refl) as (_ & v' & [= <-] & Hv); lia.
Qed.

(** The evidence is about this release and environment, and fresh. *)
Definition bound_and_fresh (p : CompatibilityProfile) (digest env : string)
    (e : CompatibilityEvidence) (now_ms : Z) : Prop :=
  environment e = env ∧ release_digest e = digest
  ∧ 0 < observed_at_ms e ≤ now_ms ∧ now_ms - observed_at_ms e ≤ max_evidence_age_ms p.

Lemma binding_failures_nil p digest env e now_ms :
  max_evidence_age_ms p ≤ 86400000 →
  binding_failures p digest env e now_ms = [] ↔ bound_and_fresh p digest env e now_ms.
Proof.
  intros Hage. unfold binding_failures, bound_and_fresh. rewrite !app_nil.
  unfold i64_saturating_sub, i64_clamp, i64_min, i64_max.
  destruct (Z.leb_spec (observed_at_ms e) 0), (Z.ltb_spec now_ms (observed_at_ms e)); simpl;
    try (repeat case_bool_decide; naive_solver lia).
  destruct (Z.ltb_spec (max_evidence_age_ms p)
    (Z.max (-9223372036854775808) (Z.min 9223372036854775807 (now_ms - observed_at_ms e))));
    repeat case_bool_decide; naive_solver lia.
Qed.

Lemma validate_profile_age p : validate_profile p = Ok tt → max_evidence_age_ms p ≤ 86400000.
Proof.
  unfold validate_profile. intros H. case_match; [done|].
  destruct (Z.eqb_spec (max_evidence_age_ms p) 0); [done|].
  destruct (Z.ltb_spec 86400000 (max_evidence_age_ms p)); [done|]. lia.
Qed.

(** Everything a release's profile asks of an environment. *)
Definition compatible (p : CompatibilityProfile) (digest env : string)
    (e : CompatibilityEvidence) (env_facts : gmap string string) (now_ms : Z)
    (owned : option (gset string)) (deployed : DeployedOffers) : Prop :=
  let offers := contract_offers (Some e) deployed in
  bound_and_fresh p digest env e now_ms
  ∧ (∀ name c, components p !! name = Some c → component_met p e offers (name, c))
  ∧ (∀ name o, evidence_components e !! name = Some o → retained_met p owned offers (name, o))
  ∧ environment_met p e env_facts.

Lemma evaluate_owned_iff p digest env evidence env_facts now_ms owned deployed eval :
  evaluate_owned p digest env evidence env_facts now_ms owned deployed = Ok eval →
  failures (outcome eval) = [] ↔
  ∃ e, evidence = Some e ∧ evidence_invalid e = false
       ∧ compatible p digest env e env_facts now_ms owned deployed.
Proof.
  unfold evaluate_owned, compatible. intros H.
  destruct (validate_profile p) as [[]|err] eqn:Ev; [|done]. apply validate_profile_age in Ev.
  destruct evidence as [e|]; [|simplify_eq/=; naive_solver].
  destruct (evidence_invalid e) eqn:Einv.
  { simplify_eq/=. split; [done|]. intros (e' & [= <-] & Hinv & _). congruence. }
  destruct (try_fold (evaluate_component _ _ _) _ _) as [checked|err] eqn:Ec; [|done].
  destruct (try_fold (evaluate_retained _ _ _) _ _) as [retained|err] eqn:Er; [|done].
  simplify_eq/=.
  eapply (failures_loop _ check_failures (component_met p e _)) in Ec as (m1 & Hm1 & Hc);
    [|intros a s1 s2 _; apply evaluate_component_prefix].
  eapply (failures_loop _ (λ fs, fs) (retained_met p owned _)) in Er as (m2 & Hm2 & Hr);
    [|intros a s1 s2 _; apply evaluate_retained_prefix].
  simpl in Hm1, Hm2. rewrite Hm2, Hm1, !app_nil, Hc, Hr, binding_failures_nil,
    check_environment_constraints_nil by done.
  assert (Hiter : ∀ {V} (m : gmap string V) (P : string * V → Prop),
    (∀ a, a ∈ btree_iter m → P a) ↔ ∀ k v, m !! k = Some v → P (k, v)).
  { intros V m P. split; [intros HP k v Hk; apply HP; by rewrite elem_of_btree_iter|].
    intros HP [k v] Hin. apply HP. by rewrite <- elem_of_btree_iter. }
  rewrite !Hiter. split; [intros; exists e; tauto|].
  intros (e' & [= <-] & _ & H). tauto.
Qed.

(** ** Providers of a contract among deployed releases *)

Definition component_offers (v : Z) (c : string) (r : ContractRequirement)
    (component : ComponentRequirement) : Prop :=
  ∃ value actual required, provides component !! c = Some value
    ∧ Version_parse value = Some actual ∧ Version_parse (minimum r) = Some required
    ∧ contract_satisfies v actual required = true.

Definition provider_matches (profiles : gmap string CompatibilityProfile) (v : Z) (c : string)
    (r : ContractRequirement) (dependent provider : string) : Prop :=
  provider ≠ dependent ∧ ∃ profile component name,
    profiles !! provider = Some profile ∧ components profile !! name = Some component
    ∧ component_offers v c r component.

Lemma offers_matching_iff v c r cs b :
  offers_matching v c r cs = Ok b →
  b = true ↔ ∃ component, component ∈ cs ∧ component_offers v c r component.
Proof.
  unfold component_offers. induction cs as [|component cs IH]; simpl; intros H.
  { simplify_eq. split; [done|]. intros (x & Hx & _). by apply not_elem_of_nil in Hx. }
  setoid_rewrite elem_of_cons. unfold ok_or in H.
  destruct (provides component !! c) as [value|] eqn:Ep; [|rewrite (IH H); naive_solver].
  destruct (Version_parse value) as [actual|] eqn:Ea; [|done].
  destruct (Version_parse (minimum r)) as [required|] eqn:Er; [|done].
  destruct (contract_satisfies v actual required) eqn:Es.
  - simplify_eq. split; [|done]. intros _. exists component. split; [by left|].
    by exists value, actual, required.
  - rewrite (IH H). split; [naive_solver|].
    intros (x & [->|Hx] & Hoffer); [|by exists x].
    destruct Hoffer as (v' & a' & r' & Hv & Ha & Hr & Hs). simplify_eq. congruence.
Qed.

Lemma matching_loop v c r name acc l acc' :
  try_fold (match_provider v c r name) acc l = Ok acc' →
  ∀ x, x ∈ acc' ↔ x ∈ acc ∨ x ≠ name ∧ ∃ profile component key,
    (x, profile) ∈ l ∧ components profile !! key = Some component
    ∧ component_offers v c r component.
Proof.
  revert acc. induction l as [|[provider profile] l IH]; intros acc H x; simpl in H.
  { simplify_eq. split; [by left|]. intros [|(_ & ? & ? & ? & Hx & _)]; [done|].
    by apply not_elem_of_nil in Hx. }
  setoid_rewrite elem_of_cons. destruct (decide (provider = name)) as [->|Hne].
  { rewrite (IH _ H). naive_solver. }
  destruct (offers_matching v c r _) as [found|e] eqn:Ef; [|done].
  apply offers_matching_iff in Ef. setoid_rewrite elem_of_btree_values in Ef.
  rewrite (IH _ H). destruct found.
  - destruct (proj1 Ef eq_refl) as (component & [key Hkey] & Hoffer).
    rewrite elem_of_app, list_elem_of_singleton. split; [|naive_solver].
    intros [[| ->]|]; [by left| |naive_solver]. right. split; [done|].
    exists profile, component, key. naive_solver.
  - split; [naive_solver|]. intros [|(Hx & p & component & key & [[= -> ->]|Hin] & Hc & Ho)];
      [by left| |naive_solver].
    assert (false = true) by (apply Ef; eauto). done.
Qed.

Lemma matching_deployed_providers_iff profiles c r v name l :
  matching_deployed_providers profiles c r v name = Ok l →
  ∀ x, x ∈ l ↔ provider_matches profiles v c r name x.
Proof.
  unfold matching_deployed_providers. intros H x.
  destruct (try_fold _ _ _) as [matching|e] eqn:Em; [|done]. simplify_eq.
  rewrite elem_of_dedup, elem_of_sort_by, (matching_loop _ _ _ _ _ _ _ Em).
  setoid_rewrite elem_of_btree_iter. unfold provider_matches. split; [|naive_solver].
  intros [Hx|]; [by apply not_elem_of_nil in Hx|naive_solver].
Qed.

Lemma first_refusal_none remaining previous l :
  first_refusal remaining previous l = Ok None →
  ∀ name profile c r, (name, profile, c, r) ∈ l →
    dependent_verdict remaining previous name profile c r = Ok None.
Proof.
  induction l as [|[[[n p] c] r] l IH]; simpl; intros H name profile c' r' Hin.
  { by apply not_elem_of_nil in Hin. }
  destruct (dependent_verdict remaining previous n p c r) as [[refusal|]|e] eqn:Ed; [done| |done].
  apply elem_of_cons in Hin as [[= -> -> -> ->]|Hin]; [done|]. by apply IH.
Qed.

Lemma elem_of_remaining_requirements (remaining : gmap string CompatibilityProfile)
    name profile key component c r :
  remaining !! name = Some profile → components profile !! key = Some component →
  requires component !! c = Some r →
  (name, profile, c, r) ∈ remaining_requirements remaining.
Proof.
  intros Hn Hk Hc. unfold remaining_requirements.
  apply list_elem_of_bind. exists (name, profile). split; [|by apply elem_of_btree_iter].
  apply list_elem_of_bind. exists component. split; [|apply elem_of_btree_values; eauto].
  apply list_elem_of_bind. exists (c, r). split; [apply list_elem_of_here|by apply elem_of_btree_iter].
Qed.

Lemma dependent_verdict_none remaining previous name profile c r :
  dependent_verdict remaining previous name profile c r = Ok None →
  (∀ p1 p2, provider_matches remaining (version profile) c r name p1 →
            provider_matches remaining (version profile) c r name p2 → p1 = p2)
  ∧ (optional r = false →
     (∃ p, provider_matches previous (version profile) c r name p) →
     ∃ p, provider_matches remaining (version profile) c r name p).
Proof.
  unfold dependent_verdict. intros H.
  destruct (matching_deployed_providers remaining _ _ _ _) as [now|e] eqn:Enow; [|done].
  pose proof (matching_deployed_providers_iff _ _ _ _ _ _ Enow) as Hnow.
  setoid_rewrite <- Hnow. destruct now as [|x [|y l]]; [| |done].
  - split; [intros p1 p2 Hp1; by apply not_elem_of_nil in Hp1|].
    intros Hopt Hprev. rewrite Hopt in H.
    destruct (matching_deployed_providers previous _ _ _ _) as [before|e] eqn:Ebefore; [|done].
    destruct Hprev as [p Hp]. apply (matching_deployed_providers_iff _ _ _ _ _ _ Ebefore) in Hp.
    destruct before; [by apply not_elem_of_nil in Hp|done].
  - setoid_rewrite list_elem_of_singleton. split; [congruence|]. intros _ _. by exists x.
Qed.
End Compatibility.

(** ** Properties *)

Section Properties.
Context {SV : Semver}.

(** Publication refuses a release exactly when its own components
    require each other in a cycle; the search always finishes, and the
    refusal names a real cycle of components and the contracts that link
    them. *)
Theorem refuse_requirement_cycle_decides cs :
  (refuse_requirement_cycle cs = Ok tt ↔ ∀ a, ¬ tc (needs cs) a a)
  ∧ (∀ e, refuse_requirement_cycle cs = Err e →
       ∃ nodes contracts, e = RequirementCycle (Cycle nodes contracts)
         ∧ closed_walk (requirement_edges cs) nodes contracts).
Proof.
  pose proof (tc_iff _ _ (λ a b, iff_sym (needs_edge cs a b))) as Htc.
  pose proof (search_decides (requirement_edges cs) (dom cs) (edges_in_components cs)) as Hdec.
  pose proof (search_total (requirement_edges cs) (dom cs) (edges_in_components cs)) as Htot.
  unfold refuse_requirement_cycle. setoid_rewrite Htc. rewrite <- Hdec.
  destruct (search (requirement_edges cs) (dom cs)) as [[f|[ns c]]|] eqn:Es; [| |done].
  - split; [|done]. split; [by exists f|done].
  - split; [split; [done|by intros [f Hf]]|]. intros e [= <-]. exists ns, c.
    split; [done|]. by eapply search_err.
Qed.

(** A compatibility evaluation reports no failure exactly when there is
    valid evidence about this release and this environment, fresh within the
    profile's bound, in which every declared component is observed exactly
    as signed, every contract has exactly one offer in range (or none, when
    optional), every retained component keeps its own contracts, and the
    environment's capabilities, facts and schema meet the profile. *)
Theorem evaluation_clean_iff p digest env evidence env_facts now_ms owned deployed eval
    (Heval : evaluate_owned p digest env evidence env_facts now_ms owned deployed = Ok eval) :
  failures (outcome eval) = [] ↔
  ∃ e, evidence = Some e ∧ evidence_invalid e = false
       ∧ compatible p digest env e env_facts now_ms owned deployed.
Proof. by apply evaluate_owned_iff. Qed.

(** A plan that passes [refuse_unsatisfied_dependents] leaves every
    remaining dependent with at most one matching provider per required
    contract, and with one wherever a deployed release provided the contract
    before the plan. *)
Theorem remaining_dependents_keep_providers remaining previous
    (Hok : refuse_unsatisfied_dependents remaining previous = Ok tt)
    name profile key component c r :
  remaining !! name = Some profile → components profile !! key = Some component →
  requires component !! c = Some r →
  (∀ p1 p2, provider_matches remaining (version profile) c r name p1 →
            provider_matches remaining (version profile) c r name p2 → p1 = p2)
  ∧ (optional r = false →
     (∃ p, provider_matches previous (version profile) c r name p) →
     ∃ p, provider_matches remaining (version profile) c r name p).
Proof.
  intros Hn Hk Hc. apply dependent_verdict_none.
  unfold refuse_unsatisfied_dependents, remaining_dependent_refusal in Hok.
  destruct (first_refusal _ _ _) as [[refusal|]|e] eqn:Ef; [by destruct (kind refusal)| |done].
  eapply first_refusal_none; [exact Ef|]. by eapply elem_of_remaining_requirements.
Qed.
End Properties.

(** ** Witnesses *)

Module Examples.
#[local] Existing Instance PlainSemver.instance.

Definition revision : ComponentPin := Revision "0123456789012345678901234567890123456789".

Definition database : ComponentRequirement :=
  {| pin := revision; requires := ∅; provides := {["database" := "1.2.0"]} |}.

Definition web : ComponentRequirement :=
  {| pin := revision; requires := {["database" := Minimum "1.0.0"]}; provides := ∅ |}.

Definition profile_of (name : string) (c : ComponentRequirement) : CompatibilityProfile :=
  {| version := 2; components := {[name := c]}; capabilities := []; facts := ∅;
     schema := None; max_evidence_age_ms := 60000 |}.

Definition observed (c : ComponentRequirement) : ComponentObservation :=
  {| observed_pin := pin c; observed_requires := required_minimums c;
     observed_provides := provides c |}.

Definition evidence : CompatibilityEvidence :=
  {| evidence_version := 1; release_digest := "d"; environment := "prod";
     observed_at_ms := 1000; evidence_components := {["web" := observed web]};
     contracts := ∅; evidence_capabilities := []; schema_version := None; migration := Stable |}.

Definition deployed : DeployedOffers :=
  add_deployed_provides ∅ "db" "1.2.0" (profile_of "database" database).

Definition web_eval : CompatibilityEval :=
  {| outcome := {| outcome_version := 1; outcome_release_digest := "d"; failures := [];
                   satisfied_by := {["database" := "db@1.2.0"]} |};
     candidate_unmet := ∅ |}.

Lemma evaluation_clean_iff_witness :
  evaluate_owned (profile_of "web" web) "d" "prod" (Some evidence) ∅ 2000 None deployed
    = Ok web_eval
  ∧ ∃ e, Some evidence = Some e ∧ evidence_invalid e = false
         ∧ compatible (profile_of "web" web) "d" "prod" e ∅ 2000 None deployed.
Proof.
  assert (H : evaluate_owned (profile_of "web" web) "d" "prod" (Some evidence) ∅ 2000 None
                deployed = Ok web_eval) by (vm_compute; reflexivity).
  split; [exact H|].
  apply (proj1 (evaluation_clean_iff _ _ _ _ _ _ _ _ _ H)). reflexivity.
Defined.

Definition installed : gmap string CompatibilityProfile :=
  {["web" := profile_of "web" web; "db" := profile_of "database" database]}.

(** Removing the database would leave the web release without a provider. *)
Example removal_refused :
  refuse_unsatisfied_dependents {["web" := profile_of "web" web]} installed
  = Err (DependentUnsatisfied "web" "database" "1.0.0").
Proof. vm_compute. reflexivity. Qed.

Lemma remaining_dependents_keep_providers_witness :
  refuse_unsatisfied_dependents installed installed = Ok tt
  ∧ ∀ p1 p2, provider_matches installed 2 "database" (Minimum "1.0.0") "web" p1 →
             provider_matches installed 2 "database" (Minimum "1.0.0") "web" p2 → p1 = p2.
Proof.
  assert (H : refuse_unsatisfied_dependents installed installed = Ok tt)
    by (vm_compute; reflexivity).
  split; [exact H|].
  apply (proj1 (remaining_dependents_keep_providers installed installed H "web"
           (profile_of "web" web) "web" web "database" (Minimum "1.0.0") eq_refl eq_refl eq_refl)).
Defined.
End Examples.
