(* ===== verification/Contracts.v ===== *)
(** * Contract order of a plan

    [plan/convergence.rs]: the provider/dependent edges between releases, the
    profiles a plan leaves behind, the cycle and direction refusals, the
    name-ordered topological ranks, and the final check of the sorted plan
    (ADR 0043). *)

From S2P Require Import Prelude Semver Kinds CycleCheck Compatibility.

(** Provider product, dependent product, and the contract that links them. *)
Definition ContractEdge : Type := string * string * string.

Inductive contract_error :=
| CompatibilityRefused (error : compat_error)
| PlanCycle (cycle : cycle_error)
| PlanSearchDiverged
| RankingDiverged
| OppositeDirections (provider dependent contract : string)
| InvertedRemoval (provider dependent contract : string)
| InvertedForward (provider dependent contract : string)
| InvertedRerender (provider dependent contract : string).

(** ** Edges *)

(** [profile_provides_requires]: only the contract names matter to edges. *)
Definition profile_provides (p : CompatibilityProfile) : gset string :=
  foldl (λ acc c, foldl (λ acc contract, {[contract]} ∪ acc) acc (btree_keys (provides c)))
        ∅ (btree_values (components p)).

Definition profile_requires (p : CompatibilityProfile) : gset string :=
  foldl (λ acc c, foldl (λ acc contract, {[contract]} ∪ acc) acc (btree_keys (requires c)))
        ∅ (btree_values (components p)).

(** [providers.entry(contract).or_default().insert(product)]. *)
Definition insert_entry (m : gmap string (gset string)) (k a : string) : gmap string (gset string) :=
  <[k := {[a]} ∪ default ∅ (m !! k)]> m.

Definition contract_providers (profiles : gmap string CompatibilityProfile) :
    gmap string (gset string) :=
  foldl (λ acc '(product, profile),
    foldl (λ acc contract, insert_entry acc contract product)
          acc (btree_set_iter (profile_provides profile)))
    ∅ (btree_iter profiles).

(** [cross_release_contract_edges]: the unique provider of each required
    contract of another product. *)
Definition cross_release_contract_edges (profiles : gmap string CompatibilityProfile) :
    list ContractEdge :=
  let providers := contract_providers profiles in
  '(dependent, contracts) ← btree_iter (profile_requires <$> profiles);
  contract ← btree_set_iter contracts;
  match providers !! contract with
  | None => []
  | Some offered =>
    match btree_set_iter offered with
    | [provider] => if decide (provider = dependent) then [] else [(provider, dependent, contract)]
    | _ => []
    end
  end.

(** [pending.iter().copied().collect::<BTreeMap<_, _>>()]: the last action of
    a product wins. *)
Definition actions_of (pending : list (string * Action)) : gmap string Action :=
  foldl (λ m '(product, action), <[product := action]> m) ∅ pending.

(** [overlay_profiles]: the profiles the plan leaves installed. *)
Definition overlay_profiles (installed target : gmap string CompatibilityProfile)
    (pending : list (string * Action)) : gmap string CompatibilityProfile :=
  let removed : gset string :=
    list_to_set (omap (λ '(product, action), if decide (action = Remove) then Some product else None)
                      pending) in
  let kept := foldl (λ m '(product, action),
    if bool_decide (product ∈ removed)
       || (negb (is_some_b (target !! product)) && negb (bool_decide (action = Restart)))
    then delete product m else m) installed pending in
  foldl (λ m '(product, profile),
    if decide (product ∈ removed) then m else <[product := profile]> m) kept (btree_iter target).

(** ** Cycles *)

Definition edge_nodes (edges : list ContractEdge) : gset string :=
  foldl (λ acc '(provider, dependent, _), {[provider; dependent]} ∪ acc) ∅ edges.

Definition edge_outgoing (edges : list ContractEdge) : gmap string (list (string * string)) :=
  foldl (λ acc '(provider, dependent, contract), push_entry acc provider (dependent, contract))
        ∅ edges.

Definition refuse_cross_release_cycle (edges : list ContractEdge) : result unit contract_error :=
  match search (edge_outgoing edges) (edge_nodes edges) with
  | Some (Ok _) => Ok tt
  | Some (Err cycle) => Err (PlanCycle cycle)
  | None => Err PlanSearchDiverged
  end.

(** ** Name-ordered ranks *)

Record ranking := {
  incoming : gmap string Z;
  ready : gset string;
  ranks : gmap string Z;
  order : Z
}.

(** [outgoing.entry(from).or_default().insert(to)] and the incoming count it
    guards. *)
Definition add_precedence (members : gset string)
    (acc : gmap string Z * gmap string (gset string)) (e : string * string) :
    gmap string Z * gmap string (gset string) :=
  let '(inc, out) := acc in
  let '(from, to) := e in
  if negb (bool_decide (from ∈ members)) || negb (bool_decide (to ∈ members)) then (inc, out)
  else if decide (to ∈ default ∅ (out !! from)) then (inc, insert_entry out from to)
  else (<[to := default 0 (inc !! to) + 1]> inc, insert_entry out from to).

Definition precedence_graph (members : gset string) (precede : list (string * string)) :
    gmap string Z * gmap string (gset string) :=
  foldl (add_precedence members) (gset_to_gmap 0 members, ∅) precede.

(** One successor of the popped product: its count drops, and at zero it is
    ready. *)
Definition release_successor (st : gmap string Z * gset string) (to : string) :
    gmap string Z * gset string :=
  let '(inc, rdy) := st in
  match inc !! to with
  | Some c =>
    (<[to := c - 1]> inc, if c - 1 =? 0 then {[to]} ∪ rdy else rdy)
  | None => (inc, rdy)
  end.

Definition rank_step (out : gmap string (gset string)) (st : ranking) (next : string) : ranking :=
  let '(inc, rdy) := foldl release_successor (incoming st, ready st ∖ {[next]})
                           (btree_set_iter (default ∅ (out !! next))) in
  {| incoming := inc; ready := rdy; ranks := <[next := order st]> (ranks st);
     order := order st + 1 |}.

(** [while let Some(next) = ready.pop_first()]. *)
Fixpoint rank_loop (fuel : nat) (out : gmap string (gset string)) (st : ranking) :
    option (gmap string Z) :=
  match fuel with
  | O => None
  | S fuel' =>
    match btree_set_iter (ready st) with
    | [] => Some (ranks st)
    | next :: _ => rank_loop fuel' out (rank_step out st next)
    end
  end.

Definition initial_ranking (inc : gmap string Z) : ranking :=
  {| incoming := inc; ready := dom (filter (λ kv, kv.2 = 0) inc); ranks := ∅; order := 0 |}.

(** Each product is popped at most once, so its members plus one is enough
    fuel ([name_ordered_ranks_total]). *)
Definition name_ordered_ranks (members : gset string) (precede : list (string * string)) :
    option (gmap string Z) :=
  let '(inc, out) := precedence_graph members precede in
  rank_loop (S (size members)) out (initial_ranking inc).

(** ** Directions *)

Definition refuse_mixed_direction_edges (pending : list (string * Action))
    (edges : list ContractEdge) : result unit contract_error :=
  let actions := actions_of pending in
  try_for_each (λ '(provider, dependent, contract),
    match actions !! provider, actions !! dependent with
    | Some provider_action, Some dependent_action =>
      if bool_decide (provider_action = Restart) || bool_decide (dependent_action = Restart)
      then Ok tt
      else
        bail_if negb (Bool.eqb (reverse_contract_action provider_action)
                               (reverse_contract_action dependent_action))
          with (OppositeDirections provider dependent contract) in
        Ok tt
    | _, _ => Ok tt
    end) edges.

(** ** The order *)

Record ContractPlanOrder := {
  plan_ranks : gmap string Z;
  target_edges : list ContractEdge;
  installed_edges : list ContractEdge;
  overlay_edges : list ContractEdge
}.

(** The precedences the overlay edges contribute. *)
Definition overlay_precede (actions : gmap string Action) (e : ContractEdge) :
    list (string * string) :=
  let '(provider, dependent, _) := e in
  match actions !! provider, actions !! dependent with
  | Some provider_action, Some dependent_action =>
    if bool_decide (dependent_action = Restart) && negb (reverse_contract_action provider_action)
    then [(provider, dependent)] else []
  | _, _ => []
  end.

(** The precedences the target edges contribute. *)
Definition target_precede (actions : gmap string Action) (e : ContractEdge) :
    list (string * string) :=
  let '(provider, dependent, _) := e in
  match actions !! provider, actions !! dependent with
  | Some provider_action, Some dependent_action =>
    if reverse_contract_action provider_action || reverse_contract_action dependent_action
    then [] else [(provider, dependent)]
  | _, _ => []
  end.

(** The precedences the installed edges contribute. *)
Definition installed_precede (actions : gmap string Action) (e : ContractEdge) :
    list (string * string) :=
  let '(provider, dependent, _) := e in
  match actions !! provider, actions !! dependent with
  | Some provider_action, Some dependent_action =>
    if bool_decide (provider_action = Restart) || bool_decide (dependent_action = Restart) then
      if reverse_contract_action provider_action && bool_decide (dependent_action = Restart)
      then [(provider, dependent)]
      else if bool_decide (provider_action = Restart) && reverse_contract_action dependent_action
      then [(dependent, provider)]
      else if bool_decide (dependent_action = Restart)
              && negb (reverse_contract_action provider_action)
      then [(provider, dependent)]
      else []
    else if negb (reverse_contract_action provider_action)
            || negb (reverse_contract_action dependent_action)
    then [] else [(dependent, provider)]
  | _, _ => []
  end.

Definition contract_precede (actions : gmap string Action) (target installed overlay : list ContractEdge) :
    list (string * string) :=
  (overlay ≫= overlay_precede actions) ++ (target ≫= target_precede actions)
  ++ (installed ≫= installed_precede actions).

Definition contract_plan_order {SV : Semver} (pending : list (string * Action))
    (target_profiles installed_profiles : gmap string CompatibilityProfile) :
    result ContractPlanOrder contract_error :=
  let target := cross_release_contract_edges target_profiles in
  let installed := cross_release_contract_edges installed_profiles in
  let remaining := overlay_profiles installed_profiles target_profiles pending in
  let? _ := map_err CompatibilityRefused
              (refuse_unsatisfied_dependents remaining installed_profiles) in
  let overlay := cross_release_contract_edges remaining in
  let? _ := refuse_cross_release_cycle overlay in
  let? _ := refuse_mixed_direction_edges pending overlay in
  let? _ := refuse_mixed_direction_edges pending installed in
  let actions := actions_of pending in
  let? ranked := ok_or (name_ordered_ranks (dom actions)
                          (contract_precede actions target installed overlay)) RankingDiverged in
  Ok {| plan_ranks := ranked; target_edges := target; installed_edges := installed;
        overlay_edges := overlay |}.

(** The position of each product in the sorted plan; the last one wins. *)
Definition positions_of (ordered : list (string * Action)) : gmap string nat :=
  foldl (λ m '(i, (product, _)), <[product := i]> m) ∅ (enumerate ordered).

Definition refuse_inverted_contract_order (ordered : list (string * Action))
    (target installed overlay : list ContractEdge) : result unit contract_error :=
  let index := positions_of ordered in
  let actions := actions_of ordered in
  let directed (reverse : bool) : ContractEdge → result unit contract_error :=
    λ '(provider, dependent, contract),
      match index !! provider, index !! dependent, actions !! provider, actions !! dependent with
      | Some pi, Some di, Some pa, Some da =>
        if negb (Bool.eqb (reverse_contract_action pa) reverse)
           || negb (Bool.eqb (reverse_contract_action da) reverse) then Ok tt
        else
          bail_if reverse && (pi <? di)%nat with (InvertedRemoval provider dependent contract) in
          bail_if negb reverse && (di <? pi)%nat with (InvertedForward provider dependent contract) in
          Ok tt
      | _, _, _, _ => Ok tt
      end in
  let? _ := try_for_each (directed false) target in
  let? _ := try_for_each (directed true) installed in
  try_for_each (λ '(provider, dependent, contract),
    match index !! provider, index !! dependent, actions !! dependent with
    | Some pi, Some di, Some da =>
      bail_if bool_decide (da = Restart) && (di <? pi)%nat
        with (InvertedRerender provider dependent contract) in
      Ok tt
    | _, _, _ => Ok tt
    end) (target ++ installed ++ overlay).

(** ** Edges link the unique provider of a contract to a dependent *)

Lemma elem_of_fold_keys {V} (field : ComponentRequirement → gmap string V)
    (cs : list ComponentRequirement) (acc : gset string) c :
  c ∈ foldl (λ acc x, foldl (λ acc contract, {[contract]} ∪ acc) acc (btree_keys (field x))) acc cs
  ↔ c ∈ acc ∨ ∃ x, x ∈ cs ∧ is_Some (field x !! c).
Proof.
  assert (Hin : ∀ (l : list string) (a : gset string),
    c ∈ foldl (λ acc contract, {[contract]} ∪ acc) a l ↔ c ∈ a ∨ c ∈ l).
  { induction l as [|k l IH]; intros a; simpl; [set_solver|]. rewrite IH. set_solver. }
  revert acc. induction cs as [|x cs IH]; intros acc; simpl; [set_solver|].
  rewrite IH, Hin, elem_of_btree_keys. setoid_rewrite elem_of_cons. naive_solver.
Qed.

Lemma elem_of_profile_provides p c :
  c ∈ profile_provides p ↔ ∃ k x, components p !! k = Some x ∧ is_Some (provides x !! c).
Proof.
  unfold profile_provides. rewrite elem_of_fold_keys. setoid_rewrite elem_of_btree_values. set_solver.
Qed.

Lemma elem_of_profile_requires p c :
  c ∈ profile_requires p ↔ ∃ k x, components p !! k = Some x ∧ is_Some (requires x !! c).
Proof.
  unfold profile_requires. rewrite elem_of_fold_keys. setoid_rewrite elem_of_btree_values. set_solver.
Qed.

Lemma elem_of_insert_entry m k a k' b :
  b ∈ default ∅ (insert_entry m k a !! k') ↔ b ∈ (default ∅ (m !! k') : gset string) ∨ (k = k' ∧ b = a).
Proof.
  unfold insert_entry. rewrite lookup_insert. case_decide as Hk; simpl; [subst; set_solver|naive_solver].
Qed.

Lemma elem_of_contract_providers profiles c product :
  product ∈ (default ∅ (contract_providers profiles !! c) : gset string) ↔
  ∃ profile, profiles !! product = Some profile ∧ c ∈ profile_provides profile.
Proof.
  unfold contract_providers.
  assert (Hinner : ∀ (l : list string) name m k a,
    a ∈ (default ∅ (foldl (λ acc c, insert_entry acc c name) m l !! k) : gset string)
    ↔ a ∈ (default ∅ (m !! k) : gset string) ∨ (k ∈ l ∧ a = name)).
  { induction l as [|x l IH]; intros name m k a; simpl; [set_solver|].
    rewrite IH, elem_of_insert_entry, elem_of_cons. naive_solver. }
  assert (Houter : ∀ (l : list (string * CompatibilityProfile)) m,
    product ∈ (default ∅ (foldl (λ acc '(product, profile),
      foldl (λ acc contract, insert_entry acc contract product) acc
        (btree_set_iter (profile_provides profile))) m l !! c) : gset string)
    ↔ product ∈ (default ∅ (m !! c) : gset string)
      ∨ ∃ profile, (product, profile) ∈ l ∧ c ∈ profile_provides profile).
  { induction l as [|[n p] l IH]; intros m; simpl; [set_solver|].
    rewrite IH, Hinner, elem_of_btree_set_iter. setoid_rewrite elem_of_cons. naive_solver. }
  rewrite Houter. setoid_rewrite elem_of_btree_iter. set_solver.
Qed.

(** An edge: the only product that provides the contract, and another product
    that requires it. *)
Definition links (profiles : gmap string CompatibilityProfile) (provider dependent contract : string) :
    Prop :=
  provider ≠ dependent
  ∧ (∃ p, profiles !! dependent = Some p ∧ contract ∈ profile_requires p)
  ∧ (∀ q, (∃ p, profiles !! q = Some p ∧ contract ∈ profile_provides p) ↔ q = provider).

Lemma elem_of_cross_release_contract_edges profiles provider dependent contract :
  (provider, dependent, contract) ∈ cross_release_contract_edges profiles ↔
  links profiles provider dependent contract.
Proof.
  unfold cross_release_contract_edges, links. rewrite list_elem_of_bind. split.
  - intros ([d cs] & Hin & Hd). rewrite elem_of_btree_iter, lookup_fmap, fmap_Some in Hd.
    destruct Hd as (p & Hp & ->). apply list_elem_of_bind in Hin as (c & Hin & Hc).
    rewrite elem_of_btree_set_iter in Hc.
    destruct (contract_providers profiles !! c) as [offered|] eqn:Eo; [|by apply not_elem_of_nil in Hin].
    destruct (btree_set_iter offered) as [|x [|y l]] eqn:Ei; [by apply not_elem_of_nil in Hin| |by apply not_elem_of_nil in Hin].
    case_decide as Hne; [by apply not_elem_of_nil in Hin|].
    apply list_elem_of_singleton in Hin. simplify_eq.
    split_and!; [done|eauto|]. intros q. rewrite <- (elem_of_contract_providers profiles c q), Eo. simpl.
    by rewrite <- elem_of_btree_set_iter, Ei, list_elem_of_singleton.
  - intros (Hne & (p & Hp & Hc) & Huniq). exists (dependent, profile_requires p).
    rewrite elem_of_btree_iter, lookup_fmap, Hp. split; [|done].
    apply list_elem_of_bind. exists contract. rewrite elem_of_btree_set_iter. split; [|done].
    assert (Hoff : ∀ q, q ∈ (default ∅ (contract_providers profiles !! contract) : gset string) ↔ q = provider)
      by (intros q; by rewrite elem_of_contract_providers).
    destruct (contract_providers profiles !! contract) as [offered|] eqn:Eo; simpl in Hoff; [|set_solver].
    assert (offered = {[provider]}) as -> by set_solver.
    unfold btree_set_iter. rewrite elements_singleton. simpl.
    rewrite decide_False by done. apply list_elem_of_here.
Qed.

(** ** The cycle refusal decides *)

Lemma elem_of_edge_nodes edges n :
  n ∈ edge_nodes edges ↔ ∃ p d c, (p, d, c) ∈ edges ∧ (n = p ∨ n = d).
Proof.
  unfold edge_nodes.
  assert (H : ∀ acc : gset string,
    n ∈ foldl (λ acc '(p, d, _), {[p; d]} ∪ acc) acc edges ↔
    n ∈ acc ∨ ∃ p d c, (p, d, c) ∈ edges ∧ (n = p ∨ n = d)).
  { induction edges as [|[[p d] c] edges IH]; intros acc; simpl; [set_solver|].
    rewrite IH. setoid_rewrite elem_of_cons. set_solver. }
  rewrite H. simpl. set_solver.
Qed.

Definition edge_rel (edges : list ContractEdge) (a b : string) : Prop :=
  ∃ c, (a, b, c) ∈ edges.

Lemma edge_outgoing_rel edges a b : edge (edge_outgoing edges) a b ↔ edge_rel edges a b.
Proof.
  unfold edge, edge_rel. change (successors (edge_outgoing edges) a) with (entries (edge_outgoing edges) a).
  unfold edge_outgoing.
  setoid_rewrite (foldl_entries _ (λ '(p, d, c) k x, p = k ∧ x = (d, c))).
  - split.
    + intros [c [Hin|([[p d] c'] & Hin & -> & [= -> ->])]]; [by apply not_elem_of_nil in Hin|]. by exists c'.
    + intros [c Hc]. exists c. right. by exists (a, b, c).
  - intros [[p d] c] m k x _. apply elem_of_push_entry.
Qed.

Lemma edge_outgoing_nodes edges a b :
  edge (edge_outgoing edges) a b → a ∈ edge_nodes edges ∧ b ∈ edge_nodes edges.
Proof. rewrite edge_outgoing_rel. intros [c Hc]. rewrite !elem_of_edge_nodes. split; exists a, b, c; auto. Qed.


(** ** Ranks are topological *)

(** The successors of a product, and the relation they form. *)
Definition out_of (out : gmap string (gset string)) (a : string) : gset string :=
  default ∅ (out !! a).

Definition out_rel (out : gmap string (gset string)) (a b : string) : Prop := b ∈ out_of out a.

(** The predecessors of [b] among [members] that are not yet ranked. *)
Definition waiting (members : gset string) (out : gmap string (gset string)) (ranked : gset string)
    (b : string) : gset string :=
  filter (λ a, b ∈ out_of out a) (members ∖ ranked).

Definition waiting_count members out ranked b : Z := Z.of_nat (size (waiting members out ranked b)).

Lemma foldl_add_precedence members precede acc :
  let graph := foldl (add_precedence members) acc precede in
  (∀ a b, out_rel graph.2 a b ↔
     out_rel acc.2 a b ∨ ((a, b) ∈ precede ∧ a ∈ members ∧ b ∈ members)).
Proof.
  revert acc. induction precede as [|[from to] precede IH]; intros [inc out] graph a b;
    subst graph; simpl; [set_solver|].
  rewrite IH, elem_of_cons. clear IH.
  destruct (decide (from ∈ members)); [|rewrite bool_decide_false by done; simpl; naive_solver].
  destruct (decide (to ∈ members)); [|rewrite (bool_decide_false (to ∈ members)) by done;
    rewrite orb_true_r; naive_solver].
  rewrite !bool_decide_true by done. simpl.
  assert (Hout : out_rel (if decide (to ∈ default ∅ (out !! from))
                          then (inc, insert_entry out from to)
                          else (<[to:=default 0 (inc !! to) + 1]> inc, insert_entry out from to)).2 a b
                 ↔ out_rel out a b ∨ (from = a ∧ b = to)).
  { unfold out_rel, out_of. case_decide; apply elem_of_insert_entry. }
  rewrite Hout. naive_solver.
Qed.

Lemma out_rel_precedence members precede a b :
  out_rel (precedence_graph members precede).2 a b ↔
  (a, b) ∈ precede ∧ a ∈ members ∧ b ∈ members.
Proof.
  unfold precedence_graph. rewrite (foldl_add_precedence members precede (_, ∅)). simpl.
  unfold out_rel, out_of. rewrite lookup_empty. simpl. set_solver.
Qed.

(** The incoming counts count distinct predecessors. *)
Lemma waiting_insert_entry members out from to b :
  from ∈ members →
  waiting members (insert_entry out from to) ∅ b =
  if decide (b = to) then {[from]} ∪ waiting members out ∅ b else waiting members out ∅ b.
Proof.
  intros Hfrom. unfold waiting. apply set_eq. intros a.
  case_decide as Hb; rewrite ?elem_of_union, !elem_of_filter; unfold out_of;
    rewrite elem_of_insert_entry; set_solver.
Qed.

Lemma precedence_counts members precede inc out :
  (∀ b, inc !! b = if decide (b ∈ members) then Some (waiting_count members out ∅ b) else None) →
  let graph := foldl (add_precedence members) (inc, out) precede in
  ∀ b, graph.1 !! b =
       if decide (b ∈ members) then Some (waiting_count members graph.2 ∅ b) else None.
Proof.
  revert inc out. induction precede as [|[from to] precede IH]; intros inc out Hinc; [done|].
  simpl. destruct (decide (from ∈ members)) as [Hf|];
    [|rewrite bool_decide_false by done; simpl; by apply IH].
  destruct (decide (to ∈ members)) as [Ht|];
    [|rewrite (bool_decide_false (to ∈ members)) by done; rewrite orb_true_r; by apply IH].
  rewrite !bool_decide_true by done. simpl. unfold waiting_count.
  case_decide as Hold; apply IH; intros b; unfold waiting_count; rewrite waiting_insert_entry by done.
  - rewrite Hinc. destruct (decide (b ∈ members)); [|done]. unfold waiting_count. do 2 f_equal.
    destruct (decide (b = to)) as [->|]; [|done]. f_equal. unfold waiting.
    apply set_eq. intros a. rewrite elem_of_union, elem_of_filter. unfold out_of. set_solver.
  - rewrite lookup_insert. destruct (decide (to = b)) as [<-|Hne].
    + rewrite Hinc, !decide_True by done. simpl. f_equal.
      rewrite size_union, size_singleton; [unfold waiting_count; lia|].
      unfold waiting. intros x Hx Hx2. apply elem_of_singleton in Hx as ->.
      apply elem_of_filter in Hx2 as [Hx2 _]. unfold out_of in Hx2. done.
    + rewrite Hinc, (decide_False (P:=b = to)) by done. done.
Qed.

(** Releasing a set of distinct successors drops each count by one and makes
    ready exactly those that reach zero. *)
Lemma release_all l inc rdy :
  NoDup l →
  let st := foldl release_successor (inc, rdy) l in
  (∀ b, st.1 !! b = (λ c, if decide (b ∈ l) then c - 1 else c) <$> (inc !! b))
  ∧ (∀ b, b ∈ st.2 ↔ b ∈ rdy ∨ (b ∈ l ∧ inc !! b = Some 1)).
Proof.
  revert inc rdy. induction l as [|to l IH]; intros inc rdy Hnd; simpl.
  { split; intros b.
    - by destruct (inc !! b).
    - split; [by left|]. intros [|[Hb _]]; [done|]. by apply not_elem_of_nil in Hb. }
  apply NoDup_cons in Hnd as [Hto Hnd].
  destruct (inc !! to) as [c|] eqn:Ec.
  - destruct (IH (<[to := c - 1]> inc) (if c - 1 =? 0 then {[to]} ∪ rdy else rdy) Hnd) as [Hi Hr].
    split; intros b.
    + rewrite Hi, lookup_insert. destruct (decide (to = b)) as [<-|Hne]; simpl.
      * rewrite Ec. simpl. rewrite decide_False by done.
        rewrite decide_True by apply list_elem_of_here. done.
      * destruct (inc !! b); simpl; [|done]. f_equal.
        destruct (decide (b ∈ l)); [rewrite decide_True by (by right); done|].
        rewrite decide_False; [done|]. intros [->|]%elem_of_cons; done.
    + rewrite Hr, lookup_insert, elem_of_cons. destruct (decide (to = b)) as [<-|Hne].
      * rewrite Ec. destruct (Z.eqb_spec (c - 1) 0).
        -- assert (c = 1) as -> by lia. set_solver.
        -- split; [intros [|[? ?]]; [by left|done]|].
           intros [|[_ [= ->]]]; [by left|lia].
      * destruct (c - 1 =? 0); set_solver.
  - destruct (IH inc rdy Hnd) as [Hi Hr]. split; intros b.
    + rewrite Hi. destruct (inc !! b) as [c|] eqn:Eb; simpl; [|done]. f_equal.
      assert (b ≠ to) by congruence.
      destruct (decide (b ∈ l)); [rewrite decide_True by (by right); done|].
      rewrite decide_False; [done|]. intros [->|]%elem_of_cons; done.
    + rewrite Hr, elem_of_cons. split; [set_solver|]. intros [|[[->|] ?]]; [by left|congruence|auto].
Qed.

Section Ranking.
Context (members : gset string) (out : gmap string (gset string)).
Hypothesis out_members : ∀ a b, out_rel out a b → a ∈ members ∧ b ∈ members.

Notation count ranked b := (waiting_count members out ranked b).

(** What holds of the ranking at every turn of the loop. *)
Record ranking_ok (st : ranking) : Prop := {
  ranked_members : dom (ranks st) ⊆ members;
  counts_ok b : incoming st !! b =
    if decide (b ∈ members) then Some (count (dom (ranks st)) b) else None;
  ready_ok b : b ∈ ready st ↔
    b ∈ members ∧ b ∉ dom (ranks st) ∧ waiting members out (dom (ranks st)) b = ∅;
  order_ok : order st = Z.of_nat (size (ranks st));
  below_order a i : ranks st !! a = Some i → 0 ≤ i < order st;
  predecessors_first a b j : out_rel out a b → ranks st !! b = Some j →
    ∃ i, ranks st !! a = Some i ∧ i < j;
  (** Products without predecessors are ranked in name order. *)
  names_first a b j : a ∈ members → waiting members out ∅ a = ∅ →
    ranks st !! b = Some j → waiting members out ∅ b = ∅ → String.compare a b = Lt →
    ∃ i, ranks st !! a = Some i ∧ i < j
}.

Lemma waiting_mono ranked ranked' b :
  ranked ⊆ ranked' → waiting members out ∅ b = ∅ → waiting members out ranked b = ∅.
Proof. intros _ H. unfold waiting in *. set_solver. Qed.

Lemma waiting_add ranked next b :
  next ∈ members → next ∉ ranked →
  count ({[next]} ∪ ranked) b =
  (if decide (b ∈ out_of out next) then count ranked b - 1 else count ranked b).
Proof.
  intros Hnext Hnot. unfold waiting_count. case_decide as Hb.
  - assert (waiting members out ranked b = {[next]} ∪ waiting members out ({[next]} ∪ ranked) b) as ->.
    { unfold waiting. apply set_eq. intros a. rewrite elem_of_union, !elem_of_filter.
      destruct (decide (a = next)); set_solver. }
    rewrite size_union, size_singleton; [lia|]. unfold waiting. set_solver.
  - do 2 f_equal. unfold waiting. apply set_eq. intros a. rewrite !elem_of_filter.
    destruct (decide (a = next)) as [->|]; [|set_solver]. naive_solver.
Qed.

Lemma count_empty ranked b : count ranked b = 0 ↔ waiting members out ranked b = ∅.
Proof. unfold waiting_count. rewrite <- leibniz_equiv_iff, <- size_empty_iff. lia. Qed.

Lemma count_nonneg ranked b : 0 ≤ count ranked b.
Proof. unfold waiting_count. lia. Qed.

(** The successors of a popped product are unranked members that wait. *)
Lemma released_successor st next b :
  ranking_ok st → next ∈ ready st → b ∈ out_of out next →
  b ≠ next ∧ b ∈ members ∧ b ∉ dom (ranks st) ∧ count (dom (ranks st)) b ≠ 0.
Proof.
  intros Hok (Hmem & Hfresh & Hwait)%(ready_ok st Hok) Hb.
  assert (Hin : next ∈ waiting members out (dom (ranks st)) b).
  { unfold waiting. rewrite elem_of_filter. set_solver. }
  split_and!.
  - intros ->. set_solver.
  - by eapply out_members.
  - intros [j Hj]%elem_of_dom.
    destruct (predecessors_first st Hok next b j Hb Hj) as (i & Hi & _).
    apply Hfresh. apply elem_of_dom. by exists i.
  - rewrite count_empty. set_solver.
Qed.

(** Everything a ready product follows is ranked. *)
Lemma ranked_predecessor st a b :
  ranking_ok st → b ∈ ready st → out_rel out a b → ∃ i, ranks st !! a = Some i ∧ i < order st.
Proof.
  intros Hok (Hmem & Hfresh & Hwait)%(ready_ok st Hok) Hab.
  assert (a ∈ dom (ranks st)) as [i Hi]%elem_of_dom.
  { destruct (decide (a ∈ dom (ranks st))); [done|exfalso].
    assert (a ∈ waiting members out (dom (ranks st)) b); [|set_solver].
    unfold waiting. rewrite elem_of_filter. apply out_members in Hab as Hm.
    split; [done|set_solver]. }
  exists i. split; [done|]. apply (below_order st Hok) in Hi. lia.
Qed.

(** The popped product is the smallest ready one. *)
Lemma smallest_ready st next rest a :
  btree_set_iter (ready st) = next :: rest → a ∈ ready st → String.compare a next ≠ Lt.
Proof.
  intros Hiter Ha Hlt. rewrite <- elem_of_btree_set_iter, Hiter in Ha.
  pose proof (sort_by_sorted String.compare (elements (ready st))) as Hs.
  change (sort_by String.compare (elements (ready st))) with (btree_set_iter (ready st)) in Hs.
  rewrite Hiter in Hs. apply StronglySorted_inv in Hs as [_ Hs].
  apply elem_of_cons in Ha as [->|Ha].
  - rewrite (cmp_refl String.compare) in Hlt. done.
  - rewrite Forall_forall in Hs. apply (Hs a Ha). by apply (cmp_gt_lt String.compare).
Qed.

(** What is ready after a pop. *)
Lemma ready_after_release st next b :
  ranking_ok st → next ∈ ready st →
  (b ∈ ready st ∖ {[next]} ∨ b ∈ out_of out next ∧ incoming st !! b = Some 1) ↔
  b ∈ members ∧ b ∉ {[next]} ∪ dom (ranks st)
  ∧ waiting members out ({[next]} ∪ dom (ranks st)) b = ∅.
Proof.
  intros Hok Hready. destruct (proj1 (ready_ok st Hok next) Hready) as (Hmem & Hfresh & _).
  rewrite elem_of_difference, (ready_ok st Hok), (counts_ok st Hok), <- !count_empty,
    waiting_add, not_elem_of_union by done.
  destruct (decide (b ∈ out_of out next)) as [Hb|Hb]; [|naive_solver].
  destruct (released_successor st next b Hok Hready Hb) as (Hne & Hm & Hd & Hc).
  rewrite decide_True by done. assert (b ∉ ({[next]} : gset string)) by set_solver. split.
  - intros [[(_ & _ & H0) _]|[_ [= H1]]]; [done|]. split_and!; [done..|lia].
  - intros (_ & _ & H0). right. split; [done|]. f_equal. lia.
Qed.

Lemma rank_step_ok st next rest :
  ranking_ok st → btree_set_iter (ready st) = next :: rest →
  ranking_ok (rank_step out st next) ∧ next ∈ members ∧ next ∉ dom (ranks st)
  ∧ ranks (rank_step out st next) = <[next := order st]> (ranks st).
Proof.
  intros Hok Hiter.
  assert (Hready : next ∈ ready st).
  { rewrite <- elem_of_btree_set_iter, Hiter. apply list_elem_of_here. }
  destruct (proj1 (ready_ok st Hok next) Hready) as (Hmem & Hfresh & Hwait).
  pose proof (release_all (btree_set_iter (out_of out next)) (incoming st) (ready st ∖ {[next]})
                (NoDup_btree_set_iter _)) as [Hinc Hrdy].
  unfold rank_step. change (default ∅ (out !! next)) with (out_of out next).
  destruct (foldl release_successor _ _) as [inc rdy]. simpl in Hinc, Hrdy.
  assert (Hnone : ranks st !! next = None) by (by apply not_elem_of_dom).
  split; [|done]. split; simpl.
  - rewrite dom_insert_L. pose proof (ranked_members st Hok). set_solver.
  - intros b. rewrite Hinc, (counts_ok st Hok), dom_insert_L, waiting_add by done.
    destruct (decide (b ∈ members)); simpl; [|done]. f_equal.
    destruct (decide (b ∈ btree_set_iter (out_of out next))) as [Hb|Hb];
      rewrite elem_of_btree_set_iter in Hb; [by rewrite decide_True|by rewrite decide_False].
  - intros b. rewrite Hrdy, elem_of_btree_set_iter, dom_insert_L. by apply ready_after_release.
  - rewrite (order_ok st Hok), map_size_insert_None by done. lia.
  - intros a i Ha. pose proof (order_ok st Hok). rewrite lookup_insert in Ha.
    case_decide; simplify_eq; [lia|]. apply (below_order st Hok) in Ha. lia.
  - intros a b j Hab Hb. rewrite lookup_insert in Hb. case_decide; simplify_eq.
    + destruct (ranked_predecessor st a b Hok Hready Hab) as (i & Hi & Hlt).
      exists i. by rewrite lookup_insert_ne by congruence.
    + destruct (predecessors_first st Hok a b j Hab Hb) as (i & Hi & Hlt).
      exists i. by rewrite lookup_insert_ne by congruence.
  - intros a b j Ha Hwa Hb Hwb Hlt. rewrite lookup_insert in Hb. case_decide; simplify_eq.
    + assert (a ∈ dom (ranks st)) as [i Hi]%elem_of_dom.
      { destruct (decide (a ∈ dom (ranks st))); [done|exfalso].
        apply (smallest_ready st b rest a Hiter); [|done].
        apply (ready_ok st Hok). split_and!; [done..|]. by eapply waiting_mono. }
      exists i. rewrite lookup_insert_ne by congruence. split; [done|].
      apply (below_order st Hok) in Hi. lia.
    + destruct (names_first st Hok a b j) as (i & Hi & Hlt'); [done..|].
      exists i. by rewrite lookup_insert_ne by congruence.
Qed.

(** The loop ends within its fuel, in a state that is still right and has
    nothing left to pop. *)
Lemma rank_loop_total fuel st :
  ranking_ok st → (size members - size (ranks st) < fuel)%nat →
  ∃ st', rank_loop fuel out st = Some (ranks st') ∧ ranking_ok st' ∧ ready st' = ∅.
Proof.
  revert st. induction fuel as [|fuel IH]; intros st Hok Hfuel; [lia|]. simpl.
  destruct (btree_set_iter (ready st)) as [|next rest] eqn:Hiter.
  - exists st. split_and!; [done..|]. apply set_eq. intros b.
    rewrite <- elem_of_btree_set_iter, Hiter. set_solver.
  - destruct (rank_step_ok st next rest Hok Hiter) as (Hok' & Hmem & Hfresh & Hranks).
    apply IH; [done|].
    assert (size (dom (ranks (rank_step out st next))) ≤ size members)%nat.
    { apply subseteq_size, (ranked_members _ Hok'). }
    rewrite size_dom in *. rewrite Hranks, map_size_insert_None in * by (by apply not_elem_of_dom).
    lia.
Qed.

(** What the loop leaves unranked all waits for something unranked. *)
Lemma unranked_wait st b :
  ranking_ok st → ready st = ∅ → b ∈ members ∖ dom (ranks st) →
  ∃ a, a ∈ members ∖ dom (ranks st) ∧ out_rel out a b.
Proof.
  intros Hok Hdone Hb.
  assert (waiting members out (dom (ranks st)) b ≠ ∅) as Hne.
  { intros He. assert (b ∈ ready st); [|set_solver]. apply (ready_ok st Hok). set_solver. }
  apply set_choose_L in Hne as [a Ha]. exists a. unfold waiting in Ha.
  rewrite elem_of_filter in Ha. destruct Ha as [Ha1 Ha2]. done.
Qed.
End Ranking.

(** A non-empty finite set whose every member has a predecessor in the set
    holds a closed walk. *)
Lemma predecessors_cycle (R : relation string) (X : gset string) :
  X ≠ ∅ → (∀ b, b ∈ X → ∃ a, a ∈ X ∧ R a b) → ∃ a, tc R a a.
Proof.
  intros Hne Hpred. apply set_choose_L in Hne as [x0 Hx0].
  assert (Hchain : ∀ n, ∃ l : list string, length l = S n ∧ (∀ a, a ∈ l → a ∈ X)
    ∧ ((∃ a, tc R a a) ∨ (NoDup l ∧ ∃ h t, l = h :: t ∧ ∀ a, a ∈ t → tc R h a))).
  { induction n as [|n (l & Hlen & Hin & Hl)].
    { exists [x0]. split_and!; [done|set_solver|]. right. split; [apply NoDup_singleton|].
      exists x0, []. split; [done|]. intros a Ha. by apply not_elem_of_nil in Ha. }
    destruct l as [|h t]; [done|].
    destruct (Hpred h) as (p & Hp & HR); [apply Hin, list_elem_of_here|].
    exists (p :: h :: t). split_and!; [simpl in *; lia|set_solver|].
    destruct Hl as [|(Hnd & h' & t' & [= <- <-] & Ht)]; [by left|].
    destruct (decide (p ∈ h :: t)) as [Hpt|Hpt].
    - left. exists p. apply elem_of_cons in Hpt as [->|Hpt]; [by apply tc_once|].
      eapply tc_l; [exact HR|by apply Ht].
    - right. split; [by apply NoDup_cons|]. exists p, (h :: t). split; [done|].
      intros a [->|Ha]%elem_of_cons; [by apply tc_once|]. eapply tc_l; [exact HR|by apply Ht]. }
  destruct (Hchain (size X)) as (l & Hlen & Hin & [|[Hnd _]]); [done|exfalso].
  assert (size (list_to_set l : gset string) ≤ size X)%nat.
  { apply subseteq_size. set_solver. }
  rewrite size_list_to_set in * by done. lia.
Qed.

(** The precedences that rank the members: those between two members. *)
Definition precede_rel (members : gset string) (precede : list (string * string))
    (a b : string) : Prop := (a, b) ∈ precede ∧ a ∈ members ∧ b ∈ members.

Lemma initial_ranking_ok members precede :
  let '(inc, out) := precedence_graph members precede in
  ranking_ok members out (initial_ranking inc).
Proof.
  pose proof (precedence_counts members precede (gset_to_gmap 0 members) ∅) as Hcount.
  unfold precedence_graph. destruct (foldl _ _ _) as [inc out]. simpl in Hcount.
  assert (Hinc : ∀ b, inc !! b =
    if decide (b ∈ members) then Some (waiting_count members out ∅ b) else None).
  { apply Hcount. intros b. rewrite lookup_gset_to_gmap. case_decide as Hb.
    - rewrite option_guard_True by done. f_equal. symmetry. apply count_empty.
      unfold waiting, out_of. apply set_eq. intros a. rewrite elem_of_filter, lookup_empty. set_solver.
    - by rewrite option_guard_False. }
  split; simpl; rewrite ?dom_empty_L.
  - set_solver.
  - done.
  - intros b. rewrite elem_of_dom, <- count_empty. split.
    + intros [c [Hc Hz]%map_lookup_filter_Some]. simpl in Hz. subst c. rewrite Hinc in Hc.
      case_decide; simplify_eq. set_solver.
    + intros (Hb & _ & Hz). exists 0. apply map_lookup_filter_Some. split; [|done].
      rewrite Hinc, decide_True by done. by f_equal.
  - by rewrite map_size_empty.
  - intros a i. by rewrite lookup_empty.
  - intros a b j _. by rewrite lookup_empty.
  - intros a b j _ _. by rewrite lookup_empty.
Qed.

(** The ranks of a set of precedences. *)
Record ranks_spec (members : gset string) (precede : list (string * string))
    (ranked : gmap string Z) : Prop := {
  ranks_members : dom ranked ⊆ members;
  ranks_bounded a i : ranked !! a = Some i → 0 ≤ i < Z.of_nat (size members);
  ranks_precede a b j : precede_rel members precede a b → ranked !! b = Some j →
    ∃ i, ranked !! a = Some i ∧ i < j;
  ranks_names a b j : a ∈ members → (∀ x, ¬ precede_rel members precede x a) →
    ranked !! b = Some j → (∀ x, ¬ precede_rel members precede x b) →
    String.compare a b = Lt → ∃ i, ranked !! a = Some i ∧ i < j;
  ranks_complete : (∀ a, ¬ tc (precede_rel members precede) a a) → dom ranked = members
}.

Lemma name_ordered_ranks_total members precede :
  ∃ ranked, name_ordered_ranks members precede = Some ranked ∧ ranks_spec members precede ranked.
Proof.
  unfold name_ordered_ranks. pose proof (initial_ranking_ok members precede) as Hinit.
  pose proof (out_rel_precedence members precede) as Hout.
  destruct (precedence_graph members precede) as [inc out]. simpl in Hout.
  assert (Hmem : ∀ a b, out_rel out a b → a ∈ members ∧ b ∈ members) by (intros a b; rewrite Hout; tauto).
  destruct (rank_loop_total members out Hmem (S (size members)) (initial_ranking inc) Hinit)
    as (st & Hloop & Hok & Hdone); [simpl; lia|].
  assert (Hsize : (size (ranks st) ≤ size members)%nat).
  { rewrite <- size_dom. apply subseteq_size, (ranked_members _ _ _ Hok). }
  assert (Hwait : ∀ x, (∀ y, ¬ precede_rel members precede y x) → waiting members out ∅ x = ∅).
  { intros x Hx. unfold waiting. apply set_eq. intros y. rewrite elem_of_filter.
    split; [|set_solver]. intros [Hy _]. exfalso. apply (Hx y). by apply Hout. }
  exists (ranks st). split; [done|]. split.
  - apply (ranked_members _ _ _ Hok).
  - intros a i Ha. apply (below_order _ _ _ Hok) in Ha. rewrite (order_ok _ _ _ Hok) in Ha. lia.
  - intros a b j Hab Hb. by apply (predecessors_first _ _ _ Hok a b); [apply Hout|].
  - intros a b j Ha Hwa Hb Hwb Hlt. apply (names_first _ _ _ Hok a b); auto.
  - intros Hacyc. pose proof (ranked_members _ _ _ Hok).
    destruct (decide (members ∖ dom (ranks st) = ∅)) as [He|Hne].
    { apply set_eq. intros x. split; [set_solver|]. intros Hx.
      destruct (decide (x ∈ dom (ranks st))); [done|]. set_solver. }
    exfalso. destruct (predecessors_cycle (out_rel out) _ Hne) as [a Ha].
    { intros b Hb. by apply (unranked_wait members out Hmem st). }
    apply (Hacyc a). apply (tc_iff _ _ Hout). done.
Qed.

(** ** The order of a plan *)


(** Positions and actions of a plan with one step per product. *)
Lemma positions_of_snoc l p a : positions_of (l ++ [(p, a)]) = <[p := length l]> (positions_of l).
Proof. unfold positions_of. by rewrite enumerate_snoc, foldl_snoc. Qed.

Lemma actions_of_snoc l p a : actions_of (l ++ [(p, a)]) = <[p := a]> (actions_of l).
Proof. unfold actions_of. by rewrite foldl_snoc. Qed.

Lemma plan_lookup l p i a :
  NoDup l.*1 →
  positions_of l !! p = Some i ∧ actions_of l !! p = Some a ↔ l !! i = Some (p, a).
Proof.
  induction l as [|[q b] l IH] using rev_ind; intros Hnd.
  { split; [intros [H _]|]; done. }
  rewrite fmap_app in Hnd. apply NoDup_app in Hnd as (Hnd & Hq & _).
  rewrite positions_of_snoc, actions_of_snoc, !lookup_insert, lookup_snoc_Some.
  destruct (decide (q = p)) as [->|Hne].
  - split; [intros [[= <-] [= ->]]; by right|].
    intros [[_ Hi]|[-> [= ->]]]; [|done]. exfalso. apply (Hq p); [|set_solver].
    apply list_elem_of_fmap. exists (p, a). split; [done|by eapply list_elem_of_lookup_2].
  - rewrite IH by done. split.
    + intros Hi. left. split; [by eapply lookup_lt_Some|done].
    + intros [[_ ?]|[_ [= -> ->]]]; done.
Qed.

(** A product has a position exactly when it has an action. *)
Lemma positions_actions_dom l : dom (positions_of l) = dom (actions_of l).
Proof.
  induction l as [|[q b] l IH] using rev_ind; [done|].
  by rewrite positions_of_snoc, actions_of_snoc, !dom_insert_L, IH.
Qed.

(** The order a plan owes its contracts: changes that move forward come after
    their providers, changes that move back come before them, and a re-render
    never precedes its provider. *)
Definition respects_contracts (ordered : list (string * Action))
    (target installed overlay : list ContractEdge) : Prop :=
  ∀ p d c i j pa da, ordered !! i = Some (p, pa) → ordered !! j = Some (d, da) →
    ((p, d, c) ∈ target → reverse_contract_action pa = false →
       reverse_contract_action da = false → (i ≤ j)%nat)
    ∧ ((p, d, c) ∈ installed → reverse_contract_action pa = true →
       reverse_contract_action da = true → (j ≤ i)%nat)
    ∧ ((p, d, c) ∈ target ++ installed ++ overlay → da = Restart → (i ≤ j)%nat).

(** Of one step per product, the last positions are the positions. *)
Lemma inverted_order_checked ordered target installed overlay :
  NoDup ordered.*1 →
  refuse_inverted_contract_order ordered target installed overlay = Ok tt ↔
  respects_contracts ordered target installed overlay.
Proof.
  intros Hnd. unfold refuse_inverted_contract_order, respects_contracts. split.
  - intros H p d c i j pa da [Hpi Hpa]%plan_lookup [Hdi Hda]%plan_lookup; [|done..].
    destruct (try_for_each _ target) as [[]|] eqn:Ht; [|done].
    destruct (try_for_each _ installed) as [[]|] eqn:Hi; [|done].
    rewrite try_for_each_ok in Ht, Hi, H. split_and!; intros Hin H1.
    + intros H2. specialize (Ht _ Hin). simpl in Ht. rewrite Hpi, Hdi, Hpa, Hda, H1, H2 in Ht.
      simpl in Ht. destruct (Nat.ltb_spec j i); [done|lia].
    + intros H2. specialize (Hi _ Hin). simpl in Hi. rewrite Hpi, Hdi, Hpa, Hda, H1, H2 in Hi.
      simpl in Hi. destruct (Nat.ltb_spec i j); [done|lia].
    + specialize (H _ Hin). simpl in H. rewrite Hpi, Hdi, Hda, H1 in H. simpl in H.
      destruct (Nat.ltb_spec j i); [done|lia].
  - intros H.
    assert (Hlook : ∀ p d pi di pa da, positions_of ordered !! p = Some pi →
      positions_of ordered !! d = Some di → actions_of ordered !! p = Some pa →
      actions_of ordered !! d = Some da →
      ordered !! pi = Some (p, pa) ∧ ordered !! di = Some (d, da)).
    { intros. split; by apply plan_lookup. }
    rewrite (proj2 (try_for_each_ok _ target)), (proj2 (try_for_each_ok _ installed)).
    1: rewrite (proj2 (try_for_each_ok _ (target ++ installed ++ overlay))); [done|].
    all: intros [[p d] c] Hin;
      destruct (positions_of ordered !! p) as [pi|] eqn:Hpi; [|done];
      destruct (positions_of ordered !! d) as [di|] eqn:Hdi; [|done];
      assert (is_Some (actions_of ordered !! p)) as [pa Hpa]
        by (rewrite <- elem_of_dom, <- positions_actions_dom, elem_of_dom; eauto);
      destruct (actions_of ordered !! d) as [da|] eqn:Hda; try done;
      rewrite ?Hpa; try done;
      destruct (Hlook p d pi di pa da) as [Hop Hod]; [done..|];
      destruct (H p d c pi di pa da Hop Hod) as (H1 & H2 & H3).
    + case_bool_decide; [|done]. simpl. destruct (Nat.ltb_spec di pi); [|done].
      specialize (H3 Hin ltac:(done)). lia.
    + destruct (reverse_contract_action pa), (reverse_contract_action da); simpl; try done.
      destruct (Nat.ltb_spec pi di); [|done]. specialize (H2 Hin eq_refl eq_refl). lia.
    + destruct (reverse_contract_action pa), (reverse_contract_action da); simpl; try done.
      destruct (Nat.ltb_spec di pi); [|done]. specialize (H1 Hin eq_refl eq_refl). lia.
Qed.

(** With one step per product, the final check of a sorted plan passes
    exactly when the plan respects every contract edge: forward changes after
    their providers, removals, downgrades and rollbacks before them, and
    re-renders after the provider they render. *)
Theorem refuse_inverted_contract_order_iff ordered target installed overlay :
  NoDup ordered.*1 →
  refuse_inverted_contract_order ordered target installed overlay = Ok tt ↔
  respects_contracts ordered target installed overlay.
Proof. apply inverted_order_checked. Qed.






Lemma refuse_cross_release_cycle_err edges e :
  refuse_cross_release_cycle edges = Err e →
  ∃ ns cs, e = PlanCycle (Cycle ns cs) ∧ closed_walk (edge_outgoing edges) ns cs.
Proof.
  unfold refuse_cross_release_cycle. destruct (search _ _) as [[f|[ns cs]]|] eqn:Es; intros [= <-].
  - exists ns, cs. split; [done|]. by eapply search_err.
  - exfalso. revert Es. apply (search_total _ _ (edge_outgoing_nodes edges)).
Qed.

Lemma refuse_mixed_direction_edges_err pending profiles e :
  refuse_mixed_direction_edges pending (cross_release_contract_edges profiles) = Err e →
  ∃ p d c, e = OppositeDirections p d c ∧ links profiles p d c.
Proof.
  intros ([[p d] c] & Hin & Hb)%try_for_each_err.
  apply elem_of_cross_release_contract_edges in Hin. exists p, d, c. split; [|done].
  destruct (_ !! p); [|done]. destruct (_ !! d); [|done].
  destruct (_ || _); [done|]. by destruct (negb _); simplify_eq.
Qed.

Section PlanOrder.
Context {SV : Semver}.


(** C40: ordering a set of changes always ends: it returns an order or one
    of the refusals, and a cycle it reports is a closed walk of requirement
    edges between products that remain. *)
Theorem contract_plan_order_errors pending target installed e :
  contract_plan_order pending target installed = Err e →
  match e with
  | PlanSearchDiverged | RankingDiverged => False
  | PlanCycle (Cycle ns cs) => closed_walk
      (edge_outgoing (cross_release_contract_edges (overlay_profiles installed target pending))) ns cs
  | OppositeDirections p d c =>
      links (overlay_profiles installed target pending) p d c ∨ links installed p d c
  | InvertedRemoval _ _ _ | InvertedForward _ _ _ | InvertedRerender _ _ _ => False
  | CompatibilityRefused e' => refuse_unsatisfied_dependents
      (overlay_profiles installed target pending) installed = Err e'
  end.
Proof.
  unfold contract_plan_order. set (remaining := overlay_profiles installed target pending).
  destruct (refuse_unsatisfied_dependents _ _) as [[]|e'] eqn:Hd; simpl; [|by intros [= <-]].
  destruct (refuse_cross_release_cycle _) as [[]|c] eqn:Hc;
    [|intros [= <-]; by apply refuse_cross_release_cycle_err in Hc as (ns & cs & -> & Hw)].
  destruct (refuse_mixed_direction_edges pending (cross_release_contract_edges remaining))
    as [[]|d] eqn:Hm; [|intros [= <-]; apply refuse_mixed_direction_edges_err in Hm; naive_solver].
  destruct (refuse_mixed_direction_edges pending (cross_release_contract_edges installed))
    as [[]|d] eqn:Hi; [|intros [= <-]; apply refuse_mixed_direction_edges_err in Hi; naive_solver].
  edestruct (name_ordered_ranks_total (dom (actions_of pending))) as (ranked & -> & _). done.
Qed.
End PlanOrder.

(** ** Concrete plans *)
Module ContractExamples.
Import Examples.
#[local] Existing Instance PlainSemver.instance.

Definition targets : gmap string CompatibilityProfile := installed.

Definition both : list (string * Action) := [("db", Install); ("web", Install)].

Definition both_order : ContractPlanOrder :=
  {| plan_ranks := {["db" := 0; "web" := 1]};
     target_edges := [("db", "web", "database")]; installed_edges := [];
     overlay_edges := [("db", "web", "database")] |}.

Example install_order : contract_plan_order both targets ∅ = Ok both_order.
Proof. vm_compute. reflexivity. Qed.

Lemma refuse_inverted_contract_order_iff_witness :
  refuse_inverted_contract_order both [("db", "web", "database")] [] [] = Ok tt
  ∧ respects_contracts both [("db", "web", "database")] [] [].
Proof.
  assert (H : refuse_inverted_contract_order both [("db", "web", "database")] [] [] = Ok tt)
    by (vm_compute; reflexivity).
  split; [exact H|].
  apply (proj1 (refuse_inverted_contract_order_iff both [("db", "web", "database")] [] []
           ltac:(apply (bool_decide_unpack _); vm_compute; reflexivity)) H).
Defined.

(** Two products that require each other cannot be ordered. *)
Definition requires_and_provides (name needs offers : string) : CompatibilityProfile :=
  profile_of name {| pin := revision; requires := {[needs := Minimum "1.0.0"]};
                     provides := {[offers := "1.0.0"]} |}.

Definition mutual : gmap string CompatibilityProfile :=
  {["a" := requires_and_provides "a" "y" "x"; "b" := requires_and_provides "b" "x" "y"]}.

Lemma contract_plan_order_errors_witness :
  contract_plan_order [("a", Install); ("b", Install)] mutual ∅
    = Err (PlanCycle (Cycle ["a"; "b"; "a"] ["x"; "y"]))
  ∧ closed_walk (edge_outgoing (cross_release_contract_edges
      (overlay_profiles ∅ mutual [("a", Install); ("b", Install)]))) ["a"; "b"; "a"] ["x"; "y"].
Proof.
  assert (H : contract_plan_order [("a", Install); ("b", Install)] mutual ∅
    = Err (PlanCycle (Cycle ["a"; "b"; "a"] ["x"; "y"]))) by (vm_compute; reflexivity).
  split; [exact H|].
  exact (contract_plan_order_errors _ _ _ _ H).
Defined.

(** The provider goes last when both are removed. *)
Example removal_order :
  plan_ranks <$> match contract_plan_order [("db", Remove); ("web", Remove)] ∅ installed with
                 | Ok o => Some o | Err _ => None end
  = Some {["web" := 0; "db" := 1]}.
Proof. vm_compute. reflexivity. Qed.
End ContractExamples.
