(* ===== verification/Plan.v ===== *)
(** * Plans and their lifecycle

    [plan.rs] and [plan/lifecycle.rs]: the immutable executable plan, its
    content address, its encoding as a stored object, the checks of a stored
    object, and the lifecycle transitions the store accepts. *)

From S2P Require Import Prelude RustStr Kinds.

(** ** Data *)

Inductive HostAction := HostInstall | HostUninstall | HostHealth.

Record HostStep := { host_action : HostAction; expected_generation : Z }.

Record ReleasePin := {
  pin_release_id : string;
  pin_digest : string;
  pin_artifact_digest : string;
  pin_workdir : string
}.

Record Step := {
  step_id : string;
  step_order : Z;
  step_product : string;
  step_instance : string;
  step_action : Action;
  step_from : option string;
  step_to : string;
  step_release_id : string;
  step_release_digest : string;
  step_artifact_digest : string;
  step_workdir : string;
  step_restore : option ReleasePin;
  step_host : option HostStep
}.

Record DesiredStateInput := {
  input_product : string;
  input_instance : string;
  input_channel : string;
  input_channel_id : string;
  input_desired_version : string;
  input_release_id : string;
  input_release_digest : string;
  input_artifact_digest : string;
  input_deployed_version : option string
}.

Inductive PlanState := Computed | Running | Blocked | Succeeded | Failed.

(** The advisory [credential_runway] and [prior_warnings] are outside the
    content address; the runway is kept as its encoded text. *)
Record Plan := {
  format_version : Z;
  plan_id_of : string;
  content_id : string;
  plan_environment : string;
  created_at : Z;
  inputs : list DesiredStateInput;
  steps : list Step;
  plan_state : PlanState;
  gates_skipped : option bool;
  status_detail : string;
  maintenance_blocked : bool;
  prior_warnings : list string;
  recalled_recovery_reason : option string;
  credential_runway : option string
}.

#[export] Instance HostAction_eq_dec : EqDecision HostAction.
Proof. solve_decision. Defined.
#[export] Instance HostStep_eq_dec : EqDecision HostStep.
Proof. solve_decision. Defined.
#[export] Instance ReleasePin_eq_dec : EqDecision ReleasePin.
Proof. solve_decision. Defined.
#[export] Instance Step_eq_dec : EqDecision Step.
Proof. solve_decision. Defined.
#[export] Instance DesiredStateInput_eq_dec : EqDecision DesiredStateInput.
Proof. solve_decision. Defined.
#[export] Instance PlanState_eq_dec : EqDecision PlanState.
Proof. solve_decision. Defined.
#[export] Instance Plan_eq_dec : EqDecision Plan.
Proof. solve_decision. Defined.

Definition HostAction_str (a : HostAction) : string :=
  match a with
  | HostInstall => "install"
  | HostUninstall => "uninstall"
  | HostHealth => "health"
  end.

Definition PlanState_str (s : PlanState) : string :=
  match s with
  | Computed => "computed"
  | Running => "running"
  | Blocked => "blocked"
  | Succeeded => "succeeded"
  | Failed => "failed"
  end.

Definition PLAN_FORMAT_VERSION : Z := 1.

(** [Step::instance_name]: an empty instance names the product. *)
Definition step_instance_name (s : Step) : string :=
  if str_is_empty (step_instance s) then step_product s else step_instance s.

Definition input_instance_name (i : DesiredStateInput) : string :=
  if str_is_empty (input_instance i) then input_product i else input_instance i.

(** [ontology::plan_id] and the other identifiers a plan names. *)
Definition plan_id (env : string) (ts : Z) (content : string) : string :=
  "tenkai:plan:" +:+ env +:+ ":" +:+ pretty ts +:+ ":" +:+ content.

Definition release_id (product version : string) : string :=
  "tenkai:release:" +:+ product +:+ "@" +:+ version.

Definition env_id (name : string) : string := "tenkai:env:" +:+ name.

(** ** Encodings

    [serde_json] and SHA-256 are libraries: the texts the plan code hashes
    and stores, and the digest, are parameters. *)
Class PlanEncoding := {
  (** [serde_json::to_vec] of the tuple [content_address] hashes; the reason
      is an extra component when it is present. *)
  content_json : Z → string → Z → list DesiredStateInput → list Step → option string → string;
  (** [serde_json::to_vec] of [ExecutableContent]. *)
  executable_json : Z → string → string → string → Z → list DesiredStateInput → list Step →
    option string → string;
  (** [serde_json::to_string] and [from_str] of a plan. *)
  plan_json : Plan → string;
  plan_of_json : string → option Plan;
  (** [format!("{:x}", Sha256::digest(bytes))]. *)
  sha256_hex : string → string
}.

(** A stored plan reads back as it was written. *)
Class PlanEncodingLaws (E : PlanEncoding) : Prop := {
  plan_json_roundtrip p : plan_of_json (plan_json p) = Some p
}.

(** Objects of the store, as [pb::sekai::Object]. *)
Record Object := {
  object_id : string;
  object_kind : string;
  object_name : string;
  object_namespace : string;
  external_id : string;
  properties : gmap string string;
  created : Z;
  updated : Z
}.

Definition KIND_PLAN : string := "tenkai.plan".
Definition NS : string := "tenkai".

Inductive plan_error :=
| PlanNotFound (id : string)
| NotAPlan (id kind : string)
| NoSerializedPlan (id : string)
| UnparsablePlan (id : string)
| UnsupportedFormat (id : string) (version : Z)
| StrayMaintenanceMarker (id : string)
| ObjectIdMismatch (id object : string)
| NotContentAddressed (id : string)
| InvalidStepOrder (id : string)
| NoStatus (id : string)
| InconsistentState (id : string)
| NoDigest (id : string)
| ContentMutated (id : string)
| NoCreatedAt (id : string)
| CreatedAtNotInteger (id : string)
| CreatedAtMismatch (id : string)
| NoHasSteps (id : string)
| HasStepsMismatch (id : string)
| NoEnvironmentIndex (id : string)
| EnvironmentMismatch (id : string)
| ContentImmutable (id : string)
| AuditFieldsImmutable (id : string)
| InvalidTransition (id : string) (before after : PlanState)
| StoreUnavailable.

(** The object store, by id. *)
Notation Store := (gmap string Object).

Section Plans.
Context {E : PlanEncoding}.

(** [content_address]: step ids are cleared first, an empty reason counts
    as none. *)
Definition clear_step_id (s : Step) : Step := {|
  step_id := ""; step_order := step_order s; step_product := step_product s;
  step_instance := step_instance s; step_action := step_action s; step_from := step_from s;
  step_to := step_to s; step_release_id := step_release_id s;
  step_release_digest := step_release_digest s;
  step_artifact_digest := step_artifact_digest s; step_workdir := step_workdir s;
  step_restore := step_restore s; step_host := step_host s |}.

Definition non_empty_reason (reason : option string) : option string :=
  match reason with
  | Some r => if str_is_empty r then None else Some r
  | None => None
  end.

Definition content_address (environment : string) (created_at : Z)
    (inputs : list DesiredStateInput) (steps : list Step) (reason : option string) : string :=
  sha256_hex (content_json PLAN_FORMAT_VERSION environment created_at inputs
                (clear_step_id <$> steps) (non_empty_reason reason)).

Definition executable_digest (p : Plan) : string :=
  sha256_hex (executable_json (format_version p) (plan_id_of p) (content_id p)
                (plan_environment p) (created_at p) (inputs p) (steps p)
                (recalled_recovery_reason p)).

(** ** Stored objects *)

Definition has_steps_index (steps_empty : bool) : string :=
  if steps_empty then "false" else "true".

Definition steps_empty (p : Plan) : bool := match steps p with [] => true | _ => false end.

(** [to_object], at the time the store is written. *)
Definition to_object (now : Z) (p : Plan) : Object := {|
  object_id := plan_id_of p;
  object_kind := KIND_PLAN;
  object_name := plan_environment p +:+ " plan " +:+ pretty (created_at p);
  object_namespace := NS;
  external_id := "";
  properties := list_to_map [
    ("format_version", pretty (format_version p));
    ("environment", plan_environment p);
    ("created_at", pretty (created_at p));
    ("content_digest", executable_digest p);
    ("plan", plan_json p);
    ("status", PlanState_str (plan_state p));
    ("has_steps", has_steps_index (steps_empty p))];
  created := created_at p;
  updated := now |}.

Definition require_has_steps_index (o : Object) (empty : bool) : result unit plan_error :=
  match properties o !! "has_steps" with
  | Some indexed =>
    bail_if negb (bool_decide (indexed = has_steps_index empty))
      with (HasStepsMismatch (object_id o)) in
    Ok tt
  | None => Err (NoHasSteps (object_id o))
  end.

Definition u32_of_usize (n : nat) : Z := Z.of_nat n mod (u32_max + 1).

Definition step_in_order (id : string) (entry : nat * Step) : bool :=
  let '(order, s) := entry in
  bool_decide (step_order s = u32_of_usize order)
  && bool_decide (step_id s = id +:+ ":step:" +:+ pretty order).

Definition from_object (o : Object) : result Plan plan_error :=
  let id := object_id o in
  bail_if negb (bool_decide (object_kind o = KIND_PLAN)) with (NotAPlan id (object_kind o)) in
  let? raw := ok_or (properties o !! "plan") (NoSerializedPlan id) in
  let? p := ok_or (plan_of_json raw) (UnparsablePlan id) in
  bail_if negb (format_version p =? PLAN_FORMAT_VERSION)
    with (UnsupportedFormat id (format_version p)) in
  bail_if maintenance_blocked p && negb (bool_decide (plan_state p = Blocked))
    with (StrayMaintenanceMarker (plan_id_of p)) in
  bail_if negb (bool_decide (plan_id_of p = id)) with (ObjectIdMismatch (plan_id_of p) id) in
  let expected := content_address (plan_environment p) (created_at p) (inputs p) (steps p)
                    (recalled_recovery_reason p) in
  bail_if negb (bool_decide (content_id p = expected))
          || negb (bool_decide (plan_id_of p = plan_id (plan_environment p) (created_at p) expected))
    with (NotContentAddressed id) in
  bail_if negb (forallb (step_in_order (plan_id_of p)) (enumerate (steps p)))
    with (InvalidStepOrder id) in
  let? status := ok_or (properties o !! "status") (NoStatus id) in
  bail_if negb (bool_decide (status = PlanState_str (plan_state p))) with (InconsistentState id) in
  let? stored_digest := ok_or (properties o !! "content_digest") (NoDigest id) in
  bail_if negb (bool_decide (executable_digest p = stored_digest)) with (ContentMutated id) in
  let? indexed := ok_or (properties o !! "created_at") (NoCreatedAt id) in
  let? indexed_created_at := ok_or (parse_i64 indexed) (CreatedAtNotInteger id) in
  bail_if negb (indexed_created_at =? created_at p) with (CreatedAtMismatch id) in
  let? _ := require_has_steps_index o (steps_empty p) in
  let? indexed_environment := ok_or (properties o !! "environment") (NoEnvironmentIndex id) in
  bail_if negb (bool_decide (indexed_environment = plan_environment p))
    with (EnvironmentMismatch id) in
  Ok p.

(** ** Lifecycle *)

Record Transition := {
  to_state : PlanState;
  set_gates_skipped : option bool;
  set_status_detail : string;
  set_maintenance_blocked : bool
}.

Definition Transition_new (state : PlanState) (detail : string) : Transition :=
  {| to_state := state; set_gates_skipped := None; set_status_detail := detail;
     set_maintenance_blocked := false |}.

Definition Transition_execution (state : PlanState) (skipped : bool) (detail : string) : Transition :=
  {| to_state := state; set_gates_skipped := Some skipped; set_status_detail := detail;
     set_maintenance_blocked := false |}.

Definition Transition_maintenance_blocked (skipped : bool) (detail : string) : Transition :=
  {| to_state := Blocked; set_gates_skipped := Some skipped; set_status_detail := detail;
     set_maintenance_blocked := true |}.

Definition Transition_apply (t : Transition) (p : Plan) : Plan := {|
  format_version := format_version p; plan_id_of := plan_id_of p; content_id := content_id p;
  plan_environment := plan_environment p; created_at := created_at p; inputs := inputs p;
  steps := steps p;
  plan_state := to_state t;
  gates_skipped := match set_gates_skipped t with Some g => Some g | None => gates_skipped p end;
  status_detail := set_status_detail t;
  maintenance_blocked := set_maintenance_blocked t;
  prior_warnings := prior_warnings p;
  recalled_recovery_reason := recalled_recovery_reason p;
  credential_runway := credential_runway p |}.

(** The transitions the store accepts between two states of one plan. *)
Definition valid_transition (stored plan : Plan) : bool :=
  bool_decide (plan_state stored = plan_state plan)
  || match plan_state stored, plan_state plan with
     | Computed, Running | Computed, Blocked | Blocked, Running
     | Running, Blocked | Running, Succeeded | Running, Failed => true
     | _, _ => false
     end
  || (steps_empty stored && steps_empty plan
      && bool_decide (plan_state stored = Computed) && bool_decide (plan_state plan = Succeeded)).

Definition audit_fields (p : Plan) : option bool * string * bool :=
  (gates_skipped p, status_detail p, maintenance_blocked p).

Definition preserved_overrides : list string :=
  ["last_emergency_override_reason"; "last_emergency_override_correlation"].

Definition keep_overrides (existing : option Object) (o : Object) : Object :=
  match existing with
  | None => o
  | Some e => {|
      object_id := object_id o; object_kind := object_kind o; object_name := object_name o;
      object_namespace := object_namespace o; external_id := external_id o;
      properties := foldl (λ props property,
        match properties e !! property with
        | Some value => <[property := value]> props
        | None => props
        end) (properties o) preserved_overrides;
      created := created o; updated := updated o |}
  end.

(** [validated_plan_object] against what the store holds under the id. *)
Definition validated_plan_object (existing : option Object) (now : Z) (p : Plan) :
    result Object plan_error :=
  let? _ := match existing with
    | None => Ok tt
    | Some e =>
      let? stored := from_object e in
      bail_if negb (bool_decide (executable_digest stored = executable_digest p))
        with (ContentImmutable (plan_id_of p)) in
      bail_if bool_decide (plan_state stored = plan_state p)
              && negb (bool_decide (plan_state stored = Blocked))
              && negb (bool_decide (audit_fields stored = audit_fields p))
        with (AuditFieldsImmutable (plan_id_of p)) in
      bail_if negb (valid_transition stored p)
        with (InvalidTransition (plan_id_of p) (plan_state stored) (plan_state p)) in
      Ok tt
    end in
  Ok (keep_overrides existing (to_object now p)).

(** ** The store

    Objects by id; [put] replaces the object under its id. *)


Definition store (db : Store) (now : Z) (p : Plan) : result Store plan_error :=
  let? o := validated_plan_object (db !! plan_id_of p) now p in
  Ok (<[object_id o := o]> db).

Definition load (db : Store) (id : string) : result Plan plan_error :=
  let? o := ok_or (db !! id) (PlanNotFound id) in
  from_object o.

(** [store_with_environment_and_provider_events]: the plan and the
    environment in one transaction. *)
Definition store_with_environment (db : Store) (now : Z) (p : Plan) (environment : Object) :
    result Store plan_error :=
  let? o := validated_plan_object (db !! plan_id_of p) now p in
  Ok (<[object_id environment := environment]> (<[object_id o := o]> db)).

(** How a write under a fencing token ended: committed, refused with
    nothing written, or reported as failed although it was committed. *)
Inductive guarded_write := Committed | NotWritten | CommittedUnconfirmed.

Inductive Persistence :=
| Standard
| WithEnvironment (environment : Object)
| Guarded (confirm_ambiguous : bool) (write : guarded_write).

Definition intended (p : Plan) : PlanState * (option bool * string * bool) :=
  (plan_state p, audit_fields p).

(** [transition]: the in-memory plan changes first, whatever the write
    does.  Returns the plan, the store and the outcome. *)
Definition transition (db : Store) (now : Z) (p : Plan) (update : Transition)
    (persistence : Persistence) : Plan * Store * result unit plan_error :=
  let p' := Transition_apply update p in
  match persistence with
  | Standard =>
    match store db now p' with
    | Ok db' => (p', db', Ok tt)
    | Err e => (p', db, Err e)
    end
  | WithEnvironment environment =>
    match store_with_environment db now p' environment with
    | Ok db' => (p', db', Ok tt)
    | Err e => (p', db, Err e)
    end
  | Guarded confirm_ambiguous write =>
    let o := to_object now p' in
    let written : Store := <[object_id o := o]> db in
    match write with
    | Committed => (p', written, Ok tt)
    | NotWritten | CommittedUnconfirmed =>
      let db' := match write with NotWritten => db | _ => written end in
      if negb confirm_ambiguous then (p', db', Err StoreUnavailable)
      else
        match load db' (plan_id_of p') with
        | Ok stored =>
          if decide (intended stored = intended p') then (p', db', Ok tt)
          else (p', db', Err StoreUnavailable)
        | Err _ => (p', db', Err StoreUnavailable)
        end
    end
  end.

(** [parse_authenticated], on the plan an authenticated bundle decodes to. *)
Inductive authenticated_error :=
| NotExecutable
| PlanIdMismatch (id : string)
| PlanEnvironmentMismatch (environment : string)
| InvalidPlan (error : plan_error).

Definition parse_authenticated (now : Z) (bytes expected_id environment : string) :
    result Plan authenticated_error :=
  let? p := ok_or (plan_of_json bytes) NotExecutable in
  bail_if negb (bool_decide (plan_id_of p = expected_id)) with (PlanIdMismatch (plan_id_of p)) in
  bail_if negb (bool_decide (plan_environment p = environment))
    with (PlanEnvironmentMismatch (plan_environment p)) in
  let? _ := map_err InvalidPlan (from_object (to_object now p)) in
  Ok p.

(** ** Well-formed plans *)

(** A plan that names itself by its content, numbers its steps, and marks a
    maintenance block only while blocked. *)
Record wf_plan (p : Plan) : Prop := {
  wf_version : format_version p = PLAN_FORMAT_VERSION;
  wf_marker : maintenance_blocked p = true → plan_state p = Blocked;
  wf_content : content_id p = content_address (plan_environment p) (created_at p) (inputs p)
                 (steps p) (recalled_recovery_reason p);
  wf_id : plan_id_of p = plan_id (plan_environment p) (created_at p) (content_id p);
  wf_steps i s : steps p !! i = Some s →
    step_order s = u32_of_usize i ∧ step_id s = plan_id_of p +:+ ":step:" +:+ pretty i
}.

Lemma steps_in_order_iff id l :
  forallb (step_in_order id) (enumerate l) = true ↔
  ∀ i s, l !! i = Some s → step_order s = u32_of_usize i ∧ step_id s = id +:+ ":step:" +:+ pretty i.
Proof.
  rewrite forallb_elem. unfold enumerate, step_in_order. split.
  - intros H i s Hi. specialize (H (i, s)). rewrite andb_true_iff, !bool_decide_eq_true in H.
    apply H. apply elem_of_lookup_imap_2 with (f := λ i a, (i, a)). done.
  - intros H [i s] Hin. rewrite andb_true_iff, !bool_decide_eq_true.
    apply elem_of_lookup_imap in Hin as (j & x & [= -> ->] & Hj). by apply H.
Qed.
End Plans.

(** ** Encoding and decoding *)

Section Encoding.
Context {E : PlanEncoding}.

(** The indexes of an object agree with the plan it carries. *)
Record describes (o : Object) (p : Plan) : Prop := {
  d_kind : object_kind o = KIND_PLAN;
  d_plan : plan_of_json <$> properties o !! "plan" = Some (Some p);
  d_id : object_id o = plan_id_of p;
  d_status : properties o !! "status" = Some (PlanState_str (plan_state p));
  d_digest : properties o !! "content_digest" = Some (executable_digest p);
  d_created : properties o !! "created_at" ≫= parse_i64 = Some (created_at p);
  d_has_steps : properties o !! "has_steps" = Some (has_steps_index (steps_empty p));
  d_environment : properties o !! "environment" = Some (plan_environment p)
}.

Lemma require_has_steps_index_ok o empty :
  require_has_steps_index o empty = Ok tt ↔ properties o !! "has_steps" = Some (has_steps_index empty).
Proof.
  unfold require_has_steps_index. destruct (properties o !! "has_steps") as [i|]; [|naive_solver].
  case_bool_decide; naive_solver.
Qed.

Lemma from_object_sound o p : from_object o = Ok p → describes o p ∧ wf_plan p.
Proof.
  unfold from_object. intros H. ok_inv H. simplify_eq.
  destruct x5. rewrite require_has_steps_index_ok in *. rewrite steps_in_order_iff in Hg6.
  destruct Hg5 as [Hc Hi]. rewrite !Z.eqb_eq in *. subst x4.
  split; split; try done.
  - rewrite Hg0. simpl. by rewrite Hg1.
  - rewrite Hg11. done.
  - intros Hm. destruct Hg3; [congruence|done].
  - by rewrite Hc.
Qed.

Lemma from_object_complete o p : describes o p → wf_plan p → from_object o = Ok p.
Proof.
  intros [Hk Hp Hid Hs Hd Hc Hh He] [Hv Hm Hcontent Hplan Hsteps]. unfold from_object.
  destruct (properties o !! "plan") as [raw|]; [|done]. simplify_eq/=.
  destruct (properties o !! "created_at") as [c|]; [|done]. simpl in Hc.
  rewrite Hp. simpl. rewrite Hv, Z.eqb_refl, Hk, Hs, Hd, He, Hc. simpl.
  rewrite (proj2 (require_has_steps_index_ok o _) Hh), Z.eqb_refl.
  rewrite (proj2 (steps_in_order_iff _ _) Hsteps).
  assert (maintenance_blocked p && negb (bool_decide (plan_state p = Blocked)) = false) as ->.
  { destruct (maintenance_blocked p); [|done]. by rewrite bool_decide_true by auto. }
  rewrite <- Hcontent, <- Hplan, Hid, !bool_decide_true by done. done.
Qed.

(** A stored object is accepted exactly when it carries a plan that is
    well formed (named by its own content, steps numbered in order,
    maintenance marker only while blocked) and every index of the object
    (kind, id, status, digest, creation time, has-steps, environment)
    agrees with that plan. *)
Theorem from_object_iff o p : from_object o = Ok p ↔ describes o p ∧ wf_plan p.
Proof. split; [apply from_object_sound|]. intros [Hd Hw]. by apply from_object_complete. Qed.

Context {L : PlanEncodingLaws E}.

Lemma to_object_describes now p :
  i64_min ≤ created_at p ≤ i64_max → describes (to_object now p) p.
Proof.
  intros Hc. split; try done; simpl; simplify_map_eq; simpl; [by rewrite plan_json_roundtrip|].
  by apply parse_i64_pretty.
Qed.

(** A well-formed plan survives the store: the object written for it
    reads back as the same plan. *)
Theorem to_object_roundtrip now p :
  wf_plan p → i64_min ≤ created_at p ≤ i64_max → from_object (to_object now p) = Ok p.
Proof. intros Hw Hc. apply from_object_complete; [by apply to_object_describes|done]. Qed.
End Encoding.

(** ** Lifecycle *)

Inductive lifecycle_edge : PlanState → PlanState → Prop :=
| start_computed : lifecycle_edge Computed Running
| block_computed : lifecycle_edge Computed Blocked
| resume_blocked : lifecycle_edge Blocked Running
| block_running : lifecycle_edge Running Blocked
| succeed_running : lifecycle_edge Running Succeeded
| fail_running : lifecycle_edge Running Failed
| succeed_no_op : lifecycle_edge Computed Succeeded.

Definition terminal (s : PlanState) : bool :=
  match s with Succeeded | Failed => true | _ => false end.

Section Lifecycle.
Context {E : PlanEncoding} {L : PlanEncodingLaws E}.

Definition store_step (db db' : Store) : Prop := ∃ now p, store db now p = Ok db'.

Lemma valid_transition_edge stored p :
  valid_transition stored p = true →
  plan_state stored = plan_state p ∨ lifecycle_edge (plan_state stored) (plan_state p).
Proof.
  unfold valid_transition. rewrite !orb_true_iff, !andb_true_iff, !bool_decide_eq_true.
  intros [[|H]|[[_ ->] ->]]; [by left| |right; constructor].
  right. destruct (plan_state stored), (plan_state p); try done; constructor.
Qed.

Lemma valid_transition_terminal stored p :
  valid_transition stored p = true → terminal (plan_state stored) = true →
  plan_state p = plan_state stored.
Proof.
  intros [|He]%valid_transition_edge Ht; [done|]. by inversion He as [H1|H1|H1|H1|H1|H1|H1]; rewrite <- H1 in Ht.
Qed.

(** The overrides are not among the indexes a stored plan is read by. *)
Lemma keep_overrides_lookup existing o k :
  k ∉ preserved_overrides → properties (keep_overrides existing o) !! k = properties o !! k.
Proof.
  intros Hk. destruct existing as [e|]; [|done]. simpl.
  unfold preserved_overrides in Hk. rewrite !not_elem_of_cons in Hk. destruct Hk as (H1 & H2 & _).
  by destruct (properties e !! "last_emergency_override_reason"),
    (properties e !! "last_emergency_override_correlation"); rewrite ?lookup_insert_ne by done.
Qed.

Lemma from_object_keep_overrides existing o :
  from_object (keep_overrides existing o) = from_object o.
Proof.
  unfold from_object, require_has_steps_index.
  rewrite !keep_overrides_lookup
    by (unfold preserved_overrides; rewrite !not_elem_of_cons; split_and!; done || apply not_elem_of_nil).
  by destruct existing.
Qed.

(** What a store of a plan leaves to be loaded. *)
Lemma from_written existing now q p :
  from_object (keep_overrides existing (to_object now q)) = Ok p → p = q.
Proof.
  rewrite from_object_keep_overrides. intros [[_ Hp _ _ _ _ _ _] _]%from_object_sound.
  simpl in Hp. simplify_map_eq. rewrite plan_json_roundtrip in Hp. by simplify_eq.
Qed.

(** A plan that loads after a store was there before it, or is the one
    stored, over a stored plan it follows in the lifecycle. *)
Lemma store_cases db now q db' id p' :
  store db now q = Ok db' → load db' id = Ok p' →
  load db id = Ok p'
  ∨ (p' = q ∧ (db !! id = None
     ∨ ∃ p, load db id = Ok p ∧ executable_digest p = executable_digest q
            ∧ valid_transition p q = true
            ∧ (plan_state p = plan_state q → plan_state p ≠ Blocked →
               audit_fields p = audit_fields q))).
Proof.
  unfold store, load, validated_plan_object. intros Hs Hl. ok_inv Hs.
  simplify_eq. ok_inv Hg. simplify_eq.
  assert (Hid : object_id (keep_overrides (db !! plan_id_of q) (to_object now q)) = plan_id_of q)
    by (by destruct (db !! plan_id_of q)).
  rewrite Hid in Hl. destruct (decide (plan_id_of q = id)) as [<-|Hne];
    [|left; by rewrite lookup_insert_ne in Hl].
  rewrite lookup_insert_eq in Hl. simpl in Hl. apply from_written in Hl as ->. right. split; [done|].
  destruct (db !! plan_id_of q) as [e|] eqn:Ee; [right|by left]. simpl.
  ok_inv Hg0. exists x. split_and!; try done.
  intros Hstate Hblocked. destruct Hg2 as [[?|?]|?]; done.
Qed.

Lemma store_keeps_some db db' id :
  rtc store_step db db' → is_Some (db !! id) → is_Some (db' !! id).
Proof.
  induction 1 as [|db1 db2 db3 [now [q Hq]] _ IH]; [done|]. intros Hsome. apply IH.
  unfold store in Hq. ok_inv Hq. simplify_eq. rewrite lookup_insert. by case_decide.
Qed.

(** C30: whatever sequence of validated stores happens, every version of a
    plan that loads has the executable content (digest) it was created
    with, moves only along lifecycle edges, and once succeeded or failed
    keeps its state and its audit fields for good. *)
Theorem plan_history db db' id p p' :
  rtc store_step db db' → load db id = Ok p → load db' id = Ok p' →
  executable_digest p' = executable_digest p
  ∧ rtc lifecycle_edge (plan_state p) (plan_state p')
  ∧ (terminal (plan_state p) = true →
     plan_state p' = plan_state p ∧ audit_fields p' = audit_fields p).
Proof.
  intros Hsteps Hp. revert p'. pattern db'. revert db' Hsteps. apply rtc_ind_r.
  { intros p' Hp'. assert (p' = p) as -> by congruence. split_and!; [done|apply rtc_refl|done]. }
  intros db1 db2 Hsteps [now [q Hq]] IH p' Hp'.
  destruct (store_cases _ _ _ _ _ _ Hq Hp') as [Hold|[-> [Hnone|(r & Hr & Hd & Hv & Ha)]]].
  - by apply IH.
  - exfalso. assert (is_Some (db1 !! id)) as [o Ho]; [|congruence].
    apply (store_keeps_some db); [done|]. unfold load in Hp. by destruct (db !! id).
  - destruct (IH r Hr) as (Hd' & He & Ht). split_and!; [congruence| |].
    + destruct (valid_transition_edge r q Hv) as [<-|]; [done|]. by eapply rtc_r.
    + intros Hterm. destruct (Ht Hterm) as [Hs Hau].
      assert (plan_state q = plan_state r) as Hqs
        by (apply valid_transition_terminal; [done|by rewrite Hs]).
      split; [congruence|]. rewrite <- Hau. symmetry. apply Ha; [done|].
      rewrite Hs. by destruct (plan_state p).
Qed.
End Lifecycle.

Section Transitions.
Context {E : PlanEncoding} {L : PlanEncodingLaws E}.

(** The transitions the constructors build mark a maintenance block only
    when they block. *)
Definition well_marked (t : Transition) : Prop :=
  set_maintenance_blocked t = true → to_state t = Blocked.

Lemma Transition_apply_wf t p : well_marked t → wf_plan p → wf_plan (Transition_apply t p).
Proof. intros Ht [Hv Hm Hc Hi Hs]. split; try done. Qed.

(** A transition that reports success leaves the intended state and
    audit fields in the store, whichever way it was persisted, also when
    the write itself reported a failure and the stored plan had to confirm
    it.  Executable content never changes. *)
Theorem transition_success db now p t persistence p' db' :
  (∀ environment, persistence = WithEnvironment environment →
     object_id environment ≠ plan_id_of p) →
  well_marked t → wf_plan p → i64_min ≤ created_at p ≤ i64_max →
  transition db now p t persistence = (p', db', Ok tt) →
  executable_digest p' = executable_digest p ∧
  ∃ stored, load db' (plan_id_of p) = Ok stored ∧ intended stored = intended p'.
Proof.
  intros Henv Ht Hw Hc H. unfold transition in H.
  assert (Hw' : wf_plan (Transition_apply t p)) by (by apply Transition_apply_wf).
  assert (Hread : ∀ existing, from_object (keep_overrides existing (to_object now (Transition_apply t p)))
                              = Ok (Transition_apply t p)).
  { intros existing. rewrite from_object_keep_overrides.
    by apply from_object_complete; [apply to_object_describes|]. }
  assert (Hplain : from_object (to_object now (Transition_apply t p)) = Ok (Transition_apply t p))
    by apply (Hread None).
  assert (Hid : ∀ existing, object_id (keep_overrides existing (to_object now (Transition_apply t p)))
                            = plan_id_of p) by (by intros [|]).
  destruct persistence as [|environment|confirm write].
  - destruct (store _ _ _) as [db1|] eqn:Hs; simplify_eq. split; [done|].
    unfold store, validated_plan_object in Hs. ok_inv Hs. ok_inv Hg. simplify_eq.
    exists (Transition_apply t p). unfold load. rewrite Hid, lookup_insert_eq. simpl.
    by rewrite Hread.
  - destruct (store_with_environment _ _ _ _) as [db1|] eqn:Hs; simplify_eq. split; [done|].
    unfold store_with_environment, validated_plan_object in Hs. ok_inv Hs. ok_inv Hg. simplify_eq.
    exists (Transition_apply t p). unfold load.
    rewrite Hid, lookup_insert_ne, lookup_insert_eq by (by apply (Henv environment)). simpl. by rewrite Hread.
  - destruct write.
    + simplify_eq. split; [done|]. exists (Transition_apply t p). unfold load. simpl.
      by rewrite lookup_insert_eq; simpl; rewrite Hplain.
    + destruct confirm; [|done]. simpl in H. destruct (load _ _) as [stored|] eqn:Hl; [|done].
      case_decide as Heq; [|done]. injection H as <- <-. split; [done|]. exists stored. by split.
    + destruct confirm; [|done]. simpl in H. destruct (load _ _) as [stored|] eqn:Hl; [|done].
      case_decide as Heq; [|done]. injection H as <- <-. split; [done|]. exists stored. by split.
Qed.
End Transitions.

(** ** A concrete encoding

    Plans written as the binary digits of their code; enough to show that the
    assumptions on the encoding can hold. *)
Module PlainEncoding.
Definition action_code (a : Action) : nat :=
  match a with
  | Install => 0 | Upgrade => 1 | Downgrade => 2 | Rollback => 3 | Restart => 4 | Remove => 5
  end.

Definition code_action (n : nat) : Action :=
  match n with
  | 0 => Install | 1 => Upgrade | 2 => Downgrade | 3 => Rollback | 4 => Restart | _ => Remove
  end%nat.

#[export] Instance Action_countable : Countable Action.
Proof. apply (inj_countable' action_code code_action). by intros []. Defined.

Definition host_code (a : HostAction) : nat :=
  match a with HostInstall => 0 | HostUninstall => 1 | HostHealth => 2 end.

Definition code_host (n : nat) : HostAction :=
  match n with 0 => HostInstall | 1 => HostUninstall | _ => HostHealth end%nat.

#[export] Instance HostAction_countable : Countable HostAction.
Proof. apply (inj_countable' host_code code_host). by intros []. Defined.

Definition state_code (s : PlanState) : nat :=
  match s with Computed => 0 | Running => 1 | Blocked => 2 | Succeeded => 3 | Failed => 4 end.

Definition code_state (n : nat) : PlanState :=
  match n with 0 => Computed | 1 => Running | 2 => Blocked | 3 => Succeeded | _ => Failed end%nat.

#[export] Instance PlanState_countable : Countable PlanState.
Proof. apply (inj_countable' state_code code_state). by intros []. Defined.

#[export] Instance HostStep_countable : Countable HostStep.
Proof.
  apply (inj_countable' (λ h, (host_action h, expected_generation h))
           (λ '(a, g), {| host_action := a; expected_generation := g |})). by intros [].
Defined.

#[export] Instance ReleasePin_countable : Countable ReleasePin.
Proof.
  apply (inj_countable' (λ r, (pin_release_id r, pin_digest r, pin_artifact_digest r, pin_workdir r))
           (λ '(i, d, a, w), {| pin_release_id := i; pin_digest := d; pin_artifact_digest := a;
                                pin_workdir := w |})). by intros [].
Defined.

#[export] Instance Step_countable : Countable Step.
Proof.
  apply (inj_countable
    (λ p, [encode (step_id p); encode (step_order p); encode (step_product p); encode (step_instance p); encode (step_action p); encode (step_from p); encode (step_to p); encode (step_release_id p); encode (step_release_digest p); encode (step_artifact_digest p); encode (step_workdir p); encode (step_restore p); encode (step_host p)])
    (λ l, match l with
     | [e0; e1; e2; e3; e4; e5; e6; e7; e8; e9; e10; e11; e12] =>
       x0 ← decode e0;
       x1 ← decode e1;
       x2 ← decode e2;
       x3 ← decode e3;
       x4 ← decode e4;
       x5 ← decode e5;
       x6 ← decode e6;
       x7 ← decode e7;
       x8 ← decode e8;
       x9 ← decode e9;
       x10 ← decode e10;
       x11 ← decode e11;
       x12 ← decode e12;
       Some {| step_id := x0; step_order := x1; step_product := x2; step_instance := x3; step_action := x4; step_from := x5; step_to := x6; step_release_id := x7; step_release_digest := x8; step_artifact_digest := x9; step_workdir := x10; step_restore := x11; step_host := x12 |}
     | _ => None
     end)).
  intros []. repeat (cbn -[encode decode]; rewrite decode_encode). reflexivity.
Defined.

#[export] Instance DesiredStateInput_countable : Countable DesiredStateInput.
Proof.
  apply (inj_countable
    (λ p, [encode (input_product p); encode (input_instance p); encode (input_channel p); encode (input_channel_id p); encode (input_desired_version p); encode (input_release_id p); encode (input_release_digest p); encode (input_artifact_digest p); encode (input_deployed_version p)])
    (λ l, match l with
     | [e0; e1; e2; e3; e4; e5; e6; e7; e8] =>
       x0 ← decode e0;
       x1 ← decode e1;
       x2 ← decode e2;
       x3 ← decode e3;
       x4 ← decode e4;
       x5 ← decode e5;
       x6 ← decode e6;
       x7 ← decode e7;
       x8 ← decode e8;
       Some {| input_product := x0; input_instance := x1; input_channel := x2; input_channel_id := x3; input_desired_version := x4; input_release_id := x5; input_release_digest := x6; input_artifact_digest := x7; input_deployed_version := x8 |}
     | _ => None
     end)).
  intros []. repeat (cbn -[encode decode]; rewrite decode_encode). reflexivity.
Defined.

#[export] Instance Plan_countable : Countable Plan.
Proof.
  apply (inj_countable
    (λ p, [encode (format_version p); encode (plan_id_of p); encode (content_id p); encode (plan_environment p); encode (created_at p); encode (inputs p); encode (steps p); encode (plan_state p); encode (gates_skipped p); encode (status_detail p); encode (maintenance_blocked p); encode (prior_warnings p); encode (recalled_recovery_reason p); encode (credential_runway p)])
    (λ l, match l with
     | [e0; e1; e2; e3; e4; e5; e6; e7; e8; e9; e10; e11; e12; e13] =>
       x0 ← decode e0;
       x1 ← decode e1;
       x2 ← decode e2;
       x3 ← decode e3;
       x4 ← decode e4;
       x5 ← decode e5;
       x6 ← decode e6;
       x7 ← decode e7;
       x8 ← decode e8;
       x9 ← decode e9;
       x10 ← decode e10;
       x11 ← decode e11;
       x12 ← decode e12;
       x13 ← decode e13;
       Some {| format_version := x0; plan_id_of := x1; content_id := x2; plan_environment := x3; created_at := x4; inputs := x5; steps := x6; plan_state := x7; gates_skipped := x8; status_detail := x9; maintenance_blocked := x10; prior_warnings := x11; recalled_recovery_reason := x12; credential_runway := x13 |}
     | _ => None
     end)).
  intros []. repeat (cbn -[encode decode]; rewrite decode_encode). reflexivity.
Defined.

Fixpoint bits (p : positive) : string :=
  match p with
  | xH => ""
  | xO q => String "0" (bits q)
  | xI q => String "1" (bits q)
  end.

Fixpoint of_bits (s : string) : positive :=
  match s with
  | EmptyString => xH
  | String c rest => if decide (c = "1"%char) then xI (of_bits rest) else xO (of_bits rest)
  end.

Lemma of_bits_bits p : of_bits (bits p) = p.
Proof. induction p; simpl; [by rewrite IHp|by rewrite IHp|done]. Qed.

Definition instance : PlanEncoding := {|
  content_json := λ v e c i s r,
    bits (encode [encode v; encode e; encode c; encode i; encode s; encode r]);
  executable_json := λ v id c e t i s r,
    bits (encode [encode v; encode id; encode c; encode e; encode t; encode i; encode s; encode r]);
  plan_json := λ p, bits (encode p);
  plan_of_json := λ s, decode (of_bits s);
  sha256_hex := λ s, String.substring 0 16 s
|}.

Lemma encoding_laws : PlanEncodingLaws instance.
Proof. split. intros p. simpl. rewrite of_bits_bits. apply decode_encode. Qed.
End PlainEncoding.

Module PlanExamples.
#[local] Existing Instance PlainEncoding.instance.
#[local] Existing Instance PlainEncoding.encoding_laws.

(** A plan with nothing to do, as the planner creates it. *)
Definition content : string := content_address "prod" 7 [] [] None.

Definition no_op (s : PlanState) (detail : string) : Plan := {|
  format_version := 1; plan_id_of := plan_id "prod" 7 content; content_id := content;
  plan_environment := "prod"; created_at := 7; inputs := []; steps := []; plan_state := s;
  gates_skipped := None; status_detail := detail; maintenance_blocked := false;
  prior_warnings := []; recalled_recovery_reason := None; credential_runway := None |}.

Lemma no_op_wf s detail : wf_plan (no_op s detail).
Proof. split; [done..|]. intros i x Hi. by destruct i. Defined.

Lemma to_object_roundtrip_witness :
  from_object (to_object 9 (no_op Computed "")) = Ok (no_op Computed "").
Proof.
  apply (to_object_roundtrip 9 (no_op Computed "")); [apply no_op_wf|].
  vm_compute. by split.
Defined.

Definition before : Store := {[plan_id "prod" 7 content := to_object 8 (no_op Computed "")]}.
Definition after : Store :=
  <[plan_id "prod" 7 content := to_object 9 (no_op Succeeded "no-op")]> before.

Lemma after_stored : store before 9 (no_op Succeeded "no-op") = Ok after.
Proof. vm_compute. reflexivity. Qed.

Lemma plan_history_witness :
  load before (plan_id "prod" 7 content) = Ok (no_op Computed "")
  ∧ rtc lifecycle_edge Computed Succeeded.
Proof.
  assert (Hb : load before (plan_id "prod" 7 content) = Ok (no_op Computed ""))
    by (vm_compute; reflexivity).
  split; [exact Hb|].
  assert (Ha : load after (plan_id "prod" 7 content) = Ok (no_op Succeeded "no-op"))
    by (vm_compute; reflexivity).
  exact (proj1 (proj2 (plan_history before after (plan_id "prod" 7 content) (no_op Computed "")
    (no_op Succeeded "no-op")
    (rtc_once before after (ex_intro _ 9 (ex_intro _ (no_op Succeeded "no-op") after_stored)))
    Hb Ha))).
Defined.

(** A finished plan cannot be started again. *)
Example finished_is_final :
  store after 10 (no_op Running "") =
  Err (InvalidTransition (plan_id "prod" 7 content) Succeeded Running).
Proof. vm_compute. reflexivity. Qed.

(** A write that failed after it was committed is confirmed by the store. *)
Lemma transition_success_witness :
  ∃ stored, load after (plan_id "prod" 7 content) = Ok stored
            ∧ intended stored = intended (no_op Succeeded "no-op").
Proof.
  refine (proj2 (transition_success before 9 (no_op Computed "")
    (Transition_new Succeeded "no-op") (Guarded true CommittedUnconfirmed)
    (no_op Succeeded "no-op") after _ _ (no_op_wf _ _) _ _)).
  - intros environment H. discriminate H.
  - intros H. discriminate H.
  - vm_compute. split; discriminate.
  - vm_compute. reflexivity.
Defined.
End PlanExamples.
