(* ===== verification/ObjectStore.v ===== *)
(** * The object tables of the embedded store

    [storage/sqlite_objects/upserts.rs], [codec.rs], the reads and writes of
    [object_writes.rs], [ensure_environment_active_in] of [storage.rs] and the
    retirement evidence of [environment.rs].

    A table is a finite map from its primary key; the [UNIQUE] constraints of
    [schema.rs] are checks of the insert, its foreign keys an invariant.  A
    JSON column holds the value its text parses to, or the raw text. *)

From S2P Require Import Prelude RustStr Kinds Plan.

(** ** JSON columns *)

Inductive json :=
| JNull
| JBool (b : bool)
| JInt (z : Z)
| JFloat (text : string)
| JString (s : string)
| JArray (l : list json)
| JObject (fields : gmap string json).

Inductive JsonColumn :=
| JsonValue (v : json)
| RawText (text : string).

(** [serde_json::to_string]. *)
Class JsonText := { json_text : json → string }.

Definition json_get (v : json) (key : string) : option json :=
  match v with JObject fields => fields !! key | _ => None end.

Definition json_str (v : json) : option string :=
  match v with JString s => Some s | _ => None end.

Definition json_i64 (v : json) : option Z :=
  match v with
  | JInt z => if bool_decide (i64_min ≤ z ≤ i64_max) then Some z else None
  | _ => None
  end.

Definition column_value (c : JsonColumn) : option json :=
  match c with JsonValue v => Some v | RawText _ => None end.

(** ** Retirement evidence *)

Record EnvironmentRetirement := {
  retirement_reason : string; retirement_actor : string; retired_at : Z
}.

Definition RETIREMENT_REASON : string := "tenkai.retirement.reason".
Definition RETIREMENT_ACTOR : string := "tenkai.retirement.actor".
Definition RETIREMENT_AT : string := "tenkai.retirement.at".
Definition TENANT_RETIREMENT_KEY : string := "_tenkai_retirement".

Definition retirement_from_properties (ps : gmap string string) : option EnvironmentRetirement :=
  why ← ps !! RETIREMENT_REASON;
  actor ← ps !! RETIREMENT_ACTOR;
  raw ← ps !! RETIREMENT_AT;
  at_ms ← parse_i64 raw;
  Some {| retirement_reason := why; retirement_actor := actor; retired_at := at_ms |}.

Definition retirement_from_object (o : Object) : option EnvironmentRetirement :=
  retirement_from_properties (properties o).

Definition is_retired_object (o : Object) : bool := is_some_b (retirement_from_object o).

(** Decoding of [EnvironmentRetirement]. *)
Definition retirement_of_json (v : json) : option EnvironmentRetirement :=
  why ← json_get v "reason" ≫= json_str;
  actor ← json_get v "actor" ≫= json_str;
  at_ms ← json_get v "retired_at" ≫= json_i64;
  Some {| retirement_reason := why; retirement_actor := actor; retired_at := at_ms |}.

Definition retirement_from_configuration_json (c : JsonColumn) : option EnvironmentRetirement :=
  v ← column_value c;
  let from_properties :=
    ps ← json_get v "properties";
    why ← json_get ps RETIREMENT_REASON ≫= json_str;
    actor ← json_get ps RETIREMENT_ACTOR ≫= json_str;
    raw ← json_get ps RETIREMENT_AT ≫= json_str;
    at_ms ← parse_i64 raw;
    Some {| retirement_reason := why; retirement_actor := actor; retired_at := at_ms |} in
  match from_properties with
  | Some r => Some r
  | None => json_get v TENANT_RETIREMENT_KEY ≫= retirement_of_json
  end.

(** ** Tables *)

Record EnvironmentRow := {
  env_revision : Z; configuration_json : JsonColumn; env_retired_at : option Z
}.

Record ReleaseRow := {
  rel_product : string; rel_version : string; rel_content_digest : string;
  descriptor_json : JsonColumn
}.

Record ChannelRow := {
  chan_product : string; chan_name : string; chan_release : string; chan_revision : Z
}.

Record PlanRow := {
  row_environment_id : string; row_format_version : Z; row_content_digest : string;
  row_plan_json : string; row_status : PlanState; row_status_detail : string
}.

Record RuntimeClaim := {
  claim_environment : string; claim_expires_at : Z; claim_completed : bool
}.

Record Tables := {
  environments : gmap string EnvironmentRow;
  releases : gmap string ReleaseRow;
  channels : gmap string ChannelRow;
  plans : gmap string PlanRow;
  catalog_objects : gmap string Object;
  (** [catalog_object_properties]: the kind and the properties of an object. *)
  object_properties : gmap string (string * gmap string string);
  (** [runtime_claims], by plan. *)
  runtime_claims : gmap string RuntimeClaim
}.

Definition empty_tables : Tables := {|
  environments := ∅; releases := ∅; channels := ∅; plans := ∅; catalog_objects := ∅;
  object_properties := ∅; runtime_claims := ∅ |}.

Definition with_environment (t : Tables) (id : string) (r : EnvironmentRow) : Tables := {|
  environments := <[id := r]> (environments t); releases := releases t; channels := channels t;
  plans := plans t; catalog_objects := catalog_objects t;
  object_properties := object_properties t; runtime_claims := runtime_claims t |}.

Definition with_release (t : Tables) (id : string) (r : ReleaseRow) : Tables := {|
  environments := environments t; releases := <[id := r]> (releases t); channels := channels t;
  plans := plans t; catalog_objects := catalog_objects t;
  object_properties := object_properties t; runtime_claims := runtime_claims t |}.

Definition with_channel (t : Tables) (id : string) (r : ChannelRow) : Tables := {|
  environments := environments t; releases := releases t; channels := <[id := r]> (channels t);
  plans := plans t; catalog_objects := catalog_objects t;
  object_properties := object_properties t; runtime_claims := runtime_claims t |}.

Definition with_plan (t : Tables) (id : string) (r : PlanRow) : Tables := {|
  environments := environments t; releases := releases t; channels := channels t;
  plans := <[id := r]> (plans t); catalog_objects := catalog_objects t;
  object_properties := object_properties t; runtime_claims := runtime_claims t |}.

Inductive store_error :=
| RetiredUpdate (environment : string)
| ActiveDeliveryWork (environment : string)
| RetiredEnvironmentRefuses (environment operation : string)
| ReleaseConflict (id : string)
| UniqueViolated (first second : string)
| RevisionOverflow
| StoredPlanUnreadable (id : string)
| StillReferenced (table id : string).

Definition KIND_ENVIRONMENT : string := "tenkai.environment".
Definition KIND_RELEASE : string := "tenkai.release".
Definition KIND_CHANNEL : string := "tenkai.channel".

(** ** Encoding of objects *)

(** [StoredObject::from_proto] under [encode_object]: the external id is not
    kept. *)
Definition encode_object (o : Object) : JsonColumn := JsonValue (JObject (list_to_map [
  ("id", JString (object_id o)); ("kind", JString (object_kind o));
  ("name", JString (object_name o)); ("namespace", JString (object_namespace o));
  ("properties", JObject (JString <$> properties o));
  ("created", JInt (created o)); ("updated", JInt (updated o))])).

Definition strings_of_json (v : json) : option (gmap string string) :=
  match v with
  | JObject fields =>
    let strings := omap json_str fields in
    if bool_decide (dom strings = dom fields) then Some strings else None
  | _ => None
  end.

(** Decoding of [StoredObject], and [into_proto]. *)
Definition stored_object (c : JsonColumn) : option Object :=
  v ← column_value c;
  id ← json_get v "id" ≫= json_str;
  kind ← json_get v "kind" ≫= json_str;
  name ← json_get v "name" ≫= json_str;
  namespace ← json_get v "namespace" ≫= json_str;
  ps ← json_get v "properties" ≫= strings_of_json;
  created_ms ← json_get v "created" ≫= json_i64;
  updated_ms ← json_get v "updated" ≫= json_i64;
  Some {| object_id := id; object_kind := kind; object_name := name;
          object_namespace := namespace; external_id := ""; properties := ps;
          created := created_ms; updated := updated_ms |}.

(** ** Writes *)

Definition replace_catalog_properties (t : Tables) (o : Object) : Tables := {|
  environments := environments t; releases := releases t; channels := channels t;
  plans := plans t; catalog_objects := catalog_objects t;
  object_properties := <[object_id o := (object_kind o, properties o)]> (object_properties t);
  runtime_claims := runtime_claims t |}.

Definition upsert_catalog_in (t : Tables) (o : Object) : Tables :=
  replace_catalog_properties {|
    environments := environments t; releases := releases t; channels := channels t;
    plans := plans t; catalog_objects := <[object_id o := o]> (catalog_objects t);
    object_properties := object_properties t; runtime_claims := runtime_claims t |} o.

(** The next revision of a row; SQLite stores an [i64]. *)
Definition next_revision (current : option Z) : result Z store_error :=
  let next := match current with Some v => v + 1 | None => 1 end in
  bail_if i64_max <? next with RevisionOverflow in Ok next.

(** [claims_at] and [lease_at] are the two clock readings, [apply_lease]
    the status and expiry of the environment's apply lease. *)
Definition upsert_environment_in (claims_at lease_at : Z)
    (apply_lease : string → option (string * Z)) (t : Tables) (o : Object) :
    result Tables store_error :=
  let existing := environments t !! object_id o in
  let was_retired := is_some_b (existing ≫= λ r,
    retirement_from_configuration_json (configuration_json r)) in
  bail_if was_retired with (RetiredUpdate (object_name o)) in
  let active_runtime_claim := bool_decide (map_Exists (λ _ c,
    claim_environment c = object_name o ∧ claims_at < claim_expires_at c
    ∧ claim_completed c = false) (runtime_claims t)) in
  let lease_active := is_some_and (apply_lease (object_name o))
    (λ l, bool_decide (l.1 = "active") && (lease_at <? l.2)) in
  bail_if is_retired_object o && (active_runtime_claim || lease_active)
    with (ActiveDeliveryWork (object_name o)) in
  let? next := next_revision (env_revision <$> existing) in
  Ok (upsert_catalog_in (with_environment t (object_id o) {|
    env_revision := next; configuration_json := encode_object o;
    env_retired_at := retired_at <$> retirement_from_object o |}) o).

Definition property_or (o : Object) (key : string) (other : string) : string :=
  default other (properties o !! key).

Definition upsert_release_in (t : Tables) (o : Object) : result Tables store_error :=
  let product := property_or o "product" "" in
  let version := property_or o "version" "" in
  let digest := property_or o "digest" (property_or o "content_digest" "") in
  let id := if str_is_empty (object_id o) then release_id product version else object_id o in
  match releases t !! id with
  | Some row =>
    bail_if negb (bool_decide (rel_content_digest row = digest)) with (ReleaseConflict id) in
    Ok (upsert_catalog_in (with_release t id {|
      rel_product := rel_product row; rel_version := rel_version row;
      rel_content_digest := rel_content_digest row; descriptor_json := encode_object o |}) o)
  | None =>
    bail_if bool_decide (map_Exists (λ _ r, rel_product r = product ∧ rel_version r = version)
                           (releases t)) with (UniqueViolated product version) in
    Ok (upsert_catalog_in (with_release t id {|
      rel_product := product; rel_version := version; rel_content_digest := digest;
      descriptor_json := encode_object o |}) o)
  end.

(** An existing channel keeps its product and name; the insert of a new one
    refuses a second row for the same product and name. *)
Definition upsert_channel_in (t : Tables) (o : Object) : result Tables store_error :=
  let product := property_or o "product" "" in
  let name := property_or o "name" (property_or o "channel" (object_name o)) in
  let release := property_or o "current_release" "" in
  let existing := channels t !! object_id o in
  let? next := next_revision (chan_revision <$> existing) in
  let release_exists := negb (str_is_empty release) && is_some_b (releases t !! release) in
  if negb release_exists then Ok (upsert_catalog_in t o)
  else match existing with
  | Some row => Ok (upsert_catalog_in (with_channel t (object_id o) {|
      chan_product := chan_product row; chan_name := chan_name row; chan_release := release;
      chan_revision := next |}) o)
  | None =>
    bail_if bool_decide (map_Exists (λ _ r, chan_product r = product ∧ chan_name r = name)
                           (channels t)) with (UniqueViolated product name) in
    Ok (upsert_catalog_in (with_channel t (object_id o) {|
      chan_product := product; chan_name := name; chan_release := release;
      chan_revision := next |}) o)
  end.

(** [ensure_environment_active_in]: an environment named by its id or by its
    name; one that has no row is active. *)
Definition environment_row (t : Tables) (environment : string) : option EnvironmentRow :=
  let id := if is_some_b (strip_prefix "tenkai:env:" environment) then environment else env_id environment in
  match environments t !! id with
  | Some r => Some r
  | None => if bool_decide (id ≠ environment) then environments t !! environment else None
  end.

Definition ensure_environment_active_in (t : Tables) (environment operation : string) :
    result unit store_error :=
  bail_if is_some_b (environment_row t environment ≫= λ r,
    retirement_from_configuration_json (configuration_json r))
    with (RetiredEnvironmentRefuses environment operation) in
  Ok tt.

Definition PlanStatus_parse (value : string) : option PlanState :=
  if bool_decide (value = "computed") then Some Computed
  else if bool_decide (value = "running") then Some Running
  else if bool_decide (value = "blocked") then Some Blocked
  else if bool_decide (value = "succeeded") then Some Succeeded
  else if bool_decide (value = "failed") then Some Failed
  else None.

(** The environment a plan's foreign key needs when none was registered. *)
Definition implied_environment (p : Plan) : Object := {|
  object_id := env_id (plan_environment p); object_kind := KIND_ENVIRONMENT;
  object_name := plan_environment p; object_namespace := NS; external_id := "";
  properties := ∅; created := created_at p; updated := created_at p |}.

Section Objects.
Context {E : PlanEncoding} {J : JsonText}.

Definition upsert_plan_in (t : Tables) (o : Object) : result Tables store_error :=
  match properties o !! "plan" ≫= λ raw, pair raw <$> plan_of_json raw with
  | None => Ok (upsert_catalog_in t o)
  | Some (raw, plan) =>
    let environment_id := env_id (plan_environment plan) in
    let existing := plans t !! object_id o in
    let? _ := if is_some_b existing then Ok tt
              else ensure_environment_active_in t (plan_environment plan) "new plans" in
    let t1 := if is_some_b (environments t !! environment_id) then t
              else with_environment t environment_id {|
                env_revision := 1; configuration_json := encode_object (implied_environment plan);
                env_retired_at := None |} in
    let status := default Computed (properties o !! "status" ≫= PlanStatus_parse) in
    let row := match existing with
      | Some r => {|
          row_environment_id := row_environment_id r;
          row_format_version := row_format_version r;
          row_content_digest := row_content_digest r; row_plan_json := raw;
          row_status := status; row_status_detail := status_detail plan |}
      | None => {|
          row_environment_id := environment_id; row_format_version := format_version plan;
          row_content_digest := property_or o "content_digest" ""; row_plan_json := raw;
          row_status := status; row_status_detail := status_detail plan |}
      end in
    Ok (upsert_catalog_in (with_plan t1 (object_id o) row) o)
  end.

Definition upsert_object_in (claims_at lease_at : Z)
    (apply_lease : string → option (string * Z)) (t : Tables) (o : Object) :
    result Tables store_error :=
  if bool_decide (object_kind o = KIND_ENVIRONMENT)
  then upsert_environment_in claims_at lease_at apply_lease t o
  else if bool_decide (object_kind o = KIND_RELEASE) then upsert_release_in t o
  else if bool_decide (object_kind o = KIND_CHANNEL) then upsert_channel_in t o
  else if bool_decide (object_kind o = KIND_PLAN) then upsert_plan_in t o
  else Ok (upsert_catalog_in t o).

(** [delete_object]: foreign keys are enforced, so a row that another still
    refers to is not deleted, and then nothing is.  [referred_plan] and
    [referred_environment] tell whether [leases], [receipts] or [rollbacks], which
    are other tables, refer to the row; so are the links deleted along. *)
Definition delete_object_in (referred_plan referred_environment : bool) (t : Tables) (id : string) :
    result Tables store_error :=
  bail_if is_some_b (plans t !! id) && referred_plan with (StillReferenced "plans" id) in
  let plans' := delete id (plans t) in
  bail_if is_some_b (environments t !! id)
          && (referred_environment || bool_decide (map_Exists (λ _ p, row_environment_id p = id) plans'))
    with (StillReferenced "environments" id) in
  bail_if is_some_b (releases t !! id) && bool_decide (map_Exists (λ _ c, chan_release c = id) (channels t))
    with (StillReferenced "releases" id) in
  Ok {| environments := delete id (environments t); releases := delete id (releases t);
        channels := delete id (channels t); plans := plans';
        catalog_objects := delete id (catalog_objects t);
        object_properties := delete id (object_properties t); runtime_claims := runtime_claims t |}.

(** ** Reads *)

Definition environment_record_to_object (id : string) (r : EnvironmentRow) : Object :=
  let fallback := {|
    object_id := id; object_kind := KIND_ENVIRONMENT;
    object_name := default id (strip_prefix "tenkai:env:" id); object_namespace := NS;
    external_id := "";
    properties := {["configuration" := match configuration_json r with
                                       | JsonValue v => json_text v | RawText s => s end]};
    created := 0; updated := 0 |} in
  match stored_object (configuration_json r) with
  | Some o => if bool_decide (object_kind o = KIND_ENVIRONMENT) || bool_decide (object_id o = id)
              then o else fallback
  | None => fallback
  end.

Definition release_record_to_object (id : string) (r : ReleaseRow) : Object :=
  let fallback := {|
    object_id := id; object_kind := KIND_RELEASE;
    object_name := rel_product r +:+ "@" +:+ rel_version r; object_namespace := NS;
    external_id := "";
    properties := list_to_map [("product", rel_product r); ("version", rel_version r);
      ("digest", rel_content_digest r); ("content_digest", rel_content_digest r)];
    created := 0; updated := 0 |} in
  match stored_object (descriptor_json r) with
  | Some o => if bool_decide (object_kind o = KIND_RELEASE) || bool_decide (object_id o = id)
              then o else fallback
  | None => fallback
  end.

Definition channel_to_object (t : Tables) (id : string) (r : ChannelRow) : Object :=
  match catalog_objects t !! id with
  | Some stored => stored
  | None => {|
      object_id := id; object_kind := KIND_CHANNEL; object_name := chan_name r;
      object_namespace := NS; external_id := "";
      properties := list_to_map [("product", chan_product r); ("name", chan_name r);
        ("current_release", chan_release r)];
      created := 0; updated := 0 |}
  end.

Definition plan_record_to_object (now : Z) (id : string) (r : PlanRow) :
    result Object store_error :=
  let? p := ok_or (plan_of_json (row_plan_json r)) (StoredPlanUnreadable id) in
  Ok (to_object now {|
    format_version := format_version p; plan_id_of := plan_id_of p; content_id := content_id p;
    plan_environment := plan_environment p; created_at := created_at p; inputs := inputs p;
    steps := steps p; plan_state := row_status r; gates_skipped := gates_skipped p;
    status_detail := row_status_detail r; maintenance_blocked := maintenance_blocked p;
    prior_warnings := prior_warnings p; recalled_recovery_reason := recalled_recovery_reason p;
    credential_runway := credential_runway p |}).

Definition is_strict_authority (kind : string) : bool :=
  bool_decide (kind ∈ [KIND_PLAN; KIND_ENVIRONMENT; KIND_RELEASE]).

Definition get_object (now : Z) (t : Tables) (id : string) : result (option Object) store_error :=
  match plans t !! id with
  | Some row =>
    match catalog_objects t !! id with
    | Some stored => Ok (Some stored)
    | None => let? o := plan_record_to_object now id row in Ok (Some o)
    end
  | None =>
    match environments t !! id with
    | Some row => Ok (Some (environment_record_to_object id row))
    | None =>
      match releases t !! id with
      | Some row => Ok (Some (release_record_to_object id row))
      | None =>
        match channels t !! id with
        | Some row => Ok (Some (channel_to_object t id row))
        | None => Ok (match catalog_objects t !! id with
            | Some o => if is_strict_authority (object_kind o) then None else Some o
            | None => None
            end)
        end
      end
    end
  end.
End Objects.
