(* ===== verification/Leases.v ===== *)
(** * Fenced leases of the embedded store

    [storage/sqlite_objects/namespaced_leases.rs] and the guarded writes of
    [storage/sqlite_objects/object_writes.rs]: acquire, refresh, release and
    takeover of a namespaced lease, and object writes that require the active
    holder's fencing token.  Each operation is one immediate transaction, so
    a sequence of operations is a sequence of steps.

    The clock is read by the operations themselves, sometimes twice; every
    reading is an argument.  A fencing token is a fresh UUID, also an
    argument.  Provider events and feedback observations written along with
    objects are other tables. *)

From S2P Require Import Prelude RustStr Kinds Plan ObjectStore.

Record Lease := {
  lease_namespace : string;
  lease_key : string;
  generation : Z;
  fencing_token : string;
  owner : string;
  lease_status : string;
  acquired_at_ms : Z;
  refreshed_at_ms : Z;
  expires_at_ms : Z;
  released_at_ms : Z;
  site_id : string
}.

#[export] Instance Lease_eq_dec : EqDecision Lease.
Proof. solve_decision. Defined.

Inductive lease_error :=
| TtlNotPositive
| LeaseAlreadyHeld (namespace key : string)
| LeaseDoesNotExist (namespace key : string)
| NotActiveHolder (namespace key : string)
| TakeoverPreconditionFailed
| ObjectAlreadyExists (id : string)
| ObjectDoesNotExist (id : string)
| UpdateIsEmpty
| DuplicateIdentities
| StoreFailed (error : store_error).

(** The rows of [catalog_leases] and the object tables. *)
Record Catalog := {
  catalog_leases : gmap (string * string) Lease;
  tables : Tables
}.

Definition with_leases (c : Catalog) (l : gmap (string * string) Lease) : Catalog :=
  {| catalog_leases := l; tables := tables c |}.

Definition with_tables (c : Catalog) (t : Tables) : Catalog :=
  {| catalog_leases := catalog_leases c; tables := t |}.

Definition ENVIRONMENT_LEASE_NAMESPACE : string := "tenkai/environment-execution".

Definition u64_saturating_succ (g : Z) : Z := Z.min u64_max (g + 1).

Definition save_lease (c : Catalog) (l : Lease) : Catalog :=
  with_leases c (<[(lease_namespace l, lease_key l) := l]> (catalog_leases c)).

Definition is_active (l : Lease) (now : Z) : bool :=
  bool_decide (lease_status l = "active") && (now <? expires_at_ms l).

(** The apply lease a retirement looks at. *)
Definition apply_lease (c : Catalog) (environment : string) : option (string * Z) :=
  l ← catalog_leases c !! (ENVIRONMENT_LEASE_NAMESPACE, environment);
  Some (lease_status l, expires_at_ms l).

Section Leases.
Context {E : PlanEncoding} {J : JsonText}.

Definition new_lease (namespace key holder token : string) (generation now ttl_ms : Z) : Lease := {|
  lease_namespace := namespace; lease_key := key; generation := generation;
  fencing_token := token; owner := holder; lease_status := "active"; acquired_at_ms := now;
  refreshed_at_ms := now; expires_at_ms := i64_saturating_add now ttl_ms; released_at_ms := 0;
  site_id := "" |}.

Definition acquire_namespaced_lease (c : Catalog) (now : Z)
    (namespace key holder token : string) (ttl_ms : Z) : result (Lease * Catalog) lease_error :=
  bail_if ttl_ms <=? 0 with TtlNotPositive in
  let? _ := if bool_decide (namespace = ENVIRONMENT_LEASE_NAMESPACE)
            then map_err StoreFailed
                   (ensure_environment_active_in (tables c) key "new apply leases")
            else Ok tt in
  let current := catalog_leases c !! (namespace, key) in
  bail_if is_some_and current (λ l, is_active l now) with (LeaseAlreadyHeld namespace key) in
  let g := match current with Some l => u64_saturating_succ (generation l) | None => 1 end in
  let lease := new_lease namespace key holder token g now ttl_ms in
  Ok (lease, save_lease c lease).

Definition require_active_lease (c : Catalog) (now : Z) (namespace key token : string) :
    result Lease lease_error :=
  let? lease := ok_or (catalog_leases c !! (namespace, key)) (LeaseDoesNotExist namespace key) in
  bail_if negb (bool_decide (lease_status lease = "active")
                && bool_decide (fencing_token lease = token)
                && (now <? expires_at_ms lease)) with (NotActiveHolder namespace key) in
  Ok lease.

Definition refresh_lease (c : Catalog) (checked_at now : Z) (namespace key token : string)
    (ttl_ms : Z) : result (Lease * Catalog) lease_error :=
  let? l := require_active_lease c checked_at namespace key token in
  let lease := {|
    lease_namespace := lease_namespace l; lease_key := lease_key l; generation := generation l;
    fencing_token := fencing_token l; owner := owner l; lease_status := lease_status l;
    acquired_at_ms := acquired_at_ms l; refreshed_at_ms := now;
    expires_at_ms := i64_saturating_add now ttl_ms; released_at_ms := released_at_ms l;
    site_id := site_id l |} in
  Ok (lease, save_lease c lease).

Definition refresh_namespaced_lease (c : Catalog) (checked_at now : Z)
    (namespace key token : string) (ttl_ms : Z) : result (Lease * Catalog) lease_error :=
  bail_if ttl_ms <=? 0 with TtlNotPositive in
  refresh_lease c checked_at now namespace key token ttl_ms.

Definition release_namespaced_lease (c : Catalog) (checked_at now : Z)
    (namespace key token : string) : result (Lease * Catalog) lease_error :=
  let? l := require_active_lease c checked_at namespace key token in
  let lease := {|
    lease_namespace := lease_namespace l; lease_key := lease_key l; generation := generation l;
    fencing_token := fencing_token l; owner := owner l; lease_status := "released";
    acquired_at_ms := acquired_at_ms l; refreshed_at_ms := refreshed_at_ms l;
    expires_at_ms := expires_at_ms l; released_at_ms := now; site_id := site_id l |} in
  Ok (lease, save_lease c lease).

Definition takeover_namespaced_lease (c : Catalog) (checked_at now : Z)
    (namespace key holder token expected_token : string) (expected_expires_at ttl_ms : Z) :
    result (Lease * Catalog) lease_error :=
  bail_if ttl_ms <=? 0 with TtlNotPositive in
  let? current := ok_or (catalog_leases c !! (namespace, key)) (LeaseDoesNotExist namespace key) in
  bail_if negb (bool_decide (fencing_token current = expected_token)
                && (expires_at_ms current =? expected_expires_at)
                && (expires_at_ms current <=? checked_at)) with TakeoverPreconditionFailed in
  let lease := new_lease namespace key holder token (u64_saturating_succ (generation current))
                         now ttl_ms in
  Ok (lease, save_lease c lease).

(** ** Writes

    [read_at] is the time of the read before the transaction; [clock] gives
    the readings of each object's write. *)

Definition upsert_in (clock : string → Z * Z) (c : Catalog) (o : Object) :
    result Catalog lease_error :=
  let '(claims_at, lease_at) := clock (object_id o) in
  let? t := map_err StoreFailed
              (upsert_object_in claims_at lease_at (apply_lease c) (tables c) o) in
  Ok (with_tables c t).

Definition stored (read_at : Z) (c : Catalog) (id : string) : result (option Object) lease_error :=
  map_err StoreFailed (get_object read_at (tables c) id).

Definition put_object (read_at : Z) (clock : string → Z * Z) (c : Catalog) (object : Object) :
    result Catalog lease_error :=
  let? _ := stored read_at c (object_id object) in
  upsert_in clock c object.

Definition create_object (read_at : Z) (clock : string → Z * Z) (c : Catalog) (object : Object) :
    result Catalog lease_error :=
  let? previous := stored read_at c (object_id object) in
  bail_if is_some_b previous with (ObjectAlreadyExists (object_id object)) in
  put_object read_at clock c object.

Definition guarded_put (read_at : Z) (clock : string → Z * Z) (c : Catalog) (now : Z)
    (object : Object) (namespace key token : string) (create : bool) :
    result Catalog lease_error :=
  let? previous := stored read_at c (object_id object) in
  let? _ := require_active_lease c now namespace key token in
  bail_if create && is_some_b previous with (ObjectAlreadyExists (object_id object)) in
  bail_if negb create && negb (is_some_b previous) with (ObjectDoesNotExist (object_id object)) in
  upsert_in clock c object.

(** One object of [put_objects_inner], with what was read before the
    transaction. *)
Definition put_existing (clock : string → Z * Z) (c : Catalog) (op : Object * option Object) :
    result Catalog lease_error :=
  bail_if negb (is_some_b op.2) with (ObjectDoesNotExist (object_id op.1)) in
  upsert_in clock c op.1.

Definition put_objects_inner (read_at : Z) (clock : string → Z * Z) (c : Catalog) (now : Z)
    (objects : list Object) (lease : option (string * string * string)) :
    result Catalog lease_error :=
  bail_if match objects with [] => true | _ => false end with UpdateIsEmpty in
  bail_if negb (bool_decide (NoDup (object_id <$> objects))) with DuplicateIdentities in
  let? previous := try_fold (λ acc o, let? p := stored read_at c (object_id o) in Ok (acc ++ [p]))
                     [] objects in
  let? _ := match lease with
    | Some (namespace, key, token) =>
      let? _ := require_active_lease c now namespace key token in Ok tt
    | None => Ok tt
    end in
  try_fold (put_existing clock) c (zip objects previous).

Definition delete_object (referred_plan referred_environment : bool) (c : Catalog) (id : string) :
    result Catalog lease_error :=
  let? t := map_err StoreFailed (delete_object_in referred_plan referred_environment (tables c) id) in
  Ok (with_tables c t).

(** [refresh_leases_and_guarded_put]. *)
Record LeaseRefresh := {
  refresh_namespace : string;
  refresh_key : string;
  refresh_token : string;
  refresh_ttl_ms : Z;
  (** When false, require the active holder without extending its lease. *)
  extend : bool
}.

Definition stamp_claim_expiry (object : Object) (leases : list Lease) (namespace key : string) :
    Object :=
  match find_first (λ l, bool_decide (lease_namespace l = namespace)
                         && bool_decide (lease_key l = key)) leases with
  | Some l => {|
      object_id := object_id object; object_kind := object_kind object;
      object_name := object_name object; object_namespace := object_namespace object;
      external_id := external_id object;
      properties := <["expires_at" := pretty (expires_at_ms l)]> (properties object);
      created := created object; updated := refreshed_at_ms l |}
  | None => object
  end.

Definition refresh_one (checked_at now : Z) (acc : Catalog * list Lease) (r : LeaseRefresh) :
    result (Catalog * list Lease) lease_error :=
  let '(c, leases) := acc in
  bail_if refresh_ttl_ms r <=? 0 with TtlNotPositive in
  if extend r then
    let? (lease, c') := refresh_lease c checked_at now (refresh_namespace r) (refresh_key r)
                           (refresh_token r) (refresh_ttl_ms r) in
    Ok (c', leases ++ [lease])
  else
    let? lease := require_active_lease c checked_at (refresh_namespace r) (refresh_key r)
                    (refresh_token r) in
    Ok (c, leases ++ [lease]).

Definition refresh_leases_and_guarded_put (clock : string → Z * Z) (c : Catalog) (checked_at now : Z)
    (refreshes : list LeaseRefresh) (object : Object) (namespace key token : string) :
    result (list Lease * Catalog) lease_error :=
  let? (c1, leases) := try_fold (refresh_one checked_at now) (c, []) refreshes in
  let object := stamp_claim_expiry object leases namespace key in
  let? _ := require_active_lease c1 now namespace key token in
  bail_if negb (is_some_b (catalog_objects (tables c1) !! object_id object))
    with (ObjectDoesNotExist (object_id object)) in
  let? c2 := upsert_in clock c1 object in
  Ok (leases, c2).
End Leases.

(** ** The store as a state machine *)

Inductive lease_op :=
| OpAcquire (now : Z) (namespace key holder token : string) (ttl_ms : Z)
| OpRefresh (checked_at now : Z) (namespace key token : string) (ttl_ms : Z)
| OpRelease (checked_at now : Z) (namespace key token : string)
| OpTakeover (checked_at now : Z) (namespace key holder token expected_token : string)
    (expected_expires_at ttl_ms : Z)
| OpWrite (read_at : Z) (clock : string → Z * Z) (object : Object) (create : bool)
| OpPut (read_at : Z) (clock : string → Z * Z) (now : Z) (object : Object) (namespace key token : string) (create : bool)
| OpPutObjects (read_at : Z) (clock : string → Z * Z) (now : Z) (objects : list Object) (lease : option (string * string * string))
| OpRefreshPut (clock : string → Z * Z) (checked_at now : Z) (refreshes : list LeaseRefresh) (object : Object)
    (namespace key token : string)
| OpDelete (referred_plan referred_environment : bool) (id : string).

(** The fresh token an operation installs. *)
Definition new_token (op : lease_op) : option string :=
  match op with
  | OpAcquire _ _ _ _ token _ | OpTakeover _ _ _ _ _ token _ _ _ => Some token
  | _ => None
  end.

(** When an operation decides whether the current lease still holds; a
    deletion looks at no lease and reads no clock. *)
Definition decided_at (op : lease_op) : Z :=
  match op with
  | OpAcquire now _ _ _ _ _ | OpPut _ _ now _ _ _ _ _ | OpPutObjects _ _ now _ _
  | OpWrite now _ _ _ => now
  | OpRefresh checked_at _ _ _ _ _ | OpRelease checked_at _ _ _ _
  | OpTakeover checked_at _ _ _ _ _ _ _ _ | OpRefreshPut _ checked_at _ _ _ _ _ _ => checked_at
  | OpDelete _ _ _ => 0
  end.

(** The operations a holder runs under its token, the refreshes that come with
    a write included. *)
Definition runs_under (op : lease_op) (namespace key token : string) : Prop :=
  match op with
  | OpRefresh _ _ ns k t _ | OpRelease _ _ ns k t | OpPut _ _ _ _ ns k t _ => (ns, k, t) = (namespace, key, token)
  | OpRefreshPut _ _ _ refreshes _ ns k t =>
    (ns, k, t) = (namespace, key, token)
    ∨ ∃ r, r ∈ refreshes ∧ (refresh_namespace r, refresh_key r, refresh_token r) = (namespace, key, token)
  | OpPutObjects _ _ _ _ lease => lease = Some (namespace, key, token)
  | OpWrite _ _ _ _ | OpAcquire _ _ _ _ _ _ | OpTakeover _ _ _ _ _ _ _ _ _ | OpDelete _ _ _ => False
  end.

(** How an operation may change one row of [catalog_leases]: not at all, by
    renewing or releasing it for the same holder, or by installing a new
    holder over a lease that no longer holds. *)
Inductive row_step (op : lease_op) : option Lease → option Lease → Prop :=
| row_same r : row_step op r r
| row_renewed l l' :
    fencing_token l' = fencing_token l → generation l' = generation l →
    row_step op (Some l) (Some l')
| row_taken r l' :
    new_token op = Some (fencing_token l') →
    (∀ l, r = Some l → is_active l (decided_at op) = false
                       ∧ generation l' = u64_saturating_succ (generation l)) →
    row_step op r (Some l').

Section Machine.
Context {E : PlanEncoding} {J : JsonText}.

Definition exec (op : lease_op) (c : Catalog) : result Catalog lease_error :=
  match op with
  | OpAcquire now namespace key holder token ttl_ms =>
    let? (_, c') := acquire_namespaced_lease c now namespace key holder token ttl_ms in Ok c'
  | OpRefresh checked_at now namespace key token ttl_ms =>
    let? (_, c') := refresh_namespaced_lease c checked_at now namespace key token ttl_ms in Ok c'
  | OpRelease checked_at now namespace key token =>
    let? (_, c') := release_namespaced_lease c checked_at now namespace key token in Ok c'
  | OpTakeover checked_at now namespace key holder token expected expires ttl_ms =>
    let? (_, c') := takeover_namespaced_lease c checked_at now namespace key holder token
                      expected expires ttl_ms in Ok c'
  | OpWrite read_at clock object create =>
    if create then create_object read_at clock c object else put_object read_at clock c object
  | OpPut read_at clock now object namespace key token create =>
    guarded_put read_at clock c now object namespace key token create
  | OpPutObjects read_at clock now objects lease =>
    put_objects_inner read_at clock c now objects lease
  | OpRefreshPut clock checked_at now refreshes object namespace key token =>
    let? (_, c') := refresh_leases_and_guarded_put clock c checked_at now refreshes
                      object namespace key token in Ok c'
  | OpDelete referred_plan referred_environment id => delete_object referred_plan referred_environment c id
  end.

(** Every row is stored under its own namespace and key, and its token is
    one that was issued. *)
Definition rows_named (c : Catalog) : Prop :=
  ∀ ns k l, catalog_leases c !! (ns, k) = Some l → lease_namespace l = ns ∧ lease_key l = k.

Definition lease_inv (s : gset string * Catalog) : Prop :=
  rows_named s.2
  ∧ ∀ ns k l, catalog_leases s.2 !! (ns, k) = Some l → fencing_token l ∈ s.1.

(** The store together with the tokens issued so far: a new token is one
    that was never issued. *)
Inductive lease_step : relation (gset string * Catalog) :=
| lease_exec issued c op c' :
    (∀ t, new_token op = Some t → t ∉ issued) →
    exec op c = Ok c' →
    lease_step (issued, c)
      (match new_token op with Some t => {[t]} ∪ issued | None => issued end, c').

Lemma require_active_ok c now ns k t l :
  require_active_lease c now ns k t = Ok l ↔
  catalog_leases c !! (ns, k) = Some l ∧ fencing_token l = t ∧ is_active l now = true.
Proof.
  unfold require_active_lease, is_active. destruct (_ !! _) as [l'|]; simpl; [|naive_solver].
  rewrite bail_ok, negb_false, !andb_true_iff, !bool_decide_eq_true. naive_solver.
Qed.

Lemma save_renewed c op ns k l l' :
  rows_named c → catalog_leases c !! (ns, k) = Some l →
  lease_namespace l' = lease_namespace l → lease_key l' = lease_key l →
  fencing_token l' = fencing_token l → generation l' = generation l →
  rows_named (save_lease c l')
  ∧ ∀ ns' k', row_step op (catalog_leases c !! (ns', k'))
                          (catalog_leases (save_lease c l') !! (ns', k')).
Proof.
  intros Hn Hl Hns Hk Ht Hg. destruct (Hn ns k l Hl) as [<- <-]. unfold save_lease. simpl.
  rewrite Hns, Hk. split.
  - intros ns' k' x. simpl. rewrite lookup_insert. case_decide as Ek; [|apply Hn].
    intros. by simplify_eq.
  - intros ns' k'. rewrite lookup_insert. case_decide as Ek; [|apply row_same].
    simplify_eq. rewrite Hl. by apply row_renewed.
Qed.

Lemma save_taken c op l' :
  rows_named c → new_token op = Some (fencing_token l') →
  (∀ l, catalog_leases c !! (lease_namespace l', lease_key l') = Some l →
     is_active l (decided_at op) = false ∧ generation l' = u64_saturating_succ (generation l)) →
  rows_named (save_lease c l')
  ∧ ∀ ns' k', row_step op (catalog_leases c !! (ns', k'))
                          (catalog_leases (save_lease c l') !! (ns', k')).
Proof.
  intros Hn Ht Hl. unfold save_lease. split.
  - intros ns' k' x. simpl. rewrite lookup_insert. case_decide as Ek; [|apply Hn].
    intros. by simplify_eq.
  - intros ns' k'. simpl. rewrite lookup_insert. case_decide as Ek; [|apply row_same].
    simplify_eq. by apply row_taken.
Qed.

(** Renewals of one operation compose. *)
Lemma row_step_trans op r1 r2 r3 :
  new_token op = None → row_step op r1 r2 → row_step op r2 r3 → row_step op r1 r3.
Proof.
  intros Hnew H12 H23. destruct H12 as [|l l' Ht Hg|r l' Ht Hl]; [done| |congruence].
  inversion H23 as [|? ? Ht' Hg'|? ? Ht' Hl']; simplify_eq; apply row_renewed; congruence.
Qed.

Lemma row_step_to op r l' :
  row_step op r (Some l') →
  (∃ l, r = Some l ∧ fencing_token l' = fencing_token l ∧ generation l' = generation l)
  ∨ (new_token op = Some (fencing_token l')
     ∧ ∀ l, r = Some l → is_active l (decided_at op) = false
                         ∧ generation l' = u64_saturating_succ (generation l)).
Proof. intros H. inversion H; simplify_eq; [left; eauto..|by right]. Qed.

Lemma row_step_from op l r' : row_step op (Some l) r' → ∃ l', r' = Some l'.
Proof. intros H. inversion H; simplify_eq; eauto. Qed.

Lemma refresh_one_rows op checked_at now acc r acc' :
  rows_named acc.1 → refresh_one checked_at now acc r = Ok acc' →
  rows_named acc'.1
  ∧ ∀ ns k, row_step op (catalog_leases acc.1 !! (ns, k)) (catalog_leases acc'.1 !! (ns, k)).
Proof.
  intros Hn. destruct acc as [c ls]. unfold refresh_one. rewrite bail_ok. intros [_ H].
  destruct (extend r); ok_inv H.
  - destruct x as [lease c']. unfold refresh_lease in Hg. ok_inv Hg. simplify_eq.
    apply require_active_ok in Hg0 as (Hl & _ & _). by eapply save_renewed.
  - simplify_eq/=. split; [done|]. intros. apply row_same.
Qed.

Lemma refresh_loop_rows op checked_at now c refreshes acc' :
  new_token op = None → rows_named c →
  try_fold (refresh_one checked_at now) (c, []) refreshes = Ok acc' →
  rows_named acc'.1
  ∧ ∀ ns k, row_step op (catalog_leases c !! (ns, k)) (catalog_leases acc'.1 !! (ns, k)).
Proof.
  intros Hnew Hn. eapply (try_fold_invariant (λ acc, rows_named acc.1
    ∧ ∀ ns k, row_step op (catalog_leases c !! (ns, k)) (catalog_leases acc.1 !! (ns, k)))).
  - split; [done|]. intros. apply row_same.
  - intros r acc1 acc2 _ [Hn1 H1] H2.
    destruct (refresh_one_rows op _ _ _ _ _ Hn1 H2) as [Hn2 Hr2]. split; [done|].
    intros ns k. by eapply row_step_trans.
Qed.

(** Writes of objects leave the lease rows alone. *)
Lemma upsert_in_leases clock c o c' :
  upsert_in clock c o = Ok c' → catalog_leases c' = catalog_leases c.
Proof. unfold upsert_in. destruct (clock _). intros H. ok_inv H. by simplify_eq. Qed.

Lemma put_loop_leases clock c l c' :
  try_fold (put_existing clock) c l = Ok c' → catalog_leases c' = catalog_leases c.
Proof.
  apply (try_fold_invariant (λ x, catalog_leases x = catalog_leases c)); [done|].
  intros [o p] c1 c2 _ <- H. unfold put_existing in H. ok_inv H. by apply upsert_in_leases in H.
Qed.

Lemma write_leases read_at clock (create : bool) c o c' :
  (if create then create_object read_at clock c o else put_object read_at clock c o) = Ok c' →
  catalog_leases c' = catalog_leases c.
Proof.
  unfold create_object, put_object. intros H.
  destruct create; ok_inv H; by apply upsert_in_leases in H.
Qed.

Lemma same_rows op c c' :
  rows_named c → catalog_leases c' = catalog_leases c →
  rows_named c' ∧ ∀ ns k, row_step op (catalog_leases c !! (ns, k)) (catalog_leases c' !! (ns, k)).
Proof. unfold rows_named. intros Hn ->. split; [done|]. intros. apply row_same. Qed.

(** Every operation that succeeds changes each row in one of the three
    ways. *)
Lemma exec_rows op c c' :
  rows_named c → exec op c = Ok c' →
  rows_named c' ∧ ∀ ns k, row_step op (catalog_leases c !! (ns, k)) (catalog_leases c' !! (ns, k)).
Proof.
  intros Hn H. destruct op as [now ns k h t ttl|chk now ns k t ttl|chk now ns k t
    |chk now ns k h t et ee ttl|rd clk o cr|rd clk now o ns k t cr|rd clk now os l
    |clk chk now rs o ns k t|rp re id]; simpl in H.
  - ok_inv H. destruct x as [l c1]. unfold acquire_namespaced_lease in Hg. ok_inv Hg. simplify_eq.
    apply save_taken; [done..|]. simpl. intros l Hl. rewrite Hl in *. simpl in *. by split.
  - ok_inv H. destruct x as [l c1]. unfold refresh_namespaced_lease, refresh_lease in Hg. ok_inv Hg.
    simplify_eq. apply require_active_ok in Hg1 as (Hl & _ & _).
    by eapply save_renewed.
  - ok_inv H. destruct x as [l c1]. unfold release_namespaced_lease in Hg. ok_inv Hg.
    simplify_eq. apply require_active_ok in Hg0 as (Hl & _ & _).
    by eapply save_renewed.
  - ok_inv H. destruct x as [l c1]. unfold takeover_namespaced_lease in Hg. ok_inv Hg. simplify_eq.
    apply save_taken; [done..|]. simpl. intros l Hl. rewrite Hl in *. simplify_eq.
    rewrite !andb_true_iff, Z.leb_le in Hg2. split; [|done]. unfold is_active.
    rewrite andb_false_iff, Z.ltb_ge. right. tauto.
  - apply write_leases in H. by apply same_rows.
  - unfold guarded_put in H. ok_inv H. apply upsert_in_leases in H. by apply same_rows.
  - unfold put_objects_inner in H. ok_inv H. apply put_loop_leases in H. by apply same_rows.
  - ok_inv H. destruct x as [ls c1]. unfold refresh_leases_and_guarded_put in Hg. ok_inv Hg.
    destruct x as [c2 ls2]. ok_inv Hg. simplify_eq.
    destruct (refresh_loop_rows (OpRefreshPut clk chk now rs o ns k t) chk now c rs (c2, ls))
      as [Hn2 Hr]; [done..|]. apply upsert_in_leases in Hg3. simpl in *.
    unfold rows_named. by rewrite Hg3.
  - unfold delete_object in H. ok_inv H. simplify_eq. by apply same_rows.
Qed.

Lemma lease_step_inv s s' : lease_inv s → lease_step s s' → lease_inv s'.
Proof.
  intros [Hn Ht] Hstep. destruct Hstep as [issued c op c' Hfresh Hexec]. simpl in *.
  destruct (exec_rows op c c' Hn Hexec) as [Hn' Hr]. split; [done|]. simpl.
  intros ns k l Hl. specialize (Hr ns k). rewrite Hl in Hr.
  apply row_step_to in Hr as [(l0 & Hl0 & -> & _)|[Hnew _]].
  - apply Ht in Hl0. destruct (new_token op); set_solver.
  - rewrite Hnew. set_solver.
Qed.

Lemma lease_steps_inv s s' : lease_inv s → rtc lease_step s s' → lease_inv s'.
Proof. intros Hs Hsteps. revert Hs. induction Hsteps; [done|]. eauto using lease_step_inv. Qed.

(** A token that was issued and no longer holds a row never holds it again. *)
Lemma superseded_stays s s' ns k t :
  lease_inv s → rtc lease_step s s' → t ∈ s.1 →
  (∀ l, catalog_leases s.2 !! (ns, k) = Some l → fencing_token l ≠ t) →
  ∀ l, catalog_leases s'.2 !! (ns, k) = Some l → fencing_token l ≠ t.
Proof.
  intros Hinv Hsteps. revert Hinv. induction Hsteps as [|s1 s2 s3 Hstep _ IH]; [done|].
  intros Hinv Hin Hold. apply IH.
  - by eapply lease_step_inv.
  - destruct Hstep as [issued c op c' _ _]. simpl in *. destruct (new_token op); set_solver.
  - destruct Hstep as [issued c op c' Hfresh Hexec]. simpl in *. intros l Hl.
    destruct Hinv as [Hn _]. destruct (exec_rows op c c' Hn Hexec) as [_ Hr].
    specialize (Hr ns k). rewrite Hl in Hr.
    apply row_step_to in Hr as [(l0 & Hl0 & -> & _)|[Hnew _]]; [by apply Hold|].
    intros <-. by apply (Hfresh _ Hnew).
Qed.

(** Every refresh of a list that succeeds finds its token in the row. *)
Lemma refresh_loop_holder op checked_at now c refreshes acc' r :
  new_token op = None → rows_named c → try_fold (refresh_one checked_at now) (c, []) refreshes = Ok acc' →
  r ∈ refreshes →
  ∃ l, catalog_leases c !! (refresh_namespace r, refresh_key r) = Some l ∧ fencing_token l = refresh_token r.
Proof.
  intros Hnew Hn H Hr. apply list_elem_of_split in Hr as (before & rest & ->).
  rewrite try_fold_app in H. ok_inv H. simpl in H. ok_inv H.
  destruct (refresh_loop_rows op _ _ _ _ _ Hnew Hn Hg) as [_ Hrows].
  assert (∃ l, catalog_leases x.1 !! (refresh_namespace r, refresh_key r) = Some l ∧ fencing_token l = refresh_token r)
    as (l & Hl & Ht).
  { destruct x as [c1 ls]. unfold refresh_one in Hg0. ok_inv Hg0. destruct (extend r); ok_inv Hg0.
    - unfold refresh_lease in Hg2. ok_inv Hg2. apply require_active_ok in Hg3 as (? & ? & _). eauto.
    - apply require_active_ok in Hg2 as (? & ? & _). eauto. }
  specialize (Hrows (refresh_namespace r) (refresh_key r)). rewrite Hl in Hrows.
  apply row_step_to in Hrows as [(l0 & Hl0 & Htok & _)|[Hnew' _]]; [|congruence].
  exists l0. split; [done|congruence].
Qed.

(** A holder's operation that succeeds finds the holder's token in the row. *)
Lemma runs_under_holder op c c' ns k t :
  rows_named c → runs_under op ns k t → exec op c = Ok c' →
  ∃ l, catalog_leases c !! (ns, k) = Some l ∧ fencing_token l = t.
Proof.
  intros Hn Hop H. destruct op; simpl in Hop; try done; simplify_eq; simpl in H.
  - ok_inv H. destruct x. unfold refresh_namespaced_lease, refresh_lease in Hg. ok_inv Hg.
    apply require_active_ok in Hg1 as (Hl & Ht & _). eauto.
  - ok_inv H. destruct x. unfold release_namespaced_lease in Hg. ok_inv Hg.
    apply require_active_ok in Hg0 as (Hl & Ht & _). eauto.
  - unfold guarded_put in H. ok_inv H. apply require_active_ok in Hg0 as (Hl & Ht & _). eauto.
  - unfold put_objects_inner in H. ok_inv H. ok_inv Hg2.
    apply require_active_ok in Hg3 as (Hl & Ht & _). eauto.
  - ok_inv H. destruct x. unfold refresh_leases_and_guarded_put in Hg. ok_inv Hg.
    destruct x as [c2 ls]. ok_inv Hg.
    destruct Hop as [[= -> -> ->]|(r & Hr & [= <- <- <-])].
    2: by eapply (refresh_loop_holder (OpRefreshPut clock checked_at now refreshes object "" "" "")).
    apply require_active_ok in Hg1 as (Hl & Ht & _).
    destruct (refresh_loop_rows (OpRefreshPut clock checked_at now refreshes object ns k t)
      _ _ _ _ _ eq_refl Hn Hg0) as [_ Hr].
    specialize (Hr ns k). simpl in Hr, Hl. rewrite Hl in Hr.
    apply row_step_to in Hr as [(l0 & Hl0 & Htok & _)|[Hnew _]]; [|done].
    exists l0. split; [done|congruence].
Qed.

(** C22: a holder whose lease was superseded is fenced out for good: from
    then on, whatever operations of the store run, every refresh, release or
    object write it attempts under its old token is refused, and so is a write
    under another lease that would refresh its lease along the way. *)
Theorem superseded_is_fenced_out s s' ns k t op :
  lease_inv s → rtc lease_step s s' → t ∈ s.1 →
  (∀ l, catalog_leases s.2 !! (ns, k) = Some l → fencing_token l ≠ t) →
  runs_under op ns k t → is_ok (exec op s'.2) = false.
Proof.
  intros Hinv Hsteps Hin Hold Hop. destruct (exec op s'.2) as [c'|] eqn:H; [exfalso|done].
  destruct (lease_steps_inv s s' Hinv Hsteps) as [Hn _].
  destruct (runs_under_holder op s'.2 c' ns k t Hn Hop H) as (l & Hl & Ht).
  by apply (superseded_stays s s' ns k t Hinv Hsteps Hin Hold l).
Qed.

(** While a lease is active (not released, not expired at the time an
    operation looks at it), no operation can give its row to another
    holder. *)
Theorem active_lease_is_exclusive issued c s' op ns k l :
  lease_inv (issued, c) → catalog_leases c !! (ns, k) = Some l →
  is_active l (decided_at op) = true →
  (∀ t, new_token op = Some t → t ∉ issued) → exec op c = Ok s' →
  ∃ l', catalog_leases s' !! (ns, k) = Some l' ∧ fencing_token l' = fencing_token l
        ∧ generation l' = generation l.
Proof.
  intros [Hn _] Hl Hact _ Hexec. destruct (exec_rows op c s' Hn Hexec) as [_ Hr].
  specialize (Hr ns k). rewrite Hl in Hr. destruct (row_step_from _ _ _ Hr) as [l' Hl'].
  rewrite Hl' in Hr. exists l'.
  apply row_step_to in Hr as [(l0 & Hl0 & Htok & Hg)|[_ Hold]]; [by simplify_eq|].
  destruct (Hold l eq_refl) as [Hf _]. congruence.
Qed.

(** Generations only grow, and a new holder has a strictly larger one
    until the counter saturates. *)
Theorem generations_grow s s' ns k l :
  lease_inv s → rtc lease_step s s' → catalog_leases s.2 !! (ns, k) = Some l →
  generation l ≤ u64_max →
  ∃ l', catalog_leases s'.2 !! (ns, k) = Some l' ∧ generation l ≤ generation l' ≤ u64_max
        ∧ (fencing_token l' ≠ fencing_token l →
           generation l < generation l' ∨ generation l' = u64_max).
Proof.
  intros Hinv Hsteps. revert Hinv l. induction Hsteps as [s|s1 s2 s3 Hstep _ IH]; intros Hinv l Hl Hg.
  { exists l. split_and!; [done|lia|lia|done]. }
  assert (Hinv2 : lease_inv s2) by (by eapply lease_step_inv).
  assert (∃ l2, catalog_leases s2.2 !! (ns, k) = Some l2
    ∧ ((fencing_token l2 = fencing_token l ∧ generation l2 = generation l)
       ∨ generation l2 = u64_saturating_succ (generation l))) as (l2 & Hl2 & Hcase).
  { destruct Hstep as [issued c op c' Hfresh Hexec]. simpl in *.
    destruct Hinv as [Hn _]. destruct (exec_rows op c c' Hn Hexec) as [_ Hr].
    specialize (Hr ns k). rewrite Hl in Hr. destruct (row_step_from _ _ _ Hr) as [l' Hl'].
    rewrite Hl' in Hr. exists l'. split; [done|].
    apply row_step_to in Hr as [(l0 & Hl0 & Htok & Hge)|[_ Hold]]; [left; by simplify_eq|].
    right. by apply (Hold l). }
  destruct (IH Hinv2 l2 Hl2) as (l' & Hl' & Hb & Hstrict).
  { unfold u64_saturating_succ in Hcase. lia. }
  exists l'. split; [done|]. unfold u64_saturating_succ in Hcase. split; [lia|].
  intros Hne. destruct Hcase as [[Ht <-]|Hsucc]; [apply Hstrict; congruence|lia].
Qed.
End Machine.

(** ** A takeover *)
Module LeaseExamples.
#[local] Existing Instance PlainEncoding.instance.
#[local] Instance no_text : JsonText := {| json_text := λ _, "" |}.

Definition empty_catalog : Catalog := {| catalog_leases := ∅; tables := empty_tables |}.
Definition held : Catalog :=
  with_leases empty_catalog {[("ns", "prod") := new_lease "ns" "prod" "a" "t1" 1 0 10]}.
Definition taken : Catalog :=
  with_leases empty_catalog {[("ns", "prod") := new_lease "ns" "prod" "b" "t2" 2 20 10]}.

Definition acquire_a : lease_op := OpAcquire 0 "ns" "prod" "a" "t1" 10.
Definition takeover_b : lease_op := OpTakeover 20 20 "ns" "prod" "b" "t2" "t1" 10 10.

Lemma step_acquire : lease_step (∅, empty_catalog) ({["t1"]}, held).
Proof.
  refine (lease_exec ∅ empty_catalog acquire_a held _ _).
  - intros t _. set_solver.
  - vm_compute. reflexivity.
Defined.

Lemma step_takeover : lease_step ({["t1"]}, held) ({["t2"]} ∪ {["t1"]}, taken).
Proof.
  refine (lease_exec {["t1"]} held takeover_b taken _ _).
  - intros t [= <-]. set_solver.
  - vm_compute. reflexivity.
Defined.

Lemma empty_inv : lease_inv (∅, empty_catalog).
Proof. by split. Defined.

Lemma held_inv : lease_inv ({["t1"]}, held).
Proof. apply (lease_step_inv (∅, empty_catalog)); [apply empty_inv|apply step_acquire]. Defined.

(** A write of the new holder does not carry the old holder's lease along. *)
Definition stale : LeaseRefresh :=
  {| refresh_namespace := "ns"; refresh_key := "prod"; refresh_token := "t1"; refresh_ttl_ms := 10; extend := true |}.

Definition carried : Object :=
  {| object_id := "o"; object_kind := "k"; object_name := ""; object_namespace := "";
     external_id := ""; properties := ∅; created := 0; updated := 0 |}.

Lemma superseded_is_fenced_out_witness :
  is_ok (exec (OpRefreshPut (λ _, (21, 21)) 21 21 [stale] carried "ns" "prod" "t2") taken) = false.
Proof.
  refine (superseded_is_fenced_out ({["t2"]} ∪ {["t1"]}, taken)
    ({["t2"]} ∪ {["t1"]}, taken) "ns" "prod" "t1" (OpRefreshPut (λ _, (21, 21)) 21 21 [stale] carried "ns" "prod" "t2")
    _ (rtc_refl _ _) _ _ _).
  - apply (lease_step_inv ({["t1"]}, held)); [apply held_inv|apply step_takeover].
  - simpl. set_solver.
  - intros l Hl. vm_compute in Hl. injection Hl as <-. simpl. discriminate.
  - right. exists stale. split; [left|reflexivity].
Defined.

Lemma active_lease_is_exclusive_witness :
  ∃ l', catalog_leases (with_tables held (upsert_catalog_in empty_tables carried)) !! ("ns", "prod") = Some l'
        ∧ fencing_token l' = "t1" ∧ generation l' = 1.
Proof.
  refine (active_lease_is_exclusive {["t1"]} held
    (with_tables held (upsert_catalog_in empty_tables carried)) (OpPut 5 (λ _, (5, 5)) 5 carried "ns" "prod" "t1" true) "ns" "prod"
    (new_lease "ns" "prod" "a" "t1" 1 0 10) held_inv _ _ _ _).
  1-2: vm_compute; reflexivity.
  - intros t Ht. discriminate Ht.
  - vm_compute. reflexivity.
Defined.

(** An unexpired lease cannot be acquired again. *)
Example second_acquire_refused :
  exec (OpAcquire 5 "ns" "prod" "b" "t2" 10) held
  = Err (LeaseAlreadyHeld "ns" "prod").
Proof. vm_compute. reflexivity. Qed.

Lemma generations_grow_witness :
  ∃ l', catalog_leases taken !! ("ns", "prod") = Some l' ∧ 1 ≤ generation l' ≤ u64_max
        ∧ (fencing_token l' ≠ "t1" → 1 < generation l' ∨ generation l' = u64_max).
Proof.
  refine (generations_grow ({["t1"]}, held) ({["t2"]} ∪ {["t1"]}, taken)
    "ns" "prod" (new_lease "ns" "prod" "a" "t1" 1 0 10) held_inv
    (rtc_once _ _ step_takeover) _ _).
  - vm_compute. reflexivity.
  - vm_compute. discriminate.
Defined.
End LeaseExamples.
