(* ===== verification/StoreHistory.v ===== *)
(** * Histories of the embedded store

    What every sequence of operations of [Leases] keeps of the object tables
    of [ObjectStore]: the constraints of the schema, the content of published
    releases, and the retirement of an environment.

    The operations are those of the object store, deletions included.  The
    typed records of [storage/catalog.rs] and [storage/plans.rs], development
    fixtures and migrations write the same tables by statements of their own;
    they are not part of these histories. *)

From S2P Require Import Prelude RustStr Kinds Plan ObjectStore Leases.

(** ** The tables *)

(** The property index is that of the stored objects, every foreign key has
    its row, and the unique pairs are unique. *)
Record tables_wf (t : Tables) : Prop := {
  objects_named id o : catalog_objects t !! id = Some o → object_id o = id;
  index_exact : object_properties t = (λ o, (object_kind o, properties o)) <$> catalog_objects t;
  channels_point id r : channels t !! id = Some r → is_Some (releases t !! chan_release r);
  plans_point id r : plans t !! id = Some r → is_Some (environments t !! row_environment_id r);
  releases_unique i j r r' :
    releases t !! i = Some r → releases t !! j = Some r' →
    rel_product r = rel_product r' → rel_version r = rel_version r' → i = j;
  channels_unique i j r r' :
    channels t !! i = Some r → channels t !! j = Some r' →
    chan_product r = chan_product r' → chan_name r = chan_name r' → i = j
}.

(** What a release is known by never changes, but for the rows [gone]. *)
Definition releases_kept (gone : string → Prop) (t t' : Tables) : Prop :=
  ∀ id r, ¬ gone id → releases t !! id = Some r →
  ∃ r', releases t' !! id = Some r' ∧ rel_product r' = rel_product r
        ∧ rel_version r' = rel_version r ∧ rel_content_digest r' = rel_content_digest r.

Definition row_retired (r : EnvironmentRow) : Prop :=
  is_Some (retirement_from_configuration_json (configuration_json r)).

(** A retired environment's row is frozen, and gets no new plan, unless the
    row is one of the [gone]. *)
Definition retired_kept (gone : string → Prop) (t t' : Tables) : Prop :=
  ∀ name r, ¬ gone (env_id name) → strip_prefix "tenkai:env:" name = None →
  environments t !! env_id name = Some r → row_retired r →
  environments t' !! env_id name = Some r
  ∧ ∀ id p, plans t' !! id = Some p → row_environment_id p = env_id name →
    ∃ p0, plans t !! id = Some p0 ∧ row_environment_id p0 = env_id name.

#[export] Instance releases_kept_preorder gone : PreOrder (releases_kept gone).
Proof.
  split.
  - intros t id r _ Hr. eauto 10.
  - intros t1 t2 t3 H12 H23 id r Hg Hr. apply (H12 id r Hg) in Hr as (r2 & Hr2 & ? & ? & ?).
    apply (H23 id r2 Hg) in Hr2 as (r3 & Hr3 & ? & ? & ?). exists r3. split_and!; congruence.
Qed.

#[export] Instance retired_kept_preorder gone : PreOrder (retired_kept gone).
Proof.
  split.
  - intros t name r _ _ Hr _. eauto.
  - intros t1 t2 t3 H12 H23 name r Hg Hn Hr Hret. destruct (H12 name r Hg Hn Hr Hret) as [H2 P2].
    destruct (H23 name r Hg Hn H2 Hret) as [H3 P3]. split; [done|]. intros id p Hp He.
    destruct (P3 id p Hp He) as (p2 & Hp2 & He2). eauto.
Qed.

Section Rows.
Context (gone : string → Prop).

Lemma releases_kept_same t t' : releases t' = releases t → releases_kept gone t t'.
Proof. unfold releases_kept. intros ->. apply (reflexivity (R := releases_kept gone)). Qed.

Lemma retired_kept_same t t' :
  environments t' = environments t → plans t' = plans t → retired_kept gone t t'.
Proof. unfold retired_kept. intros -> ->. apply (reflexivity (R := retired_kept gone)). Qed.

Lemma upsert_catalog_wf t o : tables_wf t → tables_wf (upsert_catalog_in t o).
Proof.
  intros []. split; simpl; try done.
  - intros id o' [[<- <-]|[_ Ho]]%lookup_insert_Some; [done|by apply objects_named0].
  - rewrite index_exact0. by rewrite fmap_insert.
Qed.

Lemma with_environment_wf t id r : tables_wf t → tables_wf (with_environment t id r).
Proof.
  intros []. split; simpl; try done. intros i p Hp. apply plans_point0 in Hp.
  rewrite lookup_insert_is_Some'. by right.
Qed.

Lemma with_plan_wf t id r :
  tables_wf t → is_Some (environments t !! row_environment_id r) → tables_wf (with_plan t id r).
Proof.
  intros [] He. split; simpl; try done. intros i p [[<- <-]|[_ Hp]]%lookup_insert_Some; eauto.
Qed.

Lemma with_release_wf t id r :
  tables_wf t →
  (∀ j r', releases t !! j = Some r' → rel_product r' = rel_product r →
           rel_version r' = rel_version r → j = id) →
  tables_wf (with_release t id r).
Proof.
  intros [] Hu. split; simpl; try done.
  - intros i c Hc. apply channels_point0 in Hc. rewrite lookup_insert_is_Some'. by right.
  - intros i j a b [[<- <-]|[_ Ha]]%lookup_insert_Some [[<- <-]|[_ Hb]]%lookup_insert_Some Hp Hv;
      [done| |by eapply Hu|by eapply releases_unique0].
    symmetry. by eapply Hu.
Qed.

Lemma with_channel_wf t id r :
  tables_wf t → is_Some (releases t !! chan_release r) →
  (∀ j r', channels t !! j = Some r' → chan_product r' = chan_product r →
           chan_name r' = chan_name r → j = id) →
  tables_wf (with_channel t id r).
Proof.
  intros [] Hr Hu. split; simpl; try done.
  - intros i c [[<- <-]|[_ Hc]]%lookup_insert_Some; eauto.
  - intros i j a b [[<- <-]|[_ Ha]]%lookup_insert_Some [[<- <-]|[_ Hb]]%lookup_insert_Some Hp Hv;
      [done| |by eapply Hu|by eapply channels_unique0].
    symmetry. by eapply Hu.
Qed.

#[local] Hint Resolve upsert_catalog_wf with_environment_wf with_plan_wf with_release_wf
  with_channel_wf : store.

Lemma upsert_release_step t o t' :
  upsert_release_in t o = Ok t' → tables_wf t →
  tables_wf t' ∧ releases_kept gone t t' ∧ retired_kept gone t t'.
Proof.
  unfold upsert_release_in. intros H Hw. set (id := if str_is_empty _ then _ else _) in *.
  destruct (releases t !! id) as [row|] eqn:Er; ok_inv H; simplify_eq.
  - split_and!; [|intros i r _ Hr; simpl|by apply retired_kept_same].
    + apply upsert_catalog_wf, with_release_wf; [done|]. intros j r' Hj Hp Hv.
      by eapply (releases_unique _ Hw).
    + rewrite lookup_insert. case_decide as Ei; [|eauto 10]. subst i. simplify_eq. eauto 10.
  - split_and!; [|intros i r _ Hr; simpl|by apply retired_kept_same].
    + apply upsert_catalog_wf, with_release_wf; [done|]. intros j r' Hj Hp Hv. exfalso.
      apply Hg. by exists j, r'.
    + rewrite lookup_insert_ne by congruence. eauto 10.
Qed.

Lemma upsert_channel_step t o t' :
  upsert_channel_in t o = Ok t' → tables_wf t →
  tables_wf t' ∧ releases_kept gone t t' ∧ retired_kept gone t t'.
Proof.
  unfold upsert_channel_in. intros H Hw. ok_inv H.
  destruct (negb _) eqn:Er; [|destruct (channels t !! object_id o) as [row|] eqn:Ec];
    ok_inv H; simplify_eq.
  - split_and!; [auto with store|by apply releases_kept_same|by apply retired_kept_same].
  - split_and!; [|by apply releases_kept_same|by apply retired_kept_same].
    apply upsert_catalog_wf, with_channel_wf; [done| |].
    + apply negb_false_iff, andb_true_iff in Er as [_ Er]. by apply is_some_b_true.
    + intros j r' Hj Hp Hv. by eapply (channels_unique _ Hw).
  - split_and!; [|by apply releases_kept_same|by apply retired_kept_same].
    apply upsert_catalog_wf, with_channel_wf; [done| |].
    + apply negb_false_iff, andb_true_iff in Er as [_ Er]. by apply is_some_b_true.
    + intros j r' Hj Hp Hv. exfalso. apply Hg0. by exists j, r'.
Qed.

Lemma upsert_environment_step ca la al t o t' :
  upsert_environment_in ca la al t o = Ok t' → tables_wf t →
  tables_wf t' ∧ releases_kept gone t t' ∧ retired_kept gone t t'.
Proof.
  unfold upsert_environment_in. intros H Hw. ok_inv H. simplify_eq.
  split_and!; [auto with store|by apply releases_kept_same|].
  intros name r _ _ Hr [ret Hret]. simpl. split; [|eauto]. rewrite lookup_insert_ne; [done|].
  intros Hid. rewrite Hid, Hr in Hg. simpl in Hg. by rewrite Hret in Hg.
Qed.

Lemma ensure_active_ok t name op r :
  strip_prefix "tenkai:env:" name = None → environments t !! env_id name = Some r → row_retired r →
  ensure_environment_active_in t name op = Err (RetiredEnvironmentRefuses name op).
Proof.
  intros Hn Hr [ret Hret]. unfold ensure_environment_active_in, environment_row.
  rewrite Hn. simpl. rewrite Hr. simpl. by rewrite Hret.
Qed.

Lemma env_id_inj a b : env_id a = env_id b → a = b.
Proof. unfold env_id. by intros ?%(inj (String.append "tenkai:env:")). Qed.

(** The constraints survive a deletion: what a channel or a plan refers to is
    not deleted. *)
Lemma delete_object_wf rp re t id t' : delete_object_in rp re t id = Ok t' → tables_wf t → tables_wf t'.
Proof.
  unfold delete_object_in. intros H []. ok_inv H. simplify_eq. split; simpl.
  - intros i o [_ Ho]%lookup_delete_Some. by apply objects_named0.
  - rewrite index_exact0. by rewrite fmap_delete.
  - intros i c [_ Hc]%lookup_delete_Some. destruct (channels_point0 i c Hc) as [r Hr].
    destruct (decide (chan_release c = id)) as [<-|Hne]; [|exists r; by rewrite lookup_delete_ne].
    exfalso. rewrite Hr in Hg1. destruct Hg1 as [?|Hg1]; [done|]. apply Hg1. by exists i, c.
  - intros i p Hp. pose proof Hp as [_ Hp']%lookup_delete_Some. destruct (plans_point0 i p Hp') as [r Hr].
    destruct (decide (row_environment_id p = id)) as [<-|Hne]; [|exists r; by rewrite lookup_delete_ne].
    exfalso. rewrite Hr in Hg0. destruct Hg0 as [?|[_ Hg0%bool_decide_eq_false]%orb_false_iff]; [done|]. apply Hg0. by exists i, p.
  - intros i j r r' [_ Hi]%lookup_delete_Some [_ Hj]%lookup_delete_Some. by eapply releases_unique0.
  - intros i j r r' [_ Hi]%lookup_delete_Some [_ Hj]%lookup_delete_Some. by eapply channels_unique0.
Qed.

Lemma delete_object_step rp re t id t' :
  delete_object_in rp re t id = Ok t' → gone id → tables_wf t →
  tables_wf t' ∧ releases_kept gone t t' ∧ retired_kept gone t t'.
Proof.
  intros H Hgone Hw. split; [by eapply delete_object_wf|]. unfold delete_object_in in H. ok_inv H. simplify_eq.
  split; simpl.
  - intros i r Hi Hr. exists r. simpl. rewrite lookup_delete_ne by (by intros ->). done.
  - intros name r Hn _ Hr _. simpl. rewrite lookup_delete_ne by (by intros ->). split; [done|].
    intros i p [_ Hp]%lookup_delete_Some He. eauto.
Qed.

Section Store.
Context {E : PlanEncoding} {J : JsonText}.

Lemma upsert_plan_step t o t' :
  upsert_plan_in t o = Ok t' → tables_wf t →
  tables_wf t' ∧ releases_kept gone t t' ∧ retired_kept gone t t'.
Proof.
  unfold upsert_plan_in. intros H Hw. destruct (_ ≫= _) as [[raw plan]|].
  2: { simplify_eq. split_and!; [auto with store|by apply releases_kept_same|by apply retired_kept_same]. }
  ok_inv H. simplify_eq.
  set (t1 := if is_some_b (environments t !! _) then t else _).
  assert (tables_wf t1 ∧ releases t1 = releases t ∧ plans t1 = plans t
    ∧ is_Some (environments t1 !! env_id (plan_environment plan))
    ∧ ∀ i r, environments t !! i = Some r → environments t1 !! i = Some r)
    as (Hw1 & Hrel & Hpl & He1 & Hkeep).
  { unfold t1. destruct (environments t !! env_id (plan_environment plan)) as [r0|] eqn:Ee; simpl.
    - split_and!; [done..| |done]. rewrite Ee. by eexists.
    - split_and!; [by apply with_environment_wf|done|done| |].
      + rewrite lookup_insert_eq. by eexists.
      + intros i r Hr. rewrite lookup_insert_ne by congruence. done. }
  split_and!.
  - apply upsert_catalog_wf, with_plan_wf; [done|].
    destruct (plans t !! object_id o) as [p0|] eqn:Ep; [|done].
    apply (plans_point _ Hw) in Ep as [r Hr]. simpl. eauto.
  - apply releases_kept_same. done.
  - intros name r _ Hn Hr Hret. split; [by apply Hkeep|]. simpl. rewrite Hpl.
    intros id p [[<- <-]|[_ Hp]]%lookup_insert_Some Hpe; [|eauto].
    destruct (plans t !! object_id o) as [p0|] eqn:Ep; [eauto|]. simpl in *.
    apply env_id_inj in Hpe. rewrite Hpe in Hg. by erewrite ensure_active_ok in Hg.
Qed.

Lemma upsert_object_step ca la al t o t' :
  upsert_object_in ca la al t o = Ok t' → tables_wf t →
  tables_wf t' ∧ releases_kept gone t t' ∧ retired_kept gone t t'.
Proof.
  unfold upsert_object_in. repeat case_bool_decide;
    eauto using upsert_environment_step, upsert_release_step, upsert_channel_step, upsert_plan_step.
  intros [= <-] Hw. split_and!; [auto with store|by apply releases_kept_same|by apply retired_kept_same].
Qed.

(** ** Operations *)

Definition catalog_step (c c' : Catalog) : Prop :=
  tables_wf (tables c) →
  tables_wf (tables c') ∧ releases_kept gone (tables c) (tables c') ∧ retired_kept gone (tables c) (tables c').

#[export] Instance catalog_step_preorder : PreOrder catalog_step.
Proof.
  split.
  - intros c Hw. by split_and!.
  - intros c1 c2 c3 H12 H23 Hw. destruct (H12 Hw) as (Hw2 & ? & ?).
    destruct (H23 Hw2) as (Hw3 & ? & ?). split_and!; [done|by etrans..].
Qed.

Lemma upsert_in_step clock c o c' : upsert_in clock c o = Ok c' → catalog_step c c'.
Proof.
  unfold upsert_in. destruct (clock _). intros H Hw. ok_inv H. simplify_eq. simpl.
  destruct (upsert_object_in _ _ _ _ _) eqn:Hu; [|done]. simplify_eq/=.
  by eapply upsert_object_step.
Qed.

Lemma refresh_one_tables checked_at now acc r acc' :
  refresh_one checked_at now acc r = Ok acc' → tables acc'.1 = tables acc.1.
Proof.
  destruct acc as [c ls]. unfold refresh_one, refresh_lease. intros H. ok_inv H.
  destruct (extend r); ok_inv H; simplify_eq; [|done]. ok_inv Hg0. by simplify_eq.
Qed.

Lemma refresh_loop_tables checked_at now c rs acc' :
  try_fold (refresh_one checked_at now) (c, []) rs = Ok acc' → tables acc'.1 = tables c.
Proof.
  apply (try_fold_invariant (λ acc, tables acc.1 = tables c)); [done|].
  intros r a b _ <- H. by eapply refresh_one_tables.
Qed.

Lemma put_loop_step clock c l c' : try_fold (put_existing clock) c l = Ok c' → catalog_step c c'.
Proof.
  apply (try_fold_invariant (λ x, catalog_step c x)); [done|].
  intros [o p] c1 c2 _ Hc H. unfold put_existing in H. ok_inv H.
  etrans; [done|]. by eapply upsert_in_step.
Qed.

Lemma catalog_step_same c c' : tables c' = tables c → catalog_step c c'.
Proof. unfold catalog_step. intros ->. by apply (reflexivity (R := catalog_step)). Qed.

(** The row an operation deletes. *)
Definition deletes (op : lease_op) (id : string) : Prop :=
  match op with OpDelete _ _ id' => id = id' | _ => False end.

Lemma exec_step op c c' : (∀ id, deletes op id → gone id) → exec op c = Ok c' → catalog_step c c'.
Proof.
  intros Hgone H. destruct op; simpl in H.
  1-4: ok_inv H; destruct x as [l c1]; apply catalog_step_same;
    unfold acquire_namespaced_lease, refresh_namespaced_lease, refresh_lease,
      release_namespaced_lease, takeover_namespaced_lease in Hg; ok_inv Hg; by simplify_eq.
  - unfold create_object, put_object in H. destruct create; ok_inv H; by eapply upsert_in_step.
  - unfold guarded_put in H. ok_inv H. by eapply upsert_in_step.
  - unfold put_objects_inner in H. ok_inv H. by eapply put_loop_step.
  - ok_inv H. destruct x as [ls c1]. unfold refresh_leases_and_guarded_put in Hg. ok_inv Hg.
    destruct x as [c2 ls2]. ok_inv Hg. simplify_eq. apply refresh_loop_tables in Hg0. simpl in *.
    etrans; [by apply catalog_step_same|]. by eapply upsert_in_step.
  - unfold delete_object in H. ok_inv H. simplify_eq. intros Hw. simpl.
    destruct (delete_object_in _ _ _ _) eqn:Hd; [|done]. simplify_eq/=. eapply delete_object_step; [done| |done].
    by apply Hgone.
Qed.

(** A history of the object store: the operations that succeeded, in order.
    One that fails leaves the store as it was. *)
Inductive store_history : list lease_op → Catalog → Catalog → Prop :=
| history_nil c : store_history [] c c
| history_cons op ops c c1 c' : exec op c = Ok c1 → store_history ops c1 c' → store_history (op :: ops) c c'.

Lemma history_step ops c c' :
  (∀ op id, op ∈ ops → deletes op id → gone id) → store_history ops c c' → catalog_step c c'.
Proof.
  intros Hgone Hs. induction Hs as [|op ops c c1 c' Hop _ IH]; [done|].
  etrans; [eapply exec_step; [|done]; intros id; apply Hgone; left|].
  apply IH. intros op' id Hin. apply Hgone. by right.
Qed.

Lemma history_rows_named ops c c' : rows_named c → store_history ops c c' → rows_named c'.
Proof.
  intros Hn Hs. induction Hs as [|op ops c1 c2 c3 Hop _ IH]; [done|].
  apply IH. by eapply exec_rows.
Qed.
End Store.
End Rows.

Section History.
Context {E : PlanEncoding} {J : JsonText}.

(** The rows a history deletes. *)
Definition deleted_in (ops : list lease_op) (id : string) : Prop := ∃ op, op ∈ ops ∧ deletes op id.

Lemma history_tables ops c c' :
  tables_wf (tables c) → store_history ops c c' →
  tables_wf (tables c') ∧ releases_kept (deleted_in ops) (tables c) (tables c')
  ∧ retired_kept (deleted_in ops) (tables c) (tables c').
Proof. intros Hw Hs. eapply (history_step (deleted_in ops)); [|done..]. intros op id Hin Hd. by exists op. Qed.


(** ** Retirement *)

Lemma retirement_encoded o :
  retirement_from_configuration_json (encode_object o) = retirement_from_object o.
Proof.
  unfold retirement_from_configuration_json, retirement_from_object, retirement_from_properties,
    encode_object, json_get, TENANT_RETIREMENT_KEY. simpl.
  rewrite !lookup_insert_ne by done. rewrite lookup_insert_eq. simpl.
  rewrite !lookup_fmap. rewrite !lookup_insert_ne by done. rewrite lookup_empty.
  destruct (properties o !! RETIREMENT_REASON); simpl; [|done].
  destruct (properties o !! RETIREMENT_ACTOR); simpl; [|done].
  destruct (properties o !! RETIREMENT_AT); simpl; [|done]. by destruct (parse_i64 _).
Qed.

(** The operations that decide about leases after a retirement decided at
    [t], by the clock, other than the takeover of the environment's own apply
    lease. *)
Definition after_retirement (name : string) (t : Z) (op : lease_op) : Prop :=
  match op with
  | OpDelete _ _ _ => True
  | OpTakeover _ _ ns k _ _ _ _ _ => t ≤ decided_at op ∧ (ns, k) ≠ (ENVIRONMENT_LEASE_NAMESPACE, name)
  | _ => t ≤ decided_at op
  end.

Lemma inactive_later l t t' : is_active l t = false → t ≤ t' → is_active l t' = false.
Proof.
  unfold is_active. rewrite !andb_false_iff, !Z.ltb_ge. intros [?|?] ?; [by left|right; lia].
Qed.

Definition row_inactive (c : Catalog) (ns k : string) (t : Z) : Prop :=
  ∀ l, catalog_leases c !! (ns, k) = Some l → is_active l t = false.

(** A write to a row that was active leaves an inactive row alone. *)
Lemma save_active_other c ns k t ns' k' tok l l' :
  rows_named c → row_inactive c ns k t → require_active_lease c t ns' k' tok = Ok l →
  lease_namespace l' = lease_namespace l → lease_key l' = lease_key l →
  catalog_leases (save_lease c l') !! (ns, k) = catalog_leases c !! (ns, k).
Proof.
  intros Hn Hi (Hl & _ & Ha)%require_active_ok Hns Hk. simpl. rewrite Hns, Hk.
  destruct (Hn _ _ _ Hl) as [-> ->]. rewrite lookup_insert_ne; [done|]. intros [= -> ->].
  rewrite (Hi l Hl) in Ha. done.
Qed.

Lemma refresh_one_inactive checked_at now acc r acc' ns k :
  rows_named acc.1 → row_inactive acc.1 ns k checked_at →
  refresh_one checked_at now acc r = Ok acc' →
  catalog_leases acc'.1 !! (ns, k) = catalog_leases acc.1 !! (ns, k).
Proof.
  intros Hn Hi H. destruct acc as [c ls]. unfold refresh_one, refresh_lease in H. ok_inv H.
  destruct (extend r); ok_inv H; simplify_eq; [|done]. ok_inv Hg0. simplify_eq.
  by eapply save_active_other.
Qed.

Lemma refresh_loop_inactive checked_at now c rs acc' ns k :
  rows_named c → row_inactive c ns k checked_at →
  try_fold (refresh_one checked_at now) (c, []) rs = Ok acc' →
  catalog_leases acc'.1 !! (ns, k) = catalog_leases c !! (ns, k).
Proof.
  intros Hn Hi H. enough (rows_named acc'.1
    ∧ catalog_leases acc'.1 !! (ns, k) = catalog_leases c !! (ns, k)) by tauto.
  revert H. apply (try_fold_invariant (λ acc, rows_named acc.1
    ∧ catalog_leases acc.1 !! (ns, k) = catalog_leases c !! (ns, k))); [done|].
  intros r a b _ [Hna Ha] H. split.
  - by eapply (refresh_one_rows (OpRelease 0 0 "" "" "")).
  - rewrite <- Ha. eapply refresh_one_inactive; [done| |done]. unfold row_inactive. by rewrite Ha.
Qed.

(** An operation after the retirement leaves the apply lease alone. *)
Lemma later_exec_lease name t op c c' r :
  strip_prefix "tenkai:env:" name = None → environments (tables c) !! env_id name = Some r →
  row_retired r → rows_named c → row_inactive c ENVIRONMENT_LEASE_NAMESPACE name t →
  after_retirement name t op → exec op c = Ok c' →
  catalog_leases c' !! (ENVIRONMENT_LEASE_NAMESPACE, name)
  = catalog_leases c !! (ENVIRONMENT_LEASE_NAMESPACE, name).
Proof.
  intros Hs Hr Hret Hn Hi Hop H.
  assert (Hi' : t ≤ decided_at op → row_inactive c ENVIRONMENT_LEASE_NAMESPACE name (decided_at op)).
  { intros Ht l Hl. eapply inactive_later; [by apply Hi|done]. }
  destruct op; simpl in *; try specialize (Hi' Hop).
  - ok_inv H. destruct x as [l c1]. unfold acquire_namespaced_lease in Hg. ok_inv Hg. simplify_eq.
    simpl. rewrite lookup_insert_ne; [done|]. intros [= -> ->]. simpl in Hg1.
    by erewrite ensure_active_ok in Hg1.
  - ok_inv H. destruct x as [l c1]. unfold refresh_namespaced_lease, refresh_lease in Hg.
    ok_inv Hg. simplify_eq. by eapply save_active_other.
  - ok_inv H. destruct x as [l c1]. unfold release_namespaced_lease in Hg. ok_inv Hg. simplify_eq.
    by eapply save_active_other.
  - ok_inv H. destruct x as [l c1]. unfold takeover_namespaced_lease in Hg. ok_inv Hg. simplify_eq.
    simpl. destruct Hop as [_ Hop]. by rewrite lookup_insert_ne.
  - by apply write_leases in H as ->.
  - unfold guarded_put in H. ok_inv H. by apply upsert_in_leases in H as ->.
  - unfold put_objects_inner in H. ok_inv H. by apply put_loop_leases in H as ->.
  - ok_inv H. destruct x as [ls c1]. unfold refresh_leases_and_guarded_put in Hg. ok_inv Hg.
    destruct x as [c2 ls2]. ok_inv Hg. simplify_eq. apply upsert_in_leases in Hg3. rewrite Hg3.
    by eapply (refresh_loop_inactive _ _ _ _ (c2, ls)).
  - unfold delete_object in H. ok_inv H. by simplify_eq.
Qed.

(** What the object store keeps of the row of a retired environment. *)
Definition retired_row (name : string) (r : EnvironmentRow) (c : Catalog) : Prop :=
  tables_wf (tables c) ∧ rows_named c ∧ environments (tables c) !! env_id name = Some r.

Lemma retired_row_history name r ops c c' :
  strip_prefix "tenkai:env:" name = None → row_retired r → ¬ deleted_in ops (env_id name) →
  store_history ops c c' → retired_row name r c → retired_row name r c'.
Proof.
  intros Hs Hret Hnot H (Hw & Hn & Hr).
  destruct (history_tables ops c c' Hw H) as (Hw' & _ & Hk).
  split_and!; [done|by eapply history_rows_named|]. by destruct (Hk name r Hnot Hs Hr Hret).
Qed.

Lemma history_lease name t r ops c c' :
  strip_prefix "tenkai:env:" name = None → row_retired r → ¬ deleted_in ops (env_id name) →
  Forall (after_retirement name t) ops → store_history ops c c' →
  retired_row name r c → row_inactive c ENVIRONMENT_LEASE_NAMESPACE name t →
  catalog_leases c' !! (ENVIRONMENT_LEASE_NAMESPACE, name) = catalog_leases c !! (ENVIRONMENT_LEASE_NAMESPACE, name).
Proof.
  intros Hs Hret Hnot Hops H. induction H as [|op ops c c1 c' Hop _ IH]; [done|]. intros Hrow Hi.
  apply Forall_cons in Hops as [Hafter Hops].
  assert (Hnot1 : ¬ deleted_in [op] (env_id name)).
  { intros (o & ->%list_elem_of_singleton & Hd). apply Hnot. exists op. split; [left|done]. }
  assert (Hnot' : ¬ deleted_in ops (env_id name)).
  { intros (o & Hin & Hd). apply Hnot. exists o. split; [by right|done]. }
  assert (Hl : catalog_leases c1 !! (ENVIRONMENT_LEASE_NAMESPACE, name)
               = catalog_leases c !! (ENVIRONMENT_LEASE_NAMESPACE, name)).
  { destruct Hrow as (_ & Hn & Hr). by eapply later_exec_lease. }
  rewrite <- Hl. apply IH; [done|done| |unfold row_inactive; by rewrite Hl].
  eapply (retired_row_history name r [op]); [done|done|done| |done]. eapply history_cons; [done|constructor].
Qed.

(** The write that retires an environment. *)
Lemma retire_establishes clock c0 o c name :
  tables_wf (tables c0) → rows_named c0 → object_kind o = KIND_ENVIRONMENT →
  object_id o = env_id name → object_name o = name → is_retired_object o = true →
  upsert_in clock c0 o = Ok c →
  ∃ r, row_retired r ∧ retired_row name r c
    ∧ catalog_leases c = catalog_leases c0
    ∧ row_inactive c ENVIRONMENT_LEASE_NAMESPACE name (clock (env_id name)).2.
Proof.
  intros Hw Hn Hk Hid Hname Hret H. assert (Hw' := proj1 (upsert_in_step (λ _, False) _ _ _ _ H Hw)).
  assert (Hl' := upsert_in_leases _ _ _ _ H). unfold upsert_in in H. rewrite Hid in H.
  destruct (clock (env_id name)) as [ca la]. ok_inv H. simplify_eq.
  unfold upsert_object_in in Hg. rewrite bool_decide_true in Hg by done.
  unfold upsert_environment_in in Hg. rewrite Hret in Hg. destruct (_ : result _ _) eqn:Hu in Hg; [|done].
  simplify_eq/=. ok_inv Hu. simplify_eq. destruct Hg0 as [_ Hl].
  eexists {| configuration_json := encode_object o |}. split; [|split; [split_and!|split]].
  - unfold row_retired. simpl. rewrite retirement_encoded. by apply is_some_b_true.
  - done.
  - done.
  - simpl. by rewrite Hid, lookup_insert_eq.
  - done.
  - intros l Hlease. simpl in Hlease. unfold apply_lease in Hl. by rewrite Hlease in Hl.
Qed.

(** C29: retirement is final. Once an environment is retired, and whatever
    operations of the object store run later, in any order and under any clock
    readings, as long as the environment's own row is not deleted, which is
    refused while it has a plan: its row never changes and refuses every
    update, its apply lease is never acquired again, and no plan is created for
    it.  If moreover no clock reading of these operations is before the
    retirement's and its apply lease is not explicitly taken over, that lease
    stays the inactive one it was. *)
Theorem retirement_is_final clock c0 o c c' name ops :
  tables_wf (tables c0) → rows_named c0 → strip_prefix "tenkai:env:" name = None →
  object_kind o = KIND_ENVIRONMENT → object_id o = env_id name → object_name o = name →
  is_retired_object o = true → upsert_in clock c0 o = Ok c →
  store_history ops c c' → ¬ deleted_in ops (env_id name) →
  environments (tables c') !! env_id name = environments (tables c) !! env_id name
  ∧ (∀ now holder token ttl,
       is_ok (acquire_namespaced_lease c' now ENVIRONMENT_LEASE_NAMESPACE name holder token ttl) = false)
  ∧ (∀ clock' o', object_kind o' = KIND_ENVIRONMENT → object_id o' = env_id name →
       is_ok (upsert_in clock' c' o') = false)
  ∧ (∀ id p, plans (tables c') !! id = Some p → row_environment_id p = env_id name →
       is_Some (plans (tables c) !! id)
       ∧ ∀ rp re, id ≠ env_id name → is_ok (delete_object rp re c' (env_id name)) = false)
  ∧ (Forall (after_retirement name (clock (env_id name)).2) ops →
       catalog_leases c' !! (ENVIRONMENT_LEASE_NAMESPACE, name)
       = catalog_leases c0 !! (ENVIRONMENT_LEASE_NAMESPACE, name)
       ∧ row_inactive c' ENVIRONMENT_LEASE_NAMESPACE name (clock (env_id name)).2).
Proof.
  intros Hw Hn Hs Hk Hid Hname Hret H Hsteps Hnot.
  destruct (retire_establishes clock c0 o c name) as (r & Hr & Hc & Hl & Hi); [done..|].
  assert (Hc' : retired_row name r c') by (by eapply retired_row_history).
  destruct Hc as (Hwc & Hnc & Hrc). destruct Hc' as (Hw' & _ & Hr').
  split_and!; [congruence|..].
  - intros now holder token ttl. unfold acquire_namespaced_lease. destruct (ttl <=? 0); [done|].
    rewrite bool_decide_true by done. by erewrite ensure_active_ok.
  - intros clock' o' Hk' Hid'. unfold upsert_in, upsert_object_in, upsert_environment_in.
    destruct (clock' _). rewrite bool_decide_true by done. rewrite Hid', Hr'. simpl.
    destruct Hr as [ret Hr]. by rewrite Hr.
  - intros id p Hp Hpe. split.
    + destruct (history_tables ops c c' Hwc Hsteps) as (_ & _ & Hkept).
      destruct (Hkept name r Hnot Hs Hrc Hr) as [_ Hplans]. destruct (Hplans id p Hp Hpe) as (? & ? & _).
      by eexists.
    + intros rp re Hne. unfold delete_object, delete_object_in. destruct (is_some_b _ && rp); [done|].
      rewrite Hr'. simpl. rewrite bool_decide_eq_true_2; [by rewrite orb_true_r|].
      exists id, p. split; [by rewrite lookup_delete_ne|done].
  - intros Hops. assert (Hlease : catalog_leases c' !! (ENVIRONMENT_LEASE_NAMESPACE, name)
      = catalog_leases c !! (ENVIRONMENT_LEASE_NAMESPACE, name)) by (by eapply history_lease).
    rewrite <- Hl, <- Hlease. split; [done|]. unfold row_inactive. by rewrite Hlease.
Qed.
End History.

(** ** A small history *)
Module StoreExamples.
#[local] Existing Instance PlainEncoding.instance.
#[local] Instance no_text : JsonText := {| json_text := λ _, "" |}.

Definition clock (now : Z) (_ : string) : Z * Z := (now, now).

Definition empty_store : Catalog := {| catalog_leases := ∅; tables := empty_tables |}.

Definition release : Object := {|
  object_id := release_id "web" "1.0.0"; object_kind := KIND_RELEASE; object_name := "web";
  object_namespace := NS; external_id := "";
  properties := list_to_map [("product", "web"); ("version", "1.0.0"); ("digest", "d1")];
  created := 1; updated := 1 |}.

Definition env_object (ps : list (string * string)) : Object := {|
  object_id := env_id "prod"; object_kind := KIND_ENVIRONMENT; object_name := "prod";
  object_namespace := NS; external_id := ""; properties := list_to_map ps;
  created := 1; updated := 1 |}.

Definition retired_prod : Object := env_object
  [(RETIREMENT_REASON, "moved"); (RETIREMENT_ACTOR, "ops"); (RETIREMENT_AT, "7")].

Definition after (ops : list lease_op) (c : Catalog) : result Catalog lease_error :=
  try_fold (λ c op, exec op c) c ops.

Definition state_of (r : result Catalog lease_error) : Catalog :=
  match r with Ok c => c | Err _ => empty_store end.

Definition published : Catalog := state_of (after [OpWrite 2 (clock 2) release true] empty_store).

(** A second write of the release under another digest is refused. *)
Example republish_refused :
  exec (OpWrite 3 (clock 3) {|
    object_id := object_id release; object_kind := KIND_RELEASE; object_name := "web";
    object_namespace := NS; external_id := "";
    properties := <["digest" := "d2"]> (properties release); created := 1; updated := 3 |} false)
    published
  = Err (StoreFailed (ReleaseConflict "tenkai:release:web@1.0.0")).
Proof. vm_compute. reflexivity. Qed.

Lemma empty_tables_wf : tables_wf empty_tables.
Proof. by split. Defined.

(** The release is published, its channel set, and the channel deleted. *)
Definition stable : Object := {|
  object_id := "tenkai:channel:web:stable"; object_kind := KIND_CHANNEL; object_name := "stable";
  object_namespace := NS; external_id := "";
  properties := list_to_map [("product", "web"); ("name", "stable"); ("current_release", release_id "web" "1.0.0")];
  created := 3; updated := 3 |}.



(** Not the release while the channel points at it. *)
Example pointed_release_kept :
  after [OpWrite 3 (clock 3) stable true; OpDelete false false (release_id "web" "1.0.0")] published
  = Err (StoreFailed (StillReferenced "releases" "tenkai:release:web@1.0.0")).
Proof. vm_compute. reflexivity. Qed.

Lemma after_history ops c c' : after ops c = Ok c' → store_history ops c c'.
Proof.
  unfold after. revert c. induction ops as [|op ops IH]; simpl; intros c H; [injection H as <-; constructor|].
  destruct (exec op c) as [c1|] eqn:Hop; [|done]. eapply history_cons; [done|by apply IH].
Defined.



Definition held : Catalog := state_of (after
  [OpWrite 2 (clock 2) (env_object []) true;
   OpAcquire 3 ENVIRONMENT_LEASE_NAMESPACE "prod" "a" "t1" 2] empty_store).

(** Not while the apply lease is active. *)
Example retire_waits_for_the_lease :
  upsert_in (clock 4) held retired_prod = Err (StoreFailed (ActiveDeliveryWork "prod")).
Proof. vm_compute. reflexivity. Qed.

Definition retired : Catalog := state_of (upsert_in (clock 7) held retired_prod).

(** Later a plan is refused and another environment is deleted. *)
Definition other_env : Object := {|
  object_id := env_id "edge"; object_kind := KIND_ENVIRONMENT; object_name := "edge";
  object_namespace := NS; external_id := ""; properties := ∅; created := 8; updated := 8 |}.

Definition later_ops : list lease_op :=
  [OpWrite 8 (clock 8) other_env true; OpDelete false false (env_id "edge")].

Definition later : Catalog := state_of (after later_ops retired).

Lemma held_history : store_history [OpWrite 2 (clock 2) (env_object []) true;
   OpAcquire 3 ENVIRONMENT_LEASE_NAMESPACE "prod" "a" "t1" 2] empty_store held.
Proof. apply after_history. vm_compute. reflexivity. Qed.

Lemma held_wf : tables_wf (tables held).
Proof. exact (proj1 (history_tables _ empty_store held empty_tables_wf held_history)). Qed.

Lemma retirement_is_final_witness :
  environments (tables later) !! env_id "prod" = environments (tables retired) !! env_id "prod"
  ∧ (∀ now holder token ttl,
       is_ok (acquire_namespaced_lease later now ENVIRONMENT_LEASE_NAMESPACE "prod" holder token ttl)
       = false)
  ∧ catalog_leases later !! (ENVIRONMENT_LEASE_NAMESPACE, "prod")
    = catalog_leases held !! (ENVIRONMENT_LEASE_NAMESPACE, "prod").
Proof.
  destruct (retirement_is_final (clock 7) held retired_prod retired later "prod" later_ops)
    as (Hrow & Hacquire & _ & _ & Hlease).
  - exact held_wf.
  - exact (history_rows_named _ empty_store held ltac:(done) held_history).
  - reflexivity.
  - reflexivity.
  - reflexivity.
  - reflexivity.
  - vm_compute. reflexivity.
  - vm_compute. reflexivity.
  - apply after_history. vm_compute. reflexivity.
  - intros (op & [->|Hin]%elem_of_cons & Hd); [exact Hd|]. apply list_elem_of_singleton in Hin as ->. discriminate Hd.
  - split; [exact Hrow|]. split; [exact Hacquire|]. apply Hlease.
    repeat constructor; vm_compute; discriminate.
Defined.
End StoreExamples.
