(* ===== verification/PlanQueries.v ===== *)
(** * Queries over stored plans

    The property index of the embedded store
    ([storage/sqlite_objects/links.rs: find_by_property_matching]) and the plan
    queries built on it ([plan/lifecycle.rs]): the plans of one environment in
    given states, oldest first and in windows, and the checks that refuse to
    select work when an index disagrees with the plan it indexes. *)

From S2P Require Import Prelude RustStr Kinds Facts Compatibility Plan ObjectStore Leases StoreHistory.

(** ** The property index *)

Record PropertyIndexQuery := {
  q_kind : string; q_key : string; q_value : string;
  matching_key : option string; matching_values : list string;
  equals_key : option string; equals_value : option string;
  order_key : option string; descending : bool;
  limit : option Z; offset : option Z
}.

(** [CAST(text AS INTEGER)] of SQLite, and the decoding of parts of a plan's
    JSON. *)
Record PlanPayloadPeek := {
  peek_created_at : Z; peek_environment : string; peek_state : PlanState; peek_steps_empty : bool
}.

Class Queries := {
  cast_integer : string → Z;
  peek_plan_json : string → option PlanPayloadPeek;
  peek_environment_json : string → option string
}.

Definition peek_of (p : Plan) : PlanPayloadPeek := {|
  peek_created_at := created_at p; peek_environment := plan_environment p;
  peek_state := plan_state p; peek_steps_empty := steps_empty p |}.

(** An integer casts to its value; a part of a plan decodes to that part. *)
Class QueriesLaws (E : PlanEncoding) (Q : Queries) : Prop := {
  cast_parsed s z : parse_i64 s = Some z → cast_integer s = z;
  peek_decoded raw p : plan_of_json raw = Some p → peek_plan_json raw = Some (peek_of p);
  peek_environment_decoded raw p :
    plan_of_json raw = Some p → peek_environment_json raw = Some (plan_environment p)
}.

Inductive query_error :=
| EmptyKindOrKey
| OffsetWithoutLimit
| NoEnvironmentGiven
| NoPayload (id : string)
| UnreadablePayload (id : string)
| IndexMismatch (id index : string)
| IndexMissing (id index : string)
| WrongEnvironment (id environment : string)
| WrongStatus (id : string)
| OmittedPlan (id : string)
| NotEmptyPlan (id : string)
| StoredPlan (error : plan_error)
| QueryStore (error : store_error).

(** NULL sorts before every integer. *)
Definition null_cmp (x y : option Z) : comparison :=
  match x, y with
  | None, None => Eq
  | None, Some _ => Lt
  | Some _, None => Gt
  | Some a, Some b => Z.compare a b
  end.

#[export] Instance null_cmp_ordered : Ordered null_cmp.
Proof.
  split.
  - intros [x|] [y|]; simpl; [apply Z.compare_antisym|done..].
  - intros [x|] [y|] [z|]; simpl; try done. rewrite !Z.compare_gt_iff. lia.
Qed.

Section Queries.
Context {E : PlanEncoding} {J : JsonText} {Q : Queries}.

(** The row of the property table an inner join finds. *)
Definition indexed (t : Tables) (kind key : string) (id : string) : option string :=
  match object_properties t !! id with
  | Some (k, ps) => if bool_decide (k = kind) then ps !! key else None
  | None => None
  end.

Definition query_matches (t : Tables) (q : PropertyIndexQuery) (id : string) : bool :=
  bool_decide (indexed t (q_kind q) (q_key q) id = Some (q_value q))
  && match matching_key q with
     | Some key => is_some_and (indexed t (q_kind q) key id) (λ v, bool_decide (v ∈ matching_values q))
     | None => true
     end
  && match equals_key q, equals_value q with
     | Some key, Some value => bool_decide (indexed t (q_kind q) key id = Some value)
     | _, _ => true
     end.

Definition query_cmp (t : Tables) (q : PropertyIndexQuery) (x y : string * Object) : comparison :=
  match order_key q with
  | Some key =>
    let c := cmp_lex (cmp_on (λ r, cast_integer <$> indexed t (q_kind q) key r.1) null_cmp)
               (cmp_on fst String.compare) x y in
    if descending q then CompOpp c else c
  | None => String.compare x.1 y.1
  end.

#[export] Instance query_cmp_ordered t q : Ordered (query_cmp t q).
Proof.
  unfold query_cmp. destruct (order_key q) as [key|]; [|apply cmp_on_ordered; apply _].
  set (c := cmp_lex _ _). assert (Hc : Ordered c) by apply _. destruct (descending q); [|done].
  split.
  - intros x y. by rewrite (cmp_antisym c x y).
  - intros x y z. rewrite <- !(cmp_antisym c). intros Hxy Hyz. by apply (cmp_trans c z y x).
Qed.

(** The ordered rows before LIMIT and OFFSET. *)
Definition query_rows (t : Tables) (q : PropertyIndexQuery) : list Object :=
  snd <$> sort_by (query_cmp t q)
    (filter (λ r, query_matches t q r.1 = true) (map_to_list (catalog_objects t))).

Definition window (q : PropertyIndexQuery) (rows : list Object) : list Object :=
  let from := match offset q with Some n => drop (Z.to_nat n) rows | None => rows end in
  match limit q with Some n => take (Z.to_nat n) from | None => from end.

(** [find_catalog]. *)
Definition find_catalog (t : Tables) (q : PropertyIndexQuery) : result (list Object) query_error :=
  bail_if str_is_empty (trim (q_kind q)) || str_is_empty (trim (q_key q)) with EmptyKindOrKey in
  if is_some_b (matching_key q) && bool_decide (matching_values q = []) then Ok []
  else
    bail_if is_some_b (offset q) && negb (is_some_b (limit q)) with OffsetWithoutLimit in
    Ok (window q (query_rows t q)).

(** [find_by_property_matching]: plans without a row of their own are left
    out, after the window is cut. *)
Definition find_by_property_matching (t : Tables) (q : PropertyIndexQuery) :
    result (list Object) query_error :=
  let? found := find_catalog t q in
  Ok (if bool_decide (q_kind q = KIND_PLAN)
      then filter (λ o, is_Some (plans t !! object_id o)) found else found).

(** [list_plans]: the stored object of every row, by id. *)
Definition plan_object (now : Z) (t : Tables) (found : list Object) (r : string * PlanRow) :
    result (list Object) query_error :=
  match catalog_objects t !! r.1 with
  | Some stored => Ok (found ++ [stored])
  | None => let? o := map_err QueryStore (plan_record_to_object now r.1 r.2) in Ok (found ++ [o])
  end.

Definition list_plans (now : Z) (t : Tables) : result (list Object) query_error :=
  try_fold (plan_object now t) [] (btree_iter (plans t)).

(** ** Plans of an environment *)

Definition environment_plan_index_query (environment : string) (statuses : option (list PlanState))
    (desc : bool) (lim off : option Z) (has_steps : option bool) : PropertyIndexQuery := {|
  q_kind := KIND_PLAN; q_key := "environment"; q_value := environment;
  matching_key := (λ _, "status") <$> statuses;
  matching_values := PlanState_str <$> default [] statuses;
  equals_key := (λ _, "has_steps") <$> has_steps;
  equals_value := (λ b : bool, if b then "true" else "false") <$> has_steps;
  order_key := Some "created_at"; descending := desc; limit := lim; offset := off |}.

(** [map_environment_plan_objects], up to its continuation. *)
Definition environment_plan_objects (t : Tables) (environment : string)
    (statuses : option (list PlanState)) (desc : bool) (lim off : option Z)
    (has_steps : option bool) : result (list Object) query_error :=
  bail_if str_is_empty (trim environment) with NoEnvironmentGiven in
  find_by_property_matching t (environment_plan_index_query environment statuses desc lim off has_steps).

(** [plans_from_objects]. *)
Definition plan_from_object (environment : string) (statuses : option (list PlanState))
    (has_steps : option bool) (found : list Plan) (o : Object) : result (list Plan) query_error :=
  let? p := map_err StoredPlan (from_object o) in
  bail_if negb (bool_decide (plan_environment p = environment))
    with (WrongEnvironment (plan_id_of p) (plan_environment p)) in
  bail_if is_some_and statuses (λ allowed, negb (bool_decide (plan_state p ∈ allowed)))
    with (WrongStatus (plan_id_of p)) in
  if is_some_and has_steps (λ want, Bool.eqb (steps_empty p) want) then Ok found
  else Ok (found ++ [p]).

Definition plans_from_objects (objects : list Object) (environment : string)
    (statuses : option (list PlanState)) (has_steps : option bool) : result (list Plan) query_error :=
  try_fold (plan_from_object environment statuses has_steps) [] objects.

(** [load_for_environment]. *)
Definition load_for_environment (t : Tables) (environment : string)
    (statuses : option (list PlanState)) (desc : bool) (lim off : option Z)
    (has_steps : option bool) : result (list Plan) query_error :=
  let? objects := environment_plan_objects t environment statuses desc lim off has_steps in
  plans_from_objects objects environment statuses has_steps.

Definition EXECUTABLE_ADMISSION_BATCH : Z := 8.

Definition executable_batch_for_environment (t : Tables) (environment : string)
    (statuses : list PlanState) (lim off : Z) : result (list Plan) query_error :=
  load_for_environment t environment (Some statuses) false (Some lim) (Some off) (Some true).

(** [load_oldest_for_environment]: the last of at most one. *)
Definition load_oldest_for_environment (t : Tables) (environment : string)
    (statuses : list PlanState) : result (option Plan) query_error :=
  let? found := load_for_environment t environment (Some statuses) false (Some 1) None (Some true) in
  Ok (last found).

(** ** Index checks *)

Definition peek_plan_payload (o : Object) : result PlanPayloadPeek query_error :=
  let? raw := ok_or (properties o !! "plan") (NoPayload (object_id o)) in
  ok_or (peek_plan_json raw) (UnreadablePayload (object_id o)).

Definition peek_plan_environment (o : Object) : result string query_error :=
  let? raw := ok_or (properties o !! "plan") (NoPayload (object_id o)) in
  ok_or (peek_environment_json raw) (UnreadablePayload (object_id o)).

Definition require_indexed_created_at (o : Object) : result PlanPayloadPeek query_error :=
  let? raw := ok_or (properties o !! "created_at") (IndexMissing (object_id o) "created_at") in
  let? at_ms := ok_or (parse_i64 raw) (IndexMismatch (object_id o) "created_at") in
  let? peek := peek_plan_payload o in
  bail_if negb (at_ms =? peek_created_at peek) with (IndexMismatch (object_id o) "created_at") in
  Ok peek.

Definition require_indexed_identity (o : Object) : result PlanPayloadPeek query_error :=
  let id := object_id o in
  let? peek := require_indexed_created_at o in
  let? env := ok_or (properties o !! "environment") (IndexMissing id "environment") in
  bail_if negb (bool_decide (env = peek_environment peek)) with (IndexMismatch id "environment") in
  let? status := ok_or (properties o !! "status") (IndexMissing id "status") in
  bail_if negb (bool_decide (status = PlanState_str (peek_state peek)))
    with (IndexMismatch id "status") in
  let? _ := map_err StoredPlan (require_has_steps_index o (peek_steps_empty peek)) in
  Ok peek.

(** [reject_retargeted_environment_index], for one object. *)
Definition not_retargeted (environment : string) (o : Object) : result unit query_error :=
  match peek_plan_environment o with
  | Err error =>
    if bool_decide (properties o !! "environment" = Some environment) then Err error else Ok tt
  | Ok found =>
    if negb (bool_decide (found = environment)) then Ok tt
    else match properties o !! "environment" with
         | Some index =>
           bail_if negb (bool_decide (index = environment))
             with (IndexMismatch (object_id o) "environment") in Ok tt
         | None => Err (IndexMissing (object_id o) "environment")
         end
  end.

Definition reject_retargeted_environment_index (objects : list Object) (environment : string) :
    result unit query_error := try_for_each (not_retargeted environment) objects.

(** [omit_index] of a snapshot, for one environment. *)
Definition indexed_under (environment : string) (o : Object) : bool :=
  match peek_plan_environment o with
  | Ok found => bool_decide (found = environment)
                && bool_decide (properties o !! "environment" = Some environment)
  | Err _ => false
  end.

Definition omit_index (snapshot : list Object) (environment : string) : list string :=
  object_id <$> filter (λ o, indexed_under environment o = true) snapshot.

Definition reject_omit_from_index (expected : list string) (found : list Object) :
    result unit query_error :=
  try_for_each (λ id, bail_if negb (bool_decide (id ∈ object_id <$> found)) with (OmittedPlan id) in Ok tt)
    expected.

Definition identified_in (environment : string) (o : Object) : result unit query_error :=
  let? peek := require_indexed_identity o in
  bail_if negb (bool_decide (peek_environment peek = environment))
    with (WrongEnvironment (object_id o) (peek_environment peek)) in
  Ok tt.

(** [require_environment_indexes_match_payloads]; the embedded store has no
    shared snapshot. *)
Definition require_environment_indexes_match_payloads (snapshot : option (list Object)) (now : Z)
    (t : Tables) (environment : string) : result unit query_error :=
  let? listed := list_plans now t in
  let? _ := reject_retargeted_environment_index listed environment in
  let? objects := environment_plan_objects t environment None true None None None in
  let? _ := match snapshot with
            | Some objs => reject_omit_from_index (omit_index objs environment) objects
            | None => Ok tt
            end in
  try_for_each (identified_in environment) objects.

(** [newest_plan_from_objects]. *)
Definition newer (environment : string) (newest : option (Z * Object)) (o : Object) :
    result (option (Z * Object)) query_error :=
  let? peek := require_indexed_identity o in
  bail_if negb (bool_decide (peek_environment peek = environment))
    with (WrongEnvironment (object_id o) (peek_environment peek)) in
  Ok (if is_none_or newest (λ '(best, _), best <? peek_created_at peek)
      then Some (peek_created_at peek, o) else newest).

Definition newest_plan_from_objects (objects : list Object) (environment : string) :
    result (option Plan) query_error :=
  let? newest := try_fold (newer environment) None objects in
  match newest with
  | Some (_, o) => let? p := map_err StoredPlan (from_object o) in Ok (Some p)
  | None => Ok None
  end.

Definition latest_for_environment (snapshot : option (list Object)) (now : Z) (t : Tables)
    (environment : string) : result (option Plan) query_error :=
  let? listed := list_plans now t in
  let? _ := reject_retargeted_environment_index listed environment in
  let? objects := environment_plan_objects t environment None true None None None in
  let? _ := match snapshot with
            | Some objs => reject_omit_from_index (omit_index objs environment) objects
            | None => Ok tt
            end in
  newest_plan_from_objects objects environment.
End Queries.

(** ** What the queries find *)

Section Exact.
Context {E : PlanEncoding} {J : JsonText} {Q : Queries}.

Lemma elem_query_rows t q o :
  o ∈ query_rows t q ↔ ∃ id, catalog_objects t !! id = Some o ∧ query_matches t q id = true.
Proof.
  unfold query_rows. rewrite list_elem_of_fmap. split.
  - intros ([id o'] & -> & Hin). apply elem_of_sort_by, list_elem_of_filter in Hin as [Hm Hin].
    apply elem_of_map_to_list in Hin. eauto.
  - intros (id & Ho & Hm). exists (id, o). split; [done|].
    by apply elem_of_sort_by, list_elem_of_filter, conj, elem_of_map_to_list.
Qed.

Lemma indexed_exact t kind key id o :
  tables_wf t → catalog_objects t !! id = Some o →
  indexed t kind key id = if bool_decide (object_kind o = kind) then properties o !! key else None.
Proof. intros Hw Ho. unfold indexed. by rewrite (index_exact _ Hw), lookup_fmap, Ho. Qed.

Definition keeps (has_steps : option bool) (p : Plan) : Prop :=
  is_none_or has_steps (λ want, negb (Bool.eqb (steps_empty p) want)) = true.

#[export] Instance keeps_dec has_steps p : Decision (keeps has_steps p).
Proof. unfold keeps. apply _. Defined.

Definition in_states (statuses : option (list PlanState)) (p : Plan) : Prop :=
  is_none_or statuses (λ allowed, bool_decide (plan_state p ∈ allowed)) = true.

(** The index rows of a query of one environment's plans. *)
Lemma environment_query_matches t env statuses desc lim off has_steps id o :
  tables_wf t → catalog_objects t !! id = Some o →
  query_matches t (environment_plan_index_query env statuses desc lim off has_steps) id = true ↔
  object_kind o = KIND_PLAN ∧ properties o !! "environment" = Some env
  ∧ (∀ allowed, statuses = Some allowed →
       ∃ s, properties o !! "status" = Some s ∧ s ∈ PlanState_str <$> allowed)
  ∧ ∀ want, has_steps = Some want →
       properties o !! "has_steps" = Some (if want then "true" else "false").
Proof.
  intros Hw Ho. unfold query_matches. rewrite !andb_true_iff. simpl.
  rewrite bool_decide_eq_true, (indexed_exact _ _ _ _ _ Hw Ho).
  destruct (decide (object_kind o = KIND_PLAN)) as [Hk|Hk].
  2: { rewrite bool_decide_false by done. naive_solver. }
  rewrite (bool_decide_true _ Hk). split.
  - intros [[He Hs] Hh]. split_and!; [done..| |].
    + intros allowed ->. simpl in Hs. rewrite (indexed_exact _ _ _ _ _ Hw Ho), (bool_decide_true _ Hk) in Hs.
      destruct (properties o !! "status") as [s|]; [|done]. simpl in Hs.
      apply bool_decide_eq_true in Hs. eauto.
    + intros want ->. simpl in Hh. rewrite (indexed_exact _ _ _ _ _ Hw Ho), (bool_decide_true _ Hk) in Hh.
      by apply bool_decide_eq_true in Hh.
  - intros (_ & He & Hs & Hh). split_and!; [done| |].
    + destruct statuses as [allowed|]; [simpl|done]. destruct (Hs _ eq_refl) as (s & Hs' & Hin).
      rewrite (indexed_exact _ _ _ _ _ Hw Ho), (bool_decide_true _ Hk), Hs'. simpl.
      by apply bool_decide_eq_true.
    + destruct has_steps as [want|]; [simpl|done].
      rewrite (indexed_exact _ _ _ _ _ Hw Ho), (bool_decide_true _ Hk). apply bool_decide_eq_true. auto.
Qed.

(** A query without a window finds what the index has. *)
Lemma environment_plan_objects_elem t env statuses desc has_steps objects o :
  tables_wf t →
  environment_plan_objects t env statuses desc None None has_steps = Ok objects →
  o ∈ objects ↔ ∃ id, catalog_objects t !! id = Some o ∧ is_Some (plans t !! id)
    ∧ query_matches t (environment_plan_index_query env statuses desc None None has_steps) id = true.
Proof.
  intros Hw H. unfold environment_plan_objects, find_by_property_matching, find_catalog in H.
  ok_inv H. simpl in H. injection H as <-. ok_inv Hg0. rewrite list_elem_of_filter.
  destruct (is_some_b _ && bool_decide _) eqn:Hempty.
  - injection Hg0 as <-. rewrite elem_of_nil. split; [tauto|]. intros (id & Ho & _ & Hm). exfalso.
    apply (environment_query_matches _ _ _ _ _ _ _ _ _ Hw Ho) in Hm as (_ & _ & Hs & _).
    destruct statuses as [[|s l]|]; try done. destruct (Hs _ eq_refl) as (? & _ & []%elem_of_nil).
  - ok_inv Hg0. injection Hg0 as <-. unfold window. simpl. rewrite elem_query_rows. split.
    + intros [Hp (id & Ho & Hm)]. exists id. by rewrite (objects_named _ Hw _ _ Ho) in Hp.
    + intros (id & Ho & Hp & Hm). split; [|by eauto]. by rewrite (objects_named _ Hw _ _ Ho).
Qed.

Lemma keeps_false has_steps p :
  keeps has_steps p ↔ is_some_and has_steps (λ want, Bool.eqb (steps_empty p) want) = false.
Proof. unfold keeps. destruct has_steps; simpl; [apply negb_true_iff|done]. Qed.

(** Every object a load sees is a plan of the environment in the states it
    asked for. *)
Lemma plans_from_objects_ok objects env statuses has_steps acc l :
  try_fold (plan_from_object env statuses has_steps) acc objects = Ok l →
  ∃ ps, l = acc ++ filter (keeps has_steps) ps
    ∧ Forall2 (λ o p, from_object o = Ok p ∧ plan_environment p = env
        ∧ in_states statuses p) objects ps.
Proof.
  revert acc. induction objects as [|o objects IH]; intros acc H; simpl in H.
  { injection H as <-. exists []. by rewrite app_nil_r. }
  apply bind_ok in H as (acc' & H & Hrest). unfold plan_from_object in H. ok_inv H.
  apply IH in Hrest as (ps & -> & Hps). exists (x :: ps). split.
  - rewrite filter_cons. case_decide as Hk; rewrite keeps_false in Hk.
    + rewrite Hk in H. injection H as <-. by rewrite <- app_assoc.
    + apply not_false_iff_true in Hk. rewrite Hk in H. by injection H as <-.
  - constructor; [|done]. split_and!; [done..|]. destruct statuses as [allowed|]; [|done].
    simpl in *. by apply negb_false_iff in Hg1.
Qed.

Lemma list_plans_elem now t listed id row o :
  list_plans now t = Ok listed → plans t !! id = Some row → catalog_objects t !! id = Some o →
  o ∈ listed.
Proof.
  unfold list_plans. intros H Hrow Ho.
  assert (Hin : (id, row) ∈ btree_iter (plans t)) by by apply elem_of_btree_iter.
  apply list_elem_of_split in Hin as (before & rest & Hrows).
  rewrite Hrows, try_fold_app in H. apply bind_ok in H as (acc & _ & H). simpl in H.
  apply bind_ok in H as (acc' & H & Hrest). unfold plan_object in H. simpl in H. rewrite Ho in H.
  injection H as <-. revert Hrest.
  apply (try_fold_invariant (λ l, o ∈ l)); [set_solver|].
  intros r s s' _ Hs H. unfold plan_object in H.
  destruct (catalog_objects t !! r.1); ok_inv H; injection H as <-; set_solver.
Qed.

Context {QL : QueriesLaws E Q}.

Lemma identified_index env o raw p :
  identified_in env o = Ok tt → properties o !! "plan" = Some raw → plan_of_json raw = Some p →
  properties o !! "status" = Some (PlanState_str (plan_state p))
  ∧ properties o !! "has_steps" = Some (has_steps_index (steps_empty p)).
Proof.
  unfold identified_in, require_indexed_identity, require_indexed_created_at, peek_plan_payload.
  intros H Hraw Hp. ok_inv H. ok_inv Hg. ok_inv Hg1. simplify_eq.
  rewrite Hraw in Hg9. simpl in Hg9. rewrite (peek_decoded _ _ Hp) in Hg9. simplify_eq/=.
  destruct x3. by apply require_has_steps_index_ok in Hg6.
Qed.

Lemma index_checked now t env id row o raw p :
  tables_wf t → require_environment_indexes_match_payloads None now t env = Ok tt →
  plans t !! id = Some row → catalog_objects t !! id = Some o → object_kind o = KIND_PLAN →
  properties o !! "plan" = Some raw → plan_of_json raw = Some p → plan_environment p = env →
  properties o !! "environment" = Some env
  ∧ properties o !! "status" = Some (PlanState_str (plan_state p))
  ∧ properties o !! "has_steps" = Some (has_steps_index (steps_empty p)).
Proof.
  intros Hw H Hrow Ho Hk Hraw Hp Henv.
  unfold require_environment_indexes_match_payloads in H. ok_inv H. destruct x0.
  assert (He : properties o !! "environment" = Some env).
  { apply try_for_each_ok with (a := o) in Hg0; [|by eapply list_plans_elem].
    unfold not_retargeted, peek_plan_environment in Hg0. rewrite Hraw in Hg0. simpl in Hg0.
    rewrite (peek_environment_decoded _ _ Hp), Henv in Hg0. simpl in Hg0.
    rewrite bool_decide_true in Hg0 by done. simpl in Hg0.
    destruct (properties o !! "environment") as [i|]; [|done]. by case_bool_decide; subst. }
  split; [done|]. apply (identified_index env o raw p); [|done..].
  rewrite try_for_each_ok in H. apply H.
  apply (environment_plan_objects_elem _ _ _ _ _ _ _ Hw Hg1). exists id.
  split_and!; [done|by eexists|].
  by apply (environment_query_matches _ _ _ _ _ _ _ _ _ Hw Ho).
Qed.

Lemma status_in_states statuses allowed p :
  statuses = Some allowed → in_states statuses p → PlanState_str (plan_state p) ∈ PlanState_str <$> allowed.
Proof. intros -> Hin%bool_decide_eq_true. by apply list_elem_of_fmap_2. Qed.

Lemma keeps_index has_steps want p :
  has_steps = Some want → keeps has_steps p →
  has_steps_index (steps_empty p) = if want then "true" else "false".
Proof. intros ->. unfold keeps. simpl. by destruct (steps_empty p), want. Qed.

Definition created_le (o o' : Object) : Prop :=
  null_cmp (cast_integer <$> properties o !! "created_at")
    (cast_integer <$> properties o' !! "created_at") ≠ Gt.

Lemma query_rows_sorted t env statuses lim off has_steps :
  tables_wf t →
  StronglySorted created_le
    (query_rows t (environment_plan_index_query env statuses false lim off has_steps)).
Proof.
  intros Hw. unfold query_rows. set (q := environment_plan_index_query _ _ _ _ _ _).
  set (rows := filter _ _).
  assert (Hrows : ∀ r, r ∈ sort_by (query_cmp t q) rows →
            indexed t KIND_PLAN "created_at" r.1 = properties r.2 !! "created_at").
  { intros [id o] Hr. apply elem_of_sort_by, list_elem_of_filter in Hr as [Hm Ho].
    apply elem_of_map_to_list in Ho. simpl in *.
    apply (environment_query_matches _ _ _ _ _ _ _ _ _ Hw Ho) in Hm as [Hk _].
    rewrite (indexed_exact _ _ _ _ _ Hw Ho). by rewrite bool_decide_true. }
  apply (StronglySorted_Forall2 (λ a b, query_cmp t q a b ≠ Gt) _
    (λ r o, o = r.2 ∧ indexed t KIND_PLAN "created_at" r.1 = properties r.2 !! "created_at")
    (sort_by (query_cmp t q) rows)).
  - intros r r' o o' [-> Ho] [-> Ho'] Hc Hgt. apply Hc. unfold query_cmp. simpl.
    unfold cmp_lex, cmp_on. rewrite Ho, Ho'. by rewrite Hgt.
  - apply sort_by_sorted. apply _.
  - apply Forall2_fmap_r, Forall_Forall2_diag, Forall_forall. intros r Hr. auto.
Qed.

Lemma window_sorted q l : StronglySorted created_le l → StronglySorted created_le (window q l).
Proof.
  intros Hl. unfold window.
  assert (Hd : StronglySorted created_le (match offset q with Some n => drop (Z.to_nat n) l | None => l end)).
  { destruct (offset q) as [n|]; [|done]. rewrite <- (take_drop (Z.to_nat n) l) in Hl.
    by apply StronglySorted_app_1_r in Hl. }
  destruct (limit q) as [n|]; [|done]. set (k := match offset q with Some _ => _ | None => _ end) in *.
  rewrite <- (take_drop (Z.to_nat n) k) in Hd. by apply StronglySorted_app_1_l in Hd.
Qed.

(** An ascending query lists plans by their creation time. *)
Lemma environment_plan_objects_sorted t env statuses lim off has_steps objects :
  tables_wf t →
  environment_plan_objects t env statuses false lim off has_steps = Ok objects →
  StronglySorted created_le objects.
Proof.
  intros Hw H. unfold environment_plan_objects, find_by_property_matching, find_catalog in H.
  ok_inv H. simpl in H. injection H as <-. ok_inv Hg0. apply StronglySorted_filter.
  destruct (is_some_b _ && bool_decide _); [injection Hg0 as <-; constructor|].
  ok_inv Hg0. injection Hg0 as <-. by apply window_sorted, query_rows_sorted.
Qed.

Lemma created_le_plans o o' p p' :
  from_object o = Ok p → from_object o' = Ok p' → created_le o o' → created_at p ≤ created_at p'.
Proof.
  intros [Hd _]%from_object_sound [Hd' _]%from_object_sound Hle.
  pose proof (d_created _ _ Hd) as Hc. pose proof (d_created _ _ Hd') as Hc'. revert Hle.
  unfold created_le. destruct (properties o !! "created_at") as [c|]; [|done].
  destruct (properties o' !! "created_at") as [c'|]; [|done]. simpl in *.
  rewrite (cast_parsed _ _ Hc), (cast_parsed _ _ Hc'), Z.compare_gt_iff. lia.
Qed.

(** Work selection neither loses a plan nor invents one: once the index
    check of an environment has passed, a load in given states returns exactly
    the stored plans whose payload belongs to the environment, is in one of
    the states and has steps as asked, ordered by creation time.  A plan whose
    index was changed away from its payload makes the check fail instead of
    being left out. *)
Theorem work_selection_exact now t env statuses has_steps l :
  tables_wf t →
  require_environment_indexes_match_payloads None now t env = Ok tt →
  load_for_environment t env statuses false None None has_steps = Ok l →
  StronglySorted (λ p q, created_at p ≤ created_at q) l ∧
  ∀ p, p ∈ l ↔ ∃ id row o raw,
    plans t !! id = Some row ∧ catalog_objects t !! id = Some o ∧ object_kind o = KIND_PLAN
    ∧ properties o !! "plan" = Some raw ∧ plan_of_json raw = Some p
    ∧ plan_environment p = env ∧ in_states statuses p ∧ keeps has_steps p.
Proof.
  intros Hw Hcheck H. unfold load_for_environment in H. apply bind_ok in H as (objects & Hobj & H).
  destruct (plans_from_objects_ok _ _ _ _ _ _ H) as (ps & -> & Hps). simpl. split.
  { apply StronglySorted_filter.
    apply (StronglySorted_Forall2 created_le _ _ objects ps) with (3 := Hps).
    - intros o o' p p' (Hp & _) (Hp' & _). by apply created_le_plans.
    - by eapply environment_plan_objects_sorted. }
  intros p. rewrite list_elem_of_filter. split.
  - intros [Hk [i Hi]%list_elem_of_lookup].
    destruct (Forall2_lookup_r _ _ _ _ _ Hps Hi) as (o & Ho%list_elem_of_lookup_2 & Hp & He & Hs).
    apply (environment_plan_objects_elem _ _ _ _ _ _ _ Hw Hobj) in Ho as (id & Ho & [row Hrow] & _).
    apply from_object_sound in Hp as [Hd _]. pose proof (d_plan _ _ Hd) as Hraw.
    apply fmap_Some in Hraw as (raw & Hraw & Hp). exists id, row, o, raw.
    split_and!; try done. apply (d_kind _ _ Hd).
  - intros (id & row & o & raw & Hrow & Ho & Hk & Hraw & Hp & He & Hs & Hkeep). split; [done|].
    destruct (index_checked _ _ _ _ _ _ _ _ Hw Hcheck Hrow Ho Hk Hraw Hp He) as (Henv & Hstatus & Hhas).
    assert (Hin : o ∈ objects).
    { apply (environment_plan_objects_elem _ _ _ _ _ _ _ Hw Hobj). exists id.
      split_and!; [done|by eexists|]. apply (environment_query_matches _ _ _ _ _ _ _ _ _ Hw Ho).
      split_and!; [done..| |].
      - intros allowed Ha. eexists. split; [done|]. by eapply status_in_states.
      - intros want Hwant. rewrite Hhas. f_equal. by eapply keeps_index. }
    apply list_elem_of_lookup in Hin as [i Hi].
    destruct (Forall2_lookup_l _ _ _ _ _ Hps Hi) as (p' & Hp'%list_elem_of_lookup_2 & Hfrom & _).
    apply from_object_sound in Hfrom as [Hd _]. pose proof (d_plan _ _ Hd) as Heq.
    rewrite Hraw in Heq. simpl in Heq. congruence.
Qed.

(** ** Windows of a query *)

(** Every plan object has its row, so that a window is cut from what a whole
    load returns. *)
Definition plans_have_rows (t : Tables) : Prop :=
  ∀ id o, catalog_objects t !! id = Some o → object_kind o = KIND_PLAN → is_Some (plans t !! id).

Lemma filter_all {A} (P : A → Prop) `{∀ x, Decision (P x)} (l : list A) : Forall P l → filter P l = l.
Proof.
  induction 1 as [|x l Hx _ IH]; [done|]. rewrite filter_cons, decide_True by done. by rewrite IH.
Qed.

Lemma elem_of_window q o l : o ∈ window q l → o ∈ l.
Proof.
  assert (Htake : ∀ n (k : list Object), o ∈ take n k → o ∈ k).
  { intros n k Hk. rewrite <- (take_drop n k), elem_of_app. by left. }
  assert (Hdrop : ∀ n (k : list Object), o ∈ drop n k → o ∈ k).
  { intros n k Hk. rewrite <- (take_drop n k), elem_of_app. by right. }
  unfold window. destruct (limit q), (offset q); eauto.
Qed.

(** The rows of a query, each with its plan row. *)
Lemma environment_plan_objects_window t env statuses lim off has_steps :
  tables_wf t → plans_have_rows t → str_is_empty (trim env) = false → statuses ≠ [] →
  let q := environment_plan_index_query env (Some statuses) false lim off has_steps in
  is_some_b off && negb (is_some_b lim) = false →
  environment_plan_objects t env (Some statuses) false lim off has_steps = Ok (window q (query_rows t q)).
Proof.
  intros Hw Hrows He Hs q Hoff. unfold environment_plan_objects, find_by_property_matching, find_catalog.
  rewrite He. fold q. change (str_is_empty (trim (q_kind q)) || str_is_empty (trim (q_key q))) with false.
  change (offset q) with off. change (limit q) with lim. rewrite Hoff.
  rewrite (bool_decide_false (matching_values q = [])) by (by destruct statuses).
  rewrite andb_false_r. simpl. f_equal. apply filter_all, Forall_forall.
  intros o (id & Ho & Hm)%elem_of_window%elem_query_rows.
  rewrite (objects_named _ Hw _ _ Ho). apply (Hrows _ _ Ho).
  by apply (environment_query_matches _ _ _ _ _ _ _ _ _ Hw Ho) in Hm as [Hk _].
Qed.

Lemma plans_from_objects_all objects env statuses has_steps acc ps :
  Forall2 (λ o p, from_object o = Ok p ∧ plan_environment p = env ∧ in_states statuses p) objects ps →
  Forall (keeps has_steps) ps →
  try_fold (plan_from_object env statuses has_steps) acc objects = Ok (acc ++ ps).
Proof.
  intros Hps. revert acc. induction Hps as [|o p objects ps (Ho & He & Hs) _ IH]; intros acc Hk; simpl.
  { by rewrite app_nil_r. }
  apply Forall_cons in Hk as [Hk Hks]. unfold plan_from_object. rewrite Ho. simpl.
  rewrite bool_decide_true by done. simpl. rewrite (proj1 (keeps_false _ _) Hk).
  assert (is_some_and statuses (λ allowed, negb (bool_decide (plan_state p ∈ allowed))) = false) as ->.
  { unfold in_states in Hs. destruct statuses; [simpl in *; by rewrite Hs|done]. }
  rewrite IH by done. by rewrite <- app_assoc.
Qed.

(** A window of the executable plans is that window of the whole list. *)
Lemma executable_batch_window t env statuses lim off l :
  tables_wf t → plans_have_rows t → statuses ≠ [] →
  load_for_environment t env (Some statuses) false None None (Some true) = Ok l →
  executable_batch_for_environment t env statuses lim off
  = Ok (take (Z.to_nat lim) (drop (Z.to_nat off) l)).
Proof.
  intros Hw Hrows Hs H. unfold load_for_environment in H. apply bind_ok in H as (objects & Hobj & H).
  assert (He : str_is_empty (trim env) = false).
  { unfold environment_plan_objects in Hobj. by apply bail_ok in Hobj as [? _]. }
  rewrite environment_plan_objects_window in Hobj by done. injection Hobj as <-.
  unfold executable_batch_for_environment, load_for_environment.
  rewrite environment_plan_objects_window by done. simpl in *.
  destruct (plans_from_objects_ok _ _ _ _ _ _ H) as (ps & -> & Hps). simpl.
  assert (Hk : Forall (keeps (Some true)) ps).
  { apply Forall_forall. intros p [i Hi]%list_elem_of_lookup.
    destruct (Forall2_lookup_r _ _ _ _ _ Hps Hi) as (o & Ho%list_elem_of_lookup_2 & Hp & _).
    apply elem_of_window, elem_query_rows in Ho as (id & Ho & Hm).
    apply (environment_query_matches _ _ _ _ _ _ _ _ _ Hw Ho) in Hm as (_ & _ & _ & Hh).
    specialize (Hh true eq_refl). apply from_object_sound in Hp as [Hd _].
    rewrite (d_has_steps _ _ Hd) in Hh. unfold keeps. simpl. by destruct (steps_empty p). }
  rewrite (filter_all _ _ Hk). unfold window. simpl.
  apply (plans_from_objects_all _ _ _ _ []); [by apply Forall2_take, Forall2_drop|].
  by apply Forall_take, Forall_drop.
Qed.
End Exact.

Module QueryExamples.
#[local] Existing Instance PlainEncoding.instance.
#[local] Existing Instance StoreExamples.no_text.

#[local] Instance plain_queries : Queries := {|
  cast_integer s := default 0 (parse_i64 s);
  peek_plan_json raw := peek_of <$> plan_of_json raw;
  peek_environment_json raw := plan_environment <$> plan_of_json raw |}.

#[local] Instance plain_queries_laws : QueriesLaws PlainEncoding.instance plain_queries.
Proof.
  split; simpl.
  - intros s z H. by rewrite H.
  - intros raw p H. by rewrite H.
  - intros raw p H. by rewrite H.
Qed.

Definition queued : Object := to_object 8 (PlanExamples.no_op Computed "").

Definition store : Catalog :=
  StoreExamples.state_of (StoreExamples.after [OpWrite 8 (StoreExamples.clock 8) queued true]
    StoreExamples.empty_store).

Lemma stored_wf : tables_wf (tables store).
Proof.
  refine (proj1 (history_tables [OpWrite 8 (StoreExamples.clock 8) queued true] StoreExamples.empty_store store
    StoreExamples.empty_tables_wf _)).
  apply StoreExamples.after_history. vm_compute. reflexivity.
Qed.

Lemma work_selection_exact_witness :
  load_for_environment (tables store) "prod" (Some [Computed; Running]) false None None None
    = Ok [PlanExamples.no_op Computed ""]
  ∧ StronglySorted (λ p q, created_at p ≤ created_at q) [PlanExamples.no_op Computed ""].
Proof.
  assert (H : load_for_environment (tables store) "prod" (Some [Computed; Running]) false None None
                None = Ok [PlanExamples.no_op Computed ""]) by (vm_compute; reflexivity).
  split; [exact H|].
  refine (proj1 (work_selection_exact 9 (tables store) "prod" _ _ _ stored_wf _ H)).
  vm_compute. reflexivity.
Defined.

(** A plan whose environment index was changed is not left out: the check
    refuses. *)
Definition retargeted : Tables :=
  let o := {| object_id := object_id queued; object_kind := object_kind queued;
              object_name := object_name queued; object_namespace := object_namespace queued;
              external_id := external_id queued;
              properties := <["environment" := "other"]> (properties queued);
              created := created queued; updated := updated queued |} in
  upsert_catalog_in (tables store) o.

Example retargeted_index_refused :
  load_for_environment retargeted "prod" None false None None None = Ok []
  ∧ require_environment_indexes_match_payloads None 9 retargeted "prod"
    = Err (IndexMismatch (object_id queued) "environment").
Proof. vm_compute. done. Qed.
End QueryExamples.
