(* ===== verification/Approvals.v ===== *)
(** * Signed approvals and quorums

    [plan_approval.rs] (statements, trust roots, envelope verification,
    quorum counting), the encoding rules of [signature_verification.rs], and
    the root-owned host policy of [host_apply/policy.rs].

    Ed25519, base64 and the revocation list are parameters: whether a key is
    well formed, whether it is revoked, and whether a signature verifies. *)

From S2P Require Import Prelude RustStr Kinds Plan.

(** ** Shared encoding rules *)

Inductive approval_error :=
| MalformedDigest (label : string)
| MalformedText (label : string)
| WrongPurpose
| ExpiryNotAfterIssue
| TrustRootsEmptyOrUnsupported
| AutomaticSignerScope
| PreflightSignerScope
| MalformedKey (key_id : string)
| KeyRevoked (key_id : string)
| SignerWindowNotPositive
| SignerWindowInverted
| DuplicateKeysOrIdentities
| SignerNotTrusted (key_id : string)
| SignerNotYetValid (identity : string)
| SignerNoLongerValid (identity : string)
| UnsupportedSchema (schema : string)
| BoundToOtherContent
| NotValidYet
| ApprovalExpired (at_ms : Z)
| OutsideEnvironmentScope
| OutsideProviderScope
| PreflightCannotApprove
| AutomaticNeedsScopedSigner
| SignatureInvalid
| PolicyVersion
| PolicyTtlNotPositive
| QuorumOfZero
| QuorumExcludesRequester (purpose : string)
| UnknownCriticality (level : string)
| DuplicateQuorumPurpose (purpose : string)
| InvalidQuorumGroup (group : string)
| AutomaticHostSigner (identity : string)
| QuorumMissing (purpose : string).

Definition lowercase_hex (c : ascii) : bool := is_ascii_hexdigit c && negb (is_ascii_uppercase c).

Definition valid_hex_digest (value : string) : bool :=
  (str_len value =? 64) && all_bytes lowercase_hex value.

(** [validate_prefixed_digest]. *)
Definition validate_prefixed_digest (label value : string) : result unit approval_error :=
  match strip_prefix "sha256:" value with
  | None => Err (MalformedDigest label)
  | Some hex => bail_if negb (valid_hex_digest hex) with (MalformedDigest label) in Ok tt
  end.

Definition NUL : ascii := Ascii.zero.

Definition validate_text (label value : string) : result unit approval_error :=
  bail_if str_is_empty (trim value) || negb (bool_decide (value = trim value))
          || (512 <? str_len value) || any_byte (λ c, bool_decide (c = NUL)) value
    with (MalformedText label) in
  Ok tt.

(** [value.to_be_bytes()] of an integer kept in [n] bytes; a negative [i64]
    is its two's complement. *)
Fixpoint be_bytes (n : nat) (value : Z) : string :=
  match n with
  | O => ""
  | S n' => String (ascii_of_N (Z.to_N (value / 256 ^ Z.of_nat n' mod 256))) (be_bytes n' value)
  end.

Definition i64_be_bytes (value : Z) : string := be_bytes 8 (value mod 2 ^ 64).

(** [push_len_prefixed]: what is appended to the buffer. *)
Definition len_prefixed (value : string) : string := be_bytes 8 (str_len value) +:+ value.

(** ** Statements *)

Record ApprovalStatement := {
  plan_digest : string;
  stmt_environment : string;
  purpose : string;
  skip_gates : bool;
  issued_at : Z;
  expires_at : Z;
  policy_provider : string;
  policy_evidence_id : string;
  policy_digest : string
}.

Record ApprovalEnvelope := {
  schema : string;
  envelope_key_id : string;
  statement : ApprovalStatement;
  signature : string
}.

Definition APPROVAL_SCHEMA : string := "tenkai.plan-approval.v1".
Definition APPROVAL_DOMAIN : string := "TENKAI-PLAN-APPROVAL-V1" +:+ String NUL "".
Definition PURPOSE : string := "execute_plan".
Definition POLICY_PROVIDER : string := "builtin-auto".
Definition PREFLIGHT_PROVIDER : string := "preflight".

Definition validate_statement (s : ApprovalStatement) : result unit approval_error :=
  let? _ := validate_prefixed_digest "plan digest" (plan_digest s) in
  let? _ := validate_text "environment" (stmt_environment s) in
  bail_if negb (bool_decide (purpose s = PURPOSE)) with WrongPurpose in
  bail_if expires_at s <=? issued_at s with ExpiryNotAfterIssue in
  let? _ := validate_text "policy provider" (policy_provider s) in
  let? _ := validate_text "policy evidence id" (policy_evidence_id s) in
  validate_prefixed_digest "policy digest" (policy_digest s).

Definition canonical_bytes (s : ApprovalStatement) : result string approval_error :=
  let? _ := validate_statement s in
  Ok (APPROVAL_DOMAIN
      +:+ len_prefixed (plan_digest s) +:+ len_prefixed (stmt_environment s)
      +:+ len_prefixed (purpose s)
      +:+ i64_be_bytes (issued_at s) +:+ i64_be_bytes (expires_at s)
      +:+ String (if skip_gates s then ascii_of_N 1 else ascii_of_N 0) ""
      +:+ len_prefixed (policy_provider s) +:+ len_prefixed (policy_evidence_id s)
      +:+ len_prefixed (policy_digest s)).

(** ** Trust roots *)

Record TrustedSigner := {
  signer_key_id : string;
  identity : string;
  public_key : string;
  environments : list string;
  providers : list string;
  groups : list string;
  not_before : option Z;
  not_after : option Z
}.

Record TrustRoots := { roots_version : Z; signers : list TrustedSigner }.

(** [SignerValidityWindow::validate] and [check]. *)
Definition window_validate (nb na : option Z) : result unit approval_error :=
  bail_if is_some_and nb (λ v, v <=? 0) || is_some_and na (λ v, v <=? 0)
    with SignerWindowNotPositive in
  bail_if match nb, na with Some b, Some a => a <=? b | _, _ => false end
    with SignerWindowInverted in
  Ok tt.

Definition window_check (nb na : option Z) (who : string) (at_ms : Z) : result unit approval_error :=
  bail_if is_some_and nb (λ b, at_ms <? b) with (SignerNotYetValid who) in
  bail_if is_some_and na (λ a, a <? at_ms) with (SignerNoLongerValid who) in
  Ok tt.

Class Crypto := {
  (** [well_formed_key]: the id is the digest of the decoded key, and the key
      is not weak. *)
  well_formed_key : string → string → bool;
  (** [key_revocation::is_revoked]. *)
  is_revoked : string → bool;
  (** [verify_strict] with the decoded public key. *)
  verify_strict : string → string → string → bool
}.

Section Verification.
Context {E : PlanEncoding} {C : Crypto}.

Definition validate_signer (keys_and_identities : gset string * gset string)
    (s : TrustedSigner) : result (gset string * gset string) approval_error :=
  let '(keys, identities) := keys_and_identities in
  let? _ := try_for_each (validate_text "trusted signer scope")
              (environments s ++ providers s ++ groups s) in
  let unscoped := bool_decide (environments s = []) || negb (Z.of_nat (length (providers s)) =? 1) in
  bail_if bool_decide ("builtin-auto" ∈ providers s) && unscoped with AutomaticSignerScope in
  bail_if bool_decide (PREFLIGHT_PROVIDER ∈ providers s) && unscoped with PreflightSignerScope in
  let? _ := validate_text "trusted signer identity" (identity s) in
  bail_if negb (well_formed_key (public_key s) (signer_key_id s))
    with (MalformedKey (signer_key_id s)) in
  let? _ := window_validate (not_before s) (not_after s) in
  bail_if bool_decide (signer_key_id s ∈ keys) || bool_decide (identity s ∈ identities)
    with DuplicateKeysOrIdentities in
  Ok ({[signer_key_id s]} ∪ keys, {[identity s]} ∪ identities).

Definition validate_roots (r : TrustRoots) : result unit approval_error :=
  bail_if negb (roots_version r =? 1) || bool_decide (signers r = [])
    with TrustRootsEmptyOrUnsupported in
  let? _ := try_fold validate_signer (∅, ∅) (signers r) in
  Ok tt.

Definition roots_signer (r : TrustRoots) (key : string) : result TrustedSigner approval_error :=
  ok_or (find_first (λ s, bool_decide (signer_key_id s = key)) (signers r)) (SignerNotTrusted key).

Record VerificationEvidence := {
  evidence_schema : string;
  evidence_plan_id : string;
  evidence_plan_digest : string;
  evidence_environment : string;
  signer_identity : string;
  evidence_key_id : string;
  evidence_provider : string;
  evidence_id : string;
  evidence_policy_digest : string;
  evidence_issued_at : Z;
  evidence_expires_at : Z;
  verified_at : Z;
  evidence_skip_gates : bool;
  bypass_reason : option string
}.

Definition verify_envelope (p : Plan) (e : ApprovalEnvelope) (roots : TrustRoots) (now : Z)
    (skip : bool) : result VerificationEvidence approval_error :=
  let st := statement e in
  bail_if negb (bool_decide (schema e = APPROVAL_SCHEMA)) with (UnsupportedSchema (schema e)) in
  let expected_digest := "sha256:" +:+ executable_digest p in
  bail_if negb (bool_decide (plan_digest st = expected_digest))
          || negb (bool_decide (stmt_environment st = plan_environment p))
          || negb (Bool.eqb (skip_gates st) skip) with BoundToOtherContent in
  bail_if now <? issued_at st with NotValidYet in
  bail_if expires_at st <=? now with (ApprovalExpired (expires_at st)) in
  let? signer := roots_signer roots (envelope_key_id e) in
  let? _ := window_check (not_before signer) (not_after signer) (identity signer) now in
  bail_if negb (bool_decide (environments signer = []))
          && negb (bool_decide (plan_environment p ∈ environments signer))
    with OutsideEnvironmentScope in
  bail_if negb (bool_decide (providers signer = []))
          && negb (bool_decide (policy_provider st ∈ providers signer)) with OutsideProviderScope in
  bail_if bool_decide (policy_provider st = PREFLIGHT_PROVIDER) with PreflightCannotApprove in
  bail_if bool_decide (policy_provider st = "builtin-auto")
          && (bool_decide (environments signer = [])
              || negb (bool_decide (providers signer = ["builtin-auto"])))
    with AutomaticNeedsScopedSigner in
  bail_if is_revoked (signer_key_id signer) with (KeyRevoked (signer_key_id signer)) in
  bail_if negb (well_formed_key (public_key signer) (signer_key_id signer))
    with (MalformedKey (signer_key_id signer)) in
  let? bytes := canonical_bytes st in
  bail_if negb (verify_strict (public_key signer) (signature e) bytes) with SignatureInvalid in
  Ok {| evidence_schema := APPROVAL_SCHEMA; evidence_plan_id := plan_id_of p;
        evidence_plan_digest := expected_digest; evidence_environment := plan_environment p;
        signer_identity := identity signer; evidence_key_id := envelope_key_id e;
        evidence_provider := policy_provider st; evidence_id := policy_evidence_id st;
        evidence_policy_digest := policy_digest st; evidence_issued_at := issued_at st;
        evidence_expires_at := expires_at st; verified_at := now;
        evidence_skip_gates := skip_gates st; bypass_reason := None |}.

(** [local_bypass]: only in the built-in local environment. *)
Definition local_bypass (p : Plan) (reason : string) (now : Z) :
    result VerificationEvidence approval_error :=
  bail_if negb (bool_decide (plan_environment p = "local")) with OutsideEnvironmentScope in
  let? _ := validate_text "development bypass reason" reason in
  Ok {| evidence_schema := APPROVAL_SCHEMA; evidence_plan_id := plan_id_of p;
        evidence_plan_digest := "sha256:" +:+ executable_digest p;
        evidence_environment := plan_environment p; signer_identity := "unsigned-development";
        evidence_key_id := ""; evidence_provider := "builtin-local-development";
        evidence_id := "local-bypass:" +:+ plan_id_of p;
        evidence_policy_digest := "sha256:" +:+ sha256_hex reason; evidence_issued_at := now;
        evidence_expires_at := now; verified_at := now; evidence_skip_gates := false;
        bypass_reason := Some reason |}.
End Verification.

(** ** Quorums *)

Inductive QuorumPurpose := ExecutePlan | RollbackPurpose | SkipGates | DowngradePurpose.

#[export] Instance QuorumPurpose_eq_dec : EqDecision QuorumPurpose.
Proof. solve_decision. Defined.

Definition purpose_str (q : QuorumPurpose) : string :=
  match q with
  | ExecutePlan => "execute_plan"
  | RollbackPurpose => "rollback"
  | SkipGates => "skip_gates"
  | DowngradePurpose => "downgrade"
  end.

Record QuorumRule := {
  rule_purpose : QuorumPurpose;
  rule_n : Z;
  rule_groups : list string;
  exclude_requester : bool;
  min_criticality : option string
}.

Definition default_quorum (q : QuorumPurpose) : QuorumRule :=
  {| rule_purpose := q; rule_n := 1; rule_groups := []; exclude_requester := false;
     min_criticality := None |}.

Record CountedApproval := {
  counted_key_id : string;
  counted_identity : string;
  counted_groups : list string;
  auto : bool
}.

#[export] Instance CountedApproval_eq_dec : EqDecision CountedApproval.
Proof. solve_decision. Defined.

Record QuorumTally := { counted : list CountedApproval; missing : Z }.

(** The candidates a rule looks at. *)
Definition eligible (r : QuorumRule) (requester : option string) (a : CountedApproval) : bool :=
  negb ((1 <? rule_n r) && auto a)
  && negb (exclude_requester r && is_some_and requester (λ id, bool_decide (id = counted_identity a)))
  && (bool_decide (rule_groups r = [])
      || existsb (λ g, existsb (λ needed, bool_decide (needed = g)) (rule_groups r)) (counted_groups a)).

Fixpoint count_loop (r : QuorumRule) (requester : option string) (found : list CountedApproval)
    (keys identities : gset string) (candidates : list CountedApproval) : list CountedApproval :=
  match candidates with
  | [] => found
  | a :: rest =>
    if negb (eligible r requester a) then count_loop r requester found keys identities rest
    else if bool_decide (counted_key_id a ∈ keys) || bool_decide (counted_identity a ∈ identities)
    then count_loop r requester found keys identities rest
    else
      let found := found ++ [a] in
      if rule_n r <=? Z.of_nat (length found) then found
      else count_loop r requester found ({[counted_key_id a]} ∪ keys)
             ({[counted_identity a]} ∪ identities) rest
  end.

Definition count_quorum (r : QuorumRule) (candidates : list CountedApproval)
    (requester : option string) : QuorumTally :=
  let found := count_loop r requester [] ∅ ∅ candidates in
  {| counted := found; missing := Z.max 0 (rule_n r - Z.of_nat (length found)) |}.

(** ** The host policy *)

Record HostApprovalPolicy := {
  policy_version : Z;
  max_approval_ttl_ms : option Z;
  policy_signers : list TrustedSigner;
  quorum : list QuorumRule
}.

Definition known_criticality (level : string) : bool :=
  bool_decide (level ∈ ["low"; "medium"; "high"; "critical"]).

Definition criticality_key (r : QuorumRule) : string * option string :=
  (purpose_str (rule_purpose r), min_criticality r).

Definition policy_roots (p : HostApprovalPolicy) : TrustRoots :=
  {| roots_version := 1; signers := policy_signers p |}.

(** One verified approval and when it stops counting. *)
Record Candidate := { approval : CountedApproval; valid_until : Z }.

Inductive rejection :=
| AutomaticNeverCounts (key_id : string)
| LifetimeExceeded (key_id : string)
| EnvelopeRefused (key_id : string) (error : approval_error)
| StoppedBeingValid (key_id : string).

Record HostApprovals := {
  approval_rules : QuorumPurpose → list QuorumRule;
  candidates : list Candidate;
  rejected : list rejection
}.

Section HostPolicy.
Context {E : PlanEncoding} {C : Crypto}.

Definition validate_rule (seen : gset (string * option string)) (r : QuorumRule) :
    result (gset (string * option string)) approval_error :=
  bail_if rule_n r =? 0 with QuorumOfZero in
  bail_if exclude_requester r with (QuorumExcludesRequester (purpose_str (rule_purpose r))) in
  let? _ := match min_criticality r with
    | Some level => bail_if negb (known_criticality level) with (UnknownCriticality level) in Ok tt
    | None => Ok tt
    end in
  bail_if bool_decide (criticality_key r ∈ seen)
    with (DuplicateQuorumPurpose (purpose_str (rule_purpose r))) in
  let? _ := try_for_each (λ g, bail_if negb (valid_identifier g) with (InvalidQuorumGroup g) in Ok tt)
              (rule_groups r) in
  Ok ({[criticality_key r]} ∪ seen).

Definition human_signer (s : TrustedSigner) : result unit approval_error :=
  bail_if existsb (λ p, bool_decide (p = POLICY_PROVIDER) || bool_decide (p = PREFLIGHT_PROVIDER))
                  (providers s) with (AutomaticHostSigner (identity s)) in
  Ok tt.

Definition validate_policy (p : HostApprovalPolicy) : result unit approval_error :=
  bail_if negb (policy_version p =? 1) with PolicyVersion in
  bail_if is_some_and (max_approval_ttl_ms p) (λ ttl, ttl <=? 0) with PolicyTtlNotPositive in
  let? _ := try_fold validate_rule ∅ (quorum p) in
  let? _ := try_for_each human_signer (policy_signers p) in
  validate_roots (policy_roots p).

(** [HostApprovalPolicy::rules]: every rule of the purpose, whatever its
    criticality, or one trusted approval. *)
Definition policy_rules (p : HostApprovalPolicy) (q : QuorumPurpose) : list QuorumRule :=
  match filter (λ r, rule_purpose r = q) (quorum p) with
  | [] => [default_quorum q]
  | rules => rules
  end.

Definition candidate_of (roots : TrustRoots) (e : ApprovalEnvelope) (ev : VerificationEvidence) :
    Candidate :=
  let signer := match roots_signer roots (envelope_key_id e) with Ok s => Some s | Err _ => None end in
  {| approval := {|
       counted_key_id := evidence_key_id ev;
       counted_identity := signer_identity ev;
       counted_groups := match signer with Some s => groups s | None => [] end;
       auto := false |};
     valid_until := Z.min (expires_at (statement e))
       match signer ≫= not_after with
       | Some na => i64_saturating_add na 1
       | None => i64_max
       end |}.

Definition evaluate_envelope (p : HostApprovalPolicy) (plan : Plan) (now_ms : Z)
    (acc : list Candidate * list rejection) (e : ApprovalEnvelope) :
    list Candidate * list rejection :=
  let '(cs, rs) := acc in
  let st := statement e in
  if decide (policy_provider st = POLICY_PROVIDER) then
    (cs, rs ++ [AutomaticNeverCounts (envelope_key_id e)])
  else if is_some_and (max_approval_ttl_ms p)
            (λ ttl, ttl <? i64_saturating_sub (expires_at st) (issued_at st)) then
    (cs, rs ++ [LifetimeExceeded (envelope_key_id e)])
  else
    match verify_envelope plan e (policy_roots p) now_ms (skip_gates st) with
    | Ok ev => (cs ++ [candidate_of (policy_roots p) e ev], rs)
    | Err error => (cs, rs ++ [EnvelopeRefused (envelope_key_id e) error])
    end.

Definition evaluate (p : HostApprovalPolicy) (plan : Plan) (envelopes : list ApprovalEnvelope)
    (now_ms : Z) : HostApprovals :=
  let '(cs, rs) := foldl (evaluate_envelope p plan now_ms) ([], []) envelopes in
  {| approval_rules := policy_rules p; candidates := cs; rejected := rs |}.

Definition plan_purposes (plan : Plan) : list QuorumPurpose :=
  [ExecutePlan; SkipGates]
  ++ (if existsb (λ s, bool_decide (step_action s = Rollback)) (steps plan)
      then [RollbackPurpose] else [])
  ++ (if existsb (λ s, bool_decide (step_action s = Downgrade)) (steps plan)
      then [DowngradePurpose] else []).

(** [HostApprovals::at]: the approvals still valid at a later time. *)
Definition approvals_at (a : HostApprovals) (now_ms : Z) : HostApprovals :=
  let valid := filter (λ c, now_ms < valid_until c) (candidates a) in
  let expired := filter (λ c, ¬ now_ms < valid_until c) (candidates a) in
  {| approval_rules := approval_rules a;
     candidates := valid;
     rejected := rejected a ++ ((λ c, StoppedBeingValid (counted_key_id (approval c))) <$> expired) |}.

Definition unmet_rules (a : HostApprovals) (q : QuorumPurpose) : list QuorumRule :=
  filter (λ r, 0 < missing (count_quorum r (approval <$> candidates a) None)) (approval_rules a q).

Definition approvals_require (a : HostApprovals) (q : QuorumPurpose) : result unit approval_error :=
  match unmet_rules a q with
  | [] => Ok tt
  | _ => Err (QuorumMissing (purpose_str q))
  end.

Definition require_all (a : HostApprovals) (qs : list QuorumPurpose) : result unit approval_error :=
  try_for_each (approvals_require a) qs.
End HostPolicy.

(** ** The signed bytes bind the statement *)

Fixpoint be_value (acc : Z) (s : string) : Z :=
  match s with
  | EmptyString => acc
  | String c rest => be_value (acc * 256 + byte_of c) rest
  end.

Lemma be_bytes_length n v : String.length (be_bytes n v) = n.
Proof. induction n as [|n IH]; simpl; [done|]. by rewrite IH. Qed.

Lemma byte_of_ascii z : 0 ≤ z < 256 → byte_of (ascii_of_N (Z.to_N z)) = z.
Proof. intros Hz. unfold byte_of. rewrite N_ascii_embedding by lia. lia. Qed.

Lemma be_value_be_bytes n acc v :
  be_value acc (be_bytes n v) = acc * 256 ^ Z.of_nat n + v mod 256 ^ Z.of_nat n.
Proof.
  revert acc. induction n as [|n IH]; intros acc; simpl be_bytes.
  - simpl. rewrite Z.mod_1_r. lia.
  - cbn [be_value]. rewrite IH, byte_of_ascii by (apply Z.mod_pos_bound; lia).
    replace (Z.of_nat (S n)) with (Z.of_nat n + 1) by lia.
    rewrite Z.pow_add_r, Z.pow_1_r by lia.
    rewrite (Z.rem_mul_r v (256 ^ Z.of_nat n) 256) by (try apply Z.pow_nonzero; lia). lia.
Qed.

Lemma be_bytes_inj n v w :
  0 ≤ v < 256 ^ Z.of_nat n → 0 ≤ w < 256 ^ Z.of_nat n → be_bytes n v = be_bytes n w → v = w.
Proof.
  intros Hv Hw H. apply (f_equal (be_value 0)) in H. rewrite !be_value_be_bytes in H.
  rewrite !Z.mod_small in H by done. lia.
Qed.

Lemma i64_be_bytes_inj v w :
  i64_min ≤ v ≤ i64_max → i64_min ≤ w ≤ i64_max → i64_be_bytes v = i64_be_bytes w → v = w.
Proof.
  unfold i64_min, i64_max, i64_be_bytes. intros Hv Hw H.
  apply be_bytes_inj in H; [|apply Z.mod_pos_bound; lia..].
  pose proof (Z.div_mod v (2 ^ 64) ltac:(lia)). pose proof (Z.div_mod w (2 ^ 64) ltac:(lia)).
  assert (v / 2 ^ 64 = w / 2 ^ 64 ∨ v / 2 ^ 64 = w / 2 ^ 64 + 1 ∨ v / 2 ^ 64 + 1 = w / 2 ^ 64) as Hq.
  { pose proof (Z.mod_pos_bound v (2 ^ 64) ltac:(lia)). pose proof (Z.mod_pos_bound w (2 ^ 64) ltac:(lia)).
    nia. }
  lia.
Qed.

Lemma string_app_inj (a b s t : string) :
  String.length a = String.length b → a +:+ s = b +:+ t → a = b ∧ s = t.
Proof.
  revert b. induction a as [|c a IH]; intros [|d b] Hlen H; try done.
  simpl in *. injection H as -> H. injection Hlen as Hlen. by destruct (IH b Hlen H) as [-> ->].
Qed.

Lemma string_app_assoc (a b c : string) : (a +:+ b) +:+ c = a +:+ (b +:+ c).
Proof. induction a as [|x a IH]; [done|]. exact (f_equal (String x) IH). Qed.

Lemma string_app_nil_r (a : string) : a +:+ "" = a.
Proof. induction a as [|x a IH]; [done|]. exact (f_equal (String x) IH). Qed.

Lemma len_prefixed_inj a b s t :
  str_len a ≤ u64_max → str_len b ≤ u64_max →
  len_prefixed a +:+ s = len_prefixed b +:+ t → a = b ∧ s = t.
Proof.
  unfold len_prefixed, str_len, u64_max. rewrite !string_app_assoc. intros Ha Hb H.
  apply string_app_inj in H as [Hl H]; [|by rewrite !be_bytes_length].
  apply be_bytes_inj in Hl; [|simpl; lia..]. apply string_app_inj in H as [-> ->]; [done|lia].
Qed.

Lemma validate_text_len label v : validate_text label v = Ok tt → str_len v ≤ u64_max.
Proof.
  unfold validate_text. rewrite bail_ok, !orb_false_iff. intros [[[_ Hl] _] _].
  apply Z.ltb_ge in Hl. unfold u64_max. lia.
Qed.

Lemma string_app_length (a b : string) :
  String.length (a +:+ b) = (String.length a + String.length b)%nat.
Proof. induction a as [|c a IH]; simpl; [done|]. by rewrite IH. Qed.

Lemma validate_prefixed_digest_len label v :
  validate_prefixed_digest label v = Ok tt → str_len v ≤ u64_max.
Proof.
  unfold validate_prefixed_digest. destruct (strip_prefix _ v) as [hex|] eqn:Hp; [|done].
  apply strip_prefix_spec in Hp as ->. rewrite bail_ok, negb_false. unfold valid_hex_digest.
  rewrite andb_true_iff, Z.eqb_eq. intros [[Hl _] _]. unfold str_len, u64_max in *.
  rewrite string_app_length. simpl. lia.
Qed.

(** The times of a statement are [i64]s. *)
Definition statement_times (s : ApprovalStatement) : Prop :=
  i64_min ≤ issued_at s ≤ i64_max ∧ i64_min ≤ expires_at s ≤ i64_max.

Lemma canonical_bytes_ok s bytes :
  canonical_bytes s = Ok bytes →
  purpose s = PURPOSE ∧ issued_at s < expires_at s
  ∧ str_len (plan_digest s) ≤ u64_max ∧ str_len (stmt_environment s) ≤ u64_max
  ∧ str_len (policy_provider s) ≤ u64_max ∧ str_len (policy_evidence_id s) ≤ u64_max
  ∧ str_len (policy_digest s) ≤ u64_max.
Proof.
  unfold canonical_bytes, validate_statement. intros H. ok_inv H. ok_inv Hg.
  destruct x0, x1, x2, x3. apply Z.leb_gt in Hg3. destruct x.
  split_and!; eauto using validate_text_len, validate_prefixed_digest_len.
Qed.

(** The bytes an approver signs determine every field of the statement:
    two valid statements with the same canonical bytes are the same
    statement, so a signature cannot be carried over to another plan,
    environment, gate policy or lifetime. *)
Theorem canonical_bytes_inj s t bytes :
  statement_times s → statement_times t →
  canonical_bytes s = Ok bytes → canonical_bytes t = Ok bytes → s = t.
Proof.
  intros [Hsi Hse] [Hti Hte] Hs Ht.
  destruct (canonical_bytes_ok s bytes Hs) as (Hsp & _ & Hs1 & Hs2 & Hs3 & Hs4 & Hs5).
  destruct (canonical_bytes_ok t bytes Ht) as (Htp & _ & Ht1 & Ht2 & Ht3 & Ht4 & Ht5).
  unfold canonical_bytes in Hs, Ht. ok_inv Hs. ok_inv Ht. injection Hs as Hs. injection Ht as Ht.
  rewrite <- Ht in Hs. clear Ht Hg Hg0. rewrite Hsp, Htp in Hs.
  apply string_app_inj in Hs as [_ Hs]; [|done].
  apply len_prefixed_inj in Hs as [H1 Hs]; [|done..].
  apply len_prefixed_inj in Hs as [H2 Hs]; [|done..].
  apply string_app_inj in Hs as [_ Hs]; [|done].
  apply string_app_inj in Hs as [H3%i64_be_bytes_inj Hs]; [|done..].
  apply string_app_inj in Hs as [H4%i64_be_bytes_inj Hs]; [|done..].
  apply string_app_inj in Hs as [H5 Hs]; [|done].
  apply len_prefixed_inj in Hs as [H6 Hs]; [|done..].
  apply len_prefixed_inj in Hs as [H7 Hs]; [|done..].
  rewrite <- (string_app_nil_r (len_prefixed (policy_digest s))),
    <- (string_app_nil_r (len_prefixed (policy_digest t))) in Hs.
  apply len_prefixed_inj in Hs as [H8 _]; [|done..].
  destruct s as [? ? ? sg ? ? ? ? ?], t as [? ? ? tg ? ? ? ? ?]; simpl in *.
  assert (sg = tg) as -> by (destruct sg, tg; done). congruence.
Qed.

(** ** Counting *)

(** A key belongs to one identity and an identity to one key, as in a
    validated set of trust roots. *)
Definition one_key_per_identity (l : list CountedApproval) : Prop :=
  ∀ a b, a ∈ l → b ∈ l → counted_key_id a = counted_key_id b ↔ counted_identity a = counted_identity b.

Definition identities_of (l : list CountedApproval) : gset string :=
  list_to_set (counted_identity <$> l).

Definition eligible_of (r : QuorumRule) (requester : option string) (l : list CountedApproval) :
    list CountedApproval :=
  filter (λ a, eligible r requester a = true) l.

Lemma identities_of_cons a l : identities_of (a :: l) = {[counted_identity a]} ∪ identities_of l.
Proof. done. Qed.

Lemma identities_of_app l k : identities_of (l ++ k) = identities_of l ∪ identities_of k.
Proof. unfold identities_of. by rewrite fmap_app, list_to_set_app_L. Qed.

Lemma elem_of_identities_of i l : i ∈ identities_of l ↔ ∃ a, a ∈ l ∧ counted_identity a = i.
Proof.
  unfold identities_of. rewrite elem_of_list_to_set, list_elem_of_fmap. naive_solver.
Qed.

(** The loop counts one approval per distinct eligible identity, up to the
    rule's number. *)
Lemma count_loop_length r requester found keys ids cs :
  (∀ k, k ∈ keys ↔ ∃ a, a ∈ found ∧ counted_key_id a = k) → ids = identities_of found →
  one_key_per_identity (found ++ cs) →
  Z.of_nat (length found) < rule_n r →
  Z.of_nat (length (count_loop r requester found keys ids cs)) =
  Z.min (rule_n r)
        (Z.of_nat (length found + size (identities_of (eligible_of r requester cs) ∖ ids))).
Proof.
  revert found keys ids. induction cs as [|a cs IH]; intros found keys ids Hkeys -> Hone Hlt; simpl.
  { change (identities_of (eligible_of r requester [])) with (∅ : gset string).
    rewrite empty_difference_L, size_empty. lia. }
  assert (Hone' : one_key_per_identity (found ++ cs)).
  { intros x y Hx Hy. apply Hone; rewrite elem_of_app, ?elem_of_cons in *; naive_solver. }
  unfold eligible_of. destruct (eligible r requester a) eqn:Ea.
  2:{ simpl. rewrite filter_cons_False by (by rewrite Ea). by apply IH. }
  rewrite filter_cons_True, identities_of_cons by done. cbn [negb].
  assert (Hseen : counted_key_id a ∈ keys ↔ counted_identity a ∈ identities_of found).
  { rewrite Hkeys, elem_of_identities_of. split; intros (b & Hb & He); exists b; split; try done;
      apply Hone; try done; rewrite elem_of_app, ?elem_of_cons; auto. }
  destruct (decide (counted_identity a ∈ identities_of found)) as [Hin|Hnew].
  { rewrite (bool_decide_true _ Hin), orb_true_r. rewrite (IH found keys _ Hkeys eq_refl Hone' Hlt).
    do 4 f_equal. set_solver. }
  rewrite !bool_decide_false by tauto. simpl. rewrite length_app. simpl.
  assert (Hsize : size (({[counted_identity a]} ∪ identities_of (eligible_of r requester cs))
                          ∖ identities_of found)
                  = S (size (identities_of (eligible_of r requester cs)
                               ∖ identities_of (found ++ [a])))).
  { assert (Hset : ({[counted_identity a]} ∪ identities_of (eligible_of r requester cs))
                     ∖ identities_of found
                   = {[counted_identity a]} ∪ (identities_of (eligible_of r requester cs)
                                                ∖ identities_of (found ++ [a]))).
    { rewrite identities_of_app, (identities_of_cons a []). apply set_eq. intros i.
      destruct (decide (i = counted_identity a)); set_solver. }
    rewrite Hset, size_union, size_singleton; [done|].
    rewrite identities_of_app, (identities_of_cons a []). set_solver. }
  fold (eligible_of r requester cs). rewrite Hsize.
  destruct (Z.leb_spec (rule_n r) (Z.of_nat (length found + 1))) as [Hle|Hgt].
  { rewrite length_app. simpl. lia. }
  assert (Hids : {[counted_identity a]} ∪ identities_of found = identities_of (found ++ [a])).
  { rewrite identities_of_app, (identities_of_cons a []). set_solver. }
  rewrite (IH (found ++ [a]) _ _); [rewrite length_app, Hids; simpl; lia| |done| |].
  - intros k. rewrite elem_of_union, Hkeys, elem_of_singleton. setoid_rewrite elem_of_app.
    setoid_rewrite list_elem_of_singleton. naive_solver.
  - intros x y. rewrite <- !app_assoc. apply Hone.
  - rewrite length_app. simpl. lia.
Qed.

(** A rule is met exactly when enough distinct identities approved: with
    one key per identity, what is missing is the rule's number less the
    number of distinct eligible identities, however the approvals are
    repeated or ordered. *)
Theorem count_quorum_exact r cs requester :
  one_key_per_identity cs →
  missing (count_quorum r cs requester)
  = Z.max 0 (rule_n r - Z.of_nat (size (identities_of (eligible_of r requester cs)))).
Proof.
  intros Hone. unfold count_quorum. simpl.
  destruct (Z.leb_spec (rule_n r) 0) as [Hz|Hpos]; [lia|].
  rewrite (count_loop_length r requester [] ∅ ∅ cs); [|set_solver|done|done|simpl; lia].
  simpl. replace (identities_of (eligible_of r requester cs) ∖ ∅)
    with (identities_of (eligible_of r requester cs)) by set_solver. lia.
Qed.

(** ** Host approvals *)

Section HostSoundness.
Context {E : PlanEncoding} {C : Crypto}.

(** A trusted signer's valid approval of a plan at a time: bound to the
    plan's digest and environment, in force, in the signer's scopes and
    window, by a key that is not revoked, with a signature over the
    statement. *)
Record approves (roots : TrustRoots) (plan : Plan) (now : Z) (e : ApprovalEnvelope)
    (s : TrustedSigner) : Prop := {
  ap_signer : s ∈ signers roots ∧ signer_key_id s = envelope_key_id e;
  ap_digest : plan_digest (statement e) = "sha256:" +:+ executable_digest plan;
  ap_environment : stmt_environment (statement e) = plan_environment plan;
  ap_time : issued_at (statement e) ≤ now < expires_at (statement e);
  ap_window : (∀ nb, not_before s = Some nb → nb ≤ now) ∧ (∀ na, not_after s = Some na → now ≤ na);
  ap_scope : (environments s = [] ∨ plan_environment plan ∈ environments s)
             ∧ (providers s = [] ∨ policy_provider (statement e) ∈ providers s);
  ap_human : policy_provider (statement e) ≠ PREFLIGHT_PROVIDER;
  ap_key : is_revoked (signer_key_id s) = false
           ∧ well_formed_key (public_key s) (signer_key_id s) = true;
  ap_signed : ∃ bytes, canonical_bytes (statement e) = Ok bytes
                       ∧ verify_strict (public_key s) (signature e) bytes = true
}.

Lemma roots_signer_ok roots key s :
  roots_signer roots key = Ok s → s ∈ signers roots ∧ signer_key_id s = key.
Proof.
  unfold roots_signer, find_first. rewrite ok_or_ok. intros (s' & Hin & H)%find_map_some.
  case_bool_decide; by simplify_eq.
Qed.

Lemma window_check_ok nb na who now :
  window_check nb na who now = Ok tt →
  (∀ b, nb = Some b → b ≤ now) ∧ (∀ a, na = Some a → now ≤ a).
Proof.
  unfold window_check. intros H. ok_inv H. split; intros z ->; simpl in *;
    [by apply Z.ltb_ge|by apply Z.ltb_ge].
Qed.

Lemma verify_envelope_sound plan e roots now skip ev :
  verify_envelope plan e roots now skip = Ok ev →
  ∃ s, roots_signer roots (envelope_key_id e) = Ok s ∧ approves roots plan now e s
       ∧ evidence_key_id ev = envelope_key_id e ∧ signer_identity ev = identity s.
Proof.
  unfold verify_envelope. intros H. ok_inv H. destruct x0. exists x.
  apply Z.ltb_ge in Hg1. apply Z.leb_gt in Hg2. destruct Hg0 as [[Hd He] _].
  split; [done|]. injection H as <-. split; [|done].
  split; try done; [by apply roots_signer_ok|by apply window_check_ok in Hg4|].
  by exists x1.
Qed.

(** Validated trust roots name each key and each identity once. *)
Lemma validate_signer_fresh acc s acc' :
  validate_signer acc s = Ok acc' →
  signer_key_id s ∉ acc.1 ∧ identity s ∉ acc.2
  ∧ acc' = ({[signer_key_id s]} ∪ acc.1, {[identity s]} ∪ acc.2).
Proof.
  destruct acc as [keys ids]. unfold validate_signer. intros H. ok_inv H.
  destruct Hg5 as [Hk Hi]. by injection H as <-.
Qed.

Lemma validate_signers_unique l acc acc' :
  try_fold validate_signer acc l = Ok acc' →
  NoDup (signer_key_id <$> l) ∧ NoDup (identity <$> l)
  ∧ (∀ s, s ∈ l → signer_key_id s ∉ acc.1 ∧ identity s ∉ acc.2).
Proof.
  revert acc. induction l as [|s l IH]; intros acc H; simpl in *.
  { split_and!; [constructor..|]. intros s Hs. by apply not_elem_of_nil in Hs. }
  ok_inv H. apply validate_signer_fresh in Hg as (Hk & Hi & ->).
  destruct (IH _ H) as (Hnk & Hni & Hfresh). simpl in Hfresh. split_and!.
  - apply NoDup_cons. split; [|done]. intros (x & Hx & Hin)%list_elem_of_fmap.
    apply Hfresh in Hin as [Hin _]. set_solver.
  - apply NoDup_cons. split; [|done]. intros (x & Hx & Hin)%list_elem_of_fmap.
    apply Hfresh in Hin as [_ Hin]. set_solver.
  - intros x [->|Hx]%elem_of_cons; [done|]. apply Hfresh in Hx. set_solver.
Qed.

Lemma NoDup_fmap_eq {A B} (f : A → B) (l : list A) x y :
  NoDup (f <$> l) → x ∈ l → y ∈ l → f x = f y → x = y.
Proof.
  intros Hnd [i Hi]%list_elem_of_lookup_1 [j Hj]%list_elem_of_lookup_1 Hf.
  assert (i = j) as ->; [|congruence].
  eapply (NoDup_lookup (f <$> l)); [done|by rewrite list_lookup_fmap, Hi|].
  by rewrite list_lookup_fmap, Hj, Hf.
Qed.

Lemma validate_signers_windows l acc acc' s na :
  try_fold validate_signer acc l = Ok acc' → s ∈ l → not_after s = Some na → 0 < na.
Proof.
  revert acc. induction l as [|x l IH]; intros acc H Hs Hna; simpl in *;
    [by apply not_elem_of_nil in Hs|]. ok_inv H.
  apply elem_of_cons in Hs as [->|Hs]; [|by eapply IH].
  destruct acc as [keys ids]. unfold validate_signer in Hg. ok_inv Hg.
  unfold window_validate in Hg5. rewrite Hna in Hg5. ok_inv Hg5. destruct Hg7 as [_ Hp].
  simpl in Hp. by apply Z.leb_gt.
Qed.

Definition within_ttl (p : HostApprovalPolicy) (e : ApprovalEnvelope) : Prop :=
  ∀ ttl, max_approval_ttl_ms p = Some ttl →
    i64_saturating_sub (expires_at (statement e)) (issued_at (statement e)) ≤ ttl.

(** Where a candidate comes from. *)
Record candidate_from (p : HostApprovalPolicy) (plan : Plan) (envelopes : list ApprovalEnvelope)
    (now : Z) (c : Candidate) (e : ApprovalEnvelope) (s : TrustedSigner) : Prop := {
  cf_envelope : e ∈ envelopes;
  cf_human : policy_provider (statement e) ≠ POLICY_PROVIDER;
  cf_ttl : within_ttl p e;
  cf_approves : approves (policy_roots p) plan now e s;
  cf_approval : approval c = {| counted_key_id := signer_key_id s; counted_identity := identity s;
                                counted_groups := groups s; auto := false |};
  cf_until : valid_until c = Z.min (expires_at (statement e))
               match not_after s with Some na => i64_saturating_add na 1 | None => i64_max end
}.

Lemma evaluate_candidates p plan envelopes now c :
  c ∈ candidates (evaluate p plan envelopes now) →
  ∃ e s, candidate_from p plan envelopes now c e s.
Proof.
  unfold evaluate.
  assert (Hall : ∀ d, d ∈ (foldl (evaluate_envelope p plan now) ([], []) envelopes).1 →
                      ∃ e s, candidate_from p plan envelopes now d e s).
  { apply (foldl_invariant (λ acc, ∀ d, d ∈ acc.1 → ∃ e s, candidate_from p plan envelopes now d e s)).
    { simpl. intros d Hd. by apply not_elem_of_nil in Hd. }
    intros e [cs rs] He Hacc. unfold evaluate_envelope. simpl in Hacc.
    case_decide as Hauto; [done|]. destruct (is_some_and _ _) eqn:Httl; [done|].
    destruct (verify_envelope _ _ _ _ _) as [ev|] eqn:Hv; [|done]. simpl.
    intros d [Hold|Hlast%list_elem_of_singleton]%elem_of_app; [auto|subst d].
    apply verify_envelope_sound in Hv as (s & Hs & Hap & Hk & Hi). exists e, s.
    destruct (ap_signer _ _ _ _ _ Hap) as [_ Hkey].
    unfold candidate_of. rewrite Hs, Hk, Hi, <- Hkey. split; try done.
    intros ttl Hsome. rewrite Hsome in Httl. simpl in Httl. by apply Z.ltb_ge. }
  destruct (foldl _ _ _) as [cs rs]. simpl in *. apply Hall.
Qed.

(** Counted approvals are eligible candidates of distinct keys and
    identities. *)
Lemma count_loop_sound r requester found keys ids cs :
  (∀ a, a ∈ found → counted_key_id a ∈ keys ∧ counted_identity a ∈ ids) →
  NoDup (counted_key_id <$> found) → NoDup (counted_identity <$> found) →
  let l := count_loop r requester found keys ids cs in
  NoDup (counted_key_id <$> l) ∧ NoDup (counted_identity <$> l)
  ∧ ∀ a, a ∈ l → a ∈ found ∨ (a ∈ cs ∧ eligible r requester a = true).
Proof.
  revert found keys ids. induction cs as [|a cs IH]; intros found keys ids Hseen Hk Hi; simpl;
    [split_and!; auto|].
  assert (Hskip : let l := count_loop r requester found keys ids cs in
    NoDup (counted_key_id <$> l) ∧ NoDup (counted_identity <$> l)
    ∧ ∀ b, b ∈ l → b ∈ found ∨ (b ∈ a :: cs ∧ eligible r requester b = true)).
  { destruct (IH found keys ids Hseen Hk Hi) as (H1 & H2 & H3). split_and!; [done..|].
    intros b Hb. apply H3 in Hb as [|[]]; [by left|right; split; [by right|done]]. }
  destruct (eligible r requester a) eqn:Ea; simpl; [|done].
  case_bool_decide as Hk1; [done|]. case_bool_decide as Hi1; [done|]. simpl.
  assert (Hk' : NoDup (counted_key_id <$> found ++ [a])).
  { rewrite fmap_app. apply NoDup_app. split; [done|]. split; [|apply NoDup_singleton].
    intros k (b & -> & Hb)%list_elem_of_fmap Hin%list_elem_of_singleton.
    apply Hseen in Hb as [Hb _]. congruence. }
  assert (Hi' : NoDup (counted_identity <$> found ++ [a])).
  { rewrite fmap_app. apply NoDup_app. split; [done|]. split; [|apply NoDup_singleton].
    intros k (b & -> & Hb)%list_elem_of_fmap Hin%list_elem_of_singleton.
    apply Hseen in Hb as [_ Hb]. congruence. }
  assert (Hmem : ∀ b, b ∈ found ++ [a] → b ∈ found ∨ (b ∈ a :: cs ∧ eligible r requester b = true)).
  { intros b [Hold|Hlast%list_elem_of_singleton]%elem_of_app; [by left|subst b].
    right. split; [apply list_elem_of_here|done]. }
  destruct (rule_n r <=? _); [split_and!; done|].
  destruct (IH (found ++ [a]) ({[counted_key_id a]} ∪ keys) ({[counted_identity a]} ∪ ids))
    as (H1 & H2 & H3); [|done..|].
  { intros b [Hb%Hseen|Hb%list_elem_of_singleton]%elem_of_app; set_solver. }
  split_and!; [done..|]. intros b Hb. apply H3 in Hb as [|[]]; [auto|right; split; [by right|done]].
Qed.

Lemma choose_list {A B} (R : A → B → Prop) (l : list A) :
  (∀ a, a ∈ l → ∃ b, R a b) → ∃ k, Forall2 R l k.
Proof.
  induction l as [|a l IH]; intros H; [by exists []|].
  destruct (H a) as [b Hb]; [apply list_elem_of_here|].
  destruct IH as [k Hk]; [intros x Hx; apply H; by right|]. exists (b :: k). by constructor.
Qed.

Lemma require_counts a q r :
  approvals_require a q = Ok tt → r ∈ approval_rules a q →
  missing (count_quorum r (approval <$> candidates a) None) ≤ 0.
Proof.
  unfold approvals_require, unmet_rules. intros H Hr.
  destruct (filter _ _) as [|x l] eqn:Ef; [|done].
  destruct (Z.le_gt_cases (missing (count_quorum r (approval <$> candidates a) None)) 0) as [|Hgt];
    [done|].
  assert (r ∈ ([] : list QuorumRule)) as Hin; [|by apply not_elem_of_nil in Hin].
  rewrite <- Ef. apply list_elem_of_filter. split; [lia|done].
Qed.

(** A signer whose approval counts for a rule. *)
Record counts_for (p : HostApprovalPolicy) (plan : Plan) (envelopes : list ApprovalEnvelope)
    (verified_at recounted_at : Z) (r : QuorumRule) (s : TrustedSigner) : Prop := {
  cf_trusted : s ∈ policy_signers p;
  cf_group : rule_groups r = [] ∨ ∃ g, g ∈ groups s ∧ g ∈ rule_groups r;
  cf_signed : ∃ e, e ∈ envelopes ∧ approves (policy_roots p) plan verified_at e s
                   ∧ policy_provider (statement e) ≠ POLICY_PROVIDER ∧ within_ttl p e
                   ∧ recounted_at < expires_at (statement e)
                   ∧ ∀ na, not_after s = Some na → recounted_at ≤ na
}.

Lemma candidate_counts p plan envelopes t1 t2 r c e s :
  validate_policy p = Ok tt → candidate_from p plan envelopes t1 c e s → t2 < valid_until c →
  eligible r None (approval c) = true → counts_for p plan envelopes t1 t2 r s.
Proof.
  intros Hp [He Hh Ht Ha Hap Hu] Hvalid Hel. destruct (ap_signer _ _ _ _ _ Ha) as [Hs _].
  unfold validate_policy, validate_roots in Hp. ok_inv Hp. split; [done| |].
  - unfold eligible in Hel. rewrite Hap in Hel. simpl in Hel.
    rewrite !andb_true_iff, orb_true_iff, bool_decide_eq_true in Hel.
    destruct Hel as [_ [|Hg']]; [by left|right].
    apply existsb_elem in Hg' as (g & Hg' & Hn). apply existsb_elem in Hn as (n & Hn & Heq).
    apply bool_decide_eq_true in Heq as ->. by exists g.
  - exists e. rewrite Hu in Hvalid. split_and!; try done; [lia|].
    intros na Hna. rewrite Hna in Hvalid.
    assert (0 < na) by (by eapply validate_signers_windows).
    unfold i64_saturating_add, i64_clamp, i64_max, i64_min in Hvalid. lia.
Qed.

(** C23: host approvals are enforced: when a validated policy's purpose is
    accepted after the wait for the product lock, every rule of that
    purpose has at least its number of distinct trusted signers (distinct
    keys and identities), each in a required group, each with a non-automatic
    approval in the request that is bound to this plan and environment, was
    valid when verified, is within the policy's lifetime and still valid at
    the recount. *)
Theorem host_quorum_sound p plan envelopes t1 t2 q r :
  validate_policy p = Ok tt →
  approvals_require (approvals_at (evaluate p plan envelopes t1) t2) q = Ok tt →
  r ∈ policy_rules p q →
  ∃ ss, rule_n r ≤ Z.of_nat (length ss) ∧ NoDup (identity <$> ss) ∧ NoDup (signer_key_id <$> ss)
        ∧ ∀ s, s ∈ ss → counts_for p plan envelopes t1 t2 r s.
Proof.
  intros Hp Hreq Hr. set (a := approvals_at (evaluate p plan envelopes t1) t2) in *.
  assert (Hrules : approval_rules a q = policy_rules p q).
  { unfold a, evaluate. by destruct (foldl _ _ _). }
  pose proof (require_counts a q r Hreq ltac:(by rewrite Hrules)) as Hm.
  unfold count_quorum in Hm. cbn [missing] in Hm.
  pose proof (count_loop_sound r None [] ∅ ∅ (approval <$> candidates a)) as Hsound.
  destruct Hsound as (Hk & Hi & Hmem); [intros x Hx; by apply not_elem_of_nil in Hx|constructor..|].
  set (l := count_loop r None [] ∅ ∅ (approval <$> candidates a)) in *.
  destruct (choose_list (λ x s, counted_key_id x = signer_key_id s ∧ counted_identity x = identity s
              ∧ counts_for p plan envelopes t1 t2 r s) l) as [ss Hss].
  { intros x Hx. apply Hmem in Hx as [Hx|[Hx Hel]]; [by apply not_elem_of_nil in Hx|].
    apply list_elem_of_fmap in Hx as (c & -> & Hc).
    unfold a, approvals_at in Hc. simpl in Hc. apply list_elem_of_filter in Hc as [Hvalid Hc].
    destruct (evaluate_candidates _ _ _ _ _ Hc) as (e & s & Hfrom). exists s.
    rewrite (cf_approval _ _ _ _ _ _ _ Hfrom). split_and!; [done..|].
    by eapply candidate_counts. }
  assert (Hkeys : counted_key_id <$> l = signer_key_id <$> ss).
  { clear -Hss. induction Hss as [|x s l' ss' (H1 & _) _ IH]; [done|]. exact (f_equal2 cons H1 IH). }
  assert (Hids : counted_identity <$> l = identity <$> ss).
  { clear -Hss. induction Hss as [|x s l' ss' (_ & H1 & _) _ IH]; [done|]. exact (f_equal2 cons H1 IH). }
  exists ss. rewrite <- Hkeys, <- Hids. split_and!; [|done..|].
  - rewrite <- (Forall2_length _ _ _ Hss). lia.
  - intros s [i Hs]%list_elem_of_lookup_1.
    destruct (Forall2_lookup_r _ _ _ _ _ Hss Hs) as (x & _ & _ & _ & Hc). done.
Qed.
End HostSoundness.

(** ** A host plan with two approvals *)
Module ApprovalExamples.
Definition zeros : string := "0000000000000000000000000000000000000000000000000000000000000000".

(** One digest for everything. *)
#[local] Instance fixed_digest : PlanEncoding := {|
  content_json := @content_json PlainEncoding.instance;
  executable_json := @executable_json PlainEncoding.instance;
  plan_json := @plan_json PlainEncoding.instance;
  plan_of_json := @plan_of_json PlainEncoding.instance;
  sha256_hex := λ _, zeros
|}.

(** Every key is well formed and none revoked; a signature is the text
    signed. *)
#[local] Instance transparent : Crypto := {|
  well_formed_key := λ _ _, true;
  is_revoked := λ _, false;
  verify_strict := λ _ signature bytes, bool_decide (signature = bytes)
|}.

Definition plan : Plan := PlanExamples.no_op Computed "".

Definition statement_for (digest : string) : ApprovalStatement :=
  {| plan_digest := digest; stmt_environment := "prod";
     purpose := PURPOSE; skip_gates := true; issued_at := 10; expires_at := 100;
     policy_provider := "human"; policy_evidence_id := "ticket";
     policy_digest := "sha256:" +:+ zeros |}.

Definition approved : ApprovalStatement := statement_for ("sha256:" +:+ zeros).

Lemma canonical_bytes_inj_witness : statement_for ("sha256:" +:+ zeros) = approved.
Proof.
  refine (canonical_bytes_inj _ _
    (match canonical_bytes approved with Ok b => b | Err _ => "" end) _ _ _ _).
  1-2: by vm_compute.
  1-2: vm_compute; reflexivity.
Defined.

Definition counted_by (key who : string) : CountedApproval :=
  {| counted_key_id := key; counted_identity := who; counted_groups := ["ops"]; auto := false |}.

Definition two_of_ops : QuorumRule :=
  {| rule_purpose := ExecutePlan; rule_n := 2; rule_groups := ["ops"];
     exclude_requester := false; min_criticality := None |}.

(** The same signer twice is one approval. *)
Definition twice : list CountedApproval := [counted_by "k1" "ann"; counted_by "k1" "ann"].

Lemma count_quorum_exact_witness :
  missing (count_quorum two_of_ops twice None)
  = Z.max 0 (2 - Z.of_nat (size (identities_of (eligible_of two_of_ops None twice)))).
Proof.
  apply (count_quorum_exact two_of_ops twice None).
  intros a b Ha Hb. unfold twice in *. rewrite !elem_of_cons, elem_of_nil in *.
  destruct Ha as [->|[->|[]]], Hb as [->|[->|[]]]; done.
Defined.

Example one_signer_missing : missing (count_quorum two_of_ops twice None) = 1.
Proof. vm_compute. reflexivity. Qed.

Definition signer (key who : string) : TrustedSigner :=
  {| signer_key_id := key; identity := who; public_key := "pk"; environments := [];
     providers := []; groups := ["ops"]; not_before := None; not_after := Some 90 |}.

Definition host_policy : HostApprovalPolicy :=
  {| policy_version := 1; max_approval_ttl_ms := Some 1000;
     policy_signers := [signer "k1" "ann"; signer "k2" "bob"]; quorum := [two_of_ops] |}.

Definition envelope (key : string) : ApprovalEnvelope :=
  {| schema := APPROVAL_SCHEMA; envelope_key_id := key; statement := approved;
     signature := match canonical_bytes approved with Ok b => b | Err _ => "" end |}.

Definition request : list ApprovalEnvelope := [envelope "k1"; envelope "k1"; envelope "k2"].

Lemma host_quorum_sound_witness :
  ∃ ss, 2 ≤ Z.of_nat (length ss) ∧ NoDup (identity <$> ss) ∧ NoDup (signer_key_id <$> ss)
        ∧ ∀ s, s ∈ ss → counts_for host_policy plan request 20 30 two_of_ops s.
Proof.
  refine (host_quorum_sound host_policy plan request 20 30 ExecutePlan two_of_ops _ _ _).
  - vm_compute. reflexivity.
  - vm_compute. reflexivity.
  - apply list_elem_of_here.
Defined.

(** Once the signers' window closed, the same approvals no longer count. *)
Example window_closed :
  approvals_require (approvals_at (evaluate host_policy plan request 20) 91) ExecutePlan
  = Err (QuorumMissing "execute_plan").
Proof. vm_compute. reflexivity. Qed.
End ApprovalExamples.
