(* ===== verification/ReleaseSigning.v ===== *)
(** * Release signatures

    [release_signing.rs] and the parts of [signature_verification.rs] only it
    uses: the signed statement of a release, the bytes its signature covers,
    the release trust roots and what is checked before a release is trusted. *)

From S2P Require Import Prelude RustStr Plan Approvals.

Record Provenance := {
  source_uri : string;
  revision : string;
  builder : string;
  built_at_unix_ms : Z;
  materials : gmap string string
}.

Record ReleaseStatement := {
  signed_manifest_digest : string;
  signed_artifact_digest : string;
  provenance : Provenance
}.

Record SignatureEnvelope := {
  signature_schema : string;
  signature_key_id : string;
  signature_statement : ReleaseStatement;
  signature_text : string
}.

Record ReleaseTrustedSigner := {
  release_key_id : string;
  release_identity : string;
  release_public_key : string;
  release_not_before : option Z;
  release_not_after : option Z
}.

Record ReleaseTrustRoots := { release_roots_version : Z; release_signers : list ReleaseTrustedSigner }.

Record ReleaseEvidence := {
  ev_signer_identity : string;
  ev_signer_key_id : string;
  ev_signer_public_key : string;
  ev_manifest_digest : string;
  ev_artifact_digest : string;
  ev_statement_digest : string;
  ev_provenance : Provenance
}.

Inductive signing_error :=
| UnsupportedSignatureSchema (schema : string)
| BadKeyId (key : string)
| BadDigest (label value : string)
| BadText (label value : string)
| BadUrl (label value : string)
| BuiltAtNotPositive
| BadSignatureEncoding
| RootsVersion (version : Z)
| NoSigners
| DuplicateKeyId (key : string)
| DuplicateIdentity (identity : string)
| BadSignerKey (key : string)
| BadWindow (error : approval_error)
| UntrustedSigner (key : string)
| SignedInTheFuture (identity : string)
| OutsideWindow (error : approval_error)
| RevokedKey (key : string)
| SignatureMismatch
| ManifestDigestMismatch (signed actual : string)
| ArtifactDigestMismatch (signed actual : string).

Definition ENVELOPE_SCHEMA : string := "tenkai.release-signature.v1".
Definition TRUST_ROOT_VERSION : Z := 1.
Definition RELEASE_DOMAIN : string := "TENKAI-RELEASE-SIGNATURE-V1" +:+ String NUL "".
Definition SIGNED_AT_CLOCK_SKEW_MS : Z := 5 * 60 * 1000.

(** [base64]'s standard alphabet with padding. *)
Class Base64 := { base64_decode : string → option string; base64_encode : string → string }.

(** [url::Url]: [parse], and what the checks read of the parsed URL. *)
Record Url := {
  cannot_be_a_base : bool; username : string; password : option string; url_text : string
}.
Class UrlFormat := { url_parse : string → option Url }.

(** [validate_key_id]: [validate_hex_digest] of what follows the prefix. *)
Definition validate_key_id (value : string) : result unit signing_error :=
  bail_if negb (is_some_and (strip_prefix "sha256:" value) valid_hex_digest) with (BadKeyId value) in
  Ok tt.

Definition validate_hex_digest (label value : string) : result unit signing_error :=
  bail_if negb (valid_hex_digest value) with (BadDigest label value) in Ok tt.

(** [validate_text] of [release_signing.rs]. *)
Definition validate_release_text (label value : string) (max_len : Z) : result unit signing_error :=
  bail_if str_is_empty value || (max_len <? str_len value) || any_control value
    with (BadText label value) in
  Ok tt.

(** [SignerValidityWindow::check_signed_at]. *)
Definition check_signed_at (nb na : option Z) (who : string) (signed_at_ms now_ms : Z) :
    result unit signing_error :=
  bail_if i64_saturating_add now_ms SIGNED_AT_CLOCK_SKEW_MS <? signed_at_ms
    with (SignedInTheFuture who) in
  map_err OutsideWindow (window_check nb na who signed_at_ms).

Section Signing.
Context {U : UrlFormat} {B : Base64} {E : PlanEncoding} {C : Crypto}.

Definition validate_canonical_url (label value : string) : result unit signing_error :=
  bail_if any_control value with (BadUrl label value) in
  let? url := ok_or (url_parse value) (BadUrl label value) in
  bail_if cannot_be_a_base url || negb (str_is_empty (username url)) || is_some_b (password url)
    with (BadUrl label value) in
  bail_if negb (bool_decide (url_text url = value)) with (BadUrl label value) in
  Ok tt.

Definition validate_material (entry : string * string) : result unit signing_error :=
  let? _ := validate_canonical_url "provenance material URL" entry.1 in
  validate_hex_digest "provenance material digest" entry.2.

Definition validate_provenance (p : Provenance) : result unit signing_error :=
  let? _ := validate_canonical_url "provenance source_uri" (source_uri p) in
  let? _ := validate_release_text "provenance revision" (revision p) 256 in
  let? _ := validate_release_text "provenance builder" (builder p) 256 in
  bail_if built_at_unix_ms p <=? 0 with BuiltAtNotPositive in
  try_for_each validate_material (btree_iter (materials p)).

(** [decode_exact::<64>] as a check. *)
Definition decodes_to (n : Z) (value : string) : bool :=
  is_some_and (base64_decode value) (λ bytes, str_len bytes =? n).

Definition validate_signature (e : SignatureEnvelope) : result unit signing_error :=
  bail_if negb (bool_decide (signature_schema e = ENVELOPE_SCHEMA))
    with (UnsupportedSignatureSchema (signature_schema e)) in
  let? _ := validate_key_id (signature_key_id e) in
  let st := signature_statement e in
  let? _ := validate_hex_digest "manifest_digest" (signed_manifest_digest st) in
  let? _ := validate_hex_digest "artifact_digest" (signed_artifact_digest st) in
  let? _ := validate_provenance (provenance st) in
  bail_if negb (decodes_to 64 (signature_text e)) with BadSignatureEncoding in
  Ok tt.

(** [signed_bytes]. *)
Definition material_bytes (entry : string * string) : string :=
  len_prefixed entry.1 +:+ len_prefixed entry.2.

Definition release_bytes (st : ReleaseStatement) : string :=
  let p := provenance st in
  RELEASE_DOMAIN
  +:+ len_prefixed (signed_manifest_digest st) +:+ len_prefixed (signed_artifact_digest st)
  +:+ len_prefixed (source_uri p) +:+ len_prefixed (revision p) +:+ len_prefixed (builder p)
  +:+ i64_be_bytes (built_at_unix_ms p) +:+ be_bytes 8 (Z.of_nat (size (materials p)))
  +:+ foldr (λ entry rest, material_bytes entry +:+ rest) "" (btree_iter (materials p)).

Definition statement_digest (e : SignatureEnvelope) : string :=
  sha256_hex (release_bytes (signature_statement e)).

Definition signed_at_ms (e : SignatureEnvelope) : Z :=
  built_at_unix_ms (provenance (signature_statement e)).

(** [TrustRoots::validate]. *)
Definition validate_release_signer (seen : gset string * gset string) (s : ReleaseTrustedSigner) :
    result (gset string * gset string) signing_error :=
  let '(keys, identities) := seen in
  let? _ := validate_key_id (release_key_id s) in
  let? _ := validate_release_text "trusted signer identity" (release_identity s) 256 in
  bail_if bool_decide (release_key_id s ∈ keys) with (DuplicateKeyId (release_key_id s)) in
  bail_if bool_decide (release_identity s ∈ identities)
    with (DuplicateIdentity (release_identity s)) in
  bail_if negb (well_formed_key (release_public_key s) (release_key_id s))
    with (BadSignerKey (release_key_id s)) in
  let? _ := map_err BadWindow (window_validate (release_not_before s) (release_not_after s)) in
  Ok ({[release_key_id s]} ∪ keys, {[release_identity s]} ∪ identities).

Definition validate_release_roots (r : ReleaseTrustRoots) : result unit signing_error :=
  bail_if negb (release_roots_version r =? TRUST_ROOT_VERSION)
    with (RootsVersion (release_roots_version r)) in
  bail_if bool_decide (release_signers r = []) with NoSigners in
  let? _ := try_fold validate_release_signer (∅, ∅) (release_signers r) in
  Ok tt.

Definition release_signer (r : ReleaseTrustRoots) (key : string) :
    result ReleaseTrustedSigner signing_error :=
  ok_or (find_first (λ s, bool_decide (release_key_id s = key)) (release_signers r))
    (UntrustedSigner key).

(** [TrustRoots::resolved]: the key is not revoked and well formed
    ([trusted_key]); the signer stands for itself and its verifying key. *)
Definition resolved (s : ReleaseTrustedSigner) : result ReleaseTrustedSigner signing_error :=
  bail_if is_revoked (release_key_id s) with (RevokedKey (release_key_id s)) in
  bail_if negb (well_formed_key (release_public_key s) (release_key_id s))
    with (BadSignerKey (release_key_id s)) in
  Ok s.

Definition resolve_at (r : ReleaseTrustRoots) (key : string) (at_ms : Z) :
    result ReleaseTrustedSigner signing_error :=
  let? s := release_signer r key in
  let? _ := map_err OutsideWindow
              (window_check (release_not_before s) (release_not_after s) (release_identity s) at_ms) in
  resolved s.

Definition resolve_signed_at (r : ReleaseTrustRoots) (key : string) (signed_at now_ms : Z) :
    result ReleaseTrustedSigner signing_error :=
  let? s := release_signer r key in
  let? _ := check_signed_at (release_not_before s) (release_not_after s) (release_identity s)
              signed_at now_ms in
  resolved s.

Definition resolve_unwindowed (r : ReleaseTrustRoots) (key : string) :
    result ReleaseTrustedSigner signing_error :=
  let? s := release_signer r key in resolved s.

(** [SignatureEnvelope::authenticate_at]. *)
Definition authenticate_at (e : SignatureEnvelope) (roots : ReleaseTrustRoots) (now_ms : Z) :
    result ReleaseTrustedSigner signing_error :=
  let? _ := validate_signature e in
  let? _ := validate_release_roots roots in
  let? s := resolve_signed_at roots (signature_key_id e) (signed_at_ms e) now_ms in
  bail_if negb (verify_strict (release_public_key s) (signature_text e)
                  (release_bytes (signature_statement e))) with SignatureMismatch in
  Ok s.

(** [verify_release], at the time [now_ms]. *)
Definition verify_release (e : SignatureEnvelope) (roots : ReleaseTrustRoots) (now_ms : Z)
    (manifest_digest artifact_digest : string) : result ReleaseEvidence signing_error :=
  let? signer := authenticate_at e roots now_ms in
  let st := signature_statement e in
  bail_if negb (bool_decide (signed_manifest_digest st = manifest_digest))
    with (ManifestDigestMismatch (signed_manifest_digest st) manifest_digest) in
  bail_if negb (bool_decide (signed_artifact_digest st = artifact_digest))
    with (ArtifactDigestMismatch (signed_artifact_digest st) artifact_digest) in
  Ok {| ev_signer_identity := release_identity signer; ev_signer_key_id := release_key_id signer;
        ev_signer_public_key :=
          default "" (base64_encode <$> base64_decode (release_public_key signer));
        ev_manifest_digest := manifest_digest; ev_artifact_digest := artifact_digest;
        ev_statement_digest := statement_digest e; ev_provenance := provenance st |}.
End Signing.

(** ** Statements signed as sent

    [signed_bytes.rs]: the signature covers the domain and the statement bytes
    as they were sent; nothing is parsed before it verified. *)

Inductive Refusal := RefusedEncoding | RefusedSignature | RefusedParse.

Section SignedBytes.
Context {B : Base64} {E : PlanEncoding} {T : Type}.

Definition signed_message (domain bytes : string) : string := domain +:+ bytes.

(** [sign], of a statement serialized to [bytes]: what is sent. *)
Definition sign_bytes (domain bytes : string) (sign : string → string) : string * string :=
  (base64_encode bytes, sign (signed_message domain bytes)).

(** [verify]: the statement and the digest of its bytes. *)
Definition verify_signed (domain statement : string) (verify : string → bool)
    (parse : string → option T) : result (T * string) Refusal :=
  let? bytes := ok_or (base64_decode statement) RefusedEncoding in
  bail_if negb (verify (signed_message domain bytes)) with RefusedSignature in
  let? t := ok_or (parse bytes) RefusedParse in
  Ok (t, "sha256:" +:+ sha256_hex bytes).
End SignedBytes.

(** ** The signed bytes determine the statement *)

(** Lengths and counts are machine words, times are [i64]s. *)
Record statement_fits (st : ReleaseStatement) : Prop := {
  fits_manifest : str_len (signed_manifest_digest st) ≤ u64_max;
  fits_artifact : str_len (signed_artifact_digest st) ≤ u64_max;
  fits_source : str_len (source_uri (provenance st)) ≤ u64_max;
  fits_revision : str_len (revision (provenance st)) ≤ u64_max;
  fits_builder : str_len (builder (provenance st)) ≤ u64_max;
  fits_built_at : i64_min ≤ built_at_unix_ms (provenance st) ≤ i64_max;
  fits_count : Z.of_nat (size (materials (provenance st))) ≤ u64_max;
  fits_materials u d : materials (provenance st) !! u = Some d →
    str_len u ≤ u64_max ∧ str_len d ≤ u64_max
}.

Lemma btree_iter_inj {V} (m n : gmap string V) : btree_iter m = btree_iter n → m = n.
Proof.
  intros H. apply map_eq. intros k. apply option_eq. intros v.
  by rewrite <-!elem_of_btree_iter, H.
Qed.

Lemma length_btree_iter {V} (m : gmap string V) : length (btree_iter m) = size m.
Proof. unfold btree_iter. by rewrite sort_by_length, length_map_to_list. Qed.

Lemma material_list_inj (l k : list (string * string)) :
  length l = length k →
  (∀ e, e ∈ l ∨ e ∈ k → str_len e.1 ≤ u64_max ∧ str_len e.2 ≤ u64_max) →
  foldr (λ entry rest, material_bytes entry +:+ rest) "" l
  = foldr (λ entry rest, material_bytes entry +:+ rest) "" k → l = k.
Proof.
  revert k. induction l as [|[u d] l IH]; intros [|[v f] k] Hlen Hfit H; try done. simpl in H.
  destruct (Hfit (u, d)) as [Hu Hd]; [left; left|]. destruct (Hfit (v, f)) as [Hv Hf]; [right; left|].
  unfold material_bytes in H. rewrite !string_app_assoc in H. simpl in *.
  apply len_prefixed_inj in H as [-> H]; [|done..]. apply len_prefixed_inj in H as [-> H]; [|done..].
  f_equal. apply IH; [by injection Hlen| |done]. intros e He. apply Hfit. set_solver.
Qed.

Lemma release_bytes_inj st st' :
  statement_fits st → statement_fits st' → release_bytes st = release_bytes st' → st = st'.
Proof.
  intros [H1 H2 H3 H4 H5 H6 H7 H8] [K1 K2 K3 K4 K5 K6 K7 K8] H. unfold release_bytes in H.
  apply string_app_inj in H as [_ H]; [|done].
  do 5 (apply len_prefixed_inj in H as [? H]; [|done..]).
  apply string_app_inj in H as [Ht%i64_be_bytes_inj H]; [|done..].
  apply string_app_inj in H as [Hn H]; [|by rewrite !be_bytes_length].
  apply be_bytes_inj in Hn; [|unfold u64_max in *; simpl; lia..].
  apply material_list_inj in H.
  - apply btree_iter_inj in H. destruct st as [? ? []], st' as [? ? []]; simpl in *. congruence.
  - rewrite !length_btree_iter. lia.
  - intros [u d] [He|He]; apply elem_of_btree_iter in He; eauto.
Qed.

Section Trusted.
Context {U : UrlFormat} {B : Base64} {E : PlanEncoding} {C : Crypto}.

(** What holds of a signer that vouches for a statement. *)
Record vouches (roots : ReleaseTrustRoots) (now : Z) (e : SignatureEnvelope)
    (s : ReleaseTrustedSigner) : Prop := {
  vo_trusted : s ∈ release_signers roots ∧ release_key_id s = signature_key_id e;
  vo_only : ∀ s', s' ∈ release_signers roots →
    release_key_id s' = release_key_id s ∨ release_identity s' = release_identity s → s' = s;
  vo_key : is_revoked (release_key_id s) = false
           ∧ well_formed_key (release_public_key s) (release_key_id s) = true;
  vo_window : (∀ nb, release_not_before s = Some nb → nb ≤ signed_at_ms e)
              ∧ (∀ na, release_not_after s = Some na → signed_at_ms e ≤ na);
  vo_past : signed_at_ms e ≤ i64_saturating_add now SIGNED_AT_CLOCK_SKEW_MS;
  vo_signature : verify_strict (release_public_key s) (signature_text e)
                   (release_bytes (signature_statement e)) = true
}.

Lemma release_signers_distinct seen l seen' :
  try_fold validate_release_signer seen l = Ok seen' →
  NoDup (release_key_id <$> l) ∧ NoDup (release_identity <$> l)
  ∧ (∀ s, s ∈ l → release_key_id s ∉ seen.1 ∧ release_identity s ∉ seen.2).
Proof.
  revert seen. induction l as [|s l IH]; intros [keys ids] H.
  { split_and!; [constructor..|]. intros s Hs. by apply elem_of_nil in Hs. }
  cbn [try_fold] in H. destruct (validate_release_signer _ s) as [seen1|] eqn:Hv; [|done].
  destruct (IH _ H) as (Hk & Hi & Hs). unfold validate_release_signer in Hv. ok_inv Hv.
  injection Hv as <-. simpl in *. rewrite !NoDup_cons. split_and!; try done.
  - rewrite list_elem_of_fmap. intros (s' & Heq & [Hin _]%Hs). set_solver.
  - rewrite list_elem_of_fmap. intros (s' & Heq & [_ Hin]%Hs). set_solver.
  - intros s' [->|Hin]%elem_of_cons; [done|]. destruct (Hs s' Hin). set_solver.
Qed.

Lemma authenticate_vouches e roots now s :
  authenticate_at e roots now = Ok s → vouches roots now e s.
Proof.
  unfold authenticate_at, validate_release_roots, resolve_signed_at, release_signer, check_signed_at,
    resolved. intros H. ok_inv H. injection H as ->. ok_inv Hg0. ok_inv Hg1. injection Hg1 as ->.
  apply find_first_some in Hg6 as [Hin Hkey]. apply bool_decide_eq_true in Hkey.
  destruct (release_signers_distinct _ _ _ Hg5) as (Hk & Hi & _). ok_inv Hg7.
  rewrite map_err_ok in Hg7. unfold window_check in Hg7. ok_inv Hg7. split; try done.
  - intros s' Hs' [Heq|Heq]; [exact (NoDup_fmap_eq _ _ _ _ Hk Hs' Hin Heq)|exact (NoDup_fmap_eq _ _ _ _ Hi Hs' Hin Heq)].
  - split; intros b Hb.
    + rewrite Hb in Hg6. simpl in Hg6. by apply Z.ltb_ge.
    + rewrite Hb in Hg10. simpl in Hg10. by apply Z.ltb_ge.
  - by apply Z.ltb_ge.
Qed.

(** C25: a release is only trusted on a signature over its own content: the
    evidence names a signer that the trust roots hold under this key and
    identity alone, whose key is well formed and not revoked, whose validity
    window contains the time the release was built, which is not in the
    future beyond the allowed skew; the signature verifies over bytes that
    determine both digests and the whole provenance, so it cannot stand for
    another manifest, another artifact or another origin. *)
Theorem verify_release_sound e roots now md ad ev :
  statement_fits (signature_statement e) →
  verify_release e roots now md ad = Ok ev →
  (∃ s, vouches roots now e s
        ∧ ev_signer_identity ev = release_identity s ∧ ev_signer_key_id ev = release_key_id s)
  ∧ ∀ st, statement_fits st → release_bytes st = release_bytes (signature_statement e) →
      signed_manifest_digest st = md ∧ signed_artifact_digest st = ad
      ∧ provenance st = ev_provenance ev.
Proof.
  unfold verify_release. intros Hfit H. ok_inv H. injection H as <-. simpl.
  split; [exists x; split; [by apply authenticate_vouches|done]|].
  intros st Hst Hb. apply release_bytes_inj in Hb as ->; done.
Qed.
End Trusted.

(** ** Signing domains *)

(** The bytes of an approval and of a release never coincide: a signature
    over one is no signature over the other. *)
Lemma signing_domains_disjoint (s : ApprovalStatement) (st : ReleaseStatement) bytes :
  canonical_bytes s = Ok bytes → bytes ≠ release_bytes st.
Proof.
  unfold canonical_bytes. intros H. ok_inv H. injection H as <-. unfold release_bytes.
  unfold APPROVAL_DOMAIN, RELEASE_DOMAIN. rewrite !string_app_assoc.
  intros H'. by apply (f_equal (String.get 7)) in H'.
Qed.

Module SigningExamples.
#[local] Existing Instance ApprovalExamples.fixed_digest.
#[local] Existing Instance ApprovalExamples.transparent.

(** Every text is its own canonical URL, and every encoded text decodes to 64
    bytes. *)
#[local] Instance plain_urls : UrlFormat := {|
  url_parse u := Some {| cannot_be_a_base := false; username := ""; password := None; url_text := u |} |}.
#[local] Instance fixed_base64 : Base64 := {|
  base64_decode _ := Some ApprovalExamples.zeros; base64_encode s := s |}.

Definition key : string := "sha256:" +:+ ApprovalExamples.zeros.

Definition built : ReleaseStatement := {|
  signed_manifest_digest := ApprovalExamples.zeros; signed_artifact_digest := ApprovalExamples.zeros;
  provenance := {| source_uri := "https://example/src"; revision := "r1"; builder := "ci";
                   built_at_unix_ms := 10; materials := {["https://example/lib" := ApprovalExamples.zeros]} |} |}.

Definition signed : SignatureEnvelope := {|
  signature_schema := ENVELOPE_SCHEMA; signature_key_id := key; signature_statement := built;
  signature_text := release_bytes built |}.

Definition roots : ReleaseTrustRoots := {|
  release_roots_version := 1;
  release_signers := [{| release_key_id := key; release_identity := "release-team";
                         release_public_key := "pk"; release_not_before := None;
                         release_not_after := Some 15 |}] |}.

(** The signer's window has closed at 20, but not when the release was built. *)
Lemma verify_release_sound_witness :
  ∃ s, vouches roots 20 signed s.
Proof.
  destruct (verify_release_sound signed roots 20 ApprovalExamples.zeros ApprovalExamples.zeros
              {| ev_signer_identity := "release-team"; ev_signer_key_id := key;
                 ev_signer_public_key := ApprovalExamples.zeros;
                 ev_manifest_digest := ApprovalExamples.zeros;
                 ev_artifact_digest := ApprovalExamples.zeros;
                 ev_statement_digest := ApprovalExamples.zeros; ev_provenance := provenance built |})
    as [(s & Hs & _) _].
  - split; [by vm_compute..|]. simpl. intros u d Hu. apply lookup_singleton_Some in Hu as [<- <-].
    by vm_compute.
  - vm_compute. reflexivity.
  - by exists s.
Defined.

(** A release that claims to be built an hour from now is refused. *)
Example built_in_the_future :
  check_signed_at None None "release-team" 3600020 20 = Err (SignedInTheFuture "release-team").
Proof. reflexivity. Qed.
End SigningExamples.
