(* ===== verification/HostState.v ===== *)
(** * The host applier's records

    [host_apply/state.rs]: what the root-side applier has applied for one
    product, how a verified step is admitted against that record, and how the
    record moves when the step ends (ADR 0041). *)

From S2P Require Import Prelude RustStr Semver Kinds Plan Approvals.

Record HostRelease := { hr_version : string; hr_manifest_digest : string }.

#[export] Instance HostRelease_eq_dec : EqDecision HostRelease.
Proof. solve_decision. Defined.

Inductive AppliedState :=
| StateEmpty
| StateApplied (release : HostRelease)
| StateDirty (from to : option HostRelease).

#[export] Instance AppliedState_eq_dec : EqDecision AppliedState.
Proof. solve_decision. Defined.

Inductive HostApplyOutcome := HostSucceeded | HostFailed | TimedOut | Stopped | Interrupted.

#[export] Instance HostApplyOutcome_eq_dec : EqDecision HostApplyOutcome.
Proof. solve_decision. Defined.

Definition outcome_succeeded (o : HostApplyOutcome) : bool := bool_decide (o = HostSucceeded).

Record HostApplyStarted := {
  started_instance : string;
  started_plan_id : string;
  started_plan_digest : string;
  started_step_id : string;
  started_environment : string;
  started_product : string;
  started_action : HostAction;
  started_release : HostRelease;
  started_generation : Z;
  started_at : Z;
  cgroup : option string
}.

#[export] Instance HostApplyStarted_eq_dec : EqDecision HostApplyStarted.
Proof. solve_decision. Defined.

Record HostApplyResult := {
  result_instance : string;
  result_environment : string;
  result_product : string;
  result_action : HostAction;
  result_release_digest : string;
  outcome : HostApplyOutcome;
  exit_status : option Z;
  detail : string;
  result_generation : Z;
  result_started_at : Z;
  finished_at : Z
}.

#[export] Instance HostApplyResult_eq_dec : EqDecision HostApplyResult.
Proof. solve_decision. Defined.

Record AppliedStateRecord := {
  record_environment : string;
  record_product : string;
  record_generation : Z;
  record_state : AppliedState;
  high_water : option HostRelease;
  last_started : option HostApplyStarted;
  last_result : option HostApplyResult
}.

#[export] Instance AppliedStateRecord_eq_dec : EqDecision AppliedStateRecord.
Proof. solve_decision. Defined.

(** The fields of [VerifiedHostStep] the records and the store read. *)
Record VerifiedHostStep := {
  v_instance : string;
  v_plan_id : string;
  v_plan_digest : string;
  v_environment : string;
  v_product : string;
  v_step_id : string;
  v_step_action : Action;
  v_action : HostAction;
  v_expected_generation : Z;
  v_from : option string;
  v_release : HostRelease;
  v_approvals : HostApprovals;
  v_purposes : list QuorumPurpose
}.

Inductive host_error :=
| OtherProduct
| WrongGeneration (expected actual : Z)
| SourceMismatch (from : option string)
| NotTheRecordedRelease (version : string)
| HealthNeedsApplied
| NotNewer (version high_water : string) (error : approval_error)
| GenerationOverflow
| ApprovalsRefused (error : approval_error)
| InvalidInstance (instance : string)
| StillRunning (instance : string)
| RecordOfOtherProduct.

(** [HostApplyStarted::result]. *)
Definition started_result (s : HostApplyStarted) (o : HostApplyOutcome) (exit : option Z)
    (text : string) (finished : Z) : HostApplyResult := {|
  result_instance := started_instance s;
  result_environment := started_environment s;
  result_product := started_product s;
  result_action := started_action s;
  result_release_digest := hr_manifest_digest (started_release s);
  outcome := o;
  exit_status := exit;
  detail := text;
  result_generation := started_generation s;
  result_started_at := started_at s;
  finished_at := finished |}.

(** [AppliedStateRecord::empty]. *)
Definition empty_record (environment product : string) : AppliedStateRecord := {|
  record_environment := environment; record_product := product; record_generation := 0;
  record_state := StateEmpty; high_water := None; last_started := None; last_result := None |}.

Definition release_version (r : option HostRelease) : option string := hr_version <$> r.

(** The releases a step may start from. *)
Definition source_candidates (s : AppliedState) : list (option HostRelease) :=
  match s with
  | StateEmpty => [None]
  | StateApplied release => [Some release]
  | StateDirty from to => [from; to]
  end.

(** [AppliedStateRecord::source]. *)
Definition source (r : AppliedStateRecord) (from : option string) :
    result (option HostRelease) host_error :=
  ok_or (find_first (λ c, bool_decide (release_version c = from)) (source_candidates (record_state r)))
        (SourceMismatch from).

Section HostState.
Context {SV : Semver}.

Definition is_newer (candidate than : string) : bool :=
  match Version_parse candidate, Version_parse than with
  | Some c, Some t => match Version_cmp_precedence c t with Gt => true | _ => false end
  | _, _ => false
  end.

(** The purpose an install that does not raise the high-water mark needs. *)
Definition downgrade_purpose (step : VerifiedHostStep) : QuorumPurpose :=
  if decide (v_step_action step = Rollback) then RollbackPurpose else DowngradePurpose.

(** [AppliedStateRecord::admit]. *)
Definition admit_record (r : AppliedStateRecord) (step : VerifiedHostStep)
    (group : option string) (now_ms : Z) :
    result (HostApplyStarted * AppliedStateRecord) host_error :=
  bail_if negb (bool_decide (record_environment r = v_environment step))
          || negb (bool_decide (record_product r = v_product step)) with OtherProduct in
  bail_if negb (v_expected_generation step =? record_generation r)
    with (WrongGeneration (v_expected_generation step) (record_generation r)) in
  let? from := source r (v_from step) in
  bail_if bool_decide (v_action step ≠ HostInstall)
          && is_none_or from (λ s, bool_decide (s ≠ v_release step))
    with (NotTheRecordedRelease (hr_version (v_release step))) in
  bail_if bool_decide (v_action step = HostHealth)
          && negb (bool_decide (record_state r = StateApplied (v_release step)))
    with HealthNeedsApplied in
  let? _ := match v_action step, high_water r with
    | HostInstall, Some mark =>
      if is_newer (hr_version (v_release step)) (hr_version mark) then Ok tt
      else map_err (NotNewer (hr_version (v_release step)) (hr_version mark))
             (approvals_require (v_approvals step) (downgrade_purpose step))
    | _, _ => Ok tt
    end in
  let? generation := match v_action step with
    | HostHealth => Ok (record_generation r)
    | HostInstall | HostUninstall =>
      ok_or (u64_checked_add (record_generation r) 1) GenerationOverflow
    end in
  let started := {|
    started_instance := v_instance step; started_plan_id := v_plan_id step;
    started_plan_digest := v_plan_digest step; started_step_id := v_step_id step;
    started_environment := v_environment step; started_product := v_product step;
    started_action := v_action step; started_release := v_release step;
    started_generation := generation; started_at := now_ms; cgroup := group |} in
  let state := match v_action step with
    | HostHealth => record_state r
    | HostInstall => StateDirty from (Some (v_release step))
    | HostUninstall => StateDirty from None
    end in
  Ok (started, {|
    record_environment := record_environment r; record_product := record_product r;
    record_generation := generation; record_state := state; high_water := high_water r;
    last_started := Some started; last_result := None |}).

(** [AppliedStateRecord::complete]. *)
Definition complete (r : AppliedStateRecord) (s : HostApplyStarted) (res : HostApplyResult) :
    AppliedStateRecord :=
  let succeeded := outcome_succeeded (outcome res) in
  let state := match succeeded, started_action s with
    | true, HostInstall => StateApplied (started_release s)
    | true, HostUninstall => StateEmpty
    | _, _ => record_state r
    end in
  let mark := match succeeded, started_action s with
    | true, HostInstall =>
      if is_none_or (high_water r)
           (λ h, is_newer (hr_version (started_release s)) (hr_version h))
      then Some (started_release s) else high_water r
    | _, _ => high_water r
    end in
  {| record_environment := record_environment r; record_product := record_product r;
     record_generation := record_generation r; record_state := state; high_water := mark;
     last_started := last_started r; last_result := Some res |}.

(** ** What admission guarantees *)

(** The high-water mark never goes down. *)
Definition mark_grows (before after : option HostRelease) : Prop :=
  match before with
  | None => True
  | Some h => ∃ h', after = Some h' ∧ (h' = h ∨ is_newer (hr_version h') (hr_version h) = true)
  end.

Lemma complete_mark r s res : mark_grows (high_water r) (high_water (complete r s res)).
Proof.
  unfold complete, mark_grows. destruct (high_water r) as [h|]; [|done]. simpl.
  destruct (outcome_succeeded _), (started_action s); simpl; eauto.
  destruct (is_newer _ _) eqn:En; eauto.
Qed.

Lemma source_ok r from c :
  source r from = Ok c → c ∈ source_candidates (record_state r) ∧ release_version c = from.
Proof.
  unfold source, find_first. rewrite ok_or_ok. intros (c' & Hin & H)%find_map_some.
  case_bool_decide; by simplify_eq.
Qed.

(** What an admitted step was checked against. *)
Record admitted (r : AppliedStateRecord) (step : VerifiedHostStep) (s : HostApplyStarted)
    (next : AppliedStateRecord) : Prop := {
  ad_product : record_environment r = v_environment step ∧ record_product r = v_product step;
  ad_generation : v_expected_generation step = record_generation r;
  ad_source : ∃ c, c ∈ source_candidates (record_state r) ∧ release_version c = v_from step
    ∧ (v_action step ≠ HostInstall → c = Some (v_release step))
    ∧ record_state next = match v_action step with
                          | HostHealth => record_state r
                          | HostInstall => StateDirty c (Some (v_release step))
                          | HostUninstall => StateDirty c None
                          end;
  ad_health : v_action step = HostHealth → record_state r = StateApplied (v_release step);
  ad_mark : ∀ mark, v_action step = HostInstall → high_water r = Some mark →
    is_newer (hr_version (v_release step)) (hr_version mark) = true
    ∨ approvals_require (v_approvals step) (downgrade_purpose step) = Ok tt;
  ad_next : record_generation next =
              (if decide (v_action step = HostHealth) then record_generation r
               else record_generation r + 1)
            ∧ record_generation next ≤ Z.max u64_max (record_generation r);
  ad_started : started_instance s = v_instance step ∧ started_environment s = v_environment step
    ∧ started_product s = v_product step ∧ started_action s = v_action step
    ∧ started_release s = v_release step ∧ started_generation s = record_generation next;
  ad_record : record_environment next = record_environment r
    ∧ record_product next = record_product r ∧ high_water next = high_water r
    ∧ last_started next = Some s ∧ last_result next = None
}.

Lemma admit_record_ok r step group now s next :
  admit_record r step group now = Ok (s, next) → admitted r step s next.
Proof.
  unfold admit_record. intros H. ok_inv H. injection H as <- <-.
  apply Z.eqb_eq in Hg0. apply source_ok in Hg1 as [Hin Hv].
  assert (Hgen : x1 = (if decide (v_action step = HostHealth) then record_generation r
                       else record_generation r + 1) ∧ x1 ≤ Z.max u64_max (record_generation r)).
  { unfold u64_checked_add in Hg5. clear -Hg5. destruct (v_action step); simplify_eq/=.
    3: split; [done|lia].
    all: destruct (Z.leb_spec (record_generation r + 1) u64_max); simplify_eq/=; split; [done|lia]. }
  split; simpl; try done.
  - exists x. split_and!; [done..| |by destruct (v_action step)].
    intros Hne. destruct Hg2 as [Hg2|Hg2]; [done|].
    destruct x as [c|]; simpl in Hg2; [|done]. apply bool_decide_eq_false in Hg2.
    destruct (decide (c = v_release step)) as [->|]; [done|tauto].
  - intros Hh. destruct Hg3 as [Hg3|Hg3]; [done|done].
  - intros mark Ha Hm. rewrite Ha, Hm in Hg4. destruct (is_newer _ _); [by left|right].
    destruct (approvals_require _ _) as [[]|]; done.
Qed.
End HostState.
