(* ===== verification/HostApplier.v ===== *)
(** * The root-side host applier

    [crates/tenkai-host-applier]: the durable records under the applier's
    state directory, the per-product critical section ([store.rs]) and one
    run of the unit ([apply.rs]), with crashes.

    Every durable write replaces one file atomically.  An operation is a
    function from the disk to the sequence of events it causes (writes, and
    the start of the step's command) and its outcome; a crash, or an I/O
    error, keeps a prefix of those events.  The per-product lock serialises
    the critical sections of one product, so the history of the disk is a
    sequence of such prefixes. *)

From S2P Require Import Prelude RustStr Semver Kinds Plan Approvals HostState.

Record HostApplyRefused := { refused_instance : string; reason : string; refused_at : Z }.

(** The files: records by product key, and each instance's directory. *)
Record Disk := {
  records : gmap string AppliedStateRecord;
  started_files : gmap string HostApplyStarted;
  result_files : gmap string HostApplyResult;
  refused_files : gmap string HostApplyRefused
}.

Definition empty_disk : Disk :=
  {| records := ∅; started_files := ∅; result_files := ∅; refused_files := ∅ |}.

Inductive event :=
| WriteRecord (key : string) (r : AppliedStateRecord)
| WriteStarted (s : HostApplyStarted)
| WriteResult (r : HostApplyResult)
| WriteRefused (r : HostApplyRefused)
| Exec (s : HostApplyStarted).

Definition apply_event (d : Disk) (e : event) : Disk :=
  match e with
  | WriteRecord key r =>
    {| records := <[key := r]> (records d); started_files := started_files d;
       result_files := result_files d; refused_files := refused_files d |}
  | WriteStarted s =>
    {| records := records d; started_files := <[started_instance s := s]> (started_files d);
       result_files := result_files d; refused_files := refused_files d |}
  | WriteResult r =>
    {| records := records d; started_files := started_files d;
       result_files := <[result_instance r := r]> (result_files d);
       refused_files := refused_files d |}
  | WriteRefused r =>
    {| records := records d; started_files := started_files d; result_files := result_files d;
       refused_files := <[refused_instance r := r]> (refused_files d) |}
  | Exec _ => d
  end.

Definition apply_events (d : Disk) (es : list event) : Disk := foldl apply_event d es.

(** ** Operations over the disk *)

Definition io (A : Type) : Type := Disk → list event * result A host_error.

Definition io_ret {A} (a : A) : io A := λ _, ([], Ok a).
Definition io_fail {A} (e : host_error) : io A := λ _, ([], Err e).
Definition io_lift {A} (r : result A host_error) : io A := λ _, ([], r).
Definition io_emit (e : event) : io unit := λ _, ([e], Ok tt).
Definition io_get {A} (f : Disk → A) : io A := λ d, ([], Ok (f d)).

Definition io_bind {A B} (m : io A) (k : A → io B) : io B := λ d,
  let '(es, r) := m d in
  match r with
  | Ok a => let '(es', r') := k a (apply_events d es) in (es ++ es', r')
  | Err e => (es, Err e)
  end.

Notation "'let!' x ':=' c 'in' k" := (io_bind c (λ x, k))
  (at level 10, x pattern, c at level 100, k at level 200,
   format "'[v' 'let!'  x  ':='  c  'in' '/' k ']'") : tenkai_scope.

Inductive Admission :=
| Recorded (r : HostApplyResult)
| Run (s : HostApplyStarted) (r : AppliedStateRecord).

Section Applier.
Context {SV : Semver}.
(** [product_key]: the file-name key of an environment and product, a
    digest of both. *)
Context (product_key : string → string → string).
(** [fence::execution_gone]: whether the control group a start recorded
    holds no other process any more. *)
Context (execution_gone : HostApplyStarted → bool).

Definition validate_instance_name (instance : string) : io unit :=
  io_lift (bail_if negb (valid_hex_digest instance) with (InvalidInstance instance) in Ok tt).

Definition recorded_result (instance : string) : io (option HostApplyResult) :=
  let! _ := validate_instance_name instance in
  io_get (λ d, result_files d !! instance).

Definition record_refusal (instance why : string) (now_ms : Z) : io unit :=
  let! _ := validate_instance_name instance in
  io_emit (WriteRefused {| refused_instance := instance; reason := why; refused_at := now_ms |}).

Definition read_record (environment product : string) : io AppliedStateRecord :=
  let! stored := io_get (λ d, records d !! product_key environment product) in
  let record := default (empty_record environment product) stored in
  io_lift (bail_if negb (bool_decide (record_environment record = environment))
                   || negb (bool_decide (record_product record = product))
             with RecordOfOtherProduct in Ok record).

Definition write_record (r : AppliedStateRecord) : io unit :=
  io_emit (WriteRecord (product_key (record_environment r) (record_product r)) r).

Definition write_result (r : HostApplyResult) : io unit := io_emit (WriteResult r).

Definition interrupted (s : HostApplyStarted) (now_ms : Z) : HostApplyResult :=
  started_result s Interrupted None
    "started but never finished: the applier stopped or the host rebooted" now_ms.

Definition with_last_result (r : AppliedStateRecord) (res : HostApplyResult) : AppliedStateRecord :=
  {| record_environment := record_environment r; record_product := record_product r;
     record_generation := record_generation r; record_state := record_state r;
     high_water := high_water r; last_started := last_started r; last_result := Some res |}.

(** [settle_last]: returns the record it may have updated. *)
Definition settle_last (r : AppliedStateRecord) (now_ms : Z) : io AppliedStateRecord :=
  match last_started r with
  | None => io_ret r
  | Some last =>
    let! recorded := recorded_result (started_instance last) in
    match recorded with
    | Some _ => io_ret r
    | None =>
      match last_result r with
      | Some res =>
        if decide (result_instance res = started_instance last) then
          let! _ := write_result res in io_ret r
        else
          if execution_gone last then
            let res := interrupted last now_ms in
            let! _ := write_record (with_last_result r res) in
            let! _ := write_result res in
            io_ret (with_last_result r res)
          else io_fail (StillRunning (started_instance last))
      | None =>
        if execution_gone last then
          let res := interrupted last now_ms in
          let! _ := write_record (with_last_result r res) in
          let! _ := write_result res in
          io_ret (with_last_result r res)
        else io_fail (StillRunning (started_instance last))
      end
    end
  end.

(** [recover]. *)
Definition recover (instance : string) (now_ms : Z) : io (option HostApplyResult) :=
  let! recorded := recorded_result instance in
  match recorded with
  | Some res => io_ret (Some res)
  | None =>
    let! started := io_get (λ d, started_files d !! instance) in
    match started with
    | None => io_ret None
    | Some s =>
      let! record := read_record (started_environment s) (started_product s) in
      let! _ := settle_last record now_ms in
      let! again := recorded_result instance in
      match again with
      | Some res => io_ret (Some res)
      | None =>
        let res := interrupted s now_ms in
        let! _ := write_result res in
        io_ret (Some res)
      end
    end
  end.

(** [admit]: the critical section, under the product lock. *)
Definition admit_step (step : VerifiedHostStep) (group : option string) (now_ms : Z) : io Admission :=
  let! record := read_record (v_environment step) (v_product step) in
  let! record := settle_last record now_ms in
  let! recorded := recorded_result (v_instance step) in
  match recorded with
  | Some res => io_ret (Recorded res)
  | None =>
    let! started := io_get (λ d, started_files d !! v_instance step) in
    match started with
    | Some s =>
      let res := interrupted s now_ms in
      let! _ := write_result res in
      io_ret (Recorded res)
    | None =>
      let step := {|
        v_instance := v_instance step; v_plan_id := v_plan_id step;
        v_plan_digest := v_plan_digest step; v_environment := v_environment step;
        v_product := v_product step; v_step_id := v_step_id step;
        v_step_action := v_step_action step; v_action := v_action step;
        v_expected_generation := v_expected_generation step; v_from := v_from step;
        v_release := v_release step; v_approvals := approvals_at (v_approvals step) now_ms;
        v_purposes := v_purposes step |} in
      let! _ := io_lift (map_err ApprovalsRefused (require_all (v_approvals step) (v_purposes step))) in
      let! (s, advanced) := io_lift (admit_record record step group now_ms) in
      let! _ := write_record advanced in
      let! _ := io_emit (WriteStarted s) in
      io_ret (Run s advanced)
    end
  end.

(** [Running::finish]. *)
Definition finish (s : HostApplyStarted) (record : AppliedStateRecord) (o : HostApplyOutcome)
    (exit : option Z) (text : string) (now_ms : Z) : io HostApplyResult :=
  let res := started_result s o exit text now_ms in
  let! _ := write_record (complete record s res) in
  let! _ := write_result res in
  io_ret res.

(** How a command ended, as [run_command] reports it. *)
Record CommandEnd := { end_outcome : HostApplyOutcome; end_status : option Z; end_detail : string }.

(** The part of [apply] that holds the product lock: admission, the
    command, and the record of how it ended. *)
Definition admit_and_run (step : VerifiedHostStep) (group : option string) (now_ms : Z)
    (command : CommandEnd) (finished_ms : Z) : io HostApplyResult :=
  let! admission := admit_step step group now_ms in
  match admission with
  | Recorded res => io_ret res
  | Run s record =>
    let! _ := io_emit (Exec s) in
    finish s record (end_outcome command) (end_status command) (end_detail command) finished_ms
  end.

Inductive Applied := AppliedResult (r : HostApplyResult) | Refused (e : host_error).

(** [apply]: recover first; an intake that refuses, or a refused
    admission, records why. *)
Definition apply (instance : string) (intake : result VerifiedHostStep host_error)
    (group : option string) (recovered_ms now_ms : Z) (command : CommandEnd)
    (finished_ms refused_ms : Z) (why : host_error → string) : io Applied :=
  let! _ := validate_instance_name instance in
  let! recovered := recover instance recovered_ms in
  match recovered with
  | Some res => io_ret (AppliedResult res)
  | None =>
    λ d,
      match intake with
      | Err e =>
        (let! _ := record_refusal instance (why e) refused_ms in io_ret (Refused e)) d
      | Ok step =>
        match admit_step step group now_ms d with
        | (es, Err e) =>
          let '(es', r) :=
            (let! _ := record_refusal instance (why e) refused_ms in io_ret (Refused e))
              (apply_events d es) in
          (es ++ es', r)
        | (_, Ok _) =>
          (let! res := admit_and_run step group now_ms command finished_ms in
           io_ret (AppliedResult res)) d
        end
      end
  end.
End Applier.

(** ** Guarded events

    Each event an operation emits is emitted in a state that satisfies its
    guard; the guards carry the history's invariant, whatever prefix a crash
    keeps. *)

Definition mutating (s : HostApplyStarted) : Prop := started_action s ≠ HostHealth.

Definition same_product (s s' : HostApplyStarted) : Prop :=
  started_environment s = started_environment s' ∧ started_product s = started_product s'.

Section Histories.
Context {SV : Semver}.
Context (product_key : string → string → string).
Context (execution_gone : HostApplyStarted → bool).

Definition key_of (s : HostApplyStarted) : string :=
  product_key (started_environment s) (started_product s).

(** A record of a start's product that is at least at the start's
    generation. *)
Definition covers (r : AppliedStateRecord) (s : HostApplyStarted) : Prop :=
  record_environment r = started_environment s ∧ record_product r = started_product s
  ∧ started_generation s ≤ record_generation r.

Definition record_ok (r : AppliedStateRecord) : Prop :=
  ∀ s, last_started r = Some s → valid_hex_digest (started_instance s) = true ∧ covers r s.

Definition follows (old new : AppliedStateRecord) : Prop :=
  record_environment new = record_environment old ∧ record_product new = record_product old
  ∧ record_generation old ≤ record_generation new ∧ mark_grows (high_water old) (high_water new).

Definition event_ok (tr : list event) (d : Disk) (e : event) : Prop :=
  match e with
  | WriteRecord key r =>
    key = product_key (record_environment r) (record_product r) ∧ record_ok r
    ∧ ∀ old, records d !! key = Some old → follows old r
  | WriteStarted s =>
    started_files d !! started_instance s = None
    ∧ valid_hex_digest (started_instance s) = true
    ∧ ∃ r, records d !! key_of s = Some r ∧ covers r s
  | WriteResult r => result_files d !! result_instance r = None
  | WriteRefused _ => True
  | Exec s =>
    started_files d !! started_instance s = Some s
    ∧ (∀ s', Exec s' ∈ tr → started_instance s' ≠ started_instance s)
    ∧ (∀ s', Exec s' ∈ tr → mutating s → mutating s' → same_product s' s →
         started_generation s' < started_generation s)
  end.

Fixpoint guarded (tr : list event) (d : Disk) (es : list event) : Prop :=
  match es with
  | [] => True
  | e :: rest => event_ok tr d e ∧ guarded (tr ++ [e]) (apply_event d e) rest
  end.

Record hist_inv (tr : list event) (d : Disk) : Prop := {
  exec_started s : Exec s ∈ tr → started_files d !! started_instance s = Some s;
  record_inv key r : records d !! key = Some r →
    key = product_key (record_environment r) (record_product r) ∧ record_ok r;
  started_inv i s : started_files d !! i = Some s →
    started_instance s = i ∧ valid_hex_digest i = true
    ∧ ∃ r, records d !! key_of s = Some r ∧ covers r s
}.

Lemma guarded_app tr d es es' :
  guarded tr d (es ++ es') ↔ guarded tr d es ∧ guarded (tr ++ es) (apply_events d es) es'.
Proof.
  revert tr d. induction es as [|e es IH]; intros tr d; simpl.
  - rewrite app_nil_r. tauto.
  - rewrite IH, <- app_assoc. simpl. tauto.
Qed.

Lemma guarded_take tr d k es : guarded tr d es → guarded tr d (take k es).
Proof. intros H. rewrite <- (take_drop k es), guarded_app in H. tauto. Qed.

Lemma hist_inv_empty : hist_inv [] empty_disk.
Proof.
  split; intros *; simpl; [by intros H%not_elem_of_nil|by rewrite lookup_empty..].
Qed.

Lemma exec_snoc (s : HostApplyStarted) tr e :
  Exec s ∈ tr ++ [e] ↔ Exec s ∈ tr ∨ e = Exec s.
Proof. rewrite elem_of_app, list_elem_of_singleton. naive_solver. Qed.

Lemma hist_inv_event tr d e :
  hist_inv tr d → event_ok tr d e → hist_inv (tr ++ [e]) (apply_event d e).
Proof.
  intros [Hex Hrec Hst] Hok. destruct e as [key r|s|r|r|s]; simpl in Hok.
  - destruct Hok as (Hkey & Hr & Hfollows). split; simpl.
    + intros s [H|?]%exec_snoc; [by apply Hex|done].
    + intros key' r'. rewrite lookup_insert. case_decide as E; [|apply Hrec].
      intros; simplify_eq. done.
    + intros i s Hs. destruct (Hst i s Hs) as (Hi & Hv & r' & Hr' & Hc).
      split_and!; [done..|]. rewrite lookup_insert. case_decide as E; [|by exists r'].
      subst key. rewrite E in Hfollows. destruct (Hfollows r' Hr') as (He & Hp & Hg & _).
      exists r. split; [done|]. destruct Hc as (H1 & H2 & H3). split_and!; [congruence..|lia].
  - destruct Hok as (Hnone & Hv & r & Hr & Hc). split; simpl.
    + intros s' [H|?]%exec_snoc; [|done]. rewrite lookup_insert.
      case_decide as E; [|by apply Hex]. apply Hex in H. congruence.
    + apply Hrec.
    + intros i s'. rewrite lookup_insert. case_decide as E; [|apply Hst].
      intros; simplify_eq. split_and!; [done..|by exists r].
  - split; simpl; [|done..]. intros s [H|?]%exec_snoc; [by apply Hex|done].
  - split; simpl; [|done..]. intros s [H|?]%exec_snoc; [by apply Hex|done].
  - destruct Hok as (Hs & _). split; simpl; [|done..].
    intros s' [H|H]%exec_snoc; [by apply Hex|]. by simplify_eq.
Qed.

Lemma hist_inv_guarded tr d es :
  hist_inv tr d → guarded tr d es → hist_inv (tr ++ es) (apply_events d es).
Proof.
  revert tr d. induction es as [|e es IH]; intros tr d Hinv Hg; simpl.
  - by rewrite app_nil_r.
  - destruct Hg as [Hok Hg]. replace (tr ++ e :: es) with ((tr ++ [e]) ++ es) by (by rewrite <- app_assoc).
    apply IH; [by apply hist_inv_event|done].
Qed.

(** A specification of an operation: from a state satisfying [P] its events
    are guarded, and if it returns, the result satisfies [Q]. *)
Definition io_spec {A} (P : list event → Disk → Prop) (m : io A)
    (Q : A → list event → Disk → Prop) : Prop :=
  ∀ tr d, hist_inv tr d → P tr d →
    let '(es, r) := m d in
    guarded tr d es ∧ (∀ a, r = Ok a → Q a (tr ++ es) (apply_events d es)).

Lemma spec_bind {A B} P (m : io A) Q (k : A → io B) R :
  io_spec P m Q → (∀ a, io_spec (Q a) (k a) R) → io_spec P (io_bind m k) R.
Proof.
  intros Hm Hk tr d Hinv HP. specialize (Hm tr d Hinv HP). unfold io_bind.
  destruct (m d) as [es r]. destruct Hm as [Hg HQ]. destruct r as [a|e]; [|split; [done|by intros a [=]]].
  specialize (Hk a (tr ++ es) (apply_events d es) (hist_inv_guarded _ _ _ Hinv Hg) (HQ a eq_refl)).
  destruct (k a _) as [es' r']. destruct Hk as [Hg' HR]. split.
  - by apply guarded_app.
  - intros b Hb. unfold apply_events in *. rewrite app_assoc, foldl_app. by apply HR.
Qed.

Lemma spec_ret {A} P (a : A) : io_spec P (io_ret a) (λ b tr d, b = a ∧ P tr d).
Proof.
  intros tr d _ HP. simpl. split; [done|]. intros b [= <-]. by rewrite app_nil_r.
Qed.

Lemma spec_lift {A} P (r : result A host_error) :
  io_spec P (io_lift r) (λ a tr d, r = Ok a ∧ P tr d).
Proof. intros tr d _ HP. simpl. split; [done|]. intros b ->. by rewrite app_nil_r. Qed.

Lemma spec_get {A} P (f : Disk → A) : io_spec P (io_get f) (λ a tr d, a = f d ∧ P tr d).
Proof. intros tr d _ HP. simpl. split; [done|]. intros b [= <-]. by rewrite app_nil_r. Qed.

Lemma spec_fail {A} P e Q : io_spec P (io_fail (A:=A) e) Q.
Proof. intros tr d _ HP. simpl. split; [done|]. by intros b [=]. Qed.

Lemma spec_emit P e Q :
  (∀ tr d, hist_inv tr d → P tr d → event_ok tr d e ∧ Q (tr ++ [e]) (apply_event d e)) →
  io_spec P (io_emit e) (λ _, Q).
Proof.
  intros H tr d Hinv HP. destruct (H tr d Hinv HP) as [Hok HQ]. simpl. split; [done|]. by intros.
Qed.

Lemma spec_weaken {A} P P' (m : io A) Q Q' :
  io_spec P' m Q' → (∀ tr d, hist_inv tr d → P tr d → P' tr d) →
  (∀ a tr d, hist_inv tr d → Q' a tr d → Q a tr d) → io_spec P m Q.
Proof.
  intros Hm HP HQ tr d Hinv H. specialize (Hm tr d Hinv (HP _ _ Hinv H)).
  destruct (m d) as [es r]. destruct Hm as [Hg HQ']. split; [done|].
  intros a Ha. apply HQ; [by apply hist_inv_guarded|auto].
Qed.

(** ** The operations emit guarded events *)

(** The record the store holds for a product. *)
Definition current (environment product : string) (r : AppliedStateRecord) (d : Disk) : Prop :=
  record_environment r = environment ∧ record_product r = product
  ∧ (records d !! product_key environment product = Some r
     ∨ records d !! product_key environment product = None ∧ r = empty_record environment product).

Lemma current_ok environment product r tr d :
  hist_inv tr d → current environment product r d → record_ok r.
Proof.
  intros Hinv (_ & _ & [Hr|[_ ->]]); [by eapply record_inv|done].
Qed.

Lemma current_follows environment product r d :
  current environment product r d →
  ∀ new, record_environment new = record_environment r → record_product new = record_product r →
    record_generation r ≤ record_generation new → mark_grows (high_water r) (high_water new) →
    ∀ old, records d !! product_key (record_environment new) (record_product new) = Some old →
      follows old new.
Proof.
  intros (He & Hp & Hr) new Hne Hnp Hg Hm old. rewrite Hne, Hnp, He, Hp. intros Hold.
  destruct Hr as [Hr|[Hr _]]; [|congruence]. simplify_eq. by split_and!.
Qed.

Lemma mark_grows_refl m : mark_grows m m.
Proof. destruct m; simpl; eauto. Qed.

Lemma spec_read_record P environment product :
  io_spec P (read_record product_key environment product)
    (λ r tr d, current environment product r d ∧ P tr d).
Proof.
  unfold read_record. eapply spec_bind; [apply spec_get|]. intros stored. simpl.
  eapply spec_weaken; [apply spec_lift|intros ? ? _ Hpre; exact Hpre|].
  intros r tr d _ [H (-> & HP)]. ok_inv H. destruct Hg as [He Hp]. simplify_eq. split; [|done].
  split_and!; [done..|]. destruct (records d !! _) as [r|]; simpl; auto.
Qed.

Lemma spec_recorded_result P instance :
  io_spec P (recorded_result instance)
    (λ x tr d, valid_hex_digest instance = true ∧ x = result_files d !! instance ∧ P tr d).
Proof.
  unfold recorded_result, validate_instance_name. eapply spec_bind; [apply spec_lift|]. intros u.
  eapply spec_weaken; [apply spec_get|intros ? ? _ Hpre; exact Hpre|].
  intros x tr d _ (-> & H & HP). ok_inv H. done.
Qed.

Lemma spec_write_result P r :
  (∀ tr d, P tr d → result_files d !! result_instance r = None) →
  io_spec P (write_result r)
    (λ _ tr d, ∃ tr0 d0, P tr0 d0 ∧ tr = tr0 ++ [WriteResult r] ∧ d = apply_event d0 (WriteResult r)).
Proof.
  intros H. apply spec_emit. intros tr d _ HP. split; [by apply H in HP|]. by exists tr, d.
Qed.

(** Settling the last start as interrupted. *)
Lemma spec_settle_interrupted environment product r last now :
  last_started r = Some last →
  io_spec (λ tr d, current environment product r d
                   ∧ result_files d !! started_instance last = None)
    (let! _ := write_record product_key (with_last_result r (interrupted last now)) in
     let! _ := write_result (interrupted last now) in
     io_ret (with_last_result r (interrupted last now)))
    (λ r' tr d, current environment product r' d).
Proof.
  intros Hl. eapply spec_bind.
  { unfold write_record. apply (spec_emit _ _ (λ tr d, current environment product
      (with_last_result r (interrupted last now)) d
      ∧ result_files d !! started_instance last = None)).
    intros tr d Hinv [Hc Hn]. pose proof (current_ok _ _ _ _ _ Hinv Hc) as Hok. split.
    - split_and!; [done|exact Hok|]. by apply (current_follows _ _ _ _ Hc); [..|apply mark_grows_refl].
    - destruct Hc as (He & Hp & _). split; [|done]. split_and!; [done..|]. left. simpl.
      by rewrite He, Hp, lookup_insert_eq. }
  intros []. eapply spec_bind; [apply spec_write_result; naive_solver|]. intros [].
  eapply spec_weaken; [apply spec_ret|intros ? ? _ Hpre; exact Hpre|].
  intros r' tr d _ (-> & tr0 & d0 & [Hc _] & _ & ->). done.
Qed.

Lemma spec_settle_last environment product r now :
  io_spec (λ tr d, current environment product r d) (settle_last product_key execution_gone r now)
    (λ r' tr d, current environment product r' d).
Proof.
  unfold settle_last. destruct (last_started r) as [last|] eqn:Hl.
  2:{ eapply spec_weaken; [apply spec_ret|intros ? ? _ Hpre; exact Hpre|]. by intros r' tr d _ [-> ?]. }
  eapply spec_bind; [apply spec_recorded_result|]. intros [res|].
  { eapply spec_weaken; [apply spec_ret|intros ? ? _ Hpre; exact Hpre|]. naive_solver. }
  assert (Hint : io_spec
    (λ tr d, valid_hex_digest (started_instance last) = true
             ∧ None = result_files d !! started_instance last ∧ current environment product r d)
    (if execution_gone last then
       let! _ := write_record product_key (with_last_result r (interrupted last now)) in
       let! _ := write_result (interrupted last now) in
       io_ret (with_last_result r (interrupted last now))
     else io_fail (StillRunning (started_instance last)))
    (λ r' tr d, current environment product r' d)).
  { destruct (execution_gone last); [|apply spec_fail].
    eapply spec_weaken; [by apply spec_settle_interrupted|naive_solver|done]. }
  destruct (last_result r) as [res|] eqn:Hr; [|exact Hint].
  case_decide as Hinst; [|exact Hint].
  eapply spec_bind; [apply spec_write_result; rewrite Hinst; naive_solver|]. intros [].
  eapply spec_weaken; [apply spec_ret|intros ? ? _ Hpre; exact Hpre|].
  intros r' tr d _ (-> & tr0 & d0 & (_ & _ & Hc) & _ & ->). done.
Qed.

(** An instance that was admitted and may run: its start is on disk and
    current, it has no result, and nothing of its instance or generation ran
    before. *)
Definition armed (s : HostApplyStarted) (r : AppliedStateRecord) (tr : list event) (d : Disk) : Prop :=
  started_files d !! started_instance s = Some s
  ∧ result_files d !! started_instance s = None
  ∧ current (started_environment s) (started_product s) r d
  ∧ (∀ s', Exec s' ∈ tr → started_instance s' ≠ started_instance s)
  ∧ (∀ s', Exec s' ∈ tr → mutating s → mutating s' → same_product s' s →
       started_generation s' < started_generation s).

(** Everything that ran for a product is covered by its current record. *)
Lemma exec_covered environment product r tr d s :
  hist_inv tr d → current environment product r d → Exec s ∈ tr →
  started_environment s = environment → started_product s = product →
  started_generation s ≤ record_generation r.
Proof.
  intros Hinv (_ & _ & Hr) Hex <- <-. apply (exec_started _ _ Hinv) in Hex.
  apply (started_inv _ _ Hinv) in Hex as (_ & _ & r' & Hr' & _ & _ & Hg).
  unfold key_of in Hr'. destruct Hr as [Hr|[Hr _]]; congruence.
Qed.

Lemma spec_start step record group now s advanced :
  admit_record record step group now = Ok (s, advanced) →
  valid_hex_digest (v_instance step) = true →
  io_spec (λ tr d, current (v_environment step) (v_product step) record d
                   ∧ result_files d !! v_instance step = None
                   ∧ started_files d !! v_instance step = None)
    (let! _ := write_record product_key advanced in
     let! _ := io_emit (WriteStarted s) in io_ret (Run s advanced))
    (λ a tr d, a = Run s advanced ∧ armed s advanced tr d).
Proof.
  intros Hadmit%admit_record_ok Hvalid. destruct Hadmit as
    [[Hre Hrp] _ _ _ _ [Hgen _] (Hsi & Hse & Hsp & Hsa & _ & Hsg) (Hne & Hnp & Hmark & Hls & _)].
  assert (Hcov : covers advanced s) by (split_and!; [congruence..|lia]).
  assert (Hlt : record_generation record ≤ record_generation advanced)
    by (rewrite Hgen; case_decide; lia).
  eapply spec_bind.
  { unfold write_record. apply (spec_emit _ _ (λ tr d,
      current (started_environment s) (started_product s) advanced d
      ∧ result_files d !! started_instance s = None ∧ started_files d !! started_instance s = None
      ∧ (∀ s', Exec s' ∈ tr → started_instance s' ≠ started_instance s)
      ∧ (∀ s', Exec s' ∈ tr → mutating s → mutating s' → same_product s' s →
           started_generation s' < started_generation s))).
    intros tr d Hinv (Hc & Hres & Hst). split; [split_and!; [done| |]|split_and!].
    - intros x Hx. assert (x = s) as -> by congruence. by rewrite Hsi.
    - apply (current_follows _ _ _ _ Hc); [done..|]. rewrite Hmark. apply mark_grows_refl.
    - split_and!; [congruence..|]. left. simpl. rewrite Hne, Hnp, Hre, Hrp, Hse, Hsp.
      by rewrite lookup_insert_eq.
    - simpl. by rewrite Hsi.
    - simpl. by rewrite Hsi.
    - intros s' [H|?]%exec_snoc; [|done]. apply (exec_started _ _ Hinv) in H. rewrite Hsi. congruence.
    - intros s' [H|?]%exec_snoc; [|done]. intros Hmut _ [He Hp].
      assert (started_generation s' ≤ record_generation record).
      { apply (exec_covered _ _ _ _ _ _ Hinv Hc H); congruence. }
      rewrite Hsg, Hgen, decide_False by (rewrite <- Hsa; done). lia. }
  intros []. eapply spec_bind.
  { apply (spec_emit _ _ (armed s advanced)).
    intros tr d Hinv (Hc & Hres & Hst & Hfresh & Hgens). split; [split_and!|split_and!].
    - done.
    - by rewrite Hsi.
    - exists advanced. split; [|done]. unfold key_of. destruct Hc as (_ & _ & [Hc|[_ Hc]]); [done|].
      exfalso. rewrite Hc in Hls. done.
    - simpl. by rewrite lookup_insert_eq.
    - done.
    - exact Hc.
    - intros s' [H|?]%exec_snoc; [|done]. by apply Hfresh.
    - intros s' [H|?]%exec_snoc; [|done]. by apply Hgens. }
  intros []. apply spec_ret.
Qed.

Lemma spec_admit step group now :
  io_spec (λ _ _, True) (admit_step product_key execution_gone step group now)
    (λ a tr d, match a with Run s r => armed s r tr d | Recorded _ => True end).
Proof.
  unfold admit_step. eapply spec_bind; [apply spec_read_record|]. intros r0.
  eapply spec_bind.
  { eapply spec_weaken; [apply (spec_settle_last (v_environment step) (v_product step))|naive_solver|].
    intros a tr d _ H. exact H. }
  intros r. eapply spec_bind; [apply spec_recorded_result|]. intros [res|].
  { eapply spec_weaken; [apply (spec_ret (λ _ _, True))|done|]. by intros a tr d _ [-> _]. }
  eapply spec_bind; [apply spec_get|]. intros [s|].
  { eapply spec_bind.
    { apply (spec_emit _ _ (λ _ _, True)). intros tr d Hinv (Hs & _ & Hn & _). split; [|done].
      simpl. symmetry in Hs. apply (started_inv _ _ Hinv) in Hs as [-> _]. done. }
    intros []. eapply spec_weaken; [apply (spec_ret (λ _ _, True))|done|]. by intros a tr d _ [-> _]. }
  eapply spec_bind; [apply spec_lift|]. intros u. eapply spec_bind; [apply spec_lift|].
  intros [s advanced]. intros tr d Hinv (Hadmit & _ & Hst & Hv & Hres & Hc).
  pose proof (spec_start _ _ _ _ _ _ Hadmit Hv tr d Hinv (conj Hc (conj (eq_sym Hres) (eq_sym Hst)))) as H.
  simpl in H |- *. destruct H as [Hg HQ]. split; [done|]. intros a Ha.
  destruct (HQ a Ha) as [-> Harmed]. done.
Qed.

Lemma spec_finish s r o exit text now :
  io_spec (λ tr d, result_files d !! started_instance s = None
                   ∧ current (started_environment s) (started_product s) r d)
    (finish product_key s r o exit text now)
    (λ res tr d, res = started_result s o exit text now
                 ∧ result_files d !! started_instance s = Some res).
Proof.
  unfold finish. eapply spec_bind.
  { unfold write_record. apply (spec_emit _ _ (λ tr d, result_files d !! started_instance s = None)).
    intros tr d Hinv [Hres Hc]. split; [|done]. pose proof (current_ok _ _ _ _ _ Hinv Hc) as Hok.
    split_and!; [done|exact Hok|].
    apply (current_follows _ _ _ _ Hc); [done..|]. apply complete_mark. }
  intros []. eapply spec_bind; [by apply spec_write_result|]. intros [].
  eapply spec_weaken; [apply spec_ret|intros ? ? _ Hpre; exact Hpre|].
  intros res tr d _ (-> & tr0 & d0 & _ & _ & ->). split; [done|]. simpl. by rewrite lookup_insert_eq.
Qed.

Lemma spec_admit_and_run step group now command finished :
  io_spec (λ _ _, True) (admit_and_run product_key execution_gone step group now command finished)
    (λ _ _ _, True).
Proof.
  unfold admit_and_run. eapply spec_bind; [apply spec_admit|]. intros [res|s r].
  { eapply spec_weaken; [apply (spec_ret (λ _ _, True))|done|done]. }
  eapply spec_bind.
  { apply (spec_emit _ _ (λ tr d, result_files d !! started_instance s = None
                                  ∧ current (started_environment s) (started_product s) r d)).
    intros tr d _ (Hs & Hres & Hc & Hfresh & Hgens). split; [by split_and!|done]. }
  intros []. eapply spec_weaken; [apply spec_finish|done|done].
Qed.

Lemma spec_recover instance now :
  io_spec (λ _ _, True) (recover product_key execution_gone instance now) (λ _ _ _, True).
Proof.
  unfold recover. eapply spec_bind; [apply spec_recorded_result|]. intros [res|].
  { eapply spec_weaken; [apply (spec_ret (λ _ _, True))|done|done]. }
  eapply spec_bind; [apply spec_get|]. intros [s|].
  2:{ eapply spec_weaken; [apply (spec_ret (λ _ _, True))|done|done]. }
  eapply spec_bind.
  { eapply (spec_weaken _ (λ _ _, started_instance s = instance)); [apply spec_read_record| |].
    - intros tr d Hinv (Hs & _). symmetry in Hs. by apply (started_inv _ _ Hinv) in Hs as [? _].
    - intros a tr d _ H. exact H. }
  intros r. eapply spec_bind.
  { intros tr d Hinv [Hc Hi].
    pose proof (spec_settle_last _ _ r now tr d Hinv Hc) as H.
    destruct (settle_last _ _ _ _ _) as [es res]. destruct H as [Hg _]. split; [done|].
    intros a Ha. instantiate (1 := λ _ _ _, started_instance s = instance). done. }
  intros settled. eapply spec_bind; [apply spec_recorded_result|]. intros [res|].
  { eapply spec_weaken; [apply (spec_ret (λ _ _, True))|done|done]. }
  eapply spec_bind.
  { apply (spec_emit _ _ (λ _ _, True)). intros tr d _ (_ & Hn & Hi). split; [|done]. simpl.
    by rewrite Hi. }
  intros []. eapply spec_weaken; [apply (spec_ret (λ _ _, True))|done|done].
Qed.

Lemma spec_record_refusal instance why now :
  io_spec (λ _ _, True) (record_refusal instance why now) (λ _ _ _, True).
Proof.
  unfold record_refusal, validate_instance_name. eapply spec_bind; [apply spec_lift|]. intros u.
  by apply (spec_emit _ _ (λ _ _, True)).
Qed.

Lemma spec_apply instance intake group recovered now command finished refused why :
  io_spec (λ _ _, True) (apply product_key execution_gone instance intake group recovered now
                           command finished refused why) (λ _ _ _, True).
Proof.
  assert (Hrefuse : ∀ e, io_spec (λ _ _, True)
    (let! _ := record_refusal instance (why e) refused in io_ret (Refused e)) (λ _ _ _, True)).
  { intros e. eapply spec_bind; [apply spec_record_refusal|]. intros [].
    eapply spec_weaken; [apply (spec_ret (λ _ _, True))|done|done]. }
  unfold apply, validate_instance_name. eapply spec_bind; [apply spec_lift|]. intros u.
  eapply spec_bind; [eapply spec_weaken; [apply spec_recover|done|intros ? ? ? _ H; exact H]|].
  intros [res|]; [eapply spec_weaken; [apply (spec_ret (λ _ _, True))|done|done]|].
  intros tr d Hinv _. destruct intake as [step|e]; [|by apply Hrefuse].
  pose proof (spec_admit step group now tr d Hinv I) as Hadmit.
  destruct (admit_step _ _ _ _ _ d) as [es [a|e]] eqn:Ha.
  - assert (Hrun : io_spec (λ _ _, True)
      (let! res := admit_and_run product_key execution_gone step group now command finished in
       io_ret (AppliedResult res)) (λ _ _ _, True)).
    { eapply spec_bind; [apply spec_admit_and_run|]. intros res.
      eapply spec_weaken; [apply (spec_ret (λ _ _, True))|done|done]. }
    by apply Hrun.
  - destruct Hadmit as [Hg _].
    pose proof (Hrefuse e (tr ++ es) (apply_events d es) (hist_inv_guarded _ _ _ Hinv Hg) I) as Hr.
    destruct (io_bind _ _ _) as [es' r]. destruct Hr as [Hg' _].
    split; [by apply guarded_app|done].
Qed.

(** ** Histories

    One run of the unit, or one of its critical sections, cut anywhere by a
    crash. *)
Inductive applier_run (d : Disk) : list event → Prop :=
| run_apply instance intake group recovered now command finished refused why k :
    applier_run d (take k (apply product_key execution_gone instance intake group recovered now
                             command finished refused why d).1)
| run_recover instance now k :
    applier_run d (take k (recover product_key execution_gone instance now d).1)
| run_admit step group now command finished k :
    applier_run d (take k (admit_and_run product_key execution_gone step group now command
                             finished d).1).

Inductive trace (d0 : Disk) : list event → Disk → Prop :=
| trace_nil : trace d0 [] d0
| trace_run tr d es : trace d0 tr d → applier_run d es → trace d0 (tr ++ es) (apply_events d es).

Definition history : list event → Disk → Prop := trace empty_disk.

Lemma applier_run_guarded tr d es : hist_inv tr d → applier_run d es → guarded tr d es.
Proof.
  intros Hinv Hrun.
  assert (Hspec : ∀ A (m : io A), io_spec (λ _ _, True) m (λ _ _ _, True) → ∀ k, guarded tr d (take k (m d).1)).
  { intros A m Hm k. specialize (Hm tr d Hinv I). destruct (m d) as [es' r]. destruct Hm as [Hg _].
    by apply guarded_take. }
  destruct Hrun; apply Hspec; [apply spec_apply|apply spec_recover|apply spec_admit_and_run].
Qed.

Lemma trace_guarded tr0 d0 tr d :
  hist_inv tr0 d0 → trace d0 tr d → guarded tr0 d0 tr ∧ d = apply_events d0 tr.
Proof.
  intros Hinv. induction 1 as [|tr d es _ [Hg ->] Hrun]; [done|].
  assert (Hinv' : hist_inv (tr0 ++ tr) (apply_events d0 tr)) by (by apply hist_inv_guarded).
  split; [|by unfold apply_events; rewrite foldl_app].
  apply guarded_app. split; [done|]. by apply applier_run_guarded.
Qed.

Lemma history_inv tr d : history tr d → hist_inv tr d ∧ guarded [] empty_disk tr.
Proof.
  intros H. destruct (trace_guarded [] empty_disk tr d hist_inv_empty H) as [Hg ->].
  split; [|done]. apply (hist_inv_guarded [] empty_disk tr); [apply hist_inv_empty|done].
Qed.

(** An event of a guarded sequence was guarded where it happened. *)
Lemma guarded_lookup tr d es i e :
  guarded tr d es → es !! i = Some e →
  event_ok (tr ++ take i es) (apply_events d (take i es)) e.
Proof.
  revert tr d i. induction es as [|x es IH]; intros tr d i Hg Hi; [done|]. destruct Hg as [Hok Hg].
  destruct i as [|i]; simplify_eq/=; [by rewrite app_nil_r|].
  replace (tr ++ x :: take i es) with ((tr ++ [x]) ++ take i es) by (by rewrite <- app_assoc).
  by apply (IH (tr ++ [x]) (apply_event d x) i).
Qed.

(** C1: the command of a host step runs at most once: in every history of
    runs, retries, replays and crashes, no instance's command is started
    twice. *)
Theorem host_step_runs_at_most_once tr d i j s s' :
  history tr d → tr !! i = Some (Exec s) → tr !! j = Some (Exec s') →
  started_instance s = started_instance s' → i = j.
Proof.
  intros [_ Hg]%history_inv Hi Hj Hsame.
  assert (Horder : ∀ a b x y, tr !! a = Some (Exec x) → tr !! b = Some (Exec y) →
    started_instance x = started_instance y → (a < b)%nat → False).
  { intros a b x y Ha Hb Hxy Hlt. destruct (guarded_lookup _ _ _ _ _ Hg Hb) as (_ & Hfresh & _).
    apply (Hfresh x); [|done]. simpl. apply (list_elem_of_lookup_2 _ a).
    by rewrite lookup_take_lt. }
  destruct (decide (i = j)) as [|Hne]; [done|exfalso].
  destruct (decide (i < j)%nat); [by eapply (Horder i j)|eapply (Horder j i); eauto; lia].
Qed.

(** A record generation is consumed by at most one install or
    uninstall: later ones of the same product run at a strictly larger
    generation. *)
Theorem generation_consumed_once tr d i j s s' :
  history tr d → tr !! i = Some (Exec s) → tr !! j = Some (Exec s') → (i < j)%nat →
  mutating s → mutating s' → same_product s s' →
  started_generation s < started_generation s'.
Proof.
  intros [_ Hg]%history_inv Hi Hj Hlt Hm Hm' Hp.
  destruct (guarded_lookup _ _ _ _ _ Hg Hj) as (_ & _ & Hgens).
  apply Hgens; [|done..]. simpl. apply (list_elem_of_lookup_2 _ i). by rewrite lookup_take_lt.
Qed.

Lemma result_event tr d e i r :
  event_ok tr d e → result_files d !! i = Some r → result_files (apply_event d e) !! i = Some r.
Proof.
  destruct e; simpl; try done. intros Hn Hr. rewrite lookup_insert_ne; [done|]. congruence.
Qed.

(** How an instance ended never changes: a result, once written, is
    kept by everything the applier does later. *)
Theorem host_results_are_final tr d es d' i r :
  history tr d → trace d es d' → result_files d !! i = Some r → result_files d' !! i = Some r.
Proof.
  intros [Hinv _]%history_inv Htrace Hr.
  destruct (trace_guarded tr d es d' Hinv Htrace) as [Hg ->]. clear Htrace.
  revert tr d Hinv Hg Hr. induction es as [|e es IH]; intros tr d Hinv Hg Hr; [done|].
  destruct Hg as [Hok Hg]. simpl. apply (IH (tr ++ [e])); [by apply hist_inv_event|done|].
  by eapply result_event.
Qed.

(** ** Records only move forward *)

Context {SL : SemverLaws SV}.

Lemma is_newer_trans a b c : is_newer a b = true → is_newer b c = true → is_newer a c = true.
Proof.
  unfold is_newer. destruct (Version_parse a) as [x|]; [|done].
  destruct (Version_parse b) as [y|]; [|done]. destruct (Version_parse c) as [z|]; [|done].
  destruct (Version_cmp_precedence x y) eqn:E1; try done.
  destruct (Version_cmp_precedence y z) eqn:E2; try done. intros _ _.
  apply (cmp_gt_lt Version_cmp_precedence) in E1, E2.
  rewrite (proj2 (cmp_gt_lt Version_cmp_precedence x z)); [done|].
  apply (cmp_lt_le_trans Version_cmp_precedence _ y); [done|congruence].
Qed.

Lemma follows_trans a b c : follows a b → follows b c → follows a c.
Proof.
  intros (He & Hp & Hg & Hm) (He' & Hp' & Hg' & Hm'). split_and!; [congruence..|lia|].
  unfold mark_grows in *. destruct (high_water a) as [h|]; [|done].
  destruct Hm as (h1 & E1 & Hh1). rewrite E1 in Hm'. destruct Hm' as (h2 & E2 & Hh2).
  exists h2. split; [done|].
  destruct Hh1 as [->|Hn1], Hh2 as [->|Hn2]; eauto using is_newer_trans.
Qed.

(** An applied-state record only moves forward: whatever runs, crashes
    or replays happen, a product keeps its record, the record's generation
    never decreases, and its high-water release is never replaced by one
    that is not newer. *)
Theorem host_record_moves_forward tr d es d' key r :
  history tr d → trace d es d' → records d !! key = Some r →
  ∃ r', records d' !! key = Some r' ∧ follows r r'.
Proof.
  intros [Hinv _]%history_inv Htrace Hr.
  destruct (trace_guarded tr d es d' Hinv Htrace) as [Hg ->]. clear Htrace.
  revert tr d r Hinv Hg Hr. induction es as [|e es IH]; intros tr d r Hinv Hg Hr.
  { exists r. split; [done|]. split_and!; [done..|apply mark_grows_refl]. }
  destruct Hg as [Hok Hg]. simpl.
  assert (∃ r1, records (apply_event d e) !! key = Some r1 ∧ follows r r1) as (r1 & Hr1 & Hf).
  { destruct e as [k x|x|x|x|x]; simpl in *;
      try (exists r; split; [done|]; split_and!; [done..|apply mark_grows_refl]).
    destruct Hok as (_ & _ & Hfol). rewrite lookup_insert.
    case_decide as E; [subst; eauto|]. exists r. split; [done|].
    split_and!; [done..|apply mark_grows_refl]. }
  destruct (IH (tr ++ [e]) (apply_event d e) r1) as (r' & Hr' & Hf');
    [by apply hist_inv_event|done..|]. exists r'. split; [done|]. by eapply follows_trans.
Qed.

(** ** Recovery settles every start *)

(** Once nothing of an interrupted start is left running, settling ends
    with a result for it: the one on file, else the one its completion left
    in the record, else interrupted. *)
Lemma settle_last_total environment product r now tr d :
  hist_inv tr d → current environment product r d → (∀ x, execution_gone x = true) →
  ∃ es r', settle_last product_key execution_gone r now d = (es, Ok r')
    ∧ started_files (apply_events d es) = started_files d
    ∧ (∀ j, (∀ last, last_started r = Some last → started_instance last ≠ j) →
            result_files (apply_events d es) !! j = result_files d !! j)
    ∧ ∀ last, last_started r = Some last →
        ∃ res, result_files (apply_events d es) !! started_instance last = Some res
               ∧ (∀ old, result_files d !! started_instance last = Some old → res = old)
               ∧ (∀ kept, result_files d !! started_instance last = None →
                    last_result r = Some kept → result_instance kept = started_instance last →
                    res = kept).
Proof.
  intros Hinv Hc Hgone. pose proof (current_ok _ _ _ _ _ Hinv Hc) as Hok. unfold settle_last.
  destruct (last_started r) as [last|] eqn:Hl.
  2:{ exists [], r. split_and!; [done..|]. by intros last. }
  destruct (Hok last Hl) as [Hv _].
  unfold recorded_result, validate_instance_name, io_bind, io_lift, io_get. rewrite Hv. simpl.
  destruct (result_files d !! started_instance last) as [old|] eqn:Hold.
  { exists [], r. split_and!; [done..|]. intros x [= <-]. exists old.
    split_and!; [done|intros; congruence..]. }
  assert (Hne : ∀ j res, (∀ x, Some last = Some x → started_instance x ≠ j) →
    result_instance res = started_instance last →
    <[result_instance res := res]> (result_files d) !! j = result_files d !! j).
  { intros j res Hj Hres. rewrite lookup_insert_ne; [done|]. rewrite Hres. by apply (Hj last). }
  destruct (last_result r) as [kept|] eqn:Hkept; [destruct (decide _) as [Hi|Hi]|].
  - eexists _, _. split; [reflexivity|]. simpl. split_and!; [done|by intros; apply Hne|].
    intros x [= <-]. exists kept. rewrite <- Hi at 1. rewrite lookup_insert_eq.
    split_and!; [done|intros; congruence..].
  - rewrite Hgone. eexists _, _. split; [reflexivity|]. simpl. split_and!; [done|by intros; apply Hne|].
    intros x [= <-]. eexists. rewrite lookup_insert_eq. split_and!; [done|intros; congruence..].
  - rewrite Hgone. eexists _, _. split; [reflexivity|]. simpl. split_and!; [done|by intros; apply Hne|].
    intros x [= <-]. eexists. rewrite lookup_insert_eq. split_and!; [done|intros; congruence..].
Qed.

(** Recovery settles every start: after any history, an instance that
    ever started and has nothing left running gets a result from [recover],
    durably; it is the result on file if there is one, and the completion
    the product record kept if the crash fell between the two writes. *)
Theorem recover_settles tr d i s now :
  history tr d → started_files d !! i = Some s → (∀ x, execution_gone x = true) →
  ∃ es res, recover product_key execution_gone i now d = (es, Ok (Some res))
    ∧ result_files (apply_events d es) !! i = Some res
    ∧ (∀ old, result_files d !! i = Some old → res = old)
    ∧ (∀ r kept, result_files d !! i = None → records d !! key_of s = Some r →
         last_started r = Some s → last_result r = Some kept → result_instance kept = i →
         res = kept).
Proof.
  intros [Hinv _]%history_inv Hs Hgone. destruct (started_inv _ _ Hinv i s Hs) as (Hi & Hv & r & Hr & Hc).
  assert (Hcur : current (started_environment s) (started_product s) r d).
  { destruct Hc as (He & Hp & _). split_and!; [done..|]. by left. }
  destruct (settle_last_total _ _ r now tr d Hinv Hcur Hgone) as (es & r' & Hsettle & Hst & Hother & Hlast).
  unfold recover, recorded_result, validate_instance_name, io_bind, io_lift, io_get, io_ret.
  rewrite Hv. simpl. destruct (result_files d !! i) as [old|] eqn:Hold.
  { exists [], old. split_and!; [done..|by intros ? [= ->]|done]. }
  rewrite Hs. unfold read_record, io_bind, io_get, io_lift. simpl.
  unfold key_of in Hr. rewrite Hr. simpl. destruct Hc as (He & Hp & _).
  rewrite !bool_decide_true by done. simpl. rewrite Hsettle. simpl.
  destruct (result_files (apply_events d es) !! i) as [res|] eqn:Hres.
  - exists (es ++ []), res. rewrite app_nil_r. split_and!; [done..|].
    intros r0 kept _ Hr0 Hls Hkept Hki. unfold key_of in Hr0. simplify_eq.
    destruct (Hlast s Hls) as (res' & Hres' & _ & Hk). rewrite Hold in Hk. simplify_eq. auto.
  - exists (es ++ [WriteResult (interrupted s now)]), (interrupted s now). split; [done|].
    unfold apply_events. rewrite foldl_app. simpl. rewrite Hi, lookup_insert_eq. split_and!; [done..|].
    intros r0 kept _ Hr0 Hls Hkept Hki. exfalso. unfold key_of in Hr0. simplify_eq.
    destruct (Hlast s Hls) as (res' & Hres' & _). congruence.
Qed.
End Histories.

(** ** A crash between the two writes of a completion *)
Module ApplierExamples.
#[local] Existing Instance PlainSemver.instance.
#[local] Existing Instance PlainSemver.semver_laws.

Definition key (environment product : string) : string := environment +:+ "/" +:+ product.
Definition gone (_ : HostApplyStarted) : bool := true.

Definition instance_a : string := "aaaaaaaaaaaaaaaaaaaaaaaaaaaaaaaaaaaaaaaaaaaaaaaaaaaaaaaaaaaaaaaa".
Definition instance_b : string := "bbbbbbbbbbbbbbbbbbbbbbbbbbbbbbbbbbbbbbbbbbbbbbbbbbbbbbbbbbbbbbbb".

Definition no_rules : HostApprovals :=
  {| approval_rules := λ _, []; candidates := []; rejected := [] |}.

Definition install (instance version : string) (from : option string) (generation : Z) :
    VerifiedHostStep :=
  {| v_instance := instance; v_plan_id := "p"; v_plan_digest := "d"; v_environment := "prod";
     v_product := "k3s"; v_step_id := "s"; v_step_action := Install; v_action := HostInstall;
     v_expected_generation := generation; v_from := from;
     v_release := {| hr_version := version; hr_manifest_digest := "m" |};
     v_approvals := no_rules; v_purposes := [ExecutePlan] |}.

Definition succeeded : CommandEnd :=
  {| end_outcome := HostSucceeded; end_status := Some 0; end_detail := "" |}.

(** The first install, cut after its completion was recorded (five events
    in full). *)
Definition first_run : list event :=
  (admit_and_run key gone (install instance_a "1.0.0" None 0) None 10 succeeded 20 empty_disk).1.
Definition crashed : list event := take 4 first_run.
Definition after_crash : Disk := apply_events empty_disk crashed.

Lemma crash_history : history key gone crashed after_crash.
Proof.
  apply (trace_run key gone empty_disk [] empty_disk crashed); [apply trace_nil|].
  apply (run_admit key gone empty_disk (install instance_a "1.0.0" None 0) None 10 succeeded 20 4).
Defined.

(** Then the upgrade, which settles the first install. *)
Definition second_run : list event :=
  (admit_and_run key gone (install instance_b "1.1.0" (Some "1.0.0") 1) None 30 succeeded 40
     after_crash).1.
Definition final : Disk := apply_events after_crash second_run.

Lemma second_trace : trace key gone after_crash ([] ++ take 6 second_run)
                       (apply_events after_crash (take 6 second_run)).
Proof.
  apply trace_run; [apply trace_nil|].
  apply (run_admit key gone after_crash (install instance_b "1.1.0" (Some "1.0.0") 1) None 30
           succeeded 40 6).
Defined.

Lemma full_history : history key gone (crashed ++ take 6 second_run)
                       (apply_events after_crash (take 6 second_run)).
Proof.
  apply trace_run; [apply crash_history|].
  apply (run_admit key gone after_crash (install instance_b "1.1.0" (Some "1.0.0") 1) None 30
           succeeded 40 6).
Defined.

(** The record kept the completion: the upgrade started from 1.0.0, and the
    first instance is recorded as succeeded, not as interrupted. *)
Example settled :
  outcome <$> (result_files final !! instance_a) = Some HostSucceeded
  ∧ record_state <$> (records final !! "prod/k3s")
    = Some (StateApplied {| hr_version := "1.1.0"; hr_manifest_digest := "m" |}).
Proof. vm_compute. by split. Qed.

Definition started_of (step : VerifiedHostStep) (generation now : Z) : HostApplyStarted :=
  {| started_instance := v_instance step; started_plan_id := "p"; started_plan_digest := "d";
     started_step_id := "s"; started_environment := "prod"; started_product := "k3s";
     started_action := HostInstall; started_release := v_release step;
     started_generation := generation; started_at := now; cgroup := None |}.

Definition first_start : HostApplyStarted := started_of (install instance_a "1.0.0" None 0) 1 10.
Definition second_start : HostApplyStarted :=
  started_of (install instance_b "1.1.0" (Some "1.0.0") 1) 2 30.

Lemma host_step_runs_at_most_once_witness : (2 = 2)%nat.
Proof.
  apply (host_step_runs_at_most_once key gone (crashed ++ take 6 second_run) _ 2 2
           first_start first_start full_history); vm_compute; reflexivity.
Defined.

Lemma generation_consumed_once_witness : 1 < 2.
Proof.
  apply (generation_consumed_once key gone (crashed ++ take 6 second_run) _ 2 7
           first_start second_start full_history).
  1-2: vm_compute; reflexivity.
  - lia.
  - discriminate.
  - discriminate.
  - by split.
Defined.

Definition first_result : HostApplyResult := started_result first_start HostSucceeded (Some 0) "" 20.

(** Its own recovery reports the completion the record kept. *)
Lemma recover_settles_witness :
  ∃ es res, recover key gone instance_a 25 after_crash = (es, Ok (Some res))
    ∧ result_files (apply_events after_crash es) !! instance_a = Some res
    ∧ (∀ old, result_files after_crash !! instance_a = Some old → res = old)
    ∧ (∀ r kept, result_files after_crash !! instance_a = None →
         records after_crash !! key_of key first_start = Some r →
         last_started r = Some first_start → last_result r = Some kept →
         result_instance kept = instance_a → res = kept).
Proof.
  apply (recover_settles key gone crashed after_crash instance_a first_start 25 crash_history).
  - vm_compute. reflexivity.
  - done.
Defined.

(** The second run settles the first instance first, and that result stays. *)
Definition settled_disk : Disk := apply_events after_crash (take 1 second_run).

Lemma settled_history : history key gone (crashed ++ take 1 second_run) settled_disk.
Proof.
  apply trace_run; [apply crash_history|].
  apply (run_admit key gone after_crash (install instance_b "1.1.0" (Some "1.0.0") 1) None 30
           succeeded 40 1).
Defined.

Lemma host_results_are_final_witness : result_files settled_disk !! instance_a = Some first_result.
Proof.
  apply (host_results_are_final key gone (crashed ++ take 1 second_run) settled_disk [] settled_disk
           instance_a first_result settled_history).
  - apply trace_nil.
  - vm_compute. reflexivity.
Defined.

Lemma host_record_moves_forward_witness :
  ∃ r', records (apply_events after_crash (take 6 second_run)) !! "prod/k3s" = Some r'
        ∧ follows {| record_environment := "prod"; record_product := "k3s"; record_generation := 1;
                     record_state := StateApplied {| hr_version := "1.0.0"; hr_manifest_digest := "m" |};
                     high_water := Some {| hr_version := "1.0.0"; hr_manifest_digest := "m" |};
                     last_started := Some first_start; last_result := Some first_result |} r'.
Proof.
  apply (host_record_moves_forward key gone crashed after_crash ([] ++ take 6 second_run) _
           "prod/k3s" _ crash_history second_trace).
  vm_compute. reflexivity.
Defined.
End ApplierExamples.
