(* ===== verification/Catalog.v ===== *)
(** * The catalog as the planner reads it

    What [plan/convergence.rs] and [plan/release_selection.rs] read of the
    store: environments, links, stored release manifests, recalls and
    subscriptions, and the dependency holds reconcile writes back
    ([environment.rs], [preview.rs], [catalog/trust.rs],
    [storage/sqlite_objects/links.rs]). *)

From S2P Require Import Prelude RustStr Semver Kinds Facts Compatibility Contracts Plan ObjectStore Approvals HostState.

(** ** Links *)

Record Link := { link_id : string; from_id : string; to_id : string; link_relation : string }.

(** The storage context: objects by id, and links. *)
Record Ctx := { objects : Store; catalog_links : list Link }.

Definition ctx_get (ctx : Ctx) (id : string) : option Object := objects ctx !! id.

Definition ctx_put (ctx : Ctx) (o : Object) : Ctx :=
  {| objects := <[object_id o := o]> (objects ctx); catalog_links := catalog_links ctx |}.

Inductive Direction := Inward | Outward.

(** [links]: the rows of one end and relation, ordered by id. *)
Definition links (ctx : Ctx) (id rel : string) (d : Direction) : list Link :=
  sort_by (cmp_on link_id String.compare)
    (filter (λ l, link_relation l = rel
                  ∧ match d with Inward => to_id l | Outward => from_id l end = id)
       (catalog_links ctx)).

(** ** Manifests *)

(** The fields of a manifest the planner and the host applier read; OCI
    artifact references by name. *)
Record Manifest := {
  compatibility : option CompatibilityProfile;
  product_name : string;
  product_version : string;
  product_kind : ProductKind;
  deploy_install : string;
  deploy_uninstall : option string;
  deploy_executor : option SoftwareExecutorKind;
  deploy_health : option string;
  deploy_instances : DeployInstances;
  requirements : option ModelRequirementsSection;
  artifacts : list string
}.

(** [manifest::parse_raw]: TOML and the manifest's own checks. *)
Class ManifestFormat := { parse_raw : string → option Manifest }.

(** Iteration of a [HashMap]: some order of its entries. *)
Class HashOrder := {
  hash_iter : gmap string string → list (string * string);
  hash_iter_perm m : hash_iter m ≡ₚ map_to_list m
}.

Inductive planning_error :=
| InvalidIdentifier (label value : string)
| MissingEnvironment (env : string)
| RetiredEnvironment (env : string)
| PreviewMalformed
| PreviewTornDown
| PreviewExpired (expires_at : Z)
| PreviewStatus (status : string)
| LinkedObjectMissing (id : string)
| DuplicateInstance (instance : string)
| SecondInstance (product first second : string)
| ReleaseMissing (release : string)
| NoManifest (release : string)
| BadManifest (release : string)
| FactRefused (error : fact_error)
| FactMissing (key : string)
| FactConstraint (key actual expected : string)
| EmptyPin (product : string)
| PinNotPublished (pin : string)
| PinOutsideRange (pin range : string)
| HeadOutsideRange (version range : string)
| BadRange (range : string)
| BadVersion (version : string)
| NoRequirements (product version : string)
| ModelRefused (error : model_fit_error)
| NoVariant (product : string) (head : option planning_error)
| RecalledHead (release : string)
| PinRefused (release : string)
| CompatibilityBlocked (blocking : list CompatibilityFailure)
| CompatRefused (error : compat_error)
| PlacementRefused (release : string)
| ModuleRefused (release : string)
| UnknownDeployment (instance : string)
| UnrecordedHostState (product : string) (generation : Z)
| RecordUnavailable (product : string)
| ObserveFailed (release : string)
| HostRemovalUnavailable (product : string) (error : executor_error)
| ExecutorRefused (error : executor_error)
| NotAHostRelease (release : string)
| AlreadyBound (release : string)
| HostNeverRestarts (release : string)
| HostGenerationOverflow
| AbsentContract (contract product : string)
| AmbiguousContract (contract product : string)
| OrderRefused (error : contract_error)
| RolloutRefused (error : rollout_error)
| HeldTargetMissing (product release : string)
| RecoveryReason
| NothingToRollBack (instance : string)
| NothingToRestart (instance : string)
| RecalledTarget (release : string)
| StoreRefused (error : plan_error).

(** ** Environments *)

Definition environment (ctx : Ctx) (env : string) : result Object planning_error :=
  bail_if negb (valid_identifier env) with (InvalidIdentifier "environment" env) in
  ok_or (ctx_get ctx (env_id env)) (MissingEnvironment env).

Lemma environment_ok ctx env o :
  environment ctx env = Ok o ↔ valid_identifier env = true ∧ ctx_get ctx (env_id env) = Some o.
Proof. unfold environment. by rewrite bail_ok, negb_false, ok_or_ok. Qed.

Definition active_environment (ctx : Ctx) (env : string) : result Object planning_error :=
  let? object := environment ctx env in
  bail_if is_some_b (retirement_from_properties (properties object)) with (RetiredEnvironment env) in
  Ok object.

(** [linked]: every object at the other end, in link order; a dangling link
    is an error. *)
Definition linked (ctx : Ctx) (id rel : string) (d : Direction) :
    result (list Object) planning_error :=
  try_fold (λ acc l,
    let other := match d with Inward => from_id l | Outward => to_id l end in
    let? object := ok_or (ctx_get ctx other) (LinkedObjectMissing other) in
    Ok (acc ++ [object])) [] (links ctx id rel d).

Definition property (o : Object) (key : string) : string := default "" (properties o !! key).

Definition environment_facts_from_object `{HashOrder} (o : Object) : gmap string string :=
  foldl (λ facts entry,
    match strip_prefix "fact." entry.1 with
    | Some name => <[name := entry.2]> facts
    | None => facts
    end) ∅ (hash_iter (properties o)).

Definition list_environment_facts `{HashOrder} (ctx : Ctx) (env : string) :
    result (gmap string string) planning_error :=
  let? object := environment ctx env in Ok (environment_facts_from_object object).

Definition require_environment_fact `{HashOrder} (ctx : Ctx) (env key : string) :
    result string planning_error :=
  let? _ := map_err FactRefused (validate_fact_key key) in
  let? facts := list_environment_facts ctx env in
  ok_or (facts !! key) (FactMissing key).

(** ** Subscriptions *)

Record Subscription := { sub_instance : string; sub_product : string; sub_channel : Object }.

Definition product_of_channel (channel : Object) : string :=
  match properties channel !! "product" with
  | Some name =>
    if str_is_empty name then
      default "" (rest ← strip_prefix "tenkai:channel:" (object_id channel);
                  fst <$> split_once "/" rest)
    else name
  | None =>
    default "" (rest ← strip_prefix "tenkai:channel:" (object_id channel);
                fst <$> split_once "/" rest)
  end.

Definition instance_subscription (ctx : Ctx) (st : gset string * list Subscription)
    (instance : Object) : result (gset string * list Subscription) planning_error :=
  let '(seen, out) := st in
  let name := default (object_name instance) (properties instance !! "name") in
  let product := property instance "product" in
  let? channels := linked ctx (object_id instance) "subscribes" Outward in
  match channels with
  | [] => Ok (seen, out)
  | channel :: _ =>
    let product := if str_is_empty product then product_of_channel channel else product in
    bail_if bool_decide (name ∈ seen) with (DuplicateInstance name) in
    Ok ({[name]} ∪ seen,
        out ++ [{| sub_instance := name; sub_product := product; sub_channel := channel |}])
  end.

Definition channel_subscription (st : gset string * list Subscription) (channel : Object) :
    gset string * list Subscription :=
  let '(seen, out) := st in
  let product := product_of_channel channel in
  if str_is_empty product || bool_decide (product ∈ seen) then (seen, out)
  else ({[product]} ∪ seen,
        out ++ [{| sub_instance := product; sub_product := product; sub_channel := channel |}]).

Definition list_subscriptions (ctx : Ctx) (env_obj : Object) :
    result (list Subscription) planning_error :=
  let? instances := linked ctx (object_id env_obj) "has_instance" Outward in
  let? st := try_fold (instance_subscription ctx) (∅, []) instances in
  let? channels := linked ctx (object_id env_obj) "subscribes" Outward in
  Ok (sort_by (cmp_on sub_instance String.compare) (foldl channel_subscription st channels).2).

(** ** Preview environments *)

Record PreviewInspect := { preview_status : string; preview_expires_at : Z }.

Definition is_preview (o : Object) : bool :=
  bool_decide (properties o !! "environment_kind" = Some "preview").

(** [stored_inspect], which also decodes and checks the stored branch pin
    ([pin_matches]). *)
Definition stored_inspect (pin_matches : Object → bool) (o : Object) :
    result PreviewInspect planning_error :=
  bail_if negb (pin_matches o) with PreviewMalformed in
  let? expiry := ok_or (properties o !! "preview_expires_at") PreviewMalformed in
  let? expires_at := ok_or (parse_i64 expiry) PreviewMalformed in
  let? status := ok_or (properties o !! "preview_status") PreviewMalformed in
  bail_if negb (bool_decide (status = "active") || bool_decide (status = "torn_down"))
    with (PreviewStatus status) in
  bail_if is_some_and (properties o !! "preview_teardown_at") (λ v, negb (is_some_b (parse_i64 v)))
    with PreviewMalformed in
  Ok {| preview_status := status; preview_expires_at := expires_at |}.

Definition admit_plan (pin_matches : Object → bool) (o : Object) (now : Z) :
    result unit planning_error :=
  if is_preview o then
    let? preview := stored_inspect pin_matches o in
    if decide (preview_status preview = "torn_down") then Err PreviewTornDown
    else if decide (preview_status preview = "active") then
      bail_if bool_decide (preview_expires_at preview ≤ now)
        with (PreviewExpired (preview_expires_at preview)) in
      Ok tt
    else Err (PreviewStatus (preview_status preview))
  else Ok tt.

(** ** Releases *)

Definition release_object_is_recalled (o : Object) : bool :=
  is_some_and (properties o !! "recalled_at") (λ v, negb (str_is_empty v)).

Definition release_recall_id (release : string) : string := release +:+ ":recall".

Definition release_is_recalled (ctx : Ctx) (release : string) : bool :=
  is_some_and (ctx_get ctx release) release_object_is_recalled
  || is_some_and (ctx_get ctx (release_recall_id release))
       (λ claim, bool_decide (object_kind claim = "tenkai.release_recall")).

Definition product_id (name : string) : string := "tenkai:product:" +:+ name.

Section Manifests.
Context `{ManifestFormat}.

(** [readable_manifest]. *)
Definition readable_manifest (ctx : Ctx) (release : string) : option Manifest :=
  object ← ctx_get ctx release;
  raw ← properties object !! "manifest";
  parse_raw raw.

(** [stored_release_manifest]. *)
Definition stored_release_manifest (ctx : Ctx) (release : string) :
    result Manifest planning_error :=
  let? object := ok_or (ctx_get ctx release) (ReleaseMissing release) in
  let? raw := ok_or (properties object !! "manifest") (NoManifest release) in
  ok_or (parse_raw raw) (BadManifest release).

(** [stored_release_executor]. *)
Definition stored_release_executor (ctx : Ctx) (release : string) :
    result (option SoftwareExecutorKind) planning_error :=
  let? m := stored_release_manifest ctx release in Ok (deploy_executor m).

Lemma stored_release_readable ctx release m :
  stored_release_manifest ctx release = Ok m ↔ readable_manifest ctx release = Some m.
Proof.
  unfold stored_release_manifest, readable_manifest.
  destruct (ctx_get ctx release) as [o|]; simpl; [|naive_solver].
  destruct (properties o !! "manifest"); simpl; [|naive_solver].
  apply ok_or_ok.
Qed.

Definition is_host_release (ctx : Ctx) (release : string) : bool :=
  is_some_and (readable_manifest ctx release) (λ m, bool_decide (deploy_executor m = Some Host)).
End Manifests.

(** ** Deployment properties *)

Definition product_of_release_id (id : string) : option string :=
  spec ← strip_prefix "tenkai:release:" id;
  fst <$> split_once "@" spec.

Definition deployed_release_id (ps : gmap string string) (instance version : string) : string :=
  default (release_id instance version) (ps !! ("deployed_release." +:+ instance)).

Definition product_for_instance (ps : gmap string string) (instance : string) : string :=
  default instance (id ← ps !! ("deployed_release." +:+ instance); product_of_release_id id).

Definition failed_target_is_held (ps : gmap string string) (instance release : string) : bool :=
  is_some_and (ps !! ("failed_target." +:+ instance)) (λ failed, bool_decide (failed = release)).

Definition health_is (ps : gmap string string) (instance value : string) : bool :=
  is_some_and (ps !! ("deployment_health." +:+ instance)) (λ h, bool_decide (h = value)).
