(* ===== verification/HostVerify.v ===== *)
(** * Intake of a host request

    [host_apply/request.rs] and [host_apply/verify.rs]: the instance name a
    request runs under, and everything the root-side applier checks of a
    copied request before it looks at its own record. *)

From S2P Require Import Prelude RustStr Semver Kinds Plan Approvals ReleaseSigning HostState Catalog.

Record HostApplyRequest := {
  request_plan : Plan;
  request_step_id : string;
  request_action : HostAction;
  request_manifest : string;
  request_signature : SignatureEnvelope;
  request_approvals : list ApprovalEnvelope
}.

(** [HostTrust::release_roots]: the release trust roots of this host. *)
Class ReleaseTrust := { release_roots : ReleaseTrustRoots }.

Inductive verify_error :=
| BadInstanceName (instance : string)
| PlanFormat (format : Z)
| BadEnvironment (environment : string)
| WrongInstance (instance expected : string)
| NoSuchStep (step : string)
| NotAHostStep (step : string)
| OtherAction (step : string) (action requested : HostAction)
| ManifestInvalid
| NotSoftware
| NotHostExecutor
| HasArtifacts
| BadProduct (product : string)
| StepNamesOther (step : string)
| NotTheInstalled (step : string)
| NoCommand (action : HostAction)
| SignatureRefused (error : signing_error)
| ManifestMismatch
| ArtifactMismatch
| NotApproved (error : approval_error).

Definition INSTANCE_DOMAIN : string := "TENKAI-HOST-APPLY-INSTANCE-V1" +:+ String NUL "".

(** The bytes whose digest is the instance name. *)
Definition instance_bytes (digest step : string) (action : HostAction) : string :=
  INSTANCE_DOMAIN +:+ len_prefixed digest +:+ len_prefixed step +:+ len_prefixed (HostAction_str action).

Section Verify.
Context {E : PlanEncoding} {C : Crypto} {U : UrlFormat} {B : Base64} {MF : ManifestFormat} {RT : ReleaseTrust}.

Definition instance_key (digest step : string) (action : HostAction) : string :=
  sha256_hex (instance_bytes digest step action).

(** [product_key]. *)
Definition product_key (environment product : string) : string :=
  sha256_hex (environment +:+ String NUL product).

Definition request_plan_digest (r : HostApplyRequest) : string :=
  "sha256:" +:+ executable_digest (request_plan r).

Definition request_instance (r : HostApplyRequest) : string :=
  instance_key (request_plan_digest r) (request_step_id r) (request_action r).

(** [manifest::digest]. *)
Definition manifest_digest (raw : string) : string := sha256_hex raw.

Definition host_command (m : Manifest) (action : HostAction) : option string :=
  let command := match action with
                 | HostInstall => Some (deploy_install m)
                 | HostUninstall => deploy_uninstall m
                 | HostHealth => deploy_health m
                 end in
  c ← command; if str_is_empty (trim c) then None else Some c.

(** [verify_request]: the step, and the command its action runs. *)
Definition verify_request (policy : HostApprovalPolicy) (r : HostApplyRequest) (instance : string)
    (now_ms : Z) : result (VerifiedHostStep * string) verify_error :=
  bail_if negb (valid_hex_digest instance) with (BadInstanceName instance) in
  let plan := request_plan r in
  bail_if negb (format_version plan =? PLAN_FORMAT_VERSION) with (PlanFormat (format_version plan)) in
  bail_if negb (valid_identifier (plan_environment plan))
    with (BadEnvironment (plan_environment plan)) in
  bail_if negb (bool_decide (instance = request_instance r))
    with (WrongInstance instance (request_instance r)) in
  let? step := ok_or (find_first (λ s, bool_decide (step_id s = request_step_id r)) (steps plan))
                     (NoSuchStep (request_step_id r)) in
  let? host := ok_or (step_host step) (NotAHostStep (step_id step)) in
  bail_if negb (bool_decide (host_action host = request_action r))
    with (OtherAction (step_id step) (host_action host) (request_action r)) in
  let? m := ok_or (parse_raw (request_manifest r)) ManifestInvalid in
  bail_if negb (bool_decide (policy_target (product_kind m) = TargetSoftware)) with NotSoftware in
  bail_if negb (bool_decide (deploy_executor m = Some Host)) with NotHostExecutor in
  bail_if negb (bool_decide (artifacts m = [])) with HasArtifacts in
  bail_if negb (valid_identifier (product_name m)) with (BadProduct (product_name m)) in
  bail_if negb (bool_decide (step_product step = product_name m))
          || negb (bool_decide (step_to step = product_version m))
          || negb (bool_decide (step_release_id step = release_id (product_name m) (product_version m)))
    with (StepNamesOther (step_id step)) in
  bail_if bool_decide (host_action host ≠ HostInstall)
          && negb (bool_decide (step_from step = Some (product_version m)))
    with (NotTheInstalled (step_id step)) in
  let? command := ok_or (host_command m (host_action host)) (NoCommand (host_action host)) in
  let? signer := map_err SignatureRefused (authenticate_at (request_signature r) release_roots now_ms) in
  let digest := manifest_digest (request_manifest r) in
  let signed := signature_statement (request_signature r) in
  bail_if negb (bool_decide (signed_manifest_digest signed = digest))
          || negb (bool_decide (step_release_digest step = digest))
    with ManifestMismatch in
  bail_if negb (bool_decide (signed_artifact_digest signed = step_artifact_digest step))
    with ArtifactMismatch in
  let approvals := evaluate policy plan (request_approvals r) now_ms in
  let purposes := plan_purposes plan in
  let? _ := map_err NotApproved (require_all approvals purposes) in
  Ok ({| v_instance := instance; v_plan_id := plan_id_of plan;
         v_plan_digest := request_plan_digest r; v_environment := plan_environment plan;
         v_product := product_name m; v_step_id := step_id step;
         v_step_action := step_action step; v_action := host_action host;
         v_expected_generation := expected_generation host; v_from := step_from step;
         v_release := {| hr_version := product_version m; hr_manifest_digest := digest |};
         v_approvals := approvals; v_purposes := purposes |}, command).
End Verify.

(** ** The instance name binds plan, step and action *)

(** The bytes a host instance name is a digest of determine the plan
    digest, the step and the action: a unit started under one name cannot
    stand for another plan's step, another step or another action unless the
    digest collides. *)
Theorem instance_bytes_inj d s a d' s' a' :
  str_len d ≤ u64_max → str_len d' ≤ u64_max → str_len s ≤ u64_max → str_len s' ≤ u64_max →
  instance_bytes d s a = instance_bytes d' s' a' → d = d' ∧ s = s' ∧ a = a'.
Proof.
  intros Hd Hd' Hs Hs' H. unfold instance_bytes in H.
  apply string_app_inj in H as [_ H]; [|done].
  apply len_prefixed_inj in H as [-> H]; [|done..].
  apply len_prefixed_inj in H as [-> H]; [|done..].
  split_and!; [done..|]. by destruct a, a'.
Qed.

Section VerifyProofs.
Context {E : PlanEncoding} {C : Crypto} {U : UrlFormat} {B : Base64} {MF : ManifestFormat} {RT : ReleaseTrust}.

(** What the intake established of a step it accepted. *)
Record accepted (policy : HostApprovalPolicy) (r : HostApplyRequest) (instance : string)
    (now_ms : Z) (v : VerifiedHostStep) (command : string) (step : Step) (m : Manifest) : Prop := {
  ac_instance : instance = request_instance r ∧ valid_hex_digest instance = true;
  ac_step : step ∈ steps (request_plan r) ∧ step_id step = request_step_id r;
  ac_host : step_host step = Some {| host_action := v_action v;
                                     expected_generation := v_expected_generation v |}
            ∧ v_action v = request_action r;
  ac_manifest : parse_raw (request_manifest r) = Some m ∧ deploy_executor m = Some Host
                ∧ policy_target (product_kind m) = TargetSoftware ∧ artifacts m = [];
  ac_names : step_product step = product_name m ∧ step_to step = product_version m
             ∧ step_release_id step = release_id (product_name m) (product_version m)
             ∧ step_release_digest step = manifest_digest (request_manifest r);
  ac_from : v_action v ≠ HostInstall → step_from step = Some (step_to step);
  ac_command : host_command m (v_action v) = Some command ∧ str_is_empty (trim command) = false;
  ac_signed : (∃ s, vouches release_roots now_ms (request_signature r) s)
              ∧ signed_manifest_digest (signature_statement (request_signature r))
                = step_release_digest step
              ∧ signed_artifact_digest (signature_statement (request_signature r))
                = step_artifact_digest step;
  ac_approved : ∀ q, q ∈ plan_purposes (request_plan r) →
    approvals_require (evaluate policy (request_plan r) (request_approvals r) now_ms) q = Ok tt;
  ac_verified : v = {|
    v_instance := instance; v_plan_id := plan_id_of (request_plan r);
    v_plan_digest := request_plan_digest r; v_environment := plan_environment (request_plan r);
    v_product := step_product step; v_step_id := step_id step;
    v_step_action := step_action step; v_action := v_action v;
    v_expected_generation := v_expected_generation v; v_from := step_from step;
    v_release := {| hr_version := step_to step; hr_manifest_digest := step_release_digest step |};
    v_approvals := evaluate policy (request_plan r) (request_approvals r) now_ms;
    v_purposes := plan_purposes (request_plan r) |}
}.

Lemma host_command_some m a c :
  host_command m a = Some c → str_is_empty (trim c) = false.
Proof.
  unfold host_command. intros (c' & _ & H)%bind_Some.
  destruct (str_is_empty (trim c')) eqn:He; [done|]. by injection H as <-.
Qed.

(** What the applier runs as root comes from signed and approved
    content: an accepted request runs under the name derived from its plan,
    step and action; the step is in the approved plan and is a host step of
    that action; the command is the signed manifest's own for that action,
    the manifest being a software release on the host executor whose
    digest, name, version and artifact digest are the step's and the
    signature's; and every purpose the plan needs has its approvals. *)
Theorem verify_request_sound policy r instance now v command :
  verify_request policy r instance now = Ok (v, command) →
  ∃ step m, accepted policy r instance now v command step m.
Proof.
  unfold verify_request. intros H. ok_inv H. injection H as <- <-.
  apply find_first_some in Hg3 as [Hin Hid]. apply bool_decide_eq_true in Hid.
  destruct Hg11 as [[Hn1 Hn2] Hn3], Hg15 as [Hd1 Hd2], x0 as [action generation].
  exists x, x1. split; simpl in *; try done.
  - intros Ha. destruct Hg12 as [Hb|Hb]; [done|congruence].
  - split; [done|]. by eapply host_command_some.
  - split_and!; [eexists; by apply authenticate_vouches|congruence|done].
  - destruct x4. by apply try_for_each_ok.
  - by rewrite Hn1, Hn2, Hd2.
Qed.
End VerifyProofs.

Module VerifyExamples.
#[local] Existing Instance ApprovalExamples.fixed_digest.
#[local] Existing Instance ApprovalExamples.transparent.
#[local] Existing Instances SigningExamples.plain_urls SigningExamples.fixed_base64.

(** A kernel release on the host executor; every text has the same digest. *)
#[local] Instance kernel_manifest : ManifestFormat := {|
  parse_raw raw :=
    Some {| compatibility := None; product_name := "kernel"; product_version := "2.0.0";
            product_kind := Software; deploy_install := "apply"; deploy_uninstall := None;
            deploy_executor := Some Host; deploy_health := Some "probe"; deploy_instances := One;
            requirements := None; artifacts := [] |} |}.

#[local] Instance trusted_releases : ReleaseTrust := {| release_roots := SigningExamples.roots |}.

Definition install_step : Step := {|
  step_id := "p:step:0"; step_order := 0; step_product := "kernel"; step_instance := "";
  step_action := Upgrade; step_from := Some "1.0.0"; step_to := "2.0.0";
  step_release_id := release_id "kernel" "2.0.0"; step_release_digest := ApprovalExamples.zeros;
  step_artifact_digest := ApprovalExamples.zeros; step_workdir := ""; step_restore := None;
  step_host := Some {| host_action := HostInstall; expected_generation := 1 |} |}.

Definition plan : Plan := {|
  format_version := 1; plan_id_of := "p"; content_id := ""; plan_environment := "prod";
  created_at := 7; inputs := []; steps := [install_step]; plan_state := Computed;
  gates_skipped := None; status_detail := ""; maintenance_blocked := false;
  prior_warnings := []; recalled_recovery_reason := None; credential_runway := None |}.

Definition request : HostApplyRequest := {|
  request_plan := plan; request_step_id := "p:step:0"; request_action := HostInstall;
  request_manifest := "kernel"; request_approvals := ApprovalExamples.request;
  request_signature := SigningExamples.signed |}.

Definition verified : VerifiedHostStep := {|
  v_instance := ApprovalExamples.zeros; v_plan_id := "p";
  v_plan_digest := "sha256:" +:+ ApprovalExamples.zeros; v_environment := "prod";
  v_product := "kernel"; v_step_id := "p:step:0"; v_step_action := Upgrade;
  v_action := HostInstall; v_expected_generation := 1; v_from := Some "1.0.0";
  v_release := {| hr_version := "2.0.0"; hr_manifest_digest := ApprovalExamples.zeros |};
  v_approvals := evaluate ApprovalExamples.host_policy plan ApprovalExamples.request 20;
  v_purposes := [ExecutePlan; SkipGates] |}.

Lemma verify_request_sound_witness :
  ∃ step m, accepted ApprovalExamples.host_policy request ApprovalExamples.zeros 20 verified
              "apply" step m.
Proof.
  refine (verify_request_sound ApprovalExamples.host_policy request ApprovalExamples.zeros 20
            verified "apply" _).
  vm_compute. reflexivity.
Defined.

Lemma instance_bytes_inj_witness : "d" = "d" ∧ "s" = "s" ∧ HostInstall = HostInstall.
Proof.
  refine (instance_bytes_inj "d" "s" HostInstall "d" "s" HostInstall _ _ _ _ _);
    vm_compute; solve [discriminate | reflexivity].
Defined.
End VerifyExamples.
