(* ===== verification/HostSteps.v ===== *)
(** * Planning of host steps

    [plan/convergence.rs]: how far the applier's record has taken a host
    product, what a host step starts from, and how the steps of host releases
    are bound to the record's generation (ADR 0041). *)

From S2P Require Import Prelude RustStr Semver Kinds Plan Approvals HostState Catalog HostVerify.

(** What the planner reads of the root-side applier; [None] is a record that
    cannot be read. *)
Record HostExecutor := {
  applied_state : string → string → option AppliedStateRecord;
  applied_states : string → option (list AppliedStateRecord)
}.

Inductive SoftwareObserveStatus := ObservedPresent | ObservedAbsent | ObservedMismatched | ObservedUnknown.

(** What an adapter is asked to observe: product, version, environment,
    working directory, release, overlays and instance. *)
Record ObserveRequest := {
  observe_product : string;
  observe_version : string;
  observe_environment : string;
  observe_workdir : string;
  observe_release : string;
  observe_overlays : gmap string string;
  observe_instance : string
}.

Record Adapter := { observe : ObserveRequest → option SoftwareObserveStatus }.

Notation Executors := (SoftwareExecutors HostExecutor Adapter).

Inductive HostProgress := Converged | NeedsHealth | NeedsInstall.

Definition is_last_health_ok (r : AppliedStateRecord) (release : HostRelease) : bool :=
  match last_started r, last_result r with
  | Some started, Some res =>
    bool_decide (started_action started = HostHealth)
    && bool_decide (started_release started = release)
    && bool_decide (result_instance res = started_instance started)
    && outcome_succeeded (outcome res)
  | _, _ => false
  end.

Definition host_progress (r : AppliedStateRecord) (desired : string) (health : bool) : HostProgress :=
  match record_state r with
  | StateApplied release =>
    if decide (hr_version release = desired) then
      if health && negb (is_last_health_ok r release) then NeedsHealth else Converged
    else NeedsInstall
  | _ => NeedsInstall
  end.

(** The releases a dirty record names, in order. *)
Definition dirty_sides (from to : option HostRelease) : list HostRelease :=
  match from with Some r => [r] | None => [] end ++ match to with Some r => [r] | None => [] end.

Definition host_source (r : AppliedStateRecord) (deployed : option string) : option string :=
  match record_state r with
  | StateEmpty => None
  | StateApplied release => Some (hr_version release)
  | StateDirty from to =>
    match find_first (λ side, bool_decide (Some (hr_version side) = deployed)) (dirty_sides from to) with
    | Some side => Some (hr_version side)
    | None => hr_version <$> head (dirty_sides from to)
    end
  end.

Definition declares_health (m : Manifest) : bool :=
  is_some_and (deploy_health m) (λ command, negb (str_is_empty (trim command))).

(** A step with some of its fields replaced. *)
Definition rebind (s : Step) (action : Action) (from : option string) (restore : option ReleasePin)
    (host : option HostStep) : Step := {|
  step_id := step_id s; step_order := step_order s; step_product := step_product s;
  step_instance := step_instance s; step_action := action; step_from := from; step_to := step_to s;
  step_release_id := step_release_id s; step_release_digest := step_release_digest s;
  step_artifact_digest := step_artifact_digest s; step_workdir := step_workdir s;
  step_restore := restore; step_host := host |}.

Section HostPlanning.
Context {SV : Semver} {MF : ManifestFormat}.

Definition classify_change (current desired : string) : Action :=
  match Version_parse current, Version_parse desired with
  | Some c, Some t => if version_lt t c then Downgrade else Upgrade
  | _, _ => Upgrade
  end.

Definition host_record (executors : Executors) (env product : string) :
    result AppliedStateRecord planning_error :=
  let? host := map_err ExecutorRefused (executors_host executors) in
  ok_or (applied_state host env product) (RecordUnavailable product).

(** [require_host_product]. *)
Definition require_host_product (ctx : Ctx) (executors : Executors) (env product : string) :
    result unit planning_error :=
  let? object := environment ctx env in
  match properties object !! ("deployed." +:+ product) with
  | None => Ok tt
  | Some deployed =>
    match readable_manifest ctx (release_id product deployed) with
    | None => Ok tt
    | Some installed =>
      map_err ExecutorRefused
        (require_same_executor executors product (deploy_executor installed) (Some Host))
    end
  end.

(** The [require_same_executor] of the planner, on one step. *)
Definition require_step_executor (ctx : Ctx) (executors : Executors) (s : Step) :
    result unit planning_error :=
  match step_from s with
  | None => Ok tt
  | Some installed =>
    if decide (step_action s = Restart) then Ok tt
    else
      let installed := release_id (step_product s) installed in
      if negb (is_some_b (ctx_get ctx (step_release_id s))) then Ok tt
      else if negb (is_some_b (ctx_get ctx installed)) then Ok tt
      else
        let? installed_executor := stored_release_executor ctx installed in
        let? target_executor := stored_release_executor ctx (step_release_id s) in
        map_err ExecutorRefused
          (require_same_executor executors (step_product s) installed_executor target_executor)
  end.

(** The body of [bind_host_steps]: the steps one step becomes. *)
Definition bind_host_step (ctx : Ctx) (executors : Executors) (env : string) (s : Step) :
    result (list Step) planning_error :=
  match readable_manifest ctx (step_release_id s) with
  | None => Ok [s]
  | Some m =>
    if decide (deploy_executor m ≠ Some Host) then
      bail_if bool_decide (step_action s = Remove) with (NotAHostRelease (step_release_id s)) in
      Ok [s]
    else
      let? _ := require_host_product ctx executors env (step_product s) in
      let? record := host_record executors env (step_product s) in
      let at_record action :=
        Some {| host_action := action; expected_generation := record_generation record |} in
      match step_host s with
      | Some {| host_action := HostHealth |} =>
        Ok [rebind s (step_action s) (step_from s) (step_restore s) (at_record HostHealth)]
      | Some _ => Err (AlreadyBound (step_release_id s))
      | None =>
        if decide (step_action s = Restart) then Err (HostNeverRestarts (step_release_id s))
        else if decide (step_action s = Remove) then
          Ok [rebind s (step_action s) (Some (step_to s)) None (at_record HostUninstall)]
        else
          let from := host_source record (step_from s) in
          let action :=
            if decide (step_action s = Rollback) then Rollback
            else match from with
                 | None => Install
                 | Some current => classify_change current (step_to s)
                 end in
          let install := rebind s action from None (at_record HostInstall) in
          if declares_health m then
            let? installed := ok_or (u64_checked_add (record_generation record) 1)
                                    HostGenerationOverflow in
            let check := if decide (action = Rollback) then Rollback else Restart in
            Ok [install;
                rebind install check (Some (step_to s)) None
                  (Some {| host_action := HostHealth; expected_generation := installed |})]
          else Ok [install]
      end
  end.

(** [bind_host_steps]. *)
Definition bind_host_steps (ctx : Ctx) (executors : Executors) (env : string) (steps : list Step) :
    result (list Step) planning_error :=
  try_fold (λ bound s, let? more := bind_host_step ctx executors env s in Ok (bound ++ more))
    [] steps.

(** [observe_executor]. *)
Definition observe_executor (executors : Executors) (m : Manifest) :
    result (option Adapter) planning_error :=
  match effective_kind executors (deploy_executor m) with
  | None | Some Host => Ok None
  | Some _ => map_err ExecutorRefused (resolve executors (deploy_executor m))
  end.
End HostPlanning.

(** ** The planner and the applier agree

    What the planner binds from a record, the applier admits on that record,
    step after step, and afterwards the planner sees the product converged. *)

(** A verified step carries what its plan step says. *)
Record verifies (env : string) (s : Step) (v : VerifiedHostStep) : Prop := {
  vf_environment : v_environment v = env;
  vf_product : v_product v = step_product s;
  vf_from : v_from v = step_from s;
  vf_release : v_release v = {| hr_version := step_to s; hr_manifest_digest := step_release_digest s |};
  vf_host : step_host s = Some {| host_action := v_action v;
                                  expected_generation := v_expected_generation v |}
}.

Section Agreement.
Context {SV : Semver} {MF : ManifestFormat}.

Lemma accepted_verifies `{PlanEncoding, Crypto, ReleaseTrust} policy r instance now v command step m :
  accepted policy r instance now v command step m →
  verifies (plan_environment (request_plan r)) step v.
Proof.
  intros Ha. pose proof (ac_verified _ _ _ _ _ _ _ _ Ha) as Hv. split.
  - exact (f_equal v_environment Hv).
  - exact (f_equal v_product Hv).
  - exact (f_equal v_from Hv).
  - exact (f_equal v_release Hv).
  - apply Ha.
Qed.

(** Admits each step in turn and records its success. *)
Fixpoint run_host_steps (r : AppliedStateRecord) (vs : list VerifiedHostStep)
    (group : option string) (now : Z) : result AppliedStateRecord host_error :=
  match vs with
  | [] => Ok r
  | v :: vs =>
    let? (s, next) := admit_record r v group now in
    run_host_steps (complete next s (started_result s HostSucceeded (Some 0) "" now)) vs group now
  end.

Lemma dirty_sides_candidates from to side :
  side ∈ dirty_sides from to → Some side ∈ source_candidates (StateDirty from to).
Proof. unfold dirty_sides. destruct from, to; set_solver. Qed.

Lemma source_candidate r c :
  c ∈ source_candidates (record_state r) → ∃ c', source r (release_version c) = Ok c'.
Proof.
  intros Hc. unfold source. destruct (find_first _ _) as [c'|] eqn:Hf; [by exists c'|].
  unfold find_first in Hf. eapply find_map_none in Hf; [|exact Hc].
  by rewrite bool_decide_eq_true_2 in Hf.
Qed.

(** Whatever the server believes deployed, the source the planner names is
    one the record holds. *)
Lemma host_source_recorded r deployed : ∃ c, source r (host_source r deployed) = Ok c.
Proof.
  assert (∃ c, c ∈ source_candidates (record_state r) ∧ release_version c = host_source r deployed)
    as (c & Hc & <-); [|by apply source_candidate].
  unfold host_source. destruct (record_state r) as [|release|from to].
  - exists None. split; [left|done].
  - exists (Some release). split; [left|done].
  - destruct (find_first _ _) as [side|] eqn:Hf.
    + apply find_first_some in Hf as [Hin _]. exists (Some side).
      split; [by apply dirty_sides_candidates|done].
    + destruct from as [f|], to as [t|]; simpl; [exists (Some f)|exists (Some f)|exists (Some t)|exists None];
        (split; [set_solver|done]).
Qed.

Lemma bind_install ctx executors env s m bound :
  readable_manifest ctx (step_release_id s) = Some m → deploy_executor m = Some Host →
  step_host s = None → step_action s ≠ Restart → step_action s ≠ Remove →
  bind_host_step ctx executors env s = Ok bound →
  ∃ r action, host_record executors env (step_product s) = Ok r
    ∧ bound = rebind s action (host_source r (step_from s)) None
                (Some {| host_action := HostInstall; expected_generation := record_generation r |})
              :: (if declares_health m then
                    [rebind s (if decide (action = Rollback) then Rollback else Restart)
                       (Some (step_to s)) None
                       (Some {| host_action := HostHealth;
                                expected_generation := record_generation r + 1 |})]
                  else []).
Proof.
  intros Hm He Hh Hr Hrm. unfold bind_host_step. rewrite Hm, Hh. simpl.
  rewrite decide_False by (rewrite He; tauto). intros H. ok_inv H.
  rewrite !decide_False in H by done. exists x0. eexists. split; [done|].
  destruct (declares_health m).
  - ok_inv H. unfold u64_checked_add in Hg1. destruct (_ <=? _); [|done].
    injection Hg1 as <-. by injection H as <-.
  - by injection H as <-.
Qed.

Lemma install_admitted r v s group now :
  verifies (record_environment r) s v → record_product r = step_product s →
  step_host s = Some {| host_action := HostInstall; expected_generation := record_generation r |} →
  record_generation r < u64_max → (∃ c, source r (step_from s) = Ok c) →
  (∀ mark, high_water r = Some mark →
     is_newer (step_to s) (hr_version mark) = true
     ∨ approvals_require (v_approvals v) (downgrade_purpose v) = Ok tt) →
  ∃ started next, admit_record r v group now = Ok (started, next)
    ∧ started_action started = HostInstall ∧ started_release started = v_release v
    ∧ record_environment next = record_environment r ∧ record_product next = record_product r
    ∧ record_generation next = record_generation r + 1.
Proof.
  intros [Hve Hvp Hvf Hvr Hvh] Hp Hh Hg [c Hc] Hw. rewrite Hh in Hvh. injection Hvh as Ha Heg.
  unfold admit_record. rewrite Hve, Hvp, Hp, !bool_decide_eq_true_2 by done. simpl.
  rewrite <- Heg, Z.eqb_refl, Hvf, Hc. simpl. rewrite <- Ha. simpl.
  unfold u64_checked_add. rewrite (proj2 (Z.leb_le (record_generation r + 1) u64_max)) by lia.
  destruct (high_water r) as [mark|] eqn:Hm; simpl; [|by eauto 10].
  assert (hr_version (v_release v) = step_to s) as -> by by rewrite Hvr.
  destruct (Hw mark eq_refl) as [->| ->]; simpl; [by eauto 10|].
  destruct (is_newer _ _); simpl; by eauto 10.
Qed.

Lemma health_admitted r v s group now :
  verifies (record_environment r) s v → record_product r = step_product s →
  step_host s = Some {| host_action := HostHealth; expected_generation := record_generation r |} →
  step_from s = Some (step_to s) → record_state r = StateApplied (v_release v) →
  ∃ started next, admit_record r v group now = Ok (started, next)
    ∧ started_action started = HostHealth ∧ started_release started = v_release v
    ∧ record_state next = record_state r ∧ last_started next = Some started.
Proof.
  intros [Hve Hvp Hvf Hvr Hvh] Hp Hh Hf Hs. rewrite Hh in Hvh. injection Hvh as Ha Heg.
  unfold admit_record. rewrite Hve, Hvp, Hp, !bool_decide_eq_true_2 by done. simpl.
  rewrite <- Heg, Z.eqb_refl, Hvf, Hf. simpl. unfold source. rewrite Hs. simpl.
  unfold find_first; simpl. rewrite (bool_decide_eq_true_2 (Some _ = _)) by by rewrite Hvr.
  simpl. rewrite <- Ha. simpl. rewrite (bool_decide_eq_false_2 (_ ≠ _)) by tauto. simpl.
  rewrite (bool_decide_eq_true_2 (StateApplied _ = _)) by done. simpl. by eauto 10.
Qed.

Lemma install_completes next started now :
  started_action started = HostInstall →
  record_state (complete next started (started_result started HostSucceeded (Some 0) "" now))
  = StateApplied (started_release started).
Proof. intros Ha. unfold complete. by rewrite Ha. Qed.

Lemma health_completes next started now :
  started_action started = HostHealth → last_started next = Some started →
  record_state next = StateApplied (started_release started) →
  let r := complete next started (started_result started HostSucceeded (Some 0) "" now) in
  record_state r = StateApplied (started_release started)
  ∧ is_last_health_ok r (started_release started) = true.
Proof.
  intros Ha Hl Hs. unfold complete, is_last_health_ok. rewrite Ha. simpl. rewrite Hl. split; [done|].
  by rewrite !bool_decide_eq_true_2.
Qed.

(** C27: the planner and the root-side applier agree on host steps.  The
    install step the planner binds from the applier's record, and the
    health step it adds, pass the applier's record checks one after the
    other on that record (given the approvals a release at or below the
    high-water mark needs), and once both succeeded the planner finds the
    product converged on the desired release. *)
Theorem planned_host_steps_converge ctx executors env s m bound vs r group now :
  readable_manifest ctx (step_release_id s) = Some m → deploy_executor m = Some Host →
  step_host s = None → step_action s ≠ Restart → step_action s ≠ Remove →
  bind_host_step ctx executors env s = Ok bound →
  host_record executors env (step_product s) = Ok r →
  record_environment r = env → record_product r = step_product s →
  record_generation r < u64_max →
  Forall2 (verifies env) bound vs →
  (∀ v mark, v ∈ vs → high_water r = Some mark →
     is_newer (step_to s) (hr_version mark) = true
     ∨ approvals_require (v_approvals v) (downgrade_purpose v) = Ok tt) →
  ∃ r', run_host_steps r vs group now = Ok r'
        ∧ host_progress r' (step_to s) (declares_health m) = Converged.
Proof.
  intros Hm He Hh Hr Hrm Hb Hrec <- Hp Hg Hvs Hw.
  destruct (bind_install _ _ _ _ _ _ Hm He Hh Hr Hrm Hb) as (r0 & action & Hrec' & ->).
  rewrite Hrec in Hrec'. injection Hrec' as <-.
  apply Forall2_cons_inv_l in Hvs as (v & vs' & Hv & Hrest & ->).
  destruct (install_admitted r v _ group now Hv Hp eq_refl Hg (host_source_recorded r _))
    as (started & next & Hadm & Hsa & Hsr & Hne & Hnp & Hng); [intros mark; apply Hw; left|].
  simpl. rewrite Hadm. simpl.
  set (r1 := complete next started _).
  assert (record_state r1 = StateApplied (v_release v)) as Hs1
    by (rewrite <- Hsr; by apply install_completes).
  assert (v_release v = {| hr_version := step_to s; hr_manifest_digest := step_release_digest s |})
    as Hvr by apply Hv.
  destruct (declares_health m) eqn:Hdh.
  - apply Forall2_cons_inv_l in Hrest as (w & vs & Hwv & Hnil & ->).
    apply Forall2_nil_inv_l in Hnil as ->.
    assert (v_release w = v_release v) as Hwr by (rewrite Hvr; apply Hwv).
    rewrite <- Hne in Hwv.
    destruct (health_admitted r1 w _ group now Hwv) as (started' & next' & Hadm' & Ha' & Hr' & Hst & Hl);
      [| |done|by rewrite Hs1, Hwr|].
    + change (record_product r1) with (record_product next). by rewrite Hnp.
    + change (record_generation r1) with (record_generation next). simpl. by rewrite Hng.
    + simpl. rewrite Hadm'. simpl. eexists. split; [done|].
      destruct (health_completes next' started' now) as [Hf Hok]; [done|done| |].
      { by rewrite Hst, Hs1, Hr', Hwr. }
      unfold host_progress. rewrite Hf, decide_True by by rewrite Hr', Hwr, Hvr.
      by rewrite Hok.
  - apply Forall2_nil_inv_l in Hrest as ->. exists r1. split; [done|].
    unfold host_progress. by rewrite Hs1, decide_True by by rewrite Hvr.
Qed.

(** What a step of a host release is bound to, on the record of its
    product. *)
Inductive bound_to (r : AppliedStateRecord) (s b : Step) : Prop :=
| BoundInstall :
    step_host s = None → step_action s ≠ Restart → step_action s ≠ Remove →
    step_action b ≠ Restart → step_action b ≠ Remove →
    (step_action s = Rollback ↔ step_action b = Rollback) →
    step_from b = host_source r (step_from s) → step_restore b = None →
    step_host b = Some {| host_action := HostInstall; expected_generation := record_generation r |} →
    bound_to r s b
| BoundHealthAfter :
    step_host s = None → (step_action b = Restart ∨ step_action b = Rollback) →
    step_from b = Some (step_to s) → step_restore b = None → record_generation r + 1 ≤ u64_max →
    step_host b = Some {| host_action := HostHealth; expected_generation := record_generation r + 1 |} →
    bound_to r s b
| BoundUninstall :
    step_host s = None → step_action s = Remove → step_action b = Remove →
    step_from b = Some (step_to s) → step_restore b = None →
    step_host b = Some {| host_action := HostUninstall; expected_generation := record_generation r |} →
    bound_to r s b
| BoundHealthAlone g :
    step_host s = Some {| host_action := HostHealth; expected_generation := g |} →
    step_action b = step_action s → step_from b = step_from s →
    step_host b = Some {| host_action := HostHealth; expected_generation := record_generation r |} →
    bound_to r s b.

Lemma classify_change_update current desired :
  classify_change current desired = Downgrade ∨ classify_change current desired = Upgrade.
Proof.
  unfold classify_change. destruct (Version_parse current), (Version_parse desired); try by right.
  destruct (version_lt _ _); auto.
Qed.

Lemma bind_host_step_bound ctx executors env s out b :
  bind_host_step ctx executors env s = Ok out → b ∈ out →
  is_host_release ctx (step_release_id s) = true →
  ∃ r, host_record executors env (step_product s) = Ok r ∧ bound_to r s b
       ∧ step_release_id b = step_release_id s ∧ step_to b = step_to s.
Proof.
  unfold bind_host_step, is_host_release.
  destruct (readable_manifest ctx (step_release_id s)) as [m|]; [|done]. simpl.
  intros H Hb Hh. rewrite bool_decide_eq_true in Hh. rewrite decide_False in H by tauto.
  ok_inv H. exists x0. split; [done|]. destruct (step_host s) as [[[] g]|] eqn:Hs; try done.
  { injection H as <-. apply list_elem_of_singleton in Hb as ->. split; [|done].
    by eapply BoundHealthAlone. }
  case_decide as Hr; [done|]. case_decide as Hm.
  { injection H as <-. apply list_elem_of_singleton in Hb as ->. split; [|done].
    by apply BoundUninstall. }
  set (action := if decide (step_action s = Rollback) then Rollback else _) in H.
  assert (action ≠ Restart ∧ action ≠ Remove ∧ (step_action s = Rollback ↔ action = Rollback))
    as (Ha1 & Ha2 & Ha3).
  { clear H. unfold action. case_decide as Hrb; [naive_solver|].
    destruct (host_source x0 (step_from s)) as [c|]; [|done].
    by destruct (classify_change_update c (step_to s)) as [-> | ->]. }
  assert (bound_to x0 s (rebind s action (host_source x0 (step_from s)) None
    (Some {| host_action := HostInstall; expected_generation := record_generation x0 |}))) as Hi
    by by apply BoundInstall.
  destruct (declares_health m).
  2: { injection H as <-. by apply list_elem_of_singleton in Hb as ->. }
  ok_inv H. unfold u64_checked_add in Hg1. destruct (Z.leb_spec (record_generation x0 + 1) u64_max); [|done].
  injection Hg1 as <-. injection H as <-.
  apply elem_of_cons in Hb as [->|Hb%list_elem_of_singleton]; [done|subst b]. split; [|done].
  apply BoundHealthAfter; [done| |done..]. simpl. case_decide; auto.
Qed.

Lemma bind_other_step ctx executors env s out b :
  bind_host_step ctx executors env s = Ok out → b ∈ out →
  is_host_release ctx (step_release_id s) = false →
  b = s ∧ (is_Some (readable_manifest ctx (step_release_id s)) → step_action s ≠ Remove).
Proof.
  unfold bind_host_step, is_host_release.
  destruct (readable_manifest ctx (step_release_id s)) as [m|]; simpl.
  - rewrite bool_decide_eq_false. intros H Hb Hh. rewrite decide_True in H by done.
    ok_inv H. injection H as <-. by apply list_elem_of_singleton in Hb as ->.
  - intros [= <-] ->%list_elem_of_singleton _. split; [done|]. by intros [? ?].
Qed.

Lemma bind_host_steps_elem ctx executors env l bound b :
  bind_host_steps ctx executors env l = Ok bound → b ∈ bound →
  ∃ s out, s ∈ l ∧ bind_host_step ctx executors env s = Ok out ∧ b ∈ out.
Proof.
  unfold bind_host_steps. intros H Hb.
  enough (b ∈ ([] : list Step) ∨ ∃ s out, s ∈ l ∧ bind_host_step ctx executors env s = Ok out ∧ b ∈ out)
    as [?%elem_of_nil|?] by done.
  revert H. generalize ([] : list Step). induction l as [|s l IH]; intros acc; simpl.
  { intros [= ->]. by left. }
  intros (acc' & (out & Ho & [= <-])%bind_ok & Hf)%bind_ok.
  destruct (IH _ Hf) as [[?|?]%elem_of_app|(s' & o' & ? & ?)]; [by left| |].
  - right. exists s, out. split; [left|done].
  - right. exists s', o'. split; [by right|done].
Qed.

(** Binding leaves every step of a release that is not a host release
    as it was, and refuses to remove one; each step of a host release
    becomes an install from what the applier's record holds at the
    record's generation and without a restore pin, followed by a health
    step at the generation the install leaves, or an uninstall, or the
    outstanding health step, at the record's generation. *)
Theorem bind_host_steps_bound ctx executors env l bound b :
  bind_host_steps ctx executors env l = Ok bound → b ∈ bound →
  ∃ s, s ∈ l ∧ step_release_id b = step_release_id s ∧ step_to b = step_to s
    ∧ if is_host_release ctx (step_release_id s)
      then ∃ r, host_record executors env (step_product s) = Ok r ∧ bound_to r s b
      else b = s ∧ (is_Some (readable_manifest ctx (step_release_id s)) → step_action s ≠ Remove).
Proof.
  intros H Hb. destruct (bind_host_steps_elem _ _ _ _ _ _ H Hb) as (s & out & Hs & Ho & Hbo).
  exists s. split; [done|]. destruct (is_host_release ctx (step_release_id s)) eqn:Hh.
  - destruct (bind_host_step_bound _ _ _ _ _ _ Ho Hbo Hh) as (r & Hr & Hbd & H1 & H2). by eauto 10.
  - destruct (bind_other_step _ _ _ _ _ _ Ho Hbo Hh) as [-> Hrm]. done.
Qed.
End Agreement.

Module HostStepExamples.
#[local] Existing Instance PlainSemver.instance.
#[local] Existing Instance VerifyExamples.kernel_manifest.

Definition record : AppliedStateRecord := {|
  record_environment := "prod"; record_product := "kernel"; record_generation := 4;
  record_state := StateApplied {| hr_version := "1.0.0"; hr_manifest_digest := "d1" |};
  high_water := Some {| hr_version := "1.0.0"; hr_manifest_digest := "d1" |};
  last_started := None; last_result := None |}.

Definition executors : Executors := {|
  default_kind := None; default_adapter := None; declared := [];
  host_executor := Ok {| applied_state _ _ := Some record; applied_states _ := Some [record] |};
  process_default_error := None |}.

Definition object (id : string) (ps : gmap string string) : Object := {|
  object_id := id; object_kind := ""; object_name := ""; object_namespace := "tenkai";
  external_id := ""; properties := ps; created := 0; updated := 0 |}.

Definition ctx : Ctx := {|
  objects := {["tenkai:env:prod" := object "tenkai:env:prod" {["deployed.kernel" := "1.0.0"]};
               "tenkai:release:kernel@2.0.0" :=
                 object "tenkai:release:kernel@2.0.0" {["manifest" := "kernel"]}]};
  catalog_links := [] |}.

Definition planned : Step := {|
  step_id := ""; step_order := 0; step_product := "kernel"; step_instance := "";
  step_action := Install; step_from := Some "1.0.0"; step_to := "2.0.0";
  step_release_id := "tenkai:release:kernel@2.0.0"; step_release_digest := "d2";
  step_artifact_digest := "a"; step_workdir := ""; step_restore := None; step_host := None |}.

Definition bound : list Step :=
  match bind_host_step ctx executors "prod" planned with Ok l => l | Err _ => [] end.

Definition verified (action : HostAction) (g : Z) (from : string) : VerifiedHostStep := {|
  v_instance := "i"; v_plan_id := "p"; v_plan_digest := ""; v_environment := "prod";
  v_product := "kernel"; v_step_id := ""; v_step_action := Upgrade; v_action := action;
  v_expected_generation := g; v_from := Some from;
  v_release := {| hr_version := "2.0.0"; hr_manifest_digest := "d2" |};
  v_approvals := {| approval_rules _ := []; candidates := []; rejected := [] |};
  v_purposes := [] |}.

Lemma planned_host_steps_converge_witness :
  ∃ r', run_host_steps record [verified HostInstall 4 "1.0.0"; verified HostHealth 5 "2.0.0"] None 9
        = Ok r' ∧ host_progress r' "2.0.0" true = Converged.
Proof.
  refine (planned_host_steps_converge ctx executors "prod" planned
            {| compatibility := None; product_name := "kernel"; product_version := "2.0.0";
               product_kind := Software; deploy_install := "apply"; deploy_uninstall := None;
               deploy_executor := Some Host; deploy_health := Some "probe";
               deploy_instances := One; requirements := None; artifacts := [] |}
            bound [verified HostInstall 4 "1.0.0"; verified HostHealth 5 "2.0.0"] record None 9
            _ _ _ _ _ _ _ _ _ _ _ _).
  1-3: vm_compute; reflexivity.
  1-2: discriminate.
  1-5: vm_compute; reflexivity.
  - constructor; [split; reflexivity|]. constructor; [split; reflexivity|constructor].
  - intros v mark _ [= <-]. left. vm_compute. reflexivity.
Defined.

Lemma bind_host_steps_bound_witness :
  ∃ b s, b ∈ bound ∧ s = planned ∧ step_release_id b = step_release_id s
         ∧ ∃ r, host_record executors "prod" (step_product s) = Ok r ∧ bound_to r s b.
Proof.
  assert (Hb : bind_host_steps ctx executors "prod" [planned] = Ok bound)
    by (vm_compute; reflexivity).
  destruct (bind_host_steps_bound ctx executors "prod" [planned] bound
              (rebind planned Upgrade (Some "1.0.0") None
                 (Some {| host_action := HostInstall; expected_generation := 4 |}))
              Hb ltac:(apply list_elem_of_here)) as (s & Hs & Hr & _ & Hbd).
  apply list_elem_of_singleton in Hs as ->.
  eexists _, planned. split; [apply list_elem_of_here|]. split; [reflexivity|].
  split; [exact Hr|exact Hbd].
Defined.
End HostStepExamples.
