(* ===== verification/Holds.v ===== *)
(** * Dependency holds

    [environment.rs]: a reconcile that waits for an unmet contract records
    the hold as three properties of the environment, keeps its first time
    while nothing changes, and clears it once the release proceeds. *)

From S2P Require Import Prelude RustStr Plan Catalog.

Record DependencyHold := {
  hold_release : string;
  hold_contracts : list (string * string);
  held_at : Z
}.

Record DependencyHoldWrite := {
  write_release : string;
  write_contracts : list (string * string)
}.

Definition dependency_hold_key (product : string) : string := "dependency_hold." +:+ product.
Definition dependency_hold_contracts_key (product : string) : string :=
  "dependency_hold_contracts." +:+ product.
Definition dependency_hold_at_key (product : string) : string := "dependency_hold_at." +:+ product.

(** The [contract=minimum] parts of the stored list. *)
Fixpoint parse_hold_contracts (parts : list string) : option (list (string * string)) :=
  match parts with
  | [] => Some []
  | part :: rest =>
    '(contract, minimum) ← split_once "=" part;
    if str_is_empty contract || str_is_empty minimum then None
    else contracts ← parse_hold_contracts rest; Some ((contract, minimum) :: contracts)
  end.

Definition dependency_hold (ps : gmap string string) (product : string) : option DependencyHold :=
  release ← ps !! dependency_hold_key product;
  if str_is_empty release then None
  else
    raw ← ps !! dependency_hold_contracts_key product;
    contracts ← parse_hold_contracts (split_on "," raw);
    match contracts with
    | [] => None
    | _ =>
      at_raw ← ps !! dependency_hold_at_key product;
      at_ms ← parse_i64 at_raw;
      Some {| hold_release := release; hold_contracts := contracts; held_at := at_ms |}
    end.

Definition hold_part (entry : string * string) : string := entry.1 +:+ "=" +:+ entry.2.

Definition same_hold (ps : gmap string string) (product release : string)
    (contracts : list (string * string)) : bool :=
  is_some_and (dependency_hold ps product)
    (λ h, bool_decide (hold_release h = release) && bool_decide (hold_contracts h = contracts)).

(** [record_dependency_hold]: the new properties, and whether they changed. *)
Definition record_dependency_hold (ps : gmap string string) (product release : string)
    (contracts : list (string * string)) (now_ms : Z) : gmap string string * bool :=
  if same_hold ps product release contracts then (ps, false)
  else
    (<[dependency_hold_at_key product := pretty now_ms]>
       (<[dependency_hold_contracts_key product := String.concat "," (hold_part <$> contracts)]>
          (<[dependency_hold_key product := release]> ps)), true).

(** [clear_dependency_hold]. *)
Definition clear_dependency_hold (ps : gmap string string) (product : string) :
    gmap string string * bool :=
  (delete (dependency_hold_at_key product)
     (delete (dependency_hold_contracts_key product) (delete (dependency_hold_key product) ps)),
   is_some_b (ps !! dependency_hold_key product)
   || is_some_b (ps !! dependency_hold_contracts_key product)
   || is_some_b (ps !! dependency_hold_at_key product)).

Definition clear_one (sets : gmap string DependencyHoldWrite) (st : gmap string string * bool)
    (product : string) : gmap string string * bool :=
  match sets !! product with
  | Some _ => st
  | None =>
    let '(ps, changed) := clear_dependency_hold st.1 product in (ps, st.2 || changed)
  end.

Definition set_one (now : Z) (st : gmap string string * bool)
    (entry : string * DependencyHoldWrite) : gmap string string * bool :=
  let '(ps, changed) :=
    record_dependency_hold st.1 entry.1 (write_release entry.2) (write_contracts entry.2) now in
  (ps, st.2 || changed).

Definition updated_holds (ps : gmap string string) (sets : gmap string DependencyHoldWrite)
    (clears : gset string) (now : Z) : gmap string string * bool :=
  foldl (set_one now) (foldl (clear_one sets) (ps, false) (btree_set_iter clears)) (btree_iter sets).

(** [persist_dependency_holds]: reload the environment, change only its
    holds, and write it back when they changed. *)
Definition persist_dependency_holds (ctx : Ctx) (env : string)
    (sets : gmap string DependencyHoldWrite) (clears : gset string) (now : Z) :
    result Ctx planning_error :=
  if bool_decide (sets = ∅) && bool_decide (clears = ∅) then Ok ctx
  else
    let? env_obj := environment ctx env in
    let '(ps, changed) := updated_holds (properties env_obj) sets clears now in
    if changed then
      Ok (ctx_put ctx {| object_id := object_id env_obj; object_kind := object_kind env_obj;
                         object_name := object_name env_obj;
                         object_namespace := object_namespace env_obj;
                         external_id := external_id env_obj; properties := ps;
                         created := created env_obj; updated := now |})
    else Ok ctx.

(** ** One product's hold *)

(** A hold the properties can store: the separators of the encoding do not
    occur in its parts. *)
Record storable (release : string) (contracts : list (string * string)) : Prop := {
  storable_release : release ≠ "";
  storable_some : contracts ≠ [];
  storable_parts c m : (c, m) ∈ contracts →
    c ≠ "" ∧ m ≠ "" ∧ lacks "=" c = true ∧ lacks "," c = true ∧ lacks "," m = true
}.

Definition is_hold_key (k product : string) : Prop :=
  k = dependency_hold_key product ∨ k = dependency_hold_contracts_key product
  ∨ k = dependency_hold_at_key product.

(** Properties that agree on everything but the hold of one product. *)
Definition same_but_hold (product : string) (ps ps' : gmap string string) : Prop :=
  ∀ k, ¬ is_hold_key k product → ps' !! k = ps !! k.

Lemma hold_keys_distinct p :
  dependency_hold_key p ≠ dependency_hold_contracts_key p
  ∧ dependency_hold_key p ≠ dependency_hold_at_key p
  ∧ dependency_hold_contracts_key p ≠ dependency_hold_at_key p.
Proof. repeat split; intros H; discriminate H. Qed.

Lemma is_hold_key_other k p q : is_hold_key k p → is_hold_key k q → p = q.
Proof. intros [->|[->| ->]] [H|[H|H]]; simplify_eq/=; done. Qed.

Lemma parse_hold_parts release contracts :
  storable release contracts →
  parse_hold_contracts (hold_part <$> contracts) = Some contracts.
Proof.
  intros [_ _ Hp]. induction contracts as [|[c m] l IH]; [done|].
  rewrite fmap_cons. cbn [parse_hold_contracts].
  destruct (Hp c m) as (Hc & Hm & He & _); [left|].
  change (hold_part (c, m)) with (c +:+ String "=" m)%string.
  rewrite split_once_lacks by done. cbn [mbind option_bind].
  destruct c; [done|]. destruct m; [done|]. cbn [str_is_empty orb].
  rewrite IH; [done|]. intros c' m' Hin. apply Hp. by right.
Qed.

Lemma split_hold_parts release contracts :
  storable release contracts →
  split_on "," (String.concat "," (hold_part <$> contracts)) = hold_part <$> contracts.
Proof.
  intros [_ Hn Hp]. apply split_on_concat; [by destruct contracts|].
  intros s ([c m] & -> & Hin)%list_elem_of_fmap. unfold hold_part; simpl.
  destruct (Hp c m Hin) as (_ & _ & _ & Hc & Hm).
  rewrite lacks_app, Hc. change (lacks "," (String "=" m) = true). by apply lacks_cons.
Qed.

Lemma dependency_hold_ext ps ps' product :
  (∀ k, is_hold_key k product → ps' !! k = ps !! k) →
  dependency_hold ps' product = dependency_hold ps product.
Proof.
  intros H. unfold dependency_hold.
  rewrite !H by (unfold is_hold_key; naive_solver). done.
Qed.

Lemma same_but_hold_other product q ps ps' :
  q ≠ product → same_but_hold product ps ps' → dependency_hold ps' q = dependency_hold ps q.
Proof.
  intros Hne Hs. apply dependency_hold_ext. intros k Hk. apply Hs.
  intros Hk'. by apply Hne, (is_hold_key_other k).
Qed.

(** The hold a reconcile leaves: the old one when it says the same. *)
Definition resulting_hold (ps : gmap string string) (product release : string)
    (contracts : list (string * string)) (now : Z) : DependencyHold :=
  {| hold_release := release; hold_contracts := contracts;
     held_at := if same_hold ps product release contracts
                then default now (held_at <$> dependency_hold ps product) else now |}.

Lemma record_hold_reads ps product release contracts now :
  storable release contracts → i64_min ≤ now ≤ i64_max →
  dependency_hold (record_dependency_hold ps product release contracts now).1 product
  = Some (resulting_hold ps product release contracts now).
Proof.
  intros Hs Hnow. unfold resulting_hold, record_dependency_hold.
  destruct (same_hold ps product release contracts) eqn:E; simpl.
  - unfold same_hold in E. destruct (dependency_hold ps product) as [[r c a]|]; [|done].
    simpl in *. apply andb_true_iff in E as [?%bool_decide_eq_true ?%bool_decide_eq_true].
    by subst.
  - destruct (hold_keys_distinct product) as (H1 & H2 & H3). unfold dependency_hold.
    simplify_map_eq. destruct release; [by destruct Hs|]. simpl.
    rewrite (split_hold_parts _ _ Hs), (parse_hold_parts _ _ Hs). simpl.
    destruct contracts; [by destruct Hs|]. by rewrite parse_i64_pretty.
Qed.

Lemma record_hold_frame ps product release contracts now :
  same_but_hold product ps (record_dependency_hold ps product release contracts now).1.
Proof.
  intros k Hk. unfold record_dependency_hold. destruct (same_hold _ _ _ _); [done|]. simpl.
  rewrite !lookup_insert_ne by (unfold is_hold_key in Hk; naive_solver). done.
Qed.

Lemma clear_hold_none ps product :
  dependency_hold (clear_dependency_hold ps product).1 product = None.
Proof.
  destruct (hold_keys_distinct product) as (H1 & H2 & H3). unfold dependency_hold; simpl.
  by simplify_map_eq.
Qed.

Lemma clear_hold_frame ps product : same_but_hold product ps (clear_dependency_hold ps product).1.
Proof.
  intros k Hk. simpl. rewrite !lookup_delete_ne by (unfold is_hold_key in Hk; naive_solver). done.
Qed.

Lemma record_hold_unchanged ps product release contracts now ps' :
  record_dependency_hold ps product release contracts now = (ps', false) → ps' = ps.
Proof. unfold record_dependency_hold. destruct (same_hold _ _ _ _); naive_solver. Qed.

Lemma clear_hold_unchanged ps product ps' :
  clear_dependency_hold ps product = (ps', false) → ps' = ps.
Proof.
  unfold clear_dependency_hold. intros [= <- [[H1 H2]%orb_false_iff H3]%orb_false_iff].
  assert (∀ k, is_some_b (ps !! k) = false → ps !! k = None) as Hn by (intros k; by destruct (ps !! k)).
  rewrite (delete_id ps) by auto. rewrite (delete_id ps) by auto. by apply delete_id; auto.
Qed.

(** ** All holds of a reconcile *)

Definition no_hold_key (k : string) : Prop := ∀ p, ¬ is_hold_key k p.

Lemma clear_all_holds sets l ps :
  let ps' := (foldl (clear_one sets) (ps, false) l).1 in
  (∀ p, p ∈ l → sets !! p = None → dependency_hold ps' p = None)
  ∧ (∀ p, p ∉ l ∨ is_Some (sets !! p) → dependency_hold ps' p = dependency_hold ps p)
  ∧ (∀ k, no_hold_key k → ps' !! k = ps !! k).
Proof.
  induction l as [|q l (IHn & IHs & IHf)] using rev_ind; simpl in *; [set_solver|].
  rewrite foldl_snoc. destruct (foldl _ _ l) as [acc ch]; simpl in *.
  unfold clear_one; simpl.
  destruct (sets !! q) eqn:E; simpl.
  - split; [|split]; [| |exact IHf].
    + intros p Hp Hn. apply IHn; [|done]. apply elem_of_app in Hp as [?|?]; [done|set_solver].
    + intros p [Hp|Hp]; apply IHs; set_solver.
  - pose proof (clear_hold_frame acc q) as Hf.
    split; [|split].
    + intros p Hp Hn. destruct (decide (p = q)) as [->|Hne]; [by apply clear_hold_none|].
      rewrite (same_but_hold_other q p acc) by done. apply IHn; set_solver.
    + intros p Hp. assert (p ≠ q) as Hne by (intros ->; destruct Hp as [?|[? ?]]; set_solver).
      rewrite (same_but_hold_other q p acc) by done. apply IHs; set_solver.
    + intros k Hk. rewrite Hf by apply Hk. by apply IHf.
Qed.

Lemma resulting_hold_ext ps ps' product release contracts now :
  dependency_hold ps' product = dependency_hold ps product →
  resulting_hold ps' product release contracts now = resulting_hold ps product release contracts now.
Proof. intros H. unfold resulting_hold, same_hold. by rewrite H. Qed.

Lemma set_all_holds now l st :
  i64_min ≤ now ≤ i64_max → NoDup l.*1 →
  (∀ p w, (p, w) ∈ l → storable (write_release w) (write_contracts w)) →
  let ps' := (foldl (set_one now) st l).1 in
  (∀ p w, (p, w) ∈ l →
     dependency_hold ps' p
     = Some (resulting_hold st.1 p (write_release w) (write_contracts w) now))
  ∧ (∀ p, p ∉ l.*1 → dependency_hold ps' p = dependency_hold st.1 p)
  ∧ (∀ k, no_hold_key k → ps' !! k = st.1 !! k).
Proof.
  intros Hnow. induction l as [|[q w] l IH] using rev_ind; simpl; [set_solver|].
  rewrite fmap_app. simpl. intros (Hnd & Hdj & _)%NoDup_app Hst.
  destruct IH as (IHw & IHs & IHf); [done|set_solver|]. rewrite foldl_snoc.
  destruct (foldl (set_one now) st l) as [acc ch]; simpl in *.
  assert (q ∉ l.*1) as Hq by (intros Hq; by apply (Hdj q Hq), list_elem_of_singleton).
  pose proof (record_hold_frame acc q (write_release w) (write_contracts w) now) as Hf.
  pose proof (record_hold_reads acc q (write_release w) (write_contracts w) now) as Hr.
  unfold set_one; simpl in *. destruct (record_dependency_hold _ _ _ _ _) as [ps2 c2]; simpl in *.
  split; [|split].
  - intros p v [Hin|[= -> ->]%list_elem_of_singleton]%elem_of_app.
    + rewrite (same_but_hold_other q p acc); [by apply IHw| |done].
      intros ->. apply Hq. by apply (list_elem_of_fmap_2 fst) in Hin.
    + rewrite Hr by (try done; apply (Hst q w); set_solver).
      f_equal. by apply resulting_hold_ext, IHs.
  - intros p Hp. rewrite (same_but_hold_other q p acc); [apply IHs; set_solver|set_solver|done].
  - intros k Hk. rewrite Hf by apply Hk. by apply IHf.
Qed.

Lemma clear_one_unchanged sets st p :
  (clear_one sets st p).2 = false → st.2 = false ∧ (clear_one sets st p).1 = st.1.
Proof.
  unfold clear_one. destruct (sets !! p); [done|].
  destruct (clear_dependency_hold st.1 p) as [ps c] eqn:E. simpl.
  intros [? ->]%orb_false_iff. split; [done|]. by apply clear_hold_unchanged in E.
Qed.

Lemma set_one_unchanged now st e :
  (set_one now st e).2 = false → st.2 = false ∧ (set_one now st e).1 = st.1.
Proof.
  unfold set_one. destruct (record_dependency_hold _ _ _ _ _) as [ps c] eqn:E. simpl.
  intros [? ->]%orb_false_iff. split; [done|]. by apply record_hold_unchanged in E.
Qed.

Lemma foldl_unchanged {A} (body : gmap string string * bool → A → gmap string string * bool) l st :
  (∀ st a, (body st a).2 = false → st.2 = false ∧ (body st a).1 = st.1) →
  (foldl body st l).2 = false → st.2 = false ∧ (foldl body st l).1 = st.1.
Proof.
  intros Hb. revert st. induction l as [|a l IH]; intros st; [done|]. simpl.
  intros [H ->]%IH. by apply Hb.
Qed.

Lemma updated_holds_unchanged ps sets clears now :
  (updated_holds ps sets clears now).2 = false → (updated_holds ps sets clears now).1 = ps.
Proof.
  unfold updated_holds. intros [H ->]%(foldl_unchanged _ _ _ (set_one_unchanged now)).
  by apply (foldl_unchanged _ _ _ (clear_one_unchanged sets)) in H as [_ ->].
Qed.

(** What the holds of an environment are after a reconcile. *)
Record holds_written (ps ps' : gmap string string) (sets : gmap string DependencyHoldWrite)
    (clears : gset string) (now : Z) : Prop := {
  written_set p w : sets !! p = Some w →
    dependency_hold ps' p = Some (resulting_hold ps p (write_release w) (write_contracts w) now);
  written_clear p : p ∈ clears → sets !! p = None → dependency_hold ps' p = None;
  written_kept p : p ∉ clears → sets !! p = None → dependency_hold ps' p = dependency_hold ps p;
  written_frame k : no_hold_key k → ps' !! k = ps !! k
}.

Lemma updated_holds_written ps sets clears now :
  i64_min ≤ now ≤ i64_max →
  (∀ p w, sets !! p = Some w → storable (write_release w) (write_contracts w)) →
  holds_written ps (updated_holds ps sets clears now).1 sets clears now.
Proof.
  intros Hnow Hst. unfold updated_holds.
  destruct (clear_all_holds sets (btree_set_iter clears) ps) as (Hn & Hs & Hf).
  destruct (set_all_holds now (btree_iter sets)
              (foldl (clear_one sets) (ps, false) (btree_set_iter clears)))
    as (Hw & Hk & Hg); [done|apply btree_iter_keys_NoDup| |].
  { intros p w Hin%elem_of_btree_iter. by apply Hst with p. }
  assert (∀ p, sets !! p = None → p ∉ (btree_iter sets).*1) as Hnin.
  { intros p Hp ([q w] & -> & Hin%elem_of_btree_iter)%list_elem_of_fmap. simpl in *. congruence. }
  split.
  - intros p w Hpw. rewrite (Hw p w) by by apply elem_of_btree_iter.
    f_equal. apply resulting_hold_ext, Hs. right. by exists w.
  - intros p Hp Hnone. rewrite Hk by auto. apply Hn; [|done]. by apply elem_of_btree_set_iter.
  - intros p Hp Hnone. rewrite Hk by auto. apply Hs. left. by rewrite elem_of_btree_set_iter.
  - intros k Hnk. rewrite Hg by done. by apply Hf.
Qed.

Lemma holds_written_none ps now : holds_written ps ps ∅ ∅ now.
Proof. split; set_solver. Qed.

(** Objects of the store are filed under their own ids. *)
Definition keyed (ctx : Ctx) : Prop := ∀ id o, ctx_get ctx id = Some o → object_id o = id.

(** [persist_dependency_holds] writes exactly the holds a reconcile
    decided: each set hold reads back as its release and contracts, with its
    first time when the same hold was already recorded; each cleared product
    has none; every other hold, property and object is as before. *)
Theorem persist_dependency_holds_exact ctx env sets clears now ctx' :
  keyed ctx → i64_min ≤ now ≤ i64_max →
  (∀ p w, sets !! p = Some w → storable (write_release w) (write_contracts w)) →
  persist_dependency_holds ctx env sets clears now = Ok ctx' →
  keyed ctx'
  ∧ catalog_links ctx' = catalog_links ctx
  ∧ (∀ id, id ≠ env_id env → ctx_get ctx' id = ctx_get ctx id)
  ∧ (∀ o, environment ctx env = Ok o →
     ∃ o', environment ctx' env = Ok o'
           ∧ holds_written (properties o) (properties o') sets clears now).
Proof.
  intros Hkey Hnow Hst. unfold persist_dependency_holds.
  destruct (bool_decide (sets = ∅) && bool_decide (clears = ∅)) eqn:E.
  { apply andb_true_iff in E as [->%bool_decide_eq_true ->%bool_decide_eq_true].
    intros [= <-]. split_and!; [done|done|done|]. intros o Ho. exists o.
    split; [done|apply holds_written_none]. }
  intros (v & [Hv Hg]%environment_ok & H)%bind_ok. setoid_rewrite environment_ok.
  pose proof (updated_holds_written (properties v) sets clears now Hnow Hst) as Hw.
  pose proof (updated_holds_unchanged (properties v) sets clears now) as Hun.
  destruct (updated_holds _ _ _ _) as [ps ch]; simpl in *.
  assert (object_id v = env_id env) as Hid by by apply Hkey.
  destruct ch; simplify_eq/=.
  - split_and!; [| done | |]; unfold ctx_get, ctx_put; simpl; rewrite Hid.
    + intros id o. unfold ctx_get; simpl. rewrite lookup_insert_Some.
      intros [[<- <-]|[_ Ho]]; [done|by apply Hkey].
    + intros id Hne. by rewrite lookup_insert_ne.
    + intros o [_ Ho]. unfold ctx_get in Hg. simplify_eq. rewrite lookup_insert_eq. by eauto.
  - split_and!; [done|done|done|]. intros o [_ Ho]. simplify_eq. exists v.
    by rewrite <-(Hun eq_refl) at 2.
Qed.

Module HoldExamples.
Definition prod : Object := {|
  object_id := "tenkai:env:prod"; object_kind := "tenkai.environment"; object_name := "prod";
  object_namespace := "tenkai"; external_id := "";
  properties := {["deployed.web" := "1.0.0"; "dependency_hold.old" := "tenkai:release:old@2.0.0"]};
  created := 1; updated := 1 |}.

Definition before : Ctx := {| objects := {["tenkai:env:prod" := prod]}; catalog_links := [] |}.

Definition web_hold : DependencyHoldWrite :=
  {| write_release := "tenkai:release:web@2.0.0"; write_contracts := [("db", "1.2.0"); ("mq", "3.0.0")] |}.

Definition after : Ctx :=
  match persist_dependency_holds before "prod" {["web" := web_hold]} {["old"]} 77 with
  | Ok ctx => ctx
  | Err _ => before
  end.

Lemma before_keyed : keyed before.
Proof.
  intros id o. unfold ctx_get; simpl. rewrite lookup_singleton_Some. by intros [<- <-].
Qed.

Lemma web_storable p w :
  ({["web" := web_hold]} : gmap string DependencyHoldWrite) !! p = Some w →
  storable (write_release w) (write_contracts w).
Proof.
  rewrite lookup_singleton_Some. intros [_ <-]. split; [done|done|].
  intros c m [[= -> ->]|[[= -> ->]|[]%elem_of_nil]%elem_of_cons]%elem_of_cons; by vm_compute.
Qed.

Lemma persist_dependency_holds_exact_witness :
  (∀ id, id ≠ env_id "prod" → ctx_get after id = ctx_get before id)
  ∧ ∃ o', environment after "prod" = Ok o'
          ∧ dependency_hold (properties o') "web"
            = Some {| hold_release := "tenkai:release:web@2.0.0";
                      hold_contracts := [("db", "1.2.0"); ("mq", "3.0.0")]; held_at := 77 |}.
Proof.
  destruct (persist_dependency_holds_exact before "prod" {["web" := web_hold]} {["old"]} 77 after
              before_keyed ltac:(vm_compute; split; discriminate) web_storable
              ltac:(vm_compute; reflexivity)) as (_ & _ & Hf & He).
  split; [exact Hf|]. destruct (He prod ltac:(vm_compute; reflexivity)) as (o' & Ho & Hw).
  exists o'. split; [exact Ho|].
  exact (eq_trans (written_set _ _ _ _ _ Hw "web" web_hold ltac:(vm_compute; reflexivity))
           ltac:(vm_compute; reflexivity)).
Defined.
End HoldExamples.
