(* ===== verification/DependencyDocument.v ===== *)
(** * The dependency document of a release

    [dependency_document.rs]: which deployed release provides each contract a
    release requires, derived from the stored deployments (ADR 0043). *)

From S2P Require Import Prelude RustStr Semver Compatibility Plan Catalog.

Inductive DependencyContract :=
| Present (product release contract : string)
| Absent.

#[export] Instance DependencyContract_eq : EqDecision DependencyContract.
Proof. solve_decision. Defined.

(** [version] is [FORMAT_VERSION]. *)
Record DependencyDocument := {
  document_version : Z;
  document_contracts : gmap string DependencyContract
}.

#[export] Instance DependencyDocument_eq : EqDecision DependencyDocument.
Proof. solve_decision. Defined.

Definition FORMAT_VERSION : Z := 1.

Record MatchingProvider := {
  mp_product : string;
  mp_release : string;
  mp_contract : string
}.

(** [dedup_by]: drops an entry equal to the one kept just before it. *)
Fixpoint dedup_from {A} (same : A → A → bool) (kept : A) (l : list A) : list A :=
  match l with
  | [] => []
  | a :: l => if same a kept then dedup_from same kept l else a :: dedup_from same a l
  end.

Definition dedup_by {A} (same : A → A → bool) (l : list A) : list A :=
  match l with [] => [] | a :: l => a :: dedup_from same a l end.

Definition same_provider (l r : MatchingProvider) : bool :=
  bool_decide (mp_product l = mp_product r).

Notation DeployedSet := (gmap string (string * CompatibilityProfile)).

Section Documents.
Context {SV : Semver}.

(** The offer of the first component that satisfies a requirement, in
    component order; a version that does not parse on the way is an
    error. *)
Fixpoint first_offer (profile_version : Z) (contract : string)
    (requirement : ContractRequirement) (cs : list ComponentRequirement) :
    result (option string) planning_error :=
  match cs with
  | [] => Ok None
  | component :: rest =>
    match provides component !! contract with
    | None => first_offer profile_version contract requirement rest
    | Some value =>
      let? actual := ok_or (Version_parse value) (BadVersion value) in
      let? required := ok_or (Version_parse (minimum requirement))
                             (BadVersion (minimum requirement)) in
      if contract_satisfies profile_version actual required then Ok (Some value)
      else first_offer profile_version contract requirement rest
    end
  end.

Definition self_satisfies (profile : CompatibilityProfile) (contract : string)
    (requirement : ContractRequirement) : result bool planning_error :=
  let? offer := first_offer (version profile) contract requirement
                            (btree_values (components profile)) in
  Ok (is_some_b offer).

Definition add_provider (dependent contract : string) (requirement : ContractRequirement)
    (profile_version : Z) (acc : list MatchingProvider)
    (entry : string * (string * CompatibilityProfile)) :
    result (list MatchingProvider) planning_error :=
  let '(provider, (release, profile)) := entry in
  if decide (provider = dependent) then Ok acc
  else
    let? offer := first_offer profile_version contract requirement
                              (btree_values (components profile)) in
    Ok (match offer with
        | Some value =>
          acc ++ [{| mp_product := provider; mp_release := release; mp_contract := value |}]
        | None => acc
        end).

Definition matching_providers (dependent contract : string) (requirement : ContractRequirement)
    (profile_version : Z) (deployed : DeployedSet) :
    result (list MatchingProvider) planning_error :=
  let? matching := try_fold (add_provider dependent contract requirement profile_version) []
                            (btree_iter deployed) in
  Ok (dedup_by same_provider (sort_by (cmp_on mp_product String.compare) matching)).

(** Every requirement of a profile; of one contract the last component's. *)
Definition profile_requirements (profile : CompatibilityProfile) :
    gmap string ContractRequirement :=
  foldl (λ acc component,
    foldl (λ acc entry, <[entry.1 := entry.2]> acc) acc (btree_iter (requires component)))
    ∅ (btree_values (components profile)).

Definition document_entry (product : string) (profile : CompatibilityProfile)
    (deployed : DeployedSet) (acc : gmap string DependencyContract)
    (entry : string * ContractRequirement) :
    result (gmap string DependencyContract) planning_error :=
  let '(contract, requirement) := entry in
  let? own := self_satisfies profile contract requirement in
  if own : bool then Ok acc
  else
    let? matching := matching_providers product contract requirement (version profile) deployed in
    match matching with
    | [] =>
      if optional requirement then Ok (<[contract := Absent]> acc)
      else Err (AbsentContract contract product)
    | [provider] =>
      Ok (<[contract := Present (mp_product provider) (mp_release provider)
                                (mp_contract provider)]> acc)
    | _ => Err (AmbiguousContract contract product)
    end.

(** [document_for]. *)
Definition document_for (product : string) (profile : CompatibilityProfile)
    (deployed : DeployedSet) : result (option DependencyDocument) planning_error :=
  let requirements := profile_requirements profile in
  if bool_decide (requirements = ∅) then Ok None
  else
    let? contracts := try_fold (document_entry product profile deployed) ∅
                               (btree_iter requirements) in
    if bool_decide (contracts = ∅) then Ok None
    else Ok (Some {| document_version := FORMAT_VERSION; document_contracts := contracts |}).
End Documents.

(** [applied_digest]. *)
Definition applied_digest (o : Object) (product : string) : string :=
  property o ("applied_dependencies." +:+ product).

(** ** Providers *)

Lemma dedup_from_distinct {A} (same : A → A → bool) kept l :
  (∀ a, a ∈ l → same a kept = false) →
  (∀ i j a b, (i < j)%nat → l !! i = Some a → l !! j = Some b → same b a = false) →
  dedup_from same kept l = l.
Proof.
  revert kept. induction l as [|a l IH]; intros kept Hk Hd; [done|]. simpl.
  rewrite Hk by left. f_equal. apply IH.
  - intros b (j & Hj)%list_elem_of_lookup. by apply (Hd 0%nat (S j) a b); [lia| |].
  - intros i j b c Hij Hi Hj. apply (Hd (S i) (S j)); [lia|done|done].
Qed.

Lemma dedup_by_NoDup {A B} `{EqDecision B} (f : A → B) (l : list A) :
  NoDup (f <$> l) → dedup_by (λ a b, bool_decide (f a = f b)) l = l.
Proof.
  destruct l as [|a l]; [done|]. simpl. rewrite NoDup_cons. intros [Ha Hl]. f_equal.
  apply dedup_from_distinct.
  - intros b Hb. apply bool_decide_eq_false. intros Hf. apply Ha. rewrite <-Hf.
    by apply list_elem_of_fmap_2.
  - intros i j b c Hij Hi Hj. apply bool_decide_eq_false. intros Hf.
    assert (i = j) as ->; [|lia].
    apply (NoDup_lookup (f <$> l) i j (f b)); [done| |]; rewrite list_lookup_fmap.
    + by rewrite Hi.
    + by rewrite Hj, <-Hf.
Qed.

Section DocumentProofs.
Context {SV : Semver}.

(** [release] of [provider] offers [contract] at [value] to [dependent]. *)
Definition offers (deployed : DeployedSet) (dependent contract : string)
    (requirement : ContractRequirement) (profile_version : Z)
    (provider release value : string) : Prop :=
  provider ≠ dependent ∧ ∃ profile,
    deployed !! provider = Some (release, profile)
    ∧ first_offer profile_version contract requirement (btree_values (components profile))
      = Ok (Some value).

(** An offer is a provided version that satisfies the requirement. *)
Lemma first_offer_sound v contract requirement cs value :
  first_offer v contract requirement cs = Ok (Some value) →
  ∃ component actual required, component ∈ cs ∧ provides component !! contract = Some value
    ∧ Version_parse value = Some actual ∧ Version_parse (minimum requirement) = Some required
    ∧ contract_satisfies v actual required = true.
Proof.
  induction cs as [|component cs IH]; [done|]. simpl.
  destruct (provides component !! contract) as [w|] eqn:Hp.
  - intros H. ok_inv H. destruct (contract_satisfies v _ _) eqn:Hs.
    + simplify_eq. eexists _, _, _. split; [left|done].
    + destruct (IH H) as (c & a & r & Hc & Hrest). exists c, a, r. split; [by right|done].
  - intros H. destruct (IH H) as (c & a & r & Hc & Hrest). exists c, a, r. split; [by right|done].
Qed.

Lemma add_providers_ok dependent contract requirement v l acc matching :
  try_fold (add_provider dependent contract requirement v) acc l = Ok matching →
  ∃ found, matching = acc ++ found
    ∧ (∀ m, m ∈ found ↔ mp_product m ≠ dependent ∧ ∃ profile,
          (mp_product m, (mp_release m, profile)) ∈ l
          ∧ first_offer v contract requirement (btree_values (components profile))
            = Ok (Some (mp_contract m)))
    ∧ sublist (mp_product <$> found) l.*1.
Proof.
  revert acc. induction l as [|[provider [release profile]] l IH]; intros acc; simpl.
  { intros [= <-]. exists []. rewrite app_nil_r. split; [done|]. split; [set_solver|constructor]. }
  intros (acc' & Hb & Hf)%bind_ok. destruct (IH _ Hf) as (found & -> & Hin & Hsub).
  destruct (decide (provider = dependent)) as [->|Hne].
  { simplify_eq. exists found. split; [done|]. split; [|by constructor].
    intros m. rewrite Hin. split; [set_solver|].
    intros (Hd & p & [[= H1 H2 ->]|Hp]%elem_of_cons & Ho); [by destruct (Hd H1)|eauto]. }
  apply bind_ok in Hb as (offer & Ho & Hb). destruct offer as [value|]; simplify_eq/=.
  - eexists (_ :: found). rewrite <-app_assoc. split; [done|]. split; [|by constructor].
    intros m. rewrite elem_of_cons, Hin. split.
    + intros [->|(Hd & p & Hp & Hq)]; simpl; [|set_solver].
      split; [done|]. exists profile. split; [left|done].
    + intros (Hd & p & [[= H1 H2 ->]|Hp]%elem_of_cons & Hq); [|by right; eauto].
      left. destruct m as [mp mr mc]; simpl in *. congruence.
  - exists found. split; [done|]. split; [|by constructor].
    intros m. rewrite Hin. split; [set_solver|].
    intros (Hd & p & [[= H1 H2 ->]|Hp]%elem_of_cons & Hq); [congruence|eauto].
Qed.

Lemma matching_providers_ok dependent contract requirement v deployed l :
  matching_providers dependent contract requirement v deployed = Ok l →
  (∀ m, m ∈ l ↔ offers deployed dependent contract requirement v
                       (mp_product m) (mp_release m) (mp_contract m))
  ∧ NoDup (mp_product <$> l).
Proof.
  unfold matching_providers. intros (matching & Hf & [= <-])%bind_ok.
  apply add_providers_ok in Hf as (found & -> & Hin & Hsub). simpl.
  assert (NoDup (mp_product <$> found)) as Hnd.
  { eapply sublist_NoDup; [apply (btree_iter_keys_NoDup deployed)|exact Hsub]. }
  assert (NoDup (mp_product <$> sort_by (cmp_on mp_product String.compare) found)) as Hnd'
    by by rewrite (fmap_Permutation _ _ _ (sort_by_perm _ _)).
  unfold same_provider. rewrite dedup_by_NoDup by done. split; [|done].
  intros m. rewrite elem_of_sort_by, Hin. unfold offers. by setoid_rewrite elem_of_btree_iter.
Qed.

(** How one requirement is resolved in a document. *)
Inductive resolved (product : string) (profile : CompatibilityProfile) (deployed : DeployedSet)
    (contract : string) (requirement : ContractRequirement) : option DependencyContract → Prop :=
| ResolvedOwn :
    self_satisfies profile contract requirement = Ok true →
    resolved product profile deployed contract requirement None
| ResolvedPresent provider release value :
    self_satisfies profile contract requirement = Ok false →
    offers deployed product contract requirement (version profile) provider release value →
    (∀ p r w, offers deployed product contract requirement (version profile) p r w →
              p = provider ∧ r = release ∧ w = value) →
    resolved product profile deployed contract requirement (Some (Present provider release value))
| ResolvedAbsent :
    self_satisfies profile contract requirement = Ok false →
    optional requirement = true →
    (∀ p r w, ¬ offers deployed product contract requirement (version profile) p r w) →
    resolved product profile deployed contract requirement (Some Absent).

Lemma document_entry_ok product profile deployed acc contract requirement acc' :
  document_entry product profile deployed acc (contract, requirement) = Ok acc' →
  ∃ o, resolved product profile deployed contract requirement o
       ∧ acc' = match o with Some d => <[contract := d]> acc | None => acc end.
Proof.
  simpl. intros (own & Hown & H)%bind_ok. destruct own.
  { simplify_eq. exists None. split; [by constructor|done]. }
  apply bind_ok in H as (matching & Hm%matching_providers_ok & H). destruct Hm as [Hin Hnd].
  destruct matching as [|m [|]]; [|simplify_eq|done].
  - destruct (optional requirement) eqn:Ho; simplify_eq. exists (Some Absent).
    split; [|done]. constructor; [done|done|]. intros p r w Hoff.
    assert ({| mp_product := p; mp_release := r; mp_contract := w |} ∈ []) as ?%elem_of_nil
      by by apply Hin. done.
  - eexists (Some (Present _ _ _)). split; [|done]. constructor; [done| |].
    + apply Hin. left.
    + intros p r w Hoff.
      assert ({| mp_product := p; mp_release := r; mp_contract := w |} ∈ [m])
        as <-%list_elem_of_singleton by by apply Hin. done.
Qed.

Lemma document_entries_ok product profile deployed l acc contracts :
  NoDup l.*1 →
  try_fold (document_entry product profile deployed) acc l = Ok contracts →
  (∀ c, c ∉ l.*1 → contracts !! c = acc !! c)
  ∧ (∀ c r, (c, r) ∈ l → acc !! c = None → resolved product profile deployed c r (contracts !! c)).
Proof.
  revert acc. induction l as [|[c r] l IH]; intros acc Hnd; simpl.
  { intros [= <-]. split; [done|set_solver]. }
  simpl in Hnd. apply NoDup_cons in Hnd as [Hc Hnd].
  intros (acc' & Hb%document_entry_ok & Hf)%bind_ok. destruct Hb as (o & Ho & ->).
  destruct (IH _ Hnd Hf) as [Hout Hres]. split.
  - intros c' Hc'. rewrite Hout by set_solver.
    destruct o; [|done]. rewrite lookup_insert_ne; [done|set_solver].
  - intros c' r' [[= -> ->]|Hin]%elem_of_cons Hnone.
    + rewrite Hout by done. destruct o; [by rewrite lookup_insert_eq|by rewrite Hnone].
    + apply Hres; [done|]. destruct o; [|done]. rewrite lookup_insert_ne; [done|].
      intros ->. apply Hc. by apply (list_elem_of_fmap_2 fst) in Hin.
Qed.

(** What a document, if there is one, says of a contract. *)
Definition document_lookup (document : option DependencyDocument) (contract : string) :
    option DependencyContract :=
  d ← document; document_contracts d !! contract.

(** The dependency document names, for every contract a release
    requires and does not provide itself, the one other deployed release
    whose offer satisfies it, and [Absent] only for an optional contract
    nobody offers; it names nothing else. *)
Theorem document_for_exact product profile deployed document :
  document_for product profile deployed = Ok document →
  ∀ contract,
    match profile_requirements profile !! contract with
    | Some requirement => resolved product profile deployed contract requirement
                            (document_lookup document contract)
    | None => document_lookup document contract = None
    end.
Proof.
  unfold document_for. destruct (bool_decide (profile_requirements profile = ∅)) eqn:He.
  { apply bool_decide_eq_true in He as ->. intros [= <-] c. by rewrite lookup_empty. }
  intros (contracts & Hf & H)%bind_ok.
  assert (∀ c, document_lookup document c = contracts !! c) as Hc.
  { intros c. destruct (bool_decide_reflect (contracts = ∅)) as [->|_]; by simplify_eq/=. }
  apply document_entries_ok in Hf as [Hout Hin].
  - intros c. rewrite Hc. destruct (profile_requirements profile !! c) as [r|] eqn:Hr.
    + apply Hin; [by apply elem_of_btree_iter|done].
    + rewrite Hout; [done|]. intros ([c' r] & -> & Hr'%elem_of_btree_iter)%list_elem_of_fmap.
      simpl in *. congruence.
  - apply btree_iter_keys_NoDup.
Qed.
End DocumentProofs.

Module DocumentExamples.
#[local] Existing Instance PlainSemver.instance.

(** The web release of [Compatibility.Examples], its database, and a cache
    it can do without. *)
Definition web_profile : CompatibilityProfile :=
  Examples.profile_of "web"
    {| pin := Examples.revision;
       requires := {["database" := Minimum "1.0.0"; "cache" := Detailed "2.0.0" true]};
       provides := ∅ |}.

Definition deployed : DeployedSet :=
  {["web" := ("3.0.0", web_profile);
    "db" := ("1.2.0", Examples.profile_of "database" Examples.database)]}.

Definition document : DependencyDocument :=
  {| document_version := 1;
     document_contracts := {["database" := Present "db" "1.2.0" "1.2.0"; "cache" := Absent]} |}.

Lemma document_for_exact_witness :
  document_for "web" web_profile deployed = Ok (Some document)
  ∧ resolved "web" web_profile deployed "database" (Minimum "1.0.0")
      (Some (Present "db" "1.2.0" "1.2.0")).
Proof.
  assert (H : document_for "web" web_profile deployed = Ok (Some document))
    by (vm_compute; reflexivity).
  split; [exact H|]. exact (document_for_exact _ _ _ _ H "database").
Defined.
End DocumentExamples.
