(* ===== verification/ReleaseSelection.v ===== *)
(** * Release selection

    [plan/release_selection.rs]: which release one subscription resolves to,
    under the environment's version pin, version range and facts. *)

From S2P Require Import Prelude RustStr Semver Kinds Facts Plan Catalog.

Record ChannelHead := {
  head_product : string;
  head_version : string;
  head_release : string
}.

Record SelectedRelease := {
  selected_version : string;
  selected_release : string;
  selected_kind : ProductKind
}.

Section Selection.
Context {SV : Semver} {MF : ManifestFormat} {HO : HashOrder}.

(** [version_in_range]: the half-open range [min..max]. *)
Definition version_in_range (version range : string) : result bool planning_error :=
  let? (lo, hi) := ok_or (split_once ".." range) (BadRange range) in
  let? v := ok_or (Version_parse version) (BadVersion version) in
  let? lo := ok_or (Version_parse (trim lo)) (BadRange range) in
  let? hi := ok_or (Version_parse (trim hi)) (BadRange range) in
  bail_if version_le hi lo with (BadRange range) in
  Ok (version_le lo v && version_lt v hi).

(** [enforce_capability_constraints]. *)
Definition enforce_capability_constraints (ctx : Ctx) (environment : Object) (name : string) :
    result unit planning_error :=
  try_for_each (λ entry,
    match strip_prefix "constraint.require_fact." entry.1 with
    | None => Ok tt
    | Some fact_key =>
      let? _ := map_err FactRefused (validate_fact_key fact_key) in
      let? actual := require_environment_fact ctx name fact_key in
      bail_if negb (bool_decide (entry.2 = "*")) && negb (bool_decide (entry.2 = actual))
        with (FactConstraint fact_key actual entry.2) in
      Ok tt
    end) (hash_iter (properties environment)).

(** [release_product_kind]. *)
Definition release_product_kind (ctx : Ctx) (release : string) : result ProductKind planning_error :=
  let? m := stored_release_manifest ctx release in Ok (product_kind m).

(** [release_is_model_runtime]. *)
Definition release_is_model_runtime (ctx : Ctx) (release : string) : result bool planning_error :=
  match ctx_get ctx release with
  | None => Ok false
  | Some object =>
    match properties object !! "manifest" with
    | None => Ok false
    | Some raw =>
      let? m := ok_or (parse_raw raw) (BadManifest release) in
      Ok (bool_decide (product_kind m = ModelRuntime))
    end
  end.

Fixpoint any_model_runtime (ctx : Ctx) (releases : list Object) : result bool planning_error :=
  match releases with
  | [] => Ok false
  | release :: rest =>
    let? model := release_is_model_runtime ctx (object_id release) in
    if model : bool then Ok true else any_model_runtime ctx rest
  end.

(** [product_has_model_runtime_release]. *)
Definition product_has_model_runtime_release (ctx : Ctx) (product : string) :
    result bool planning_error :=
  let? releases := linked ctx (product_id product) "release_of" Inward in
  any_model_runtime ctx releases.

(** [ensure_model_runtime_fits]. *)
Definition ensure_model_runtime_fits (ctx : Ctx) (env product version release : string) :
    result unit planning_error :=
  let? object := ok_or (ctx_get ctx release) (ReleaseMissing release) in
  match properties object !! "manifest" with
  | None => Ok tt
  | Some raw =>
    let? m := ok_or (parse_raw raw) (BadManifest release) in
    if decide (product_kind m = ModelRuntime) then
      let? requirements := ok_or (requirements m) (NoRequirements product version) in
      let? facts := list_environment_facts ctx env in
      map_err ModelRefused (model_requirements_fit facts requirements)
    else Ok tt
  end.

(** Whether a version lies above the channel head; versions that do not
    parse are not compared. *)
Definition above_head (head : option Version) (version : string) : bool :=
  match head, Version_parse version with
  | Some head, Some candidate => version_lt head candidate
  | _, _ => false
  end.

Definition variant_candidate (facts : gmap string string) (head : option Version)
    (range : option string) (acc : list (string * string)) (release : Object) :
    result (list (string * string)) planning_error :=
  match properties release !! "version" with
  | None => Ok acc
  | Some version =>
    let? inside := match range with
                   | Some range => version_in_range version range
                   | None => Ok true
                   end in
    if negb inside then Ok acc
    else if above_head head version then Ok acc
    else
      match properties release !! "manifest" with
      | None => Ok acc
      | Some raw =>
        let? m := ok_or (parse_raw raw) (BadManifest (object_id release)) in
        if decide (product_kind m = ModelRuntime) then
          match requirements m with
          | None => Ok acc
          | Some requirements =>
            Ok (if is_ok (model_requirements_fit facts requirements)
                then acc ++ [(version, object_id release)] else acc)
          end
        else Ok acc
      end
  end.

(** The comparator [candidates.sort_by] uses. *)
Definition variant_cmp (a b : string) : comparison :=
  match Version_parse a, Version_parse b with
  | Some x, Some y => Version_cmp x y
  | _, _ => String.compare a b
  end.

(** [select_model_runtime_variant]. *)
Definition select_model_runtime_variant (ctx : Ctx) (env product channel_version
    channel_release : string) (range : option string) : result (string * string) planning_error :=
  let? facts := list_environment_facts ctx env in
  let? releases := linked ctx (product_id product) "release_of" Inward in
  let? candidates :=
    try_fold (variant_candidate facts (Version_parse channel_version) range) [] releases in
  match last (sort_by (cmp_on fst variant_cmp) candidates) with
  | Some selected => Ok selected
  | None =>
    match ensure_model_runtime_fits ctx env product channel_version channel_release with
    | Err head_error => Err (NoVariant product (Some head_error))
    | Ok _ => Err (NoVariant product None)
    end
  end.

Definition pin_key (product : string) : string := "constraint.version_pin." +:+ product.
Definition range_key (product : string) : string := "constraint.version_range." +:+ product.

(** [resolve_constrained_release]. *)
Definition resolve_constrained_release (ctx : Ctx) (environment : Object)
    (env product channel_version channel_release : string) :
    result (string * string) planning_error :=
  let range := properties environment !! range_key product in
  match properties environment !! pin_key product with
  | Some pin =>
    bail_if str_is_empty (trim pin) with (EmptyPin product) in
    let pinned_release := release_id product pin in
    bail_if negb (is_some_b (ctx_get ctx pinned_release)) with (PinNotPublished pin) in
    let? _ := match range with
              | Some range =>
                let? inside := version_in_range pin range in
                bail_if negb inside with (PinOutsideRange pin range) in Ok tt
              | None => Ok tt
              end in
    let? _ := ensure_model_runtime_fits ctx env product pin pinned_release in
    if decide (pin = channel_version) then Ok (channel_version, channel_release)
    else Ok (pin, pinned_release)
  | None =>
    let? _ := match range with
              | Some range =>
                let? inside := version_in_range channel_version range in
                if inside : bool then Ok tt
                else
                  let? model := release_is_model_runtime ctx channel_release in
                  bail_if negb model with (HeadOutsideRange channel_version range) in Ok tt
              | None => Ok tt
              end in
    let? head_is_model := release_is_model_runtime ctx channel_release in
    let? model := if head_is_model : bool then Ok true
                  else product_has_model_runtime_release ctx product in
    if model : bool then
      select_model_runtime_variant ctx env product channel_version channel_release range
    else
      let? _ := match range with
                | Some range =>
                  let? inside := version_in_range channel_version range in
                  bail_if negb inside with (HeadOutsideRange channel_version range) in Ok tt
                | None => Ok tt
                end in
      Ok (channel_version, channel_release)
  end.

(** [resolve_subscription_selection]. *)
Definition resolve_subscription_selection (ctx : Ctx) (environment : Object)
    (env product channel_version channel_release : string) :
    result (string * string) planning_error :=
  let? _ := enforce_capability_constraints ctx environment env in
  resolve_constrained_release ctx environment env product channel_version channel_release.

(** [select]. *)
Definition select (ctx : Ctx) (environment : Object) (env : string) (channel : ChannelHead) :
    result SelectedRelease planning_error :=
  let? (version, release) := resolve_subscription_selection ctx environment env
                               (head_product channel) (head_version channel) (head_release channel) in
  let? kind := release_product_kind ctx release in
  Ok {| selected_version := version; selected_release := release; selected_kind := kind |}.
End Selection.

(** ** What a selection honours *)

Section SelectionProofs.
Context {SV : Semver} {SL : SemverLaws SV} {MF : ManifestFormat} {HO : HashOrder}.

(** A published variant the environment's facts, range and channel head
    admit. *)
Record feasible (facts : gmap string string) (head : option Version) (range : option string)
    (release : Object) (version : string) : Prop := {
  feasible_version : properties release !! "version" = Some version;
  feasible_range r : range = Some r → version_in_range version r = Ok true;
  feasible_head : above_head head version = false;
  feasible_fits : ∃ raw m requirements',
    properties release !! "manifest" = Some raw ∧ parse_raw raw = Some m
    ∧ product_kind m = ModelRuntime ∧ requirements m = Some requirements'
    ∧ model_requirements_fit facts requirements' = Ok tt
}.

Lemma variant_candidate_ok facts head range acc release acc' :
  variant_candidate facts head range acc release = Ok acc' →
  (∃ version, feasible facts head range release version
              ∧ acc' = acc ++ [(version, object_id release)])
  ∨ (acc' = acc ∧ ∀ version, ¬ feasible facts head range release version).
Proof.
  unfold variant_candidate.
  destruct (properties release !! "version") as [version|] eqn:Hv;
    [|intros [= <-]; right; split; [done|]; intros w []; congruence].
  intros (inside & Hin & H)%bind_ok.
  assert (Hskip : Ok (E := planning_error) acc = Ok acc' → (∀ w, ¬ feasible facts head range release w) →
    (∃ version, feasible facts head range release version
                ∧ acc' = acc ++ [(version, object_id release)])
    ∨ (acc' = acc ∧ ∀ version, ¬ feasible facts head range release version))
    by (intros [= <-] ?; by right).
  destruct inside; simpl in H.
  2: { apply Hskip; [done|]. intros w [Hw Hr _ _]. destruct range as [r|]; [|done].
       specialize (Hr r eq_refl). congruence. }
  destruct (above_head head version) eqn:Ha.
  { apply Hskip; [done|]. intros w [Hw _ Hh _]. congruence. }
  destruct (properties release !! "manifest") as [raw|] eqn:Hm.
  2: { apply Hskip; [done|]. intros w [_ _ _ (? & ? & ? & ? & _)]. congruence. }
  apply bind_ok in H as (m & Hp%ok_or_ok & H). destruct (decide (product_kind m = ModelRuntime)).
  2: { apply Hskip; [done|]. intros w [_ _ _ (? & ? & ? & ? & ? & ? & _)]. congruence. }
  destruct (requirements m) as [rs|] eqn:Hrs.
  2: { apply Hskip; [done|]. intros w [_ _ _ (? & ? & ? & ? & ? & ? & ? & _)]. congruence. }
  destruct (model_requirements_fit facts rs) as [[]|] eqn:Hfit; simpl in H.
  - simplify_eq. left. exists version. split; [|done]. split; [done| |done|naive_solver].
    intros r ->. by rewrite Hin.
  - apply Hskip; [done|]. intros w [_ _ _ (? & ? & ? & ? & ? & ? & ? & ?)]. congruence.
Qed.

Lemma variant_candidates_ok facts head range releases acc candidates :
  try_fold (variant_candidate facts head range) acc releases = Ok candidates →
  ∀ v id, (v, id) ∈ candidates ↔
    (v, id) ∈ acc ∨ ∃ o, o ∈ releases ∧ object_id o = id ∧ feasible facts head range o v.
Proof.
  revert acc. induction releases as [|o releases IH]; intros acc; simpl.
  { intros [= <-]. set_solver. }
  intros (acc' & Hb%variant_candidate_ok & Hf)%bind_ok v id. rewrite (IH _ Hf).
  destruct Hb as [(w & Hw & ->)|[-> Hno]].
  - rewrite elem_of_app, list_elem_of_singleton. split.
    + intros [[?|[= -> ->]]|?]; [by left| |set_solver]. right. exists o. set_solver.
    + intros [?|(o' & [->|Ho']%elem_of_cons & <- & Hv)]; [by left; left| |set_solver].
      left; right. destruct Hw, Hv. congruence.
  - split; [set_solver|]. intros [?|(o' & [->|Ho']%elem_of_cons & <- & Hv)]; [by left| |set_solver].
    by destruct (Hno v).
Qed.

(** On versions that parse, the comparator is the versions' order. *)
Definition parsed_cmp (a b : string) : comparison :=
  match Version_parse a, Version_parse b with
  | Some x, Some y => Version_cmp x y
  | Some _, None => Gt
  | None, Some _ => Lt
  | None, None => Eq
  end.

#[local] Instance parsed_cmp_ordered : Ordered parsed_cmp.
Proof.
  unfold parsed_cmp. split.
  - intros a b. destruct (Version_parse a), (Version_parse b); [|done..].
    apply (cmp_antisym Version_cmp).
  - intros a b c. destruct (Version_parse a), (Version_parse b), (Version_parse c); try done.
    apply (cmp_trans Version_cmp).
Qed.

(** Of the variants of a model product that fit an environment's facts
    and range and do not lie above the channel head, the one with the
    highest version is selected, and a selection is always such a
    variant, provided the published versions are semantic versions. *)
Theorem selected_variant_is_best ctx env product channel_version channel_release range v id
    facts releases :
  list_environment_facts ctx env = Ok facts →
  linked ctx (product_id product) "release_of" Inward = Ok releases →
  (∀ o w, o ∈ releases → properties o !! "version" = Some w → is_Some (Version_parse w)) →
  select_model_runtime_variant ctx env product channel_version channel_release range = Ok (v, id) →
  (∃ o, o ∈ releases ∧ object_id o = id
        ∧ feasible facts (Version_parse channel_version) range o v)
  ∧ (∀ o w, o ∈ releases → feasible facts (Version_parse channel_version) range o w →
            ∀ x y, Version_parse w = Some x → Version_parse v = Some y → Version_cmp x y ≠ Gt).
Proof.
  intros Hf Hl Hparse. unfold select_model_runtime_variant. rewrite Hf, Hl. simpl.
  intros (candidates & Hc & H)%bind_ok.
  pose proof (variant_candidates_ok _ _ _ _ _ _ Hc) as Hin.
  assert (∀ w i, (w, i) ∈ candidates → is_Some (Version_parse w)) as Hps.
  { intros w i [?%elem_of_nil|(o & Ho & _ & Hfe)]%Hin; [done|].
    by eapply Hparse, feasible_version. }
  rewrite (sort_by_ext _ (cmp_on fst parsed_cmp)) in H.
  2: { intros [a i] [b j] [x Hx]%Hps [y Hy]%Hps.
       unfold cmp_on, variant_cmp, parsed_cmp; simpl. by rewrite Hx, Hy. }
  destruct (last _) as [[v' id']|] eqn:E in H; [|by destruct (ensure_model_runtime_fits _ _ _ _ _)].
  simplify_eq. apply sort_by_last_max in E as [Hv Hmax]; [|apply _]. split.
  - apply Hin in Hv as [?%elem_of_nil|?]; done.
  - intros o w Ho Hfe x y Hx Hy.
    assert ((w, object_id o) ∈ candidates) as Hw by (apply Hin; right; eauto).
    specialize (Hmax _ Hw). unfold cmp_on, parsed_cmp in Hmax; simpl in Hmax.
    by rewrite Hx, Hy in Hmax.
Qed.

Lemma variant_in_range ctx env product cv cr range v id r :
  select_model_runtime_variant ctx env product cv cr range = Ok (v, id) →
  range = Some r → version_in_range v r = Ok true.
Proof.
  unfold select_model_runtime_variant. intros H. ok_inv H.
  destruct (last _) as [[v' id']|] eqn:E in H; [|by destruct (ensure_model_runtime_fits _ _ _ _ _)].
  simplify_eq. rewrite last_lookup in E. apply list_elem_of_lookup_2, elem_of_sort_by in E.
  eapply variant_candidates_ok in E; [|eassumption].
  destruct E as [?%elem_of_nil|(o & _ & _ & Hfe)]; [done|]. by eapply feasible_range.
Qed.

(** A resolved subscription honours the environment's constraints: its
    version is the pin, when there is one, and lies in the version range,
    when there is one. *)
Theorem selection_honours_constraints ctx e env product cv cr v id :
  resolve_constrained_release ctx e env product cv cr = Ok (v, id) →
  (∀ pin, properties e !! pin_key product = Some pin →
     v = pin ∧ is_Some (ctx_get ctx (release_id product pin)))
  ∧ (∀ r, properties e !! range_key product = Some r → version_in_range v r = Ok true).
Proof.
  unfold resolve_constrained_release.
  destruct (properties e !! pin_key product) as [pin|] eqn:Hpin.
  - intros H. ok_inv H. assert (v = pin) as -> by (case_decide; by simplify_eq).
    split.
    + intros pin' [= <-]. split; [done|]. by destruct (ctx_get ctx _).
    + intros r Hr. rewrite Hr in *. ok_inv Hg1. congruence.
  - intros H. ok_inv H. split; [done|]. intros r Hr.
    destruct x1.
    + by eapply variant_in_range.
    + rewrite Hr in H. ok_inv H. simplify_eq. ok_inv Hg2. by destruct x2.
Qed.
End SelectionProofs.

Module SelectionExamples.
#[local] Existing Instance PlainSemver.instance.
#[local] Existing Instance PlainSemver.semver_laws.

Definition fits_8gib : ModelRequirementsSection :=
  {| architecture := ["arm64"]; memory_gib := 8; accelerator := []; gpu := None |}.

(** Two stored texts: a model runtime and anything else. *)
#[local] Instance texts : ManifestFormat := {|
  parse_raw raw :=
    Some {| compatibility := None; product_name := "llm"; product_version := "";
            deploy_install := "true"; deploy_uninstall := None; artifacts := [];
            product_kind := if decide (raw = "model") then ModelRuntime else Software;
            deploy_executor := None; deploy_health := None; deploy_instances := One;
            requirements := if decide (raw = "model") then Some fits_8gib else None |} |}.

#[local] Instance in_key_order : HashOrder := {|
  hash_iter := map_to_list; hash_iter_perm := λ m, Permutation_refl _ |}.

Definition object (id : string) (ps : gmap string string) : Object := {|
  object_id := id; object_kind := ""; object_name := ""; object_namespace := "tenkai";
  external_id := ""; properties := ps; created := 0; updated := 0 |}.

Definition release (v : string) : Object :=
  object (release_id "llm" v) {["version" := v; "manifest" := "model"]}.

Definition prod : Object :=
  object "tenkai:env:prod"
    {["fact.architecture" := "arm64"; "fact.memory_gib" := "16";
      "constraint.version_range.llm" := "1.0.0..2.0.0"]}.

Definition of_llm (v : string) : Link :=
  {| link_id := v; from_id := release_id "llm" v; to_id := "tenkai:product:llm";
     link_relation := "release_of" |}.

Definition ctx : Ctx := {|
  objects := list_to_map ((λ o, (object_id o, o)) <$>
               [prod; release "1.9.0"; release "1.10.0"; release "2.0.0"; release "1.2.0"]);
  catalog_links := of_llm <$> ["1.9.0"; "1.10.0"; "2.0.0"; "1.2.0"] |}.

Definition facts : gmap string string := {["architecture" := "arm64"; "memory_gib" := "16"]}.

Lemma selected_variant_is_best_witness :
  select_model_runtime_variant ctx "prod" "llm" "2.0.0" (release_id "llm" "2.0.0")
    (Some "1.0.0..2.0.0") = Ok ("1.10.0", release_id "llm" "1.10.0")
  ∧ ∃ o, object_id o = release_id "llm" "1.10.0"
         ∧ feasible facts (Version_parse "2.0.0") (Some "1.0.0..2.0.0") o "1.10.0".
Proof.
  assert (H : select_model_runtime_variant ctx "prod" "llm" "2.0.0" (release_id "llm" "2.0.0")
                (Some "1.0.0..2.0.0") = Ok ("1.10.0", release_id "llm" "1.10.0"))
    by (vm_compute; reflexivity).
  split; [exact H|].
  destruct (selected_variant_is_best ctx "prod" "llm" "2.0.0" (release_id "llm" "2.0.0")
              (Some "1.0.0..2.0.0") "1.10.0" (release_id "llm" "1.10.0") facts
              [release "1.10.0"; release "1.2.0"; release "1.9.0"; release "2.0.0"])
    as [(o & _ & Hid & Hf) _]; [vm_compute; reflexivity|vm_compute; reflexivity| |exact H|by eauto].
  intros o w Ho Hw. rewrite !elem_of_cons, elem_of_nil in Ho.
  destruct Ho as [->|[->|[->|[->|[]]]]]; injection Hw as <-; vm_compute; eauto.
Defined.

Lemma selection_honours_constraints_witness :
  resolve_constrained_release ctx prod "prod" "llm" "2.0.0" (release_id "llm" "2.0.0")
    = Ok ("1.10.0", release_id "llm" "1.10.0")
  ∧ version_in_range "1.10.0" "1.0.0..2.0.0" = Ok true.
Proof.
  assert (H : resolve_constrained_release ctx prod "prod" "llm" "2.0.0"
                (release_id "llm" "2.0.0") = Ok ("1.10.0", release_id "llm" "1.10.0"))
    by (vm_compute; reflexivity).
  split; [exact H|].
  apply (proj2 (selection_honours_constraints ctx prod "prod" "llm" "2.0.0"
                  (release_id "llm" "2.0.0") "1.10.0" (release_id "llm" "1.10.0") H)).
  vm_compute; reflexivity.
Defined.

(** The comparator that sorts the variants is no order once a published
    version is not a semantic version, which [validate_identifier] admits:
    9.0.0 is below 10.0.0, 10.0.0 below 10x, and 10x below 9.0.0, so which
    variant is selected depends on how the sort proceeds. *)
Theorem variant_order_cycles :
  valid_identifier "10x" = true
  ∧ variant_cmp "9.0.0" "10.0.0" = Lt ∧ variant_cmp "10.0.0" "10x" = Lt
  ∧ variant_cmp "10x" "9.0.0" = Lt ∧ ¬ Ordered variant_cmp.
Proof.
  split_and!; [reflexivity..|]. intros HO.
  by apply (cmp_trans variant_cmp "9.0.0" "10.0.0" "10x").
Qed.
End SelectionExamples.
