(* ===== verification/Convergence.v ===== *)
(** * Convergence planning

    [plan/convergence.rs]: the desired-versus-deployed snapshot of an
    environment, the changes it needs, their order, and the immutable plan
    made of them ([PlanCreation] stores it). *)

From S2P Require Import Prelude RustStr Semver Kinds Facts Compatibility Contracts Plan Approvals HostState Catalog HostSteps Holds DependencyDocument ReleaseSelection.

(** ** What the planner asks of other components *)

(** Release trust ([catalog/trust.rs]), compatibility evidence
    ([software_compatibility.rs]), placement ([topology.rs]), workshop modules
    and stored JSON. *)
Class PlanningServices := {
  (** [EmbeddedCatalog::lookup_release], as a pin. *)
  lookup_release : Ctx → string → string → option ReleasePin;
  (** [load_recoverable_snapshot], as a pin: a recalled release is allowed. *)
  load_recoverable : Ctx → string → string → option ReleasePin;
  (** [software_compatibility::report_eval]. *)
  report_eval : Ctx → string → string → result (option CompatibilityEval) planning_error;
  placement_allowed : Ctx → string → string → bool;
  module_admitted : Ctx → string → Object → string → bool;
  (** The stored branch pin of a preview decodes and matches its digests. *)
  branch_pin_matches : Object → bool;
  overlay_of_json : string → option (gmap string string);
  overlay_hash : list (string * string) → string;
  document_digest : DependencyDocument → string;
  (** The cluster configuration and secret directory an observation needs
      can be read from the environment's properties. *)
  observe_paths_valid : gmap string string → bool;
  (** Advisory warnings, status detail and credential runway of a new plan. *)
  advisories : Ctx → string → Plan → list string * string * option string
}.

Record ConvergencePolicy := { observe_live : bool }.
Definition catalog_only : ConvergencePolicy := {| observe_live := false |}.
Definition reconcile : ConvergencePolicy := {| observe_live := true |}.

Record PendingChange := {
  change_product : string;
  change_instance : string;
  change_action : Action;
  change_from : option string;
  change_to : string;
  change_release : ReleasePin;
  change_restore : option ReleasePin;
  change_kind : ProductKind
}.

Inductive DependencyAdmission :=
| Hold (release : string) (contracts : list (string * string))
| Proceed.

(** What the subscription loop has gathered. *)
Record Snapshot := {
  snap_inputs : list DesiredStateInput;
  snap_pending : list PendingChange;
  host_health_only : gset string;
  host_products : gset string;
  held_model : bool;
  held_routing : bool;
  hold_sets : gmap string DependencyHoldWrite;
  hold_clears : gset string;
  product_instances : gmap string (list (string * DeployInstances))
}.

Definition empty_snapshot : Snapshot := {|
  snap_inputs := []; snap_pending := []; host_health_only := ∅; host_products := ∅;
  held_model := false; held_routing := false; hold_sets := ∅; hold_clears := ∅;
  product_instances := ∅ |}.

Definition SELF_PRODUCT : string := "tenkai-runtime".

(** [refuse_second_one_instance]: in product order. *)
Definition refuse_second_one_instance (rows : gmap string (list (string * DeployInstances))) :
    result unit planning_error :=
  try_for_each (λ '(product, rows),
    match rows with
    | (first, _) :: (second, _) :: _ =>
      bail_if negb (forallb (λ row, allows_several row.2) rows)
        with (SecondInstance product first second) in
      Ok tt
    | _ => Ok tt
    end) (btree_iter rows).

(** The instance a plan step or input names: empty for the product's own. *)
Definition named_instance (instance product : string) : string :=
  if decide (instance = product) then "" else instance.

Section Convergence.
Context {SV : Semver} {MF : ManifestFormat} {HO : HashOrder} {PS : PlanningServices}.

Definition pin_release (ctx : Ctx) (id env : string) : result ReleasePin planning_error :=
  ok_or (lookup_release ctx id env) (PinRefused id).

Definition pin_release_for_recovery (ctx : Ctx) (id env : string) :
    result ReleasePin planning_error :=
  ok_or (load_recoverable ctx id env) (PinRefused id).

(** [software_compatibility::require_release]. *)
Definition require_release (ctx : Ctx) (env release : string) : result unit planning_error :=
  let? eval := report_eval ctx env release in
  match eval with
  | Some e =>
    bail_if negb (bool_decide (failures (Compatibility.outcome e) = []))
      with (CompatibilityBlocked (failures (Compatibility.outcome e))) in
    Ok tt
  | None => Ok tt
  end.

(** [admit_reconcile_dependency]. *)
Definition admit_reconcile_dependency (ctx : Ctx) (env release : string) :
    result DependencyAdmission planning_error :=
  let? eval := report_eval ctx env release in
  match eval with
  | None => Ok Proceed
  | Some e =>
    if decide (failures (Compatibility.outcome e) = []) then Ok Proceed
    else
      let? m := stored_release_manifest ctx release in
      match compatibility m with
      | None => Err (CompatibilityBlocked (failures (Compatibility.outcome e)))
      | Some profile =>
        match holdable_unmet_requirements (Compatibility.outcome e) (candidate_unmet e) profile with
        | None => Err (CompatibilityBlocked (failures (Compatibility.outcome e)))
        | Some unmet => Ok (Hold release unmet)
        end
      end
  end.

(** [product_overlays(..).unwrap_or_default()]. *)
Definition product_overlays (env_obj : Object) (product : string) : gmap string string :=
  match properties env_obj !! ("overlay." +:+ product) with
  | None => ∅
  | Some raw => if str_is_empty raw then ∅ else default ∅ (overlay_of_json raw)
  end.

(** [overlay_digest]. *)
Definition overlay_digest (values : gmap string string) : string :=
  if bool_decide (values = ∅) then "" else overlay_hash (btree_iter values).

Definition add_input (s : Snapshot) (i : DesiredStateInput) : Snapshot := {|
  snap_inputs := snap_inputs s ++ [i]; snap_pending := snap_pending s;
  host_health_only := host_health_only s; host_products := host_products s;
  held_model := held_model s; held_routing := held_routing s; hold_sets := hold_sets s;
  hold_clears := hold_clears s; product_instances := product_instances s |}.

Definition add_change (s : Snapshot) (c : PendingChange) : Snapshot := {|
  snap_inputs := snap_inputs s; snap_pending := snap_pending s ++ [c];
  host_health_only := host_health_only s; host_products := host_products s;
  held_model := held_model s; held_routing := held_routing s; hold_sets := hold_sets s;
  hold_clears := hold_clears s; product_instances := product_instances s |}.

Definition add_host (s : Snapshot) (product : string) (health_only : bool) : Snapshot := {|
  snap_inputs := snap_inputs s; snap_pending := snap_pending s;
  host_health_only := if health_only then {[product]} ∪ host_health_only s else host_health_only s;
  host_products := {[product]} ∪ host_products s;
  held_model := held_model s; held_routing := held_routing s; hold_sets := hold_sets s;
  hold_clears := hold_clears s; product_instances := product_instances s |}.

Definition add_instance (s : Snapshot) (product instance : string) (mode : DeployInstances) :
    Snapshot := {|
  snap_inputs := snap_inputs s; snap_pending := snap_pending s;
  host_health_only := host_health_only s; host_products := host_products s;
  held_model := held_model s; held_routing := held_routing s; hold_sets := hold_sets s;
  hold_clears := hold_clears s;
  product_instances := push_entry (product_instances s) product (instance, mode) |}.

(** A target held back: the model or routing product it is stays put. *)
Definition hold_kind (s : Snapshot) (kind : ProductKind) : Snapshot := {|
  snap_inputs := snap_inputs s; snap_pending := snap_pending s;
  host_health_only := host_health_only s; host_products := host_products s;
  held_model := held_model s || bool_decide (kind = ModelRuntime);
  held_routing := held_routing s || bool_decide (kind = RoutingConfig);
  hold_sets := hold_sets s; hold_clears := hold_clears s;
  product_instances := product_instances s |}.

Definition set_hold (s : Snapshot) (product : string) (w : DependencyHoldWrite) : Snapshot := {|
  snap_inputs := snap_inputs s; snap_pending := snap_pending s;
  host_health_only := host_health_only s; host_products := host_products s;
  held_model := held_model s; held_routing := held_routing s;
  hold_sets := <[product := w]> (hold_sets s); hold_clears := hold_clears s;
  product_instances := product_instances s |}.

Definition clear_hold (s : Snapshot) (product : string) : Snapshot := {|
  snap_inputs := snap_inputs s; snap_pending := snap_pending s;
  host_health_only := host_health_only s; host_products := host_products s;
  held_model := held_model s; held_routing := held_routing s;
  hold_sets := hold_sets s; hold_clears := {[product]} ∪ hold_clears s;
  product_instances := product_instances s |}.

(** The applier's record of a host release, and whether it declares a
    health command. *)
Definition release_host_record (ctx : Ctx) (executors : Executors) (env product release : string) :
    result (option (AppliedStateRecord * bool)) planning_error :=
  match readable_manifest ctx release with
  | Some m =>
    if decide (deploy_executor m = Some Host) then
      let? record := host_record executors env product in
      Ok (Some (record, declares_health m))
    else Ok None
  | None => Ok None
  end.

(** What a deployed release of the desired version looks like to its
    executor: whether it must be restarted. *)
Definition observed_restart (policy : ConvergencePolicy) (ctx : Ctx) (executors : Executors)
    (env : string) (env_obj : Object) (product instance desired release : string)
    (target : ReleasePin) : result (bool * bool) planning_error :=
  if observe_live policy then
    let? m := stored_release_manifest ctx release in
    let host := bool_decide (deploy_executor m = Some Host) in
    let? adapter := observe_executor executors m in
    match adapter with
    | None => Ok (false, host)
    | Some a =>
      bail_if negb (observe_paths_valid (properties env_obj)) with (ObserveFailed release) in
      let? status := ok_or (observe a {|
        observe_product := product; observe_version := desired; observe_environment := env;
        observe_workdir := pin_workdir target; observe_release := release;
        observe_overlays := product_overlays env_obj product;
        observe_instance := named_instance instance product |}) (ObserveFailed release) in
      Ok (match status with ObservedAbsent | ObservedMismatched => true | _ => false end, host)
    end
  else Ok (failed_target_is_held (properties env_obj) instance release, false).

(** Whether the overlays of a product differ from the applied ones. *)
Definition overlay_changed (env_obj : Object) (product instance : string) : bool :=
  let key := if str_is_empty instance then product else instance in
  negb (bool_decide (overlay_digest (product_overlays env_obj product)
                     = property env_obj ("applied_config." +:+ key))).

(** The change a release of another executor than [host] needs. *)
Definition software_change (policy : ConvergencePolicy) (ctx : Ctx) (executors : Executors)
    (env : string) (env_obj : Object) (product instance desired release : string)
    (target : ReleasePin) (kind : ProductKind) (deployed : option string) :
    result (option PendingChange) planning_error :=
  let change action from restore := Some {|
    change_product := product; change_instance := instance; change_action := action;
    change_from := from; change_to := desired; change_release := target;
    change_restore := restore; change_kind := kind |} in
  match deployed with
  | Some v =>
    if decide (v = desired) then
      let? (restart, host) :=
        observed_restart policy ctx executors env env_obj product instance desired release target in
      let restart := restart || overlay_changed env_obj product instance
                     || health_is (properties env_obj) instance "unhealthy" in
      Ok (if restart && negb host then change Restart (Some v) None else None)
    else
      let current_id := release_id product v in
      let? restore :=
        if release_is_recalled ctx current_id then Ok None
        else let? pin := pin_release ctx current_id env in Ok (Some pin) in
      Ok (change (classify_change v desired) (Some v) restore)
  | None => Ok (change Install None None)
  end.

(** The change a host release needs, and whether it is its health step
    alone. *)
Definition host_change (env_obj : Object) (product instance desired : string)
    (target : ReleasePin) (kind : ProductKind) (deployed : option string)
    (record : AppliedStateRecord) (health : bool) :
    result (option PendingChange * bool) planning_error :=
  match host_progress record desired health with
  | Converged =>
    bail_if health_is (properties env_obj) instance "unknown"
            || negb (bool_decide (deployed = Some desired))
      with (UnrecordedHostState product (record_generation record)) in
    Ok (None, false)
  | NeedsHealth =>
    Ok (Some {| change_product := product; change_instance := instance; change_action := Restart;
                change_from := Some desired; change_to := desired; change_release := target;
                change_restore := None; change_kind := kind |}, true)
  | NeedsInstall =>
    Ok (Some {| change_product := product; change_instance := instance; change_action := Install;
                change_from := deployed; change_to := desired; change_release := target;
                change_restore := None; change_kind := kind |}, false)
  end.

Definition push_change (s : Snapshot) (c : option PendingChange) : Snapshot :=
  match c with Some c => add_change s c | None => s end.

(** The rest of the loop body, once the release is admitted. *)
Definition converge_release (policy : ConvergencePolicy) (ctx : Ctx) (executors : Executors)
    (env : string) (env_obj : Object) (sub : Subscription) (selected : SelectedRelease)
    (target : ReleasePin) (s : Snapshot) : result Snapshot planning_error :=
  let product := sub_product sub in
  let instance := sub_instance sub in
  let release := selected_release selected in
  let desired := selected_version selected in
  let kind := selected_kind selected in
  bail_if negb (placement_allowed ctx env release) with (PlacementRefused release) in
  let? host_record := release_host_record ctx executors env product release in
  bail_if negb (is_some_b host_record) && health_is (properties env_obj) instance "unknown"
    with (UnknownDeployment instance) in
  if observe_live policy && failed_target_is_held (properties env_obj) instance release then
    Ok (hold_kind s kind)
  else
    let deployed := properties env_obj !! ("deployed." +:+ instance) in
    bail_if bool_decide (kind = WorkshopModule) && negb (module_admitted ctx env env_obj release)
      with (ModuleRefused release) in
    let s := add_input s {|
      input_product := product; input_instance := named_instance instance product;
      input_channel := property (sub_channel sub) "channel";
      input_channel_id := object_id (sub_channel sub); input_desired_version := desired;
      input_release_id := release; input_release_digest := pin_digest target;
      input_artifact_digest := pin_artifact_digest target;
      input_deployed_version := deployed |} in
    match host_record with
    | Some (record, health) =>
      let? (change, health_only) :=
        host_change env_obj product instance desired target kind deployed record health in
      Ok (push_change (add_host s product health_only) change)
    | None =>
      let? change := software_change policy ctx executors env env_obj product instance desired
                       release target kind deployed in
      Ok (push_change s change)
    end.

(** The body of the subscription loop. *)
Definition subscription_step (policy : ConvergencePolicy) (ctx : Ctx) (executors : Executors)
    (env : string) (env_obj : Object) (s : Snapshot) (sub : Subscription) :
    result Snapshot planning_error :=
  let product := sub_product sub in
  let channel_version := property (sub_channel sub) "current_version" in
  let channel_release := property (sub_channel sub) "current_release" in
  if str_is_empty channel_version || str_is_empty channel_release then Ok s
  else
    let? selected := select ctx env_obj env {|
      head_product := product; head_version := channel_version; head_release := channel_release |} in
    let release := selected_release selected in
    let mode := match readable_manifest ctx release with
                | Some m => deploy_instances m
                | None => One
                end in
    let s := add_instance s product (sub_instance sub) mode in
    bail_if release_is_recalled ctx release with (RecalledHead release) in
    let? target := pin_release ctx release env in
    if observe_live policy then
      let? admission := admit_reconcile_dependency ctx env release in
      match admission with
      | Hold held contracts =>
        Ok (hold_kind (set_hold s product {| write_release := held; write_contracts := contracts |})
              (selected_kind selected))
      | Proceed =>
        let s := if is_some_b (dependency_hold (properties env_obj) product)
                 then clear_hold s product else s in
        converge_release policy ctx executors env env_obj sub selected target s
      end
    else
      let? _ := require_release ctx env release in
      converge_release policy ctx executors env env_obj sub selected target s.

(** *** Removals *)

(** The instance a property marks as a candidate for removal, with its
    release. *)
Definition removal_candidate (ps : gmap string string) (entry : string * string) :
    option (string * string) :=
  match strip_prefix "deployed." entry.1 with
  | Some instance => Some (instance, deployed_release_id ps instance entry.2)
  | None =>
    instance ← strip_prefix "failed_target." entry.1;
    if health_is ps instance "unknown" then Some (instance, entry.2) else None
  end.

Definition deployed_host_instances (ctx : Ctx) (ps : gmap string string) (subscribed : gset string) :
    gset string :=
  foldl (λ acc entry,
    match removal_candidate ps entry with
    | Some (instance, release) =>
      if negb (bool_decide (instance ∈ subscribed)) && is_host_release ctx release
      then {[instance]} ∪ acc else acc
    | None => acc
    end) ∅ (hash_iter ps).

(** Products of the applier's records this server delivered. *)
Definition managed_record (ctx : Ctx) (ps : gmap string string) (r : AppliedStateRecord) : bool :=
  existsb (λ key, is_some_b (ps !! (key +:+ "." +:+ record_product r)))
    ["deployed"; "deployed_prev"; "deployment_health"]
  || is_some_and (last_started r) (λ started, is_some_b (ctx_get ctx (started_plan_id started))).

Definition recorded_host_instances (ctx : Ctx) (ps : gmap string string) (subscribed : gset string)
    (records : list AppliedStateRecord) (acc : gset string) : gset string :=
  foldl (λ acc r,
    if managed_record ctx ps r && negb (bool_decide (record_product r ∈ subscribed))
    then {[record_product r]} ∪ acc else acc) acc records.

(** The removal of one host instance, from what its record holds. *)
Definition removal_change (ctx : Ctx) (host : HostExecutor) (env : string) (ps : gmap string string)
    (instance : string) : result (option PendingChange) planning_error :=
  let product := product_for_instance ps instance in
  let? record := ok_or (applied_state host env product) (RecordUnavailable product) in
  let deployed := ps !! ("deployed." +:+ instance) in
  match host_source record deployed with
  | None =>
    bail_if is_some_b deployed || health_is ps instance "unknown"
      with (UnrecordedHostState instance (record_generation record)) in
    Ok None
  | Some version =>
    let? target := pin_release_for_recovery ctx (release_id product version) env in
    Ok (Some {| change_product := product; change_instance := instance; change_action := Remove;
                change_from := Some version; change_to := version; change_release := target;
                change_restore := None; change_kind := Software |})
  end.

Definition removals (ctx : Ctx) (executors : Executors) (env : string) (ps : gmap string string)
    (subscribed : gset string) (pending : list PendingChange) :
    result (list PendingChange) planning_error :=
  let removable := deployed_host_instances ctx ps subscribed in
  match executors_host executors with
  | Ok host =>
    let? records := ok_or (applied_states host env) (RecordUnavailable env) in
    let removable := recorded_host_instances ctx ps subscribed records removable in
    try_fold (λ pending instance,
      let? change := removal_change ctx host env ps instance in
      Ok (match change with Some c => pending ++ [c] | None => pending end))
      pending (btree_set_iter removable)
  | Err error =>
    match btree_set_iter removable with
    | product :: _ => Err (HostRemovalUnavailable product error)
    | [] => Ok pending
    end
  end.

(** *** Profiles and re-renders *)

Definition product_actions (pending : list PendingChange) : list (string * Action) :=
  (λ c, (change_product c, change_action c)) <$> pending.

Definition release_profile (ctx : Ctx) (release : string) : option CompatibilityProfile :=
  m ← readable_manifest ctx release; compatibility m.

Definition target_profiles (ctx : Ctx) (pending : list PendingChange) :
    gmap string CompatibilityProfile :=
  foldl (λ acc c,
    if bool_decide (change_action c = Remove) || is_some_b (acc !! change_product c) then acc
    else match release_profile ctx (pin_release_id (change_release c)) with
         | Some profile => <[change_product c := profile]> acc
         | None => acc
         end) ∅ pending.

Definition installed_profiles (ctx : Ctx) (ps : gmap string string) :
    gmap string CompatibilityProfile :=
  foldl (λ acc entry,
    match strip_prefix "deployed." entry.1 with
    | None => acc
    | Some instance =>
      let product := product_for_instance ps instance in
      if is_some_b (acc !! product) then acc
      else match release_profile ctx (deployed_release_id ps instance entry.2) with
           | Some profile => <[product := profile]> acc
           | None => acc
           end
    end) ∅ (hash_iter ps).

Definition remaining_versions (ps : gmap string string) (pending : list PendingChange) :
    gmap string string :=
  foldl (λ acc c,
    if decide (change_action c = Remove) then delete (change_product c) acc
    else <[change_product c := change_to c]> acc)
    (foldl (λ acc entry,
       match strip_prefix "deployed." entry.1 with
       | Some product => <[product := entry.2]> acc
       | None => acc
       end) ∅ (hash_iter ps))
    pending.

(** Profiles of the products that have a version. *)
Definition versioned (versions : string → option string)
    (profiles : gmap string CompatibilityProfile) : DeployedSet :=
  map_imap (λ product profile, version ← versions product; Some (version, profile)) profiles.

Definition rerender_change (ctx : Ctx) (env : string) (env_obj : Object)
    (pending_products : gset string) (hosts : gset string)
    (remaining : gmap string CompatibilityProfile)
    (current_deployed remaining_deployed : DeployedSet)
    (extra : list PendingChange) (entry : string * CompatibilityProfile) :
    result (list PendingChange) planning_error :=
  let '(product, profile) := entry in
  if bool_decide (product ∈ pending_products) || bool_decide (product ∈ hosts) then Ok extra
  else
    match properties env_obj !! ("deployed." +:+ product) with
    | None => Ok extra
    | Some version =>
      let? current := document_for product profile current_deployed in
      let? result_document := match remaining !! product with
                              | Some p => document_for product p remaining_deployed
                              | None => Ok None
                              end in
      let result_digest := match result_document with
                           | Some d => document_digest d
                           | None => ""
                           end in
      let changed :=
        negb (bool_decide (current = result_document))
        || (negb (str_is_empty result_digest)
            && negb (bool_decide (result_digest = applied_digest env_obj product))) in
      if negb changed then Ok extra
      else
        match readable_manifest ctx (release_id product version) with
        | None => Ok extra
        | Some m =>
          if decide (deploy_executor m = Some Host) then Ok extra
          else
            let? target := pin_release ctx (release_id product version) env in
            Ok (extra ++ [{| change_product := product; change_instance := product;
                             change_action := Restart; change_from := Some version;
                             change_to := version; change_release := target;
                             change_restore := None; change_kind := product_kind m |}])
        end
    end.

(** [schedule_dependency_rerenders]. *)
Definition schedule_dependency_rerenders (ctx : Ctx) (env : string) (pending : list PendingChange)
    (installed target : gmap string CompatibilityProfile) (env_obj : Object) (hosts : gset string) :
    result (list PendingChange) planning_error :=
  let ps := properties env_obj in
  let remaining := overlay_profiles installed target (product_actions pending) in
  let versions := remaining_versions ps pending in
  let current_deployed := versioned (λ product, ps !! ("deployed." +:+ product)) installed in
  let remaining_deployed := versioned (λ product, versions !! product) remaining in
  let? extra :=
    try_fold (rerender_change ctx env env_obj (list_to_set (change_product <$> pending)) hosts
                remaining current_deployed remaining_deployed) [] (btree_iter installed) in
  Ok (pending ++ extra).

(** *** The order of a plan *)

(** Dependents that are re-rendered after a provider went away. *)
Definition rerender_after_reverse (pending : list PendingChange) (order : ContractPlanOrder) :
    gset string :=
  let reverse_providers : gset string :=
    list_to_set (change_product <$> filter (λ c, reverse_contract_action (change_action c) = true)
                                           pending) in
  list_to_set (omap (λ '(provider, dependent, _),
    if bool_decide (provider ∈ reverse_providers)
       && existsb (λ c, bool_decide (change_product c = dependent)
                        && bool_decide (change_action c = Restart)) pending
    then Some dependent else None) (installed_edges order)).

Definition is_agent (c : PendingChange) : bool := bool_decide (change_product c = SELF_PRODUCT).
Definition is_not_host (hosts : gset string) (c : PendingChange) : bool :=
  negb (bool_decide (change_product c ∈ hosts)).
Definition band (rerenders : gset string) (c : PendingChange) : Z :=
  if bool_decide (change_action c = Restart) && bool_decide (change_product c ∈ rerenders) then 2
  else if decide (change_action c = Remove) then 1 else 0.
Definition rollout (c : PendingChange) : Z :=
  model_routing_rollout_rank (change_kind c) (change_action c).
Definition contract_rank (order : ContractPlanOrder) (c : PendingChange) : Z :=
  default u32_max (plan_ranks order !! change_product c).

(** The comparator of [pending.sort_by]. *)
Definition pending_cmp (hosts rerenders : gset string) (order : ContractPlanOrder) :
    PendingChange → PendingChange → comparison :=
  cmp_lex (cmp_on is_agent bool_cmp)
    (cmp_lex (cmp_on (band rerenders) Z.compare)
      (cmp_lex (cmp_on (is_not_host hosts) bool_cmp)
        (cmp_lex (cmp_on rollout Z.compare)
          (cmp_lex (cmp_on (contract_rank order) Z.compare)
            (cmp_lex (cmp_on change_product String.compare)
              (cmp_on change_instance String.compare)))))).

Definition retain_held (s : Snapshot) (pending : list PendingChange) : list PendingChange :=
  let pending := if held_model s
                 then filter (λ c, change_kind c ≠ RoutingConfig) pending else pending in
  if held_routing s
  then filter (λ c, change_kind c ≠ ModelRuntime
                    ∨ (change_action c ≠ Downgrade ∧ change_action c ≠ Rollback)) pending
  else pending.

(** The ordered, validated changes. *)
Definition order_pending (hosts : gset string) (pending : list PendingChange)
    (target installed : gmap string CompatibilityProfile) :
    result (list PendingChange) planning_error :=
  let? order := map_err OrderRefused (contract_plan_order (product_actions pending) target installed) in
  let ordered := sort_by (pending_cmp hosts (rerender_after_reverse pending order) order) pending in
  let? _ := map_err RolloutRefused (validate_model_routing_rollout_order
              ((λ c, (change_kind c, change_action c)) <$> ordered)) in
  let? _ := map_err OrderRefused (refuse_inverted_contract_order (product_actions ordered)
              (target_edges order) (installed_edges order) (overlay_edges order)) in
  Ok ordered.

Definition change_step (env : string) (health_only : gset string) (index : nat) (c : PendingChange) :
    Step := {|
  step_id := env_id env +:+ ":step:" +:+ pretty index;
  step_order := u32_of_usize index;
  step_product := change_product c;
  step_instance := named_instance (change_instance c) (change_product c);
  step_action := change_action c;
  step_from := change_from c;
  step_to := change_to c;
  step_release_id := pin_release_id (change_release c);
  step_release_digest := pin_digest (change_release c);
  step_artifact_digest := pin_artifact_digest (change_release c);
  step_workdir := pin_workdir (change_release c);
  step_restore := change_restore c;
  step_host := if decide (change_product c ∈ health_only)
               then Some {| host_action := HostHealth; expected_generation := 0 |} else None |}.

Definition no_duplicate_instances (subs : list Subscription) :
    result (gset string) planning_error :=
  try_fold (λ seen sub,
    bail_if bool_decide (sub_instance sub ∈ seen) with (DuplicateInstance (sub_instance sub)) in
    Ok ({[sub_instance sub]} ∪ seen)) ∅ subs.

(** The snapshot before its holds are written: inputs, steps, holds. *)
Definition snapshot_changes (policy : ConvergencePolicy) (ctx : Ctx) (executors : Executors)
    (env : string) (now : Z) :
    result (Object * Snapshot * list PendingChange) planning_error :=
  let? env_obj := active_environment ctx env in
  let? _ := admit_plan branch_pin_matches env_obj now in
  let? subs := list_subscriptions ctx env_obj in
  let? instances := no_duplicate_instances subs in
  let? s := try_fold (subscription_step policy ctx executors env env_obj) empty_snapshot subs in
  let? pending := removals ctx executors env (properties env_obj) instances (snap_pending s) in
  let? _ := refuse_second_one_instance (product_instances s) in
  let pending := retain_held s pending in
  let target := target_profiles ctx pending in
  let installed := installed_profiles ctx (properties env_obj) in
  let? pending := schedule_dependency_rerenders ctx env pending installed target env_obj
                    (host_products s) in
  let? ordered := order_pending (host_products s) pending target installed in
  Ok (env_obj, s, ordered).

(** [compute_snapshot_with_policy]. *)
Definition compute_snapshot_with_policy (policy : ConvergencePolicy) (ctx : Ctx)
    (executors : Executors) (env : string) (now : Z) :
    result (list DesiredStateInput * list Step * Ctx) planning_error :=
  let? (_, s, ordered) := snapshot_changes policy ctx executors env now in
  let? ctx' := persist_dependency_holds ctx env (hold_sets s) (hold_clears s) now in
  Ok (sort_by (cmp_on input_product String.compare) (snap_inputs s),
      imap (change_step env (host_health_only s)) ordered, ctx').
End Convergence.

(** ** The order of a plan *)

Section OrderProofs.
Context {SV : Semver} {MF : ManifestFormat} {HO : HashOrder} {PS : PlanningServices}.

Lemma cmp_lex_le {A} (c1 c2 : A → A → comparison) x y :
  cmp_lex c1 c2 x y ≠ Gt → c1 x y ≠ Gt ∧ (c1 x y = Eq → c2 x y ≠ Gt).
Proof. unfold cmp_lex, then_with. destruct (c1 x y); naive_solver. Qed.

Lemma bool_cmp_le a b : bool_cmp a b ≠ Gt → a = true → b = true.
Proof. by destruct a, b. Qed.

Lemma cmp_on_bool_eq {A} (f : A → bool) x y : f x = f y → cmp_on f bool_cmp x y = Eq.
Proof. unfold cmp_on. intros ->. by destruct (f y). Qed.

Lemma cmp_on_Z_le {A} (f : A → Z) x y : cmp_on f Z.compare x y ≠ Gt → f x ≤ f y.
Proof. done. Qed.

Lemma cmp_on_Z_eq {A} (f : A → Z) x y : f x = f y → cmp_on f Z.compare x y = Eq.
Proof. unfold cmp_on. intros ->. apply Z.compare_refl. Qed.

#[local] Instance pending_cmp_ordered hosts rerenders order :
  Ordered (pending_cmp hosts rerenders order).
Proof. unfold pending_cmp. apply _. Qed.

(** A change that takes something back from its dependents. *)
Definition takes_back (c : PendingChange) : Prop :=
  change_action c = Remove ∨ change_action c = Downgrade ∨ change_action c = Rollback.

(** The restart of a dependent of something the plan takes back: it follows
    the removals. *)
Definition follows_removals (pending : list PendingChange) (order : ContractPlanOrder)
    (c : PendingChange) : Prop :=
  change_action c = Restart
  ∧ ∃ p contract, p ∈ pending ∧ takes_back p
      ∧ (change_product p, change_product c, contract) ∈ installed_edges order.

(** Both or neither are the runtime agent's own release. *)
Definition agent_alike (a b : PendingChange) : Prop :=
  change_product a = "tenkai-runtime" ↔ change_product b = "tenkai-runtime".

(** Both or neither are removals, and both or neither follow the removals. *)
Definition phase_alike (pending : list PendingChange) (order : ContractPlanOrder)
    (a b : PendingChange) : Prop :=
  (change_action a = Remove ↔ change_action b = Remove)
  ∧ (follows_removals pending order a ↔ follows_removals pending order b).

(** What it takes for the change [a] of a plan to stand before [b]. *)
Record may_precede (hosts : gset string) (pending : list PendingChange) (order : ContractPlanOrder)
    (a b : PendingChange) : Prop := {
  mp_agent : change_product a = "tenkai-runtime" → change_product b = "tenkai-runtime";
  mp_removal : agent_alike a b → change_action a = Remove →
    change_action b = Remove ∨ follows_removals pending order b;
  mp_late : agent_alike a b → follows_removals pending order a → follows_removals pending order b;
  mp_host : agent_alike a b → phase_alike pending order a b →
    change_product b ∈ hosts → change_product a ∈ hosts;
  mp_rollout : agent_alike a b → phase_alike pending order a b →
    (change_product a ∈ hosts ↔ change_product b ∈ hosts) →
    (change_kind a = RoutingConfig → change_kind b = ModelRuntime →
       (change_action a = Install ∨ change_action a = Upgrade ∨ change_action a = Restart) →
       takes_back b)
    ∧ (change_kind a = ModelRuntime → change_kind b = RoutingConfig → takes_back a → ¬ takes_back b);
  mp_contract : agent_alike a b → phase_alike pending order a b →
    (change_product a ∈ hosts ↔ change_product b ∈ hosts) →
    change_kind a = change_kind b → change_action a = change_action b →
    ∀ ra rb, plan_ranks order !! change_product a = Some ra →
      plan_ranks order !! change_product b = Some rb → ra ≤ rb;
  mp_instance : change_product a = change_product b → change_kind a = change_kind b →
    change_action a = change_action b →
    String.compare (change_instance a) (change_instance b) ≠ Gt
}.

Lemma follows_removals_spec pending order c :
  c ∈ pending →
  follows_removals pending order c
  ↔ change_action c = Restart ∧ change_product c ∈ rerender_after_reverse pending order.
Proof.
  intros Hc. unfold follows_removals, rerender_after_reverse. split; intros [Hr H]; (split; [done|]).
  - destruct H as (p & contract & Hp & Hback & Hedge). apply elem_of_list_to_set, list_elem_of_omap.
    exists (change_product p, change_product c, contract). split; [done|].
    rewrite bool_decide_eq_true_2; simpl.
    + destruct (existsb _ pending) eqn:He; [done|]. exfalso.
      assert (existsb (λ x, bool_decide (change_product x = change_product c)
                            && bool_decide (change_action x = Restart)) pending = true) as Ht.
      { apply existsb_elem. exists c. split; [done|]. by rewrite !bool_decide_eq_true_2. }
      congruence.
    + apply elem_of_list_to_set, list_elem_of_fmap. exists p. split; [done|].
      apply list_elem_of_filter. split; [|done]. by destruct Hback as [->|[->| ->]].
  - apply elem_of_list_to_set, list_elem_of_omap in H as ([[provider dependent] contract] & Hedge & H).
    destruct (bool_decide_reflect (provider ∈ (list_to_set (change_product <$>
      filter (λ c, reverse_contract_action (change_action c) = true) pending) : gset string)))
      as [Hin|]; simpl in H; [|done].
    destruct (existsb _ pending); [|done]. injection H as ->.
    apply elem_of_list_to_set, list_elem_of_fmap in Hin as (p & -> & [Hback Hp]%list_elem_of_filter).
    exists p, contract. split_and!; [done| |done]. unfold takes_back.
    destruct (change_action p); (done || auto).
Qed.

Lemma is_agent_alike a b : agent_alike a b → is_agent a = is_agent b.
Proof. intros H. unfold is_agent. by apply bool_decide_ext. Qed.

Lemma band_spec pending order c :
  c ∈ pending →
  (band (rerender_after_reverse pending order) c = 2 ∧ follows_removals pending order c)
  ∨ (¬ follows_removals pending order c
     ∧ ((band (rerender_after_reverse pending order) c = 1 ∧ change_action c = Remove)
        ∨ (band (rerender_after_reverse pending order) c = 0 ∧ change_action c ≠ Remove))).
Proof.
  intros Hc. rewrite follows_removals_spec by done. unfold band.
  destruct (bool_decide_reflect (change_action c = Restart)); simpl.
  - destruct (bool_decide_reflect (change_product c ∈ rerender_after_reverse pending order)); simpl;
      [by left|right]. split; [tauto|]. right. rewrite decide_False by congruence. split; congruence.
  - right. split; [tauto|]. case_decide; auto.
Qed.

Lemma band_alike pending order a b :
  a ∈ pending → b ∈ pending → phase_alike pending order a b →
  band (rerender_after_reverse pending order) a = band (rerender_after_reverse pending order) b.
Proof.
  intros Ha Hb [Hr Hf]. pose proof (band_spec pending order a Ha). pose proof (band_spec pending order b Hb).
  intuition congruence.
Qed.

Lemma hosts_alike hosts a b :
  (change_product a ∈ hosts ↔ change_product b ∈ hosts) → is_not_host hosts a = is_not_host hosts b.
Proof. intros H. unfold is_not_host. f_equal. by apply bool_decide_ext. Qed.

Lemma pending_cmp_precede hosts pending order a b :
  a ∈ pending → b ∈ pending →
  pending_cmp hosts (rerender_after_reverse pending order) order a b ≠ Gt →
  may_precede hosts pending order a b.
Proof.
  intros Ha Hb. unfold pending_cmp. intros [H1 H]%cmp_lex_le.
  pose proof (band_spec pending order a Ha) as Ba. pose proof (band_spec pending order b Hb) as Bb.
  assert (Hband : agent_alike a b → band (rerender_after_reverse pending order) a
                                    ≤ band (rerender_after_reverse pending order) b).
  { intros Hag%is_agent_alike%cmp_on_bool_eq. apply H in Hag as [Hz _]%cmp_lex_le. by apply cmp_on_Z_le. }
  assert (Hrest : agent_alike a b → phase_alike pending order a b →
    cmp_lex (cmp_on (is_not_host hosts) bool_cmp)
      (cmp_lex (cmp_on rollout Z.compare)
        (cmp_lex (cmp_on (contract_rank order) Z.compare)
          (cmp_lex (cmp_on change_product String.compare)
            (cmp_on change_instance String.compare)))) a b ≠ Gt).
  { intros Hag%is_agent_alike%cmp_on_bool_eq Hp%band_alike; [|done..].
    apply H in Hag as [_ Hz]%cmp_lex_le. apply Hz, cmp_on_Z_eq, Hp. }
  assert (Hroll : agent_alike a b → phase_alike pending order a b →
    (change_product a ∈ hosts ↔ change_product b ∈ hosts) →
    cmp_lex (cmp_on rollout Z.compare)
        (cmp_lex (cmp_on (contract_rank order) Z.compare)
          (cmp_lex (cmp_on change_product String.compare)
            (cmp_on change_instance String.compare))) a b ≠ Gt).
  { intros Hag Hp Hh%hosts_alike%cmp_on_bool_eq. apply (Hrest Hag) in Hp as [_ Hz]%cmp_lex_le.
    by apply Hz. }
  split.
  - intros Hs. assert (is_agent b = true) as Hy; [|by apply bool_decide_eq_true in Hy].
    eapply bool_cmp_le; [exact H1|]. by apply bool_decide_eq_true.
  - intros Hag Hr. specialize (Hband Hag). assert (Hn : change_action a ≠ Restart) by congruence.
    assert (¬ follows_removals pending order a) by (by intros [? _]).
    destruct Bb as [[? ?]|[_ [[? ?]|[? ?]]]]; [by right|by left|].
    destruct Ba as [[? ?]|[_ [[? ?]|[? ?]]]]; [done|lia|done].
  - intros Hag Hl. specialize (Hband Hag). destruct Ba as [[? ?]|[? _]]; [|done].
    destruct Bb as [[? ?]|[_ [[? ?]|[? ?]]]]; [done|lia|lia].
  - intros Hag Hp Hin. apply (Hrest Hag) in Hp as [Hh _]%cmp_lex_le.
    destruct (is_not_host hosts a) eqn:Hx.
    + apply bool_cmp_le in Hh; [|done]. unfold is_not_host in Hh.
      apply negb_true_iff, bool_decide_eq_false in Hh. done.
    + unfold is_not_host in Hx. by apply negb_false_iff, bool_decide_eq_true in Hx.
  - intros Hag Hp Hh. apply (Hroll Hag Hp) in Hh as [Hr%cmp_on_Z_le _]%cmp_lex_le.
    unfold rollout, takes_back in *.
    split; intros Ka Kb; rewrite Ka, Kb in Hr; destruct (change_action a), (change_action b);
      vm_compute in Hr; naive_solver.
  - intros Hag Hp Hh Hk Hact ra rb Hra Hrb. apply (Hroll Hag Hp) in Hh as [_ Hz]%cmp_lex_le.
    assert (Hreq : cmp_on rollout Z.compare a b = Eq)
      by (apply cmp_on_Z_eq; unfold rollout; by rewrite Hk, Hact).
    apply Hz in Hreq as [Hc%cmp_on_Z_le _]%cmp_lex_le. unfold contract_rank in Hc.
    by rewrite Hra, Hrb in Hc.
  - intros Hprod Hk Hact.
    assert (Hag : agent_alike a b) by (unfold agent_alike; by rewrite Hprod).
    assert (Hp : phase_alike pending order a b).
    { split; [by rewrite Hact|]. by rewrite !follows_removals_spec, Hprod, Hact by done. }
    assert (Hh : change_product a ∈ hosts ↔ change_product b ∈ hosts) by by rewrite Hprod.
    apply (Hroll Hag Hp) in Hh as [_ Hz]%cmp_lex_le.
    assert (Hreq : cmp_on rollout Z.compare a b = Eq)
      by (apply cmp_on_Z_eq; unfold rollout; by rewrite Hk, Hact).
    apply Hz in Hreq as [_ Hc]%cmp_lex_le.
    assert (Hceq : cmp_on (contract_rank order) Z.compare a b = Eq)
      by (apply cmp_on_Z_eq; unfold contract_rank; by rewrite Hprod).
    apply Hc in Hceq as [_ Hn]%cmp_lex_le. apply Hn. unfold cmp_on. rewrite Hprod.
    pose proof (String.compare_antisym (change_product b) (change_product b)) as Hs.
    by destruct (String.compare (change_product b) (change_product b)).
Qed.

(** C36: the changes of a snapshot, ordered.  Nothing is dropped or added.  The
    runtime agent's own release stands last.  Otherwise nothing but removals
    stands after a removal, except the restarts of dependents of what the plan
    takes back (removes, downgrades or rolls back), which end the plan; of
    changes alike in that, those of host products come first; then a routing
    configuration never moves forward before a model that does not go back, nor
    a model back before a routing configuration that goes back too; then, of
    changes of one kind and action, the product of the lower contract rank
    comes first, and the instances of one product come in the order of their
    names.  The accepted order never mixes rollout directions and, with one
    change per product, respects every contract edge. *)
Theorem order_pending_order hosts pending target installed ordered :
  order_pending hosts pending target installed = Ok ordered →
  ordered ≡ₚ pending
  ∧ (∃ order, contract_plan_order (product_actions pending) target installed = Ok order
     ∧ (∀ i j a b, (i < j)%nat → ordered !! i = Some a → ordered !! j = Some b →
          may_precede hosts pending order a b)
     ∧ (NoDup (change_product <$> ordered) →
        respects_contracts (product_actions ordered) (target_edges order) (installed_edges order)
          (overlay_edges order)))
  ∧ ¬ mixed_directions ((λ c, (change_kind c, change_action c)) <$> ordered).
Proof.
  unfold order_pending. intros H. ok_inv H. injection H as <-.
  set (cmp := pending_cmp hosts _ x) in *. split; [apply sort_by_perm|]. split.
  - exists x. split; [done|]. split.
    + intros i j a b Hij Hi Hj.
      assert (Hin : ∀ c k, sort_by cmp pending !! k = Some c → c ∈ pending).
      { intros c k Hk. apply list_elem_of_lookup_2 in Hk. by rewrite sort_by_perm in Hk. }
      apply pending_cmp_precede; [by eapply Hin|by eapply Hin|].
      eapply (StronglySorted_lookup (λ a b, cmp a b ≠ Gt)); [|exact Hi|exact Hj|done].
      apply sort_by_sorted, _.
    + intros Hnd. destruct x1. apply inverted_order_checked; [|exact Hg1].
      unfold product_actions. rewrite <- list_fmap_compose. exact Hnd.
  - destruct x0. by apply validate_rollout_iff in Hg0 as [? _].
Qed.
End OrderProofs.

(** ** What a snapshot gathers *)

Section SnapshotProofs.
Context {SV : Semver} {MF : ManifestFormat} {HO : HashOrder} {PS : PlanningServices}.
Context (policy : ConvergencePolicy) (ctx : Ctx) (executors : Executors) (env : string).
Context (env_obj : Object).

Definition promoted (sub : Subscription) : Prop :=
  property (sub_channel sub) "current_version" ≠ ""
  ∧ property (sub_channel sub) "current_release" ≠ "".

Definition channel_head (sub : Subscription) : ChannelHead := {|
  head_product := sub_product sub;
  head_version := property (sub_channel sub) "current_version";
  head_release := property (sub_channel sub) "current_release" |}.

(** The release a subscription resolves to, pinned and not recalled. *)
Record resolves (sub : Subscription) (selected : SelectedRelease) (target : ReleasePin) : Prop := {
  rs_selected : select ctx env_obj env (channel_head sub) = Ok selected;
  rs_recalled : release_is_recalled ctx (selected_release selected) = false;
  rs_target : lookup_release ctx (selected_release selected) env = Some target
}.

(** The recorded input of a subscription. *)
Definition input_of (sub : Subscription) (selected : SelectedRelease) (target : ReleasePin) :
    DesiredStateInput := {|
  input_product := sub_product sub;
  input_instance := named_instance (sub_instance sub) (sub_product sub);
  input_channel := property (sub_channel sub) "channel";
  input_channel_id := object_id (sub_channel sub);
  input_desired_version := selected_version selected;
  input_release_id := selected_release selected; input_release_digest := pin_digest target;
  input_artifact_digest := pin_artifact_digest target;
  input_deployed_version := properties env_obj !! ("deployed." +:+ sub_instance sub) |}.

(** The action that brings a deployment from the version it has, if any, to
    the desired one: back when both are versions and the desired one is lower,
    else on. *)
Definition moves (current : option string) (desired : string) (a : Action) : Prop :=
  match current with
  | None => a = Install
  | Some v =>
    (a = Downgrade ∧ ∃ c d, Version_parse v = Some c ∧ Version_parse desired = Some d
       ∧ version_lt d c = true)
    ∨ (a = Upgrade ∧ ∀ c d, Version_parse v = Some c → Version_parse desired = Some d →
         version_lt d c = false)
  end.

(** The applier's record of an input of a host release. *)
Definition recorded_host (i : DesiredStateInput) (m : Manifest) (record : AppliedStateRecord) : Prop :=
  readable_manifest ctx (input_release_id i) = Some m ∧ deploy_executor m = Some Host
  ∧ host_record executors env (input_product i) = Ok record.

(** The host has the desired release and owes its health check. *)
Definition needs_health (i : DesiredStateInput) : Prop :=
  ∃ m record release, recorded_host i m record ∧ record_state record = StateApplied release
    ∧ hr_version release = input_desired_version i ∧ declares_health m = true
    ∧ is_last_health_ok record release = false.

(** The host has another release, or none. *)
Definition needs_install (i : DesiredStateInput) : Prop :=
  ∃ m record, recorded_host i m record
    ∧ ∀ release, record_state record = StateApplied release →
        hr_version release ≠ input_desired_version i.

(** The environment has the desired version, on a host also by the applier's
    record and with its health check passed. *)
Definition settled_already (i : DesiredStateInput) : Prop :=
  input_deployed_version i = Some (input_desired_version i)
  ∧ (is_host_release ctx (input_release_id i) = true →
     ∃ m record release, recorded_host i m record ∧ record_state record = StateApplied release
       ∧ hr_version release = input_desired_version i
       ∧ (declares_health m = true → is_last_health_ok record release = true)).

(** What a change does for an input. *)
Inductive change_why (i : DesiredStateInput) (c : PendingChange) : Prop :=
| WhyMoves :
    is_host_release ctx (input_release_id i) = false →
    input_deployed_version i ≠ Some (input_desired_version i) →
    change_from c = input_deployed_version i →
    moves (input_deployed_version i) (input_desired_version i) (change_action c) → change_why i c
| WhyRestarts :
    is_host_release ctx (input_release_id i) = false →
    input_deployed_version i = Some (input_desired_version i) →
    change_from c = input_deployed_version i → change_action c = Restart → change_why i c
| WhyInstalls :
    needs_install i → change_from c = input_deployed_version i → change_action c = Install →
    change_why i c
| WhyChecks :
    needs_health i → change_from c = Some (input_desired_version i) → change_action c = Restart →
    change_why i c.

(** Why a deployed release of the desired version is restarted. *)
Inductive restart_reason (sub : Subscription) (selected : SelectedRelease) (target : ReleasePin) : Prop :=
(** Its executor sees it absent or different. *)
| ObservedWrong m adapter status :
    observe_live policy = true →
    stored_release_manifest ctx (selected_release selected) = Ok m →
    observe_executor executors m = Ok (Some adapter) →
    observe adapter {|
      observe_product := sub_product sub; observe_version := selected_version selected;
      observe_environment := env; observe_workdir := pin_workdir target;
      observe_release := selected_release selected;
      observe_overlays := product_overlays env_obj (sub_product sub);
      observe_instance := named_instance (sub_instance sub) (sub_product sub) |} = Some status →
    status = ObservedAbsent ∨ status = ObservedMismatched → restart_reason sub selected target
(** An operator plans the release whose target failed here. *)
| FailedHere :
    observe_live policy = false →
    properties env_obj !! ("failed_target." +:+ sub_instance sub) = Some (selected_release selected) →
    restart_reason sub selected target
(** Its overlays are not the ones last applied. *)
| OverlaysMoved :
    overlay_digest (product_overlays env_obj (sub_product sub))
    ≠ property env_obj ("applied_config." +:+
        (if str_is_empty (sub_instance sub) then sub_product sub else sub_instance sub)) →
    restart_reason sub selected target
(** It was last seen unhealthy. *)
| Unhealthy :
    properties env_obj !! ("deployment_health." +:+ sub_instance sub) = Some "unhealthy" →
    restart_reason sub selected target.

(** A change that moves a subscription to its resolved release. *)
Record converges (sub : Subscription) (selected : SelectedRelease) (target : ReleasePin)
    (c : PendingChange) : Prop := {
  cv_product : change_product c = sub_product sub;
  cv_instance : change_instance c = sub_instance sub;
  cv_to : change_to c = selected_version selected;
  cv_release : change_release c = target;
  cv_kind : change_kind c = selected_kind selected;
  cv_why : change_why (input_of sub selected target) c;
  cv_restart : change_action c = Restart →
    needs_health (input_of sub selected target) ∨ restart_reason sub selected target;
  cv_restore : ∀ v, is_host_release ctx (selected_release selected) = false →
    change_from c = Some v → v ≠ change_to c →
    if release_is_recalled ctx (release_id (sub_product sub) v) then change_restore c = None
    else change_restore c = lookup_release ctx (release_id (sub_product sub) v) env
         ∧ is_Some (change_restore c);
  cv_known : is_host_release ctx (selected_release selected) = false →
    health_is (properties env_obj) (sub_instance sub) "unknown" = false
}.

(** Elsewhere than on a host a change starts from what is deployed. *)
Lemma converges_current sub selected target c :
  converges sub selected target c →
  is_host_release ctx (selected_release selected) = true
  ∨ (change_from c = properties env_obj !! ("deployed." +:+ sub_instance sub)
     ∧ health_is (properties env_obj) (sub_instance sub) "unknown" = false).
Proof.
  intros Hc. destruct (is_host_release ctx (selected_release selected)) eqn:Hh; [by left|right].
  split; [|by eapply cv_known]. destruct (cv_why _ _ _ _ Hc) as [? ? Hf ?|? ? Hf ?|Hn ? ?|Hn ? ?]; [done|done|..];
    exfalso; destruct Hn as (m & record & Hn); simpl in Hn; unfold is_host_release in Hh;
    [destruct Hn as ((Hm & He & _) & _)|destruct Hn as (release & (Hm & He & _) & _)];
    simpl in Hm; rewrite Hm in Hh; simpl in Hh; by apply bool_decide_eq_false in Hh.
Qed.

Lemma converges_keeps sub selected target c : converges sub selected target c → change_action c ≠ Remove.
Proof.
  intros Hc. destruct (cv_why _ _ _ _ Hc) as [? ? ? Hm|? ? ? Ha|? ? Ha|? ? Ha]; [|congruence..].
  revert Hm. unfold moves. destruct (input_deployed_version _); [|by intros ->].
  by intros [[-> _]|[-> _]].
Qed.

Lemma classify_change_moves a b : moves (Some a) b (classify_change a b).
Proof.
  unfold moves, classify_change. destruct (Version_parse a) as [c|], (Version_parse b) as [d|];
    try (right; split; [done|]; intros; simplify_eq).
  destruct (version_lt d c) eqn:Hlt; [left; split; [done|]; by exists c, d|].
  right. split; [done|]. by intros c' d' [= <-] [= <-].
Qed.

Lemma moves_forward v b a : moves (Some v) b a → a ≠ Restart.
Proof. by intros [[-> _]|[-> _]]. Qed.

Lemma not_health_of_software i : is_host_release ctx (input_release_id i) = false → ¬ needs_health i.
Proof.
  unfold is_host_release. intros Hh (m & record & release & (Hm & He & _) & _). rewrite Hm in Hh. simpl in Hh.
  by rewrite bool_decide_eq_false in Hh.
Qed.

Lemma observed_restart_reason sub selected target b :
  observed_restart policy ctx executors env env_obj (sub_product sub) (sub_instance sub)
    (selected_version selected) (selected_release selected) target = Ok b →
  b.1 = true → restart_reason sub selected target.
Proof.
  unfold observed_restart. destruct (observe_live policy) eqn:Hl.
  - intros H. ok_inv H. destruct x0 as [adapter|]; [|by injection H as <-]. ok_inv H.
    injection H as <-. simpl. intros Hs.
    eapply (ObservedWrong _ _ _ x adapter x0); try done. destruct x0; (done || auto).
  - intros [= <-]. simpl. unfold failed_target_is_held. intros Hf. apply FailedHere; [done|].
    revert Hf. destruct (properties env_obj !! _) as [failed|]; simpl; [|done].
    by intros ->%bool_decide_eq_true.
Qed.

(** What a subscription's release leaves to do: a change, of which the flag
    says whether it is a health check alone, or nothing. *)
Definition left_to_do (sub : Subscription) (selected : SelectedRelease) (target : ReleasePin)
    (change : option PendingChange) (only : bool) : Prop :=
  (only = true ↔ needs_health (input_of sub selected target)) ∧
  match change with
  | Some c => converges sub selected target c
  | None => settled_already (input_of sub selected target)
  end.

Lemma software_change_ok sub selected target change :
  is_host_release ctx (selected_release selected) = false →
  health_is (properties env_obj) (sub_instance sub) "unknown" = false →
  software_change policy ctx executors env env_obj (sub_product sub) (sub_instance sub)
    (selected_version selected) (selected_release selected) target (selected_kind selected)
    (properties env_obj !! ("deployed." +:+ sub_instance sub)) = Ok change →
  left_to_do sub selected target change false.
Proof.
  intros Hsoft Hknown. unfold software_change.
  assert (Hnot : false = true ↔ needs_health (input_of sub selected target)).
  { split; [done|]. intros Hn. by apply not_health_of_software in Hn. }
  destruct (properties env_obj !! _) as [v|] eqn:Hdep;
    [|intros [= <-]; split; [done|]; split; simpl; try done; by apply WhyMoves; simpl; rewrite ?Hdep].
  case_decide as Hv; intros H.
  - subst v. apply bind_ok in H as ([restart host] & Hobs & H). injection H as <-. split; [done|].
    destruct (_ && _) eqn:Hr; [|split; [done|]; simpl; by rewrite Hsoft].
    split; simpl; try done.
    + by apply WhyRestarts.
    + intros _. right. apply andb_true_iff in Hr as [Hr _].
      apply orb_true_iff in Hr as [[Hr|Hr]%orb_true_iff|Hr].
      * by eapply observed_restart_reason.
      * apply OverlaysMoved. by apply negb_true_iff, bool_decide_eq_false in Hr.
      * apply Unhealthy. revert Hr. unfold health_is.
        destruct (properties env_obj !! ("deployment_health." +:+ sub_instance sub)); simpl; [|done].
        by intros ->%bool_decide_eq_true.
    + intros v _ [= <-]. done.
  - apply bind_ok in H as (restore & Hres & H). injection H as <-. split; [done|].
    split; simpl; try done.
    + apply WhyMoves; simpl; rewrite ?Hdep; [done|congruence|done|apply classify_change_moves].
    + intros Hrs. exfalso. eapply moves_forward; [apply classify_change_moves|exact Hrs].
    + intros v' _ [= <-] _. destruct (release_is_recalled _ _); [by injection Hres as <-|].
      apply bind_ok in Hres as (pin & Hpin%ok_or_ok & Hres). injection Hres as <-. by rewrite Hpin.
Qed.

Lemma host_change_ok sub selected target m record change only :
  readable_manifest ctx (selected_release selected) = Some m → deploy_executor m = Some Host →
  host_record executors env (sub_product sub) = Ok record →
  host_change env_obj (sub_product sub) (sub_instance sub) (selected_version selected) target
    (selected_kind selected) (properties env_obj !! ("deployed." +:+ sub_instance sub)) record
    (declares_health m) = Ok (change, only) →
  left_to_do sub selected target change only.
Proof.
  intros Hm Hex Hrec.
  assert (Hof : ∀ m' r', recorded_host (input_of sub selected target) m' r' → m' = m ∧ r' = record).
  { intros m' r' (Hm' & _ & Hr'). simpl in *. split; congruence. }
  assert (Hhost : is_host_release ctx (selected_release selected) = true).
  { unfold is_host_release. rewrite Hm. by apply bool_decide_eq_true. }
  assert (Hrecorded : recorded_host (input_of sub selected target) m record) by by split_and!.
  unfold host_change. destruct (host_progress record _ (declares_health m)) eqn:Hp; unfold host_progress in Hp.
  - destruct (record_state record) as [|release|] eqn:Hs; try done. case_decide as Hv; [|done].
    destruct (declares_health m && _) eqn:Hh; [done|]. intros H. ok_inv H. injection H as <- <-.
    assert (Hpassed : declares_health m = true → is_last_health_ok record release = true).
    { intros Hd. rewrite Hd in Hh. by destruct (is_last_health_ok _ _). }
    split; [split; [done|]|].
    + intros (m' & r' & release' & (-> & ->)%Hof & Hs' & _ & Hd & Hn). rewrite Hs in Hs'. simplify_eq.
      rewrite Hpassed in Hn; done.
    + split; [apply Hg|]. intros _. by exists m, record, release.
  - destruct (record_state record) as [|release|] eqn:Hs; try done. case_decide as Hv; [|done].
    destruct (declares_health m && _) eqn:Hh; [|done]. apply andb_true_iff in Hh as [Hd Hn%negb_true_iff].
    intros [= <- <-].
    assert (Hneeds : needs_health (input_of sub selected target)) by by exists m, record, release.
    split; [done|]. split; simpl; try done; [by apply WhyChecks|by left|congruence..].
  - assert (Hother : ∀ release, record_state record = StateApplied release →
                       hr_version release ≠ selected_version selected).
    { intros release Hs Hv. rewrite Hs, decide_True in Hp by done. by destruct (_ && _). }
    intros [= <- <-]. split; [split; [done|]|].
    + intros (m' & r' & release' & (-> & ->)%Hof & Hs' & Hv & _). by apply Hother in Hv.
    + split; simpl; try done; [|congruence..]. apply WhyInstalls; try done. by exists m, record.
Qed.

Lemma release_host_record_some product release record health :
  release_host_record ctx executors env product release = Ok (Some (record, health)) →
  ∃ m, readable_manifest ctx release = Some m ∧ deploy_executor m = Some Host
    ∧ host_record executors env product = Ok record ∧ health = declares_health m.
Proof.
  unfold release_host_record. destruct (readable_manifest ctx release) as [m|]; [|done].
  case_decide; [|done]. intros (r & Hr & [= <- <-])%bind_ok. by exists m.
Qed.

Lemma release_host_record_none product release :
  release_host_record ctx executors env product release = Ok None →
  is_host_release ctx release = false.
Proof.
  unfold release_host_record, is_host_release. destruct (readable_manifest ctx release) as [m|]; [|done].
  simpl. case_decide as Hh; [|intros _; by apply bool_decide_eq_false].
  by intros (r & _ & H)%bind_ok.
Qed.

(** How one subscription extends a snapshot. *)
Record extends (s s' : Snapshot) (i : DesiredStateInput) (change : option PendingChange)
    (only : bool) : Prop := {
  ex_inputs : snap_inputs s' = snap_inputs s ++ [i];
  ex_pending : snap_pending s' = snap_pending s ++ option_list change;
  ex_model : held_model s' = held_model s;
  ex_routing : held_routing s' = held_routing s;
  ex_health p : p ∈ host_health_only s' ↔ p ∈ host_health_only s ∨ (only = true ∧ p = input_product i)
}.

Lemma push_extends s s1 i change only :
  snap_inputs s1 = snap_inputs s ++ [i] → snap_pending s1 = snap_pending s →
  held_model s1 = held_model s → held_routing s1 = held_routing s →
  (∀ p, p ∈ host_health_only s1 ↔ p ∈ host_health_only s ∨ (only = true ∧ p = input_product i)) →
  extends s (push_change s1 change) i change only.
Proof.
  intros Hi Hp Hm Hr Hh. destruct change; split; simpl; try done; rewrite ?Hp; [done|].
  by rewrite app_nil_r.
Qed.

Lemma converge_release_ok sub selected target s s' :
  converge_release policy ctx executors env env_obj sub selected target s = Ok s' →
  (observe_live policy = true ∧ s' = hold_kind s (selected_kind selected))
  ∨ ∃ change only, extends s s' (input_of sub selected target) change only
      ∧ left_to_do sub selected target change only.
Proof.
  unfold converge_release. intros H. ok_inv H.
  destruct (observe_live policy && _) eqn:Hlive.
  { apply andb_true_iff in Hlive as [? _]. left. by injection H as <-. }
  right. apply bail_ok in H as [_ H]. destruct x as [[record health]|].
  - apply release_host_record_some in Hg0 as (m & Hm & Hex & Hrec & ->).
    apply bind_ok in H as ([change only] & Hc & H). injection H as <-.
    exists change, only. split; [|by eapply host_change_ok]. apply push_extends; try done.
    intros p. simpl. destruct only; simpl; set_solver.
  - apply bind_ok in H as (change & Hc & H). injection H as <-.
    exists change, false. split.
    + apply push_extends; try done. intros p. simpl. naive_solver.
    + apply software_change_ok; [by eapply release_host_record_none|by destruct Hg1|done].
Qed.

Lemma subscription_step_ok s sub s' :
  subscription_step policy ctx executors env env_obj s sub = Ok s' →
  (¬ promoted sub ∧ s' = s)
  ∨ ∃ selected target, (promoted sub ∧ resolves sub selected target)
      ∧ ((observe_live policy = true ∧ snap_inputs s' = snap_inputs s
          ∧ snap_pending s' = snap_pending s ∧ host_health_only s' = host_health_only s)
         ∨ ∃ change only, extends s s' (input_of sub selected target) change only
             ∧ left_to_do sub selected target change only).
Proof.
  unfold subscription_step.
  destruct (str_is_empty (property (sub_channel sub) "current_version")
            || str_is_empty (property (sub_channel sub) "current_release")) eqn:Hp.
  { intros [= <-]. left. split; [|done]. intros [H1 H2].
    apply orb_true_iff in Hp as [Hp|Hp];
      [by destruct (property (sub_channel sub) "current_version")
      |by destruct (property (sub_channel sub) "current_release")]. }
  intros H. ok_inv H. unfold pin_release in Hg1. apply ok_or_ok in Hg1. rename x into selected, x0 into target.
  apply orb_false_iff in Hp as [Hp1 Hp2].
  right. exists selected, target. split; [split; [|by split]|].
  { split; intros Hz; by rewrite Hz in *. }
  set (s0 := add_instance s _ _ _) in H.
  assert (Hext : ∀ s1, snap_inputs s1 = snap_inputs s → snap_pending s1 = snap_pending s →
    held_model s1 = held_model s → held_routing s1 = held_routing s →
    host_health_only s1 = host_health_only s →
    converge_release policy ctx executors env env_obj sub selected target s1 = Ok s' →
    (observe_live policy = true ∧ snap_inputs s' = snap_inputs s ∧ snap_pending s' = snap_pending s
     ∧ host_health_only s' = host_health_only s)
    ∨ ∃ change only, extends s s' (input_of sub selected target) change only
        ∧ left_to_do sub selected target change only).
  { intros s1 H1 H2 H3 H4 H5 [[? ->]|(change & only & [Ei Ep Em Er Eh] & Hc)]%converge_release_ok.
    - left. by split_and!.
    - right. exists change, only. split; [|done]. split; try congruence. intros p. by rewrite Eh, H5. }
  destruct (observe_live policy) eqn:Hlive.
  - apply bind_ok in H as ([held contracts|] & _ & H).
    + injection H as <-. by left.
    + destruct (is_some_b _); by eapply Hext; [..|exact H].
  - apply bind_ok in H as (_ & _ & H). by eapply Hext; [..|exact H].
Qed.

(** The change a plan makes for an input. *)
Record change_for (i : DesiredStateInput) (c : PendingChange) : Prop := {
  cf_product : change_product c = input_product i;
  cf_instance : named_instance (change_instance c) (change_product c) = input_instance i;
  cf_to : change_to c = input_desired_version i;
  cf_digest : pin_digest (change_release c) = input_release_digest i;
  cf_artifact : pin_artifact_digest (change_release c) = input_artifact_digest i;
  cf_pin : lookup_release ctx (input_release_id i) env = Some (change_release c);
  cf_why : change_why i c
}.

Record gathered (subs : list Subscription) (s : Snapshot) : Prop := {
  ga_pending c : c ∈ snap_pending s →
    ∃ sub selected target, sub ∈ subs ∧ resolves sub selected target
                           ∧ converges sub selected target c;
  ga_inputs i : i ∈ snap_inputs s →
    settled_already i ∨ ∃ c, c ∈ snap_pending s ∧ change_for i c;
  ga_health p : p ∈ host_health_only s ↔
    ∃ i, i ∈ snap_inputs s ∧ input_product i = p ∧ needs_health i;
  ga_origin i : i ∈ snap_inputs s →
    ∃ sub selected target, sub ∈ subs ∧ promoted sub ∧ resolves sub selected target
                           ∧ i = input_of sub selected target;
  ga_subs sub : observe_live policy = false → sub ∈ subs → promoted sub →
    ∃ selected target, resolves sub selected target ∧ input_of sub selected target ∈ snap_inputs s;
  ga_held : observe_live policy = false → held_model s = false ∧ held_routing s = false
}.

Lemma converges_change_for sub selected target c :
  resolves sub selected target → converges sub selected target c →
  change_for (input_of sub selected target) c.
Proof. intros [_ _ Hl] [Hp Hi Ht Hr _ Hw _ _ _]. split; simpl; congruence || done. Qed.

Lemma gathered_step subs s sub s' :
  gathered subs s → subscription_step policy ctx executors env env_obj s sub = Ok s' →
  gathered (subs ++ [sub]) s'.
Proof.
  intros [Hp Hi Hhealth Ho Hs Hh] [[Hn ->]|(selected & target & [Hprom Hr] & Hcase)]%subscription_step_ok.
  { split; [|done|done| | |done].
    - intros c Hc. destruct (Hp c Hc) as (sub' & ? & ? & ? & ?). set_solver.
    - intros i Hin. destruct (Ho i Hin) as (sub' & sel & tgt & Hs' & Ho'). exists sub', sel, tgt.
      split; [apply elem_of_app; by left|exact Ho'].
    - intros sub' Hl [Hin| ->%list_elem_of_singleton]%elem_of_app Hprom; [|done]. by apply Hs. }
  destruct Hcase as [(Hl & Ei & Ep & Eh)|(change & only & [Ei Ep Em Er Eh] & Honly & Hc)].
  { split; rewrite ?Ei, ?Ep, ?Eh; try (intros; congruence); [|done|done|].
    - intros c Hc. destruct (Hp c Hc) as (sub' & ? & ? & ? & ?). set_solver.
    - intros i Hin. destruct (Ho i Hin) as (sub' & sel & tgt & Hs' & Ho'). exists sub', sel, tgt.
      split; [apply elem_of_app; by left|exact Ho']. }
  split; rewrite ?Ei, ?Ep, ?Em, ?Er; [| | | | |done].
  - intros c [Hin|Hin]%elem_of_app.
    + destruct (Hp c Hin) as (sub' & ? & ? & ? & ?). set_solver.
    + destruct change as [c'|]; [|by apply elem_of_nil in Hin].
      apply list_elem_of_singleton in Hin as ->. exists sub, selected, target.
      split; [apply elem_of_app; right; left|done].
  - intros i [Hin| ->%list_elem_of_singleton]%elem_of_app.
    + destruct (Hi i Hin) as [?|(c & ? & ?)]; [by left|]. right. exists c. set_solver.
    + destruct change as [c|]; [|by left]. right. exists c.
      split; [apply elem_of_app; right; left|by apply converges_change_for].
  - intros p. rewrite Eh, Hhealth. split.
    + intros [(i & ? & ? & ?)|[Ht ->]]; [exists i|exists (input_of sub selected target)];
        rewrite elem_of_app, list_elem_of_singleton; [by auto|]. split_and!; [by right|done|by apply Honly].
    + intros (i & [Hin| ->%list_elem_of_singleton]%elem_of_app & Hprod & Hn); [left; by exists i|].
      right. split; [by apply Honly|done].
  - intros i [Hin| ->%list_elem_of_singleton]%elem_of_app.
    + destruct (Ho i Hin) as (sub' & sel & tgt & Hs' & Ho'). exists sub', sel, tgt.
      split; [apply elem_of_app; by left|exact Ho'].
    + exists sub, selected, target. split; [apply elem_of_app; right; left|done].
  - intros sub' Hl [Hin| ->%list_elem_of_singleton]%elem_of_app Hprom'.
    + destruct (Hs sub' Hl Hin Hprom') as (sel & tgt & ? & ?). exists sel, tgt. set_solver.
    + exists selected, target. split; [done|]. apply elem_of_app; right; left.
Qed.

Lemma gathered_all subs l s s' :
  gathered subs s → try_fold (subscription_step policy ctx executors env env_obj) s l = Ok s' →
  gathered (subs ++ l) s'.
Proof.
  revert subs s. induction l as [|sub l IH]; intros subs s Hga; simpl.
  { intros [= <-]. by rewrite app_nil_r. }
  intros (s1 & Hs & Hf)%bind_ok. apply (gathered_step _ _ _ _ Hga) in Hs.
  change (sub :: l) with ([sub] ++ l). rewrite app_assoc. by eapply IH.
Qed.

Lemma gathered_empty : gathered [] empty_snapshot.
Proof.
  split; [intros c []%elem_of_nil|intros i []%elem_of_nil| |intros i []%elem_of_nil
         |intros ? ? []%elem_of_nil|done].
  intros p. split; [by intros ?%elem_of_empty|]. by intros (i & []%elem_of_nil & _).
Qed.

(** ** Removals and re-renders *)

(** Where a removed instance is named: in the environment's deployment
    properties, or in a record of the applier. *)
Definition removal_origin (instance : string) : Prop :=
  is_Some (properties env_obj !! ("deployed." +:+ instance))
  ∨ is_Some (properties env_obj !! ("failed_target." +:+ instance))
  ∨ ∃ host records r, executors_host executors = Ok host ∧ applied_states host env = Some records
      ∧ r ∈ records ∧ record_product r = instance.

(** The removal of a host release nobody subscribes to, from what the
    applier's record holds. *)
Record removes (subscribed : gset string) (c : PendingChange) : Prop := {
  rm_action : change_action c = Remove;
  rm_instance : change_instance c ∉ subscribed;
  rm_origin : removal_origin (change_instance c);
  rm_record : ∃ host record, executors_host executors = Ok host
    ∧ applied_state host env (change_product c) = Some record
    ∧ host_source record (properties env_obj !! ("deployed." +:+ change_instance c))
      = Some (change_to c);
  rm_release : load_recoverable ctx (release_id (change_product c) (change_to c)) env
               = Some (change_release c);
  rm_from : change_from c = Some (change_to c);
  rm_kind : change_kind c = Software
}.

(** The dependency document of a deployed product is another once the changes
    [base] are made, or not the one it last got. *)
Definition dependencies_change (base : list PendingChange) (product : string) : Prop :=
  let installed := installed_profiles ctx (properties env_obj) in
  let remaining := overlay_profiles installed (target_profiles ctx base) (product_actions base) in
  ∃ profile before later, installed !! product = Some profile
    ∧ document_for product profile
        (versioned (λ p, properties env_obj !! ("deployed." +:+ p)) installed) = Ok before
    ∧ match remaining !! product with
      | Some profile' => document_for product profile'
          (versioned (λ p, remaining_versions (properties env_obj) base !! p) remaining) = Ok later
      | None => later = None
      end
    ∧ (before ≠ later
       ∨ ∃ document, later = Some document ∧ document_digest document ≠ ""
           ∧ document_digest document ≠ applied_digest env_obj product).

(** The same-version restart of a deployed dependent, by its changed
    dependencies. *)
Record rerenders (base : list PendingChange) (c : PendingChange) : Prop := {
  rr_new : change_product c ∉ change_product <$> base;
  rr_changed : dependencies_change base (change_product c);
  rr_action : change_action c = Restart;
  rr_deployed : properties env_obj !! ("deployed." +:+ change_product c) = Some (change_to c);
  rr_from : change_from c = Some (change_to c);
  rr_instance : change_instance c = change_product c;
  rr_release : lookup_release ctx (release_id (change_product c) (change_to c)) env
               = Some (change_release c);
  rr_executor : is_host_release ctx (release_id (change_product c) (change_to c)) = false
}.

Lemma deployed_host_not_subscribed subscribed x :
  x ∈ deployed_host_instances ctx (properties env_obj) subscribed →
  x ∉ subscribed ∧ removal_origin x.
Proof.
  unfold deployed_host_instances.
  apply (foldl_invariant (λ acc : gset string, x ∈ acc → x ∉ subscribed ∧ removal_origin x));
    [by intros ?%elem_of_empty|].
  intros [k v] acc Hin IH. destruct (removal_candidate _ (k, v)) as [[instance release]|] eqn:Hcand;
    [|done].
  destruct (bool_decide_reflect (instance ∈ subscribed)); simpl; [done|].
  destruct (is_host_release ctx release); simpl; [|done].
  intros [->%elem_of_singleton|?]%elem_of_union; [|by apply IH]. split; [done|].
  rewrite hash_iter_perm in Hin. apply elem_of_map_to_list in Hin.
  unfold removal_candidate in Hcand. cbn [fst snd] in Hcand.
  destruct (strip_prefix "deployed." k) as [i|] eqn:Hk.
  - simplify_eq. left. apply strip_prefix_spec in Hk as ->. exists v. exact Hin.
  - destruct (strip_prefix "failed_target." k) as [i|] eqn:Hk'; simpl in Hcand; [|done].
    destruct (health_is _ _ _); simplify_eq. right; left. apply strip_prefix_spec in Hk' as ->. by eexists.
Qed.

Lemma recorded_host_not_subscribed host subscribed records acc x :
  executors_host executors = Ok host → applied_states host env = Some records →
  (x ∈ acc → x ∉ subscribed ∧ removal_origin x) →
  x ∈ recorded_host_instances ctx (properties env_obj) subscribed records acc →
  x ∉ subscribed ∧ removal_origin x.
Proof.
  intros Hh Hrec Hacc. unfold recorded_host_instances.
  apply (foldl_invariant (λ acc : gset string, x ∈ acc → x ∉ subscribed ∧ removal_origin x)); [done|].
  intros r acc' Hr IH. destruct (managed_record ctx _ r); simpl; [|done].
  destruct (bool_decide_reflect (record_product r ∈ subscribed)); simpl; [done|].
  intros [->%elem_of_singleton|?]%elem_of_union; [|by apply IH]. split; [done|].
  right; right. by exists host, records, r.
Qed.

Lemma removal_change_ok host subscribed instance c :
  executors_host executors = Ok host → instance ∉ subscribed → removal_origin instance →
  removal_change ctx host env (properties env_obj) instance = Ok (Some c) → removes subscribed c.
Proof.
  intros Hh Hi Ho. unfold removal_change. intros (record & Hrec%ok_or_ok & H)%bind_ok.
  destruct (host_source record _) as [version|] eqn:Hsrc.
  - apply bind_ok in H as (target & Ht%ok_or_ok & H). injection H as <-.
    split; simpl; try done. by exists host, record.
  - apply bail_ok in H as [_ H]. done.
Qed.

Lemma removals_ok subscribed pending pending' :
  removals ctx executors env (properties env_obj) subscribed pending = Ok pending' →
  ∃ extra, pending' = pending ++ extra ∧ ∀ c, c ∈ extra → removes subscribed c.
Proof.
  unfold removals. destruct (executors_host executors) as [host|error] eqn:Hh.
  - intros (records & Hrecs%ok_or_ok & H)%bind_ok.
    set (removable := recorded_host_instances _ _ _ _ _) in H.
    assert (∀ x, x ∈ btree_set_iter removable → x ∉ subscribed ∧ removal_origin x) as Hnot.
    { intros x Hx%elem_of_btree_set_iter.
      eapply recorded_host_not_subscribed; [done|done| |exact Hx].
      apply deployed_host_not_subscribed. }
    revert pending H Hnot. generalize (btree_set_iter removable).
    induction l as [|instance l IH]; intros pending; simpl.
    { intros [= <-] _. exists []. rewrite app_nil_r. split; [done|]. intros c []%elem_of_nil. }
    intros (p1 & (change & Hc & [= <-])%bind_ok & Hf)%bind_ok Hnot.
    destruct (IH _ Hf) as (extra & -> & Hex); [intros x Hx; apply Hnot; by right|].
    destruct change as [c|]; [|by exists extra].
    exists (c :: extra). split; [by rewrite <- app_assoc|].
    intros c' [->|Hin]%elem_of_cons; [|by apply Hex].
    eapply removal_change_ok; [exact Hh|apply Hnot; left|apply Hnot; left|exact Hc].
  - destruct (btree_set_iter _); [|done]. intros [= <-]. exists []. rewrite app_nil_r.
    split; [done|]. intros c []%elem_of_nil.
Qed.

Lemma rerender_change_ok base hosts extra entry extra' :
  let installed := installed_profiles ctx (properties env_obj) in
  let remaining := overlay_profiles installed (target_profiles ctx base) (product_actions base) in
  entry ∈ btree_iter installed →
  rerender_change ctx env env_obj (list_to_set (change_product <$> base)) hosts remaining
    (versioned (λ p, properties env_obj !! ("deployed." +:+ p)) installed)
    (versioned (λ p, remaining_versions (properties env_obj) base !! p) remaining) extra entry
  = Ok extra' →
  extra' = extra ∨ ∃ c, extra' = extra ++ [c] ∧ rerenders base c.
Proof.
  intros installed remaining. destruct entry as [product profile]. intros Hentry%elem_of_btree_iter.
  unfold rerender_change. destruct (_ || bool_decide (product ∈ hosts)) eqn:Hpp; [intros [= <-]; by left|].
  apply orb_false_iff in Hpp as [Hpp _]. apply bool_decide_eq_false in Hpp.
  rewrite elem_of_list_to_set in Hpp.
  destruct (properties env_obj !! ("deployed." +:+ product)) as [version|] eqn:Hd; [|intros [= <-]; by left].
  intros H. apply bind_ok in H as (before & Hbefore & H). apply bind_ok in H as (later & Hlater & H).
  destruct (negb (_ || _)) eqn:Hchanged; [injection H as <-; by left|].
  destruct (readable_manifest ctx (release_id product version)) as [m|] eqn:Hm;
    [|injection H as <-; by left].
  case_decide as Hx; [injection H as <-; by left|].
  apply bind_ok in H as (target & Ht%ok_or_ok & H). injection H as <-. right.
  eexists. split; [done|]. split; simpl; try done.
  - exists profile, before, later. split_and!; [done|done| |].
    + fold installed remaining. destruct (remaining !! product); [done|by injection Hlater as <-].
    + apply negb_false_iff, orb_true_iff in Hchanged as [Hc%negb_true_iff%bool_decide_eq_false|Hc]; [by left|].
      right. destruct later as [document|]; [|done].
      apply andb_true_iff in Hc as [He%negb_true_iff Hn%negb_true_iff%bool_decide_eq_false].
      exists document. split_and!; [done| |done]. intros Hz. by rewrite Hz in He.
  - unfold is_host_release. rewrite Hm. simpl. by apply bool_decide_eq_false.
Qed.

Lemma rerenders_ok base hosts pending' :
  schedule_dependency_rerenders ctx env base (installed_profiles ctx (properties env_obj))
    (target_profiles ctx base) env_obj hosts = Ok pending' →
  ∃ extra, pending' = base ++ extra ∧ ∀ c, c ∈ extra → rerenders base c.
Proof.
  unfold schedule_dependency_rerenders. intros (extra & Hf & [= <-])%bind_ok. exists extra.
  split; [done|]. revert Hf.
  apply (try_fold_invariant (λ extra, ∀ c, c ∈ extra → rerenders base c)); [intros c []%elem_of_nil|].
  intros entry acc acc' Hentry IH [->|(c & -> & Hc)]%rerender_change_ok; [done| |done].
  intros c' [Hin| ->%list_elem_of_singleton]%elem_of_app; [by apply IH|done].
Qed.
End SnapshotProofs.

(** ** Whole plans *)

Section PlanProofs.
Context {SV : Semver} {MF : ManifestFormat} {HO : HashOrder} {PS : PlanningServices}.

Lemma converge_release_holds policy ctx executors env env_obj sub selected target s s' :
  converge_release policy ctx executors env env_obj sub selected target s = Ok s' →
  hold_sets s' = hold_sets s ∧ hold_clears s' = hold_clears s.
Proof.
  unfold converge_release. intros H. ok_inv H. destruct (observe_live policy && _).
  { by injection H as <-. }
  apply bail_ok in H as [_ H]. destruct x as [[record health]|].
  - apply bind_ok in H as ([change only] & _ & H). injection H as <-. by destruct change.
  - apply bind_ok in H as (change & _ & H). injection H as <-. by destruct change.
Qed.

Lemma catalog_only_holds ctx executors env env_obj l s s' :
  try_fold (subscription_step catalog_only ctx executors env env_obj) s l = Ok s' →
  hold_sets s' = hold_sets s ∧ hold_clears s' = hold_clears s.
Proof.
  apply (try_fold_invariant (λ s', hold_sets s' = hold_sets s ∧ hold_clears s' = hold_clears s));
    [done|].
  intros sub s1 s2 _ [<- <-] H. unfold subscription_step in H.
  destruct (_ || _); [by injection H as <-|]. apply bind_ok in H as (selected & _ & H).
  apply bail_ok in H as [_ H]. apply bind_ok in H as (target & _ & H).
  change (observe_live catalog_only) with false in H. apply bind_ok in H as (u & _ & H).
  by apply converge_release_holds in H.
Qed.

Lemma no_duplicate_instances_ok subs instances :
  no_duplicate_instances subs = Ok instances →
  instances = list_to_set (sub_instance <$> subs) ∧ NoDup (sub_instance <$> subs).
Proof.
  unfold no_duplicate_instances. intros H.
  enough (∀ acc : gset string, try_fold (λ seen sub,
      bail_if bool_decide (sub_instance sub ∈ seen) with (DuplicateInstance (sub_instance sub)) in
      Ok ({[sub_instance sub]} ∪ seen)) acc subs = Ok instances →
    instances = list_to_set (sub_instance <$> subs) ∪ acc ∧ NoDup (sub_instance <$> subs)
    ∧ ∀ x, x ∈ sub_instance <$> subs → x ∉ acc) as Hall.
  { destruct (Hall _ H) as (-> & ? & _). split; [set_solver|done]. }
  clear H. induction subs as [|sub subs IH]; intros acc; simpl.
  { intros [= <-]. split_and!; [set_solver|constructor|set_solver]. }
  intros (acc' & [Hn%bool_decide_eq_false [= <-]]%bail_ok & Hf)%bind_ok.
  destruct (IH _ Hf) as (-> & Hnd & Hnot). split_and!.
  - set_solver.
  - constructor; [|done]. intros Hin. apply Hnot in Hin. set_solver.
  - set_solver.
Qed.

Lemma order_pending_perm hosts pending target installed ordered :
  order_pending hosts pending target installed = Ok ordered → ordered ≡ₚ pending.
Proof. unfold order_pending. intros H. ok_inv H. injection H as <-. apply sort_by_perm. Qed.

Lemma retain_held_subset s pending c : c ∈ retain_held s pending → c ∈ pending.
Proof.
  unfold retain_held. destruct (held_model s), (held_routing s); rewrite ?list_elem_of_filter; tauto.
Qed.

(** Why a snapshot changes something, re-renders apart. *)
Inductive justified (policy : ConvergencePolicy) (ctx : Ctx) (executors : Executors) (env : string)
    (env_obj : Object) (subs : list Subscription) (c : PendingChange) : Prop :=
| Converging sub selected target :
    sub ∈ subs → resolves ctx env env_obj sub selected target →
    converges policy ctx executors env env_obj sub selected target c →
    justified policy ctx executors env env_obj subs c
| Removing : removes ctx executors env env_obj (list_to_set (sub_instance <$> subs)) c →
    justified policy ctx executors env env_obj subs c.

(** Any change of a plan, re-renders included. *)
Definition explained (policy : ConvergencePolicy) (ctx : Ctx) (executors : Executors) (env : string)
    (env_obj : Object) (subs : list Subscription) (c : PendingChange) : Prop :=
  justified policy ctx executors env env_obj subs c ∨ ∃ base, rerenders ctx env env_obj base c.

Lemma all_explained policy ctx executors env env_obj subs ordered base extra c :
  ordered ≡ₚ base ++ extra →
  (∀ c, c ∈ base → justified policy ctx executors env env_obj subs c) →
  (∀ c, c ∈ extra → rerenders ctx env env_obj base c) →
  c ∈ ordered → explained policy ctx executors env env_obj subs c.
Proof.
  intros -> Hb He [Hc|Hc]%elem_of_app; [left; by apply Hb|right]. exists base. by apply He.
Qed.

Lemma snapshot_changes_ok policy ctx executors env now env_obj s ordered :
  snapshot_changes policy ctx executors env now = Ok (env_obj, s, ordered) →
  ∃ subs, active_environment ctx env = Ok env_obj ∧ list_subscriptions ctx env_obj = Ok subs
    ∧ gathered policy ctx executors env env_obj subs s
    ∧ (policy = catalog_only → hold_sets s = ∅ ∧ hold_clears s = ∅)
    ∧ (∃ base extra, ordered ≡ₚ base ++ extra
         ∧ (∀ c, c ∈ base → justified policy ctx executors env env_obj subs c)
         ∧ ∀ c, c ∈ extra → rerenders ctx env env_obj base c)
    ∧ (held_model s = false → held_routing s = false → ∀ c, c ∈ snap_pending s → c ∈ ordered).
Proof.
  unfold snapshot_changes. intros H. ok_inv H. injection H as <- <- <-.
  rename x1 into subs, x2 into instances, x3 into s0.
  apply no_duplicate_instances_ok in Hg2 as [-> Hnd].
  pose proof (gathered_all policy ctx executors env x [] subs _ _
                (gathered_empty policy ctx executors env x) Hg3) as Hga. simpl in Hga.
  apply removals_ok in Hg4 as (removed & -> & Hrm).
  apply rerenders_ok in Hg6 as (extra & -> & Hex).
  apply order_pending_perm in Hg7. exists subs. split_and!; try done.
  - intros ->. by apply catalog_only_holds in Hg3.
  - eexists _, extra. split_and!; [exact Hg7| |exact Hex].
    intros c [Hc|Hc]%retain_held_subset%elem_of_app.
    + destruct (ga_pending _ _ _ _ _ _ _ Hga c Hc) as (sub & selected & target & ? & ? & ?).
      by eapply Converging.
    + apply Removing. by apply Hrm.
  - intros Hm Hr c Hc. rewrite Hg7. unfold retain_held. rewrite Hm, Hr. set_solver.
Qed.


(** The step that brings an input to its desired version. *)
Record step_for (i : DesiredStateInput) (st : Step) : Prop := {
  sf_product : step_product st = input_product i;
  sf_instance : step_instance st = input_instance i;
  sf_to : step_to st = input_desired_version i;
  sf_release : step_release_id st = input_release_id i;
  sf_digest : step_release_digest st = input_release_digest i;
  sf_artifact : step_artifact_digest st = input_artifact_digest i
}.

(** The only input of its product, as the releases of host products must be. *)
Definition sole (ins : list DesiredStateInput) (i : DesiredStateInput) : Prop :=
  ∀ j, j ∈ ins → input_product j = input_product i → j = i.

(** The step that is planned for an input, before it is bound to the applier's
    record. *)
Inductive planned_for (ctx : Ctx) (executors : Executors) (env : string)
    (ins : list DesiredStateInput) (i : DesiredStateInput) (st : Step) : Prop :=
| PlannedMove :
    is_host_release ctx (input_release_id i) = false →
    input_deployed_version i ≠ Some (input_desired_version i) →
    step_from st = input_deployed_version i →
    moves (input_deployed_version i) (input_desired_version i) (step_action st) →
    planned_for ctx executors env ins i st
| PlannedInstall :
    needs_install ctx executors env i → step_from st = input_deployed_version i →
    step_action st = Install → (sole ins i → step_host st = None) →
    planned_for ctx executors env ins i st
| PlannedCheck g :
    needs_health ctx executors env i → step_from st = Some (input_desired_version i) →
    step_action st = Restart →
    step_host st = Some {| host_action := HostHealth; expected_generation := g |} →
    planned_for ctx executors env ins i st.

Lemma change_for_step ctx executors env health index i c :
  (∀ id pin, lookup_release ctx id env = Some pin → pin_release_id pin = id) →
  change_for ctx executors env i c → step_for i (change_step env health index c).
Proof. intros Hpin [? ? ? ? ? Hl%Hpin _]. by split. Qed.

Lemma planned_for_inputs ctx executors env ins ins' i st :
  (∀ j, j ∈ ins' ↔ j ∈ ins) →
  planned_for ctx executors env ins i st → planned_for ctx executors env ins' i st.
Proof.
  intros Hins [? ? ? ?|? ? ? Hs|g ? ? ? ?]; [by apply PlannedMove| |by eapply PlannedCheck].
  apply PlannedInstall; [done..|]. intros Hsole. apply Hs. intros j Hj%Hins. by apply Hsole.
Qed.

Lemma needs_one ctx executors env i :
  needs_health ctx executors env i → ¬ needs_install ctx executors env i.
Proof.
  intros (m & record & release & (Hm & _ & Hr) & Hs & Hv & _) (m' & record' & (_ & _ & Hr') & Hn).
  rewrite Hr in Hr'. injection Hr' as <-. by apply (Hn release).
Qed.

Lemma change_for_planned policy ctx executors env env_obj subs s index i c :
  gathered policy ctx executors env env_obj subs s → i ∈ snap_inputs s →
  change_for ctx executors env i c →
  settled_already ctx executors env i
  ∨ planned_for ctx executors env (snap_inputs s) i (change_step env (host_health_only s) index c).
Proof.
  intros Hga Hi [Hp _ _ _ _ _ [Hh Hne Hf Hm|Hh Hd Hf Ha|Hn Hf Ha|Hn Hf Ha]].
  - right. by apply PlannedMove.
  - left. split; [done|]. congruence.
  - right. apply PlannedInstall; [done..|]. intros Hsole. simpl. rewrite decide_False; [done|].
    intros Hin. rewrite Hp, (ga_health _ _ _ _ _ _ _ Hga) in Hin. destruct Hin as (j & Hj & Hjp & Hjn).
    assert (j = i) as -> by by apply Hsole. by apply needs_one in Hjn.
  - right. eapply PlannedCheck; [done..|]. simpl. rewrite decide_True; [done|].
    rewrite Hp, (ga_health _ _ _ _ _ _ _ Hga). by exists i.
Qed.

(** A catalog-only snapshot writes nothing, and covers every subscription
    with a promoted channel head. *)
Lemma operator_plan_covers ctx executors env now ins ss ctx' :
  (∀ id pin, lookup_release ctx id env = Some pin → pin_release_id pin = id) →
  compute_snapshot_with_policy catalog_only ctx executors env now = Ok (ins, ss, ctx') →
  ctx' = ctx
  ∧ (∃ env_obj subs, active_environment ctx env = Ok env_obj
       ∧ list_subscriptions ctx env_obj = Ok subs
       ∧ ∀ sub, sub ∈ subs → promoted sub →
           ∃ selected target, resolves ctx env env_obj sub selected target
                              ∧ input_of env_obj sub selected target ∈ ins)
  ∧ (∀ i, i ∈ ins → settled_already ctx executors env i
                   ∨ ∃ st, st ∈ ss ∧ step_for i st ∧ planned_for ctx executors env ins i st).
Proof.
  unfold compute_snapshot_with_policy.
  intros Hpin ([[env_obj s] ordered] & Hs & H)%bind_ok. ok_inv H. injection H as <- <- <-.
  apply snapshot_changes_ok in Hs as (subs & He & Hl & Hga & Hh & _ & Hall).
  destruct (Hh eq_refl) as [H1 H2]. rewrite H1, H2 in Hg. simpl in Hg. injection Hg as <-.
  destruct (ga_held _ _ _ _ _ _ _ Hga eq_refl) as [Hm Hr]. split; [done|]. split.
  - exists env_obj, subs. split_and!; [done|done|]. intros sub Hin Hp.
    destruct (ga_subs _ _ _ _ _ _ _ Hga sub eq_refl Hin Hp) as (sel & tgt & ? & ?).
    exists sel, tgt. split; [done|]. by rewrite elem_of_sort_by.
  - intros i Hi. rewrite elem_of_sort_by in Hi.
    destruct (ga_inputs _ _ _ _ _ _ _ Hga i Hi) as [?|(c & Hc & Hf)]; [by left|].
    apply Hall, list_elem_of_lookup in Hc as [index Hc]; [|done|done].
    destruct (change_for_planned _ _ _ _ _ _ _ index _ _ Hga Hi Hf) as [?|Hpl]; [by left|]. right.
    exists (change_step env (host_health_only s) index c). split_and!.
    + eapply list_elem_of_lookup_2. rewrite list_lookup_imap, Hc. done.
    + by eapply change_for_step.
    + eapply planned_for_inputs; [|exact Hpl]. intros j. by rewrite elem_of_sort_by.
Qed.
End PlanProofs.

(** ** Several instances of one product *)

Module InstanceExamples.
#[local] Existing Instance PlainSemver.instance.

(** Two releases of one product with different profiles. *)
Definition profile (version : string) : CompatibilityProfile :=
  Examples.profile_of "web"
    {| pin := Examples.revision; requires := ∅; provides := {["web" := version]} |}.

#[local] Instance by_version : ManifestFormat := {|
  parse_raw raw :=
    Some {| compatibility := Some (profile raw); product_name := "web"; product_version := raw;
            product_kind := Software; deploy_install := "run"; deploy_uninstall := None;
            deploy_executor := None; deploy_health := None; deploy_instances := Many;
            requirements := None; artifacts := [] |} |}.

Definition release (v : string) : Object := {|
  object_id := release_id "web" v; object_kind := ""; object_name := "";
  object_namespace := "tenkai"; external_id := ""; properties := {["manifest" := v]};
  created := 0; updated := 0 |}.

Definition ctx : Ctx := {|
  objects := {["tenkai:release:web@1.0.0" := release "1.0.0";
               "tenkai:release:web@2.0.0" := release "2.0.0"]};
  catalog_links := [] |}.

(** Instances [a] and [b] of the product, at two releases. *)
Definition ps : gmap string string :=
  {["deployed.a" := "1.0.0"; "deployed_release.a" := "tenkai:release:web@1.0.0";
    "deployed.b" := "2.0.0"; "deployed_release.b" := "tenkai:release:web@2.0.0"]}.

Definition forwards : HashOrder := {|
  hash_iter := map_to_list; hash_iter_perm := λ m, Permutation_refl _ |}.

Definition backwards : HashOrder := {|
  hash_iter m := reverse (map_to_list m); hash_iter_perm m := reverse_Permutation (map_to_list m) |}.

(** With several instances of one product at different releases, the
    profile the planner takes as installed depends on the iteration order
    of the property map, so two planning runs on the same environment can
    see different contracts. *)
Theorem installed_profile_depends_on_order :
  installed_profiles (HO := forwards) ctx ps !! "web"
  ≠ installed_profiles (HO := backwards) ctx ps !! "web".
Proof. vm_compute. intros H. discriminate H. Qed.
End InstanceExamples.
