(* ===== verification/PlanCreation.v ===== *)
(** * Creating plans

    [plan/convergence.rs]: the immutable plan made of a snapshot's steps, the
    entry points that compute and store one, and the explicit rollback and
    restart steps. *)

From S2P Require Import Prelude RustStr Semver Kinds Compatibility Contracts Plan Approvals HostState Catalog HostSteps Holds ReleaseSelection Convergence.

Definition with_order (order : nat) (s : Step) : Step := {|
  step_id := step_id s; step_order := u32_of_usize order; step_product := step_product s;
  step_instance := step_instance s; step_action := step_action s; step_from := step_from s;
  step_to := step_to s; step_release_id := step_release_id s;
  step_release_digest := step_release_digest s; step_artifact_digest := step_artifact_digest s;
  step_workdir := step_workdir s; step_restore := step_restore s; step_host := step_host s |}.

Definition with_id (plan : string) (order : nat) (s : Step) : Step := {|
  step_id := plan +:+ ":step:" +:+ pretty order; step_order := step_order s;
  step_product := step_product s; step_instance := step_instance s; step_action := step_action s;
  step_from := step_from s; step_to := step_to s; step_release_id := step_release_id s;
  step_release_digest := step_release_digest s; step_artifact_digest := step_artifact_digest s;
  step_workdir := step_workdir s; step_restore := step_restore s; step_host := step_host s |}.

Section Creation.
Context {E : PlanEncoding} {SV : Semver} {MF : ManifestFormat} {HO : HashOrder}
  {PS : PlanningServices}.

(** [assemble_plan], at the time [created_at]. *)
Definition assemble_plan (env : string) (now : Z) (ins : list DesiredStateInput) (ss : list Step)
    (reason : option string) : Plan :=
  let ss := imap with_order ss in
  let content := content_address env now ins ss reason in
  let id := plan_id env now content in
  {| format_version := PLAN_FORMAT_VERSION; plan_id_of := id; content_id := content;
     plan_environment := env; created_at := now; inputs := ins; steps := imap (with_id id) ss;
     plan_state := Computed; gates_skipped := None; status_detail := "";
     maintenance_blocked := false; prior_warnings := []; recalled_recovery_reason := reason;
     credential_runway := None |}.

(** The advisory annotations, which change no executable content. *)
Definition annotate (ctx : Ctx) (env : string) (p : Plan) : Plan :=
  let '(warnings, detail, runway) := advisories ctx env p in
  {| format_version := format_version p; plan_id_of := plan_id_of p; content_id := content_id p;
     plan_environment := plan_environment p; created_at := created_at p; inputs := inputs p;
     steps := steps p; plan_state := plan_state p; gates_skipped := gates_skipped p;
     status_detail := detail; maintenance_blocked := maintenance_blocked p;
     prior_warnings := warnings; recalled_recovery_reason := recalled_recovery_reason p;
     credential_runway := runway |}.

Definition store_plan (ctx : Ctx) (now : Z) (p : Plan) : result Ctx planning_error :=
  let? db := map_err StoreRefused (store (objects ctx) now p) in
  Ok {| objects := db; catalog_links := catalog_links ctx |}.

(** [create_with_content]. *)
Definition create_with_content (ctx : Ctx) (executors : Executors) (env : string) (now : Z)
    (ins : list DesiredStateInput) (ss : list Step) (reason : option string) :
    result (Plan * Ctx) planning_error :=
  let? bound := bind_host_steps ctx executors env ss in
  let? _ := try_for_each (require_step_executor ctx executors) bound in
  let p := annotate ctx env (assemble_plan env now ins bound reason) in
  let? ctx' := store_plan ctx now p in
  Ok (p, ctx').

(** [create]. *)
Definition create (ctx : Ctx) (executors : Executors) (env : string) (now : Z) :
    result (Plan * Ctx) planning_error :=
  let? (ins, ss, ctx1) := compute_snapshot_with_policy catalog_only ctx executors env now in
  create_with_content ctx1 executors env now ins ss None.

(** [create_for_held_target]. *)
Definition create_for_held_target (ctx : Ctx) (executors : Executors) (env : string) (now : Z)
    (product release : string) : result (Plan * Ctx) planning_error :=
  let? (ins, ss, ctx1) := compute_snapshot_with_policy catalog_only ctx executors env now in
  bail_if negb (existsb (λ s, bool_decide (step_product s = product)
                              && bool_decide (step_release_id s = release)) ss)
    with (HeldTargetMissing product release) in
  create_with_content ctx1 executors env now ins ss None.

(** [create_for_reconcile]: an empty plan is not stored. *)
Definition create_for_reconcile (ctx : Ctx) (executors : Executors) (env : string) (now : Z) :
    result (Plan * Ctx) planning_error :=
  let? (ins, ss, ctx1) := compute_snapshot_with_policy reconcile ctx executors env now in
  match ss with
  | [] => Ok (assemble_plan env now ins ss None, ctx1)
  | _ => create_with_content ctx1 executors env now ins ss None
  end.

(** [create_holding_failed_targets]. *)
Definition create_holding_failed_targets (ctx : Ctx) (executors : Executors) (env : string)
    (now : Z) : result (Plan * Ctx) planning_error :=
  let? (ins, ss, ctx1) := compute_snapshot_with_policy reconcile ctx executors env now in
  create_with_content ctx1 executors env now ins ss None.

(** [admit_preview_environment]. *)
Definition admit_preview_environment (ctx : Ctx) (env : string) (now : Z) :
    result unit planning_error :=
  let? env_obj := active_environment ctx env in
  admit_plan branch_pin_matches env_obj now.

(** [create_from_steps] and [create_from_steps_with_recovery]. *)
Definition create_from_steps (ctx : Ctx) (executors : Executors) (env : string) (now : Z)
    (ss : list Step) (reason : option string) : result (Plan * Ctx) planning_error :=
  let? _ := admit_preview_environment ctx env now in
  create_with_content ctx executors env now [] ss reason.

(** *** Explicit steps *)

Definition valid_recovery (recovery : option string) : bool :=
  is_none_or recovery (λ reason,
    negb (str_is_empty (trim reason)) && negb (any_control (trim reason))).

(** Profiles deployed next to an instance, by product; the last of several
    instances wins. *)
Definition other_profiles (ctx : Ctx) (ps : gmap string string) (instance : string) :
    gmap string CompatibilityProfile :=
  foldl (λ acc entry,
    match strip_prefix "deployed." entry.1 with
    | None => acc
    | Some name =>
      if decide (name = instance) then acc
      else match release_profile ctx (deployed_release_id ps name entry.2) with
           | Some profile => <[product_for_instance ps name := profile]> acc
           | None => acc
           end
    end) ∅ (hash_iter ps).

Definition insert_profile (ctx : Ctx) (product : string) (release : option string)
    (m : gmap string CompatibilityProfile) : gmap string CompatibilityProfile :=
  match release ≫= release_profile ctx with
  | Some profile => <[product := profile]> m
  | None => m
  end.

(** A step that runs one pinned release. *)
Definition explicit_step (id product instance : string) (action : Action) (from : option string)
    (to : string) (target : ReleasePin) (restore : option ReleasePin) : Step := {|
  step_id := id; step_order := 0; step_product := product;
  step_instance := named_instance instance product; step_action := action; step_from := from;
  step_to := to; step_release_id := pin_release_id target; step_release_digest := pin_digest target;
  step_artifact_digest := pin_artifact_digest target; step_workdir := pin_workdir target;
  step_restore := restore; step_host := None |}.

(** [rollback_step_with_recovery]; the name given is an instance's. *)
Definition rollback_step_with_recovery (ctx : Ctx) (env instance : string)
    (recovery : option string) : result Step planning_error :=
  bail_if negb (valid_identifier instance) with (InvalidIdentifier "product" instance) in
  bail_if negb (valid_recovery recovery) with RecoveryReason in
  let? env_obj := environment ctx env in
  let ps := properties env_obj in
  let product := product_for_instance ps instance in
  let current := ps !! ("deployed." +:+ instance) in
  let? prev := ok_or (v ← ps !! ("deployed_prev." +:+ instance);
                      if str_is_empty v then None else Some v) (NothingToRollBack instance) in
  let prev_id := release_id product prev in
  let prev_recalled := release_is_recalled ctx prev_id in
  bail_if prev_recalled && negb (is_some_b recovery) with (RecalledTarget prev_id) in
  let? target := if prev_recalled : bool then pin_release_for_recovery ctx prev_id env
                 else pin_release ctx prev_id env in
  let others := other_profiles ctx ps instance in
  let previous := insert_profile ctx product (release_id product <$> current) others in
  let remaining := insert_profile ctx product (Some prev_id) others in
  let? _ := map_err CompatRefused (refuse_unsatisfied_dependents remaining previous) in
  let? _ := require_release ctx env prev_id in
  let? restore := match current with
    | Some version =>
      let current_id := release_id product version in
      if release_is_recalled ctx current_id then
        if is_some_b recovery then
          let? pin := pin_release_for_recovery ctx current_id env in Ok (Some pin)
        else Ok None
      else let? pin := pin_release ctx current_id env in Ok (Some pin)
    | None => Ok None
    end in
  Ok (explicit_step (env_id env +:+ ":rollback:" +:+ instance) product instance Rollback current prev
        target restore).

(** [restart_step]. *)
Definition restart_step (ctx : Ctx) (env instance : string) : result Step planning_error :=
  bail_if negb (valid_identifier instance) with (InvalidIdentifier "product" instance) in
  let? env_obj := environment ctx env in
  let ps := properties env_obj in
  let product := product_for_instance ps instance in
  let? current := ok_or (v ← ps !! ("deployed." +:+ instance);
                         if str_is_empty v then None else Some v) (NothingToRestart instance) in
  let current_id := release_id product current in
  bail_if release_is_recalled ctx current_id with (RecalledTarget current_id) in
  let? target := pin_release ctx current_id env in
  let? _ := require_release ctx env current_id in
  Ok (explicit_step (env_id env +:+ ":restart:" +:+ instance) product instance Restart
        (Some current) current target None).
End Creation.

(** ** Plans as they are created *)

Section CreationProofs.
Context {E : PlanEncoding} {EL : PlanEncodingLaws E} {SV : Semver} {MF : ManifestFormat}
  {HO : HashOrder} {PS : PlanningServices}.

Lemma clear_with_id id l : clear_step_id <$> imap (with_id id) l = clear_step_id <$> l.
Proof. rewrite fmap_imap. apply list_eq. intros i. rewrite list_lookup_imap, list_lookup_fmap.
  by destruct (l !! i). Qed.

Lemma assemble_plan_wf env now ins ss reason : wf_plan (assemble_plan env now ins ss reason).
Proof.
  split; simpl; try done.
  - unfold content_address. by rewrite clear_with_id.
  - intros i s. rewrite !list_lookup_imap. destruct (ss !! i); simpl; [|done].
    by intros [= <-].
Qed.

Lemma annotate_wf ctx env p : wf_plan p → wf_plan (annotate ctx env p).
Proof. intros []. unfold annotate. destruct (advisories ctx env p) as [[w d] r]. by split. Qed.

Lemma store_plan_ok ctx now p ctx' :
  wf_plan p → i64_min ≤ created_at p ≤ i64_max → store_plan ctx now p = Ok ctx' →
  load (objects ctx') (plan_id_of p) = Ok p
  ∧ catalog_links ctx' = catalog_links ctx
  ∧ ∀ id, id ≠ plan_id_of p → ctx_get ctx' id = ctx_get ctx id.
Proof.
  intros Hw Hc. unfold store_plan, store, validated_plan_object. intros H. ok_inv H.
  injection H as <-. apply bind_ok in Hg as (o & Ho & Hg). injection Hg as <-.
  apply bind_ok in Ho as (u & _ & Ho). injection Ho as <-.
  assert (object_id (keep_overrides (objects ctx !! plan_id_of p) (to_object now p)) = plan_id_of p)
    as Hid by by destruct (objects ctx !! plan_id_of p).
  rewrite Hid. split_and!; [|done|].
  - unfold load. simpl. rewrite lookup_insert_eq. simpl. rewrite from_object_keep_overrides.
    apply from_object_complete; [by apply to_object_describes|done].
  - intros id Hne. unfold ctx_get. simpl. by rewrite lookup_insert_ne.
Qed.

(** The executable content of a step, without its place in the plan. *)
Record same_content (s b : Step) : Prop := {
  sc_product : step_product b = step_product s;
  sc_instance : step_instance b = step_instance s;
  sc_action : step_action b = step_action s;
  sc_from : step_from b = step_from s;
  sc_to : step_to b = step_to s;
  sc_release : step_release_id b = step_release_id s ∧ step_release_digest b = step_release_digest s
    ∧ step_artifact_digest b = step_artifact_digest s ∧ step_workdir b = step_workdir s;
  sc_restore : step_restore b = step_restore s;
  sc_host : step_host b = step_host s
}.

Lemma assemble_steps env now ins ss reason :
  Forall2 same_content ss (steps (assemble_plan env now ins ss reason)).
Proof.
  simpl. apply Forall2_same_length_lookup. split; [by rewrite !length_imap|].
  intros i s b Hs Hb. rewrite !list_lookup_imap, Hs in Hb. by injection Hb as <-.
Qed.

Lemma annotate_content ctx env p :
  inputs (annotate ctx env p) = inputs p ∧ steps (annotate ctx env p) = steps p
  ∧ plan_state (annotate ctx env p) = plan_state p ∧ created_at (annotate ctx env p) = created_at p
  ∧ plan_id_of (annotate ctx env p) = plan_id_of p
  ∧ recalled_recovery_reason (annotate ctx env p) = recalled_recovery_reason p.
Proof. unfold annotate. by destruct (advisories ctx env p) as [[w d] r]. Qed.

Lemma create_with_content_ok ctx executors env now ins ss reason p ctx' :
  i64_min ≤ now ≤ i64_max →
  create_with_content ctx executors env now ins ss reason = Ok (p, ctx') →
  wf_plan p ∧ plan_state p = Computed ∧ inputs p = ins ∧ recalled_recovery_reason p = reason
  ∧ load (objects ctx') (plan_id_of p) = Ok p
  ∧ catalog_links ctx' = catalog_links ctx
  ∧ (∀ id, id ≠ plan_id_of p → ctx_get ctx' id = ctx_get ctx id)
  ∧ ∃ bound, bind_host_steps ctx executors env ss = Ok bound
             ∧ Forall2 same_content bound (steps p)
             ∧ ∀ s, s ∈ bound → require_step_executor ctx executors s = Ok tt.
Proof.
  intros Hnow. unfold create_with_content. intros H. ok_inv H. injection H as <- <-.
  rename x into bound. destruct x0.
  pose proof (annotate_content ctx env (assemble_plan env now ins bound reason))
    as (Hi & Hs & Hst & Hc & Hid & Hr).
  pose proof (annotate_wf ctx env _ (assemble_plan_wf env now ins bound reason)) as Hw.
  apply store_plan_ok in Hg1 as (Hl & Hk & Hf); [|done|by rewrite Hc].
  split_and!; [done..|]. exists bound. rewrite Hs. split_and!; [done|apply assemble_steps|].
  by apply try_for_each_ok.
Qed.

(** A plan that is created is durable and immutable content: it is well
    formed (named by its own content), computed, and loads back as it was
    returned; nothing else of the store changes; its steps are the given
    ones, in order, bound to the host applier's records; and no step
    switches a product to another executor. *)
Theorem created_plan_durable ctx executors env now ins ss reason p ctx' :
  i64_min ≤ now ≤ i64_max →
  create_with_content ctx executors env now ins ss reason = Ok (p, ctx') →
  wf_plan p ∧ plan_state p = Computed ∧ inputs p = ins ∧ recalled_recovery_reason p = reason
  ∧ load (objects ctx') (plan_id_of p) = Ok p
  ∧ catalog_links ctx' = catalog_links ctx
  ∧ (∀ id, id ≠ plan_id_of p → ctx_get ctx' id = ctx_get ctx id)
  ∧ ∃ bound, bind_host_steps ctx executors env ss = Ok bound
             ∧ Forall2 same_content bound (steps p)
             ∧ ∀ s, s ∈ bound → require_step_executor ctx executors s = Ok tt.
Proof. apply create_with_content_ok. Qed.

(** The step of the stored plan that brings an input to its desired version. *)
Inductive deploys (ctx : Ctx) (executors : Executors) (env : string) (ins : list DesiredStateInput)
    (i : DesiredStateInput) (st : Step) : Prop :=
(** Elsewhere than on a host, the move from the deployed version. *)
| DeploysMove :
    is_host_release ctx (input_release_id i) = false →
    input_deployed_version i ≠ Some (input_desired_version i) →
    step_from st = input_deployed_version i →
    moves (input_deployed_version i) (input_desired_version i) (step_action st) →
    deploys ctx executors env ins i st
(** On a host that does not have the release, the move from what the applier's
    record holds, at the record's generation. *)
| DeploysInstall m record :
    recorded_host ctx executors env i m record →
    (∀ release, record_state record = StateApplied release →
       hr_version release ≠ input_desired_version i) →
    (sole ins i → step_from st = host_source record (input_deployed_version i)
       ∧ moves (step_from st) (input_desired_version i) (step_action st)
       ∧ step_host st = Some {| host_action := HostInstall;
                                expected_generation := record_generation record |}) →
    deploys ctx executors env ins i st
(** On a host that has it, the health check it owes. *)
| DeploysCheck m record :
    recorded_host ctx executors env i m record → needs_health ctx executors env i →
    step_from st = Some (input_desired_version i) → step_action st = Restart →
    step_host st = Some {| host_action := HostHealth;
                           expected_generation := record_generation record |} →
    deploys ctx executors env ins i st.

Lemma bind_software_step ctx executors env s out :
  is_host_release ctx (step_release_id s) = false →
  bind_host_step ctx executors env s = Ok out → out = [s].
Proof.
  unfold bind_host_step, is_host_release.
  destruct (readable_manifest ctx (step_release_id s)) as [m|]; simpl; [|by intros _ [= <-]].
  intros Hh%bool_decide_eq_false. rewrite decide_True by done. intros H. ok_inv H. by injection H as <-.
Qed.

(** Binding a step planned for an input. *)
Lemma bind_planned_step ctx executors env ins i s out :
  bind_host_step ctx executors env s = Ok out → step_for i s →
  planned_for ctx executors env ins i s →
  ∃ b, b ∈ out ∧ step_for i b ∧ deploys ctx executors env ins i b.
Proof.
  intros H Hi Hpl.
  assert (∀ a f r h, step_for i (rebind s a f r h)) as Hrb by (intros; by destruct Hi).
  pose proof (sf_release _ _ Hi) as Hrel. pose proof (sf_product _ _ Hi) as Hprod.
  destruct Hpl as [Hsoft Hne Hf Hm|(m & record & Hrec & Hn) Hf Ha Hsole|g Hn Hf Ha Hh].
  - rewrite <- Hrel in Hsoft. apply bind_software_step in H as ->; [|done].
    exists s. split_and!; [left|done|]. rewrite Hrel in Hsoft. by apply DeploysMove.
  - destruct Hrec as (Hm & Hex & Hr). revert H. unfold bind_host_step.
    rewrite Hrel, Hm, decide_False, Hprod, Hr by (intros Hx; by rewrite Hex in Hx).
    intros H. ok_inv H. destruct (decide (step_host s = None)) as [Hnone|Hsome].
    + rewrite Hnone, Ha, !decide_False in H by done. rewrite (sf_to _ _ Hi), Hf in H.
      set (action := match host_source record (input_deployed_version i) with
                     | Some current => _ | None => _ end) in H.
      set (b := rebind s action (host_source record (input_deployed_version i)) None
                  (Some {| host_action := HostInstall; expected_generation := record_generation record |})).
      assert (Hb : b ∈ out).
      { destruct (declares_health m); [ok_inv H|]; injection H as <-; left. }
      exists b. split_and!; [done|apply Hrb|]. eapply (DeploysInstall _ _ _ _ _ _ m record); [done|done|].
      intros _. split_and!; [done| |done]. simpl. unfold action.
      destruct (host_source record (input_deployed_version i)); [apply classify_change_moves|done].
    + assert (Hany : ∀ b, deploys ctx executors env ins i b).
      { intros b. eapply (DeploysInstall _ _ _ _ _ _ m record); [done|done|].
        intros Hs. destruct Hsome. by apply Hsole. }
      destruct (step_host s) as [[[] g]|]; try done. injection H as <-. eexists.
      split_and!; [left|apply Hrb|apply Hany].
  - pose proof Hn as (m & record & release & Hrec & _). destruct (Hrec) as (Hm & Hex & Hr).
    revert H. unfold bind_host_step.
    rewrite Hrel, Hm, decide_False, Hprod, Hr by (intros Hx; by rewrite Hex in Hx).
    rewrite Hh. intros H. ok_inv H. injection H as <-. eexists. split_and!; [left|apply Hrb|].
    by eapply (DeploysCheck _ _ _ _ _ _ m record).
Qed.

Lemma bind_planned_steps ctx executors env ins ss bound i s :
  bind_host_steps ctx executors env ss = Ok bound → s ∈ ss → step_for i s →
  planned_for ctx executors env ins i s →
  ∃ b, b ∈ bound ∧ step_for i b ∧ deploys ctx executors env ins i b.
Proof.
  unfold bind_host_steps. intros H Hs Hi Hpl. revert H. generalize ([] : list Step).
  assert (∀ l acc bound' b, b ∈ acc →
    try_fold (λ bound s, let? more := bind_host_step ctx executors env s in Ok (bound ++ more)) acc l
    = Ok bound' → b ∈ bound') as Hmono.
  { induction l as [|s' l IH]; intros acc bound' b Hb; simpl; [by intros [= <-]|].
    intros (acc' & (more & _ & [= <-])%bind_ok & Hf)%bind_ok. eapply IH; [|exact Hf]. set_solver. }
  induction ss as [|s' ss IH]; intros acc; simpl; [by apply elem_of_nil in Hs|].
  intros (acc' & (more & Hm & [= <-])%bind_ok & Hf)%bind_ok.
  apply elem_of_cons in Hs as [->|Hs]; [|by eapply IH].
  destruct (bind_planned_step _ _ _ _ _ _ _ Hm Hi Hpl) as (b & Hb & Hbi).
  exists b. split; [|done]. eapply Hmono; [|exact Hf]. set_solver.
Qed.

Lemma step_for_same_content i s b : step_for i s → same_content s b → step_for i b.
Proof. intros [] [? ? ? ? ? (? & ? & ? & ?) ? ?]. split; congruence. Qed.

Lemma deploys_same_content ctx executors env ins i s b :
  deploys ctx executors env ins i s → same_content s b → deploys ctx executors env ins i b.
Proof.
  intros Hd [_ _ Ha Hf _ _ _ Hh].
  destruct Hd as [? ? ? ?|m record ? ? Hs|m record ? ? ? ? ?].
  - by apply DeploysMove; rewrite ?Ha, ?Hf.
  - apply (DeploysInstall _ _ _ _ _ _ m record); [done|done|]. by rewrite Ha, Hf, Hh.
  - by apply (DeploysCheck _ _ _ _ _ _ m record); rewrite ?Ha, ?Hf, ?Hh.
Qed.

(** C9: the plan an operator creates converges the environment, when releases
    are pinned under their own names.  Every subscription with a promoted
    channel head is an input of the plan at the release it resolves to, and
    every input is settled (its desired version is deployed and, on a host, is
    what the applier's record holds, with the health check it declares passed)
    or has a step of the stored plan that deploys it, at the release and the
    digests the input records: the install, upgrade or downgrade from the
    deployed version that the two versions call for; on a host whose record
    holds another release, that move from what the record holds at the record's
    generation (when the input is the only one of its product, as host releases
    must be); or, on a host that has the release, the health check it owes. *)
Theorem created_plan_converges ctx executors env now p ctx' :
  (∀ id pin, lookup_release ctx id env = Some pin → pin_release_id pin = id) →
  i64_min ≤ now ≤ i64_max → create ctx executors env now = Ok (p, ctx') →
  (∃ env_obj subs, active_environment ctx env = Ok env_obj
     ∧ list_subscriptions ctx env_obj = Ok subs
     ∧ ∀ sub, sub ∈ subs → promoted sub →
         ∃ selected target, resolves ctx env env_obj sub selected target
                            ∧ input_of env_obj sub selected target ∈ inputs p)
  ∧ (∀ i, i ∈ inputs p → settled_already ctx executors env i
                         ∨ ∃ st, st ∈ steps p ∧ step_for i st
                                 ∧ deploys ctx executors env (inputs p) i st)
  ∧ load (objects ctx') (plan_id_of p) = Ok p.
Proof.
  intros Hpin Hnow. unfold create. intros ([[ins ss] ctx1] & Hs & H)%bind_ok.
  apply operator_plan_covers in Hs as (-> & Hsubs & Hin); [|done].
  apply create_with_content_ok in H as (_ & _ & -> & _ & Hl & _ & _ & bound & Hb & Hsame & _);
    [|done].
  split_and!; [done| |done]. intros i Hi. destruct (Hin i Hi) as [?|(s & Hss & Hfor & Hpl)]; [by left|].
  right. destruct (bind_planned_steps _ _ _ _ _ _ _ _ Hb Hss Hfor Hpl) as (b & Hbb & Hbi & Hbd).
  apply list_elem_of_lookup in Hbb as [k Hk].
  destruct (Forall2_lookup_l _ _ _ _ _ Hsame Hk) as (st & Hst & Hc). exists st.
  split_and!; [by eapply list_elem_of_lookup_2|by eapply step_for_same_content|by eapply deploys_same_content].
Qed.

(** A rollback step goes to the recorded previous version of the
    instance, and only onto a recalled release with a stated recovery
    reason; what remains deployed keeps a provider for every contract it
    had one for; and a current release that is not recalled is pinned so
    that a failed rollback can be restored. *)
Theorem rollback_step_sound ctx env instance recovery st :
  rollback_step_with_recovery ctx env instance recovery = Ok st →
  ∃ env_obj prev, environment ctx env = Ok env_obj
    ∧ let ps := properties env_obj in
      let product := product_for_instance ps instance in
      ps !! ("deployed_prev." +:+ instance) = Some prev ∧ prev ≠ ""
      ∧ step_action st = Rollback ∧ step_to st = prev ∧ step_product st = product
      ∧ step_from st = ps !! ("deployed." +:+ instance)
      ∧ step_instance_name st = instance
      ∧ (release_is_recalled ctx (release_id product prev) = true →
         ∃ reason, recovery = Some reason ∧ trim reason ≠ "")
      ∧ (∀ v, ps !! ("deployed." +:+ instance) = Some v →
           release_is_recalled ctx (release_id product v) = false →
           step_restore st = lookup_release ctx (release_id product v) env
           ∧ is_Some (step_restore st))
      ∧ refuse_unsatisfied_dependents
          (insert_profile ctx product (Some (release_id product prev)) (other_profiles ctx ps instance))
          (insert_profile ctx product (release_id product <$> ps !! ("deployed." +:+ instance))
             (other_profiles ctx ps instance)) = Ok tt.
Proof.
  unfold rollback_step_with_recovery. intros H. ok_inv H. injection H as <-.
  rename x into env_obj, x0 into prev. exists env_obj, prev. split; [done|]. simpl.
  apply bind_Some in Hg2 as (v & Hv & Hne). destruct v as [|c v]; [done|]. injection Hne as <-.
  split_and!; try done.
  - unfold step_instance_name; simpl. unfold named_instance. case_decide as Hd; [symmetry; exact Hd|].
    destruct instance; [done|done].
  - intros Hrec. rewrite Hrec in Hg3. destruct Hg3 as [?|Hsome]; [done|].
    destruct recovery as [reason|]; [|done]. exists reason. split; [done|].
    simpl in Hg0. apply andb_true_iff in Hg0 as [Hg0 _]. intros Ht. by rewrite Ht in Hg0.
  - intros v' Hv' Hnot. rewrite Hv' in Hg7. simpl in Hg7. rewrite Hnot in Hg7.
    apply bind_ok in Hg7 as (pin & Hpin%ok_or_ok & Hx). injection Hx as <-.
    by rewrite Hpin.
  - by destruct x2.
Qed.
End CreationProofs.

Module PlanningExamples.
#[local] Existing Instance PlainSemver.instance.
#[local] Existing Instance PlainEncoding.instance.
#[local] Existing Instance PlainEncoding.encoding_laws.

(** Every stored text is the same plain software manifest. *)
#[local] Instance plain_manifest : ManifestFormat := {|
  parse_raw raw :=
    Some {| compatibility := None; product_name := "web"; product_version := "";
            product_kind := Software; deploy_install := "run"; deploy_uninstall := None;
            deploy_executor := None; deploy_health := None; deploy_instances := One;
            requirements := None; artifacts := [] |} |}.

#[local] Instance listed_order : HashOrder := {|
  hash_iter := map_to_list; hash_iter_perm := λ m, Permutation_refl _ |}.

Definition pin_of (id : string) : ReleasePin :=
  {| pin_release_id := id; pin_digest := "digest"; pin_artifact_digest := "artifact";
     pin_workdir := "" |}.

(** Releases are pinned when they are published; nothing else objects. *)
#[local] Instance permissive : PlanningServices := {|
  lookup_release ctx id _ := if is_some_b (ctx_get ctx id) then Some (pin_of id) else None;
  load_recoverable ctx id _ := if is_some_b (ctx_get ctx id) then Some (pin_of id) else None;
  report_eval _ _ _ := Ok None;
  placement_allowed _ _ _ := true;
  module_admitted _ _ _ _ := true;
  branch_pin_matches _ := true;
  overlay_of_json _ := None;
  overlay_hash _ := "";
  document_digest _ := "";
  observe_paths_valid _ := true;
  advisories _ _ _ := ([], "", None) |}.

Definition object (id : string) (ps : gmap string string) : Object := {|
  object_id := id; object_kind := ""; object_name := ""; object_namespace := "tenkai";
  external_id := ""; properties := ps; created := 0; updated := 0 |}.

Definition channel : Object :=
  object "tenkai:channel:web/stable"
    {["product" := "web"; "channel" := "stable"; "current_version" := "2.0.0";
      "current_release" := "tenkai:release:web@2.0.0"]}.

Definition release (v : string) : Object :=
  object (release_id "web" v) {["version" := v; "manifest" := "web"]}.

Definition ctx : Ctx := {|
  objects := list_to_map ((λ o, (object_id o, o)) <$>
    [object "tenkai:env:prod" {["deployed.web" := "1.0.0"; "deployed_prev.web" := "0.9.0"]};
     channel; release "0.9.0"; release "1.0.0"; release "2.0.0"]);
  catalog_links := [{| link_id := "l"; from_id := "tenkai:env:prod";
                       to_id := "tenkai:channel:web/stable"; link_relation := "subscribes" |}] |}.

Definition executors : Executors := {|
  default_kind := None; default_adapter := None; declared := [];
  host_executor := Err "no host applier"; process_default_error := None |}.

Definition snapshot : list DesiredStateInput * list Step * Ctx :=
  match compute_snapshot_with_policy reconcile ctx executors "prod" 7 with
  | Ok s => s
  | Err _ => ([], [], ctx)
  end.

(** The plan upgrades web from 1.0.0 to 2.0.0. *)
Example upgrade_planned :
  (λ s, (step_action s, step_from s, step_to s)) <$> snapshot.1.2 = [(Upgrade, Some "1.0.0", "2.0.0")].
Proof. vm_compute. reflexivity. Qed.


Definition plan_of (r : result (Plan * Ctx) planning_error) : Plan * Ctx :=
  match r with Ok x => x | Err _ => (PlanExamples.no_op Computed "", ctx) end.

Lemma plan_of_ok r : is_ok r = true → r = Ok ((plan_of r).1, (plan_of r).2).
Proof. by destruct r as [[p c]|]. Defined.

Definition by_operator : Plan * Ctx := plan_of (create ctx executors "prod" 7).

Lemma created_plan_converges_witness :
  (∀ i, i ∈ inputs by_operator.1 → settled_already ctx executors "prod" i
     ∨ ∃ st, st ∈ steps by_operator.1 ∧ step_for i st
             ∧ deploys ctx executors "prod" (inputs by_operator.1) i st)
  ∧ load (objects by_operator.2) (plan_id_of by_operator.1) = Ok by_operator.1.
Proof.
  refine (proj2 (created_plan_converges ctx executors "prod" 7 by_operator.1 by_operator.2 _ _ _)).
  - intros id pin. simpl. destruct (is_some_b (ctx_get ctx id)); intros [= <-]. reflexivity.
  - vm_compute. split; discriminate.
  - apply plan_of_ok. vm_compute. reflexivity.
Defined.

Definition explicit : Plan * Ctx :=
  plan_of (create_with_content ctx executors "prod" 7 [] snapshot.1.2 None).

Lemma created_plan_durable_witness :
  wf_plan explicit.1 ∧ load (objects explicit.2) (plan_id_of explicit.1) = Ok explicit.1.
Proof.
  destruct (created_plan_durable ctx executors "prod" 7 [] snapshot.1.2 None explicit.1 explicit.2)
    as (Hw & _ & _ & _ & Hl & _).
  - vm_compute. split; discriminate.
  - apply plan_of_ok. vm_compute. reflexivity.
  - split; [exact Hw|exact Hl].
Defined.

Definition back : Step := explicit_step "tenkai:env:prod:rollback:web" "web" "web" Rollback
  (Some "1.0.0") "0.9.0" (pin_of "tenkai:release:web@0.9.0")
  (Some (pin_of "tenkai:release:web@1.0.0")).

Lemma rollback_step_sound_witness :
  rollback_step_with_recovery ctx "prod" "web" None = Ok back
  ∧ ∃ env_obj prev, environment ctx "prod" = Ok env_obj
                    ∧ properties env_obj !! "deployed_prev.web" = Some prev ∧ step_to back = prev.
Proof.
  assert (H : rollback_step_with_recovery ctx "prod" "web" None = Ok back)
    by (vm_compute; reflexivity).
  split; [exact H|].
  destruct (rollback_step_sound ctx "prod" "web" None back H) as (o & prev & Ho & Hp & _ & _ & Ht & _).
  exists o, prev. split; [exact Ho|]. split; [exact Hp|exact Ht].
Defined.

(** Two instances of one product, the runtime agent and a removal. *)
Definition change (product instance : string) (a : Action) : PendingChange := {|
  change_product := product; change_instance := instance; change_action := a;
  change_from := Some "1"; change_to := "2"; change_release := pin_of ""; change_restore := None;
  change_kind := Software |}.

Definition pending : list PendingChange :=
  [change "tenkai-runtime" "tenkai-runtime" Upgrade; change "old" "old" Remove;
   change "web" "web-b" Upgrade; change "web" "web-a" Upgrade; change "cluster" "cluster" Upgrade].

Definition ordered : list PendingChange :=
  [change "cluster" "cluster" Upgrade; change "web" "web-a" Upgrade; change "web" "web-b" Upgrade;
   change "old" "old" Remove; change "tenkai-runtime" "tenkai-runtime" Upgrade].

Lemma order_pending_order_witness :
  order_pending {["cluster"]} pending ∅ ∅ = Ok ordered ∧ ordered ≡ₚ pending.
Proof.
  assert (H : order_pending {["cluster"]} pending ∅ ∅ = Ok ordered) by (vm_compute; reflexivity).
  split; [exact H|]. exact (proj1 (order_pending_order _ _ _ _ _ H)).
Defined.
End PlanningExamples.
