(* ===== verification/ExecutionAdmission.v ===== *)
(** * Freshness of a plan at execution

    [apply/execution_admission.rs]: whether a stored plan still describes the
    environment, asked by the reconciler for every candidate and again right
    before a plan runs; and that a plan is fresh for the state it was computed
    from. *)

From S2P Require Import Prelude RustStr Semver Kinds Facts Compatibility Contracts Plan Approvals HostState Catalog HostSteps Holds DependencyDocument ReleaseSelection Convergence PlanCreation.

Inductive Rejection :=
| EnvironmentMissing
| DeploymentUnknown (product : string)
| DeploymentChanged (product : string) (expected actual : option string)
| ChannelMissing (channel_id : string)
| ChannelMoved (product channel : string)
| PreviewClosed (error : planning_error)
| Resubscribed (product : string)
| Unsubscribed (product : string).

(** The two levels of [Result<Result<(), Rejection>>]: a rejection, or a state
    that could not be read. *)
Inductive admission_error := Rejected (r : Rejection) | Unreadable (e : planning_error).

Inductive CandidateAdmission := Admissible | Superseded.

Section Admission.
Context {SV : Semver} {MF : ManifestFormat} {HO : HashOrder} {PS : PlanningServices}.

Definition reject {A} (r : Rejection) : result A admission_error := Err (Rejected r).

Definition reading {A} (r : result A planning_error) : result A admission_error :=
  map_err Unreadable r.

(** Some subscription of the environment is the input's. *)
Definition subscribed_input (subs : list Subscription) (i : DesiredStateInput) : bool :=
  existsb (λ sub, bool_decide (object_id (sub_channel sub) = input_channel_id i)
                  && bool_decide (sub_instance sub = input_instance_name i)) subs.

Definition removes_subscribed (subs : list Subscription) (s : Step) : bool :=
  bool_decide (step_action s = Remove)
  && bool_decide (step_instance_name s ∈ sub_instance <$> subs).

(** A step against what the environment records as deployed. *)
Definition inspect_step (environment : Object) (s : Step) : result unit admission_error :=
  let instance := step_instance_name s in
  let actual := properties environment !! ("deployed." +:+ instance) in
  if is_some_b (step_host s) then Ok tt
  else if bool_decide (step_action s ≠ Rollback)
          && health_is (properties environment) instance "unknown"
  then reject (DeploymentUnknown (step_product s))
  else if negb (bool_decide (actual = step_from s))
  then reject (DeploymentChanged (step_product s) (step_from s) actual)
  else Ok tt.

(** An input against what its channel selects now. *)
Definition inspect_input (ctx : Ctx) (environment : Object) (env : string)
    (i : DesiredStateInput) : result unit admission_error :=
  match ctx_get ctx (input_channel_id i) with
  | None => reject (ChannelMissing (input_channel_id i))
  | Some channel =>
    let version := property channel "current_version" in
    let release := property channel "current_release" in
    bail_if str_is_empty version || str_is_empty release
      with (Rejected (ChannelMoved (input_product i) (input_channel i))) in
    let? selected := reading (resolve_subscription_selection ctx environment env (input_product i)
                                version release) in
    bail_if negb (bool_decide (selected.1 = input_desired_version i))
            || negb (bool_decide (selected.2 = input_release_id i))
      with (Rejected (ChannelMoved (input_product i) (input_channel i))) in
    Ok tt
  end.

(** [inspect], at the time [now]. *)
Definition inspect (ctx : Ctx) (p : Plan) (now : Z) : result unit admission_error :=
  match ctx_get ctx (env_id (plan_environment p)) with
  | None => reject EnvironmentMissing
  | Some environment =>
    let? _ := map_err (λ e, Rejected (PreviewClosed e))
                (admit_plan branch_pin_matches environment now) in
    let? subs := reading (list_subscriptions ctx environment) in
    match find_first (λ i, negb (subscribed_input subs i)) (inputs p) with
    | Some i => reject (Unsubscribed (input_product i))
    | None =>
      match find_first (removes_subscribed subs) (steps p) with
      | Some s => reject (Resubscribed (step_product s))
      | None =>
        let? _ := try_for_each (inspect_step environment) (steps p) in
        try_for_each (inspect_input ctx environment (plan_environment p)) (inputs p)
      end
    end
  end.

(** [admit], the text of the rejection aside. *)
Definition admit_execution (ctx : Ctx) (p : Plan) (now : Z) : result unit admission_error :=
  inspect ctx p now.

(** [classify_candidate]. *)
Definition classify_candidate (ctx : Ctx) (p : Plan) (now : Z) :
    result CandidateAdmission planning_error :=
  match inspect ctx p now with
  | Ok _ => Ok Admissible
  | Err (Rejected _) => Ok Superseded
  | Err (Unreadable e) => Err e
  end.
End Admission.

(** ** What freshness means *)

Section Freshness.
Context {SV : Semver} {MF : ManifestFormat} {HO : HashOrder} {PS : PlanningServices}.

(** A step that still starts from where the environment is. *)
Definition starts_here (environment : Object) (s : Step) : Prop :=
  step_host s = None →
  properties environment !! ("deployed." +:+ step_instance_name s) = step_from s
  ∧ (step_action s ≠ Rollback →
     health_is (properties environment) (step_instance_name s) "unknown" = false).

(** An input whose channel still selects its release. *)
Definition still_selected (ctx : Ctx) (environment : Object) (env : string)
    (i : DesiredStateInput) : Prop :=
  ∃ channel, ctx_get ctx (input_channel_id i) = Some channel
    ∧ property channel "current_version" ≠ "" ∧ property channel "current_release" ≠ ""
    ∧ resolve_subscription_selection ctx environment env (input_product i)
        (property channel "current_version") (property channel "current_release")
      = Ok (input_desired_version i, input_release_id i).

(** The plan is about the environment as it is. *)
Record fresh (ctx : Ctx) (p : Plan) (now : Z) (environment : Object) (subs : list Subscription) :
    Prop := {
  fr_environment : ctx_get ctx (env_id (plan_environment p)) = Some environment;
  fr_preview : admit_plan branch_pin_matches environment now = Ok tt;
  fr_subs : list_subscriptions ctx environment = Ok subs;
  fr_subscribed i : i ∈ inputs p → ∃ sub, sub ∈ subs
    ∧ object_id (sub_channel sub) = input_channel_id i ∧ sub_instance sub = input_instance_name i;
  fr_removed s : s ∈ steps p → step_action s = Remove →
    step_instance_name s ∉ sub_instance <$> subs;
  fr_steps s : s ∈ steps p → starts_here environment s;
  fr_inputs i : i ∈ inputs p → still_selected ctx environment (plan_environment p) i
}.

Lemma subscribed_input_iff subs i :
  subscribed_input subs i = true ↔ ∃ sub, sub ∈ subs
    ∧ object_id (sub_channel sub) = input_channel_id i ∧ sub_instance sub = input_instance_name i.
Proof.
  unfold subscribed_input. rewrite existsb_elem. f_equiv. intros sub.
  by rewrite andb_true_iff, !bool_decide_eq_true.
Qed.

Lemma inspect_step_iff environment s : inspect_step environment s = Ok tt ↔ starts_here environment s.
Proof.
  unfold inspect_step, starts_here. destruct (step_host s); simpl; [naive_solver|].
  destruct (bool_decide_reflect (step_action s ≠ Rollback)) as [Ha|Ha]; simpl;
    destruct (health_is _ _ _); simpl;
    destruct (bool_decide_reflect (properties environment !! ("deployed." +:+ step_instance_name s)
                                   = step_from s)); simpl; naive_solver.
Qed.

Lemma str_nonempty s : str_is_empty s = false ↔ s ≠ "".
Proof. by destruct s. Qed.

Lemma inspect_input_iff ctx environment env i :
  inspect_input ctx environment env i = Ok tt ↔ still_selected ctx environment env i.
Proof.
  unfold inspect_input, still_selected. destruct (ctx_get ctx (input_channel_id i)) as [channel|];
    [|naive_solver].
  rewrite bail_ok, orb_false_iff, !str_nonempty. split.
  - intros [[Hv Hr] H]. ok_inv H. destruct Hg0. exists channel. split_and!; try done.
    apply map_err_ok in Hg. rewrite Hg. by destruct x; simpl in *; subst.
  - intros (c & [= <-] & Hv & Hr & Hsel). split; [done|]. unfold reading. rewrite Hsel. simpl.
    by rewrite !bool_decide_true.
Qed.

Lemma inspect_iff ctx p now :
  inspect ctx p now = Ok tt ↔ ∃ environment subs, fresh ctx p now environment subs.
Proof.
  unfold inspect. destruct (ctx_get ctx (env_id (plan_environment p))) as [environment|] eqn:He.
  2: { split; [done|]. intros (e & subs & []). congruence. }
  split.
  - intros H. ok_inv H. destruct x. exists environment, x0.
    destruct (find_first _ (inputs p)) eqn:Hi; [done|].
    destruct (find_first _ (steps p)) eqn:Hs; [done|].
    apply bind_ok in H as ([] & Hsteps & Hins).
    rewrite find_first_none in Hi. rewrite find_first_none in Hs.
    rewrite try_for_each_ok in Hsteps. rewrite try_for_each_ok in Hins. split; try done.
    { by apply map_err_ok in Hg0. }
    + intros i Hin. specialize (Hi i Hin). rewrite negb_false in Hi. by apply subscribed_input_iff.
    + intros s Hin Ha. specialize (Hs s Hin). unfold removes_subscribed in Hs.
      rewrite (bool_decide_true _ Ha) in Hs. by apply bool_decide_eq_false in Hs.
    + intros s Hin. by apply inspect_step_iff, Hsteps.
    + intros i Hin. by apply inspect_input_iff, Hins.
  - intros (e & subs & [He' Hp Hl Hsub Hrm Hst Hin]). assert (e = environment) as -> by congruence.
    rewrite Hp. simpl. unfold reading. rewrite Hl. simpl.
    assert (find_first (λ i, negb (subscribed_input subs i)) (inputs p) = None) as ->.
    { apply find_first_none. intros i Hi. rewrite negb_false. by apply subscribed_input_iff, Hsub. }
    assert (find_first (removes_subscribed subs) (steps p) = None) as ->.
    { apply find_first_none. intros s Hs. unfold removes_subscribed. apply andb_false_iff.
      destruct (bool_decide_reflect (step_action s = Remove)); [right|by left].
      by apply bool_decide_eq_false, Hrm. }
    assert (try_for_each (inspect_step environment) (steps p) = Ok tt) as ->.
    { apply try_for_each_ok. intros s Hs. by apply inspect_step_iff, Hst. }
    simpl. apply try_for_each_ok. intros i Hi. by apply inspect_input_iff, Hin.
Qed.
(** C34: a plan is admitted for execution exactly when it is fresh: its
    environment exists and takes plans, subscribes to every input and to no
    instance the plan removes, records as deployed what every step of the
    server's own starts from (and not as unknown, unless the step rolls it
    back), and every input's channel, with the environment's pins, ranges and
    facts, still selects the release the plan was made for. *)
Theorem admitted_iff_fresh ctx p now :
  inspect ctx p now = Ok tt ↔ ∃ environment subs, fresh ctx p now environment subs.
Proof. apply inspect_iff. Qed.
End Freshness.

(** ** A plan is fresh where it was computed *)

Section Planned.
Context {E : PlanEncoding} {SV : Semver} {MF : ManifestFormat} {HO : HashOrder}
  {PS : PlanningServices}.
Context (ctx : Ctx) (executors : Executors) (env : string).

(** What the rest of the system keeps true of a store: objects lie under
    their own ids, a pin names the release it was asked for, releases that can
    be recovered have a manifest that reads, and no instance has an empty
    name. *)
Record well_kept (environment : Object) : Prop := {
  wk_keyed id o : ctx_get ctx id = Some o → object_id o = id;
  wk_pin id pin : lookup_release ctx id env = Some pin → pin_release_id pin = id;
  wk_recoverable id pin : load_recoverable ctx id env = Some pin →
    pin_release_id pin = id ∧ is_Some (readable_manifest ctx id);
  wk_subscriptions subs sub : list_subscriptions ctx environment = Ok subs → sub ∈ subs →
    sub_instance sub ≠ "";
  wk_deployed : properties environment !! "deployed." = None
                ∧ properties environment !! "failed_target." = None;
  wk_records host records r : executors_host executors = Ok host →
    applied_states host env = Some records → r ∈ records → record_product r ≠ ""
}.

(** Objects found under their own ids. *)
Definition stored_object_of (o : Object) : Prop := ctx_get ctx (object_id o) = Some o.

Lemma linked_stored id rel d l :
  (∀ id o, ctx_get ctx id = Some o → object_id o = id) →
  linked ctx id rel d = Ok l → ∀ o, o ∈ l → stored_object_of o.
Proof.
  intros Hk. unfold linked.
  apply (try_fold_invariant (λ l, ∀ o, o ∈ l → stored_object_of o)); [intros o []%elem_of_nil|].
  intros link acc acc' _ IH (o & Ho%ok_or_ok & [= <-])%bind_ok o'.
  intros [Hin| ->%list_elem_of_singleton]%elem_of_app; [by apply IH|].
  unfold stored_object_of. by rewrite (Hk _ _ Ho).
Qed.

Lemma subscription_channels environment subs :
  (∀ id o, ctx_get ctx id = Some o → object_id o = id) →
  list_subscriptions ctx environment = Ok subs →
  ∀ sub, sub ∈ subs → stored_object_of (sub_channel sub).
Proof.
  intros Hk. unfold list_subscriptions. intros H. ok_inv H. injection H as <-.
  assert (Hst : ∀ sub, sub ∈ x0.2 → stored_object_of (sub_channel sub)).
  { revert Hg0. apply (try_fold_invariant (λ st : gset string * list Subscription,
      ∀ sub, sub ∈ st.2 → stored_object_of (sub_channel sub))); [intros sub []%elem_of_nil|].
    intros instance [seen out] st' _ IH (channels & Hc & H)%bind_ok. destruct channels as [|channel rest].
    { by injection H as <-. }
    apply bail_ok in H as [_ [= <-]]. simpl. intros sub.
    intros [Hin| ->%list_elem_of_singleton]%elem_of_app; [by apply IH|].
    eapply linked_stored; [done|exact Hc|left]. }
  intros sub. rewrite elem_of_sort_by. revert sub.
  apply (foldl_invariant (λ st : gset string * list Subscription,
    ∀ sub, sub ∈ st.2 → stored_object_of (sub_channel sub))); [done|].
  intros channel [seen out] Hch IH sub. unfold channel_subscription.
  destruct (_ || _); [apply IH|]. simpl.
  intros [Hin| ->%list_elem_of_singleton]%elem_of_app; [by apply IH|].
  by eapply linked_stored.
Qed.

(** A step name is an instance name again. *)
Lemma named_again instance product :
  instance ≠ "" →
  (if str_is_empty (named_instance instance product) then product
   else named_instance instance product) = instance.
Proof.
  intros Hne. unfold named_instance. case_decide; [done|]. by destruct instance.
Qed.

(** ** Binding to the host applier *)

Lemma bind_host_steps_origin ss bound b :
  bind_host_steps ctx executors env ss = Ok bound → b ∈ bound →
  ∃ s out, s ∈ ss ∧ bind_host_step ctx executors env s = Ok out ∧ b ∈ out.
Proof.
  intros H. revert b. revert H. unfold bind_host_steps.
  apply (try_fold_invariant (λ bound, ∀ b, b ∈ bound → ∃ s out, s ∈ ss
    ∧ bind_host_step ctx executors env s = Ok out ∧ b ∈ out)); [intros b []%elem_of_nil|].
  intros s acc acc' Hs IH (more & Hm & [= <-])%bind_ok b [Hb|Hb]%elem_of_app; [by apply IH|].
  by exists s, more.
Qed.

(** A bound step keeps its instance; one that is not the applier's is the
    planned step itself, of a release that is not a host release. *)
Lemma bind_host_step_origin s out b :
  bind_host_step ctx executors env s = Ok out → b ∈ out →
  step_instance_name b = step_instance_name s
  ∧ (step_action b = Remove → step_action s = Remove)
  ∧ (step_host b = None → b = s ∧ is_host_release ctx (step_release_id s) = false
     ∧ (is_Some (readable_manifest ctx (step_release_id s)) → step_action s ≠ Remove)).
Proof.
  unfold bind_host_step, is_host_release.
  destruct (readable_manifest ctx (step_release_id s)) as [m|]; simpl.
  2: { intros [= <-] ->%list_elem_of_singleton. split_and!; [done..|].
       intros _. split_and!; [done..|]. by intros []. }
  case_decide as Hx; intros H; ok_inv H.
  { injection H as <-. intros ->%list_elem_of_singleton. split_and!; [done..|].
    intros _. split_and!; [done|by apply bool_decide_eq_false|done]. }
  assert (Hre : ∀ a f r h, step_instance_name (rebind s a f r h) = step_instance_name s) by done.
  destruct (step_host s) as [[[] g]|]; try done.
  { injection H as <-. by intros ->%list_elem_of_singleton. }
  case_decide as Hr; [done|]. case_decide as Hm.
  { injection H as <-. by intros ->%list_elem_of_singleton. }
  set (action := if decide (step_action s = Rollback) then Rollback else _) in H.
  assert (Ha : action ≠ Remove).
  { unfold action. destruct (decide (step_action s = Rollback)); [done|]. destruct (host_source _ _) as [v|]; [|done].
    by destruct (classify_change_update v (step_to s)) as [-> | ->]. }
  destruct (declares_health m).
  - ok_inv H. injection H as <-. intros [->|[->|[]%elem_of_nil]%elem_of_cons]%elem_of_cons.
    + by split_and!.
    + split_and!; [done| |done]. simpl. by case_decide.
  - injection H as <-. intros ->%list_elem_of_singleton. by split_and!.
Qed.

(** ** From changes to steps *)

Variable environment : Object.
Hypothesis Hkept : well_kept environment.
Hypothesis Henv : ctx_get ctx (env_id env) = Some environment.
Variable subs : list Subscription.
Hypothesis Hsubs : list_subscriptions ctx environment = Ok subs.

Lemma change_step_instance health index c :
  change_instance c ≠ "" → step_instance_name (change_step env health index c) = change_instance c.
Proof. intros Hne. unfold step_instance_name. simpl. by apply named_again. Qed.

Lemma removal_origin_named instance :
  removal_origin executors env environment instance → instance ≠ "".
Proof.
  destruct (wk_deployed _ Hkept) as [Hd Hf].
  intros [[v Hv]|[[v Hv]|(host & records & r & Hh & Hr & Hin & <-)]].
  - intros ->. change ("deployed." +:+ "") with "deployed." in Hv. congruence.
  - intros ->. change ("failed_target." +:+ "") with "failed_target." in Hv. congruence.
  - by eapply (wk_records _ Hkept).
Qed.

Lemma explained_named policy c :
  explained policy ctx executors env environment subs c → change_instance c ≠ "".
Proof.
  intros [[sub sel tgt Hin Hr Hc|Hr]|[base Hr]].
  - rewrite (cv_instance _ _ _ _ _ _ _ _ _ Hc). by eapply (wk_subscriptions _ Hkept).
  - apply removal_origin_named, (rm_origin _ _ _ _ _ _ Hr).
  - rewrite (rr_instance _ _ _ _ _ Hr). intros Hp. pose proof (rr_deployed _ _ _ _ _ Hr) as Hd.
    rewrite Hp in Hd. destruct (wk_deployed _ Hkept). change ("deployed." +:+ "") with "deployed." in Hd.
    congruence.
Qed.

(** A planned step, unbound, starts from what is recorded. *)
Lemma change_step_starts policy health index c out b :
  let s := change_step env health index c in
  explained policy ctx executors env environment subs c →
  bind_host_step ctx executors env s = Ok out → b ∈ out →
  (step_action b = Restart →
   health_is (properties environment) (step_instance_name b) "unknown" = false) →
  starts_here environment b
  ∧ (step_action b = Remove → step_instance_name b ∉ sub_instance <$> subs).
Proof.
  intros s Hj Hb Hin Hknown.
  destruct (bind_host_step_origin s out b Hb Hin) as (Hname & Hrm & Hunbound).
  assert (Hs : step_instance_name s = change_instance c).
  { by eapply change_step_instance, explained_named. }
  split.
  - intros Hhost. destruct (Hunbound Hhost) as (-> & Hnot & Hread). rewrite Hs in *.
    destruct Hj as [[sub sel tgt Hsub Hr Hc|Hr]|[base Hr]].
    + pose proof (wk_pin _ Hkept _ _ (rs_target _ _ _ _ _ _ Hr)) as Hpin.
      pose proof (cv_release _ _ _ _ _ _ _ _ _ Hc) as Hrel. simpl in Hnot. rewrite Hrel, Hpin in Hnot.
      rewrite (cv_instance _ _ _ _ _ _ _ _ _ Hc).
      by destruct (converges_current _ _ _ _ _ _ _ _ _ Hc) as [?|[<- ?]]; [congruence|].
    + exfalso. destruct (wk_recoverable _ Hkept _ _ (rm_release _ _ _ _ _ _ Hr)) as [Hpin Hm].
      simpl in Hread. rewrite Hpin in Hread. by destruct (Hread Hm), Hr.
    + simpl in *. rewrite (rr_from _ _ _ _ _ Hr), <- (rr_deployed _ _ _ _ _ Hr), (rr_instance _ _ _ _ _ Hr).
      split; [done|]. intros _. rewrite <- (rr_instance _ _ _ _ _ Hr). by apply Hknown, Hr.
  - intros Ha%Hrm. rewrite Hname, Hs.
    destruct Hj as [[sub sel tgt Hsub Hr Hc|Hr]|[base Hr]].
    + by apply converges_keeps in Hc.
    + pose proof (rm_instance _ _ _ _ _ _ Hr). by rewrite elem_of_list_to_set in *.
    + simpl in Ha. pose proof (rr_action _ _ _ _ _ Hr). congruence.
Qed.

(** An input of the snapshot is subscribed, and still selected. *)
Lemma input_fresh sub selected target :
  sub ∈ subs → promoted sub → resolves ctx env environment sub selected target →
  let i := input_of environment sub selected target in
  input_instance_name i = sub_instance sub ∧ still_selected ctx environment env i.
Proof.
  intros Hsub [Hv Hrel] [Hsel _ _]. split.
  { unfold input_instance_name. simpl. apply named_again. by eapply (wk_subscriptions _ Hkept). }
  exists (sub_channel sub). split_and!; [|done|done|].
  - by eapply subscription_channels; [apply (wk_keyed _ Hkept)|..].
  - simpl. unfold select in Hsel. ok_inv Hsel. destruct x as [version release]. simpl in *.
    ok_inv Hsel. by injection Hsel as <-.
Qed.
End Planned.

Section Composition.
Context {E : PlanEncoding} {EL : PlanEncodingLaws E} {SV : Semver} {MF : ManifestFormat}
  {HO : HashOrder} {PS : PlanningServices}.

Lemma create_with_content_environment ctx executors env now ins ss reason p ctx' :
  create_with_content ctx executors env now ins ss reason = Ok (p, ctx') → plan_environment p = env.
Proof.
  unfold create_with_content. intros H. ok_inv H. injection H as <- _. unfold annotate.
  by destruct (advisories _ _ _) as [[? ?] ?].
Qed.

Lemma starts_here_same environment s b :
  same_content s b → starts_here environment s → starts_here environment b.
Proof.
  intros [Hp Hi Ha Hf _ _ _ Hh]. unfold starts_here, step_instance_name.
  by rewrite Hp, Hi, Ha, Hf, Hh.
Qed.

(** The steps of a plan made of justified changes start where the
    environment is. *)
Lemma bound_step_starts policy ctx executors env environment subs health ordered bound stored st :
  well_kept ctx executors env environment → list_subscriptions ctx environment = Ok subs →
  (∀ c, c ∈ ordered → explained policy ctx executors env environment subs c) →
  bind_host_steps ctx executors env (imap (change_step env health) ordered) = Ok bound →
  Forall2 same_content bound stored → st ∈ stored →
  (step_action st = Restart →
   health_is (properties environment) (step_instance_name st) "unknown" = false) →
  starts_here environment st
  ∧ (step_action st = Remove → step_instance_name st ∉ sub_instance <$> subs).
Proof.
  intros Hk Hl Hj Hb Hsame [k Hst]%list_elem_of_lookup Hknown.
  destruct (Forall2_lookup_r _ _ _ _ _ Hsame Hst) as (b & Hbk%list_elem_of_lookup_2 & Hc).
  destruct (bind_host_steps_origin _ _ _ _ _ _ Hb Hbk) as (s0 & out & Hs0 & Hout & Hbo).
  apply list_elem_of_lookup in Hs0 as [index Hs0]. rewrite list_lookup_imap in Hs0.
  apply fmap_Some in Hs0 as (c & Hc0%list_elem_of_lookup_2 & ->).
  assert (Hname : step_instance_name st = step_instance_name b).
  { unfold step_instance_name. by rewrite (sc_product _ _ Hc), (sc_instance _ _ Hc). }
  rewrite Hname, (sc_action _ _ Hc) in *.
  destruct (change_step_starts ctx executors env environment Hk subs Hl policy _ index c out b
              (Hj c Hc0) Hout Hbo Hknown) as [Hsh Hrm].
  split; [by eapply starts_here_same|exact Hrm].
Qed.

(** Planning and execution agree on what is current: a plan computed
    from the subscriptions of an environment is admitted for execution in the
    very state it was computed from, as long as no dependent it restarts at
    its own version is recorded as unknown.  (A re-render is planned whatever
    the recorded health of the dependent, and such a plan is refused.) *)
Theorem created_plan_admissible ctx executors env now environment p ctx' :
  i64_min ≤ now ≤ i64_max →
  well_kept ctx executors env environment →
  ctx_get ctx (env_id env) = Some environment →
  create ctx executors env now = Ok (p, ctx') →
  (∀ s, s ∈ steps p → step_action s = Restart →
     health_is (properties environment) (step_instance_name s) "unknown" = false) →
  inspect ctx p now = Ok tt.
Proof.
  intros Hnow Hk Henv. unfold create. intros ([[ins ss] ctx1] & Hs & H)%bind_ok Hknown.
  pose proof (create_with_content_environment _ _ _ _ _ _ _ _ _ H) as Hpe.
  unfold compute_snapshot_with_policy in Hs.
  apply bind_ok in Hs as ([[env_obj s] ordered] & Hch & Hs).
  pose proof Hch as Hadm. unfold snapshot_changes in Hadm. ok_inv Hadm. injection Hadm as -> _ _.
  destruct x0. clear Hg1 Hg2 Hg3 Hg4 Hg5 Hg6 Hg7.
  apply snapshot_changes_ok in Hch as (subs & Hact & Hl & Hga & Hholds & (base & extra & Hperm & Hbase & Hextra) & _).
  assert (Hj : ∀ c, c ∈ ordered → explained catalog_only ctx executors env env_obj subs c).
  { intros c. by apply (all_explained _ _ _ _ _ _ _ base extra). }
  assert (env_obj = environment) as ->.
  { unfold active_environment in Hact. ok_inv Hact. injection Hact as ->.
    apply environment_ok in Hg1 as [_ ?]. congruence. }
  ok_inv Hs. injection Hs as <- <- <-. destruct (Hholds eq_refl) as [H1 H2].
  rewrite H1, H2 in Hg1. simpl in Hg1. injection Hg1 as <-.
  apply create_with_content_ok in H as (_ & _ & Hins & _ & _ & _ & _ & bound & Hb & Hsame & _);
    [|done].
  assert (Hstep : ∀ st, st ∈ steps p → starts_here environment st
    ∧ (step_action st = Remove → step_instance_name st ∉ sub_instance <$> subs)).
  { intros st Hst. by eapply bound_step_starts; [..|exact Hst|apply Hknown]. }
  assert (Hin : ∀ i, i ∈ inputs p → ∃ sub, sub ∈ subs
    ∧ object_id (sub_channel sub) = input_channel_id i ∧ sub_instance sub = input_instance_name i
    ∧ still_selected ctx environment env i).
  { intros i. rewrite Hins, elem_of_sort_by. intros Hi.
    destruct (ga_origin _ _ _ _ _ _ _ Hga i Hi) as (sub & sel & tgt & Hsub & Hp & Hr & ->).
    destruct (input_fresh ctx executors env environment Hk subs Hl sub sel tgt Hsub Hp Hr).
    by exists sub. }
  apply inspect_iff. exists environment, subs. split; rewrite ?Hpe; try done.
  - intros i Hi. destruct (Hin i Hi) as (sub & ? & ? & ? & _). by exists sub.
  - intros st Hst. by apply Hstep.
  - intros st Hst. by apply Hstep.
  - intros i Hi. by destruct (Hin i Hi) as (sub & _ & _ & _ & ?).
Qed.
End Composition.

Module AdmissionExamples.
#[local] Existing Instance PlainSemver.instance.
#[local] Existing Instance PlainEncoding.instance.
#[local] Existing Instance PlainEncoding.encoding_laws.
#[local] Existing Instance PlanningExamples.plain_manifest.
#[local] Existing Instance PlanningExamples.listed_order.

Definition pinned (ctx : Ctx) (id env : string) : option ReleasePin :=
  if is_some_b (readable_manifest ctx id) then Some (PlanningExamples.pin_of id) else None.

(** Releases are pinned when their manifest reads; nothing else objects. *)
#[local] Instance readable : PlanningServices := {|
  lookup_release := pinned; load_recoverable := pinned;
  report_eval _ _ _ := Ok None; placement_allowed _ _ _ := true; module_admitted _ _ _ _ := true;
  branch_pin_matches _ := true; overlay_of_json _ := None; overlay_hash _ := "";
  document_digest _ := ""; observe_paths_valid _ := true; advisories _ _ _ := ([], "", None) |}.

Definition ctx := PlanningExamples.ctx.
Definition executors := PlanningExamples.executors.

Definition environment : Object :=
  PlanningExamples.object "tenkai:env:prod"
    {["deployed.web" := "1.0.0"; "deployed_prev.web" := "0.9.0"]}.

Lemma kept : well_kept ctx executors "prod" environment.
Proof.
  assert (Hpin : ∀ id pin, pinned ctx id "prod" = Some pin →
    pin_release_id pin = id ∧ is_Some (readable_manifest ctx id)).
  { unfold pinned. intros id pin. destruct (readable_manifest ctx id) eqn:Hm; simpl; [|done].
    intros [= <-]. by eexists. }
  split.
  - unfold ctx_get, ctx, PlanningExamples.ctx. cbn [objects]. intros id o Ho%elem_of_list_to_map_2. apply list_elem_of_fmap in Ho as (o' & [= -> ->] & _). done.
  - intros id pin H. by apply Hpin.
  - exact Hpin.
  - intros subs sub Hl Hin. vm_compute in Hl. injection Hl as <-.
    by apply list_elem_of_singleton in Hin as ->.
  - by vm_compute.
  - intros host records r [=].
Qed.

Definition planned : Plan * Ctx := PlanningExamples.plan_of (create ctx executors "prod" 7).

Lemma created_plan_admissible_witness :
  is_ok (create ctx executors "prod" 7) = true ∧ inspect ctx planned.1 7 = Ok tt.
Proof.
  split; [by vm_compute|].
  refine (created_plan_admissible ctx executors "prod" 7 environment planned.1 planned.2
            _ kept _
            (PlanningExamples.plan_of_ok _ _) _); [by vm_compute|reflexivity|by vm_compute|].
  intros s Hin _. vm_compute in Hin. apply list_elem_of_singleton in Hin as ->. by vm_compute.
Defined.

(** Someone else moved the instance: the plan is stale. *)
Example moved_instance_is_stale :
  inspect (ctx_put ctx (PlanningExamples.object "tenkai:env:prod" {["deployed.web" := "2.0.0"]}))
    planned.1 7
  = Err (Rejected (DeploymentChanged "web" (Some "1.0.0") (Some "2.0.0"))).
Proof. by vm_compute. Qed.
End AdmissionExamples.
