(* ===== verification/Maintenance.v ===== *)
(** * Maintenance windows

    [maintenance.rs]: recurring windows in local time, whether one is open at
    an instant, how the windows of an environment and of its products combine,
    and the stored configuration with its audit evidence.  Instants are
    milliseconds, dates are days since 1970-01-01, local times are minutes
    since the local epoch. *)

From S2P Require Import Prelude RustStr Semver Kinds Facts Compatibility Contracts Plan ObjectStore Approvals HostState Catalog.

(** ** Calendars *)

(** What [chrono] and [chrono_tz] answer. *)
Inductive LocalResult := LocalNone | LocalSingle (at_ms : Z) | LocalAmbiguous (first second : Z).

Class Calendar := {
  Tz : Type;
  tz_parse : string → option Tz;
  (** The local date of an instant. *)
  local_date : Tz → Z → Z;
  from_local : Tz → Z → LocalResult;
  (** Dates and instants that [chrono] represents. *)
  date_ok : Z → bool;
  instant_ok : Z → bool;
  (** [NaiveTime::parse_from_str(value, "%H:%M")], in minutes. *)
  parse_time : string → option Z
}.

Definition checked_date `{Calendar} (date : Z) : option Z := if date_ok date then Some date else None.

Definition MINUTE : Z := 60000.

Definition plus_minutes `{Calendar} (at_ms minutes : Z) : option Z :=
  let sum := at_ms + minutes * MINUTE in if instant_ok sum then Some sum else None.

(** 1970-01-01 was a Thursday; Monday is 1. *)
Definition weekday_number (date : Z) : Z := (date + 3) mod 7 + 1.

(** ** Windows *)

Record Window := {
  identity : string;
  timezone : string;
  weekdays : list Z;
  window_start : string;
  duration_minutes : Z
}.

#[export] Instance Window_eq : EqDecision Window.
Proof. solve_decision. Defined.

Inductive maintenance_error :=
| BadIdentity (value : string)
| UnknownTimezone (name : string)
| BadStart (value : string)
| NoWeekday
| BadWeekdays
| BadDuration
| EndOverflows
| AmbiguousStart (timezone : string) (date : Z)
| MissingStart (timezone : string) (date : Z)
| UnresolvedStart (timezone : string) (date : Z)
| DateOverflows
| WrongKind (id kind : string)
| WrongScope (id : string)
| NoWindows
| BadRevision (id : string)
| BadJson (id : string)
| NotConfigured (identity : string)
| UnknownWeekday (raw : string)
| NotRegistered (name : string)
| ConfigurationMissing (name : string)
| NoGovernedEvidence (id : string).

Inductive Eligibility :=
| Open (window : string) (closes_at : Z)
| Closed (next_opens_at : option Z)
| Invalid (detail : maintenance_error).

Inductive Occurrence :=
| OccAbsent
| OccValid (start stop : Z)
| OccInvalid (starts : list Z) (sort_at : Z) (detail : maintenance_error).

(** [a..=b]. *)
Definition range_inclusive (a b : Z) : list Z := (λ i, a + Z.of_nat i) <$> seq 0 (Z.to_nat (b - a + 1)).

(** [max_by_key] keeps the last maximum, [min_by_key] the first minimum. *)
Definition max_by_key {A} (key : A → Z) (l : list A) : option A :=
  foldl (λ best a, match best with
                   | Some b => if key a <? key b then Some b else Some a
                   | None => Some a
                   end) None l.

Definition min_by_key {A} (key : A → Z) (l : list A) : option A :=
  foldl (λ best a, match best with
                   | Some b => if key a <? key b then Some a else Some b
                   | None => Some a
                   end) None l.

Section Windows.
Context {Cal : Calendar}.

(** [Window::validate]. *)
Definition Window_validate (w : Window) : result unit maintenance_error :=
  bail_if negb (valid_identifier (identity w)) with (BadIdentity (identity w)) in
  let? _ := ok_or (tz_parse (timezone w)) (UnknownTimezone (timezone w)) in
  let? _ := ok_or (parse_time (window_start w)) (BadStart (window_start w)) in
  bail_if match weekdays w with [] => true | _ => false end with NoWeekday in
  bail_if negb (bool_decide (NoDup (weekdays w)))
          || existsb (λ day, negb ((1 <=? day) && (day <=? 7))) (weekdays w)
    with BadWeekdays in
  bail_if (duration_minutes w =? 0) || (7 * 24 * 60 <? duration_minutes w) with BadDuration in
  Ok tt.

(** [Window::new]. *)
Definition Window_new (identity timezone : string) (weekdays : list Z) (start : string)
    (duration_minutes : Z) : result Window maintenance_error :=
  let w := {| identity := identity; timezone := timezone; weekdays := weekdays;
              window_start := start; duration_minutes := duration_minutes |} in
  let? _ := Window_validate w in Ok w.

(** The first local minute after a gap that exists. *)
Definition after_gap (tz : Tz) (local : Z) : option Z :=
  find_map (λ minutes,
    match from_local tz (local + minutes) with
    | LocalSingle v => Some v
    | LocalAmbiguous first second => Some (Z.min first second)
    | LocalNone => None
    end) (range_inclusive 1 (24 * 60)).

(** [occurrence] of a window on a local date. *)
Definition occurrence (w : Window) (date : Z) : result Occurrence maintenance_error :=
  if negb (bool_decide (weekday_number date ∈ weekdays w)) then Ok OccAbsent
  else
    let? tz := ok_or (tz_parse (timezone w)) (UnknownTimezone (timezone w)) in
    let? start_time := ok_or (parse_time (window_start w)) (BadStart (window_start w)) in
    let local := date * 1440 + start_time in
    match from_local tz local with
    | LocalSingle start =>
      let? stop := ok_or (plus_minutes start (duration_minutes w)) EndOverflows in
      Ok (OccValid start stop)
    | LocalAmbiguous first second =>
      Ok (OccInvalid [Z.min first second; Z.max first second] (Z.min first second)
            (AmbiguousStart (timezone w) date))
    | LocalNone =>
      let? sort_at := ok_or (after_gap tz local) (UnresolvedStart (timezone w) date) in
      Ok (OccInvalid [] sort_at (MissingStart (timezone w) date))
    end.

(** Whether an occurrence that would start at [start] covers [now]. *)
Definition covers (w : Window) (start now : Z) : bool :=
  (start <=? now) && is_some_and (plus_minutes start (duration_minutes w)) (λ stop, now <? stop).

(** The guard of the second arm of the first match of [evaluate]. *)
Definition invalid_now (w : Window) (starts : list Z) (sort_at now : Z) : bool :=
  existsb (λ start, covers w start now) starts
  || (match starts with [] => true | _ => false end && covers w sort_at now).

(** The local dates [offsets] away from today, in a window's own zone. *)
Definition try_dates {S} (body : S → Window → Z → result S maintenance_error) (offsets : list Z)
    (now : Z) (s : S) (w : Window) : result S maintenance_error :=
  match tz_parse (timezone w) with
  | None => Ok s
  | Some tz =>
    try_fold (λ s offset,
      let? date := ok_or (checked_date (local_date tz now + offset)) DateOverflows in
      body s w date) s offsets
  end.

(** What is open now: the ends and names, and the last invalid one. *)
Definition open_body (now : Z) (s : list (Z * string) * option maintenance_error) (w : Window)
    (date : Z) : result (list (Z * string) * option maintenance_error) maintenance_error :=
  let? o := occurrence w date in
  Ok match o with
     | OccValid start stop =>
       if (start <=? now) && (now <? stop) then (s.1 ++ [(stop, identity w)], s.2) else s
     | OccInvalid starts sort_at detail =>
       if invalid_now w starts sort_at now then (s.1, Some detail) else s
     | OccAbsent => s
     end.

Definition next_candidate (starts : list Z) (sort_at now : Z) : option Z :=
  match min_by_key id (filter (λ start, now < start) starts) with
  | Some start => Some start
  | None => if now <? sort_at then Some sort_at else None
  end.

Definition next_body (now : Z) (s : list (Z * option maintenance_error)) (w : Window) (date : Z) :
    result (list (Z * option maintenance_error)) maintenance_error :=
  let? o := occurrence w date in
  Ok match o with
     | OccValid start _ => if now <? start then s ++ [(start, None)] else s
     | OccInvalid starts sort_at detail =>
       match next_candidate starts sort_at now with
       | Some candidate => s ++ [(candidate, Some detail)]
       | None => s
       end
     | OccAbsent => s
     end.

(** [evaluate]. *)
Definition evaluate (windows : list Window) (now : Z) : Eligibility :=
  match windows with
  | [] => Open "unrestricted" i64_max
  | _ =>
    match try_for_each Window_validate windows with
    | Err detail => Invalid detail
    | Ok _ =>
      match try_fold (try_dates (open_body now) (range_inclusive (-7) 0) now) ([], None) windows with
      | Err detail => Invalid detail
      | Ok (_, Some detail) => Invalid detail
      | Ok (opened, None) =>
        match max_by_key fst opened with
        | Some (stop, name) => Open name stop
        | None =>
          match try_fold (try_dates (next_body now) (range_inclusive 0 7) now) [] windows with
          | Err detail => Invalid detail
          | Ok next =>
            match min_by_key fst next with
            | Some (_, Some detail) => Invalid detail
            | Some (start, None) => Closed (Some start)
            | None => Closed None
            end
          end
        end
      end
    end
  end.

(** [next_start_after]: [inr] is an early return. *)
Definition next_start_after (w : Window) (after_ms : Z) : option Z :=
  if negb (is_ok (Window_validate w)) then None
  else
    match tz_parse (timezone w) with
    | None => None
    | Some tz =>
      match try_fold (λ _ offset,
          match checked_date (local_date tz after_ms + offset) with
          | None => Err None
          | Some date =>
            match occurrence w date with
            | Ok (OccValid start _) => if after_ms <? start then Err (Some start) else Ok tt
            | Ok (OccInvalid _ sort_at _) => if after_ms <? sort_at then Err None else Ok tt
            | Ok OccAbsent => Ok tt
            | Err _ => Err None
            end
          end) tt (range_inclusive (-1) 8) with
      | Ok _ => None
      | Err found => found
      end
    end.
End Windows.

(** [intersect]. *)
Definition intersect (a b : Eligibility) : Eligibility :=
  match a, b with
  | Invalid detail, _ | _, Invalid detail => Invalid detail
  | Closed next, Closed next' =>
    Closed match next, next' with
           | Some x, Some y => Some (Z.max x y)
           | Some v, None | None, Some v => Some v
           | None, None => None
           end
  | Closed next, Open _ _ | Open _ _, Closed next => Closed next
  | Open name x, Open _ y => Open name (Z.min x y)
  end.

(** ** Editing a schedule *)

Definition set_window (w : Window) (windows : list Window) : list Window :=
  sort_by (cmp_on identity String.compare)
    (filter (λ current, identity current ≠ identity w) windows ++ [w]).

Definition remove_window (name : string) (windows : list Window) :
    result (list Window) maintenance_error :=
  let kept := filter (λ w, identity w ≠ name) windows in
  bail_if (length kept =? length windows)%nat with (NotConfigured name) in
  Ok kept.

Definition weekday_aliases : list (string * Z) :=
  [("mon", 1); ("tue", 2); ("wed", 3); ("thu", 4); ("fri", 5); ("sat", 6); ("sun", 7)].

(** [weekday_values]. *)
Definition weekday_values (value : string) : result (list Z) maintenance_error :=
  let? days := try_fold (λ days raw,
    let day := to_ascii_lowercase (trim raw) in
    let? alias := ok_or (find_first (λ a, bool_decide (a.1 = day)) weekday_aliases)
                    (UnknownWeekday raw) in
    Ok (days ++ [alias.2])) [] (split_on "," value) in
  bail_if match days with [] => true | _ => false end || negb (bool_decide (NoDup days))
    with BadWeekdays in
  Ok days.

(** ** Stored schedules *)

Definition KIND_MAINTENANCE_CONFIG : string := "tenkai.maintenance_config".
Definition KIND_PRODUCT_MAINTENANCE_CONFIG : string := "tenkai.product_maintenance_config".
Definition ACTION_CONFIGURE_MAINTENANCE : string := "tenkai.configure_maintenance_windows".
Definition ACTION_CONFIGURE_PRODUCT_MAINTENANCE : string := "tenkai.configure_product_maintenance_windows".
Definition WINDOWS_PROPERTY : string := "windows".

Definition config_id (environment : string) : string := "tenkai:maintenance:" +:+ environment.
Definition product_config_id (product : string) : string := "tenkai:product-maintenance:" +:+ product.

Record Decision := {
  decision_actor : string; decision_action : string; decision_reason : string;
  decision_target : string; decision_timestamp : Z; evidence : gmap string string
}.

Record ObjectChange := {
  change_field : string; change_new_value : string; change_by : string; change_timestamp : Z
}.

(** The JSON of a schedule, its SHA-256 in hex, and the audit log. *)
Class Audit := {
  windows_of_json : string → option (list Window);
  windows_digest : string → string;
  object_changes : string → list ObjectChange;
  action_decisions : string → string → Z → list Decision
}.

Section Stored.
Context {Cal : Calendar} {Au : Audit}.

Definition revision (windows : string) : string := windows_digest windows.

(** [decode_configuration] and [decode_product_configuration]: an object of
    [kind] whose property [scope_field] is [scope]. *)
Definition decode_configuration (kind scope_field : string) (o : Object) (scope : string) :
    result (list Window) maintenance_error :=
  bail_if negb (bool_decide (object_kind o = kind)) with (WrongKind (object_id o) (object_kind o)) in
  bail_if negb (bool_decide (properties o !! scope_field = Some scope))
    with (WrongScope (object_id o)) in
  let? raw := ok_or (properties o !! WINDOWS_PROPERTY) NoWindows in
  bail_if negb (bool_decide (properties o !! "revision" = Some (revision raw)))
    with (BadRevision (object_id o)) in
  let? windows := ok_or (windows_of_json raw) (BadJson (object_id o)) in
  let? _ := try_for_each Window_validate windows in
  Ok windows.

(** The last change that set the object's correlation. *)
Definition correlation_change (correlation : string) (changes : list ObjectChange) :
    option ObjectChange :=
  max_by_key change_timestamp
    (filter (λ c, change_field c = "properties.last_update_correlation"
                  ∧ change_new_value c = correlation) changes).

(** [has_governed_evidence]. *)
Definition has_governed_evidence (o : Object) (decisions : list Decision)
    (changes : list ObjectChange) (action scope_field : string) : bool :=
  match properties o !! "last_update_correlation" with
  | None => false
  | Some correlation =>
    match find_first (λ d,
        bool_decide (decision_action d = action)
        && bool_decide (decision_reason d = "execute_action")
        && bool_decide (decision_target d = object_id o)
        && bool_decide (evidence d !! "decision" = Some "allow")
        && bool_decide (evidence d !! "correlation" = Some correlation)
        && bool_decide (evidence d !! scope_field = properties o !! scope_field)
        && bool_decide (evidence d !! WINDOWS_PROPERTY = properties o !! WINDOWS_PROPERTY)
        && bool_decide (evidence d !! "revision" = properties o !! "revision")) decisions with
    | None => false
    | Some d =>
      match correlation_change correlation changes with
      | None => false
      | Some c =>
        bool_decide (change_new_value c = correlation)
        && bool_decide (change_by c = decision_actor d)
        && (change_timestamp c <=? decision_timestamp d)
        && (i64_saturating_sub (decision_timestamp d) (change_timestamp c) <=? 60000)
        && negb (existsb (λ c', (bool_decide (change_field c' = "properties.windows")
                                 || bool_decide (change_field c' = "properties.revision"))
                                && (change_timestamp c <? change_timestamp c')) changes)
      end
    end
  end.

(** [decode_governed_configuration] and its product counterpart. *)
Definition decode_governed (kind action scope_field : string) (o : Object) (scope : string) :
    result (list Window) maintenance_error :=
  let? windows := decode_configuration kind scope_field o scope in
  let changes := object_changes (object_id o) in
  let decisions :=
    match c ← properties o !! "last_update_correlation"; correlation_change c changes with
    | Some c => action_decisions (change_by c) action (i64_saturating_sub (change_timestamp c) 1)
    | None => []
    end in
  bail_if negb (has_governed_evidence o decisions changes action scope_field)
    with (NoGovernedEvidence (object_id o)) in
  Ok windows.

(** [list]. *)
Definition list_windows (ctx : Ctx) (environment : string) : result (list Window) maintenance_error :=
  bail_if negb (valid_identifier environment) with (BadIdentity environment) in
  let? _ := ok_or (ctx_get ctx (env_id environment)) (NotRegistered environment) in
  match ctx_get ctx (config_id environment) with
  | Some o => decode_governed KIND_MAINTENANCE_CONFIG ACTION_CONFIGURE_MAINTENANCE "environment" o
                environment
  | None => Err (ConfigurationMissing environment)
  end.

(** [list_product]: a missing configuration is unrestricted. *)
Definition list_product (ctx : Ctx) (product : string) : result (list Window) maintenance_error :=
  bail_if negb (valid_identifier product) with (BadIdentity product) in
  match ctx_get ctx (product_config_id product) with
  | Some o =>
    if is_some_b (properties o !! "last_update_correlation") then
      decode_governed KIND_PRODUCT_MAINTENANCE_CONFIG ACTION_CONFIGURE_PRODUCT_MAINTENANCE "product"
        o product
    else
      let? windows := decode_configuration KIND_PRODUCT_MAINTENANCE_CONFIG "product" o product in
      bail_if match windows with [] => false | _ => true end
        with (NoGovernedEvidence (object_id o)) in
      Ok windows
  | None => Ok []
  end.

Definition eligibility_of (r : result (list Window) maintenance_error) (now : Z) : Eligibility :=
  match r with Ok windows => evaluate windows now | Err e => Invalid e end.

(** The eligibility [maintenance_decision] works out for the steps of a plan:
    the environment's windows, with those of every product that has some. *)
Definition plan_eligibility (ctx : Ctx) (p : Plan) (now : Z) : Eligibility :=
  foldl (λ eligibility product,
    match list_product ctx product with
    | Ok [] => eligibility
    | r => intersect eligibility (eligibility_of r now)
    end) (eligibility_of (list_windows ctx (plan_environment p)) now)
    (btree_set_iter (list_to_set (step_product <$> steps p))).
End Stored.

(** ** When a schedule is open *)

Section Proofs.
Context {Cal : Calendar}.

(** The local dates an evaluation looks at, [lo] to [hi] days from today. *)
Definition looks_at (w : Window) (now lo hi date : Z) : Prop :=
  ∃ tz offset, tz_parse (timezone w) = Some tz ∧ lo ≤ offset ≤ hi ∧ date = local_date tz now + offset.

(** Windows with the dates to look at, in the order of the loops. *)
Definition scan (windows : list Window) (offsets : list Z) (now : Z) : list (Window * Z) :=
  windows ≫= λ w, match tz_parse (timezone w) with
                  | Some tz => (λ offset, (w, local_date tz now + offset)) <$> offsets
                  | None => []
                  end.

Lemma elem_of_range a b i : i ∈ range_inclusive a b ↔ a ≤ i ≤ b.
Proof.
  unfold range_inclusive. rewrite list_elem_of_fmap. setoid_rewrite elem_of_seq. split.
  - intros (n & -> & Hn). lia.
  - intros Hi. exists (Z.to_nat (i - a)). lia.
Qed.

Lemma elem_of_scan windows lo hi now w date :
  (w, date) ∈ scan windows (range_inclusive lo hi) now ↔ w ∈ windows ∧ looks_at w now lo hi date.
Proof.
  unfold scan, looks_at. rewrite list_elem_of_bind. split.
  - intros (w' & Hin & Hw'). destruct (tz_parse (timezone w')) as [tz|] eqn:Htz;
      [|by apply elem_of_nil in Hin].
    apply list_elem_of_fmap in Hin as (offset & [= -> ->] & Hoff%elem_of_range). eauto 10.
  - intros (Hw & tz & offset & Htz & Hoff & ->). exists w. rewrite Htz. split; [|done].
    apply list_elem_of_fmap. exists offset. by rewrite elem_of_range.
Qed.

Lemma dates_fold {S} (body : S → Window → Z → result S maintenance_error) w tz offsets now s s' :
  tz_parse (timezone w) = Some tz → try_dates body offsets now s w = Ok s' →
  try_fold (λ s wd, body s wd.1 wd.2) s ((λ offset, (w, local_date tz now + offset)) <$> offsets)
  = Ok s'.
Proof.
  intros Htz. unfold try_dates. rewrite Htz. revert s.
  induction offsets as [|o offsets IH]; intros s; simpl; [done|].
  intros (s1 & (date & Hd%ok_or_ok & Hb)%bind_ok & Hf)%bind_ok.
  unfold checked_date in Hd. destruct (date_ok _); [|done]. injection Hd as <-.
  rewrite Hb. simpl. by apply IH.
Qed.

Lemma scan_fold {S} (body : S → Window → Z → result S maintenance_error) offsets now windows s s' :
  try_fold (try_dates body offsets now) s windows = Ok s' →
  try_fold (λ s wd, body s wd.1 wd.2) s (scan windows offsets now) = Ok s'.
Proof.
  revert s. induction windows as [|w windows IH]; intros s; simpl; [done|].
  intros (s1 & Hd & Hf)%bind_ok. rewrite try_fold_app.
  destruct (tz_parse (timezone w)) as [tz|] eqn:Htz.
  - rewrite (dates_fold _ _ _ _ _ _ _ Htz Hd). simpl. by apply IH.
  - unfold try_dates in Hd. rewrite Htz in Hd. injection Hd as <-. simpl. by apply IH.
Qed.

(** What each occurrence contributes to the two loops. *)
Definition opens (now : Z) (wd : Window * Z) : option (Z * string) :=
  match occurrence wd.1 wd.2 with
  | Ok (OccValid start stop) =>
    if (start <=? now) && (now <? stop) then Some (stop, identity wd.1) else None
  | _ => None
  end.

Definition breaks (now : Z) (wd : Window * Z) : bool :=
  match occurrence wd.1 wd.2 with
  | Ok (OccInvalid starts sort_at _) => invalid_now wd.1 starts sort_at now
  | Ok _ => false
  | Err _ => true
  end.

Definition begins (now : Z) (wd : Window * Z) : option (Z * option maintenance_error) :=
  match occurrence wd.1 wd.2 with
  | Ok (OccValid start _) => if now <? start then Some (start, None) else None
  | Ok (OccInvalid starts sort_at detail) =>
    (λ candidate, (candidate, Some detail)) <$> next_candidate starts sort_at now
  | _ => None
  end.

Lemma open_fold now l opened inv opened' :
  try_fold (λ s wd, open_body now s wd.1 wd.2) (opened, inv) l = Ok (opened', None) →
  opened' = opened ++ omap (opens now) l ∧ ∀ wd, wd ∈ l → breaks now wd = false.
Proof.
  assert (Hsome : ∀ l opened d opened',
    try_fold (λ s wd, open_body now s wd.1 wd.2) (opened, Some d) l ≠ Ok (opened', None)).
  { clear. induction l as [|wd l IH]; intros opened d opened'; simpl; [done|].
    unfold open_body at 1. destruct (occurrence wd.1 wd.2) as [[|start stop|starts at_ d']|]; simpl;
      [apply IH|destruct (_ && _); apply IH|destruct (invalid_now _ _ _ _); apply IH|done]. }
  revert opened inv. induction l as [|wd l IH]; intros opened inv; simpl.
  { intros [= <- ->]. rewrite app_nil_r. split; [done|]. intros wd []%elem_of_nil. }
  destruct inv as [d|]; [intros H; by apply (Hsome (wd :: l) opened d) in H|].
  unfold open_body at 1, opens at 1. intros H.
  assert (∃ o, occurrence wd.1 wd.2 = Ok o) as [o Ho]
    by (destruct (occurrence wd.1 wd.2); [eauto|done]).
  assert (Hb : breaks now wd = false
    ∧ try_fold (λ s wd, open_body now s wd.1 wd.2)
        (opened ++ option_list (opens now wd), None) l = Ok (opened', None)).
  { unfold breaks, opens. rewrite Ho in *. destruct o as [|start stop|starts at_ d']; simpl in *.
    - by rewrite app_nil_r.
    - destruct (_ && _); simpl; [done|]. by rewrite app_nil_r.
    - destruct (invalid_now _ _ _ _); [by apply Hsome in H|]. by rewrite app_nil_r. }
  destruct Hb as [Hb [-> Hl]%IH]. split.
  - rewrite <- app_assoc. f_equal. unfold opens. by destruct (occurrence _ _) as [[]|]; simpl; try case_match.
  - intros wd' [->|Hin]%elem_of_cons; [done|by apply Hl].
Qed.

Lemma next_fold now l next next' :
  try_fold (λ s wd, next_body now s wd.1 wd.2) next l = Ok next' →
  next' = next ++ omap (begins now) l.
Proof.
  revert next. induction l as [|wd l IH]; intros next; simpl.
  { intros [= <-]. by rewrite app_nil_r. }
  unfold next_body at 1, begins at 1. destruct (occurrence wd.1 wd.2) as [[|start stop|starts at_ d]|];
    simpl; [apply IH| | |done].
  - destruct (now <? start); [|apply IH]. intros ->%IH. by rewrite <- app_assoc.
  - destruct (next_candidate _ _ _); simpl; [|apply IH]. intros ->%IH. by rewrite <- app_assoc.
Qed.

Lemma max_by_key_spec {A} (key : A → Z) l :
  match max_by_key key l with
  | Some m => m ∈ l ∧ ∀ a, a ∈ l → key a ≤ key m
  | None => l = []
  end.
Proof.
  unfold max_by_key. induction l as [|a l IH] using rev_ind; [done|].
  rewrite foldl_app. simpl. destruct (foldl _ None l) as [b|].
  - destruct IH as [Hb Hmax]. destruct (key a <? key b) eqn:Hlt; (split; [set_solver|]);
      intros c [Hc| ->%list_elem_of_singleton]%elem_of_app; try apply Hmax in Hc; lia.
  - subst l. split; [set_solver|]. intros c ->%list_elem_of_singleton. lia.
Qed.

Lemma min_by_key_spec {A} (key : A → Z) l :
  match min_by_key key l with
  | Some m => m ∈ l ∧ ∀ a, a ∈ l → key m ≤ key a
  | None => l = []
  end.
Proof.
  unfold min_by_key. induction l as [|a l IH] using rev_ind; [done|].
  rewrite foldl_app. simpl. destruct (foldl _ None l) as [b|].
  - destruct IH as [Hb Hmin]. destruct (key a <? key b) eqn:Hlt; (split; [set_solver|]);
      intros c [Hc| ->%list_elem_of_singleton]%elem_of_app; try apply Hmin in Hc; lia.
  - subst l. split; [set_solver|]. intros c ->%list_elem_of_singleton. lia.
Qed.

Lemma opens_iff now w date stop name :
  opens now (w, date) = Some (stop, name) ↔
  name = identity w ∧ ∃ start, occurrence w date = Ok (OccValid start stop) ∧ start ≤ now < stop.
Proof.
  unfold opens. simpl. destruct (occurrence w date) as [[|start stop'|]|]; try naive_solver.
  destruct ((start <=? now) && (now <? stop')) eqn:H.
  - apply andb_true_iff in H as [?%Z.leb_le ?%Z.ltb_lt]. naive_solver.
  - split; [done|]. intros (_ & start' & [= -> ->] & Hle & Hlt).
    apply andb_false_iff in H as [?%Z.leb_gt|?%Z.ltb_ge]; lia.
Qed.

Lemma begins_valid now w date start stop :
  occurrence w date = Ok (OccValid start stop) → now < start →
  begins now (w, date) = Some (start, None).
Proof. unfold begins. simpl. intros -> H. by rewrite (proj2 (Z.ltb_lt _ _) H). Qed.

Lemma begins_inv now w date start :
  begins now (w, date) = Some (start, None) →
  now < start ∧ ∃ stop, occurrence w date = Ok (OccValid start stop).
Proof.
  unfold begins. simpl. destruct (occurrence w date) as [[|start' stop|]|]; try done.
  - destruct (now <? start') eqn:H; [|done]. intros [= ->]. split; [lia|eauto].
  - by destruct (next_candidate _ _ _).
Qed.

(** Open at [now], on one of the dates from a week ago to today. *)
Definition open_now (w : Window) (now start stop : Z) : Prop :=
  start ≤ now < stop ∧ ∃ date, looks_at w now (-7) 0 date ∧ occurrence w date = Ok (OccValid start stop).

(** Opens later, on one of the dates from today to a week ahead. *)
Definition opens_later (w : Window) (now start : Z) : Prop :=
  now < start ∧ ∃ date stop, looks_at w now 0 7 date ∧ occurrence w date = Ok (OccValid start stop).

(** A schedule is open exactly while one of its windows is: [evaluate]
    answers open only for an empty schedule or inside an occurrence of one of
    the windows, until the latest end of the occurrences open now; and closed
    only when no occurrence is open, with the earliest start of the coming
    week as the next one.  A window that cannot be evaluated, or whose local
    start does not exist or is ambiguous now, closes the schedule. *)
Theorem evaluate_spec windows now :
  match evaluate windows now with
  | Open name closes =>
    (windows = [] ∧ closes = i64_max)
    ∨ ((∃ w start, w ∈ windows ∧ identity w = name ∧ open_now w now start closes)
       ∧ (∀ w start stop, w ∈ windows → open_now w now start stop → stop ≤ closes)
       ∧ (∀ w date, w ∈ windows → looks_at w now (-7) 0 date → breaks now (w, date) = false))
  | Closed next =>
    (∀ w start stop, w ∈ windows → ¬ open_now w now start stop)
    ∧ (∀ start, next = Some start → ∃ w, w ∈ windows ∧ opens_later w now start)
    ∧ (∀ w start, w ∈ windows → opens_later w now start → ∃ n, next = Some n ∧ n ≤ start)
  | Invalid _ => windows ≠ []
  end.
Proof.
  unfold evaluate. destruct windows as [|w0 rest]; [by left|].
  set (windows := w0 :: rest). destruct (try_for_each Window_validate windows) as [|]; [|done].
  destruct (try_fold _ ([], None) windows) as [[opened [d|]]|d] eqn:Hopen; [done| |done].
  apply scan_fold, open_fold in Hopen as [-> Hbreaks]. simpl app.
  pose proof (max_by_key_spec fst (omap (opens now) (scan windows (range_inclusive (-7) 0) now)))
    as Hmax.
  assert (Hin : ∀ w start stop, w ∈ windows → open_now w now start stop →
    (stop, identity w) ∈ omap (opens now) (scan windows (range_inclusive (-7) 0) now)).
  { intros w start stop Hw (Hnow & date & Hd & Ho). apply list_elem_of_omap.
    exists (w, date). rewrite elem_of_scan, opens_iff. eauto 10. }
  destruct (max_by_key fst _) as [[closes name]|].
  - destruct Hmax as [Hm Hmax]. right. split_and!.
    + apply list_elem_of_omap in Hm as ([w date] & [Hw Hd]%elem_of_scan & Ho).
      apply opens_iff in Ho as (-> & start & Ho & Hnow).
      exists w, start. split_and!; try done. unfold open_now. eauto.
    + intros w start stop Hw Ho. apply (Hmax (stop, identity w)). by eapply Hin.
    + intros w date Hw Hd. by apply Hbreaks, elem_of_scan.
  - destruct (try_fold _ [] windows) as [next|d] eqn:Hnext; [|done].
    apply scan_fold, next_fold in Hnext as ->. simpl app.
    pose proof (min_by_key_spec fst (omap (begins now) (scan windows (range_inclusive 0 7) now)))
      as Hmin.
    assert (Hnone : ∀ w start stop, w ∈ windows → ¬ open_now w now start stop).
    { intros w start stop Hw Ho. eapply Hin in Ho; [|done]. rewrite Hmax in Ho.
      by apply elem_of_nil in Ho. }
    assert (Hlater : ∀ w start, w ∈ windows → opens_later w now start →
      (start, None) ∈ omap (begins now) (scan windows (range_inclusive 0 7) now)).
    { intros w start Hw (Hs & date & stop & Hd & Ho). apply list_elem_of_omap. exists (w, date).
      rewrite elem_of_scan. split; [done|]. by eapply begins_valid. }
    destruct (min_by_key fst _) as [[start [d|]]|]; [done| |].
    + destruct Hmin as [Hm Hmin]. split_and!; [done| |].
      * intros ? [= <-]. apply list_elem_of_omap in Hm as ([w date] & [Hw Hd]%elem_of_scan & Ho).
        apply begins_inv in Ho as (Hs & stop & Ho). exists w. split; [done|].
        unfold opens_later. eauto.
      * intros w start' Hw Hl%Hlater; [|done]. exists start. split; [done|]. by apply Hmin in Hl.
    + split_and!; [done..|]. intros w start Hw Hl%Hlater; [|done]. rewrite Hmin in Hl.
      by apply elem_of_nil in Hl.
Qed.

(** ** Combining schedules *)

Lemma intersect_open a b name closes :
  intersect a b = Open name closes ↔
  ∃ x y other, a = Open name x ∧ b = Open other y ∧ closes = Z.min x y.
Proof. destruct a, b; simpl; naive_solver. Qed.
End Proofs.

(** A plan may start only while everything is open: when the maintenance
    decision of a plan is open until [closes], the environment's schedule is
    read and open until then or longer, and so is the schedule of every
    product of the plan that has one. *)
Theorem plan_open_sound `{Cal : Calendar, Au : Audit} ctx p now name closes :
  plan_eligibility ctx p now = Open name closes →
  (∃ windows c, list_windows ctx (plan_environment p) = Ok windows
     ∧ evaluate windows now = Open name c ∧ closes ≤ c)
  ∧ ∀ s, s ∈ steps p → ∃ windows other c, list_product ctx (step_product s) = Ok windows
      ∧ evaluate windows now = Open other c ∧ (windows = [] ∨ closes ≤ c).
Proof.
  unfold plan_eligibility. intros H.
  enough (∀ l e, foldl (λ eligibility product,
      match list_product ctx product with
      | Ok [] => eligibility
      | r => intersect eligibility (eligibility_of r now)
      end) e l = Open name closes →
    (∃ c, e = Open name c ∧ closes ≤ c) ∧ ∀ product, product ∈ l → ∃ windows other c,
      list_product ctx product = Ok windows ∧ evaluate windows now = Open other c
      ∧ (windows = [] ∨ closes ≤ c)) as Hall.
  { apply Hall in H as [(c & He & Hc) Hp]. split.
    - unfold eligibility_of in He. destruct (list_windows ctx _) as [windows|]; [|done]. eauto.
    - intros s Hs. apply Hp, elem_of_btree_set_iter, elem_of_list_to_set.
      apply list_elem_of_fmap. eauto. }
  clear H. induction l as [|product l IH]; intros e; simpl.
  { intros ->. split; [exists closes; split; [done|lia]|]. intros product []%elem_of_nil. }
  destruct (list_product ctx product) as [[|w ws]|e'] eqn:Hlist.
  - intros [He Hl]%IH. split; [done|]. intros product' [->|Hin]%elem_of_cons; [|by apply Hl].
    exists [], "unrestricted", i64_max. auto.
  - intros [(c & He & Hc) Hl]%IH. apply intersect_open in He as (x & y & other & -> & Hy & ->).
    split; [exists x; split; [done|lia]|]. intros product' [->|Hin]%elem_of_cons; [|by apply Hl].
    exists (w :: ws), other, y. split_and!; [done|done|]. right. lia.
  - intros [(c & He & Hc) Hl]%IH. by apply intersect_open in He as (x & y & other & _ & [=] & _).
Qed.

Module MaintenanceExamples.

(** Universal time, a start at 22:00 whatever the text. *)
#[local] Instance utc : Calendar := {|
  Tz := unit; tz_parse name := if decide (name = "UTC") then Some tt else None;
  local_date _ at_ms := at_ms / (1440 * MINUTE);
  from_local _ local := LocalSingle (local * MINUTE);
  date_ok _ := true; instant_ok _ := true; parse_time _ := Some (22 * 60) |}.

(** Thursdays, ten in the evening, three hours. *)
Definition thursday : Window := {|
  identity := "late"; timezone := "UTC"; weekdays := [4]; window_start := "22:00";
  duration_minutes := 180 |}.

Definition at_minute (day minute : Z) : Z := (day * 1440 + minute) * MINUTE.

Example open_over_midnight :
  evaluate [thursday] (at_minute 1 30) = Open "late" (at_minute 1 60).
Proof. by vm_compute. Qed.

Example closed_until_next_week :
  evaluate [thursday] (at_minute 1 60) = Closed (Some (at_minute 7 1320)).
Proof. by vm_compute. Qed.

Definition stored : Object := {|
  object_id := config_id "prod"; object_kind := KIND_MAINTENANCE_CONFIG; object_name := "";
  object_namespace := "tenkai"; external_id := "";
  properties := {["environment" := "prod"; "windows" := "[late]"; "revision" := "[late]";
                  "last_update_correlation" := "c"]};
  created := 0; updated := 0 |}.

Definition environment : Object := {|
  object_id := env_id "prod"; object_kind := ""; object_name := "prod"; object_namespace := "tenkai";
  external_id := ""; properties := ∅; created := 0; updated := 0 |}.

Definition ctx : Ctx := {|
  objects := {[env_id "prod" := environment; config_id "prod" := stored]}; catalog_links := [] |}.

(** The configuration was changed by its operator, and the change allowed. *)
#[local] Instance log : Audit := {|
  windows_of_json _ := Some [thursday]; windows_digest raw := raw;
  object_changes _ := [{| change_field := "properties.last_update_correlation";
                          change_new_value := "c"; change_by := "ops"; change_timestamp := 5 |}];
  action_decisions actor action _ :=
    [{| decision_actor := actor; decision_action := action; decision_reason := "execute_action";
        decision_target := config_id "prod"; decision_timestamp := 6;
        evidence := {["decision" := "allow"; "correlation" := "c"; "environment" := "prod";
                      "windows" := "[late]"; "revision" := "[late]"]} |}] |}.

Definition plan : Plan := {|
  format_version := 1; plan_id_of := "p"; content_id := ""; plan_environment := "prod";
  created_at := 7; inputs := []; steps := []; plan_state := Computed;
  gates_skipped := None; status_detail := ""; maintenance_blocked := false;
  prior_warnings := []; recalled_recovery_reason := None; credential_runway := None |}.

Lemma plan_open_sound_witness :
  plan_eligibility ctx plan (at_minute 1 30) = Open "late" (at_minute 1 60)
  ∧ ∃ windows c, list_windows ctx "prod" = Ok windows
      ∧ evaluate windows (at_minute 1 30) = Open "late" c ∧ at_minute 1 60 ≤ c.
Proof.
  assert (H : plan_eligibility ctx plan (at_minute 1 30) = Open "late" (at_minute 1 60))
    by (vm_compute; reflexivity).
  split; [exact H|]. exact (proj1 (plan_open_sound ctx plan _ _ _ H)).
Defined.

(** An edit that was not audited closes the schedule. *)
Example unaudited_edit_closes :
  let edited := {| object_id := config_id "prod"; object_kind := KIND_MAINTENANCE_CONFIG;
    object_name := ""; object_namespace := "tenkai"; external_id := "";
    properties := <["windows" := "[]"]> (<["revision" := "[]"]> (properties stored));
    created := 0; updated := 0 |} in
  plan_eligibility (ctx_put ctx edited) plan (at_minute 1 30)
  = Invalid (NoGovernedEvidence (config_id "prod")).
Proof. by vm_compute. Qed.
End MaintenanceExamples.
