(* ===== verification/DeliveryHolds.v ===== *)
(** * Delivery holds

    [delivery_hold.rs]: an operator pauses an environment or a channel; plans
    are still made, but none of them starts, except a rollback.  A hold is an
    object of its own, and every change of it leaves an audit event. *)

From S2P Require Import Prelude RustStr Semver Kinds Facts Compatibility Contracts Plan ObjectStore Approvals HostState Catalog.

Definition HOLD_KIND : string := "tenkai.delivery_hold".
Definition HOLD_AUDIT_KIND : string := "tenkai.delivery_hold_audit".

Definition channel_id (product channel : string) : string :=
  "tenkai:channel:" +:+ product +:+ "/" +:+ channel.

Inductive HoldScope :=
| EnvironmentScope (env : string)
| ChannelScope (product channel : string).

#[export] Instance HoldScope_eq : EqDecision HoldScope.
Proof. solve_decision. Defined.

Record DeliveryHold := { reason : string; actor : string; held_at : Z }.

Record HoldAuditEvent := {
  event_action : string; event_reason : string; event_actor : string; event_at : Z
}.

Inductive hold_error :=
| RemoteCatalog
| EmptyReason
| LongReason
| EmptyActor
| LongActor
| BadIdentifier (label value : string)
| NoEnvironment (error : planning_error)
| NotAChannel (id kind : string)
| NotPublished (product channel : string)
| NotAHold (id kind : string)
| MissingProperty (id key : string)
| BadTimestamp (value : string)
| NoHold (key : string)
| NoAuditSlot (key : string)
| PausedBy (hold : DeliveryHold) (scope : HoldScope).

(** [HoldScope::key] and [hold_id]. *)
Definition scope_key (s : HoldScope) : string :=
  match s with
  | EnvironmentScope env => "environment:" +:+ env
  | ChannelScope product channel => "channel:" +:+ product +:+ "/" +:+ channel
  end.

Definition hold_id (s : HoldScope) : string := "tenkai:delivery_hold:" +:+ scope_key s.

(** [require_exists]. *)
Definition require_exists (ctx : Ctx) (s : HoldScope) : result unit hold_error :=
  match s with
  | EnvironmentScope env =>
    bail_if negb (valid_identifier env) with (BadIdentifier "environment" env) in
    let? _ := map_err NoEnvironment (environment ctx env) in
    Ok tt
  | ChannelScope product channel =>
    bail_if negb (valid_identifier product) with (BadIdentifier "product" product) in
    bail_if negb (valid_identifier channel) with (BadIdentifier "channel" channel) in
    let? o := ok_or (ctx_get ctx (channel_id product channel)) (NotPublished product channel) in
    bail_if negb (bool_decide (object_kind o = KIND_CHANNEL))
      with (NotAChannel (object_id o) (object_kind o)) in
    Ok tt
  end.

Definition validate_actor (actor : string) : result string hold_error :=
  let actor := trim actor in
  bail_if str_is_empty actor with EmptyActor in
  bail_if 256 <? str_len actor with LongActor in
  Ok actor.

Definition validate_reason (reason : string) : result string hold_error :=
  let reason := trim reason in
  bail_if str_is_empty reason with EmptyReason in
  bail_if 1024 <? str_len reason with LongReason in
  Ok reason.

Definition required (o : Object) (key : string) : result string hold_error :=
  match properties o !! key with
  | Some value =>
    if str_is_empty value then Err (MissingProperty (object_id o) key) else Ok value
  | None => Err (MissingProperty (object_id o) key)
  end.

Definition required_time (o : Object) (key : string) : result Z hold_error :=
  let? raw := required o key in
  ok_or (parse_i64 raw) (BadTimestamp raw).

Definition hold_object (s : HoldScope) (h : DeliveryHold) : Object := {|
  object_id := hold_id s; object_kind := HOLD_KIND; object_name := scope_key s;
  object_namespace := NS; external_id := "";
  properties := {["scope" := scope_key s; "reason" := reason h; "actor" := actor h;
                  "held_at" := pretty (held_at h)]};
  created := held_at h; updated := held_at h |}.

(** [get]. *)
Definition get (ctx : Ctx) (s : HoldScope) : result (option DeliveryHold) hold_error :=
  match ctx_get ctx (hold_id s) with
  | None => Ok None
  | Some o =>
    bail_if negb (bool_decide (object_kind o = HOLD_KIND))
      with (NotAHold (object_id o) (object_kind o)) in
    let? r := required o "reason" in
    let? a := required o "actor" in
    let? t := required_time o "held_at" in
    Ok (Some {| reason := r; actor := a; held_at := t |})
  end.

(** ** The audit log *)

Definition audit_id (key : string) (at_ms : Z) (sequence : nat) : string :=
  "tenkai:delivery_hold_audit:" +:+ key +:+ ":" +:+ pretty at_ms +:+ ":" +:+ pretty sequence.

Definition audit_object (s : HoldScope) (action : string) (event : DeliveryHold) (sequence : nat) :
    Object := {|
  object_id := audit_id (scope_key s) (held_at event) sequence; object_kind := HOLD_AUDIT_KIND;
  object_name := action +:+ " " +:+ scope_key s; object_namespace := NS; external_id := "";
  properties := {["scope" := scope_key s; "action" := action; "reason" := reason event;
                  "actor" := actor event; "at" := pretty (held_at event)]};
  created := held_at event; updated := held_at event |}.

(** [append_audit]: the first of 1024 ids that is free ([create_once]). *)
Definition append_audit (ctx : Ctx) (s : HoldScope) (action : string) (event : DeliveryHold) :
    result Ctx hold_error :=
  match find_first (λ sequence, negb (is_some_b (ctx_get ctx
                      (audit_id (scope_key s) (held_at event) sequence)))) (seq 0 1024) with
  | Some sequence => Ok (ctx_put ctx (audit_object s action event sequence))
  | None => Err (NoAuditSlot (scope_key s))
  end.

Definition audit_event (o : Object) : result HoldAuditEvent hold_error :=
  let? a := required o "action" in
  let? r := required o "reason" in
  let? who := required o "actor" in
  let? t := required_time o "at" in
  Ok {| event_action := a; event_reason := r; event_actor := who; event_at := t |}.

(** [audit], over the objects of the audit kind in the store's order. *)
Definition audit (listed : list Object) (s : HoldScope) : result (list HoldAuditEvent) hold_error :=
  let? events := try_fold (λ events o,
    if bool_decide (properties o !! "scope" = Some (scope_key s)) then
      let? e := audit_event o in Ok (events ++ [e])
    else Ok events) [] listed in
  Ok (sort_by (cmp_on event_at Z.compare) events).

Record DeliveryHoldView := { view_hold : option DeliveryHold; view_audit : list HoldAuditEvent }.

Definition view (ctx : Ctx) (listed : list Object) (s : HoldScope) :
    result DeliveryHoldView hold_error :=
  let? h := get ctx s in
  let? events := audit listed s in
  Ok {| view_hold := h; view_audit := events |}.

(** ** Operations *)

Definition ctx_delete (ctx : Ctx) (id : string) : Ctx :=
  {| objects := delete id (objects ctx); catalog_links := catalog_links ctx |}.

Section Operations.
Context (embedded : bool).

(** [set], at the time [now]: the hold is written before its audit event, so
    a failed append leaves the pause in force. *)
Definition set_hold (ctx : Ctx) (s : HoldScope) (why who : string) (now : Z) :
    Ctx * result DeliveryHold hold_error :=
  let checked :=
    bail_if negb embedded with RemoteCatalog in
    let? why := validate_reason why in
    let? who := validate_actor who in
    let? _ := require_exists ctx s in
    Ok {| reason := why; actor := who; held_at := now |} in
  match checked with
  | Err e => (ctx, Err e)
  | Ok hold =>
    let ctx := ctx_put ctx (hold_object s hold) in
    match append_audit ctx s "set" hold with
    | Ok ctx => (ctx, Ok hold)
    | Err e => (ctx, Err e)
    end
  end.

(** [clear]: the hold is deleted before its audit event is appended. *)
Definition clear_hold (ctx : Ctx) (s : HoldScope) (who : string) (now : Z) :
    Ctx * result DeliveryHold hold_error :=
  let checked :=
    bail_if negb embedded with RemoteCatalog in
    let? who := validate_actor who in
    let? _ := require_exists ctx s in
    let? found := get ctx s in
    let? cleared := ok_or found (NoHold (scope_key s)) in
    Ok (who, cleared) in
  match checked with
  | Err e => (ctx, Err e)
  | Ok (who, cleared) =>
    let ctx := ctx_delete ctx (hold_id s) in
    match append_audit ctx s "clear"
            {| reason := reason cleared; actor := who; held_at := now |} with
    | Ok ctx => (ctx, Ok cleared)
    | Err e => (ctx, Err e)
    end
  end.

(** [record_retry]. *)
Definition record_retry (ctx : Ctx) (env why who : string) (now : Z) : result Ctx hold_error :=
  bail_if negb embedded with RemoteCatalog in
  let? why := validate_reason why in
  let? who := validate_actor who in
  append_audit ctx (EnvironmentScope env) "retry" {| reason := why; actor := who; held_at := now |}.
End Operations.

(** [active_for_plan]: the environment's hold, then each input channel's. *)
Fixpoint first_hold (ctx : Ctx) (scopes : list HoldScope) :
    result (option (DeliveryHold * HoldScope)) hold_error :=
  match scopes with
  | [] => Ok None
  | s :: rest =>
    let? h := get ctx s in
    match h with Some h => Ok (Some (h, s)) | None => first_hold ctx rest end
  end.

Definition plan_scopes (p : Plan) : list HoldScope :=
  EnvironmentScope (plan_environment p)
  :: ((λ i, ChannelScope (input_product i) (input_channel i)) <$> inputs p).

Definition rollback_only (p : Plan) : bool :=
  forallb (λ s, bool_decide (step_action s = Rollback)) (steps p).

Definition active_for_plan (ctx : Ctx) (p : Plan) :
    result (option (DeliveryHold * HoldScope)) hold_error :=
  if rollback_only p then Ok None else first_hold ctx (plan_scopes p).

(** [require_not_held]. *)
Definition require_not_held (ctx : Ctx) (p : Plan) : result unit hold_error :=
  let? found := active_for_plan ctx p in
  match found with
  | Some (hold, s) => Err (PausedBy hold s)
  | None => Ok tt
  end.

(** ** Correctness *)

Lemma first_hold_none ctx scopes :
  first_hold ctx scopes = Ok None ↔ ∀ s, s ∈ scopes → get ctx s = Ok None.
Proof.
  induction scopes as [|s scopes IH]; simpl.
  { split; [intros _ s []%elem_of_nil|done]. }
  destruct (get ctx s) as [[h|]|e] eqn:Hg; simpl.
  - split; [done|]. intros H. by rewrite (H s) in Hg; [|left].
  - rewrite IH. split; [intros H s' [->|Hs]%elem_of_cons; auto|intros H s' Hs; apply H; by right].
  - split; [done|]. intros H. by rewrite (H s) in Hg; [|left].
Qed.

Lemma rollback_only_true p : rollback_only p = true ↔ ∀ s, s ∈ steps p → step_action s = Rollback.
Proof. unfold rollback_only. rewrite forallb_elem. by setoid_rewrite bool_decide_eq_true. Qed.

Lemma require_not_held_ok ctx p :
  require_not_held ctx p = Ok tt ↔ rollback_only p = true ∨ first_hold ctx (plan_scopes p) = Ok None.
Proof.
  unfold require_not_held, active_for_plan. destruct (rollback_only p); [by split; auto|].
  destruct (first_hold _ _) as [[[h s]|]|e]; simpl; (split; [intros ?; try done; by right|by intros [|]]).
Qed.

(** A plan starts only when nothing pauses it: [require_not_held] admits
    a plan exactly when every step is a rollback, or neither its environment
    nor the channel of any of its inputs has a hold. *)
Theorem not_held_iff ctx p :
  require_not_held ctx p = Ok tt ↔
  (∀ s, s ∈ steps p → step_action s = Rollback) ∨ ∀ s, s ∈ plan_scopes p → get ctx s = Ok None.
Proof. by rewrite require_not_held_ok, rollback_only_true, first_hold_none. Qed.

(** The audit append touches only one free id of its own. *)
Lemma append_audit_ok ctx s action event ctx' :
  append_audit ctx s action event = Ok ctx' →
  ∃ sequence, ctx_get ctx (audit_id (scope_key s) (held_at event) sequence) = None
    ∧ ctx' = ctx_put ctx (audit_object s action event sequence).
Proof.
  unfold append_audit. destruct (find_first _ _) as [sequence|] eqn:Hf; [|done].
  intros [= <-]. exists sequence. split; [|done].
  apply find_first_some in Hf as [_ Hf]. by destruct (ctx_get ctx _).
Qed.

Lemma audit_is_not_hold s key at_ms sequence : hold_id s ≠ audit_id key at_ms sequence.
Proof. by destruct s. Qed.

(** Scopes whose names are identifiers have holds of their own. *)
Definition valid_scope (s : HoldScope) : bool :=
  match s with
  | EnvironmentScope env => valid_identifier env
  | ChannelScope product channel => valid_identifier product && valid_identifier channel
  end.

Lemma identifier_lacks_slash value : valid_identifier value = true → lacks "/" value = true.
Proof.
  destruct value as [|c rest]; [done|]. simpl. rewrite andb_true_iff. intros [Hc Hr].
  apply lacks_cons. split; [by intros ->|]. clear Hc. induction rest as [|d rest IH]; [done|].
  simpl in Hr. apply andb_true_iff in Hr as [Hd Hr]. apply lacks_cons. split; [by intros ->|auto].
Qed.

Lemma hold_id_inj s s' :
  valid_scope s = true → valid_scope s' = true → hold_id s = hold_id s' → s = s'.
Proof.
  intros Hs Hs' Heq%(inj (String.append _)). revert Heq.
  destruct s as [env|p c], s' as [env'|p' c']; unfold scope_key; try done.
  - intros Heq%(inj (String.append _)). congruence.
  - intros Heq%(inj (String.append _)). simpl in Hs, Hs'.
    apply andb_true_iff in Hs as [Hp _], Hs' as [Hp' _].
    assert (Some (p, c) = Some (p', c')) as [= -> ->]; [|done].
    rewrite <- (split_once_lacks "/" p c), <- (split_once_lacks "/" p' c')
      by by apply identifier_lacks_slash.
    by f_equal.
Qed.

Lemma require_exists_valid ctx s u : require_exists ctx s = Ok u → valid_scope s = true.
Proof. destruct s; simpl; intros H; ok_inv H; [done|]. by rewrite Hg, Hg0. Qed.

Lemma trimmed_nonempty value : str_is_empty value = false → value ≠ "".
Proof. by destruct value. Qed.

Lemma required_set o key value :
  properties o !! key = Some value → value ≠ "" → required o key = Ok value.
Proof. intros H Hv. unfold required. rewrite H. by destruct value. Qed.

Lemma get_hold_object ctx s h :
  reason h ≠ "" → actor h ≠ "" → i64_min ≤ held_at h ≤ i64_max →
  objects ctx !! hold_id s = Some (hold_object s h) → get ctx s = Ok (Some h).
Proof.
  intros Hr Ha Ht H. unfold get, ctx_get. rewrite H. simpl.
  rewrite (required_set _ "reason" (reason h)) by done. simpl.
  rewrite (required_set _ "actor" (actor h)) by done. simpl. unfold required_time.
  rewrite (required_set _ "held_at" (pretty (held_at h))); [|done|].
  - simpl. rewrite parse_i64_pretty by done. by destruct h.
  - intros Heq. pose proof (parse_i64_pretty _ Ht) as Hp. by rewrite Heq in Hp.
Qed.

Lemma get_other ctx ctx' s :
  ctx_get ctx' (hold_id s) = ctx_get ctx (hold_id s) → get ctx' s = get ctx s.
Proof. intros H. unfold get. by rewrite H. Qed.

(** What an operation on the hold of [s] leaves alone: every other object, the
    audit events of the past among them, and the holds of other scopes. *)
Record only_hold (s : HoldScope) (ctx ctx' : Ctx) : Prop := {
  oh_objects : ∀ id o, id ≠ hold_id s → ctx_get ctx id = Some o → ctx_get ctx' id = Some o;
  oh_holds : ∀ s', valid_scope s' = true → s' ≠ s → get ctx' s' = get ctx s'
}.

Lemma append_audit_lookup ctx s action event ctx' id :
  append_audit ctx s action event = Ok ctx' →
  (∃ s', id = hold_id s') ∨ ctx_get ctx id ≠ None → ctx_get ctx' id = ctx_get ctx id.
Proof.
  intros (sequence & Hfree & ->)%append_audit_ok Hid. unfold ctx_get, ctx_put. simpl.
  apply lookup_insert_ne. intros <-. destruct Hid as [[s' Hs']|Hn]; [|by apply Hn].
  by apply (audit_is_not_hold s' (scope_key s) (held_at event) sequence).
Qed.

Lemma only_hold_changed s ctx mid action event ctx' :
  (∀ id, id ≠ hold_id s → ctx_get mid id = ctx_get ctx id) → valid_scope s = true →
  append_audit mid s action event = Ok ctx' → only_hold s ctx ctx'.
Proof.
  intros Hmid Hs Ha. split.
  - intros id o Hid Ho. rewrite (append_audit_lookup _ _ _ _ _ id Ha), Hmid; [done..|].
    right. by rewrite Hmid, Ho.
  - intros s' Hs' Hne. apply get_other. rewrite (append_audit_lookup _ _ _ _ _ _ Ha) by eauto.
    apply Hmid. intros Heq. apply Hne. by apply hold_id_inj.
Qed.

Lemma set_hold_ok embedded ctx s why who now ctx' h :
  set_hold embedded ctx s why who now = (ctx', Ok h) →
  valid_scope s = true ∧ reason h ≠ "" ∧ actor h ≠ "" ∧ held_at h = now
  ∧ append_audit (ctx_put ctx (hold_object s h)) s "set" h = Ok ctx'.
Proof.
  unfold set_hold.
  match goal with |- (match ?c with _ => _ end = _) → _ => destruct c as [hold|] eqn:Hc end; [|done].
  destruct (append_audit _ _ _ _) as [c|] eqn:Ha; [|done]. intros [= -> ->].
  unfold validate_reason, validate_actor in Hc. ok_inv Hc. injection Hc as <-.
  ok_inv Hg0. ok_inv Hg1. injection Hg0 as <-. injection Hg1 as <-. simpl in *.
  split_and!; [by eapply require_exists_valid|by apply trimmed_nonempty|by apply trimmed_nonempty|done|done].
Qed.

Lemma clear_hold_ok embedded ctx s who now ctx' h :
  clear_hold embedded ctx s who now = (ctx', Ok h) →
  valid_scope s = true ∧ get ctx s = Ok (Some h)
  ∧ ∃ event, append_audit (ctx_delete ctx (hold_id s)) s "clear" event = Ok ctx'.
Proof.
  unfold clear_hold.
  match goal with |- (match ?c with _ => _ end = _) → _ => destruct c as [[w hold]|] eqn:Hc end; [|done].
  destruct (append_audit _ _ _ _) as [c|] eqn:Ha; [|done]. intros [= -> ->].
  ok_inv Hc. injection Hc as -> ->. subst.
  split_and!; [by eapply require_exists_valid|done|eauto].
Qed.

(** C39: a hold is in force from [set] until [clear].  After [set] the scope
    reads back the hold as given, and no plan that deploys, reconciles or
    restarts anything through it starts; [clear] returns that very hold and
    leaves none.  Neither touches another object, so the audit history is
    never lost, nor the hold of any other scope. *)
Theorem hold_until_cleared embedded ctx s why who now ctx' h :
  set_hold embedded ctx s why who now = (ctx', Ok h) → i64_min ≤ now ≤ i64_max →
  get ctx' s = Ok (Some h) ∧ only_hold s ctx ctx'
  ∧ (∀ p step, s ∈ plan_scopes p → step ∈ steps p → step_action step ≠ Rollback →
       require_not_held ctx' p ≠ Ok tt)
  ∧ ∀ who' now' ctx'' h', clear_hold embedded ctx' s who' now' = (ctx'', Ok h') →
      h' = h ∧ get ctx'' s = Ok None ∧ only_hold s ctx' ctx''.
Proof.
  intros (Hs & Hr & Ha & <- & Happ)%set_hold_ok Hnow.
  assert (Hget : get ctx' s = Ok (Some h)).
  { apply get_hold_object; [done..|].
    rewrite <- (lookup_insert_eq (objects ctx) (hold_id s)).
    apply (append_audit_lookup _ _ _ _ _ _ Happ). eauto. }
  split_and!; [done| | |].
  - eapply only_hold_changed; [|done..]. intros id Hid. by apply lookup_insert_ne.
  - intros p step Hp Hstep Hroll [Hall|Hnone]%require_not_held_ok.
    + apply Hroll. by apply (proj1 (rollback_only_true p) Hall).
    + rewrite first_hold_none in Hnone. by rewrite (Hnone s Hp) in Hget.
  - intros who' now' ctx'' h' (_ & Hget' & event & Happ')%clear_hold_ok.
    split_and!; [congruence| |].
    + unfold get. rewrite (append_audit_lookup _ _ _ _ _ _ Happ') by eauto.
      unfold ctx_get, ctx_delete. simpl. by rewrite lookup_delete_eq.
    + eapply only_hold_changed; [|done..]. intros id Hid. by apply lookup_delete_ne.
Qed.

Module HoldExamples.
Definition lab : Object := {|
  object_id := env_id "lab"; object_kind := "tenkai.environment"; object_name := "Lab";
  object_namespace := NS; external_id := ""; properties := ∅; created := 1; updated := 1 |}.

Definition ctx0 : Ctx := {| objects := {[env_id "lab" := lab]}; catalog_links := [] |}.

Definition freeze : DeliveryHold := {| reason := "freeze"; actor := "alice"; held_at := 7 |}.

Definition held : Ctx :=
  ctx_put (ctx_put ctx0 (hold_object (EnvironmentScope "lab") freeze))
    (audit_object (EnvironmentScope "lab") "set" freeze 0).

Lemma hold_until_cleared_witness :
  set_hold true ctx0 (EnvironmentScope "lab") " freeze " "alice" 7 = (held, Ok freeze)
  ∧ get held (EnvironmentScope "lab") = Ok (Some freeze).
Proof.
  assert (H : set_hold true ctx0 (EnvironmentScope "lab") " freeze " "alice" 7 = (held, Ok freeze)).
  { vm_compute. reflexivity. }
  split; [exact H|].
  exact (proj1 (hold_until_cleared _ _ _ _ _ _ _ _ H ltac:(unfold i64_min, i64_max; lia))).
Defined.

(** Held, then cleared: the history keeps both events, oldest first. *)
Example cleared_keeps_history :
  let ctx := (clear_hold true held (EnvironmentScope "lab") "bob" 9).1 in
  event_action <$> match audit (filter (λ o, object_kind o = HOLD_AUDIT_KIND)
      (snd <$> map_to_list (objects ctx))) (EnvironmentScope "lab") with
    Ok events => events | Err _ => [] end = ["set"; "clear"].
Proof. vm_compute. reflexivity. Qed.
End HoldExamples.
