(* ===== verification/Criticality.v ===== *)
(** * Criticality

    [criticality.rs] and [criticality_store.rs]: what an operator declares and
    a signed statement derives about how much an environment or a product
    matters, the level that counts, and the fenced writes that record it. *)

From S2P Require Import Prelude RustStr Semver Kinds Facts Compatibility Contracts Plan ObjectStore Approvals ReleaseSigning HostState Catalog Effects.

(** ** Levels *)

Inductive CriticalityLevel := Low | Medium | High | Critical.

#[export] Instance CriticalityLevel_eq_dec : EqDecision CriticalityLevel.
Proof. solve_decision. Defined.

(** The derived [Ord]. *)
Definition level_rank (l : CriticalityLevel) : Z :=
  match l with Low => 0 | Medium => 1 | High => 2 | Critical => 3 end.

Definition level_max (a b : CriticalityLevel) : CriticalityLevel :=
  if level_rank a <=? level_rank b then b else a.

Definition CriticalityLevel_parse (value : string) : option CriticalityLevel :=
  if decide (value = "low") then Some Low
  else if decide (value = "medium") then Some Medium
  else if decide (value = "high") then Some High
  else if decide (value = "critical") then Some Critical
  else None.

Definition CriticalityLevel_str (l : CriticalityLevel) : string :=
  match l with Low => "low" | Medium => "medium" | High => "high" | Critical => "critical" end.

Inductive CriticalityTargetKind := EnvironmentTarget | ProductTarget.

#[export] Instance CriticalityTargetKind_eq_dec : EqDecision CriticalityTargetKind.
Proof. solve_decision. Defined.

Definition target_kind_str (k : CriticalityTargetKind) : string :=
  match k with EnvironmentTarget => "environment" | ProductTarget => "product" end.

Record DeclaredCriticality := {
  declared_level : CriticalityLevel; declared_owner : string; declared_reason : string;
  declared_set_at : Z; declared_source : string
}.

Record DerivedCriticality := {
  derived_level : CriticalityLevel; derived_source : string; derived_reason : string;
  derived_generated_at : Z; derived_imported_at : Z; age_ms : Z; stale : bool
}.

Record EffectiveCriticality := {
  effective : option CriticalityLevel; declared : option DeclaredCriticality;
  derived : option DerivedCriticality
}.

Record SetCriticalityRequest := {
  request_level : CriticalityLevel; request_owner : string; request_reason : string
}.

Record DerivedAssignment := {
  assigned_kind : CriticalityTargetKind; assigned_name : string;
  assigned_level : CriticalityLevel; assigned_source : string; assigned_reason : string
}.

Record DerivedStatement := {
  generated_at : Z; max_age_ms : Z; assignments : list DerivedAssignment
}.

Record VerifiedDerived := { verified_key_id : string; verified_statement : DerivedStatement }.

Definition DECLARED_LEVEL : string := "criticality.declared".
Definition DECLARED_OWNER : string := "criticality.declared.owner".
Definition DECLARED_REASON : string := "criticality.declared.reason".
Definition DECLARED_SET_AT : string := "criticality.declared.set_at".
Definition DERIVED_LEVEL : string := "criticality.derived".
Definition DERIVED_SOURCE : string := "criticality.derived.source".
Definition DERIVED_REASON : string := "criticality.derived.reason".
Definition DERIVED_GENERATED_AT : string := "criticality.derived.generated_at".
Definition DERIVED_IMPORTED_AT : string := "criticality.derived.imported_at".
Definition DERIVED_MAX_AGE_MS : string := "criticality.derived.max_age_ms".
Definition DERIVED_KEY_ID : string := "criticality.derived.key_id".

Definition MAX_REASON_BYTES : Z := 1024.
Definition MAX_ASSIGNMENTS : Z := 4096.
Definition DERIVED_CLOCK_SKEW_MS : Z := 60000.

Inductive crit_error :=
| UnknownLevel (value : string)
| OwnerRequired | OwnerTooLong | ReasonRequired | ReasonTooLong
| GeneratedAtNotPositive | MaxAgeNotPositive | NoAssignments | TooManyAssignments
| BadTargetName (kind : CriticalityTargetKind) (name : string)
| SourceRequired | ReasonHasControl | AssignedReasonTooLong
| NamedTwice (kind : CriticalityTargetKind) (name : string)
| BadEnvelopeKeyId (key : string)
| UnsupportedDerivedSchema (schema : string)
| BadEnvelope
| SignerRefused (error : signing_error)
| BadSignature
| StatementRefused (refusal : Refusal)
| GeneratedAfterIssued (generated issued : Z)
| GeneratedInFuture (generated now : Z)
| NoTrustRoots
| OutsideBundle (kind : CriticalityTargetKind) (name : string)
| InvalidName (label value : string)
| NotRegistered (environment : string)
| NotInCatalog (product : string)
| GenerationConflict (generation : Z)
| LeaseHeld (product : string)
| StoreError (text : string)
| NotReleased (error : crit_error)
| AndNotReleased (error unlock : crit_error).

Notation crit A := (result A crit_error).

(** [require_owner_reason]. *)
Definition require_owner_reason (owner reason : string) : crit unit :=
  let owner := trim owner in
  let reason := trim reason in
  bail_if str_is_empty owner || any_control owner with OwnerRequired in
  bail_if MAX_REASON_BYTES <? str_len owner with OwnerTooLong in
  bail_if str_is_empty reason || any_control reason with ReasonRequired in
  bail_if MAX_REASON_BYTES <? str_len reason with ReasonTooLong in
  Ok tt.

(** ** Reading *)

Definition parsed_level (value : string) : crit CriticalityLevel :=
  ok_or (CriticalityLevel_parse value) (UnknownLevel value).

Definition time_property (ps : gmap string string) (key : string) : Z :=
  default 0 (ps !! key ≫= parse_i64).

Definition text_property (ps : gmap string string) (key : string) : string :=
  default "" (ps !! key).

Definition declared_of (ps : gmap string string) : crit (option DeclaredCriticality) :=
  match ps !! DECLARED_LEVEL with
  | None => Ok None
  | Some level =>
    let? l := parsed_level level in
    Ok (Some {| declared_level := l; declared_owner := text_property ps DECLARED_OWNER;
                declared_reason := text_property ps DECLARED_REASON;
                declared_set_at := time_property ps DECLARED_SET_AT;
                declared_source := "declared" |})
  end.

Definition derived_of (ps : gmap string string) (now : Z) : crit (option DerivedCriticality) :=
  match ps !! DERIVED_LEVEL with
  | None => Ok None
  | Some level =>
    let generated_at := time_property ps DERIVED_GENERATED_AT in
    let max_age := time_property ps DERIVED_MAX_AGE_MS in
    let age := i64_saturating_sub now generated_at in
    let? l := parsed_level level in
    Ok (Some {| derived_level := l; derived_source := text_property ps DERIVED_SOURCE;
                derived_reason := text_property ps DERIVED_REASON;
                derived_generated_at := generated_at;
                derived_imported_at := time_property ps DERIVED_IMPORTED_AT;
                age_ms := age; stale := (0 <? max_age) && (max_age <? age) |})
  end.

(** [higher], which is also [max] over the levels that are there. *)
Definition higher (a b : option CriticalityLevel) : option CriticalityLevel :=
  match a, b with
  | None, b => b
  | a, None => a
  | Some a, Some b => Some (level_max a b)
  end.

Definition fresh_level (d : option DerivedCriticality) : option CriticalityLevel :=
  d ≫= λ value, if stale value then None else Some (derived_level value).

Definition from_properties (ps : gmap string string) (now : Z) : crit EffectiveCriticality :=
  let? declared := declared_of ps in
  let? derived := derived_of ps now in
  Ok {| effective := higher (declared_level <$> declared) (fresh_level derived);
        declared := declared; derived := derived |}.

Definition effective_level (ps : gmap string string) (now : Z) : crit (option CriticalityLevel) :=
  let? e := from_properties ps now in Ok (effective e).

Definition continue_after_failure_refused (effective max : option CriticalityLevel) : bool :=
  match effective, max with
  | Some effective, Some max => level_rank max <? level_rank effective
  | _, _ => false
  end.

(** [preserve_product_properties]: a republish keeps what it does not set. *)
Definition preserve_product_properties (existing : option (gmap string string))
    (ps : gmap string string) : gmap string string :=
  match existing with
  | None => ps
  | Some existing =>
    ps ∪ filter (λ kv, starts_with "criticality." kv.1 = true) existing
  end.

(** ** Statements *)

(** [validate_assignment_name]: the identifier grammar. *)
Definition validate_assignment_name (a : DerivedAssignment) : crit unit :=
  bail_if negb (valid_identifier (assigned_name a))
    with (BadTargetName (assigned_kind a) (assigned_name a)) in
  Ok tt.

Definition validate_assignment (seen : gset (string * string)) (a : DerivedAssignment) :
    crit (gset (string * string)) :=
  let? _ := validate_assignment_name a in
  bail_if str_is_empty (trim (assigned_source a)) || any_control (assigned_source a)
    with SourceRequired in
  bail_if any_control (assigned_reason a) with ReasonHasControl in
  bail_if MAX_REASON_BYTES <? str_len (assigned_reason a) with AssignedReasonTooLong in
  let key := (target_kind_str (assigned_kind a), assigned_name a) in
  bail_if bool_decide (key ∈ seen) with (NamedTwice (assigned_kind a) (assigned_name a)) in
  Ok ({[key]} ∪ seen).

Definition validate_derived (s : DerivedStatement) : crit unit :=
  bail_if generated_at s <=? 0 with GeneratedAtNotPositive in
  bail_if max_age_ms s <=? 0 with MaxAgeNotPositive in
  bail_if bool_decide (assignments s = []) with NoAssignments in
  bail_if MAX_ASSIGNMENTS <? Z.of_nat (length (assignments s)) with TooManyAssignments in
  let? _ := try_fold validate_assignment ∅ (assignments s) in
  Ok tt.

Definition refuse_generated_after_issued (generated issued : Z) : crit unit :=
  bail_if (0 <? generated) && (issued <? generated) with (GeneratedAfterIssued generated issued) in
  Ok tt.

Definition refuse_generated_in_the_future (generated now : Z) : crit unit :=
  bail_if i64_saturating_add now DERIVED_CLOCK_SKEW_MS <? generated
    with (GeneratedInFuture generated now) in
  Ok tt.

(** [refuse_bundle_scope]. *)
Definition refuse_bundle_scope (s : DerivedStatement) (bound : string) : crit unit :=
  try_for_each (λ a,
    match assigned_kind a with
    | EnvironmentTarget =>
      bail_if negb (bool_decide (assigned_name a = bound))
        with (OutsideBundle EnvironmentTarget (assigned_name a)) in Ok tt
    | ProductTarget => Err (OutsideBundle ProductTarget (assigned_name a))
    end) (assignments s).

(** ** Envelopes *)

(** [DerivedEnvelope] and the deprecated [LegacyEnvelope], whose statement is
    the parsed one. *)
Record DerivedEnvelope := {
  derived_schema : string; derived_key_id : string; derived_statement : string;
  derived_signature : string
}.

Record LegacyEnvelope := {
  legacy_schema : string; legacy_key_id : string; legacy_statement : DerivedStatement;
  legacy_signature : string
}.

Inductive ReceivedEnvelope := Current (e : DerivedEnvelope) | Legacy (e : LegacyEnvelope).

Definition received_key_id (e : ReceivedEnvelope) : string :=
  match e with Current e => derived_key_id e | Legacy e => legacy_key_id e end.

Definition DERIVED_SCHEMA : string := "tenkai.derived-criticality.v2".
Definition LEGACY_DERIVED_SCHEMA : string := "tenkai.derived-criticality.v1".
Definition SIGNING_DOMAIN : string := "TENKAI-DERIVED-CRITICALITY-V2" +:+ String NUL "".
Definition LEGACY_SIGNING_DOMAIN : string := "TENKAI-DERIVED-CRITICALITY-V1" +:+ String NUL "".

(** [serde_json] of these types. *)
Class DerivedJson := {
  schema_of_json : string → option string;
  current_of_json : string → option DerivedEnvelope;
  legacy_of_json : string → option LegacyEnvelope;
  statement_of_json : string → option DerivedStatement;
  legacy_statement_json : DerivedStatement → string
}.

Section Envelopes.
Context {J : DerivedJson} {B : Base64} {E : PlanEncoding} {C : Crypto}.

Definition parse_envelope (bytes : string) : crit ReceivedEnvelope :=
  let? schema := ok_or (schema_of_json bytes) BadEnvelope in
  let? e := if decide (schema = DERIVED_SCHEMA) then
              let? e := ok_or (current_of_json bytes) BadEnvelope in Ok (Current e)
            else if decide (schema = LEGACY_DERIVED_SCHEMA) then
              let? e := ok_or (legacy_of_json bytes) BadEnvelope in Ok (Legacy e)
            else Err (UnsupportedDerivedSchema schema) in
  bail_if negb (is_some_and (strip_prefix "sha256:" (received_key_id e)) valid_hex_digest)
    with (BadEnvelopeKeyId (received_key_id e)) in
  Ok e.

Definition legacy_signed_message (s : DerivedStatement) : string :=
  LEGACY_SIGNING_DOMAIN +:+ legacy_statement_json s.

(** [verify_envelope], at the time [now]. *)
Definition verify_derived (e : ReceivedEnvelope) (authorities : ReleaseTrustRoots) (now : Z) :
    crit VerifiedDerived :=
  let? signer := map_err SignerRefused (resolve_at authorities (received_key_id e) now) in
  let? s :=
    match e with
    | Current c =>
      bail_if negb (decodes_to 64 (derived_signature c)) with BadSignature in
      let? (s, _) := map_err StatementRefused
                       (verify_signed SIGNING_DOMAIN (derived_statement c)
                          (verify_strict (release_public_key signer) (derived_signature c))
                          statement_of_json) in
      let? _ := validate_derived s in Ok s
    | Legacy l =>
      bail_if negb (verify_strict (release_public_key signer) (legacy_signature l)
                      (legacy_signed_message (legacy_statement l))) with BadSignature in
      let? _ := validate_derived (legacy_statement l) in Ok (legacy_statement l)
    end in
  Ok {| verified_key_id := received_key_id e; verified_statement := s |}.

(** [verify_bundle_payload] and [preflight_derived_payload]; [roots] are the
    configured trust roots. *)
Definition verify_bundle_payload (roots : option ReleaseTrustRoots) (bytes : string)
    (issued_at : Z) (bound : string) (now : Z) : crit VerifiedDerived :=
  let? e := parse_envelope bytes in
  let? roots := ok_or roots NoTrustRoots in
  let? v := verify_derived e roots now in
  let? _ := refuse_generated_after_issued (generated_at (verified_statement v)) issued_at in
  let? _ := refuse_bundle_scope (verified_statement v) bound in
  Ok v.
End Envelopes.

(** ** Writing *)

Definition with_properties (o : Object) (ps : gmap string string) (at_ms : Z) : Object := {|
  object_id := object_id o; object_kind := object_kind o; object_name := object_name o;
  object_namespace := object_namespace o; external_id := external_id o; properties := ps;
  created := created o; updated := at_ms |}.

Definition write_declared (o : Object) (r : SetCriticalityRequest) (now : Z) : Object :=
  with_properties o
    (<[DECLARED_SET_AT := pretty now]> (<[DECLARED_REASON := trim (request_reason r)]>
     (<[DECLARED_OWNER := trim (request_owner r)]>
     (<[DECLARED_LEVEL := CriticalityLevel_str (request_level r)]> (properties o))))) now.

Definition clear_declared (o : Object) (now : Z) : Object :=
  with_properties o
    (delete DECLARED_SET_AT (delete DECLARED_REASON
       (delete DECLARED_OWNER (delete DECLARED_LEVEL (properties o))))) now.

Definition write_derived (o : Object) (a : DerivedAssignment)
    (generated_at imported_at max_age_ms : Z) (key_id : string) : Object :=
  with_properties o
    (<[DERIVED_KEY_ID := key_id]> (<[DERIVED_MAX_AGE_MS := pretty max_age_ms]>
     (<[DERIVED_IMPORTED_AT := pretty imported_at]>
     (<[DERIVED_GENERATED_AT := pretty generated_at]>
     (<[DERIVED_REASON := assigned_reason a]> (<[DERIVED_SOURCE := assigned_source a]>
     (<[DERIVED_LEVEL := CriticalityLevel_str (assigned_level a)]> (properties o)))))))) imported_at.

(** [apply_derived_if_newer]: the object to write, when there is one. *)
Definition apply_derived_if_newer (o : Object) (a : DerivedAssignment)
    (generated_at imported_at max_age_ms : Z) (key_id : string) : crit (option Object) :=
  let fresh := Ok (Some (write_derived o a generated_at imported_at max_age_ms key_id)) in
  match properties o !! DERIVED_GENERATED_AT ≫= parse_i64 with
  | None => fresh
  | Some existing =>
    if generated_at <? existing then Ok None
    else if generated_at =? existing then
      bail_if negb (bool_decide (properties o !! DERIVED_LEVEL
                                 = Some (CriticalityLevel_str (assigned_level a)))
                    && bool_decide (properties o !! DERIVED_SOURCE = Some (assigned_source a)))
        with (GenerationConflict generated_at) in
      Ok None
    else fresh
  end.

(** ** Operations *)

Record Held := { held_kind : CriticalityTargetKind; held_name : string; held_token : string }.

Inductive crit_effect : Type → Type :=
| Now : crit_effect Z
(** [ctx.get]. *)
| ReadObject (id : string) : crit_effect (crit (option Object))
(** [apply::claim_environment] and the product mutation lease of
    [claim_product_mutation], under an owner's name; the fencing token. *)
| Claim (kind : CriticalityTargetKind) (name owner : string) : crit_effect (crit string)
(** [apply::release_environment] and [release_product_mutation]. *)
| Release (h : Held) : crit_effect (crit unit)
(** [guarded_update] under the lease. *)
| Update (o : Object) (h : Held) : crit_effect (crit unit).

Notation crit_prog A := (prog crit_effect (crit A)).

Definition require_name (label name : string) : crit unit :=
  bail_if negb (valid_identifier name) with (InvalidName label name) in Ok tt.

Definition load_environment (environment : string) : crit_prog Object :=
  do? _ := Ret (require_name "environment" environment) in
  do? found := perform (ReadObject (env_id environment)) in
  Ret (ok_or found (NotRegistered environment)).

Definition load_product (product : string) : crit_prog Object :=
  do? found := perform (ReadObject (product_id product)) in
  Ret (ok_or found (NotInCatalog product)).

Definition load_target (kind : CriticalityTargetKind) (name : string) : crit_prog Object :=
  match kind with
  | EnvironmentTarget => load_environment name
  | ProductTarget => load_product name
  end.

(** [inspect_environment] and [inspect_product]. *)
Definition inspect_environment (environment : string) : crit_prog EffectiveCriticality :=
  do? o := load_environment environment in
  do now := perform Now in
  Ret (from_properties (properties o) now).

Definition inspect_product (product : string) : crit_prog EffectiveCriticality :=
  do? _ := Ret (require_name "product" product) in
  do? found := perform (ReadObject (product_id product)) in
  match found with
  | None => Ret (Ok {| effective := None; declared := None; derived := None |})
  | Some o => do now := perform Now in Ret (from_properties (properties o) now)
  end.

(** [claim_product_mutation]; the owner of an environment claim is the
    caller's. *)
Definition claim_product_mutation (product : string) : crit_prog Held :=
  do? _ := Ret (require_name "product" product) in
  do now := perform Now in
  do? token := perform (Claim ProductTarget product
                          ("product-mutation:" +:+ product +:+ ":" +:+ pretty now)) in
  Ret (Ok {| held_kind := ProductTarget; held_name := product; held_token := token |}).

Definition claim_environment (environment owner : string) : crit_prog Held :=
  do? token := perform (Claim EnvironmentTarget environment owner) in
  Ret (Ok {| held_kind := EnvironmentTarget; held_name := environment; held_token := token |}).

(** [finish_product_mutation] and [finish_environment_mutation]: the lease is
    given back whatever happened under it. *)
Definition finish_mutation {A} (h : Held) (r : crit A) : crit_prog A :=
  do released := perform (Release h) in
  Ret (match r, released with
       | Ok a, Ok _ => Ok a
       | Err e, Ok _ => Err e
       | Ok _, Err e => Err (NotReleased e)
       | Err e, Err unlock => Err (AndNotReleased e unlock)
       end).

(** [set_environment_locked] and [clear_environment_locked]. *)
Definition set_environment_locked (environment : string) (r : SetCriticalityRequest) (h : Held) :
    crit_prog string :=
  do? _ := Ret (require_owner_reason (request_owner r) (request_reason r)) in
  do? o := load_environment environment in
  do now := perform Now in
  do? _ := perform (Update (write_declared o r now) h) in
  Ret (Ok ("set " +:+ environment +:+ " criticality " +:+ CriticalityLevel_str (request_level r))).

Definition clear_environment_locked (environment : string) (h : Held) : crit_prog string :=
  do? o := load_environment environment in
  do now := perform Now in
  do? _ := perform (Update (clear_declared o now) h) in
  Ret (Ok ("cleared " +:+ environment +:+ " declared criticality")).

Definition set_environment (environment : string) (r : SetCriticalityRequest) : crit_prog string :=
  do? _ := Ret (require_name "environment" environment) in
  do? _ := Ret (require_owner_reason (request_owner r) (request_reason r)) in
  do now := perform Now in
  do? h := claim_environment environment ("criticality-declared:" +:+ pretty now) in
  do r := set_environment_locked environment r h in
  finish_mutation h r.

Definition clear_environment (environment : string) : crit_prog string :=
  do? _ := Ret (require_name "environment" environment) in
  do now := perform Now in
  do? h := claim_environment environment ("criticality-declared:" +:+ pretty now) in
  do r := clear_environment_locked environment h in
  finish_mutation h r.

Definition set_product (product : string) (r : SetCriticalityRequest) : crit_prog string :=
  do? _ := Ret (require_name "product" product) in
  do? _ := Ret (require_owner_reason (request_owner r) (request_reason r)) in
  do? h := claim_product_mutation product in
  do r := (do? o := load_product product in
           do now := perform Now in
           do? _ := perform (Update (write_declared o r now) h) in
           Ret (Ok ("set product " +:+ product +:+ " criticality "
                    +:+ CriticalityLevel_str (request_level r)))) in
  finish_mutation h r.

Definition clear_product (product : string) : crit_prog string :=
  do? _ := Ret (require_name "product" product) in
  do? h := claim_product_mutation product in
  do r := (do? o := load_product product in
           do now := perform Now in
           do? _ := perform (Update (clear_declared o now) h) in
           Ret (Ok ("cleared product " +:+ product +:+ " declared criticality"))) in
  finish_mutation h r.

(** [effective_for_targets]. *)
Fixpoint raise_for_products (now : Z) (seen : gset string) (level : option CriticalityLevel)
    (products : list string) : crit_prog (option CriticalityLevel) :=
  match products with
  | [] => Ret (Ok level)
  | product :: rest =>
    if str_is_empty (trim product) || bool_decide (product ∈ seen) then
      raise_for_products now seen level rest
    else
      do? found := perform (ReadObject (product_id product)) in
      do? product_level := Ret (match found with
                                | Some o => effective_level (properties o) now
                                | None => Ok None
                                end) in
      raise_for_products now ({[product]} ∪ seen) (higher level product_level) rest
  end.

Definition effective_for_targets (environment : string) (products : list string) :
    crit_prog (option CriticalityLevel) :=
  do now := perform Now in
  do? env := load_environment environment in
  do? level := Ret (effective_level (properties env) now) in
  raise_for_products now ∅ level products.

(** [apply_environment_assignment] and [apply_product_assignment]. *)
Definition apply_assignment (v : VerifiedDerived) (now : Z) (a : DerivedAssignment) :
    crit_prog bool :=
  do? h := match assigned_kind a with
           | EnvironmentTarget => claim_environment (assigned_name a) ("criticality-derived:" +:+ pretty now)
           | ProductTarget => claim_product_mutation (assigned_name a)
           end in
  do r := (do? o := load_target (assigned_kind a) (assigned_name a) in
           do? wrote := Ret (apply_derived_if_newer o a (generated_at (verified_statement v)) now
                               (max_age_ms (verified_statement v)) (verified_key_id v)) in
           match wrote with
           | None => Ret (Ok false)
           | Some o => do? _ := perform (Update o h) in Ret (Ok true)
           end) in
  finish_mutation h r.

(** [apply_assignments] and [apply_verified]. *)
Definition apply_assignments (v : VerifiedDerived) (now : Z) : crit_prog nat :=
  each (λ applied a,
    do? wrote := apply_assignment v now a in
    Ret (Ok ((if wrote : bool then S applied else applied), false)))
    O (assignments (verified_statement v)).

Definition apply_verified (v : VerifiedDerived) (now : Z) : crit_prog nat :=
  do? _ := Ret (refuse_generated_in_the_future (generated_at (verified_statement v)) now) in
  apply_assignments v now.

(** [import_envelope] and [import_derived_payload]. *)
Definition import_envelope `{DerivedJson, Base64, PlanEncoding, Crypto} (e : ReceivedEnvelope)
    (authorities : ReleaseTrustRoots) (verified_at now : Z) : crit_prog nat :=
  do? v := Ret (verify_derived e authorities verified_at) in
  apply_verified v now.

Definition import_derived_payload `{DerivedJson, Base64, PlanEncoding, Crypto}
    (roots : option ReleaseTrustRoots) (bytes : string) (issued_at : Z) (bound : string)
    (verified_at : Z) : crit_prog nat :=
  do? v := Ret (verify_bundle_payload roots bytes issued_at bound verified_at) in
  do now := perform Now in
  apply_verified v now.

(** ** The level that counts *)

(** [b] is the highest of the levels in [s]. *)
Definition is_highest (b : option CriticalityLevel) (s : list (option CriticalityLevel)) : Prop :=
  b ∈ None :: s ∧ ∀ l, Some l ∈ s → ∃ m, b = Some m ∧ level_rank l ≤ level_rank m.

Lemma level_max_spec a b :
  (level_max a b = a ∨ level_max a b = b)
  ∧ level_rank a ≤ level_rank (level_max a b) ∧ level_rank b ≤ level_rank (level_max a b).
Proof. by destruct a, b; vm_compute; intuition. Qed.

Lemma higher_highest b s l : is_highest b s → is_highest (higher b l) (l :: s).
Proof.
  intros [Hin Hmax]. split.
  - destruct b as [m|], l as [l|]; simpl; try set_solver.
    destruct (level_max_spec m l) as [[->| ->] _]; set_solver.
  - intros x [Hx|Hx]%elem_of_cons.
    + subst l. destruct b as [m|]; simpl; [|by exists x]. eexists. split; [done|]. apply level_max_spec.
    + destruct (Hmax x Hx) as (m & -> & Hle). destruct l as [l|]; simpl; [|by exists m].
      eexists. split; [done|]. etrans; [exact Hle|]. apply level_max_spec.
Qed.

Lemma from_properties_ok ps now e :
  from_properties ps now = Ok e →
  declared_of ps = Ok (declared e) ∧ derived_of ps now = Ok (derived e)
  ∧ is_highest (effective e) [declared_level <$> declared e; fresh_level (derived e)].
Proof.
  unfold from_properties. intros H. ok_inv H. injection H as <-. split_and!; [done..|]. simpl.
  assert (is_highest (declared_level <$> x) [declared_level <$> x]) as Hd.
  { split; [set_solver|]. intros l Hl%list_elem_of_singleton. rewrite <-Hl. by exists l. }
  apply (higher_highest _ _ (fresh_level x0)) in Hd. destruct Hd as [H1 H2].
  split; [set_solver|]. intros l Hl. apply H2. set_solver.
Qed.

(** ** Imports *)

Definition generation_of (o : Object) : option Z := properties o !! DERIVED_GENERATED_AT ≫= parse_i64.

(** What is recorded of the derived level: its generation, level and source. *)
Definition recorded (o : Object) : option Z * option string * option string :=
  (generation_of o, properties o !! DERIVED_LEVEL, properties o !! DERIVED_SOURCE).

(** One verified assignment for an object, as it arrives. *)
Record Arrival := {
  arrived : DerivedAssignment; arrived_generation : Z; arrived_at : Z; arrived_max_age : Z;
  arrived_key : string
}.

Definition arrival_record (x : Arrival) : option Z * option string * option string :=
  (Some (arrived_generation x), Some (CriticalityLevel_str (assigned_level (arrived x))),
   Some (assigned_source (arrived x))).

Definition import_one (o : Object) (x : Arrival) : crit Object :=
  let? wrote := apply_derived_if_newer o (arrived x) (arrived_generation x) (arrived_at x)
                  (arrived_max_age x) (arrived_key x) in
  Ok (default o wrote).

Definition import_all : Object → list Arrival → crit Object := try_fold import_one.

Definition is_i64 (z : Z) : Prop := i64_min ≤ z ≤ i64_max.

Lemma write_derived_recorded o a g i m k :
  is_i64 g →
  recorded (write_derived o a g i m k)
  = (Some g, Some (CriticalityLevel_str (assigned_level a)), Some (assigned_source a)).
Proof. intros Hg. unfold recorded, generation_of. simpl. simplify_map_eq. by rewrite parse_i64_pretty. Qed.

(** Importing one arrival keeps the record, or replaces it by a newer one. *)
Lemma import_one_recorded o x o' :
  is_i64 (arrived_generation x) → import_one o x = Ok o' →
  (o' = o ∧ ∃ g, generation_of o = Some g
            ∧ (arrived_generation x < g ∨ arrival_record x = recorded o))
  ∨ (recorded o' = arrival_record x ∧ ∀ g, generation_of o = Some g → g < arrived_generation x).
Proof.
  intros Hx. unfold import_one, apply_derived_if_newer. fold (generation_of o). intros H.
  destruct (generation_of o) as [g|] eqn:Hg.
  - destruct (Z.ltb_spec (arrived_generation x) g); [injection H as <-; left; split; [done|]; eauto|].
    destruct (Z.eqb_spec (arrived_generation x) g) as [He|Hne].
    + ok_inv H. ok_inv Hg0. injection H as <-. injection Hg0 as <-.
      apply andb_true_iff in Hg1 as [Hl Hs]. rewrite bool_decide_eq_true in Hl, Hs. left. split; [done|]. exists g. split; [done|]. right.
      unfold arrival_record, recorded. by rewrite Hl, Hs, Hg, He.
    + injection H as <-. right. split; [by apply write_derived_recorded|]. intros g' [= <-]. lia.
  - injection H as <-. right. split; [by apply write_derived_recorded|]. done.
Qed.

(** A record is at least as new as [x], and [x] itself when it is as old. *)
Definition covers (r : option Z * option string * option string) (x : Arrival) : Prop :=
  ∃ g, r.1.1 = Some g ∧ (arrived_generation x < g ∨ arrival_record x = r).

Lemma import_all_recorded o l o' :
  Forall (λ x, is_i64 (arrived_generation x)) l → import_all o l = Ok o' →
  (∀ x, x ∈ l → covers (recorded o') x)
  ∧ (recorded o' = recorded o
     ∨ (∃ x, x ∈ l ∧ recorded o' = arrival_record x) ∧ ∀ g g', generation_of o = Some g →
         generation_of o' = Some g' → g < g').
Proof.
  intros Hl. revert o. induction Hl as [|x l Hx Hl IH]; intros o H; unfold import_all in H;
    cbn [try_fold] in H.
  { injection H as <-. split; [intros x Hin; by apply elem_of_nil in Hin|by left]. }
  destruct (import_one o x) as [o1|] eqn:H1; [|done].
  destruct (IH o1 H) as [Hall Hrec]. clear IH H.
  destruct (import_one_recorded o x o1 Hx H1) as [[-> (g & Hg & Hcov)]|[Hr1 Hnewer]].
  - split; [|destruct Hrec as [->|[(y & Hy & ->) Hlt]]; [by left|right; split; [exists y; set_solver|done]]].
    intros y [->|Hy]%elem_of_cons; [|by apply Hall].
    destruct Hrec as [->|[(z & Hz & Heq) Hlt]]; [by exists g|].
    exists (arrived_generation z). rewrite Heq. split; [done|]. left.
    assert (generation_of o' = Some (arrived_generation z)) as Hg' by (apply (f_equal (λ r, r.1.1)) in Heq; exact Heq).
    specialize (Hlt g _ Hg Hg'). destruct Hcov as [Hc|Hc]; [lia|].
    apply (f_equal (λ r, r.1.1)) in Hc. simpl in Hc. rewrite Hg in Hc. injection Hc as ->. done.
  - assert (generation_of o1 = Some (arrived_generation x)) as Hg1
      by (apply (f_equal (λ r, r.1.1)) in Hr1; exact Hr1).
    split.
    + intros y [->|Hy]%elem_of_cons; [|by apply Hall].
      destruct Hrec as [->|[(z & Hz & Heq) Hlt]]; [rewrite Hr1; eexists; split; [done|by right]|].
      exists (arrived_generation z). rewrite Heq. split; [done|]. left. apply Hlt; [done|].
      by apply (f_equal (λ r, r.1.1)) in Heq.
    + right. destruct Hrec as [Heq|[(z & Hz & Heq) Hlt]].
      * split; [exists x; split; [left|by rewrite Heq]|]. intros g g' Hg Hg'.
        apply (f_equal (λ r, r.1.1)) in Heq. simpl in Heq. rewrite Hg' , Hg1 in Heq.
        injection Heq as ->. by apply Hnewer.
      * split; [exists z; split; [by right|done]|]. intros g g' Hg Hg'.
        specialize (Hlt _ _ Hg1 Hg'). specialize (Hnewer g Hg). lia.
Qed.

(** Whatever order the same signed statements arrive in, if each order is
    accepted, the same derived level, source and generation is recorded: the
    newest generation's, and an older or repeated statement changes nothing. *)
Theorem newest_derived_wins o l k o1 o2 :
  Forall (λ x, is_i64 (arrived_generation x)) l → l ≡ₚ k →
  import_all o l = Ok o1 → import_all o k = Ok o2 →
  recorded o1 = recorded o2 ∧ ∀ x, x ∈ l → covers (recorded o1) x.
Proof.
  intros Hl Hperm H1 H2. assert (Forall (λ x, is_i64 (arrived_generation x)) k) as Hk by by rewrite <-Hperm.
  destruct (import_all_recorded o l o1 Hl H1) as [Hc1 Hr1].
  destruct (import_all_recorded o k o2 Hk H2) as [Hc2 Hr2]. split; [|done].
  destruct Hr1 as [E1|[(x & Hx & E1) Hlt1]], Hr2 as [E2|[(y & Hy & E2) Hlt2]]; [congruence|..].
  - rewrite <-Hperm in Hy. destruct (Hc1 y Hy) as (g & Hg & Hc). rewrite E1 in Hg.
    assert (g < arrived_generation y) by (apply Hlt2; [exact Hg|by apply (f_equal (λ r, r.1.1)) in E2]).
    destruct Hc as [|Hc]; [lia|congruence].
  - rewrite Hperm in Hx. destruct (Hc2 x Hx) as (g & Hg & Hc). rewrite E2 in Hg.
    assert (g < arrived_generation x) by (apply Hlt1; [exact Hg|by apply (f_equal (λ r, r.1.1)) in E1]).
    destruct Hc as [|Hc]; [lia|congruence].
  - rewrite Hperm in Hx. rewrite <-Hperm in Hy.
    destruct (Hc1 y Hy) as (g & Hg & Hc), (Hc2 x Hx) as (g' & Hg' & Hc').
    rewrite E1 in Hg, Hc. rewrite E2 in Hg', Hc'. injection Hg as <-. injection Hg' as <-.
    destruct Hc as [Hc|Hc], Hc' as [Hc'|Hc']; [lia|congruence..].
Qed.

(** ** The level of a plan's targets *)

Section Targets.
(** What the store holds, at one time. *)
Context (now : Z) (read : string → crit (option Object)).

Definition crit_answers : answers crit_effect := λ X e,
  match e in crit_effect X return X with
  | Now => now
  | ReadObject id => read id
  | Claim _ _ _ => Err (StoreError "")
  | Release _ => Err (StoreError "")
  | Update _ _ => Err (StoreError "")
  end.

Definition untracked : Semantics crit_effect unit :=
  {| after _ _ _ w := w; allowed_in _ _ _ := True |}.

(** The effective level of a stored object; [None] when it is not there. *)
Definition stored_level (id : string) : crit (option CriticalityLevel) :=
  let? found := read id in
  match found with Some o => effective_level (properties o) now | None => Ok None end.

Definition level_at (id : string) : option CriticalityLevel :=
  match stored_level id with Ok l => l | Err _ => None end.

Definition names_product (p : string) : bool := negb (str_is_empty (trim p)).

Lemma is_highest_same b s s' : is_highest b s → (∀ x, x ∈ s ↔ x ∈ s') → is_highest b s'.
Proof.
  intros [Hin Hmax] Heq. split; [|by intros l Hl%Heq; apply Hmax].
  apply elem_of_cons in Hin as [->|Hin]; [left|right; by apply Heq].
Qed.

Lemma raise_for_products_highest seen level products s b :
  is_highest level s → (∀ p, p ∈ seen → level_at (product_id p) ∈ s) →
  run untracked crit_answers (raise_for_products now seen level products) tt = (Ok b, tt) →
  is_highest b (s ++ ((λ p, level_at (product_id p)) <$> filter (λ p, names_product p = true) products)).
Proof.
  revert seen level s. induction products as [|p ps IH]; intros seen level s Hs Hseen H.
  { simpl in *. rewrite app_nil_r. by simplify_eq. }
  cbn [raise_for_products] in H. rewrite filter_cons. destruct (str_is_empty (trim p)) eqn:Hp;
    [rewrite decide_False by (unfold names_product; by rewrite Hp); by apply IH with seen level|].
  rewrite decide_True by (unfold names_product; by rewrite Hp).
  destruct (bool_decide (p ∈ seen)) eqn:Hin; cbn [orb] in H.
  { apply bool_decide_eq_true in Hin. eapply is_highest_same; [by apply IH with seen level|].
    intros x. rewrite fmap_cons, !elem_of_app, elem_of_cons. specialize (Hseen p Hin). naive_solver. }
  simpl in H. destruct (read (product_id p)) as [found|] eqn:Hread; [|by simplify_eq/=]. simpl in H.
  destruct (match found with Some o => effective_level (properties o) now | None => Ok None end)
    as [l|] eqn:Hl; [|by simplify_eq/=]. simpl in H.
  assert (level_at (product_id p) = l) as Hat by (unfold level_at, stored_level; by rewrite Hread, Hl).
  eapply is_highest_same; [eapply (IH _ _ (l :: s)); [by apply higher_highest| |exact H]|].
  - intros q [->%elem_of_singleton|Hq]%elem_of_union; [rewrite Hat; left|right; by apply Hseen].
  - intros x. rewrite fmap_cons, Hat, !elem_of_app, !elem_of_cons. naive_solver.
Qed.

(** The level a plan is judged by is the highest effective level of its
    environment and of every product it names, each of which is the higher of
    what is declared and what was derived and is not stale: a missing, stale
    or lower value of one never lowers it. *)
Theorem targets_level_is_highest environment products b :
  run untracked crit_answers (effective_for_targets environment products) tt = (Ok b, tt) →
  is_highest b (level_at (env_id environment)
    :: ((λ p, level_at (product_id p)) <$> filter (λ p, names_product p = true) products))
  ∧ ∀ id o e, read id = Ok (Some o) → from_properties (properties o) now = Ok e →
      level_at id = effective e
      ∧ is_highest (level_at id) [declared_level <$> declared e; fresh_level (derived e)].
Proof.
  intros H. split.
  - unfold effective_for_targets, load_environment, require_name in H. simpl in H.
    destruct (valid_identifier environment); [|by simplify_eq/=]. simpl in H.
    destruct (read (env_id environment)) as [[o|]|] eqn:Hread; [|by simplify_eq/=..]. simpl in H.
    destruct (effective_level (properties o) now) as [l|] eqn:Hl; [|by simplify_eq/=]. simpl in H.
    assert (level_at (env_id environment) = l) as Hat by (unfold level_at, stored_level; by rewrite Hread, Hl).
    rewrite Hat. eapply (raise_for_products_highest ∅ l products [l]); [|set_solver|exact H].
    split; [set_solver|]. intros x <-%list_elem_of_singleton. by exists x.
  - intros id o e Hread He. assert (level_at id = effective e) as ->.
    { unfold level_at, stored_level, effective_level. by rewrite Hread, He. }
    split; [done|]. by apply (from_properties_ok (properties o) now e).
Qed.
End Targets.

(** ** Fenced writes *)

(** What an operation holds and what it last read. *)
Record crit_world := { cw_held : option Held; cw_read : option (string * Object) }.

Definition target_id (h : Held) : string :=
  match held_kind h with
  | EnvironmentTarget => env_id (held_name h)
  | ProductTarget => product_id (held_name h)
  end.

Definition declared_keys : list string :=
  [DECLARED_LEVEL; DECLARED_OWNER; DECLARED_REASON; DECLARED_SET_AT].

Definition derived_keys : list string :=
  [DERIVED_LEVEL; DERIVED_SOURCE; DERIVED_REASON; DERIVED_GENERATED_AT; DERIVED_IMPORTED_AT;
   DERIVED_MAX_AGE_MS; DERIVED_KEY_ID].

(** The write changes nothing but properties under [keys]. *)
Definition only_touches (keys : list string) (before after : Object) : Prop :=
  object_id after = object_id before ∧ object_kind after = object_kind before
  ∧ ∀ k, k ∉ keys → properties after !! k = properties before !! k.

Definition newer (before after : Object) : Prop :=
  ∃ g, generation_of after = Some g ∧ ∀ g', generation_of before = Some g' → g' < g.

Section Fenced.
(** What the operation may do to the object it read. *)
Context (allowed_write : Object → Object → Prop).

Definition crit_after {X} (e : crit_effect X) : X → crit_world → crit_world :=
  match e in crit_effect X return X → crit_world → crit_world with
  | Now => λ _ w, w
  | ReadObject id => λ r w,
    {| cw_held := cw_held w;
       cw_read := match r with Ok (Some o) => Some (id, o) | _ => None end |}
  | Claim kind name _ => λ r w,
    match r with
    | Ok token => {| cw_held := Some {| held_kind := kind; held_name := name; held_token := token |};
                     cw_read := None |}
    | Err _ => w
    end
  | Release _ => λ _ w, {| cw_held := None; cw_read := None |}
  | Update _ _ => λ _ w, w
  end.

Definition crit_allowed {X} (e : crit_effect X) (w : crit_world) : Prop :=
  match e with
  | Now => True
  | ReadObject _ => True
  | Claim _ _ _ => cw_held w = None
  | Release h => cw_held w = Some h
  | Update o h =>
    cw_held w = Some h ∧ ∃ before, cw_read w = Some (target_id h, before) ∧ allowed_write before o
  end.

Definition fenced : Semantics crit_effect crit_world :=
  {| after := @crit_after; allowed_in := @crit_allowed |}.

Definition idle (w : crit_world) : Prop := cw_held w = None.
Definition gave_back {A} (_ : crit A) : crit_world → Prop := idle.

(** A body that runs under a held lease and keeps it. *)
Definition keeps {A} (h : Held) (p : crit_prog A) : Prop :=
  ∀ w, cw_held w = Some h → wp fenced p (λ _ w', cw_held w' = Some h) w.

Lemma wp_finish {A} h (p : crit_prog A) w :
  keeps h p → cw_held w = Some h → wp fenced (do r := p in finish_mutation h r) gave_back w.
Proof.
  intros Hp Hw. apply wp_bind. eapply wp_mono; [by apply Hp|]. intros r w' Hw'. by split.
Qed.

Lemma keeps_update {A} h kind name (f : Object → Z → Object) (a : A) :
  held_kind h = kind → held_name h = name →
  (∀ o now, allowed_write o (f o now)) →
  keeps h (do? o := load_target kind name in
           do now := perform Now in
           do? _ := perform (Update (f o now) h) in Ret (Ok a)).
Proof.
  intros Hk Hn Hf w Hw. destruct kind; simpl; unfold load_environment, load_product, require_name.
  - destruct (negb _); simpl; [done|]. split; [done|]. intros [[o|]|]; simpl; [|done..].
    split; [done|]. intros now. simpl. split; [|by intros [[]|]]. split; [done|].
    exists o. unfold target_id. by rewrite Hk, Hn.
  - split; [done|]. intros [[o|]|]; simpl; [|done..].
    split; [done|]. intros now. simpl. split; [|by intros [[]|]]. split; [done|].
    exists o. unfold target_id. by rewrite Hk, Hn.
Qed.
End Fenced.

Ltac touches := let j := fresh "j" in let Hj := fresh "Hj" in
  split_and!; [done..|]; intros j Hj; simpl;
  repeat (rewrite lookup_insert_ne || rewrite lookup_delete_ne);
  [done|intros <-; apply Hj; set_solver..].

Lemma write_declared_touches o r now : only_touches declared_keys o (write_declared o r now).
Proof. touches. Qed.

Lemma clear_declared_touches o now : only_touches declared_keys o (clear_declared o now).
Proof. touches. Qed.

Lemma write_derived_touches o a g i m k : only_touches derived_keys o (write_derived o a g i m k).
Proof. touches. Qed.

(** A mutation, and what it may write. *)
Inductive mutation :=
| SetEnvironment (environment : string) (r : SetCriticalityRequest)
| ClearEnvironment (environment : string)
| SetProduct (product : string) (r : SetCriticalityRequest)
| ClearProduct (product : string)
| Import (v : VerifiedDerived) (now : Z).

Definition mutate (m : mutation) : prog crit_effect bool :=
  match m with
  | SetEnvironment environment r => do x := set_environment environment r in Ret (is_ok x)
  | ClearEnvironment environment => do x := clear_environment environment in Ret (is_ok x)
  | SetProduct product r => do x := set_product product r in Ret (is_ok x)
  | ClearProduct product => do x := clear_product product in Ret (is_ok x)
  | Import v now => do x := apply_verified v now in Ret (is_ok x)
  end.

Definition may_write (m : mutation) (before after : Object) : Prop :=
  match m with
  | Import _ _ => only_touches derived_keys before after ∧ newer before after
  | _ => only_touches declared_keys before after
  end.

(** Times a verified statement carries. *)
Definition well_timed (m : mutation) : Prop :=
  match m with Import v _ => is_i64 (generated_at (verified_statement v)) | _ => True end.

Section FencedProofs.
Context (R : Object → Object → Prop).
Notation fenced_R := (fenced R).

Lemma wp_claim_environment environment owner (Q : crit Held → crit_world → Prop) w :
  idle w → (∀ e w', idle w' → Q (Err e) w') →
  (∀ h w', held_kind h = EnvironmentTarget → held_name h = environment → cw_held w' = Some h → Q (Ok h) w') →
  wp fenced_R (claim_environment environment owner) Q w.
Proof. intros Hw Herr Hok. split; [done|]. intros [token|e]; simpl; [by apply Hok|by apply Herr]. Qed.

Lemma wp_claim_product product (Q : crit Held → crit_world → Prop) w :
  idle w → (∀ e w', idle w' → Q (Err e) w') →
  (∀ h w', held_kind h = ProductTarget → held_name h = product → cw_held w' = Some h → Q (Ok h) w') →
  wp fenced_R (claim_product_mutation product) Q w.
Proof.
  intros Hw Herr Hok. unfold claim_product_mutation, require_name.
  destruct (negb _); simpl; [by apply Herr|]. split; [done|]. intros now. split; [done|].
  intros [token|e]; simpl; [by apply Hok|by apply Herr].
Qed.

Lemma wp_declared_environment {A} environment f (a : A) (guard : crit unit) w :
  idle w → (∀ o now, R o (f o now)) →
  wp fenced_R
    (do now := perform Now in
     do? h := claim_environment environment ("criticality-declared:" +:+ pretty now) in
     do r := (do? _ := Ret guard in
              do? o := load_environment environment in
              do now := perform Now in
              do? _ := perform (Update (f o now) h) in Ret (Ok a)) in
     finish_mutation h r) gave_back w.
Proof.
  intros Hw Hf. split; [done|]. intros now. apply wp_try, wp_claim_environment; [done..|].
  intros h w' Hk Hn Hh. apply wp_finish; [|done]. destruct guard as [u|e]; [|by intros w1 Hw1].
  exact (keeps_update R h EnvironmentTarget environment f a Hk Hn Hf).
Qed.

Lemma wp_declared_product {A} product f (a : A) w :
  idle w → (∀ o now, R o (f o now)) →
  wp fenced_R
    (do? h := claim_product_mutation product in
     do r := (do? o := load_product product in
              do now := perform Now in
              do? _ := perform (Update (f o now) h) in Ret (Ok a)) in
     finish_mutation h r) gave_back w.
Proof.
  intros Hw Hf. apply wp_try, wp_claim_product; [done..|]. intros h w' Hk Hn Hh.
  apply wp_finish; [|done]. exact (keeps_update R h ProductTarget product f a Hk Hn Hf).
Qed.
End FencedProofs.

Lemma import_newer o a g i m k o' :
  is_i64 g → apply_derived_if_newer o a g i m k = Ok (Some o') →
  only_touches derived_keys o o' ∧ newer o o'.
Proof.
  intros Hg H. assert (o' = write_derived o a g i m k ∧ ∀ g', generation_of o = Some g' → g' < g)
    as [-> Hlt].
  { unfold apply_derived_if_newer in H. fold (generation_of o) in H.
    destruct (generation_of o) as [g'|]; [|by injection H as <-].
    destruct (Z.ltb_spec g g'); [done|]. destruct (Z.eqb_spec g g'); [by ok_inv H|].
    injection H as <-. split; [done|]. intros ? [= <-]. lia. }
  split; [apply write_derived_touches|]. exists g. split; [|done].
  pose proof (write_derived_recorded o a g i m k Hg) as Hr. by apply (f_equal (λ r, r.1.1)) in Hr.
Qed.

Lemma wp_apply_assignment v now a w :
  is_i64 (generated_at (verified_statement v)) → idle w →
  wp (fenced (may_write (Import v now))) (apply_assignment v now a) gave_back w.
Proof.
  intros Hg Hw. unfold apply_assignment.
  assert (∀ h w', held_kind h = assigned_kind a → held_name h = assigned_name a → cw_held w' = Some h →
    wp (fenced (may_write (Import v now)))
      (do r := (do? o := load_target (assigned_kind a) (assigned_name a) in
                do? wrote := Ret (apply_derived_if_newer o a (generated_at (verified_statement v)) now
                                    (max_age_ms (verified_statement v)) (verified_key_id v)) in
                match wrote with
                | None => Ret (Ok false)
                | Some o => do? _ := perform (Update o h) in Ret (Ok true)
                end) in
       finish_mutation h r) gave_back w') as Hbody.
  { intros h w' Hk Hn Hh. apply wp_finish; [|done]. clear w' Hh. intros w' Hh.
    assert (∀ o w1, cw_held w1 = Some h → cw_read w1 = Some (target_id h, o) →
      wp (fenced (may_write (Import v now)))
        (do? wrote := Ret (apply_derived_if_newer o a (generated_at (verified_statement v)) now
                             (max_age_ms (verified_statement v)) (verified_key_id v)) in
         match wrote with
         | None => Ret (Ok false)
         | Some o => do? _ := perform (Update o h) in Ret (Ok true)
         end) (λ _ w', cw_held w' = Some h) w1) as Hwrite.
    { intros o w1 Hh1 Hr1. destruct (apply_derived_if_newer _ _ _ _ _ _) as [[o'|]|] eqn:Ha; simpl; [|done..].
      split; [|by intros [[]|]]. split; [done|]. exists o. split; [done|]. by eapply import_newer. }
    destruct (assigned_kind a); simpl; unfold load_environment, load_product, require_name.
    - destruct (negb _); simpl; [done|]. split; [done|]. intros [[o|]|]; [|done..].
      apply Hwrite; [done|]. simpl. unfold target_id. by rewrite Hk, Hn.
    - split; [done|]. intros [[o|]|]; [|done..]. apply Hwrite; [done|]. simpl. unfold target_id.
      by rewrite Hk, Hn. }
  apply wp_try. destruct (assigned_kind a) eqn:Ek;
    [apply wp_claim_environment|apply wp_claim_product]; try done;
    intros h w' Hk Hn Hh; apply Hbody; congruence.
Qed.

Lemma mutate_fenced m w :
  well_timed m → idle w → wp (fenced (may_write m)) (mutate m) (λ _, idle) w.
Proof.
  assert (∀ A (p : crit_prog A), wp (fenced (may_write m)) p gave_back w →
    wp (fenced (may_write m)) (do x := p in Ret (is_ok x)) (λ _, idle) w) as Hmap.
  { intros A p Hp. apply wp_bind. eapply wp_mono; [exact Hp|]. done. }
  intros Ht Hw. destruct m as [environment r|environment|product r|product|v now]; apply Hmap.
  - unfold set_environment. apply wp_try. destruct (require_name _ _); simpl; [|done].
    apply wp_try. destruct (require_owner_reason _ _) eqn:Hr; simpl; [|done].
    refine (wp_declared_environment _ environment (λ o now, write_declared o r now) _
              (require_owner_reason (request_owner r) (request_reason r)) w Hw _).
    intros o now. apply write_declared_touches.
  - unfold clear_environment. apply wp_try. destruct (require_name _ _); simpl; [|done].
    refine (wp_declared_environment _ environment clear_declared _ (Ok tt) w Hw _).
    intros o now. apply clear_declared_touches.
  - unfold set_product. apply wp_try. destruct (require_name _ _); simpl; [|done].
    apply wp_try. destruct (require_owner_reason _ _) eqn:Hr; simpl; [|done].
    refine (wp_declared_product _ product (λ o now, write_declared o r now) _ w Hw _).
    intros o now. apply write_declared_touches.
  - unfold clear_product. apply wp_try. destruct (require_name _ _); simpl; [|done].
    refine (wp_declared_product _ product clear_declared _ w Hw _).
    intros o now. apply clear_declared_touches.
  - unfold apply_verified. apply wp_try. destruct (refuse_generated_in_the_future _ _); simpl; [|done].
    unfold apply_assignments. apply wp_each with (I := λ _ _ w, idle w); [done| |done].
    intros n a l w1 Hw1. apply wp_try. eapply wp_mono; [by apply wp_apply_assignment|].
    by intros [[]|e] w2 Hw2.
Qed.

(** A declared level is set or cleared, and a derived one imported, only
    under the lease of that environment or product: every write names the
    lease the operation holds and replaces the object it read under it,
    changing no property but the declared or the derived ones, and an import
    only ever replaces an older generation; the lease is given back on every
    path, and a second one is never claimed while one is held. *)
Theorem criticality_writes_fenced m w {X} (e : crit_effect X) w' :
  well_timed m → cw_held w = None →
  (reaches (fenced (may_write m)) e (mutate m) w w' → crit_allowed (may_write m) e w')
  ∧ ∀ ok w'', runs (fenced (may_write m)) (mutate m) w ok w'' → cw_held w'' = None.
Proof.
  intros Ht Hw. pose proof (mutate_fenced m w Ht Hw) as Hwp. split.
  - intros Hr. exact (wp_reaches _ e _ _ _ _ Hwp Hr).
  - intros ok w'' Hr. exact (wp_runs _ _ _ _ _ _ Hwp Hr).
Qed.

(** ** An import that was signed and one that came late *)
Module CriticalityExamples.
Definition gateway : Object := {|
  object_id := product_id "gateway"; object_kind := "tenkai.product"; object_name := "gateway";
  object_namespace := NS; external_id := ""; properties := {[DECLARED_LEVEL := "medium"]};
  created := 0; updated := 0 |}.

Definition assigned (l : CriticalityLevel) : DerivedAssignment := {|
  assigned_kind := ProductTarget; assigned_name := "gateway"; assigned_level := l;
  assigned_source := "sbom"; assigned_reason := "" |}.

Definition arrival (l : CriticalityLevel) (g : Z) : Arrival := {|
  arrived := assigned l; arrived_generation := g; arrived_at := 50; arrived_max_age := 1000;
  arrived_key := "k" |}.

Definition in_order : list Arrival := [arrival High 10; arrival Low 20].
Definition late : list Arrival := [arrival Low 20; arrival High 10].

Definition imported (l : list Arrival) : Object :=
  match import_all gateway l with Ok o => o | Err _ => gateway end.

Lemma newest_derived_wins_witness :
  recorded (imported in_order) = recorded (imported late)
  ∧ ∀ x, x ∈ in_order → covers (recorded (imported in_order)) x.
Proof.
  refine (newest_derived_wins gateway in_order late (imported in_order) (imported late) _ _ _ _).
  - repeat constructor; by vm_compute.
  - apply perm_swap.
  - vm_compute. reflexivity.
  - vm_compute. reflexivity.
Defined.

(** Low and derived, the gateway still counts as medium; the environment is
    not assessed. *)
Definition store (id : string) : crit (option Object) :=
  Ok (if decide (id = product_id "gateway") then Some (imported late)
      else if decide (id = env_id "prod") then
        Some {| object_id := id; object_kind := KIND_ENVIRONMENT; object_name := "prod";
                object_namespace := NS; external_id := ""; properties := ∅; created := 0; updated := 0 |}
      else None).

Lemma targets_level_is_highest_witness :
  is_highest (Some Medium) [level_at 60 store (env_id "prod"); level_at 60 store (product_id "gateway")].
Proof.
  refine (proj1 (targets_level_is_highest 60 store "prod" ["gateway"; ""] (Some Medium) _)).
  vm_compute. reflexivity.
Defined.

Definition statement : VerifiedDerived := {|
  verified_key_id := "k";
  verified_statement := {| generated_at := 10; max_age_ms := 1000; assignments := [assigned High] |} |}.

Definition at_rest : crit_world := {| cw_held := None; cw_read := None |}.

Definition lease : Held := {| held_kind := ProductTarget; held_name := "gateway"; held_token := "t" |}.

Definition under_lease : crit_world :=
  {| cw_held := Some lease; cw_read := Some (product_id "gateway", gateway) |}.

Definition next : Object := write_derived gateway (assigned High) 10 60 1000 "k".

Lemma criticality_writes_fenced_witness :
  only_touches derived_keys gateway next ∧ newer gateway next.
Proof.
  assert (reaches (fenced (may_write (Import statement 60))) (Update next lease)
            (mutate (Import statement 60)) at_rest under_lease) as Hr.
  { refine (reaches_later _ _ _ _ 60 _ _ _). refine (reaches_later _ _ _ _ (Ok "t") _ _ _).
    refine (reaches_later _ _ _ _ (Ok (Some gateway)) _ _ _). apply reaches_here. }
  destruct (criticality_writes_fenced (Import statement 60) at_rest (Update next lease) under_lease)
    as [H _]; [by vm_compute|done|].
  destruct (H Hr) as [_ (before & Hb & Hw)]. injection Hb as <-. exact Hw.
Defined.
End CriticalityExamples.
