(* ===== verification/ApprovalPolicy.v ===== *)
(** * Automatic approval

    [approval_policy.rs]: the policy an environment names for unattended
    execution, when it lets a plan run without a human, the quorum a plan
    needs, the delivery signals of the releases a plan crosses, and the
    envelope that is written or reused at execution time. *)

From S2P Require Import Prelude RustStr Semver Kinds Facts Compatibility Contracts Plan ObjectStore Approvals ReleaseSigning HostState Catalog Criticality.

(** ** Policies *)

Inductive PolicyMode := AutoMode | ManualMode.

#[export] Instance PolicyMode_eq_dec : EqDecision PolicyMode.
Proof. solve_decision. Defined.

(** [RequireHumanRule] and [PreflightRequirement] have one field each. *)
Record ApprovalPolicy := {
  approval_version : Z;
  mode : PolicyMode;
  ttl_ms : Z;
  auto_signer_key : option string;
  require_human : list string;
  require_preflight : option Z;
  approval_quorum : list QuorumRule;
  continue_after_failure_max_criticality : option string;
  source_digest : option string
}.

Definition PLAN_APPROVAL_POLICY_PROPERTY : string := "plan_approval_policy".
Definition POLICY_VERSION : Z := 1.

Inductive policy_error :=
| NotASinglePath (path : string)
| CredentialMaterial (path : string)
| PolicyUnreadable (path : string)
| PolicyNotUtf8 (path : string)
| PolicyNotParsed (path : string)
| BadPolicyVersion
| TtlMustBePositive
| NoAutoSignerKey
| BadHumanProduct (product : string)
| PreflightAgeNotPositive
| QuorumOfNone
| BadCriticality (label value : string)
| DuplicateQuorum (purpose : string)
| BadGroup (group : string)
| EnvelopeUnreadable (path : string)
| EnvelopeNotParsed (path : string)
| ExpiryOverflow
| NotCanonical (error : approval_error)
(** The signer key's errors, by the text the code looks at. *)
| SignerKey (text : string)
| NotWritten (text : string).

Notation policy_result A := (result A policy_error).

(** What [symlink_metadata] tells of a path. *)
Record FileMeta := { is_symlink : bool; is_regular : bool; file_mode : Z; file_len : Z }.

(** The filesystem, and [toml] and [serde_json] of these types. *)
Class PolicyFiles := {
  symlink_metadata : string → option FileMeta;
  path_exists : string → bool;
  is_file : string → bool;
  read_file : string → option string;
  (** Creating the parent, opening and writing; what went wrong. *)
  write_failure : string → option string;
  is_utf8 : string → bool;
  policy_of_toml : string → option ApprovalPolicy;
  policy_json : ApprovalPolicy → string;
  envelope_of_json : string → option ApprovalEnvelope
}.

(** Ed25519 keys of a seed. *)
Class SigningKeys := { public_of_seed : string → string; sign_with : string → string → string }.

(** [validate_policy_file_path]. *)
Definition NEWLINE : ascii := ascii_of_N 10.

Definition credential_needles : list string :=
  ["-----begin "; "bearer "; "token="; "password="; "secret="].

Definition validate_policy_file_path (path : string) : policy_result unit :=
  bail_if str_is_empty path || any_byte (λ c, bool_decide (c = NUL)) path
          || any_byte (λ c, bool_decide (c = NEWLINE)) path
    with (NotASinglePath path) in
  bail_if existsb (λ needle, str_contains needle (to_ascii_lowercase path)) credential_needles
    with (CredentialMaterial path) in
  Ok tt.

Definition policy_path_from_properties (ps : gmap string string) : policy_result (option string) :=
  match ps !! PLAN_APPROVAL_POLICY_PROPERTY with
  | None => Ok None
  | Some path => let? _ := validate_policy_file_path path in Ok (Some path)
  end.

Definition parse_policy_criticality (label : string) (value : option string) : policy_result unit :=
  match value with
  | None => Ok tt
  | Some v => let? _ := ok_or (CriticalityLevel_parse v) (BadCriticality label v) in Ok tt
  end.

Definition validate_quorum (seen : gset (string * option string)) (r : QuorumRule) :
    policy_result (gset (string * option string)) :=
  bail_if rule_n r =? 0 with QuorumOfNone in
  let? _ := parse_policy_criticality "quorum min_criticality" (min_criticality r) in
  bail_if bool_decide (criticality_key r ∈ seen) with (DuplicateQuorum (purpose_str (rule_purpose r))) in
  let? _ := try_for_each (λ g, bail_if negb (valid_identifier g) with (BadGroup g) in Ok tt)
              (rule_groups r) in
  Ok ({[criticality_key r]} ∪ seen).

(** [ApprovalPolicy::validate]. *)
Definition validate_approval_policy (p : ApprovalPolicy) : policy_result unit :=
  bail_if negb (approval_version p =? POLICY_VERSION) with BadPolicyVersion in
  bail_if ttl_ms p <=? 0 with TtlMustBePositive in
  let? _ := if decide (mode p = AutoMode) then
              let? key := ok_or (auto_signer_key p) NoAutoSignerKey in
              validate_policy_file_path key
            else Ok tt in
  let? _ := try_for_each (λ product, bail_if negb (valid_identifier product)
                                       with (BadHumanProduct product) in Ok tt) (require_human p) in
  bail_if is_some_and (require_preflight p) (λ age, age <=? 0) with PreflightAgeNotPositive in
  let? _ := try_fold validate_quorum ∅ (approval_quorum p) in
  parse_policy_criticality "continue_after_failure_max_criticality"
    (continue_after_failure_max_criticality p).

(** ** What a plan needs *)

(** [quorum_purpose]. *)
Definition has_action (p : Plan) (a : Action) : bool :=
  existsb (λ s, bool_decide (step_action s = a)) (steps p).

Definition quorum_purpose (p : Plan) (skip : bool) : QuorumPurpose :=
  if skip then SkipGates
  else if has_action p Rollback then RollbackPurpose
  else if has_action p Downgrade then DowngradePurpose
  else ExecutePlan.

(** [quorum_rule]: the last of the matching rules by criticality, then [n]. *)
Definition rule_level (r : QuorumRule) : option CriticalityLevel :=
  min_criticality r ≫= CriticalityLevel_parse.

Definition rule_matches (q : QuorumPurpose) (criticality : option CriticalityLevel)
    (r : QuorumRule) : bool :=
  bool_decide (rule_purpose r = q)
  && is_none_or (min_criticality r) (λ min,
       is_some_and (CriticalityLevel_parse min) (λ min,
         is_some_and criticality (λ got, level_rank min <=? level_rank got))).

(** The order of [Option<CriticalityLevel>]: [None] first. *)
Definition level_key (l : option CriticalityLevel) : Z :=
  match l with None => -1 | Some l => level_rank l end.

Definition rule_cmp : QuorumRule → QuorumRule → comparison :=
  cmp_lex (cmp_on (λ r, level_key (rule_level r)) Z.compare) (cmp_on rule_n Z.compare).

Definition quorum_rule (p : ApprovalPolicy) (q : QuorumPurpose)
    (criticality : option CriticalityLevel) : QuorumRule :=
  default (default_quorum q)
    (last (sort_by rule_cmp (filter (λ r, rule_matches q criticality r = true) (approval_quorum p)))).

(** ** Delivery signals *)

Record DeliverySignals := {
  has_migration : bool; changes_identity_config : bool; reverses_migration : bool
}.

Definition no_signals : DeliverySignals :=
  {| has_migration := false; changes_identity_config := false; reverses_migration := false |}.

Definition flag (ps : gmap string string) (key : string) : bool :=
  is_some_and (ps !! key) (λ value, bool_decide (value = "true")).

Definition target_signals (ps : gmap string string) : DeliverySignals := {|
  has_migration := flag ps "has_migration";
  changes_identity_config := flag ps "changes_identity_config"; reverses_migration := false |}.

Definition departed_signals (ps : gmap string string) : DeliverySignals := {|
  has_migration := false; changes_identity_config := false;
  reverses_migration := flag ps "has_migration" |}.

Definition merge_signals (a b : DeliverySignals) : DeliverySignals := {|
  has_migration := has_migration a || has_migration b;
  changes_identity_config := changes_identity_config a || changes_identity_config b;
  reverses_migration := reverses_migration a || reverses_migration b |}.

Section Signals.
Context `{Semver} (ctx : Ctx).

Definition merge_found (signals : DeliverySignals) (id : string)
    (f : gmap string string → DeliverySignals) : DeliverySignals :=
  match ctx_get ctx id with
  | Some release => merge_signals signals (f (properties release))
  | None => signals
  end.

(** [ctx.list_kind(KIND_RELEASE)]. *)
Definition release_objects : list Object :=
  filter (λ o, object_kind o = KIND_RELEASE) (map_to_list (objects ctx)).*2.

Definition reverses (a : Action) : bool :=
  bool_decide (a = Downgrade) || bool_decide (a = Rollback).

(** A published version after [low] and up to [high]. *)
Definition crossed (product : string) (low high : Version) (o : Object) : bool :=
  bool_decide (properties o !! "product" = Some product)
  && is_some_and (properties o !! "version" ≫= Version_parse) (λ v,
       bool_decide (Version_cmp low v = Lt) && negb (bool_decide (Version_cmp v high = Gt))).

Definition range_of (s : Step) (from : string) : option (Version * Version) :=
  f ← Version_parse from; t ← Version_parse (step_to s); Some (f, t).

Definition step_signals (signals : DeliverySignals) (s : Step) : DeliverySignals :=
  if decide (step_action s = Restart) then signals
  else
    let signals := merge_found signals (step_release_id s) target_signals in
    let reverse := reverses (step_action s) in
    match step_from s with
    | None => signals
    | Some from =>
      match range_of s from with
      | None =>
        if reverse then merge_found signals (release_id (step_product s) from) departed_signals
        else signals
      | Some (from, to) =>
        let '(low, high) := if reverse : bool then (to, from) else (from, to) in
        foldl (λ signals release,
          if crossed (step_product s) low high release then
            merge_signals signals ((if reverse : bool then departed_signals else target_signals)
                                     (properties release))
          else signals) signals release_objects
      end
    end.

Definition delivery_signals_for_plan (p : Plan) : DeliverySignals :=
  foldl step_signals no_signals (steps p).
End Signals.

(** ** Decisions *)

Inductive ApprovalDecision := AutoDecision (evidence_id : string) | RequireHuman (reason : string).

Definition plan_mentions_product (p : Plan) (product : string) : bool :=
  existsb (λ s, bool_decide (step_product s = product)) (steps p)
  || existsb (λ i, bool_decide (input_product i = product)) (inputs p).

Definition evaluate_policy (policy : ApprovalPolicy) (p : Plan) (skip : bool)
    (signals : DeliverySignals) (criticality : option CriticalityLevel) : ApprovalDecision :=
  if negb (bool_decide (mode policy = AutoMode)) then RequireHuman "policy mode is manual"
  else if existsb (λ s, is_some_b (step_host s)) (steps p) then
    RequireHuman "host steps require human or external approval"
  else if 1 <? rule_n (quorum_rule policy (quorum_purpose p skip) criticality) then
    RequireHuman "multi-party approval requires human-signed envelopes"
  else if skip then RequireHuman "skip_gates requires a human-signed envelope"
  else if existsb (λ s, reverses (step_action s)) (steps p) then
    RequireHuman "downgrade or rollback requires a human-signed envelope"
  else if has_migration signals then RequireHuman "has_migration requires a human-signed envelope"
  else if changes_identity_config signals then
    RequireHuman "changes_identity_config requires a human-signed envelope"
  else if reverses_migration signals then
    RequireHuman "downgrade across a migration boundary requires a human-signed envelope"
  else match find_first (plan_mentions_product p) (require_human policy) with
       | Some product => RequireHuman ("product " +:+ product +:+ " requires a human-signed envelope")
       | None => AutoDecision "auto"
       end.

(** ** The signer *)

Definition digit_text (d : Z) : string := String (ascii_of_N (Z.to_N (48 + d))) "".

(** [{:o}] of a number below 0o1000. *)
Definition octal (m : Z) : string :=
  let d0 := digit_text (m mod 8) in
  let d1 := digit_text (m / 8 mod 8) in
  if m <? 8 then d0 else if m <? 64 then d1 +:+ d0 else digit_text (m / 64) +:+ d1 +:+ d0.

(** [signer_unavailable]. *)
Definition signer_unavailable (e : policy_error) : bool :=
  match e with
  | SignerKey text =>
    str_contains "signer key" text && (str_contains "not found" text || str_contains "missing" text)
  | _ => false
  end.

Section Envelopes.
Context {E : PlanEncoding} {B : Base64} {F : PolicyFiles} {K : SigningKeys}.

Definition load_signer_seed (path : string) : policy_result string :=
  let? meta := ok_or (symlink_metadata path)
                 (SignerKey (if path_exists path then "inspecting signer key " +:+ path
                             else "signer key " +:+ path +:+ " is missing")) in
  bail_if is_symlink meta with (SignerKey ("signer key " +:+ path +:+ " must not be a symlink")) in
  bail_if negb (is_regular meta) with (SignerKey ("signer key " +:+ path +:+ " must be a regular file")) in
  let mode := Z.land (file_mode meta) 511 in
  bail_if negb (Z.land mode 63 =? 0)
    with (SignerKey ("signer key " +:+ path +:+ " must be mode 0600 (or owner-only); found "
                     +:+ octal mode)) in
  bail_if negb (file_len meta =? 32)
    with (SignerKey ("signer key " +:+ path +:+ " must be exactly 32 bytes (got "
                     +:+ pretty (file_len meta) +:+ ")")) in
  ok_or (read_file path) (SignerKey ("reading signer key " +:+ path)).

(** [signature_verification::key_id] of a public key. *)
Definition key_id (public : string) : string := "sha256:" +:+ sha256_hex public.

Definition policy_signer_key_id (p : ApprovalPolicy) : policy_result (option string) :=
  match auto_signer_key p with
  | None => Ok None
  | Some path => let? seed := load_signer_seed path in Ok (Some (key_id (public_of_seed seed)))
  end.

Definition auto_signer_present (p : ApprovalPolicy) : bool :=
  is_some_and (auto_signer_key p) (λ path, is_ok (load_signer_seed path)).

(** [ApprovalPolicy::digest]. *)
Definition approval_policy_digest (p : ApprovalPolicy) : string :=
  default ("sha256:" +:+ sha256_hex (policy_json p)) (source_digest p).

(** [ApprovalPolicy::load] and [load_live_policy]. *)
Definition load_policy (path : string) : policy_result ApprovalPolicy :=
  let? _ := validate_policy_file_path path in
  let? raw := ok_or (read_file path) (PolicyUnreadable path) in
  bail_if negb (is_utf8 raw) with (PolicyNotUtf8 path) in
  let? parsed := ok_or (policy_of_toml raw) (PolicyNotParsed path) in
  let policy := {|
    approval_version := approval_version parsed; mode := mode parsed; ttl_ms := ttl_ms parsed;
    auto_signer_key := auto_signer_key parsed; require_human := require_human parsed;
    require_preflight := require_preflight parsed; approval_quorum := approval_quorum parsed;
    continue_after_failure_max_criticality := continue_after_failure_max_criticality parsed;
    source_digest := Some ("sha256:" +:+ sha256_hex raw) |} in
  let? _ := validate_approval_policy policy in
  Ok policy.

Definition load_live_policy (ps : gmap string string) : policy_result (option ApprovalPolicy) :=
  let? path := policy_path_from_properties ps in
  match path with
  | None => Ok None
  | Some path => if is_file path then let? p := load_policy path in Ok (Some p) else Ok None
  end.

(** [write_text_owner_only]: a symlink or anything but a regular file in the
    way is refused. *)
Definition write_text_owner_only (path : string) : policy_result unit :=
  bail_if is_some_and (symlink_metadata path) is_symlink
    with (NotWritten ("refusing to write through symlink " +:+ path)) in
  bail_if is_some_and (symlink_metadata path) (λ m, negb (is_regular m))
    with (NotWritten ("refusing to write " +:+ path +:+ ": not a regular file")) in
  match write_failure path with
  | Some text => Err (NotWritten text)
  | None => Ok tt
  end.

(** [sign_auto_approval]: the envelope it writes to [path]. *)
Definition i64_checked_add (a b : Z) : option Z :=
  if (i64_min <=? a + b) && (a + b <=? i64_max) then Some (a + b) else None.

Definition auto_statement (policy : ApprovalPolicy) (p : Plan) (skip : bool) (now expires : Z)
    (evidence : string) : ApprovalStatement := {|
  plan_digest := "sha256:" +:+ executable_digest p; stmt_environment := plan_environment p;
  purpose := PURPOSE; skip_gates := skip; issued_at := now; expires_at := expires;
  policy_provider := POLICY_PROVIDER; policy_evidence_id := evidence;
  policy_digest := approval_policy_digest policy |}.

Definition sign_auto_approval (policy : ApprovalPolicy) (p : Plan) (skip : bool) (now : Z)
    (evidence path : string) : policy_result ApprovalEnvelope :=
  let? key_path := ok_or (auto_signer_key policy) NoAutoSignerKey in
  let? seed := load_signer_seed key_path in
  let? expires := ok_or (i64_checked_add now (ttl_ms policy)) ExpiryOverflow in
  let st := auto_statement policy p skip now expires evidence in
  let? bytes := map_err NotCanonical (canonical_bytes st) in
  let e := {| schema := APPROVAL_SCHEMA; envelope_key_id := key_id (public_of_seed seed);
              statement := st; signature := base64_encode (sign_with seed bytes) |} in
  let? _ := write_text_owner_only path in
  Ok e.

(** ** At execution time *)

Definition read_envelope (path : string) : policy_result ApprovalEnvelope :=
  let? raw := ok_or (read_file path) (EnvelopeUnreadable path) in
  ok_or (envelope_of_json raw) (EnvelopeNotParsed path).

Definition is_auto_envelope (path : string) : policy_result bool :=
  let? e := read_envelope path in
  Ok (bool_decide (policy_provider (statement e) = POLICY_PROVIDER)).

Definition auto_envelope_current (path : string) (policy : ApprovalPolicy) (now : Z) :
    policy_result bool :=
  let? e := read_envelope path in
  if negb (now <? expires_at (statement e))
     || negb (bool_decide (policy_digest (statement e) = approval_policy_digest policy)) then Ok false
  else
    let? key := policy_signer_key_id policy in
    Ok (bool_decide (key = Some (envelope_key_id e))).

(** [AutoEnvelope], with the envelope written, if one was. *)
Inductive AutoEnvelope := Signed (path : string) (written : option ApprovalEnvelope) | NeedsHuman.

Definition envelope_path (directory : string) (p : Plan) : string :=
  directory +:+ "/" +:+ plan_id_of p +:+ ".json".

Definition live_decision (policy : option ApprovalPolicy) (p : Plan) (skip : bool)
    (signals : DeliverySignals) (criticality : option CriticalityLevel) : ApprovalDecision :=
  match policy with
  | None => RequireHuman "no plan approval policy"
  | Some policy => evaluate_policy policy p skip signals criticality
  end.

(** Sign anew, once nothing in place could be used. *)
Definition sign_or_ask (policy : option ApprovalPolicy) (live : ApprovalDecision) (p : Plan)
    (skip : bool) (now : Z) (path : string) : policy_result AutoEnvelope :=
  match live, policy with
  | AutoDecision evidence, Some policy =>
    match sign_auto_approval policy p skip now evidence path with
    | Ok e => Ok (Signed path (Some e))
    | Err error => if signer_unavailable error then Ok NeedsHuman else Err error
    end
  | _, _ => Ok NeedsHuman
  end.

Definition resolve_auto_envelope (ps : gmap string string) (p : Plan) (skip : bool)
    (signals : DeliverySignals) (directory : string) (now : Z)
    (criticality : option CriticalityLevel) : policy_result AutoEnvelope :=
  let path := envelope_path directory p in
  let? policy := load_live_policy ps in
  let live := live_decision policy p skip signals criticality in
  if is_file path then
    let? auto := is_auto_envelope path in
    if negb auto then Ok (Signed path None)
    else
      match live, policy with
      | AutoDecision _, Some live_policy =>
        if negb (auto_signer_present live_policy) then Ok NeedsHuman
        else
          let? current := auto_envelope_current path live_policy now in
          if current : bool then Ok (Signed path None) else sign_or_ask policy live p skip now path
      | _, _ => Ok NeedsHuman
      end
  else sign_or_ask policy live p skip now path.
End Envelopes.

(** ** The rule that counts *)

(** No matching rule asks for a higher criticality, or for more signers at the
    same one, than the rule chosen. *)
Lemma quorum_rule_spec p q c :
  (∃ r, quorum_rule p q c = r ∧ r ∈ approval_quorum p ∧ rule_matches q c r = true
        ∧ ∀ r', r' ∈ approval_quorum p → rule_matches q c r' = true → rule_cmp r' r ≠ Gt)
  ∨ quorum_rule p q c = default_quorum q
    ∧ ∀ r, r ∈ approval_quorum p → rule_matches q c r = false.
Proof.
  unfold quorum_rule. destruct (last _) as [r|] eqn:Hl; simpl.
  - left. exists r. apply sort_by_last_max in Hl as [[Hm Hin]%list_elem_of_filter Hmax];
      [|apply cmp_lex_ordered; apply _].
    split_and!; [done..|]. intros r' Hr' Hm'. apply Hmax. by apply list_elem_of_filter.
  - right. split; [done|]. apply last_None in Hl. intros r Hr.
    destruct (rule_matches q c r) eqn:Hm; [|done]. exfalso.
    assert (r ∈ sort_by rule_cmp (filter (λ r, rule_matches q c r = true) (approval_quorum p))) as Hs
      by (by apply elem_of_sort_by, list_elem_of_filter).
    rewrite Hl in Hs. by apply elem_of_nil in Hs.
Qed.

(** ** Signals *)

Section SignalProofs.
Context `{Semver} (ctx : Ctx).

(** The releases a step moves to or through, and those it leaves behind. *)
Definition passes (s : Step) (o : Object) : Prop :=
  ∃ from v w, step_from s = Some from ∧ range_of s from = Some (v, w) ∧ o ∈ release_objects ctx
    ∧ crossed (step_product s) (if reverses (step_action s) then w else v)
        (if reverses (step_action s) then v else w) o = true.

Definition moves_to (s : Step) (o : Object) : Prop :=
  step_action s ≠ Restart
  ∧ (ctx_get ctx (step_release_id s) = Some o ∨ reverses (step_action s) = false ∧ passes s o).

Definition leaves (s : Step) (o : Object) : Prop :=
  reverses (step_action s) = true
  ∧ (passes s o
     ∨ ∃ from, step_from s = Some from ∧ range_of s from = None
               ∧ ctx_get ctx (release_id (step_product s) from) = Some o).

(** What a signal of the merged set says about the releases. *)
Record signals_from (to away : Object → Prop) (before after : DeliverySignals) : Prop := {
  sf_migration : has_migration after = true ↔
    has_migration before = true ∨ ∃ o, to o ∧ flag (properties o) "has_migration" = true;
  sf_identity : changes_identity_config after = true ↔
    changes_identity_config before = true
    ∨ ∃ o, to o ∧ flag (properties o) "changes_identity_config" = true;
  sf_reverses : reverses_migration after = true ↔
    reverses_migration before = true ∨ ∃ o, away o ∧ flag (properties o) "has_migration" = true
}.

Definition none (_ : Object) : Prop := False.

Lemma signals_from_none a : signals_from none none a a.
Proof. split; unfold none; naive_solver. Qed.

Lemma signals_from_trans t1 t2 a1 a2 x y z :
  signals_from t1 a1 x y → signals_from t2 a2 y z →
  signals_from (λ o, t1 o ∨ t2 o) (λ o, a1 o ∨ a2 o) x z.
Proof. intros [H1 H2 H3] [K1 K2 K3]. split; [rewrite K1, H1|rewrite K2, H2|rewrite K3, H3]; naive_solver. Qed.

Lemma signals_from_iff t a t' a' x y :
  signals_from t a x y → (∀ o, t o ↔ t' o) → (∀ o, a o ↔ a' o) → signals_from t' a' x y.
Proof.
  intros [H1 H2 H3] Ht Ha. split; [rewrite H1|rewrite H2|rewrite H3];
    setoid_rewrite Ht || setoid_rewrite Ha; done.
Qed.

Lemma merge_target x o : signals_from (eq o) none x (merge_signals x (target_signals (properties o))).
Proof.
  split; simpl; unfold none; rewrite ?orb_true_iff, ?orb_false_r; try naive_solver.
Qed.

Lemma merge_departed x o : signals_from none (eq o) x (merge_signals x (departed_signals (properties o))).
Proof.
  split; simpl; unfold none; rewrite ?orb_true_iff, ?orb_false_r; try naive_solver.
Qed.

Lemma merge_found_target x id :
  signals_from (λ o, ctx_get ctx id = Some o) none x (merge_found ctx x id target_signals).
Proof.
  unfold merge_found. destruct (ctx_get ctx id) as [o|].
  - eapply signals_from_iff; [apply merge_target|naive_solver|done].
  - eapply signals_from_iff; [apply signals_from_none|unfold none; naive_solver|done].
Qed.

Lemma merge_found_departed x id :
  signals_from none (λ o, ctx_get ctx id = Some o) x (merge_found ctx x id departed_signals).
Proof.
  unfold merge_found. destruct (ctx_get ctx id) as [o|].
  - eapply signals_from_iff; [apply merge_departed|done|naive_solver].
  - eapply signals_from_iff; [apply signals_from_none|done|unfold none; naive_solver].
Qed.

Lemma crossed_fold (reverse : bool) product low high l x :
  signals_from
    (λ o, reverse = false ∧ o ∈ l ∧ crossed product low high o = true)
    (λ o, reverse = true ∧ o ∈ l ∧ crossed product low high o = true) x
    (foldl (λ signals release,
       if crossed product low high release then
         merge_signals signals ((if reverse then departed_signals else target_signals) (properties release))
       else signals) x l).
Proof.
  revert x. induction l as [|o l IH]; intros x; simpl.
  { eapply signals_from_iff; [apply signals_from_none|..]; intros o; rewrite elem_of_nil;
      unfold none; naive_solver. }
  destruct (crossed product low high o) eqn:Hc.
  - destruct reverse;
      [pose proof (merge_departed x o) as Ho|pose proof (merge_target x o) as Ho];
      (eapply signals_from_iff; [eapply signals_from_trans; [exact Ho|apply IH]|..]);
      intros o'; rewrite elem_of_cons; unfold none; naive_solver.
  - eapply signals_from_iff; [apply IH|..]; intros o'; rewrite elem_of_cons;
      (split; [by intros (? & ? & ?); auto|intros (? & [->|?] & ?); [congruence|done]]).
Qed.

Lemma step_signals_from x s : signals_from (moves_to s) (leaves s) x (step_signals ctx x s).
Proof.
  unfold step_signals. case_decide as Hr.
  { eapply signals_from_iff; [apply signals_from_none|..]; intros o; (split; [done|]);
      intros [Hm _]; [done|by rewrite Hr in Hm]. }
  pose proof (merge_found_target x (step_release_id s)) as Hp. unfold moves_to, leaves, passes.
  destruct (step_from s) as [from|] eqn:Hf; [destruct (range_of s from) as [[f t]|] eqn:Hrange|].
  - pose proof (crossed_fold (reverses (step_action s)) (step_product s)
      (if reverses (step_action s) then t else f) (if reverses (step_action s) then f else t)
      (release_objects ctx)) as Hc.
    destruct (reverses (step_action s));
      (eapply signals_from_iff; [eapply signals_from_trans; [exact Hp|apply Hc]|..]);
      intros o; unfold none; naive_solver.
  - destruct (reverses (step_action s));
      (eapply signals_from_iff;
         [first [exact Hp|eapply signals_from_trans; [exact Hp|apply merge_found_departed]]|..]);
      intros o; unfold none; naive_solver.
  - eapply signals_from_iff; [exact Hp|..]; intros o; unfold none; naive_solver.
Qed.

Lemma plan_signals_from x l :
  signals_from (λ o, ∃ s, s ∈ l ∧ moves_to s o) (λ o, ∃ s, s ∈ l ∧ leaves s o) x
    (foldl (step_signals ctx) x l).
Proof.
  revert x. induction l as [|s l IH]; intros x; simpl.
  { eapply signals_from_iff; [apply signals_from_none|..]; intros o; setoid_rewrite elem_of_nil;
      unfold none; naive_solver. }
  eapply signals_from_iff; [eapply signals_from_trans; [apply step_signals_from|apply IH]|..];
    intros o; setoid_rewrite elem_of_cons; naive_solver.
Qed.

(** The signals a plan is judged by are exactly those of the releases it
    crosses: it reports a migration or an identity change when a step other
    than a restart moves to, or an upgrade moves through, a published release
    that declares it, and a reversed migration when a downgrade or rollback
    leaves one behind, also one between the two versions. *)
Theorem delivery_signals_exact p :
  let signals := delivery_signals_for_plan ctx p in
  let moved key := ∃ s o, s ∈ steps p ∧ moves_to s o ∧ flag (properties o) key = true in
  (has_migration signals = true ↔ moved "has_migration")
  ∧ (changes_identity_config signals = true ↔ moved "changes_identity_config")
  ∧ (reverses_migration signals = true ↔
     ∃ s o, s ∈ steps p ∧ leaves s o ∧ flag (properties o) "has_migration" = true).
Proof.
  intros signals moved. destruct (plan_signals_from no_signals (steps p)) as [H1 H2 H3].
  unfold signals, delivery_signals_for_plan, moved. rewrite H1, H2, H3. clear. simpl.
  split_and!; (split; [intros [?|(o & (s & ? & ?) & ?)]; [done|by exists s, o]|]);
    intros (s & o & ? & ? & ?); right; exists o; (split; [by exists s|done]).
Qed.
End SignalProofs.

(** ** What an envelope stands for *)

Section AutoProofs.
Context {E : PlanEncoding} {B : Base64} {F : PolicyFiles} {K : SigningKeys}.

(** The policy leaves the plan to run on its own. *)
Record auto_allowed (policy : ApprovalPolicy) (p : Plan) (signals : DeliverySignals)
    (criticality : option CriticalityLevel) : Prop := {
  aa_mode : mode policy = AutoMode;
  aa_host : ∀ s, s ∈ steps p → step_host s = None;
  aa_quorum : rule_n (quorum_rule policy (quorum_purpose p false) criticality) ≤ 1;
  aa_forward : ∀ s, s ∈ steps p → reverses (step_action s) = false;
  aa_signals : signals = no_signals;
  aa_products : ∀ product, product ∈ require_human policy →
    (∀ s, s ∈ steps p → step_product s ≠ product) ∧ (∀ i, i ∈ inputs p → input_product i ≠ product)
}.

Lemma existsb_none {A} (f : A → bool) l : existsb f l = false ↔ ∀ a, a ∈ l → f a = false.
Proof.
  rewrite <-not_true_iff_false, existsb_elem. split.
  - intros Hn a Ha. destruct (f a) eqn:Hf; [|done]. exfalso. by apply Hn; exists a.
  - intros Hall (a & Ha & Hf). by rewrite Hall in Hf.
Qed.

Lemma evaluate_policy_auto policy p skip signals criticality e :
  evaluate_policy policy p skip signals criticality = AutoDecision e ↔
  e = "auto" ∧ skip = false ∧ auto_allowed policy p signals criticality.
Proof.
  split.
  - unfold evaluate_policy. intros H. repeat (case_match; [done|]).
    match goal with H : find_first _ _ = None |- _ => rename H into Hp end.
    rewrite find_first_none in Hp. destruct skip; [done|]. injection H as <-. split_and!; [done..|].
    split.
    + destruct (mode policy); [done|]. by rewrite bool_decide_false in *.
    + match goal with H : existsb (λ s, is_some_b _) _ = false |- _ => rewrite existsb_none in H; rename H into Hh end.
      intros s Hs. specialize (Hh s Hs). by destruct (step_host s).
    + match goal with H : (1 <? _) = false |- _ => by apply Z.ltb_ge in H end.
    + by match goal with H : existsb (λ s, reverses _) _ = false |- _ => rewrite existsb_none in H end.
    + destruct signals. simpl in *. by subst.
    + intros product Hin. specialize (Hp product Hin). unfold plan_mentions_product in Hp.
      rewrite orb_false_iff, !existsb_none in Hp. destruct Hp as [Hs Hi].
      split; [intros s Hs'; specialize (Hs s Hs')|intros i Hi'; specialize (Hi i Hi')];
        by rewrite bool_decide_eq_false in *.
  - intros (-> & -> & [Hm Hh Hq Hf -> Hp]). unfold evaluate_policy.
    rewrite bool_decide_true by done. cbn [negb].
    rewrite (proj2 (existsb_none _ _)) by (intros s Hs; by rewrite Hh).
    rewrite (proj2 (Z.ltb_ge _ _) Hq), (proj2 (existsb_none _ _)) by done. simpl.
    rewrite (proj2 (find_first_none _ _)); [done|]. intros product Hin. destruct (Hp product Hin) as [Hs Hi].
    unfold plan_mentions_product. rewrite orb_false_iff, !existsb_none.
    split; intros x Hx; apply bool_decide_eq_false; auto.
Qed.

(** What a signed envelope at [path] rests on: an approval somebody else
    wrote, or the environment's live policy. *)
Inductive authorized_by (ps : gmap string string) (p : Plan) (skip : bool)
    (signals : DeliverySignals) (now : Z) (criticality : option CriticalityLevel) (path : string) :
    option ApprovalEnvelope → Prop :=
| by_others e :
    read_envelope path = Ok e → policy_provider (statement e) ≠ POLICY_PROVIDER →
    authorized_by ps p skip signals now criticality path None
| by_policy policy e written :
    load_live_policy ps = Ok (Some policy) → skip = false →
    auto_allowed policy p signals criticality →
    policy_signer_key_id policy = Ok (Some (envelope_key_id e)) →
    policy_digest (statement e) = approval_policy_digest policy →
    policy_provider (statement e) = POLICY_PROVIDER → now < expires_at (statement e) →
    (written = None ∧ read_envelope path = Ok e
     ∨ written = Some e
       ∧ statement e = auto_statement policy p false now (now + ttl_ms policy) "auto"
       ∧ now + ttl_ms policy ≤ i64_max) →
    authorized_by ps p skip signals now criticality path written.

Lemma live_policy_ttl ps policy : load_live_policy ps = Ok (Some policy) → 0 < ttl_ms policy.
Proof.
  unfold load_live_policy. intros H. ok_inv H. destruct x as [path|]; [|done].
  destruct (is_file path); [|done]. ok_inv H. injection H as ->.
  assert (validate_approval_policy policy = Ok tt) as Hv.
  { unfold load_policy in Hg0. ok_inv Hg0. injection Hg0 as <-. by destruct x2. }
  unfold validate_approval_policy in Hv. ok_inv Hv. by apply Z.leb_gt.
Qed.

Lemma sign_auto_approval_ok policy p skip now evidence path e :
  sign_auto_approval policy p skip now evidence path = Ok e →
  policy_signer_key_id policy = Ok (Some (envelope_key_id e))
  ∧ statement e = auto_statement policy p skip now (now + ttl_ms policy) evidence
  ∧ now + ttl_ms policy ≤ i64_max
  ∧ ∃ key seed bytes, auto_signer_key policy = Some key ∧ load_signer_seed key = Ok seed
      ∧ envelope_key_id e = key_id (public_of_seed seed) ∧ schema e = APPROVAL_SCHEMA
      ∧ canonical_bytes (statement e) = Ok bytes
      ∧ signature e = base64_encode (sign_with seed bytes).
Proof.
  unfold sign_auto_approval. intros H. ok_inv H. injection H as <-. simpl.
  unfold policy_signer_key_id. rewrite Hg, Hg0. unfold i64_checked_add in Hg1.
  destruct ((_ <=? _) && _) eqn:Hb; [|done]. injection Hg1 as <-.
  apply andb_true_iff in Hb as [_ Hb%Z.leb_le]. split_and!; [done..|].
  by exists x, x0, x2.
Qed.

Lemma sign_or_ask_authorized ps policy p skip signals now criticality path path' written :
  load_live_policy ps = Ok policy →
  sign_or_ask policy (live_decision policy p skip signals criticality) p skip now path
    = Ok (Signed path' written) →
  path' = path ∧ authorized_by ps p skip signals now criticality path written.
Proof.
  intros Hl. unfold sign_or_ask, live_decision. destruct policy as [policy|]; [|done].
  destruct (evaluate_policy _ _ _ _ _) as [evidence|] eqn:He; [|done].
  apply evaluate_policy_auto in He as (-> & -> & Ha).
  destruct (sign_auto_approval _ _ _ _ _ _) as [e|error] eqn:Hs; [|by destruct (signer_unavailable error)].
  intros [= <- <-]. split; [done|]. apply sign_auto_approval_ok in Hs as (Hk & Hst & Hmax & _).
  pose proof (live_policy_ttl ps policy Hl). apply (by_policy _ _ _ _ _ _ _ policy e); try done.
  - by rewrite Hst.
  - by rewrite Hst.
  - rewrite Hst. simpl. lia.
  - by right.
Qed.

(** C24: execution goes ahead without asking a human only on one of two
    grounds.  Either an approval not written by the automatic signer is in
    place (and is verified in turn), or the policy the environment names now
    is valid and lets this plan through (automatic mode, no host step, at
    most one approver required at the plan's criticality, gates not skipped,
    no downgrade or rollback, no migration, identity change or reversed
    migration, no product that needs a human), and the envelope carries that
    policy's digest and its signer's key and has not expired; a new one is
    bound to this plan, environment and lifetime.  So removing or changing
    the policy or the key revokes what was signed before. *)
Theorem automatic_approval_sound ps p skip signals directory now criticality path written :
  resolve_auto_envelope ps p skip signals directory now criticality = Ok (Signed path written) →
  path = envelope_path directory p ∧ authorized_by ps p skip signals now criticality path written.
Proof.
  unfold resolve_auto_envelope. intros H. apply bind_ok in H as (policy & Hl & H).
  set (at_path := envelope_path directory p) in *.
  assert (sign_or_ask policy (live_decision policy p skip signals criticality) p skip now at_path
          = Ok (Signed path written) →
          path = at_path ∧ authorized_by ps p skip signals now criticality path written) as Hsign.
  { intros Hs. by apply (sign_or_ask_authorized ps) in Hs as [-> Ha]. }
  destruct (is_file at_path); [|by apply Hsign]. apply bind_ok in H as (auto & Hauto & H).
  unfold is_auto_envelope in Hauto. apply bind_ok in Hauto as (e & Hread & Hauto). injection Hauto as <-.
  case_bool_decide as Hp; simpl in H; [|injection H as <- <-; split; [done|by eapply by_others]].
  destruct (live_decision policy p skip signals criticality) as [evidence|] eqn:Hlive; [|done].
  destruct policy as [policy|]; [|done]. destruct (auto_signer_present policy); [|done]. simpl in H.
  apply bind_ok in H as (current & Hc & H). destruct current; [|by apply Hsign].
  injection H as <- <-. split; [done|]. apply evaluate_policy_auto in Hlive as (-> & -> & Ha).
  unfold auto_envelope_current in Hc. rewrite Hread in Hc. simpl in Hc.
  destruct (negb _ || _) eqn:Hb; [done|]. apply orb_false_iff in Hb as [Hn Hd].
  rewrite negb_false in Hn, Hd. apply bool_decide_eq_true in Hd. apply Z.ltb_lt in Hn.
  apply bind_ok in Hc as (key & Hk & Hc). injection Hc as Hc. apply bool_decide_eq_true in Hc as ->.
  apply (by_policy _ _ _ _ _ _ _ policy e); try done. by left.
Qed.

Lemma written_by_policy ps p skip signals directory now criticality path e :
  resolve_auto_envelope ps p skip signals directory now criticality = Ok (Signed path (Some e)) →
  ∃ policy, load_live_policy ps = Ok (Some policy)
    ∧ ∃ evidence, sign_auto_approval policy p skip now evidence path = Ok e.
Proof.
  assert (∀ policy live at_path,
    sign_or_ask policy live p skip now at_path = Ok (Signed path (Some e)) →
    ∃ pol, policy = Some pol ∧ ∃ evidence, sign_auto_approval pol p skip now evidence path = Ok e) as Hsign.
  { intros policy live at_path. unfold sign_or_ask. destruct live as [evidence|], policy as [pol|]; try done.
    destruct (sign_auto_approval _ _ _ _ _ _) as [e'|error] eqn:Hs; [|by destruct (signer_unavailable error)].
    intros [= <- <-]. eauto. }
  unfold resolve_auto_envelope. intros H. apply bind_ok in H as (policy & Hl & H).
  assert (∃ pol, policy = Some pol ∧ ∃ evidence, sign_auto_approval pol p skip now evidence path = Ok e)
    as (pol & -> & Hs); [|by exists pol].
  destruct (is_file _); [|by eapply Hsign]. apply bind_ok in H as (auto & _ & H).
  destruct (negb auto); [done|]. destruct (live_decision _ _ _ _ _) eqn:Hlive; [|done].
  destruct policy as [policy|]; [|done]. destruct (negb _); [done|].
  apply bind_ok in H as ([] & _ & H); [done|by eapply Hsign].
Qed.

(** ** The automatic signer's envelopes verify *)

(** Documented behaviour of Ed25519: a seed's signatures verify under its
    public key, which is a valid key under its own id. *)
Class SigningLaws (C : Crypto) : Prop := {
  sign_verifies seed m :
    verify_strict (base64_encode (public_of_seed seed)) (base64_encode (sign_with seed m)) m = true;
  seed_key_well_formed seed :
    well_formed_key (base64_encode (public_of_seed seed)) (key_id (public_of_seed seed)) = true
}.

(** The trust roots hold the policy's signer, scoped as an automatic signer
    must be. *)
Record scoped_signer (C : Crypto) (policy : ApprovalPolicy) (p : Plan) (roots : TrustRoots)
    (at_ms : Z) (s : TrustedSigner) : Prop := {
  ss_trusted : ∀ key seed, auto_signer_key policy = Some key → load_signer_seed key = Ok seed →
    roots_signer roots (key_id (public_of_seed seed)) = Ok s
    ∧ public_key s = base64_encode (public_of_seed seed);
  ss_window : window_check (not_before s) (not_after s) (identity s) at_ms = Ok tt;
  ss_environment : plan_environment p ∈ environments s;
  ss_provider : providers s = [POLICY_PROVIDER];
  ss_live : is_revoked (signer_key_id s) = false
}.

(** What the automatic signer writes is what verification accepts: from
    the time it is signed until it expires, the envelope verifies for this
    plan and these gates under trust roots that hold the policy's signer with
    the scope automatic signers need. *)
Theorem automatic_approval_verifies `{C : Crypto} `{!SigningLaws C} ps p skip signals directory now
    criticality path e policy roots s at_ms :
  resolve_auto_envelope ps p skip signals directory now criticality = Ok (Signed path (Some e)) →
  load_live_policy ps = Ok (Some policy) →
  scoped_signer C policy p roots at_ms s → now ≤ at_ms < now + ttl_ms policy →
  is_ok (verify_envelope p e roots at_ms skip) = true.
Proof.
  intros Hres Hlive [Hs Hwin Henv Hprov Hrev] Hat.
  destruct (written_by_policy _ _ _ _ _ _ _ _ _ Hres) as (policy' & Hlive' & ev & Hsign).
  rewrite Hlive in Hlive'. injection Hlive' as <-.
  apply sign_auto_approval_ok in Hsign as (_ & Hst & _ & key & seed & bytes & Hk & Hseed & Hid & Hsc & Hb & Hsig).
  destruct (Hs key seed Hk Hseed) as [Hroots Hpub].
  assert (signer_key_id s = key_id (public_of_seed seed)) as Hsid by (by apply roots_signer_ok in Hroots as [_ ?]).
  unfold verify_envelope. rewrite Hsc, Hid, Hroots, Hst. cbn [plan_digest stmt_environment skip_gates
    issued_at expires_at policy_provider auto_statement].
  rewrite !bool_decide_true by done. rewrite Bool.eqb_reflx. cbn [negb orb].
  rewrite (proj2 (Z.ltb_ge _ _)) by lia. rewrite (proj2 (Z.leb_gt _ _)) by lia.
  rewrite Hwin, Hprov, Hrev, Hpub, Hsid, seed_key_well_formed. rewrite <-Hst, Hb, Hsig, sign_verifies.
  rewrite (bool_decide_false (environments s = [])) by (intros He; rewrite He in Henv; by apply elem_of_nil in Henv).
  rewrite (bool_decide_true (_ ∈ environments s)) by done. done.
Qed.
End AutoProofs.

(** ** An upgrade that needs nobody, and one that does *)
Module PolicyExamples.
#[local] Existing Instance ApprovalExamples.fixed_digest.
#[local] Existing Instance ApprovalExamples.transparent.
#[local] Existing Instances SigningExamples.fixed_base64 PlainSemver.instance.

Definition policy : ApprovalPolicy := {|
  approval_version := 1; mode := AutoMode; ttl_ms := 100; auto_signer_key := Some "/etc/key";
  require_human := ["db"]; require_preflight := None;
  approval_quorum := [{| rule_purpose := ExecutePlan; rule_n := 2; rule_groups := [];
                         exclude_requester := false; min_criticality := Some "high" |}];
  continue_after_failure_max_criticality := None; source_digest := None |}.

(** The policy and its signer's key exist; no envelope does. *)
#[local] Instance files : PolicyFiles := {|
  symlink_metadata path :=
    if decide (path = "/etc/key") then
      Some {| is_symlink := false; is_regular := true; file_mode := 384; file_len := 32 |}
    else None;
  path_exists path := false;
  is_file path := bool_decide (path = "/etc/policy");
  read_file path := Some path;
  write_failure _ := None; is_utf8 _ := true; policy_of_toml _ := Some policy;
  policy_json _ := ""; envelope_of_json _ := None |}.

#[local] Instance keys : SigningKeys := {| public_of_seed seed := seed; sign_with _ m := m |}.

Definition step (product : string) : Step := {|
  step_id := "s"; step_order := 0; step_product := product; step_instance := "";
  step_action := Upgrade; step_from := Some "1.0.0"; step_to := "1.2.0";
  step_release_id := release_id product "1.2.0"; step_release_digest := "";
  step_artifact_digest := ""; step_workdir := ""; step_restore := None; step_host := None |}.

Definition plan (product : string) : Plan := {|
  format_version := 1; plan_id_of := "p"; content_id := ""; plan_environment := "prod";
  created_at := 7; inputs := []; steps := [step product]; plan_state := Computed;
  gates_skipped := None; status_detail := ""; maintenance_blocked := false;
  prior_warnings := []; recalled_recovery_reason := None; credential_runway := None |}.

Definition environment : gmap string string := {[PLAN_APPROVAL_POLICY_PROPERTY := "/etc/policy"]}.

Definition resolve (product : string) (c : option CriticalityLevel) : policy_result AutoEnvelope :=
  resolve_auto_envelope environment (plan product) false no_signals "/approvals" 10 c.

Definition envelope : ApprovalEnvelope :=
  match resolve "api" None with
  | Ok (Signed _ (Some e)) => e
  | _ => ApprovalExamples.envelope ""
  end.

Definition live : ApprovalPolicy := match load_live_policy environment with Ok (Some p) => p | _ => policy end.

Lemma automatic_approval_sound_witness :
  "/approvals/p.json" = envelope_path "/approvals" (plan "api")
  ∧ authorized_by environment (plan "api") false no_signals 10 None "/approvals/p.json" (Some envelope).
Proof.
  refine (automatic_approval_sound environment (plan "api") false no_signals "/approvals" 10 None
            "/approvals/p.json" (Some envelope) _).
  vm_compute. reflexivity.
Defined.

Definition signer : TrustedSigner := {|
  signer_key_id := "sha256:" +:+ ApprovalExamples.zeros; identity := "auto"; public_key := "/etc/key";
  environments := ["prod"]; providers := [POLICY_PROVIDER]; groups := []; not_before := None;
  not_after := None |}.

Definition roots : TrustRoots := {| roots_version := 1; signers := [signer] |}.

Lemma automatic_approval_verifies_witness :
  is_ok (verify_envelope (plan "api") envelope roots 50 false) = true.
Proof.
  assert (SigningLaws ApprovalExamples.transparent).
  { split; [|done]. intros seed m. by apply bool_decide_eq_true. }
  refine (automatic_approval_verifies environment (plan "api") false no_signals "/approvals" 10 None
            "/approvals/p.json" envelope live roots signer 50 _ _ _ _).
  - vm_compute. reflexivity.
  - vm_compute. reflexivity.
  - split; [|done|left|done|done]. intros key seed Hk Hseed. vm_compute in Hk. injection Hk as <-.
    vm_compute in Hseed. injection Hseed as <-. done.
  - done.
Defined.

(** Two people must approve at high criticality; a listed product always needs
    one. *)
Example high_needs_two : resolve "api" (Some High) = Ok NeedsHuman.
Proof. vm_compute. reflexivity. Qed.

Example listed_needs_human : resolve "db" None = Ok NeedsHuman.
Proof. vm_compute. reflexivity. Qed.

(** The refusal to use a group-readable key is an error, unless the key's path
    happens to contain the word the code takes for an absent key. *)
Example refused_key_path_matters :
  signer_unavailable (SignerKey ("signer key " +:+ "/etc/key" +:+ " must be a regular file")) = false
  ∧ signer_unavailable (SignerKey ("signer key " +:+ "/missing/key" +:+ " must be a regular file")) = true.
Proof. vm_compute. done. Qed.
End PolicyExamples.
