(* ===== verification/Topology.v ===== *)
(** * Replica topologies

    [topology.rs]: a release may name the environments that are replicas of
    one another, the placement fact that must differ between them, and how
    many of them must stay available while another one changes. *)

From S2P Require Import Prelude RustStr Semver Kinds Facts Compatibility Contracts Plan ObjectStore Approvals HostState Catalog.

Inductive AntiAffinity := AffinityHost | AffinityZone.

(** [AntiAffinity::fact]. *)
Definition affinity_fact (a : AntiAffinity) : string :=
  match a with AffinityHost => "host" | AffinityZone => "zone" end.

Record TopologySection := {
  topology_name : string; topology_environments : list string;
  anti_affinity : AntiAffinity; min_available : option Z
}.

Inductive topology_error :=
| TopologyUnnamed
| TooFewReplicas (topology : string)
| MinimumOutOfRange (topology : string)
| ReplicaListedTwice (environment : string)
| NotAReplica (environment topology : string)
| ReplicaFactMissing (replica fact : string)
| ReplicasShare (fact value first second : string)
| BelowMinimum (environment : string) (up minimum : Z)
| TopologyReleaseMissing (release : string)
| TopologyManifest (release : string)
| TopologyRead (error : planning_error).

(** ** Declarations *)

Definition validate_replica (seen : list string) (environment : string) :
    result (list string) topology_error :=
  bail_if str_is_empty (trim environment) || bool_decide (environment ∈ seen)
    with (ReplicaListedTwice environment) in
  Ok (environment :: seen).

(** [TopologySection::validate]. *)
Definition validate_topology (t : TopologySection) : result unit topology_error :=
  bail_if str_is_empty (trim (topology_name t)) with TopologyUnnamed in
  let replicas := Z.of_nat (length (topology_environments t)) in
  bail_if replicas <? 2 with (TooFewReplicas (topology_name t)) in
  bail_if match min_available t with
          | Some minimum => (minimum =? 0) || (replicas <=? minimum)
          | None => false
          end with (MinimumOutOfRange (topology_name t)) in
  let? _ := try_fold validate_replica [] (topology_environments t) in
  Ok tt.

(** ** Placement *)

(** The [placed] map from the fact's values to the replicas that have them. *)
Definition place (t : TopologySection) (facts : gmap string (gmap string string))
    (placed : gmap string string) (member : string) : result (gmap string string) topology_error :=
  let key := affinity_fact (anti_affinity t) in
  match facts !! member ≫= lookup key with
  | None => Err (ReplicaFactMissing member key)
  | Some value =>
    match placed !! value with
    | Some other => Err (ReplicasShare key value other member)
    | None => Ok (<[value := member]> placed)
    end
  end.

(** [check_placement]. *)
Definition check_placement (t : TopologySection) (environment : string)
    (facts : gmap string (gmap string string)) : result unit topology_error :=
  bail_if negb (bool_decide (environment ∈ topology_environments t))
    with (NotAReplica environment (topology_name t)) in
  let? _ := try_fold (place t facts) ∅ (topology_environments t) in
  Ok tt.

(** ** Availability *)

(** The other replicas that are available. *)
Definition others_up (t : TopologySection) (environment : string) (available : list string) : list string :=
  filter (λ m, m ∈ available) (filter (λ m, m ≠ environment) (topology_environments t)).

(** [check_availability]. *)
Definition check_availability (t : TopologySection) (environment : string)
    (serving available : list string) : result unit topology_error :=
  match min_available t with
  | None => Ok tt
  | Some minimum =>
    if negb (bool_decide (environment ∈ topology_environments t))
       || negb (bool_decide (environment ∈ serving)) then Ok tt
    else
      let up := Z.of_nat (length (others_up t environment available)) in
      bail_if up <? minimum with (BelowMinimum environment up minimum) in
      Ok tt
  end.

(** ** Reading releases and replicas *)

(** [manifest::parse_raw]: the topology and the product name of a manifest. *)
Class TopologyFormat := { parse_topology : string → option (option TopologySection * string) }.

Definition deployment_health_key (product : string) : string := "deployment_health." +:+ product.

Section Reading.
Context `{HashOrder} {T : TopologyFormat} (ctx : Ctx).
(** [plan::list_for_environment] of the running plans. *)
Context (running : string → result (list Plan) planning_error).

(** [availability_manifest]. *)
Definition availability_manifest (release : string) :
    result (option (TopologySection * string)) topology_error :=
  let? object := ok_or (ctx_get ctx release) (TopologyReleaseMissing release) in
  match properties object !! "manifest" with
  | None => Ok None
  | Some raw =>
    let? (topology, product) := ok_or (parse_topology raw) (TopologyManifest release) in
    Ok (match topology with
        | Some t => if is_some_b (min_available t) then Some (t, product) else None
        | None => None
        end)
  end.

Definition availability_topology (release : string) : result (option TopologySection) topology_error :=
  let? found := availability_manifest release in Ok (fst <$> found).

(** [replica_availability]: the serving and the available replicas. *)
Definition replica_state (product : string) (acc : list string * list string) (member : string) :
    result (list string * list string) topology_error :=
  let? object := map_err TopologyRead (environment ctx member) in
  if negb (bool_decide (properties object !! deployment_health_key product = Some "healthy"))
  then Ok acc
  else
    let? plans := map_err TopologyRead (running member) in
    Ok (acc.1 ++ [member], if bool_decide (plans = []) then acc.2 ++ [member] else acc.2).

Definition replica_availability (t : TopologySection) (product : string) :
    result (list string * list string) topology_error :=
  try_fold (replica_state product) ([], []) (topology_environments t).

Definition require_availability (environment release : string) : result unit topology_error :=
  let? found := availability_manifest release in
  match found with
  | None => Ok tt
  | Some (t, product) =>
    let? (serving, available) := replica_availability t product in
    check_availability t environment serving available
  end.

(** [require_manifest_placement]. *)
Definition require_manifest_placement (environment : string) (topology : option TopologySection) :
    result unit topology_error :=
  match topology with
  | None => Ok tt
  | Some t =>
    let? facts := try_fold (λ acc member,
      let? found := map_err TopologyRead (list_environment_facts ctx member) in
      Ok (<[member := found]> acc)) ∅ (topology_environments t) in
    check_placement t environment facts
  end.

(** [require_placement]. *)
Definition require_placement (environment release : string) : result unit topology_error :=
  let? object := ok_or (ctx_get ctx release) (TopologyReleaseMissing release) in
  match properties object !! "manifest" with
  | None => Ok tt
  | Some raw =>
    let? (topology, _) := ok_or (parse_topology raw) (TopologyManifest release) in
    require_manifest_placement environment topology
  end.
End Reading.

(** ** Laws *)

Definition placed_at (t : TopologySection) (facts : gmap string (gmap string string)) (m v : string) : Prop :=
  facts !! m ≫= lookup (affinity_fact (anti_affinity t)) = Some v.

Lemma place_ok t facts placed m placed' :
  place t facts placed m = Ok placed' ↔
  ∃ v, placed_at t facts m v ∧ placed !! v = None ∧ placed' = <[v := m]> placed.
Proof.
  unfold place, placed_at. destruct (facts !! m ≫= _) as [v|]; [|naive_solver].
  destruct (placed !! v) eqn:E; naive_solver.
Qed.

Lemma placed_all t facts l placed placed' :
  try_fold (place t facts) placed l = Ok placed' →
  ∃ vs, Forall2 (placed_at t facts) l vs ∧ NoDup vs ∧ ∀ v, v ∈ vs → placed !! v = None.
Proof.
  revert placed. induction l as [|m l IH]; simpl; intros placed Hf.
  { exists []. split_and!; [constructor|constructor|]. by intros v ?%elem_of_nil. }
  destruct (place t facts placed m) as [p1|] eqn:E; [|done].
  apply place_ok in E as (v & Hv & Hnone & ->). apply IH in Hf as (vs & Hall & Hnd & Hfresh).
  exists (v :: vs). split_and!; [by constructor| |].
  - constructor; [|done]. intros Hin%Hfresh. by rewrite lookup_insert_eq in Hin.
  - intros x [->|Hx]%elem_of_cons; [done|]. apply Hfresh in Hx.
    by apply lookup_insert_None in Hx as [? _].
Qed.

Lemma all_placed t facts l vs placed :
  Forall2 (placed_at t facts) l vs → NoDup vs → (∀ v, v ∈ vs → placed !! v = None) →
  is_ok (try_fold (place t facts) placed l) = true.
Proof.
  intros Hall. revert placed. induction Hall as [|m v l vs Hv Hall IH]; intros placed Hnd Hfresh; [done|].
  apply NoDup_cons in Hnd as [Hnew Hnd]. simpl.
  assert (place t facts placed m = Ok (<[v := m]> placed)) as ->.
  { apply place_ok. exists v. split_and!; [done|apply Hfresh; left|done]. }
  apply IH; [done|]. intros x Hx. rewrite lookup_insert_ne; [apply Hfresh; by right|].
  intros ->. done.
Qed.

(** A placement is accepted exactly for a replica of the topology whose
    replicas all report the fact, with different values. *)
Theorem placement_accepted_iff t env facts :
  check_placement t env facts = Ok tt ↔
  env ∈ topology_environments t ∧
  ∃ vs, Forall2 (placed_at t facts) (topology_environments t) vs ∧ NoDup vs.
Proof.
  unfold check_placement. rewrite bail_ok, negb_false, bool_decide_eq_true. split.
  - intros [Hin Hf]. split; [done|].
    destruct (try_fold _ ∅ _) as [placed|] eqn:E; [|done].
    apply placed_all in E as (vs & ? & ? & _). eauto.
  - intros [Hin (vs & Hall & Hnd)]. split; [done|].
    pose proof (all_placed t facts _ vs ∅ Hall Hnd (λ v _, lookup_empty v)) as H.
    by destruct (try_fold _ ∅ _).
Qed.

(** *** What replicas answer *)

Section Availability.
Context `{HashOrder} {T : TopologyFormat} (ctx : Ctx).
Context (running : string → result (list Plan) planning_error).

(** A replica's record says the product is healthy. *)
Definition serves (product member : string) : Prop :=
  ∃ o, environment ctx member = Ok o ∧ properties o !! deployment_health_key product = Some "healthy".

Definition idle_replica (member : string) : Prop := running member = Ok [].

Lemma replica_state_ok product acc m acc' :
  replica_state ctx running product acc m = Ok acc' →
  (¬ serves product m ∧ acc' = acc) ∨
  (serves product m ∧ acc'.1 = acc.1 ++ [m] ∧
   ((idle_replica m ∧ acc'.2 = acc.2 ++ [m]) ∨ (¬ idle_replica m ∧ acc'.2 = acc.2))).
Proof.
  unfold replica_state, serves, idle_replica.
  destruct (environment ctx m) as [o|] eqn:Ho; simpl; [|done].
  destruct (bool_decide (properties o !! deployment_health_key product = Some "healthy")) eqn:Eh; simpl.
  - destruct (running m) as [plans|]; simpl; [|done]. intros [= <-]. right.
    apply bool_decide_eq_true in Eh. split; [by eauto|]. split; [done|]. simpl.
    case_bool_decide as E; [left|right]; subst; naive_solver.
  - intros [= <-]. left. apply bool_decide_eq_false in Eh. naive_solver.
Qed.

Lemma replicas_exact product l acc acc' :
  try_fold (replica_state ctx running product) acc l = Ok acc' →
  (∀ m, m ∈ acc'.1 ↔ m ∈ acc.1 ∨ (m ∈ l ∧ serves product m)) ∧
  (∀ m, m ∈ acc'.2 ↔ m ∈ acc.2 ∨ (m ∈ l ∧ serves product m ∧ idle_replica m)).
Proof.
  revert acc. induction l as [|a l IH]; simpl; intros acc Hf.
  { injection Hf as <-. set_solver. }
  destruct (replica_state ctx running product acc a) as [acc1|] eqn:E; [|done].
  apply replica_state_ok in E. apply IH in Hf as [H1 H2]. split; intros m.
  - rewrite H1. destruct E as [[Hno ->]|(Hs & -> & _)]; set_solver.
  - rewrite H2. destruct E as [[Hno ->]|(Hs & _ & [[Hi ->]|[Hi ->]])]; set_solver.
Qed.

Lemma availability_guard t env serving available n :
  check_availability t env serving available = Ok tt →
  min_available t = Some n → env ∈ topology_environments t → env ∈ serving →
  n ≤ Z.of_nat (length (others_up t env available)).
Proof.
  unfold check_availability. intros Hc Hn Hin Hs. rewrite Hn in Hc.
  rewrite !bool_decide_eq_true_2 in Hc by done. simpl in Hc.
  apply bail_ok in Hc as [Hlt _]. lia.
Qed.

(** Changing a serving replica is admitted only while at least the declared
    minimum of the other replicas is healthy and has no plan running. *)
Theorem change_keeps_minimum env release t product n :
  require_availability ctx running env release = Ok tt →
  availability_manifest ctx release = Ok (Some (t, product)) →
  min_available t = Some n → env ∈ topology_environments t → serves product env →
  ∃ up, n ≤ Z.of_nat (length up) ∧ up ⊆+ topology_environments t ∧ env ∉ up ∧
        ∀ m, m ∈ up → serves product m ∧ idle_replica m.
Proof.
  unfold require_availability. intros Hr Hm Hn Hin Hs. rewrite Hm in Hr.
  unfold replica_availability in Hr.
  destruct (try_fold _ _ _) as [[serving available]|] eqn:E; [|done].
  destruct (replicas_exact product _ _ _ E) as [Hserving Havailable].
  exists (others_up t env available). split_and!.
  - eapply availability_guard; [done..|]. apply Hserving. by right.
  - unfold others_up. etrans; apply sublist_submseteq, sublist_filter.
  - unfold others_up. intros Hx. apply list_elem_of_filter in Hx as [_ Hx].
    apply list_elem_of_filter in Hx. naive_solver.
  - unfold others_up. intros m Hx. apply list_elem_of_filter in Hx as [Hx _].
    apply Havailable in Hx as [?%elem_of_nil|?]; naive_solver.
Qed.
End Availability.
