(* ===== verification/ReconcileFence.v ===== *)
(** * The reconcile fence and the clock guard

    [reconcile_fence.rs]: before a host works on an environment in a tick it
    takes a claim of that environment in a fence the hosts share.  The
    [ReconcileTickFence] trait is a class with laws, proved for the fence of
    this file's source, [SharedReconcileFence]; what follows for histories of
    claims uses the laws only.

    [clock_guard.rs]: the readings of a time source that make the server
    refuse work while its own clock is off. *)

From S2P Require Import Prelude RustStr Plan ObjectStore Leases.

(** ** The trait *)

Inductive FenceAdmission :=
| FenceStarted (generation : Z)
| FenceBusy (owner : string)
| FenceStale.

Inductive FenceError := InvalidIdentity | InvalidExpiry | FenceStore (detail : string).

Record LiveClaim := { claim_owner : string; claim_generation : Z; claim_expires : Z }.

Class ReconcileTickFence (F : Type) := {
  try_begin : F → string → string → Z → Z → result (FenceAdmission * F) FenceError;
  release : F → string → string → Z → Z → F
}.

(** How the claim of one environment may change when [owner] starts. *)
Definition next_claim (before : option LiveClaim) (owner : string) (now ttl : Z) (c : LiveClaim) :
    Prop :=
  claim_owner c = owner ∧ claim_expires c = i64_saturating_add now ttl ∧
  match before with
  | None => claim_generation c = 1
  | Some b =>
    if now <? claim_expires b
    then claim_owner b = owner ∧ claim_generation c = claim_generation b
    else claim_generation c = u64_saturating_succ (claim_generation b)
  end.

(** What a fence promises of the claim of each environment. *)
Class TickFenceLaws (F : Type) {fence : ReconcileTickFence F} := {
  claim_of : F → string → option LiveClaim;
  begin_law f env owner now ttl a f' :
    try_begin f env owner now ttl = Ok (a, f') →
    match a with
    | FenceStarted g =>
      ∃ c, claim_of f' env = Some c ∧ claim_generation c = g
           ∧ next_claim (claim_of f env) owner now ttl c
    | FenceBusy o =>
      claim_of f' env = claim_of f env ∧ o ≠ owner
      ∧ ∃ c, claim_of f env = Some c ∧ claim_owner c = o ∧ now < claim_expires c
    | FenceStale => claim_of f' env = claim_of f env
    end;
  begin_frame f env owner now ttl a f' other :
    try_begin f env owner now ttl = Ok (a, f') → other ≠ env → claim_of f' other = claim_of f other;
  release_law f env owner g now :
    claim_of (release f env owner g now) env =
    (λ c, if bool_decide (claim_owner c = owner) && (claim_generation c =? g)
          then {| claim_owner := claim_owner c; claim_generation := claim_generation c;
                  claim_expires := Z.min (claim_expires c) now |}
          else c) <$> claim_of f env;
  release_frame f env owner g now other :
    other ≠ env → claim_of (release f env owner g now) other = claim_of f other
}.

(** ** The shared fence *)

Module SharedReconcileFence.

Definition claims := gmap string LiveClaim.

Definition started (f : claims) (env owner : string) (g expires_at : Z) : FenceAdmission * claims :=
  (FenceStarted g,
   <[env := {| claim_owner := owner; claim_generation := g; claim_expires := expires_at |}]> f).

Definition try_begin (f : claims) (env owner : string) (now ttl_ms : Z) :
    result (FenceAdmission * claims) FenceError :=
  bail_if str_is_empty (trim env) || str_is_empty (trim owner) with InvalidIdentity in
  bail_if ttl_ms <=? 0 with InvalidExpiry in
  let expires_at := i64_saturating_add now ttl_ms in
  Ok (match f !! env with
      | Some c =>
        if (now <? claim_expires c) && negb (bool_decide (claim_owner c = owner))
        then (FenceBusy (claim_owner c), f)
        else if (now <? claim_expires c) && bool_decide (claim_owner c = owner)
        then started f env owner (claim_generation c) expires_at
        else started f env owner (u64_saturating_succ (claim_generation c)) expires_at
      | None => started f env owner 1 expires_at
      end).

Definition release (f : claims) (env owner : string) (generation now : Z) : claims :=
  match f !! env with
  | Some c =>
    if bool_decide (claim_owner c = owner) && (claim_generation c =? generation)
    then <[env := {| claim_owner := claim_owner c; claim_generation := claim_generation c;
                     claim_expires := Z.min (claim_expires c) now |}]> f
    else f
  | None => f
  end.

#[export] Instance fence : ReconcileTickFence claims := {|
  ReconcileFence.try_begin := try_begin; ReconcileFence.release := release |}.

#[export] Program Instance laws : TickFenceLaws claims := {| claim_of f env := f !! env |}.
Next Obligation.
  intros f env owner now ttl a f' H. simpl in H. unfold try_begin in H. ok_inv H. revert H.
  unfold next_claim. destruct (f !! env) as [c|] eqn:Hc.
  - destruct (Z.ltb_spec now (claim_expires c)); simpl.
    + case_bool_decide; simpl; intros [= <- <-].
      * eexists. split; [apply lookup_insert_eq|auto].
      * rewrite Hc. naive_solver.
    + intros [= <- <-]. eexists. split; [apply lookup_insert_eq|auto].
  - intros [= <- <-]. eexists. split; [apply lookup_insert_eq|auto].
Qed.
Next Obligation.
  intros f env owner now ttl a f' other H Hne. simpl in H. unfold try_begin in H. ok_inv H.
  revert H. destruct (f !! env); repeat case_match; intros [= <- <-]; try done;
    by apply lookup_insert_ne.
Qed.
Next Obligation.
  intros f env owner g now. simpl. unfold release.
  destruct (f !! env) as [c|] eqn:Hc; simpl; [|by rewrite Hc].
  case_match; [apply lookup_insert_eq|by rewrite Hc].
Qed.
Next Obligation.
  intros f env owner g now other Hne. simpl. unfold release.
  repeat case_match; try done; by apply lookup_insert_ne.
Qed.

End SharedReconcileFence.

(** ** Histories of claims *)

Inductive fence_op :=
| Begin (env owner : string) (now ttl : Z)
| Release (env owner : string) (generation now : Z).

Section Histories.
Context `{TickFenceLaws F}.

(** What an operation answers, and the fence after it; a refused operation
    changes nothing. *)
Definition fence_step (f : F) (op : fence_op) : option FenceAdmission * F :=
  match op with
  | Begin env owner now ttl =>
    match try_begin f env owner now ttl with
    | Ok (a, f') => (Some a, f')
    | Err _ => (None, f)
    end
  | Release env owner g now => (None, release f env owner g now)
  end.

Fixpoint replay (f : F) (ops : list fence_op) : list (fence_op * option FenceAdmission) * F :=
  match ops with
  | [] => ([], f)
  | op :: rest =>
    let '(a, f1) := fence_step f op in
    let '(trace, f2) := replay f1 rest in ((op, a) :: trace, f2)
  end.

(** While [owner] holds generation [g] until [until]: no clock has passed
    [until], and its own operations do not give the claim up. *)
Definition respects (env owner : string) (g until : Z) (op : fence_op) : Prop :=
  match op with
  | Begin e o now ttl =>
    e = env → now < until ∧ (o = owner → until ≤ i64_saturating_add now ttl)
  | Release e o g' _ => ¬ (e = env ∧ o = owner ∧ g' = g)
  end.

Definition held_by (f : F) (env owner : string) (g until : Z) : Prop :=
  ∃ c, claim_of f env = Some c ∧ claim_owner c = owner ∧ claim_generation c = g
       ∧ until ≤ claim_expires c.

(** What the others are told. *)
Definition kept_out (env owner : string) (entry : fence_op * option FenceAdmission) : Prop :=
  ∀ o now ttl g, entry = (Begin env o now ttl, Some (FenceStarted g)) → o = owner.

Lemma held_step f env owner g until op :
  held_by f env owner g until → respects env owner g until op →
  held_by (fence_step f op).2 env owner g until
  ∧ kept_out env owner (op, (fence_step f op).1).
Proof.
  intros (c & Hc & Ho & Hg & Hu) Hr. destruct op as [e o now ttl|e o g' now]; simpl in *.
  - destruct (try_begin f e o now ttl) as [[a f']|] eqn:Hb; simpl.
    2: { split; [by exists c|by intros ?????]. }
    destruct (decide (e = env)) as [->|Hne].
    2: { split; [|by intros ???? [=]]. exists c. by rewrite (begin_frame _ _ _ _ _ _ _ _ Hb). }
    destruct (Hr eq_refl) as [Hnow Hown]. apply begin_law in Hb. destruct a as [g1|o1|].
    + destruct Hb as (c' & Hc' & Hg' & Ho' & He' & Hn). rewrite Hc in Hn.
      destruct (Z.ltb_spec now (claim_expires c)); [|lia]. destruct Hn as [Hn Hsame].
      split; [|intros ? ? ? ? [=]; congruence]. exists c'. split_and!; [done|congruence..|].
      rewrite He'. apply Hown. congruence.
    + destruct Hb as (Hf & _). split; [exists c; by rewrite Hf|by intros ???? [=]].
    + split; [exists c; by rewrite Hb|by intros ???? [=]].
  - split; [|by intros ???? [=]]. destruct (decide (e = env)) as [->|Hne].
    + eexists. rewrite release_law, Hc. split; [done|].
      case_bool_decide; simpl; [|done]. case_match eqn:Heq; [|done]. apply Z.eqb_eq in Heq.
      destruct Hr. split_and!; congruence.
    + exists c. by rewrite release_frame.
Qed.

Lemma held_replay f env owner g until ops :
  held_by f env owner g until → Forall (respects env owner g until) ops →
  held_by (replay f ops).2 env owner g until ∧ Forall (kept_out env owner) (replay f ops).1.
Proof.
  intros Hf Hops. revert f Hf. induction Hops as [|op ops Hop _ IH]; intros f Hf; simpl; [by auto|].
  destruct (held_step f env owner g until op Hf Hop) as [H1 Hk].
  destruct (fence_step f op) as [a f1]. simpl in *. specialize (IH f1 H1).
  destruct (replay f1 ops) as [trace f2]. simpl in *. destruct IH. split; [done|by constructor].
Qed.

(** C33: the fence excludes: once a host has started on an environment, then
    whatever the hosts do with whatever clocks, as long as no clock has
    reached the end of its claim and it neither releases the claim nor renews
    it for a shorter time, the claim stays its own and no other host starts
    there.  Releases of another owner or of another generation, however late
    they come, do not matter. *)
Theorem fence_excludes f env owner now ttl g f' ops :
  try_begin f env owner now ttl = Ok (FenceStarted g, f') →
  Forall (respects env owner g (i64_saturating_add now ttl)) ops →
  held_by (replay f' ops).2 env owner g (i64_saturating_add now ttl)
  ∧ ∀ o now' ttl' g', (Begin env o now' ttl', Some (FenceStarted g')) ∈ (replay f' ops).1 → o = owner.
Proof.
  intros (c & Hc & Hg & Ho & He & _)%begin_law Hops.
  assert (Hf : held_by f' env owner g (i64_saturating_add now ttl)).
  { exists c. split_and!; [done..|lia]. }
  destruct (held_replay _ _ _ _ _ _ Hf Hops) as [Hh Hk]. split; [done|].
  intros o now' ttl' g' Hin. rewrite Forall_forall in Hk. by eapply Hk.
Qed.

(** ** Generations *)

(** Every generation issued for an environment is at most the current one,
    and the current one was issued to its owner only. *)
Definition issued_ok (issued : list (string * string * Z)) (f : F) : Prop :=
  ∀ env o g, (env, o, g) ∈ issued →
  ∃ c, claim_of f env = Some c ∧ g ≤ claim_generation c ≤ u64_max
       ∧ (g = claim_generation c → g < u64_max → claim_owner c = o).

Definition issues (entry : fence_op * option FenceAdmission) : list (string * string * Z) :=
  match entry with
  | (Begin env o _ _, Some (FenceStarted g)) => [(env, o, g)]
  | _ => []
  end.

(** A claim as an operation leaves it. *)
Lemma claim_step f op env c :
  claim_of f env = Some c → claim_generation c ≤ u64_max →
  ∃ c', claim_of (fence_step f op).2 env = Some c'
    ∧ claim_generation c ≤ claim_generation c' ≤ u64_max
    ∧ (claim_generation c' = claim_generation c → claim_generation c < u64_max →
       claim_owner c' = claim_owner c).
Proof.
  intros Hc Hb. destruct op as [e o now ttl|e o g' now]; simpl.
  - destruct (try_begin f e o now ttl) as [[a f']|] eqn:Ht; simpl.
    2: { exists c. split_and!; [done|lia|lia|done]. }
    destruct (decide (e = env)) as [->|Hne].
    2: { exists c. rewrite (begin_frame _ _ _ _ _ _ _ _ Ht) by done.
         split_and!; [done|lia|lia|done]. }
    apply begin_law in Ht. destruct a as [g1|o1|].
    + destruct Ht as (c' & Hc' & _ & Ho' & _ & Hn). rewrite Hc in Hn. exists c'.
      revert Hn. destruct (Z.ltb_spec now (claim_expires c)).
      * intros [? Hg]. split_and!; [done|lia|lia|congruence].
      * unfold u64_saturating_succ. intros Hg. split_and!; [done|lia|lia|lia].
    + destruct Ht as (Hf & _). exists c. rewrite Hf. split_and!; [done|lia|lia|done].
    + exists c. rewrite Ht. split_and!; [done|lia|lia|done].
  - destruct (decide (e = env)) as [->|Hne].
    + eexists. rewrite release_law, Hc. split; [done|]. case_match; simpl; split_and!; done || lia.
    + exists c. rewrite release_frame by done. split_and!; [done|lia|lia|done].
Qed.

Definition unique_holders (issued : list (string * string * Z)) : Prop :=
  ∀ env o o' g, (env, o, g) ∈ issued → (env, o', g) ∈ issued → g < u64_max → o = o'.

Definition bounded (f : F) : Prop :=
  ∀ env c, claim_of f env = Some c → claim_generation c ≤ u64_max.

Definition generations_inv (issued : list (string * string * Z)) (f : F) : Prop :=
  issued_ok issued f ∧ unique_holders issued ∧ bounded f.

Lemma bounded_step f op : bounded f → bounded (fence_step f op).2.
Proof.
  intros Hb env c'. destruct (claim_of f env) as [c|] eqn:Hc.
  { destruct (claim_step f op env c Hc (Hb _ _ Hc)) as (c1 & -> & Hle & _).
    intros [= <-]. lia. }
  destruct op as [e o now ttl|e o g' now]; simpl.
  - destruct (try_begin f e o now ttl) as [[a f']|] eqn:Ht; simpl; [|congruence].
    destruct (decide (e = env)) as [->|Hne].
    2: { rewrite (begin_frame _ _ _ _ _ _ _ _ Ht) by done. congruence. }
    apply begin_law in Ht. destruct a as [g1|o1|]; [|by destruct Ht as (-> & _); congruence|congruence].
    destruct Ht as (c1 & -> & _ & _ & _ & Hn). rewrite Hc in Hn. intros [= <-].
    rewrite Hn. unfold u64_max. lia.
  - destruct (decide (e = env)) as [->|Hne].
    + by rewrite release_law, Hc.
    + rewrite release_frame by done. congruence.
Qed.

(** A start issues the generation of the claim it leaves: the one its owner
    already had, or one above every generation issued before. *)
Lemma issue_step f op env o g issued :
  generations_inv issued f → (env, o, g) ∈ issues (op, (fence_step f op).1) →
  (∃ c, claim_of (fence_step f op).2 env = Some c ∧ claim_generation c = g ∧ claim_owner c = o)
  ∧ ∀ o' , (env, o', g) ∈ issued → g < u64_max → o' = o.
Proof.
  intros (Hok & _ & Hb). destruct op as [e o1 now ttl|e o1 g' now]; simpl; [|by intros []%elem_of_nil].
  destruct (try_begin f e o1 now ttl) as [[[g1|o2|] f']|] eqn:Ht; simpl; try by intros []%elem_of_nil.
  intros [= <- <- <-]%list_elem_of_singleton.
  apply begin_law in Ht as (c' & Hc' & Hg & Ho & _ & Hn). split; [by exists c'|].
  intros o' Hin Hlt. destruct (Hok _ _ _ Hin) as (c & Hc & Hle & Hsame). rewrite Hc in Hn.
  revert Hn. destruct (now <? claim_expires c).
  - intros [<- Heq]. symmetry. apply Hsame; congruence.
  - unfold u64_saturating_succ. lia.
Qed.

Lemma generations_step f op issued :
  generations_inv issued f →
  generations_inv (issues (op, (fence_step f op).1) ++ issued) (fence_step f op).2.
Proof.
  intros Hinv. pose proof Hinv as (Hok & Hu & Hb). split_and!; [| |by apply bounded_step].
  - intros env o g [Hnew|Hold]%elem_of_app.
    + destruct (issue_step _ _ _ _ _ _ Hinv Hnew) as [(c & Hc & Hg & Ho) _]. exists c.
      split_and!; [done|lia| |done]. by apply (bounded_step f op Hb env).
    + destruct (Hok _ _ _ Hold) as (c & Hc & Hle & Hsame).
      destruct (claim_step f op env c Hc ltac:(lia)) as (c' & Hc' & Hle' & Hsame'). exists c'.
      split_and!; [done|lia|lia|]. intros -> Hlt.
      rewrite Hsame' by lia. apply Hsame; lia.
  - intros env o o' g [Hnew|Hold]%elem_of_app [Hnew'|Hold']%elem_of_app Hlt; [|by symmetry; eapply issue_step| |by eapply Hu].
    + destruct (issue_step _ _ _ _ _ _ Hinv Hnew) as [(c & Hc & _ & <-) _].
      destruct (issue_step _ _ _ _ _ _ Hinv Hnew') as [(c' & Hc' & _ & <-) _]. congruence.
    + by eapply issue_step.
Qed.

Lemma generations_replay f ops issued :
  generations_inv issued f →
  unique_holders (((replay f ops).1 ≫= issues) ++ issued).
Proof.
  revert f issued. induction ops as [|op ops IH]; intros f issued Hinv; simpl; [apply Hinv|].
  pose proof (generations_step f op issued Hinv) as Hstep.
  destruct (fence_step f op) as [a f1]. simpl in Hstep. specialize (IH f1 _ Hstep).
  destruct (replay f1 ops) as [trace f2]. simpl in *.
  intros env o o' g Hin Hin'. apply (IH env o o' g); revert Hin Hin'; rewrite !elem_of_app; tauto.
Qed.

(** A generation names one holder: from an empty fence, whatever hosts
    claim and release in whatever order and with whatever clocks, two starts
    on one environment with the same generation are of one host, as long as
    the counter has not saturated at its 64 bits. *)
Theorem generation_names_holder f ops env o o' now now' ttl ttl' g :
  (∀ e, claim_of f e = None) →
  (Begin env o now ttl, Some (FenceStarted g)) ∈ (replay f ops).1 →
  (Begin env o' now' ttl', Some (FenceStarted g)) ∈ (replay f ops).1 →
  g < u64_max → o = o'.
Proof.
  intros Hf Hin Hin'.
  assert (Hinv : generations_inv [] f).
  { split_and!; [intros ??? []%elem_of_nil|intros ???? []%elem_of_nil|].
    intros e c. by rewrite Hf. }
  apply (generations_replay f ops [] Hinv env); rewrite app_nil_r; apply list_elem_of_bind.
  - exists (Begin env o now ttl, Some (FenceStarted g)). split; [by left|done].
  - exists (Begin env o' now' ttl', Some (FenceStarted g)). split; [by left|done].
Qed.
End Histories.

(** ** The clock guard *)

Record ClockPolicy := { warn_ms : Z; refuse_ms : Z }.

Inductive ClockState := ClockOk | ClockWarn | ClockRefuse | ClockUnknown.

#[export] Instance ClockState_eq : EqDecision ClockState.
Proof. solve_decision. Defined.

Record ClockHealth := {
  clock_state : ClockState; skew_ms : option Z; measured_at_ms : option Z
}.

(** [ClockGuard::new]. *)
Definition clock_guard (p : ClockPolicy) : result ClockHealth string :=
  bail_if (warn_ms p <? 0) || (refuse_ms p <=? warn_ms p)
    with "clock thresholds need 0 <= warn < refuse" in
  Ok {| clock_state := ClockUnknown; skew_ms := None; measured_at_ms := None |}.

(** [i64::abs] wraps at the minimum. *)
Definition i64_abs (z : Z) : Z := if z =? i64_min then i64_min else Z.abs z.

Definition clock_class (p : ClockPolicy) (skew : option Z) : ClockState :=
  match i64_abs <$> skew with
  | None => ClockUnknown
  | Some s => if refuse_ms p <? s then ClockRefuse else if warn_ms p <? s then ClockWarn else ClockOk
  end.

(** [ClockGuard::record]. *)
Definition clock_record (p : ClockPolicy) (h : ClockHealth) (reading : option Z * Z) : ClockHealth :=
  let '(skew, now) := reading in
  if negb (is_some_b skew) && bool_decide (clock_state h = ClockRefuse) then h
  else {| clock_state := clock_class p skew; skew_ms := skew; measured_at_ms := (λ _, now) <$> skew |}.

(** [ClockGuard::require_trusted]. *)
Definition require_trusted (h : ClockHealth) : result unit (option Z) :=
  bail_if bool_decide (clock_state h = ClockRefuse) with (skew_ms h) in Ok tt.

(** The last measurement that succeeded. *)
Definition last_skew (readings : list (option Z * Z)) : option Z :=
  foldl (λ last r, match r.1 with Some s => Some s | None => last end) None readings.

Lemma clock_invariant p readings h last :
  (clock_state h = ClockRefuse ↔ ∃ s, last = Some s ∧ refuse_ms p < i64_abs s) →
  clock_state (foldl (clock_record p) h readings) = ClockRefuse ↔
  ∃ s, foldl (λ last r, match r.1 with Some s => Some s | None => last end) last readings = Some s
       ∧ refuse_ms p < i64_abs s.
Proof.
  revert h last. induction readings as [|[skew now] readings IH]; intros h last Hh; simpl; [done|].
  apply IH. unfold clock_record. destruct skew as [s|]; simpl.
  - unfold clock_class; simpl. destruct (Z.ltb_spec (refuse_ms p) (i64_abs s)).
    + split; eauto.
    + split; [by destruct (_ <? _)|]. intros (s' & [= <-] & ?). lia.
  - case_bool_decide as Hr; simpl; [by rewrite Hh|]. split; [done|]. by rewrite <- Hh.
Qed.

(** Work is refused exactly while the clock is known to be off: whatever
    measurements succeed and fail, [require_trusted] refuses if and only if
    the last one that succeeded read a skew beyond the limit.  A failed
    measurement neither starts a refusal nor lifts one. *)
Theorem clock_refuses_iff p readings h :
  clock_guard p = Ok h →
  (∃ skew, require_trusted (foldl (clock_record p) h readings) = Err skew) ↔
  ∃ s, last_skew readings = Some s ∧ refuse_ms p < i64_abs s.
Proof.
  intros Hnew. unfold clock_guard in Hnew. ok_inv Hnew. injection Hnew as <-.
  unfold last_skew. rewrite <- (clock_invariant p readings
    {| clock_state := ClockUnknown; skew_ms := None; measured_at_ms := None |} None).
  - unfold require_trusted. case_bool_decide; naive_solver.
  - simpl. naive_solver.
Qed.

Module FenceExamples.
Import SharedReconcileFence.

Definition started_a : claims :=
  {["prod" := {| claim_owner := "a"; claim_generation := 1; claim_expires := 30 |}]}.

(** A second host is turned away, its late release changes nothing, and the
    first host renews. *)
Definition ops : list fence_op :=
  [Begin "prod" "b" 10 30; Release "prod" "b" 1 11; Release "prod" "a" 7 12; Begin "prod" "a" 20 30;
   Begin "prod" "b" 29 30].

Lemma fence_excludes_witness :
  try_begin ∅ "prod" "a" 0 30 = Ok (FenceStarted 1, started_a)
  ∧ held_by (replay started_a ops).2 "prod" "a" 1 30.
Proof.
  assert (H : try_begin ∅ "prod" "a" 0 30 = Ok (FenceStarted 1, started_a)).
  { vm_compute. reflexivity. }
  split; [exact H|].
  refine (proj1 (fence_excludes (F := claims) ∅ "prod" "a" 0 30 1 started_a ops H _)).
  unfold i64_saturating_add, i64_clamp, i64_max, i64_min.
  repeat constructor; simpl; unfold i64_saturating_add, i64_clamp, i64_max, i64_min;
    intros; naive_solver lia.
Defined.

Definition handover : list fence_op :=
  [Begin "prod" "a" 0 30; Begin "prod" "a" 10 30; Release "prod" "a" 1 20; Begin "prod" "b" 21 30].

Lemma generation_names_holder_witness :
  (replay (∅ : claims) handover).1.*2
    = [Some (FenceStarted 1); Some (FenceStarted 1); None; Some (FenceStarted 2)]
  ∧ ("a" : string) = "a".
Proof.
  split; [vm_compute; reflexivity|].
  apply (generation_names_holder (F := claims) ∅ handover "prod" "a" "a" 0 10 30 30 1).
  - intros e. reflexivity.
  - vm_compute. left.
  - vm_compute. right. left.
  - unfold u64_max. lia.
Defined.

Lemma clock_refuses_iff_witness :
  clock_guard {| warn_ms := 100; refuse_ms := 1000 |}
    = Ok {| clock_state := ClockUnknown; skew_ms := None; measured_at_ms := None |}
  ∧ ∃ skew, require_trusted (foldl (clock_record {| warn_ms := 100; refuse_ms := 1000 |})
      {| clock_state := ClockUnknown; skew_ms := None; measured_at_ms := None |}
      [(Some 5, 1); (Some (-2000), 2); (None, 3)]) = Err skew.
Proof.
  assert (H : clock_guard {| warn_ms := 100; refuse_ms := 1000 |}
    = Ok {| clock_state := ClockUnknown; skew_ms := None; measured_at_ms := None |}) by reflexivity.
  split; [exact H|].
  apply (clock_refuses_iff _ [(Some 5, 1); (Some (-2000), 2); (None, 3)] _ H).
  exists (-2000). split; [reflexivity|simpl; unfold i64_abs; simpl; lia].
Defined.

(** The claim is taken once for a tick and not renewed: when the work outlives
    it, another host starts while the first has not released. *)
Example claim_expires_under_a_long_tick :
  (replay (∅ : claims) [Begin "prod" "a" 0 30000; Begin "prod" "b" 30000 30000]).1.*2
  = [Some (FenceStarted 1); Some (FenceStarted 2)].
Proof. vm_compute. reflexivity. Qed.
End FenceExamples.
