(* ===== verification/Scheduler.v ===== *)
(** * Scheduling of reconcile ticks

    [reconciler/tick_admission.rs] and the reports of [reconciler.rs]: which
    environments a tick works on, the retry backoff of an environment that
    failed, the index of environment names a reconciler keeps between ticks,
    and one tick over them under the fence of [ReconcileFence]. *)

From S2P Require Import Prelude RustStr Plan ObjectStore Leases ReconcileFence.

(** ** Configuration *)

(** Durations are in nanoseconds. *)
Definition duration_max : Z := u64_max * 1000000000 + 999999999.
Definition duration_saturating_mul (d m : Z) : Z := Z.min duration_max (d * m).
Definition as_millis (d : Z) : Z := d / 1000000.

Record Config := {
  initial_backoff : Z; max_backoff : Z; max_concurrency : Z; fence_ttl_ms : Z;
  instance_id : string
}.

Inductive config_error :=
| ZeroInitialBackoff | MaxBelowInitial | ZeroConcurrency | FenceTtlNotPositive | EmptyInstance.

(** [Reconciler::new]. *)
Definition config_validate (c : Config) : result unit config_error :=
  bail_if initial_backoff c =? 0 with ZeroInitialBackoff in
  bail_if max_backoff c <? initial_backoff c with MaxBelowInitial in
  bail_if max_concurrency c =? 0 with ZeroConcurrency in
  bail_if fence_ttl_ms c <=? 0 with FenceTtlNotPositive in
  bail_if str_is_empty (trim (instance_id c)) with EmptyInstance in
  Ok tt.

(** ** Admission and backoff *)

Record RetryState := { failures : Z; retry_at : Z }.

Record SchedulerState := { in_flight : gset string; retries : gmap string RetryState }.

Inductive Admission := AdmitStarted | AdmitBusy | AdmitDeferred (at_ms : Z).

Definition begin (s : SchedulerState) (env : string) (now : Z) : Admission * SchedulerState :=
  if decide (env ∈ in_flight s) then (AdmitBusy, s)
  else
    let started := (AdmitStarted, {| in_flight := {[env]} ∪ in_flight s; retries := retries s |}) in
    match retries s !! env with
    | Some r => if now <? retry_at r then (AdmitDeferred (retry_at r), s) else started
    | None => started
    end.

Definition u32_saturating_succ (n : Z) : Z := Z.min u32_max (n + 1).

(** The delay after [failures] failures in a row, in milliseconds. *)
Definition backoff_ms (c : Config) (failures : Z) : Z :=
  let multiplier := Z.shiftl 1 (Z.min (Z.max 0 (failures - 1)) 31) in
  let delay := Z.min (duration_saturating_mul (initial_backoff c) multiplier) (max_backoff c) in
  Z.min i64_max (as_millis delay).

Definition finish (s : SchedulerState) (env : string) (succeeded : bool) (now : Z) (c : Config) :
    SchedulerState :=
  let in_flight := in_flight s ∖ {[env]} in
  if succeeded then {| in_flight := in_flight; retries := delete env (retries s) |}
  else
    let failures := match retries s !! env with
                    | Some r => u32_saturating_succ (failures r)
                    | None => 1
                    end in
    {| in_flight := in_flight;
       retries := <[env := {| failures := failures;
                              retry_at := i64_saturating_add now (backoff_ms c failures) |}]> (retries s) |}.

(** ** The index of environments *)

Record IndexEntry := { entry_id : string; entry_updated : Z }.

Record EnvironmentIndex := {
  initialized : bool; by_name : gmap string IndexEntry; by_id : gmap string string
}.

Definition sorted_names (i : EnvironmentIndex) : list string := btree_keys (by_name i).

(** [upsert]: an id that was known under another name frees that name, and a
    name that belonged to another id frees that id. *)
Definition index_upsert (i : EnvironmentIndex) (o : Object) : EnvironmentIndex :=
  let names := match by_id i !! object_id o with
               | Some previous => if decide (previous = object_name o) then by_name i
                                  else delete previous (by_name i)
               | None => by_name i
               end in
  let ids := <[object_id o := object_name o]> (by_id i) in
  {| initialized := initialized i;
     by_name := <[object_name o := {| entry_id := object_id o; entry_updated := updated o |}]> names;
     by_id := match names !! object_name o with
              | Some previous => if decide (entry_id previous = object_id o) then ids
                                 else delete (entry_id previous) ids
              | None => ids
              end |}.

Definition index_remove_id (i : EnvironmentIndex) (id : string) : EnvironmentIndex :=
  match by_id i !! id with
  | Some name => {| initialized := initialized i; by_name := delete name (by_name i);
                    by_id := delete id (by_id i) |}
  | None => i
  end.

(** [replace_from_objects]. *)
Definition replace_from_objects (objects : list Object) : EnvironmentIndex :=
  foldl index_upsert {| initialized := true; by_name := ∅; by_id := ∅ |}
    (filter (λ o, is_retired_object o = false) objects).

(** [membership_delta]. *)
Definition membership_delta (i : EnvironmentIndex) (listed : list string) : list string * list string :=
  (filter (λ id, by_id i !! id = None) listed,
   filter (λ id, id ∉ listed) (map_to_list (by_id i)).*1).

Definition usable_environment (o : Object) : bool :=
  bool_decide (object_kind o = KIND_ENVIRONMENT) && negb (is_retired_object o).

(** [refresh_environment_index], where [listing] reads the whole kind, [ids]
    the ids of active environments, and [get] one object. *)
Definition refresh_environment_index (embedded : bool) (listing : list Object) (ids : list string)
    (get : string → option Object) (i : EnvironmentIndex) : EnvironmentIndex :=
  if negb (initialized i) || negb embedded then replace_from_objects listing
  else
    let '(appeared, disappeared) := membership_delta i ids in
    let loaded := filter (λ o, usable_environment o = true) (omap get appeared) in
    foldl index_remove_id (foldl index_upsert i loaded) disappeared.

(** [resolve_allowed_environments]. *)
Definition resolve_allowed_environments (get : string → option Object) (allowed : gset string) :
    list string :=
  btree_set_iter (list_to_set (object_name <$>
    filter (λ o, usable_environment o = true ∧ object_name o ∈ allowed)
      (omap (λ name, get (env_id name)) (elements allowed)))).

(** ** Backoff *)

(** What happens to the scheduler, in order: an environment asks to begin, or
    its run ends. *)
Inductive scheduler_event :=
| Asks (env : string) (now : Z)
| Ends (env : string) (succeeded : bool) (now : Z).

Definition happens (c : Config) (s : SchedulerState) (e : scheduler_event) : SchedulerState :=
  match e with
  | Asks env now => (begin s env now).2
  | Ends env succeeded now => finish s env succeeded now c
  end.

(** One environment by itself: whether it runs, its failures since it last
    succeeded, and when it failed last. *)
Record env_course := { underway : bool; failed_times : Z; failed_last : Z }.

(** The wait after [n] failures in a row, in milliseconds: the initial backoff
    doubled with each further one (up to thirty-one times), but not beyond the
    maximum. *)
Definition wait_ms (c : Config) (n : Z) : Z :=
  Z.min (initial_backoff c * 2 ^ Z.min (n - 1) 31) (max_backoff c) / 1000000.

(** The time before which the environment waits. *)
Definition waits_until (c : Config) (x : env_course) : Z := i64_saturating_add (failed_last x) (wait_ms c (failed_times x)).

Definition may_begin (c : Config) (x : env_course) (now : Z) : bool :=
  negb (underway x) && ((failed_times x =? 0) || (waits_until c x <=? now)).

Definition goes_on (c : Config) (env : string) (x : env_course) (e : scheduler_event) : env_course :=
  match e with
  | Asks env' now =>
    if decide (env' = env) then {| underway := underway x || may_begin c x now; failed_times := failed_times x; failed_last := failed_last x |}
    else x
  | Ends env' succeeded now =>
    if decide (env' = env) then
      if succeeded then {| underway := false; failed_times := 0; failed_last := failed_last x |}
      else {| underway := false; failed_times := failed_times x + 1; failed_last := now |}
    else x
  end.

Definition at_rest : env_course := {| underway := false; failed_times := 0; failed_last := 0 |}.

Definition idle : SchedulerState := {| in_flight := ∅; retries := ∅ |}.

Lemma backoff_capped c n : backoff_ms c (Z.min u32_max n) = backoff_ms c n.
Proof.
  unfold backoff_ms.
  replace (Z.min (Z.max 0 (Z.min u32_max n - 1)) 31) with (Z.min (Z.max 0 (n - 1)) 31); [done|].
  unfold u32_max. lia.
Qed.

Lemma backoff_between c n :
  0 < initial_backoff c ≤ max_backoff c → max_backoff c ≤ duration_max → max_backoff c / 1000000 ≤ i64_max →
  as_millis (initial_backoff c) ≤ backoff_ms c n ≤ as_millis (max_backoff c).
Proof.
  intros Hi Hm Hb. unfold backoff_ms, duration_saturating_mul, as_millis.
  assert (1 ≤ Z.shiftl 1 (Z.min (Z.max 0 (n - 1)) 31)) as Hs.
  { rewrite Z.shiftl_1_l. pose proof (Z.pow_pos_nonneg 2 (Z.min (Z.max 0 (n - 1)) 31)). lia. }
  set (m := Z.shiftl 1 _) in *. assert (initial_backoff c ≤ initial_backoff c * m) by nia.
  set (d := Z.min (Z.min duration_max (initial_backoff c * m)) (max_backoff c)).
  assert (initial_backoff c ≤ d ≤ max_backoff c) as [Hd1 Hd2] by (unfold d; lia).
  pose proof (Z.div_le_mono _ _ 1000000 ltac:(lia) Hd1).
  pose proof (Z.div_le_mono _ _ 1000000 ltac:(lia) Hd2). lia.
Qed.

Section Waiting.
Context (c : Config).
Hypothesis initial_ok : 0 < initial_backoff c ≤ max_backoff c.
Hypothesis max_duration : max_backoff c ≤ duration_max.
Hypothesis max_millis : max_backoff c / 1000000 ≤ i64_max.

Lemma backoff_is_wait n : 0 < n → backoff_ms c n = wait_ms c n.
Proof.
  intros Hn. unfold backoff_ms, wait_ms, duration_saturating_mul, as_millis.
  replace (Z.max 0 (n - 1)) with (n - 1) by lia. rewrite Z.shiftl_1_l.
  set (d := initial_backoff c * _).
  replace (Z.min (Z.min duration_max d) (max_backoff c)) with (Z.min d (max_backoff c)) by lia.
  apply Z.min_r. etrans; [|exact max_millis]. apply Z.div_le_mono; lia.
Qed.

(** The scheduler as one environment sees it. *)
Definition sees (env : string) (s : SchedulerState) (x : env_course) : Prop :=
  (env ∈ in_flight s ↔ underway x = true) ∧ 0 ≤ failed_times x
  ∧ retries s !! env = if decide (failed_times x = 0) then None
                       else Some {| failures := Z.min u32_max (failed_times x); retry_at := waits_until c x |}.

(** What an environment that asks is told. *)
Lemma begin_answers env s x now :
  sees env s x →
  begin s env now
  = if underway x then (AdmitBusy, s)
    else if may_begin c x now then (AdmitStarted, {| in_flight := {[env]} ∪ in_flight s; retries := retries s |})
    else (AdmitDeferred (waits_until c x), s).
Proof.
  intros (Hf & H0 & Hr). unfold begin, may_begin. destruct (underway x); simpl.
  - by rewrite decide_True by (by apply Hf).
  - rewrite decide_False by (intros H; by apply Hf in H). rewrite Hr. case_decide as Hz.
    + by rewrite (proj2 (Z.eqb_eq _ _) Hz).
    + rewrite (proj2 (Z.eqb_neq _ _) Hz). simpl. rewrite Z.ltb_antisym. by destruct (_ <=? now).
Qed.

Lemma begin_other_kept env env' s now :
  env' ≠ env →
  (env ∈ in_flight (begin s env' now).2 ↔ env ∈ in_flight s) ∧ retries (begin s env' now).2 !! env = retries s !! env.
Proof.
  intros Hne. unfold begin. case_decide; [done|].
  destruct (retries s !! env') as [r|]; [destruct (now <? retry_at r)|]; simpl; [done|split; [set_solver|done]..].
Qed.

Lemma happens_sees env s x e : sees env s x → sees env (happens c s e) (goes_on c env x e).
Proof.
  intros Hs. destruct e as [env' now|env' ok now]; simpl; destruct (decide (env' = env)) as [->|Hne].
  - pose proof (begin_answers env s x now Hs) as Hb. destruct Hs as (Hf & H0 & Hr). rewrite Hb.
    unfold sees, waits_until. simpl. destruct (underway x) eqn:Hx; [done|]. simpl.
    destruct (may_begin c x now); simpl; [|done]. split; [set_solver|done].
  - destruct (begin_other_kept env env' s now Hne) as [Hf Hr]. unfold sees. by rewrite Hf, Hr.
  - destruct Hs as (Hf & H0 & Hr). unfold sees, waits_until, finish. destruct ok; simpl.
    + split_and!; [set_solver|done|]. by rewrite lookup_delete_eq.
    + split_and!; [set_solver|lia|]. rewrite lookup_insert_eq, decide_False by lia. f_equal.
      assert (match retries s !! env with Some r => u32_saturating_succ (failures r) | None => 1 end
              = Z.min u32_max (failed_times x + 1)) as ->.
      { rewrite Hr. case_decide as Hz; [by rewrite Hz|]. simpl. unfold u32_saturating_succ. lia. }
      by rewrite backoff_capped, backoff_is_wait by lia.
  - destruct Hs as (Hf & H0 & Hr). unfold sees, finish. destruct ok; simpl.
    + split_and!; [set_solver|done|]. by rewrite lookup_delete_ne.
    + split_and!; [set_solver|done|]. by rewrite lookup_insert_ne.
Qed.

Lemma history_sees env events :
  sees env (foldl (happens c) idle events) (foldl (goes_on c env) at_rest events).
Proof.
  induction events as [|e events IH] using rev_ind; [|rewrite !foldl_app; by apply happens_sees].
  split_and!; [|done|done]. split; [set_solver|done].
Qed.

Lemma wait_between n :
  0 < n → initial_backoff c / 1000000 ≤ wait_ms c n ≤ max_backoff c / 1000000.
Proof. intros Hn. rewrite <- backoff_is_wait by done. by apply backoff_between. Qed.

Lemma wait_grows n : 0 < n → wait_ms c n ≤ wait_ms c (n + 1).
Proof.
  intros Hn. unfold wait_ms. apply Z.div_le_mono; [done|]. apply Z.min_le_compat_r.
  apply Z.mul_le_mono_nonneg_l; [lia|]. apply Z.pow_le_mono_r; lia.
Qed.
End Waiting.

(** C38: the backoff of an environment follows its own failures: whatever the
    environments ask and however their runs end, in any order, an environment
    that asks to begin is busy exactly while its run has not ended, is deferred
    exactly while its last run failed and the wait since then is not over, and
    is told that time, and begins otherwise; only then does the scheduler
    change, and only by this run.  The wait doubles with each failure in a row,
    from the configured initial backoff up to the configured maximum and never
    beyond, and a success resets it.  What happens to other environments does
    not matter. *)
Theorem backoff_follows_failures c events env now :
  0 < initial_backoff c ≤ max_backoff c → max_backoff c ≤ duration_max →
  max_backoff c / 1000000 ≤ i64_max →
  let s := foldl (happens c) idle events in
  let x := foldl (goes_on c env) at_rest events in
  match begin s env now with
  | (AdmitBusy, s') => underway x = true ∧ s' = s
  | (AdmitDeferred t, s') =>
    underway x = false ∧ 0 < failed_times x ∧ now < t ∧ t = i64_saturating_add (failed_last x) (wait_ms c (failed_times x)) ∧ s' = s
  | (AdmitStarted, s') =>
    underway x = false
    ∧ (failed_times x = 0 ∨ i64_saturating_add (failed_last x) (wait_ms c (failed_times x)) ≤ now)
    ∧ in_flight s' = {[env]} ∪ in_flight s ∧ retries s' = retries s
  end
  ∧ (0 < failed_times x →
       initial_backoff c / 1000000 ≤ wait_ms c (failed_times x) ≤ max_backoff c / 1000000
       ∧ wait_ms c (failed_times x) ≤ wait_ms c (failed_times x + 1)).
Proof.
  intros Hi Hm Hb s x. pose proof (history_sees c Hi Hm Hb env events) as Hs. fold s x in Hs.
  rewrite (begin_answers c env s x now Hs). destruct Hs as (_ & H0 & _). split.
  - unfold may_begin. destruct (underway x); simpl; [done|].
    destruct (Z.eqb_spec (failed_times x) 0) as [Hz|Hz]; simpl; [by auto|].
    destruct (Z.leb_spec (waits_until c x) now) as [Hle|Hlt]; simpl; [by auto|].
    split_and!; [done|lia|done|done|done].
  - intros Hn. split; [by apply wait_between|by apply wait_grows].
Qed.

(** ** The index agrees with itself and with the store *)

Definition index_ok (i : EnvironmentIndex) : Prop :=
  ∀ id name, by_id i !! id = Some name ↔ ∃ e, by_name i !! name = Some e ∧ entry_id e = id.

Lemma index_ok_inj i id id' name :
  index_ok i → by_id i !! id = Some name → by_id i !! id' = Some name → id = id'.
Proof. intros Hi (e & He & <-)%Hi (e' & He' & <-)%Hi. congruence. Qed.

Lemma index_names i name : index_ok i → name ∈ sorted_names i ↔ ∃ id, by_id i !! id = Some name.
Proof.
  intros Hi. unfold sorted_names. rewrite elem_of_btree_keys. split.
  - intros [e He]. exists (entry_id e). apply Hi. eauto.
  - intros [id (e & He & _)%Hi]. eauto.
Qed.

(** The names an upsert leaves, before it adds its own. *)
Lemma freed_names i o names :
  index_ok i →
  names = match by_id i !! object_id o with
          | Some previous => if decide (previous = object_name o) then by_name i
                             else delete previous (by_name i)
          | None => by_name i
          end →
  names !! object_name o = by_name i !! object_name o
  ∧ ∀ name e, name ≠ object_name o →
      names !! name = Some e ↔ by_name i !! name = Some e ∧ entry_id e ≠ object_id o.
Proof.
  intros Hi ->. destruct (by_id i !! object_id o) as [previous|] eqn:Hp.
  - case_decide as Heq.
    + subst previous. split; [done|]. intros name e Hne. split; [|tauto]. intros He. split; [done|].
      intros Hid. assert (by_id i !! object_id o = Some name) by (apply Hi; eauto). congruence.
    + split; [by rewrite lookup_delete_ne|]. intros name e Hne. rewrite lookup_delete_Some. split.
      * intros [Hnp He]. split; [done|]. intros Hid.
        assert (by_id i !! object_id o = Some name) by (apply Hi; eauto). congruence.
      * intros [He Hid]. split; [|done]. intros <-.
        apply Hi in Hp as (e' & He' & Hid'). congruence.
  - split; [done|]. intros name e Hne. split; [|tauto]. intros He. split; [done|].
    intros Hid. assert (by_id i !! object_id o = Some name) by (apply Hi; eauto). congruence.
Qed.

Lemma upsert_by_id i o id :
  index_ok i →
  by_id (index_upsert i o) !! id =
  if decide (id = object_id o) then Some (object_name o)
  else if decide (by_id i !! id = Some (object_name o)) then None else by_id i !! id.
Proof.
  intros Hi. unfold index_upsert. set (names := match by_id i !! object_id o with Some _ => _ | None => _ end).
  destruct (freed_names i o names Hi eq_refl) as [Hname _]. simpl. rewrite Hname.
  destruct (by_name i !! object_name o) as [e|] eqn:He.
  - assert (Hown : by_id i !! entry_id e = Some (object_name o)) by (apply Hi; eauto).
    destruct (decide (entry_id e = object_id o)) as [Heq|Hne].
    + destruct (decide (id = object_id o)) as [->|Hid]; [by rewrite lookup_insert_eq|].
      rewrite lookup_insert_ne by done. case_decide as Hs; [|done].
      destruct Hid. rewrite <- Heq. by eapply index_ok_inj.
    + destruct (decide (id = object_id o)) as [->|Hid].
      { by rewrite lookup_delete_ne, lookup_insert_eq. }
      case_decide as Hs.
      * rewrite (index_ok_inj _ _ _ _ Hi Hs Hown). apply lookup_delete_eq.
      * rewrite lookup_delete_ne by congruence. by rewrite lookup_insert_ne.
  - destruct (decide (id = object_id o)) as [->|Hid]; [by rewrite lookup_insert_eq|].
    rewrite lookup_insert_ne by done. case_decide as Hs; [|done].
    apply Hi in Hs as (e & He' & _). congruence.
Qed.

Lemma upsert_ok i o : index_ok i → index_ok (index_upsert i o).
Proof.
  intros Hi id name. rewrite upsert_by_id by done.
  unfold index_upsert. set (names := match by_id i !! object_id o with Some _ => _ | None => _ end).
  destruct (freed_names i o names Hi eq_refl) as [_ Hnames]. simpl.
  destruct (decide (name = object_name o)) as [->|Hn].
  - rewrite lookup_insert_eq. repeat case_decide; naive_solver.
  - rewrite lookup_insert_ne by done. split.
    + repeat case_decide; [naive_solver|done|]. intros (e & He & Hid)%Hi. exists e.
      split; [|done]. apply Hnames; [done|]. split; congruence.
    + intros (e & He & <-). apply Hnames in He as [He Hid]; [|done].
      assert (Hs : by_id i !! entry_id e = Some name) by (apply Hi; eauto).
      rewrite !decide_False by congruence. done.
Qed.

Lemma remove_by_id i id : by_id (index_remove_id i id) = delete id (by_id i).
Proof.
  unfold index_remove_id. destruct (by_id i !! id) eqn:H; [done|]. by rewrite delete_id.
Qed.

Lemma remove_ok i id : index_ok i → index_ok (index_remove_id i id).
Proof.
  intros Hi id' name. rewrite remove_by_id. unfold index_remove_id.
  destruct (by_id i !! id) as [n|] eqn:Hn; simpl.
  - rewrite lookup_delete_Some, (Hi id' name). split.
    + intros (Hne & e & He & <-). exists e. split; [|done]. rewrite lookup_delete_ne; [done|].
      intros <-. apply Hi in Hn as (e' & He' & Hid). congruence.
    + intros (e & [Hne He]%lookup_delete_Some & <-). split; [|eauto]. intros ->.
      assert (by_id i !! entry_id e = Some name) by (apply Hi; eauto). congruence.
  - rewrite delete_id by done. apply Hi.
Qed.

Lemma removes_by_id ids i id :
  by_id (foldl index_remove_id i ids) !! id = if decide (id ∈ ids) then None else by_id i !! id.
Proof.
  revert i. induction ids as [|x ids IH]; intros i; [done|].
  change (foldl index_remove_id i (x :: ids)) with (foldl index_remove_id (index_remove_id i x) ids).
  rewrite IH, remove_by_id. destruct (decide (id ∈ ids)).
  - by rewrite decide_True by set_solver.
  - destruct (decide (id = x)) as [->|].
    + rewrite decide_True by set_solver. apply lookup_delete_eq.
    + rewrite decide_False by set_solver. by apply lookup_delete_ne.
Qed.

Lemma removes_ok ids i : index_ok i → index_ok (foldl index_remove_id i ids).
Proof. revert i. induction ids as [|x ids IH]; intros i Hi; simpl; [done|]. by apply IH, remove_ok. Qed.

Lemma upserts_ok objects i : index_ok i → index_ok (foldl index_upsert i objects).
Proof. revert i. induction objects as [|o l IH]; intros i Hi; simpl; [done|]. by apply IH, upsert_ok. Qed.

(** An id that no upserted object has, under a name none of them has. *)
Lemma upserts_other objects i id :
  index_ok i → (∀ o, o ∈ objects → object_id o ≠ id ∧ by_id i !! id ≠ Some (object_name o)) →
  by_id (foldl index_upsert i objects) !! id = by_id i !! id.
Proof.
  revert i. induction objects as [|o l IH]; intros i Hi Ho; [done|].
  destruct (Ho o ltac:(by left)) as [Hid Hname].
  assert (Hsame : by_id (index_upsert i o) !! id = by_id i !! id).
  { rewrite upsert_by_id by done. rewrite decide_False by congruence. by rewrite decide_False. }
  simpl. rewrite IH; [done|by apply upsert_ok|]. intros o' Ho'. rewrite Hsame. apply Ho. by right.
Qed.

#[local] Instance Object_eq_dec : EqDecision Object.
Proof. solve_decision. Defined.

(** What an upserted object gets. *)
Lemma upserts_own objects i o :
  index_ok i → o ∈ objects →
  (∀ o', o' ∈ objects → object_id o' = object_id o ∨ object_name o' = object_name o → o' = o) →
  by_id (foldl index_upsert i objects) !! object_id o = Some (object_name o).
Proof.
  revert i. induction objects as [|a l IH]; intros i Hi Hin Hu; [by apply elem_of_nil in Hin|].
  simpl. destruct (decide (o ∈ l)) as [Hl|Hl].
  { apply IH; [by apply upsert_ok|done|]. intros o' Ho'. apply Hu. by right. }
  apply elem_of_cons in Hin as [->|]; [|done].
  rewrite upserts_other; [|by apply upsert_ok|].
  - by rewrite upsert_by_id, decide_True.
  - intros o' Ho'. rewrite upsert_by_id, decide_True by done.
    split; intros Hsame; (rewrite (Hu o') in Ho'; [done|by right|]); [auto|right; congruence].
Qed.

(** What the store must answer for the index to follow it: every listed id is
    a usable environment of its own name, under which the index may know it. *)
Record fleet (i : EnvironmentIndex) (ids : list string) (get : string → option Object) : Prop := {
  fleet_read id : id ∈ ids → ∃ o, get id = Some o ∧ object_id o = id ∧ usable_environment o = true
    ∧ (by_id i !! id = None ∨ by_id i !! id = Some (object_name o));
  fleet_names id id' o o' : id ∈ ids → id' ∈ ids → get id = Some o → get id' = Some o' →
    object_name o = object_name o' → id = id'
}.

Lemma fleet_own i ids get id o : fleet i ids get → id ∈ ids → get id = Some o → object_id o = id.
Proof. intros Hf Hid Ho. destruct (fleet_read _ _ _ Hf id Hid) as (o' & Ho' & ? & _). congruence. Qed.

Lemma elem_of_loaded i ids get o :
  fleet i ids get →
  o ∈ filter (λ o, usable_environment o = true) (omap get (membership_delta i ids).1) ↔
  ∃ id, id ∈ ids ∧ by_id i !! id = None ∧ get id = Some o.
Proof.
  intros Hf. simpl. rewrite list_elem_of_filter, list_elem_of_omap. split.
  - intros [_ (id & Hid & Ho)]. apply list_elem_of_filter in Hid as [Hn Hid]. eauto.
  - intros (id & Hid & Hn & Ho). destruct (fleet_read _ _ _ Hf id Hid) as (o' & Ho' & _ & Hu & _).
    split; [congruence|]. exists id. split; [|done]. by apply list_elem_of_filter.
Qed.

Lemma elem_of_disappeared i ids id :
  id ∈ (membership_delta i ids).2 ↔ is_Some (by_id i !! id) ∧ id ∉ ids.
Proof.
  simpl. rewrite list_elem_of_filter, list_elem_of_fmap. split.
  - intros [Hid ([id' n] & -> & Hin)]. apply elem_of_map_to_list in Hin. simpl in *. eauto.
  - intros [[n Hn] Hid]. split; [done|]. exists (id, n). by rewrite elem_of_map_to_list.
Qed.

Lemma refresh_by_id listing ids get i id :
  index_ok i → initialized i = true → fleet i ids get →
  by_id (refresh_environment_index true listing ids get i) !! id =
  if decide (id ∈ ids) then object_name <$> get id else None.
Proof.
  intros Hi Hinit Hf. unfold refresh_environment_index. rewrite Hinit. cbn [negb orb].
  rewrite (surjective_pairing (membership_delta i ids)). rewrite removes_by_id.
  destruct (decide (id ∈ ids)) as [Hid|Hid].
  - rewrite decide_False by (rewrite elem_of_disappeared; tauto).
    destruct (fleet_read _ _ _ Hf id Hid) as (o & Ho & Hoid & _ & [Hn|Hn]); rewrite Ho.
    + rewrite <- Hoid. apply upserts_own; [done|apply elem_of_loaded; eauto|].
      intros o' (id' & Hid' & _ & Ho')%elem_of_loaded Hsame; [|done].
      pose proof (fleet_own _ _ _ _ _ Hf Hid' Ho'). assert (id' = id) as ->; [|congruence].
      destruct Hsame; [congruence|]. by eapply fleet_names.
    + rewrite upserts_other; [done..|]. intros o' (id' & Hid' & Hn' & Ho')%elem_of_loaded; [|done].
      pose proof (fleet_own _ _ _ _ _ Hf Hid' Ho'). split; [congruence|]. rewrite Hn. intros [= Hname].
      assert (id = id') by (by eapply fleet_names). congruence.
  - destruct (by_id i !! id) as [n|] eqn:Hn.
    + rewrite decide_True by (rewrite elem_of_disappeared; eauto). done.
    + rewrite decide_False by (rewrite elem_of_disappeared; intros [[? ?] _]; congruence).
      rewrite upserts_other; [done..|]. intros o' (id' & Hid' & _ & Ho')%elem_of_loaded; [|done].
      pose proof (fleet_own _ _ _ _ _ Hf Hid' Ho'). split; [congruence|by rewrite Hn].
Qed.

(** The index a reconciler keeps is the fleet: when the store lists the
    ids of its active environments and reads each of them, a refresh of an
    index that agrees with itself names exactly those environments, whichever
    ones were added, removed or replaced since the last tick, and the index
    agrees with itself again. *)
Theorem refreshed_index_is_fleet listing ids get i name :
  index_ok i → initialized i = true → fleet i ids get →
  index_ok (refresh_environment_index true listing ids get i)
  ∧ (name ∈ sorted_names (refresh_environment_index true listing ids get i) ↔
     ∃ id o, id ∈ ids ∧ get id = Some o ∧ object_name o = name).
Proof.
  intros Hi Hinit Hf.
  assert (Hok : index_ok (refresh_environment_index true listing ids get i)).
  { unfold refresh_environment_index. rewrite Hinit. by apply removes_ok, upserts_ok. }
  split; [done|]. rewrite index_names by done. split.
  - intros [id Hid]. rewrite refresh_by_id in Hid by done. case_decide; [|done].
    apply fmap_Some in Hid as (o & Ho & ->). eauto.
  - intros (id & o & Hid & Ho & <-). exists id. by rewrite refresh_by_id, decide_True, Ho.
Qed.

(** ** Reports *)

Inductive EnvironmentStatus :=
| StatusCurrent
| StatusApplied (plan_id : string) (steps : nat)
| StatusAwaitingRuntime (plan_id : string) (steps : nat)
| StatusAwaitingApproval (plan_id : string) (steps : nat)
| StatusHeld (plan_id : string) (steps : nat) (reason scope : string)
| StatusFailed (error : string)
| StatusDeferred (retry_at : Z)
| StatusBusy.

Record EnvironmentResult := { result_environment : string; result_status : EnvironmentStatus }.

Definition status_failed (s : EnvironmentStatus) : bool :=
  match s with StatusFailed _ => true | _ => false end.

Definition status_waits (s : EnvironmentStatus) : bool :=
  match s with StatusBusy | StatusDeferred _ | StatusHeld _ _ _ _ => true | _ => false end.

Definition count_status (f : EnvironmentStatus → bool) (report : list EnvironmentResult) : Z :=
  Z.of_nat (length (filter (λ r, f (result_status r) = true) report)).

(** [TickReport::failures] and [successes]. *)
Definition report_failures : list EnvironmentResult → Z := count_status status_failed.

Definition report_successes (report : list EnvironmentResult) : Z :=
  Z.max 0 (Z.max 0 (Z.of_nat (length report) - report_failures report)
           - count_status status_waits report).

Record ReconcileDiagnostics := {
  ticks_total : Z; ticks_failed : Z; last_outcome : string;
  last_environments_total : Z; last_environments_failed : Z; environments_busy_total : Z
}.

Definition u64_saturating_add (a b : Z) : Z := Z.min u64_max (a + b).

Definition status_busy (s : EnvironmentStatus) : bool :=
  match s with StatusBusy => true | _ => false end.

(** [record_tick], with [TickReport::diagnostics]. *)
Definition record_tick (d : ReconcileDiagnostics) (report : list EnvironmentResult) :
    ReconcileDiagnostics :=
  let failed := report_failures report in {|
  ticks_total := u64_saturating_add (ticks_total d) 1;
  ticks_failed := if 0 <? failed then u64_saturating_add (ticks_failed d) 1 else ticks_failed d;
  last_outcome := if failed =? 0 then "ok" else "degraded";
  last_environments_total := Z.of_nat (length report);
  last_environments_failed := failed;
  environments_busy_total :=
    u64_saturating_add (environments_busy_total d) (count_status status_busy report) |}.

(** ** A tick *)

Section Tick.
Context `{fence : ReconcileTickFence F} (config : Config).

(** A job with the generation of its claim, when there is a fence. *)
Record Job := { job_environment : string; job_generation : option Z }.

Record TickState := {
  scheduler : SchedulerState; shared_fence : option F;
  report : list EnvironmentResult; jobs : list Job
}.

Definition reported (t : TickState) (s : SchedulerState) (env : string) (status : EnvironmentStatus) :
    TickState := {|
  scheduler := s; shared_fence := shared_fence t;
  report := report t ++ [{| result_environment := env; result_status := status |}]; jobs := jobs t |}.

Definition spawned (t : TickState) (s : SchedulerState) (f : option F) (job : Job) : TickState := {|
  scheduler := s; shared_fence := f; report := report t; jobs := jobs t ++ [job] |}.

(** One environment of the admission loop of [run_admitted], with the three
    clock readings it may take. *)
Definition admit_one (clock : string → Z * Z * Z) (t : TickState) (env : string) : TickState :=
  let '(begin_at, fence_at, finish_at) := clock env in
  match begin (scheduler t) env begin_at with
  | (AdmitBusy, s) => reported t s env StatusBusy
  | (AdmitDeferred at_ms, s) => reported t s env (StatusDeferred at_ms)
  | (AdmitStarted, s) =>
    match shared_fence t with
    | None => spawned t s None {| job_environment := env; job_generation := None |}
    | Some f =>
      match try_begin f env (instance_id config) fence_at (fence_ttl_ms config) with
      | Ok (FenceStarted g, f') =>
        spawned t s (Some f') {| job_environment := env; job_generation := Some g |}
      | Ok (FenceBusy _, f') | Ok (FenceStale, f') =>
        reported {| scheduler := s; shared_fence := Some f'; report := report t; jobs := jobs t |}
          (finish s env true finish_at config) env StatusBusy
      | Err _ =>
        reported t (finish s env false finish_at config) env (StatusFailed "reconcile fence")
      end
    end
  end.

(** How a job ends: the result of its environment, or a panic, which its
    guards turn into a failure of the environment and the report into one of
    an unknown environment. *)
Inductive job_end := JobDone (r : result EnvironmentStatus string) | JobPanicked (error : string).

Definition end_status (e : job_end) : EnvironmentStatus :=
  match e with
  | JobDone (Ok status) => status
  | JobDone (Err error) => StatusFailed error
  | JobPanicked error => StatusFailed error
  end.

Definition end_environment (job : Job) (e : job_end) : string :=
  match e with JobDone _ => job_environment job | JobPanicked _ => "unknown" end.

Definition end_ok (e : job_end) : bool :=
  match e with JobDone (Ok _) => true | _ => false end.

(** [AdmissionGuard::finish], then the drop of [FenceGuard]. *)
Definition end_job (t : TickState) (ending : Job * job_end * Z) : TickState :=
  let '(job, e, now) := ending in {|
  scheduler := finish (scheduler t) (job_environment job) (end_ok e) now config;
  shared_fence :=
    match shared_fence t, job_generation job with
    | Some f, Some g => Some (release f (job_environment job) (instance_id config) g now)
    | f, _ => f
    end;
  report := report t ++ [{| result_environment := end_environment job e; result_status := end_status e |}];
  jobs := jobs t |}.

(** [run_admitted] over the names of a tick, whose jobs end as [endings] say,
    in that order. *)
Definition admit_all (clock : string → Z * Z * Z) (s : SchedulerState) (f : option F)
    (names : list string) : TickState :=
  foldl (admit_one clock) {| scheduler := s; shared_fence := f; report := []; jobs := [] |} names.

Definition run_tick (clock : string → Z * Z * Z) (s : SchedulerState) (f : option F)
    (names : list string) (endings : list (Job * job_end * Z)) :
    list EnvironmentResult * SchedulerState * option F :=
  let t := foldl end_job (admit_all clock s f names) endings in
  (sort_by (cmp_on result_environment String.compare) (report t), scheduler t, shared_fence t).
End Tick.

Section TickFacts.
Context `{fence : ReconcileTickFence F} (config : Config).

Definition job_names (t : TickState (F := F)) : list string := job_environment <$> jobs t.

(** What the admission loop keeps: each environment of [names] is either
    reported or has a job, and exactly the jobs were added to what was in
    flight. *)
Record admitting (s0 : SchedulerState) (names : list string) (t : TickState (F := F)) : Prop := {
  ad_names : (result_environment <$> report t) ++ job_names t ≡ₚ names;
  ad_flight : in_flight (scheduler t) = in_flight s0 ∪ list_to_set (job_names t);
  ad_fresh env : env ∈ job_names t → env ∉ in_flight s0
}.

Lemma begin_started s env now s' :
  begin s env now = (AdmitStarted, s') →
  env ∉ in_flight s ∧ in_flight s' = {[env]} ∪ in_flight s ∧ retries s' = retries s.
Proof.
  unfold begin. case_decide; [done|]. destruct (retries s !! env) as [r|]; [case_match|];
    intros [= <-]; done.
Qed.

Lemma begin_other s env now a s' : begin s env now = (a, s') → a ≠ AdmitStarted → s' = s.
Proof.
  unfold begin. case_decide; [by intros [= <- <-]|].
  destruct (retries s !! env) as [r|]; [case_match|]; by intros [= <- <-].
Qed.

Lemma finish_in_flight s env ok now : in_flight (finish s env ok now config) = in_flight s ∖ {[env]}.
Proof. unfold finish. by destruct ok. Qed.

Lemma reported_admitting s0 names t t' s env status :
  admitting s0 names t → in_flight s = in_flight (scheduler t) → report t' = report t →
  jobs t' = jobs t → admitting s0 (names ++ [env]) (reported t' s env status).
Proof.
  intros [Hn Hf Hfr] Hs Hrep Hjobs. split; unfold job_names, reported in *; simpl; rewrite ?Hrep, ?Hjobs.
  - rewrite fmap_app. simpl. rewrite <- Hn. by rewrite <- !app_assoc, (Permutation_app_comm [env]).
  - by rewrite Hs, Hf.
  - done.
Qed.

Lemma admit_one_admitting clock s0 names t env :
  env ∉ names → admitting s0 names t → admitting s0 (names ++ [env]) (admit_one config clock t env).
Proof.
  intros Hnew Ht. unfold admit_one. destruct (clock env) as [[t1 t2] t3].
  destruct (begin (scheduler t) env t1) as [a s] eqn:Hb. destruct a as [| |at_ms].
  2,3: apply begin_other in Hb as ->; [|done]; by apply (reported_admitting _ _ t).
  apply begin_started in Hb as (Hout & Hin & Hr).
  assert (Hjob : ∀ f g, admitting s0 (names ++ [env])
            (spawned t s f {| job_environment := env; job_generation := g |})).
  { intros f g. destruct Ht as [Hn Hf Hfr]. split; unfold job_names in *; simpl; rewrite ?fmap_app.
    - simpl. by rewrite <- Hn, app_assoc.
    - rewrite Hin, Hf. simpl. rewrite list_to_set_app_L. set_solver.
    - intros e [He|He]%elem_of_app; [by apply Hfr|]. set_solver. }
  destruct (shared_fence t) as [f|]; [|apply Hjob].
  assert (Hback : ∀ ok, in_flight (finish s env ok t3 config) = in_flight (scheduler t)).
  { intros ok. rewrite finish_in_flight, Hin. set_solver. }
  destruct (try_begin _ _ _ _ _) as [[[g|o|] f']|]; [apply Hjob| | |].
  all: by apply (reported_admitting _ _ t).
Qed.

Lemma admit_all_admitting clock s f names :
  NoDup names → admitting s names (admit_all config clock s f names).
Proof.
  unfold admit_all. induction names as [|env names IH] using rev_ind; intros Hn.
  - split; unfold job_names; simpl; [done|set_solver|by intros ? ?%elem_of_nil].
  - rewrite foldl_app. simpl. apply NoDup_app in Hn as (Hn & Hd & _).
    apply admit_one_admitting; [|by apply IH]. intros Hin. by apply (Hd env Hin); left.
Qed.

Lemma end_jobs_spec t endings :
  in_flight (scheduler (foldl (end_job config) t endings))
    = in_flight (scheduler t) ∖ list_to_set (job_environment <$> endings.*1.*1)
  ∧ report (foldl (end_job config) t endings)
    = report t ++ ((λ '(job, e, _), {| result_environment := end_environment job e;
                                       result_status := end_status e |}) <$> endings).
Proof.
  revert t. induction endings as [|[[job e] now] endings IH]; intros t.
  { simpl. split; [set_solver|by rewrite app_nil_r]. }
  change (foldl (end_job config) t ((job, e, now) :: endings))
    with (foldl (end_job config) (end_job config t (job, e, now)) endings).
  destruct (IH (end_job config t (job, e, now))) as [-> ->]. split; simpl.
  - rewrite finish_in_flight. set_solver.
  - by rewrite <- app_assoc.
Qed.

(** A tick accounts for every environment: whatever is in flight, backed
    off or claimed by other hosts, and in whatever order its jobs end, the
    report has exactly one entry for each environment of the tick, in the
    order of their names, and when the tick is over exactly what was in
    flight before it is in flight again. *)
Theorem tick_accounts_for_all clock s f names endings rep s' f' :
  NoDup names →
  endings.*1.*1 ≡ₚ jobs (admit_all config clock s f names) →
  (∀ job e now, (job, e, now) ∈ endings → ∃ r, e = JobDone r) →
  run_tick config clock s f names endings = (rep, s', f') →
  result_environment <$> rep ≡ₚ names
  ∧ StronglySorted (λ a b, cmp_on result_environment String.compare a b ≠ Gt) rep
  ∧ in_flight s' = in_flight s.
Proof.
  intros Hn Hjobs Hdone H. unfold run_tick in H. injection H as <- <- _.
  destruct (admit_all_admitting clock s f names Hn) as [Hnames Hflight Hfresh].
  destruct (end_jobs_spec (admit_all config clock s f names) endings) as [Hin Hrep].
  assert (Henv : result_environment <$> ((λ '(job, e, _),
      {| result_environment := end_environment job e; result_status := end_status e |}) <$> endings)
    = job_environment <$> endings.*1.*1).
  { rewrite <- !list_fmap_compose. apply list_fmap_ext. intros i [[job e] now] Hi.
    destruct (Hdone job e now) as [r ->]; [by eapply list_elem_of_lookup_2|done]. }
  split_and!.
  - rewrite sort_by_perm, Hrep, fmap_app, Henv. etrans; [|exact Hnames].
    apply Permutation_app; [done|]. by apply fmap_Permutation.
  - apply sort_by_sorted. apply _.
  - rewrite Hin, Hflight. unfold job_names in *.
    assert (Hset : list_to_set (C := gset string) (job_environment <$> endings.*1.*1)
              = list_to_set (job_environment <$> jobs (admit_all config clock s f names))).
    { apply set_eq. intros x. rewrite !elem_of_list_to_set. by rewrite Hjobs. }
    rewrite Hset. apply set_eq. intros x. rewrite elem_of_difference, elem_of_union, elem_of_list_to_set.
    split; [tauto|]. intros Hx. split; [by left|]. intros Hj. by apply (Hfresh x).
Qed.
End TickFacts.

Module SchedulerExamples.
Import SharedReconcileFence.

Definition config : Config := {|
  initial_backoff := 5000000000; max_backoff := 300000000000; max_concurrency := 8;
  fence_ttl_ms := 30000; instance_id := "host-a" |}.

(** Five seconds, doubled, up to five minutes. *)
Example backoff_doubles :
  map (backoff_ms config) [1; 2; 3; 4; 5; 6; 7; 40] = [5000; 10000; 20000; 40000; 80000; 160000; 300000; 300000].
Proof. vm_compute. reflexivity. Qed.

Definition twice_failed : list scheduler_event :=
  [Asks "prod" 5; Ends "prod" false 10; Asks "dev" 11; Asks "prod" 6000; Ends "dev" true 12; Ends "prod" false 6010].

Definition after_failures : SchedulerState := foldl (happens config) idle twice_failed.

(** The second wait is of ten seconds. *)
Lemma backoff_follows_failures_witness :
  (begin after_failures "prod" 16009).1 = AdmitDeferred 16010
  ∧ (begin after_failures "prod" 16010).1 = AdmitStarted
  ∧ 16009 < 16010 ∧ wait_ms config 2 ≤ 300000.
Proof.
  split; [vm_compute; reflexivity|]. split; [vm_compute; reflexivity|].
  destruct (backoff_follows_failures config twice_failed "prod" 16009) as [Hb Hw];
    [split; vm_compute; done|vm_compute; done|vm_compute; done|].
  assert (He : begin (foldl (happens config) idle twice_failed) "prod" 16009 = (AdmitDeferred 16010, after_failures))
    by (vm_compute; reflexivity).
  rewrite He in Hb. split; [exact (proj1 (proj2 (proj2 Hb)))|].
  exact (proj2 (proj1 (Hw (proj1 (proj2 Hb))))).
Defined.

Definition env_object (id name : string) : Object := {|
  object_id := id; object_kind := KIND_ENVIRONMENT; object_name := name; object_namespace := NS;
  external_id := ""; properties := ∅; created := 1; updated := 1 |}.

Definition known : EnvironmentIndex :=
  index_upsert {| initialized := true; by_name := ∅; by_id := ∅ |} (env_object "e1" "prod").

Definition read (id : string) : option Object :=
  if decide (id = "e2") then Some (env_object "e2" "dev") else None.

Lemma refreshed_index_is_fleet_witness :
  sorted_names (refresh_environment_index true [] ["e2"] read known) = ["dev"]
  ∧ "dev" ∈ sorted_names (refresh_environment_index true [] ["e2"] read known).
Proof.
  split; [vm_compute; reflexivity|].
  apply (refreshed_index_is_fleet [] ["e2"] read known "dev").
  - apply upsert_ok. intros id name. split; [done|by intros (e & ? & _)].
  - reflexivity.
  - split.
    + intros id ->%list_elem_of_singleton. exists (env_object "e2" "dev").
      split_and!; [reflexivity..|left; vm_compute; reflexivity].
    + by intros id id' o o' ->%list_elem_of_singleton ->%list_elem_of_singleton.
  - exists "e2", (env_object "e2" "dev"). split_and!; [by left|reflexivity..].
Defined.

Definition waiting : SchedulerState := {|
  in_flight := {["busy"]}; retries := {["late" := {| failures := 1; retry_at := 99 |}]} |}.

Definition others : claims :=
  {["taken" := {| claim_owner := "host-b"; claim_generation := 1; claim_expires := 99 |}]}.

Definition endings : list (Job * job_end * Z) :=
  [({| job_environment := "prod"; job_generation := Some 1 |}, JobDone (Ok StatusCurrent), 7);
   ({| job_environment := "dev"; job_generation := Some 1 |}, JobDone (Err "no channel"), 9)].

Definition ticked := run_tick config (λ _, (1, 2, 3)) waiting (Some others)
  ["busy"; "dev"; "late"; "prod"; "taken"] endings.

Lemma tick_accounts_for_all_witness :
  result_status <$> ticked.1.1
    = [StatusBusy; StatusFailed "no channel"; StatusDeferred 99; StatusCurrent; StatusBusy]
  ∧ in_flight ticked.1.2 = in_flight waiting.
Proof.
  split; [vm_compute; reflexivity|].
  refine (proj2 (proj2 (tick_accounts_for_all config (λ _, (1, 2, 3)) waiting (Some others)
    ["busy"; "dev"; "late"; "prod"; "taken"] endings ticked.1.1 ticked.1.2 ticked.2 _ _ _ _))).
  - vm_compute. repeat constructor; rewrite ?elem_of_cons, ?elem_of_nil; naive_solver.
  - vm_compute. apply perm_swap.
  - intros job e now Hin. apply elem_of_cons in Hin as [Heq|[Heq|[]%elem_of_nil]%elem_of_cons];
      injection Heq; intros _ -> _; by eexists.
  - fold ticked. by destruct ticked as [[? ?] ?].
Defined.
End SchedulerExamples.
