(* ===== verification/Deployments.v ===== *)
(** * What an environment records of its deployments

    The deployment properties of [environment.rs] ([transition_deployment],
    [record_deployed], [record_unknown], the environment side of
    [record_deployment_observation], [reconcile_deployment]), the outcome
    vocabulary of [apply/outcome.rs], and the dependency stamp of
    [dependency_document.rs]. *)

From S2P Require Import Prelude RustStr Semver Kinds Facts Compatibility Contracts Plan ObjectStore Approvals HostState Catalog HostSteps Holds DependencyDocument ReleaseSelection Convergence.

(** ** Outcomes *)

Inductive StepOutcomeStatus := OutcomeSucceeded | OutcomeBlocked | OutcomeFailed | OutcomeRolledBack.

#[export] Instance StepOutcomeStatus_eq : EqDecision StepOutcomeStatus.
Proof. solve_decision. Defined.

Definition StepOutcomeStatus_str (s : StepOutcomeStatus) : string :=
  match s with
  | OutcomeSucceeded => "succeeded"
  | OutcomeBlocked => "blocked"
  | OutcomeFailed => "failed"
  | OutcomeRolledBack => "rolled_back"
  end.

Definition StepOutcomeStatus_parse (value : string) : option StepOutcomeStatus :=
  if bool_decide (value = "succeeded") then Some OutcomeSucceeded
  else if bool_decide (value = "blocked") then Some OutcomeBlocked
  else if bool_decide (value = "failed") then Some OutcomeFailed
  else if bool_decide (value = "rolled_back") then Some OutcomeRolledBack
  else None.

Definition StepOutcomeStatus_plan_state (s : StepOutcomeStatus) : PlanState :=
  match s with
  | OutcomeSucceeded => Succeeded
  | OutcomeBlocked => Blocked
  | OutcomeFailed | OutcomeRolledBack => Failed
  end.

Record Outcome := { outcome_step : Step; outcome_status : string; outcome_detail : string }.

Definition Outcome_new (s : Step) (status : StepOutcomeStatus) (detail : string) : Outcome :=
  {| outcome_step := s; outcome_status := StepOutcomeStatus_str status; outcome_detail := detail |}.

Definition Outcome_plan_state (o : Outcome) : option PlanState :=
  StepOutcomeStatus_plan_state <$> StepOutcomeStatus_parse (outcome_status o).

Lemma outcome_status_roundtrip s : StepOutcomeStatus_parse (StepOutcomeStatus_str s) = Some s.
Proof. by destruct s. Qed.

(** ** Deployment properties *)

Inductive DeploymentTransition :=
| Unchanged
| Deployed (version : string) (previous : option string)
| Refreshed
| Removed (version : string)
| Unknown.

#[export] Instance DeploymentTransition_eq : EqDecision DeploymentTransition.
Proof. solve_decision. Defined.

Notation props := (gmap string string).

Definition deployment_key (product instance : string) : string :=
  if str_is_empty instance then product else instance.

Definition set_properties (o : Object) (ps : props) (now : Z) : Object := {|
  object_id := object_id o; object_kind := object_kind o; object_name := object_name o;
  object_namespace := object_namespace o; external_id := external_id o; properties := ps;
  created := created o; updated := now |}.

Definition clear_unknown_origin (key : string) (ps : props) : props :=
  delete ("deployment_unknown_attempt." +:+ key)
    (delete ("deployment_unknown_step." +:+ key)
       (delete ("deployment_unknown_plan." +:+ key) ps)).

Definition delete_all (keys : list string) (ps : props) : props :=
  foldl (λ ps k, delete k ps) ps keys.

(** [chars().take(n)]: a continuation byte belongs to the character before
    it. *)
Definition continuation_byte (c : ascii) : bool :=
  let n := Z.of_nat (nat_of_ascii c) in (128 <=? n) && (n <? 192).

Fixpoint take_chars (n : nat) (s : string) : string :=
  match s with
  | EmptyString => EmptyString
  | String c rest =>
    if continuation_byte c then String c (take_chars n rest)
    else match n with
         | O => EmptyString
         | S n => String c (take_chars n rest)
         end
  end.

Definition FAILED_TARGET_ERROR_CHARS : nat := 1000.

Definition LF : string := String (ascii_of_nat 10) "".

Definition failed_target_key (instance : string) : string := "failed_target." +:+ instance.

Definition record_failed_target_error (instance release detail : string) (ps : props) : props :=
  <["failed_target_error." +:+ instance :=
      release +:+ LF +:+ take_chars FAILED_TARGET_ERROR_CHARS detail]> ps.

Definition held_failed_target_release (ps : props) (instance : string) : option string :=
  release ← ps !! failed_target_key instance;
  if str_is_empty release then None else Some release.

Definition held_failed_target_error (ps : props) (instance : string) : option string :=
  held ← held_failed_target_release ps instance;
  raw ← ps !! ("failed_target_error." +:+ instance);
  '(release, detail) ← split_once LF raw;
  if bool_decide (release = held) && negb (str_is_empty detail) then Some detail else None.

Section Deployments.
Context {SV : Semver} {MF : ManifestFormat} {HO : HashOrder} {PS : PlanningServices}.

Definition overlay_digest_for (ps : props) (product : string) : string :=
  overlay_digest (match ps !! ("overlay." +:+ product) with
                  | None => ∅
                  | Some raw => if str_is_empty raw then ∅ else default ∅ (overlay_of_json raw)
                  end).

Definition stamp_applied_overlays (product instance : string) (ps : props) : props :=
  let key := deployment_key product instance in
  let digest := overlay_digest_for ps product in
  if str_is_empty digest
  then delete ("config_digest." +:+ product) (delete ("applied_config." +:+ key) ps)
  else <["config_digest." +:+ product := digest]> (<["applied_config." +:+ key := digest]> ps).

Definition transition_deployment (product instance : string) (transition : DeploymentTransition)
    (detail : string) (ps : props) : props :=
  let key := deployment_key product instance in
  match transition with
  | Unchanged => ps
  | Refreshed =>
    clear_unknown_origin key
      (stamp_applied_overlays product instance
         (delete ("deployment_error." +:+ key)
            (<["deployment_health." +:+ key := "healthy"]> ps)))
  | Deployed version previous =>
    let ps := <["deployed_release." +:+ key := release_id product version]>
                (<["deployed." +:+ key := version]> ps) in
    let ps := match previous with
              | Some p => <["deployed_prev." +:+ key := p]> ps
              | None => ps
              end in
    clear_unknown_origin key
      (stamp_applied_overlays product instance
         (delete ("deployment_error." +:+ key)
            (<["deployment_health." +:+ key := "healthy"]> ps)))
  | Removed version =>
    let ps := delete_all ((λ prefix, prefix +:+ "." +:+ key) <$>
      ["deployed"; "deployed_release"; "deployment_health"; "deployment_error";
       "applied_dependencies"; "applied_config"]) ps in
    clear_unknown_origin key (<["deployed_prev." +:+ key := version]> ps)
  | Unknown =>
    <["deployment_error." +:+ key := detail]>
      (<["deployment_health." +:+ key := "unknown"]>
         (delete ("deployed_release." +:+ key) (delete ("deployed." +:+ key) ps)))
  end.

(** ** The dependency stamp *)

Definition stored_profile_by_id (ctx : Ctx) (id : string) :
    result (option CompatibilityProfile) planning_error :=
  match ctx_get ctx id ≫= λ o, properties o !! "manifest" with
  | None => Ok None
  | Some raw => let? m := ok_or (parse_raw raw) (BadManifest id) in Ok (compatibility m)
  end.

Definition deployed_set (ctx : Ctx) (ps : props) : result DeployedSet planning_error :=
  try_fold (λ acc entry,
    match strip_prefix "deployed." entry.1 with
    | None => Ok acc
    | Some product =>
      let? profile := stored_profile_by_id ctx (release_id product entry.2) in
      Ok (match profile with
          | Some p => <[product := (entry.2, p)]> acc
          | None => acc
          end)
    end) ∅ (hash_iter ps).

Definition stamp (ctx : Ctx) (product : string) (ps : props) : result props planning_error :=
  let key := "applied_dependencies." +:+ product in
  match ps !! ("deployed." +:+ product) with
  | None => Ok (delete key ps)
  | Some version =>
    let? profile := stored_profile_by_id ctx (release_id product version) in
    match profile with
    | None => Ok (delete key ps)
    | Some profile =>
      let? deployed := deployed_set ctx ps in
      let? document := document_for product profile deployed in
      Ok (match document with
          | Some d => <[key := document_digest d]> ps
          | None => delete key ps
          end)
    end
  end.

(** ** Records of one step *)

(** [record_deployed]: the properties it writes. *)
Definition record_deployed (ctx : Ctx) (product instance version : string)
    (previous : option string) (ps : props) : result props planning_error :=
  let key := deployment_key product instance in
  let ps := <["deployed_release." +:+ key := release_id product version]>
              (<["deployed." +:+ key := version]> ps) in
  let ps := match previous with
            | Some p => <["deployed_prev." +:+ key := p]> ps
            | None => ps
            end in
  stamp ctx product
    (stamp_applied_overlays product instance
       (delete ("deployment_error." +:+ key) (<["deployment_health." +:+ key := "healthy"]> ps))).

(** [record_unknown]. *)
Definition record_unknown (product instance detail : string) (ps : props) : props :=
  clear_unknown_origin instance (transition_deployment product instance Unknown detail ps).

Record Observation := {
  obs_plan : string;
  obs_attempt : string;
  obs_step : Step;
  obs_status : string;
  obs_detail : string;
  obs_transition : DeploymentTransition;
  obs_at : Z
}.

Definition hold_failed_target (o : Observation) (instance : string) (ps : props) : props :=
  record_failed_target_error instance (step_release_id (obs_step o)) (obs_detail o)
    (<["failed_target_at." +:+ instance := pretty (obs_at o)]>
       (<["failed_target_plan." +:+ instance := obs_plan o]>
          (<[failed_target_key instance := step_release_id (obs_step o)]> ps))).

Definition proves_target (t : DeploymentTransition) : bool :=
  match t with Deployed _ _ | Refreshed | Removed _ => true | Unchanged | Unknown => false end.

Definition status_is (o : Observation) (s : StepOutcomeStatus) : bool :=
  bool_decide (obs_status o = StepOutcomeStatus_str s).

Definition failed_status (o : Observation) : bool :=
  status_is o OutcomeFailed || status_is o OutcomeRolledBack.

(** The held failed target after a step: a failed forward step holds its
    release, a proven success of the held release clears it. *)
Definition update_failed_target (o : Observation) (instance : string) (ps : props) : props :=
  if failed_status o && negb (bool_decide (step_action (obs_step o) = Rollback))
  then hold_failed_target o instance ps
  else if status_is o OutcomeSucceeded
          && bool_decide (ps !! failed_target_key instance = Some (step_release_id (obs_step o)))
          && proves_target (obs_transition o)
  then delete ("failed_target_plan." +:+ instance) (delete (failed_target_key instance) ps)
  else ps.

Definition note_unknown_origin (o : Observation) (instance : string) (ps : props) : props :=
  if bool_decide (obs_transition o = Unknown)
  then <["deployment_unknown_attempt." +:+ instance := obs_attempt o]>
         (<["deployment_unknown_step." +:+ instance := step_id (obs_step o)]>
            (<["deployment_unknown_plan." +:+ instance := obs_plan o]> ps))
  else ps.

Definition stamp_outcome (ctx : Ctx) (o : Observation) (ps : props) : result props planning_error :=
  if status_is o OutcomeSucceeded then
    match obs_transition o with
    | Deployed _ _ | Refreshed => stamp ctx (step_product (obs_step o)) ps
    | Removed _ => Ok (delete ("applied_dependencies." +:+ step_product (obs_step o)) ps)
    | Unchanged | Unknown => Ok ps
    end
  else Ok ps.

(** The environment [record_deployment_observation] computes, and whether it
    is among the objects it writes. *)
Definition observe_environment (ctx : Ctx) (o : Observation) (env : Object) :
    result (option Object) planning_error :=
  let instance := step_instance_name (obs_step o) in
  let ps := transition_deployment (step_product (obs_step o)) instance (obs_transition o)
              (obs_detail o) (properties env) in
  let ps := note_unknown_origin o instance (update_failed_target o instance ps) in
  let? ps := stamp_outcome ctx o ps in
  let now := if decide (obs_transition o = Unchanged) then updated env else obs_at o in
  Ok (if negb (bool_decide (obs_transition o = Unchanged)) || failed_status o
      then Some (set_properties env ps now) else None).

(** ** Reconciling an unknown deployment *)

(** [update_reconciled_deployment_object]. *)
Definition update_reconciled_deployment (ctx : Ctx) (product instance : string)
    (deployed : option string) (ps : props) : result props planning_error :=
  let key := deployment_key product instance in
  let? ps := match deployed with
    | Some version =>
      bail_if negb (valid_identifier version) with (InvalidIdentifier "version" version) in
      bail_if negb (is_some_b (ctx_get ctx (release_id product version)))
        with (ReleaseMissing (release_id product version)) in
      Ok (<["deployed_release." +:+ key := release_id product version]>
            (<["deployed." +:+ key := version]> ps))
    | None => Ok (delete ("deployed_release." +:+ key) (delete ("deployed." +:+ key) ps))
    end in
  let? ps := stamp ctx product
    (stamp_applied_overlays product instance
       (delete ("deployment_error." +:+ key) (<["deployment_health." +:+ key := "healthy"]> ps))) in
  Ok (clear_unknown_origin key (delete ("deployed_prev." +:+ key) ps)).

(** [update_runtime_deployments_object], for one step. *)
Definition update_runtime_deployment (ctx : Ctx) (ps : props) (s : Step) :
    result props planning_error :=
  bail_if negb (valid_identifier (step_product s)) with (InvalidIdentifier "product" (step_product s)) in
  let previous_key := "deployed_prev." +:+ step_instance_name s in
  let kept_previous := ps !! previous_key in
  let? ps := update_reconciled_deployment ctx (step_product s) (step_instance_name s)
               (Some (step_to s)) ps in
  Ok (match step_from s with
      | Some previous =>
        if decide (previous ≠ step_to s) then <[previous_key := previous]> ps
        else match kept_previous with Some kept => <[previous_key := kept]> ps | None => ps end
      | None => match kept_previous with Some kept => <[previous_key := kept]> ps | None => ps end
      end).

Definition update_runtime_deployments (ctx : Ctx) (steps : list Step) (ps : props) :
    result props planning_error :=
  try_fold (update_runtime_deployment ctx) ps steps.
End Deployments.

(** ** What a recorded observation says *)

(** Reads a property through updates of other keys. *)
Ltac read_through :=
  repeat first
    [ rewrite lookup_insert_eq
    | rewrite lookup_delete_eq
    | rewrite lookup_insert_ne by first [done | (intros Hkeys%(inj (String.append _)); congruence)]
    | rewrite lookup_delete_ne by first [done | (intros Hkeys%(inj (String.append _)); congruence)] ].

Section Observed.
Context {SV : Semver} {MF : ManifestFormat} {HO : HashOrder} {PS : PlanningServices}.

(** The properties that say what an instance runs. *)
Definition recorded (ps : props) (instance : string) :
    option string * option string * option string * option string :=
  (ps !! ("deployed." +:+ instance), ps !! ("deployed_release." +:+ instance),
   ps !! ("deployed_prev." +:+ instance), ps !! ("deployment_health." +:+ instance)).

Lemma recorded_stamp ctx product ps ps' instance :
  stamp ctx product ps = Ok ps' → recorded ps' instance = recorded ps instance.
Proof.
  unfold stamp. destruct (ps !! _) as [version|].
  2: { intros [= <-]. unfold recorded. by read_through. }
  intros (profile & _ & H)%bind_ok. destruct profile as [profile|].
  2: { injection H as <-. unfold recorded. by read_through. }
  ok_inv H. injection H as <-. destruct x0; unfold recorded; by read_through.
Qed.

Lemma recorded_overlays product key ps instance :
  recorded (stamp_applied_overlays product key ps) instance = recorded ps instance.
Proof.
  unfold stamp_applied_overlays, recorded. destruct (str_is_empty _); by read_through.
Qed.

Lemma recorded_origin key ps instance :
  recorded (clear_unknown_origin key ps) instance = recorded ps instance.
Proof. unfold clear_unknown_origin, recorded. by read_through. Qed.

Lemma recorded_error key ps instance :
  recorded (delete ("deployment_error." +:+ key) ps) instance = recorded ps instance.
Proof. unfold recorded. by read_through. Qed.

Lemma recorded_failed_target o key ps instance :
  recorded (note_unknown_origin o key (update_failed_target o key ps)) instance = recorded ps instance.
Proof.
  unfold note_unknown_origin, update_failed_target, hold_failed_target, record_failed_target_error,
    failed_target_key, recorded.
  destruct (bool_decide (obs_transition o = Unknown)); repeat case_match; by read_through.
Qed.

Lemma recorded_stamp_outcome ctx o ps ps' instance :
  stamp_outcome ctx o ps = Ok ps' → recorded ps' instance = recorded ps instance.
Proof.
  unfold stamp_outcome. destruct (status_is o OutcomeSucceeded); [|by intros [= <-]].
  destruct (obs_transition o); try (by intros [= <-]); try apply recorded_stamp.
  intros [= <-]. unfold recorded. by read_through.
Qed.

(** What [recorded] is after a transition of the instance itself. *)
Definition transitioned (product : string) (t : DeploymentTransition)
    (r : option string * option string * option string * option string) :
    option string * option string * option string * option string :=
  let '(deployed, release, previous, health) := r in
  match t with
  | Unchanged => r
  | Refreshed => (deployed, release, previous, Some "healthy")
  | Deployed version prior =>
    (Some version, Some (release_id product version),
     match prior with Some p => Some p | None => previous end, Some "healthy")
  | Removed version => (None, None, Some version, None)
  | Unknown => (None, None, previous, Some "unknown")
  end.

Lemma recorded_transition product key t detail ps instance :
  key ≠ "" →
  recorded (transition_deployment product key t detail ps) instance
  = if decide (instance = key) then transitioned product t (recorded ps instance)
    else recorded ps instance.
Proof.
  intros Hk. unfold transition_deployment, deployment_key.
  destruct (str_is_empty key) eqn:He; [by destruct key|]. clear He.
  destruct t as [|version prior| |version|]; simpl transitioned;
    rewrite ?recorded_origin, ?recorded_overlays, ?recorded_error.
  - by case_decide.
  - case_decide as Hi; [subst|]; unfold recorded; destruct prior; by read_through.
  - case_decide as Hi; [subst|]; unfold recorded; by read_through.
  - change (delete_all _ ps) with
      (delete ("applied_config." +:+ key) (delete ("applied_dependencies." +:+ key)
        (delete ("deployment_error." +:+ key) (delete ("deployment_health." +:+ key)
          (delete ("deployed_release." +:+ key) (delete ("deployed." +:+ key) ps)))))).
    case_decide as Hi; [subst|]; unfold recorded; by read_through.
  - case_decide as Hi; [subst|]; unfold recorded; by read_through.
Qed.

(** Recording a step's outcome changes exactly what the step proved of
    its own instance: a deployment becomes the recorded version and release,
    healthy, with the version it replaced as the rollback destination; a
    refresh only makes it healthy; a removal forgets the version and keeps it
    as the rollback destination; an unknown outcome forgets the version, keeps
    the rollback destination and marks the instance unknown.  What every other
    instance runs stays recorded as it was. *)
Theorem observation_recorded ctx o env env' instance :
  step_instance_name (obs_step o) ≠ "" →
  observe_environment ctx o env = Ok (Some env') →
  recorded (properties env') instance
  = if decide (instance = step_instance_name (obs_step o))
    then transitioned (step_product (obs_step o)) (obs_transition o)
           (recorded (properties env) instance)
    else recorded (properties env) instance.
Proof.
  intros Hk. unfold observe_environment. intros (ps & Hs%(recorded_stamp_outcome _ _ _ _ instance) & H)%bind_ok.
  destruct (_ || _); [|done]. injection H as <-. simpl properties.
  by rewrite Hs, recorded_failed_target, recorded_transition.
Qed.
End Observed.

Module ObservationExamples.
#[local] Existing Instance PlainSemver.instance.

#[local] Instance no_manifests : ManifestFormat := {| parse_raw _ := None |}.

#[local] Instance listed_order : HashOrder := {|
  hash_iter := map_to_list; hash_iter_perm := λ m, Permutation_refl _ |}.

#[local] Instance silent : PlanningServices := {|
  lookup_release _ _ _ := None; load_recoverable _ _ _ := None; report_eval _ _ _ := Ok None;
  placement_allowed _ _ _ := true; module_admitted _ _ _ _ := true; branch_pin_matches _ := true;
  overlay_of_json _ := None; overlay_hash _ := ""; document_digest _ := "";
  observe_paths_valid _ := true; advisories _ _ _ := ([], "", None) |}.

Definition env : Object := {|
  object_id := "tenkai:env:prod"; object_kind := ""; object_name := ""; object_namespace := "tenkai";
  external_id := ""; properties := {["deployed.web" := "1.0.0"; "deployed.api" := "3.0.0"]};
  created := 0; updated := 0 |}.

Definition upgraded : Observation := {|
  obs_plan := "p"; obs_attempt := "a";
  obs_step := {| step_id := "p:step:0"; step_order := 0; step_product := "web"; step_instance := "";
    step_action := Upgrade; step_from := Some "1.0.0"; step_to := "2.0.0";
    step_release_id := release_id "web" "2.0.0"; step_release_digest := "d";
    step_artifact_digest := "a"; step_workdir := ""; step_restore := None; step_host := None |};
  obs_status := "succeeded"; obs_detail := "";
  obs_transition := Deployed "2.0.0" (Some "1.0.0"); obs_at := 9 |}.

Definition after : Object :=
  match observe_environment {| objects := ∅; catalog_links := [] |} upgraded env with
  | Ok (Some o) => o
  | _ => env
  end.

Lemma observation_recorded_witness :
  recorded (properties after) "web"
  = (Some "2.0.0", Some (release_id "web" "2.0.0"), Some "1.0.0", Some "healthy")
  ∧ recorded (properties after) "api" = recorded (properties env) "api".
Proof.
  split.
  - exact (observation_recorded {| objects := ∅; catalog_links := [] |} upgraded env after "web"
             ltac:(done) eq_refl).
  - exact (observation_recorded {| objects := ∅; catalog_links := [] |} upgraded env after "api"
             ltac:(done) eq_refl).
Defined.
End ObservationExamples.
