(* ===== verification/ProductExecution.v ===== *)
(** * Running releases on their targets

    [apply/product_execution.rs]: activation, restart, deactivation and the
    cleanup of a failed activation, per product target, under the environment
    fence.

    What the code asks of its surroundings (the store, the fence, the
    filesystem, the target adapters) is an [effect] of a program ([Effects]);
    those that change a target are told apart by their constructors.  The
    telemetry and the runtime observations written after a finished operation
    are left out. *)

From S2P Require Import Prelude RustStr Semver Kinds Facts Compatibility Contracts Plan Approvals ReleaseSigning HostState Catalog HostVerify HostSteps Holds DependencyDocument Deployments Effects.

(** ** Failures *)

(** The classes of [anyhow::Error] the code tells apart: the fence was lost
    ([ExecutionFenceLost] in the chain), admission was refused before anything
    ran ([CompatibilityBlocked], [PlacementRefused], [TargetUnavailable]), or
    anything else. *)
Inductive failure :=
| FenceLost (text : string)
| AdmissionRefused (text : string)
| OtherFailure (text : string).

Definition failure_text (f : failure) : string :=
  match f with FenceLost t | AdmissionRefused t | OtherFailure t => t end.

Definition is_execution_fence_lost (f : failure) : bool :=
  match f with FenceLost _ => true | _ => false end.

(** A mutation that ended in an outer error: the fence was lost, or the
    executor's control failed. *)
Inductive mutation_failure := MutationFenceLost (text : string) | MutationFailed (text : string).

Definition of_mutation (f : mutation_failure) : failure :=
  match f with MutationFenceLost t => FenceLost t | MutationFailed t => OtherFailure t end.

(** ** Effects *)

(** A release under execution: its pin, the manifest the pin's digest names,
    and the product it runs as. *)
Record ReleaseContent := {
  content_pin : ReleasePin; content_manifest : Manifest; content_product : string
}.

Inductive requirement :=
| Compatible          (** [software_compatibility::require_manifest] *)
| Placement           (** [topology::require_manifest_placement] *)
| ArtifactPulls       (** [oci_artifact::verify_environment_pull] *)
| TargetReady         (** [SoftwareExecutor::require_target] *)
| SoftwareRequest     (** [software_request] *)
| RoutingConfigValid  (** the routing contract and [routing::load_and_validate] *)
| ModelDescriptor     (** [ModelRuntimeDescriptor::from_manifest] *)
| GateSpec.           (** [health_gate::resolve_spec] *)

Inductive preparation :=
| DarkSiteAdmission   (** [dark_site::admit_applied_routing] *)
| ModelExecutor       (** [model_runtime_executor] *)
| PullConsumer.       (** [require_artifact_pull_consumer] *)

Inductive question :=
| SloRequired         (** [health_gate::step_requires_slo_evaluation] *)
| Resubscribed        (** [environment::subscribes] *)
| HostProductOk       (** [plan::require_host_product] *)
| SameExecutor.       (** [stored_release_executor] and [require_same_executor] *)

Inductive mutation :=
| RoutingApply | RoutingRemove
| ModelApply | ModelRemove
| PoolApply | PoolRestart | PoolRemove
| ModuleActivate | ModuleDeactivate
| StagedActivate | StagedDeactivate
| SoftwareApply | SoftwareRestart | SoftwareRemove | SoftwareCleanup
| InstallCommand | HealthCommand | UninstallCommand.

Inductive GateFailPolicy := GateHalt | GateRollback.

Record HealthGateDecision := { gate_action : GateFailPolicy; gate_summary : string }.

Inductive HostStepEnd :=
| HostRecorded (o : HostApplyOutcome) (detail : string)
| HostNotRun (detail : string)
| HostUnknown (detail : string).

Inductive effect : Type → Type :=
(** [release_content::admit]: trust, digests, and the local snapshot. *)
| AdmitRelease (pin : ReleasePin) (recalled : bool) : effect (result unit failure)
| Require (r : requirement) (c : ReleaseContent) : effect (result unit failure)
| Ask (q : question) : effect (result bool failure)
| Prepare (p : preparation) (c : ReleaseContent) : effect (result (result unit string) failure)
| RefreshLease : effect (result unit failure)
| VerifyIntegrity (c : ReleaseContent) : effect (result unit string)
| Mutate (m : mutation) (c : ReleaseContent) :
    effect (result (result unit string) mutation_failure)
(** [health_gate::decide_after_success]. *)
| DecideGate : effect (result (option HealthGateDecision) failure)
(** [catalog::signature_envelope] of the step's release. *)
| SignatureFor (release : string) : effect (result SignatureEnvelope failure)
(** [host_step::run]. *)
| RunHost (request : HostApplyRequest) : effect (result HostStepEnd failure)
(** [record_deployment_observation], [record_deployed], [record_unknown]. *)
| Record_ (status : StepOutcomeStatus) (detail : string) (t : DeploymentTransition) :
    effect (result unit failure)
| RecordDeployed (version : string) (previous : option string) : effect (result unit failure)
| RecordUnknown (detail : string) : effect (result unit failure).

(** The inner result of a target operation, under the outer one. *)
Notation target_result := (result (result unit string) failure).

Definition require (r : requirement) (c : ReleaseContent) : prog effect (result unit failure) :=
  perform (Require r c).

Definition mutate (m : mutation) (c : ReleaseContent) : prog effect target_result :=
  do r := perform (Mutate m c) in Ret (map_err of_mutation r).

Definition prepare_fenced_mutation (c : ReleaseContent) : prog effect (result unit failure) :=
  do? _ := perform RefreshLease in
  do verified := perform (VerifyIntegrity c) in
  Ret (map_err OtherFailure verified).

(** Go on only when an inner preparation succeeded. *)
Definition prepared (p : preparation) (c : ReleaseContent) (k : prog effect target_result) :
    prog effect target_result :=
  do? r := perform (Prepare p c) in
  match r with Ok _ => k | Err detail => Ret (Ok (Err detail)) end.

(** ** Software phases *)

Inductive SoftwareDeployPhase := PhaseApply | PhaseHealth | PhaseRestore | PhaseRemove | PhaseRestart.

Definition SoftwareDeployPhase_str (p : SoftwareDeployPhase) : string :=
  match p with
  | PhaseApply => "apply"
  | PhaseHealth => "health"
  | PhaseRestore => "restore"
  | PhaseRemove => "remove"
  | PhaseRestart => "restart"
  end.

(** The texts a step's detail is made of; [sanitize_diagnostic_text] masks
    credentials. *)
Class Diagnostics := { sanitize_diagnostic_text : string → string }.

Section Product.
Context {D : Diagnostics} (executors : Executors) (environment : string).

Definition format_software_phase_error (phase : SoftwareDeployPhase)
    (product version detail : string) : string :=
  "software deploy phase=" +:+ SoftwareDeployPhase_str phase +:+ " product=" +:+ product +:+ "@"
  +:+ version +:+ " environment/namespace=" +:+ environment +:+ ": "
  +:+ sanitize_diagnostic_text detail.

Definition software_phase_error (phase : SoftwareDeployPhase) (c : ReleaseContent)
    (detail : string) : string :=
  format_software_phase_error phase (content_product c)
    (product_version (content_manifest c)) detail.

Definition resolve_executor (c : ReleaseContent) : result (option Adapter) failure :=
  map_err (λ _, OtherFailure "executor unavailable")
    (resolve executors (deploy_executor (content_manifest c))).

Definition declared_command (command : option string) : bool :=
  is_some_and command (λ c, negb (str_is_empty c)).

(** The declared health command, after an install or a restart. *)
Definition health_check (c : ReleaseContent) (on_error : string → string) : prog effect target_result :=
  if declared_command (deploy_health (content_manifest c)) then
    do? r := mutate HealthCommand c in
    Ret (Ok (map_err on_error r))
  else Ret (Ok (Ok tt)).

(** [run_mutation_command] with the integrity of the inputs checked after. *)
Definition checked_after (c : ReleaseContent) (r : result unit string) : prog effect target_result :=
  do verified := perform (VerifyIntegrity c) in
  match verified with
  | Ok _ => Ret (Ok r)
  | Err error => Ret (Ok (Err error))
  end.

Definition activate_software (c : ReleaseContent) : prog effect target_result :=
  do? executor := Ret (resolve_executor c) in
  match executor with
  | Some _ =>
    do? _ := require SoftwareRequest c in
    do? _ := require TargetReady c in
    do? _ := prepare_fenced_mutation c in
    prepared PullConsumer c
      (do? install := mutate SoftwareApply c in
       match install with
       | Ok _ => health_check c (software_phase_error PhaseHealth c)
       | Err detail => Ret (Ok (Err (software_phase_error PhaseApply c detail)))
       end)
  | None =>
    prepared PullConsumer c
      (do? install := mutate InstallCommand c in
       do? r := match install with
                | Ok _ => health_check c id
                | Err detail => Ret (Ok (Err detail))
                end in
       checked_after c r)
  end.

(** The tail of [activate], by product kind and target. *)
Definition activate_target (c : ReleaseContent) : prog effect target_result :=
  let kind := product_kind (content_manifest c) in
  match policy_target kind with
  | TargetRoutingConfig =>
    do? _ := prepare_fenced_mutation c in
    do? _ := require RoutingConfigValid c in
    prepared DarkSiteAdmission c (mutate RoutingApply c)
  | TargetModelRuntime =>
    do? _ := prepare_fenced_mutation c in
    do? _ := require ModelDescriptor c in
    prepared ModelExecutor c (mutate ModelApply c)
  | TargetWorkerPool =>
    do? _ := prepare_fenced_mutation c in
    mutate PoolApply c
  | TargetStaged _ =>
    do? _ := prepare_fenced_mutation c in
    mutate (if decide (kind = WorkshopModule) then ModuleActivate else StagedActivate) c
  | TargetSoftware => activate_software c
  end.

Definition activate (c : ReleaseContent) : prog effect target_result :=
  do? _ := require Compatible c in
  do? _ := require Placement c in
  activate_target c.

Definition restart (c : ReleaseContent) : prog effect target_result :=
  do? _ := require Compatible c in
  do? _ := require Placement c in
  if decide (policy_target (product_kind (content_manifest c)) = TargetWorkerPool) then
    do? _ := prepare_fenced_mutation c in
    mutate PoolRestart c
  else
    do? executor := Ret (resolve_executor c) in
    match executor with
    | Some _ =>
      do? _ := require SoftwareRequest c in
      do? _ := require TargetReady c in
      do? _ := prepare_fenced_mutation c in
      prepared PullConsumer c
        (do? bounce := mutate SoftwareRestart c in
         match bounce with
         | Ok _ => health_check c (software_phase_error PhaseHealth c)
         | Err detail => Ret (Ok (Err (software_phase_error PhaseRestart c detail)))
         end)
    | None => activate c
    end.

Inductive Removal := RemoveRelease | FailedApply.

Definition deactivate_software (c : ReleaseContent) (removal : Removal) : prog effect target_result :=
  do? executor := Ret (resolve_executor c) in
  match executor with
  | Some _ =>
    do? _ := perform RefreshLease in
    prepared PullConsumer c
      (do? _ := require SoftwareRequest c in
       do? removed := mutate (match removal with
                              | RemoveRelease => SoftwareRemove
                              | FailedApply => SoftwareCleanup
                              end) c in
       Ret (Ok (map_err (software_phase_error PhaseRemove c) removed)))
  | None =>
    prepared PullConsumer c
      (if declared_command (deploy_uninstall (content_manifest c)) then
         do? r := mutate UninstallCommand c in
         checked_after c r
       else Ret (Ok (Err "release has no uninstall command")))
  end.

Definition deactivate_for (c : ReleaseContent) (removal : Removal) : prog effect target_result :=
  let kind := product_kind (content_manifest c) in
  match policy_target kind with
  | TargetRoutingConfig =>
    do? _ := perform RefreshLease in
    mutate RoutingRemove c
  | TargetModelRuntime =>
    do? _ := perform RefreshLease in
    do? _ := require ModelDescriptor c in
    prepared ModelExecutor c (mutate ModelRemove c)
  | TargetWorkerPool =>
    do? _ := perform RefreshLease in
    mutate PoolRemove c
  | TargetStaged _ =>
    do? _ := perform RefreshLease in
    mutate (if decide (kind = WorkshopModule) then ModuleDeactivate else StagedDeactivate) c
  | TargetSoftware => deactivate_software c removal
  end.

Definition deactivate (c : ReleaseContent) : prog effect target_result := deactivate_for c RemoveRelease.

(** [cleanup_failed_activation]: whether the failed release is gone, and the
    detail so far. *)
Definition cleanup_failed_activation (c : ReleaseContent) (failed : string) :
    prog effect (result (bool * string) failure) :=
  match cleanup (policy_target (product_kind (content_manifest c))) with
  | Atomic => Ret (Ok (true, failed))
  | UninstallIfDeclared =>
    match deploy_uninstall (content_manifest c) with
    | None => Ret (Ok (false, failed))
    | Some _ =>
      do r := deactivate_for c FailedApply in
      match r with
      | Ok (Ok _) => Ret (Ok (true, failed +:+ "; cleaned up failed install"))
      | Ok (Err detail) => Ret (Ok (false, failed +:+ "; cleanup also failed: " +:+ detail))
      | Err error =>
        if is_execution_fence_lost error then Ret (Err error)
        else Ret (Ok (false, failed +:+ "; cleanup executor also failed: " +:+ failure_text error))
      end
    end
  end.
End Product.
(** ** What a target runs *)

(** What runs on the target of one instance: nothing, one release, or
    nothing one can rely on. *)
Inductive target := Absent | Runs (release : string) | Undefined.

Inductive mutation_class := Applies | Removes | Probes.

Definition class_of (m : mutation) : mutation_class :=
  match m with
  | RoutingApply | ModelApply | PoolApply | PoolRestart | ModuleActivate | StagedActivate
  | SoftwareApply | SoftwareRestart | InstallCommand => Applies
  | RoutingRemove | ModelRemove | PoolRemove | ModuleDeactivate | StagedDeactivate
  | SoftwareRemove | SoftwareCleanup | UninstallCommand => Removes
  | HealthCommand => Probes
  end.

Definition atomic (c : ReleaseContent) : bool :=
  match cleanup (policy_target (product_kind (content_manifest c))) with
  | Atomic => true | UninstallIfDeclared => false
  end.

Definition content_release (c : ReleaseContent) : string := pin_release_id (content_pin c).

(** An operation that succeeds leaves its release, or none. One that fails
    leaves the target undefined, unless the product kind publishes
    atomically.  The cleanup after a failed apply is the executors' default,
    which removes the release; one whose apply restored the previous release
    itself, and so overrides the cleanup, is not covered. *)
Definition after_mutation (m : mutation) (c : ReleaseContent)
    (r : result (result unit string) mutation_failure) (t : target) : target :=
  match class_of m, r with
  | Probes, _ => t
  | Applies, Ok (Ok _) => Runs (content_release c)
  | Removes, Ok (Ok _) => Absent
  | Applies, _ => if atomic c then t else Undefined
  | Removes, _ => Undefined
  end.

(** A host step's result is the applier's own record of it: a recorded
    install or health check leaves the release applied. *)
Definition after_host (action : HostAction) (release : string)
    (r : result HostStepEnd failure) (t : target) : target :=
  match r with
  | Ok (HostRecorded HostSucceeded _) =>
    match action with HostUninstall => Absent | HostInstall | HostHealth => Runs release end
  | Ok (HostNotRun _) => t
  | Ok _ | Err _ => Undefined
  end.

(** What was recorded since the target last changed. *)
Inductive note := NotNoted | NoteFailed | Noted (t : DeploymentTransition).

Record world := {
  w_target : target;
  w_lost : bool;
  w_admitted : list ReleasePin;
  w_note : note
}.

Definition lost_by {A} (r : result A failure) : bool :=
  match r with Err e => is_execution_fence_lost e | Ok _ => false end.

Definition noted (r : result unit failure) (t : DeploymentTransition) : note :=
  match r with Ok _ => Noted t | Err _ => NoteFailed end.

Definition with_lost (w : world) (lost : bool) : world := {|
  w_target := w_target w; w_lost := w_lost w || lost; w_admitted := w_admitted w;
  w_note := w_note w |}.

Definition with_target (w : world) (t : target) (lost : bool) : world := {|
  w_target := t; w_lost := w_lost w || lost; w_admitted := w_admitted w; w_note := NotNoted |}.

Definition with_note (w : world) (r : result unit failure) (t : DeploymentTransition) : world := {|
  w_target := w_target w; w_lost := w_lost w || lost_by r; w_admitted := w_admitted w;
  w_note := noted r t |}.

(** How an answered effect changes the world of a step whose release is
    [release]. *)
Definition after_effect {X} (release : string) (e : effect X) : X → world → world :=
  match e with
  | AdmitRelease pin _ => λ r w,
    match r with
    | Ok _ => {| w_target := w_target w; w_lost := w_lost w; w_admitted := pin :: w_admitted w;
                 w_note := w_note w |}
    | Err _ => with_lost w (lost_by r)
    end
  | Require _ _ | RefreshLease => λ r w, with_lost w (lost_by r)
  | Ask _ => λ r w, with_lost w (lost_by r)
  | Prepare _ _ => λ r w, with_lost w (lost_by r)
  | VerifyIntegrity _ => λ _ w, w
  | Mutate m c => λ r w,
    with_target w (after_mutation m c r (w_target w)) (lost_by (map_err of_mutation r))
  | DecideGate => λ r w, with_lost w (lost_by r)
  | SignatureFor _ => λ r w, with_lost w (lost_by r)
  | RunHost request => λ r w,
    with_target w (after_host (request_action request) release r (w_target w)) (lost_by r)
  | Record_ _ _ t => λ r w, with_note w r t
  | RecordDeployed version previous => λ r w, with_note w r (Deployed version previous)
  | RecordUnknown _ => λ r w, with_note w r Unknown
  end.

(** When an effect may happen: only content admitted in this execution runs,
    never a host release outside the applier, and nothing runs once the fence
    was lost. *)
Definition allowed {X} (e : effect X) (w : world) : Prop :=
  match e with
  | Mutate m c => w_lost w = false ∧ content_pin c ∈ w_admitted w
                  ∧ deploy_executor (content_manifest c) ≠ Some Host
  | RunHost _ => w_lost w = false
  | _ => True
  end.

(** The world of one step whose release is [release]. *)
Definition on_target (release : string) : Semantics effect world :=
  {| after := λ X e, after_effect release e; allowed_in := λ X e, allowed e |}.

(** The target operations of a run, in order. *)
Fixpoint mutations {A} (h : answers effect) (p : prog effect A) : list (mutation * ReleaseContent) :=
  match p with
  | Ret _ => []
  | Do e k => match e with Mutate m c => [(m, c)] | _ => [] end ++ mutations h (k (h _ e))
  end.

(** ** Specifications of the target operations *)

(** Performs the effects of a program one by one, splitting on answers. *)
Ltac wp_answer :=
  match goal with
  | |- ∀ _ : result unit failure, _ => intros [?|[?|?|?]]
  | |- ∀ _ : result bool failure, _ => intros [[]|[?|?|?]]
  | |- ∀ _ : result (result unit string) failure, _ => intros [[?|?]|[?|?|?]]
  | |- ∀ _ : result (result unit string) mutation_failure, _ => intros [[?|?]|[?|?]]
  | |- ∀ _ : result unit string, _ => intros [?|?]
  end.

Ltac wp_run := repeat (simpl; first [progress wp_answer | split]).

Section Specs.
Context {D : Diagnostics} (executors : Executors) (environment release : string).

(** What an activation or a restart of [c] leaves. *)
Definition activated (c : ReleaseContent) (w : world) (r : target_result) (w' : world) : Prop :=
  w_admitted w' = w_admitted w ∧
  match r with
  | Ok (Ok _) => w_lost w' = false ∧ w_target w' = Runs (content_release c)
  | Ok (Err _) | Err (OtherFailure _) =>
    w_lost w' = false ∧ (atomic c = true → w_target w' = w_target w)
  | Err (AdmissionRefused _) =>
    w_lost w' = false ∧ w_target w' = w_target w ∧ w_note w' = w_note w
  | Err (FenceLost _) => w_lost w' = true
  end.

(** What a deactivation of [c] leaves. *)
Definition deactivated (w : world) (r : target_result) (w' : world) : Prop :=
  w_admitted w' = w_admitted w ∧
  match r with
  | Ok (Ok _) => w_lost w' = false ∧ w_target w' = Absent
  | Err (FenceLost _) => w_lost w' = true
  | Ok (Err _) | Err _ => w_lost w' = false
  end.

(** Content that may run in [w]. *)
Definition runnable (c : ReleaseContent) (w : world) : Prop :=
  w_lost w = false ∧ content_pin c ∈ w_admitted w
  ∧ deploy_executor (content_manifest c) ≠ Some Host.

Lemma software_not_atomic c :
  policy_target (product_kind (content_manifest c)) = TargetSoftware → atomic c = false.
Proof. unfold atomic. by intros ->. Qed.

Lemma activate_software_spec c w : runnable c w → atomic c = false →
  wp (on_target release) (activate_software executors environment c) (activated c w) w.
Proof.
  destruct w as [t lost adm n]. intros (Hl & Ha & Hh) Hat. simpl in *. subst lost.
  unfold activate_software, health_check, checked_after, activated, resolve_executor.
  destruct (resolve _ _) as [[ad|]|]; simpl; [| |done]; destruct (declared_command _); wp_run;
    done || congruence.
Qed.

Lemma activate_target_spec c w : runnable c w →
  wp (on_target release) (activate_target executors environment c) (activated c w) w.
Proof.
  unfold activate_target. destruct (policy_target _) eqn:Ht; intros Hr.
  { apply activate_software_spec; [done|]. by apply software_not_atomic. }
  all: destruct w as [t lost adm n]; destruct Hr as (Hl & Ha & Hh); simpl in *; subst lost;
    unfold activated; try case_decide; wp_run;
    try done; unfold after_mutation; simpl; intros ->; done.
Qed.
#[global] Opaque activate_target.

Lemma activate_spec c w : runnable c w →
  wp (on_target release) (activate executors environment c) (activated c w) w.
Proof.
  intros Hr. destruct w as [t lost adm n]. destruct (Hr) as (Hl & _). simpl in Hl. subst lost.
  unfold activate. wp_run; try done. exact (activate_target_spec c _ Hr).
Qed.
#[global] Opaque activate.

Lemma restart_spec c w : runnable c w →
  wp (on_target release) (restart executors environment c) (λ r w', w_admitted w' = w_admitted w ∧
    match r with
    | Ok (Ok _) => w_lost w' = false ∧ w_target w' = Runs (content_release c)
    | Ok (Err _) | Err (OtherFailure _) => w_lost w' = false
    | Err (AdmissionRefused _) =>
      w_lost w' = false ∧ w_target w' = w_target w ∧ w_note w' = w_note w
    | Err (FenceLost _) => w_lost w' = true
    end) w.
Proof.
  intros Hr. destruct w as [t lost adm n]. destruct (Hr) as (Hl & Ha & Hh). simpl in Hl. subst lost.
  unfold restart. wp_run; try done.
  case_decide; [wp_run; done|]. unfold resolve_executor.
  destruct (resolve _ _) as [[ad|]|]; simpl; [|eapply wp_mono; [exact (activate_spec c _ Hr)|]|done].
  - unfold health_check. destruct (declared_command _); wp_run; done.
  - intros [[]|[]] w' [-> Hw']; simpl in *; tauto.
Qed.
#[global] Opaque restart.

Lemma deactivate_spec c removal w : runnable c w →
  wp (on_target release) (deactivate_for executors environment c removal) (deactivated w) w.
Proof.
  intros Hr. destruct w as [t lost adm n]. destruct Hr as (Hl & Ha & Hh). simpl in *. subst lost.
  unfold deactivate_for, deactivated. destruct (policy_target _) eqn:Ht.
  1: unfold deactivate_software, resolve_executor; destruct (resolve _ _) as [[ad|]|]; simpl;
    [destruct removal|destruct (declared_command _); unfold checked_after|done].
  all: try case_decide; wp_run; done.
Qed.
#[global] Opaque deactivate_for.

Lemma cleanup_spec c detail w : runnable c w →
  wp (on_target release) (cleanup_failed_activation executors environment c detail) (λ r w',
    w_admitted w' = w_admitted w ∧
    match r with
    | Ok (true, _) => w_lost w' = false
                      ∧ (w_target w' = Absent ∨ atomic c = true ∧ w_target w' = w_target w)
    | Ok (false, _) => w_lost w' = false
    | Err e => w_lost w' = true
    end) w.
Proof.
  intros Hr. destruct (Hr) as (Hl & _). unfold cleanup_failed_activation, atomic.
  destruct (cleanup _); [simpl; tauto|]. destruct (deploy_uninstall _); [|simpl; tauto].
  apply wp_bind. eapply wp_mono; [by apply deactivate_spec|].
  intros [[]|[]] w' [Hadm Hw']; simpl in *; tauto.
Qed.
#[global] Opaque cleanup_failed_activation.
End Specs.
