(* ===== verification/HealthGate.v ===== *)
(** * Health gates

    [health_gate.rs] and the gate section of [manifest.rs]: the objectives a
    release and its channel declare, their evaluation against sampled metrics,
    and the bake window a successful step has to come through. *)

From Stdlib Require Import SpecFloat.
From S2P Require Import Prelude RustStr Semver Kinds Facts Compatibility Contracts Plan ObjectStore Approvals ReleaseSigning HostState Catalog HostVerify HostSteps Effects ProductExecution.

(** An [f64], with its IEEE comparisons. *)
Notation f64 := spec_float.

Definition is_finite (v : f64) : bool :=
  match v with S754_zero _ | S754_finite _ _ _ => true | _ => false end.

Inductive SloComparator := OpLt | OpLte | OpGt | OpGte.

Record SloGate := { gate_name : string; gate_query : string; gate_op : SloComparator; threshold : f64 }.

Record GateSection := {
  eval_suite : option string; section_slo : list SloGate; section_bake_seconds : Z;
  section_on_fail : GateFailPolicy
}.

Record HealthGateSpec := {
  slo : list SloGate; bake_window_seconds : Z; on_fail : option GateFailPolicy
}.

Inductive GateVerdict := Pass | Fail | Unavailable.

#[export] Instance GateVerdict_eq_dec : EqDecision GateVerdict.
Proof. solve_decision. Defined.

Definition GateVerdict_str (v : GateVerdict) : string :=
  match v with Pass => "pass" | Fail => "fail" | Unavailable => "unavailable" end.

Record GateSample := {
  sample_gate : SloGate; sample_value : option f64; verdict : GateVerdict; sample_detail : string
}.

Record HealthGateEvidence := {
  gate_plan_id : string; gate_step_id : string; gate_release_id : string;
  gate_release_digest : string; gate_environment : string; gate_bake_seconds : Z;
  gate_on_fail : GateFailPolicy; overall : GateVerdict; gates : list GateSample; observed_at : Z
}.

Inductive gate_error :=
| BadGateName (name : string)
| DuplicateGate (name : string)
| EmptyQuery (name : string)
| ThresholdNotFinite (name : string).

(** [HealthGateSpec::validate], which is also [GateSection::validate_slo]. *)
Definition validate_gate (names : gset string) (g : SloGate) : result (gset string) gate_error :=
  bail_if negb (valid_identifier (gate_name g)) with (BadGateName (gate_name g)) in
  bail_if bool_decide (gate_name g ∈ names) with (DuplicateGate (gate_name g)) in
  bail_if str_is_empty (trim (gate_query g)) with (EmptyQuery (gate_name g)) in
  bail_if negb (is_finite (threshold g)) with (ThresholdNotFinite (gate_name g)) in
  Ok ({[gate_name g]} ∪ names).

Definition validate_gates (l : list SloGate) : result unit gate_error :=
  let? _ := try_fold validate_gate ∅ l in Ok tt.

(** [merge_specs]. *)
Definition named (m : gmap string SloGate) (l : list SloGate) : gmap string SloGate :=
  foldl (λ m g, <[gate_name g := g]> m) m l.

Definition merge_specs (release : GateSection) (channel : option HealthGateSpec) : HealthGateSpec :=
  let by_name := named ∅ (section_slo release) in
  match channel with
  | None => {| slo := btree_values by_name; bake_window_seconds := section_bake_seconds release;
               on_fail := Some (section_on_fail release) |}
  | Some c => {|
      slo := btree_values (named by_name (slo c));
      bake_window_seconds := if 0 <? bake_window_seconds c then bake_window_seconds c
                             else section_bake_seconds release;
      on_fail := match on_fail c with Some p => Some p | None => Some (section_on_fail release) end |}
  end.

(** [compare]: false when either is not a number. *)
Definition compare (op : SloComparator) (value threshold : f64) : bool :=
  match op with
  | OpLt => SFltb value threshold
  | OpLte => SFleb value threshold
  | OpGt => SFltb threshold value
  | OpGte => SFleb threshold value
  end.

(** [load_channel_overlay]: the subscribed channel's gates, when it has any. *)
Class GateJson := { gates_of_json : string → option HealthGateSpec }.

Inductive overlay_error :=
| OverlayLinks (error : planning_error)
| OverlayNotParsed (channel : string)
| OverlayInvalid (error : gate_error).

Definition load_channel_overlay `{GateJson} (ctx : Ctx) (environment product : string) :
    result (option HealthGateSpec) overlay_error :=
  match ctx_get ctx (env_id environment) with
  | None => Ok None
  | Some env =>
    let? channels := map_err OverlayLinks (linked ctx (object_id env) "subscribes" Outward) in
    match find_first (λ c, bool_decide (properties c !! "product" = Some product)) channels with
    | None => Ok None
    | Some channel =>
      match properties channel !! "health_gates" with
      | None => Ok None
      | Some raw =>
        if str_is_empty (trim raw) then Ok None
        else
          let? spec := ok_or (gates_of_json raw) (OverlayNotParsed (object_id channel)) in
          let? _ := map_err OverlayInvalid (validate_gates (slo spec)) in
          Ok (Some spec)
      end
    end
  end.

(** What one sample of the metrics source answered, per query. *)
Definition Metrics := string → result f64 string.

Class FloatText := { f64_display : f64 → string }.

Section Gates.
Context {FT : FloatText}.

(** [evaluate]. *)
Definition unavailable (g : SloGate) (detail : string) : GateSample :=
  {| sample_gate := g; sample_value := None; verdict := Unavailable; sample_detail := detail |}.

Definition sample (source : option Metrics) (g : SloGate) : GateSample :=
  match source with
  | None => unavailable g "no health metrics source is configured"
  | Some source =>
    match source (gate_query g) with
    | Ok value =>
      if is_finite value then
        {| sample_gate := g; sample_value := Some value;
           verdict := if compare (gate_op g) value (threshold g) then Pass else Fail;
           sample_detail := "" |}
      else unavailable g ("metric sample is not finite (" +:+ f64_display value +:+ ")")
    | Err error => unavailable g error
    end
  end.

Definition overall_of (l : list GateSample) : GateVerdict :=
  if existsb (λ s, bool_decide (verdict s = Fail)) l then Fail
  else if existsb (λ s, bool_decide (verdict s = Unavailable)) l then Unavailable
  else Pass.

Definition evidence_of (spec : HealthGateSpec) (p : Plan) (s : Step) (v : GateVerdict)
    (l : list GateSample) (observed : Z) : HealthGateEvidence := {|
  gate_plan_id := plan_id_of p; gate_step_id := step_id s; gate_release_id := step_release_id s;
  gate_release_digest := step_release_digest s; gate_environment := plan_environment p;
  gate_bake_seconds := bake_window_seconds spec; gate_on_fail := default GateHalt (on_fail spec);
  overall := v; gates := l; observed_at := observed |}.

Definition evaluate (spec : HealthGateSpec) (source : option Metrics) (p : Plan) (s : Step)
    (observed : Z) : HealthGateEvidence :=
  let l := sample source <$> slo spec in
  evidence_of spec p s (overall_of l) l observed.

Definition passed (e : HealthGateEvidence) : bool := bool_decide (overall e = Pass).

(** [unavailable_timeout]. *)
Definition unavailable_timeout (spec : HealthGateSpec) (p : Plan) (s : Step) (observed : Z) :
    HealthGateEvidence :=
  evidence_of spec p s Unavailable
    ((λ g, unavailable g "metrics sample exceeded 10s bound") <$> slo spec) observed.

(** [HealthGateEvidence::summary]. *)
Definition SloComparator_str (op : SloComparator) : string :=
  match op with OpLt => "lt" | OpLte => "lte" | OpGt => "gt" | OpGte => "gte" end.

Definition GateFailPolicy_str (p : GateFailPolicy) : string :=
  match p with GateHalt => "halt" | GateRollback => "rollback" end.

Definition sample_summary (s : GateSample) : string :=
  let g := sample_gate s in
  match verdict s, sample_value s with
  | Pass, Some value | Fail, Some value =>
    gate_name g +:+ "=" +:+ f64_display value +:+ " " +:+ SloComparator_str (gate_op g) +:+ " "
    +:+ f64_display (threshold g) +:+ " => " +:+ GateVerdict_str (verdict s)
  | _, _ =>
    gate_name g +:+ " => " +:+ GateVerdict_str (verdict s)
    +:+ (if str_is_empty (sample_detail s) then "" else " (" +:+ sample_detail s +:+ ")")
  end.

Definition summary (e : HealthGateEvidence) : string :=
  "health/SLO gate " +:+ GateVerdict_str (overall e) +:+ " for " +:+ gate_release_id e +:+ " (bake "
  +:+ pretty (gate_bake_seconds e) +:+ "s, on_fail=" +:+ GateFailPolicy_str (gate_on_fail e) +:+ "): "
  +:+ String.concat "; " (sample_summary <$> gates e).

(** ** After a step succeeded *)

(** One poll of the sampling loop's [select]. *)
Inductive Polled :=
| Sampled (source : option Metrics)   (** the blocking work finished *)
| SamplingFailed                      (** its task did *)
| TimedOut
| RefreshDue.

Inductive gate_effect : Type → Type :=
| GateNow : gate_effect Z
(** [refresh_environment_lease]. *)
| Refresh : gate_effect (result unit failure)
| Poll : gate_effect Polled
| Sleep (ms : Z) : gate_effect unit
(** [environment::environment]. *)
| GateEnvironment : gate_effect (result Object failure)
(** [load_channel_overlay]: the overlay of the subscribed channel, parsed and
    valid. *)
| ChannelOverlay : gate_effect (result (option HealthGateSpec) failure)
(** [persist_evidence]. *)
| PersistEvidence (e : HealthGateEvidence) : gate_effect (result unit failure)
(** [previous_release_is_auto_rollback_target] of the restore pin. *)
| Deployable (pin : ReleasePin) : gate_effect bool
(** The loop's fuel ran out; [bake_window_ends] shows that it does not. *)
| OutOfFuel : gate_effect failure.

Notation gate_prog A := (prog gate_effect (result A failure)).

Section Decide.
Context (p : Plan) (s : Step).

(** [step_requires_slo_evaluation]. *)
Definition step_requires_slo_evaluation : gate_prog bool :=
  match step_action s with
  | Rollback | Remove => Ret (Ok false)
  | Restart =>
    do? env := perform GateEnvironment in
    Ret (Ok (bool_decide (properties env !! ("failed_target." +:+ step_instance_name s)
                          = Some (step_release_id s))))
  | _ => Ret (Ok true)
  end.

(** [resolve_spec]. *)
Definition resolve_spec (release : GateSection) : gate_prog HealthGateSpec :=
  do? channel := perform ChannelOverlay in
  let spec := merge_specs release channel in
  Ret (match validate_gates (slo spec) with
       | Ok _ => Ok spec
       | Err _ => Err (OtherFailure "invalid SLO gates")
       end).

(** [sample_with_lease]: the [select] is polled at most [polls] times before
    the timeout elapses. *)
Fixpoint poll_sample (polls : nat) (spec : HealthGateSpec) : gate_prog HealthGateEvidence :=
  let timed_out := do now := perform GateNow in Ret (Ok (unavailable_timeout spec p s now)) in
  match polls with
  | O => timed_out
  | S polls =>
    do event := perform Poll in
    match event with
    | Sampled source => do now := perform GateNow in Ret (Ok (evaluate spec source p s now))
    | SamplingFailed => Ret (Err (OtherFailure "SLO metrics sampling task failed"))
    | TimedOut => timed_out
    | RefreshDue => do? _ := perform Refresh in poll_sample polls spec
    end
  end.

Definition sample_with_lease (polls : nat) (spec : HealthGateSpec) : gate_prog HealthGateEvidence :=
  do? _ := perform Refresh in
  do? e := poll_sample polls spec in
  do? _ := perform Refresh in
  Ret (Ok e).

(** The bake window: sample until one fails or the deadline has passed. *)
Fixpoint bake (fuel polls : nat) (spec : HealthGateSpec) (deadline : Z) : gate_prog HealthGateEvidence :=
  match fuel with
  | O => do e := perform OutOfFuel in Ret (Err e)
  | S fuel =>
    do? e := sample_with_lease polls spec in
    if negb (passed e) || (bake_window_seconds spec =? 0) then Ret (Ok e)
    else
      do now := perform GateNow in
      if deadline <=? now then Ret (Ok e)
      else
        do _ := perform (Sleep (Z.max 1 (Z.min 1000 (deadline - now)))) in
        bake fuel polls spec deadline
  end.

(** [decide_after_success]. *)
Definition rollback_or_halt (spec : HealthGateSpec) : gate_prog GateFailPolicy :=
  match default GateHalt (on_fail spec) with
  | GateHalt => Ret (Ok GateHalt)
  | GateRollback =>
    match step_restore s with
    | None => Ret (Ok GateHalt)
    | Some pin =>
      do ok := perform (Deployable pin) in
      Ret (Ok (if ok : bool then GateRollback else GateHalt))
    end
  end.

Definition decide_after_success (fuel polls : nat) (skip : bool) (release : GateSection) :
    gate_prog (option HealthGateDecision) :=
  if skip then Ret (Ok None)
  else
    do? required := step_requires_slo_evaluation in
    if negb required then Ret (Ok None)
    else
      do? spec := resolve_spec release in
      if bool_decide (slo spec = []) then Ret (Ok None)
      else
        do now := perform GateNow in
        let deadline := i64_saturating_add now (i64_saturating_mul (bake_window_seconds spec) 1000) in
        do? e := bake fuel polls spec deadline in
        do? _ := perform (PersistEvidence e) in
        if passed e then Ret (Ok None)
        else
          do? action := rollback_or_halt spec in
          Ret (Ok (Some {| gate_action := action; gate_summary := summary e |})).
End Decide.
End Gates.

(** ** What a passed gate stands for *)

(** Every objective was sampled, as a finite value within its threshold. *)
Definition meets (spec : HealthGateSpec) (source : option Metrics) : Prop :=
  ∃ m, source = Some m ∧ ∀ g, g ∈ slo spec →
    ∃ v, m (gate_query g) = Ok v ∧ is_finite v = true ∧ compare (gate_op g) v (threshold g) = true.

Lemma overall_pass l : overall_of l = Pass ↔ ∀ x, x ∈ l → verdict x = Pass.
Proof.
  unfold overall_of.
  destruct (existsb (λ s, bool_decide (verdict s = Fail)) l) eqn:Hf;
    [|destruct (existsb (λ s, bool_decide (verdict s = Unavailable)) l) eqn:Hu].
  - apply existsb_elem in Hf as (x & Hx & Hv%bool_decide_eq_true).
    split; [done|]. intros H. by rewrite H in Hv.
  - apply existsb_elem in Hu as (x & Hx & Hv%bool_decide_eq_true).
    split; [done|]. intros H. by rewrite H in Hv.
  - split; [|done]. intros _ x Hx. destruct (verdict x) eqn:Hv; [done|exfalso..].
    + enough (existsb (λ s, bool_decide (verdict s = Fail)) l = true) by congruence.
      apply existsb_elem. exists x. by rewrite bool_decide_eq_true.
    + enough (existsb (λ s, bool_decide (verdict s = Unavailable)) l = true) by congruence.
      apply existsb_elem. exists x. by rewrite bool_decide_eq_true.
Qed.

Section GateProofs.
Context {FT : FloatText}.

Lemma sample_pass source g :
  verdict (sample source g) = Pass ↔
  ∃ m v, source = Some m ∧ m (gate_query g) = Ok v ∧ is_finite v = true
         ∧ compare (gate_op g) v (threshold g) = true.
Proof.
  unfold sample. split.
  - destruct source as [m|]; [|done]. destruct (m (gate_query g)) as [v|] eqn:Hm; [|done].
    destruct (is_finite v) eqn:Hf; [|done]. simpl. destruct (compare _ _ _) eqn:Hc; [|done].
    intros _. by exists m, v.
  - intros (m & v & -> & -> & -> & Hc). simpl. by rewrite Hc.
Qed.

Lemma evaluate_passed spec source p s now :
  slo spec ≠ [] → passed (evaluate spec source p s now) = true ↔ meets spec source.
Proof.
  intros Hne. unfold passed, evaluate. simpl. rewrite bool_decide_eq_true, overall_pass. split.
  - intros H. assert (∀ g, g ∈ slo spec → verdict (sample source g) = Pass) as Hall.
    { intros g Hg. apply H. by apply list_elem_of_fmap_2. }
    assert (∃ g0, g0 ∈ slo spec) as [g0 Hg0] by (destruct (slo spec) as [|g0 ?]; [done|exists g0; left]).
    destruct (proj1 (sample_pass source g0) (Hall g0 Hg0)) as (m & v & -> & _).
    exists m. split; [done|]. intros g Hg.
    apply Hall, sample_pass in Hg as (m' & v' & [= <-] & Hv). by exists v'.
  - intros (m & -> & H) x (g & -> & Hg)%list_elem_of_fmap. apply sample_pass.
    destruct (H g Hg) as (v & Hv). by exists m, v.
Qed.
End GateProofs.

(** ** The bake window *)

(** What the decision has seen and done, the latest first. *)
Inductive gate_fact :=
| ClockAt (z : Z)
| SampledFrom (source : option Metrics)
| Slept
| EnvironmentWas (o : Object)
| OverlayWas (c : option HealthGateSpec)
| Kept (e : HealthGateEvidence)       (** evidence that was persisted *)
| CanRestore (pin : ReleasePin).

Definition gate_learnt {X} (e : gate_effect X) : X → list gate_fact :=
  match e in gate_effect X return X → list gate_fact with
  | GateNow => λ z, [ClockAt z]
  | Poll => λ r, match r with Sampled source => [SampledFrom source] | _ => [] end
  | Sleep _ => λ _, [Slept]
  | GateEnvironment => λ r, match r with Ok o => [EnvironmentWas o] | Err _ => [] end
  | ChannelOverlay => λ r, match r with Ok c => [OverlayWas c] | Err _ => [] end
  | PersistEvidence e => λ r, match r with Ok _ => [Kept e] | Err _ => [] end
  | Deployable pin => λ r, if r then [CanRestore pin] else []
  | _ => λ _, []
  end.

(** The least time a steady clock may show next. *)
Fixpoint floor (w : list gate_fact) : option Z :=
  match w with
  | [] => None
  | ClockAt z :: _ => Some z
  | Slept :: rest => Z.succ <$> floor rest
  | _ :: rest => floor rest
  end.

(** The clock never goes back, and a sleep moves it. *)
Fixpoint steady (w : list gate_fact) : Prop :=
  match w with
  | [] => True
  | ClockAt z :: rest => steady rest ∧ match floor rest with Some f => f ≤ z | None => True end
  | _ :: rest => steady rest
  end.

Fixpoint latest (w : list gate_fact) : option Z :=
  match w with [] => None | ClockAt z :: _ => Some z | _ :: rest => latest rest end.

Fixpoint earliest (w : list gate_fact) : option Z :=
  match w with
  | [] => None
  | f :: rest =>
    match earliest rest with
    | Some z => Some z
    | None => match f with ClockAt z => Some z | _ => None end
    end
  end.

Definition samples : list gate_fact → list (option Metrics) :=
  omap (λ f, match f with SampledFrom source => Some source | _ => None end).

(** A steady clock of [i64]s, and channel windows of at most [limit] seconds. *)
Definition regular (limit : Z) (w : list gate_fact) : Prop :=
  steady w ∧ (∀ z, ClockAt z ∈ w → i64_min ≤ z ≤ i64_max)
  ∧ (∀ c, OverlayWas (Some c) ∈ w → bake_window_seconds c ≤ limit).

Definition gate_allowed (limit : Z) {X} (e : gate_effect X) (w : list gate_fact) : Prop :=
  match e with OutOfFuel => ¬ regular limit w | _ => True end.

Definition on_gate (limit : Z) : Semantics gate_effect (list gate_fact) :=
  {| after X e x w := gate_learnt e x ++ w; allowed_in := @gate_allowed limit |}.

(** [w'] extends [w], and on a steady clock shows no earlier time. *)
Definition later (w w' : list gate_fact) : Prop :=
  (∃ l, w' = l ++ w)
  ∧ (steady w' → steady w ∧ ∀ f, floor w = Some f → ∃ f', floor w' = Some f' ∧ f ≤ f').

Lemma later_refl w : later w w.
Proof. split; [by exists []|]. intros H. split; [done|]. intros f Hf. exists f. split; [done|lia]. Qed.

Lemma later_trans w1 w2 w3 : later w1 w2 → later w2 w3 → later w1 w3.
Proof.
  intros [[l1 ->] H1] [[l2 ->] H2]. split; [exists (l2 ++ l1); by rewrite app_assoc|].
  intros H3. destruct (H2 H3) as [Hs2 Hf2], (H1 Hs2) as [Hs1 Hf1]. split; [done|].
  intros f Hf. destruct (Hf1 f Hf) as (f1 & Hf1' & ?), (Hf2 f1 Hf1') as (f2 & Hf2' & ?).
  exists f2. split; [done|lia].
Qed.

Lemma later_fact x w : later w (x :: w).
Proof.
  split; [by exists [x]|]. intros H. destruct x; simpl in *; try (split; [done|]; intros f Hf; exists f; split; [done|lia]).
  - destruct H as [Hs Hz]. split; [done|]. intros f Hf. rewrite Hf in Hz. by exists z.
  - split; [done|]. intros f Hf. rewrite Hf. simpl. exists (Z.succ f). split; [done|lia].
Qed.

Lemma later_learnt {X} (e : gate_effect X) x w : later w (gate_learnt e x ++ w).
Proof.
  destruct e; simpl; try apply later_refl; try apply later_fact;
    destruct x; simpl; first [apply later_refl|apply later_fact].
Qed.

Lemma regular_before limit w w' : later w w' → regular limit w' → regular limit w.
Proof.
  intros [[l ->] Hs] (Hst & Hz & Hc). split; [by apply Hs|]. split; intros x Hx; [apply Hz|apply Hc]; set_solver.
Qed.

Lemma earliest_app l w z : earliest w = Some z → earliest (l ++ w) = Some z.
Proof. intros H. induction l as [|f l IH]; simpl; [done|]. by rewrite IH. Qed.

Section BakeProofs.
Context {FT : FloatText} (limit : Z) (p : Plan) (s : Step) (spec : HealthGateSpec).
Hypothesis objectives : slo spec ≠ [].

(** What a sample leaves behind: its evidence is of metrics just read, or says
    that there were none. *)
Definition sampled (w : list gate_fact) (r : result HealthGateEvidence failure) (w' : list gate_fact) : Prop :=
  later w w' ∧ match r with
  | Ok e =>
    (∃ source, samples w' = source :: samples w ∧ (passed e = true ↔ meets spec source))
    ∨ (samples w' = samples w ∧ passed e = false)
  | Err _ => True
  end.

Lemma wp_poll_sample polls w : wp (on_gate limit) (poll_sample p s polls spec) (sampled w) w.
Proof.
  assert (∀ w, wp (on_gate limit) (do now := perform GateNow in Ret (Ok (unavailable_timeout spec p s now))) (sampled w) w)
    as Htimeout.
  { intros w0. split; [done|]. intros now. simpl. split; [apply later_fact|]. by right. }
  revert w. induction polls as [|polls IH]; intros w; cbn [poll_sample]; [apply Htimeout|].
  split; [done|]. intros [source| | |].
  - split; [done|]. intros now. simpl. split; [eapply later_trans; apply later_fact|].
    left. exists source. split; [done|]. by apply evaluate_passed.
  - split; [apply later_refl|done].
  - apply Htimeout.
  - split; [done|]. intros [[]|e]; [apply IH|]. split; [apply later_refl|done].
Qed.

Lemma wp_sample_with_lease polls w : wp (on_gate limit) (sample_with_lease p s polls spec) (sampled w) w.
Proof.
  split; [done|]. intros [[]|e]; [|split; [apply later_refl|done]]. simpl.
  apply wp_try. eapply wp_mono; [apply wp_poll_sample|]. intros [e|e] w' [Hl He]; [|by split].
  split; [done|]. intros [[]|e']; by split.
Qed.

(** How the window ended. *)
Definition baked (deadline : Z) (w : list gate_fact) (r : result HealthGateEvidence failure)
    (w' : list gate_fact) : Prop :=
  later w w' ∧ match r with
  | Ok e =>
    passed e = true →
    samples w' ≠ [] ∧ (∀ source, source ∈ samples w' → meets spec source)
    ∧ (bake_window_seconds spec = 0 ∨ ∃ now, latest w' = Some now ∧ deadline ≤ now)
  | Err _ => True
  end.

Lemma wp_bake fuel polls deadline w f :
  (∀ source, source ∈ samples w → meets spec source) → floor w = Some f →
  (regular limit w → f ≤ deadline ∧ deadline - f + 1 ≤ Z.of_nat fuel) →
  wp (on_gate limit) (bake p s fuel polls spec deadline) (baked deadline w) w.
Proof.
  revert w f. induction fuel as [|fuel IH]; intros w f Hall Hf Hfuel; cbn [bake].
  { split; [intros Hs; specialize (Hfuel Hs); lia|]. intros e. split; [apply later_refl|done]. }
  apply wp_try. eapply wp_mono; [apply wp_sample_with_lease|].
  intros [e|e] w1 [Hl1 He]; [|split; [done|done]].
  destruct (passed e) eqn:Hp; cbn [negb orb].
  2:{ split; [done|]. by rewrite Hp. }
  assert (samples w1 ≠ [] ∧ ∀ source, source ∈ samples w1 → meets spec source) as [Hne Hall1].
  { destruct He as [(source & -> & Hm)|[_ Hn]]; [|congruence]. split; [done|].
    intros x [->|Hx]%elem_of_cons; [by apply Hm|by apply Hall]. }
  destruct (Z.eqb_spec (bake_window_seconds spec) 0) as [Hz|Hz].
  { split; [done|]. intros _. split_and!; [done..|by left]. }
  split; [done|]. intros now. cbn [bind perform]. change (gate_learnt GateNow now ++ w1) with (ClockAt now :: w1).
  assert (later w (ClockAt now :: w1)) as Hl2 by (eapply later_trans; [exact Hl1|apply later_fact]).
  destruct (Z.leb_spec deadline now) as [Hle|Hlt].
  { split; [done|]. intros _. split_and!; [done..|]. right. by exists now. }
  split; [done|]. intros []. simpl.
  set (w2 := Slept :: ClockAt now :: w1).
  assert (later w w2) as Hl3 by (eapply later_trans; [exact Hl2|apply later_fact]).
  eapply wp_mono; [apply (IH w2 (Z.succ now)); [exact Hall1|done|]|].
  - intros Hs. specialize (Hfuel (regular_before _ _ _ Hl3 Hs)).
    destruct (proj2 Hl2 (proj1 Hs)) as [_ Hfl]. destruct (Hfl f Hf) as (f' & [= <-] & Hff). lia.
  - intros r w3 [Hl4 Hr]. split; [by eapply later_trans|done].
Qed.
End BakeProofs.

Section DecideProofs.
Context {FT : FloatText} (limit : Z) (p : Plan) (s : Step) (skip : bool) (release : GateSection).

(** The gates do not apply to the step. *)
Definition exempt (w : list gate_fact) : Prop :=
  skip = true ∨ step_action s = Rollback ∨ step_action s = Remove
  ∨ (step_action s = Restart ∧ ∃ env, EnvironmentWas env ∈ w
       ∧ properties env !! ("failed_target." +:+ step_instance_name s) ≠ Some (step_release_id s))
  ∨ ∃ c, OverlayWas c ∈ w ∧ slo (merge_specs release c) = [].

Definition deadline_of (spec : HealthGateSpec) (start : Z) : Z :=
  i64_saturating_add start (i64_saturating_mul (bake_window_seconds spec) 1000).

(** Every sample of the window met every objective, to its end. *)
Definition healthy (w : list gate_fact) : Prop :=
  ∃ c e, OverlayWas c ∈ w ∧ Kept e ∈ w ∧ overall e = Pass
    ∧ samples w ≠ [] ∧ (∀ source, source ∈ samples w → meets (merge_specs release c) source)
    ∧ (bake_window_seconds (merge_specs release c) = 0
       ∨ ∃ start now, earliest w = Some start ∧ latest w = Some now
                      ∧ deadline_of (merge_specs release c) start ≤ now).

Definition decided (r : result (option HealthGateDecision) failure) (w : list gate_fact) : Prop :=
  match r with
  | Ok None => exempt w ∨ healthy w
  | Ok (Some d) =>
    ∃ c e, OverlayWas c ∈ w ∧ Kept e ∈ w ∧ overall e ≠ Pass ∧ gate_summary d = summary e
      ∧ (gate_action d = GateRollback →
         on_fail (merge_specs release c) = Some GateRollback
         ∧ ∃ pin, step_restore s = Some pin ∧ CanRestore pin ∈ w)
  | Err _ => True
  end.

(** Nothing was sampled and no time read yet. *)
Definition quiet (w : list gate_fact) : Prop := samples w = [] ∧ earliest w = None ∧ floor w = None.

Lemma wp_required w :
  quiet w →
  wp (on_gate limit) (step_requires_slo_evaluation s)
    (λ r w', quiet w' ∧ match r with Ok false => exempt w' | _ => True end) w.
Proof.
  intros Hq. unfold step_requires_slo_evaluation, exempt.
  destruct (step_action s) eqn:Ha; simpl; try (split; [done|]; by tauto).
  split; [done|]. intros [env|e]; simpl; [|done]. split.
  { destruct Hq as (? & Hq & ?). split_and!; [done| |done]. simpl. by rewrite Hq. }
  case_bool_decide as Hb; [done|]. right. right. right. left. split; [done|]. exists env. split; [left|done].
Qed.

Lemma wp_decide fuel polls w :
  quiet w → 0 ≤ section_bake_seconds release ≤ limit → limit * 1000 + 1 ≤ Z.of_nat fuel →
  limit ≤ u32_max →
  wp (on_gate limit) (decide_after_success p s fuel polls skip release) decided w.
Proof.
  intros Hq Hbake Hfuel Hlim. unfold decide_after_success.
  destruct skip eqn:Hskip; [left; by left|]. apply wp_try. eapply wp_mono; [by apply wp_required|].
  intros [[]|e] w1 [Hq1 Hex]; simpl; [|by left|done].
  split; [done|]. intros [c|e]; [|done]. simpl. set (spec := merge_specs release c).
  destruct (validate_gates (slo spec)); simpl; [|done].
  case_bool_decide as Hempty.
  { left. right. right. right. right. exists c. split; [left|done]. }
  split; [done|]. intros start. cbn [bind].
  set (w2 := gate_learnt GateNow start ++ OverlayWas c :: w1).
  destruct Hq1 as (Hs1 & He1 & Hf1). apply wp_try.
  eapply wp_mono; [apply (wp_bake limit p s spec Hempty fuel polls (deadline_of spec start) w2 start)|].
  - intros source. simpl. rewrite Hs1. intros Hin. by apply elem_of_nil in Hin.
  - done.
  - intros (_ & Hz & Hc). specialize (Hz start ltac:(left)).
    assert (0 ≤ bake_window_seconds spec ≤ limit) as Hw.
    { unfold spec, merge_specs. destruct c as [c|]; simpl; [|done].
      destruct (Z.ltb_spec 0 (bake_window_seconds c)); [|done]. split; [lia|].
      apply Hc. right. left. }
    unfold deadline_of, i64_saturating_add, i64_saturating_mul, i64_clamp.
    unfold u32_max, i64_min, i64_max in *. lia.
  - intros [e|e] w3 [[[l ->] _] Hb]; [|done].
    assert (OverlayWas c ∈ l ++ w2) as Hov by set_solver.
    split; [done|]. intros [[]|e']; [|done]. simpl.
    destruct (passed e) eqn:Hp.
    + right. destruct (Hb eq_refl) as (Hne & Hall & Hend). apply bool_decide_eq_true in Hp.
      exists c, e. split_and!; [set_solver|left|done..|].
      destruct Hend as [Hend|(now & Hnow & Hle)]; [by left|right].
      exists start, now. split_and!; [|exact Hnow|exact Hle].
      change (Kept e :: l ++ w2) with ((Kept e :: l) ++ w2). apply earliest_app. simpl. by rewrite He1.
    + apply bool_decide_eq_false in Hp. unfold rollback_or_halt.
      assert (∀ w', OverlayWas c ∈ w' → Kept e ∈ w' → ∀ action,
        (action = GateRollback → on_fail spec = Some GateRollback
           ∧ ∃ pin, step_restore s = Some pin ∧ CanRestore pin ∈ w') →
        decided (Ok (Some {| gate_action := action; gate_summary := summary e |})) w') as Hdec.
      { intros w' Ho Hk action Ha. by exists c, e. }
      assert (OverlayWas c ∈ Kept e :: l ++ w2) as Hov' by set_solver.
      assert (on_fail spec = Some (default GateHalt (on_fail spec))) as Hon.
      { unfold spec, merge_specs. destruct c as [c|]; simpl; [by destruct (on_fail c)|done]. }
      destruct (default GateHalt (on_fail spec)); simpl; [by apply Hdec; [|left|]|].
      destruct (step_restore s) as [pin|] eqn:Hr; simpl; [|by apply Hdec; [|left|]].
      split; [done|]. intros []; simpl; apply Hdec; set_solver.
Qed.


(** C37: the bake window ends: on a clock of machine integers that never goes
    back and that a sleep moves, fuel for one round per millisecond of the
    longest window is never used up, whatever is sampled in between. *)
Theorem bake_window_ends fuel polls w :
  0 ≤ section_bake_seconds release ≤ limit → limit ≤ u32_max → limit * 1000 + 1 ≤ Z.of_nat fuel →
  reaches (on_gate limit) OutOfFuel (decide_after_success p s fuel polls skip release) [] w →
  ¬ regular limit w.
Proof.
  intros Hb Hl Hf Hr. refine (wp_reaches _ OutOfFuel _ decided _ _ _ Hr). by apply wp_decide.
Qed.
End DecideProofs.

(** ** One objective *)
Module GateExamples.
#[local] Instance plain_floats : FloatText := {| f64_display _ := "0" |}.

Definition errors : SloGate :=
  {| gate_name := "errors"; gate_query := "errors"; gate_op := OpLte; threshold := S754_zero false |}.

Definition declared (seconds : Z) : GateSection := {|
  eval_suite := None; section_slo := [errors]; section_bake_seconds := seconds;
  section_on_fail := GateRollback |}.

Definition step : Step := {|
  step_id := "s"; step_order := 0; step_product := "api"; step_instance := "";
  step_action := Upgrade; step_from := Some "1.0.0"; step_to := "2.0.0";
  step_release_id := release_id "api" "2.0.0"; step_release_digest := "";
  step_artifact_digest := ""; step_workdir := ""; step_restore := None; step_host := None |}.

Definition plan : Plan := {|
  format_version := 1; plan_id_of := "p"; content_id := ""; plan_environment := "prod";
  created_at := 7; inputs := []; steps := [step]; plan_state := Running;
  gates_skipped := None; status_detail := ""; maintenance_blocked := false;
  prior_warnings := []; recalled_recovery_reason := None; credential_runway := None |}.

Definition answer (value : f64) (overlay : option HealthGateSpec) : answers gate_effect := λ X e,
  match e in gate_effect X return X with
  | GateNow => 50
  | Refresh => Ok tt
  | Poll => Sampled (Some (λ _, Ok value))
  | Sleep _ => tt
  | GateEnvironment => Err (OtherFailure "")
  | ChannelOverlay => Ok overlay
  | PersistEvidence _ => Ok tt
  | Deployable _ => true
  | OutOfFuel => OtherFailure ""
  end.

Definition ended (value : f64) : result (option HealthGateDecision) failure * list gate_fact :=
  run (on_gate 0) (answer value None) (decide_after_success plan step 1 1 false (declared 0)) [].


(** A value that is no number fails the gate. *)
Example nan_fails_closed :
  (ended S754_nan).1
  = Ok (Some {| gate_action := GateHalt;
                gate_summary := "health/SLO gate unavailable for tenkai:release:api@2.0.0 (bake 0s, on_fail=rollback): errors => unavailable (metric sample is not finite (0))" |}).
Proof. vm_compute. reflexivity. Qed.

(** A channel whose window is longer than assumed, on a clock that stands
    still. *)
Definition slow_channel : HealthGateSpec := {| slo := []; bake_window_seconds := 5; on_fail := None |}.

Definition stuck : list gate_fact :=
  [Slept; ClockAt 50; ClockAt 50; SampledFrom (Some (λ _, Ok (S754_zero true))); ClockAt 50;
   OverlayWas (Some slow_channel)].

Lemma bake_window_ends_witness : ¬ regular 0 stuck.
Proof.
  refine (bake_window_ends 0 plan step false (declared 0) 1 1 stuck _ _ _ _); [done|done|done|].
  do 8 (refine (reaches_answer _ (answer (S754_zero true) (Some slow_channel)) _ _ _ _ _ _)).
  apply reaches_here.
Defined.
End GateExamples.
