(* ===== verification/StepLifecycle.v ===== *)
(** * One step of a plan

    [apply/step_lifecycle.rs]: admission, target operation, health gate,
    recovery, compensation and the record of one step, and what all of that
    guarantees about the target whatever the surroundings answer. *)

From S2P Require Import Prelude RustStr Semver Kinds Facts Compatibility Contracts Plan Approvals ReleaseSigning HostState Catalog HostVerify HostSteps Holds DependencyDocument Deployments Effects ProductExecution.

Definition DRAIN_MARKER : string := "waiting for bounded drain".

Definition HOST_NOT_RESTORED : string :=
  "host releases are never restored or re-applied automatically; run an approved rollback plan".

Definition rollback_channel_note (product version : string) : string :=
  "restored " +:+ product +:+ " to " +:+ version
  +:+ "; channel head is unchanged (status may show behind until re-promote)".

(** [restores_automatically]. *)
Definition restores_automatically (c : ReleaseContent) : bool :=
  negb (bool_decide (deploy_executor (content_manifest c) = Some Host)).

Definition step_pin (s : Step) : ReleasePin := {|
  pin_release_id := step_release_id s; pin_digest := step_release_digest s;
  pin_artifact_digest := step_artifact_digest s; pin_workdir := step_workdir s |}.

Definition error_detail (prefix : string) (e : failure) : string := prefix +:+ failure_text e.

Section Step.
Context {D : Diagnostics} (executors : Executors) (environment : string).
(** The manifest a pinned digest names. *)
Context (manifest_at : ReleasePin → Manifest).
Context (s : Step).

Definition content_of (pin : ReleasePin) : ReleaseContent :=
  {| content_pin := pin; content_manifest := manifest_at pin; content_product := step_product s |}.

Definition admit_release (pin : ReleasePin) (recalled : bool) :
    prog effect (result ReleaseContent failure) :=
  do? _ := perform (AdmitRelease pin recalled) in
  Ret (Ok (content_of pin)).

(** [admit_release] of the restore pin, when there is one. *)
Definition admit_restore (recalled : bool) : prog effect (result (option ReleaseContent) failure) :=
  match step_restore s with
  | Some pin => do? c := admit_release pin recalled in Ret (Ok (Some c))
  | None => Ret (Ok None)
  end.

Definition record (o : Outcome) (status : StepOutcomeStatus) (t : DeploymentTransition) :
    prog effect (result unit failure) :=
  perform (Record_ status (outcome_detail o) t).

(** Record an outcome and return it. *)
Definition conclude (status : StepOutcomeStatus) (detail : string) (t : DeploymentTransition) :
    prog effect (result Outcome failure) :=
  let outcome := Outcome_new s status detail in
  do? _ := record outcome status t in
  Ret (Ok outcome).

Definition deployed_to : DeploymentTransition := Deployed (step_to s) (step_from s).

Definition success_transition : DeploymentTransition :=
  if decide (step_action s = Restart) then Refreshed else deployed_to.

Definition record_live_restore_failure (detail : string) : prog effect (result Outcome failure) :=
  conclude OutcomeFailed detail deployed_to.

(** ** Compensation *)

(** The restore of [compensate_activation]: whether the previous release is
    activated and recorded again, unless the fence was lost. *)
Definition compensate_restore : prog effect (result bool failure) :=
  let not_restored := Ret (Ok (negb (is_some_b (step_from s)))) in
  match step_from s, step_restore s with
  | Some previous, Some pin =>
    do admitted := admit_release pin false in
    match admitted with
    | Err _ => not_restored
    | Ok previous_content =>
      do r := activate executors environment previous_content in
      match r with
      | Ok (Ok _) =>
        do recorded := perform (RecordDeployed previous (Some (step_to s))) in
        Ret (Ok (is_ok recorded))
      | Err error => if is_execution_fence_lost error then Ret (Err error) else not_restored
      | Ok (Err _) => not_restored
      end
    end
  | _, _ => not_restored
  end.

Definition compensate_activation (c : ReleaseContent) (error : failure) :
    prog effect (result unit failure) :=
  if decide (step_action s = Restart) then Ret (Ok tt)
  else
    let detail := error_detail "deployment bookkeeping failed after activation: " error in
    if negb (restores_automatically c) then
      do _ := perform (RecordUnknown detail) in
      Ret (Ok tt)
    else
      do removed := deactivate executors environment c in
      do? cleaned := Ret (match removed with
                          | Ok (Ok _) => Ok true
                          | Ok (Err _) => Ok false
                          | Err e => if is_execution_fence_lost e then Err e else Ok false
                          end) in
      do? restored := compensate_restore in
      if negb cleaned || negb restored || negb (is_some_b (step_from s)) then
        do _ := perform (RecordUnknown detail) in
        Ret (Ok tt)
      else Ret (Ok tt).

Definition compensate_or_fence (c : ReleaseContent) (error : failure) : prog effect failure :=
  if is_execution_fence_lost error then Ret error
  else
    do r := compensate_activation c error in
    match r with
    | Err e => if is_execution_fence_lost e then Ret e else Ret error
    | Ok _ => Ret error
    end.

(** Record an outcome after a target operation succeeded; compensate when the
    record fails. *)
Definition conclude_or_compensate (c : ReleaseContent) (status : StepOutcomeStatus)
    (detail : string) (t : DeploymentTransition) : prog effect (result Outcome failure) :=
  let outcome := Outcome_new s status detail in
  do r := record outcome status t in
  match r with
  | Ok _ => Ret (Ok outcome)
  | Err error => do e := compensate_or_fence c error in Ret (Err e)
  end.

(** ** Recovery *)

Definition host_step_failed (detail : string) :
    StepOutcomeStatus * string * option DeploymentTransition :=
  (OutcomeFailed, detail +:+ "; " +:+ HOST_NOT_RESTORED, Some Unknown).

Definition restore_previous (c : ReleaseContent) (version failed : string) :
    prog effect (result (bool * string) failure) :=
  let note := rollback_channel_note (content_product c) version in
  let phase := format_software_phase_error environment PhaseRestore (content_product c) version in
  do r := activate executors environment c in
  match r with
  | Ok (Ok _) => Ret (Ok (true, failed +:+ "; restored " +:+ version +:+ "; " +:+ note))
  | Ok (Err detail) =>
    Ret (Ok (false, failed +:+ "; restore or health check of " +:+ version +:+ " also failed: "
                    +:+ phase detail +:+ "; " +:+ note))
  | Err error =>
    if is_execution_fence_lost error then Ret (Err error)
    else Ret (Ok (false, failed +:+ "; restore executor failed for " +:+ version +:+ ": "
                         +:+ phase (failure_text error) +:+ "; " +:+ note))
  end.

Notation recovery := (StepOutcomeStatus * string * option DeploymentTransition)%type.

Definition recover_restart (c : ReleaseContent) (detail : string) :
    prog effect (result recovery failure) :=
  if negb (restores_automatically c) then Ret (Ok (host_step_failed detail))
  else
    do r := activate executors environment c in
    match r with
    | Ok (Ok _) =>
      Ret (Ok (OutcomeFailed, detail +:+ "; current pin remains deployed", Some Refreshed))
    | Err error =>
      if is_execution_fence_lost error then Ret (Err error)
      else Ret (Ok (OutcomeFailed, detail +:+ "; re-apply of the current pin also failed",
                    Some Unknown))
    | Ok (Err _) =>
      Ret (Ok (OutcomeFailed, detail +:+ "; re-apply of the current pin also failed", Some Unknown))
    end.

Definition recover_activation (c : ReleaseContent) (restore : option ReleaseContent)
    (detail : string) : prog effect (result recovery failure) :=
  if negb (restores_automatically c) then Ret (Ok (host_step_failed detail))
  else
    do? (cleaned, detail) := cleanup_failed_activation executors environment c detail in
    match step_from s with
    | None => Ret (Ok (OutcomeFailed, detail, Some (if cleaned : bool then Unchanged else Unknown)))
    | Some previous =>
      match restore with
      | None =>
        let detail := detail +:+ "; step " +:+ step_id s +:+ " has no pinned restore release" in
        do? _ := record (Outcome_new s OutcomeFailed detail) OutcomeFailed Unknown in
        Ret (Ok (OutcomeFailed, detail, None))
      | Some previous_content =>
        do? (restored, detail) := restore_previous previous_content previous detail in
        let recovered := cleaned && restored in
        Ret (Ok (if recovered : bool then OutcomeRolledBack else OutcomeFailed, detail,
                 Some (if recovered : bool then Unchanged else Unknown)))
      end
    end.

(** ** A failing health gate *)

Definition blocked_detail (detail : string) (e : failure) : string :=
  detail +:+ "; automatic rollback blocked: " +:+ failure_text e.

(** Go on when a check before the automatic rollback passes; otherwise the new
    release stays and is recorded as what runs. *)
Definition or_live {A} (p : prog effect (result A failure)) (detail : string)
    (k : A → prog effect (result Outcome failure)) : prog effect (result Outcome failure) :=
  do r := p in
  match r with
  | Ok a => k a
  | Err e => record_live_restore_failure (blocked_detail detail e)
  end.

Definition software_shell_without_cleanup (c : ReleaseContent) : result bool failure :=
  if decide (policy_target (product_kind (content_manifest c)) = TargetSoftware) then
    let? executor := resolve_executor executors c in
    Ok (negb (is_some_b executor) && negb (declared_command (deploy_uninstall (content_manifest c))))
  else Ok false.

(** The end of [restore_after_health_gate], once nothing refuses it. *)
Definition restore_gated (current previous : ReleaseContent) (detail : string) :
    prog effect (result Outcome failure) :=
  let cleanup_failed why := conclude OutcomeFailed
    (detail +:+ "; automatic rollback blocked: outgoing release cleanup failed: " +:+ why) Unknown in
  let restore :=
    let version := default (product_version (content_manifest previous)) (step_from s) in
    do? (restored, detail) := restore_previous previous version detail in
    conclude (if restored : bool then OutcomeRolledBack else OutcomeFailed) detail
      (if restored : bool then Unchanged else Unknown) in
  do? shell := Ret (software_shell_without_cleanup current) in
  if shell : bool then restore
  else
    do r := deactivate executors environment current in
    match r with
    | Ok (Ok _) => restore
    | Ok (Err why) => cleanup_failed why
    | Err error =>
      if is_execution_fence_lost error then Ret (Err error)
      else cleanup_failed (failure_text error)
    end.

Definition restore_after_health_gate (detail : string) : prog effect (result Outcome failure) :=
  match step_restore s with
  | None =>
    record_live_restore_failure (detail +:+ "; automatic rollback refused: no restore pin")
  | Some pin =>
    or_live (admit_release (step_pin s) false) detail (λ current,
    if negb (restores_automatically current) then
      record_live_restore_failure (detail +:+ "; " +:+ HOST_NOT_RESTORED)
    else
    or_live (admit_release pin false) detail (λ previous,
    or_live (require ArtifactPulls current) detail (λ _,
    or_live (require ArtifactPulls previous) detail (λ _,
    or_live (require Compatible previous) detail (λ _,
    or_live (require Placement previous) detail (λ _,
    restore_gated current previous detail))))))
  end.

(** ** Host steps *)

(** [host_request]: the server's own automatic approvals are left out. *)
Definition host_request (p : Plan) (host : HostStep) (raw : string)
    (signature : SignatureEnvelope) (approvals : list ApprovalEnvelope) :
    result HostApplyRequest string :=
  let approvals :=
    filter (λ e, policy_provider (statement e) ≠ POLICY_PROVIDER) approvals in
  bail_if match approvals with [] => true | _ => false end
    with "host steps need human or external plan approvals; the server's own approvals never authorize them" in
  Ok {| request_plan := p; request_step_id := step_id s; request_action := host_action host;
        request_manifest := raw; request_signature := signature; request_approvals := approvals |}.

Definition host_ran (host : HostStep) : string :=
  "host " +:+ HostAction_str (host_action host) +:+ " of " +:+ step_product s +:+ " " +:+ step_to s.

Definition HostApplyOutcome_debug (o : HostApplyOutcome) : string :=
  match o with
  | HostSucceeded => "Succeeded"
  | HostFailed => "Failed"
  | TimedOut => "TimedOut"
  | Stopped => "Stopped"
  | Interrupted => "Interrupted"
  end.

(** What a host step that ended is recorded as. *)
Definition host_outcome (host : HostStep) (ended : HostStepEnd) : recovery :=
  match ended with
  | HostRecorded HostSucceeded detail =>
    (OutcomeSucceeded, detail,
     Some (match host_action host with
           | HostInstall => Deployed (step_to s) (step_from s)
           | HostHealth => Deployed (step_to s) None
           | HostUninstall => Removed (step_to s)
           end))
  | HostRecorded o detail =>
    host_step_failed (host_ran host +:+ " ended " +:+ HostApplyOutcome_debug o +:+ ": " +:+ detail)
  | HostUnknown detail => host_step_failed (host_ran host +:+ " failed: " +:+ detail)
  | HostNotRun detail =>
    (OutcomeFailed, host_ran host +:+ " did not run: " +:+ detail, Some Unchanged)
  end.

Definition execute_host (p : Plan) (host : HostStep) (raw : string)
    (approvals : list ApprovalEnvelope) (c : ReleaseContent) : prog effect (result Outcome failure) :=
  do? _ := Ret (map_err (λ _, OtherFailure "host executor unavailable") (executors_host executors)) in
  do? _ := perform (Ask HostProductOk) in
  do? resubscribed := if decide (host_action host = HostUninstall) then perform (Ask Resubscribed)
                      else Ret (Ok false) in
  do signature := perform (SignatureFor (step_release_id s)) in
  let request := match signature with
    | Ok sig => host_request p host raw sig approvals
    | Err e => Err (failure_text e)
    end in
  do? ended :=
    if resubscribed : bool then
      Ret (Ok (HostNotRun (environment +:+ " subscribes to " +:+ step_product s +:+ " again")))
    else match request with
         | Ok request => perform (RunHost request)
         | Err detail => Ret (Ok (HostNotRun detail))
         end in
  let '(status, detail, transition) := host_outcome host ended in
  conclude_or_compensate c status detail (default Unknown transition).

(** ** The step *)

Definition uninstalls (c : ReleaseContent) : bool :=
  declared_command (deploy_uninstall (content_manifest c)).

(** Executors: each release has its own available, and the product keeps the
    one it is installed with. *)
Definition check_executors (c : ReleaseContent) (restore : option ReleaseContent) :
    prog effect (result unit failure) :=
  let executor c := deploy_executor (content_manifest c) in
  let unavailable (e : executor_error) := OtherFailure "executor refused" in
  do? _ := Ret (map_err unavailable (require_available executors (executor c))) in
  do? _ := Ret (match restore with
                | Some r => map_err unavailable (require_available executors (executor r))
                | None => Ok tt
                end) in
  if bool_decide (step_action s ≠ Restart) && is_some_b (step_from s) then
    match restore with
    | Some r => Ret (map_err unavailable
                       (require_same_executor executors (step_product s) (executor r) (executor c)))
    | None => do? _ := perform (Ask SameExecutor) in Ret (Ok tt)
    end
  else Ret (Ok tt).

(** The checks of [execute] after the executors, before anything runs. *)
Definition check_admission (skip_gates : bool) (c : ReleaseContent)
    (restore : option ReleaseContent) : prog effect (result unit failure) :=
  let each r k := match restore with Some x => do? _ := require r x in k | None => k end in
  do? _ := require ArtifactPulls c in
  each ArtifactPulls
    (do? _ := if decide (step_action s = Remove) then Ret (Ok tt)
              else do? _ := require Compatible c in require Placement c in
     each Placement
       (if skip_gates then Ret (Ok tt)
        else do? slo := perform (Ask SloRequired) in
             if slo : bool then require GateSpec c else Ret (Ok tt))).

(** Rollback cleanup of the outgoing release: [Some detail] when it failed. *)
Definition remove_outgoing (restore : option ReleaseContent) :
    prog effect (result (bool * option string) failure) :=
  match restore with
  | Some outgoing =>
    if bool_decide (step_action s = Rollback) && uninstalls outgoing then
      do r := deactivate executors environment outgoing in
      match r with
      | Ok (Ok _) => Ret (Ok (true, None))
      | Ok (Err detail) => Ret (Ok (false, Some detail))
      | Err error =>
        if is_execution_fence_lost error then Ret (Err error)
        else Ret (Ok (false, Some (error_detail "cleanup executor failed: " error)))
      end
    else Ret (Ok (false, None))
  | None => Ret (Ok (false, None))
  end.

(** After the target operation succeeded. *)
Definition after_success (c : ReleaseContent) : prog effect (result Outcome failure) :=
  do decision := perform DecideGate in
  match decision with
  | Ok None => conclude_or_compensate c OutcomeSucceeded "" success_transition
  | Ok (Some d) =>
    match gate_action d with
    | GateRollback => restore_after_health_gate (gate_summary d)
    | GateHalt => conclude_or_compensate c OutcomeFailed (gate_summary d) success_transition
    end
  | Err error => do e := compensate_or_fence c error in Ret (Err e)
  end.

(** After the target operation failed with [detail]. *)
Definition after_failure (c : ReleaseContent) (restore : option ReleaseContent) (detail : string) :
    prog effect (result Outcome failure) :=
  do? (status, detail, transition) :=
    if str_contains DRAIN_MARKER detail then Ret (Ok (OutcomeBlocked, detail, Some Unknown))
    else if decide (step_action s = Restart) then recover_restart c detail
    else recover_activation c restore detail in
  match transition with
  | Some t => conclude status detail t
  | None => Ret (Ok (Outcome_new s status detail))
  end.

Definition execute_target (c : ReleaseContent) (restore : option ReleaseContent) :
    prog effect (result Outcome failure) :=
  do? (outgoing_removed, cleanup_failure) := remove_outgoing restore in
  match cleanup_failure with
  | Some detail =>
    conclude OutcomeFailed
      ("rollback blocked: outgoing release cleanup failed: " +:+ detail) Unknown
  | None =>
    do r := if decide (step_action s = Restart) then restart executors environment c
            else activate executors environment c in
    match r with
    | Ok (Ok _) => after_success c
    | Ok (Err detail) => after_failure c restore detail
    | Err error =>
      match error with
      | FenceLost _ => Ret (Err error)
      | AdmissionRefused text =>
        if outgoing_removed : bool then
          do? _ := record (Outcome_new s OutcomeBlocked text) OutcomeBlocked Unknown in
          Ret (Err error)
        else Ret (Err error)
      | OtherFailure _ =>
        after_failure c restore (error_detail "deployment executor failed: " error)
      end
    end
  end.

Definition execute (p : Plan) (raw : string) (approvals : list ApprovalEnvelope)
    (recalled_recovery skip_gates : bool) : prog effect (result Outcome failure) :=
  let admit_recalled := (recalled_recovery && bool_decide (step_action s = Rollback))
                        || bool_decide (step_action s = Remove) in
  do? c := admit_release (step_pin s) admit_recalled in
  do? restore := admit_restore admit_recalled in
  let host_release := negb (restores_automatically c) in
  if negb (Bool.eqb host_release (is_some_b (step_host s))) then
    Ret (Err (OtherFailure (if host_release then "host release without a host binding"
                            else "host step of another executor")))
  else
  do? _ := check_executors c restore in
  do? _ := check_admission skip_gates c restore in
  match step_host s with
  | Some host => execute_host p host raw approvals c
  | None => execute_target c restore
  end.
End Step.

(** ** What a step guarantees *)

(** A step names its releases: the target is the product at [step_to], the
    restore pin the product at [step_from], and a restart stays where it is. *)
Record step_wf (s : Step) : Prop := {
  swf_target : step_release_id s = release_id (step_product s) (step_to s);
  swf_restart : step_action s = Restart → step_from s = Some (step_to s) ∧ step_restore s = None;
  swf_restore pin : step_restore s = Some pin →
    ∃ v, step_from s = Some v ∧ pin_release_id pin = release_id (step_product s) v
}.

(** What runs before the step, when the environment's record is right. *)
Definition before (s : Step) : target :=
  match step_from s with
  | Some v => Runs (release_id (step_product s) v)
  | None => Absent
  end.

(** What the step is for. *)
Definition wanted (s : Step) : target :=
  match step_host s with
  | Some h => if decide (host_action h = HostUninstall) then Absent else Runs (step_release_id s)
  | None => Runs (step_release_id s)
  end.

(** A recorded transition tells the truth about the target. *)
Definition agrees (s : Step) (t : DeploymentTransition) (tg : target) : Prop :=
  match t with
  | Deployed version _ => tg = Runs (release_id (step_product s) version)
  | Refreshed => tg = Runs (step_release_id s)
  | Removed _ => tg = Absent
  | Unchanged => tg = before s
  | Unknown => True
  end.

(** What a status says of the target. *)
Definition claims (s : Step) (status : StepOutcomeStatus) (tg : target) : Prop :=
  match status with
  | OutcomeSucceeded => tg = wanted s
  | OutcomeRolledBack => tg = before s
  | _ => True
  end.

(** How a step ends: with an outcome that is recorded and true; or with an
    error, when the fence was lost, nothing changed, or the attempt to record
    came last. A host step that ends in an error has the applier's own
    record. *)
Definition concluded (s : Step) (r : result Outcome failure) (w : world) : Prop :=
  match r with
  | Ok o => ∃ status detail t, o = Outcome_new s status detail ∧ w_note w = Noted t
      ∧ agrees s t (w_target w) ∧ claims s status (w_target w)
  | Err _ => w_lost w = true ∨ w_target w = before s ∨ w_note w ≠ NotNoted ∨ step_host s ≠ None
  end.

Section StepSpecs.
Context {D : Diagnostics} (executors : Executors) (environment : string).
Context (manifest_at : ReleasePin → Manifest) (s : Step).
Hypothesis Hwf : step_wf s.

Notation wps := (wp (on_target (step_release_id s))).
Notation content := (content_of manifest_at s).

Lemma conclude_spec status detail t w :
  agrees s t (w_target w) → claims s status (w_target w) →
  wps (conclude s status detail t) (concluded s) w.
Proof.
  intros Ha Hs. simpl. split; [done|]. intros [[]|e]; simpl; [by eexists status, detail, t|].
  by right; right; left.
Qed.

Lemma admit_spec pin recalled w :
  wps (admit_release manifest_at s pin recalled) (λ r w',
    w_target w' = w_target w ∧ w_note w' = w_note w ∧
    match r with
    | Ok c => c = content pin ∧ w_lost w' = w_lost w ∧ w_admitted w' = pin :: w_admitted w
    | Err e => w_admitted w' = w_admitted w
               ∧ w_lost w' = w_lost w || is_execution_fence_lost e
    end) w.
Proof. simpl. split; [done|]. by intros [[]|e]. Qed.

(** Compensation: when the fence holds, the attempt to write down what became
    of the target comes last. *)
Definition noted_or_lost (w : world) : Prop := w_lost w = true ∨ w_note w ≠ NotNoted.

Lemma compensate_restore_spec w :
  w_lost w = false →
  (∀ pin, step_restore s = Some pin → deploy_executor (manifest_at pin) ≠ Some Host) →
  wps (compensate_restore executors environment manifest_at s) (λ r w',
    match r with
    | Ok true => is_some_b (step_from s) = true → noted_or_lost w'
    | Ok false => True
    | Err e => w_lost w' = true
    end) w.
Proof.
  intros Hl Hh. unfold compensate_restore. destruct (step_from s) as [v|]; [|done].
  destruct (step_restore s) as [pin|] eqn:Hr; [|done].
  apply wp_bind. eapply wp_mono; [apply admit_spec|]. intros [c|e] w1 (Ht1 & Hn1 & Hc); [|done].
  destruct Hc as (-> & Hl1 & Ha1). apply wp_bind. eapply wp_mono.
  { apply activate_spec. split_and!; [congruence|rewrite Ha1; left|by apply Hh]. }
  intros [[[]|detail]|[]] w2 [_ Hw2]; simpl; try done; simpl.
  split; [done|]. intros [[]|e]; simpl; [|done]. intros _. by right.
Qed.

Lemma compensate_spec c error w :
  runnable c w →
  (∀ pin, step_restore s = Some pin → deploy_executor (manifest_at pin) ≠ Some Host) →
  step_action s ≠ Restart →
  wps (compensate_activation executors environment manifest_at s c error) (λ r w',
    noted_or_lost w' ∧ (∀ e, r = Err e → w_lost w' = true)) w.
Proof.
  intros Hr Hh Hact. unfold compensate_activation. rewrite decide_False by done.
  destruct (restores_automatically c); simpl; [|split; [done|]; intros [[]|e]; by split; [right|]].
  apply wp_bind. eapply wp_mono; [by apply deactivate_spec|].
  intros removed w1 [_ Hw1].
  assert (Hcase : ∀ cleaned : bool, w_lost w1 = false →
    wps (do? restored := compensate_restore executors environment manifest_at s in
         if negb cleaned || negb restored || negb (is_some_b (step_from s)) then
           do _ := perform (RecordUnknown (error_detail
             "deployment bookkeeping failed after activation: " error)) in
           Ret (Ok tt)
         else Ret (Ok tt)) (λ r w', noted_or_lost w' ∧ (∀ e, r = Err e → w_lost w' = true)) w1).
  { intros cleaned Hl1. apply wp_try. eapply wp_mono; [by apply compensate_restore_spec|].
    intros [restored|e] w2 Hw2; [|split; [by left|by intros ? [= <-]]].
    destruct (negb cleaned || negb restored || negb (is_some_b (step_from s))) eqn:Hb; simpl.
    - split; [done|]. intros [[]|e]; by split; [right|].
    - apply orb_false_iff in Hb as [Hb Hf%negb_false_iff].
      apply orb_false_iff in Hb as [_ ->%negb_false_iff]. split; [by apply Hw2|done]. }
  destruct removed as [[[]|]|[]]; simpl in *; try (apply Hcase; tauto).
  split; [by left|by intros ? [= <-]].
Qed.

(** Content that runs now, of the step's own release. *)
Definition in_hand (w : world) : Prop :=
  runnable (content (step_pin s)) w
  ∧ ∀ pin, step_restore s = Some pin → deploy_executor (manifest_at pin) ≠ Some Host.

Lemma or_fence_spec c error w :
  w_lost w = is_execution_fence_lost error →
  (w_lost w = false → runnable c w) →
  (∀ pin, step_restore s = Some pin → deploy_executor (manifest_at pin) ≠ Some Host) →
  (step_action s = Restart → w_target w = before s ∨ w_note w ≠ NotNoted) →
  wps (do e := compensate_or_fence executors environment manifest_at s c error in Ret (Err e))
    (concluded s) w.
Proof.
  intros Hl Hr Hh Hrestart. unfold compensate_or_fence. destruct (is_execution_fence_lost error).
  { simpl. by left. }
  destruct (decide (step_action s = Restart)) as [Ha|Ha].
  { unfold compensate_activation. rewrite decide_True by done. simpl. right. tauto. }
  apply wp_bind, wp_bind. eapply wp_mono; [by apply compensate_spec; auto|].
  intros [[]|e] w' [[?|?] Hlost]; simpl; try destruct (is_execution_fence_lost e); simpl; tauto.
Qed.

Lemma conclude_or_compensate_spec c status detail t w :
  runnable c w →
  (∀ pin, step_restore s = Some pin → deploy_executor (manifest_at pin) ≠ Some Host) →
  agrees s t (w_target w) → claims s status (w_target w) →
  wps (conclude_or_compensate executors environment manifest_at s c status detail t)
    (concluded s) w.
Proof.
  intros Hr Hh Ha Hs. unfold conclude_or_compensate, record.
  simpl. split; [done|]. intros [[]|e]; simpl; [by eexists status, detail, t|].
  destruct (Hr) as (Hl & Hin & Hx). apply or_fence_spec; simpl; [by rewrite Hl| |done|by right].
  intros Hl'. split_and!; done.
Qed.

(** What [restore_previous] leaves. *)
Lemma restore_previous_spec c version failed w :
  runnable c w →
  wps (restore_previous executors environment c version failed) (λ r w',
    w_admitted w' = w_admitted w ∧
    match r with
    | Ok (true, _) => w_lost w' = false ∧ w_target w' = Runs (content_release c)
    | Ok (false, _) => w_lost w' = false
    | Err _ => w_lost w' = true
    end) w.
Proof.
  intros Hr. unfold restore_previous. apply wp_bind. eapply wp_mono; [by apply activate_spec|].
  intros [[]|[]] w' [Ha Hw']; simpl; tauto.
Qed.

(** A recovery either records now, or leaves a transition to record. *)
Definition recovered (r : result (StepOutcomeStatus * string * option DeploymentTransition) failure)
    (w : world) : Prop :=
  match r with
  | Ok (status, _, Some t) => agrees s t (w_target w) ∧ claims s status (w_target w)
  | Ok (status, _, None) => w_note w = Noted Unknown ∧ claims s status (w_target w)
  | Err _ => w_lost w = true ∨ w_note w ≠ NotNoted
  end.

Lemma recover_restart_spec detail w :
  in_hand w → wps (recover_restart executors environment (content (step_pin s)) detail) recovered w.
Proof.
  intros [Hr Hh]. unfold recover_restart. destruct (restores_automatically _); [|by split].
  apply wp_bind. eapply wp_mono; [by apply activate_spec|].
  intros [[]|[]] w' [_ Hw']; simpl; tauto.
Qed.

Lemma recover_activation_spec restore detail w :
  in_hand w → restore = content <$> step_restore s →
  (∀ pin, step_restore s = Some pin → pin ∈ w_admitted w) →
  (step_from s = None → w_target w = before s ∨ atomic (content (step_pin s)) = false) →
  wps (recover_activation executors environment s (content (step_pin s)) restore detail)
    recovered w.
Proof.
  intros [Hr Hh] -> Hin Hfresh. unfold recover_activation.
  destruct (restores_automatically _); [|by split].
  apply wp_try. eapply wp_mono; [by apply cleanup_spec|].
  intros [[cleaned why]|e] w1 [Hadm Hw1]; [|by left].
  destruct (step_from s) as [v|] eqn:Hf.
  - destruct (step_restore s) as [pin|] eqn:Hp; simpl.
    + assert (Hl1 : w_lost w1 = false) by (destruct cleaned; tauto).
      apply wp_try. eapply wp_mono.
      { apply restore_previous_spec. split_and!; [done| |by apply Hh].
        simpl. rewrite Hadm. by apply Hin. }
      destruct (swf_restore s Hwf pin Hp) as (v' & Hv' & Hpin).
      intros [[[] why']|e] w2 [_ Hw2]; simpl; [| |by left]; destruct cleaned; simpl; try by split.
      assert (Hb : w_target w2 = before s); [|done]. unfold before. rewrite Hv'.
      destruct Hw2 as [_ ->]. unfold content_release. simpl. by rewrite Hpin.
    + split; [done|]. intros [[]|e]; simpl; [done|by right].
  - destruct cleaned; simpl; [|by split]. split; [|done]. destruct Hw1 as [_ [->|[Hat ->]]].
    + unfold before. by rewrite Hf.
    + destruct (Hfresh eq_refl); congruence.
Qed.

(** A read-only check leaves everything but the fence, and may admit. *)
Definition checked {A} (w : world) (r : result A failure) (w' : world) : Prop :=
  w_target w' = w_target w ∧ w_note w' = w_note w ∧ w_admitted w ⊆ w_admitted w'
  ∧ (is_ok r = true → w_lost w' = w_lost w).

Lemma require_spec r c w : wps (require r c) (checked w) w.
Proof. destruct w. simpl. split; [done|]. intros [[]|e]; split_and!; simpl; try done.
  intros _. by rewrite orb_false_r. Qed.

Lemma or_live_spec {A} (p : prog effect (result A failure)) detail k w (P : A → Prop) :
  w_target w = Runs (step_release_id s) →
  wps p (λ r w', checked w r w' ∧ match r with Ok a => P a | Err _ => True end) w →
  (∀ a w', P a → checked w (Ok a : result A failure) w' → wps (k a) (concluded s) w') →
  wps (or_live s p detail k) (concluded s) w.
Proof.
  intros Ht Hp Hk. apply wp_bind. eapply wp_mono; [exact Hp|].
  intros [a|e] w' [Hc HP]; [by apply Hk|]. destruct Hc as (Ht' & _).
  apply conclude_spec; [|done]. simpl. by rewrite Ht', Ht, (swf_target s Hwf).
Qed.

Lemma or_live_require_spec r c detail k w :
  w_target w = Runs (step_release_id s) →
  (∀ a w', checked w (Ok a : result unit failure) w' → wps (k a) (concluded s) w') →
  wps (or_live s (require r c) detail k) (concluded s) w.
Proof.
  intros Ht Hk. apply (or_live_spec _ _ _ _ (λ _, True)); [done| |by intros; apply Hk].
  eapply wp_mono; [apply require_spec|]. by intros [] w' ?.
Qed.

Lemma or_live_admit_spec pin detail k w :
  w_target w = Runs (step_release_id s) →
  (∀ w', pin ∈ w_admitted w' → checked w (Ok tt : result unit failure) w' →
         wps (k (content pin)) (concluded s) w') →
  wps (or_live s (admit_release manifest_at s pin false) detail k) (concluded s) w.
Proof.
  intros Ht Hk. apply wp_bind. eapply wp_mono; [apply admit_spec|].
  intros [c|e] w' (Ht' & Hn' & Hc).
  - destruct Hc as (-> & Hl & Ha). apply Hk; [rewrite Ha; left|].
    split_and!; [done..|rewrite Ha; set_solver|done].
  - apply conclude_spec; [|done]. simpl. by rewrite Ht', Ht, (swf_target s Hwf).
Qed.

Lemma restore_gated_spec pin detail w :
  in_hand w → step_restore s = Some pin → pin ∈ w_admitted w →
  is_ok (resolve executors (deploy_executor (manifest_at (step_pin s)))) = true →
  wps (restore_gated executors environment s (content (step_pin s)) (content pin) detail)
    (concluded s) w.
Proof.
  intros [Hr Hh] Hp Hin Hres. unfold restore_gated.
  destruct (swf_restore s Hwf pin Hp) as (v & Hv & Hpin).
  set (restore := do? (restored, detail) := restore_previous _ _ _ _ _ in _).
  assert (Hrestore : ∀ w', w_lost w' = false → pin ∈ w_admitted w' →
    wps restore (concluded s) w').
  { intros w' Hl' Hin'. unfold restore. apply wp_try. eapply wp_mono.
    { apply restore_previous_spec. split_and!; [done..|by apply Hh]. }
    intros [[[] why]|e] w2 [_ Hw2]; [| |by left]; apply conclude_spec; try done.
    all: simpl; unfold before; rewrite Hv. all: destruct Hw2 as [_ ->]; unfold content_release; simpl.
    all: by rewrite Hpin. }
  assert (∃ b, software_shell_without_cleanup executors (content (step_pin s)) = Ok b) as [b ->].
  { unfold software_shell_without_cleanup, resolve_executor. case_decide; [|eauto].
    simpl. destruct (resolve _ _); simpl in *; [eauto|done]. }
  destruct Hr as (Hl & Ha & Hx). apply wp_try. cbn [wp]. destruct b; [by apply Hrestore|].
  apply wp_bind. eapply wp_mono; [apply deactivate_spec; done|].
  intros [[]|[]] w' [Hadm Hw']; simpl; try (by left); try (by apply conclude_spec).
  apply Hrestore; [tauto|by rewrite Hadm].
Qed.

Lemma restore_after_health_gate_spec detail w :
  in_hand w → w_target w = Runs (step_release_id s) →
  is_ok (resolve executors (deploy_executor (manifest_at (step_pin s)))) = true →
  wps (restore_after_health_gate executors environment manifest_at s detail) (concluded s) w.
Proof.
  intros [(Hl & Ha & Hx) Hh] Ht Hres. unfold restore_after_health_gate.
  assert (Hlive : ∀ d w', w_target w' = Runs (step_release_id s) →
    wps (record_live_restore_failure s d) (concluded s) w').
  { intros d w' Ht'. apply conclude_spec; [|done]. simpl. by rewrite Ht', (swf_target s Hwf). }
  destruct (step_restore s) as [pin|] eqn:Hp; [|by apply Hlive].
  apply or_live_admit_spec; [done|]. intros w1 Hin1 (Ht1 & _ & Hs1 & Hl1).
  destruct (restores_automatically _); [|apply Hlive; congruence].
  apply or_live_admit_spec; [congruence|]. intros w2 Hin2 (Ht2 & _ & Hs2 & Hl2).
  do 4 (apply or_live_require_spec; [congruence|]; intros [] ?w (? & _ & ? & ?)).
  apply restore_gated_spec; [|done| |done].
  - split; [split_and!; [|set_solver|done]|by rewrite Hp].
    repeat match goal with H : is_ok _ = true → _ |- _ => specialize (H eq_refl) end. congruence.
  - set_solver.
Qed.

Lemma success_agrees w :
  w_target w = Runs (step_release_id s) → agrees s (success_transition s) (w_target w).
Proof.
  intros ->. unfold success_transition. case_decide; simpl; [done|]. by rewrite (swf_target s Hwf).
Qed.

(** What the target runs after a restart is what it ran before. *)
Lemma restart_before : step_action s = Restart → before s = Runs (step_release_id s).
Proof.
  intros Ha. unfold before. destruct (swf_restart s Hwf Ha) as [-> _]. by rewrite (swf_target s Hwf).
Qed.

Lemma after_success_spec w :
  in_hand w → w_target w = Runs (step_release_id s) → step_host s = None →
  is_ok (resolve executors (deploy_executor (manifest_at (step_pin s)))) = true →
  wps (after_success executors environment manifest_at s (content (step_pin s))) (concluded s) w.
Proof.
  intros [Hr Hh] Ht Hhost Hres. unfold after_success. apply wp_bind. cbn [wp perform].
  split; [done|]. assert (Hwant : wanted s = Runs (step_release_id s)).
  { unfold wanted. by rewrite Hhost. }
  destruct (Hr) as (Hl & Ha & Hx).
  intros [[d|]|e]; cbn [after_effect lost_by].
  1-2: assert (Hr1 : runnable (content (step_pin s)) (with_lost w false))
    by (split_and!; simpl; [by rewrite Hl|done|done]).
  - destruct (gate_action d).
    + apply conclude_or_compensate_spec; [done|done|by apply success_agrees|done].
    + by apply restore_after_health_gate_spec.
  - apply conclude_or_compensate_spec; [done|done|by apply success_agrees|]. simpl. congruence.
  - apply or_fence_spec; simpl; [by rewrite Hl| |done|].
    + intros Hl'. by split_and!.
    + intros Hrs. left. by rewrite restart_before.
Qed.

Lemma after_failure_spec restore detail w :
  in_hand w → restore = content <$> step_restore s →
  (∀ pin, step_restore s = Some pin → pin ∈ w_admitted w) →
  (step_from s = None → w_target w = before s ∨ atomic (content (step_pin s)) = false) →
  wps (after_failure executors environment s (content (step_pin s)) restore detail)
    (concluded s) w.
Proof.
  intros Hin Hres Hadm Hfresh. unfold after_failure. apply wp_try.
  eapply (wp_mono _ _ recovered).
  { destruct (str_contains _ _); [by split|]. case_decide; [by apply recover_restart_spec|].
    by apply recover_activation_spec. }
  intros [[[status why] [t|]]|e] w'; simpl.
  - intros [Ha Hst]. by apply conclude_spec.
  - intros [Hn Hst]. by eexists status, why, Unknown.
  - intros [?|?]; tauto.
Qed.

Lemma remove_outgoing_spec w :
  in_hand w → (∀ pin, step_restore s = Some pin → pin ∈ w_admitted w) →
  w_target w = before s → w_note w = NotNoted →
  wps (remove_outgoing executors environment s (content <$> step_restore s)) (λ r w',
    w_admitted w' = w_admitted w ∧
    match r with
    | Ok (true, None) => w_lost w' = false
    | Ok (false, None) => w' = w
    | Ok (_, Some _) => True
    | Err _ => w_lost w' = true
    end ∧ (step_from s = None → w' = w)) w.
Proof.
  intros [Hr Hh] Hadm Ht Hn. unfold remove_outgoing.
  destruct (step_restore s) as [pin|] eqn:Hp; [|by split_and!].
  destruct (swf_restore s Hwf pin Hp) as (v & Hv & _). simpl.
  destruct (bool_decide _ && _); [|by split_and!].
  apply wp_bind. eapply wp_mono.
  { apply deactivate_spec. split_and!; [apply Hr|by apply Hadm|by apply Hh]. }
  intros [[]|[]] w' [Ha Hw']; simpl; split_and!; (done || tauto || congruence).
Qed.

Lemma execute_target_spec w :
  in_hand w → (∀ pin, step_restore s = Some pin → pin ∈ w_admitted w) →
  w_target w = before s → w_note w = NotNoted → step_host s = None →
  is_ok (resolve executors (deploy_executor (manifest_at (step_pin s)))) = true →
  wps (execute_target executors environment manifest_at s (content (step_pin s))
         (content <$> step_restore s)) (concluded s) w.
Proof.
  intros [Hr Hh] Hadm Ht Hn Hhost Hres. unfold execute_target. apply wp_try.
  eapply wp_mono; [by apply remove_outgoing_spec|].
  intros [[removed failed]|e] w1 (Ha1 & Hw1 & Hfresh1); [|by left].
  destruct failed as [why|]; [by apply conclude_spec|].
  assert (Hl1 : w_lost w1 = false) by (destruct removed; [done|subst; apply Hr]).
  assert (Hr1 : runnable (content (step_pin s)) w1).
  { destruct Hr as (_ & ? & ?). split_and!; [done|by rewrite Ha1|done]. }
  assert (Hfail : ∀ detail w2, w_admitted w2 = w_admitted w1 → w_lost w2 = false →
    (step_from s = None → w_target w2 = before s ∨ atomic (content (step_pin s)) = false) →
    wps (after_failure executors environment s (content (step_pin s))
           (content <$> step_restore s) detail) (concluded s) w2).
  { intros detail w2 Ha2 Hl2 Hf2. apply after_failure_spec; [|done| |done].
    - destruct Hr1 as (_ & ? & ?). split; [split_and!; [done|by rewrite Ha2|done]|done].
    - intros pin Hp. rewrite Ha2, Ha1. by apply Hadm. }
  apply wp_bind. eapply (wp_mono _ _ (λ r w2, w_admitted w2 = w_admitted w1 ∧
    match r with
    | Ok (Ok _) => w_lost w2 = false ∧ w_target w2 = Runs (step_release_id s)
    | Ok (Err _) | Err (OtherFailure _) => w_lost w2 = false
      ∧ (step_from s = None → w_target w2 = before s ∨ atomic (content (step_pin s)) = false)
    | Err (AdmissionRefused _) =>
      w_lost w2 = false ∧ w_target w2 = w_target w1 ∧ w_note w2 = w_note w1
    | Err (FenceLost _) => w_lost w2 = true
    end)).
  { case_decide as Ha.
    - eapply wp_mono; [by apply restart_spec|]. destruct (swf_restart s Hwf Ha) as [Hf _].
      intros [[]|[]] w2 [? ?]; split; try done; split; (done || congruence).
    - eapply wp_mono; [by apply activate_spec|].
      assert (Hat : ∀ w2, (atomic (content (step_pin s)) = true → w_target w2 = w_target w1) →
        step_from s = None → w_target w2 = before s ∨ atomic (content (step_pin s)) = false).
      { intros w2 H2 Hf. destruct (atomic _); [left|by right]. by rewrite H2, (Hfresh1 Hf). }
      intros [[]|[]] w2 [? Hw2]; split; try done; split; try tauto; by apply Hat, Hw2. }
  intros [[[]|detail]|[text|text|text]] w2 [Ha2 Hw2].
  - apply after_success_spec; [|tauto|done|done]. destruct Hr1 as (_ & ? & ?).
    split; [split_and!; [tauto|by rewrite Ha2|done]|done].
  - by apply Hfail; [|apply Hw2..].
  - by left.
  - destruct removed; simpl.
    + split; [done|]. intros [[]|e]; simpl; by right; right; left.
    + subst w1. right; left. destruct Hw2 as (_ & -> & _). done.
  - by apply Hfail; [|apply Hw2..].
Qed.

(** A host step: nothing runs but the applier's unit. *)
Lemma conclude_host_spec c status detail t w :
  restores_automatically c = false →
  agrees s t (w_target w) → claims s status (w_target w) →
  wps (conclude_or_compensate executors environment manifest_at s c status detail t)
    (concluded s) w.
Proof.
  intros Hc Ha Hs. unfold conclude_or_compensate, record, compensate_or_fence, compensate_activation.
  rewrite Hc. simpl. split; [done|]. intros [[]|e]; simpl; [by eexists status, detail, t|].
  destruct (is_execution_fence_lost e); simpl; [right; right; by left|].
  case_decide; simpl; [right; right; by left|].
  split; [done|]. intros [[]|e']; simpl; right; right; by left.
Qed.

Lemma host_outcome_spec host ended request w :
  step_host s = Some host → request_action request = host_action host → w_target w = before s →
  let '(status, _, t) := host_outcome s host ended in
  let tg := after_host (request_action request) (step_release_id s) (Ok ended) (w_target w) in
  agrees s (default Unknown t) tg ∧ claims s status tg.
Proof.
  intros Hh -> Ht. unfold claims, wanted. rewrite Hh.
  destruct ended as [[] d|d|d]; simpl; try by split.
  destruct (host_action host); simpl; by rewrite <- ?(swf_target s Hwf).
Qed.

Lemma host_request_action p host raw sig approvals request :
  host_request s p host raw sig approvals = Ok request →
  request_action request = host_action host.
Proof. unfold host_request. intros H. ok_inv H. by simplify_eq. Qed.

Lemma execute_host_spec p host raw approvals w :
  w_lost w = false → w_target w = before s → step_host s = Some host →
  restores_automatically (content (step_pin s)) = false →
  wps (execute_host executors environment manifest_at s p host raw approvals
         (content (step_pin s))) (concluded s) w.
Proof.
  intros Hl Ht Hhost Hc.
  assert (Herr : ∀ e w', concluded s (Err e) w') by (intros e w'; simpl; rewrite Hhost; by right; right; right).
  unfold execute_host. apply wp_try. cbn [wp].
  destruct (executors_host executors); simpl map_err; cbn beta iota; [|apply Herr].
  apply wp_try. cbn [wp perform]. split; [done|]. intros [b1|e1]; [|apply Herr].
  apply wp_try. eapply (wp_mono _ _ (λ r w', w_target w' = w_target w
    ∧ match r with Ok _ => w_lost w' = false | Err _ => True end)).
  { case_decide; cbn [wp perform]; [split; [done|]; intros [b2|e2]|]; simpl; rewrite ?Hl; by split. }
  intros [resub|e2] w2 [Ht2 Hl2]; [|apply Herr].
  apply wp_bind. cbn [wp perform]. split; [done|]. intros sig. cbn [on_target after allowed_in]. set (w3 := after_effect _ _ _ _).
  assert (Ht3 : w_target w3 = before s) by (unfold w3; simpl; congruence).
  apply wp_try. destruct resub.
  { cbn [wp]. by apply conclude_host_spec. }
  destruct (match sig with Ok _ => _ | Err _ => _ end) as [request|d] eqn:Hreq.
  - destruct sig as [sig|]; [|done]. cbn [wp perform]. split; [unfold w3; simpl; by rewrite Hl2|].
    intros [ended|e]; [|apply Herr].
    pose proof (host_outcome_spec host ended request w3 Hhost
      (host_request_action _ _ _ _ _ _ Hreq) Ht3) as Hend.
    destruct (host_outcome s host ended) as [[status d] t]. destruct Hend.
    by apply conclude_host_spec.
  - cbn [wp]. by apply conclude_host_spec.
Qed.
Lemma admit_restore_spec recalled w :
  wps (admit_restore manifest_at s recalled) (λ r w',
    w_target w' = w_target w ∧ w_note w' = w_note w ∧
    match r with
    | Ok restore => restore = content <$> step_restore s ∧ w_lost w' = w_lost w
        ∧ w_admitted w ⊆ w_admitted w'
        ∧ ∀ pin, step_restore s = Some pin → pin ∈ w_admitted w'
    | Err _ => True
    end) w.
Proof.
  unfold admit_restore. destruct (step_restore s) as [pin|]; [|by split_and!].
  apply wp_try. eapply wp_mono; [apply admit_spec|]. intros [c|e] w' (Ht & Hn & Hc); [|done].
  destruct Hc as (-> & Hl & Ha). simpl. split_and!; [done..|rewrite Ha; set_solver|].
  intros pin' [= <-]. rewrite Ha. left.
Qed.

(** The executors agree: each release has its own, and neither side of a
    replacement is a host release when the other is not. *)
Lemma check_executors_spec c w :
  default_kind executors ≠ Some Host → c = content (step_pin s) →
  restores_automatically c = true →
  wps (check_executors executors s c (content <$> step_restore s)) (λ r w',
    checked w r w' ∧
    (is_ok r = true →
      is_ok (resolve executors (deploy_executor (manifest_at (step_pin s)))) = true
      ∧ ∀ pin, step_restore s = Some pin → deploy_executor (manifest_at pin) ≠ Some Host)) w.
Proof.
  intros Hd -> Hc%negb_true_iff%bool_decide_eq_false. simpl in Hc. unfold check_executors.
  assert (Hself : ∀ B (r : result B failure), checked w r w) by (intros; by split_and!).
  apply wp_try. cbn [wp]. simpl. unfold require_available at 1. rewrite decide_False by done.
  destruct (resolve executors (deploy_executor (manifest_at (step_pin s)))) as [ad|]; simpl;
    [|by split].
  apply wp_try. cbn [wp].
  destruct (step_restore s) as [pin|] eqn:Hp; simpl.
  - destruct (swf_restore s Hwf pin Hp) as (v & Hv & _). rewrite Hv.
    destruct (map_err _ _) as [|]; simpl; [|by split].
    destruct (decide (step_action s = Restart)) as [Hr|Hr].
    { destruct (swf_restart s Hwf Hr) as [_ ?]. congruence. }
    rewrite bool_decide_true by done. simpl.
    unfold require_same_executor.
    destruct (bool_decide _) eqn:Hsame; simpl; [|by split].
    apply bool_decide_eq_true in Hsame. split; [done|]. intros _. split; [done|].
    intros pin' [= <-] Hh. rewrite Hh in Hsame. simpl in Hsame.
    unfold effective_kind in Hsame. destruct (deploy_executor (manifest_at (step_pin s)));
      congruence.
  - destruct (_ && _); simpl; [|by split].
    split; [done|]. intros [b|e]; simpl; destruct w; split; try done; split_and!; simpl; try done.
    intros _. by rewrite orb_false_r.
Qed.
(** Checks in sequence are a check. *)
Lemma checked_try {A B} (p : prog effect (result A failure)) (k : A → prog effect (result B failure)) w :
  wps p (checked w) w → (∀ a w', wps (k a) (checked w') w') → wps (try_bind p k) (checked w) w.
Proof.
  intros Hp Hk. apply wp_try. eapply wp_mono; [exact Hp|].
  intros [a|e] w1 (Ht & Hn & Ha & Hl); [|by split_and!].
  eapply wp_mono; [apply Hk|]. intros r w2 (Ht2 & Hn2 & Ha2 & Hl2).
  split_and!; [congruence..|set_solver|]. intros Hr. rewrite Hl2, Hl; done.
Qed.

Lemma checked_ret {A} (a : A) w : wps (Ret (Ok a)) (checked w) w.
Proof. by split_and!. Qed.

Lemma ask_spec q w : wps (perform (Ask q)) (checked w) w.
Proof.
  destruct w as [t l a n]. split; [done|]. intros [b|e]; split_and!; simpl; try done.
  intros _. by rewrite orb_false_r.
Qed.

Lemma check_executors_checked c restore w :
  wps (check_executors executors s c restore) (checked w) w.
Proof.
  assert (Hret : ∀ B (r : result B failure) w, wps (Ret r) (checked w) w) by (intros; by split_and!).
  unfold check_executors. do 2 (apply checked_try; [apply Hret|intros _ ?]).
  destruct (_ && _); [destruct restore|]; try apply Hret.
  apply checked_try; [apply ask_spec|intros; apply Hret].
Qed.

Lemma check_admission_spec skip_gates c restore w :
  wps (check_admission s skip_gates c restore) (checked w) w.
Proof.
  unfold check_admission. destruct restore as [r|]; repeat case_decide; destruct skip_gates;
    repeat first [apply checked_try; [|intros [] ?] | apply require_spec | apply ask_spec | apply checked_ret].
Qed.

Lemma execute_spec p raw approvals recalled skip_gates w :
  default_kind executors ≠ Some Host →
  w_target w = before s → w_note w = NotNoted → w_lost w = false →
  wps (execute executors environment manifest_at s p raw approvals recalled skip_gates)
    (concluded s) w.
Proof.
  intros Hd Ht Hn Hl. unfold execute. apply wp_try. eapply wp_mono; [apply admit_spec|].
  intros [c|e] w1 (Ht1 & Hn1 & Hw1); [|right; left; congruence]. destruct Hw1 as (-> & Hl1 & Ha1).
  apply wp_try. eapply wp_mono; [apply admit_restore_spec|].
  intros [restore|e] w2 (Ht2 & Hn2 & Hw2); [|right; left; congruence].
  destruct Hw2 as (-> & Hl2 & Ha2 & Hr2).
  assert (Hin2 : step_pin s ∈ w_admitted w2) by (apply Ha2; rewrite Ha1; left).
  destruct (restores_automatically (content (step_pin s))) eqn:Hauto;
    destruct (step_host s) as [host|] eqn:Hhost; simpl negb; cbn [Bool.eqb is_some_b];
    try by (right; left; simpl; congruence).
  - apply wp_try. eapply wp_mono; [by apply check_executors_spec|].
    intros [[]|e] w3 [(Ht3 & Hn3 & Ha3 & Hl3) Hx]; [|right; left; congruence].
    destruct (Hx eq_refl) as [Hres Hh].
    apply wp_try. eapply wp_mono; [apply check_admission_spec|].
    intros [[]|e] w4 (Ht4 & Hn4 & Ha4 & Hl4); [|right; left; congruence].
    specialize (Hl3 eq_refl). specialize (Hl4 eq_refl).
    apply negb_true_iff, bool_decide_eq_false in Hauto.
    apply execute_target_spec; try congruence; [|by intros pin Hp; apply Ha4, Ha3, Hr2].
    split; [split_and!; [congruence|by apply Ha4, Ha3|done]|done].
  - apply wp_try. eapply wp_mono; [apply check_executors_checked|].
    intros [[]|e] w3 (Ht3 & Hn3 & Ha3 & Hl3); [|right; left; congruence].
    apply wp_try. eapply wp_mono; [apply check_admission_spec|].
    intros [[]|e] w4 (Ht4 & Hn4 & Ha4 & Hl4); [|right; left; congruence].
    specialize (Hl3 eq_refl). specialize (Hl4 eq_refl).
    by apply execute_host_spec; congruence.
Qed.
End StepSpecs.

(** ** The claims *)

(** A world in which a step starts: the target runs what the environment's
    record says, and the fence is held. *)
Definition start (s : Step) : world :=
  {| w_target := before s; w_lost := false; w_admitted := []; w_note := NotNoted |}.

(** C2: A plan step tells the truth, whatever the store, the fence, the health
    gate and the target adapters answer. When executing a step returns an
    outcome, a deployment transition was recorded after the last change to the
    target and is what the target really runs; a step that succeeded left its
    own release (or none, after a host uninstall), and one reported as rolled
    back left the release that ran before. When it returns an error, the fence
    was lost, or the target is as it was, or the attempt to record the result
    came last, or the step is a host step, whose applier keeps the record. *)
Theorem step_record_truthful {D : Diagnostics} executors environment manifest_at s
    p raw approvals recalled skip_gates r w :
  step_wf s → default_kind executors ≠ Some Host →
  runs (on_target (step_release_id s))
    (execute executors environment manifest_at s p raw approvals recalled skip_gates)
    (start s) r w →
  match r with
  | Ok o => ∃ status detail t, o = Outcome_new s status detail ∧ w_note w = Noted t
      ∧ agrees s t (w_target w) ∧ claims s status (w_target w)
  | Err _ => w_lost w = true ∨ w_target w = before s ∨ w_note w ≠ NotNoted ∨ step_host s ≠ None
  end.
Proof.
  intros Hwf Hd Hr. refine (wp_runs _ _ (concluded s) _ _ _ _ Hr). by apply execute_spec.
Qed.

(** C21: Whatever the surroundings answer, executing a step touches a target
    only while its fence is held, only with content admitted in this execution
    (trust, digests and snapshot verified), and never runs a host release
    outside the host applier. *)
Theorem step_mutations_fenced {D : Diagnostics} executors environment manifest_at s
    p raw approvals recalled skip_gates m c w :
  step_wf s → default_kind executors ≠ Some Host →
  reaches (on_target (step_release_id s)) (Mutate m c)
    (execute executors environment manifest_at s p raw approvals recalled skip_gates)
    (start s) w →
  w_lost w = false ∧ content_pin c ∈ w_admitted w
  ∧ deploy_executor (content_manifest c) ≠ Some Host.
Proof.
  intros Hwf Hd Hr. apply (wp_reaches _ _ _ (concluded s)) in Hr; [exact Hr|].
  by apply execute_spec.
Qed.

(** ** Examples *)
Module StepExamples.

#[local] Instance plain : Diagnostics := {| sanitize_diagnostic_text := id |}.

Definition pin (v : string) : ReleasePin := {|
  pin_release_id := release_id "api" v; pin_digest := v; pin_artifact_digest := "a";
  pin_workdir := "" |}.

Definition manifest (kind : ProductKind) (p : ReleasePin) : Manifest := {|
  compatibility := None; product_name := "api"; product_version := pin_digest p;
  product_kind := kind; deploy_install := "install"; deploy_uninstall := Some "uninstall";
  deploy_executor := None; deploy_health := Some "health"; deploy_instances := One;
  requirements := None; artifacts := [] |}.

Definition step (action : Action) (from : option string) : Step := {|
  step_id := "p:step:0"; step_order := 0; step_product := "api"; step_instance := "";
  step_action := action; step_from := from; step_to := "2.0.0";
  step_release_id := release_id "api" "2.0.0"; step_release_digest := "2.0.0";
  step_artifact_digest := "a"; step_workdir := "";
  step_restore := if decide (action = Restart) then None else pin <$> from; step_host := None |}.

Definition plan : Plan := {|
  format_version := 1; plan_id_of := "p"; content_id := ""; plan_environment := "prod";
  created_at := 7; inputs := []; steps := [step Upgrade (Some "1.0.0")]; plan_state := Computed;
  gates_skipped := None; status_detail := ""; maintenance_blocked := false;
  prior_warnings := []; recalled_recovery_reason := None; credential_runway := None |}.

(** A process whose default is the adapter [tt], and one that runs commands. *)
Definition with_adapter (adapter : option Adapter) : Executors := {|
  default_kind := None; default_adapter := adapter; declared := [];
  host_executor := Err "not configured"; process_default_error := None |}.

(** Everything works, but the health command of [unhealthy] fails. *)
Definition answer (unhealthy : string) : answers effect := λ X e,
  match e in effect X return X with
  | AdmitRelease _ _ | Require _ _ | RefreshLease => Ok tt
  | Ask _ => Ok false
  | Prepare _ _ => Ok (Ok tt)
  | VerifyIntegrity _ => Ok tt
  | Mutate HealthCommand c =>
    Ok (if decide (content_release c = unhealthy) then Err "unhealthy" else Ok tt)
  | Mutate _ _ => Ok (Ok tt)
  | DecideGate => Ok None
  | SignatureFor _ => Err (OtherFailure "unsigned")
  | RunHost _ => Err (OtherFailure "no applier")
  | Record_ _ _ _ | RecordDeployed _ _ | RecordUnknown _ => Ok tt
  end.

Definition ran (unhealthy : string) (s : Step) (kind : ProductKind) (adapter : option Adapter) :=
  run (on_target (step_release_id s)) (answer unhealthy)
    (execute (with_adapter adapter) "prod" (manifest kind) s plan "" [] false false) (start s).

Lemma step_is_wf action from :
  (action = Restart → from = Some "2.0.0") → step_wf (step action from).
Proof.
  intros Hr. split; simpl; [done|intros ->; rewrite decide_True by done; auto|].
  intros p. case_decide; [done|]. destruct from; simpl; [|done]. intros [= <-]. eauto.
Qed.

Definition upgrade : Step := step Upgrade (Some "1.0.0").

(** An unhealthy release is removed, and the previous one put back. *)
Example unhealthy_rolls_back :
  let '(r, w) := ran (release_id "api" "2.0.0") upgrade Software None in
  match r with Ok o => outcome_status o = "rolled_back" | Err _ => False end
  ∧ w_target w = Runs (release_id "api" "1.0.0") ∧ w_note w = Noted Unchanged.
Proof. by vm_compute. Qed.

Lemma step_record_truthful_witness :
  match (ran (release_id "api" "2.0.0") upgrade Software None).1 with
  | Ok o => ∃ status detail t, o = Outcome_new upgrade status detail
      ∧ w_note (ran (release_id "api" "2.0.0") upgrade Software None).2 = Noted t
      ∧ agrees upgrade t (w_target (ran (release_id "api" "2.0.0") upgrade Software None).2)
      ∧ claims upgrade status (w_target (ran (release_id "api" "2.0.0") upgrade Software None).2)
  | Err _ => False
  end.
Proof.
  pose proof (step_record_truthful (with_adapter None) "prod" (manifest Software) upgrade plan "" []
    false false _ _ (step_is_wf Upgrade (Some "1.0.0") ltac:(done)) ltac:(done)
    (run_runs (on_target (release_id "api" "2.0.0")) (answer (release_id "api" "2.0.0")) _ _)) as H.
  unfold ran. change (step_release_id upgrade) with (release_id "api" "2.0.0").
  destruct (run _ _ _ _).1 as [o|e] eqn:Hr; [exact H|].
  exfalso. vm_compute in Hr. discriminate.
Defined.

#[local] Transparent activate activate_target.

(** The first target operation of an upgrade, reached after the admissions. *)
Definition admitted : world := {|
  w_target := before upgrade; w_lost := false; w_admitted := [pin "1.0.0"; step_pin upgrade];
  w_note := NotNoted |}.

Lemma step_mutations_fenced_witness :
  reaches (on_target (step_release_id upgrade))
    (Mutate InstallCommand (content_of (manifest Software) upgrade (step_pin upgrade)))
    (execute (with_adapter None) "prod" (manifest Software) upgrade plan "" [] false false)
    (start upgrade) admitted
  ∧ (w_lost admitted = false ∧ step_pin upgrade ∈ w_admitted admitted
     ∧ deploy_executor (manifest Software (step_pin upgrade)) ≠ Some Host).
Proof.
  assert (H : reaches (on_target (step_release_id upgrade))
    (Mutate InstallCommand (content_of (manifest Software) upgrade (step_pin upgrade)))
    (execute (with_adapter None) "prod" (manifest Software) upgrade plan "" [] false false)
    (start upgrade) admitted).
  { do 7 (refine (reaches_later _ _ _ _ (Ok tt) _ _ _)).
    refine (reaches_later _ _ _ _ (Ok false) _ _ _).
    do 2 (refine (reaches_later _ _ _ _ (Ok tt) _ _ _)).
    refine (reaches_later _ _ _ _ (Ok (Ok tt)) _ _ _). apply reaches_here. }
  split; [exact H|].
  exact (step_mutations_fenced (with_adapter None) "prod" (manifest Software) upgrade plan "" []
    false false _ _ _ (step_is_wf Upgrade (Some "1.0.0") ltac:(done)) ltac:(done) H).
Defined.

(** A restart of a routing product in a process whose default is an adapter
    is sent to that software adapter, not to the routing target. *)
Example routing_restart_uses_software_adapter :
  fst <$> mutations (answer "")
    (execute (with_adapter (Some {| observe _ := None |})) "prod" (manifest RoutingConfig)
       (step Restart (Some "2.0.0")) plan "" [] false false) = [SoftwareRestart; HealthCommand].
Proof. by vm_compute. Qed.
End StepExamples.
