(* ===== verification/PlanExecution.v ===== *)
(** * Executing a plan

    [apply/execution_attempt.rs], [apply.rs], [apply/start_admission.rs],
    [apply/plan_completion.rs] and [canary/attempt_lifecycle.rs]
    ([execute_attempt]): authorization, the environment lease, the admissions
    before a plan starts, its steps in order, and the state the plan is left
    in.  Telemetry and the feedback observations written beside a transition
    are left out. *)

From S2P Require Import Prelude RustStr Semver Kinds Facts Compatibility Contracts Plan Approvals ReleaseSigning HostState Catalog HostVerify HostSteps Holds DependencyDocument Maintenance Deployments Effects ProductExecution.

(** ** Evaluation gates *)

Record CaseResult := { case_id : string; passed : bool }.

Record GateEvidence := {
  gate_suite_id : string; gate_release_digest : string; gate_artifact_digest : string;
  gate_suite_digest : string; config_ref : string; run_id : string; run_timestamp : Z;
  expected_case_ids : list string; case_results : list CaseResult
}.

Record GateResponse := { response_status : string; response_evidence : option GateEvidence }.

Inductive GateDecision := GateAllowed | GateDenied (detail : string) | GateUnavailable (detail : string).

Fixpoint join (sep : string) (l : list string) : string :=
  match l with
  | [] => ""
  | [s] => s
  | s :: rest => s +:+ sep +:+ join sep rest
  end.

Definition evaluate_gate (results : list CaseResult) (suite : string) (expected : list string) :
    GateDecision :=
  match results with
  | [] => GateDenied ("gate blocked: latest run of eval suite " +:+ suite +:+ " has no case results")
  | _ =>
    let expected_set : gset string := list_to_set expected in
    let actual : gset string := list_to_set (case_id <$> results) in
    if bool_decide (expected_set = ∅) || negb (size actual =? length results)%nat
       || negb (bool_decide (actual = expected_set))
    then GateDenied ("gate blocked: latest run of eval suite " +:+ suite
                     +:+ " does not contain exactly one result for every current case")
    else
      match case_id <$> filter (λ r, passed r = false) results with
      | [] => GateAllowed
      | failed => GateDenied ("gate blocked: eval suite " +:+ suite +:+ " latest run failing cases: "
                              +:+ join ", " failed)
      end
  end.

(** [gate_config_ref] hashes the digests of the release, its artifact and the
    suite. *)
Class GateBinding := { gate_config_ref : string → string → string → string }.

(** [check_eval_gate] of a response read for a time up to [max_timestamp_ms]. *)
Definition check_eval_gate `{GateBinding} (suite release artifact : string) (max_timestamp_ms : Z)
    (response : result GateResponse failure) : GateDecision :=
  match response with
  | Err error => GateUnavailable ("gate unavailable: could not read evaluation gate evidence for suite "
                                  +:+ suite +:+ ": " +:+ failure_text error)
  | Ok r =>
    if decide (response_status r = "suite_not_found") then
      GateDenied ("gate blocked: eval suite " +:+ suite +:+ " does not exist")
    else if decide (response_status r = "no_matching_run") then
      GateDenied ("gate blocked: eval suite " +:+ suite
                  +:+ " has no current run bound to this release and artifact")
    else if decide (response_status r = "found") then
      match response_evidence r with
      | None => GateUnavailable ("gate unavailable: evaluation gate evidence for suite " +:+ suite
                                 +:+ " omitted its projection")
      | Some e =>
        if negb (bool_decide (gate_suite_id e = suite))
           || negb (bool_decide (gate_release_digest e = release))
           || negb (bool_decide (gate_artifact_digest e = artifact))
           || str_is_empty (gate_suite_digest e)
           || negb (bool_decide (config_ref e = gate_config_ref release artifact (gate_suite_digest e)))
           || str_is_empty (run_id e)
           || (run_timestamp e <=? 0) || (max_timestamp_ms <? run_timestamp e)
        then GateUnavailable ("gate unavailable: evaluation gate evidence for suite " +:+ suite
                              +:+ " had an invalid binding")
        else evaluate_gate (case_results e) suite (expected_case_ids e)
      end
    else GateUnavailable ("gate unavailable: evaluation gate evidence for suite " +:+ suite
                          +:+ " returned unknown status")
  end.

Lemma evaluate_gate_allowed results suite expected :
  evaluate_gate results suite expected = GateAllowed →
  expected ≠ [] ∧ NoDup (case_id <$> results)
  ∧ (∀ c, c ∈ expected ↔ c ∈ case_id <$> results) ∧ ∀ r, r ∈ results → passed r = true.
Proof.
  unfold evaluate_gate. destruct results as [|r0 rest] eqn:Hres; [done|]. rewrite <- Hres. clear Hres.
  destruct (_ || _) eqn:Hb; [done|].
  apply orb_false_iff in Hb as [Hb Hset%negb_false_iff%bool_decide_eq_true].
  apply orb_false_iff in Hb as [Hne%bool_decide_eq_false Hsize%negb_false_iff%Nat.eqb_eq].
  destruct (case_id <$> filter _ results) eqn:Hfail; [|done]. intros _. split_and!.
  - intros ->. by apply Hne.
  - apply size_list_to_set_NoDup. by rewrite Hsize, length_fmap.
  - intros c. rewrite <- !(elem_of_list_to_set (C:=gset string)). by rewrite Hset.
  - intros r Hr. apply fmap_nil_inv in Hfail. destruct (passed r) eqn:Hp; [done|].
    assert (r ∈ filter (λ r, passed r = false) results) as Hin by by apply list_elem_of_filter.
    rewrite Hfail in Hin. by apply elem_of_nil in Hin.
Qed.

(** An evaluation gate opens only on complete, passing evidence about the
    very release: the evidence is bound to the suite, the release and artifact
    digests and a run that is not from the future, has exactly one result for
    each of the suite's current cases, of which there is at least one, and
    every result passed. *)
Theorem gate_allows_only_complete_evidence `{GateBinding} suite release artifact max response :
  check_eval_gate suite release artifact max response = GateAllowed →
  ∃ e, response = Ok {| response_status := "found"; response_evidence := Some e |}
    ∧ gate_suite_id e = suite ∧ gate_release_digest e = release ∧ gate_artifact_digest e = artifact
    ∧ config_ref e = gate_config_ref release artifact (gate_suite_digest e)
    ∧ 0 < run_timestamp e ≤ max
    ∧ expected_case_ids e ≠ []
    ∧ NoDup (case_id <$> case_results e)
    ∧ (∀ c, c ∈ expected_case_ids e ↔ c ∈ case_id <$> case_results e)
    ∧ ∀ r, r ∈ case_results e → passed r = true.
Proof.
  unfold check_eval_gate. destruct response as [[status ev]|]; simpl; [|done].
  do 2 (case_decide; [done|]). case_decide as Hs; [|done]. subst status.
  destruct ev as [e|]; [|done]. destruct (_ || _) eqn:Hb; [done|]. intros Hg.
  rewrite !orb_false_iff, !negb_false_iff, !bool_decide_eq_true in Hb.
  destruct Hb as (((((((? & ?) & ?) & ?) & ?) & ?) & ?%Z.leb_gt) & ?%Z.ltb_ge).
  apply evaluate_gate_allowed in Hg as (? & ? & ? & ?). exists e. split_and!; try done; lia.
Qed.

(** ** Effects of a plan's execution *)

Record BridgeReport := {
  bridge_state : PlanState; recovery_required : bool; rollback_triggered : bool;
  bridge_detail : string
}.

Inductive plan_effect : Type → Type :=
(** [plan::load]. *)
| LoadPlan (id : string) : plan_effect (result Plan failure)
(** [plan_approval::verify_for_execution_named]. *)
| VerifyApproval (p : Plan) (gates_skipped : bool) : plan_effect (result VerificationEvidence failure)
| RecordApproval (e : VerificationEvidence) : plan_effect (result unit failure)
(** [claim_execution_environment] and [release_environment]. *)
| ClaimLease (p : Plan) : plan_effect (result unit failure)
| ReleaseLease : plan_effect (result unit failure)
(** [host_step::fence_environment]. *)
| FenceHost : plan_effect (result unit failure)
| Clock : plan_effect Z
(** [Maintenance.plan_eligibility] now. *)
| Eligible (p : Plan) : plan_effect (result Eligibility failure)
| AuthorizeOverride (plan reason : string) : plan_effect (result unit failure)
(** [canary]: [begin_attempt], [mark_attempt_started], [finish_attempt]. *)
| CanaryBegin (p : Plan) (gates_skipped : bool) : plan_effect (result (option string) failure)
| CanaryStarted (id : string) : plan_effect (result unit failure)
| CanaryFinish (id : string) (outcomes : option (list Outcome)) : plan_effect (result unit failure)
(** [execution_admission::admit] ([ExecutionAdmission.inspect]). *)
| Fresh (p : Plan) : plan_effect (result unit failure)
(** [delivery_hold::require_not_held]. *)
| NotHeld (p : Plan) : plan_effect (result unit failure)
(** [software_compatibility::require_release]. *)
| CompatibleRelease (env release : string) : plan_effect (result unit failure)
(** [exposure::plan_gate]. *)
| ExposureGate (p : Plan) : plan_effect (result (option string) failure)
(** [admit_release] of the step's pin: its manifest's evaluation suite. *)
| AdmitStep (s : Step) : plan_effect (result (option string) failure)
| EvalEvidence (suite release artifact : string) (max_timestamp_ms : Z) :
    plan_effect (result GateResponse failure)
| ReadEnvironment (env : string) : plan_effect (result unit failure)
(** A stored release's manifest and [oci_artifact::verify_environment_pull]. *)
| AdmitPulls (release : string) : plan_effect (result unit failure)
(** [health_gate::step_requires_slo_evaluation]. *)
| StepSlo (s : Step) : plan_effect (result bool failure)
(** [load_release_gate_section] and [resolve_spec]: whether no gate is set. *)
| NoGateSpec (s : Step) : plan_effect (result bool failure)
(** [delivery_bridge::execute_bridged_plan]. *)
| Bridge (p : Plan) : plan_effect (result BridgeReport failure)
(** [plan_approval::execution_envelopes]. *)
| HostApprovals_ (p : Plan) : plan_effect (result (list ApprovalEnvelope) failure)
(** [refresh_environment_lease]. *)
| KeepLease : plan_effect (result unit failure)
(** [step_lifecycle::execute] ([StepLifecycle.execute]): the status and detail
    of the outcome of the step. *)
| ExecuteStep (p : Plan) (s : Step) (approvals : list ApprovalEnvelope) (recalled skip : bool) :
    plan_effect (result (StepOutcomeStatus * string) failure)
(** [plan::transition] under the environment's fencing token: the plan as it
    is to be stored, and whether an ambiguous write is confirmed by a read. *)
| StorePlan (p : Plan) (confirm : bool) : plan_effect (result unit failure).

Notation plan_prog := (prog plan_effect).

Definition same_class (f : string → string) (e : failure) : failure :=
  match e with
  | FenceLost t => FenceLost (f t)
  | AdmissionRefused t => AdmissionRefused (f t)
  | OtherFailure t => OtherFailure (f t)
  end.

(** [plan_completion::transition] and [transition_confirmed]: the plan in
    memory changes with the stored one. *)
Definition store_transition (p : Plan) (t : Transition) (confirm : bool) :
    plan_prog (result Plan failure) :=
  let p' := Transition_apply t p in
  do? _ := perform (StorePlan p' confirm) in
  Ret (Ok p').

(** [plan_completion::fail], after which every caller returns [error]. *)
Definition fail {A} (p : Plan) (skip : bool) (detail : string) (error : failure) :
    plan_prog (result A failure) :=
  do? _ := store_transition p (Transition_execution Failed skip detail) false in
  Ret (Err error).

(** ** Maintenance *)

Inductive MaintenanceDecision :=
| MaintenanceAllowed (closes_at : Z)
| MaintenanceDenied (detail : string)
| EmergencyOverride (reason : string).

Definition denial (e : Eligibility) : string :=
  match e with
  | Closed None => "maintenance window is closed"
  | Closed (Some next) => "maintenance window is closed; next opens at " +:+ pretty next
  | _ => "maintenance window evaluation failed closed"
  end.

Definition maintenance_decision (p : Plan) (emergency : option string) :
    plan_prog (result MaintenanceDecision failure) :=
  do? eligibility := perform (Eligible p) in
  Ret (Ok (match emergency with
           | Some reason => EmergencyOverride reason
           | None =>
             match eligibility with
             | Open _ closes_at => MaintenanceAllowed closes_at
             | e => MaintenanceDenied (denial e)
             end
           end)).

Definition block_for_maintenance {A} (p : Plan) (skip : bool) (detail : string) :
    plan_prog (result A failure) :=
  do? _ := store_transition p (Transition_maintenance_blocked skip detail) false in
  Ret (Err (OtherFailure detail)).

(** [validate_emergency_override]. *)
Definition validate_emergency_override (reason : option string) : result (option string) failure :=
  let reason := trim <$> reason in
  bail_if is_some_and reason str_is_empty
    with (OtherFailure "emergency maintenance override requires a non-empty reason") in
  Ok reason.

Definition authorize_maintenance (p : Plan) (skip : bool) (emergency : option string) :
    plan_prog (result unit failure) :=
  do authorization :=
    (do? decision := maintenance_decision p emergency in
     do? _ := match decision with
              | EmergencyOverride reason => perform (AuthorizeOverride (plan_id_of p) reason)
              | _ => Ret (Ok tt)
              end in
     match decision with
     | MaintenanceDenied detail => block_for_maintenance p skip detail
     | _ => Ret (Ok tt)
     end) in
  match authorization, emergency with
  | Err error, Some _ =>
    block_for_maintenance p skip
      ("emergency maintenance override was not authorized: " +:+ failure_text error)
  | r, _ => Ret r
  end.

(** The re-check of an admitted start: an expired or denied window blocks. *)
Definition require_open (p : Plan) (skip : bool) (emergency : option string) (expired : string) :
    plan_prog (result unit failure) :=
  do? decision := maintenance_decision p emergency in
  match decision with
  | MaintenanceDenied detail => block_for_maintenance p skip detail
  | MaintenanceAllowed closes_at =>
    do now := perform Clock in
    if closes_at <=? now then block_for_maintenance p skip expired else Ret (Ok tt)
  | EmergencyOverride _ => Ret (Ok tt)
  end.

(** ** Admission of a start *)

Section Start.
Context {GB : GateBinding}.

(** Checks in order; the first failure ends them. *)
Fixpoint all_of {A} (check : A → plan_prog (result unit failure)) (l : list A) :
    plan_prog (result unit failure) :=
  match l with
  | [] => Ret (Ok tt)
  | a :: l => do? _ := check a in all_of check l
  end.

(** A plan that may not start: the outcomes to return. *)
Definition blocked (p : Plan) (skip : bool) (outcomes : list Outcome) (detail : string) :
    plan_prog (result (option (list Outcome)) failure) :=
  do? _ := store_transition p (Transition_execution Blocked skip detail) true in
  Ret (Ok (Some outcomes)).

(** The evaluation gates of the steps that deploy something. *)
Fixpoint eval_gates (p : Plan) (skip : bool) (l : list Step) :
    plan_prog (result (option (list Outcome)) failure) :=
  match l with
  | [] => Ret (Ok None)
  | s :: l =>
    if decide (step_action s = Rollback ∨ step_action s = Remove) then eval_gates p skip l
    else
      do? suite := perform (AdmitStep s) in
      match suite with
      | None | Some "" => eval_gates p skip l
      | Some suite =>
        do now := perform Clock in
        let max := i64_saturating_add now 60000 in
        do response := perform (EvalEvidence suite (step_release_digest s) (step_artifact_digest s)
                                  max) in
        match check_eval_gate suite (step_release_digest s) (step_artifact_digest s) max response with
        | GateAllowed => eval_gates p skip l
        | GateDenied detail | GateUnavailable detail =>
          blocked p skip [Outcome_new s OutcomeBlocked detail] detail
        end
      end
  end.

Definition gates (p : Plan) (skip : bool) : plan_prog (result (option (list Outcome)) failure) :=
  if skip then Ret (Ok None)
  else
    do? exposure := perform (ExposureGate p) in
    match exposure with
    | Some detail =>
      let step := find_first (λ s, bool_decide (step_action s ≠ Rollback)) (steps p) in
      blocked p skip (option_list ((λ s, Outcome_new s OutcomeBlocked detail) <$> step)) detail
    | None => eval_gates p skip (steps p)
    end.

(** [start_admission::admit]: outcomes when the plan was blocked, or the
    running plan. *)
Definition admit_start (p : Plan) (skip : bool) (emergency : option string) :
    plan_prog (result (list Outcome + Plan) failure) :=
  do? _ := all_of (λ s, perform (CompatibleRelease (plan_environment p) (step_release_id s)))
             (filter (λ s, step_action s ≠ Remove) (steps p)) in
  do? gated := gates p skip in
  match gated with
  | Some outcomes => Ret (Ok (inl outcomes))
  | None =>
    do? _ := require_open p skip emergency
               "maintenance window closed while start authorization was being recorded" in
    do? running := store_transition p (Transition_execution Running skip "") true in
    do? _ := require_open running skip emergency
               "maintenance window closed before execution entered the running state" in
    Ret (Ok (inr running))
  end.

(** ** Running the steps *)

(** [admit_plan_artifact_pulls]: every release the steps name, once. *)
Definition admit_plan_artifact_pulls (p : Plan) : plan_prog (result unit failure) :=
  do? _ := perform (ReadEnvironment (plan_environment p)) in
  all_of (λ release, perform (AdmitPulls release))
    (foldl (λ seen release, if decide (release ∈ seen) then seen else seen ++ [release]) []
       (steps p ≫= λ s, step_release_id s :: option_list (pin_release_id <$> step_restore s))).

(** [refuse_host_slo_gate]. *)
Definition refuse_host_slo_gate (s : Step) : plan_prog (result unit failure) :=
  do? requires := perform (StepSlo s) in
  if requires : bool then
    do? none := perform (NoGateSpec s) in
    if none : bool then Ret (Ok tt)
    else Ret (Err (OtherFailure ("host step " +:+ step_id s +:+ " has SLO health gates")))
  else Ret (Ok tt).

(** The gates a delegated delivery cannot evaluate. *)
Definition refuse_delegated_slo_gate (s : Step) : plan_prog (result unit failure) :=
  do? requires := perform (StepSlo s) in
  if requires : bool then
    do? none := perform (NoGateSpec s) in
    if none : bool then Ret (Ok tt)
    else Ret (Err (OtherFailure "SLO health gates require built-in execution"))
  else Ret (Ok tt).

(** A check whose failure fails the plan. *)
Definition or_fail {A B} (check : plan_prog (result A failure)) (p : Plan) (skip : bool)
    (k : A → plan_prog (result B failure)) : plan_prog (result B failure) :=
  do r := check in
  match r with
  | Ok a => k a
  | Err error => fail p skip (failure_text error) error
  end.

(** [ExecutionCompletion]. *)
Record ExecutionCompletion := {
  outcomes : list Outcome; terminal_state : PlanState; completion_detail : string
}.

Definition ExecutionCompletion_new : ExecutionCompletion :=
  {| outcomes := []; terminal_state := Succeeded; completion_detail := "" |}.

(** [record]: the new completion and whether the plan stops. *)
Definition completion_record (c : ExecutionCompletion) (o : Outcome) :
    result (ExecutionCompletion * bool) failure :=
  let? state := ok_or (Outcome_plan_state o) (OtherFailure "unknown step outcome") in
  let stop := negb (bool_decide (state = Succeeded)) in
  Ok ({| outcomes := outcomes c ++ [o]; terminal_state := state;
         completion_detail := if stop then outcome_detail o else completion_detail c |}, stop).

(** [finish]. *)
Definition completion_finish (c : ExecutionCompletion) (p : Plan) (skip : bool) :
    plan_prog (result (list Outcome) failure) :=
  do? _ := store_transition p (Transition_execution (terminal_state c) skip (completion_detail c))
             true in
  Ret (Ok (outcomes c)).

Definition recalled_recovery (p : Plan) : bool :=
  is_some_and (recalled_recovery_reason p) (λ reason, negb (str_is_empty (trim reason))).

(** The body of the step loop. *)
Definition run_step (p : Plan) (skip : bool) (approvals : list ApprovalEnvelope)
    (c : ExecutionCompletion) (s : Step) :
    plan_prog (result (ExecutionCompletion * bool) failure) :=
  do kept := perform KeepLease in
  match kept with
  | Err error =>
    if is_execution_fence_lost error then Ret (Err error)
    else
      let detail := "refreshing environment apply lease failed: " +:+ failure_text error in
      fail p skip detail (same_class (λ _, detail) error)
  | Ok _ =>
    do r := perform (ExecuteStep p s approvals (recalled_recovery p) skip) in
    match r with
    | Err error =>
      if is_execution_fence_lost error then Ret (Err error)
      else fail p skip (failure_text error) error
    | Ok (status, detail) => Ret (completion_record c (Outcome_new s status detail))
    end
  end.

Definition bridge_status (r : BridgeReport) : StepOutcomeStatus :=
  if recovery_required r then OutcomeFailed
  else if rollback_triggered r then OutcomeRolledBack
  else match bridge_state r with
       | Succeeded => OutcomeSucceeded
       | Failed => OutcomeFailed
       | _ => OutcomeBlocked
       end.

Definition has_host_step (p : Plan) : bool := existsb (λ s, is_some_b (step_host s)) (steps p).

(** The steps of an admitted, running plan; [delegated] when an external
    adapter delivers. *)
Definition run_steps (p : Plan) (skip delegated : bool) : plan_prog (result (list Outcome) failure) :=
  or_fail (admit_plan_artifact_pulls p) p skip (λ _,
  or_fail (if skip then Ret (Ok tt)
           else all_of refuse_host_slo_gate (filter (λ s, step_host s ≠ None) (steps p))) p skip (λ _,
  or_fail (if delegated && negb skip then all_of refuse_delegated_slo_gate (steps p)
           else Ret (Ok tt)) p skip (λ _,
  if delegated then
    if has_host_step p then
      let error := OtherFailure "host steps run only through the root-side applier" in
      fail p skip (failure_text error) error
    else
      do? report := perform (Bridge p) in
      Ret (Ok ((λ s, Outcome_new s (bridge_status report) (bridge_detail report)) <$> steps p))
  else
    or_fail (if has_host_step p then perform (HostApprovals_ p) else Ret (Ok [])) p skip (λ approvals,
    do? completion := each (run_step p skip approvals) ExecutionCompletion_new (steps p) in
    completion_finish completion p skip)))).

(** [execute_locked]. *)
Definition execute_locked (p : Plan) (skip : bool) (emergency : option string) (delegated : bool) :
    plan_prog (result (list Outcome) failure) :=
  do? _ := perform (Fresh p) in
  do? _ := perform (NotHeld p) in
  do? admitted := admit_start p skip emergency in
  match admitted with
  | inl outcomes => Ret (Ok outcomes)
  | inr running => run_steps running skip delegated
  end.
End Start.

(** ** One attempt *)

Inductive ExecutionAuthorization := Signed | LocalDevelopment (reason : string).

Record ExecutionOptions := {
  skip_gates_option : bool;
  emergency_reason : option string;
  authorization : ExecutionAuthorization;
  software_executors : Executors;
  delegates : bool
}.

Section Attempt.
Context {GB : GateBinding} {En : PlanEncoding} {Cr : Crypto} (embedded : bool).

(** [canary::execute_attempt] around an execution: its result, and the error
    of finishing the canary attempt. *)
Definition execute_attempt (p : Plan) (skip : bool) (execution : plan_prog (result (list Outcome) failure)) :
    plan_prog (result (list Outcome) failure * option failure) :=
  let before_failed text error := Ret (Err (same_class (λ _, text) error), None) in
  do begun := perform (CanaryBegin p skip) in
  match begun with
  | Err error => before_failed "snapshotting canary policies before execution" error
  | Ok attempt =>
    do started := match attempt with
                  | Some id => perform (CanaryStarted id)
                  | None => Ret (Ok tt)
                  end in
    match started with
    | Err error => before_failed "marking canary attempt as started" error
    | Ok _ =>
      do r := execution in
      do finished := match attempt with
                     | Some id => perform (CanaryFinish id
                         (match r with Ok outcomes => Some outcomes | Err _ => None end))
                     | None => Ret (Ok tt)
                     end in
      Ret (r, match finished with Ok _ => None | Err error => Some error end)
    end
  end.

Definition with_release_failure (error unlock : failure) : failure :=
  same_class (λ t, t +:+ "; releasing environment apply lease also failed: " +:+ failure_text unlock)
    error.

(** Give the lease back and report [r]. *)
Definition released {A} (r : result A failure) : plan_prog (result A failure) :=
  do unlock := perform ReleaseLease in
  Ret (match r, unlock with
       | r, Ok _ => r
       | Err error, Err unlock => Err (with_release_failure error unlock)
       | Ok _, Err error => Err (same_class (λ t, "releasing environment apply lease failed: " +:+ t) error)
       end).

Definition applicable (p : Plan) : bool :=
  bool_decide (plan_state p = Computed) || bool_decide (plan_state p = Blocked).

Definition authorize (o : ExecutionOptions) (p : Plan) :
    plan_prog (result VerificationEvidence failure) :=
  do now := perform Clock in
  match authorization o with
  | Signed => perform (VerifyApproval p (skip_gates_option o))
  | LocalDevelopment reason =>
    if embedded then Ret (map_err (λ _, OtherFailure "local bypass refused") (local_bypass p reason now))
    else Ret (Err (OtherFailure
      "unapproved development execution is available only in embedded mode"))
  end.

(** Under the lease. *)
Definition attempt_claimed (o : ExecutionOptions) (emergency : option string) (p : Plan) :
    plan_prog (result (list Outcome) failure) :=
  let skip := skip_gates_option o in
  do fenced := if is_ok (executors_host (software_executors o)) then perform FenceHost else Ret (Ok tt) in
  match fenced with
  | Err error => released (Err error)
  | Ok _ =>
    do authorized := authorize_maintenance p skip emergency in
    match authorized with
    | Err error => released (Err error)
    | Ok _ =>
      do (result, finalization) :=
        execute_attempt p skip (execute_locked p skip emergency (delegates o)) in
      do result := released result in
      Ret (match result, finalization with
           | r, None => r
           | Ok _, Some error =>
             Err (same_class (λ t, "apply completed but canary evidence finalization failed: " +:+ t) error)
           | Err error, Some finalization =>
             Err (same_class (λ t, t +:+ "; canary evidence finalization also failed") error)
           end)
    end
  end.

(** [execute_with_options_inner]. *)
Definition execute_with_options (plan_id : string) (o : ExecutionOptions) :
    plan_prog (result (list Outcome) failure) :=
  do? emergency := Ret (validate_emergency_override (emergency_reason o)) in
  do? p := perform (LoadPlan plan_id) in
  if negb (applicable p) then
    Ret (Err (OtherFailure "only computed or blocked plans can be applied"))
  else
    do? evidence := authorize o p in
    do? _ := perform (RecordApproval evidence) in
    do? _ := perform (ClaimLease p) in
    attempt_claimed o emergency p.
End Attempt.

(** ** The world of a plan *)

(** What the surroundings granted so far, for which plan. *)
Inductive grant :=
| Loaded (id : string) (p : Plan)
| Verified (p : Plan) (skip : bool) (e : VerificationEvidence)
| Recorded (e : VerificationEvidence)
| Claimed (p : Plan)
| GaveBack
| WasFresh (p : Plan)
| NotOnHold (p : Plan)
| Overridden (plan reason : string).

Record plan_world := {
  pw_granted : list grant;
  (** The plan as it is stored; [None] when a write failed. *)
  pw_stored : option Plan;
  (** Until when the schedules last evaluated are open, for which plan, and
      the last clock reading. *)
  pw_open : option (Plan * Z);
  pw_clock : Z;
  pw_lost : bool;
  (** Giving back the lease or finishing the canary attempt failed. *)
  pw_loose : bool;
  (** The steps executed, with what came of each, errors included. *)
  pw_done : list (Step * result (StepOutcomeStatus * string) failure)
}.

Definition set_granted (w : plan_world) (f : list grant) : plan_world := {|
  pw_granted := f ++ pw_granted w; pw_stored := pw_stored w; pw_open := pw_open w;
  pw_clock := pw_clock w; pw_lost := pw_lost w; pw_loose := pw_loose w; pw_done := pw_done w |}.

Definition set_stored (w : plan_world) (p : option Plan) (lost : bool) : plan_world := {|
  pw_granted := pw_granted w; pw_stored := p; pw_open := pw_open w; pw_clock := pw_clock w;
  pw_lost := pw_lost w || lost; pw_loose := pw_loose w; pw_done := pw_done w |}.

Definition set_window_state (w : plan_world) (open : option (Plan * Z)) (clock : Z) : plan_world := {|
  pw_granted := pw_granted w; pw_stored := pw_stored w; pw_open := open; pw_clock := clock;
  pw_lost := pw_lost w; pw_loose := pw_loose w; pw_done := pw_done w |}.

Definition set_loose (w : plan_world) (loose : bool) : plan_world := {|
  pw_granted := pw_granted w; pw_stored := pw_stored w; pw_open := pw_open w;
  pw_clock := pw_clock w; pw_lost := pw_lost w; pw_loose := pw_loose w || loose;
  pw_done := pw_done w |}.

Definition ran_step (w : plan_world) (s : Step) (r : result (StepOutcomeStatus * string) failure) :
    plan_world := {|
  pw_granted := pw_granted w; pw_stored := pw_stored w; pw_open := pw_open w;
  pw_clock := pw_clock w; pw_lost := pw_lost w || lost_by r; pw_loose := pw_loose w;
  pw_done := pw_done w ++ [(s, r)] |}.

Definition open_until (r : result Eligibility failure) : option Z :=
  match r with Ok (Open _ closes) => Some closes | _ => None end.

Definition granted_when (ok : bool) (f : grant) (w : plan_world) : plan_world :=
  if ok then set_granted w [f] else w.

Definition after_plan_effect {X} (e : plan_effect X) : X → plan_world → plan_world :=
  match e with
  | LoadPlan id => λ r w,
    match r with Ok p => set_stored (set_granted w [Loaded id p]) (Some p) false | Err _ => w end
  | VerifyApproval p skip => λ r w,
    match r with Ok evidence => set_granted w [Verified p skip evidence] | Err _ => w end
  | RecordApproval evidence => λ r, granted_when (is_ok r) (Recorded evidence)
  | ClaimLease p => λ r, granted_when (is_ok r) (Claimed p)
  | ReleaseLease => λ r w, set_loose (set_granted w [GaveBack]) (negb (is_ok r))
  | CanaryFinish _ _ => λ r w, set_loose w (negb (is_ok r))
  | Fresh p => λ r, granted_when (is_ok r) (WasFresh p)
  | NotHeld p => λ r, granted_when (is_ok r) (NotOnHold p)
  | Eligible p => λ r w, set_window_state w ((p,.) <$> open_until r) (pw_clock w)
  | Clock => λ t w, set_window_state w (pw_open w) t
  | AuthorizeOverride plan reason => λ r, granted_when (is_ok r) (Overridden plan reason)
  | KeepLease => λ r w, set_stored w (pw_stored w) (lost_by r)
  | ExecuteStep _ s _ _ _ => λ r w, ran_step w s r
  | StorePlan p _ => λ r w, set_stored w (if is_ok r then Some p else None) (lost_by r)
  | _ => λ _ w, w
  end.

Definition step_succeeded (x : Step * result (StepOutcomeStatus * string) failure) : Prop :=
  ∃ detail, x.2 = Ok (OutcomeSucceeded, detail).

(** [q] is [p] but for its state and audit fields. *)
Definition same_plan (p q : Plan) : Prop :=
  plan_id_of q = plan_id_of p ∧ content_id q = content_id p
  ∧ plan_environment q = plan_environment p ∧ steps q = steps p.

(** The plan [p] is stored in [state]. *)
Definition stored_as (p : Plan) (w : plan_world) (state : PlanState) : Prop :=
  ∃ q, pw_stored w = Some q ∧ same_plan p q ∧ plan_state q = state.

Section World.
Context `{PlanEncoding} `{Crypto} (embedded : bool) (plan_id : string) (o : ExecutionOptions).

(** The approval recorded for [p]: the one verified for this very plan and
    these gates, or in embedded mode the local bypass of this plan. *)
Definition approved_for (p : Plan) (f : list grant) : Prop :=
  ∃ e, Recorded e ∈ f ∧
  match authorization o with
  | Signed => Verified p (skip_gates_option o) e ∈ f
  | LocalDevelopment reason => embedded = true ∧ ∃ now, local_bypass p reason now = Ok e
  end.

(** [p] was loaded and approved, and its environment is claimed for it. *)
Definition cleared (p : Plan) (f : list grant) : Prop :=
  Loaded plan_id p ∈ f ∧ approved_for p f ∧ Claimed p ∈ f ∧ GaveBack ∉ f.

(** A start of [p] that maintenance admits, [q] being [p] as it is run. *)
Definition window_admits (p q : Plan) (w : plan_world) : Prop :=
  (∃ reason, (trim <$> emergency_reason o) = Some reason ∧ reason ≠ ""
     ∧ Overridden (plan_id_of p) reason ∈ pw_granted w)
  ∨ ∃ closes, pw_open w = Some (q, closes) ∧ pw_clock w < closes.

Definition running_plan (p : Plan) : Plan :=
  Transition_apply (Transition_execution Running (skip_gates_option o) "") p.

(** [q] is the loaded plan, admitted and durably running. *)
Definition under_way (q : Plan) (w : plan_world) : Prop :=
  ∃ p, q = running_plan p ∧ cleared p (pw_granted w) ∧ WasFresh p ∈ pw_granted w
    ∧ NotOnHold p ∈ pw_granted w ∧ window_admits p q w ∧ pw_stored w = Some q.

(** When an effect may happen: the environment is claimed only for the
    approved plan, and a step runs only while its plan is under way, as the
    next one after steps that all succeeded. *)
Definition plan_allowed {X} (e : plan_effect X) (w : plan_world) : Prop :=
  match e with
  | ClaimLease p => Loaded plan_id p ∈ pw_granted w ∧ approved_for p (pw_granted w)
  | Bridge q => under_way q w
  | ExecuteStep q s _ _ skip =>
    under_way q w ∧ skip = skip_gates_option o ∧ pw_lost w = false
    ∧ (∃ rest, steps q = (pw_done w).*1 ++ s :: rest) ∧ ∀ x, x ∈ pw_done w → step_succeeded x
  | _ => True
  end.

Definition on_plan : Semantics plan_effect plan_world :=
  {| after := λ X e, after_plan_effect e; allowed_in := λ X e, plan_allowed e |}.
End World.

(** ** Specifications *)

(** Everything but the stored plan, the clock, the window and the fence. *)
Definition same_start (w w' : plan_world) : Prop :=
  pw_granted w' = pw_granted w ∧ pw_done w' = pw_done w ∧ pw_loose w' = pw_loose w.

Lemma same_start_trans w1 w2 w3 : same_start w1 w2 → same_start w2 w3 → same_start w1 w3.
Proof. intros (? & ? & ?) (? & ? & ?). split_and!; congruence. Qed.

Lemma same_plan_apply p q t : same_plan p q → same_plan p (Transition_apply t q).
Proof. done. Qed.

Section Specs.
Context {GB : GateBinding} {En : PlanEncoding} {Cr : Crypto}.
Context (embedded : bool) (plan_id : string) (o : ExecutionOptions).
#[local] Notation skip := (skip_gates_option o).
#[local] Notation wpp := (wp (on_plan embedded plan_id o)).
#[local] Notation cleared := (cleared embedded plan_id o).
#[local] Notation under_way := (under_way embedded plan_id o).

(** A check that changes nothing. *)
Definition silent {A} (c : plan_prog A) : Prop := ∀ w, wpp c (λ _ w', w' = w) w.

Lemma silent_try {A B} (c : plan_prog (result A failure)) (k : A → plan_prog (result B failure)) :
  silent c → (∀ a, silent (k a)) → silent (try_bind c k).
Proof.
  intros Hc Hk w. apply wp_try. eapply wp_mono; [apply Hc|]. intros [a|e] w' ->; [apply Hk|done].
Qed.

Lemma silent_ret {A} (a : A) : silent (Ret a).
Proof. done. Qed.

Lemma all_of_silent {A} (check : A → plan_prog (result unit failure)) l :
  (∀ a, silent (check a)) → silent (all_of check l).
Proof. intros Hc. induction l as [|a l IH]; simpl; [done|]. by apply silent_try. Qed.

(** Storing a transition: the new plan, or none one can rely on. *)
Lemma store_transition_spec p t confirm w :
  wpp (store_transition p t confirm) (λ r w', same_start w w'
    ∧ pw_open w' = pw_open w ∧ pw_clock w' = pw_clock w
    ∧ match r with
      | Ok p' => p' = Transition_apply t p ∧ pw_stored w' = Some p' ∧ pw_lost w' = pw_lost w
      | Err _ => pw_stored w' = None
      end) w.
Proof.
  unfold store_transition. simpl. split; [done|]. intros [[]|e]; split_and!; simpl; try done.
  by rewrite orb_false_r.
Qed.
#[local] Opaque store_transition.

Lemma fail_spec {A} p0 p sk detail error w :
  same_plan p0 p →
  wpp (fail (A:=A) p sk detail error) (λ r w', same_start w w' ∧ (∃ e, r = Err e)
    ∧ (stored_as p0 w' Failed ∨ pw_stored w' = None)) w.
Proof.
  intros Hp. unfold fail. apply wp_try. eapply wp_mono; [apply store_transition_spec|].
  intros [p'|e] w' (Hs & _ & _ & Hw'); simpl; (split_and!; [done|by eexists|]); [left|by right].
  destruct Hw' as (-> & Hst & _). by exists (Transition_apply (Transition_execution Failed sk detail) p).
Qed.
#[local] Opaque fail.

Lemma block_for_maintenance_spec {A} p sk detail w :
  wpp (block_for_maintenance (A:=A) p sk detail) (λ r w', same_start w w' ∧ ∃ e, r = Err e) w.
Proof.
  unfold block_for_maintenance. apply wp_try. eapply wp_mono; [apply store_transition_spec|].
  intros [p'|e] w' (Hs & _); simpl; eauto.
Qed.
#[local] Opaque block_for_maintenance.

(** An authorized override of [p] for the requested reason. *)
Definition overriding (emergency : option string) (p : Plan) (f : list grant) : Prop :=
  emergency = trim <$> emergency_reason o ∧ emergency ≠ Some ""
  ∧ ∀ reason, emergency = Some reason → Overridden (plan_id_of p) reason ∈ f.

Lemma require_open_spec p0 p emergency expired w :
  overriding emergency p0 (pw_granted w) →
  wpp (require_open p skip emergency expired) (λ r w', same_start w w'
    ∧ match r with
      | Ok _ => window_admits o p0 p w' ∧ pw_stored w' = pw_stored w ∧ pw_lost w' = pw_lost w
      | Err _ => True
      end) w.
Proof.
  intros (He & Hne & Hover). unfold require_open, maintenance_decision. simpl. split; [done|].
  intros [e|e]; simpl; [|by split_and!].
  destruct emergency as [reason|]; simpl.
  { split; [done|]. split_and!; try done. left. exists reason. split_and!; [done|congruence|by apply Hover]. }
  destruct e as [name closes|next|detail]; simpl.
  2-3: eapply wp_mono; [apply block_for_maintenance_spec|]; intros r w' (Hs & e & ->); by split.
  split; [done|]. intros now. destruct (closes <=? now) eqn:Hc.
  - eapply wp_mono; [apply block_for_maintenance_spec|]. intros r w' (Hs & e & ->). by split.
  - simpl. split; [done|]. split_and!; try done. right. exists closes. simpl. split; [done|].
    by apply Z.leb_gt.
Qed.
#[local] Opaque require_open.

(** What the gates leave: the plan goes on unchanged, or is stored as
    blocked. *)
Definition gated (p : Plan) (w : plan_world) (r : result (option (list Outcome)) failure)
    (w' : plan_world) : Prop :=
  same_start w w' ∧
  match r with
  | Ok None => pw_stored w' = pw_stored w ∧ pw_lost w' = pw_lost w
  | Ok (Some outcomes) => stored_as p w' Blocked ∧ ∀ o, o ∈ outcomes → outcome_status o = "blocked"
  | Err _ => True
  end.

Lemma blocked_spec p sk outcomes detail w :
  (∀ o, o ∈ outcomes → outcome_status o = "blocked") →
  wpp (blocked p sk outcomes detail) (gated p w) w.
Proof.
  intros Ho. unfold blocked. apply wp_try. eapply wp_mono; [apply store_transition_spec|].
  intros [p'|e] w' (Hs & _ & _ & Hw'); simpl; split; try done. split; [|done].
  destruct Hw' as (-> & Hst & _). by exists (Transition_apply (Transition_execution Blocked sk detail) p).
Qed.
#[local] Opaque blocked.

Lemma gated_trans p w1 w2 r w3 :
  same_start w1 w2 → pw_stored w2 = pw_stored w1 → pw_lost w2 = pw_lost w1 →
  gated p w2 r w3 → gated p w1 r w3.
Proof.
  intros H12 Hs Hl [H23 Hr]. split; [by eapply same_start_trans|].
  destruct r as [[]|]; try done. by rewrite <- Hs, <- Hl.
Qed.

Lemma eval_gates_spec p sk l w : wpp (eval_gates p sk l) (gated p w) w.
Proof.
  revert w. induction l as [|s l IH]; intros w; simpl; [by split|].
  case_decide; [apply IH|]. simpl. split; [done|]. intros [[suite|]|e]; simpl; [|apply IH|by split].
  destruct suite as [|c suite]; [apply IH|]. simpl. split; [done|]. intros now. split; [done|].
  intros response. set (w1 := set_window_state _ _ _).
  assert (Hback : ∀ c, wpp c (gated p w1) w1 → wpp c (gated p w) w1).
  { intros c' Hc. eapply wp_mono; [exact Hc|]. intros r w'. by apply gated_trans. }
  destruct (check_eval_gate _ _ _ _ response); apply Hback; [apply IH|..];
    apply blocked_spec; by intros ? ->%list_elem_of_singleton.
Qed.

Lemma gates_spec p sk w : wpp (gates p sk) (gated p w) w.
Proof.
  unfold gates. destruct sk; [by split|]. simpl. split; [done|].
  intros [[detail|]|e]; simpl; [|apply eval_gates_spec|by split]. apply blocked_spec.
  destruct (find_first _ _); simpl; [by intros ? ->%list_elem_of_singleton|intros ? []%elem_of_nil].
Qed.
#[local] Opaque gates.

Lemma overriding_same emergency p w w' :
  same_start w w' → overriding emergency p (pw_granted w) → overriding emergency p (pw_granted w').
Proof. by intros (-> & _). Qed.

Lemma admit_start_spec p emergency w :
  overriding emergency p (pw_granted w) →
  wpp (admit_start p skip emergency) (λ r w', same_start w w'
    ∧ match r with
      | Ok (inl outcomes) =>
        stored_as p w' Blocked ∧ ∀ o, o ∈ outcomes → outcome_status o = "blocked"
      | Ok (inr q) => q = running_plan o p ∧ pw_stored w' = Some q ∧ window_admits o p q w'
          ∧ pw_lost w' = pw_lost w
      | Err _ => True
      end) w.
Proof.
  intros Hover. unfold admit_start. apply wp_try. eapply wp_mono.
  { apply all_of_silent. by intros s w0. }
  intros [[]|e] w0 ->; [|by split]. apply wp_try. eapply wp_mono; [apply gates_spec|].
  intros [[outcomes|]|e] w1 [H1 Hg]; [by split| |by split].
  apply wp_try. eapply wp_mono; [by apply (require_open_spec p), (overriding_same _ _ _ _ H1)|].
  intros [[]|e] w2 [H2 Hw2]; [|by split; [eapply same_start_trans|]].
  assert (H02 : same_start w w2) by by eapply same_start_trans.
  apply wp_try. eapply wp_mono; [apply store_transition_spec|].
  intros [q|e] w3 (H3 & _ & _ & Hw3); [|by split; [eapply same_start_trans|]].
  destruct Hw3 as (-> & Hst & Hl3). assert (H03 : same_start w w3) by by eapply same_start_trans.
  apply wp_try. eapply wp_mono; [by apply (require_open_spec p), (overriding_same _ _ _ _ H03)|].
  intros [[]|e] w4 [H4 Hw4]; [|by split; [eapply same_start_trans|]].
  destruct Hw4 as (Hadm & Hst4 & Hl4). split; [by eapply same_start_trans|].
  split_and!; [done|congruence|done|]. destruct Hw2 as (_ & _ & Hl2), Hg as [_ Hlg]. congruence.
Qed.

(** ** Steps in order *)

Definition succeeded (x : Step * (StepOutcomeStatus * string)) : Prop := x.2.1 = OutcomeSucceeded.

Definition outcome_of (x : Step * (StepOutcomeStatus * string)) : Outcome :=
  Outcome_new x.1 x.2.1 x.2.2.

(** Executions that came to an outcome. *)
Definition ended (x : Step * (StepOutcomeStatus * string)) :
    Step * result (StepOutcomeStatus * string) failure := (x.1, Ok x.2).

(** The outcomes [l] of the steps [all] and the plan state they amount to:
    all of them succeeded, or they end with the first that did not. *)
Definition amounts_to (all : list Step) (l : list (Step * (StepOutcomeStatus * string)))
    (state : PlanState) : Prop :=
  (state = Succeeded ∧ l.*1 = all ∧ ∀ x, x ∈ l → succeeded x)
  ∨ ∃ earlier s status detail rest, l = earlier ++ [(s, (status, detail))]
      ∧ all = earlier.*1 ++ s :: rest
      ∧ (∀ x, x ∈ earlier → succeeded x) ∧ status ≠ OutcomeSucceeded
      ∧ state = StepOutcomeStatus_plan_state status.

(** The executions [l] are those of the first steps of [all], in order, and
    all but the last succeeded. *)
Definition in_order (all : list Step)
    (l : list (Step * result (StepOutcomeStatus * string) failure)) : Prop :=
  ∃ rest, all = l.*1 ++ rest
    ∧ ∀ earlier x later, l = earlier ++ x :: later → later ≠ [] → step_succeeded x.

Lemma completion_record_new c s status detail :
  completion_record c (Outcome_new s status detail)
  = Ok ({| outcomes := outcomes c ++ [Outcome_new s status detail];
           terminal_state := StepOutcomeStatus_plan_state status;
           completion_detail := if decide (status = OutcomeSucceeded) then completion_detail c
                                else detail |},
        negb (bool_decide (status = OutcomeSucceeded))).
Proof. by destruct status. Qed.

Lemma ended_fst (l : list (Step * (StepOutcomeStatus * string))) : (ended <$> l).*1 = l.*1.
Proof. rewrite <- list_fmap_compose. by apply list_fmap_ext. Qed.

Lemma ended_succeeded (l : list (Step * (StepOutcomeStatus * string))) x :
  (∀ x, x ∈ l → succeeded x) → x ∈ ended <$> l → step_succeeded x.
Proof.
  intros Hl ([s [status detail]] & -> & Hin)%list_elem_of_fmap. apply Hl in Hin as Hs.
  exists detail. simpl. by rewrite <- Hs.
Qed.

(** One more execution after executions that all succeeded. *)
Lemma in_order_snoc all l s r rest :
  all = l.*1 ++ s :: rest → (∀ x, x ∈ l → succeeded x) → in_order all ((ended <$> l) ++ [(s, r)]).
Proof.
  intros -> Hl. exists rest. rewrite fmap_app, ended_fst, <- app_assoc. split; [done|].
  intros earlier x later Heq Hne. apply (ended_succeeded l); [done|].
  destruct later as [|y later _] using rev_ind; [done|].
  rewrite app_comm_cons, app_assoc in Heq. apply app_inj_tail in Heq as [-> _].
  apply elem_of_app. right. by left.
Qed.

Lemma in_order_all all l rest :
  all = l.*1 ++ rest → (∀ x, x ∈ l → succeeded x) → in_order all (ended <$> l).
Proof.
  intros -> Hl. exists rest. rewrite ended_fst. split; [done|].
  intros earlier x later Heq _. apply (ended_succeeded l); [done|]. rewrite Heq.
  apply elem_of_app. right. by left.
Qed.

(** What the steps of [p] came to, when its outcomes are returned. *)
Definition came_to (p : Plan) (outs : list Outcome) (w : plan_world) : Prop :=
  (pw_done w = [] ∧ stored_as p w Blocked ∧ ∀ o, o ∈ outs → outcome_status o = "blocked")
  ∨ ∃ l state, pw_done w = ended <$> l ∧ outs = outcome_of <$> l ∧ stored_as p w state
      ∧ amounts_to (steps p) l state.

(** How an execution under the lease ends. *)
Definition settled (p : Plan) (r : result (list Outcome) failure) (w : plan_world) : Prop :=
  match r with
  | Ok outs => came_to p outs w
  | Err _ =>
    pw_done w = []
    ∨ in_order (steps p) (pw_done w)
      ∧ (stored_as p w Failed ∨ pw_stored w = None ∨ (pw_lost w = true ∧ stored_as p w Running))
  end.

(** The loop over the steps of the running plan [q] has run [l], and all of
    it succeeded. *)
Definition looping (q : Plan) (c : ExecutionCompletion) (rest : list Step) (w : plan_world) : Prop :=
  under_way q w ∧ pw_lost w = false
  ∧ ∃ l, pw_done w = ended <$> l ∧ steps q = l.*1 ++ rest ∧ (∀ x, x ∈ l → succeeded x)
      ∧ outcomes c = outcome_of <$> l ∧ terminal_state c = Succeeded.

(** The loop stopped: what ran amounts to the completion's state. *)
Definition looped (q : Plan) (f : list grant) (r : result ExecutionCompletion failure)
    (w : plan_world) : Prop :=
  pw_granted w = f ∧
  match r with
  | Ok c => ∃ l, pw_done w = ended <$> l ∧ outcomes c = outcome_of <$> l
      ∧ amounts_to (steps q) l (terminal_state c)
  | Err e => settled q (Err e) w
  end.

Lemma under_way_same q w w' :
  under_way q w → pw_granted w' = pw_granted w → pw_open w' = pw_open w → pw_clock w' = pw_clock w →
  pw_stored w' = pw_stored w → under_way q w'.
Proof.
  intros (p & -> & Hc & Hf & Hu & Hw & Hs) Hg Ho Hk Hst. exists p.
  unfold window_admits in *. rewrite Hg, Ho, Hk, Hst. by split_and!.
Qed.

Lemma fail_looped {A} q sk detail error w :
  in_order (steps q) (pw_done w) →
  wpp (fail (A:=A) q sk detail error) (λ r w', match r with
    | Ok _ => False
    | Err e => looped q (pw_granted w) (Err e) w'
    end) w.
Proof.
  intros Hin. eapply wp_mono; [by apply (fail_spec q q)|].
  intros r w' ((Hg & Hd & _) & (e' & ->) & Hstate). split; [done|]. simpl. rewrite Hd. tauto.
Qed.

Lemma run_step_spec q approvals c s rest w :
  looping q c (s :: rest) w →
  wpp (run_step q skip approvals c s) (λ r w', match r with
    | Ok (c', stop) =>
      if stop : bool then looped q (pw_granted w) (Ok c') w'
      else looping q c' rest w' ∧ pw_granted w' = pw_granted w
    | Err e => looped q (pw_granted w) (Err e) w'
    end) w.
Proof.
  intros (Hgo & Hl & l & Hd & Hall & Hsucc & Hout & Hterm).
  assert (Hst : stored_as q w Running).
  { destruct Hgo as (p & -> & _ & _ & _ & _ & Hs). by exists (running_plan o p). }
  unfold run_step. simpl. split; [done|]. intros [[]|e]; simpl.
  - split.
    { split_and!; [by eapply under_way_same|done|by rewrite Hl|exists rest; by rewrite Hd, ended_fst|].
      intros x. rewrite Hd. by apply ended_succeeded. }
    intros [[status detail]|e]; simpl.
    + rewrite completion_record_new.
      destruct (bool_decide_reflect (status = OutcomeSucceeded)); simpl.
      * subst status. split; [|done]. unfold looping. simpl. rewrite Hl.
        split_and!; [by eapply under_way_same|done|]. exists (l ++ [(s, (OutcomeSucceeded, detail))]).
        rewrite Hd, !fmap_app, <- app_assoc, Hout. split_and!; try done.
        intros x [?| ->%list_elem_of_singleton]%elem_of_app; [by apply Hsucc|done].
      * split; [done|]. exists (l ++ [(s, (status, detail))]). simpl. rewrite Hd, !fmap_app, Hout.
        split_and!; try done. right. by exists l, s, status, detail, rest.
    + destruct (is_execution_fence_lost e) eqn:He; simpl.
      * split; [done|]. right. simpl. rewrite ?He, orb_true_r, Hd. split; [by eapply in_order_snoc|].
        by right; right.
      * eapply wp_mono; [apply fail_looped; simpl; rewrite Hd; by eapply in_order_snoc|].
        by intros [x|e'] w''.
  - assert (Hin : in_order (steps q) (pw_done w)) by (rewrite Hd; by eapply in_order_all).
    destruct (is_execution_fence_lost e) eqn:He; simpl.
    + split; [done|]. right. simpl. rewrite ?He, orb_true_r. split; [done|]. by right; right.
    + eapply wp_mono; [by apply fail_looped|]. by intros [x|e'] w''.
Qed.

(** Under the lease throughout; built-in delivery settles the plan. *)
Definition ends (p : Plan) (r : result (list Outcome) failure) (w : plan_world) : Prop :=
  delegates o = false → settled p r w.

Lemma settled_same p q r w : same_plan p q → settled q r w → settled p r w.
Proof.
  intros (H1 & H2 & H3 & H4).
  assert (Hst : ∀ state, stored_as q w state → stored_as p w state).
  { intros st (x & Hx & (X1 & X2 & X3 & X4) & Hs). exists x. unfold same_plan. split_and!; congruence. }
  destruct r as [outs|e]; simpl; unfold came_to; rewrite H4.
  - intros [(?&?&?)|(l & st & ? & ? & ? & ?)]; [left; auto|right]. exists l, st. auto.
  - intros [?|[? [?|[?|[? ?]]]]]; [by left|right; auto 6..].
Qed.

Lemma fail_ends p sk detail e w :
  pw_done w = [] → wpp (fail p sk detail e) (ends p) w.
Proof.
  intros Hd. eapply wp_mono; [by apply (fail_spec p p)|]. intros r w' ((_ & Hd' & _) & (e' & ->) & _) _.
  left. congruence.
Qed.

Lemma or_fail_spec {A} (check : plan_prog (result A failure)) p k w :
  silent check → pw_done w = [] → (∀ a, wpp (k a) (ends p) w) →
  wpp (or_fail check p skip k) (ends p) w.
Proof.
  intros Hc Hd Hk. unfold or_fail. apply wp_bind. eapply wp_mono; [apply Hc|].
  intros [a|e] w' ->; [apply Hk|by apply fail_ends].
Qed.

Lemma slo_silent s : silent (refuse_host_slo_gate s) ∧ silent (refuse_delegated_slo_gate s).
Proof.
  split; intros w; simpl; (split; [done|]); intros [[]|e]; simpl; try done;
    (split; [done|]); by intros [[]|e].
Qed.

Lemma run_loop_spec q approvals w :
  under_way q w → pw_lost w = false → pw_done w = [] →
  wpp (do? completion := each (run_step q skip approvals) ExecutionCompletion_new (steps q) in
       completion_finish completion q skip) (ends q) w.
Proof.
  intros Hgo Hl Hd. apply wp_try. eapply wp_mono.
  { apply (wp_each _ _ (λ c rest w', looping q c rest w' ∧ pw_granted w' = pw_granted w)
             (looped q (pw_granted w))).
    - split; [|done]. split_and!; [done|done|]. exists []. split_and!; try done.
      intros x []%elem_of_nil.
    - intros c s rest w' [Hlo <-]. by apply run_step_spec.
    - intros c w' [(_ & _ & l & Hd' & Hall & Hsucc & Hout & Hterm) Hg]. rewrite app_nil_r in Hall.
      split; [done|]. exists l. split_and!; [done..|]. left. by rewrite Hterm. }
  intros [c|e] w' [_ Hw']; [|by intros _]. destruct Hw' as (l & Hd' & Hout & Ham).
  unfold completion_finish. apply wp_try. eapply wp_mono; [apply store_transition_spec|].
  intros [q'|e] w2 ((_ & Hd2 & _) & _ & _ & Hw2); intros _; simpl.
  - right. exists l, (terminal_state c). rewrite Hd2. destruct Hw2 as (-> & Hst & _).
    split_and!; [done|done| |done]. by eexists.
  - right. rewrite Hd2, Hd'. split; [|by right; left].
    destruct Ham as [(_ & Hall & Hs)|(earlier & s & status & detail & rest & -> & Hall & Hs & _)].
    + eapply in_order_all; [by rewrite Hall, app_nil_r|done].
    + rewrite fmap_app. simpl. by eapply in_order_snoc.
Qed.

Lemma run_steps_spec q w :
  under_way q w → pw_lost w = false → pw_done w = [] →
  wpp (run_steps q skip (delegates o)) (ends q) w.
Proof.
  intros Hgo Hl Hd. unfold run_steps.
  apply or_fail_spec; [|done|intros _].
  { apply silent_try; [by intros w0|]. intros _. apply all_of_silent. by intros a w0. }
  apply or_fail_spec; [|done|intros _].
  { destruct skip; [apply silent_ret|]. apply all_of_silent. intros s. apply slo_silent. }
  apply or_fail_spec; [|done|intros _].
  { destruct (_ && _); [|apply silent_ret]. apply all_of_silent. intros s. apply slo_silent. }
  destruct (delegates o) eqn:Hdel.
  - destruct (has_host_step q); [by apply fail_ends|]. simpl. split; [done|].
    intros [report|e]; simpl; unfold ends; by rewrite Hdel.
  - apply or_fail_spec; [|done|intros approvals; by apply run_loop_spec].
    destruct (has_host_step q); [by intros w0|apply silent_ret].
Qed.

Lemma cleared_grow p f g : cleared p f → g ≠ GaveBack → cleared p (g :: f).
Proof.
  intros (Hl & (e & Hr & Ha) & Hc & Hg) Hne. split_and!; [by right| |by right|].
  - exists e. split; [by right|]. destruct (authorization o); [by right|done].
  - intros [Heq|?]%elem_of_cons; [by symmetry in Heq|done].
Qed.

Lemma execute_locked_spec p emergency w :
  cleared p (pw_granted w) → pw_lost w = false → pw_done w = [] →
  overriding emergency p (pw_granted w) →
  wpp (execute_locked p skip emergency (delegates o)) (ends p) w.
Proof.
  intros Hc Hl Hd (He & Hne & Hover). unfold execute_locked.
  simpl. split; [done|]. intros [[]|e]; simpl; [|by intros _; left].
  split; [done|]. intros [[]|e]; simpl; [|by intros _; left].
  set (w0 := set_granted (set_granted w _) _).
  assert (Hc0 : cleared p (pw_granted w0)) by by apply cleared_grow; [apply cleared_grow|].
  apply wp_try. eapply wp_mono.
  { apply admit_start_spec. split_and!; [done|done|]. intros reason Hr. do 2 right. by apply Hover. }
  intros [[outs|q]|e] w1 [(Hg & Hd1 & _) Hw1]; simpl in Hd1.
  - intros _. left. destruct Hw1. split_and!; [congruence|done|done].
  - destruct Hw1 as (-> & Hst & Hadm & Hl1). eapply wp_mono.
    + apply run_steps_spec; [|simpl in Hl1; congruence|congruence].
      exists p. rewrite Hg. split_and!; try done; [right; by left|by left].
    + intros r w2 Hr Hdel. by apply (settled_same p (running_plan o p)), Hr.
  - intros _. left. congruence.
Qed.

(** ** Attempts *)

(** The lease is given back; the plan is as its execution left it. *)
Definition attempted (p : Plan) (r : result (list Outcome) failure) (w : plan_world) : Prop :=
  GaveBack ∈ pw_granted w ∧ Loaded plan_id p ∈ pw_granted w ∧
  (delegates o = false →
   match r with
   | Ok outs => settled p (Ok outs) w
   | Err e => settled p (Err e) w ∨ pw_loose w = true ∧ ∃ outs, settled p (Ok outs) w
   end).

(** What was granted stays granted. *)
Lemma wp_granted {A} (c : plan_prog A) Q w :
  wpp c Q w → wpp c (λ a w', Q a w' ∧ pw_granted w `suffix_of` pw_granted w') w.
Proof.
  assert (Hafter : ∀ X (e : plan_effect X) x w1,
    pw_granted w1 `suffix_of` pw_granted (after_plan_effect e x w1)).
  { intros X e x w1. destruct e; simpl; try done; try (destruct x; simpl; try done);
      by apply suffix_cons_r. }
  revert w. induction c as [a|X e k IH]; intros w; simpl; [done|]. intros [Ha Hk]. split; [done|].
  intros x. eapply wp_mono; [by apply IH|]. intros a w' [HQ Hs]. split; [done|].
  etrans; [apply Hafter|exact Hs].
Qed.

Lemma released_spec p r w :
  Loaded plan_id p ∈ pw_granted w → ends p r w → wpp (released r) (attempted p) w.
Proof.
  intros Hgr Hs. simpl. split; [done|].
  intros [[]|unlock]; destruct r as [outs|e]; (split_and!; [by left|by right|]); intros Hd;
    specialize (Hs Hd); simpl in *; auto.
  right. rewrite orb_true_r. eauto.
Qed.

Lemma authorize_maintenance_spec p emergency w :
  cleared p (pw_granted w) → emergency = trim <$> emergency_reason o → emergency ≠ Some "" →
  wpp (authorize_maintenance p skip emergency) (λ r w',
    cleared p (pw_granted w') ∧ pw_done w' = pw_done w
    ∧ (is_ok r = true → pw_lost w' = pw_lost w ∧ overriding emergency p (pw_granted w'))) w.
Proof.
  intros Hc He Hne. unfold authorize_maintenance, maintenance_decision.
  assert (Hblock : ∀ detail w1, cleared p (pw_granted w1) → pw_done w1 = pw_done w →
    wpp (block_for_maintenance (A:=unit) p skip detail) (λ r w',
      cleared p (pw_granted w') ∧ pw_done w' = pw_done w ∧ ∃ e, r = Err e) w1).
  { intros detail w1 H1 H2. eapply wp_mono; [apply block_for_maintenance_spec|].
    intros r w' ((Hg & Hd & _) & e & ->). rewrite Hg, Hd. eauto. }
  assert (Hdone : ∀ detail w1, cleared p (pw_granted w1) → pw_done w1 = pw_done w →
    wpp (block_for_maintenance (A:=unit) p skip detail) (λ r w',
      cleared p (pw_granted w') ∧ pw_done w' = pw_done w
      ∧ (is_ok r = true → pw_lost w' = pw_lost w ∧ overriding emergency p (pw_granted w'))) w1).
  { intros detail w1 H1 H2. eapply wp_mono; [by apply Hblock|]. by intros r w' (? & ? & e & ->). }
  simpl. split; [done|]. destruct emergency as [reason|]; intros [e|e]; simpl.
  - split; [done|]. intros [[]|e']; simpl; [|by apply Hdone]. split; [by apply cleared_grow|].
    split; [done|]. intros _. split; [done|]. split_and!; [done|done|]. intros ? [= <-]. by left.
  - by apply Hdone.
  - destruct e; simpl; [by split_and!|..]; apply wp_bind; (eapply wp_mono; [by apply Hblock|]);
      intros r w' (? & ? & e & ->); by split_and!.
  - by split_and!.
Qed.
#[local] Opaque authorize_maintenance execute_locked.

Lemma execute_attempt_spec p sk execution w :
  pw_done w = [] → wpp execution (ends p) w →
  wpp (execute_attempt p sk execution) (λ r w', ends p r.1 w' ∧ (r.2 ≠ None → pw_loose w' = true)) w.
Proof.
  intros Hd Hex. unfold execute_attempt. simpl. split; [done|].
  assert (Hearly : ∀ e : failure, ends p (Err e) w) by (by intros e _; left).
  intros [[id|]|e]; simpl; [| |by split].
  - split; [done|]. intros [[]|e]; simpl; [|by split].
    apply wp_bind. eapply wp_mono; [exact Hex|]. intros r w1 Hr. simpl. split; [done|].
    intros [[]|e]; simpl; (split; [exact Hr|]); [done|]. by rewrite orb_true_r.
  - apply wp_bind. eapply wp_mono; [exact Hex|]. intros r w1 Hr. by split.
Qed.

Lemma attempt_claimed_spec p emergency w :
  cleared p (pw_granted w) → pw_lost w = false → pw_done w = [] →
  emergency = trim <$> emergency_reason o → emergency ≠ Some "" →
  wpp (attempt_claimed o emergency p) (attempted p) w.
Proof.
  intros Hc Hl Hd He Hne. unfold attempt_claimed.
  assert (Hearly : ∀ e w', cleared p (pw_granted w') → pw_done w' = [] →
    wpp (released (Err e)) (attempted p) w').
  { intros e w' Hc' Hd'. apply released_spec; [apply Hc'|]. intros _. by left. }
  apply wp_bind. eapply (wp_mono _ _ (λ _ w', w' = w)).
  { destruct (is_ok _); [by split|done]. }
  intros [[]|e] w0 ->; [|by apply Hearly].
  apply wp_bind. eapply wp_mono; [by apply authorize_maintenance_spec|].
  intros [[]|e] w1 (Hc1 & Hd1 & Hok); [|apply Hearly; congruence].
  destruct (Hok eq_refl) as [Hl1 Hover]. apply wp_bind. eapply wp_mono.
  { apply wp_granted, (execute_attempt_spec p); [congruence|].
    apply execute_locked_spec; congruence || done. }
  intros [r finalization] w2 [[Hends Hfin] Hs]. apply wp_bind.
  assert (Hlo : Loaded plan_id p ∈ pw_granted w2) by (eapply suffix_elem; [exact Hs|apply Hc1]).
  eapply (wp_mono _ _ (λ r' w3, attempted p r' w3 ∧ (finalization ≠ None → pw_loose w3 = true))).
  { simpl. split; [done|]. intros x. specialize (released_spec p r w2 Hlo Hends) as [_ Hrel].
    split; [apply (Hrel x)|]. intros Hf. simpl. by rewrite Hfin. }
  intros r' w3 [(Hg & Hlo' & Hset) Hfin']. destruct finalization; [|destruct r'; by split].
  specialize (Hfin' ltac:(done)).
  destruct r'; (split_and!; [done|done|]); intros Hdel; specialize (Hset Hdel); simpl in *; eauto.
Qed.
#[local] Opaque attempt_claimed.

(** How an execution ends, from the start: a claimed environment is given
    back, and the loaded plan is as its execution left it. *)
Definition finished (r : result (list Outcome) failure) (w : plan_world) : Prop :=
  ((∀ p, Claimed p ∉ pw_granted w) ∨ GaveBack ∈ pw_granted w) ∧
  (delegates o = false →
   match r with
   | Ok outs => ∃ p, Loaded plan_id p ∈ pw_granted w ∧ came_to p outs w
   | Err e => pw_done w = [] ∨ ∃ p, Loaded plan_id p ∈ pw_granted w
       ∧ (settled p (Err e) w ∨ pw_loose w = true ∧ ∃ outs, came_to p outs w)
   end).

Lemma attempted_finished p r w : attempted p r w → finished r w.
Proof.
  intros (Hg & Hl & Hs). split; [by right|]. intros Hd. specialize (Hs Hd).
  destruct r as [outs|e]; [by exists p|]. right. by exists p.
Qed.

Lemma validate_emergency_override_ok reason emergency :
  validate_emergency_override reason = Ok emergency →
  emergency = trim <$> reason ∧ emergency ≠ Some "".
Proof.
  unfold validate_emergency_override. destruct reason as [s|]; simpl; [|by intros [= <-]].
  destruct (trim s) as [|c t] eqn:Ht; simpl; [done|]. intros [= <-]. split; [done|].
  by intros [= ?].
Qed.

(** The world before. *)
Definition unclaimed : plan_world := {|
  pw_granted := []; pw_stored := None; pw_open := None; pw_clock := 0; pw_lost := false;
  pw_loose := false; pw_done := [] |}.

Lemma execute_with_options_spec : wpp (execute_with_options embedded plan_id o) finished unclaimed.
Proof.
  assert (Hend : ∀ e w, (∀ p, Claimed p ∉ pw_granted w) → pw_done w = [] → finished (Err e) w).
  { intros e w Hc Hd. split; [by left|]. intros _. by left. }
  unfold execute_with_options. apply wp_try. cbn [wp].
  destruct (validate_emergency_override _) as [emergency|e] eqn:He;
    [|apply Hend; [|done]; intros p []%elem_of_nil].
  apply validate_emergency_override_ok in He as [He Hne].
  apply wp_try. cbn [wp perform]. split; [done|].
  intros [p|e]; [|apply Hend; [|done]; intros p []%elem_of_nil].
  assert (Hone : ∀ f p0, f ≠ Claimed p0 → Claimed p0 ∉ [f; Loaded plan_id p]).
  { intros f p0 Hf [?|[[=]|[]%elem_of_nil]%elem_of_cons]%elem_of_cons. congruence. }
  assert (Hnone : ∀ p0, Claimed p0 ∉ [Loaded plan_id p]).
  { by intros p0 [[=]|[]%elem_of_nil]%elem_of_cons. }
  destruct (negb (applicable p)); [by apply Hend|].
  assert (Hclaim : ∀ w1 evidence, Loaded plan_id p ∈ pw_granted w1 → GaveBack ∉ pw_granted w1 →
    (∀ p0, Claimed p0 ∉ pw_granted w1) →
    approved_for embedded o p (Recorded evidence :: pw_granted w1) →
    pw_lost w1 = false → pw_done w1 = [] →
    wpp (do? _ := perform (RecordApproval evidence) in
         do? _ := perform (ClaimLease p) in attempt_claimed o emergency p) finished w1).
  { intros w1 evidence H1 H2 H3 H4 H5 H6. simpl. split; [done|]. intros [[]|e]; simpl; [|by apply Hend].
    split; [split; [by right|done]|]. intros [[]|e]; simpl.
    - eapply wp_mono; [apply attempt_claimed_spec; try done|intros r w'; apply attempted_finished].
      destruct H4 as (ev & Hrec & Ha). split_and!; [by do 2 right| |by left|].
      + exists ev. split; [by right|]. destruct (authorization o); [by right|done].
      + by intros [?|[?|?]%elem_of_cons]%elem_of_cons.
    - apply Hend; [|done]. intros p0 [?|?]%elem_of_cons; [done|by eapply H3]. }
  apply wp_try. unfold authorize. apply wp_bind. cbn [wp perform]. split; [done|]. intros now.
  destruct (authorization o) as [|reason] eqn:Hauth; cbn [wp perform].
  - split; [done|]. intros [evidence|e]; [|by apply Hend].
    apply Hclaim; simpl; try done; [right; by left|by intros [[=]|[[=]|[]%elem_of_nil]%elem_of_cons]%elem_of_cons|intros p0; by apply Hone|].
    exists evidence. split; [by left|]. rewrite Hauth. right. by left.
  - destruct embedded eqn:Hemb; cbn [wp]; [|by apply Hend].
    destruct (local_bypass p reason now) as [evidence|] eqn:Hb; simpl map_err; cbn iota beta; [|by apply Hend].
    apply Hclaim; simpl; try done; [by left|by intros [[=]|[]%elem_of_nil]%elem_of_cons|].
    exists evidence. split; [by left|]. rewrite Hauth. eauto.
Qed.
End Specs.

(** ** The claims *)

Section Claims.
Context {GB : GateBinding} {En : PlanEncoding} {Cr : Crypto} (embedded : bool).

(** C19: what an execution by the built-in executor reports is what the loaded
    plan's steps came to, whatever the store, the gates, the fence and the
    targets answer (a plan handed to an external delivery adapter is not
    covered).  Outcomes are returned either for a plan that was blocked before
    any step was executed and is stored as blocked; or one per step that was
    executed, in the plan's order, ending with the first step that did not
    succeed: no execution ended in an error, and the plan is stored as
    succeeded exactly when every step ran and succeeded, and otherwise as its
    last step ended.  After an error no step was executed; or the plan's first
    steps were, in order, each after the one before it succeeded, so that none
    followed an execution that ended in an error, and the plan is stored as
    failed, or its last write failed, or the fence was lost and the plan stays
    running; or the steps came to outcomes and only giving back the lease or
    finishing the canary attempt failed. *)
Theorem plan_execution_settles plan_id o r w :
  delegates o = false →
  runs (on_plan embedded plan_id o) (execute_with_options embedded plan_id o) unclaimed r w →
  match r with
  | Ok outs => ∃ p, Loaded plan_id p ∈ pw_granted w ∧
      ((pw_done w = [] ∧ stored_as p w Blocked ∧ ∀ o, o ∈ outs → outcome_status o = "blocked")
       ∨ ∃ l state, pw_done w = ended <$> l ∧ outs = outcome_of <$> l ∧ stored_as p w state
           ∧ amounts_to (steps p) l state)
  | Err _ => pw_done w = []
      ∨ ∃ p, Loaded plan_id p ∈ pw_granted w ∧
        (in_order (steps p) (pw_done w)
           ∧ (stored_as p w Failed ∨ pw_stored w = None ∨ (pw_lost w = true ∧ stored_as p w Running))
         ∨ pw_loose w = true ∧ ∃ outs, came_to p outs w)
  end.
Proof.
  intros Hd Hr. apply (wp_runs _ _ (finished plan_id o)) in Hr; [|apply execute_with_options_spec].
  destruct Hr as [_ Hr]. specialize (Hr Hd). destruct r as [outs|e]; [exact Hr|].
  destruct Hr as [?|(p & Hp & [[?|?]|?])]; [by left|by left|right; exists p; auto..].
Qed.

(** C3: a step [s] of a plan [p] is executed only after what guards it.  [p] is
    the plan [stored] that was loaded under the requested id, as running with
    the requested gates; the approval recorded is the one verified for this
    very plan and these gates, or, in embedded mode and when asked for, the
    local bypass of this plan; the environment's lease was claimed for this
    plan, is not given back and was not found lost; this plan was admitted as
    fresh and not held; its maintenance windows are open at the last reading of
    the clock, or an emergency override of this plan with the requested,
    non-empty reason was authorized; the plan is durably stored as running; and
    the step is the next one of the plan after steps that were all executed and
    succeeded. *)
Theorem steps_run_only_admitted plan_id o p s approvals recalled skip w :
  reaches (on_plan embedded plan_id o) (ExecuteStep p s approvals recalled skip)
    (execute_with_options embedded plan_id o) unclaimed w →
  skip = skip_gates_option o ∧
  ∃ stored, p = Transition_apply (Transition_execution Running skip "") stored
  ∧ Loaded plan_id stored ∈ pw_granted w
  ∧ (∃ e, Recorded e ∈ pw_granted w ∧
      match authorization o with
      | Signed => Verified stored skip e ∈ pw_granted w
      | LocalDevelopment reason => embedded = true ∧ ∃ now, local_bypass stored reason now = Ok e
      end)
  ∧ Claimed stored ∈ pw_granted w ∧ GaveBack ∉ pw_granted w ∧ pw_lost w = false
  ∧ WasFresh stored ∈ pw_granted w ∧ NotOnHold stored ∈ pw_granted w
  ∧ ((∃ reason, (trim <$> emergency_reason o) = Some reason ∧ reason ≠ ""
        ∧ Overridden (plan_id_of stored) reason ∈ pw_granted w)
     ∨ ∃ closes, pw_open w = Some (p, closes) ∧ pw_clock w < closes)
  ∧ pw_stored w = Some p ∧ plan_state p = Running
  ∧ (∃ rest, steps stored = (pw_done w).*1 ++ s :: rest)
  ∧ ∀ x, x ∈ pw_done w → ∃ detail, x.2 = Ok (OutcomeSucceeded, detail).
Proof.
  intros Hr. apply (wp_reaches _ _ _ (finished plan_id o)) in Hr; [|apply execute_with_options_spec].
  destruct Hr as ((stored & -> & (Hl & Ha & Hc & Hg) & Hf & Hu & Hw & Hs) & -> & Hlost & Hnext & Hd).
  split; [done|]. by exists stored.
Qed.

(** An attempt that claims an environment gives the lease back however it
    ends. *)
Theorem lease_given_back plan_id o r w :
  runs (on_plan embedded plan_id o) (execute_with_options embedded plan_id o) unclaimed r w →
  (∀ p, Claimed p ∉ pw_granted w) ∨ GaveBack ∈ pw_granted w.
Proof.
  intros Hr. apply (wp_runs _ _ (finished plan_id o)) in Hr; [|apply execute_with_options_spec].
  apply Hr.
Qed.
End Claims.

Module ExecutionExamples.
#[local] Existing Instance PlainEncoding.instance.
#[local] Existing Instance ApprovalExamples.transparent.

#[local] Instance bound : GateBinding := {| gate_config_ref release artifact suite := suite |}.

Definition step (product : string) : Step := {|
  step_id := product; step_order := 0; step_product := product; step_instance := "";
  step_action := Install; step_from := None; step_to := "1.0.0";
  step_release_id := release_id product "1.0.0"; step_release_digest := "d";
  step_artifact_digest := "a"; step_workdir := ""; step_restore := None; step_host := None |}.

Definition plan : Plan := {|
  format_version := 1; plan_id_of := "p"; content_id := ""; plan_environment := "prod";
  created_at := 7; inputs := []; steps := [step "api"; step "web"]; plan_state := Computed;
  gates_skipped := None; status_detail := ""; maintenance_blocked := false;
  prior_warnings := []; recalled_recovery_reason := None; credential_runway := None |}.

Definition approved : VerificationEvidence := {|
  evidence_schema := ""; evidence_plan_id := "p"; evidence_plan_digest := "";
  evidence_environment := "prod"; signer_identity := "ops"; evidence_key_id := "k";
  evidence_provider := ""; evidence_id := ""; evidence_policy_digest := "";
  evidence_issued_at := 0; evidence_expires_at := 9; verified_at := 0;
  evidence_skip_gates := false; bypass_reason := None |}.

Definition options : ExecutionOptions := {|
  skip_gates_option := false; emergency_reason := None; authorization := Signed;
  software_executors := {| default_kind := None; default_adapter := None; declared := [];
    host_executor := Err "no applier"; process_default_error := None |};
  delegates := false |}.

(** Everything is admitted at noon; the step of [failing] fails. *)
Definition answer (failing : string) : answers plan_effect := λ X e,
  match e in plan_effect X return X with
  | LoadPlan _ => Ok plan
  | VerifyApproval _ _ => Ok approved
  | Clock => 12
  | Eligible _ => Ok (Open "noon" 13)
  | CanaryBegin _ _ => Ok None
  | ExposureGate _ => Ok None
  | AdmitStep _ => Ok None
  | EvalEvidence _ _ _ _ => Err (OtherFailure "no suite")
  | StepSlo _ | NoGateSpec _ => Ok false
  | Bridge _ => Err (OtherFailure "no bridge")
  | HostApprovals_ _ => Ok []
  | ExecuteStep _ s _ _ _ =>
    Ok (if decide (step_product s = failing) then (OutcomeFailed, "crash loop")
        else (OutcomeSucceeded, ""))
  | RecordApproval _ | ClaimLease _ | ReleaseLease | FenceHost | AuthorizeOverride _ _
  | CanaryStarted _ | CanaryFinish _ _ | Fresh _ | NotHeld _ | CompatibleRelease _ _
  | ReadEnvironment _ | AdmitPulls _ | KeepLease | StorePlan _ _ => Ok tt
  end.

(** Both steps succeed, and the plan with them. *)
Example plan_succeeds :
  let '(r, w) := run (on_plan false "p" options) (answer "") (execute_with_options false "p" options) unclaimed in
  r = Ok [Outcome_new (step "api") OutcomeSucceeded ""; Outcome_new (step "web") OutcomeSucceeded ""]
  ∧ (plan_state <$> pw_stored w) = Some Succeeded ∧ head (pw_granted w) = Some GaveBack.
Proof. by vm_compute. Qed.

(** The first step fails: the second never runs. *)
Example plan_stops_at_failure :
  let '(r, w) := run (on_plan false "p" options) (answer "api") (execute_with_options false "p" options) unclaimed in
  r = Ok [Outcome_new (step "api") OutcomeFailed "crash loop"]
  ∧ (plan_state <$> pw_stored w) = Some Failed ∧ head (pw_granted w) = Some GaveBack.
Proof. by vm_compute. Qed.

Lemma plan_execution_settles_witness :
  let w := (run (on_plan false "p" options) (answer "api") (execute_with_options false "p" options)
              unclaimed).2 in
  ∃ p, Loaded "p" p ∈ pw_granted w ∧
    ((pw_done w = [] ∧ stored_as p w Blocked
      ∧ ∀ o, o ∈ [Outcome_new (step "api") OutcomeFailed "crash loop"] → outcome_status o = "blocked")
     ∨ ∃ l state, pw_done w = ended <$> l
         ∧ [Outcome_new (step "api") OutcomeFailed "crash loop"] = outcome_of <$> l
         ∧ stored_as p w state ∧ amounts_to (steps p) l state).
Proof.
  intros w.
  exact (plan_execution_settles false "p" options
           (Ok [Outcome_new (step "api") OutcomeFailed "crash loop"]) w eq_refl
           (run_runs (on_plan false "p" options) (answer "api") (execute_with_options false "p" options)
              unclaimed)).
Defined.

Lemma lease_given_back_witness :
  let w := (run (on_plan false "p" options) (answer "") (execute_with_options false "p" options)
              unclaimed).2 in
  (∀ p, Claimed p ∉ pw_granted w) ∨ GaveBack ∈ pw_granted w.
Proof.
  exact (lease_given_back false "p" options _ _ (run_runs (on_plan false "p" options) (answer "") _ _)).
Defined.

#[local] Transparent store_transition fail block_for_maintenance blocked require_open gates
  execute_locked authorize_maintenance attempt_claimed.

Definition running_example : Plan := Transition_apply (Transition_execution Running false "") plan.

Definition running : plan_world := {|
  pw_granted := [NotOnHold plan; WasFresh plan; Claimed plan; Recorded approved;
                 Verified plan false approved; Loaded "p" plan];
  pw_stored := Some running_example; pw_open := Some (running_example, 13); pw_clock := 12;
  pw_lost := false; pw_loose := false; pw_done := [] |}.

Lemma steps_run_only_admitted_witness :
  reaches (on_plan false "p" options) (ExecuteStep running_example (step "api") [] false false)
    (execute_with_options false "p" options) unclaimed running
  ∧ ∃ stored, running_example = Transition_apply (Transition_execution Running false "") stored
     ∧ Loaded "p" stored ∈ pw_granted running.
Proof.
  assert (H : reaches (on_plan false "p" options)
    (ExecuteStep running_example (step "api") [] false false)
    (execute_with_options false "p" options) unclaimed running).
  { do 23 (refine (reaches_answer _ (answer "") _ _ _ _ _ _)). apply reaches_here. }
  split; [exact H|].
  destruct (steps_run_only_admitted false "p" options _ _ _ _ _ _ H)
    as (_ & stored & Hp & Hl & _).
  exists stored. split; [exact Hp|exact Hl].
Defined.

Definition evidence : GateEvidence := {|
  gate_suite_id := "smoke"; gate_release_digest := "d"; gate_artifact_digest := "a";
  gate_suite_digest := "s"; config_ref := "s"; run_id := "r1"; run_timestamp := 5;
  expected_case_ids := ["login"; "boot"];
  case_results := [{| case_id := "boot"; passed := true |}; {| case_id := "login"; passed := true |}] |}.

Lemma gate_allows_only_complete_evidence_witness :
  let response := Ok {| response_status := "found"; response_evidence := Some evidence |} in
  check_eval_gate "smoke" "d" "a" 9 response = GateAllowed
  ∧ ∃ e, response = Ok {| response_status := "found"; response_evidence := Some e |}
      ∧ ∀ r, r ∈ case_results e → passed r = true.
Proof.
  intros response.
  assert (H : check_eval_gate "smoke" "d" "a" 9 response = GateAllowed) by (vm_compute; reflexivity).
  split; [exact H|].
  destruct (gate_allows_only_complete_evidence _ _ _ _ _ H) as (e & He & Hrest).
  exists e. split; [exact He|apply Hrest].
Defined.

(** One failing case, a missing case or a repeated case closes the gate. *)
Example gate_closes_on_incomplete_results :
  map (λ results, match evaluate_gate results "smoke" ["login"; "boot"] with
                  | GateAllowed => true | _ => false end)
    [[{| case_id := "boot"; passed := true |}; {| case_id := "login"; passed := false |}];
     [{| case_id := "boot"; passed := true |}];
     [{| case_id := "boot"; passed := true |}; {| case_id := "boot"; passed := true |};
      {| case_id := "login"; passed := true |}]] = [false; false; false].
Proof. vm_compute. reflexivity. Qed.
End ExecutionExamples.
