(* ===== verification/Reconciler.v ===== *)
(** * Reconciling one environment

    [reconciler/environment_lifecycle.rs]: what a tick does for one
    environment, from the recovery of abandoned plans over the selection of a
    plan to its authorization and execution, as a program over what it asks
    of the store and of the other components. *)

From S2P Require Import Prelude RustStr Kinds Facts Compatibility Contracts Plan ObjectStore Leases StoreHistory PlanQueries Approvals HostState Catalog ExecutionAdmission DeliveryHolds Criticality ApprovalPolicy Deployments Effects ProductExecution ReconcileFence Scheduler.

Definition NO_OP_STATUS_DETAIL : string := "no-op; environment already current".

Definition ABANDONED_DETAIL : string :=
  "controller stopped after execution began; lease expired before recovery".

(** How an execution is authorized. *)
Inductive Authorization := SignedBy (approval : string) | Development (reason : string).

Inductive reconcile_effect : Type → Type :=
(** [PlanQueries.require_environment_indexes_match_payloads]. *)
| CheckIndexes : reconcile_effect (result unit failure)
(** [PlanQueries.load_for_environment], oldest first. *)
| LoadPlans (statuses : list PlanState) (has_steps : option bool) :
    reconcile_effect (result (list Plan) failure)
(** [PlanQueries.executable_batch_for_environment]. *)
| LoadBatch (statuses : list PlanState) (offset : Z) : reconcile_effect (result (list Plan) failure)
(** [PlanQueries.load_oldest_for_environment]. *)
| LoadOldest (statuses : list PlanState) : reconcile_effect (result (option Plan) failure)
(** [plan::transition] of a plan; with an observation, under its id. *)
| SetPlan (p : Plan) (state : PlanState) (detail : string) (observation : option string) :
    reconcile_effect (result unit failure)
(** [apply::environment_lease_status]: whether an owner is known. *)
| LeaseOwned : reconcile_effect (result bool failure)
(** [preview::is_terminal_residue]. *)
| TerminalResidue : reconcile_effect (result bool failure)
(** [PlanCreation.create_for_reconcile]. *)
| CreatePlan : reconcile_effect (result Plan failure)
(** [DeliveryHolds.active_for_plan]. *)
| ActiveHold (p : Plan) : reconcile_effect (result (option (DeliveryHold * HoldScope)) failure)
(** [ctx.get] of the plan's environment. *)
| ReadEnvironmentOf (p : Plan) : reconcile_effect (result (option Object) failure)
(** [ExecutionAdmission.classify_candidate]. *)
| Classify (p : Plan) : reconcile_effect (result CandidateAdmission failure)
(** [environment::environment]. *)
| ReadEnvironment : reconcile_effect (result Object failure)
(** [ApprovalPolicy.delivery_signals_for_plan]. *)
| Signals (p : Plan) : reconcile_effect (result DeliverySignals failure)
(** [Criticality.effective_for_targets]. *)
| TargetsCriticality (products : list string) :
    reconcile_effect (result (option CriticalityLevel) failure)
(** [ApprovalPolicy.resolve_auto_envelope]. *)
| ResolveEnvelope (environment : Object) (p : Plan) (skip_gates : bool) (signals : DeliverySignals)
    (criticality : option CriticalityLevel) : reconcile_effect (result AutoEnvelope failure)
(** [PlanExecution.execute_with_options]. *)
| ExecutePlan (plan_id : string) (skip_gates : bool) (auth : Authorization) :
    reconcile_effect (result (list Outcome) failure).

Notation reconcile_prog A := (prog reconcile_effect (result A failure)).

Record Policy := {
  policy_skip_gates : bool; unapproved_development_reason : option string;
  (** [approval_directory] and [approval_trust_roots] are both configured. *)
  approval_configured : bool
}.

Record Request := {
  request_environment : string; runtime_managed : bool; request_policy : Policy
}.

(** ** Selection *)

(** [held_candidate], of the environment's object. *)
Definition failed_target_holds (o : Object) (p : Plan) (s : Step) : bool :=
  bool_decide (properties o !! ("failed_target." +:+ step_product s) = Some (step_release_id s))
  && is_none_or (properties o !! ("failed_target_at." +:+ step_product s) ≫= parse_i64)
       (λ at_ms, created_at p <=? at_ms).

Definition held_candidate (environment : option Object) (p : Plan) : bool :=
  match environment with
  | Some o => existsb (failed_target_holds o p) (steps p)
  | None => false
  end.

Definition ask_held_candidate (p : Plan) : reconcile_prog bool :=
  do? o := perform (ReadEnvironmentOf p) in Ret (Ok (held_candidate o p)).

Definition held (p : Plan) : reconcile_prog (option EnvironmentStatus) :=
  do? found := perform (ActiveHold p) in
  Ret (Ok ((λ '(hold, scope), StatusHeld (plan_id_of p) (length (steps p)) (reason hold) (scope_key scope))
           <$> found)).

Definition awaiting_runtime (p : Plan) : EnvironmentStatus :=
  StatusAwaitingRuntime (plan_id_of p) (length (steps p)).

(** [retire_empty_executable_plans]. *)
Definition retire_empty_executable_plans : reconcile_prog unit :=
  do? found := perform (LoadPlans [Computed; Running] (Some false)) in
  each (λ _ p,
    if negb (steps_empty p) then
      Ret (Err (OtherFailure "has_steps index selected an executable plan for empty retirement"))
    else
      do? _ := perform (SetPlan p Succeeded NO_OP_STATUS_DETAIL None) in Ret (Ok (tt, false))) tt found.

(** [first_admissible_in]. *)
Definition consider (maintenance_blocked_only : bool) (_ : option Plan) (p : Plan) :
    reconcile_prog (option Plan * bool) :=
  do? is_held := ask_held_candidate p in
  if is_held : bool then Ret (Ok (None, false))
  else if steps_empty p then
    Ret (Err (OtherFailure "has_steps index selected an executable plan without steps"))
  else if maintenance_blocked_only && negb (maintenance_blocked p) then Ret (Ok (None, false))
  else
    do? admission := perform (Classify p) in
    Ret (Ok (match admission with
             | Admissible => (Some p, true)
             | Superseded => (None, false)
             end)).

Definition first_admissible_in (maintenance_blocked_only : bool) (candidates : list Plan) :
    reconcile_prog (option Plan) :=
  each (consider maintenance_blocked_only) None candidates.

(** [first_admissible_executable]: an embedded store is read in windows. *)
Fixpoint walk_batches (fuel : nat) (statuses : list PlanState) (maintenance_blocked_only : bool)
    (offset : Z) : reconcile_prog (option Plan) :=
  match fuel with
  | O => Ret (Err (OtherFailure "out of fuel"))
  | S fuel =>
    do? batch := perform (LoadBatch statuses offset) in
    if bool_decide (batch = []) then Ret (Ok None)
    else
      do? found := first_admissible_in maintenance_blocked_only batch in
      match found with
      | Some p => Ret (Ok (Some p))
      | None =>
        if Z.of_nat (length batch) <? EXECUTABLE_ADMISSION_BATCH then Ret (Ok None)
        else if u32_max <? offset + EXECUTABLE_ADMISSION_BATCH then
          Ret (Err (OtherFailure "executable admission offset overflowed"))
        else walk_batches fuel statuses maintenance_blocked_only (offset + EXECUTABLE_ADMISSION_BATCH)
      end
  end.

Definition first_admissible_executable (embedded : bool) (fuel : nat) (statuses : list PlanState)
    (maintenance_blocked_only : bool) : reconcile_prog (option Plan) :=
  if embedded then walk_batches fuel statuses maintenance_blocked_only 0
  else
    do? candidates := perform (LoadPlans statuses (Some true)) in
    first_admissible_in maintenance_blocked_only candidates.

(** [select_plan]. *)
Definition select_plan (embedded : bool) (fuel : nat) (approval_required : bool) : reconcile_prog Plan :=
  if negb approval_required then perform CreatePlan
  else
    do? computed := first_admissible_executable embedded fuel [Computed] false in
    match computed with
    | Some p => Ret (Ok p)
    | None =>
      do? blocked := first_admissible_executable embedded fuel [Blocked] true in
      match blocked with
      | Some p => Ret (Ok p)
      | None => perform CreatePlan
      end
    end.

(** ** Recovery and execution *)

(** [recover_or_detect_active_plan]: each abandoned plan fails with an
    observation of its recovery. *)
Definition orphan_recovery_id (p : Plan) : string :=
  "tenkai:plan:" +:+ plan_id_of p +:+ ":orphan_recovery".

Definition recover_or_detect_active_plan : reconcile_prog bool :=
  do? running := perform (LoadPlans [Running] None) in
  if bool_decide (running = []) then Ret (Ok false)
  else
    do? owned := perform LeaseOwned in
    if owned : bool then Ret (Ok true)
    else
      do? _ := each (λ _ p,
                   do? _ := perform (SetPlan p Failed ABANDONED_DETAIL (Some (orphan_recovery_id p))) in
                   Ret (Ok (tt, false)))
                 tt running in
      Ret (Ok false).

(** The first outcome that is not a success, as the loop of
    [execute_authorized] finds it. *)
Fixpoint first_failed (outcomes : list Outcome) : result (option Outcome) failure :=
  match outcomes with
  | [] => Ok None
  | o :: rest =>
    match StepOutcomeStatus_parse (outcome_status o) with
    | None => Err (OtherFailure "unknown step outcome")
    | Some OutcomeSucceeded => first_failed rest
    | Some _ => Ok (Some o)
    end
  end.

(** [execute_authorized]. *)
Definition execute_authorized (p : Plan) (skip_gates : bool) (auth : Authorization) :
    reconcile_prog EnvironmentStatus :=
  do? outcomes := perform (ExecutePlan (plan_id_of p) skip_gates auth) in
  do? failed := Ret (first_failed outcomes) in
  Ret (match failed with
       | Some o => Err (OtherFailure (outcome_detail o))
       | None => Ok (StatusApplied (plan_id_of p) (length (steps p)))
       end).

(** [execute]. *)
Definition execute (r : Request) (p : Plan) (approval_required : bool) : reconcile_prog EnvironmentStatus :=
  let policy := request_policy r in
  if approval_required then
    let awaiting := StatusAwaitingApproval (plan_id_of p) (length (steps p)) in
    if negb (approval_configured policy) then Ret (Ok awaiting)
    else
      do? environment := perform ReadEnvironment in
      do? signals := perform (Signals p) in
      do? criticality := perform (TargetsCriticality (step_product <$> steps p)) in
      do? envelope := perform (ResolveEnvelope environment p (policy_skip_gates policy) signals
                                 criticality) in
      match envelope with
      | NeedsHuman => Ret (Ok awaiting)
      | Signed path _ => execute_authorized p (policy_skip_gates policy) (SignedBy path)
      end
  else
    match unapproved_development_reason policy with
    | Some reason => execute_authorized p (policy_skip_gates policy) (Development reason)
    | None => Ret (Err (OtherFailure "authorization was classified as a development bypass"))
    end.

(** ** The lifecycle *)

(** [reconcile_runtime_managed]. *)
Definition runtime_candidate (_ : option Plan) (p : Plan) : reconcile_prog (option Plan * bool) :=
  if bool_decide (plan_state p = Running) then Ret (Ok (Some p, true))
  else
    do? is_held := ask_held_candidate p in
    Ret (Ok (if is_held : bool then (None, false) else (Some p, true))).

Definition queued_for_runtime : reconcile_prog EnvironmentStatus :=
  do? waiting := do? candidates := perform (LoadPlans [Computed; Running] (Some true)) in
                 each runtime_candidate None candidates in
  match waiting with
  | Some p => Ret (Ok (awaiting_runtime p))
  | None =>
    do? residue := perform TerminalResidue in
    if residue : bool then Ret (Ok StatusCurrent)
    else
      do? p := perform CreatePlan in
      if steps_empty p then Ret (Ok StatusCurrent)
      else do? h := held p in Ret (Ok (default (awaiting_runtime p) h))
  end.

Definition reconcile_runtime_managed : reconcile_prog EnvironmentStatus :=
  do? _ := perform CheckIndexes in
  do? _ := retire_empty_executable_plans in
  do? oldest := perform (LoadOldest [Computed; Running]) in
  match oldest with
  | None => queued_for_runtime
  | Some p =>
    if bool_decide (plan_state p = Running) then Ret (Ok (awaiting_runtime p))
    else
      do? is_held := ask_held_candidate p in
      if is_held : bool then queued_for_runtime
      else if bool_decide (plan_state p = Computed) then
        do? h := held p in Ret (Ok (default (awaiting_runtime p) h))
      else Ret (Ok (awaiting_runtime p))
  end.

(** [reconcile]. *)
Definition approval_is_required (embedded : bool) (r : Request) : bool :=
  negb (is_some_b (unapproved_development_reason (request_policy r)))
  || negb (bool_decide (request_environment r = "local")) || negb embedded.

Definition reconcile (embedded : bool) (fuel : nat) (r : Request) : reconcile_prog EnvironmentStatus :=
  if runtime_managed r then reconcile_runtime_managed
  else
    do? _ := perform CheckIndexes in
    do? _ := retire_empty_executable_plans in
    do? active := recover_or_detect_active_plan in
    if active : bool then Ret (Ok StatusBusy)
    else
      do? residue := perform TerminalResidue in
      if residue : bool then Ret (Ok StatusCurrent)
      else
        let required := approval_is_required embedded r in
        do? p := select_plan embedded fuel required in
        if steps_empty p then Ret (Ok StatusCurrent)
        else
          do? h := held p in
          match h with
          | Some status => Ret (Ok status)
          | None => execute r p required
          end.

(** ** What a tick may do *)

(** What the tick has learnt and done, the latest first. *)
Inductive fact :=
| Found (running : list Plan)     (** the running plans it found *)
| LeaseFree                       (** no owner of the environment's lease *)
| Ended (p : Plan)                (** an abandoned plan it failed *)
| NoResidue
| Created (p : Plan)
| SeenFor (p : Plan) (environment : option Object)  (** the environment read for a candidate *)
| FoundAdmissible (p : Plan)
| NotPaused (p : Plan)            (** no delivery hold *)
| Approved (p : Plan) (path : string)
| Executed.

Definition learnt {X} (e : reconcile_effect X) : X → list fact :=
  match e in reconcile_effect X return X → list fact with
  | LoadPlans [Running] None => λ r, match r with Ok l => [Found l] | Err _ => [] end
  | LeaseOwned => λ r, match r with Ok false => [LeaseFree] | _ => [] end
  | SetPlan p Failed _ _ => λ r, match r with Ok _ => [Ended p] | Err _ => [] end
  | TerminalResidue => λ r, match r with Ok false => [NoResidue] | _ => [] end
  | CreatePlan => λ r, match r with Ok p => [Created p] | Err _ => [] end
  | ReadEnvironmentOf p => λ r,
    match r with Ok o => [SeenFor p o] | Err _ => [] end
  | Classify p => λ r, match r with Ok Admissible => [FoundAdmissible p] | _ => [] end
  | ActiveHold p => λ r, match r with Ok None => [NotPaused p] | _ => [] end
  | ResolveEnvelope _ p _ _ _ => λ r, match r with Ok (Signed path _) => [Approved p path] | _ => [] end
  | ExecutePlan _ _ _ => λ _, [Executed]
  | _ => λ _, []
  end.

Section Allowed.
Context (embedded : bool) (r : Request).

(** Nothing else runs: no plan was found running, or those found were
    abandoned and have been failed. *)
Definition none_running (w : list fact) : Prop :=
  ∃ l, Found l ∈ w ∧ ∀ p, p ∈ l → LeaseFree ∈ w ∧ Ended p ∈ w.

(** No step of [p] deploys the release that [environment] records under the
    step's product as failed, unless the plan was made after the failure. *)
Definition no_failed_target (environment : option Object) (p : Plan) : Prop :=
  ∀ o s, environment = Some o → s ∈ steps p →
    properties o !! ("failed_target." +:+ step_product s) = Some (step_release_id s) →
    ∃ raw at_ms, properties o !! ("failed_target_at." +:+ step_product s) = Some raw
      ∧ parse_i64 raw = Some at_ms ∧ at_ms < created_at p.

(** The facts a plan chosen from the queue rests on. *)
Definition picked (w : list fact) (p : Plan) : Prop :=
  (∃ environment, SeenFor p environment ∈ w ∧ no_failed_target environment p)
  ∧ FoundAdmissible p ∈ w.

(** How the plan came to be chosen. *)
Definition chosen (w : list fact) (p : Plan) : Prop := Created p ∈ w ∨ picked w p.

Definition authorized (w : list fact) (p : Plan) (auth : Authorization) : Prop :=
  match auth with
  | SignedBy path => Approved p path ∈ w
  | Development reason =>
    unapproved_development_reason (request_policy r) = Some reason
    ∧ request_environment r = "local" ∧ embedded = true ∧ Created p ∈ w
  end.

Definition may_execute (w : list fact) (plan_id : string) (skip : bool) (auth : Authorization) : Prop :=
  runtime_managed r = false ∧ skip = policy_skip_gates (request_policy r) ∧ Executed ∉ w
  ∧ none_running w ∧ NoResidue ∈ w
  ∧ ∃ p, plan_id_of p = plan_id ∧ steps_empty p = false ∧ chosen w p ∧ NotPaused p ∈ w
         ∧ authorized w p auth.

Definition rec_allowed {X} (e : reconcile_effect X) (w : list fact) : Prop :=
  match e with
  | ExecutePlan plan_id skip auth => may_execute w plan_id skip auth
  | SetPlan p Failed _ _ => LeaseFree ∈ w ∧ ∃ l, Found l ∈ w ∧ p ∈ l
  | SetPlan p state _ _ => state = Succeeded ∧ steps_empty p = true
  | _ => True
  end.

Definition on_tick : Semantics reconcile_effect (list fact) :=
  {| after X e x w := learnt e x ++ w; allowed_in := @rec_allowed |}.
End Allowed.

Section TickProofs.
Context (embedded : bool) (r : Request).
Notation S := (on_tick embedded r).

(** Facts are only added, and nothing is executed. *)
Definition grows (w w' : list fact) : Prop := w ⊆ w' ∧ (Executed ∉ w → Executed ∉ w').

Lemma grows_refl w : grows w w.
Proof. by split. Qed.

Lemma grows_trans w1 w2 w3 : grows w1 w2 → grows w2 w3 → grows w1 w3.
Proof. intros [H1 K1] [H2 K2]. split; [set_solver|auto]. Qed.

Lemma grows_app l w : Executed ∉ l → grows w (l ++ w).
Proof. intros Hl. split; [set_solver|]. rewrite elem_of_app. tauto. Qed.

(** What a program establishes, from any facts on. *)
Definition establishes {A} (p : reconcile_prog A) (Q : list fact → A → Prop) (w : list fact) : Prop :=
  wp S p (λ res w', grows w w' ∧ match res with Ok a => Q w' a | Err _ => True end) w.

Lemma establishes_ret {A} (res : result A failure) Q w :
  match res with Ok a => Q w a | Err _ => True end → establishes (Ret res) Q w.
Proof. split; [apply grows_refl|done]. Qed.

Lemma establishes_try {A B} (p : reconcile_prog A) (f : A → reconcile_prog B) Q Q' w :
  establishes p Q w → (∀ a w', grows w w' → Q w' a → establishes (f a) Q' w') →
  establishes (try_bind p f) Q' w.
Proof.
  intros Hp Hf. apply wp_try. eapply wp_mono; [exact Hp|]. intros [a|e] w' [Hg HQ]; [|done].
  eapply wp_mono; [by apply Hf|]. intros res w'' [Hg' HQ']. split; [by eapply grows_trans|done].
Qed.

Lemma establishes_perform {A} (e : reconcile_effect (result A failure)) w Q :
  rec_allowed embedded r e w → (∀ x, Executed ∉ learnt e x) →
  (∀ a, Q (learnt e (Ok a) ++ w) a) → establishes (perform e) Q w.
Proof.
  intros Ha He HQ. split; [exact Ha|]. intros x. split; [by apply grows_app|].
  destruct x as [a|]; [apply HQ|done].
Qed.

(** A loop: what it has established so far stays true as facts are added. *)
Lemma establishes_each {A T} (body : T → A → reconcile_prog (T * bool)) (I : list fact → list A → T → Prop)
    (Q : list fact → T → Prop) s l w :
  I w l s →
  (∀ s a l w, I w (a :: l) s → establishes (body s a) (λ w' '(s', stop), if stop : bool then Q w' s' else I w' l s') w) →
  (∀ s w, I w [] s → Q w s) →
  establishes (each body s l) Q w.
Proof.
  intros HI Hbody Hend. revert s w HI. induction l as [|a l IH]; intros s w HI; simpl.
  { apply establishes_ret. by apply Hend. }
  eapply establishes_try; [by apply Hbody|]. intros [s' []] w' Hg H; [by apply establishes_ret|].
  by apply IH.
Qed.

Ltac nothing_executed := intros [?|?]; simpl; repeat case_match; set_solver.

Lemma retire_grows w : establishes retire_empty_executable_plans (λ _ _, True) w.
Proof.
  eapply establishes_try with (Q := λ _ _, True); [by apply establishes_perform; [|nothing_executed|]|].
  intros l w' _ _. apply establishes_each with (I := λ _ _ _, True); [done| |done].
  intros [] p l' w1 _. destruct (steps_empty p) eqn:He; simpl; [|by apply establishes_ret].
  eapply establishes_try with (Q := λ _ _, True); [|by intros; apply establishes_ret].
  by apply establishes_perform; [|nothing_executed|].
Qed.

Lemma recover_none_running w :
  establishes recover_or_detect_active_plan (λ w' active, active = false → none_running w') w.
Proof.
  eapply establishes_try with (Q := λ w' l, Found l ∈ w').
  { apply establishes_perform; [done|nothing_executed|]. intros l. left. }
  intros l w1 _ Hl. case_bool_decide as Hn.
  { apply establishes_ret. intros _. exists l. split; [done|]. subst l. intros p Hp. by apply elem_of_nil in Hp. }
  eapply establishes_try with (Q := λ w' b, Found l ∈ w' ∧ (b = false → LeaseFree ∈ w')).
  { apply establishes_perform; [done|nothing_executed|]. intros []; simpl; set_solver. }
  intros [] w2 _ [Hl2 Hfree]; [by apply establishes_ret|]. specialize (Hfree eq_refl).
  eapply establishes_try with
    (Q := λ w' _, Found l ∈ w' ∧ LeaseFree ∈ w' ∧ ∀ p, p ∈ l → Ended p ∈ w').
  - apply establishes_each with
      (I := λ w' rest _, Found l ∈ w' ∧ LeaseFree ∈ w' ∧ rest ⊆ l ∧ ∀ p, p ∈ l → Ended p ∈ w' ∨ p ∈ rest).
    + split_and!; [done..|]. by right.
    + intros [] p rest w3 (HF & HL & Hsub & Hend).
      eapply establishes_try with (Q := λ w' _, Found l ∈ w' ∧ LeaseFree ∈ w'
        ∧ ∀ q, q ∈ l → Ended q ∈ w' ∨ q ∈ rest).
      * apply establishes_perform; [|nothing_executed|].
        { split; [done|]. exists l. split; [done|]. apply Hsub. left. }
        intros []. simpl. split_and!; [set_solver..|]. intros q Hq.
        destruct (Hend q Hq) as [|[->|]%elem_of_cons]; set_solver.
      * intros [] w4 _ (HF4 & HL4 & Hend4). apply establishes_ret. split_and!; [done..|set_solver|done].
    + intros [] w3 (HF & HL & _ & Hend). split_and!; [done..|]. intros p Hp.
      destruct (Hend p Hp) as [|Hp']; [done|by apply elem_of_nil in Hp'].
  - intros [] w3 _ (HF & HL & Hend). apply establishes_ret. intros _. exists l. split; [done|]. auto.
Qed.

Lemma held_candidate_clear environment p :
  held_candidate environment p = false → no_failed_target environment p.
Proof.
  unfold held_candidate. intros Hh o s -> Hs Hf.
  assert (Hh' : failed_target_holds o p s = false).
  { destruct (failed_target_holds o p s) eqn:Hy; [|done]. exfalso.
    assert (existsb (failed_target_holds o p) (steps p) = true) by (apply existsb_elem; eauto).
    congruence. }
  clear Hh. rename Hh' into Hh. unfold failed_target_holds in Hh. rewrite (bool_decide_eq_true_2 _ Hf) in Hh.
  simpl in Hh. destruct (properties o !! ("failed_target_at." +:+ step_product s)) as [raw|]; [|done].
  simpl in Hh. destruct (parse_i64 raw) as [at_ms|] eqn:Hp; [|done]. simpl in Hh.
  apply Z.leb_gt in Hh. by exists raw, at_ms.
Qed.

(** The environment read for [p] shows no failed target of it. *)
Definition clear (w : list fact) (p : Plan) : Prop :=
  ∃ environment, SeenFor p environment ∈ w ∧ no_failed_target environment p.

Lemma clear_more w w' p : w ⊆ w' → clear w p → clear w' p.
Proof. intros Hw (o & Ho & Hc). exists o. split; [by apply Hw|done]. Qed.

Lemma chosen_more w w' p : w ⊆ w' → chosen w p → chosen w' p.
Proof.
  intros Hw [Hc|[Hc Ha]]; [left; by apply Hw|right]. split; [by eapply clear_more|by apply Hw].
Qed.

Lemma ask_clear p w : establishes (ask_held_candidate p) (λ w' b, b = false → clear w' p) w.
Proof.
  eapply establishes_try with (Q := λ w' o, SeenFor p o ∈ w').
  { apply establishes_perform; [done|nothing_executed|]. intros o. left. }
  intros o w' _ Ho. apply establishes_ret. intros Hh. exists o. split; [done|].
  by apply held_candidate_clear.
Qed.

Lemma first_admissible_in_picked b l w :
  establishes (first_admissible_in b l) (λ w' found, ∀ p, found = Some p → picked w' p) w.
Proof.
  apply establishes_each with (I := λ _ _ s, s = None); [done| |by intros s w' ->].
  intros s p rest w1 ->. unfold consider. eapply establishes_try; [apply ask_clear|].
  intros [] w2 _ Hc; [by apply establishes_ret|]. specialize (Hc eq_refl).
  destruct (steps_empty p); [by apply establishes_ret|].
  destruct (b && _); [by apply establishes_ret|].
  eapply establishes_try with (Q := λ w' a, clear w' p ∧ (a = Admissible → FoundAdmissible p ∈ w')).
  { apply establishes_perform; [done|nothing_executed|].
    intros []; simpl; (split; [by eapply clear_more; [|exact Hc]; set_solver|set_solver]). }
  intros [] w3 _ [Hc3 Ha]; apply establishes_ret; [|done]. intros q [= <-]. split; [done|by apply Ha].
Qed.

Lemma walk_batches_picked fuel statuses b offset w :
  establishes (walk_batches fuel statuses b offset) (λ w' found, ∀ p, found = Some p → picked w' p) w.
Proof.
  revert offset w. induction fuel as [|fuel IH]; intros offset w; [by apply establishes_ret|].
  cbn [walk_batches]. eapply establishes_try with (Q := λ _ _, True);
    [by apply establishes_perform; [|nothing_executed|]|].
  intros batch w1 _ _. case_bool_decide; [by apply establishes_ret|].
  eapply establishes_try; [apply first_admissible_in_picked|]. intros [p|] w2 _ Hp; [by apply establishes_ret|].
  destruct (_ <? _); [by apply establishes_ret|]. destruct (_ <? _); [by apply establishes_ret|]. apply IH.
Qed.

Lemma first_admissible_executable_picked fuel statuses b w :
  establishes (first_admissible_executable embedded fuel statuses b)
    (λ w' found, ∀ p, found = Some p → picked w' p) w.
Proof.
  unfold first_admissible_executable. destruct embedded; [apply walk_batches_picked|].
  eapply establishes_try with (Q := λ _ _, True); [|intros l w' _ _; apply first_admissible_in_picked].
  apply establishes_perform; [done| |done]. intros x. destruct statuses as [|[] [|]]; set_solver.
Qed.

Lemma select_plan_chosen fuel required w :
  establishes (select_plan embedded fuel required)
    (λ w' p, chosen w' p ∧ (required = false → Created p ∈ w')) w.
Proof.
  assert (∀ w, establishes (perform CreatePlan) (λ w' p, chosen w' p ∧ (required = false → Created p ∈ w')) w)
    as Hcreate.
  { intros w1. apply establishes_perform; [done|nothing_executed|]. intros p. unfold chosen. set_solver. }
  unfold select_plan. destruct required; [|apply Hcreate]. simpl.
  eapply establishes_try; [apply first_admissible_executable_picked|].
  intros [p|] w1 _ Hp; [apply establishes_ret; split; [right; by apply Hp|done]|].
  eapply establishes_try; [apply first_admissible_executable_picked|].
  intros [p|] w2 _ Hp2; [apply establishes_ret; split; [right; by apply Hp2|done]|apply Hcreate].
Qed.

Lemma held_not_paused p w : establishes (held p) (λ w' h, h = None → NotPaused p ∈ w') w.
Proof.
  eapply establishes_try with (Q := λ w' found, found = None → NotPaused p ∈ w').
  { apply establishes_perform; [done| |].
    - intros [[?|]|]; set_solver.
    - intros [?|]; [done|]. intros _. left. }
  intros [[hold scope]|] w' _ Hp; apply establishes_ret; simpl; [done|]. intros _. by apply Hp.
Qed.

(** Authorization and execution, of a plan that was chosen and is not paused. *)
Lemma execute_allowed p required w :
  runtime_managed r = false → required = approval_is_required embedded r → Executed ∉ w →
  none_running w → NoResidue ∈ w → steps_empty p = false → chosen w p →
  (required = false → Created p ∈ w) → NotPaused p ∈ w →
  wp S (execute r p required) (λ _ _, True) w.
Proof.
  intros Hm Hreq Hx Hn Hres Hs Hc Hcreated Hp.
  assert (∀ auth w', grows w w' → authorized embedded r w' p auth →
    wp S (execute_authorized p (policy_skip_gates (request_policy r)) auth) (λ _ _, True) w') as Hexec.
  { intros auth w' [Hg Hg'] Hauth. unfold execute_authorized. split.
    - split_and!; [done..|auto| |by apply Hg|].
      + destruct Hn as (l & Hl & Hend). exists l. split; [by apply Hg|]. intros q Hq.
        destruct (Hend q Hq). split; by apply Hg.
      + exists p. split_and!; [done..| |by apply Hg|done].
        by eapply chosen_more.
    - intros [outcomes|]; simpl; [|done]. by destruct (first_failed outcomes). }
  unfold execute. destruct required.
  - destruct (negb _); [done|].
    split; [done|]. intros [env|]; [|done]. split; [done|]. intros [signals|]; [|done].
    split; [done|]. intros [criticality|]; [|done]. split; [done|].
    intros [[path written|]|]; [|done..]. apply Hexec; [|left].
    split; [set_solver|]. simpl. set_solver.
  - destruct (unapproved_development_reason (request_policy r)) as [reason|] eqn:Hr; [|done].
    apply Hexec; [apply grows_refl|]. unfold approval_is_required in Hreq. rewrite Hr in Hreq.
    symmetry in Hreq. rewrite !orb_false_iff, !negb_false, bool_decide_eq_true in Hreq.
    destruct Hreq as [[_ Hlocal] Hemb]. simpl. auto.
Qed.

Lemma queued_for_runtime_ok w : wp S queued_for_runtime (λ _ _, True) w.
Proof.
  unfold queued_for_runtime. apply wp_try. eapply wp_mono.
  { eapply (establishes_try _ _ (λ _ _, True) (λ _ _, True)); [by apply establishes_perform; [|nothing_executed|]|].
    intros l w' _ _. apply establishes_each with (I := λ _ _ _, True); [done| |done].
    intros s p rest w1 _. unfold runtime_candidate. case_bool_decide; [by apply establishes_ret|].
    eapply establishes_try; [apply ask_clear|]. by intros [] w2 _ _; apply establishes_ret. }
  intros [[p|]|] w' _; [done| |done]. split; [done|]. intros [[]|]; [done| |done].
  split; [done|]. intros [p|]; [|done]. simpl. destruct (steps_empty p); [done|].
  split; [done|]. by intros [[[hold scope]|]|].
Qed.

Lemma runtime_managed_ok w : wp S reconcile_runtime_managed (λ _ _, True) w.
Proof.
  split; [done|]. intros [u|]; [|done]. apply wp_try. eapply wp_mono; [apply retire_grows|].
  intros [[]|] w1 _; [|done]. split; [done|]. intros [[p|]|]; [|apply queued_for_runtime_ok|done].
  simpl. case_bool_decide; [done|]. apply wp_try. eapply wp_mono; [apply ask_clear|].
  intros [[]|] w2 _; [apply queued_for_runtime_ok| |done]. case_bool_decide; [|done].
  split; [done|]. by intros [[[hold scope]|]|].
Qed.

Lemma reconcile_allowed fuel w :
  Executed ∉ w → wp S (reconcile embedded fuel r) (λ _ _, True) w.
Proof.
  intros Hx. unfold reconcile. destruct (runtime_managed r) eqn:Hm; [apply runtime_managed_ok|].
  split; [done|]. intros [u|]; [|done]. apply wp_try. eapply wp_mono; [apply retire_grows|].
  intros [[]|] w1 [Hg1 _]; [|done]. apply wp_try. eapply wp_mono; [apply recover_none_running|].
  intros [[]|] w2 [Hg2 Hn]; [done| |done]. specialize (Hn eq_refl).
  split; [done|]. intros [[]|]; [done| |done]. simpl.
  apply wp_try. eapply wp_mono; [apply select_plan_chosen|]. intros [p|] w3 [Hg3 Hc]; [destruct Hc as [Hc Hcreated]|done].
  destruct (steps_empty p) eqn:Hs; [done|]. apply wp_try. eapply wp_mono; [apply held_not_paused|].
  intros [[status|]|] w4 [Hg4 Hp]; [done| |done]. specialize (Hp eq_refl).
  assert (grows (NoResidue :: w2) w4) as [Hsub Hex] by (by eapply grows_trans).
  assert (grows w3 w4) as [Hsub3 _] by done.
  apply execute_allowed; try done.
  - apply Hex. rewrite not_elem_of_cons. split; [done|]. apply Hg2, Hg1, Hx.
  - destruct Hn as (l & Hl & Hend). exists l. split; [set_solver|]. intros q Hq.
    destruct (Hend q Hq). set_solver.
  - set_solver.
  - by eapply chosen_more.
  - intros Hreq. specialize (Hcreated Hreq). set_solver.
Qed.
End TickProofs.

(** C8: a tick runs at most one plan of an environment, and only a plan it may
    run: the environment is not left to an enrolled runtime and is no expired
    preview; no other plan runs there, or those found running were abandoned,
    the lease having no owner, and have been failed first; the plan has steps,
    no delivery hold pauses it, and it was made in this tick or is admissible
    and no step of it deploys the release recorded as the failed target under
    the step's product (the name the code looks under, not the instance's),
    unless the plan was made after that failure; and it is authorized by the
    envelope the live policy resolved for it, or by the development bypass of
    the embedded local environment.  A plan is only failed as abandoned while
    the lease is free, and only an empty plan is retired. *)
Theorem reconcile_runs_only_selected embedded fuel r {X} (e : reconcile_effect X) w :
  reaches (on_tick embedded r) e (reconcile embedded fuel r) [] w →
  rec_allowed embedded r e w.
Proof.
  intros Hr. refine (wp_reaches _ e _ (λ _ _, True) _ _ _ Hr). apply reconcile_allowed.
  apply not_elem_of_nil.
Qed.

(** ** Reading in windows *)

Section Paging.
(** Answers that page the plans [l]: what [PlanQueries.executable_batch_window]
    shows of the embedded store. *)
Context (h : answers reconcile_effect) (statuses : list PlanState) (l : list Plan).
Hypothesis answers_all : h _ (LoadPlans statuses (Some true)) = Ok l.
Hypothesis answers_windows : ∀ offset, 0 ≤ offset →
  h _ (LoadBatch statuses offset)
  = Ok (take (Z.to_nat EXECUTABLE_ADMISSION_BATCH) (drop (Z.to_nat offset) l)).

Definition observed : Semantics reconcile_effect unit :=
  {| after _ _ _ w := w; allowed_in _ _ _ := True |}.

Definition result_of {A} (p : reconcile_prog A) : result A failure := (run observed h p tt).1.





End Paging.

(** ** A restart, and a queue of ten plans *)
Module ReconcilerExamples.
Definition step : Step := {|
  step_id := "s"; step_order := 0; step_product := "api"; step_instance := "api-eu";
  step_action := Upgrade; step_from := Some "1.0.0"; step_to := "2.0.0";
  step_release_id := release_id "api" "2.0.0"; step_release_digest := "";
  step_artifact_digest := ""; step_workdir := ""; step_restore := None; step_host := None |}.

Definition plan (id : string) (state : PlanState) : Plan := {|
  format_version := 1; plan_id_of := id; content_id := ""; plan_environment := "local";
  created_at := 7; inputs := []; steps := [step]; plan_state := state;
  gates_skipped := None; status_detail := ""; maintenance_blocked := false;
  prior_warnings := []; recalled_recovery_reason := None; credential_runway := None |}.

Definition request : Request := {|
  request_environment := "local"; runtime_managed := false;
  request_policy := {| policy_skip_gates := false; unapproved_development_reason := Some "laptop";
                       approval_configured := false |} |}.

(** Only the last of ten queued plans is admissible. *)
Definition queue : list Plan := replicate 9 (plan "old" Computed) ++ [plan "next" Computed].

(** A controller left one plan running; its lease has expired. *)
Definition answer : answers reconcile_effect := λ X e,
  match e in reconcile_effect X return X with
  | CheckIndexes => Ok tt
  | LoadPlans [Running] None => Ok [plan "stuck" Running]
  | LoadPlans _ (Some true) => Ok queue
  | LoadPlans _ _ => Ok []
  | LoadBatch _ offset => Ok (take 8 (drop (Z.to_nat offset) queue))
  | LoadOldest _ => Ok None
  | SetPlan _ _ _ _ => Ok tt
  | LeaseOwned => Ok false
  | TerminalResidue => Ok false
  | CreatePlan => Ok (plan "new" Computed)
  | ActiveHold _ => Ok None
  | ReadEnvironmentOf _ => Ok None
  | Classify p => Ok (if decide (plan_id_of p = "next") then Admissible else Superseded)
  | ReadEnvironment => Err (OtherFailure "")
  | Signals _ => Ok no_signals
  | TargetsCriticality _ => Ok None
  | ResolveEnvelope _ _ _ _ _ => Ok NeedsHuman
  | ExecutePlan _ _ _ => Ok []
  end.

Definition executing : list fact :=
  [NotPaused (plan "new" Computed); Created (plan "new" Computed); NoResidue;
   Ended (plan "stuck" Running); LeaseFree; Found [plan "stuck" Running]].

Lemma reconcile_runs_only_selected_witness :
  may_execute true request executing "new" false (Development "laptop").
Proof.
  refine (reconcile_runs_only_selected true 1 request
            (ExecutePlan "new" false (Development "laptop")) executing _).
  do 8 (refine (reaches_answer _ answer _ _ _ _ _ _)). apply reaches_here.
Defined.


Example the_tenth_is_found :
  result_of answer (first_admissible_executable true 11 [Computed] false)
  = Ok (Some (plan "next" Computed)).
Proof. vm_compute. reflexivity. Qed.

(** A failure is recorded under the step's instance; the hold looks under its
    product, so a plan for a named instance is not held by its own failure. *)
Definition failed_environment : Object := {|
  object_id := env_id "local"; object_kind := KIND_ENVIRONMENT; object_name := "local";
  object_namespace := NS; external_id := "";
  properties := {["failed_target." +:+ step_instance_name step := release_id "api" "2.0.0";
                  "failed_target_at." +:+ step_instance_name step := "9"]};
  created := 0; updated := 0 |}.

Example named_instance_not_held :
  step_instance_name step = "api-eu"
  ∧ held_candidate (Some failed_environment) (plan "old" Computed) = false.
Proof. vm_compute. done. Qed.
End ReconcilerExamples.
