(* ===== verification/Waves.v ===== *)
(** * Rollout waves

    [wave.rs] and [wave/execution.rs]: an ordered cohort of environments that
    one pinned release is carried through, one environment at a time.  A wave
    is a durable record; every operation loads it under the wave's lease,
    changes it and writes it back under the same fencing token, and runs
    nothing but the plans of [PlanExecution]. *)

From S2P Require Import Prelude RustStr Kinds Facts Compatibility Contracts Plan ObjectStore Leases Approvals HostState Catalog DeliveryHolds Criticality ApprovalPolicy Topology Deployments Effects ProductExecution.

(** ** The record *)

Inductive WaveFailPolicy := StopOnFailure | ContinueAfterFailure.

Record ExecutableWaveSpec := {
  spec_name : string; spec_product : string; spec_version : string; spec_channel : string;
  spec_environments : list string; spec_fail_policy : WaveFailPolicy
}.

Inductive WaveStatus :=
| WaveAdmitted | WaveRunning | WaveAwaitingApproval | WaveSucceeded | WaveFailed | WaveStopped
| WaveRollingBack | WaveRolledBack | WaveRecoveryRequired.

Inductive WaveEnvironmentStatus :=
| EnvUnstarted | EnvRunning | EnvAwaitingApproval | EnvSucceeded | EnvFailed | EnvBlocked
| EnvSkipped | EnvRolledBack.

Record WaveEnvironmentRecord := {
  member_environment : string; member_order : Z; member_status : WaveEnvironmentStatus;
  member_plan_id : option string; member_plan_digest : option string;
  gate_result : option string; health_result : option string; terminal_outcome : option string;
  member_generation : option Z; member_detail : string
}.

Record WaveRecord := {
  wave_format_version : Z; wave_name : string; wave_record_id : string; identity_digest : string;
  wave_product : string; wave_version : string; wave_channel : string;
  wave_release_id : string; wave_release_digest : string; wave_artifact_digest : string;
  wave_fail_policy : WaveFailPolicy; wave_status : WaveStatus;
  wave_environments : list WaveEnvironmentRecord; current_order : Z;
  operator_decision : option string; wave_created_at : Z; wave_updated_at : Z
}.

#[export] Instance WaveFailPolicy_eq : EqDecision WaveFailPolicy.
Proof. solve_decision. Defined.
#[export] Instance WaveStatus_eq : EqDecision WaveStatus.
Proof. solve_decision. Defined.
#[export] Instance WaveEnvironmentStatus_eq : EqDecision WaveEnvironmentStatus.
Proof. solve_decision. Defined.
#[export] Instance WaveEnvironmentRecord_eq : EqDecision WaveEnvironmentRecord.
Proof. solve_decision. Defined.
#[export] Instance WaveRecord_eq : EqDecision WaveRecord.
Proof. solve_decision. Defined.

Definition WAVE_FORMAT_VERSION : Z := 1.
Definition WAVE_LEASE_MS : Z := 2 * 60 * 60 * 1000.
Definition KIND_WAVE : string := "tenkai.wave".
Definition wave_id (name : string) : string := "tenkai:wave:" +:+ name.

Definition WaveStatus_str (s : WaveStatus) : string :=
  match s with
  | WaveAdmitted => "admitted" | WaveRunning => "running"
  | WaveAwaitingApproval => "awaiting_approval" | WaveSucceeded => "succeeded"
  | WaveFailed => "failed" | WaveStopped => "stopped" | WaveRollingBack => "rolling_back"
  | WaveRolledBack => "rolled_back" | WaveRecoveryRequired => "recovery_required"
  end.

(** [WaveStatus::is_terminal]. *)
Definition wave_is_terminal (s : WaveStatus) : bool :=
  match s with
  | WaveSucceeded | WaveFailed | WaveRolledBack | WaveRecoveryRequired => true
  | _ => false
  end.

(** [WaveEnvironmentStatus::is_complete]. *)
Definition env_is_complete (s : WaveEnvironmentStatus) : bool :=
  match s with
  | EnvSucceeded | EnvFailed | EnvBlocked | EnvSkipped | EnvRolledBack => true
  | _ => false
  end.

Definition env_failed (s : WaveEnvironmentStatus) : bool :=
  match s with EnvFailed | EnvBlocked => true | _ => false end.

(** *** Updates of a record *)

Definition set_wave (r : WaveRecord) (status : WaveStatus) (members : list WaveEnvironmentRecord)
    (order : Z) (decision : option string) (updated : Z) : WaveRecord := {|
  wave_format_version := wave_format_version r; wave_name := wave_name r;
  wave_record_id := wave_record_id r; identity_digest := identity_digest r;
  wave_product := wave_product r; wave_version := wave_version r; wave_channel := wave_channel r;
  wave_release_id := wave_release_id r; wave_release_digest := wave_release_digest r;
  wave_artifact_digest := wave_artifact_digest r; wave_fail_policy := wave_fail_policy r;
  wave_status := status; wave_environments := members; current_order := order;
  operator_decision := decision; wave_created_at := wave_created_at r; wave_updated_at := updated |}.

Definition with_status (r : WaveRecord) (s : WaveStatus) : WaveRecord :=
  set_wave r s (wave_environments r) (current_order r) (operator_decision r) (wave_updated_at r).
Definition with_decision (r : WaveRecord) (d : string) : WaveRecord :=
  set_wave r (wave_status r) (wave_environments r) (current_order r) (Some d) (wave_updated_at r).
Definition with_members (r : WaveRecord) (l : list WaveEnvironmentRecord) : WaveRecord :=
  set_wave r (wave_status r) l (current_order r) (operator_decision r) (wave_updated_at r).
Definition with_current_order (r : WaveRecord) (o : Z) : WaveRecord :=
  set_wave r (wave_status r) (wave_environments r) o (operator_decision r) (wave_updated_at r).
Definition with_updated (r : WaveRecord) (now : Z) : WaveRecord :=
  set_wave r (wave_status r) (wave_environments r) (current_order r) (operator_decision r) now.

(** [record.environments[index]] changed. *)
Definition at_member (r : WaveRecord) (i : nat) (f : WaveEnvironmentRecord → WaveEnvironmentRecord) :
    WaveRecord := with_members r (alter f i (wave_environments r)).

Definition set_member (m : WaveEnvironmentRecord) (s : WaveEnvironmentStatus) (detail : string) :
    WaveEnvironmentRecord := {|
  member_environment := member_environment m; member_order := member_order m; member_status := s;
  member_plan_id := member_plan_id m; member_plan_digest := member_plan_digest m;
  gate_result := gate_result m; health_result := health_result m;
  terminal_outcome := terminal_outcome m; member_generation := member_generation m;
  member_detail := detail |}.

Definition member_to (s : WaveEnvironmentStatus) (m : WaveEnvironmentRecord) : WaveEnvironmentRecord :=
  set_member m s (member_detail m).
Definition member_because (s : WaveEnvironmentStatus) (detail : string) (m : WaveEnvironmentRecord) :
    WaveEnvironmentRecord := set_member m s detail.
Definition member_detailed (detail : string) (m : WaveEnvironmentRecord) : WaveEnvironmentRecord :=
  set_member m (member_status m) detail.

Definition member_bound (plan digest : string) (s : WaveEnvironmentStatus) (m : WaveEnvironmentRecord) :
    WaveEnvironmentRecord := {|
  member_environment := member_environment m; member_order := member_order m; member_status := s;
  member_plan_id := Some plan; member_plan_digest := Some digest;
  gate_result := gate_result m; health_result := health_result m;
  terminal_outcome := terminal_outcome m; member_generation := member_generation m;
  member_detail := member_detail m |}.

Definition member_outcome (terminal : string) (m : WaveEnvironmentRecord) : WaveEnvironmentRecord := {|
  member_environment := member_environment m; member_order := member_order m;
  member_status := member_status m; member_plan_id := member_plan_id m;
  member_plan_digest := member_plan_digest m; gate_result := gate_result m;
  health_result := health_result m; terminal_outcome := Some terminal;
  member_generation := member_generation m; member_detail := member_detail m |}.

(** *** Specifications *)

(** [ExecutableWaveSpec::validate]. *)
Definition validate_wave_spec (s : ExecutableWaveSpec) : result unit failure :=
  bail_if negb (valid_identifier (spec_name s)) with (OtherFailure "wave name") in
  bail_if negb (valid_identifier (spec_product s)) with (OtherFailure "product") in
  bail_if negb (valid_identifier (spec_version s)) with (OtherFailure "version") in
  bail_if negb (valid_identifier (spec_channel s)) with (OtherFailure "channel") in
  bail_if bool_decide (spec_environments s = []) with (OtherFailure "wave cohort must not be empty") in
  let? _ := try_fold (λ seen environment,
    bail_if negb (valid_identifier environment) with (OtherFailure "environment") in
    bail_if bool_decide (environment ∈ seen)
      with (OtherFailure ("wave cohort contains duplicate environment " +:+ environment)) in
    Ok (environment :: seen)) [] (spec_environments s) in
  Ok tt.

(** ** Evidence *)

Record WaveEvidence := {
  ev_gate : string; ev_health : string; ev_terminal : string;
  ev_status : WaveEnvironmentStatus; ev_detail : string
}.

Definition PASSED : string := "passed_or_not_configured".
Definition NOT_PASSED : string := "failed_or_unknown".

(** One step's outcome; an unknown status is an error. *)
Definition fold_outcome (e : WaveEvidence) (o : Outcome) : result WaveEvidence failure :=
  match StepOutcomeStatus_parse (outcome_status o) with
  | None => Err (OtherFailure "unknown persisted Step outcome status")
  | Some OutcomeBlocked =>
    Ok {| ev_gate := if starts_with "gate " (outcome_detail o) then "blocked" else ev_gate e;
          ev_health := "not_run"; ev_terminal := ev_terminal e; ev_status := EnvBlocked;
          ev_detail := outcome_detail o |}
  | Some OutcomeFailed | Some OutcomeRolledBack =>
    Ok {| ev_gate := ev_gate e; ev_health := NOT_PASSED; ev_terminal := ev_terminal e;
          ev_status := EnvFailed; ev_detail := outcome_detail o |}
  | Some OutcomeSucceeded => Ok e
  end.

(** [evidence_from_outcomes]: the plan's own state decides. *)
Definition evidence_from_outcomes (p : Plan) (outcomes : list Outcome) : result WaveEvidence failure :=
  let? e := try_fold fold_outcome
    {| ev_gate := "satisfied"; ev_health := PASSED; ev_terminal := PlanState_str (plan_state p);
       ev_status := EnvSucceeded; ev_detail := status_detail p |} outcomes in
  match plan_state p with
  | Succeeded =>
    Ok {| ev_gate := ev_gate e; ev_health := ev_health e; ev_terminal := ev_terminal e;
          ev_status := EnvSucceeded; ev_detail := ev_detail e |}
  | Blocked =>
    Ok {| ev_gate := if bool_decide (ev_gate e = "satisfied") then "blocked" else ev_gate e;
          ev_health := "not_run"; ev_terminal := ev_terminal e; ev_status := EnvBlocked;
          ev_detail := ev_detail e |}
  | Failed =>
    Ok {| ev_gate := ev_gate e;
          ev_health := if bool_decide (ev_health e = PASSED) then NOT_PASSED else ev_health e;
          ev_terminal := ev_terminal e; ev_status := EnvFailed; ev_detail := ev_detail e |}
  | Running | Computed => Err (OtherFailure "wave requires terminal evidence")
  end.

Definition member_evidence (e : WaveEvidence) (digest : string) (generation : option Z)
    (m : WaveEnvironmentRecord) : WaveEnvironmentRecord := {|
  member_environment := member_environment m; member_order := member_order m;
  member_status := ev_status e; member_plan_id := member_plan_id m;
  member_plan_digest := Some digest; gate_result := Some (ev_gate e);
  health_result := Some (ev_health e); terminal_outcome := Some (ev_terminal e);
  member_generation := generation; member_detail := ev_detail e |}.

(** ** The state of a wave *)

Definition all_complete (r : WaveRecord) : bool :=
  forallb (λ m, env_is_complete (member_status m)) (wave_environments r).

Definition skip_after (order : Z) (m : WaveEnvironmentRecord) : WaveEnvironmentRecord :=
  if (order <? member_order m) && bool_decide (member_status m = EnvUnstarted)
  then member_because EnvSkipped "skipped after earlier wave failure" m else m.

(** [apply_fail_policy]. *)
Definition apply_fail_policy (r : WaveRecord) (failed_order : Z) : WaveRecord :=
  match wave_fail_policy r with
  | StopOnFailure =>
    with_decision
      (with_status (with_members r (skip_after failed_order <$> wave_environments r)) WaveFailed)
      "stop_on_failure"
  | ContinueAfterFailure => with_status r (if all_complete r then WaveFailed else WaveRunning)
  end.

(** [refresh_wave_status]. *)
Definition refreshed_status (status : WaveStatus) (members : list WaveEnvironmentStatus) : WaveStatus :=
  if bool_decide (status ∈ [WaveStopped; WaveRolledBack; WaveRecoveryRequired]) then status
  else if bool_decide (EnvAwaitingApproval ∈ members) then WaveAwaitingApproval
  else if forallb env_is_complete members then
    if existsb env_failed members then WaveFailed else WaveSucceeded
  else WaveRunning.

Definition refresh_wave_status (r : WaveRecord) : WaveRecord :=
  with_status r (refreshed_status (wave_status r) (member_status <$> wave_environments r)).

(** After evidence of one member: the failure policy, or the status again. *)
Definition after_evidence (r : WaveRecord) (status : WaveEnvironmentStatus) (order : Z) : WaveRecord :=
  if env_failed status then apply_fail_policy r order else refresh_wave_status r.

(** [plan_pins_wave]. *)
Definition plan_pins_wave (p : Plan) (r : WaveRecord) : result unit failure :=
  match find_first (λ i, bool_decide (input_product i = wave_product r)) (inputs p) with
  | None =>
    if existsb (λ s, bool_decide (step_product s = wave_product r)) (steps p) then Ok tt
    else Err (OtherFailure ("plan " +:+ plan_id_of p +:+ " does not pin product"))
  | Some i =>
    bail_if negb (bool_decide (input_release_id i = wave_release_id r))
            || negb (bool_decide (input_release_digest i = wave_release_digest r))
            || negb (bool_decide (input_artifact_digest i = wave_artifact_digest r))
            || negb (bool_decide (input_desired_version i = wave_version r))
            || negb (bool_decide (input_channel i = wave_channel r))
      with (OtherFailure ("plan " +:+ plan_id_of p +:+ " does not pin the wave's release")) in
    bail_if existsb (λ s, negb (bool_decide (step_product s = wave_product r))) (steps p)
      with (OtherFailure ("plan " +:+ plan_id_of p +:+ " also mutates another product")) in
    Ok tt
  end.

Definition has_rollback (p : Plan) : bool :=
  existsb (λ s, bool_decide (step_action s = Rollback)) (steps p).

(** ** Effects *)

Record LeaseView := { view_held : bool; view_owner : option string; view_generation : option Z }.

Inductive wave_auth :=
| WaveSigned (approval_dir trust_roots : string)
| WaveDevelopment (reason : string).

(** What [execute_with_options] is given. *)
Inductive plan_auth := PlanSigned (approval trust_roots : string) | PlanDevelopment (reason : string).

(** A lease an execution refreshes: namespace, name and token. *)
Record HeldLease := { held_namespace : string; held_name : string; held_token : string }.

Definition WAVE_LEASE_NAMESPACE : string := "tenkai/wave-execution".
Definition TOPOLOGY_LEASE_NAMESPACE : string := "tenkai/topology-availability".

Inductive wave_effect : Type → Type :=
| Now : wave_effect Z
(** The wave's lease of the store ([Leases]), for [WAVE_LEASE_MS]. *)
| AcquireWave (name owner : string) : wave_effect (result string failure)
| RefreshWave (name token : string) : wave_effect (result unit failure)
| ReleaseWave (name token : string) : wave_effect (result unit failure)
(** [ctx.guarded_update] under the wave's token. *)
| GuardedUpdate (o : Object) (name token : string) : wave_effect (result unit failure)
(** [require_wave_schema]. *)
| RequireWaveSchema : wave_effect (result unit failure)
| GetObject (id : string) : wave_effect (result (option Object) failure)
(** [ctx.create_once]: [false] is a unique conflict. *)
| CreateOnce (o : Object) : wave_effect (result bool failure)
(** [environment::environment]. *)
| EnvironmentNamed (environment : string) : wave_effect (result Object failure)
(** [ApprovalPolicy.load_live_policy] of the environment. *)
| LivePolicy (environment : Object) : wave_effect (result (option ApprovalPolicy) failure)
(** [Criticality.effective_for_targets]. *)
| EffectiveFor (environment : string) (products : list string) :
    wave_effect (result (option CriticalityLevel) failure)
(** [Catalog.release_is_recalled]. *)
| IsRecalled (release : string) : wave_effect (result bool failure)
(** [catalog::require_deployable_trust]. *)
| DeployableTrust (release : Object) (environment : string) : wave_effect (result unit failure)
(** [plan::inspect_environment]: the subscribed products and channels. *)
| Subscriptions (environment : string) : wave_effect (result (list (string * string)) failure)
(** [inspect_environment_lease]. *)
| InspectLease (environment : string) : wave_effect (result LeaseView failure)
(** [plan::load], [plan::create], [plan::create_from_steps], [plan::rollback_step]. *)
| LoadPlan (id : string) : wave_effect (result Plan failure)
| CreateWavePlan (environment : string) : wave_effect (result Plan failure)
| CreateFromSteps (environment : string) (l : list Step) : wave_effect (result Plan failure)
| RollbackStep (environment product : string) : wave_effect (result Step failure)
(** [Topology.availability_topology] and [Topology.require_availability]. *)
| TopologyOf (release : string) : wave_effect (result (option TopologySection) failure)
| RequireAvailable (environment release : string) : wave_effect (result unit failure)
| AcquireTopology (topology owner : string) : wave_effect (result string failure)
| ReleaseTopology (topology token : string) : wave_effect (result unit failure)
(** Whether the plan's envelope is a file of the approval directory. *)
| ApprovalOnFile (path : string) : wave_effect bool
(** [PlanExecution.execute_with_options], gates not skipped, with the leases
    it keeps refreshed. *)
| RunPlan (plan_id : string) (auth : plan_auth) (leases : list HeldLease) :
    wave_effect (result (list Outcome) failure).

Notation wave_prog A := (prog wave_effect (result A failure)).

(** [serde_json] of a record and of the identity it is digested from. *)
Class WaveJson := {
  wave_json : WaveRecord → string;
  wave_of_json : string → option WaveRecord;
  identity_json : ExecutableWaveSpec → string → string → string → string
}.

Class WaveJsonLaws (J : WaveJson) : Prop := {
  wave_json_roundtrip r : wave_of_json (wave_json r) = Some r
}.

Section Operations.
Context {E : PlanEncoding} {J : WaveJson}.

(** [identity_digest]. *)
Definition wave_identity (s : ExecutableWaveSpec) (release digest artifact : string) : string :=
  sha256_hex (identity_json s release digest artifact).

(** [wave_object]. *)
Definition wave_object (r : WaveRecord) (now : Z) : Object := {|
  object_id := wave_record_id r; object_kind := KIND_WAVE; object_name := wave_name r;
  object_namespace := NS; external_id := "";
  properties := list_to_map [
    ("name", wave_name r); ("identity_digest", identity_digest r); ("product", wave_product r);
    ("version", wave_version r); ("channel", wave_channel r); ("release_id", wave_release_id r);
    ("release_digest", wave_release_digest r); ("artifact_digest", wave_artifact_digest r);
    ("status", WaveStatus_str (wave_status r)); ("record", wave_json r)];
  created := wave_created_at r; updated := now |}.

(** [record_from_object]. *)
Definition record_from_object (o : Object) : result WaveRecord failure :=
  bail_if negb (bool_decide (object_kind o = KIND_WAVE)) with (OtherFailure "object is not a wave record") in
  let? raw := ok_or (properties o !! "record") (OtherFailure "wave is missing its canonical record") in
  let? r := ok_or (wave_of_json raw) (OtherFailure "decoding wave record") in
  bail_if negb (wave_format_version r =? WAVE_FORMAT_VERSION)
    with (OtherFailure "wave has unsupported format version") in
  Ok r.

(** The wave's lease as its holder knows it. *)
Record WaveLease := { wave_lease_name : string; wave_lease_token : string }.

(** [persist]: answers the record with its new time. *)
Definition persist (r : WaveRecord) (lease : WaveLease) : wave_prog WaveRecord :=
  do? _ := perform (RefreshWave (wave_lease_name lease) (wave_lease_token lease)) in
  do now := perform Now in
  let r := with_updated r now in
  do written := perform Now in
  do? _ := perform (GuardedUpdate (wave_object r written) (wave_lease_name lease) (wave_lease_token lease)) in
  Ret (Ok r).

Definition load_wave (name : string) : wave_prog WaveRecord :=
  do? _ := perform RequireWaveSchema in
  if negb (valid_identifier name) then Ret (Err (OtherFailure "wave name"))
  else
    do? found := perform (GetObject (wave_id name)) in
    Ret (let? o := ok_or found (OtherFailure ("wave " +:+ name +:+ " is not registered")) in
         record_from_object o).

(** *** Pins and revalidation *)

Definition nonempty_property (o : Object) (key : string) : option string :=
  match properties o !! key with Some v => if str_is_empty v then None else Some v | None => None end.

(** [resolve_release_pin]: the id and the digests of the wave's release. *)
Definition resolve_release_pin (s : ExecutableWaveSpec) : wave_prog (string * string * string) :=
  let rid := release_id (spec_product s) (spec_version s) in
  do? found := perform (GetObject rid) in
  match found with
  | None => Ret (Err (OtherFailure "release is not published"))
  | Some release =>
    do? recalled := perform (IsRecalled rid) in
    if recalled : bool then Ret (Err (OtherFailure "release is recalled and cannot admit a wave"))
    else
      match nonempty_property release "digest", nonempty_property release "artifact_digest" with
      | None, _ => Ret (Err (OtherFailure "release is missing its manifest digest"))
      | _, None => Ret (Err (OtherFailure "release is missing its artifact digest"))
      | Some digest, Some artifact =>
        do? channel := perform (GetObject (channel_id (spec_product s) (spec_channel s))) in
        match channel with
        | None => Ret (Err (OtherFailure "channel does not exist"))
        | Some c =>
          Ret (bail_if negb (bool_decide (object_kind c = KIND_CHANNEL))
                 with (OtherFailure "channel has conflicting catalog identity") in
               bail_if negb (bool_decide (property c "current_release" = rid))
                 with (OtherFailure "stale channel head") in
               Ok (rid, digest, artifact))
        end
      end
  end.

(** [refuse_continue_after_failure]. *)
Definition refuse_continue_after_failure (environment product : string) : wave_prog unit :=
  do? env := perform (EnvironmentNamed environment) in
  do? policy := perform (LivePolicy env) in
  match policy with
  | None => Ret (Ok tt)
  | Some policy =>
    do? effective := perform (EffectiveFor environment [product]) in
    match continue_after_failure_max_criticality policy with
    | None => Ret (Ok tt)
    | Some text =>
      match CriticalityLevel_parse text with
      | None => Ret (Err (OtherFailure "unknown criticality"))
      | Some max =>
        Ret (bail_if continue_after_failure_refused effective (Some max)
               with (OtherFailure "effective criticality forbids continue-after-failure waves") in
             Ok tt)
      end
    end
  end.

(** [revalidate_environment]. *)
Definition revalidate_environment (r : WaveRecord) (environment : string) : wave_prog unit :=
  do? _ := perform (EnvironmentNamed environment) in
  do? _ := (match wave_fail_policy r with
            | ContinueAfterFailure => refuse_continue_after_failure environment (wave_product r)
            | StopOnFailure => Ret (Ok tt)
            end) in
  do? recalled := perform (IsRecalled (wave_release_id r)) in
  if recalled : bool then Ret (Err (OtherFailure "release is recalled and cannot advance the wave"))
  else
    do? found := perform (GetObject (wave_release_id r)) in
    match found with
    | None => Ret (Err (OtherFailure "release disappeared"))
    | Some release =>
      do? _ := perform (DeployableTrust release environment) in
      if negb (bool_decide (properties release !! "digest" = Some (wave_release_digest r)))
         || negb (bool_decide (properties release !! "artifact_digest" = Some (wave_artifact_digest r)))
      then Ret (Err (OtherFailure "release content no longer matches the wave pin"))
      else
        do? channel := perform (GetObject (channel_id (wave_product r) (wave_channel r))) in
        match channel with
        | None => Ret (Err (OtherFailure "channel disappeared"))
        | Some c =>
          if negb (bool_decide (property c "current_release" = wave_release_id r))
          then Ret (Err (OtherFailure "stale channel head"))
          else
            do? rows := perform (Subscriptions environment) in
            match find_first (λ row, bool_decide (row.1 = wave_product r)) rows with
            | None => Ret (Err (OtherFailure "environment is not subscribed"))
            | Some row =>
              if negb (bool_decide (row.2 = wave_channel r))
              then Ret (Err (OtherFailure "environment subscribes to another channel"))
              else
                do? lease := perform (InspectLease environment) in
                Ret (bail_if view_held lease with (OtherFailure "environment has an active apply lease") in
                     Ok tt)
            end
        end
    end.

(** *** Leases *)

Definition claim_wave_lease (name : string) : wave_prog WaveLease :=
  do now := perform Now in
  do? token := perform (AcquireWave name ("wave:" +:+ name +:+ ":" +:+ pretty now)) in
  Ret (Ok {| wave_lease_name := name; wave_lease_token := token |}).

(** [finish_wave_lease]. *)
Definition finish_wave_lease {A} (lease : WaveLease) (res : result A failure) : wave_prog A :=
  do released := perform (ReleaseWave (wave_lease_name lease) (wave_lease_token lease)) in
  Ret (match res, released with
       | Ok a, Ok _ => Ok a
       | Err e, Ok _ => Err e
       | Ok _, Err e => Err e
       | Err e, Err _ => Err e
       end).

Definition under_wave_lease {A} (name : string) (body : WaveLease → wave_prog A) : wave_prog A :=
  do? lease := claim_wave_lease name in
  do res := body lease in
  finish_wave_lease lease res.

(** Best effort. *)
Fixpoint release_topology_leases (held : list (string * string)) : prog wave_effect unit :=
  match held with
  | [] => Ret tt
  | (topology, token) :: held =>
    do _ := perform (ReleaseTopology topology token) in release_topology_leases held
  end.

(** The releases whose topologies a plan may disturb. *)
Definition plan_releases (r : WaveRecord) (p : Plan) : list string :=
  btree_set_iter (list_to_set (filter (λ release, negb (str_is_empty release))
    (wave_release_id r :: flat_map (λ s, step_release_id s ::
        match step_restore s with Some pin => [pin_release_id pin] | None => [] end) (steps p)))).

(** The topologies of [releases] that list the environment, with the releases
    that declare each. *)
Definition declared_topologies (environment : string) (releases : list string) :
    wave_prog (gmap string (list string)) :=
  each (λ acc release,
    do? found := perform (TopologyOf release) in
    Ret (Ok (match found with
             | Some t => if bool_decide (environment ∈ topology_environments t)
                         then push_entry acc (topology_name t) release else acc
             | None => acc
             end, false))) ∅ releases.

Definition checked_policies (environment : string) (policies : list string) : wave_prog unit :=
  each (λ _ release, do? _ := perform (RequireAvailable environment release) in Ret (Ok (tt, false)))
    tt policies.

(** One topology: its lease, then every policy under it. *)
Definition claim_topology (name environment : string) (held : list (string * string))
    (entry : string * list string) : wave_prog (list (string * string) * bool) :=
  let '(topology, policies) := entry in
  do token := perform (AcquireTopology topology ("wave:" +:+ name +:+ ":" +:+ environment)) in
  match token with
  | Err _ =>
    do _ := release_topology_leases held in
    Ret (Err (OtherFailure ("topology " +:+ topology +:+ " is upgrading another replica")))
  | Ok token =>
    let held := held ++ [(topology, token)] in
    do checked := checked_policies environment policies in
    match checked with
    | Ok _ => Ret (Ok (held, false))
    | Err e => do _ := release_topology_leases held in Ret (Err e)
    end
  end.

(** [claim_topology_leases]. *)
Definition claim_topology_leases (r : WaveRecord) (p : Plan) (environment : string) :
    wave_prog (list (string * string)) :=
  if steps_empty p then Ret (Ok [])
  else
    do? topologies := declared_topologies environment (plan_releases r p) in
    each (claim_topology (wave_name r) environment) [] (btree_iter topologies).

(** *** Admission *)

Definition fresh_member (i : nat) (environment : string) : WaveEnvironmentRecord := {|
  member_environment := environment; member_order := Z.of_nat i; member_status := EnvUnstarted;
  member_plan_id := None; member_plan_digest := None; gate_result := None; health_result := None;
  terminal_outcome := None; member_generation := None; member_detail := "" |}.

Definition fresh_wave (s : ExecutableWaveSpec) (release digest artifact identity : string)
    (members : list WaveEnvironmentRecord) (now : Z) : WaveRecord := {|
  wave_format_version := WAVE_FORMAT_VERSION; wave_name := spec_name s;
  wave_record_id := wave_id (spec_name s); identity_digest := identity;
  wave_product := spec_product s; wave_version := spec_version s; wave_channel := spec_channel s;
  wave_release_id := release; wave_release_digest := digest; wave_artifact_digest := artifact;
  wave_fail_policy := spec_fail_policy s; wave_status := WaveAdmitted;
  wave_environments := members; current_order := 0; operator_decision := None;
  wave_created_at := now; wave_updated_at := now |}.

Definition same_identity (loaded : WaveRecord) (identity : string) : result WaveRecord failure :=
  bail_if negb (bool_decide (identity_digest loaded = identity))
    with (OtherFailure "wave already exists with a conflicting identity") in
  Ok loaded.

(** [admit_locked]. *)
Definition admit_locked (s : ExecutableWaveSpec) : wave_prog WaveRecord :=
  do? _ := Ret (validate_wave_spec s) in
  do? _ := perform RequireWaveSchema in
  do? _ := (match spec_fail_policy s with
            | ContinueAfterFailure =>
              each (λ _ environment,
                do? _ := refuse_continue_after_failure environment (spec_product s) in
                Ret (Ok (tt, false))) tt (spec_environments s)
            | StopOnFailure => Ret (Ok tt)
            end) in
  do? pin := resolve_release_pin s in
  let '(release, digest, artifact) := pin in
  let identity := wave_identity s release digest artifact in
  do? existing := perform (GetObject (wave_id (spec_name s))) in
  match existing with
  | Some o => Ret (let? loaded := record_from_object o in same_identity loaded identity)
  | None =>
    do? _ := each (λ _ environment,
      do? _ := perform (EnvironmentNamed environment) in
      do? found := perform (GetObject release) in
      match found with
      | None => Ret (Err (OtherFailure "release disappeared"))
      | Some object =>
        do? _ := perform (DeployableTrust object environment) in
        do? _ := revalidate_environment (fresh_wave s release digest artifact "" [] 0) environment in
        Ret (Ok (tt, false))
      end) tt (spec_environments s) in
    do now := perform Now in
    let r := fresh_wave s release digest artifact identity (imap fresh_member (spec_environments s)) now in
    do written := perform Now in
    do? made := perform (CreateOnce (wave_object r written)) in
    if made : bool then Ret (Ok r)
    else
      do? loaded := load_wave (spec_name s) in
      Ret (same_identity loaded identity)
  end.

(** [start_or_resume]. *)
Definition start_or_resume (s : ExecutableWaveSpec) : wave_prog WaveRecord :=
  under_wave_lease (spec_name s) (λ _, admit_locked s).

(** *** Advancing *)

Definition held_execution_leases (lease : WaveLease) (topology : list (string * string)) : list HeldLease :=
  {| held_namespace := WAVE_LEASE_NAMESPACE; held_name := wave_lease_name lease;
     held_token := wave_lease_token lease |} ::
  ((λ '(name, token), {| held_namespace := TOPOLOGY_LEASE_NAMESPACE; held_name := name;
                         held_token := token |}) <$> topology).

Definition digest_text (p : Plan) : string := "sha256:" +:+ executable_digest p.

(** [signed_approval_path]. *)
Definition approval_path (dir plan : string) : string := dir +:+ "/" +:+ plan +:+ ".json".

(** The authorization of one plan: [None] waits for an envelope. *)
Definition wave_authorization (auth : wave_auth) (environment plan : string) :
    wave_prog (option plan_auth) :=
  match auth with
  | WaveDevelopment reason =>
    Ret (bail_if negb (bool_decide (environment = "local"))
           with (OtherFailure "unapproved development execution is restricted to the built-in local environment") in
         Ok (Some (PlanDevelopment reason)))
  | WaveSigned dir roots =>
    do there := perform (ApprovalOnFile (approval_path dir plan)) in
    Ret (Ok (if there : bool then Some (PlanSigned (approval_path dir plan) roots) else None))
  end.

(** The first member that is not complete. *)
Definition env_is_pending (s : WaveEnvironmentStatus) : bool :=
  match s with EnvUnstarted | EnvAwaitingApproval | EnvRunning => true | _ => false end.

Fixpoint position {A} (f : A → bool) (l : list A) : option nat :=
  match l with
  | [] => None
  | a :: l => if f a then Some O else S <$> position f l
  end.

Definition pending_position (r : WaveRecord) : option nat :=
  position (λ m, env_is_pending (member_status m)) (wave_environments r).

(** [resume_existing_plan]: [Some] is a record the caller returns. *)
Definition resume_existing_plan (r : WaveRecord) (i : nat) (m : WaveEnvironmentRecord) (lease : WaveLease) :
    wave_prog (option WaveRecord) :=
  match member_plan_id m with
  | None => Ret (Ok None)
  | Some id =>
    do? p := perform (LoadPlan id) in
    match plan_state p with
    | Succeeded | Failed | Blocked =>
      let e := match evidence_from_outcomes p [] with
               | Ok e => e
               | Err _ => {| ev_gate := "unknown"; ev_health := "unknown";
                             ev_terminal := PlanState_str (plan_state p);
                             ev_status := match plan_state p with
                                          | Succeeded => EnvSucceeded
                                          | Blocked => EnvBlocked
                                          | _ => EnvFailed
                                          end;
                             ev_detail := status_detail p |}
               end in
      let r := at_member r i (λ m, member_evidence e (digest_text p) (member_generation m) m) in
      do? r := persist (after_evidence r (ev_status e) (member_order m)) lease in
      Ret (Ok (Some r))
    | Running =>
      let r := at_member (with_status r WaveRecoveryRequired) i (member_because EnvRunning
        "plan is running after restart; reconcile the environment before resuming the wave") in
      do? r := persist r lease in
      Ret (Ok (Some r))
    | Computed => Ret (Ok None)
    end
  end.

(** The plan the member is bound to by the time its plan [p] has run. *)
Definition bound_plan (m : WaveEnvironmentRecord) (p : Plan) : string :=
  default (plan_id_of p) (member_plan_id m).

(** [capture_plan_evidence]. *)
Definition capture_plan_evidence (r : WaveRecord) (i : nat) (m : WaveEnvironmentRecord) (plan : string)
    (outcomes : list Outcome) : wave_prog WaveRecord :=
  do? p := perform (LoadPlan plan) in
  do? e := Ret (evidence_from_outcomes p outcomes) in
  do? view := perform (InspectLease (member_environment m)) in
  let r := with_current_order (at_member r i (member_evidence e (digest_text p) (view_generation view)))
             (member_order m) in
  Ret (Ok (after_evidence r (ev_status e) (member_order m))).

(** [record_execute_error]: the plan's own state decides where the wave
    stands.  The member has a plan by now, so the branch without one is left
    out. *)
Definition record_execute_error (r : WaveRecord) (i : nat) (m : WaveEnvironmentRecord) (plan : string)
    (e : failure) : prog wave_effect WaveRecord :=
  do loaded := perform (LoadPlan plan) in
  let r := at_member r i (member_detailed (failure_text e)) in
  Ret (match (match loaded with Ok p => Some (plan_state p) | Err _ => None end) with
       | Some Succeeded | Some Running =>
         at_member (with_status r WaveRecoveryRequired) i (member_to EnvRunning)
       | Some Failed => apply_fail_policy (at_member r i (member_to EnvFailed)) (member_order m)
       | Some Blocked => apply_fail_policy (at_member r i (member_to EnvBlocked)) (member_order m)
       | Some Computed | None =>
         with_status (at_member r i (member_to EnvAwaitingApproval)) WaveAwaitingApproval
       end).

(** An authorized plan of the member, from the topology leases to its
    evidence. *)
Definition run_member (r : WaveRecord) (i : nat) (m : WaveEnvironmentRecord) (p : Plan) (auth : plan_auth)
    (lease : WaveLease) : wave_prog WaveRecord :=
  do? topology := claim_topology_leases r p (member_environment m) in
  let r := with_status (at_member r i (member_to EnvRunning)) WaveRunning in
  do saved := persist r lease in
  match saved with
  | Err e => do _ := release_topology_leases topology in Ret (Err e)
  | Ok r =>
    do executed := perform (RunPlan (plan_id_of p) auth (held_execution_leases lease topology)) in
    do _ := release_topology_leases topology in
    match executed with
    | Ok outcomes =>
      do? r := capture_plan_evidence r i m (bound_plan m p) outcomes in persist r lease
    | Err e => do r := record_execute_error r i m (bound_plan m p) e in persist r lease
    end
  end.

(** The member's plan: the one bound, or a new one, bound first. *)
Definition bind_plan (r : WaveRecord) (i : nat) (m : WaveEnvironmentRecord) (p : Plan) (lease : WaveLease) :
    wave_prog WaveRecord :=
  match member_plan_id m with
  | Some _ => Ret (Ok r)
  | None => persist (at_member r i (member_bound (plan_id_of p) (digest_text p) EnvAwaitingApproval)) lease
  end.

Definition advance_member (auth : wave_auth) (r : WaveRecord) (i : nat) (m : WaveEnvironmentRecord)
    (lease : WaveLease) : wave_prog WaveRecord :=
  do? resumed := resume_existing_plan r i m lease in
  match resumed with
  | Some r => Ret (Ok r)
  | None =>
    do? _ := revalidate_environment r (member_environment m) in
    do? p := (match member_plan_id m with
              | Some id => perform (LoadPlan id)
              | None => perform (CreateWavePlan (member_environment m))
              end) in
    if has_rollback p then Ret (Err (OtherFailure "wave has a pending rollback plan"))
    else
      do? _ := Ret (plan_pins_wave p r) in
      do? r := bind_plan r i m p lease in
      if negb (bool_decide (plan_state p ∈ [Computed; Blocked]))
      then Ret (Err (OtherFailure "only computed or blocked plans can execute"))
      else
        do? granted := wave_authorization auth (member_environment m) (plan_id_of p) in
        match granted with
        | None =>
          persist (with_status (at_member r i (member_because EnvAwaitingApproval
            ("signed approval required for plan " +:+ plan_id_of p))) WaveAwaitingApproval) lease
        | Some granted => run_member r i m p granted lease
        end
  end.

(** [advance_locked]. *)
Definition advance_locked (name : string) (auth : wave_auth) (lease : WaveLease) : wave_prog WaveRecord :=
  do? _ := perform RequireWaveSchema in
  do? r := load_wave name in
  do? r := (if bool_decide (wave_status r = WaveStopped)
            then persist (with_decision (with_status r WaveRunning) "resume") lease
            else Ret (Ok r)) in
  if wave_is_terminal (wave_status r) then Ret (Ok r)
  else
    match pending_position r with
    | Some i =>
      match wave_environments r !! i with
      | Some m => advance_member auth r i m lease
      | None => Ret (Err (OtherFailure "index out of range"))
      end
    | None => persist (refresh_wave_status r) lease
    end.

Definition advance (name : string) (auth : wave_auth) : wave_prog WaveRecord :=
  under_wave_lease name (advance_locked name auth).

(** [run_until_blocked]. *)
Fixpoint advance_until (fuel : nat) (name : string) (auth : wave_auth) : wave_prog WaveRecord :=
  match fuel with
  | O => Ret (Err (OtherFailure "out of fuel"))
  | S fuel =>
    do? r := advance name auth in
    if wave_is_terminal (wave_status r) || bool_decide (wave_status r = WaveAwaitingApproval)
       || all_complete r
    then Ret (Ok r) else advance_until fuel name auth
  end.

Definition run_until_blocked (fuel : nat) (s : ExecutableWaveSpec) (auth : wave_auth) : wave_prog WaveRecord :=
  do? _ := start_or_resume s in advance_until fuel (spec_name s) auth.

(** [stop_wave]. *)
Definition stop_wave (name : string) : wave_prog WaveRecord :=
  under_wave_lease name (λ lease,
    do? r := load_wave name in
    if wave_is_terminal (wave_status r) then Ret (Ok r)
    else persist (with_decision (with_status r WaveStopped) "stop") lease).

(** *** Rolling back *)

(** The members to roll back, the last first. *)
Definition rollback_targets (r : WaveRecord) : list nat :=
  rev (filter (λ i, member_status <$> wave_environments r !! i
                      ∈ [Some EnvSucceeded; Some EnvAwaitingApproval])
         (seq 0 (length (wave_environments r)))).

(** What the loop goes on with: the plan to run, the next member, or a record
    the operation returns. *)
Inductive rollback_next :=
| RunRollback (p : Plan) (r : WaveRecord)
| NextMember (r : WaveRecord)
| ReturnWave (r : WaveRecord).

(** The rollback plan of a member that was rolled out. *)
Definition new_rollback_plan (r : WaveRecord) (i : nat) (m : WaveEnvironmentRecord) (lease : WaveLease) :
    wave_prog rollback_next :=
  do step := perform (RollbackStep (member_environment m) (wave_product r)) in
  match step with
  | Err e =>
    do? r := persist (at_member (with_status r WaveRecoveryRequired) i
                        (member_detailed (failure_text e))) lease in
    Ret (Ok (ReturnWave r))
  | Ok step =>
    do? p := perform (CreateFromSteps (member_environment m) [step]) in
    do? r := persist (at_member r i (member_bound (plan_id_of p) (digest_text p) (member_status m))) lease in
    Ret (Ok (RunRollback p r))
  end.

Definition rollback_plan (r : WaveRecord) (i : nat) (m : WaveEnvironmentRecord) (lease : WaveLease) :
    wave_prog rollback_next :=
  if bool_decide (member_status m = EnvAwaitingApproval) then
    match member_plan_id m with
    | None => Ret (Err (OtherFailure "rollback is awaiting approval without a plan"))
    | Some id =>
      do? p := perform (LoadPlan id) in
      if negb (has_rollback p) then
        do? r := persist (at_member r i (member_because EnvSkipped
          "skipped because the wave rolled back before this cohort executed")) lease in
        Ret (Ok (NextMember r))
      else Ret (Ok (RunRollback p r))
    end
  else
    match member_plan_id m with
    | None => new_rollback_plan r i m lease
    | Some id =>
      do loaded := perform (LoadPlan id) in
      match loaded with
      | Err _ => new_rollback_plan r i m lease
      | Ok p =>
        if negb (has_rollback p) then new_rollback_plan r i m lease
        else
          match plan_state p with
          | Succeeded =>
            do? r := persist (at_member r i (λ m, member_outcome (PlanState_str (plan_state p))
                                (member_because EnvRolledBack (status_detail p) m))) lease in
            Ret (Ok (NextMember r))
          | Computed | Blocked => Ret (Ok (RunRollback p r))
          | Running | Failed =>
            do? r := persist (at_member (with_status r WaveRecoveryRequired) i
              (member_detailed ("rollback plan " +:+ plan_id_of p +:+ " is "
                 +:+ PlanState_str (plan_state p) +:+ "; reconcile before retrying wave rollback"))) lease in
            Ret (Ok (ReturnWave r))
          end
      end
    end.

(** An authorized rollback plan, from the topology leases to its result. *)
Definition run_rollback (r : WaveRecord) (i : nat) (environment : string) (p : Plan) (auth : plan_auth)
    (lease : WaveLease) : wave_prog rollback_next :=
  do? topology := claim_topology_leases r p environment in
  do executed := perform (RunPlan (plan_id_of p) auth (held_execution_leases lease topology)) in
  do _ := release_topology_leases topology in
  match executed with
  | Err e =>
    do? _ := persist (at_member (with_status r WaveRecoveryRequired) i
                        (member_detailed (failure_text e))) lease in
    Ret (Err e)
  | Ok outcomes =>
    do? p := perform (LoadPlan (plan_id_of p)) in
    do? e := Ret (evidence_from_outcomes p outcomes) in
    if bool_decide (plan_state p = Succeeded) then
      do? r := persist (at_member r i (λ m, member_outcome (ev_terminal e)
                          (member_because EnvRolledBack (ev_detail e) m))) lease in
      Ret (Ok (NextMember r))
    else
      do? r := persist (at_member (with_status r WaveRecoveryRequired) i
                 (λ m, member_outcome (ev_terminal e) (member_because (ev_status e) (ev_detail e) m))) lease in
      Ret (Ok (ReturnWave r))
  end.

Definition rollback_member (auth : wave_auth) (r : WaveRecord) (i : nat) (m : WaveEnvironmentRecord)
    (lease : WaveLease) : wave_prog rollback_next :=
  do? next := rollback_plan r i m lease in
  match next with
  | RunRollback p r =>
    do? granted := wave_authorization auth (member_environment m) (plan_id_of p) in
    match granted with
    | None =>
      do? r := persist (at_member (with_status r WaveAwaitingApproval) i
        (member_because EnvAwaitingApproval
           ("signed approval required for rollback plan " +:+ plan_id_of p))) lease in
      Ret (Ok (ReturnWave r))
    | Some granted => run_rollback r i (member_environment m) p granted lease
    end
  | next => Ret (Ok next)
  end.

(** The loop over the members: the record so far, and whether it is returned. *)
Definition rollback_each (auth : wave_auth) (lease : WaveLease) (s : WaveRecord * bool) (i : nat) :
    wave_prog (WaveRecord * bool * bool) :=
  match wave_environments s.1 !! i with
  | None => Ret (Err (OtherFailure "index out of range"))
  | Some m =>
    do? next := rollback_member auth s.1 i m lease in
    Ret (Ok (match next with
             | ReturnWave r => (r, true, true)
             | NextMember r | RunRollback _ r => (r, false, false)
             end))
  end.

(** [rollback_locked]. *)
Definition rollback_locked (name : string) (auth : wave_auth) (lease : WaveLease) : wave_prog WaveRecord :=
  do? r := load_wave name in
  if bool_decide (wave_status r = WaveRolledBack) then Ret (Ok r)
  else
    do? r := persist (with_decision (with_status r WaveRollingBack) "rollback") lease in
    do? ended := each (rollback_each auth lease) (r, false) (rollback_targets r) in
    let '(r, returned) := ended in
    if returned : bool then Ret (Ok r) else persist (with_status r WaveRolledBack) lease.

Definition rollback_wave (name : string) (auth : wave_auth) : wave_prog WaveRecord :=
  under_wave_lease name (rollback_locked name auth).
End Operations.

(** ** The course of a wave

    What a wave promises, without its plans: the members in order, and the
    states a record goes through. *)

(** What never changes after admission. *)
Definition pinned (r : WaveRecord) :=
  (wave_format_version r, wave_name r, wave_record_id r, identity_digest r,
   (wave_product r, wave_version r, wave_channel r),
   (wave_release_id r, wave_release_digest r, wave_artifact_digest r), wave_fail_policy r,
   (λ m, (member_environment m, member_order m)) <$> wave_environments r).

Definition course : Type := WaveStatus * list WaveEnvironmentStatus.

Definition course_of (r : WaveRecord) : course := (wave_status r, member_status <$> wave_environments r).

(** Every member before [i] is complete, and [i] is not. *)
Definition turn_of (ss : list WaveEnvironmentStatus) (i : nat) : Prop :=
  (∃ s, ss !! i = Some s ∧ env_is_complete s = false)
  ∧ ∀ j s, (j < i)%nat → ss !! j = Some s → env_is_complete s = true.

Definition skipped_from (i : nat) (ss : list WaveEnvironmentStatus) : list WaveEnvironmentStatus :=
  imap (λ j s, if (i <? j)%nat && bool_decide (s = EnvUnstarted) then EnvSkipped else s) ss.

(** What a failure at [i] does. *)
Definition failed_course (policy : WaveFailPolicy) (i : nat) (ss : list WaveEnvironmentStatus) : course :=
  match policy with
  | StopOnFailure => (WaveFailed, skipped_from i ss)
  | ContinueAfterFailure => (if forallb env_is_complete ss then WaveFailed else WaveRunning, ss)
  end.

Inductive forward (policy : WaveFailPolicy) : course → course → Prop :=
| forward_resume ss : forward policy (WaveStopped, ss) (WaveRunning, ss)
| forward_stop st ss : wave_is_terminal st = false → forward policy (st, ss) (WaveStopped, ss)
| forward_wait st ss i st' :
    wave_is_terminal st = false → turn_of ss i → st' = st ∨ st' = WaveAwaitingApproval →
    forward policy (st, ss) (st', <[i := EnvAwaitingApproval]> ss)
| forward_run st ss i st' :
    wave_is_terminal st = false → turn_of ss i → st' = WaveRunning ∨ st' = WaveRecoveryRequired →
    forward policy (st, ss) (st', <[i := EnvRunning]> ss)
| forward_succeed st ss i :
    wave_is_terminal st = false → turn_of ss i →
    forward policy (st, ss)
      (refreshed_status st (<[i := EnvSucceeded]> ss), <[i := EnvSucceeded]> ss)
| forward_fail st ss i s :
    wave_is_terminal st = false → turn_of ss i → env_failed s = true →
    forward policy (st, ss) (failed_course policy i (<[i := s]> ss))
| forward_end st ss :
    wave_is_terminal st = false → (∀ i, ¬ turn_of ss i) →
    forward policy (st, ss) (refreshed_status st ss, ss).

(** The members keep their places. *)
Definition orders_ok (r : WaveRecord) : Prop :=
  ∀ i m, wave_environments r !! i = Some m → member_order m = Z.of_nat i.

(** [r] is a later state of the wave [r0]. *)
Definition later_state (r0 r : WaveRecord) : Prop :=
  pinned r0 = pinned r ∧ (orders_ok r0 → rtc (forward (wave_fail_policy r0)) (course_of r0) (course_of r)).

(** *** Invariants of the course *)

Section Course.
Context (policy : WaveFailPolicy).

(** A member that has started has only complete members before it; a member
    is skipped only by an earlier failure, which ends a stop-on-failure wave;
    and success means that every member succeeded. *)
Record course_ok (c : course) : Prop := {
  started_in_order i j si sj :
    (i < j)%nat → c.2 !! i = Some si → c.2 !! j = Some sj →
    sj ≠ EnvUnstarted → sj ≠ EnvSkipped → env_is_complete si = true;
  stops_at_failure i j si sj :
    policy = StopOnFailure → (i < j)%nat → c.2 !! i = Some si → env_failed si = true →
    c.2 !! j = Some sj → sj = EnvSkipped;
  failure_ends i si :
    policy = StopOnFailure → c.2 !! i = Some si → env_failed si = true → c.1 = WaveFailed;
  skipped_after_failure j :
    c.2 !! j = Some EnvSkipped →
    policy = StopOnFailure ∧ ∃ i si, (i < j)%nat ∧ c.2 !! i = Some si ∧ env_failed si = true;
  succeeded_whole s : c.1 = WaveSucceeded → s ∈ c.2 → s = EnvSucceeded;
  none_rolled_back : EnvRolledBack ∉ c.2
}.

Definition complete_kept (c c' : course) : Prop :=
  ∀ i s, c.2 !! i = Some s → env_is_complete s = true → c'.2 !! i = Some s.
End Course.

Lemma no_failure_yet policy st ss i s :
  course_ok policy (st, ss) → wave_is_terminal st = false → policy = StopOnFailure →
  ss !! i = Some s → env_failed s = false.
Proof.
  intros Hok Ht Hp Hs. destruct (env_failed s) eqn:E; [|done].
  pose proof (failure_ends _ _ Hok i s Hp Hs E) as Hst. simpl in Hst. by subst st.
Qed.

Lemma not_skipped_yet policy st ss i :
  course_ok policy (st, ss) → wave_is_terminal st = false → ss !! i ≠ Some EnvSkipped.
Proof.
  intros Hok Ht Hs. destruct (skipped_after_failure _ _ Hok i Hs) as (Hp & j & s & _ & Hj & Hf).
  by rewrite (no_failure_yet _ _ _ _ _ Hok Ht Hp Hj) in Hf.
Qed.

Lemma after_turn policy st ss i j s :
  course_ok policy (st, ss) → wave_is_terminal st = false → turn_of ss i → (i < j)%nat →
  ss !! j = Some s → s = EnvUnstarted.
Proof.
  intros Hok Ht [(si & Hi & Hc) _] Hij Hj.
  destruct (decide (s = EnvUnstarted)) as [|Hu]; [done|].
  destruct (decide (s = EnvSkipped)) as [->|Hk]; [by destruct (not_skipped_yet _ _ _ _ Hok Ht Hj)|].
  by rewrite (started_in_order _ _ Hok i j si s Hij Hi Hj Hu Hk) in Hc.
Qed.

(** A move of the member whose turn it is. *)
Lemma move_ok policy st ss i s st' :
  course_ok policy (st, ss) → wave_is_terminal st = false → turn_of ss i →
  s ∈ [EnvAwaitingApproval; EnvRunning; EnvSucceeded; EnvFailed; EnvBlocked] →
  (policy = StopOnFailure → env_failed s = false) →
  (st' = WaveSucceeded → forallb env_is_complete (<[i := s]> ss) = true
                         ∧ existsb env_failed (<[i := s]> ss) = false) →
  course_ok policy (st', <[i := s]> ss).
Proof.
  intros Hok Ht Hturn Hs Hnf Hsucc.
  assert (i < length ss)%nat as Hlen by (destruct Hturn as [(x & Hx & _) _]; by eapply lookup_lt_Some).
  assert (s ≠ EnvSkipped ∧ s ≠ EnvRolledBack) as [Hk Hrb] by set_solver.
  assert (∀ j x, <[i := s]> ss !! j = Some x → x = s ∨ (j ≠ i ∧ ss !! j = Some x)) as Hcase.
  { intros j x. rewrite list_lookup_insert_Some. naive_solver. }
  split; simpl.
  - intros a b sa sb Hab Ha Hb Hu Hsk. apply list_lookup_insert_Some in Hb as [(-> & -> & _)|[Hbi Hb]].
    + rewrite list_lookup_insert_ne in Ha by lia. by eapply Hturn.
    + destruct (Nat.lt_trichotomy b i) as [Hlt|[->|Hgt]]; [|done|].
      * rewrite list_lookup_insert_ne in Ha by lia.
        eapply (started_in_order _ _ Hok a b); eauto.
      * by rewrite (after_turn _ _ _ _ _ _ Hok Ht Hturn Hgt Hb) in Hu.
  - intros a b sa sb Hp Hab [->|[_ Ha]]%Hcase Hf _; [by rewrite Hnf in Hf|].
    by rewrite (no_failure_yet _ _ _ _ _ Hok Ht Hp Ha) in Hf.
  - intros a sa Hp [->|[_ Ha]]%Hcase Hf; [by rewrite Hnf in Hf|].
    by rewrite (no_failure_yet _ _ _ _ _ Hok Ht Hp Ha) in Hf.
  - intros j [<-|[_ Hj]]%Hcase; [done|]. by destruct (not_skipped_yet _ _ _ _ Hok Ht Hj).
  - intros x Hst Hx. destruct (Hsucc Hst) as [Hall Hnone].
    pose proof (proj1 (forallb_elem _ _) Hall x Hx) as Hc.
    assert (env_failed x = false) as Hxf.
    { destruct (env_failed x) eqn:E; [|done]. rewrite <- Hnone. symmetry. apply existsb_elem. eauto. }
    apply list_elem_of_lookup in Hx as [j [->|[_ Hj]]%Hcase].
    + set_solver.
    + destruct x; try done.
      * by destruct (not_skipped_yet _ _ _ _ Hok Ht Hj).
      * destruct (none_rolled_back _ _ Hok). by eapply list_elem_of_lookup_2.
  - intros [j [?|[_ Hj]]%Hcase]%list_elem_of_lookup; [done|].
    destruct (none_rolled_back _ _ Hok). by eapply list_elem_of_lookup_2.
Qed.

Lemma refreshed_succeeded st ss :
  wave_is_terminal st = false → refreshed_status st ss = WaveSucceeded →
  forallb env_is_complete ss = true ∧ existsb env_failed ss = false.
Proof.
  intros Ht. unfold refreshed_status. case_bool_decide; [by intros ->|].
  case_bool_decide; [done|]. destruct (forallb _ _); [|done]. by destruct (existsb _ _).
Qed.

(** Statuses that only say what the wave waits for. *)
Lemma status_ok policy st ss st' :
  course_ok policy (st, ss) → wave_is_terminal st = false →
  (st' = WaveSucceeded → forallb env_is_complete ss = true ∧ existsb env_failed ss = false) →
  course_ok policy (st', ss).
Proof.
  intros Hok Ht Hsucc. destruct Hok as [H1 H2 H3 H4 H5 H6]; simpl in *. split; simpl; try done.
  - intros i s Hp Hi Hf. exfalso. specialize (H3 i s Hp Hi Hf). by subst st.
  - intros s Hst Hs. destruct (Hsucc Hst) as [Hall Hnone].
    pose proof (proj1 (forallb_elem _ _) Hall s Hs) as Hc.
    assert (env_failed s = false) as Hsf.
    { destruct (env_failed s) eqn:E; [|done]. rewrite <- Hnone. symmetry. apply existsb_elem. eauto. }
    apply list_elem_of_lookup in Hs as [j Hj]. destruct s; try done.
    + destruct (H4 j Hj) as (_ & i & si & _ & Hi & Hf).
      assert (existsb env_failed ss = true) as Hc'; [|by rewrite Hc' in Hnone].
      apply existsb_elem. eexists. split; [by eapply list_elem_of_lookup_2|done].
    + destruct H6. by eapply list_elem_of_lookup_2.
Qed.

Lemma skipped_from_lookup i ss j s :
  skipped_from i ss !! j = Some s ↔
  ∃ s0, ss !! j = Some s0
        ∧ s = if (i <? j)%nat && bool_decide (s0 = EnvUnstarted) then EnvSkipped else s0.
Proof.
  unfold skipped_from. rewrite list_lookup_imap. destruct (ss !! j) as [s0|]; simpl; naive_solver.
Qed.

(** A failure that stops the wave. *)
Lemma stop_ok st ss i s :
  course_ok StopOnFailure (st, ss) → wave_is_terminal st = false → turn_of ss i → env_failed s = true →
  course_ok StopOnFailure (WaveFailed, skipped_from i (<[i := s]> ss)).
Proof.
  intros Hok Ht Hturn Hf.
  assert (i < length ss)%nat as Hlen by (destruct Hturn as [(x & Hx & _) _]; by eapply lookup_lt_Some).
  assert (∀ j x, skipped_from i (<[i := s]> ss) !! j = Some x →
            (j < i ∧ ss !! j = Some x ∧ env_failed x = false ∧ env_is_complete x = true)%nat
            ∨ (j = i ∧ x = s) ∨ (i < j ∧ x = EnvSkipped)%nat) as Hcase.
  { intros j x (x0 & Hx0 & ->)%skipped_from_lookup.
    destruct (Nat.lt_trichotomy j i) as [Hlt|[->|Hgt]].
    - rewrite list_lookup_insert_ne in Hx0 by lia.
      rewrite (proj2 (Nat.ltb_ge i j)) by lia. left. simpl.
      split_and!; [done|done|by eapply no_failure_yet|by eapply Hturn].
    - rewrite list_lookup_insert_eq in Hx0 by done. injection Hx0 as ->.
      rewrite Nat.ltb_irrefl. by right; left.
    - rewrite list_lookup_insert_ne in Hx0 by lia.
      pose proof (after_turn _ _ _ _ _ _ Hok Ht Hturn Hgt Hx0) as ->.
      rewrite (proj2 (Nat.ltb_lt i j)) by lia. by right; right. }
  assert (s ≠ EnvSkipped ∧ s ≠ EnvRolledBack) as [Hk Hrb] by (clear -Hf; by destruct s).
  assert (skipped_from i (<[i := s]> ss) !! i = Some s) as Hat.
  { apply skipped_from_lookup. exists s. rewrite list_lookup_insert_eq, Nat.ltb_irrefl; done. }
  split; simpl; try done.
  - intros a b sa sb Hab Ha Hb Hu Hsk.
    apply Hcase in Ha as [(? & _ & _ & ?)|[[-> ->]|[? ->]]]; [done| |done].
    by destruct s.
  - intros a b sa sb _ Hab Ha Haf Hb.
    apply Hcase in Ha as [(? & _ & Hnf & _)|[[-> ->]|[? ->]]]; [by rewrite Hnf in Haf| |done].
    apply Hcase in Hb as [(? & _)|[[? _]|[_ ?]]]; [lia|lia|done].
  - intros j Hj. split; [done|]. exists i, s. split; [|done].
    apply Hcase in Hj as [(Hji & Hj & _)|[[-> Hs]|[? _]]]; [|done|done].
    by destruct (not_skipped_yet _ _ _ _ Hok Ht Hj).
  - intros [j [(_ & Hj & _)|[[_ ?]|[_ ?]]]%Hcase]%list_elem_of_lookup; [|done|done].
    destruct (none_rolled_back _ _ Hok). by eapply list_elem_of_lookup_2.
Qed.

Lemma forward_ok policy c c' : forward policy c c' → course_ok policy c → course_ok policy c'.
Proof.
  intros Hf Hok. destruct Hf as [ss|st ss Ht|st ss i st' Ht Htu Hst|st ss i st' Ht Htu Hst|st ss i Ht Htu
    |st ss i s Ht Htu Hs|st ss Ht Hn].
  - by eapply status_ok.
  - by eapply status_ok.
  - eapply move_ok; [done|done|done|set_solver|done|]. by destruct Hst as [->| ->]; [intros ->|].
  - eapply move_ok; [done|done|done|set_solver|done|]. by destruct Hst as [->| ->].
  - eapply move_ok; [done|done|done|set_solver|done|]. by apply refreshed_succeeded.
  - unfold failed_course. destruct policy; [by eapply stop_ok|].
    eapply move_ok; [done|done|done| |done|by destruct (forallb _ _)].
    destruct s; try done; set_solver.
  - eapply status_ok; [done|done|]. by apply refreshed_succeeded.
Qed.

Lemma forward_keeps policy c c' : forward policy c c' → complete_kept c c'.
Proof.
  intros Hf. assert (∀ (ss : list WaveEnvironmentStatus) i x j s,
    turn_of ss i → ss !! j = Some s → env_is_complete s = true → <[i := x]> ss !! j = Some s) as Hm.
  { intros ss i x j s [(y & Hy & Hc) _] Hj Hs. rewrite list_lookup_insert_ne; [done|].
    intros ->. rewrite Hy in Hj. injection Hj as ->. congruence. }
  intros j s Hj Hs. destruct Hf; simpl in *; eauto.
  unfold failed_course. destruct policy; simpl; [|eauto].
  apply skipped_from_lookup. exists s. split; [eauto|].
  rewrite bool_decide_eq_false_2, andb_false_r; [done|]. by intros ->.
Qed.

Lemma course_kept policy c c' : rtc (forward policy) c c' → complete_kept c c'.
Proof.
  induction 1 as [c|c1 c2 c3 Hf _ IH]; [by intros i s|]. intros i s Hi Hs.
  apply IH; [|done]. by eapply forward_keeps.
Qed.

Lemma course_stays_ok policy c c' :
  rtc (forward policy) c c' → course_ok policy c → course_ok policy c'.
Proof. induction 1; [done|]. intros. eauto using forward_ok. Qed.

(** *** Updates and the course *)

Notation statuses r := (member_status <$> wave_environments r).

(** An update of a member that keeps its place. *)
Definition keeps_place (f : WaveEnvironmentRecord → WaveEnvironmentRecord) : Prop :=
  ∀ m, member_environment (f m) = member_environment m ∧ member_order (f m) = member_order m.

Lemma at_member_pinned r i f : keeps_place f → pinned (at_member r i f) = pinned r.
Proof.
  intros Hf. unfold pinned, at_member. simpl. f_equal. apply list_eq. intros j.
  rewrite !list_lookup_fmap. destruct (decide (j = i)) as [->|Hne].
  - rewrite list_lookup_alter_eq. destruct (wave_environments r !! i) as [m|]; simpl; [|done].
    by destruct (Hf m) as [-> ->].
  - by rewrite list_lookup_alter_ne by done.
Qed.

Lemma alter_statuses (l : list WaveEnvironmentRecord) i f m :
  l !! i = Some m → member_status <$> alter f i l = <[i := member_status (f m)]> (member_status <$> l).
Proof.
  intros Hm. apply list_eq. intros j.
  rewrite list_lookup_fmap. destruct (decide (j = i)) as [->|Hne].
  - rewrite list_lookup_alter_eq, Hm. simpl. rewrite list_lookup_insert_eq; [done|].
    rewrite length_fmap. by eapply lookup_lt_Some.
  - rewrite list_lookup_alter_ne, list_lookup_insert_ne by done. by rewrite list_lookup_fmap.
Qed.

Lemma orders_pinned r r' : pinned r = pinned r' → orders_ok r → orders_ok r'.
Proof.
  intros Hp Ho i m Hm. injection Hp as _ _ _ _ _ _ _ _ _ _ _ Hl.
  assert (((λ m, (member_environment m, member_order m)) <$> wave_environments r) !! i
          = Some (member_environment m, member_order m)) as Hi.
  { rewrite Hl, list_lookup_fmap, Hm. done. }
  rewrite list_lookup_fmap in Hi. destruct (wave_environments r !! i) as [m'|] eqn:E; [|done].
  injection Hi as _ <-. by apply Ho.
Qed.

Lemma pinned_policy r r' : pinned r = pinned r' → wave_fail_policy r = wave_fail_policy r'.
Proof. by intros [=]. Qed.

Lemma later_state_refl r : later_state r r.
Proof. by split. Qed.

Lemma later_step r0 r r' :
  later_state r0 r → pinned r = pinned r' →
  (orders_ok r → forward (wave_fail_policy r) (course_of r) (course_of r')) → later_state r0 r'.
Proof.
  intros [Hp Hc] Hp' Hf. split; [congruence|]. intros Ho.
  eapply rtc_r; [by apply Hc|]. rewrite (pinned_policy _ _ Hp). apply Hf. by eapply orders_pinned.
Qed.

(** Only the time of the last write differs. *)
Lemma later_updated r0 r now : later_state r0 r → later_state r0 (with_updated r now).
Proof. done. Qed.

Lemma pending_complete s : env_is_pending s = negb (env_is_complete s).
Proof. by destruct s. Qed.

Lemma position_some {A} (f : A → bool) l i :
  position f l = Some i →
  (∃ a, l !! i = Some a ∧ f a = true) ∧ ∀ j a, (j < i)%nat → l !! j = Some a → f a = false.
Proof.
  revert i. induction l as [|b l IH]; simpl; intros i H; [done|].
  destruct (f b) eqn:Hb; [injection H as <-; split; [by exists b|lia]|].
  destruct (position f l) as [k|]; [|done]. injection H as <-. destruct (IH k eq_refl) as [Ha Hj].
  split; [done|]. intros [|j] a Hlt Hl; simpl in Hl; [by simplify_eq|]. apply (Hj j); [lia|done].
Qed.

Lemma position_none {A} (f : A → bool) l : position f l = None → ∀ a, a ∈ l → f a = false.
Proof.
  induction l as [|b l IH]; simpl; [by intros _ a ?%elem_of_nil|].
  destruct (f b) eqn:Hb; [done|]. destruct (position f l); [done|].
  intros _ a [->|?]%elem_of_cons; [done|]. by apply IH.
Qed.

Lemma pending_turn r i : pending_position r = Some i → turn_of (statuses r) i.
Proof.
  intros [(m & Hm & Hp) Hb]%position_some. split.
  - exists (member_status m). rewrite list_lookup_fmap, Hm. split; [done|].
    rewrite pending_complete in Hp. by apply negb_true_iff in Hp.
  - intros j s Hj Hs. rewrite list_lookup_fmap in Hs.
    destruct (wave_environments r !! j) as [mj|] eqn:E; [|done]. injection Hs as <-.
    specialize (Hb j mj Hj E). rewrite pending_complete in Hb. by apply negb_false_iff in Hb.
Qed.

Lemma no_turn r i : pending_position r = None → ¬ turn_of (statuses r) i.
Proof.
  intros Hn [(s & Hs & Hc) _]. rewrite list_lookup_fmap in Hs.
  destruct (wave_environments r !! i) as [m|] eqn:E; [|done]. injection Hs as <-.
  pose proof (position_none _ _ Hn m (list_elem_of_lookup_2 _ _ _ E)) as Hp. simpl in Hp.
  by rewrite pending_complete, Hc in Hp.
Qed.

(** The turn stays with a member that is still not complete. *)
Lemma turn_kept ss i s : turn_of ss i → env_is_complete s = false → turn_of (<[i := s]> ss) i.
Proof.
  intros [(x & Hx & _) Hb] Hs. split.
  - exists s. rewrite list_lookup_insert_eq; [done|]. by eapply lookup_lt_Some.
  - intros j y Hj. rewrite list_lookup_insert_ne by lia. by apply Hb.
Qed.

(** *** The moves of one member *)

Section Moves.
Context (r0 r : WaveRecord) (i : nat) (m : WaveEnvironmentRecord).
Hypothesis later : later_state r0 r.
Hypothesis open : wave_is_terminal (wave_status r) = false.
Hypothesis turn : turn_of (statuses r) i.
Hypothesis at_i : wave_environments r !! i = Some m.

Lemma later_wait f st :
  keeps_place f → member_status (f m) = EnvAwaitingApproval →
  st = wave_status r ∨ st = WaveAwaitingApproval →
  later_state r0 (with_status (at_member r i f) st).
Proof.
  intros Hk Hs Hst. eapply later_step; [exact later|symmetry; by apply at_member_pinned|]. intros _.
  unfold course_of. simpl. rewrite (alter_statuses _ i f m at_i), Hs. by apply forward_wait.
Qed.

Lemma later_run f st :
  keeps_place f → member_status (f m) = EnvRunning → st = WaveRunning ∨ st = WaveRecoveryRequired →
  later_state r0 (with_status (at_member r i f) st).
Proof.
  intros Hk Hs Hst. eapply later_step; [exact later|symmetry; by apply at_member_pinned|]. intros _.
  unfold course_of. simpl. rewrite (alter_statuses _ i f m at_i), Hs. by apply forward_run.
Qed.

Lemma skip_statuses k l :
  (∀ j x, l !! j = Some x → member_order x = Z.of_nat j) →
  member_status <$> (skip_after (Z.of_nat k) <$> l) = skipped_from k (member_status <$> l).
Proof.
  intros Ho. apply list_eq. intros j. unfold skipped_from.
  rewrite list_lookup_imap, !list_lookup_fmap. destruct (l !! j) as [x|] eqn:E; simpl; [|done].
  f_equal. unfold skip_after. rewrite (Ho j x E).
  replace (Z.of_nat k <? Z.of_nat j) with (k <? j)%nat; [by destruct (_ && _)|].
  destruct (Nat.ltb_spec k j), (Z.ltb_spec (Z.of_nat k) (Z.of_nat j)); done || lia.
Qed.

(** The failure policy of a record whose member [i] has just failed. *)
Lemma fail_policy_course x k :
  orders_ok x →
  course_of (apply_fail_policy x (Z.of_nat k)) = failed_course (wave_fail_policy x) k (statuses x).
Proof.
  intros Ho. unfold apply_fail_policy, failed_course, course_of. destruct (wave_fail_policy x); simpl.
  - f_equal. by apply skip_statuses.
  - f_equal. unfold all_complete. clear Ho.
    by induction (wave_environments x) as [|y l IH]; simpl; [|destruct (env_is_complete _)].
Qed.

Lemma fail_policy_pinned x k : pinned (apply_fail_policy x k) = pinned x.
Proof.
  unfold apply_fail_policy. destruct (wave_fail_policy x) eqn:E; [|done].
  unfold pinned. simpl. rewrite E. f_equal. rewrite <- list_fmap_compose.
  apply list_fmap_ext. intros j y _. unfold compose, skip_after. by destruct (_ && _).
Qed.

Lemma later_settled f order s :
  keeps_place f → member_status (f m) = s → s ∈ [EnvSucceeded; EnvFailed; EnvBlocked] →
  later_state r0 (after_evidence (with_current_order (at_member r i f) order) s (member_order m)).
Proof.
  intros Hk Hs Hin.
  assert (pinned (at_member r i f) = pinned r) as Hp by by apply at_member_pinned.
  unfold after_evidence. destruct (env_failed s) eqn:Hf.
  - eapply later_step; [exact later|by rewrite fail_policy_pinned|]. intros Ho.
    rewrite (Ho i m at_i), fail_policy_course; [|eapply orders_pinned; [symmetry; exact Hp|done]].
    simpl. rewrite (alter_statuses _ i f m at_i), Hs. by apply forward_fail.
  - assert (s = EnvSucceeded) as -> by (clear -Hin Hf; destruct s; set_solver).
    eapply later_step; [exact later|done|]. intros _. unfold course_of, refresh_wave_status. simpl.
    rewrite (alter_statuses _ i f m at_i), Hs. by apply forward_succeed.
Qed.
End Moves.

(** ** What an operation learns *)

Inductive wave_fact :=
| Acquired (name token : string)
| GaveBack (name token : string)
| LoadedWave (r : WaveRecord)
| SavedWave (r : WaveRecord)
| GotObject (id : string) (o : Object)
| NotRecalled (release : string)
| Trusted (release : Object) (environment : string)
| SubscribedTo (environment : string) (rows : list (string * string))
| LeaseFree (environment : string)
| LoadedPlan (id : string) (p : Plan)
| CreatedFor (environment : string) (p : Plan)
| OnFile (path : string)
| DeclaredTopology (release : string) (t : option TopologySection)
| TopologyHeld (topology token : string)
| Available (environment release : string)
| Ran (plan : string).

Section Facts.
Context {E : PlanEncoding} {J : WaveJson} {JL : WaveJsonLaws J}.

Definition wave_learnt (X : Type) (e : wave_effect X) : X → list wave_fact :=
  match e in wave_effect X return X → list wave_fact with
  | AcquireWave name _ => λ r, match r with Ok token => [Acquired name token] | Err _ => [] end
  | ReleaseWave name token => λ _, [GaveBack name token]
  | GuardedUpdate o _ _ => λ r,
    match r, record_from_object o with Ok _, Ok r => [SavedWave r] | _, _ => [] end
  | GetObject id => λ r,
    match r with
    | Ok (Some o) => match record_from_object o with
                     | Ok r => [LoadedWave r; GotObject id o]
                     | Err _ => [GotObject id o]
                     end
    | _ => []
    end
  | IsRecalled release => λ r, match r with Ok false => [NotRecalled release] | _ => [] end
  | DeployableTrust release env => λ r, match r with Ok _ => [Trusted release env] | Err _ => [] end
  | Subscriptions env => λ r, match r with Ok rows => [SubscribedTo env rows] | Err _ => [] end
  | InspectLease env => λ r, match r with Ok v => if view_held v then [] else [LeaseFree env] | Err _ => [] end
  | LoadPlan id => λ r, match r with Ok p => [LoadedPlan id p] | Err _ => [] end
  | CreateWavePlan env => λ r, match r with Ok p => [CreatedFor env p] | Err _ => [] end
  | CreateFromSteps env _ => λ r, match r with Ok p => [CreatedFor env p] | Err _ => [] end
  | ApprovalOnFile path => λ r, if r then [OnFile path] else []
  | TopologyOf release => λ r, match r with Ok t => [DeclaredTopology release t] | Err _ => [] end
  | AcquireTopology topology _ => λ r, match r with Ok token => [TopologyHeld topology token] | Err _ => [] end
  | RequireAvailable env release => λ r, match r with Ok _ => [Available env release] | Err _ => [] end
  | RunPlan plan _ _ => λ _, [Ran plan]
  | _ => λ _, []
  end.

Definition ran_any (w : list wave_fact) : Prop := ∃ plan, Ran plan ∈ w.

(** The release, its channel, the subscription and the lease were checked for
    this environment. *)
Definition revalidated (w : list wave_fact) (r : WaveRecord) (environment : string) : Prop :=
  NotRecalled (wave_release_id r) ∈ w
  ∧ (∃ o, GotObject (wave_release_id r) o ∈ w ∧ Trusted o environment ∈ w
          ∧ properties o !! "digest" = Some (wave_release_digest r)
          ∧ properties o !! "artifact_digest" = Some (wave_artifact_digest r))
  ∧ (∃ c, GotObject (channel_id (wave_product r) (wave_channel r)) c ∈ w
          ∧ property c "current_release" = wave_release_id r)
  ∧ (∃ rows, SubscribedTo environment rows ∈ w ∧ (wave_product r, wave_channel r) ∈ rows)
  ∧ LeaseFree environment ∈ w.

(** Every topology the plan may disturb is held, and its minimum checked. *)
Definition topologies_guarded (w : list wave_fact) (r : WaveRecord) (p : Plan) (environment : string)
    (held : list (string * string)) : Prop :=
  steps_empty p = false → ∀ release, release ∈ plan_releases r p →
  ∃ found, DeclaredTopology release found ∈ w ∧ ∀ t, found = Some t → environment ∈ topology_environments t →
    (∃ token, (topology_name t, token) ∈ held ∧ TopologyHeld (topology_name t) token ∈ w)
    ∧ Available environment release ∈ w.

(** How a plan is authorized. *)
Definition wave_granted (w : list wave_fact) (auth : wave_auth) (environment plan : string) (granted : plan_auth) : Prop :=
  match auth with
  | WaveDevelopment reason => environment = "local" ∧ granted = PlanDevelopment reason
  | WaveSigned dir roots =>
    granted = PlanSigned (approval_path dir plan) roots ∧ OnFile (approval_path dir plan) ∈ w
  end.

(** The record written last. *)
Definition last_saved (w : list wave_fact) : option WaveRecord :=
  find_map (λ f, match f with SavedWave r => Some r | _ => None end) w.

(** The plan of the member in place [i]: the one the record that was loaded
    binds it to, or, when that record binds it to none, one created for the
    member's environment, to which it is bound now. *)
Definition plan_of_member (w : list wave_fact) (r0 : WaveRecord) (i : nat) (m : WaveEnvironmentRecord) (p : Plan) : Prop :=
  ∃ m0, wave_environments r0 !! i = Some m0 ∧ member_environment m0 = member_environment m
    ∧ match member_plan_id m0 with
      | Some id => LoadedPlan id p ∈ w ∧ member_plan_id m = Some id
      | None => CreatedFor (member_environment m) p ∈ w ∧ member_plan_id m = Some (plan_id_of p)
      end.

(** Whatever plan a member is bound to, the record that was loaded had bound
    it to, or it was created for the member's environment. *)
Definition bound_by (w : list wave_fact) (r0 r : WaveRecord) : Prop :=
  ∀ j m id, wave_environments r !! j = Some m → member_plan_id m = Some id →
  (∃ m0, wave_environments r0 !! j = Some m0 ∧ member_environment m0 = member_environment m ∧ member_plan_id m0 = Some id)
  ∨ ∃ p, CreatedFor (member_environment m) p ∈ w ∧ plan_id_of p = id.

(** The environments of plans, by their ids: a plan is created for the
    environment that was asked for, and a plan is loaded as it was created. *)
Definition plans_placed (environment_of : string → string) (w : list wave_fact) : Prop :=
  (∀ environment p, CreatedFor environment p ∈ w →
     plan_environment p = environment ∧ environment_of (plan_id_of p) = environment)
  ∧ ∀ id p, LoadedPlan id p ∈ w → plan_environment p = environment_of id.

(** The members are bound to plans of their own environments. *)
Definition members_bound (environment_of : string → string) (r : WaveRecord) : Prop :=
  ∀ j m id, wave_environments r !! j = Some m → member_plan_id m = Some id → environment_of id = member_environment m.

(** The plan pins the wave's release: its first input of the wave's product
    names the release, and all its steps are of that product; or the plan has
    no input of that product and some step of it. *)
Definition pins_release (p : Plan) (r : WaveRecord) : Prop :=
  (∃ k i, inputs p !! k = Some i ∧ (∀ k' i', (k' < k)%nat → inputs p !! k' = Some i' → input_product i' ≠ wave_product r)
     ∧ input_product i = wave_product r ∧ input_release_id i = wave_release_id r
     ∧ input_release_digest i = wave_release_digest r ∧ input_artifact_digest i = wave_artifact_digest r
     ∧ input_desired_version i = wave_version r ∧ input_channel i = wave_channel r
     ∧ ∀ s, s ∈ steps p → step_product s = wave_product r)
  ∨ (∀ i, i ∈ inputs p → input_product i ≠ wave_product r) ∧ ∃ s, s ∈ steps p ∧ step_product s = wave_product r.

(** What must hold when an [advance] runs a plan. *)
Definition may_run (name : string) (auth : wave_auth) (w : list wave_fact) (plan : string)
    (granted : plan_auth) (leases : list HeldLease) : Prop :=
  ∃ r0 r i m p token held,
    LoadedWave r0 ∈ w ∧ later_state r0 r ∧ last_saved w = Some r
    ∧ turn_of (member_status <$> wave_environments r0) i
    ∧ turn_of (member_status <$> wave_environments r) i
    ∧ wave_environments r !! i = Some m ∧ member_status m = EnvRunning
    ∧ plan_of_member w r0 i m p
    ∧ (∀ environment_of, plans_placed environment_of w → members_bound environment_of r0 →
         plan_environment p = member_environment m)
    ∧ plan_id_of p = plan ∧ (∀ s, s ∈ steps p → step_action s ≠ Rollback) ∧ pins_release p r
    ∧ plan_state p ∈ [Computed; Blocked]
    ∧ revalidated w r (member_environment m)
    ∧ wave_granted w auth (member_environment m) plan granted
    ∧ topologies_guarded w r p (member_environment m) held
    ∧ Acquired name token ∈ w ∧ GaveBack name token ∉ w
    ∧ leases = held_execution_leases {| wave_lease_name := name; wave_lease_token := token |} held
    ∧ ¬ ran_any w.

(** A write is of a later state of the wave that was loaded, under the lease
    that was taken, and leaves members bound to plans of their environments. *)
Definition may_save (w : list wave_fact) (o : Object) (name token : string) : Prop :=
  Acquired name token ∈ w ∧ GaveBack name token ∉ w
  ∧ ∃ r0 r, LoadedWave r0 ∈ w ∧ record_from_object o = Ok r ∧ later_state r0 r ∧ bound_by w r0 r
      ∧ ∀ environment_of, plans_placed environment_of w → members_bound environment_of r0 → members_bound environment_of r.

Definition advance_allowed (auth : wave_auth) (name : string) (X : Type) (e : wave_effect X)
    (w : list wave_fact) : Prop :=
  match e with
  | RunPlan plan granted leases => may_run name auth w plan granted leases
  | GuardedUpdate o n token => may_save w o n token
  | CreateOnce _ | CreateFromSteps _ _ | RollbackStep _ _ => False
  | _ => True
  end.

(** *** Reading *)

(** Facts that neither run, write nor give back anything. *)
Definition calm (f : wave_fact) : bool :=
  match f with Ran _ | GaveBack _ _ | SavedWave _ => false | _ => true end.

Notation calmly := (extends calm).

Lemma calmly_ran w w' : calmly w w' → ran_any w' → ran_any w.
Proof. intros Hc [plan Hp]. exists plan. by eapply extends_elem. Qed.

Context (auth : wave_auth) (name : string).
Notation world_learns := (learns wave_learnt (advance_allowed auth name)).

Notation reads := (reads wave_learnt (advance_allowed auth name) calm).

Ltac reading := first [done | intros [?|?]; simpl; repeat case_match; done].

Lemma refuse_continue_reads environment product w :
  reads (refuse_continue_after_failure environment product) (λ _ _, True) w.
Proof.
  unfold refuse_continue_after_failure.
  eapply reads_try with (Q := λ _ _, True); [apply reads_perform; reading|]. intros o w1 _ _.
  eapply reads_try with (Q := λ _ _, True); [apply reads_perform; reading|]. intros [policy|] w2 _ _; [|by apply reads_ret].
  eapply reads_try with (Q := λ _ _, True); [apply reads_perform; reading|]. intros l w3 _ _.
  repeat case_match; by apply reads_ret.
Qed.

Lemma revalidate_reads r environment w :
  reads (revalidate_environment r environment) (λ _ w', revalidated w' r environment) w.
Proof.
  unfold revalidate_environment.
  eapply reads_try with (Q := λ _ _, True); [apply reads_perform; reading|]. intros o w1 _ _.
  eapply reads_try with (Q := λ _ _, True).
  { case_match; [by apply reads_ret|apply refuse_continue_reads]. }
  intros [] w2 _ _.
  eapply reads_try with (Q := λ b w', b = false → NotRecalled (wave_release_id r) ∈ w').
  { apply reads_perform; [reading|reading|]. intros []; simpl; [done|]. intros _. left. }
  intros [] w3 _ Hrec; [by apply reads_ret|]. specialize (Hrec eq_refl).
  eapply reads_try with (Q := λ o w', ∀ c, o = Some c → GotObject (wave_release_id r) c ∈ w').
  { apply reads_perform; [reading|reading|]. intros [c|] c' [= <-]. simpl. case_match; set_solver. }
  intros [release|] w4 C4 Hrel; [|by apply reads_ret]. specialize (Hrel release eq_refl).
  eapply reads_try with (Q := λ _ w', Trusted release environment ∈ w').
  { apply reads_perform; [reading|reading|]. intros []. left. }
  intros [] w5 C5 Htrust. destruct (_ || _) eqn:Hd; [by apply reads_ret|].
  apply orb_false_iff in Hd as [Hd Ha].
  apply negb_false_iff, bool_decide_eq_true in Hd. apply negb_false_iff, bool_decide_eq_true in Ha.
  eapply reads_try with (Q := λ o w', ∀ c, o = Some c → GotObject (channel_id (wave_product r) (wave_channel r)) c ∈ w').
  { apply reads_perform; [reading|reading|]. intros [c|] c' [= <-]. simpl. case_match; set_solver. }
  intros [c|] w6 C6 Hch; [|by apply reads_ret]. specialize (Hch c eq_refl).
  destruct (negb _) eqn:Hhead; [by apply reads_ret|]. apply negb_false_iff, bool_decide_eq_true in Hhead.
  eapply reads_try with (Q := λ rows w', SubscribedTo environment rows ∈ w').
  { apply reads_perform; [reading|reading|]. intros rows. left. }
  intros rows w7 C7 Hrows. destruct (find_first _ rows) as [row|] eqn:Hrow; [|by apply reads_ret].
  apply find_first_some in Hrow as [Hrow Hprod%bool_decide_eq_true].
  destruct (negb _) eqn:Hsub; [by apply reads_ret|]. apply negb_false_iff, bool_decide_eq_true in Hsub.
  eapply reads_try with (Q := λ v w', view_held v = false → LeaseFree environment ∈ w').
  { apply reads_perform; [reading|reading|]. intros v Hv. simpl. rewrite Hv. left. }
  intros v w8 C8 Hlease. apply reads_ret. destruct (view_held v); [done|]. specialize (Hlease eq_refl).
  apply extends_suffix in C4, C5, C6, C7, C8. unfold revalidated.
  split_and!; [eauto 10 using suffix_elem| | | |done].
  - exists release. split_and!; eauto 10 using suffix_elem.
  - exists c. split; [eauto 10 using suffix_elem|done].
  - exists rows. split; [eauto 10 using suffix_elem|]. destruct row as [? ?]; simpl in *. by subst.
Qed.

Lemma release_topology_calm held w :
  world_learns (release_topology_leases held) (λ _ w', calmly w w') w.
Proof.
  revert w. induction held as [|[topology token] held IH]; intros w; simpl.
  { apply learns_ret, extends_refl. }
  apply learns_do; [done|]. intros x. simpl. apply IH.
Qed.

Lemma declared_reads environment releases w :
  reads (declared_topologies environment releases) (λ m w',
    ∀ release, release ∈ releases → ∃ found, DeclaredTopology release found ∈ w' ∧
      ∀ t, found = Some t → environment ∈ topology_environments t →
           release ∈ entries m (topology_name t)) w.
Proof.
  unfold declared_topologies.
  eapply learns_mono; [eapply (reads_each wave_learnt (advance_allowed auth name) calm) with (I := λ m rest w',
    ∀ release, release ∈ releases → release ∈ rest ∨ ∃ found, DeclaredTopology release found ∈ w' ∧
      ∀ t, found = Some t → environment ∈ topology_environments t →
           release ∈ entries m (topology_name t))|].
  - intros release Hr. by left.
  - intros m a rest w1 HI.
    eapply reads_try with (Q := λ found w', DeclaredTopology a found ∈ w').
    { apply reads_perform; [reading|reading|]. intros found. left. }
    intros found w2 C2 Ha. apply reads_ret. split; [done|]. intros release Hr.
    destruct (HI release Hr) as [[->|?]%elem_of_cons|(f & Hf & Hin)]; [|by left|].
    + right. exists found. split; [done|]. intros t -> Henv. rewrite bool_decide_eq_true_2 by done.
      apply elem_of_push_entry. by right.
    + right. exists f. split; [by eapply suffix_elem; [eapply extends_suffix|]|].
      intros t Ht Henv. specialize (Hin t Ht Henv). case_match; [|done].
      case_bool_decide; [|done]. apply elem_of_push_entry. by left.
  - intros [m|] w' _ [Hc HI]; [|done]. split; [done|]. intros release Hr.
    destruct (HI release Hr) as [?%elem_of_nil|?]; done.
Qed.

Lemma policies_read environment policies w :
  reads (checked_policies environment policies)
    (λ _ w', ∀ release, release ∈ policies → Available environment release ∈ w') w.
Proof.
  unfold checked_policies.
  eapply learns_mono; [eapply (reads_each wave_learnt (advance_allowed auth name) calm) with (I := λ _ rest w',
    ∀ release, release ∈ policies → release ∈ rest ∨ Available environment release ∈ w')|].
  - intros release Hr. by left.
  - intros [] a rest w1 HI.
    eapply reads_try with (Q := λ _ w', Available environment a ∈ w').
    { apply reads_perform; [reading|reading|]. intros []. left. }
    intros [] w2 C2 Ha. apply reads_ret. split; [done|]. intros release Hr.
    destruct (HI release Hr) as [[->|?]%elem_of_cons|Hin]; [by right|by left|].
    right. by eapply suffix_elem; [eapply extends_suffix|].
  - intros [[]|] w' _ [Hc HI]; [|done]. split; [done|]. intros release Hr.
    destruct (HI release Hr) as [?%elem_of_nil|?]; done.
Qed.

(** One topology is held, and the policies of its releases were checked. *)
Definition topology_guarded (environment : string) (held : list (string * string)) (w : list wave_fact)
    (entry : string * list string) : Prop :=
  (∃ token, (entry.1, token) ∈ held ∧ TopologyHeld entry.1 token ∈ w)
  ∧ ∀ release, release ∈ entry.2 → Available environment release ∈ w.

Lemma claim_topology_reads n environment held entry w :
  reads (claim_topology n environment held entry) (λ '(held', stop) w',
    stop = false ∧ held ⊆ held' ∧ topology_guarded environment held' w' entry) w.
Proof.
  destruct entry as [topology policies]. unfold claim_topology.
  eapply reads_bind; [by apply quiet_perform; [|reading]|]. intros [token|e] w1 _ ->.
  - eapply reads_bind; [apply policies_read|]. intros [[]|e] w2 C2 Hav.
    + apply reads_ret. split; [done|]. split; [set_solver|]. split; [|done]. simpl.
      exists token. split; [set_solver|]. eapply suffix_elem; [by eapply extends_suffix|]. left.
    + eapply reads_bind with (Q := λ _ _, True); [|by intros; apply reads_ret].
      eapply learns_mono; [apply release_topology_calm|]. intros; by split.
  - eapply reads_bind with (Q := λ _ _, True); [|by intros; apply reads_ret].
    eapply learns_mono; [apply release_topology_calm|]. intros; by split.
Qed.

Lemma topology_guarded_mono environment held held' w w' entry :
  held ⊆ held' → calmly w w' → topology_guarded environment held w entry →
  topology_guarded environment held' w' entry.
Proof.
  intros Hh Hc [(token & Ht & Hw) Ha]. apply extends_suffix in Hc.
  split; [exists token; split; [by apply Hh|by eapply suffix_elem]|].
  intros release Hr. eapply suffix_elem; [done|]. by apply Ha.
Qed.

Lemma claim_topologies_reads r p environment w :
  reads (claim_topology_leases r p environment)
    (λ held w', topologies_guarded w' r p environment held) w.
Proof.
  unfold claim_topology_leases, topologies_guarded.
  destruct (steps_empty p) eqn:Hempty; [by apply reads_ret|].
  eapply reads_try; [apply declared_reads|]. intros m w1 _ Hdecl.
  eapply learns_mono; [eapply (reads_each wave_learnt (advance_allowed auth name) calm) with (I := λ held rest w',
    calmly w1 w' ∧ ∀ entry, entry ∈ btree_iter m → entry ∈ rest ∨ topology_guarded environment held w' entry)|].
  - split; [apply extends_refl|]. intros entry He. by left.
  - intros held entry rest w2 [C2 HI].
    eapply learns_mono; [apply claim_topology_reads|]. intros [[held' stop]|] w3 _ [C3 H3]; [|done].
    destruct H3 as (-> & Hsub & Hg). split; [done|]. split; [done|]. split; [by eapply extends_trans|].
    intros x Hx. destruct (HI x Hx) as [[->|?]%elem_of_cons|Hgx]; [by right|by left|].
    right. by eapply topology_guarded_mono.
  - intros [held|] w' _ [Hc HI]; [|done]. split; [done|]. intros _ release Hr.
    destruct HI as [C1 HI]. destruct (Hdecl release Hr) as (found & Hf & Hin).
    exists found. split; [by eapply suffix_elem; [eapply extends_suffix|]|]. intros t Ht Henv.
    specialize (Hin t Ht Henv). unfold entries in Hin.
    destruct (m !! topology_name t) as [policies|] eqn:Hm; simpl in Hin; [|by apply elem_of_nil in Hin].
    destruct (HI (topology_name t, policies)) as [?%elem_of_nil|[Hheld Hav]];
      [by apply elem_of_btree_iter|done|]. simpl in *. split; [done|]. by apply Hav.
Qed.

Lemma authorization_reads a environment plan w :
  reads (wave_authorization a environment plan)
    (λ g w', ∀ granted, g = Some granted → wave_granted w' a environment plan granted) w.
Proof.
  unfold wave_authorization, wave_granted. destruct a as [dir roots|reason].
  - eapply reads_bind; [by apply quiet_perform; [|intros []]|]. intros [] w1 _ ->; apply reads_ret; [|done].
    intros granted [= <-]. split; [done|]. left.
  - apply reads_ret. case_bool_decide; simpl; [|done]. by intros granted [= <-].
Qed.

Lemma load_wave_reads n w :
  reads (load_wave n) (λ r w', LoadedWave r ∈ w' ∧ wave_format_version r = WAVE_FORMAT_VERSION) w.
Proof.
  unfold load_wave. eapply reads_try with (Q := λ _ _, True); [apply reads_perform; reading|].
  intros [] w1 _ _. destruct (negb _); [by apply reads_ret|].
  eapply reads_try with (Q := λ found w', ∀ o r, found = Some o → record_from_object o = Ok r → LoadedWave r ∈ w').
  { apply reads_perform; [reading|reading|]. intros found o r -> Hr. simpl. rewrite Hr. left. }
  intros [o|] w2 _ Hl; [|by apply reads_ret]. apply reads_ret. simpl.
  destruct (record_from_object o) as [r|] eqn:Hr; [|done]. split; [by eapply Hl|].
  unfold record_from_object in Hr. apply bail_ok in Hr as [_ Hr].
  destruct (properties o !! "record") as [raw|]; [|done]. simpl in Hr.
  destruct (wave_of_json raw) as [r'|]; [|done]. simpl in Hr.
  apply bail_ok in Hr as [Hv [= <-]]. apply negb_false_iff in Hv. lia.
Qed.

(** *** Writing *)

Lemma wave_object_roundtrip r now :
  wave_format_version r = WAVE_FORMAT_VERSION → record_from_object (wave_object r now) = Ok r.
Proof.
  intros Hv. unfold record_from_object, wave_object. simpl.
  rewrite !lookup_insert_ne by done. rewrite lookup_insert_eq. simpl.
  rewrite wave_json_roundtrip. simpl. by rewrite Hv.
Qed.

(** Facts that run nothing and give nothing back. *)
Definition steady_fact (f : wave_fact) : bool :=
  match f with Ran _ | GaveBack _ _ => false | _ => true end.

Notation steadily := (extends steady_fact).

Lemma calmly_steadily w w' : calmly w w' → steadily w w'.
Proof. apply extends_weaken. by intros []. Qed.

Lemma steadily_ran w w' : steadily w w' → ran_any w' → ran_any w.
Proof. intros Hc [plan Hp]. exists plan. by eapply extends_elem. Qed.

(** The lease is held. *)
Definition holding (lease : WaveLease) (w : list wave_fact) : Prop :=
  wave_lease_name lease = name ∧ Acquired name (wave_lease_token lease) ∈ w
  ∧ GaveBack name (wave_lease_token lease) ∉ w.

Lemma holding_steady lease w w' : holding lease w → steadily w w' → holding lease w'.
Proof.
  intros (Hn & Ha & Hg) Hs. split_and!; [done|by eapply suffix_elem; [eapply extends_suffix|]|].
  intros Hin. by apply Hg, (extends_elem _ _ _ _ Hs).
Qed.

Lemma bound_by_suffix w w' r0 r : w `suffix_of` w' → bound_by w r0 r → bound_by w' r0 r.
Proof.
  intros Hs Hb j m id Hm Hid. destruct (Hb j m id Hm Hid) as [?|(p & Hp & He)]; [by left|].
  right. exists p. split; [by eapply suffix_elem|done].
Qed.

Lemma bound_by_placed w r0 r environment_of :
  bound_by w r0 r → plans_placed environment_of w → members_bound environment_of r0 → members_bound environment_of r.
Proof.
  intros Hb [Hc _] H0 j m id Hm Hid. destruct (Hb j m id Hm Hid) as [(m0 & Hm0 & <- & H)|(p & Hp & <-)].
  - by eapply H0.
  - by apply Hc.
Qed.

Lemma plan_of_member_placed w r0 i m p environment_of :
  plan_of_member w r0 i m p → plans_placed environment_of w → members_bound environment_of r0 →
  plan_environment p = member_environment m.
Proof.
  intros (m0 & Hm0 & He & H) [Hc Hl] H0. destruct (member_plan_id m0) as [id|] eqn:Hid.
  - rewrite (Hl id p) by apply H. rewrite <- He. by eapply H0.
  - by apply Hc, H.
Qed.

(** An update that keeps what the members are bound to. *)
Definition bindings (r : WaveRecord) : list (string * option string) :=
  (λ m, (member_environment m, member_plan_id m)) <$> wave_environments r.

Definition keeps_plan (f : WaveEnvironmentRecord → WaveEnvironmentRecord) : Prop :=
  ∀ m, member_environment (f m) = member_environment m ∧ member_plan_id (f m) = member_plan_id m.

Lemma alter_bindings (l : list WaveEnvironmentRecord) i f :
  keeps_plan f → (λ m, (member_environment m, member_plan_id m)) <$> alter f i l
  = (λ m, (member_environment m, member_plan_id m)) <$> l.
Proof.
  intros Hf. apply list_eq. intros j.
  rewrite !list_lookup_fmap. destruct (decide (j = i)) as [->|Hne].
  - rewrite list_lookup_alter_eq. destruct (l !! i) as [m|]; simpl; [|done].
    by destruct (Hf m) as [-> ->].
  - by rewrite list_lookup_alter_ne by done.
Qed.

Lemma at_member_bindings r i f : keeps_plan f → bindings (at_member r i f) = bindings r.
Proof. apply alter_bindings. Qed.

Lemma fail_policy_bindings r order : bindings (apply_fail_policy r order) = bindings r.
Proof.
  unfold apply_fail_policy. destruct (wave_fail_policy r); [|done]. unfold bindings. simpl. rewrite <- list_fmap_compose.
  apply list_fmap_ext. intros j m _. unfold compose, skip_after. by destruct (_ && _).
Qed.

Lemma after_evidence_bindings r s order : bindings (after_evidence r s order) = bindings r.
Proof. unfold after_evidence. destruct (env_failed s); [apply fail_policy_bindings|done]. Qed.

Lemma bound_by_bindings w r0 r r' : bindings r = bindings r' → bound_by w r0 r → bound_by w r0 r'.
Proof.
  intros He Hb j m' id Hm' Hid. pose proof (f_equal (lookup j) He) as Hj. unfold bindings in Hj.
  rewrite !list_lookup_fmap, Hm' in Hj. destruct (wave_environments r !! j) as [m|] eqn:Hm; [|done].
  injection Hj as Henv Hpid. rewrite <- Henv. eapply Hb; [done|]. by rewrite Hpid.
Qed.

Lemma bound_by_refl w r : bound_by w r r.
Proof. intros j m id Hm Hid. left. by exists m. Qed.

(** The state of the wave in hand. *)
Definition in_hand (r0 r : WaveRecord) (w : list wave_fact) : Prop :=
  LoadedWave r0 ∈ w ∧ wave_format_version r0 = WAVE_FORMAT_VERSION ∧ later_state r0 r ∧ bound_by w r0 r.

Lemma in_hand_steady r0 r w w' : in_hand r0 r w → steadily w w' → in_hand r0 r w'.
Proof.
  intros (Hl & Hv & Hs & Hb) H%extends_suffix. split_and!; [by eapply suffix_elem|done|done|by eapply bound_by_suffix].
Qed.

Lemma in_hand_later r0 r r' w : in_hand r0 r w → bindings r' = bindings r → later_state r0 r' → in_hand r0 r' w.
Proof. intros (? & ? & _ & ?) ? ?. split_and!; try done. by eapply bound_by_bindings. Qed.

Lemma pinned_version r r' : pinned r = pinned r' → wave_format_version r = wave_format_version r'.
Proof. by intros [=]. Qed.

Lemma persist_learns r0 r lease w :
  holding lease w → in_hand r0 r w →
  world_learns (persist r lease) (λ res w', steadily w w' ∧
    match res with Ok r' => (∃ now, r' = with_updated r now) ∧ last_saved w' = Some r' | Err _ => True end) w.
Proof.
  intros Hh (Hl & Hv & Hs & Hb). unfold persist.
  eapply learns_try with (Q := λ _ w', w' = w); [apply learns_perform; [done|by intros [?|?]]| |].
  2: { intros e w' _ ->. split; [by exists []|done]. }
  intros [] w1 _ ->. apply learns_do; [done|]. intros now. apply learns_do; [done|]. intros written. simpl.
  assert (record_from_object (wave_object (with_updated r now) written) = Ok (with_updated r now)) as Hr.
  { apply wave_object_roundtrip. simpl. rewrite <- (pinned_version r0 r); [done|]. apply Hs. }
  assert (may_save w (wave_object (with_updated r now) written) (wave_lease_name lease) (wave_lease_token lease)) as Hm.
  { destruct Hh as (-> & Ha & Hg). split_and!; [done|done|]. exists r0, (with_updated r now).
    split_and!; [done|done|by apply later_updated|done|]. intros environment_of. by apply bound_by_placed. }
  apply learns_do; [exact Hm|]. intros [[]|e]; simpl.
  - rewrite Hr. apply learns_ret. split; [by eexists|]. split; [by exists now|done].
  - apply learns_ret. split; [by exists []|done].
Qed.

(** A write that ends an operation. *)
Lemma persist_ends r0 r lease w :
  holding lease w → in_hand r0 r w → world_learns (persist r lease) (λ _ w', steadily w w') w.
Proof. intros Hh Hr. eapply learns_mono; [by eapply persist_learns|]. intros res w' _ [? _]. done. Qed.

(** *** Advancing *)

(** The member whose turn it is, in the record in hand. *)
Record at_turn (r0 r : WaveRecord) (i : nat) (m : WaveEnvironmentRecord) (w : list wave_fact) : Prop := {
  turn_hand : in_hand r0 r w;
  turn_open : wave_is_terminal (wave_status r) = false;
  turn_first : turn_of (statuses r0) i;
  turn_now : turn_of (statuses r) i;
  turn_member : wave_environments r !! i = Some m
}.

Definition same_place (m m' : WaveEnvironmentRecord) : Prop :=
  member_environment m = member_environment m' ∧ member_order m = member_order m'.

Notation ends p w := (world_learns p (λ _ _, True) w).

Lemma at_turn_steady r0 r i m w w' : at_turn r0 r i m w → steadily w w' → at_turn r0 r i m w'.
Proof. intros [H1 H2 H3 H4 H5] Hs. split; [by eapply in_hand_steady|done..]. Qed.

Lemma at_turn_updated r0 r i m w now : at_turn r0 r i m w → at_turn r0 (with_updated r now) i m w.
Proof. intros [(Hl & Hv & Hs & Hb) H2 H3 H4 H5]. split; [split_and!; [done|done|by apply later_updated|done]|done..]. Qed.

Lemma evidence_status p outcomes e :
  evidence_from_outcomes p outcomes = Ok e → ev_status e ∈ [EnvSucceeded; EnvFailed; EnvBlocked].
Proof.
  unfold evidence_from_outcomes. destruct (try_fold _ _ _) as [x|]; [|done].
  destruct (plan_state p); intros [= <-]; simpl; set_solver.
Qed.

(** A settled member, whatever the record's last order. *)
Lemma settled_hand r0 r i m w f s order :
  at_turn r0 r i m w → keeps_place f → keeps_plan f → member_status (f m) = s → s ∈ [EnvSucceeded; EnvFailed; EnvBlocked] →
  in_hand r0 (after_evidence (with_current_order (at_member r i f) order) s (member_order m)) w.
Proof.
  intros [Hh Ho _ Ht Hm] Hk Hkp Hs Hin.
  eapply in_hand_later; [done|by rewrite after_evidence_bindings; apply (at_member_bindings r i f)|].
  eapply later_settled; [apply Hh|done..].
Qed.

Lemma resume_settled r0 r i m lease w e digest :
  holding lease w → at_turn r0 r i m w → ev_status e ∈ [EnvSucceeded; EnvFailed; EnvBlocked] →
  ends (persist (after_evidence (at_member r i (λ m, member_evidence e digest (member_generation m) m))
                   (ev_status e) (member_order m)) lease) w.
Proof.
  intros Hh Ht He. eapply learns_mono; [eapply persist_ends; [done|]|done].
  change (at_member r i (λ m, member_evidence e digest (member_generation m) m))
    with (with_current_order (at_member r i (λ m, member_evidence e digest (member_generation m) m)) (current_order r)).
  by eapply settled_hand.
Qed.

Lemma resume_learns r0 r i m lease w :
  holding lease w → at_turn r0 r i m w →
  world_learns (resume_existing_plan r i m lease)
    (λ res w', match res with Ok None => calmly w w' | _ => True end) w.
Proof.
  intros Hh Ht. unfold resume_existing_plan.
  destruct (member_plan_id m) as [id|]; [|apply learns_ret, extends_refl].
  eapply learns_try with (Q := λ _ w', calmly w w'); [| |done].
  { apply learns_perform; [done|]. intros x. eexists. split; [done|]. by destruct x. }
  intros p w1 _ C1. apply calmly_steadily in C1 as S1.
  assert (holding lease w1) as Hh1 by by eapply holding_steady.
  assert (at_turn r0 r i m w1) as Ht1 by by eapply at_turn_steady.
  destruct (plan_state p) eqn:Hst; [by apply learns_ret|..];
    (eapply learns_try with (Q := λ _ _, True); [|intros; by apply learns_ret|done]).
  { eapply learns_mono; [eapply persist_ends; [done|]|done]. eapply in_hand_later; [apply Ht1|by apply (at_member_bindings (with_status r WaveRecoveryRequired))|].
    apply (later_run r0 r i m); try apply Ht1; [done|done|by right]. }
  all: eapply resume_settled; [done|done|];
    destruct (evidence_from_outcomes p []) as [e|] eqn:He; [by eapply evidence_status|simpl; set_solver].
Qed.

Lemma pins_pinned p r r' : pinned r = pinned r' → plan_pins_wave p r = Ok tt → plan_pins_wave p r' = Ok tt.
Proof.
  intros Hp. unfold plan_pins_wave. injection Hp as _ _ _ _ Hpr Hve Hch Hri Hrd Had _ _.
  by rewrite Hpr, Hve, Hch, Hri, Hrd, Had.
Qed.

Lemma revalidated_later w w' r r' environment :
  w `suffix_of` w' → pinned r = pinned r' → revalidated w r environment → revalidated w' r' environment.
Proof.
  intros Hs Hp (Hr & (o & Ho & Ht & Hd & Ha) & (c & Hc & Hh) & (rows & Hrows & Hin) & Hl).
  injection Hp as _ _ _ _ Hpr Hve Hch Hri Hrd Had _ _. unfold revalidated.
  rewrite <- Hpr, <- Hch, <- Hri, <- Hrd, <- Had.
  split_and!; [by eapply suffix_elem| | | |by eapply suffix_elem].
  - exists o. split_and!; try done; by eapply suffix_elem.
  - exists c. split; [by eapply suffix_elem|done].
  - exists rows. split; [by eapply suffix_elem|done].
Qed.

Lemma releases_pinned r r' p : pinned r = pinned r' → plan_releases r p = plan_releases r' p.
Proof. intros Hp. unfold plan_releases. injection Hp as _ _ _ _ _ _ _ -> _ _ _ _. done. Qed.

Lemma guarded_later w w' r r' p environment held :
  w `suffix_of` w' → pinned r = pinned r' → topologies_guarded w r p environment held →
  topologies_guarded w' r' p environment held.
Proof.
  intros Hs Hp Hg He release Hr. rewrite <- (releases_pinned r r') in Hr by done.
  destruct (Hg He release Hr) as (found & Hf & Ht). exists found. split; [by eapply suffix_elem|].
  intros t Hft Henv. destruct (Ht t Hft Henv) as [(token & Hin & Hh) Ha].
  split; [exists token; split; [done|by eapply suffix_elem]|by eapply suffix_elem].
Qed.

Lemma granted_later w w' a environment plan g :
  w `suffix_of` w' → wave_granted w a environment plan g → wave_granted w' a environment plan g.
Proof. intros Hs. unfold wave_granted. destruct a; [|done]. intros [? ?]. split; [done|by eapply suffix_elem]. Qed.

(** The plan a member is about to run. *)
Record runnable (r0 r : WaveRecord) (i : nat) (m : WaveEnvironmentRecord) (p : Plan) (g : plan_auth)
    (w : list wave_fact) : Prop := {
  run_plan_is : plan_of_member w r0 i m p;
  run_forward : has_rollback p = false;
  run_pins : plan_pins_wave p r = Ok tt;
  run_state : plan_state p ∈ [Computed; Blocked];
  run_checked : revalidated w r (member_environment m);
  run_granted : wave_granted w auth (member_environment m) (plan_id_of p) g;
  run_first : ¬ ran_any w
}.

Lemma at_member_compose r i f g : at_member (at_member r i g) i f = at_member r i (λ m, f (g m)).
Proof.
  unfold at_member, with_members. simpl. f_equal.
  apply list_eq. intros j. destruct (decide (j = i)) as [->|Hne].
  - rewrite !list_lookup_alter_eq. by destruct (wave_environments r !! i).
  - by rewrite !list_lookup_alter_ne by done.
Qed.

(** The record an execution error leaves. *)
Lemma execute_error_learns r0 r i m plan e lease w :
  holding lease w → at_turn r0 r i m w →
  ends (bind (record_execute_error r i m plan e) (λ r, persist r lease)) w.
Proof.
  intros Hh Ht. apply learns_do; [done|]. intros loaded. simpl.
  set (w1 := _ ++ w). assert (steadily w w1) as S1 by (eexists; split; [done|]; by destruct loaded).
  assert (holding lease w1) as Hh1 by by eapply holding_steady.
  assert (at_turn r0 r i m w1) as Ht1 by by eapply at_turn_steady.
  eapply learns_mono; [eapply persist_ends; [done|]|done]. destruct Ht1 as [Hand Hop _ Hturn Hm].
  eapply in_hand_later; [exact Hand| |].
  { destruct loaded as [p|]; [destruct (plan_state p)|]; rewrite ?fail_policy_bindings;
      unfold bindings; simpl; by rewrite !alter_bindings. }
  destruct Hand as (_ & _ & Hlater & _).
  destruct loaded as [p|]; [destruct (plan_state p)|]; rewrite ?at_member_compose.
  - by apply (later_wait r0 r i m); [..|right].
  - change (later_state r0 (with_status (at_member (at_member r i (member_detailed (failure_text e))) i
      (member_to EnvRunning)) WaveRecoveryRequired)). rewrite at_member_compose.
    by apply (later_run r0 r i m); [..|right].
  - change (later_state r0 (after_evidence (with_current_order (at_member r i
      (λ m, member_to EnvBlocked (member_detailed (failure_text e) m))) (current_order r)) EnvBlocked (member_order m))).
    by apply (later_settled r0 r i m); [..|set_solver].
  - change (later_state r0 (with_status (at_member (at_member r i (member_detailed (failure_text e))) i
      (member_to EnvRunning)) WaveRecoveryRequired)). rewrite at_member_compose.
    by apply (later_run r0 r i m); [..|right].
  - change (later_state r0 (after_evidence (with_current_order (at_member r i
      (λ m, member_to EnvFailed (member_detailed (failure_text e) m))) (current_order r)) EnvFailed (member_order m))).
    by apply (later_settled r0 r i m); [..|set_solver].
  - by apply (later_wait r0 r i m); [..|right].
Qed.

Lemma at_turn_suffix r0 r i m w w' : at_turn r0 r i m w → w `suffix_of` w' → at_turn r0 r i m w'.
Proof.
  intros [(Hl & Hv & Hs & Hb) ????] H. split; [|done..].
  split_and!; [by eapply suffix_elem|done..|by eapply bound_by_suffix].
Qed.

Lemma turn_moved r0 r i m f st w :
  at_turn r0 r i m w → env_is_complete (member_status (f m)) = false → wave_is_terminal st = false →
  later_state r0 (with_status (at_member r i f) st) → bound_by w r0 (with_status (at_member r i f) st) →
  at_turn r0 (with_status (at_member r i f) st) i (f m) w.
Proof.
  intros [(Hld & Hv & _ & _) Ho Hf Hn Hm] Hc Hst Hl Hb. split; [done|done|done| |].
  - simpl. rewrite (alter_statuses _ i f m Hm). by apply turn_kept.
  - simpl. by rewrite list_lookup_alter_eq, Hm.
Qed.

(** The evidence of a plan that ran. *)
Lemma capture_learns r0 r i m plan outcomes lease w :
  holding lease w → at_turn r0 r i m w →
  ends (try_bind (capture_plan_evidence r i m plan outcomes) (λ r, persist r lease)) w.
Proof.
  intros Hh Ht.
  eapply learns_try with (Q := λ res w', steadily w w' ∧ match res with Ok r' => in_hand r0 r' w' | Err _ => True end);
    [| |done].
  - unfold capture_plan_evidence.
    eapply learns_try with (Q := λ _ w', calmly w w'); [by apply learns_perform; [|intros [?|?]; eexists]| |].
    2: { intros e w' _ Hc. split; [by apply calmly_steadily|done]. }
    intros p w1 _ C1. simpl. destruct (evidence_from_outcomes p outcomes) as [ev|] eqn:Hev; simpl.
    2: { apply learns_ret. split; [by apply calmly_steadily|done]. }
    apply learns_do; [done|]. intros view.
    set (w2 := _ ++ w1). assert (calmly w w2) as C2.
    { eapply extends_trans; [exact C1|]. eexists. split; [done|]. destruct view; simpl; [by case_match|done]. }
    apply calmly_steadily in C2. destruct view as [view|]; apply learns_ret; [|by split].
    split; [done|]. eapply settled_hand; [by eapply at_turn_steady|done|done|done|by eapply evidence_status].
  - intros r' w' _ [Hs Hr]. eapply learns_mono; [eapply persist_ends; [|done]|done]. by eapply holding_steady.
Qed.

(** The record is all these use of the member but its place. *)
Lemma capture_place r i m m' plan outcomes :
  same_place m m' → capture_plan_evidence r i m plan outcomes = capture_plan_evidence r i m' plan outcomes.
Proof. intros [He Ho]. unfold capture_plan_evidence. by rewrite He, Ho. Qed.

Lemma error_place r i m m' plan e :
  same_place m m' → record_execute_error r i m plan e = record_execute_error r i m' plan e.
Proof. intros [_ Ho]. unfold record_execute_error. by rewrite Ho. Qed.

Lemma has_rollback_false p : has_rollback p = false → ∀ s, s ∈ steps p → step_action s ≠ Rollback.
Proof.
  intros Hr s Hs He. apply not_true_iff_false in Hr. apply Hr, existsb_elem.
  exists s. split; [done|by apply bool_decide_eq_true].
Qed.

Lemma find_first_at {A} (f : A → bool) l a :
  find_first f l = Some a →
  ∃ k, l !! k = Some a ∧ f a = true ∧ ∀ k' b, (k' < k)%nat → l !! k' = Some b → f b = false.
Proof.
  unfold find_first. induction l as [|b l IH]; simpl; [done|]. destruct (f b) eqn:Hb; simpl.
  - intros [= <-]. exists O. split_and!; [done|done|lia].
  - intros (k & Hk & Ha & Hbefore)%IH. exists (S k). split_and!; [done|done|].
    intros [|k'] c Hlt Hc; simpl in Hc; [by simplify_eq|]. apply (Hbefore k'); [lia|done].
Qed.

Lemma plan_pins_wave_ok p r : plan_pins_wave p r = Ok tt → pins_release p r.
Proof.
  unfold plan_pins_wave. destruct (find_first _ (inputs p)) as [i|] eqn:Hf.
  - intros [Hpins [Hsteps _]%bail_ok]%bail_ok. left. apply find_first_at in Hf as (k & Hk & Hi & Hbefore).
    repeat apply orb_false_iff in Hpins as [Hpins ?]. repeat match goal with
    | H : negb (bool_decide _) = false |- _ => apply negb_false_iff, bool_decide_eq_true in H
    end. apply bool_decide_eq_true in Hi. exists k, i. split_and!; try done.
    + intros k' i' Hlt Hi'. by apply (Hbefore k' i' Hlt) in Hi' as ?%bool_decide_eq_false.
    + intros s Hs. destruct (decide (step_product s = wave_product r)) as [|Hne]; [done|].
      apply not_true_iff_false in Hsteps. destruct Hsteps. apply existsb_elem. exists s. split; [done|].
      by rewrite bool_decide_eq_false_2.
  - destruct (existsb _ _) eqn:He; [|done]. intros _. right. split.
    + intros i Hi. by apply (proj1 (find_first_none _ _) Hf) in Hi as ?%bool_decide_eq_false.
    + apply existsb_elem in He as (s & Hs & ?%bool_decide_eq_true). by exists s.
Qed.

(** What a run is allowed by, once the record with the running member is
    written. *)
Lemma run_allowed r0 r i m p g lease held w :
  holding lease w → at_turn r0 r i m w → member_status m = EnvRunning → last_saved w = Some r →
  runnable r0 r i m p g w → topologies_guarded w r p (member_environment m) held →
  may_run name auth w (plan_id_of p) g (held_execution_leases lease held).
Proof.
  intros (Hn & Ha & Hg) [(Hl & _ & Hlater & _) _ Hf Hnow Hm] Hrun Hsaved [] Htop.
  exists r0, r, i, m, p, (wave_lease_token lease), held. split_and!; try done.
  1: { intros environment_of. by eapply plan_of_member_placed. }
  1: by apply has_rollback_false.
  1: by apply plan_pins_wave_ok.
  destruct lease as [n token]. simpl in *. by subst.
Qed.

Lemma plan_of_member_later w w' r0 i m m' p :
  w `suffix_of` w' → member_environment m = member_environment m' → member_plan_id m = member_plan_id m' →
  plan_of_member w r0 i m p → plan_of_member w' r0 i m' p.
Proof.
  intros Hs He Hi (m0 & Hm0 & He0 & H). exists m0. split; [done|]. rewrite <- He, <- Hi. split; [done|].
  destruct (member_plan_id m0); (split; [by eapply suffix_elem, H|apply H]).
Qed.

Lemma runnable_later r0 r r' i m m' p g w w' :
  pinned r = pinned r' → same_place m m' → member_plan_id m = member_plan_id m' → steadily w w' →
  runnable r0 r i m p g w → runnable r0 r' i m' p g w'.
Proof.
  intros Hp [He _] Hi Hs []. apply extends_suffix in Hs as Hsuf. split; rewrite <- ?He.
  - by eapply plan_of_member_later.
  - done.
  - by eapply pins_pinned.
  - done.
  - by eapply revalidated_later.
  - by eapply granted_later.
  - intros Hr. by eapply run_first0, steadily_ran.
Qed.

(** The member runs its plan. *)
Lemma run_member_learns r0 r i m m0 p g lease w :
  holding lease w → at_turn r0 r i m w → same_place m0 m → runnable r0 r i m p g w →
  ends (run_member r i m0 p g lease) w.
Proof.
  intros Hh Ht Hplace Hrun. unfold run_member. rewrite (proj1 Hplace).
  eapply learns_try; [apply claim_topologies_reads| |done]. intros held w1 _ [C1%calmly_steadily Hg].
  set (f := member_to EnvRunning). set (r1 := with_status (at_member r i f) WaveRunning).
  assert (pinned r = pinned r1) as Hp1 by (symmetry; by apply at_member_pinned).
  assert (at_turn r0 r1 i (f m) w1) as Ht1.
  { apply turn_moved; [by eapply at_turn_steady|done|done| |].
    - destruct Ht as [Hhand Hop _ Hnow Hm]. apply (later_run r0 r i m); [apply Hhand|done..|by left].
    - eapply bound_by_bindings; [symmetry; by apply (at_member_bindings r i f)|].
      eapply bound_by_suffix; [by eapply extends_suffix|]. destruct Ht as [Hhand _ _ _ _]. apply Hhand. }
  assert (holding lease w1) as Hh1 by by eapply holding_steady.
  eapply learns_bind; [eapply persist_learns; [done|apply Ht1]|].
  intros [r2|e] w2 _ [S2 H2].
  2: { eapply learns_bind; [apply release_topology_calm|]. intros [] w3 _ _. by apply learns_ret. }
  destruct H2 as [[now ->] Hsaved].
  assert (holding lease w2) as Hh2 by by eapply holding_steady.
  assert (at_turn r0 (with_updated r1 now) i (f m) w2) as Ht2 by (apply at_turn_updated; by eapply at_turn_steady).
  apply learns_do.
  { eapply run_allowed; [done|exact Ht2|done|done| |].
    - apply (runnable_later r0 r _ i m _ p g w); [exact Hp1|done|done|by eapply extends_trans|exact Hrun].
    - eapply guarded_later; [by eapply extends_suffix|exact Hp1|exact Hg]. }
  intros executed. set (w3 := wave_learnt _ _ executed ++ w2).
  assert (at_turn r0 (with_updated r1 now) i (f m) w3) as Ht3 by (eapply at_turn_suffix; [done|by exists [Ran (plan_id_of p)]]).
  assert (holding lease w3) as Hh3.
  { destruct Hh2 as (? & ? & ?). split_and!; [done|by right|]. by intros [?|?]%elem_of_cons. }
  eapply learns_bind; [apply release_topology_calm|]. intros [] w4 _ C4%calmly_steadily.
  assert (same_place m0 (f m)) as Hplace' by done.
  destruct executed as [outcomes|e].
  - rewrite (capture_place _ _ _ _ _ _ Hplace').
    eapply capture_learns; [by eapply holding_steady|by eapply at_turn_steady].
  - rewrite (error_place _ _ _ _ _ _ Hplace').
    eapply execute_error_learns; [by eapply holding_steady|by eapply at_turn_steady].
Qed.

Lemma bind_plan_learns r0 r i m p lease w :
  holding lease w → at_turn r0 r i m w →
  (member_plan_id m = None → CreatedFor (member_environment m) p ∈ w) →
  world_learns (bind_plan r i m p lease) (λ res w', steadily w w' ∧
    match res with
    | Ok r' => pinned r = pinned r'
        ∧ ∃ m', same_place m m' ∧ member_plan_id m' = Some (bound_plan m p) ∧ at_turn r0 r' i m' w'
    | Err _ => True
    end) w.
Proof.
  intros Hh Ht Hcreated. unfold bind_plan, bound_plan. destruct (member_plan_id m) eqn:Hid.
  { apply learns_ret. split; [by exists []|]. split; [done|]. by exists m. }
  set (f := member_bound _ _ _).
  assert (at_turn r0 (with_status (at_member r i f) (wave_status r)) i (f m) w) as Ht1.
  { apply turn_moved; [done|done|apply Ht| |].
    - destruct Ht as [Hhand Hop _ Hnow Hm]. apply (later_wait r0 r i m); [apply Hhand|done..|by left].
    - destruct Ht as [(_ & _ & _ & Hb) _ _ _ Hm]. intros j x id Hx Hxid. simpl in Hx.
      destruct (decide (j = i)) as [->|Hne].
      + rewrite list_lookup_alter_eq, Hm in Hx. injection Hx as <-. injection Hxid as <-. right. exists p.
        split; [by apply Hcreated|done].
      + rewrite list_lookup_alter_ne in Hx by done. by eapply Hb. }
  eapply learns_mono; [eapply persist_learns; [done|apply Ht1]|].
  intros [r'|] w' _ [Hs H]; (split; [done|]); [|done]. destruct H as [[now ->] _].
  split; [symmetry; by apply (at_member_pinned r i f)|]. exists (f m). split; [done|]. split; [done|].
  apply at_turn_updated. by eapply at_turn_steady.
Qed.

(** The plan a member has, or gets. *)
Lemma member_plan_learns m w :
  reads (match member_plan_id m with
         | Some id => perform (LoadPlan id)
         | None => perform (CreateWavePlan (member_environment m))
         end) (λ p w', match member_plan_id m with
                       | Some id => LoadedPlan id p ∈ w'
                       | None => CreatedFor (member_environment m) p ∈ w'
                       end) w.
Proof. destruct (member_plan_id m); (apply reads_perform; [reading|reading|intros p; left]). Qed.

Lemma advance_member_learns r0 r i m lease w :
  holding lease w → at_turn r0 r i m w → wave_environments r0 !! i = Some m → ¬ ran_any w →
  ends (advance_member auth r i m lease) w.
Proof.
  intros Hh Ht Hm0 Hran. unfold advance_member.
  eapply learns_try; [by eapply resume_learns| |done]. intros [r'|] w1 _ C1; [by apply learns_ret|].
  eapply learns_try; [apply revalidate_reads| |done]. intros [] w2 _ [C2 Hval].
  eapply learns_try; [apply member_plan_learns| |done]. intros p w3 _ [C3 Hp].
  destruct (has_rollback p) eqn:Hroll; [by apply learns_ret|].
  eapply learns_try with (Q := λ res w', w' = w3 ∧ plan_pins_wave p r = res); [by apply learns_ret| |done].
  intros [] ? _ [-> Hpins].
  assert (steadily w w3) as S3.
  { apply calmly_steadily. eapply extends_trans; [exact C1|]. by eapply extends_trans. }
  eapply learns_try; [eapply bind_plan_learns; [by eapply holding_steady|by eapply at_turn_steady|by intros Hid; rewrite Hid in Hp]| |done].
  intros r4 w4 _ [S4 [Hpin (m4 & Hplace & Hbound & Ht4)]].
  destruct (negb _) eqn:Hst; [by apply learns_ret|]. apply negb_false_iff, bool_decide_eq_true in Hst.
  eapply learns_try; [apply authorization_reads| |done]. intros granted w5 _ [C5%calmly_steadily Hg].
  assert (steadily w3 w5) as S35 by by eapply extends_trans.
  assert (holding lease w5) as Hh5 by (eapply holding_steady; [done|by eapply extends_trans]).
  assert (at_turn r0 r4 i m4 w5) as Ht5 by by eapply at_turn_steady.
  destruct granted as [g|].
  - eapply run_member_learns; [done|exact Ht5|exact Hplace|].
    apply extends_suffix in S35 as Hsuf. split; rewrite <- ?(proj1 Hplace).
    + exists m. split; [done|]. split; [apply Hplace|]. unfold bound_plan in Hbound. rewrite <- (proj1 Hplace).
      destruct (member_plan_id m); (split; [by eapply suffix_elem|done]).
    + done.
    + by eapply pins_pinned.
    + done.
    + apply (revalidated_later w2 _ r); [|done|exact Hval]. etrans; [by eapply extends_suffix|done].
    + by apply Hg.
    + intros Hr. apply Hran. eapply steadily_ran; [|exact Hr]. by eapply extends_trans.
  - eapply learns_mono; [eapply persist_ends; [done|]|done]. eapply in_hand_later; [apply Ht5|by apply (at_member_bindings r4)|].
    destruct Ht5 as [Hhand Hop _ Hnow Hm]. apply (later_wait r0 r4 i m4); [apply Hhand|done..|by right].
Qed.

Lemma advance_locked_learns lease w :
  holding lease w → ¬ ran_any w → ends (advance_locked name auth lease) w.
Proof.
  intros Hh Hran. unfold advance_locked.
  eapply learns_try with (Q := λ _ w', w' = w); [by apply learns_perform; [|intros [?|?]]| |done].
  intros [] w1 _ ->. eapply learns_try; [apply load_wave_reads| |done]. intros r0 w2 _ [C2%calmly_steadily [Hl Hv]].
  assert (holding lease w2) as Hh2 by by eapply holding_steady.
  assert (¬ ran_any w2) as Hran2 by (intros ?; by eapply Hran, steadily_ran).
  assert (Hb0 : bound_by w2 r0 r0) by apply bound_by_refl.
  eapply learns_try with (Q := λ res w', steadily w2 w' ∧
    match res with Ok r => in_hand r0 r w' ∧ wave_environments r = wave_environments r0 | Err _ => True end); [| |done].
  { case_bool_decide as Hst; [|by apply learns_ret; split; [exists []|split_and!]].
    assert (later_state r0 (with_decision (with_status r0 WaveRunning) "resume")) as Hres.
    { eapply later_step; [apply later_state_refl|done|]. intros _. unfold course_of. simpl. rewrite Hst.
      apply forward_resume. }
    eapply learns_mono; [by eapply persist_learns|]. intros [r|] w' _ [S3 H]; (split; [done|]); [|done].
    destruct H as [[now ->] _]. split; [|done]. eapply in_hand_steady; [|done]. by split_and!. }
  intros r w3 _ [S3 [Hhand Heq]].
  assert (holding lease w3) as Hh3 by by eapply holding_steady.
  destruct (wave_is_terminal (wave_status r)) eqn:Hterm; [by apply learns_ret|].
  destruct (pending_position r) as [i|] eqn:Hpos.
  - destruct (wave_environments r !! i) as [m|] eqn:Hm; [|by apply learns_ret].
    apply pending_turn in Hpos. eapply advance_member_learns; [done| | |].
    + split; [done|done| |done|exact Hm]. by rewrite <- Heq.
    + by rewrite <- Heq.
    + intros Hr. by eapply Hran2, steadily_ran.
  - eapply learns_mono; [eapply persist_ends; [done|]|done]. eapply in_hand_later; [done|done|].
    eapply later_step; [apply Hhand|done|]. intros _. apply forward_end; [done|].
    intros i. by apply no_turn.
Qed.

(** The lease is taken before the body and given back after it. *)
Lemma under_lease_learns {A} (body : WaveLease → wave_prog A) w :
  (∀ token, GaveBack name token ∉ w) → ¬ ran_any w →
  (∀ lease w', holding lease w' → ¬ ran_any w' → ends (body lease) w') →
  ends (under_wave_lease name body) w.
Proof.
  intros Hfree Hran Hbody. unfold under_wave_lease.
  eapply learns_try with (Q := λ res w', match res with Ok lease => holding lease w' ∧ ¬ ran_any w' | Err _ => True end);
    [| |done].
  - apply learns_do; [done|]. intros now. apply learns_do; [done|]. intros [token|e]; apply learns_ret; [|done].
    simpl. split.
    + split_and!; [done|left|]. intros [?|?]%elem_of_cons; [done|]. by eapply Hfree.
    + intros [plan [?|Hin]%elem_of_cons]; [done|]. apply Hran. by exists plan.
  - intros lease w1 _ [Hh Hr]. eapply learns_bind; [by apply Hbody|]. intros res w2 _ _.
    apply learns_do; [done|]. intros released. by apply learns_ret.
Qed.

Lemma advance_learns : ends (advance name auth) [].
Proof.
  apply under_lease_learns; [by intros token ?%elem_of_nil|by intros [? ?%elem_of_nil]|].
  intros. by apply advance_locked_learns.
Qed.

Lemma stop_learns : ends (stop_wave name) [].
Proof.
  apply under_lease_learns; [by intros token ?%elem_of_nil|by intros [? ?%elem_of_nil]|].
  intros lease w Hh _. eapply learns_try; [apply load_wave_reads| |done].
  intros r0 w2 _ [C2%calmly_steadily [Hl Hv]].
  destruct (wave_is_terminal (wave_status r0)) eqn:Hterm; [by apply learns_ret|].
  eapply learns_mono; [eapply persist_ends; [by eapply holding_steady|]|done].
  split_and!; [exact Hl|done| |by apply (bound_by_bindings _ _ r0), bound_by_refl]. eapply later_step; [apply later_state_refl|done|]. intros _.
  by apply forward_stop.
Qed.
End Facts.

(** ** Results *)

Section Results.
Context {E : PlanEncoding} {J : WaveJson} {JL : WaveJsonLaws J}.

(** What a run learns, whatever it may do. *)
Definition on_wave : Semantics wave_effect (list wave_fact) := learning wave_learnt (λ _ _ _, True).

Lemma reaches_on_wave {A X} (e : wave_effect X) (p : wave_prog A) allowed w w' :
  reaches on_wave e p w w' → reaches (learning wave_learnt allowed) e p w w'.
Proof. intros Hr. induction Hr; [constructor|by eapply reaches_later]. Qed.

(** C20: an [advance] runs a plan only for the first member that is not
    complete, in the record as loaded and as written last, where that member
    is marked running.  The plan is the one the loaded record binds the member
    to, or, when it binds it to none, one created for the member's own
    environment, to which the record written last binds it; so, where plans
    are created for the environment asked for, it is a plan of the member's
    environment, and every record an [advance] writes again binds members only
    to plans of their environments.  The plan has no rollback step, is computed
    or blocked, and pins the wave's release: its first input of the wave's
    product names the release and the plan changes nothing else, or it has no
    such input but a step of the product; the release is not recalled, keeps its digests, is trusted for the environment,
    is the head of the wave's channel, and the environment subscribes to it and
    holds no lease; the plan is authorized for this environment, every topology
    it may disturb is leased with its minimum checked; and the wave's own lease
    and these are what the execution keeps.  No other plan ran before. *)
Theorem wave_runs_in_order auth name w :
  (∀ plan granted leases, reaches on_wave (RunPlan plan granted leases) (advance name auth) [] w →
     may_run name auth w plan granted leases)
  ∧ (∀ o lease token, reaches on_wave (GuardedUpdate o lease token) (advance name auth) [] w → may_save w o lease token).
Proof.
  split; [intros plan granted leases Hr|intros o lease token Hr];
    apply (reaches_on_wave _ _ (advance_allowed auth name)) in Hr;
    exact (learns_reaches _ _ _ _ _ _ _ (advance_learns auth name) Hr).
Qed.

(** *** The history of a wave *)

(** An [advance] or a [stop_wave] that reached [w], finished or not: what it
    loaded was [r], and [r'] is what it wrote last. *)
Inductive wave_command (name : string) : WaveRecord → WaveRecord → Prop :=
| advanced {X} (e : wave_effect X) auth r r' w :
    reaches on_wave e (advance name auth) [] w →
    (∀ x, LoadedWave x ∈ w → x = r) → last_saved w = Some r' → wave_command name r r'
| stopped {X} (e : wave_effect X) r r' w :
    reaches on_wave e (stop_wave name) [] w →
    (∀ x, LoadedWave x ∈ w → x = r) → last_saved w = Some r' → wave_command name r r'.

Lemma saved_later auth name {A X} (e : wave_effect X) (p : wave_prog A) Q w w' :
  wp (learning wave_learnt (advance_allowed auth name)) p Q w → reaches on_wave e p w w' →
  (∀ r, SavedWave r ∈ w → ∃ r0, LoadedWave r0 ∈ w ∧ later_state r0 r) →
  ∀ r, SavedWave r ∈ w' → ∃ r0, LoadedWave r0 ∈ w' ∧ later_state r0 r.
Proof.
  intros Hl Hr. induction Hr as [|Y e' k x w w' Hr IH]; [done|].
  destruct Hl as [Ha Hk]. intros Hsaved. apply IH; [apply Hk|]. simpl in *.
  intros r [Hin|Hin]%elem_of_app.
  - destruct e'; simpl in Hin;
      try (repeat case_match; repeat apply elem_of_cons in Hin as [Hin|Hin]; done || by apply elem_of_nil in Hin).
    destruct Ha as (_ & _ & r0 & r1 & Hl0 & Hr1 & Hlater & _). rewrite Hr1 in Hin.
    destruct x; [|by apply elem_of_nil in Hin]. apply list_elem_of_singleton in Hin as [= ->].
    exists r0. split; [|done]. apply elem_of_app. by right.
  - destruct (Hsaved r Hin) as (r0 & Hl0 & Hlater). exists r0. split; [|done].
    apply elem_of_app. by right.
Qed.

Lemma last_saved_elem w r : last_saved w = Some r → SavedWave r ∈ w.
Proof.
  unfold last_saved. induction w as [|f w IH]; simpl; [done|]. destruct f; simpl; intros H;
    try (right; by apply IH). injection H as ->. left.
Qed.

Lemma command_later name r r' : wave_command name r r' → later_state r r'.
Proof.
  intros Hc. destruct Hc as [X e auth r r' w Hr Hl Hs|X e r r' w Hr Hl Hs]; apply last_saved_elem in Hs.
  - destruct (saved_later auth name e _ _ _ _ (advance_learns auth name) Hr) with r' as (r0 & H0 & Hlater);
      [by intros ? ?%elem_of_nil|done|]. by rewrite (Hl r0 H0) in Hlater.
  - destruct (saved_later (WaveDevelopment "") name e _ _ _ _ (stop_learns _ name) Hr) with r'
      as (r0 & H0 & Hlater); [by intros ? ?%elem_of_nil|done|]. by rewrite (Hl r0 H0) in Hlater.
Qed.

Lemma later_state_trans r1 r2 r3 : later_state r1 r2 → later_state r2 r3 → later_state r1 r3.
Proof.
  intros [P1 C1] [P2 C2]. split; [congruence|]. intros Ho. etrans; [by apply C1|].
  rewrite (pinned_policy _ _ P1). apply C2. by eapply orders_pinned.
Qed.

Lemma history_later name r r' : rtc (wave_command name) r r' → later_state r r'.
Proof.
  induction 1 as [r|r r1 r2 Hc _ IH]; [apply later_state_refl|].
  eapply later_state_trans; [by eapply command_later|done].
Qed.

Lemma fresh_orders s release digest artifact identity now :
  orders_ok (fresh_wave s release digest artifact identity (imap fresh_member (spec_environments s)) now).
Proof.
  intros i m Hm. simpl in Hm. rewrite list_lookup_imap in Hm.
  destruct (spec_environments s !! i); [|done]. by injection Hm as <-.
Qed.

Lemma fresh_ok policy s release digest artifact identity now :
  course_ok policy (course_of
    (fresh_wave s release digest artifact identity (imap fresh_member (spec_environments s)) now)).
Proof.
  assert (∀ i x, (statuses (fresh_wave s release digest artifact identity
      (imap fresh_member (spec_environments s)) now)) !! i = Some x → x = EnvUnstarted) as H.
  { intros i x Hx. rewrite list_lookup_fmap in Hx. simpl in Hx. rewrite list_lookup_imap in Hx.
    destruct (spec_environments s !! i); [|done]. by injection Hx as <-. }
  split; simpl.
  - intros i j si sj _ _ Hj. by rewrite (H j sj Hj).
  - intros i j si sj _ _ Hi. by rewrite (H i si Hi).
  - intros i si _ Hi. by rewrite (H i si Hi).
  - intros j Hj. by apply H in Hj.
  - done.
  - intros [i Hi]%list_elem_of_lookup. by apply H in Hi.
Qed.

(** C10: whatever [advance] and [stop_wave] commands follow each other on an
    admitted wave, each cut short at any point: what the wave was admitted
    with never changes; its record follows the abstract course of a wave, step
    by step from the record before; a member has started only once every
    member before it is complete; after a failure a stop-on-failure wave has
    failed and skipped the rest, and nothing else is skipped; a wave that
    succeeded has only members that did; and what a member ended with stays. *)
Theorem wave_history_ordered s release digest artifact identity now r r' :
  let r0 := fresh_wave s release digest artifact identity (imap fresh_member (spec_environments s)) now in
  rtc (wave_command (spec_name s)) r0 r → rtc (wave_command (spec_name s)) r r' →
  pinned r' = pinned r0
  ∧ rtc (forward (spec_fail_policy s)) (course_of r) (course_of r')
  ∧ course_ok (spec_fail_policy s) (course_of r')
  ∧ complete_kept (course_of r) (course_of r').
Proof.
  intros r0 [P1 C1]%history_later [P2 C2]%history_later.
  pose proof (fresh_orders s release digest artifact identity now) as Ho. fold r0 in Ho.
  specialize (C1 Ho). specialize (C2 (orders_pinned _ _ P1 Ho)).
  rewrite <- (pinned_policy _ _ P1) in C2. change (wave_fail_policy r0) with (spec_fail_policy s) in *.
  split_and!; [congruence|done| |by eapply course_kept].
  eapply course_stays_ok; [exact C2|]. eapply course_stays_ok; [exact C1|]. apply fresh_ok.
Qed.
End Results.

(** ** A wave over two environments *)
Module WaveExamples.
#[local] Existing Instance PlainEncoding.instance.

Definition status_code (s : WaveStatus) : nat :=
  match s with
  | WaveAdmitted => 0 | WaveRunning => 1 | WaveAwaitingApproval => 2 | WaveSucceeded => 3
  | WaveFailed => 4 | WaveStopped => 5 | WaveRollingBack => 6 | WaveRolledBack => 7
  | WaveRecoveryRequired => 8
  end.

Definition code_status (n : nat) : WaveStatus :=
  match n with
  | 0 => WaveAdmitted | 1 => WaveRunning | 2 => WaveAwaitingApproval | 3 => WaveSucceeded
  | 4 => WaveFailed | 5 => WaveStopped | 6 => WaveRollingBack | 7 => WaveRolledBack
  | _ => WaveRecoveryRequired
  end%nat.

#[local] Instance WaveStatus_countable : Countable WaveStatus.
Proof. apply (inj_countable' status_code code_status). by intros []. Defined.

Definition member_code (s : WaveEnvironmentStatus) : nat :=
  match s with
  | EnvUnstarted => 0 | EnvRunning => 1 | EnvAwaitingApproval => 2 | EnvSucceeded => 3
  | EnvFailed => 4 | EnvBlocked => 5 | EnvSkipped => 6 | EnvRolledBack => 7
  end.

Definition code_member (n : nat) : WaveEnvironmentStatus :=
  match n with
  | 0 => EnvUnstarted | 1 => EnvRunning | 2 => EnvAwaitingApproval | 3 => EnvSucceeded
  | 4 => EnvFailed | 5 => EnvBlocked | 6 => EnvSkipped | _ => EnvRolledBack
  end%nat.

#[local] Instance WaveEnvironmentStatus_countable : Countable WaveEnvironmentStatus.
Proof. apply (inj_countable' member_code code_member). by intros []. Defined.

#[local] Instance WaveFailPolicy_countable : Countable WaveFailPolicy.
Proof.
  apply (inj_countable' (λ p, bool_decide (p = StopOnFailure))
           (λ b : bool, if b then StopOnFailure else ContinueAfterFailure)). by intros [].
Defined.

#[local] Instance member_countable : Countable WaveEnvironmentRecord.
Proof.
  apply (inj_countable
    (λ m, [encode (member_environment m); encode (member_order m); encode (member_status m);
           encode (member_plan_id m); encode (member_plan_digest m); encode (gate_result m);
           encode (health_result m); encode (terminal_outcome m); encode (member_generation m);
           encode (member_detail m)])
    (λ l, match l with
     | [e0; e1; e2; e3; e4; e5; e6; e7; e8; e9] =>
       x0 ← decode e0; x1 ← decode e1; x2 ← decode e2; x3 ← decode e3; x4 ← decode e4;
       x5 ← decode e5; x6 ← decode e6; x7 ← decode e7; x8 ← decode e8; x9 ← decode e9;
       Some {| member_environment := x0; member_order := x1; member_status := x2;
               member_plan_id := x3; member_plan_digest := x4; gate_result := x5;
               health_result := x6; terminal_outcome := x7; member_generation := x8;
               member_detail := x9 |}
     | _ => None
     end)).
  intros []. repeat (cbn -[encode decode]; rewrite decode_encode). reflexivity.
Defined.

#[local] Instance wave_countable : Countable WaveRecord.
Proof.
  apply (inj_countable
    (λ r, [encode (wave_format_version r); encode (wave_name r); encode (wave_record_id r);
           encode (identity_digest r); encode (wave_product r); encode (wave_version r);
           encode (wave_channel r); encode (wave_release_id r); encode (wave_release_digest r);
           encode (wave_artifact_digest r); encode (wave_fail_policy r); encode (wave_status r);
           encode (wave_environments r); encode (current_order r); encode (operator_decision r);
           encode (wave_created_at r); encode (wave_updated_at r)])
    (λ l, match l with
     | [e0; e1; e2; e3; e4; e5; e6; e7; e8; e9; e10; e11; e12; e13; e14; e15; e16] =>
       x0 ← decode e0; x1 ← decode e1; x2 ← decode e2; x3 ← decode e3; x4 ← decode e4;
       x5 ← decode e5; x6 ← decode e6; x7 ← decode e7; x8 ← decode e8; x9 ← decode e9;
       x10 ← decode e10; x11 ← decode e11; x12 ← decode e12; x13 ← decode e13;
       x14 ← decode e14; x15 ← decode e15; x16 ← decode e16;
       Some {| wave_format_version := x0; wave_name := x1; wave_record_id := x2;
               identity_digest := x3; wave_product := x4; wave_version := x5; wave_channel := x6;
               wave_release_id := x7; wave_release_digest := x8; wave_artifact_digest := x9;
               wave_fail_policy := x10; wave_status := x11; wave_environments := x12;
               current_order := x13; operator_decision := x14; wave_created_at := x15;
               wave_updated_at := x16 |}
     | _ => None
     end)).
  intros []. repeat (cbn -[encode decode]; rewrite decode_encode). reflexivity.
Defined.

#[local] Instance plain_json : WaveJson := {|
  wave_json r := PlainEncoding.bits (encode r);
  wave_of_json s := decode (PlainEncoding.of_bits s);
  identity_json s release digest artifact := spec_name s +:+ release +:+ digest +:+ artifact |}.

#[local] Instance plain_laws : WaveJsonLaws plain_json.
Proof. split. intros r. simpl. rewrite PlainEncoding.of_bits_bits. apply decode_encode. Qed.

Definition spec : ExecutableWaveSpec := {|
  spec_name := "spring"; spec_product := "api"; spec_version := "2.0.0"; spec_channel := "stable";
  spec_environments := ["local"; "edge"]; spec_fail_policy := StopOnFailure |}.

Definition admitted : WaveRecord :=
  fresh_wave spec (release_id "api" "2.0.0") "d" "a" "i" (imap fresh_member (spec_environments spec)) 5.

Definition upgrade : Step := {|
  step_id := "s"; step_order := 0; step_product := "api"; step_instance := "";
  step_action := Upgrade; step_from := Some "1.0.0"; step_to := "2.0.0";
  step_release_id := release_id "api" "2.0.0"; step_release_digest := "d";
  step_artifact_digest := "a"; step_workdir := ""; step_restore := None; step_host := None |}.

Definition plan (state : PlanState) : Plan := {|
  format_version := 1; plan_id_of := "p1"; content_id := ""; plan_environment := "local";
  created_at := 6; inputs := [{| input_product := "api"; input_instance := "";
    input_channel := "stable"; input_channel_id := channel_id "api" "stable";
    input_desired_version := "2.0.0"; input_release_id := release_id "api" "2.0.0";
    input_release_digest := "d"; input_artifact_digest := "a"; input_deployed_version := Some "1.0.0" |}];
  steps := [upgrade]; plan_state := state;
  gates_skipped := None; status_detail := ""; maintenance_blocked := false;
  prior_warnings := []; recalled_recovery_reason := None; credential_runway := None |}.

Definition object (id : string) (props : list (string * string)) : Object := {|
  object_id := id; object_kind := ""; object_name := ""; object_namespace := NS; external_id := "";
  properties := list_to_map props; created := 0; updated := 0 |}.

Definition pair : TopologySection := {|
  topology_name := "pair"; topology_environments := ["local"; "edge"];
  anti_affinity := AffinityZone; min_available := Some 1 |}.

(** A store that holds the record [r]; a plan runs to [state]. *)
Definition answer (r : WaveRecord) (state : PlanState) : answers wave_effect := λ X e,
  match e in wave_effect X return X with
  | Now => 9
  | AcquireWave _ _ => Ok "t"
  | GetObject id =>
    Ok (if decide (id = wave_id "spring") then Some (wave_object r 5)
        else if decide (id = release_id "api" "2.0.0")
             then Some (object id [("digest", "d"); ("artifact_digest", "a")])
        else Some (object id [("current_release", release_id "api" "2.0.0")]))
  | CreateOnce _ => Ok true
  | EnvironmentNamed environment => Ok (object (env_id environment) [])
  | LivePolicy _ => Ok None
  | EffectiveFor _ _ => Ok None
  | IsRecalled _ => Ok false
  | Subscriptions _ => Ok [("api", "stable")]
  | InspectLease _ => Ok {| view_held := false; view_owner := None; view_generation := Some 3 |}
  | LoadPlan _ => Ok (plan state)
  | CreateWavePlan _ => Ok (plan Computed)
  | CreateFromSteps _ _ => Ok (plan Computed)
  | RollbackStep _ _ => Ok upgrade
  | TopologyOf _ => Ok (Some pair)
  | AcquireTopology _ _ => Ok "u"
  | ApprovalOnFile _ => true
  | RunPlan _ _ _ => Ok []
  | RefreshWave _ _ | ReleaseWave _ _ | GuardedUpdate _ _ _ | RequireWaveSchema
  | DeployableTrust _ _ | RequireAvailable _ _ | ReleaseTopology _ _ => Ok tt
  end.

Definition auth : wave_auth := WaveDevelopment "demo".

Definition final (x : result WaveRecord failure * list wave_fact) : option course :=
  match x.1 with Ok r => Some (course_of r) | Err _ => None end.

(** One [advance] rolls out the first environment and leaves the second. *)
Example first_environment :
  final (run on_wave (answer admitted Succeeded) (advance "spring" auth) [])
  = Some (WaveRunning, [EnvSucceeded; EnvUnstarted]).
Proof. vm_compute. reflexivity. Qed.

(** A failure ends the wave. *)
Example failure_skips_the_rest :
  final (run on_wave (answer admitted Failed) (advance "spring" auth) [])
  = Some (WaveFailed, [EnvFailed; EnvSkipped]).
Proof. vm_compute. reflexivity. Qed.

(** What was learnt when the plan of the first environment runs. *)
Definition learnt_at (n : nat) (h : answers wave_effect) (p : wave_prog WaveRecord) : list wave_fact :=
  world_at [] (nth_effect on_wave h n p []).

Lemma wave_runs_in_order_witness :
  may_run "spring" auth (learnt_at 24 (answer admitted Succeeded) (advance "spring" auth)) "p1"
    (PlanDevelopment "demo")
    (held_execution_leases {| wave_lease_name := "spring"; wave_lease_token := "t" |} [("pair", "u")]).
Proof.
  apply (proj1 (wave_runs_in_order auth "spring" (learnt_at 24 (answer admitted Succeeded) (advance "spring" auth)))).
  refine (nth_reaches on_wave (answer admitted Succeeded) 24 (advance "spring" auth) []
    (At (RunPlan "p1" (PlanDevelopment "demo")
           (held_execution_leases {| wave_lease_name := "spring"; wave_lease_token := "t" |} [("pair", "u")]))
       (learnt_at 24 (answer admitted Succeeded) (advance "spring" auth))) _).
  vm_compute. reflexivity.
Defined.

Definition record_after (w : list wave_fact) : WaveRecord := default admitted (last_saved w).

Definition loads_only (r : WaveRecord) (w : list wave_fact) : bool :=
  forallb (λ f, match f with LoadedWave x => bool_decide (x = r) | _ => true end) w.

Lemma loads_only_spec r w : loads_only r w = true → ∀ x, LoadedWave x ∈ w → x = r.
Proof.
  intros H x Hx. apply forallb_elem with (a := LoadedWave x) in H; [|done]. by apply bool_decide_eq_true in H.
Qed.

(** The whole first [advance], up to the release of its lease. *)
Definition rolled_out : WaveRecord :=
  record_after (learnt_at 32 (answer admitted Succeeded) (advance "spring" auth)).

Lemma first_command : wave_command "spring" admitted rolled_out.
Proof.
  apply (advanced "spring" (ReleaseWave "spring" "t") auth admitted rolled_out
           (learnt_at 32 (answer admitted Succeeded) (advance "spring" auth))).
  - refine (nth_reaches on_wave (answer admitted Succeeded) 32 (advance "spring" auth) []
      (At (ReleaseWave "spring" "t") (learnt_at 32 (answer admitted Succeeded) (advance "spring" auth))) _).
    vm_compute. reflexivity.
  - apply loads_only_spec. vm_compute. reflexivity.
  - vm_compute. reflexivity.
Qed.

Lemma wave_history_ordered_witness :
  pinned rolled_out = pinned admitted
  ∧ rtc (forward StopOnFailure) (course_of admitted) (course_of rolled_out)
  ∧ course_ok StopOnFailure (course_of rolled_out)
  ∧ complete_kept (course_of admitted) (course_of rolled_out).
Proof.
  apply (wave_history_ordered spec (release_id "api" "2.0.0") "d" "a" "i" 5 admitted rolled_out).
  - apply rtc_refl.
  - apply rtc_once, first_command.
Defined.

(** A rollback that ends after its first member leaves the wave rolling back,
    which is not a terminal state: the next [advance] upgrades the member that
    had not started, and the wave ends as succeeded. *)
Definition signed : wave_auth := WaveSigned "approvals" "roots".

Definition rolling_back : WaveRecord :=
  record_after (learnt_at 26 (answer rolled_out Succeeded) (rollback_wave "spring" signed)).

Example interrupted_rollback_goes_forward :
  course_of rolling_back = (WaveRollingBack, [EnvRolledBack; EnvUnstarted])
  ∧ final (run on_wave (answer rolling_back Succeeded) (advance "spring" signed) [])
    = Some (WaveSucceeded, [EnvRolledBack; EnvSucceeded]).
Proof. vm_compute. done. Qed.
End WaveExamples.
