(* ===== verification/AuthContext.v ===== *)
(** * Authenticated request contexts

    [auth_context.rs]: who calls, with which delivery capabilities and for
    which tenant, and how a host composes the authenticators that say so.
    Authenticators are the interface: a community token table is one, an
    enterprise extension behind its adapter another, and the stack a host
    builds at startup dispatches between them by the credential. *)

From S2P Require Import Prelude RustStr.

(** ** Credentials and principals *)

Definition AUTH_CONTEXT_CONTRACT_VERSION : Z := 1.

Record HostIdentityFacts := { host_uid : Z; host_user : string; host_groups : list string }.

Record CredentialMaterial := {
  request_id : string;
  bearer_token : option string;
  assertion : option (list Byte.byte);
  peer_credentials : option Z
}.

Inductive AuthError :=
| InvalidCredential (text : string)
| Unauthorized (text : string)
| Forbidden (text : string)
| IncompatibleContract (found expected : Z).

(** [trim().is_empty()]. *)
Definition is_blank (s : string) : bool := str_is_empty (trim s).

(** [CredentialMaterial::validate]. *)
Definition validate_credential (c : CredentialMaterial) : result unit AuthError :=
  bail_if is_blank (request_id c) with (InvalidCredential "request id must not be empty") in
  bail_if match bearer_token c with Some t => is_blank t | None => false end
    with (InvalidCredential "bearer token must not be empty when present") in
  bail_if match assertion c with Some [] => true | _ => false end
    with (InvalidCredential "assertion must not be empty when present") in
  bail_if negb (is_some_b (bearer_token c)) && negb (is_some_b (assertion c))
          && negb (is_some_b (peer_credentials c))
    with (InvalidCredential "credential material must include a bearer token, assertion, or peer credentials") in
  Ok tt.

(** Minted for an extension that was loaded at startup. *)
Record TenantDerivationAuthority := { authority_extension : string }.

Record TenantContext := { tenant_id : string; tenant_extension : string }.

Inductive PrincipalKind := Human | Service | RuntimePrincipal | ManagementPrincipal.
Record PrincipalIdentity := { principal_id : string; principal_kind : PrincipalKind }.

Inductive DeliveryCapability := ReadCapability | PublishCapability | ManagementCapability.

#[export] Instance DeliveryCapability_eq : EqDecision DeliveryCapability.
Proof. solve_decision. Defined.

Definition capability_code (c : DeliveryCapability) : nat :=
  match c with ReadCapability => 0 | PublishCapability => 1 | ManagementCapability => 2 end.

Definition code_capability (n : nat) : DeliveryCapability :=
  match n with 0 => ReadCapability | 1 => PublishCapability | _ => ManagementCapability end%nat.

#[export] Instance DeliveryCapability_countable : Countable DeliveryCapability.
Proof. apply (inj_countable' capability_code code_capability). by intros []. Defined.

(** [default_delivery_capabilities]: people and runtimes have none. *)
Definition default_delivery_capabilities (k : PrincipalKind) : gset DeliveryCapability :=
  match k with
  | ManagementPrincipal | Service => {[ReadCapability; ManagementCapability]}
  | Human | RuntimePrincipal => ∅
  end.

Inductive ActorKind := ActorHuman | ActorAgent.
Record Actor := { actor_id : string; actor_kind : ActorKind }.

#[export] Instance ActorKind_eq : EqDecision ActorKind.
Proof. solve_decision. Defined.

(** ** Contexts *)

Record AuthenticatedRequestContext := {
  contract_version : Z;
  context_request_id : string;
  principal : PrincipalIdentity;
  tenant : option TenantContext;
  authenticator_id : string;
  delivery_capabilities : gset DeliveryCapability;
  environment_binding : option string;
  channel_bindings : gset string;
  product_bindings : gset string;
  actor_chain : list Actor;
  host_identity : option HostIdentityFacts
}.

Definition validate_context (c : AuthenticatedRequestContext) : result unit AuthError :=
  bail_if negb (contract_version c =? AUTH_CONTEXT_CONTRACT_VERSION)
    with (IncompatibleContract (contract_version c) AUTH_CONTEXT_CONTRACT_VERSION) in
  bail_if is_blank (context_request_id c) with (InvalidCredential "request id must not be empty") in
  bail_if is_blank (principal_id (principal c)) with (InvalidCredential "principal id must not be empty") in
  bail_if is_blank (authenticator_id c) with (InvalidCredential "authenticator id must not be empty") in
  match tenant c with
  | Some t =>
    bail_if is_blank (tenant_id t)
      with (InvalidCredential "tenant id must not be empty when tenant context is present") in
    bail_if is_blank (tenant_extension t)
      with (InvalidCredential "tenant extension id must not be empty when tenant context is present") in
    Ok tt
  | None => Ok tt
  end.

(** Management implies the others. *)
Definition has_delivery_capability (c : AuthenticatedRequestContext) (required : DeliveryCapability) : bool :=
  match required with
  | ReadCapability =>
    bool_decide (ReadCapability ∈ delivery_capabilities c)
    || bool_decide (ManagementCapability ∈ delivery_capabilities c)
  | PublishCapability =>
    bool_decide (PublishCapability ∈ delivery_capabilities c)
    || bool_decide (ManagementCapability ∈ delivery_capabilities c)
  | ManagementCapability => bool_decide (ManagementCapability ∈ delivery_capabilities c)
  end.

Definition require_delivery_capability (c : AuthenticatedRequestContext) (required : DeliveryCapability) :
    result unit AuthError :=
  let? _ := validate_context c in
  if has_delivery_capability c required then Ok tt
  else Err (Forbidden "insufficient delivery capability").

(** [acting_agent]. *)
Definition acting_agent (c : AuthenticatedRequestContext) : option Actor :=
  find_first (λ a, bool_decide (actor_kind a = ActorAgent)) (actor_chain c).

Fixpoint str_join (sep : string) (l : list string) : string :=
  match l with
  | [] => ""
  | [s] => s
  | s :: l => s +:+ sep +:+ str_join sep l
  end.

(** [audit_principal]. *)
Definition audit_principal (c : AuthenticatedRequestContext) : string :=
  let id := principal_id (principal c) in
  let base := match actor_chain c with
              | [] => id
              | chain => id +:+ " (act: " +:+ str_join ", " (actor_id <$> chain) +:+ ")"
              end in
  match host_identity c with
  | Some host => base +:+ " user=" +:+ host_user host +:+ " groups="
                 +:+ str_join "," (host_groups host) +:+ " source=host"
  | None => base
  end.

(** ** Building a context *)

Record ContextBuilder := {
  b_request_id : string; b_principal : PrincipalIdentity; b_authenticator_id : string;
  b_tenant : option TenantContext; b_capabilities : gset DeliveryCapability;
  b_environment : option string; b_channels : gset string; b_products : gset string;
  b_actors : list Actor; b_host : option HostIdentityFacts
}.

Definition builder (request : string) (p : PrincipalIdentity) (authenticator : string) : ContextBuilder := {|
  b_request_id := request; b_principal := p; b_authenticator_id := authenticator; b_tenant := None;
  b_capabilities := default_delivery_capabilities (principal_kind p); b_environment := None;
  b_channels := ∅; b_products := ∅; b_actors := []; b_host := None |}.

Definition with_tenant (b : ContextBuilder) (id : string) (authority : TenantDerivationAuthority) :
    result ContextBuilder AuthError :=
  bail_if is_blank id with (InvalidCredential "tenant id must not be empty") in
  Ok {| b_request_id := b_request_id b; b_principal := b_principal b;
        b_authenticator_id := b_authenticator_id b;
        b_tenant := Some {| tenant_id := id; tenant_extension := authority_extension authority |};
        b_capabilities := b_capabilities b; b_environment := b_environment b;
        b_channels := b_channels b; b_products := b_products b; b_actors := b_actors b;
        b_host := b_host b |}.

(** [with_delivery_capabilities]: an explicit set replaces the defaults. *)
Definition with_delivery_capabilities (b : ContextBuilder) (l : list DeliveryCapability) : ContextBuilder := {|
  b_request_id := b_request_id b; b_principal := b_principal b;
  b_authenticator_id := b_authenticator_id b; b_tenant := b_tenant b;
  b_capabilities := list_to_set l; b_environment := b_environment b;
  b_channels := b_channels b; b_products := b_products b; b_actors := b_actors b; b_host := b_host b |}.

(** [with_channel_bindings]: empty names are skipped. *)
Definition with_channel_bindings (b : ContextBuilder) (l : list string) : ContextBuilder := {|
  b_request_id := b_request_id b; b_principal := b_principal b;
  b_authenticator_id := b_authenticator_id b; b_tenant := b_tenant b;
  b_capabilities := b_capabilities b; b_environment := b_environment b;
  b_channels := list_to_set (List.filter (λ c, negb (is_blank c)) l); b_products := b_products b;
  b_actors := b_actors b; b_host := b_host b |}.

Definition with_environment_binding_opt (b : ContextBuilder) (environment : option string) : ContextBuilder := {|
  b_request_id := b_request_id b; b_principal := b_principal b; b_authenticator_id := b_authenticator_id b;
  b_tenant := b_tenant b; b_capabilities := b_capabilities b; b_environment := environment;
  b_channels := b_channels b; b_products := b_products b; b_actors := b_actors b; b_host := b_host b |}.

Definition with_product_bindings (b : ContextBuilder) (products : list string) : ContextBuilder := {|
  b_request_id := b_request_id b; b_principal := b_principal b; b_authenticator_id := b_authenticator_id b;
  b_tenant := b_tenant b; b_capabilities := b_capabilities b; b_environment := b_environment b;
  b_channels := b_channels b; b_products := list_to_set products; b_actors := b_actors b; b_host := b_host b |}.

Definition with_actor_chain (b : ContextBuilder) (chain : list Actor) : ContextBuilder := {|
  b_request_id := b_request_id b; b_principal := b_principal b; b_authenticator_id := b_authenticator_id b;
  b_tenant := b_tenant b; b_capabilities := b_capabilities b; b_environment := b_environment b;
  b_channels := b_channels b; b_products := b_products b; b_actors := chain; b_host := b_host b |}.

Definition with_host_facts (b : ContextBuilder) (host : HostIdentityFacts) : ContextBuilder := {|
  b_request_id := b_request_id b; b_principal := b_principal b; b_authenticator_id := b_authenticator_id b;
  b_tenant := b_tenant b; b_capabilities := b_capabilities b; b_environment := b_environment b;
  b_channels := b_channels b; b_products := b_products b; b_actors := b_actors b; b_host := Some host |}.

Definition build (b : ContextBuilder) : result AuthenticatedRequestContext AuthError :=
  let c := {| contract_version := AUTH_CONTEXT_CONTRACT_VERSION; context_request_id := b_request_id b;
              principal := b_principal b; tenant := b_tenant b; authenticator_id := b_authenticator_id b;
              delivery_capabilities := b_capabilities b; environment_binding := b_environment b;
              channel_bindings := b_channels b; product_bindings := b_products b;
              actor_chain := b_actors b; host_identity := b_host b |} in
  let? _ := validate_context c in Ok c.

(** ** Authenticators *)

(** The trait [CredentialAuthenticator]. *)
Record CredentialAuthenticator := {
  name_of : string;
  authenticate : CredentialMaterial → result AuthenticatedRequestContext AuthError
}.

(** The trait [EnterpriseAuthExtension]. *)
Record EnterpriseAuthExtension := {
  extension_id : string;
  extension_contract : Z;
  extension_audience : string;
  extension_authenticate : CredentialMaterial → TenantDerivationAuthority →
    result AuthenticatedRequestContext AuthError
}.

Record AuthHostConfig := {
  required_extension_id : option string; expected_contract_version : Z;
  expected_audience : option string
}.

Inductive AuthMode := Community | Enterprise.

Record AuthStack := {
  stack_authenticator : CredentialAuthenticator;
  tenant_authority : option TenantDerivationAuthority;
  mode : AuthMode
}.

Inductive AuthStartupError :=
| MissingRequiredExtension (extension : string)
| IncompatibleExtensionContract (extension : string) (found expected : Z)
| IncompatibleHostContract (found expected : Z)
| ExtensionIdMismatch (required found : string)
| AudienceMismatch (extension found expected : string)
| InvalidExtension (text : string).

(** [EnterpriseAuthenticatorAdapter]. *)
Definition enterprise_adapter (x : EnterpriseAuthExtension) (authority : TenantDerivationAuthority) :
    CredentialAuthenticator := {|
  name_of := extension_id x;
  authenticate := λ credential,
    let? c := extension_authenticate x credential authority in
    let? _ := validate_context c in
    bail_if negb (bool_decide (authenticator_id c = extension_id x))
      with (InvalidCredential "enterprise authenticator returned a foreign authenticator id") in
    match tenant c with
    | Some t =>
      if bool_decide (tenant_extension t = extension_id x) then Ok c
      else Err (InvalidCredential "tenant context extension id does not match loaded extension")
    | None => Ok c
    end |}.

(** [DualStackAuthenticator]: a bearer token first; an assertion beside a
    rejected token is still tried. *)
Definition dual_stack (community enterprise : CredentialAuthenticator) : CredentialAuthenticator := {|
  name_of := name_of enterprise;
  authenticate := λ credential,
    let? _ := validate_credential credential in
    let asserted :=
      if is_some_b (assertion credential) then authenticate enterprise credential
      else Err (InvalidCredential "enterprise dual-stack authenticator requires a community bearer or assertion") in
    if is_some_b (bearer_token credential) then
      match authenticate community credential with
      | Ok c => Ok c
      | Err e => if is_some_b (assertion credential) then asserted else Err e
      end
    else asserted |}.

(** [HostAwareAuthenticator]. *)
Definition host_aware (inner host : CredentialAuthenticator) : CredentialAuthenticator := {|
  name_of := name_of inner;
  authenticate := λ credential,
    let? _ := validate_credential credential in
    if is_some_b (bearer_token credential) || is_some_b (assertion credential)
    then authenticate inner credential else authenticate host credential |}.

(** [AuthStack::with_host_identity]. *)
Definition with_host_identity (s : AuthStack) (host : CredentialAuthenticator) : AuthStack := {|
  stack_authenticator := host_aware (stack_authenticator s) host;
  tenant_authority := tenant_authority s; mode := mode s |}.

Definition validate_extension (config : AuthHostConfig) (x : EnterpriseAuthExtension) :
    result unit AuthStartupError :=
  bail_if is_blank (extension_id x) with (InvalidExtension "extension id must not be empty") in
  bail_if negb (extension_contract x =? expected_contract_version config)
    with (IncompatibleExtensionContract (extension_id x) (extension_contract x)
            (expected_contract_version config)) in
  match expected_audience config with
  | Some audience =>
    bail_if negb (bool_decide (extension_audience x = audience))
      with (AudienceMismatch (extension_id x) (extension_audience x) audience) in
    Ok tt
  | None => Ok tt
  end.

Definition enterprise_stack (x : EnterpriseAuthExtension) (community : CredentialAuthenticator) : AuthStack :=
  let authority := {| authority_extension := extension_id x |} in
  {| stack_authenticator := dual_stack community (enterprise_adapter x authority);
     tenant_authority := Some authority; mode := Enterprise |}.

(** [build_auth_stack]. *)
Definition build_auth_stack (config : AuthHostConfig) (extension : option EnterpriseAuthExtension)
    (community : CredentialAuthenticator) : result AuthStack AuthStartupError :=
  bail_if negb (expected_contract_version config =? AUTH_CONTEXT_CONTRACT_VERSION)
    with (IncompatibleHostContract (expected_contract_version config) AUTH_CONTEXT_CONTRACT_VERSION) in
  match required_extension_id config, extension with
  | None, None =>
    Ok {| stack_authenticator := community; tenant_authority := None; mode := Community |}
  | None, Some x => let? _ := validate_extension config x in Ok (enterprise_stack x community)
  | Some required, None => Err (MissingRequiredExtension required)
  | Some required, Some x =>
    bail_if negb (bool_decide (extension_id x = required))
      with (ExtensionIdMismatch required (extension_id x)) in
    let? _ := validate_extension config x in Ok (enterprise_stack x community)
  end.

(** ** The community token table *)

Record CommunityTokens := { community_id : string; tokens : gmap string PrincipalIdentity }.

(** [CommunityTokenAuthenticator::new]: later entries of a token win. *)
Definition community_new (id : string) (entries : list (string * PrincipalIdentity)) :
    result CommunityTokens AuthError :=
  bail_if is_blank id with (InvalidCredential "community authenticator id must not be empty") in
  let table := foldl (λ m '(token, p), <[token := p]> m) ∅ entries in
  bail_if bool_decide (table = ∅)
    with (InvalidCredential "community authenticator requires at least one token mapping") in
  bail_if existsb (λ '(token, p), is_blank token || is_blank (principal_id p)) (btree_iter table)
    with (InvalidCredential "community token mappings must use non-empty token and principal ids") in
  Ok {| community_id := id; tokens := table |}.

(** [CommunityTokenAuthenticator]. *)
Definition community_tokens (t : CommunityTokens) : CredentialAuthenticator := {|
  name_of := community_id t;
  authenticate := λ credential,
    let? _ := validate_credential credential in
    let? token := ok_or (bearer_token credential)
                    (InvalidCredential "community authenticator requires a bearer token") in
    let? p := ok_or (tokens t !! token) (Unauthorized "unknown community bearer token") in
    build (builder (request_id credential) p (community_id t)) |}.

(** ** What an authenticator promises *)

(** Contexts are valid and belong to no tenant. *)
Class TenantFree (a : CredentialAuthenticator) : Prop := {
  tenant_free credential c :
    authenticate a credential = Ok c → validate_context c = Ok tt ∧ tenant c = None
}.

Lemma build_valid b c : build b = Ok c → validate_context c = Ok tt ∧ tenant c = b_tenant b.
Proof.
  unfold build. set (c0 := Build_AuthenticatedRequestContext _ _ _ _ _ _ _ _ _ _ _).
  destruct (validate_context c0) as [[]|] eqn:Hv; [|done]. by intros [= <-].
Qed.

#[export] Instance community_tenant_free t : TenantFree (community_tokens t).
Proof.
  split. intros credential c. simpl. destruct (validate_credential credential); [|done]. simpl.
  destruct (bearer_token credential) as [token|]; [|done]. simpl.
  destruct (tokens t !! token); [|done]. simpl. apply build_valid.
Qed.

Lemma adapter_sound x authority credential c :
  authenticate (enterprise_adapter x authority) credential = Ok c →
  validate_context c = Ok tt ∧ authenticator_id c = extension_id x
  ∧ ∀ t, tenant c = Some t → tenant_extension t = extension_id x.
Proof.
  simpl. destruct (extension_authenticate x credential authority) as [c'|]; [|done]. simpl.
  destruct (validate_context c') as [[]|] eqn:Hv; [|done]. simpl.
  intros [Hid H]%bail_ok. apply negb_false_iff, bool_decide_eq_true in Hid.
  destruct (tenant c') as [t|] eqn:Ht.
  - case_bool_decide as Hx; [|done]. injection H as <-. split_and!; [done|done|]. intros t'. by rewrite Ht; intros [= <-].
  - injection H as <-. split_and!; [done|done|]. intros t'. by rewrite Ht.
Qed.

(** Which part of a dual stack answers. *)
Lemma dual_stack_cases community enterprise credential c :
  authenticate (dual_stack community enterprise) credential = Ok c →
  (is_Some (bearer_token credential) ∧ authenticate community credential = Ok c)
  ∨ (is_Some (assertion credential) ∧ authenticate enterprise credential = Ok c).
Proof.
  simpl. destruct (validate_credential credential); [|done]. simpl.
  destruct (bearer_token credential) as [token|], (assertion credential) as [a|]; simpl;
    try destruct (authenticate community credential) as [c'|e]; naive_solver.
Qed.

(** The stack of a host, with the extension it loaded. *)
Inductive stack_of (community : CredentialAuthenticator) :
    option EnterpriseAuthExtension → AuthStack → Prop :=
| community_stack :
    stack_of community None {| stack_authenticator := community; tenant_authority := None; mode := Community |}
| loaded_stack x :
    is_blank (extension_id x) = false → stack_of community (Some x) (enterprise_stack x community)
| host_stack x s host :
    stack_of community x s → TenantFree host → stack_of community x (with_host_identity s host).

Lemma built_stack config extension community s :
  build_auth_stack config extension community = Ok s →
  stack_of community extension s
  ∧ (∀ required, required_extension_id config = Some required →
       ∃ x, extension = Some x ∧ extension_id x = required
            ∧ extension_contract x = AUTH_CONTEXT_CONTRACT_VERSION
            ∧ ∀ audience, expected_audience config = Some audience → extension_audience x = audience).
Proof.
  unfold build_auth_stack. intros [Hc H]%bail_ok. apply negb_false_iff, Z.eqb_eq in Hc.
  assert (∀ x, validate_extension config x = Ok tt →
    is_blank (extension_id x) = false ∧ extension_contract x = AUTH_CONTEXT_CONTRACT_VERSION
    ∧ ∀ audience, expected_audience config = Some audience → extension_audience x = audience) as Hx.
  { intros x. unfold validate_extension. intros [Hb [Hv Ha]%bail_ok]%bail_ok.
    apply negb_false_iff, Z.eqb_eq in Hv. split_and!; [done|congruence|]. intros audience Heq.
    rewrite Heq in Ha. apply bail_ok in Ha as [Ha _]. by apply negb_false_iff, bool_decide_eq_true in Ha. }
  destruct (required_extension_id config) as [required|], extension as [x|]; try done.
  - apply bail_ok in H as [Hid H]. apply negb_false_iff, bool_decide_eq_true in Hid.
    destruct (validate_extension config x) as [[]|] eqn:Hv; [|done]. injection H as <-.
    destruct (Hx x Hv) as (Hb & Hcv & Ha). split; [by constructor|]. intros r [= <-]. by exists x.
  - destruct (validate_extension config x) as [[]|] eqn:Hv; [|done]. injection H as <-.
    destruct (Hx x Hv) as (Hb & _ & _). split; [by constructor|done].
  - injection H as <-. split; [constructor|done].
Qed.

Lemma stack_sound community extension s credential c :
  TenantFree community → stack_of community extension s →
  authenticate (stack_authenticator s) credential = Ok c →
  validate_context c = Ok tt
  ∧ ∀ t, tenant c = Some t →
      ∃ x, extension = Some x ∧ mode s = Enterprise ∧ tenant_extension t = extension_id x
           ∧ is_Some (assertion credential) ∧ authenticator_id c = extension_id x.
Proof.
  intros Hf Hs. induction Hs as [|x Hb|x s host Hs IH Hh]; intros Ha.
  - destruct (tenant_free credential c Ha) as [Hv Ht]. split; [done|]. by rewrite Ht.
  - apply dual_stack_cases in Ha as [[_ Ha]|[Hassert Ha]].
    + destruct (tenant_free credential c Ha) as [Hv Ht]. split; [done|]. by rewrite Ht.
    + apply adapter_sound in Ha as (Hv & Hid & Ht). split; [done|]. intros t H. exists x.
      split_and!; [done|done|by apply Ht|done|done].
  - simpl in Ha. destruct (validate_credential credential); [|done]. simpl in Ha.
    destruct (_ || _); [by apply IH|].
    destruct (tenant_free credential c Ha) as [Hv Ht]. split; [done|]. by rewrite Ht.
Qed.

(** A host that starts with a required extension has loaded exactly that
    extension, with the contract version and the audience it expects; and
    whatever stack it builds over the community token table, with or without
    host identities, every context it authenticates is valid, and one that
    belongs to a tenant was asserted to the loaded extension, by a credential
    that carries an assertion: no bearer token, no peer credential and no
    foreign extension can place a request in a tenant. *)
Theorem tenant_only_from_extension config extension table s hosts credential c :
  build_auth_stack config extension (community_tokens table) = Ok s →
  Forall TenantFree hosts →
  authenticate (stack_authenticator (foldl with_host_identity s hosts)) credential = Ok c →
  (∀ required, required_extension_id config = Some required →
     ∃ x, extension = Some x ∧ extension_id x = required
          ∧ extension_contract x = AUTH_CONTEXT_CONTRACT_VERSION
          ∧ ∀ audience, expected_audience config = Some audience → extension_audience x = audience)
  ∧ validate_context c = Ok tt
  ∧ ∀ t, tenant c = Some t →
      ∃ x, extension = Some x ∧ tenant_extension t = extension_id x
           ∧ is_Some (assertion credential) ∧ authenticator_id c = extension_id x.
Proof.
  intros [Hs Hreq]%built_stack Hh Ha. split; [done|].
  assert (stack_of (community_tokens table) extension (foldl with_host_identity s hosts)) as Hs'.
  { clear Ha. revert s Hs. induction Hh as [|host hosts Hfree _ IH]; intros s Hs; simpl; [done|].
    apply IH. by constructor. }
  destruct (stack_sound _ _ _ credential c _ Hs' Ha) as [Hv Ht]. split; [done|].
  intros t H. destruct (Ht t H) as (x & Hx & _ & He & Hassert & Hid). by exists x.
Qed.

(** What a caller may do follows from explicit capabilities, or from its kind. *)
Lemma capability_monotone c required :
  has_delivery_capability c ManagementCapability = true → has_delivery_capability c required = true.
Proof. intros H. destruct required; simpl in *; [by rewrite H, orb_true_r..|done]. Qed.

(** ** A host with an extension *)
Module AuthExamples.
Definition table : CommunityTokens := {|
  community_id := "community";
  tokens := {["secret" := {| principal_id := "ops"; principal_kind := ManagementPrincipal |}]} |}.

(** Every assertion is of the tenant [acme]. *)
Definition oidc : EnterpriseAuthExtension := {|
  extension_id := "oidc"; extension_contract := 1; extension_audience := "tenkai";
  extension_authenticate := λ credential authority,
    let? b := with_tenant (builder (request_id credential)
                {| principal_id := "alice"; principal_kind := Human |} "oidc") "acme" authority in
    build b |}.

Definition config : AuthHostConfig := {|
  required_extension_id := Some "oidc"; expected_contract_version := 1;
  expected_audience := Some "tenkai" |}.

Definition credential (token : option string) (bytes : option (list Byte.byte)) : CredentialMaterial := {|
  request_id := "r1"; bearer_token := token; assertion := bytes; peer_credentials := None |}.

Definition seen (r : result AuthenticatedRequestContext AuthError) : option (string * option string) :=
  match r with Ok c => Some (principal_id (principal c), tenant_id <$> tenant c) | Err _ => None end.

(** A known token wins over an assertion; an unknown one falls through. *)
Example who_is_seen :
  let s := stack_authenticator (enterprise_stack oidc (community_tokens table)) in
  seen (authenticate s (credential (Some "secret") (Some [Byte.x01]))) = Some ("ops", None)
  ∧ seen (authenticate s (credential (Some "stale") (Some [Byte.x01]))) = Some ("alice", Some "acme")
  ∧ seen (authenticate s (credential (Some "stale") None)) = None.
Proof. vm_compute. done. Qed.

Definition alice : AuthenticatedRequestContext := {|
  contract_version := 1; context_request_id := "r1";
  principal := {| principal_id := "alice"; principal_kind := Human |};
  tenant := Some {| tenant_id := "acme"; tenant_extension := "oidc" |};
  authenticator_id := "oidc"; delivery_capabilities := ∅; environment_binding := None;
  channel_bindings := ∅; product_bindings := ∅; actor_chain := []; host_identity := None |}.

Lemma tenant_only_from_extension_witness :
  validate_context alice = Ok tt
  ∧ ∀ t, tenant alice = Some t → ∃ x, Some oidc = Some x ∧ tenant_extension t = extension_id x
      ∧ is_Some (assertion (credential None (Some [Byte.x01]))) ∧ authenticator_id alice = extension_id x.
Proof.
  apply (tenant_only_from_extension config (Some oidc) table
    (enterprise_stack oidc (community_tokens table)) [community_tokens table]
    (credential None (Some [Byte.x01])) alice).
  - reflexivity.
  - apply Forall_cons. split; [apply community_tenant_free|apply Forall_nil; done].
  - reflexivity.
Defined.
End AuthExamples.
