(* ===== verification/OidcGrants.v ===== *)
(** * OIDC access tokens and the grants they confer

    [oidc_verifier.rs] with [actor_chain.rs] and the capability names of
    [assertion_verifier.rs]: how a verified access token becomes an
    authenticated context.  Grant rules map a claim value to capabilities;
    the configuration file holds some, the hub's store more.  JSON, base64,
    URL parsing and signatures are other people's code: what the verifier
    reads of them is the interface [TokenCodec]. *)

From S2P Require Import Prelude RustStr AuthContext.

(** ** Text *)

(** The [Debug] of a string: quoted, with Rust's escapes of ASCII. *)
Definition quote_char : ascii := "034"%char.
Definition backslash_char : ascii := "092"%char.

Definition hex_digit (n : nat) : ascii :=
  match String.get n "0123456789abcdef" with Some c => c | None => "0"%char end.

Definition escape_char (c : ascii) : string :=
  let n := nat_of_ascii c in
  let escaped d := String backslash_char (String d EmptyString) in
  if bool_decide (c = quote_char) then escaped quote_char
  else if bool_decide (c = backslash_char) then escaped backslash_char
  else if (n =? 0)%nat then escaped "0"%char
  else if (n =? 9)%nat then escaped "t"%char
  else if (n =? 10)%nat then escaped "n"%char
  else if (n =? 13)%nat then escaped "r"%char
  else if (n <? 16)%nat then escaped "u"%char +:+ "{" +:+ String (hex_digit n) "}"
  else if ((n <? 32) || (n =? 127))%nat
  then escaped "u"%char +:+ "{" +:+ String (hex_digit (n / 16)) (String (hex_digit (n mod 16)) "}")
  else String c EmptyString.

Fixpoint escape_str (s : string) : string :=
  match s with
  | EmptyString => EmptyString
  | String c s => escape_char c +:+ escape_str s
  end.

Definition debug_str (s : string) : string :=
  String quote_char (escape_str s +:+ String quote_char EmptyString).

(** ** JSON values *)

(** [serde_json::Value]; the fields of an object have different names. *)
Inductive Json :=
| JNull
| JBool (b : bool)
| JNumber (text : string)
| JString (s : string)
| JArray (l : list Json)
| JObject (fields : list (string * Json)).

(** [Map::get]. *)
Fixpoint json_get (fields : list (string * Json)) (name : string) : option Json :=
  match fields with
  | [] => None
  | (n, v) :: fields => if bool_decide (n = name) then Some v else json_get fields name
  end.

(** [Value::as_str]. *)
Definition as_str (v : Json) : option string := match v with JString s => Some s | _ => None end.

(** ** Delegating actors *)

Definition MAX_ACTOR_CHAIN_DEPTH : nat := 8.

Definition invalid_act (detail : string) : AuthError := Unauthorized ("invalid act claim: " +:+ detail).

(** One actor of the chain and the claim nested in it. *)
Definition read_actor (value : Json) : result (string * ActorKind * option Json) AuthError :=
  match value with
  | JString id => Ok (id, ActorAgent, None)
  | JObject fields =>
    let? id := ok_or (match json_get fields "sub" with Some v => as_str v | None => None end)
                 (invalid_act "actor object needs a string sub") in
    let? kind := match json_get fields "kind" with
                 | None => Ok ActorAgent
                 | Some (JString k) => Ok (if bool_decide (k = "human") then ActorHuman else ActorAgent)
                 | Some _ => Err (invalid_act "actor kind must be a string")
                 end in
    Ok (id, kind, json_get fields "act")
  | _ => Err (invalid_act "actor must be a string or an object")
  end.

(** The loop of [parse_actor_chain]; [room] actors still fit. *)
Fixpoint parse_actors (room : nat) (chain : list Actor) (value : Json) : result (list Actor) AuthError :=
  match room with
  | O => Err (invalid_act "actor chain is too deep")
  | S room =>
    let? found := read_actor value in
    let '(raw, kind, nested) := found in
    let id := trim raw in
    bail_if str_is_empty id with (invalid_act "actor id must not be empty") in
    bail_if existsb (λ a, bool_decide (actor_id a = id)) chain
      with (invalid_act "actor chain repeats an actor") in
    let chain := chain ++ [{| actor_id := id; actor_kind := kind |}] in
    match nested with Some v => parse_actors room chain v | None => Ok chain end
  end.

Definition parse_actor_chain (claim : Json) : result (list Actor) AuthError :=
  parse_actors MAX_ACTOR_CHAIN_DEPTH [] claim.

(** ** Grant rules *)

(** [parse_delivery_capabilities]. *)
Definition parse_capability (value : string) : result DeliveryCapability AuthError :=
  if bool_decide (value = "read") then Ok ReadCapability
  else if bool_decide (value = "publish") then Ok PublishCapability
  else if bool_decide (value = "management") then Ok ManagementCapability
  else Err (Unauthorized ("unsupported tenkai_capabilities value " +:+ debug_str value)).

Definition parse_delivery_capabilities (values : list string) : result (gset DeliveryCapability) AuthError :=
  try_fold (λ s value, let? c := parse_capability value in Ok ({[c]} ∪ s)) ∅ values.

Record OidcGrantRule := {
  value : string;
  capabilities : list string;
  environment : option string;
  channels : list string;
  products : list string;
  kind : option string
}.

#[export] Instance OidcGrantRule_eq : EqDecision OidcGrantRule.
Proof. solve_decision. Defined.

(** [OidcGrantRule::validate]. *)
Definition validate_grant_rule (rule : OidcGrantRule) : result unit AuthError :=
  bail_if existsb (λ p, is_blank p || negb (bool_decide (trim p = p))) (products rule)
    with (InvalidCredential "OIDC grant rule products must be nonempty names without surrounding whitespace") in
  bail_if is_blank (value rule) with (InvalidCredential "OIDC grant rule value must not be empty") in
  let? granted := parse_delivery_capabilities (capabilities rule) in
  bail_if bool_decide (granted = ∅)
    with (InvalidCredential "OIDC grant rule must grant at least one capability") in
  bail_if is_some_and (environment rule) is_blank
    with (InvalidCredential "OIDC grant rule environment must not be empty when set") in
  bail_if existsb is_blank (channels rule)
    with (InvalidCredential "OIDC grant rule channels must not contain empty values") in
  match kind rule with
  | None => Ok tt
  | Some k =>
    if bool_decide (k = "human") || bool_decide (k = "service") then Ok tt
    else Err (InvalidCredential ("OIDC grant rule kind " +:+ debug_str k +:+ " must be "
                                 +:+ debug_str "human" +:+ " or " +:+ debug_str "service"))
  end.

(** [grants_fleet_management]. *)
Definition grants_fleet_management (rule : OidcGrantRule) : bool :=
  negb (is_some_b (environment rule))
  && existsb (λ c, bool_decide (c = "management")) (capabilities rule).

Inductive FirstAdministrator := Configured | Missing.

(** [FirstAdministrator::either]. *)
Definition either (a b : FirstAdministrator) : FirstAdministrator :=
  match a, b with Missing, Missing => Missing | _, _ => Configured end.

(** The stored rules a replica applies, and the claim values of those it
    withholds. *)
Record AppliedGrantRules := { applied_rules : list OidcGrantRule; withheld : gset string }.

Definition no_stored_rules : AppliedGrantRules := {| applied_rules := []; withheld := ∅ |}.

(** ** Matching rules *)

(** [RuleGrants]. *)
Record RuleGrants := {
  fleet : gset DeliveryCapability;
  scoped : gmap string (gset DeliveryCapability);
  r_channels : gset string;
  r_products : gset string;
  unrestricted_publication : bool;
  r_kind : PrincipalKind
}.

Definition no_grants : RuleGrants := {|
  fleet := ∅; scoped := ∅; r_channels := ∅; r_products := ∅;
  unrestricted_publication := false; r_kind := Human |}.

Definition grants_empty (g : RuleGrants) : bool :=
  bool_decide (fleet g = ∅) && bool_decide (scoped g = ∅).

(** [RuleGrants::add]. *)
Definition add_rule (g : RuleGrants) (rule : OidcGrantRule) : result RuleGrants AuthError :=
  let? granted := parse_delivery_capabilities (capabilities rule) in
  let publishes := bool_decide (PublishCapability ∈ granted) || bool_decide (ManagementCapability ∈ granted) in
  Ok {|
    fleet := match environment rule with None => fleet g ∪ granted | Some _ => fleet g end;
    scoped := match environment rule with
              | None => scoped g
              | Some e => <[e := default ∅ (scoped g !! e) ∪ granted]> (scoped g)
              end;
    r_channels := r_channels g ∪ list_to_set (List.filter (λ c, negb (str_is_empty c)) (trim <$> channels rule));
    r_products := if publishes then r_products g ∪ list_to_set (products rule) else r_products g;
    unrestricted_publication :=
      unrestricted_publication g || (publishes && match products rule with [] => true | _ => false end);
    r_kind := if bool_decide (kind rule = Some "service") then Service else r_kind g |}.

(** [EffectiveGrants]: empty sets of bindings confine nothing. *)
Record EffectiveGrants := {
  e_capabilities : gset DeliveryCapability;
  e_environment : option string;
  e_channels : gset string;
  e_products : gset string;
  e_kind : PrincipalKind
}.

(** [RuleGrants::resolve]. *)
Definition resolve (g : RuleGrants) : result EffectiveGrants AuthError :=
  let fleet_management := bool_decide (ManagementCapability ∈ fleet g) in
  let? bound := match btree_iter (scoped g) with
                | [] => Ok (fleet g, None)
                | l =>
                  if fleet_management then Ok (fleet g, None)
                  else match l with
                       | [(e, granted)] => Ok (fleet g ∪ granted, Some e)
                       | _ => Err (Forbidden "OIDC grants confine management to more than one environment; grant fleet management or one environment")
                       end
                end in
  let '(granted, e) := bound in
  Ok {| e_capabilities := granted; e_environment := e;
        e_channels := if fleet_management then ∅ else r_channels g;
        e_products := if fleet_management || unrestricted_publication g then ∅ else r_products g;
        e_kind := r_kind g |}.

#[export] Instance PrincipalKind_eq : EqDecision PrincipalKind.
Proof. solve_decision. Defined.

(** The closure [open] of [covers]. *)
Definition leaves_open (after before : gset string) : bool :=
  bool_decide (after = ∅) || (negb (bool_decide (before = ∅)) && bool_decide (before ⊆ after)).

(** [EffectiveGrants::covers]. *)
Definition covers_grant (g base : EffectiveGrants) : bool :=
  bool_decide (e_capabilities base ⊆ e_capabilities g)
  && bool_decide (e_kind g = e_kind base)
  && (bool_decide (e_environment g = None) || bool_decide (e_environment g = e_environment base))
  && leaves_open (e_channels g) (e_channels base)
  && leaves_open (e_products g) (e_products base).

(** [claim_values]. *)
Definition claim_values (claim : option Json) : gset string :=
  match claim with
  | Some (JString s) => {[s]}
  | Some (JArray l) => list_to_set (omap as_str l)
  | _ => ∅
  end.

(** ** Configuration *)

(** [url::Url], as far as the configuration is checked. *)
Inductive UrlHost := Domain (s : string) | Ipv4 (address : Z) | Ipv6 (address : Z).

Record Url := {
  scheme : string; host : option UrlHost; path : string;
  query : option string; fragment : option string; username : string
}.

Inductive Algorithm := Rs256 | Es256.

#[export] Instance Algorithm_eq : EqDecision Algorithm.
Proof. solve_decision. Defined.

Inductive PublicKey :=
| RsaKey (n e : list Byte.byte)
| P256Key (point : list Byte.byte).

Definition key_algorithm (k : PublicKey) : Algorithm :=
  match k with RsaKey _ _ => Rs256 | P256Key _ => Es256 end.

(** [Algorithm::parse]. *)
Definition parse_algorithm (raw : string) : result Algorithm AuthError :=
  if bool_decide (raw = "RS256") then Ok Rs256
  else if bool_decide (raw = "ES256") then Ok Es256
  else Err (InvalidCredential ("unsupported OIDC algorithm " +:+ debug_str raw +:+ "; expected RS256 or ES256")).

Record Jwk := {
  kty : string; jwk_kid : option string; usage : option string; jwk_alg : option string;
  jwk_n : option string; jwk_e : option string; crv : option string;
  jwk_x : option string; jwk_y : option string
}.

Record Header := { alg : string; kid : option string }.

Inductive Audience := One (audience : string) | Many (audiences : list string).

Record Claims := {
  iss : string; sub : string; aud : Audience; exp : Z; nbf : option Z;
  rest : list (string * Json)
}.

(** What JSON, base64, URLs and signatures are to the verifier. *)
Class TokenCodec := {
  parse_url : string → option Url;
  base64url : string → option (list Byte.byte);
  header_of_json : list Byte.byte → option Header;
  claims_of_json : list Byte.byte → option Claims;
  jwks_of_json : string → option (list Jwk);
  signature_valid : PublicKey → string → list Byte.byte → bool
}.

Record OidcPublicClient := {
  client_id : string; display_name : option string; scopes : list string;
  connect_origins : list string
}.

Record OidcConfig := {
  issuer : string;
  audience : string;
  algorithms : list string;
  jwks_uri : option string;
  jwks_file : option string;
  clock_skew_secs : Z;
  jwks_refresh_secs : Z;
  client : option OidcPublicClient;
  grants_claim : string;
  tenant_claim : option string;
  grant_rules : list OidcGrantRule
}.

(** [fleet_administrator_values] and [OidcConfig::first_administrator]. *)
Definition fleet_administrator_values (config : OidcConfig) : list string :=
  value <$> List.filter grants_fleet_management (grant_rules config).

Definition config_first_administrator (config : OidcConfig) : FirstAdministrator :=
  match fleet_administrator_values config with [] => Missing | _ => Configured end.

Inductive JwksLocation := Discovery | JwksUri (uri : string) | JwksFile (path : string).

Definition jwks_location (config : OidcConfig) : JwksLocation :=
  match jwks_uri config, jwks_file config with
  | Some uri, _ => JwksUri uri
  | None, Some path => JwksFile path
  | None, None => Discovery
  end.

(** [eq_ignore_ascii_case]. *)
Definition to_ascii_lower (c : ascii) : ascii :=
  if is_ascii_uppercase c then ascii_of_nat (nat_of_ascii c + 32) else c.

Fixpoint ascii_lowercase (s : string) : string :=
  match s with EmptyString => EmptyString | String c s => String (to_ascii_lower c) (ascii_lowercase s) end.

(** [127.0.0.0/8], [::1] and [localhost]. *)
Definition is_loopback (h : option UrlHost) : bool :=
  match h with
  | Some (Domain s) => bool_decide (ascii_lowercase s = "localhost")
  | Some (Ipv4 a) => Z.shiftr a 24 =? 127
  | Some (Ipv6 a) => a =? 1
  | None => false
  end.

Section Oidc.
Context {TC : TokenCodec}.

(** [require_secure_url]. *)
Definition require_secure_url (raw what : string) : result Url AuthError :=
  let? url := ok_or (parse_url raw) (InvalidCredential (what +:+ " is not a valid URL")) in
  if bool_decide (scheme url = "https") then Ok url
  else if bool_decide (scheme url = "http") && is_loopback (host url) then Ok url
  else Err (InvalidCredential (what +:+ " must use https (http is allowed only for loopback)")).

Definition validate_origin (origin : string) : result unit AuthError :=
  let? url := require_secure_url origin "OIDC client connect_origins entry" in
  bail_if negb (bool_decide (path url = "/")) || is_some_b (query url) || is_some_b (fragment url)
          || negb (str_is_empty (username url))
    with (InvalidCredential "OIDC client connect_origins entries must be origins like https://login.example.com") in
  Ok tt.

Definition validate_client (c : OidcPublicClient) : result unit AuthError :=
  bail_if is_blank (client_id c) with (InvalidCredential "OIDC client_id must not be empty") in
  bail_if is_some_and (display_name c) is_blank
    with (InvalidCredential "OIDC client display_name must not be empty when set") in
  try_for_each validate_origin (connect_origins c).

(** [OidcConfig::validate]. *)
Definition validate_config (config : OidcConfig) : result unit AuthError :=
  let? _ := require_secure_url (issuer config) "OIDC issuer" in
  bail_if is_blank (audience config) with (InvalidCredential "OIDC audience must not be empty") in
  bail_if match algorithms config with [] => true | _ => false end
    with (InvalidCredential "OIDC algorithms must not be empty") in
  let? _ := try_for_each (λ raw, let? _ := parse_algorithm raw in Ok tt) (algorithms config) in
  bail_if is_some_b (jwks_uri config) && is_some_b (jwks_file config)
    with (InvalidCredential "set at most one of jwks_uri and jwks_file") in
  let? _ := match jwks_uri config with
            | Some uri => let? _ := require_secure_url uri "OIDC jwks_uri" in Ok tt
            | None => Ok tt
            end in
  bail_if negb ((0 <=? clock_skew_secs config) && (clock_skew_secs config <=? 600))
    with (InvalidCredential "OIDC clock skew must be between 0 and 600 seconds") in
  bail_if negb ((60 <=? jwks_refresh_secs config) && (jwks_refresh_secs config <=? 86400))
    with (InvalidCredential "OIDC jwks_refresh_secs must be between 60 and 86400") in
  let? _ := match client config with Some c => validate_client c | None => Ok tt end in
  bail_if is_blank (grants_claim config) with (InvalidCredential "OIDC grants.claim must not be empty") in
  try_for_each validate_grant_rule (grant_rules config).

(** ** Keys *)

(** [b64url_decode]. *)
Definition b64url_decode (input : string) : result (list Byte.byte) AuthError :=
  ok_or (base64url input) (Unauthorized "JWT segment is not valid base64url").

Definition decoded_part (part : option string) : option (list Byte.byte) :=
  match part with Some s => base64url s | None => None end.

(** The key of a [Jwk], by its type and curve. *)
Definition jwk_key (j : Jwk) : option PublicKey :=
  if bool_decide (kty j = "RSA") then
    match decoded_part (jwk_n j), decoded_part (jwk_e j) with
    | Some n, Some e => Some (RsaKey n e)
    | _, _ => None
    end
  else if bool_decide (kty j = "EC") && bool_decide (crv j = Some "P-256") then
    match decoded_part (jwk_x j), decoded_part (jwk_y j) with
    | Some x, Some y =>
      if ((length x =? 32) && (length y =? 32))%nat then Some (P256Key (Byte.x04 :: x ++ y)) else None
    | _, _ => None
    end
  else None.

(** [Jwk::into_entry]. *)
Definition into_entry (j : Jwk) : option (string * PublicKey) :=
  if is_some_and (usage j) (λ u, negb (bool_decide (u = "sig"))) then None else
  match jwk_kid j, jwk_key j with
  | Some k, Some key =>
    match jwk_alg j with
    | Some a =>
      match parse_algorithm a with
      | Ok a => if bool_decide (a = key_algorithm key) then Some (k, key) else None
      | Err _ => None
      end
    | None => Some (k, key)
    end
  | _, _ => None
  end.

(** [KeySet::from_jwks_json]; a later key of the same id wins. *)
Definition from_jwks_json (raw : string) : result (gmap string PublicKey) AuthError :=
  let? jwks := ok_or (jwks_of_json raw) (InvalidCredential "JWKS document is not valid JSON") in
  let keys := foldl (λ m '(k, key), <[k := key]> m) ∅ (omap into_entry jwks) in
  bail_if bool_decide (keys = ∅)
    with (InvalidCredential "JWKS contains no usable RS256 or ES256 signature key with a kid") in
  Ok keys.

(** [JwksCache]. *)
Record JwksCache := { keys : gmap string PublicKey; last_fetch : option Z }.

Definition load_cache (now : Z) (fetched : result string AuthError) : result JwksCache AuthError :=
  let? raw := fetched in
  let? ks := from_jwks_json raw in
  Ok {| keys := ks; last_fetch := Some now |}.

(** [JwksCache::refresh]: whether a document was fetched, the answer, and the
    cache. *)
Definition refresh_cache (min_interval now : Z) (fetched : result string AuthError) (c : JwksCache) :
    bool * result unit AuthError * JwksCache :=
  if is_some_and (last_fetch c) (λ at_, now - at_ <? min_interval) then (false, Ok tt, c) else
  match (let? raw := fetched in from_jwks_json raw) with
  | Ok ks => (true, Ok tt, {| keys := ks; last_fetch := Some now |})
  | Err e => (true, Err e, {| keys := keys c; last_fetch := Some now |})
  end.

(** ** UTF-8 *)

Definition byte_in (lo hi : Z) (b : Byte.byte) : bool :=
  let n := Z.of_N (Byte.to_N b) in (lo <=? n) && (n <=? hi).

(** [std::str::from_utf8]: the well-formed sequences. *)
Fixpoint utf8_valid (l : list Byte.byte) : bool :=
  match l with
  | [] => true
  | b :: l1 =>
    if byte_in 0 127 b then utf8_valid l1
    else match l1 with
    | b1 :: l2 =>
      if byte_in 194 223 b then byte_in 128 191 b1 && utf8_valid l2
      else match l2 with
      | b2 :: l3 =>
        if byte_in 224 239 b then
          byte_in (if byte_in 224 224 b then 160 else 128) (if byte_in 237 237 b then 159 else 191) b1
          && byte_in 128 191 b2 && utf8_valid l3
        else match l3 with
        | b3 :: l4 =>
          byte_in 240 244 b
          && byte_in (if byte_in 240 240 b then 144 else 128) (if byte_in 244 244 b then 143 else 191) b1
          && byte_in 128 191 b2 && byte_in 128 191 b3 && utf8_valid l4
        | [] => false
        end
      | [] => false
      end
    | [] => false
    end
  end.

Definition from_utf8 (l : list Byte.byte) : option string :=
  if utf8_valid l then Some (String.string_of_list_byte l) else None.

(** ** Grants of a token *)

(** [i64] arithmetic of a release build. *)
Definition i64_wrap (z : Z) : Z := (z - i64_min) mod 2 ^ 64 + i64_min.

Definition audience_contains (a : Audience) (expected : string) : bool :=
  match a with
  | One s => bool_decide (s = expected)
  | Many l => existsb (λ s, bool_decide (s = expected)) l
  end.

Record Grants := {
  g_subject : string;
  g_tenant : option string;
  effective : EffectiveGrants;
  g_actors : list Actor
}.

(** The issuer, audience, subject and lifetime of a token. *)
Definition check_claims (config : OidcConfig) (claims : Claims) (now : Z) : result unit AuthError :=
  let skew := clock_skew_secs config in
  bail_if negb (bool_decide (iss claims = issuer config)) with (Unauthorized "OIDC token issuer is not trusted") in
  bail_if negb (audience_contains (aud claims) (audience config))
    with (Unauthorized "OIDC token audience does not include this server") in
  bail_if is_blank (sub claims) with (Unauthorized "OIDC token subject is empty") in
  bail_if i64_wrap (exp claims + skew) <? now with (Unauthorized "OIDC token has expired") in
  bail_if is_some_and (nbf claims) (λ nbf, now <? i64_wrap (nbf - skew))
    with (Unauthorized "OIDC token is not valid yet") in
  Ok tt.

Definition matched_rules (values : gset string) (rules : list OidcGrantRule) : list OidcGrantRule :=
  List.filter (λ r, bool_decide (value r ∈ values)) rules.

(** The loop over stored rules for a token the file grants something: a rule
    that would narrow the grant is skipped. *)
Fixpoint widen (g : RuleGrants) (e : EffectiveGrants) (stored : list OidcGrantRule) : EffectiveGrants :=
  match stored with
  | [] => e
  | rule :: stored =>
    match (let? widened := add_rule g rule in let? next := resolve widened in Ok (widened, next)) with
    | Ok (widened, next) => if covers_grant next e then widen widened next stored else widen g e stored
    | Err _ => widen g e stored
    end
  end.

(** The rules a token matches, in the file and among the stored ones. *)
Definition effective_grants (config : OidcConfig) (stored : AppliedGrantRules) (values : gset string) :
    result EffectiveGrants AuthError :=
  let? matched := try_fold add_rule no_grants (matched_rules values (grant_rules config)) in
  if grants_empty matched then
    bail_if existsb (λ v, bool_decide (v ∈ withheld stored)) (btree_set_iter values)
      with (Forbidden "a stored grant rule for this token is not applied on this replica; retry once every replica runs a release that reads it") in
    let? matched := try_fold add_rule matched (matched_rules values (applied_rules stored)) in
    resolve matched
  else
    let? e := resolve matched in
    Ok (widen matched e (matched_rules values (applied_rules stored))).

Definition token_tenant (config : OidcConfig) (claims : Claims) : result (option string) AuthError :=
  match tenant_claim config with
  | None => Ok None
  | Some claim =>
    match json_get (rest claims) claim with
    | None => Ok None
    | Some (JString tenant) =>
      if is_blank tenant then Err (Unauthorized "OIDC tenant claim must be a non-empty string")
      else Ok (Some tenant)
    | Some _ => Err (Unauthorized "OIDC tenant claim must be a non-empty string")
    end
  end.

(** [OidcAuthExtension::grants]. *)
Definition token_grants (config : OidcConfig) (stored : AppliedGrantRules) (claims : Claims) (now : Z) :
    result Grants AuthError :=
  let? _ := check_claims config claims now in
  let values := claim_values (json_get (rest claims) (grants_claim config)) in
  let? e := effective_grants config stored values in
  let? tenant := token_tenant config claims in
  let? actors := match json_get (rest claims) "act" with
                 | Some act => parse_actor_chain act
                 | None => Ok []
                 end in
  Ok {| g_subject := sub claims +:+ "@" +:+ iss claims; g_tenant := tenant; effective := e; g_actors := actors |}.

(** ** Verifying a token *)

Definition MAX_TOKEN_BYTES : Z := 16 * 1024.

(** The claims of a token with a good signature, and whether the refresher is
    woken for an unknown key. *)
Definition verified_claims (algorithms : list Algorithm) (cache : JwksCache) (token : list Byte.byte) :
    bool * result Claims AuthError :=
  let checked : result (string * string * string * Algorithm * string) AuthError :=
    bail_if MAX_TOKEN_BYTES <? Z.of_nat (length token) with (Unauthorized "OIDC token is too large") in
    let? text := ok_or (from_utf8 token) (Unauthorized "OIDC token is not text") in
    match split_on "."%char (trim text) with
    | [header_b64; payload_b64; signature_b64] =>
      let? raw := b64url_decode header_b64 in
      let? header := ok_or (header_of_json raw) (Unauthorized "OIDC token header is not valid JSON") in
      let? algorithm := match parse_algorithm (alg header) with
                        | Ok a => if bool_decide (a ∈ algorithms) then Ok a
                                  else Err (Unauthorized "OIDC token algorithm is not accepted")
                        | Err _ => Err (Unauthorized "OIDC token algorithm is not accepted")
                        end in
      let? k := ok_or (kid header) (Unauthorized "OIDC token has no kid") in
      Ok (header_b64, payload_b64, signature_b64, algorithm, k)
    | _ => Err (Unauthorized "OIDC token is not a compact JWS")
    end in
  match checked with
  | Err e => (false, Err e)
  | Ok (header_b64, payload_b64, signature_b64, algorithm, k) =>
    match keys cache !! k with
    | None => (true, Err (Unauthorized "OIDC token signing key is unknown"))
    | Some key =>
      (false,
       bail_if negb (bool_decide (key_algorithm key = algorithm))
         with (Unauthorized "OIDC token algorithm does not match its key") in
       let? signature := b64url_decode signature_b64 in
       bail_if negb (signature_valid key (header_b64 +:+ "." +:+ payload_b64) signature)
         with (Unauthorized "OIDC token signature is invalid") in
       let? payload := b64url_decode payload_b64 in
       ok_or (claims_of_json payload) (Unauthorized "OIDC token claims are not valid"))
    end
  end.

(** [OidcAuthExtension]. *)
Record OidcAuthExtension := { config : OidcConfig; accepted : list Algorithm; require_tenant : bool }.

Definition new_extension (c : OidcConfig) (require : bool) : result OidcAuthExtension AuthError :=
  let? _ := validate_config c in
  let? l := try_fold (λ l raw, let? a := parse_algorithm raw in Ok (l ++ [a])) [] (algorithms c) in
  Ok {| config := c; accepted := l; require_tenant := require |}.

(** [OidcAuthExtension::first_administrator]. *)
Definition first_administrator (x : OidcAuthExtension) (stored : FirstAdministrator) : FirstAdministrator :=
  either (config_first_administrator (config x)) stored.

(** [OidcAuthExtension::verify]. *)
Definition verify_token (x : OidcAuthExtension) (cache : JwksCache) (stored : AppliedGrantRules)
    (token : list Byte.byte) (now : Z) : bool * result Grants AuthError :=
  let '(woken, claims) := verified_claims (accepted x) cache token in
  (woken, let? claims := claims in token_grants (config x) stored claims now).

(** The context of verified grants. *)
Definition context_of_grants (x : OidcAuthExtension) (request : string) (g : Grants)
    (authority : TenantDerivationAuthority) : result AuthenticatedRequestContext AuthError :=
  let e := effective g in
  let b := with_actor_chain (with_delivery_capabilities
             (builder request {| principal_id := g_subject g; principal_kind := e_kind e |} "oidc")
             (elements (e_capabilities e))) (g_actors g) in
  let b := match e_environment e with
           | Some environment => with_environment_binding_opt b (Some environment)
           | None => b
           end in
  let b := with_product_bindings b (btree_set_iter (e_products e)) in
  let b := if bool_decide (e_channels e = ∅) then b
           else with_channel_bindings b (btree_set_iter (e_channels e)) in
  let? b := match g_tenant g, require_tenant x with
            | Some tenant, _ => with_tenant b tenant authority
            | None, true => Err (Forbidden "OIDC token is missing the required tenant claim")
            | None, false => Ok b
            end in
  build b.

(** [EnterpriseAuthExtension for OidcAuthExtension]. *)
Definition oidc_authenticate (x : OidcAuthExtension) (cache : JwksCache) (stored : AppliedGrantRules) (now : Z)
    (credential : CredentialMaterial) (authority : TenantDerivationAuthority) :
    result AuthenticatedRequestContext AuthError :=
  let? _ := validate_credential credential in
  let? token := ok_or (assertion credential) (InvalidCredential "OIDC extension requires a bearer JWT") in
  let? g := (verify_token x cache stored token now).2 in
  context_of_grants x (request_id credential) g authority.

Definition oidc_extension (x : OidcAuthExtension) (cache : JwksCache) (stored : AppliedGrantRules) (now : Z) :
    EnterpriseAuthExtension := {|
  extension_id := "oidc"; extension_contract := AUTH_CONTEXT_CONTRACT_VERSION;
  extension_audience := audience (config x);
  extension_authenticate := oidc_authenticate x cache stored now |}.

(** ** The grant file stands *)

Lemma leaves_open_trans a b c : leaves_open a b = true → leaves_open b c = true → leaves_open a c = true.
Proof.
  unfold leaves_open. rewrite !orb_true_iff, !andb_true_iff, !negb_true_iff, !bool_decide_eq_true, !bool_decide_eq_false.
  intros [->|[Hb Hab]] [?|[Hc Hbc]]; [by left..|done|]. right. split; [done|set_solver].
Qed.

Lemma leaves_open_refl a : leaves_open a a = true.
Proof.
  unfold leaves_open. rewrite orb_true_iff, andb_true_iff, negb_true_iff, !bool_decide_eq_true, bool_decide_eq_false.
  destruct (decide (a = ∅)); [by left|by right].
Qed.

(** [covers_grant] as a relation. *)
Lemma covers_spec g base :
  covers_grant g base = true ↔
  e_capabilities base ⊆ e_capabilities g ∧ e_kind g = e_kind base
  ∧ (e_environment g = None ∨ e_environment g = e_environment base)
  ∧ leaves_open (e_channels g) (e_channels base) = true
  ∧ leaves_open (e_products g) (e_products base) = true.
Proof.
  unfold covers_grant. rewrite !andb_true_iff, orb_true_iff, !bool_decide_eq_true. tauto.
Qed.

Lemma covers_refl g : covers_grant g g = true.
Proof. apply covers_spec. split_and!; auto using leaves_open_refl. Qed.

Lemma covers_trans a b c : covers_grant a b = true → covers_grant b c = true → covers_grant a c = true.
Proof.
  rewrite !covers_spec. intros (H1 & H2 & H3 & H4 & H5) (H1' & H2' & H3' & H4' & H5').
  split_and!; [set_solver|congruence|destruct H3 as [?| ->]; auto|by eapply leaves_open_trans..].
Qed.

Lemma widen_covers g e l : covers_grant (widen g e l) e = true.
Proof.
  revert g e. induction l as [|r l IH]; intros g e; simpl; [apply covers_refl|].
  destruct (add_rule g r) as [g'|]; simpl; [|apply IH].
  destruct (resolve g') as [e'|]; simpl; [|apply IH].
  destruct (covers_grant e' e) eqn:Hc; [|apply IH]. eapply covers_trans; [apply IH|done].
Qed.

(** What a rule confers. *)
Definition confers (r : OidcGrantRule) (c : DeliveryCapability) : Prop :=
  ∃ s, parse_delivery_capabilities (capabilities r) = Ok s ∧ c ∈ s.

(** Publishing is part of management. *)
Definition publishes (r : OidcGrantRule) : Prop :=
  confers r PublishCapability ∨ confers r ManagementCapability.

Definition publication (c : DeliveryCapability) : Prop := c = PublishCapability ∨ c = ManagementCapability.

(** Everything in [g] is there because of one of [rs]. *)
Record backed (rs : list OidcGrantRule) (g : RuleGrants) : Prop := {
  fleet_backed c : c ∈ fleet g → ∃ r, r ∈ rs ∧ environment r = None ∧ confers r c;
  scoped_backed e s c : scoped g !! e = Some s → c ∈ s → ∃ r, r ∈ rs ∧ environment r = Some e ∧ confers r c;
  products_backed p : p ∈ r_products g → ∃ r, r ∈ rs ∧ publishes r ∧ p ∈ products r;
  unrestricted_backed : unrestricted_publication g = true → ∃ r, r ∈ rs ∧ publishes r ∧ products r = [];
  publication_bound c : publication c → c ∈ fleet g ∨ (∃ e s, scoped g !! e = Some s ∧ c ∈ s) →
    unrestricted_publication g = true ∨ r_products g ≠ ∅
}.

Lemma backed_none rs : backed rs no_grants.
Proof. split; simpl; set_solver. Qed.

Lemma backed_more rs rs' g : rs ⊆ rs' → backed rs g → backed rs' g.
Proof.
  intros Hr [Hf Hs Hp Hu Hb]. split.
  - intros c Hc. destruct (Hf c Hc) as (r & ? & ?). exists r. set_solver.
  - intros e s c H1 H2. destruct (Hs e s c H1 H2) as (r & ? & ?). exists r. set_solver.
  - intros p Hpp. destruct (Hp p Hpp) as (r & ? & ?). exists r. set_solver.
  - intros H. destruct (Hu H) as (r & ? & ?). exists r. set_solver.
  - done.
Qed.

Lemma add_backed rs g g' r : backed rs g → add_rule g r = Ok g' → backed (rs ++ [r]) g'.
Proof.
  intros Hb. unfold add_rule. destruct (parse_delivery_capabilities (capabilities r)) as [s|] eqn:Hs; [|done].
  simpl. intros [= <-]. set (pub := bool_decide _ || bool_decide _).
  assert (∀ c, c ∈ s → confers r c) as Hc by (intros c Hin; by exists s).
  assert (pub = true ↔ PublishCapability ∈ s ∨ ManagementCapability ∈ s) as Hpub.
  { unfold pub. by rewrite orb_true_iff, !bool_decide_eq_true. }
  assert (pub = true → publishes r) as Hpr by (intros [|]%Hpub; [left|right]; auto).
  assert (r ∈ rs ++ [r]) as Hr by set_solver.
  apply (backed_more _ (rs ++ [r])) in Hb; [|set_solver]. destruct Hb as [Bf Bs Bp Bu Bb]. split; simpl.
  - intros c H. destruct (environment r) as [e|] eqn:He; [by apply Bf|].
    apply elem_of_union in H as [H|H]; [by apply Bf|]. exists r. auto.
  - intros e s' c He H. destruct (environment r) as [e'|] eqn:He'; [|by eapply Bs].
    destruct (decide (e' = e)) as [->|Hne].
    + rewrite lookup_insert_eq in He. injection He as <-. apply elem_of_union in H as [H|H]; [|by exists r; auto].
      destruct (scoped g !! e) as [s0|] eqn:H0; simpl in H; [by eapply Bs|set_solver].
    + rewrite lookup_insert_ne in He by done. by eapply Bs.
  - intros p. destruct pub; [|by apply Bp]. intros [H|H]%elem_of_union; [by apply Bp|].
    apply elem_of_list_to_set in H. exists r. auto.
  - intros [H|[Hp H]%andb_true_iff]%orb_true_iff; [by apply Bu|]. exists r.
    split_and!; [done|by apply Hpr|by destruct (products r)].
  - intros c Hpc H. destruct (decide (pub = true)) as [Hp|Hn%not_true_is_false].
    + rewrite Hp. destruct (products r) as [|p l]; [left; by rewrite orb_true_r|right].
      simpl. set_solver.
    + rewrite Hn. simpl. rewrite orb_false_r. apply (Bb c Hpc).
      assert (c ∉ s) as Hcs.
      { intros Hin. assert (pub = true) as Hp; [|congruence]. apply Hpub. by destruct Hpc as [-> | ->]; [left|right]. }
      destruct (environment r) as [e|].
      * destruct H as [H|(e' & s' & He & H)]; [by left|]. right.
        destruct (decide (e = e')) as [->|Hne].
        -- rewrite lookup_insert_eq in He. injection He as <-. apply elem_of_union in H as [H|H]; [|done].
           destruct (scoped g !! e') as [s0|] eqn:H0; simpl in H; [by exists e', s0|set_solver].
        -- rewrite lookup_insert_ne in He by done. by exists e', s'.
      * destruct H as [[H|H]%elem_of_union|H]; [by left|done|by right].
Qed.

Lemma fold_backed rs l g g' :
  backed rs g → try_fold add_rule g l = Ok g' → backed (rs ++ l) g'.
Proof.
  revert rs g. induction l as [|r l IH]; intros rs g Hb; simpl.
  { intros [= <-]. by rewrite app_nil_r. }
  destruct (add_rule g r) as [g1|] eqn:Ha; [|done]. simpl. intros H.
  replace (rs ++ r :: l) with ((rs ++ [r]) ++ l) by (by rewrite <- app_assoc).
  apply (IH _ g1); [|done]. by apply (add_backed _ g).
Qed.

(** A grant no wider than the rules: every capability has a rule that confers
    it, in the whole fleet or in the environment the grant is confined to;
    and what may be published has a rule that says so. *)
Record conferred (rs : list OidcGrantRule) (e : EffectiveGrants) : Prop := {
  capability_conferred c : c ∈ e_capabilities e →
    ∃ r, r ∈ rs ∧ confers r c ∧ (environment r = None ∨ environment r = e_environment e);
  product_conferred p : p ∈ e_products e → ∃ r, r ∈ rs ∧ publishes r ∧ p ∈ products r;
  publication_conferred c : publication c → c ∈ e_capabilities e → e_products e = ∅ →
    ∃ r, r ∈ rs ∧ publishes r
         ∧ (products r = [] ∨ environment r = None ∧ confers r ManagementCapability)
}.

(** What is resolved: the fleet's capabilities, or those of one environment too. *)
Lemma resolve_cases g e :
  resolve g = Ok e →
  let management := bool_decide (ManagementCapability ∈ fleet g) in
  e_channels e = (if management then ∅ else r_channels g)
  ∧ e_products e = (if management || unrestricted_publication g then ∅ else r_products g)
  ∧ e_kind e = r_kind g
  ∧ ((e_capabilities e = fleet g ∧ e_environment e = None)
     ∨ ∃ n s, scoped g !! n = Some s ∧ e_capabilities e = fleet g ∪ s ∧ e_environment e = Some n).
Proof.
  unfold resolve. intros H. simpl.
  destruct (btree_iter (scoped g)) as [|[n s] l] eqn:Hl; simpl in H.
  { injection H as <-. split_and!; auto. }
  assert (scoped g !! n = Some s) as Hn by (apply elem_of_btree_iter; rewrite Hl; left).
  destruct (bool_decide _); simpl in H; [injection H as <-; split_and!; auto|].
  destruct l; [|done]. simpl in H. injection H as <-. split_and!; auto. right. by exists n, s.
Qed.

Lemma resolve_conferred rs g e : backed rs g → resolve g = Ok e → conferred rs e.
Proof.
  intros [Bf Bs Bp Bu Bb] (Hch & Hpr & Hk & Hcap)%resolve_cases. split.
  - intros c Hc. destruct Hcap as [[Hcap He]|(n & s & Hn & Hcap & He)]; rewrite Hcap in Hc.
    + destruct (Bf c Hc) as (r & ? & ? & ?). exists r. auto.
    + apply elem_of_union in Hc as [Hc|Hc].
      * destruct (Bf c Hc) as (r & ? & ? & ?). exists r. auto.
      * destruct (Bs n s c Hn Hc) as (r & ? & ? & ?). exists r. split_and!; [done|done|right; congruence].
  - intros p. rewrite Hpr. destruct (_ || _); [set_solver|]. apply Bp.
  - intros c Hpc Hc Hemp.
    assert (c ∈ fleet g ∨ ∃ n s, scoped g !! n = Some s ∧ c ∈ s) as Hin.
    { destruct Hcap as [[Hcap _]|(n & s & Hn & Hcap & _)]; rewrite Hcap in Hc; [by left|].
      apply elem_of_union in Hc as [?|?]; [by left|right; eauto]. }
    case_bool_decide as Hm.
    + destruct (Bf _ Hm) as (r & ? & ? & ?). exists r. split_and!; [done|by right|by right].
    + simpl in Hpr. destruct (Bb c Hpc Hin) as [Hu|Hne].
      * destruct (Bu Hu) as (r & ? & ? & ?). exists r. auto.
      * destruct (unrestricted_publication g) eqn:Hu; [|congruence].
        destruct (Bu eq_refl) as (r & ? & ? & ?). exists r. auto.
Qed.

Lemma conferred_more rs rs' e : rs ⊆ rs' → conferred rs e → conferred rs' e.
Proof.
  intros Hr [H1 H2 H3]. split.
  - intros c Hc. destruct (H1 c Hc) as (r & ? & ?). exists r. set_solver.
  - intros p Hp. destruct (H2 p Hp) as (r & ? & ?). exists r. set_solver.
  - intros c Hpc Hc He. destruct (H3 c Hpc Hc He) as (r & ? & ?). exists r. set_solver.
Qed.

Lemma widen_conferred rs g e l :
  backed rs g → resolve g = Ok e → conferred (rs ++ l) (widen g e l).
Proof.
  revert rs g e. induction l as [|r l IH]; intros rs g e Hb He; simpl.
  { rewrite app_nil_r. by eapply resolve_conferred. }
  assert (conferred (rs ++ r :: l) (widen g e l)) as Hskip.
  { eapply conferred_more; [|by apply (IH rs)]. set_solver. }
  destruct (add_rule g r) as [g'|] eqn:Ha; simpl; [|done].
  destruct (resolve g') as [e'|] eqn:He'; simpl; [|done].
  destruct (covers_grant e' e); [|done].
  replace (rs ++ r :: l) with ((rs ++ [r]) ++ l) by (by rewrite <- app_assoc).
  apply IH; [by eapply add_backed|done].
Qed.

(** Where the rules of a token come from. *)
Definition rules_of_token (config : OidcConfig) (stored : AppliedGrantRules) (values : gset string) : list OidcGrantRule :=
  matched_rules values (grant_rules config) ++ matched_rules values (applied_rules stored).

Lemma effective_conferred config stored values e :
  effective_grants config stored values = Ok e → conferred (rules_of_token config stored values) e.
Proof.
  unfold effective_grants, rules_of_token.
  destruct (try_fold _ _ _) as [g|] eqn:Hg; [|done]. simpl.
  apply (fold_backed []) in Hg; [|apply backed_none]. simpl in Hg.
  destruct (grants_empty g).
  - intros [_ H]%bail_ok. destruct (try_fold add_rule g _) as [g'|] eqn:Hg'; [|done]. simpl in H.
    apply (fold_backed _ _ _ _ Hg) in Hg'. by eapply resolve_conferred.
  - destruct (resolve g) as [e'|] eqn:He; [|done]. simpl. intros [= <-]. by apply widen_conferred.
Qed.

Definition valid_rules (rules : list OidcGrantRule) : Prop := ∀ r, r ∈ rules → validate_grant_rule r = Ok tt.

Lemma valid_rule_granted r :
  validate_grant_rule r = Ok tt → ∃ s, parse_delivery_capabilities (capabilities r) = Ok s ∧ s ≠ ∅.
Proof.
  unfold validate_grant_rule. intros [_ [_ H]%bail_ok]%bail_ok.
  destruct (parse_delivery_capabilities (capabilities r)) as [s|]; [|done]. simpl in H.
  apply bail_ok in H as [H _]. exists s. by apply bool_decide_eq_false in H.
Qed.

Lemma valid_rule_adds g r :
  validate_grant_rule r = Ok tt → ∃ g', add_rule g r = Ok g' ∧ grants_empty g' = false.
Proof.
  intros (s & Hs & Hne)%valid_rule_granted. unfold add_rule. rewrite Hs. simpl. eexists. split; [done|].
  unfold grants_empty. simpl. apply andb_false_iff. rewrite !bool_decide_eq_false.
  destruct (environment r); [right|left].
  - intros H. apply (f_equal (lookup s0)) in H. by rewrite lookup_insert_eq in H.
  - set_solver.
Qed.

Lemma valid_rules_fold l g :
  valid_rules l → ∃ g', try_fold add_rule g l = Ok g' ∧ (l ≠ [] ∨ grants_empty g = false → grants_empty g' = false).
Proof.
  revert g. induction l as [|r l IH]; intros g Hl; simpl.
  { exists g. split; [done|]. by intros [?|?]. }
  destruct (valid_rule_adds g r) as (g1 & Ha & Hne); [apply Hl; left|]. rewrite Ha. simpl.
  destruct (IH g1) as (g' & Hg' & He); [intros r' Hr'; apply Hl; by right|]. exists g'. auto.
Qed.

Lemma valid_rules_filter p l : valid_rules l → valid_rules (List.filter p l).
Proof. intros Hl r Hr. apply Hl. apply list_elem_of_In in Hr. apply list_elem_of_In. by apply filter_In in Hr as [? _]. Qed.

Lemma matched_rules_elem values rules r : r ∈ matched_rules values rules ↔ r ∈ rules ∧ value r ∈ values.
Proof.
  unfold matched_rules. by rewrite !list_elem_of_In, filter_In, bool_decide_eq_true.
Qed.

(** A token the file grants something keeps it, whatever is stored. *)
Lemma file_effective config stored values r e :
  valid_rules (grant_rules config) → r ∈ grant_rules config → value r ∈ values →
  effective_grants config no_stored_rules values = Ok e →
  ∃ e', effective_grants config stored values = Ok e' ∧ covers_grant e' e = true.
Proof.
  intros Hv Hr Hm. unfold effective_grants.
  destruct (valid_rules_fold (matched_rules values (grant_rules config)) no_grants) as (g & Hg & Hne).
  { by apply valid_rules_filter. }
  rewrite Hg. simpl. rewrite Hne.
  - destruct (resolve g) as [e0|]; [|done]. simpl. intros [= <-]. eexists. split; [done|]. apply widen_covers.
  - left. intros Hnil. assert (r ∈ matched_rules values (grant_rules config)) as Hin by by apply matched_rules_elem.
    rewrite Hnil in Hin. by apply not_elem_of_nil in Hin.
Qed.

(** The grant file is authoritative for the tokens it grants anything.
    When a rule of a valid file matches a token's claim, and the file alone
    accepts the token, then with any stored rules at all, readable or
    withheld, narrowing, conflicting or malformed, the token is accepted too:
    same subject, same tenant, same actors, same principal kind, every
    capability the file gave, and no environment, channel or product binding
    that confines what the file leaves open. *)
Theorem file_grants_stand config claims now r g stored :
  valid_rules (grant_rules config) → r ∈ grant_rules config →
  value r ∈ claim_values (json_get (rest claims) (grants_claim config)) →
  token_grants config no_stored_rules claims now = Ok g →
  ∃ g', token_grants config stored claims now = Ok g'
    ∧ g_subject g' = g_subject g ∧ g_tenant g' = g_tenant g ∧ g_actors g' = g_actors g
    ∧ covers_grant (effective g') (effective g) = true.
Proof.
  intros Hv Hr Hm. unfold token_grants. destruct (check_claims config claims now); [|done]. simpl.
  destruct (effective_grants config no_stored_rules _) as [e|] eqn:He; [|done]. simpl.
  destruct (file_effective config stored _ r e Hv Hr Hm He) as (e' & -> & Hc). simpl.
  destruct (token_tenant config claims); [|done]. simpl.
  destruct (match json_get _ _ with Some act => _ | None => _ end); [|done]. simpl.
  intros [= <-]. eexists. split_and!; done.
Qed.

(** What an accepted token proves. *)
Lemma token_grants_sound config stored claims now g :
  token_grants config stored claims now = Ok g →
  iss claims = issuer config
  ∧ audience_contains (aud claims) (audience config) = true
  ∧ now <= i64_wrap (exp claims + clock_skew_secs config)
  ∧ conferred (rules_of_token config stored
      (claim_values (json_get (rest claims) (grants_claim config)))) (effective g).
Proof.
  unfold token_grants. destruct (check_claims config claims now) as [[]|] eqn:Hc; [|done]. simpl.
  destruct (effective_grants config stored _) as [e|] eqn:He; [|done]. simpl.
  destruct (token_tenant config claims); [|done]. simpl.
  destruct (match json_get _ _ with Some act => _ | None => _ end); [|done]. simpl. intros [= <-].
  unfold check_claims in Hc. apply bail_ok in Hc as [Hi [Ha [_ [Ht _]%bail_ok]%bail_ok]%bail_ok].
  apply negb_false_iff, bool_decide_eq_true in Hi. apply negb_false_iff in Ha. apply Z.ltb_ge in Ht.
  split_and!; [done..|]. by apply effective_conferred.
Qed.

(** A withheld rule closes the store to a token the file grants nothing. *)
Lemma withheld_refused config stored values v :
  valid_rules (grant_rules config) → matched_rules values (grant_rules config) = [] →
  v ∈ values → v ∈ withheld stored → ¬ is_ok (effective_grants config stored values).
Proof.
  intros Hv Hnil Hin Hw. unfold effective_grants. rewrite Hnil. simpl.
  replace (existsb _ _) with true; [simpl; tauto|]. symmetry. apply existsb_exists. exists v.
  rewrite <- list_elem_of_In. split; [by apply elem_of_btree_set_iter|by apply bool_decide_eq_true].
Qed.

(** ** Actor chains *)

Definition good_chain (chain : list Actor) : Prop :=
  NoDup (actor_id <$> chain) ∧ ∀ a, a ∈ chain → actor_id a ≠ "".

Lemma parse_actors_good room chain v chain' :
  good_chain chain → parse_actors room chain v = Ok chain' →
  good_chain chain' ∧ chain `prefix_of` chain' ∧ (length chain < length chain' <= length chain + room)%nat.
Proof.
  revert chain v. induction room as [|room IH]; intros chain v Hg; simpl; [done|].
  destruct (read_actor v) as [[[raw k] nested]|]; [|done]. simpl. intros [Hne [Hrep H]%bail_ok]%bail_ok.
  set (a := {| actor_id := trim raw; actor_kind := k |}) in *.
  assert (good_chain (chain ++ [a])) as Hg'.
  { destruct Hg as [Hd Hn]. split.
    - rewrite fmap_app. apply NoDup_app. split_and!; [done| |apply NoDup_singleton].
      intros i Hi Hia. apply list_elem_of_singleton in Hia as ->. apply list_elem_of_fmap in Hi as (b & Hb & Hin).
      assert (existsb (λ b, bool_decide (actor_id b = trim raw)) chain = true) as Hex; [|congruence].
      apply existsb_exists. exists b. split; [by apply list_elem_of_In|]. by apply bool_decide_eq_true.
    - intros b [Hb|Hb%list_elem_of_singleton]%elem_of_app; [by apply Hn|]. subst b. simpl.
      intros He. by rewrite He in Hne. }
  destruct nested as [v'|].
  - destruct (IH _ _ Hg' H) as (Hg2 & Hp & Hl). rewrite length_app in Hl. simpl in Hl.
    split_and!; [done| |lia|lia]. etrans; [|exact Hp]. by exists [a].
  - injection H as <-. split_and!; [done|by exists [a]|rewrite length_app; simpl; lia..].
Qed.

(** An accepted chain is short, and names each actor once. *)
Lemma actor_chain_good claim chain :
  parse_actor_chain claim = Ok chain → good_chain chain ∧ (0 < length chain <= MAX_ACTOR_CHAIN_DEPTH)%nat.
Proof.
  unfold parse_actor_chain. generalize MAX_ACTOR_CHAIN_DEPTH. intros room H.
  apply parse_actors_good in H as (Hg & _ & Hl); [split; [done|]; simpl in Hl; lia|].
  split; [by apply NoDup_nil|]. by intros a Ha%not_elem_of_nil.
Qed.

(** ** The context of a token *)

Lemma build_fields b c :
  build b = Ok c →
  delivery_capabilities c = b_capabilities b ∧ environment_binding c = b_environment b
  ∧ product_bindings c = b_products b ∧ principal c = b_principal b ∧ actor_chain c = b_actors b
  ∧ tenant c = b_tenant b.
Proof.
  unfold build. set (c0 := Build_AuthenticatedRequestContext _ _ _ _ _ _ _ _ _ _ _).
  destruct (validate_context c0); [|done]. by intros [= <-].
Qed.

Lemma context_of_grants_sound x request g authority c :
  context_of_grants x request g authority = Ok c →
  delivery_capabilities c = e_capabilities (effective g)
  ∧ environment_binding c = e_environment (effective g)
  ∧ product_bindings c = e_products (effective g)
  ∧ principal c = {| principal_id := g_subject g; principal_kind := e_kind (effective g) |}
  ∧ actor_chain c = g_actors g
  ∧ tenant c = (λ t, {| tenant_id := t; tenant_extension := authority_extension authority |}) <$> g_tenant g.
Proof.
  unfold context_of_grants. intros H.
  assert (list_to_set (elements (e_capabilities (effective g))) = e_capabilities (effective g)) as Hcap
    by (apply set_eq; intros ?; by rewrite elem_of_list_to_set, elem_of_elements).
  assert (list_to_set (btree_set_iter (e_products (effective g))) = e_products (effective g)) as Hpr
    by (apply set_eq; intros ?; by rewrite elem_of_list_to_set, elem_of_btree_set_iter).
  destruct (e_environment (effective g)) as [env|], (bool_decide (e_channels (effective g) = ∅)),
    (g_tenant g) as [t|]; simpl in H; unfold with_tenant in H;
  try (destruct (is_blank t); [done|]); try (destruct (require_tenant x); [done|]);
  apply build_fields in H as (-> & -> & -> & -> & -> & ->); simpl; by rewrite ?Hcap, ?Hpr.
Qed.

(** An accepted credential carries a token signed by a cached key. *)
Lemma oidc_authenticate_sound x cache stored now credential authority c :
  oidc_authenticate x cache stored now credential authority = Ok c →
  ∃ token claims g,
    assertion credential = Some token
    ∧ (verified_claims (accepted x) cache token).2 = Ok claims
    ∧ token_grants (config x) stored claims now = Ok g
    ∧ context_of_grants x (request_id credential) g authority = Ok c.
Proof.
  unfold oidc_authenticate, verify_token. destruct (validate_credential credential); [|done]. simpl.
  destruct (assertion credential) as [token|]; [|done]. simpl.
  destruct (verified_claims (accepted x) cache token) as [woken [claims|]] eqn:Hv; [|done]. simpl.
  destruct (token_grants (config x) stored claims now) as [g|] eqn:Hg; [|done]. simpl.
  intros Hc. exists token, claims, g. by rewrite Hv.
Qed.

Lemma verified_claims_signed l cache token claims :
  (verified_claims l cache token).2 = Ok claims →
  ∃ header payload signature k key sig bytes,
    split_on "."%char (trim (String.string_of_list_byte token)) = [header; payload; signature]
    ∧ keys cache !! k = Some key ∧ key_algorithm key ∈ l
    ∧ base64url signature = Some sig ∧ signature_valid key (header +:+ "." +:+ payload) sig = true
    ∧ base64url payload = Some bytes ∧ claims_of_json bytes = Some claims.
Proof.
  unfold verified_claims, from_utf8. destruct (MAX_TOKEN_BYTES <? _); [done|]. simpl.
  destruct (utf8_valid token); [|done]. simpl.
  destruct (split_on _ _) as [|h [|p [|s [|]]]]; try done.
  unfold b64url_decode. destruct (base64url h) as [raw|]; [|done]. simpl.
  destruct (header_of_json raw) as [header|]; [|done]. simpl.
  destruct (parse_algorithm (alg header)) as [a|]; [|done]. case_bool_decide as Ha; [|done]. simpl.
  destruct (kid header) as [k|]; [|done]. simpl. destruct (keys cache !! k) as [key|] eqn:Hk; [|done]. simpl.
  intros [Halg H]%bail_ok. apply negb_false_iff, bool_decide_eq_true in Halg.
  destruct (base64url s) as [sig|] eqn:Hs; [|done]. simpl in H. apply bail_ok in H as [Hsig H].
  destruct (base64url p) as [bytes|] eqn:Hp; [|done]. simpl in H.
  destruct (claims_of_json bytes) as [cl|] eqn:Hcl; [|done]. injection H as <-.
  exists h, p, s, k, key, sig, bytes. apply negb_false_iff in Hsig. split_and!; try done. by rewrite Halg.
Qed.

(** ** The key cache *)

(** A cache that was loaded stays usable: refreshes that fail keep the keys. *)
Lemma refresh_cache_usable min_interval now fetched c fetched_b r c' :
  keys c ≠ ∅ → refresh_cache min_interval now fetched c = (fetched_b, r, c') →
  keys c' ≠ ∅
  ∧ (r ≠ Ok tt → keys c' = keys c)
  ∧ (fetched_b = true → last_fetch c' = Some now
       ∧ ∀ at_, last_fetch c = Some at_ → min_interval <= now - at_).
Proof.
  intros Hne. unfold refresh_cache. destruct (is_some_and _ _) eqn:Hi; [by intros [= <- <- <-]|].
  assert (∀ at_, last_fetch c = Some at_ → min_interval <= now - at_) as Hlast.
  { intros at_ Hl. rewrite Hl in Hi. simpl in Hi. by apply Z.ltb_ge in Hi. }
  destruct fetched as [raw|e]; simpl; [|by intros [= <- <- <-]].
  destruct (from_jwks_json raw) as [ks|e] eqn:Hk; simpl; intros [= <- <- <-]; simpl; [|done].
  split_and!; [|done|done]. unfold from_jwks_json in Hk. destruct (jwks_of_json raw); [|done]. simpl in Hk.
  apply bail_ok in Hk as [Hk [= <-]]. by apply bool_decide_eq_false in Hk.
Qed.
End Oidc.

(** ** Tokens and rules *)
Module OidcExamples.

Definition rule_for (v : string) (caps : list string) (env : option string) (prods : list string) : OidcGrantRule := {|
  value := v; capabilities := caps; environment := env; channels := []; products := prods; kind := None |}.

Definition file (rules : list OidcGrantRule) : OidcConfig := {|
  issuer := "https://idp"; audience := "tenkai"; algorithms := ["RS256"]; jwks_uri := None;
  jwks_file := None; clock_skew_secs := 60; jwks_refresh_secs := 600; client := None;
  grants_claim := "groups"; tenant_claim := None; grant_rules := rules |}.

Definition claims (groups : list string) : Claims := {|
  iss := "https://idp"; sub := "alice"; aud := Many ["other"; "tenkai"]; exp := 100; nbf := None;
  rest := [("groups", JArray (JString <$> groups))] |}.

Definition stored (rules : list OidcGrantRule) : AppliedGrantRules := {| applied_rules := rules; withheld := ∅ |}.

Definition seen (r : result Grants AuthError) : option (list DeliveryCapability * option string * list string) :=
  match r with
  | Ok g => Some (elements (e_capabilities (effective g)), e_environment (effective g),
                  btree_set_iter (e_products (effective g)))
  | Err _ => None
  end.

Definition reader := rule_for "readers" ["read"] None [].
Definition publisher := rule_for "publishers" ["publish"] None ["api"].
Definition operator := rule_for "operators" ["management"] (Some "prod") [].

(** Stored rules alone combine; two environments without fleet management are
    refused. *)
Example rules_combine :
  seen (token_grants (file []) (stored [reader; publisher]) (claims ["readers"; "publishers"]) 100)
    = Some ([PublishCapability; ReadCapability], None, ["api"])
  ∧ seen (token_grants (file []) (stored [operator; rule_for "b" ["management"] (Some "test") []])
            (claims ["operators"; "b"]) 100) = None
  ∧ seen (token_grants (file []) (stored [reader]) (claims ["readers"]) 161) = None.
Proof. vm_compute. done. Qed.

(** For a reader of the file, a stored rule that adds publishing of one
    product is skipped: the file's grant binds no product, so a binding
    counts as narrowing it although the file lets it publish nothing. *)
Example added_publication_skipped :
  seen (token_grants (file [reader]) (stored [publisher]) (claims ["readers"; "publishers"]) 100)
    = Some ([ReadCapability], None, [])
  ∧ seen (token_grants (file [reader]) (stored [rule_for "publishers" ["publish"] None []])
            (claims ["readers"; "publishers"]) 100)
    = Some ([PublishCapability; ReadCapability], None, []).
Proof. vm_compute. done. Qed.

(** An expiry at the end of [i64] wraps around with the skew: the token that
    never expires has expired. *)
Example expiry_wraps :
  is_ok (check_claims (file []) {| iss := "https://idp"; sub := "alice"; aud := One "tenkai";
                                   exp := i64_max; nbf := None; rest := [] |} 100) = false
  ∧ is_ok (check_claims (file []) {| iss := "https://idp"; sub := "alice"; aud := One "tenkai";
                                     exp := i64_max - 60; nbf := None; rest := [] |} 100) = true.
Proof. vm_compute. done. Qed.

(** Only an actor the token calls human is one. *)
Example actors :
  parse_actor_chain (JObject [("sub", JString "gateway"); ("kind", JString "service");
                              ("act", JObject [("sub", JString " bob "); ("kind", JString "human")])])
    = Ok [{| actor_id := "gateway"; actor_kind := ActorAgent |}; {| actor_id := "bob"; actor_kind := ActorHuman |}]
  ∧ is_ok (parse_actor_chain (JObject [("sub", JString "a"); ("act", JObject [("sub", JString "a")])])) = false
  ∧ is_ok (parse_actor_chain (JObject [("sub", JString "a"); ("act", JNull)])) = false.
Proof. vm_compute. done. Qed.

Definition reader_grants : Grants := {|
  g_subject := "alice@https://idp"; g_tenant := None; g_actors := [];
  effective := {| e_capabilities := {[ReadCapability]}; e_environment := None; e_channels := ∅;
                  e_products := ∅; e_kind := Human |} |}.

Lemma file_grants_stand_witness :
  ∃ g', token_grants (file [reader]) {| applied_rules := [operator; publisher]; withheld := {["operators"]} |}
          (claims ["readers"; "operators"]) 100 = Ok g'
    ∧ g_subject g' = g_subject reader_grants ∧ g_tenant g' = g_tenant reader_grants
    ∧ g_actors g' = g_actors reader_grants ∧ covers_grant (effective g') (effective reader_grants) = true.
Proof.
  apply (file_grants_stand (file [reader]) (claims ["readers"; "operators"]) 100 reader).
  - intros r Hr. apply list_elem_of_singleton in Hr. rewrite Hr. vm_compute. reflexivity.
  - left.
  - vm_compute. reflexivity.
  - vm_compute. reflexivity.
Defined.
End OidcExamples.
