(* ===== verification/GrantRules.v ===== *)
(** * Stored grant rules on several replicas

    [grant_rules.rs] with its SQLite tables, [storage/grant_rules.rs]: the
    hub's store keeps one grant rule per claim value and a generation that
    grows with every change; each replica keeps a snapshot, refreshed by a
    background thread and by its own writes, any of which may fail at any
    point.  The operations are programs over the store, the clock and the
    snapshot's lock, and [hub_threads] interleaves any number of them, on any
    number of replicas, with writes of other releases in between. *)

From S2P Require Import Prelude RustStr Effects Interleaving AuthContext OidcGrants.

(** ** Rows *)

(** Instants and durations are in nanoseconds. *)
Definition from_secs (n : Z) : Z := n * 1000000000.

Definition STALE_AFTER : Z := from_secs 30.
Definition MAX_STORED_RULES : Z := 256.
Definition MAX_REASON : Z := 1024.
Definition STORED_FORMAT : Z := 1.

Definition grant_store_error := string.

Record StoredGrantRule := {
  rule : OidcGrantRule; created_by : string; created_at_ms : Z; reason : string
}.

Record UnreadableGrantRule := { unreadable_value : string; unreadable_reason : string }.

Record StoredGrantRules := {
  generation : Z; rules : list StoredGrantRule; unreadable : list UnreadableGrantRule
}.

(** [serde_json] of a stored row. *)
Class GrantRowCodec := {
  row_of_rule : StoredGrantRule → result string grant_store_error;
  row_format : string → result Z string;
  rule_of_row : string → result StoredGrantRule string
}.

Section Grants.
Context {RC : GrantRowCodec}.

(** [decode] of one row. *)
Definition decode_row (v raw : string) : result StoredGrantRule string :=
  let? format := map_err (λ e, "not a stored grant rule: " +:+ e) (row_format raw) in
  bail_if negb (format =? STORED_FORMAT)
    with ("stored format " +:+ pretty format +:+ "; this release reads format " +:+ pretty STORED_FORMAT) in
  let? stored := map_err (λ e, "not readable by this release: " +:+ e) (rule_of_row raw) in
  bail_if negb (bool_decide (value (rule stored) = v))
    with ("stored under " +:+ debug_str v +:+ " but names claim value " +:+ debug_str (value (rule stored))) in
  Ok stored.

(** [StoredGrantRules::decode]. *)
Definition decode_rows (g : Z) (rows : list (string * string)) : StoredGrantRules :=
  foldl (λ d '(v, raw),
    match decode_row v raw with
    | Ok r => {| generation := generation d; rules := rules d ++ [r]; unreadable := unreadable d |}
    | Err why => {| generation := generation d; rules := rules d;
                    unreadable := unreadable d ++ [{| unreadable_value := v; unreadable_reason := why |}] |}
    end)
    {| generation := g; rules := []; unreadable := [] |} rows.

(** ** The store *)

Inductive GrantRuleWrite := Applied (after : StoredGrantRules) | Refused | Stale (current : Z).

Definition check_expected (expected : option Z) (current : Z) : option GrantRuleWrite :=
  match expected with
  | Some e => if e =? current then None else Some (Stale current)
  | None => None
  end.

(** The two tables. *)
Record GrantTables := { rows : gmap string string; generation_row : option Z }.

(** [generation] and [bump]. *)
Definition current_generation (t : GrantTables) : Z := default 0 (generation_row t).

Definition bumped (t : GrantTables) : option Z :=
  match generation_row t with None => Some 1 | Some g => Some (g + 1) end.

(** [rules]: every row and the generation. *)
Definition read_rules (t : GrantTables) : StoredGrantRules :=
  decode_rows (current_generation t) (btree_iter (rows t)).

(** [insert_grant_rule]. *)
Definition insert_grant_rule (r : StoredGrantRule) (expected : option Z) (t : GrantTables) :
    result (GrantRuleWrite * GrantTables) grant_store_error :=
  let? json := row_of_rule r in
  match check_expected expected (current_generation t) with
  | Some stale => Ok (stale, t)
  | None =>
    if MAX_STORED_RULES <=? Z.of_nat (size (rows t)) then Ok (Refused, t)
    else match rows t !! value (rule r) with
         | Some _ => Ok (Refused, t)
         | None =>
           let t' := {| rows := <[value (rule r) := json]> (rows t); generation_row := bumped t |} in
           Ok (Applied (read_rules t'), t')
         end
  end.

(** [delete_grant_rule]. *)
Definition delete_grant_rule (v : string) (expected : option Z) (t : GrantTables) :
    result (GrantRuleWrite * GrantTables) grant_store_error :=
  match check_expected expected (current_generation t) with
  | Some stale => Ok (stale, t)
  | None =>
    match rows t !! v with
    | None => Ok (Refused, t)
    | Some _ =>
      let t' := {| rows := delete v (rows t); generation_row := bumped t |} in
      Ok (Applied (read_rules t'), t')
    end
  end.

(** ** A replica's snapshot *)

Record GrantSnapshot := {
  s_generation : Z; applied : AppliedGrantRules; checked_at : Z; unsure_since : option Z
}.

(** What a replica is started with. *)
Record Replica := { config_values : gset string; stale_after : Z }.

Definition suspended (stale now : Z) (s : GrantSnapshot) : bool :=
  is_some_b (unsure_since s) || (stale <? now - checked_at s).

(** [StoredGrants::rules] and [is_stale]. *)
Definition rules_in_effect (self : Replica) (now : Z) (s : GrantSnapshot) : AppliedGrantRules :=
  if suspended (stale_after self) now s then no_stored_rules else applied s.


Definition stored_first_administrator (self : Replica) (now : Z) (s : GrantSnapshot) : FirstAdministrator :=
  if existsb grants_fleet_management (applied_rules (rules_in_effect self now s)) then Configured else Missing.

Definition auth_error_text (e : AuthError) : string :=
  match e with
  | InvalidCredential t => "invalid credential: " +:+ t
  | Unauthorized t => "unauthorized: " +:+ t
  | Forbidden t => "forbidden: " +:+ t
  | IncompatibleContract found expected =>
    "incompatible auth contract version " +:+ pretty found +:+ ", expected " +:+ pretty expected
  end.

Definition not_applied_reason (self : Replica) (r : OidcGrantRule) : option string :=
  if bool_decide (value r ∈ config_values self) then Some "the configuration file declares this claim value"
  else match validate_grant_rule r with Ok _ => None | Err e => Some (auth_error_text e) end.

(** The loops of [apply]: what this replica makes of stored rows. *)
Definition applied_of (self : Replica) (stored : StoredGrantRules) : AppliedGrantRules :=
  foldl (λ a r,
    if bool_decide (value (rule r) ∈ config_values self) then a
    else match validate_grant_rule (rule r) with
         | Ok _ => {| applied_rules := applied_rules a ++ [rule r]; withheld := withheld a |}
         | Err _ => {| applied_rules := applied_rules a; withheld := {[value (rule r)]} ∪ withheld a |}
         end)
    {| applied_rules := []; withheld := list_to_set (unreadable_value <$> unreadable stored) |} (rules stored).

(** [StoredGrants::apply], under the snapshot's lock. *)
Definition apply_stored (self : Replica) (stored : StoredGrantRules) (started : Z) (s : GrantSnapshot) : GrantSnapshot :=
  if generation stored <? s_generation s then s else
  {| s_generation := generation stored; applied := applied_of self stored;
     checked_at := Z.max (checked_at s) started;
     unsure_since := match unsure_since s with
                     | Some since => if started <? since then Some since else None
                     | None => None
                     end |}.

(** The check of [refresh], under the lock: whether nothing changed. *)
Definition confirm_generation (g started : Z) (s : GrantSnapshot) : bool * GrantSnapshot :=
  if (g =? s_generation s) && negb (is_some_b (unsure_since s))
  then (true, {| s_generation := s_generation s; applied := applied s;
                 checked_at := Z.max (checked_at s) started; unsure_since := unsure_since s |})
  else (false, s).

(** The first half of [write_failed]. *)
Definition mark_unsure (failed : Z) (s : GrantSnapshot) : GrantSnapshot :=
  {| s_generation := s_generation s; applied := applied s; checked_at := checked_at s;
     unsure_since := Some (match unsure_since s with Some since => Z.max since failed | None => failed end) |}.

(** ** What the operations ask for *)

Inductive grant_effect : Type → Type :=
| Now : grant_effect Z
| ReadGeneration : grant_effect (result Z grant_store_error)
| ReadRules : grant_effect (result StoredGrantRules grant_store_error)
| InsertRule (id : nat) (r : StoredGrantRule) (expected : option Z) : grant_effect (result GrantRuleWrite grant_store_error)
| DeleteRule (id : nat) (v : string) (expected : option Z) : grant_effect (result GrantRuleWrite grant_store_error)
(** A replica comes up with its first snapshot; a call reaches a replica that is up. *)
| Self (id : nat) : grant_effect Replica
| Install (id : nat) (self : Replica) (s : GrantSnapshot) : grant_effect unit
(** Sections under the snapshot's write lock. *)
| Confirm (id : nat) (g started : Z) : grant_effect bool
| ApplyStored (id : nat) (stored : StoredGrantRules) (started : Z) : grant_effect unit
| MarkUnsure (id : nat) (failed : Z) : grant_effect unit.

Inductive GrantRuleError :=
| InvalidRule (text : string)
| DeclaredByConfig (v : string)
| RuleExists (v : string)
| StaleGeneration (current : Z)
| AlreadyApplied (current : Z)
| RuleStore (e : grant_store_error).

(** ** The operations of a replica *)

(** [reload_from] and [reload]. *)
Definition reload_from (id : nat) (started : Z) : prog grant_effect (result unit grant_store_error) :=
  do? stored := perform ReadRules in
  do _ := perform (ApplyStored id stored started) in
  Ret (Ok tt).

Definition reload (id : nat) : prog grant_effect (result unit grant_store_error) :=
  do started := perform Now in
  reload_from id started.

(** [load_with_stale_after]. *)
Definition load_replica (id : nat) (self : Replica) : prog grant_effect (result unit grant_store_error) :=
  do now := perform Now in
  do _ := perform (Install id self {| s_generation := -1; applied := no_stored_rules;
                                      checked_at := now; unsure_since := None |}) in
  reload id.

(** [refresh]. *)
Definition refresh (id : nat) : prog grant_effect (result bool grant_store_error) :=
  do started := perform Now in
  do? g := perform ReadGeneration in
  do unchanged := perform (Confirm id g started) in
  if unchanged : bool then Ret (Ok false)
  else do? _ := reload_from id started in
       Ret (Ok true).

(** [write_failed]; the answer of the reload is only logged. *)
Definition write_failed (id : nat) : prog grant_effect unit :=
  do failed := perform Now in
  do _ := perform (MarkUnsure id failed) in
  do _ := reload id in
  Ret tt.

(** [write]. *)
Definition write_rule (id : nat) (write : grant_effect (result GrantRuleWrite grant_store_error))
    (holds : StoredGrantRules → bool) : prog grant_effect (result (option StoredGrantRules) GrantRuleError) :=
  do started := perform Now in
  do answer := perform write in
  match answer with
  | Ok (Applied after) =>
    do _ := perform (ApplyStored id after started) in
    Ret (Ok (Some after))
  | Ok Refused => Ret (Ok None)
  | Ok (Stale current) =>
    do read := perform ReadRules in
    let held := match read with Ok l => holds l | Err _ => false end in
    Ret (Err (if held : bool then AlreadyApplied current else StaleGeneration current))
  | Err e =>
    do _ := write_failed id in
    Ret (Err (RuleStore e))
  end.

Definition holds_rule (r : StoredGrantRule) (l : StoredGrantRules) : bool :=
  existsb (λ held, bool_decide (rule held = rule r) && bool_decide (created_by held = created_by r)
                   && bool_decide (reason held = reason r)) (rules l).

Definition holds_none (v : string) (l : StoredGrantRules) : bool :=
  forallb (λ held, negb (bool_decide (value (rule held) = v))) (rules l)
  && forallb (λ held, negb (bool_decide (unreadable_value held = v))) (unreadable l).

(** The checks of [create], before anything is written. *)
Definition check_create (self : Replica) (r : OidcGrantRule) (by_ why : string) (now_ms : Z) :
    result StoredGrantRule GrantRuleError :=
  let? _ := map_err (λ e, InvalidRule (auth_error_text e)) (validate_grant_rule r) in
  let why := trim why in
  bail_if str_is_empty why || (MAX_REASON <? str_len why)
    with (InvalidRule ("a reason of 1..=" +:+ pretty MAX_REASON +:+ " bytes is required")) in
  bail_if is_blank by_ with (InvalidRule "the creator is required") in
  bail_if bool_decide (value r ∈ config_values self) with (DeclaredByConfig (value r)) in
  Ok {| rule := r; created_by := by_; created_at_ms := now_ms; reason := why |}.

(** [create] and [remove]. *)
Definition create_rule (id : nat) (self : Replica) (r : OidcGrantRule) (by_ why : string) (now_ms : Z)
    (expected : option Z) : prog grant_effect (result StoredGrantRules GrantRuleError) :=
  do? stored := Ret (check_create self r by_ why now_ms) in
  do? written := write_rule id (InsertRule id stored expected) (holds_rule stored) in
  Ret (ok_or written (RuleExists (value (rule stored)))).

Definition remove_rule (id : nat) (v : string) (expected : option Z) :
    prog grant_effect (result (option StoredGrantRules) GrantRuleError) :=
  write_rule id (DeleteRule id v expected) (holds_none v).

(** ** A hub of replicas *)

(** The store, the clock and the replicas; [failures] records the replicas'
    writes that ended in an error, [marked] what they marked as failed and
    [answers] the answers they gave. *)
Inductive operation :=
| LoadReplica (self : Replica)
| RefreshReplica
| CreateRule (r : OidcGrantRule) (by_ why : string) (now_ms : Z) (expected : option Z)
| RemoveRule (v : string) (expected : option Z).

Inductive outcome :=
| Loaded (r : result unit grant_store_error)
| Refreshed (r : result bool grant_store_error)
| Created (r : result StoredGrantRules GrantRuleError)
| Removed (r : result (option StoredGrantRules) GrantRuleError).

Record Hub := {
  clock : Z;
  tables : GrantTables;
  replicas : gmap nat (Replica * GrantSnapshot);
  failures : list (nat * grant_store_error * Z);
  marked : list (nat * Z);
  answers : list (nat * operation * outcome)
}.

(** How an effect fares: it is answered, it fails, or its answer is lost after
    it took place. *)
Inductive fate := Answered | Failed (e : grant_store_error) | Lost (e : grant_store_error).

Definition hub_with_tables (w : Hub) (t : GrantTables) : Hub :=
  {| clock := clock w; tables := t; replicas := replicas w; failures := failures w; marked := marked w;
     answers := answers w |}.

Definition write_error_at (w : Hub) (id : nat) (e : grant_store_error) (t : GrantTables) : Hub :=
  {| clock := clock w; tables := t; replicas := replicas w; failures := (id, e, clock w) :: failures w;
     marked := marked w; answers := answers w |}.

Definition with_snapshot (w : Hub) (id : nat) (self : Replica) (s : GrantSnapshot) : Hub :=
  {| clock := clock w; tables := tables w; replicas := <[id := (self, s)]> (replicas w);
     failures := failures w; marked := marked w; answers := answers w |}.

Definition fated {X} (f : fate) (x : X) (w : Hub) : option (result X grant_store_error * Hub) :=
  Some (match f with Answered => Ok x | Failed e => Err e | Lost e => Err e end, w).

(** A write of [id] is answered with what it did; an error leaves open whether
    it took place. *)
Definition written (id : nat) (f : fate) (run : result (GrantRuleWrite * GrantTables) grant_store_error)
    (w : Hub) : option (result GrantRuleWrite grant_store_error * Hub) :=
  match run, f with
  | Err e, _ => Some (Err e, write_error_at w id e (tables w))
  | Ok (x, t), Answered => Some (Ok x, hub_with_tables w t)
  | Ok _, Failed e => Some (Err e, write_error_at w id e (tables w))
  | Ok (_, t), Lost e => Some (Err e, write_error_at w id e t)
  end.

Definition hub_act (X : Type) (e : grant_effect X) (f : fate) (w : Hub) : option (X * Hub) :=
  match e in grant_effect X return option (X * Hub) with
  | Now => Some (clock w, w)
  | ReadGeneration => fated f (current_generation (tables w)) w
  | ReadRules => fated f (read_rules (tables w)) w
  | InsertRule id r expected => written id f (insert_grant_rule r expected (tables w)) w
  | DeleteRule id v expected => written id f (delete_grant_rule v expected (tables w)) w
  | Self id => match replicas w !! id with Some (self, _) => Some (self, w) | None => None end
  | Install id self s =>
    match replicas w !! id with Some _ => None | None => Some (tt, with_snapshot w id self s) end
  | Confirm id g started =>
    match replicas w !! id with
    | Some (self, s) =>
      let '(unchanged, s') := confirm_generation g started s in Some (unchanged, with_snapshot w id self s')
    | None => None
    end
  | ApplyStored id stored started =>
    match replicas w !! id with
    | Some (self, s) => Some (tt, with_snapshot w id self (apply_stored self stored started s))
    | None => None
    end
  | MarkUnsure id failed =>
    match replicas w !! id with
    | Some (self, s) =>
      Some (tt, {| clock := clock w; tables := tables w;
                   replicas := <[id := (self, mark_unsure failed s)]> (replicas w);
                   failures := failures w; marked := (id, failed) :: marked w; answers := answers w |})
    | None => None
    end
  end.

(** Time passes; another release, or a write given up on, changes a row. *)
Inductive hub_move := Elapse (d : Z) | Foreign (v : string) (raw : option string).

Definition hub_moves (m : hub_move) (w : Hub) : option Hub :=
  match m with
  | Elapse d =>
    if d <? 0 then None
    else Some {| clock := clock w + d; tables := tables w; replicas := replicas w;
                 failures := failures w; marked := marked w; answers := answers w |}
  | Foreign v raw =>
    Some (hub_with_tables w {| rows := partial_alter (λ _, raw) v (rows (tables w));
                           generation_row := bumped (tables w) |})
  end.

(** [id]'s part of a request. *)
Definition call (id : nat) (o : operation) (self : Replica) : prog grant_effect outcome :=
  match o with
  | LoadReplica self => do r := load_replica id self in Ret (Loaded r)
  | RefreshReplica => do r := refresh id in Ret (Refreshed r)
  | CreateRule r by_ why now_ms expected =>
    do r := create_rule id self r by_ why now_ms expected in Ret (Created r)
  | RemoveRule v expected => do r := remove_rule id v expected in Ret (Removed r)
  end.

Definition begin_operation (request : nat * operation) : prog grant_effect outcome :=
  let '(id, o) := request in
  match o with
  | LoadReplica self => call id o self
  | _ => do self := perform (Self id) in call id o self
  end.

Definition hub_threads : Threads grant_effect Hub (nat * operation) outcome fate hub_move := {|
  begin := begin_operation;
  act := hub_act;
  report '(id, o) a w := {| clock := clock w; tables := tables w; replicas := replicas w;
                            failures := failures w; marked := marked w; answers := (id, o, a) :: answers w |};
  move := hub_moves |}.

Definition hub_system : Type := @system grant_effect Hub (nat * operation) outcome.

(** An empty hub at an instant, with the tables it starts from. *)
Definition hub_at (now : Z) (t : GrantTables) : hub_system := at_rest
  {| clock := now; tables := t; replicas := ∅; failures := []; marked := []; answers := [] |}.

(** ** What was stored when *)

(** The store holds [r] in a row this release reads. *)
Definition held (r : OidcGrantRule) (t : GrantTables) : Prop :=
  ∃ raw stored, rows t !! value r = Some raw ∧ decode_row (value r) raw = Ok stored ∧ rule stored = r.

Lemma decode_row_value v raw stored : decode_row v raw = Ok stored → value (rule stored) = v.
Proof.
  unfold decode_row. destruct (row_format raw); [|done]. simpl. intros [_ H]%bail_ok.
  destruct (rule_of_row raw); [|done]. simpl in H. apply bail_ok in H as [Hv [= <-]].
  by apply negb_false_iff, bool_decide_eq_true in Hv.
Qed.

(** Decoding keeps the generation and reads rows one by one. *)
Lemma decode_rows_spec g l :
  generation (decode_rows g l) = g
  ∧ ∀ stored, stored ∈ rules (decode_rows g l) ↔ ∃ v raw, (v, raw) ∈ l ∧ decode_row v raw = Ok stored.
Proof.
  unfold decode_rows. induction l as [|[v raw] l [IHg IHr]] using rev_ind; simpl.
  { split; [done|]. intros stored. split; [by intros ?%not_elem_of_nil|]. by intros (v & raw & ?%not_elem_of_nil & _). }
  rewrite foldl_app. simpl. set (d := foldl _ _ l) in *.
  destruct (decode_row v raw) as [r|why] eqn:Hd; simpl; (split; [done|]); intros stored.
  - rewrite elem_of_app, IHr, list_elem_of_singleton. split.
    + intros [(v' & raw' & Hin & Hok)| ->]; [exists v', raw'; set_solver|exists v, raw; set_solver].
    + intros (v' & raw' & [Hin|Hin%list_elem_of_singleton]%elem_of_app & Hok); [left; eauto|right; congruence].
  - rewrite IHr. split; intros (v' & raw' & Hin & Hok); exists v', raw'; [set_solver|].
    apply elem_of_app in Hin as [?|Hin%list_elem_of_singleton]; [done|]. congruence.
Qed.

Lemma read_rules_generation t : generation (read_rules t) = current_generation t.
Proof. apply decode_rows_spec. Qed.

Lemma read_rules_held t stored : stored ∈ rules (read_rules t) → held (rule stored) t.
Proof.
  intros (v & raw & Hin & Hd)%decode_rows_spec. apply elem_of_btree_iter in Hin.
  exists raw, stored. rewrite (decode_row_value _ _ _ Hd). done.
Qed.

(** A replica applies readable, valid rules of values its file leaves open. *)
Lemma applied_of_sound self stored r :
  r ∈ applied_rules (applied_of self stored) →
  (∃ row, row ∈ rules stored ∧ rule row = r) ∧ value r ∉ config_values self ∧ validate_grant_rule r = Ok tt.
Proof.
  unfold applied_of. induction (rules stored) as [|row l IH] using rev_ind; simpl; [by intros ?%not_elem_of_nil|].
  rewrite foldl_app. simpl. set (a := foldl _ _ l) in *.
  assert (r ∈ applied_rules a → (∃ row', row' ∈ l ++ [row] ∧ rule row' = r)
          ∧ value r ∉ config_values self ∧ validate_grant_rule r = Ok tt) as Hold.
  { intros Hin. destruct (IH Hin) as [(row' & ? & ?) ?]. split; [|done]. exists row'. set_solver. }
  case_bool_decide as Hc; [done|]. destruct (validate_grant_rule (rule row)) as [[]|] eqn:Hv; simpl; [|done].
  intros [?|Hr%list_elem_of_singleton]%elem_of_app; [by apply Hold|]. subst r.
  split_and!; [exists row; set_solver|done|done].
Qed.

(** ** The order of a hub's history *)

Record older (w w' : Hub) : Prop := {
  older_clock : clock w <= clock w';
  older_generation : current_generation (tables w) <= current_generation (tables w');
  older_failures : failures w ⊆ failures w';
  older_marked : marked w ⊆ marked w';
  older_rows : current_generation (tables w) = current_generation (tables w') → rows (tables w) = rows (tables w');
  older_replica id self s : replicas w !! id = Some (self, s) →
    ∃ s', replicas w' !! id = Some (self, s') ∧ s_generation s <= s_generation s'
}.

#[local] Instance older_preorder : PreOrder older.
Proof.
  split.
  - intros w. split; [lia|lia|done|done|done|]. intros id self s Hs. exists s. split; [done|lia].
  - intros w1 w2 w3 [c1 g1 f1 m1 r1 s1] [c2 g2 f2 m2 r2 s2]. split; [lia|lia|set_solver|set_solver| |].
    + intros Hg. rewrite r1 by lia. apply r2. lia.
    + intros id self s Hs. destruct (s1 _ _ _ Hs) as (s' & Hs' & ?). destruct (s2 _ _ _ Hs') as (s'' & ? & ?).
      exists s''. split; [done|lia].
Qed.

#[local] Notation ordered := (newest_first older).

(** A larger generation was read later. *)
Lemma later_generation h w1 w2 :
  ordered h → w1 ∈ h → w2 ∈ h → current_generation (tables w1) < current_generation (tables w2) →
  clock w1 <= clock w2.
Proof. intros Ho H1 H2 Hg. destruct (newest_first_total h w1 w2 Ho H1 H2) as [H|H]; [apply H|]. destruct H. lia. Qed.

Lemma same_generation h w1 w2 :
  ordered h → w1 ∈ h → w2 ∈ h → current_generation (tables w1) = current_generation (tables w2) →
  read_rules (tables w1) = read_rules (tables w2).
Proof.
  intros Ho H1 H2 Hg. unfold read_rules. rewrite Hg. f_equal. f_equal.
  destruct (newest_first_total h w1 w2 Ho H1 H2) as [H|H]; [by apply (older_rows _ _ H)|].
  symmetry. by apply (older_rows _ _ H).
Qed.

(** ** What a snapshot shows *)

(** The snapshot is what [w1] stored, confirmed no later than [w1] was, and
    every failed write is before [w1] or still marked. *)
Definition shows (marks : Z → Prop) (self : Replica) (s : GrantSnapshot) (w1 : Hub) : Prop :=
  current_generation (tables w1) = s_generation s
  ∧ applied s = applied_of self (read_rules (tables w1))
  ∧ checked_at s <= clock w1
  ∧ ∀ f, marks f → f <= clock w1 ∨ ∃ u, unsure_since s = Some u ∧ f <= u.

(** A replica that has read nothing applies nothing; it came up at
    [checked_at]. *)
Definition blank (h : list Hub) (id : nat) (marks : Z → Prop) (s : GrantSnapshot) : Prop :=
  s_generation s = -1 ∧ applied s = no_stored_rules
  ∧ (∀ w, w ∈ h → is_Some (replicas w !! id) → checked_at s <= clock w)
  ∧ ∀ f, marks f → ∃ u, unsure_since s = Some u ∧ f <= u.

Definition snapshot_ok (h : list Hub) (id : nat) (marks : Z → Prop) (self : Replica) (s : GrantSnapshot) : Prop :=
  blank h id marks s ∨ ∃ w1, w1 ∈ h ∧ shows marks self s w1.

(** The next world is later. *)
Lemma snapshot_ok_later w' w past id (marks marks' : Z → Prop) self s :
  older w w' → is_Some (replicas w !! id) → (∀ f, marks' f → marks f) →
  snapshot_ok (w :: past) id marks self s → snapshot_ok (w' :: w :: past) id marks' self s.
Proof.
  intros Ho Hid Hm [(Hg & Ha & Hc & Hb)|(w1 & Hin & ? & ? & ? & Hs)]; [left|right].
  - split_and!; [done|done| |intros f Hf; by apply Hb, Hm].
    intros w1 [->|Hin]%elem_of_cons Hid'; [|by apply Hc].
    transitivity (clock w); [apply Hc; [left|done]|]. by apply older_clock.
  - exists w1. split; [by right|]. split_and!; [done..|]. intros f Hf. by apply Hs, Hm.
Qed.

Lemma snapshot_ok_fewer h id (marks marks' : Z → Prop) self s :
  snapshot_ok h id marks self s → (∀ f, marks' f → marks f) → snapshot_ok h id marks' self s.
Proof.
  intros [(? & ? & ? & Hb)|(w1 & Hin & ? & ? & ? & Hs)] Hm; [left|right; exists w1]; split_and!; auto.
  split_and!; auto.
Qed.

(** The best of what a snapshot shows and what a world shows. *)
Lemma best_world h id marks self s w2 :
  ordered h → w2 ∈ h → is_Some (replicas w2 !! id) → s_generation s <= current_generation (tables w2) →
  snapshot_ok h id marks self s →
  ∃ w, w ∈ h ∧ current_generation (tables w) = current_generation (tables w2)
    ∧ clock w2 <= clock w ∧ checked_at s <= clock w
    ∧ ∀ f, marks f → f <= clock w ∨ ∃ u, unsure_since s = Some u ∧ f <= u.
Proof.
  intros Ho H2 Hid Hle [(Hg & _ & Hc & Hb)|(w1 & H1 & Hg & Ha & Hck & Hm)].
  { exists w2. split_and!; [done|done|lia|by apply Hc|]. intros f Hf. right. by apply Hb. }
  assert (clock w1 <= clock w2 → ∀ f, marks f → f <= clock w2 ∨ ∃ u, unsure_since s = Some u ∧ f <= u) as Hm2.
  { intros Hle2 f Hf. destruct (Hm f Hf); [left; lia|by right]. }
  destruct (decide (current_generation (tables w1) = current_generation (tables w2))) as [He|Hne].
  - destruct (Z.le_gt_cases (clock w1) (clock w2)) as [Hlt|Hgt].
    + exists w2. split_and!; [done|done|lia|lia|by apply Hm2].
    + exists w1. split_and!; [done|done|lia|lia|done].
  - assert (clock w1 <= clock w2) by (apply (later_generation h); [done..|lia]).
    exists w2. split_and!; [done|done|lia|lia|by apply Hm2].
Qed.

(** Applying what a world of the history stored. *)
Lemma apply_stored_ok h id marks self s w2 started :
  ordered h → w2 ∈ h → is_Some (replicas w2 !! id) → started <= clock w2 →
  snapshot_ok h id marks self s →
  let s' := apply_stored self (read_rules (tables w2)) started s in
  snapshot_ok h id marks self s' ∧ s_generation s <= s_generation s'
  ∧ current_generation (tables w2) <= s_generation s'.
Proof.
  intros Ho H2 Hid Hst Hok. unfold apply_stored. rewrite read_rules_generation.
  destruct (Z.ltb_spec (current_generation (tables w2)) (s_generation s)); [split_and!; [done|lia|lia]|].
  simpl. split_and!; [|lia|lia]. right.
  destruct (best_world h id marks self s w2) as (w & Hw & Hg & Hc & Hck & Hm); [done..|].
  exists w. split; [done|]. split_and!; simpl; [done|f_equal; by apply (same_generation h)|lia|].
  intros f Hf. destruct (Hm f Hf) as [?|(u & Hu & Hfu)]; [by left|]. rewrite Hu.
  destruct (Z.ltb_spec started u); [right; by exists u|left; lia].
Qed.

Lemma apply_stored_unsure self stored started s u :
  unsure_since (apply_stored self stored started s) = Some u → unsure_since s = Some u.
Proof.
  unfold apply_stored. destruct (_ <? _); [done|]. simpl. destruct (unsure_since s) as [since|]; [|done].
  by destruct (_ <? _).
Qed.

(** Confirming the generation a world of the history had. *)
Lemma confirm_ok h id marks self s w2 started unchanged s' :
  ordered h → w2 ∈ h → is_Some (replicas w2 !! id) → started <= clock w2 →
  0 <= current_generation (tables w2) → snapshot_ok h id marks self s →
  confirm_generation (current_generation (tables w2)) started s = (unchanged, s') →
  snapshot_ok h id marks self s' ∧ s_generation s' = s_generation s.
Proof.
  intros Ho H2 Hid Hst Hpos Hok. unfold confirm_generation.
  destruct (_ && _) eqn:Hb; intros [= <- <-]; [|done].
  apply andb_true_iff in Hb as [Hg%Z.eqb_eq Hu]. split; [|done].
  destruct (best_world h id marks self s w2) as (w & Hw & Hgw & Hc & Hck & Hm); [done..|lia|done|].
  right. exists w. split; [done|]. destruct Hok as [(? & _)|(w1 & H1 & Hg1 & Ha & _)]; [lia|].
  split_and!; simpl; [lia| |lia|done]. rewrite Ha. f_equal. apply (same_generation h); [done..|lia].
Qed.

(** A failed write is marked. *)
Lemma mark_unsure_ok h id (marks : Z → Prop) self s failed :
  snapshot_ok h id marks self s → snapshot_ok h id (λ f, f = failed ∨ marks f) self (mark_unsure failed s).
Proof.
  intros Hok. unfold mark_unsure.
  assert (∀ f, (∃ u, unsure_since s = Some u ∧ f <= u) ∨ f = failed →
    ∃ u, Some (match unsure_since s with Some since => Z.max since failed | None => failed end) = Some u ∧ f <= u) as Hu.
  { intros f [(u & -> & Hf)| ->]; eexists; (split; [done|]); [lia|]. destruct (unsure_since s); lia. }
  destruct Hok as [(Hg & Ha & Hc & Hb)|(w1 & H1 & Hg & Ha & Hc & Hm)]; [left|right; exists w1; split; [done|]].
  - split_and!; [done..|]. intros f [->|Hf]; apply Hu; [by right|left; by apply Hb].
  - split_and!; [done..|]. simpl. intros f [->|Hf]; [right; apply Hu; by right|].
    destruct (Hm f Hf); [by left|right; apply Hu; by left].
Qed.

(** ** The invariant of a hub *)

Definition marks (w : Hub) (id : nat) (f : Z) : Prop := (id, f) ∈ marked w.

(** The rows an answer says were committed. *)
Definition committed (a : outcome) : option StoredGrantRules :=
  match a with
  | Created (Ok after) => Some after
  | Removed (Ok (Some after)) => Some after
  | _ => None
  end.

(** The error of a write an operation answered with. *)
Definition write_error (a : outcome) : option grant_store_error :=
  match a with
  | Created (Err (RuleStore e)) | Removed (Err (RuleStore e)) => Some e
  | _ => None
  end.

(** [id]'s write failed with [e], and has been marked since. *)
Definition failure_marked (w : Hub) (id : nat) (e : grant_store_error) : Prop :=
  ∃ failed at_, (id, e, failed) ∈ failures w ∧ failed <= at_ ∧ marks w id at_.

(** An answer that reports a commit: a world held those rows, without the
    value that was removed, and the replica has come at least that far. *)
Definition commit_seen (h : list Hub) (o : operation) (after : StoredGrantRules) : Prop :=
  ∃ w0, w0 ∈ h ∧ after = read_rules (tables w0)
    ∧ ∀ v expected, o = RemoveRule v expected → rows (tables w0) !! v = None.

Definition reached (w : Hub) (id : nat) (g : Z) : Prop :=
  ∃ self s, replicas w !! id = Some (self, s) ∧ g <= s_generation s.

Definition answer_ok (h : list Hub) (w : Hub) (x : nat * operation * outcome) : Prop :=
  (∀ after, committed x.2 = Some after → commit_seen h x.1.2 after ∧ reached w x.1.1 (generation after))
  ∧ ∀ e, write_error x.2 = Some e → failure_marked w x.1.1 e.

Record hub_ok (w : Hub) (past : list Hub) : Prop := {
  ok_ordered : ordered (w :: past);
  ok_positive w1 : w1 ∈ w :: past → 0 <= current_generation (tables w1);
  ok_snapshots id self s : replicas w !! id = Some (self, s) → snapshot_ok (w :: past) id (marks w id) self s;
  ok_marks id f : marks w id f → is_Some (replicas w !! id);
  ok_answers x : x ∈ answers w → answer_ok (w :: past) w x;
  ok_unsure id self s u : replicas w !! id = Some (self, s) → unsure_since s = Some u → u <= clock w
}.

Lemma reached_later w w' id g : older w w' → reached w id g → reached w' id g.
Proof.
  intros Ho (self & s & Hs & Hg). destruct (older_replica _ _ Ho _ _ _ Hs) as (s' & Hs' & ?).
  exists self, s'. split; [done|lia].
Qed.

Lemma failure_marked_later w w' id e : older w w' → failure_marked w id e → failure_marked w' id e.
Proof.
  intros Ho (f & m & Hf & Hle & Hm). exists f, m.
  split_and!; [by apply (older_failures _ _ Ho)|done|by apply (older_marked _ _ Ho)].
Qed.

Lemma commit_seen_later h h' o after : h ⊆ h' → commit_seen h o after → commit_seen h' o after.
Proof. intros Hh (w0 & Hin & ?). exists w0. split; [by apply Hh|done]. Qed.

Lemma hub_ok_next w past w' :
  hub_ok w past → older w w' →
  (∀ id self s, replicas w' !! id = Some (self, s) → snapshot_ok (w' :: w :: past) id (marks w' id) self s) →
  (∀ id f, marks w' id f → is_Some (replicas w' !! id)) →
  (∀ x, x ∈ answers w' → x ∈ answers w ∨ answer_ok (w' :: w :: past) w' x) →
  (∀ id self s u, replicas w' !! id = Some (self, s) → unsure_since s = Some u → u <= clock w') →
  hub_ok w' (w :: past).
Proof.
  intros [Ho Hp Hs Hm Ha _] Hold Hs' Hm' Ha' Hu'. split; [|..|done|done| |done].
  - by apply newest_first_next.
  - intros w1 [->|H1]%elem_of_cons; [|by apply Hp].
    transitivity (current_generation (tables w)); [apply Hp; left|by apply older_generation].
  - intros x [Hx|?]%Ha'; [|done]. destruct (Ha x Hx) as [Hcom Hfail]. split.
    + intros after Hc. destruct (Hcom after Hc) as [Hseen Hr]. split.
      * eapply commit_seen_later; [|done]. set_solver.
      * by eapply reached_later.
    + intros e He. by eapply failure_marked_later, Hfail.
Qed.

(** Time and the tables move; the replicas do not. *)
Lemma hub_ok_quiet w past w' :
  hub_ok w past → older w w' → replicas w' = replicas w → marked w' = marked w → answers w' = answers w →
  hub_ok w' (w :: past).
Proof.
  intros Hok Hold Hr Hf Ha. apply hub_ok_next; [done|done| | |rewrite Ha; auto|].
  - intros id self s Hs. rewrite Hr in Hs. apply (snapshot_ok_later _ _ _ _ (marks w id)); [done| | |].
    + by rewrite Hs.
    + unfold marks. by rewrite Hf.
    + by apply (ok_snapshots _ _ Hok).
  - intros id f. unfold marks. rewrite Hf, Hr. apply (ok_marks _ _ Hok).
  - intros id self s u. rewrite Hr. intros Hs Hu. transitivity (clock w); [|by apply older_clock].
    by apply (ok_unsure _ _ Hok id self s).
Qed.

Lemma hub_ok_same w past : hub_ok w past → hub_ok w (w :: past).
Proof. intros Hok. by apply hub_ok_quiet. Qed.

Lemma older_snapshot w w' id self s' :
  clock w' = clock w → tables w' = tables w → failures w ⊆ failures w' → marked w ⊆ marked w' →
  replicas w' = <[id := (self, s')]> (replicas w) →
  (∀ self0 s, replicas w !! id = Some (self0, s) → self0 = self ∧ s_generation s <= s_generation s') →
  older w w'.
Proof.
  intros Hc Ht Hf Hm Hr Hs. split; [lia|rewrite Ht; lia|done|done|by rewrite Ht|].
  intros id' self0 s H. rewrite Hr. destruct (decide (id = id')) as [<-|Hne].
  - destruct (Hs _ _ H) as [<- ?]. exists s'. by rewrite lookup_insert_eq.
  - exists s. rewrite lookup_insert_ne by done. split; [done|lia].
Qed.

(** One replica's snapshot changes, under its lock. *)
Lemma hub_ok_snapshot w past w' id self s s' :
  hub_ok w past → replicas w !! id = Some (self, s) → s_generation s <= s_generation s' →
  clock w' = clock w → tables w' = tables w → answers w' = answers w →
  failures w' = failures w → marked w ⊆ marked w' →
  replicas w' = <[id := (self, s')]> (replicas w) →
  (∀ id' f, marks w' id' f → id' = id ∨ marks w id' f) →
  snapshot_ok (w :: past) id (marks w' id) self s' →
  (∀ u, unsure_since s' = Some u → u <= clock w) →
  hub_ok w' (w :: past).
Proof.
  intros Hok Hid Hg Hc Ht Ha Hfs Hms Hr Hm Hs' Hu.
  assert (older w w') as Hold.
  { eapply older_snapshot; [done|done|by rewrite Hfs|done..|]. intros self0 s0. rewrite Hid. by intros [= <- <-]. }
  apply hub_ok_next; [done|done| | |rewrite Ha; auto|].
  - intros id' self' s1. rewrite Hr. destruct (decide (id = id')) as [<-|Hne].
    + rewrite lookup_insert_eq. intros [= <- <-].
      apply (snapshot_ok_later _ _ _ _ (marks w' id)); [done|by rewrite Hid|done|done].
    + rewrite lookup_insert_ne by done. intros Hs.
      apply (snapshot_ok_later _ _ _ _ (marks w id')); [done|by rewrite Hs| |by apply (ok_snapshots _ _ Hok)].
      intros f [->|?]%Hm; done.
  - intros id' f Hf. rewrite Hr. destruct (decide (id = id')) as [<-|Hne]; [by rewrite lookup_insert_eq|].
    rewrite lookup_insert_ne by done. destruct (Hm _ _ Hf) as [->|?]; [done|by apply (ok_marks _ _ Hok id' f)].
  - intros id' self' s1 u. rewrite Hr, Hc. destruct (decide (id = id')) as [<-|Hne].
    + rewrite lookup_insert_eq. intros [= <- <-]. apply Hu.
    + rewrite lookup_insert_ne by done. apply (ok_unsure _ _ Hok).
Qed.

(** A replica comes up. *)
Lemma hub_ok_install w past id self :
  hub_ok w past → replicas w !! id = None →
  ∀ now, now <= clock w →
  hub_ok (with_snapshot w id self {| s_generation := -1; applied := no_stored_rules;
                                     checked_at := now; unsure_since := None |}) (w :: past).
Proof.
  intros Hok Hid now Hnow. set (s := Build_GrantSnapshot _ _ _ _).
  assert (older w (with_snapshot w id self s)) as Hold.
  { eapply older_snapshot; [done..|]. intros self0 s0. by rewrite Hid. }
  apply hub_ok_next; [done|done| | |auto|].
  - intros id' self' s1. simpl. destruct (decide (id = id')) as [<-|Hne].
    + rewrite lookup_insert_eq. intros [= <- <-]. left. split_and!; [done|done| |].
      * intros w1 [->|H1]%elem_of_cons [[self1 s1] Hup]; [done|].
        destruct (older_replica _ _ (newest_first_head w past w1 (ok_ordered _ _ Hok) H1) _ _ _ Hup) as (? & Hx & _).
        by rewrite Hid in Hx.
      * intros f [x Hx]%(ok_marks _ _ Hok id f). by rewrite Hid in Hx.
    + rewrite lookup_insert_ne by done. intros Hs.
      apply (snapshot_ok_later _ _ _ _ (marks w id')); [done|by rewrite Hs|done|by apply (ok_snapshots _ _ Hok)].
  - intros id' f Hf%(ok_marks _ _ Hok id'). simpl. destruct (decide (id = id')) as [<-|Hne].
    + by rewrite lookup_insert_eq.
    + by rewrite lookup_insert_ne.
  - intros id' self' s1 u. simpl. destruct (decide (id = id')) as [<-|Hne].
    + rewrite lookup_insert_eq. by intros [= <- <-].
    + rewrite lookup_insert_ne by done. apply (ok_unsure _ _ Hok).
Qed.

(** ** What each effect teaches a thread *)

#[local] Notation safely := (safe hub_threads hub_ok).

(** An instant that was read; a replica that was seen up. *)
Definition seen (h : list Hub) (x : Z) : Prop := ∃ w, w ∈ h ∧ clock w = x.
Definition up (h : list Hub) (id : nat) : Prop := ∃ w, w ∈ h ∧ is_Some (replicas w !! id).

(** Read from the store, by a check asked at [started]. *)
Definition read_by (h : list Hub) (id : nat) (started : Z) (P : GrantTables → Prop) : Prop :=
  ∃ w, w ∈ h ∧ is_Some (replicas w !! id) ∧ started <= clock w ∧ P (tables w).

Definition came_to (h : list Hub) (id : nat) (g : Z) : Prop := ∃ w, w ∈ h ∧ reached w id g.

Lemma seen_later h h' x : h `suffix_of` h' → seen h x → seen h' x.
Proof. intros Hs%suffix_subset (w & Hw & Hx). exists w. split; [by apply Hs|done]. Qed.

Lemma up_later h h' id : h `suffix_of` h' → up h id → up h' id.
Proof. intros Hs%suffix_subset (w & Hw & Hx). exists w. split; [by apply Hs|done]. Qed.

Lemma seen_le h w past x : h `suffix_of` w :: past → hub_ok w past → seen h x → x <= clock w.
Proof.
  intros Hs%suffix_subset Hok (w1 & H1 & <-). apply older_clock, (newest_first_head w past); [apply Hok|by apply Hs].
Qed.

Lemma up_now h w past id : h `suffix_of` w :: past → hub_ok w past → up h id → is_Some (replicas w !! id).
Proof.
  intros Hs%suffix_subset Hok (w1 & H1 & [[self s] Hup]).
  destruct (older_replica w1 w (newest_first_head w past w1 (ok_ordered _ _ Hok) (Hs _ H1)) _ _ _ Hup) as (? & -> & _).
  done.
Qed.

(** A read at the head of a history. *)
Lemma read_now h w w' past id started (P : GrantTables → Prop) :
  h `suffix_of` w :: past → hub_ok w past → up h id → seen h started →
  clock w' = clock w → replicas w' = replicas w → P (tables w') → read_by (w' :: w :: past) id started P.
Proof.
  intros Hs Hok Hup Hst Hc Hr HP. exists w'. split_and!; [left| |rewrite Hc; by eapply seen_le|done].
  rewrite Hr. by eapply up_now.
Qed.

Lemma safe_now h : safely (perform Now) (λ x h', seen h' x ∧ ∀ w, w ∈ h → clock w <= x) h.
Proof.
  apply safe_perform. intros w past Hs Hok c x w'. simpl. intros [= <- <-]. split; [by apply hub_ok_same|].
  split; [exists w; split; [left|done]|]. intros w1 H1. eapply seen_le; [done..|]. by exists w1.
Qed.

Lemma safe_self h id : safely (perform (Self id)) (λ _ h', up h' id) h.
Proof.
  apply safe_perform. intros w past Hs Hok c x w'. simpl. destruct (replicas w !! id) as [[self s]|] eqn:Hid; [|done].
  intros [= <- <-]. split; [by apply hub_ok_same|]. exists w. split; [left|by rewrite Hid].
Qed.

Lemma safe_read_rules h id started :
  up h id → seen h started →
  safely (perform ReadRules) (λ r h', ∀ stored, r = Ok stored →
    read_by h' id started (λ t, stored = read_rules t)) h.
Proof.
  intros Hup Hst. apply safe_perform. intros w past Hs Hok c x w'. simpl. intros [= <- <-].
  split; [by apply hub_ok_same|]. intros stored Hx. eapply read_now; [done..|]. by destruct c; simplify_eq.
Qed.

Lemma safe_read_generation h id started :
  up h id → seen h started →
  safely (perform ReadGeneration) (λ r h', ∀ g, r = Ok g →
    read_by h' id started (λ t, g = current_generation t)) h.
Proof.
  intros Hup Hst. apply safe_perform. intros w past Hs Hok c x w'. simpl. intros [= <- <-].
  split; [by apply hub_ok_same|]. intros g Hx. eapply read_now; [done..|]. by destruct c; simplify_eq.
Qed.

(** What was read is still in the history when it is applied. *)
Lemma safe_apply h id started stored :
  read_by h id started (λ t, stored = read_rules t) →
  safely (perform (ApplyStored id stored started)) (λ _ h', came_to h' id (generation stored)) h.
Proof.
  intros (w2 & H2 & Hup2 & Hst & ->). apply safe_perform. intros w past Hs Hok c x w'. simpl.
  destruct (replicas w !! id) as [[self s]|] eqn:Hid; [|done]. intros [= <- <-].
  destruct (apply_stored_ok (w :: past) id (marks w id) self s w2 started) as (Hok' & Hg & Hg2); [|..|done| |].
  { apply Hok. } { by apply (suffix_subset _ _ Hs). } { done. } { by apply Hok. }
  split.
  - eapply (hub_ok_snapshot _ _ _ id self s); [done..|auto|done|]. intros u Hu.
    apply (ok_unsure _ _ Hok id self s); [done|]. by apply apply_stored_unsure in Hu.
  - eexists. split; [left|]. eexists _, _. simpl. rewrite lookup_insert_eq. split; [done|].
    by rewrite read_rules_generation.
Qed.

Lemma safe_confirm h id started g :
  read_by h id started (λ t, g = current_generation t) →
  safely (perform (Confirm id g started)) (λ _ _, True) h.
Proof.
  intros (w2 & H2 & Hup2 & Hst & ->). apply safe_perform. intros w past Hs Hok c x w'. simpl.
  apply (suffix_subset _ _ Hs) in H2.
  destruct (replicas w !! id) as [[self s]|] eqn:Hid; [|done].
  destruct (confirm_generation _ started s) as [unchanged s'] eqn:Hc. intros [= <- <-]. split; [|done].
  destruct (confirm_ok (w :: past) id (marks w id) self s w2 started unchanged s') as [Hok' Hg];
    [apply Hok|done..|by apply (ok_positive _ _ Hok)|by apply Hok|done|].
  eapply (hub_ok_snapshot _ _ _ id self s s'); [done|done|lia|done..|auto|done|].
  intros u Hu. apply (ok_unsure _ _ Hok id self s); [done|].
  unfold confirm_generation in Hc. by destruct (_ && _); injection Hc as <- <-.
Qed.

(** A write of [id] ended in [e]; it did, and has been marked. *)
Definition write_failed_in (h : list Hub) (id : nat) (e : grant_store_error) : Prop :=
  ∃ w failed, w ∈ h ∧ (id, e, failed) ∈ failures w ∧ failed <= clock w.

Definition marked_in (h : list Hub) (id : nat) (e : grant_store_error) : Prop :=
  ∃ w, w ∈ h ∧ failure_marked w id e.

Lemma safe_mark h id e failed :
  seen h failed → (∃ w f, w ∈ h ∧ (id, e, f) ∈ failures w ∧ f <= failed) →
  safely (perform (MarkUnsure id failed)) (λ _ h', marked_in h' id e) h.
Proof.
  intros Hf (w0 & f0 & H0 & Hf0 & Hle). apply safe_perform. intros w past Hs Hok c x w'. simpl.
  destruct (replicas w !! id) as [[self s]|] eqn:Hid; [|done]. intros [= <- <-]. split.
  - eapply (hub_ok_snapshot _ _ _ id self s (mark_unsure failed s)); [done|done|simpl; lia|done|done|done|done| |done| | |].
    + simpl. set_solver.
    + intros id' f. unfold marks. simpl. intros [Heq|?]%elem_of_cons; [left; by simplify_eq|by right].
    + eapply snapshot_ok_fewer. { by apply mark_unsure_ok, (ok_snapshots _ _ Hok). }
      intros f [Heq|?]%elem_of_cons; [left; by simplify_eq|by right].
    + simpl. intros u [= <-]. assert (failed <= clock w) by by eapply seen_le.
      destruct (unsure_since s) as [since|] eqn:Hu; [|done].
      assert (since <= clock w) by by eapply (ok_unsure _ _ Hok). lia.
  - eexists. split; [left|]. exists f0, failed. split_and!; [|done|left]. simpl.
    apply (older_failures w0); [|done]. apply (newest_first_head w past); [apply Hok|].
    by apply (suffix_subset _ _ Hs).
Qed.

(** ** Writes *)

Definition writes_forward (t t' : GrantTables) : Prop :=
  t' = t ∨ current_generation t' = current_generation t + 1.

Lemma bumped_generation t rows' :
  current_generation {| rows := rows'; generation_row := bumped t |} = current_generation t + 1.
Proof. unfold current_generation, bumped. by destruct (generation_row t). Qed.

Lemma insert_forward r expected t x t' :
  insert_grant_rule r expected t = Ok (x, t') →
  writes_forward t t' ∧ ∀ after, x = Applied after → after = read_rules t'.
Proof.
  unfold insert_grant_rule, check_expected. destruct (row_of_rule r) as [json|]; [|done]. simpl.
  assert (writes_forward t t) by by left.
  destruct expected as [e|]; [destruct (e =? current_generation t); [|by intros [= <- <-]]|];
  (destruct (_ <=? _); [by intros [= <- <-]|]); (destruct (rows t !! _); [by intros [= <- <-]|]);
  intros [= <- <-]; (split; [right; apply bumped_generation|by intros after [= <-]]).
Qed.

Lemma delete_forward v expected t x t' :
  delete_grant_rule v expected t = Ok (x, t') →
  writes_forward t t' ∧ ∀ after, x = Applied after → after = read_rules t' ∧ rows t' !! v = None.
Proof.
  unfold delete_grant_rule, check_expected. assert (writes_forward t t) by by left.
  destruct expected as [e|]; [destruct (e =? current_generation t); [|by intros [= <- <-]]|];
  (destruct (rows t !! v); [|by intros [= <- <-]]); intros [= <- <-];
  (split; [right; apply bumped_generation|]); intros after [= <-]; (split; [done|]); apply lookup_delete_eq.
Qed.

Lemma older_tables w t' : writes_forward (tables w) t' → older w (hub_with_tables w t').
Proof.
  intros Hf. split; simpl; [lia|destruct Hf as [->| ->]; lia|done|done|destruct Hf as [->|]; [done|lia]|].
  intros id self s Hs. exists s. split; [done|lia].
Qed.

Lemma older_write_error w id e t' : writes_forward (tables w) t' → older w (write_error_at w id e t').
Proof.
  intros Hf. split; simpl;
    [lia|destruct Hf as [->| ->]; lia|set_solver|done|destruct Hf as [->|]; [done|lia]|].
  intros id' self s Hs. exists s. split; [done|lia].
Qed.

Lemma write_error_ok w past id e t' :
  hub_ok w past → writes_forward (tables w) t' →
  hub_ok (write_error_at w id e t') (w :: past)
  ∧ write_failed_in (write_error_at w id e t' :: w :: past) id e.
Proof.
  intros Hok Hf. split; [apply hub_ok_quiet; [done|by apply older_write_error|done..]|].
  exists (write_error_at w id e t'), (clock w). split_and!; [left|left|done].
Qed.

(** A write that reports rows left exactly those rows. *)
Lemma safe_write h id started (write : grant_effect (result GrantRuleWrite grant_store_error))
    (run : GrantTables → result (GrantRuleWrite * GrantTables) grant_store_error) (P : GrantTables → Prop) :
  (∀ f w, hub_act _ write f w = written id f (run (tables w)) w) →
  (∀ t x t', run t = Ok (x, t') → writes_forward t t' ∧ ∀ after, x = Applied after → after = read_rules t' ∧ P t') →
  up h id → seen h started →
  safely (perform write) (λ r h', (∀ after, r = Ok (Applied after) →
    read_by h' id started (λ t, after = read_rules t ∧ P t))
    ∧ ∀ e, r = Err e → write_failed_in h' id e) h.
Proof.
  intros Hact Hrun Hup Hst. apply safe_perform. intros w past Hs Hok c x w'.
  change (act hub_threads write c w) with (hub_act _ write c w). rewrite Hact. unfold written.
  destruct (run (tables w)) as [[y t']|e] eqn:Hr.
  - destruct (Hrun _ _ _ Hr) as [Hf Ha].
    destruct c as [|e|e]; intros [= <- <-].
    + split; [apply hub_ok_quiet; [done|by apply older_tables|done..]|]. split; [|done].
      intros after [= ->]. eapply read_now; [done..|]. by apply Ha.
    + destruct (write_error_ok w past id e (tables w) Hok (or_introl eq_refl)).
      split; [done|]. split; [done|]. by intros e' [= <-].
    + destruct (write_error_ok w past id e t' Hok Hf). split; [done|]. split; [done|]. by intros e' [= <-].
  - intros [= <- <-]. destruct (write_error_ok w past id e (tables w) Hok (or_introl eq_refl)).
    split; [done|]. split; [done|]. by intros e' [= <-].
Qed.

(** ** The operations *)

Lemma safe_reload_from h id started :
  up h id → seen h started → safely (reload_from id started) (λ _ _, True) h.
Proof.
  intros Hup Hst. apply safe_try. eapply safe_mono; [by apply (safe_read_rules _ id started)|].
  intros [stored|] h' _ Hr; [|done]. apply safe_bind.
  eapply safe_mono; [by apply safe_apply, Hr|]. by intros.
Qed.

Lemma safe_reload h id : up h id → safely (reload id) (λ _ _, True) h.
Proof.
  intros Hup. apply safe_bind. eapply safe_mono; [apply safe_now|]. intros started h' Hs [Hst _].
  apply safe_reload_from; [by eapply up_later|done].
Qed.

Lemma safe_load_replica h id self : safely (load_replica id self) (λ _ _, True) h.
Proof.
  apply safe_bind. eapply safe_mono; [apply safe_now|]. intros now h1 Hs1 [Hnow _]. apply safe_bind.
  apply safe_perform. intros w past Hs Hok c x w'. simpl. destruct (replicas w !! id) eqn:Hid; [done|].
  intros [= <- <-]. split; [by apply hub_ok_install; [..|by eapply seen_le]|].
  apply safe_reload. eexists. split; [left|]. simpl. by rewrite lookup_insert_eq.
Qed.

Lemma safe_refresh h id : up h id → safely (refresh id) (λ _ _, True) h.
Proof.
  intros Hup. apply safe_bind. eapply safe_mono; [apply safe_now|]. intros started h1 Hs1 [Hst _].
  assert (up h1 id) as Hup1 by by eapply up_later. apply safe_try.
  eapply safe_mono; [by apply (safe_read_generation _ id started)|]. intros [g|] h2 Hs2 Hr; [|done].
  apply safe_bind. eapply safe_mono; [by apply safe_confirm, Hr|]. intros [] h3 Hs3 _; [done|].
  apply safe_try. eapply safe_mono; [apply (safe_reload_from _ id started)|].
  - eapply up_later; [exact Hs3|]. by eapply up_later.
  - eapply seen_later; [exact Hs3|]. by eapply seen_later.
  - by intros [] h4 _ _.
Qed.

Lemma rule_marked_later h h' id e : h `suffix_of` h' → marked_in h id e → marked_in h' id e.
Proof. intros Hs%suffix_subset (w & Hw & Hm). exists w. split; [by apply Hs|done]. Qed.

Lemma safe_write_failed h id e :
  up h id → write_failed_in h id e → safely (write_failed id) (λ _ h', marked_in h' id e) h.
Proof.
  intros Hup (w0 & f0 & H0 & Hf0 & Hle). apply safe_bind. eapply safe_mono; [apply safe_now|].
  intros failed h1 Hs1 [Hf Hlater]. apply safe_bind. eapply safe_mono.
  { apply (safe_mark _ _ e); [done|]. exists w0, f0. specialize (Hlater w0 H0).
    split_and!; [by apply (suffix_subset _ _ Hs1)|done|lia]. }
  intros [] h2 Hs2 Hm. apply safe_bind. eapply safe_mono; [apply safe_reload|].
  - eapply up_later; [exact Hs2|]. by eapply up_later.
  - intros r h3 Hs3 _. by eapply rule_marked_later.
Qed.

(** What a write's answer promises. *)
Definition write_seen (h : list Hub) (id : nat) (P : GrantTables → Prop) (after : StoredGrantRules) : Prop :=
  (∃ w0, w0 ∈ h ∧ after = read_rules (tables w0) ∧ P (tables w0)) ∧ came_to h id (generation after).

Lemma safe_write_rule h id write holds run (P : GrantTables → Prop) :
  (∀ f w, hub_act _ write f w = written id f (run (tables w)) w) →
  (∀ t x t', run t = Ok (x, t') → writes_forward t t' ∧ ∀ after, x = Applied after → after = read_rules t' ∧ P t') →
  up h id →
  safely (write_rule id write holds) (λ r h',
    (∀ after, r = Ok (Some after) → write_seen h' id P after)
    ∧ ∀ e, r = Err (RuleStore e) → marked_in h' id e) h.
Proof.
  intros Hact Hrun Hup. apply safe_bind. eapply safe_mono; [apply safe_now|]. intros started h1 Hs1 [Hst _].
  assert (up h1 id) as Hup1 by by eapply up_later.
  apply safe_bind. eapply safe_mono; [by apply (safe_write h1 id started write run P)|].
  intros [[after| |current]|e] h2 Hs2 [Hw Hfail].
  - destruct (Hw after eq_refl) as (w2 & H2 & Hup2 & Hst2 & Ha & HP).
    apply safe_bind. eapply safe_mono; [apply safe_apply; by exists w2|].
    intros [] h3 Hs3 Hc. split; [|done]. intros after' [= <-]. split; [|done]. exists w2.
    split; [by apply (suffix_subset _ _ Hs3)|done].
  - done.
  - apply safe_bind. eapply safe_mono; [apply (safe_read_rules _ id started)|].
    + by eapply up_later.
    + by eapply seen_later.
    + intros read h3 _ _. split; [done|]. intros e. by destruct (match read with Ok l => _ | Err _ => _ end).
  - apply safe_bind. eapply safe_mono; [apply (safe_write_failed _ _ e); [by eapply up_later|by apply Hfail]|].
    intros [] h3 _ Hm. split; [done|]. by intros e' [= <-].
Qed.

(** ** Every schedule *)

Lemma reportable_seen h id o a :
  (∀ after, committed a = Some after → commit_seen h o after ∧ came_to h id (generation after)) →
  (∀ e, write_error a = Some e → marked_in h id e) →
  reportable hub_threads hub_ok (id, o) a h.
Proof.
  intros Hc Hm w past Hs Hok. set (w' := report hub_threads (id, o) a w).
  assert (older w w') as Hold.
  { split; simpl; [lia|lia|done|done|done|]. intros id' self s H. exists s. split; [done|lia]. }
  apply hub_ok_next; [done|done| |apply (ok_marks _ _ Hok)| |apply (ok_unsure _ _ Hok)].
  - intros id' self s H. apply (snapshot_ok_later _ _ _ _ (marks w id')); [done|by exists (self, s)|done|].
    by apply (ok_snapshots _ _ Hok).
  - intros x [->|?]%elem_of_cons; [right|by left]. simpl in *. split; simpl.
    2: { intros e He. destruct (Hm e He) as (w1 & H1 & Hf). eapply failure_marked_later; [exact Hold|].
         eapply failure_marked_later; [|exact Hf].
         apply (newest_first_head w past); [apply Hok|by apply (suffix_subset _ _ Hs)]. }
    intros after Ha. destruct (Hc after Ha) as [Hseen (w1 & H1 & Hr)]. split.
    + eapply commit_seen_later; [|exact Hseen]. etrans; [by apply suffix_subset|]. set_solver.
    + eapply reached_later; [exact Hold|]. eapply reached_later; [|exact Hr].
      apply (newest_first_head w past); [apply Hok|by apply (suffix_subset _ _ Hs)].
Qed.

Lemma check_create_error self r by_ why now_ms e : check_create self r by_ why now_ms ≠ Err (RuleStore e).
Proof.
  unfold check_create. destruct (validate_grant_rule r); simpl; [|done].
  destruct (_ || _); [done|]. destruct (is_blank by_); [done|]. by destruct (bool_decide _).
Qed.

Lemma safe_call h id o self : up h id → safely (call id o self) (reportable hub_threads hub_ok (id, o)) h.
Proof.
  intros Hup. destruct o as [self'| |r by_ why now_ms expected|v expected]; unfold call; apply safe_bind.
  - eapply safe_mono; [apply safe_load_replica|]. intros r h' _ _. by apply reportable_seen; destruct r.
  - eapply safe_mono; [by apply safe_refresh|]. intros r h' _ _. by apply reportable_seen; destruct r.
  - unfold create_rule. destruct (check_create self r by_ why now_ms) as [stored|e] eqn:Hcheck.
    2: { apply reportable_seen; [done|]. intros e' He. destruct e; try done.
         by apply check_create_error in Hcheck. }
    cbn [try_bind bind]. apply safe_bind. eapply safe_mono.
    { apply (safe_write_rule h id _ _ (insert_grant_rule stored expected) (λ _, True)); [done| |done].
      intros t x t' [Hf Ha]%insert_forward. split; [done|]. intros after Hx. split; [by apply Ha|done]. }
    intros [[after|]|e] h' _ [Hw Hm]; apply reportable_seen; try done.
    + intros after' [= <-]. destruct (Hw after eq_refl) as [(w0 & H0 & Hr & _) Hc].
      split; [|done]. by exists w0.
    + intros e' He. apply Hm. destruct e; simplify_eq; simpl in He; congruence.
  - eapply safe_mono.
    { apply (safe_write_rule h id _ _ (delete_grant_rule v expected) (λ t, rows t !! v = None)); [done| |done].
      intros t x t' [Hf Ha]%delete_forward. done. }
    intros [[after|]|e] h' _ [Hw Hm]; apply reportable_seen; try done.
    + intros after' [= <-]. destruct (Hw after eq_refl) as [(w0 & H0 & Hr & Hv) Hc]. split; [|done].
      exists w0. split_and!; [done|done|]. by intros v' expected' [= <- _].
    + intros e' He. apply Hm. destruct e; simplify_eq; simpl in He; congruence.
Qed.

Lemma begin_safe request w past :
  hub_ok w past → safely (begin hub_threads request) (reportable hub_threads hub_ok request) (w :: past).
Proof.
  intros Hok. destruct request as [id o].
  assert (safely (do self := perform (Self id) in call id o self)
            (reportable hub_threads hub_ok (id, o)) (w :: past)) as Hself.
  { apply safe_bind. eapply safe_mono; [apply safe_self|]. intros self h' _ Hup. by apply safe_call. }
  destruct o; try exact Hself. apply safe_bind. eapply safe_mono; [apply safe_load_replica|].
  intros r h' _ _. by apply reportable_seen.
Qed.

Lemma moves_ok m w past w' : hub_ok w past → move hub_threads m w = Some w' → hub_ok w' (w :: past).
Proof.
  intros Hok. destruct m as [d|v raw]; simpl.
  - destruct (Z.ltb_spec d 0); [done|]. intros [= <-]. apply hub_ok_quiet; [done| |done..].
    split; simpl; [lia|lia|done|done|done|]. intros id self s Hs. exists s. split; [done|lia].
  - intros [= <-]. apply hub_ok_quiet; [done| |done..]. apply older_tables. right. apply bumped_generation.
Qed.

Lemma hub_at_ok now t : 0 <= current_generation t →
  hub_ok {| clock := now; tables := t; replicas := ∅; failures := []; marked := []; answers := [] |} [].
Proof.
  intros Hg. split; simpl.
  - by repeat constructor.
  - intros w1 [->|?%not_elem_of_nil]%elem_of_cons; [done|done].
  - intros id self s. by rewrite lookup_empty.
  - intros id f Hf. by apply not_elem_of_nil in Hf.
  - intros x Hx. by apply not_elem_of_nil in Hx.
  - intros id self s u. by rewrite lookup_empty.
Qed.

Lemma hub_reachable_ok now t ls s :
  0 <= current_generation t → interleave hub_threads ls (hub_at now t) = Some s →
  hub_ok (world s) (past s).
Proof.
  intros Hg Hrun. destruct (interleave_sound hub_threads hub_ok begin_safe moves_ok ls (hub_at now t) s) as [H _];
    [by apply at_rest_sound, hub_at_ok|done|done].
Qed.

(** ** Honoured rules are current *)

(** [w] held [r], recently enough for what [id] has seen and done. *)
Definition current_in (s : hub_system) (id : nat) (self : Replica)
    (r : OidcGrantRule) (w : Hub) : Prop :=
  w ∈ history s ∧ held r (tables w)
  ∧ clock (world s) - clock w <= stale_after self
  ∧ (∀ o a e, (id, o, a) ∈ answers (world s) → write_error a = Some e →
       ∃ failed, (id, e, failed) ∈ failures (world s) ∧ failed <= clock w)
  ∧ (∀ o a after, (id, o, a) ∈ answers (world s) → committed a = Some after →
       generation after <= current_generation (tables w))
  ∧ (∀ expected after, (id, RemoveRule (value r) expected, Removed (Ok (Some after))) ∈ answers (world s) →
       generation after < current_generation (tables w)).

(** A rule in effect is in a snapshot that shows a world. *)
Lemma in_effect_shown w past id self snap r :
  hub_ok w past → replicas w !! id = Some (self, snap) →
  r ∈ applied_rules (rules_in_effect self (clock w) snap) →
  unsure_since snap = None ∧ clock w - checked_at snap <= stale_after self
  ∧ r ∈ applied_rules (applied snap)
  ∧ ∃ w1, w1 ∈ w :: past ∧ shows (marks w id) self snap w1.
Proof.
  intros Hok Hid. unfold rules_in_effect. destruct (suspended _ _ snap) eqn:Hsus; [by intros ?%not_elem_of_nil|].
  intros Hin. unfold suspended in Hsus. apply orb_false_iff in Hsus as [Hu Hc%Z.ltb_ge].
  split_and!; [by destruct (unsure_since snap)|lia|done|].
  destruct (ok_snapshots _ _ Hok _ _ _ Hid) as [(_ & Ha & _)|?]; [|done].
  rewrite Ha in Hin. by apply not_elem_of_nil in Hin.
Qed.

Lemma in_effect_current now t ls s id self snap r :
  0 <= current_generation t → interleave hub_threads ls (hub_at now t) = Some s →
  replicas (world s) !! id = Some (self, snap) →
  r ∈ applied_rules (rules_in_effect self (clock (world s)) snap) →
  value r ∉ config_values self ∧ validate_grant_rule r = Ok tt ∧ ∃ w, current_in s id self r w.
Proof.
  intros Hg Hrun Hid Hin. pose proof (hub_reachable_ok now t ls s Hg Hrun) as Hok.
  destruct (in_effect_shown _ _ _ _ _ _ Hok Hid Hin) as (Hu & Hck & Happ & w1 & H1 & Hgen & Ha & Hc & Hm).
  rewrite Ha in Happ. apply applied_of_sound in Happ as ((row & Hrow & Hr) & Hcfg & Hval).
  assert (held r (tables w1)) as Hheld by (rewrite <- Hr; by apply read_rules_held).
  split_and!; [done|done|]. exists w1. split_and!; [done|done|lia| | |].
  - intros o a e Hin' He. destruct (ok_answers _ _ Hok _ Hin') as [_ Hf].
    destruct (Hf e He) as (failed & at_ & Hfailed & Hle & Hat). exists failed. split; [done|].
    destruct (Hm at_ Hat) as [?|(u & Hx & _)]; [lia|congruence].
  - intros o a after Hin' Hcom. destruct (ok_answers _ _ Hok _ Hin') as [Hc' _].
    destruct (Hc' after Hcom) as [_ (self' & s' & Hs' & Hge)].
    simpl in Hs'. rewrite Hid in Hs'. injection Hs' as <- <-. lia.
  - intros expected after Hin'. destruct (ok_answers _ _ Hok _ Hin') as [Hc' _].
    destruct (Hc' after eq_refl) as [(w0 & H0 & -> & Hv) (self' & s' & Hs' & Hge)].
    simpl in Hs'. rewrite Hid in Hs'. injection Hs' as <- <-. rewrite read_rules_generation in *.
    destruct (decide (current_generation (tables w0) = current_generation (tables w1))) as [He|Hne]; [|lia].
    exfalso. destruct Hheld as (raw & stored & Hraw & _).
    destruct (newest_first_total _ w0 w1 (ok_ordered _ _ Hok) H0 H1) as [Ho|Ho];
      [rewrite (older_rows _ _ Ho He) in Hv|rewrite <- (older_rows _ _ Ho (eq_sym He)) in Hv];
      rewrite (Hv _ _ eq_refl) in Hraw; done.
Qed.

(** C12: no replica honours a revoked grant for long.  In every interleaving of
    loads, refreshes, creations and removals on any number of replicas, with
    store calls that fail, answers that get lost after the write took place
    and rows that other releases write, a stored rule a replica has in effect
    is one its file leaves open and this release validates, and some moment
    of the run held it in the store which is: no longer ago than the stale
    bound; for every creation or removal this replica answered with a store
    error, not before a write of its own that ended in that error; not before
    any commit this replica answered; and, when this
    replica answered that it removed the rule's claim value, after that
    removal, so the rule was stored again. *)
Theorem honoured_rules_current now t ls s id self snap r :
  0 <= current_generation t → interleave hub_threads ls (hub_at now t) = Some s →
  replicas (world s) !! id = Some (self, snap) →
  r ∈ applied_rules (rules_in_effect self (clock (world s)) snap) →
  value r ∉ config_values self ∧ validate_grant_rule r = Ok tt ∧ ∃ w, current_in s id self r w.
Proof. apply in_effect_current. Qed.

(** What a token may do is backed by a current rule.  When a replica
    authenticates an OIDC token with the rules it has in effect, the token
    was signed by a key of its cache, and every capability of the context is
    conferred by a rule that matches the token's claim, fleet-wide or in the
    environment the context is bound to: a rule of the grant file, or a valid
    stored rule of a value the file does not name which the store held within
    the replica's stale bound, and after every change the replica itself
    answered. *)
Theorem token_capabilities_current {TC : TokenCodec} now t ls s id self snap x cache unix credential authority c :
  0 <= current_generation t → interleave hub_threads ls (hub_at now t) = Some s →
  replicas (world s) !! id = Some (self, snap) →
  oidc_authenticate x cache (rules_in_effect self (clock (world s)) snap) unix credential authority = Ok c →
  ∃ token claims,
    assertion credential = Some token ∧ (verified_claims (accepted x) cache token).2 = Ok claims
    ∧ ∀ capability, capability ∈ delivery_capabilities c →
        ∃ r, confers r capability
          ∧ value r ∈ claim_values (json_get (rest claims) (grants_claim (config x)))
          ∧ (environment r = None ∨ environment r = environment_binding c)
          ∧ (r ∈ grant_rules (config x)
             ∨ value r ∉ config_values self ∧ validate_grant_rule r = Ok tt ∧ ∃ w, current_in s id self r w).
Proof.
  intros Hg Hrun Hid Hauth. apply oidc_authenticate_sound in Hauth as (token & claims & g & Htok & Hver & Hgr & Hctx).
  exists token, claims. split_and!; [done|done|]. intros capability Hc.
  apply context_of_grants_sound in Hctx as (Hcap & Henv & _). rewrite Hcap in Hc. rewrite Henv.
  apply token_grants_sound in Hgr as (_ & _ & _ & Hconf).
  destruct (capability_conferred _ _ Hconf _ Hc) as (r & Hr & Hcr & Hscope). exists r. split; [done|].
  unfold rules_of_token in Hr. apply elem_of_app in Hr as [[Hr Hv]%matched_rules_elem|[Hr Hv]%matched_rules_elem].
  - split_and!; [done|done|by left].
  - split_and!; [done|done|]. right. by eapply in_effect_current.
Qed.

(** ** A replica that reaches the store catches up *)



End Grants.

(** ** Two replicas and one rule *)
Module GrantExamples.

Definition admins (v : string) : OidcGrantRule := {|
  value := v; capabilities := ["read"; "management"]; environment := None; channels := []; products := [];
  kind := None |}.

(** Rows that carry the claim value of an administrators' rule. *)
#[local] Instance codec : GrantRowCodec := {|
  row_of_rule r := Ok (value (rule r));
  row_format _ := Ok 1;
  rule_of_row raw := Ok {| rule := admins raw; created_by := "token"; created_at_ms := 1; reason := "first" |} |}.

Definition replica : Replica := {| config_values := {["declared"]}; stale_after := STALE_AFTER |}.

Definition empty_tables : GrantTables := {| rows := ∅; generation_row := None |}.

#[local] Notation step := (label (nat * operation) fate hub_move).

Definition performs (i n : nat) : list step := replicate n (Perform i Answered).

(** Both replicas come up; the first creates a rule, the second learns it. *)
Definition prefix : list step :=
  [Arrive 0 (0%nat, LoadReplica replica)] ++ performs 0 5 ++ [Report 0; Arrive 0 (1%nat, LoadReplica replica)]
  ++ performs 0 5 ++ [Report 0; Arrive 0 (0%nat, CreateRule (admins "ops") "token" "first" 1 (Some 0))]
  ++ performs 0 4 ++ [Report 0; Arrive 0 (1%nat, RefreshReplica)] ++ performs 0 6 ++ [Report 0].

(** The first removes the rule; the answer is lost, and it cannot read. *)
Definition lost_removal : list step :=
  [Arrive 0 (0%nat, RemoveRule "ops" (Some 1))] ++ performs 0 2
  ++ [Perform 0 (Lost "connection dropped")] ++ performs 0 3 ++ [Perform 0 (Failed "read timed out"); Report 0].

Definition in_effect (id : nat) (s : hub_system) : list string :=
  match replicas (world s) !! id with
  | Some (self, snap) => value <$> applied_rules (rules_in_effect self (clock (world s)) snap)
  | None => ["down"]
  end.

Definition after (ls : list step) : option (list string * list string) :=
  match interleave hub_threads ls (hub_at 0 empty_tables) with
  | Some s => Some (in_effect 0 s, in_effect 1 s)
  | None => None
  end.

(** Until the stale bound the cut-off replica keeps the removed rule; the one
    that lost the answer drops it at once, and a check brings it back if it
    is still there. *)
Example revocation :
  after prefix = Some (["ops"], ["ops"])
  ∧ after (prefix ++ lost_removal) = Some ([], ["ops"])
  ∧ after (prefix ++ lost_removal ++ [Move (Elapse STALE_AFTER)]) = Some ([], ["ops"])
  ∧ after (prefix ++ lost_removal ++ [Move (Elapse (STALE_AFTER + 1))]) = Some ([], [])
  ∧ after (prefix ++ lost_removal ++ [Move (Foreign "ops" (Some "ops")); Arrive 0 (0%nat, RefreshReplica)]
           ++ performs 0 6 ++ [Report 0]) = Some (["ops"], ["ops"]).
Proof. vm_compute. done. Qed.

(** A slow read of the old rows does not bring a removed rule back. *)
Example slow_read_loses :
  after (prefix ++ [Arrive 0 (1%nat, RefreshReplica); Move (Foreign "other" (Some "other"))] ++ performs 0 5
         ++ [Arrive 1 (1%nat, RemoveRule "ops" None)] ++ performs 1 4
         ++ [Report 1] ++ performs 0 1 ++ [Report 0]) = Some (["ops"], ["other"]).
Proof. vm_compute. done. Qed.

Definition ended_in (ls : list step) : hub_system :=
  match interleave hub_threads ls (hub_at 0 empty_tables) with Some s => s | None => hub_at 0 empty_tables end.

Lemma ends ls :
  is_some_b (interleave hub_threads ls (hub_at 0 empty_tables)) = true →
  interleave hub_threads ls (hub_at 0 empty_tables) = Some (ended_in ls).
Proof. unfold ended_in. by destruct (interleave _ _ _). Qed.

(** The hub once both replicas honour the rule. *)
Definition settled : hub_system := ended_in prefix.

Definition shown : GrantSnapshot := {|
  s_generation := 1; applied := {| applied_rules := [admins "ops"]; withheld := ∅ |};
  checked_at := 0; unsure_since := None |}.

Lemma honoured_rules_current_witness :
  value (admins "ops") ∉ config_values replica ∧ validate_grant_rule (admins "ops") = Ok tt
  ∧ ∃ w, current_in settled 1 replica (admins "ops") w.
Proof.
  apply (honoured_rules_current 0 empty_tables prefix settled 1 replica shown (admins "ops")).
  - vm_compute. discriminate.
  - apply ends. vm_compute. reflexivity.
  - vm_compute. reflexivity.
  - vm_compute. left.
Defined.




(** A token of the group [ops]. *)
#[local] Instance tokens : TokenCodec := {|
  parse_url _ := None;
  base64url s := Some (String.list_byte_of_string s);
  header_of_json _ := Some {| alg := "RS256"; kid := Some "k1" |};
  claims_of_json _ := Some {| iss := "https://idp"; sub := "alice"; aud := One "tenkai"; exp := 100; nbf := None;
                              rest := [("groups", JArray [JString "ops"])] |};
  jwks_of_json _ := None;
  signature_valid _ _ _ := true |}.

Definition oidc : OidcAuthExtension := {|
  config := {| issuer := "https://idp"; audience := "tenkai"; algorithms := ["RS256"]; jwks_uri := None;
               jwks_file := None; clock_skew_secs := 60; jwks_refresh_secs := 600; client := None;
               grants_claim := "groups"; tenant_claim := None; grant_rules := [] |};
  accepted := [Rs256]; require_tenant := false |}.

Definition cache : JwksCache := {| keys := {["k1" := RsaKey [] []]}; last_fetch := None |}.

Definition credential : CredentialMaterial := {|
  request_id := "r1"; bearer_token := None; assertion := Some (String.list_byte_of_string "h.p.s");
  peer_credentials := None |}.

Definition alice : AuthenticatedRequestContext := {|
  contract_version := 1; context_request_id := "r1";
  principal := {| principal_id := "alice@https://idp"; principal_kind := Human |}; tenant := None;
  authenticator_id := "oidc"; delivery_capabilities := {[ReadCapability; ManagementCapability]};
  environment_binding := None; channel_bindings := ∅; product_bindings := ∅; actor_chain := [];
  host_identity := None |}.

Lemma token_capabilities_current_witness :
  ∃ token claims,
    assertion credential = Some token ∧ (verified_claims (accepted oidc) cache token).2 = Ok claims
    ∧ ∀ capability, capability ∈ delivery_capabilities alice →
        ∃ r, confers r capability
          ∧ value r ∈ claim_values (json_get (rest claims) (grants_claim (config oidc)))
          ∧ (environment r = None ∨ environment r = environment_binding alice)
          ∧ (r ∈ grant_rules (config oidc)
             ∨ value r ∉ config_values replica ∧ validate_grant_rule r = Ok tt ∧ ∃ w, current_in settled 1 replica r w).
Proof.
  apply (token_capabilities_current 0 empty_tables prefix settled 1 replica shown oidc cache 50 credential
           {| authority_extension := "oidc" |} alice).
  - vm_compute. discriminate.
  - apply ends. vm_compute. reflexivity.
  - vm_compute. reflexivity.
  - vm_compute. reflexivity.
Defined.
End GrantExamples.
