(* ===== verification/RuntimeClaims.v ===== *)
(** * Claims of runtime agents on plans

    [storage/runtime_plans.rs] and the reads of claims beside it: an agent
    claims a plan for a while, renews the claim, and stores one completion.
    A claim that lapsed is taken over under the next generation.  Several
    servers run these operations on one store, so they are programs over its
    statements, interleaved by [claim_threads] with statements that fail or
    whose answer is lost, and with clocks that move either way. *)

From S2P Require Import Prelude RustStr Effects Interleaving.

(** ** Rows *)

Record ClaimRow := {
  claim_plan : string; claim_environment : string; claim_owner : string;
  claim_generation : Z; claim_expires : Z; claim_completion : option string
}.

Inductive ClaimError :=
| InvalidClaim
| EnvironmentInactive
| FixturePlan
| ClaimEnvironmentMismatch (expected actual : string)
| ClaimNotFound
| ClaimOwnerMismatch (expected actual : string)
| ClaimStale (expected actual : Z)
| CompletionConflict
| ClaimExpired
| ClaimDatabase (text : string).

(** The table [runtime_claims], and what claims read of other tables. *)
Record ClaimStore := {
  claims : gmap string ClaimRow; retired : gset string; fixtures : gset string
}.

Definition put_claim (st : ClaimStore) (plan : string) (c : ClaimRow) : ClaimStore :=
  {| claims := <[plan := c]> (claims st); retired := retired st; fixtures := fixtures st |}.

(** A [u64] that does not fit an [INTEGER] column is refused. *)
Definition to_sql (g : Z) : result Z ClaimError :=
  if i64_max <? g then Err (ClaimDatabase "integer out of range") else Ok g.

(** The transaction of [claim_runtime_plan_sqlite]. *)
Definition claim_tx (now : Z) (environment plan owner : string) (expires : Z) (st : ClaimStore) :
    result (option ClaimRow * ClaimStore) ClaimError :=
  bail_if bool_decide (environment ∈ retired st) with EnvironmentInactive in
  bail_if bool_decide (plan ∈ fixtures st) with FixturePlan in
  let fresh g :=
    let? g := to_sql g in
    let c := {| claim_plan := plan; claim_environment := environment; claim_owner := owner;
                claim_generation := g; claim_expires := expires; claim_completion := None |} in
    Ok (Some c, put_claim st plan c) in
  match claims st !! plan with
  | None => fresh 1
  | Some c =>
    bail_if negb (bool_decide (claim_environment c = environment))
      with (ClaimEnvironmentMismatch (claim_environment c) environment) in
    match claim_completion c with
    | Some _ => Ok (if bool_decide (claim_owner c = owner) then Some c else None, st)
    | None =>
      if now <? claim_expires c then
        if bool_decide (claim_owner c = owner) then
          let c' := {| claim_plan := plan; claim_environment := claim_environment c; claim_owner := claim_owner c;
                       claim_generation := claim_generation c; claim_expires := expires; claim_completion := None |} in
          Ok (Some c', put_claim st plan c')
        else Ok (None, st)
      else fresh (Z.min u64_max (claim_generation c + 1))
    end
  end.

(** The [UPDATE] of [renew_runtime_plan_sqlite]: whether a row changed. *)
Definition extend_claim (plan owner : string) (generation expires now : Z) (st : ClaimStore) : bool * ClaimStore :=
  match claims st !! plan with
  | Some c =>
    if bool_decide (claim_owner c = owner) && (claim_generation c =? generation)
       && (now <? claim_expires c) && negb (is_some_b (claim_completion c))
    then (true, put_claim st plan
            {| claim_plan := plan; claim_environment := claim_environment c; claim_owner := claim_owner c;
               claim_generation := claim_generation c; claim_expires := expires; claim_completion := None |})
    else (false, st)
  | None => (false, st)
  end.

(** The [UPDATE] of [complete_runtime_plan_sqlite]. *)
Definition store_completion (plan owner : string) (generation : Z) (json : string) (st : ClaimStore) : bool * ClaimStore :=
  match claims st !! plan with
  | Some c =>
    if bool_decide (claim_owner c = owner) && (claim_generation c =? generation)
       && negb (is_some_b (claim_completion c))
    then (true, put_claim st plan
            {| claim_plan := plan; claim_environment := claim_environment c; claim_owner := claim_owner c;
               claim_generation := claim_generation c; claim_expires := claim_expires c;
               claim_completion := Some json |})
    else (false, st)
  | None => (false, st)
  end.

(** [durable_runtime_completion] and [lapsed_runtime_completion]. *)
Definition durable_runtime_completion (plan owner : string) (st : ClaimStore) : option ClaimRow :=
  match claims st !! plan with
  | Some c => if bool_decide (claim_owner c = owner) && is_some_b (claim_completion c) then Some c else None
  | None => None
  end.

Definition lapsed_runtime_completion (environment plan : string) (now : Z) (st : ClaimStore) : option string :=
  match claims st !! plan with
  | Some c =>
    if bool_decide (claim_environment c = environment) && (claim_expires c <=? now) then claim_completion c else None
  | None => None
  end.

(** ** Operations *)

Inductive claim_effect : Type → Type :=
| ClaimNow : claim_effect Z
| ClaimTx (now : Z) (environment plan owner : string) (expires : Z) : claim_effect (result (option ClaimRow) ClaimError)
| ReadClaim (plan : string) : claim_effect (result (option ClaimRow) ClaimError)
| ExtendClaim (plan owner : string) (generation expires now : Z) : claim_effect (result bool ClaimError)
| StoreCompletion (plan owner : string) (generation : Z) (json : string) : claim_effect (result bool ClaimError).

(** [claim_runtime_plan]. *)
Definition claim_runtime_plan (environment plan owner : string) (expires : Z) :
    prog claim_effect (result (option ClaimRow) ClaimError) :=
  do now := perform ClaimNow in
  if str_is_empty environment || str_is_empty plan || str_is_empty owner || (expires <=? now)
  then Ret (Err InvalidClaim)
  else perform (ClaimTx now environment plan owner expires).

(** [renew_runtime_plan]. *)
Definition renew_runtime_plan (plan owner : string) (generation expires : Z) :
    prog claim_effect (result (option ClaimRow) ClaimError) :=
  do now := perform ClaimNow in
  if str_is_empty plan || str_is_empty owner || (generation =? 0) || (expires <=? now)
  then Ret (Err InvalidClaim)
  else
    do? changed := perform (ExtendClaim plan owner generation expires now) in
    if negb changed then Ret (Ok None)
    else do? row := perform (ReadClaim plan) in
         Ret (let? c := ok_or row (ClaimDatabase "no rows") in Ok (Some c)).

(** [complete_runtime_plan]. *)
Definition complete_runtime_plan (plan owner : string) (generation : Z) (json : string) :
    prog claim_effect (result unit ClaimError) :=
  do? row := perform (ReadClaim plan) in
  match row with
  | None => Ret (Err ClaimNotFound)
  | Some c =>
    if negb (bool_decide (claim_owner c = owner)) then Ret (Err (ClaimOwnerMismatch (claim_owner c) owner))
    else if negb (claim_generation c =? generation) then Ret (Err (ClaimStale (claim_generation c) generation))
    else match claim_completion c with
    | Some existing => Ret (if bool_decide (existing = json) then Ok tt else Err CompletionConflict)
    | None =>
      do now := perform ClaimNow in
      if claim_expires c <=? now then Ret (Err ClaimExpired)
      else
        do? changed := perform (StoreCompletion plan owner generation json) in
        if changed : bool then Ret (Ok tt)
        else
          do? again := perform (ReadClaim plan) in
          Ret (let? c := ok_or again (ClaimDatabase "no rows") in
               if bool_decide (claim_completion c = Some json) then Ok tt else Err CompletionConflict)
    end
  end.

(** ** Servers on one store *)

Inductive claim_request :=
| RequestClaim (environment plan owner : string) (expires : Z)
| RequestRenewal (plan owner : string) (generation expires : Z)
| RequestCompletion (plan owner : string) (generation : Z) (json : string).

Inductive claim_outcome :=
| ClaimAnswer (r : result (option ClaimRow) ClaimError)
| RenewalAnswer (r : result (option ClaimRow) ClaimError)
| CompletionAnswer (r : result unit ClaimError).

Record ClaimWorld := {
  wall_clock : Z; claim_store : ClaimStore; claim_log : list (claim_request * claim_outcome)
}.

(** How a statement fares. *)
Inductive statement_fate := Done | Broken (text : string) | AnswerLost (text : string).

Definition with_store (w : ClaimWorld) (st : ClaimStore) : ClaimWorld :=
  {| wall_clock := wall_clock w; claim_store := st; claim_log := claim_log w |}.

Definition stated {X} (f : statement_fate) (run : result (X * ClaimStore) ClaimError) (w : ClaimWorld) :
    option (result X ClaimError * ClaimWorld) :=
  match run, f with
  | Err e, _ => Some (Err e, w)
  | Ok (x, st), Done => Some (Ok x, with_store w st)
  | Ok _, Broken text => Some (Err (ClaimDatabase text), w)
  | Ok (_, st), AnswerLost text => Some (Err (ClaimDatabase text), with_store w st)
  end.

Definition claim_act (X : Type) (e : claim_effect X) (f : statement_fate) (w : ClaimWorld) : option (X * ClaimWorld) :=
  match e in claim_effect X return option (X * ClaimWorld) with
  | ClaimNow => Some (wall_clock w, w)
  | ClaimTx now environment plan owner expires =>
    stated f (claim_tx now environment plan owner expires (claim_store w)) w
  | ReadClaim plan => stated f (Ok (claims (claim_store w) !! plan, claim_store w)) w
  | ExtendClaim plan owner generation expires now =>
    stated f (Ok (extend_claim plan owner generation expires now (claim_store w))) w
  | StoreCompletion plan owner generation json =>
    stated f (Ok (store_completion plan owner generation json (claim_store w))) w
  end.

(** A server's clock is read at some time; environments are retired. *)
Inductive claim_move := SetClock (t : Z) | RetireEnvironment (environment : string).

Definition claim_moves (m : claim_move) (w : ClaimWorld) : option ClaimWorld :=
  match m with
  | SetClock t => Some {| wall_clock := t; claim_store := claim_store w; claim_log := claim_log w |}
  | RetireEnvironment environment =>
    Some (with_store w {| claims := claims (claim_store w); retired := {[environment]} ∪ retired (claim_store w);
                          fixtures := fixtures (claim_store w) |})
  end.

Definition begin_claim (r : claim_request) : prog claim_effect claim_outcome :=
  match r with
  | RequestClaim environment plan owner expires =>
    do a := claim_runtime_plan environment plan owner expires in Ret (ClaimAnswer a)
  | RequestRenewal plan owner generation expires =>
    do a := renew_runtime_plan plan owner generation expires in Ret (RenewalAnswer a)
  | RequestCompletion plan owner generation json =>
    do a := complete_runtime_plan plan owner generation json in Ret (CompletionAnswer a)
  end.

Definition claim_threads :
    Threads claim_effect ClaimWorld claim_request claim_outcome statement_fate claim_move := {|
  begin := begin_claim;
  act := claim_act;
  report r a w := {| wall_clock := wall_clock w; claim_store := claim_store w; claim_log := (r, a) :: claim_log w |};
  move := claim_moves |}.

Definition claim_system : Type := @system claim_effect ClaimWorld claim_request claim_outcome.

Definition claims_from (now : Z) (retired fixtures : gset string) : claim_system :=
  at_rest {| wall_clock := now; claim_store := {| claims := ∅; retired := retired; fixtures := fixtures |};
             claim_log := [] |}.

(** ** How a row develops *)

(** The same claim or a later generation of it; a completion is the last. *)
Record row_older (r r' : ClaimRow) : Prop := {
  row_environment : claim_environment r' = claim_environment r;
  row_generation : claim_generation r <= claim_generation r';
  row_owner : claim_generation r' = claim_generation r → claim_owner r' = claim_owner r;
  row_completed : is_Some (claim_completion r) → r' = r
}.

Definition claims_older (w w' : ClaimWorld) : Prop :=
  ∀ plan r, claims (claim_store w) !! plan = Some r →
    ∃ r', claims (claim_store w') !! plan = Some r' ∧ row_older r r'.

#[local] Instance row_older_preorder : PreOrder row_older.
Proof.
  split.
  - intros r. split; [done|lia|done|done].
  - intros r1 r2 r3 [e1 g1 o1 c1] [e2 g2 o2 c2]. split; [congruence|lia| |].
    + intros Hg. rewrite o2 by lia. apply o1. lia.
    + intros Hc. rewrite c2; [by apply c1|]. by rewrite (c1 Hc).
Qed.

#[local] Instance claims_older_preorder : PreOrder claims_older.
Proof.
  split.
  - intros w plan r Hr. by exists r.
  - intros w1 w2 w3 H12 H23 plan r Hr. destruct (H12 plan r Hr) as (r2 & Hr2 & ?).
    destruct (H23 plan r2 Hr2) as (r3 & ? & ?). exists r3. split; [done|]. by etrans.
Qed.

(** What every statement does to the table. *)
Definition rows_forward (st st' : ClaimStore) : Prop :=
  ∀ plan r, claims st !! plan = Some r → ∃ r', claims st' !! plan = Some r' ∧ row_older r r'.

Lemma rows_forward_refl st : rows_forward st st.
Proof. intros plan r Hr. by exists r. Qed.

Lemma put_claim_forward st plan c :
  (∀ r, claims st !! plan = Some r → row_older r c) → rows_forward st (put_claim st plan c).
Proof.
  intros H plan' r Hr. simpl. destruct (decide (plan = plan')) as [<-|Hne].
  - rewrite lookup_insert_eq. exists c. split; [done|]. by apply H.
  - rewrite lookup_insert_ne by done. by exists r.
Qed.

(** The generation a row has, with what made it: the previous holder's claim
    had run out, and nothing had been completed under it. *)
Definition row_earned (h : list ClaimWorld) (plan : string) (g : Z) : Prop :=
  g = 1 ∨ ∃ w0 w1 r0, w0 ∈ h ∧ w1 ∈ h ∧ claims (claim_store w0) !! plan = Some r0
    ∧ claim_generation r0 = g - 1 ∧ claim_completion r0 = None ∧ claim_expires r0 <= wall_clock w1.

Lemma row_earned_later h h' plan g : h ⊆ h' → row_earned h plan g → row_earned h' plan g.
Proof.
  intros Hh [->|(w0 & w1 & r0 & H0 & H1 & ?)]; [by left|right]. exists w0, w1, r0.
  split_and!; [by apply Hh..|tauto|tauto|tauto|tauto].
Qed.

(** Where a row of the table comes from, one statement earlier. *)
Definition earned_from (st : ClaimStore) (now : Z) (plan : string) (r : ClaimRow) : Prop :=
  (∃ r0, claims st !! plan = Some r0 ∧ claim_generation r0 = claim_generation r)
  ∨ claim_generation r = 1
  ∨ ∃ r0, claims st !! plan = Some r0 ∧ claim_generation r = claim_generation r0 + 1
          ∧ claim_completion r0 = None ∧ claim_expires r0 <= now.

(** One statement: rows only develop, and new generations are earned. *)
Definition statement_ok (st : ClaimStore) (now : Z) (st' : ClaimStore) : Prop :=
  rows_forward st st' ∧ ∀ plan r, claims st' !! plan = Some r → earned_from st now plan r.

Lemma statement_ok_same st now : statement_ok st now st.
Proof. split; [apply rows_forward_refl|]. intros plan r Hr. left. by exists r. Qed.

Lemma statement_ok_put st now plan c :
  (∀ r, claims st !! plan = Some r → row_older r c) → earned_from st now plan c →
  statement_ok st now (put_claim st plan c).
Proof.
  intros Hr Hc. split; [by apply put_claim_forward|]. intros plan' r. simpl.
  destruct (decide (plan = plan')) as [<-|Hne].
  - rewrite lookup_insert_eq. by intros [= <-].
  - rewrite lookup_insert_ne by done. intros H. left. by exists r.
Qed.

(** An open row may be rewritten within its generation. *)
Lemma statement_ok_rewrite st now plan c c' :
  claims st !! plan = Some c → claim_completion c = None → claim_environment c' = claim_environment c →
  claim_owner c' = claim_owner c → claim_generation c' = claim_generation c →
  statement_ok st now (put_claim st plan c').
Proof.
  intros Hc Hj He Ho Hg. apply statement_ok_put; [|left; by exists c].
  intros r. rewrite Hc. intros [= <-]. split; [done|lia|done|]. by rewrite Hj; intros [? ?].
Qed.

(** A claim that is granted is the row it leaves. *)
Lemma claim_tx_spec now environment plan owner expires st x st' :
  claim_tx now environment plan owner expires st = Ok (x, st') →
  statement_ok st now st'
  ∧ ∀ c, x = Some c → claims st' !! plan = Some c ∧ claim_owner c = owner ∧ claim_environment c = environment.
Proof.
  unfold claim_tx. intros [_ [_ H]%bail_ok]%bail_ok. revert H.
  assert (∀ c, claims (put_claim st plan c) !! plan = Some c) as Hput by (intros c; apply lookup_insert_eq).
  destruct (claims st !! plan) as [c|] eqn:Hc; cycle 1.
  { intros [= <- <-]. split; [|by intros c' [= <-]].
    apply statement_ok_put; [intros r; by rewrite Hc|by right; left]. }
  intros [He%negb_false_iff%bool_decide_eq_true H]%bail_ok. revert H.
  destruct (claim_completion c) as [j|] eqn:Hj.
  { intros [= <- <-]. split; [apply statement_ok_same|]. intros c'. case_bool_decide; [|done]. by intros [= <-]. }
  destruct (Z.ltb_spec now (claim_expires c)) as [Hlive|Hlapsed].
  - case_bool_decide as Ho; intros [= <- <-]; [|split; [apply statement_ok_same|done]].
    split; [by eapply statement_ok_rewrite|]. by intros c' [= <-].
  - unfold to_sql. destruct (Z.ltb_spec i64_max (Z.min u64_max (claim_generation c + 1))) as [|Hg]; [done|].
    replace (Z.min u64_max (claim_generation c + 1)) with (claim_generation c + 1)
      by (unfold i64_max, u64_max in *; lia).
    simpl. intros [= <- <-]. split; [|by intros c' [= <-]]. apply statement_ok_put; [|right; right; by exists c].
    intros r. rewrite Hc. intros [= <-]. split; simpl; [done|lia|lia|]. by rewrite Hj; intros [? ?].
Qed.

Lemma extend_claim_ok plan owner g expires now st x st' now' :
  extend_claim plan owner g expires now st = (x, st') → statement_ok st now' st'.
Proof.
  unfold extend_claim. destruct (claims st !! plan) as [c|] eqn:Hc; [|intros [= <- <-]; apply statement_ok_same].
  destruct (_ && _) eqn:Hb; intros [= <- <-]; [|apply statement_ok_same].
  apply andb_true_iff in Hb as [_ Hj]. eapply statement_ok_rewrite; [done| |done..].
  by destruct (claim_completion c).
Qed.

Lemma extend_claim_row plan owner g expires now st st' :
  extend_claim plan owner g expires now st = (true, st') →
  ∃ c, claims st' !! plan = Some c ∧ claim_generation c = g ∧ claim_owner c = owner.
Proof.
  unfold extend_claim. destruct (claims st !! plan) as [c|]; [|done]. destruct (_ && _) eqn:Hb; [|done].
  intros [= <-]. simpl. rewrite lookup_insert_eq. eexists. split; [done|].
  apply andb_true_iff in Hb as [[[Ho%bool_decide_eq_true Hg%Z.eqb_eq]%andb_true_iff _]%andb_true_iff _]. done.
Qed.

Lemma store_completion_spec plan owner g json st x st' now :
  store_completion plan owner g json st = (x, st') →
  statement_ok st now st'
  ∧ (x = true → ∃ c, claims st' !! plan = Some c ∧ claim_completion c = Some json
                     ∧ claim_generation c = g ∧ claim_owner c = owner).
Proof.
  unfold store_completion.
  destruct (claims st !! plan) as [c|] eqn:Hc; [|intros [= <- <-]; split; [apply statement_ok_same|done]].
  destruct (_ && _) eqn:Hb; intros [= <- <-]; [|split; [apply statement_ok_same|done]].
  apply andb_true_iff in Hb as [[Ho%bool_decide_eq_true Hg%Z.eqb_eq]%andb_true_iff Hj]. split.
  - eapply statement_ok_rewrite; [done| |done..]. by destruct (claim_completion c).
  - intros _. simpl. rewrite lookup_insert_eq. by eexists.
Qed.

(** ** The invariant of a store of claims *)

Definition row_seen (h : list ClaimWorld) (plan : string) (c : ClaimRow) : Prop :=
  ∃ w, w ∈ h ∧ claims (claim_store w) !! plan = Some c.

(** The plan has this completion, under this claim or a later one. *)
Definition settled (w : ClaimWorld) (plan owner : string) (g : Z) (json : string) : Prop :=
  ∃ c, claims (claim_store w) !! plan = Some c ∧ claim_completion c = Some json
       ∧ g <= claim_generation c ∧ (claim_generation c = g → claim_owner c = owner).

Definition log_ok (h : list ClaimWorld) (w : ClaimWorld) (x : claim_request * claim_outcome) : Prop :=
  match x with
  | (RequestClaim environment plan owner _, ClaimAnswer (Ok (Some c))) =>
    claim_owner c = owner ∧ claim_environment c = environment ∧ row_seen h plan c
  | (RequestRenewal plan owner g _, RenewalAnswer (Ok (Some c))) =>
    row_seen h plan c ∧ g <= claim_generation c ∧ (claim_generation c = g → claim_owner c = owner)
  | (RequestCompletion plan owner g json, CompletionAnswer (Ok _)) => settled w plan owner g json
  | _ => True
  end.

Record claims_ok (w : ClaimWorld) (past : list ClaimWorld) : Prop := {
  k_ordered : newest_first claims_older (w :: past);
  k_rows plan r : row_seen (w :: past) plan r → row_earned (w :: past) plan (claim_generation r);
  k_log x : x ∈ claim_log w → log_ok (w :: past) w x
}.

Lemma row_seen_later h h' plan c : h ⊆ h' → row_seen h plan c → row_seen h' plan c.
Proof. intros Hh (w & Hw & ?). exists w. split; [by apply Hh|done]. Qed.

Lemma row_seen_next w' w past plan c :
  row_seen (w' :: w :: past) plan c → claims (claim_store w') !! plan = Some c ∨ row_seen (w :: past) plan c.
Proof. intros (w1 & [->|H1]%elem_of_cons & Hc); [by left|]. right. by exists w1. Qed.

Lemma settled_later w w' plan owner g json :
  claims_older w w' → settled w plan owner g json → settled w' plan owner g json.
Proof.
  intros Ho (c & Hc & Hj & Hg). destruct (Ho plan c Hc) as (c' & Hc' & Hr). exists c'. split; [done|].
  rewrite (row_completed _ _ Hr) by by rewrite Hj. done.
Qed.

Lemma log_ok_later h h' w w' x : h ⊆ h' → claims_older w w' → log_ok h w x → log_ok h' w' x.
Proof.
  intros Hh Ho. destruct x as [[environment plan owner e|plan owner g e|plan owner g json] [[[c|]|]|[[c|]|]|[[]|]]]; simpl; try done.
  - intros (? & ? & ?). split_and!; [done..|]. by eapply row_seen_later.
  - intros (? & ? & ?). split_and!; [|done..]. by eapply row_seen_later.
  - by apply settled_later.
Qed.

(** One statement, at a clock some server has read. *)
Lemma claims_ok_statement w past st' now :
  claims_ok w past → (∃ w1, w1 ∈ w :: past ∧ wall_clock w1 = now) → statement_ok (claim_store w) now st' →
  claims_ok (with_store w st') (w :: past).
Proof.
  intros [Ho Hr Hl] (w1 & H1 & Hnow) [Hfwd Hearn]. assert (claims_older w (with_store w st')) as Hold by exact Hfwd.
  split.
  - by apply newest_first_next.
  - intros plan r [Hc|Hc]%row_seen_next; [|eapply row_earned_later; [|by apply Hr]; set_solver].
    destruct (Hearn plan r Hc) as [(r0 & H0 & <-)|[->|(r0 & H0 & Hg & Hj & He)]].
    + eapply row_earned_later; [|apply Hr; exists w; by split; [left|]]. set_solver.
    + by left.
    + right. exists w, w1, r0. split_and!; [set_solver|set_solver|done|lia|done|lia].
  - intros x Hx. eapply log_ok_later; [|exact Hold|by apply Hl]. set_solver.
Qed.

Lemma claims_ok_same w past : claims_ok w past → claims_ok w (w :: past).
Proof.
  intros Hok. destruct w as [now st log]. apply (claims_ok_statement {| wall_clock := now; claim_store := st; claim_log := log |} past st now);
    [done| |apply statement_ok_same]. eexists. split; [left|done].
Qed.

(** ** What each statement teaches *)

#[local] Notation safely := (safe claim_threads claims_ok).

Lemma safe_claim_now h : safely (perform ClaimNow) (λ now h', ∃ w, w ∈ h' ∧ wall_clock w = now) h.
Proof.
  apply safe_perform. intros w past Hs Hok c x w'. simpl. intros [= <- <-]. split; [by apply claims_ok_same|].
  exists w. split; [left|done].
Qed.

(** A statement [run] whose effect on the table is allowed at [now]. *)
Lemma safe_statement {X} (e : claim_effect (result X ClaimError)) (run : ClaimStore → result (X * ClaimStore) ClaimError)
    (Q : X → ClaimStore → Prop) h now :
  (∀ f w, claim_act _ e f w = stated f (run (claim_store w)) w) →
  (∃ w, w ∈ h ∧ wall_clock w = now) →
  (∀ st x st', run st = Ok (x, st') → statement_ok st now st' ∧ Q x st') →
  safely (perform e) (λ r h', ∀ x, r = Ok x → ∃ w, w ∈ h' ∧ Q x (claim_store w)) h.
Proof.
  intros Hact (w1 & H1 & Hnow) Hrun. apply safe_perform. intros w past Hs Hok c x w'.
  change (act claim_threads e c w) with (claim_act _ e c w). rewrite Hact. unfold stated.
  destruct (run (claim_store w)) as [[y st']|err] eqn:Hr.
  - destruct (Hrun _ _ _ Hr) as [Hst HQ].
    assert (claims_ok (with_store w st') (w :: past)).
    { apply (claims_ok_statement w past st' now); [done| |done]. exists w1.
      split; [by apply (suffix_subset _ _ Hs)|done]. }
    destruct c; intros [= <- <-]; (split; [try done; by apply claims_ok_same|]); try done.
    intros z [= <-]. exists (with_store w st'). split; [left|done].
  - intros [= <- <-]. split; [by apply claims_ok_same|]. done.
Qed.

(** Statements that grant nothing need no clock. *)
Lemma safe_statement_any {X} (e : claim_effect (result X ClaimError)) (run : ClaimStore → result (X * ClaimStore) ClaimError)
    (Q : X → ClaimStore → Prop) h :
  (∀ f w, claim_act _ e f w = stated f (run (claim_store w)) w) →
  (∀ st x st' now, run st = Ok (x, st') → statement_ok st now st' ∧ Q x st') →
  safely (perform e) (λ r h', ∀ x, r = Ok x → ∃ w, w ∈ h' ∧ Q x (claim_store w)) h.
Proof.
  intros Hact Hrun. apply safe_perform. intros w past Hs Hok c x w' Ha.
  apply (safe_statement e run Q (w :: past) (wall_clock w)) with (c := c); [done| |by intros; apply Hrun|done|done|done].
  exists w. split; [left|done].
Qed.

(** A row that is read is later than every row seen before. *)
Lemma safe_read_claim h plan :
  safely (perform (ReadClaim plan))
    (λ r h', ∀ c, r = Ok (Some c) → row_seen h' plan c ∧ ∀ c0, row_seen h plan c0 → row_older c0 c) h.
Proof.
  apply safe_perform. intros w past Hs Hok f x w'. simpl.
  assert (∀ c, claims (claim_store w) !! plan = Some c →
    ∀ c0, row_seen h plan c0 → row_older c0 c) as Hlater.
  { intros c Hc c0 (w0 & H0 & Hc0).
    destruct (newest_first_head w past w0 (k_ordered _ _ Hok) (suffix_subset _ _ Hs _ H0) plan c0 Hc0) as (c1 & Hc1 & ?).
    by simplify_eq. }
  assert (with_store w (claim_store w) = w) as Hw by by destruct w.
  destruct f; intros [= <- <-]; rewrite ?Hw; (split; [by apply claims_ok_same|]); try done.
  intros c [= Hc]. split; [|by apply Hlater]. exists w. split; [left|done].
Qed.

(** ** The operations *)

Lemma safe_claim h environment plan owner expires :
  safely (claim_runtime_plan environment plan owner expires)
    (λ r h', ∀ c, r = Ok (Some c) →
       claim_owner c = owner ∧ claim_environment c = environment ∧ row_seen h' plan c) h.
Proof.
  apply safe_bind. eapply safe_mono; [apply safe_claim_now|]. intros now h1 _ Hnow.
  destruct (_ || _); [done|]. eapply safe_mono.
  { apply (safe_statement _ (claim_tx now environment plan owner expires)
      (λ x st, ∀ c, x = Some c → claims st !! plan = Some c ∧ claim_owner c = owner ∧ claim_environment c = environment)
      h1 now); [done|done|]. intros st x st'. apply claim_tx_spec. }
  intros r h2 _ Hr c ->. destruct (Hr _ eq_refl) as (w & Hw & Hc). destruct (Hc c eq_refl) as (? & ? & ?).
  split_and!; [done|done|]. by exists w.
Qed.

Lemma safe_renew h plan owner g expires :
  safely (renew_runtime_plan plan owner g expires)
    (λ r h', ∀ c, r = Ok (Some c) →
       row_seen h' plan c ∧ g <= claim_generation c ∧ (claim_generation c = g → claim_owner c = owner)) h.
Proof.
  apply safe_bind. eapply safe_mono; [apply safe_claim_now|]. intros now h1 _ _.
  destruct (_ || _); [done|]. apply safe_try. eapply safe_mono.
  { apply (safe_statement_any _ (λ st, Ok (extend_claim plan owner g expires now st))
      (λ x st, x = true → ∃ c, claims st !! plan = Some c ∧ claim_generation c = g ∧ claim_owner c = owner)); [done|].
    intros st x st' now' [= H]. split; [by eapply extend_claim_ok|]. intros ->.
    by apply extend_claim_row in H. }
  intros [[]|] h2 _ Hx; cbn [negb]; [|done|done]. destruct (Hx true eq_refl) as (w & Hw & Hrow).
  destruct (Hrow eq_refl) as (c0 & Hc0 & Hg & Ho).
  apply safe_try. eapply safe_mono; [apply safe_read_claim|]. intros [[c|]|] h3 _ Hr; simpl; [|done|done].
  destruct (Hr c eq_refl) as [Hseen Hlater]. intros c' [= <-].
  destruct (Hlater c0) as [_ Hgen Hown _]; [by exists w|]. split_and!; [done|lia|]. intros Hg'. rewrite <- Ho. apply Hown. lia.
Qed.

Lemma safe_complete h plan owner g json :
  safely (complete_runtime_plan plan owner g json)
    (λ r h', r = Ok tt → ∃ w, w ∈ h' ∧ settled w plan owner g json) h.
Proof.
  apply safe_try. eapply safe_mono; [apply safe_read_claim|]. intros [[c|]|] h1 _ Hr; [|done|done].
  destruct (Hr c eq_refl) as [(w0 & H0 & Hc) _].
  case_bool_decide as Ho; cbn [negb]; [|done]. destruct (Z.eqb_spec (claim_generation c) g) as [Hg|]; cbn [negb]; [|done].
  destruct (claim_completion c) as [existing|] eqn:Hj.
  { case_bool_decide as Hx; simpl; [|done]. intros _. exists w0. split; [done|]. exists c. subst. split_and!; [done..|lia|done]. }
  apply safe_bind. eapply safe_mono; [apply safe_claim_now|]. intros now h2 Hs2 _.
  destruct (claim_expires c <=? now); [done|]. apply safe_try. eapply safe_mono.
  { apply (safe_statement_any _ (λ st, Ok (store_completion plan owner g json st))
      (λ x st, x = true → ∃ c, claims st !! plan = Some c ∧ claim_completion c = Some json
                               ∧ claim_generation c = g ∧ claim_owner c = owner)); [done|].
    intros st x st' now' [= H]. by eapply store_completion_spec. }
  intros [[]|] h3 Hs3 Hx; [| |done].
  - intros _. destruct (Hx true eq_refl) as (w & Hw & Hrow). destruct (Hrow eq_refl) as (c1 & ? & ? & ? & ?).
    exists w. split; [done|]. exists c1. split_and!; [done|done|lia|done].
  - apply safe_try. eapply safe_mono; [apply safe_read_claim|]. intros [[c1|]|] h4 _ Hr4; simpl; [|done|done].
    case_bool_decide as Hj1; [|done]. intros _. destruct (Hr4 c1 eq_refl) as [(w & Hw & Hc1) Hlater].
    destruct (Hlater c) as [_ Hgen Hown _].
    { exists w0. split; [|done]. apply (suffix_subset _ _ Hs3), (suffix_subset _ _ Hs2), H0. }
    exists w. split; [done|]. exists c1. split_and!; [done|done|lia|]. intros. rewrite <- Ho. apply Hown. lia.
Qed.

(** ** Every schedule *)

Lemma claim_reportable h request a :
  (∀ w, (∀ w0, w0 ∈ h → claims_older w0 w) → log_ok h w (request, a)) →
  reportable claim_threads claims_ok request a h.
Proof.
  intros Hlog w past Hs [Ho Hr Hl].
  assert (∀ w0, w0 ∈ h → claims_older w0 w) as Hall.
  { intros w0 H0. apply (newest_first_head w past); [done|by apply (suffix_subset _ _ Hs)]. }
  assert (claims_older w (report claim_threads request a w)) as Hold by (intros plan r H; by exists r).
  assert (w :: past ⊆ report claim_threads request a w :: w :: past) as Hsub by set_solver.
  split; [by apply newest_first_next| |].
  - intros plan r [H|H]%row_seen_next; (eapply row_earned_later; [exact Hsub|apply Hr]); [|done].
    exists w. by split; [left|].
  - intros x [->|Hx]%elem_of_cons; [|eapply log_ok_later; [exact Hsub|exact Hold|by apply Hl]].
    eapply log_ok_later; [|exact Hold|by apply Hlog]. etrans; [by apply suffix_subset|done].
Qed.

Lemma begin_claim_safe request w past :
  claims_ok w past → safely (begin claim_threads request) (reportable claim_threads claims_ok request) (w :: past).
Proof.
  intros _. destruct request as [environment plan owner e|plan owner g e|plan owner g json]; apply safe_bind.
  - eapply safe_mono; [apply safe_claim|]. intros r h' _ Hr. apply claim_reportable. intros w' _.
    destruct r as [[c|]|]; [|done|done]. by apply Hr.
  - eapply safe_mono; [apply safe_renew|]. intros r h' _ Hr. apply claim_reportable. intros w' _.
    destruct r as [[c|]|]; [|done|done]. by apply Hr.
  - eapply safe_mono; [apply safe_complete|]. intros r h' _ Hr. apply claim_reportable. intros w' Hall.
    destruct r as [[]|]; [|done]. destruct (Hr eq_refl) as (w0 & H0 & Hset). by eapply settled_later; [apply Hall|].
Qed.

Lemma claim_moves_ok m w past w' : claims_ok w past → move claim_threads m w = Some w' → claims_ok w' (w :: past).
Proof.
  intros [Ho Hr Hl]. assert (∀ w', claims (claim_store w') = claims (claim_store w) → claim_log w' = claim_log w →
    claims_ok w' (w :: past)) as Hmove.
  { clear w'. intros w' Hc Hlog. assert (claims_older w w') as Hold by (intros plan r H; exists r; by rewrite Hc).
    split; [by apply newest_first_next| |].
    - intros plan r [H|H]%row_seen_next; (eapply row_earned_later; [|apply Hr]); [set_solver| |set_solver|done].
      exists w. rewrite Hc in H. by split; [left|].
    - intros x. rewrite Hlog. intros Hx. eapply log_ok_later; [|exact Hold|by apply Hl]. set_solver. }
  destruct m; intros [= <-]; by apply Hmove.
Qed.

Lemma claims_reachable_ok now retired fixtures ls s :
  interleave claim_threads ls (claims_from now retired fixtures) = Some s → claims_ok (world s) (past s).
Proof.
  intros Hrun. destruct (interleave_sound claim_threads claims_ok begin_claim_safe claim_moves_ok ls
    (claims_from now retired fixtures) s) as [H _]; [|done|done].
  apply at_rest_sound. split; simpl.
  - by repeat constructor.
  - intros plan r (w & [->|?%not_elem_of_nil]%elem_of_cons & Hrow); [|done]. simpl in Hrow. by rewrite lookup_empty in Hrow.
  - intros x Hx. by apply not_elem_of_nil in Hx.
Qed.

(** Two rows of one plan's history. *)
Lemma rows_comparable w past plan c c' :
  claims_ok w past → row_seen (w :: past) plan c → row_seen (w :: past) plan c' → row_older c c' ∨ row_older c' c.
Proof.
  intros Hok (w1 & H1 & Hc) (w2 & H2 & Hc').
  destruct (newest_first_total _ w1 w2 (k_ordered _ _ Hok) H1 H2) as [H|H].
  - destruct (H plan c Hc) as (r & Hr & ?). left. by simplify_eq.
  - destruct (H plan c' Hc') as (r & Hr & ?). right. by simplify_eq.
Qed.

(** C13: claims of runtime agents are fenced.  Whatever the servers' clocks do,
    however the statements of claims, renewals and completions interleave on
    the shared store, fail, or lose their answers: claims granted for one
    plan under one generation have one owner; a later generation is granted
    only over a claim that had run out by a server's clock with nothing
    completed under it; and once a completion is accepted for a plan, it is
    the plan's completion for good, every other accepted completion of the
    plan is the same text, and no claim is ever granted under a generation
    above the one it completed. *)
Theorem runtime_claims_fenced now retired fixtures ls s plan :
  interleave claim_threads ls (claims_from now retired fixtures) = Some s →
  (∀ environment owner e c environment' owner' e' c',
     (RequestClaim environment plan owner e, ClaimAnswer (Ok (Some c))) ∈ claim_log (world s) →
     (RequestClaim environment' plan owner' e', ClaimAnswer (Ok (Some c'))) ∈ claim_log (world s) →
     environment' = environment ∧ (claim_generation c = claim_generation c' → owner = owner'))
  ∧ (∀ environment owner e c,
       (RequestClaim environment plan owner e, ClaimAnswer (Ok (Some c))) ∈ claim_log (world s) →
       row_earned (history s) plan (claim_generation c))
  ∧ ∀ owner g json,
      (RequestCompletion plan owner g json, CompletionAnswer (Ok tt)) ∈ claim_log (world s) →
      ∃ row, claims (claim_store (world s)) !! plan = Some row ∧ claim_completion row = Some json
        ∧ g <= claim_generation row ∧ (claim_generation row = g → claim_owner row = owner)
        ∧ (∀ owner' g' json',
             (RequestCompletion plan owner' g' json', CompletionAnswer (Ok tt)) ∈ claim_log (world s) → json' = json)
        ∧ (∀ environment owner' e c,
             (RequestClaim environment plan owner' e, ClaimAnswer (Ok (Some c))) ∈ claim_log (world s) →
             claim_generation c <= claim_generation row).
Proof.
  intros Hrun. pose proof (claims_reachable_ok _ _ _ _ _ Hrun) as Hok. split_and!.
  - intros environment owner e c environment' owner' e' c' H1 H2.
    apply (k_log _ _ Hok) in H1 as (Ho1 & He1 & Hs1). apply (k_log _ _ Hok) in H2 as (Ho2 & He2 & Hs2).
    destruct (rows_comparable _ _ _ _ _ Hok Hs1 Hs2) as [H|H]; destruct H as [Henv _ Hown _];
      (split; [congruence|]); intros Hg; rewrite <- Ho1, <- Ho2; [symmetry|]; apply Hown; lia.
  - intros environment owner e c (_ & _ & Hseen)%(k_log _ _ Hok). by apply (k_rows _ _ Hok).
  - intros owner g json H. apply (k_log _ _ Hok) in H as (row & Hrow & Hj & Hg & Ho). exists row.
    split_and!; [done..| |].
    + intros owner' g' json' (row' & Hrow' & Hj' & _)%(k_log _ _ Hok). by simplify_eq.
    + intros environment owner' e c (_ & _ & Hseen)%(k_log _ _ Hok).
      destruct (rows_comparable _ _ _ c row Hok Hseen) as [Hx|Hx]; [by exists (world s); split; [left|]|by apply Hx|].
      rewrite (row_completed _ _ Hx); [lia|by rewrite Hj].
Qed.

(** ** Two agents and one plan *)
Module ClaimExamples.
#[local] Notation step := (label claim_request statement_fate claim_move).

Definition does (i n : nat) : list step := replicate n (Perform i Done).

(** Agent [a] claims until 20; at 30 agent [b] takes over and completes. *)
Definition taken_over : list step :=
  [Arrive 0 (RequestClaim "prod" "p" "a" 20)] ++ does 0 2 ++ [Report 0; Move (SetClock 30);
   Arrive 0 (RequestClaim "prod" "p" "b" 50)] ++ does 0 2
  ++ [Report 0; Arrive 0 (RequestCompletion "p" "b" 2 "done")] ++ does 0 3 ++ [Report 0].

Definition log_of (ls : list step) : option (list claim_outcome) :=
  match interleave claim_threads ls (claims_from 10 ∅ ∅) with
  | Some s => Some (claim_log (world s)).*2
  | None => None
  end.

Definition claim_of (owner : string) (g expires : Z) (json : option string) : ClaimRow := {|
  claim_plan := "p"; claim_environment := "prod"; claim_owner := owner; claim_generation := g;
  claim_expires := expires; claim_completion := json |}.

(** The first agent comes back too late. *)
Example late_agent :
  log_of (taken_over ++ [Arrive 0 (RequestCompletion "p" "a" 1 "done too")] ++ does 0 1 ++ [Report 0;
          Arrive 0 (RequestRenewal "p" "a" 1 90)] ++ does 0 2 ++ [Report 0;
          Arrive 0 (RequestClaim "prod" "p" "b" 90)] ++ does 0 2 ++ [Report 0])
  = Some [ClaimAnswer (Ok (Some (claim_of "b" 2 50 (Some "done")))); RenewalAnswer (Ok None);
          CompletionAnswer (Err (ClaimOwnerMismatch "b" "a"));
          CompletionAnswer (Ok tt); ClaimAnswer (Ok (Some (claim_of "b" 2 50 None)));
          ClaimAnswer (Ok (Some (claim_of "a" 1 20 None)))].
Proof. vm_compute. done. Qed.

(** A takeover between the two statements of a completion wins: the first
    agent's row has changed when it writes. *)
Example takeover_between_statements :
  log_of ([Arrive 0 (RequestClaim "prod" "p" "a" 20)] ++ does 0 2 ++ [Report 0;
           Arrive 0 (RequestCompletion "p" "a" 1 "mine")] ++ does 0 2 ++ [Move (SetClock 30);
           Arrive 1 (RequestClaim "prod" "p" "b" 50)] ++ does 1 2 ++ [Report 1] ++ does 0 2 ++ [Report 0])
  = Some [CompletionAnswer (Err CompletionConflict); ClaimAnswer (Ok (Some (claim_of "b" 2 50 None)));
          ClaimAnswer (Ok (Some (claim_of "a" 1 20 None)))].
Proof. vm_compute. done. Qed.

Definition ended_in (ls : list step) : claim_system :=
  match interleave claim_threads ls (claims_from 10 ∅ ∅) with Some s => s | None => claims_from 10 ∅ ∅ end.

Lemma run_ends ls :
  is_some_b (interleave claim_threads ls (claims_from 10 ∅ ∅)) = true →
  interleave claim_threads ls (claims_from 10 ∅ ∅) = Some (ended_in ls).
Proof. unfold ended_in. by destruct (interleave _ _ _). Qed.

Lemma runtime_claims_fenced_witness :
  (RequestCompletion "p" "b" 2 "done", CompletionAnswer (Ok tt)) ∈ claim_log (world (ended_in taken_over))
  ∧ ∀ owner g json,
      (RequestCompletion "p" owner g json, CompletionAnswer (Ok tt)) ∈ claim_log (world (ended_in taken_over)) →
      ∃ row, claims (claim_store (world (ended_in taken_over))) !! "p" = Some row ∧ claim_completion row = Some json
        ∧ g <= claim_generation row ∧ (claim_generation row = g → claim_owner row = owner)
        ∧ (∀ owner' g' json',
             (RequestCompletion "p" owner' g' json', CompletionAnswer (Ok tt))
               ∈ claim_log (world (ended_in taken_over)) → json' = json)
        ∧ (∀ environment owner' e c,
             (RequestClaim environment "p" owner' e, ClaimAnswer (Ok (Some c)))
               ∈ claim_log (world (ended_in taken_over)) → claim_generation c <= claim_generation row).
Proof.
  split; [vm_compute; left|].
  apply (runtime_claims_fenced 10 ∅ ∅ taken_over (ended_in taken_over) "p"). apply run_ends. vm_compute. reflexivity.
Defined.
End ClaimExamples.
