(* ===== verification/Outcomes.v ===== *)
(** * Terminal outcomes and feedback observations

    [terminal_outcome.rs]: what a finished step proves, from the
    controller's or a runtime's observation of it.
    [feedback_observation.rs]: the bounded record kept of each outcome. *)

From S2P Require Import Prelude RustStr Kinds Plan Approvals Deployments.

(** ** Terminal outcomes *)

Inductive TerminalOutcomeState :=
| DeploymentSucceeded | DeploymentFailed | AutomaticRollbackSucceeded | RollbackSucceeded
| RollbackFailed | ExecutionCancelled | UnknownReconciled.
#[export] Instance TerminalOutcomeState_eq : EqDecision TerminalOutcomeState.
Proof. solve_decision. Defined.

Definition RUNTIME_SKIPPED_DETAIL : string := "not executed after an earlier step failed".

Definition CANCELLATION_PREFIXES : list string :=
  ["deployment command interrupted"; "deployment command terminated"].

Inductive TerminalObservation :=
| ByController (status detail : string) (had_previous_release : bool)
| ByRuntime (succeeded : bool) (detail : string).

Definition is_cancellation (detail : string) : bool :=
  existsb (λ marker, starts_with marker detail) CANCELLATION_PREFIXES.

Definition classify_controller (action : Action) (status detail : string) (had_previous_release : bool) :
    option TerminalOutcomeState :=
  if bool_decide (status = "failed") && is_cancellation detail then Some ExecutionCancelled
  else if bool_decide (status = "succeeded") then
    Some (match action with Rollback => RollbackSucceeded | _ => DeploymentSucceeded end)
  else if bool_decide (status = "rolled_back") then Some AutomaticRollbackSucceeded
  else if bool_decide (status = "failed") then
    Some (match action with
          | Rollback => RollbackFailed
          | _ => if had_previous_release then RollbackFailed else DeploymentFailed
          end)
  else None.

Definition classify_runtime (action : Action) (succeeded : bool) (detail : string) :
    option TerminalOutcomeState :=
  if bool_decide (detail = RUNTIME_SKIPPED_DETAIL) then None
  else Some (match action, succeeded with
             | Rollback, true => RollbackSucceeded
             | _, true => DeploymentSucceeded
             | Rollback, false => RollbackFailed
             | _, false => DeploymentFailed
             end).

Definition classify_outcome (action : Action) (observation : TerminalObservation) : option TerminalOutcomeState :=
  match observation with
  | ByController status detail had_previous_release =>
    classify_controller action status detail had_previous_release
  | ByRuntime succeeded detail => classify_runtime action succeeded detail
  end.

(** What an outcome says of the step: it did what was asked, or not. *)
Definition proves_success (o : TerminalOutcomeState) : bool :=
  match o with DeploymentSucceeded | RollbackSucceeded => true | _ => false end.

(** An observation by the controller is terminal exactly for the statuses a
    finished step can have, and proves success exactly when the step
    succeeded, whatever the detail says.  An observation by a runtime is
    terminal unless the step was skipped. *)
Lemma classify_truthful action observation :
  match observation with
  | ByController status detail previous =>
    (is_Some (classify_outcome action observation)
       ↔ status = "succeeded" ∨ status = "failed" ∨ status = "rolled_back")
    ∧ (∀ o, classify_outcome action observation = Some o → proves_success o = bool_decide (status = "succeeded"))
  | ByRuntime succeeded detail =>
    (is_Some (classify_outcome action observation) ↔ detail ≠ RUNTIME_SKIPPED_DETAIL)
    ∧ (∀ o, classify_outcome action observation = Some o → proves_success o = succeeded)
  end.
Proof.
  destruct observation as [status detail previous|succeeded detail]; simpl.
  - unfold classify_controller.
    destruct (decide (status = "succeeded")) as [->|H1]; [simpl; split; [naive_solver|]; by intros o [= <-]; destruct action|].
    destruct (decide (status = "rolled_back")) as [->|H2]; [simpl; split; [naive_solver|]; by intros o [= <-]|].
    destruct (decide (status = "failed")) as [->|H3].
    + rewrite (bool_decide_eq_false_2 ("failed" = "succeeded")) by done. simpl.
      destruct (is_cancellation detail); simpl; (split; [naive_solver|]); intros o [= <-]; [done|].
      by destruct action, previous.
    + rewrite !bool_decide_eq_false_2 by done. simpl. split; [|done].
      split; [by intros []|naive_solver].
  - unfold classify_runtime. destruct (decide (detail = RUNTIME_SKIPPED_DETAIL)) as [Hd|Hd].
    + rewrite bool_decide_eq_true_2 by done. split; [|done]. split; [by intros []|done].
    + rewrite bool_decide_eq_false_2 by done. split; [naive_solver|]. by intros o [= <-]; destruct action, succeeded.
Qed.

(** ** Feedback observations *)

Definition FEEDBACK_OBSERVATION_SCHEMA : string := "tenkai.feedback_observation.v1".
Definition MAX_FIELD_BYTES : Z := 256.

Inductive FeedbackOperation :=
| ApplyStepOperation | RuntimeCompletionOperation | UnknownReconciliationOperation
| PlanBlockedOperation | PlanFailedOperation | OrphanRecoveryOperation.

Inductive Reason :=
| NoReason | ProductFailed | ProductFailedRestored | TenkaiFailed | TenkaiFailedRestored | Cancelled
| ReasonBlocked | StateUnknown | Reconciled | Degraded | ReasonMaintenanceBlocked | GateBlocked
| ReasonPlanFailed | Abandoned.
#[export] Instance Reason_eq : EqDecision Reason.
Proof. solve_decision. Defined.

Record RetryContext := {
  takeover : bool; runtime_claim_generation : option Z; failed_target_retry : bool;
  recovery_reason : option string
}.

Record FeedbackObservation := {
  fo_schema : string; fo_id : string; fo_operation : FeedbackOperation; fo_environment : string;
  fo_product : string; fo_plan_id : string; fo_step_id : string; fo_action : string;
  fo_release_id : string; fo_status : string; fo_reason : Reason; fo_duration_ms : option Z;
  fo_controller_version : string; fo_lease_generation : Z; fo_observed_at_ms : Z; fo_context : RetryContext
}.

Record Capture := {
  cap_id : string; cap_operation : FeedbackOperation; cap_environment : string; cap_product : string;
  cap_plan_id : string; cap_step_id : string; cap_action : option Action; cap_release_id : string;
  cap_status : string; cap_reason : Reason; cap_started_at_ms : option Z; cap_lease_generation : Z;
  cap_observed_at_ms : Z; cap_context : RetryContext
}.

Definition Action_str (a : Action) : string :=
  match a with
  | Install => "install" | Upgrade => "upgrade" | Downgrade => "downgrade"
  | Rollback => "rollback" | Restart => "restart" | Remove => "remove"
  end.

(** [str::chars], each as its bytes. *)
Fixpoint utf8_chars (s : string) : list string :=
  match s with
  | EmptyString => []
  | String c rest =>
    match utf8_chars rest with
    | (String d g) :: gs => if continuation_byte d then String c (String d g) :: gs
                            else String c "" :: String d g :: gs
    | gs => String c "" :: gs
    end
  end.

(** [bounded]: a character that is a control is left out; at the first
    that does not fit the rest is. *)
Fixpoint push_chars (len : Z) (cs : list string) : string :=
  match cs with
  | [] => ""
  | c :: cs =>
    if any_control c then push_chars len cs
    else if MAX_FIELD_BYTES <? len + str_len c then ""
    else c +:+ push_chars (len + str_len c) cs
  end.

Definition bounded (value : string) : string := push_chars 0 (utf8_chars value).

Definition field_within_bounds (field : string) : bool :=
  (str_len field <=? MAX_FIELD_BYTES) && negb (any_control field).

Definition within_bounds (o : FeedbackObservation) : bool :=
  forallb field_within_bounds
    [fo_id o; fo_environment o; fo_product o; fo_plan_id o; fo_step_id o; fo_release_id o; fo_status o].

Definition runtime_reason (succeeded : bool) : Reason := if succeeded then NoReason else ProductFailed.

Definition TENKAI_FAILURE_MARKERS : list string :=
  ["deployment executor failed"; "cleanup executor failed"; "deployment bookkeeping failed"].

Definition controller_reason (status detail : string) (state_unknown : bool) : Reason :=
  let tenkai_failed := existsb (λ marker, str_contains marker detail) TENKAI_FAILURE_MARKERS in
  if bool_decide (status = "succeeded") then NoReason
  else if bool_decide (status = "blocked") then ReasonBlocked
  else if bool_decide (status = "rolled_back") then
    if tenkai_failed then TenkaiFailedRestored else ProductFailedRestored
  else if is_cancellation detail then Cancelled
  else if state_unknown then StateUnknown
  else if tenkai_failed then TenkaiFailed
  else ProductFailed.

Section Capturing.
Context {E : PlanEncoding}.

Definition bounded_identity (id : string) : string :=
  if field_within_bounds id then id else "sha256:" +:+ sha256_hex id.

Definition plan_level (o : FeedbackOperation) : bool :=
  match o with PlanBlockedOperation | PlanFailedOperation | OrphanRecoveryOperation => true | _ => false end.

(** [FeedbackObservation::capture], with the version the server was built as. *)
Definition capture (version : string) (c : Capture) : FeedbackObservation :=
  let context := {|
    takeover := takeover (cap_context c); runtime_claim_generation := runtime_claim_generation (cap_context c);
    failed_target_retry := failed_target_retry (cap_context c);
    recovery_reason := bounded <$> recovery_reason (cap_context c) |} in
  let observation := {|
    fo_schema := FEEDBACK_OBSERVATION_SCHEMA; fo_id := cap_id c; fo_operation := cap_operation c;
    fo_environment := cap_environment c; fo_product := cap_product c; fo_plan_id := cap_plan_id c;
    fo_step_id := cap_step_id c; fo_action := default "" (Action_str <$> cap_action c);
    fo_release_id := cap_release_id c; fo_status := cap_status c; fo_reason := cap_reason c;
    fo_duration_ms :=
      started ← cap_started_at_ms c;
      let d := cap_observed_at_ms c - started in
      if (d <? 0) || (i64_max <? d) then None else Some d;
    fo_controller_version := version; fo_lease_generation := cap_lease_generation c;
    fo_observed_at_ms := cap_observed_at_ms c; fo_context := context |} in
  if (is_some_b (cap_action c) || plan_level (cap_operation c)) && within_bounds observation then observation
  else {|
    fo_schema := FEEDBACK_OBSERVATION_SCHEMA; fo_id := bounded_identity (cap_id c);
    fo_operation := cap_operation c; fo_environment := bounded (cap_environment c);
    fo_product := bounded (cap_product c); fo_plan_id := bounded (cap_plan_id c);
    fo_step_id := bounded (cap_step_id c); fo_action := fo_action observation;
    fo_release_id := bounded (cap_release_id c); fo_status := bounded (cap_status c);
    fo_reason := Degraded; fo_duration_ms := None; fo_controller_version := version;
    fo_lease_generation := cap_lease_generation c; fo_observed_at_ms := cap_observed_at_ms c;
    fo_context := context |}.
End Capturing.

(** ** What an observation stores is bounded *)

Definition starts_inside (s : string) : bool :=
  match s with String c _ => continuation_byte c | EmptyString => false end.

Lemma control_pair_inside c d :
  continuation_byte d = false → (byte_of c =? 194) && (128 <=? byte_of d) && (byte_of d <=? 159) = false.
Proof.
  unfold continuation_byte, byte_of, nat_of_ascii. rewrite N_nat_Z. intros H.
  destruct (Z.leb_spec 128 (Z.of_N (N_of_ascii d))), (Z.leb_spec (Z.of_N (N_of_ascii d)) 159);
    rewrite ?andb_false_r; try done.
  apply andb_false_iff in H as [H|H]; lia.
Qed.

Lemma any_control_app a b :
  starts_inside b = false → any_control a = false → any_control b = false → any_control (a +:+ b) = false.
Proof.
  intros Hb. induction a as [|c a IH]; [done|]. intros Ha Hc.
  change (String c a +:+ b) with (String c (a +:+ b)). cbn [any_control] in *.
  apply orb_false_iff in Ha as [[Hc' Ha]%orb_false_iff Hpair]. rewrite Hc', IH by done. simpl.
  destruct a as [|d a]; [|done]. destruct b as [|d b]; [done|]. by apply control_pair_inside.
Qed.

(** Only the first character of a text can start inside one. *)
Definition whole (c : string) : Prop := starts_inside c = false.

Lemma utf8_chars_whole s : Forall whole (tail (utf8_chars s)) ∧ (starts_inside s = false → Forall whole (utf8_chars s)).
Proof.
  induction s as [|c s [IHt IHs]]; [done|]. simpl.
  destruct (utf8_chars s) as [|[|d g] gs] eqn:Hs.
  - split; [done|]. intros Hc. by repeat constructor.
  - split; [by constructor|]. intros Hc. by repeat constructor.
  - destruct (continuation_byte d) eqn:Hd; simpl in *.
    + split; [done|]. intros Hc. by constructor.
    + split; [by constructor|]. intros Hc. by repeat constructor.
Qed.

Lemma push_chars_whole len cs : Forall whole cs → starts_inside (push_chars len cs) = false ∧ any_control (push_chars len cs) = false.
Proof.
  intros H. revert len. induction H as [|c cs Hc _ IH]; intros len; [done|]. simpl.
  destruct (any_control c) eqn:Ha; [apply IH|]. case_match; [done|].
  destruct (IH (len + str_len c)%Z) as [Hi Hn]. split; [by destruct c|]. by apply any_control_app.
Qed.

Lemma push_chars_len len cs : len <= MAX_FIELD_BYTES → len + str_len (push_chars len cs) <= MAX_FIELD_BYTES.
Proof.
  revert len. induction cs as [|c cs IH]; intros len Hl; simpl; [unfold str_len; simpl; lia|].
  destruct (any_control c); [by apply IH|]. destruct (Z.ltb_spec MAX_FIELD_BYTES (len + str_len c)); [unfold str_len; simpl; lia|].
  specialize (IH (len + str_len c)%Z ltac:(lia)). unfold str_len in *. rewrite string_app_length. lia.
Qed.

Lemma bounded_within s : field_within_bounds (bounded s) = true.
Proof.
  unfold field_within_bounds, bounded. apply andb_true_iff. split.
  - apply Z.leb_le. pose proof (push_chars_len 0 (utf8_chars s)). unfold MAX_FIELD_BYTES in *. lia.
  - apply negb_true_iff. destruct (utf8_chars s) as [|c cs] eqn:Hs; [done|].
    pose proof (proj1 (utf8_chars_whole s)) as Hw. rewrite Hs in Hw. simpl in *.
    destruct (any_control c) eqn:Ha; [by apply push_chars_whole|]. case_match; [done|].
    destruct (push_chars_whole (0 + str_len c) cs Hw). by apply any_control_app.
Qed.

Section Captured.
Context {E : PlanEncoding}.

(** A SHA-256 digest in hexadecimal is 64 printable characters. *)
Definition hex_digests : Prop :=
  ∀ s, (String.length (sha256_hex s) = 64)%nat ∧ all_bytes is_ascii_hexdigit (sha256_hex s) = true.

Lemma hex_no_control s : all_bytes is_ascii_hexdigit s = true → any_control s = false ∧ starts_inside s = false.
Proof.
  induction s as [|c s IH]; [done|]. simpl. intros [Hc Hs]%andb_true_iff. destruct (IH Hs) as [Ha Hi].
  assert (is_control c = false ∧ continuation_byte c = false ∧ byte_of c ≠ 194) as (-> & -> & Hn).
  { revert Hc. unfold is_ascii_hexdigit, is_ascii_digit, is_control, continuation_byte, byte_of, nat_of_ascii.
    rewrite N_nat_Z. set (z := Z.of_N _). intros H.
    repeat split; lia. }
  rewrite Ha. split; [|done]. simpl. destruct s; [done|]. by rewrite (proj2 (Z.eqb_neq _ _) Hn).
Qed.

(** Whatever is captured, the stored fields are at most [MAX_FIELD_BYTES]
    long and free of control characters, and an identity that is storable is
    kept as it is. *)
Lemma capture_within_bounds version c :
  hex_digests →
  within_bounds (capture version c) = true
  ∧ (field_within_bounds (cap_id c) = true → fo_id (capture version c) = cap_id c).
Proof.
  intros Hex. unfold capture. cbv zeta.
  assert (Hid : field_within_bounds (bounded_identity (cap_id c)) = true).
  { unfold bounded_identity. destruct (field_within_bounds (cap_id c)) eqn:Hf; [done|].
    destruct (Hex (cap_id c)) as [Hl Hh]. destruct (hex_no_control _ Hh) as [Ha Hi].
    unfold field_within_bounds, str_len. rewrite string_app_length, Hl, any_control_app by done. done. }
  destruct ((_ || _) && within_bounds _) eqn:Hw.
  - apply andb_true_iff in Hw as [_ Hw]. by split.
  - split; [|by simpl; unfold bounded_identity; intros ->].
    unfold within_bounds. simpl. by rewrite Hid, !bounded_within.
Qed.
End Captured.

Module OutcomeExamples.
(** A long identity becomes a digest; a control character is dropped from
    other fields. *)
Example bounded_drops_controls :
  bounded (String (ascii_of_nat 194) (String (ascii_of_nat 133) "a") +:+ String (ascii_of_nat 10) "b") = "ab".
Proof. reflexivity. Qed.

Example skipped_is_no_outcome :
  classify_outcome Upgrade (ByRuntime false RUNTIME_SKIPPED_DETAIL) = None
  ∧ classify_outcome Upgrade (ByRuntime false "executor returned a non-success status") = Some DeploymentFailed.
Proof. by split. Qed.
End OutcomeExamples.
