(* ===== verification/ExecutionLease.v ===== *)
(** * The execution lease of an environment

    [apply/execution_lease.rs]: who may work in an environment.  The lease
    row of [Leases] is authoritative; an object and a link beside it keep
    older controllers out.  [runtime_credentials.rs]: the marker that hands an
    environment to its runtime.  The operations are programs over the calls
    they make of the store. *)

From S2P Require Import Prelude RustStr Kinds Facts Compatibility Contracts Plan ObjectStore Leases Effects.

(** ** Records *)

Definition legacy_environment_claim_id (environment : string) : string := env_id environment +:+ ":execution".
Definition object_environment_claim_id (environment : string) : string := env_id environment +:+ ":execution:v2".
Definition package_migration_lock_id (environment : string) : string :=
  "tenkai:package-migration-lock:" +:+ environment.
Definition marker_id (environment : string) : string := "tenkai:runtime-enrollment:" +:+ environment.

Definition ENVIRONMENT_LEASE_MS : Z := 2 * 60 * 60 * 1000.
Definition EXECUTION_LEASE_MS : Z := 30000.
Definition MANUAL_UNLOCK_LEASE_MS : Z := 5000.
Definition KIND_ENVIRONMENT_EXECUTION : string := "tenkai.environment_execution".
Definition KIND_RUNTIME_ENROLLMENT : string := "tenkai.runtime_enrollment".

Record EnvironmentLease := {
  el_environment : string; el_owner : string; el_generation : Z; el_token : string; el_ttl_ms : Z;
  took_over : bool
}.

Definition lease_record (id kind name : string) (ps : gmap string string) (now : Z) : Object := {|
  object_id := id; object_kind := kind; object_name := name; object_namespace := NS; external_id := "";
  properties := ps; created := now; updated := now |}.

Definition object_environment_claim (environment claimant : string) (expires now : Z) : Object :=
  lease_record (object_environment_claim_id environment) KIND_ENVIRONMENT_EXECUTION
    ("apply lease for " +:+ environment)
    (list_to_map [("environment", environment); ("owner", claimant); ("expires_at", pretty expires)]) now.

Definition with_property (o : Object) (key value : string) : Object := {|
  object_id := object_id o; object_kind := object_kind o; object_name := object_name o;
  object_namespace := object_namespace o; external_id := external_id o;
  properties := <[key := value]> (properties o); created := created o; updated := updated o |}.

Definition object_environment_claim_for_lease (lease : EnvironmentLease) (expires now : Z) : Object :=
  with_property (object_environment_claim (el_environment lease) (el_owner lease) expires now)
    "generation" (pretty (el_generation lease)).

(** A claim object marked as free. *)
Definition released_claim (o : Object) (now : Z) : Object :=
  let o := with_property (with_property o "owner" "released") "expires_at" "0" in {|
  object_id := object_id o; object_kind := object_kind o; object_name := object_name o;
  object_namespace := object_namespace o; external_id := external_id o;
  properties := properties o; created := created o; updated := now |}.

Inductive handoff_error :=
| StoreDown (text : string)
| LeaseRefused (error : lease_error)
| ClockUntrusted
| RetiredNoLease (environment : string)
| MigrationInProgress (lock_owner : string)
| LegacyClaimExpired (environment : string)
| LegacyClaimInProgress (environment : string)
| ApplyInProgress (environment : string) (holder : option string)
| ObjectClaimWithoutLease (environment : string)
| ClaimObjectDisappeared
| ClaimHasNoOwner
| ExpiredNeedsUnlock (environment : string)
| LeaseExists
| ObjectIdentityFailed (text : string)
| RuntimeManaged (environment : string)
| NothingRefreshed
| DifferentGeneration
| FenceLost (cause : handoff_error)
| InvalidEnvironment (environment : string)
| Unexpired (environment holder : string) (expires : Z).

(** How creating a record that must be new ended. *)
Inductive create_answer := Created | UniqueConflict | RetiredIdentity | CreateFailed (text : string).

Inductive acquire_failure := HeldAlready | AcquireFailed (error : handoff_error).

Inductive lease_effect : Type → Type :=
| LeaseNow : lease_effect Z
(** [clock_guard::require_trusted_time]. *)
| TrustedTime : lease_effect bool
| ReadObject (id : string) : lease_effect (result (option Object) handoff_error)
| CreateOnce (o : Object) : lease_effect create_answer
| PutObject (o : Object) : lease_effect (result unit handoff_error)
| DeleteObject (id : string) : lease_effect (result unit handoff_error)
(** The targets of the environment's links of that relation. *)
| ReadLinks (environment : string) : lease_effect (result (list string) handoff_error)
| LinkOnce (environment : string) : lease_effect create_answer
| Unlink (environment : string) : lease_effect (result unit handoff_error)
| ReadLease (environment : string) : lease_effect (result (option Lease) handoff_error)
| AcquireLease (environment holder : string) (ttl_ms : Z) : lease_effect (result Lease acquire_failure)
| TakeoverLease (environment holder expected : string) (expires ttl_ms : Z) : lease_effect (result Lease handoff_error)
| ReleaseLease (environment token : string) : lease_effect (result unit handoff_error)
| GuardedUpdate (o : Object) (environment token : string) : lease_effect (result unit handoff_error)
(** [refresh_leases_and_guarded_put]. *)
| RefreshLeases (refreshes : list LeaseRefresh) (claim : Object) (environment token : string) :
    lease_effect (result (list Lease) handoff_error)
(** A fresh identity. *)
| FreshUuid : lease_effect string.

Notation lease_prog A := (prog lease_effect (result A handoff_error)).

(** ** Claiming *)

Definition is_active_row (l : Lease) : bool := bool_decide (lease_status l = "active").

Definition expired_active (now : Z) (l : Lease) : bool := is_active_row l && (expires_at_ms l <=? now).

(** [environment::environment_retirement]. *)
Definition environment_retired (environment : string) : lease_prog bool :=
  do? o := perform (ReadObject (env_id environment)) in
  Ret (Ok (is_some_and o (λ o, bool_decide (object_kind o = KIND_ENVIRONMENT) && is_retired_object o))).

Definition reject_foreign_migration_lock (environment claimant : string) : lease_prog unit :=
  do? lock := perform (ReadObject (package_migration_lock_id environment)) in
  Ret (match lock with
       | None => Ok tt
       | Some lock =>
         let lock_owner := default "" (properties lock !! "owner") in
         let allowed_plan := default "" (properties lock !! "allowed_plan_id") in
         bail_if negb (bool_decide (claimant = allowed_plan))
                 && negb (bool_decide (claimant = "package-migration:" +:+ lock_owner))
           with (MigrationInProgress lock_owner) in
         Ok tt
       end).

(** Whether the environment's link to its claim object exists. *)
Definition has_object_claim (environment : string) : lease_prog bool :=
  do? targets := perform (ReadLinks environment) in
  Ret (Ok (existsb (λ t, bool_decide (t = object_environment_claim_id environment)) targets)).

(** A claim object is in the way when no lease explains it. *)
Definition check_object_claim (environment : string) (now : Z) : lease_prog unit :=
  do? existing := perform (ReadLease environment) in
  let unexplained :=
    do? claim := perform (ReadObject (object_environment_claim_id environment)) in
    Ret (let? claim := ok_or claim ClaimObjectDisappeared in
         bail_if negb (bool_decide (properties claim !! "owner" = Some "released"))
           with (ObjectClaimWithoutLease environment) in
         Ok tt) in
  match existing with
  | Some l =>
    if is_active_row l then
      Ret (if now <? expires_at_ms l then Err (ApplyInProgress environment (Some (owner l))) else Ok tt)
    else unexplained
  | None => unexplained
  end.

(** A lease that was acquired but cannot be used is given back. *)
Definition abandon {A} (environment token : string) (e : handoff_error) : lease_prog A :=
  do _ := perform (ReleaseLease environment token) in Ret (Err e).

Definition acquire_or_take_over (environment claimant : string) (ttl_ms now : Z) (automatic_takeover : bool) :
    lease_prog (Lease * bool) :=
  do? row := perform (ReadLease environment) in
  let expired_holder := is_some_and row (expired_active now) in
  do? _ := (if negb automatic_takeover then
              do? row := perform (ReadLease environment) in
              Ret (if is_some_and row (expired_active now) then Err (ExpiredNeedsUnlock environment) else Ok tt)
            else Ret (Ok tt)) in
  do acquired := perform (AcquireLease environment claimant ttl_ms) in
  match acquired with
  | Ok l => Ret (Ok (l, expired_holder))
  | Err HeldAlready =>
    do? existing := perform (ReadLease environment) in
    match existing with
    | None => Ret (Err LeaseExists)
    | Some l =>
      if expired_active now l then
        if negb automatic_takeover then Ret (Err (ExpiredNeedsUnlock environment))
        else
          do? taken := perform (TakeoverLease environment claimant (fencing_token l) (expires_at_ms l) ttl_ms) in
          Ret (Ok (taken, true))
      else Ret (Err (ApplyInProgress environment (Some (owner l))))
    end
  | Err (AcquireFailed e) => Ret (Err e)
  end.

(** The object and the link that keep older controllers out. *)
Definition publish_claim (lease : EnvironmentLease) (claimant : string) (expires : Z) (linked : bool) :
    lease_prog EnvironmentLease :=
  let environment := el_environment lease in
  let token := el_token lease in
  do t := perform LeaseNow in
  do created := perform (CreateOnce (object_environment_claim environment "released" 0 t)) in
  match created with
  | CreateFailed text => abandon environment token (ObjectIdentityFailed text)
  | Created | UniqueConflict | RetiredIdentity =>
    do link := (if linked then Ret Created else perform (LinkOnce environment)) in
    match link with
    | UniqueConflict => abandon environment token (ApplyInProgress environment None)
    | RetiredIdentity => abandon environment token (ObjectIdentityFailed "object IDs with audit history")
    | CreateFailed text => abandon environment token (ObjectIdentityFailed text)
    | Created =>
      do t := perform LeaseNow in
      do updated := perform (GuardedUpdate (object_environment_claim_for_lease lease expires t) environment token) in
      match updated with
      | Err e => abandon environment token e
      | Ok _ =>
        do locked := reject_foreign_migration_lock environment claimant in
        match locked with
        | Err e => abandon environment token e
        | Ok _ => Ret (Ok lease)
        end
      end
    end
  end.

Definition claim_environment_with_options (environment claimant : string) (ttl_ms : Z) (automatic_takeover : bool) :
    lease_prog EnvironmentLease :=
  do trusted := perform TrustedTime in
  if negb trusted then Ret (Err ClockUntrusted)
  else
    do now := perform LeaseNow in
    do? retired := environment_retired environment in
    if retired : bool then Ret (Err (RetiredNoLease environment))
    else
      do? _ := reject_foreign_migration_lock environment claimant in
      do? legacy := perform (ReadObject (legacy_environment_claim_id environment)) in
      match legacy with
      | Some existing =>
        let expires := default i64_max (properties existing !! "expires_at" ≫= parse_i64) in
        Ret (Err (if expires <=? now then LegacyClaimExpired environment else LegacyClaimInProgress environment))
      | None =>
        do? linked := has_object_claim environment in
        do? _ := (if linked : bool then check_object_claim environment now else Ret (Ok tt)) in
        do? acquired := acquire_or_take_over environment claimant ttl_ms now automatic_takeover in
        let '(l, taken) := acquired in
        publish_claim {| el_environment := environment; el_owner := claimant; el_generation := generation l;
                         el_token := fencing_token l; el_ttl_ms := ttl_ms; took_over := taken |}
          claimant (expires_at_ms l) linked
      end.

Definition claim_environment (environment claimant : string) : lease_prog EnvironmentLease :=
  claim_environment_with_options environment claimant ENVIRONMENT_LEASE_MS false.

Definition claim_environment_for_drill (environment claimant : string) : lease_prog EnvironmentLease :=
  do now := perform LeaseNow in
  do? existing := perform (ReadLease environment) in
  claim_environment_with_options environment claimant ENVIRONMENT_LEASE_MS
    (is_some_and existing (λ l, expired_active now l && starts_with "drill:" (owner l))).

(** ** Releasing *)

Definition mark_object_environment_claim_released (lease : EnvironmentLease) : lease_prog unit :=
  do? claim := perform (ReadObject (object_environment_claim_id (el_environment lease))) in
  match claim with
  | None => Ret (Err ClaimObjectDisappeared)
  | Some claim =>
    do t := perform LeaseNow in
    perform (GuardedUpdate (released_claim claim t) (el_environment lease) (el_token lease))
  end.

Definition release_environment (lease : EnvironmentLease) : lease_prog unit :=
  do? _ := mark_object_environment_claim_released lease in
  perform (ReleaseLease (el_environment lease) (el_token lease)).

Definition release_environment_fence (environment token : string) : lease_prog unit :=
  release_environment {| el_environment := environment; el_owner := "released"; el_generation := 0;
                         el_token := token; el_ttl_ms := 0; took_over := false |}.

(** ** Executing plans on the server *)

(** [runtime_credentials::runtime_managed]. *)
Definition ask_runtime_managed (environment : string) : lease_prog bool :=
  do? marker := perform (ReadObject (marker_id environment)) in Ret (Ok (is_some_b marker)).

Definition claim_execution_environment (environment claimant : string) : lease_prog EnvironmentLease :=
  do? lease := claim_environment_with_options environment claimant EXECUTION_LEASE_MS true in
  do delegated := ask_runtime_managed environment in
  match delegated with
  | Ok false => Ret (Ok lease)
  | _ =>
    do? _ := release_environment lease in
    Ret (let? _ := delegated in Err (RuntimeManaged environment))
  end.

(** [runtime_credentials::mark_runtime_managed]. *)
Definition mark_runtime_managed (environment : string) : lease_prog unit :=
  do now := perform LeaseNow in
  do created := perform (CreateOnce (lease_record (marker_id environment) KIND_RUNTIME_ENROLLMENT
    (environment +:+ " runtime enrollment") {["environment" := environment]} now)) in
  Ret (match created with
       | Created | UniqueConflict => Ok tt
       | RetiredIdentity => Err (ObjectIdentityFailed "object IDs with audit history")
       | CreateFailed text => Err (ObjectIdentityFailed text)
       end).

(** ** Renewing *)

(** [HeldExecutionLease]: a wave or topology lease held meanwhile. *)
Record HeldExecutionLease := {
  held_namespace : string; held_key : string; held_token : string; held_ttl_ms : Z; held_expires_at_ms : Z
}.

Definition due_for_refresh (h : HeldExecutionLease) (now : Z) : bool :=
  (held_expires_at_ms h =? 0) || (i64_saturating_sub (held_expires_at_ms h) now <? Z.quot (held_ttl_ms h) 3).

Definition held_refresh (now : Z) (h : HeldExecutionLease) : LeaseRefresh := {|
  refresh_namespace := held_namespace h; refresh_key := held_key h; refresh_token := held_token h;
  refresh_ttl_ms := held_ttl_ms h; extend := due_for_refresh h now |}.

Definition held_until (h : HeldExecutionLease) (l : Lease) : HeldExecutionLease := {|
  held_namespace := held_namespace h; held_key := held_key h; held_token := held_token h;
  held_ttl_ms := held_ttl_ms h; held_expires_at_ms := expires_at_ms l |}.

(** [map_held_lease_error], without the name of the lease that was lost. *)
Definition map_held_lease_error (held : list HeldExecutionLease) (e : handoff_error) : handoff_error :=
  match held with [] => e | _ => FenceLost e end.

(** [refresh_environment_lease]: the leases held as they are now known. *)
Definition refresh_environment_lease (held : list HeldExecutionLease) (lease : EnvironmentLease) :
    lease_prog (list HeldExecutionLease) :=
  do now := perform LeaseNow in
  let refreshes := map (held_refresh now) held ++ [{|
    refresh_namespace := ENVIRONMENT_LEASE_NAMESPACE; refresh_key := el_environment lease;
    refresh_token := el_token lease; refresh_ttl_ms := el_ttl_ms lease; extend := true |}] in
  do t := perform LeaseNow in
  let claim := object_environment_claim_for_lease lease (i64_saturating_add now (el_ttl_ms lease)) t in
  do answer := perform (RefreshLeases refreshes claim (el_environment lease) (el_token lease)) in
  Ret (match answer with
       | Err e => Err (map_held_lease_error held e)
       | Ok refreshed =>
         match last refreshed with
         | None => Err NothingRefreshed
         | Some l =>
           bail_if negb (generation l =? el_generation lease) || negb (bool_decide (owner l = el_owner lease))
             with DifferentGeneration in
           Ok (zip_with held_until held refreshed ++ drop (length refreshed) held)
         end
       end).

(** ** Who is working *)

(** [environment_lease_status]: the owner of what is held. *)
Definition environment_lease_status (environment : string) : lease_prog (option string) :=
  do? legacy := perform (ReadObject (legacy_environment_claim_id environment)) in
  match legacy with
  | Some lease => Ret (let? o := ok_or (properties lease !! "owner") ClaimHasNoOwner in Ok (Some o))
  | None =>
    do? linked := has_object_claim environment in
    if linked : bool then
      do? claim := perform (ReadObject (object_environment_claim_id environment)) in
      match claim with
      | None => Ret (Err ClaimObjectDisappeared)
      | Some claim =>
        match properties claim !! "owner" with
        | None => Ret (Err ClaimHasNoOwner)
        | Some o =>
          if negb (bool_decide (o = "released")) then Ret (Ok (Some o))
          else
            do? active := perform (ReadLease environment) in
            Ret (Ok (match active with
                     | Some l => if is_active_row l then Some (owner l) else None
                     | None => None
                     end))
        end
      end
    else
      do? active := perform (ReadLease environment) in
      Ret (Ok (match active with
               | Some l => if is_active_row l then Some (owner l) else None
               | None => None
               end))
  end.

Record EnvironmentLeaseInspect := {
  inspect_held : bool; inspect_owner : option string; inspect_generation : option Z;
  inspect_expires : option Z; inspect_status : string
}.

Definition inspect_environment_lease (environment : string) : lease_prog EnvironmentLeaseInspect :=
  if negb (valid_identifier environment) then Ret (Err (InvalidEnvironment environment))
  else
    do? row := perform (ReadLease environment) in
    match row with
    | Some l => Ret (Ok {| inspect_held := is_active_row l; inspect_owner := Some (owner l);
                           inspect_generation := Some (generation l); inspect_expires := Some (expires_at_ms l);
                           inspect_status := lease_status l |})
    | None =>
      do? status := environment_lease_status environment in
      Ret (Ok (match status with
        | Some o => {| inspect_held := true; inspect_owner := Some o; inspect_generation := None;
                       inspect_expires := None; inspect_status := "active" |}
        | None => {| inspect_held := false; inspect_owner := None; inspect_generation := None;
                     inspect_expires := None; inspect_status := "absent" |}
        end))
    end.

Definition runtime_may_take_over (environment : string) : lease_prog bool :=
  do? status := environment_lease_status environment in
  match status with
  | None => Ret (Ok true)
  | Some _ =>
    do? legacy := perform (ReadObject (legacy_environment_claim_id environment)) in
    if is_some_b legacy then Ret (Ok false)
    else
      do? row := perform (ReadLease environment) in
      match row with
      | None => Ret (Ok false)
      | Some l =>
        if negb (is_active_row l) then Ret (Ok false)
        else
          do now := perform LeaseNow in
          if now <? expires_at_ms l then Ret (Ok false)
          else
            do? lease := claim_environment_with_options environment "runtime-handoff" ENVIRONMENT_LEASE_MS true in
            do? _ := release_environment lease in
            Ret (Ok true)
      end
  end.

(** ** Unlocking *)

Definition release_object_environment_claim (environment : string) : lease_prog unit :=
  do? existing := perform (ReadObject (object_environment_claim_id environment)) in
  do? _ := match existing with
    | Some o => do t := perform LeaseNow in perform (PutObject (released_claim o t))
    | None => Ret (Ok tt)
    end in
  perform (Unlink environment).

Inductive Unlocked := RemovedLegacy | RemovedObjectClaim | NoApplyLease | RemovedLease.

Definition unlock_environment (environment : string) : lease_prog Unlocked :=
  if negb (valid_identifier environment) then Ret (Err (InvalidEnvironment environment))
  else
    do? legacy := perform (ReadObject (legacy_environment_claim_id environment)) in
    if is_some_b legacy then
      do? _ := perform (DeleteObject (legacy_environment_claim_id environment)) in Ret (Ok RemovedLegacy)
    else
      do? claim := perform (ReadObject (object_environment_claim_id environment)) in
      do? linked := (if is_some_b claim then has_object_claim environment else Ret (Ok false)) in
      do? unexplained := (if linked : bool then
                            do? row := perform (ReadLease environment) in
                            Ret (Ok (negb (is_some_and row is_active_row)))
                          else Ret (Ok false)) in
      if unexplained : bool then
        do? _ := release_object_environment_claim environment in Ret (Ok RemovedObjectClaim)
      else
        do? row := perform (ReadLease environment) in
        match row with
        | None => Ret (Ok NoApplyLease)
        | Some l =>
          if negb (is_active_row l) then Ret (Ok NoApplyLease)
          else
            do now := perform LeaseNow in
            if now <? expires_at_ms l then Ret (Err (Unexpired environment (owner l) (expires_at_ms l)))
            else
              do uuid := perform FreshUuid in
              do? taken := perform (TakeoverLease environment ("manual-unlock:" +:+ uuid) (fencing_token l)
                             (expires_at_ms l) MANUAL_UNLOCK_LEASE_MS) in
              do? _ := perform (ReleaseLease environment (fencing_token taken)) in
              do? _ := (if linked : bool then release_object_environment_claim environment else Ret (Ok tt)) in
              Ret (Ok RemovedLease)
        end.
