(* ===== verification/RuntimeCompletion.v ===== *)
(** * Recording what a runtime completed

    [complete_runtime_work] and [validate_runtime_completion] of
    [runtime_delivery.rs]: a runtime's receipts become the plan's terminal
    state, the environment's deployment records and held failed targets, and
    one observation per finished step.  The store is passed along; the clock
    readings and the answer of [environment_lease_status] are arguments. *)

From S2P Require Import Prelude RustStr Semver Kinds Facts Compatibility Contracts Plan ObjectStore Approvals HostState Catalog Holds Convergence Deployments Outcomes ExecutionLease.

Record RuntimeStepReceipt := { receipt_step_id : string; receipt_succeeded : bool; receipt_detail : string }.

Record RuntimeCompletion := {
  completion_plan_id : string; completion_generation : Z; completion_succeeded : bool;
  completion_detail : string; receipts : list RuntimeStepReceipt
}.

Inductive completion_error :=
| CompletionPlan (error : plan_error)
| ForeignPlan (plan belongs_to environment : string)
| ReceiptsNotExact
| FailedReceiptInSuccess
| ConflictsWithTerminal
| RuntimePlanNotExecutable
| LeaseUnreadable (error : handoff_error)
| EnvironmentBusy (environment : string)
| EnvironmentDisappeared (environment : string)
| DeploymentsRefused (error : planning_error)
| OutcomeRefused (text : string).

(** The objects, and the tables observations and export events go to. *)
Record RuntimeDb := {
  rdb_ctx : Ctx; rdb_observations : list FeedbackObservation; rdb_events : list string
}.

Definition rdb_plans (db : RuntimeDb) : Store := objects (rdb_ctx db).

Definition with_objects (db : RuntimeDb) (o : Store) : RuntimeDb := {|
  rdb_ctx := {| objects := o; catalog_links := catalog_links (rdb_ctx db) |};
  rdb_observations := rdb_observations db; rdb_events := rdb_events db |}.

Definition completion_state (c : RuntimeCompletion) : PlanState :=
  if completion_succeeded c then Succeeded else Failed.

Definition receipt_of (c : RuntimeCompletion) (s : Step) : option RuntimeStepReceipt :=
  find_first (λ r, bool_decide (receipt_step_id r = step_id s)) (receipts c).

(** What the receipt of a step proves, if it proves anything. *)
Definition terminal_receipt (c : RuntimeCompletion) (s : Step) : option (RuntimeStepReceipt * TerminalOutcomeState) :=
  r ← receipt_of c s;
  o ← classify_outcome (step_action s) (ByRuntime (receipt_succeeded r) (receipt_detail r));
  Some (r, o).

(** How the parts outside this component come in: the record an outcome
    provider is sent ([providers::terminal_outcome_record]). *)
Class OutcomeRecords := {
  terminal_outcome_record : Plan → Step → string → TerminalOutcomeState → Object → Z → result string string
}.

Section Completing.
Context {E : PlanEncoding} {SV : Semver} {MF : ManifestFormat} {HO : HashOrder} {PS : PlanningServices}
        {OR : OutcomeRecords}.

Definition validate_runtime_completion (db : Store) (environment : string) (c : RuntimeCompletion) :
    result Plan completion_error :=
  let? stored := map_err CompletionPlan (load db (completion_plan_id c)) in
  bail_if negb (bool_decide (plan_environment stored = environment))
    with (ForeignPlan (completion_plan_id c) (plan_environment stored) environment) in
  let expected : gset string := list_to_set (map step_id (steps stored)) in
  let received : gset string := list_to_set (map receipt_step_id (receipts c)) in
  bail_if negb (bool_decide (expected = received) && (size received =? length (receipts c))%nat)
    with ReceiptsNotExact in
  bail_if completion_succeeded c && negb (forallb receipt_succeeded (receipts c))
    with FailedReceiptInSuccess in
  if terminal (plan_state stored) then
    bail_if negb (bool_decide (plan_state stored = completion_state c)) with ConflictsWithTerminal in
    Ok stored
  else
    bail_if negb (bool_decide (plan_state stored = Computed) || bool_decide (plan_state stored = Running))
      with RuntimePlanNotExecutable in
    Ok stored.

(** The held failed targets after one step. *)
Definition settle_failed_target (plan : string) (observed_at : Z) (c : RuntimeCompletion) (ps : props) (s : Step) :
    props :=
  match terminal_receipt c s with
  | None => ps
  | Some (r, _) =>
    let key := failed_target_key (step_product s) in
    if negb (receipt_succeeded r) && negb (bool_decide (step_action s = Rollback)) then
      record_failed_target_error (step_product s) (step_release_id s) (receipt_detail r)
        (<["failed_target_at." +:+ step_product s := pretty observed_at]>
           (<["failed_target_plan." +:+ step_product s := plan]>
              (<[key := step_release_id s]> ps)))
    else if receipt_succeeded r && bool_decide (ps !! key = Some (step_release_id s)) then
      delete ("failed_target_plan." +:+ step_product s) (delete key ps)
    else ps
  end.

(** The steps whose deployments are recorded. *)
Definition recorded_steps (c : RuntimeCompletion) (l : list Step) : list Step :=
  if completion_succeeded c then l
  else filter (λ s, existsb (λ r, bool_decide (receipt_step_id r = step_id s) && receipt_succeeded r) (receipts c) = true) l.

(** The environment's object after the completion. *)
Definition completed_environment (ctx : Ctx) (environment : string) (p : Plan) (c : RuntimeCompletion) (observed_at : Z) :
    result Object completion_error :=
  let? o := ok_or (ctx_get ctx (env_id environment)) (EnvironmentDisappeared environment) in
  let run := recorded_steps c (steps p) in
  let? ps := map_err DeploymentsRefused (update_runtime_deployments ctx run (properties o)) in
  let ps := foldl (settle_failed_target (plan_id_of p) observed_at c) ps (steps p) in
  Ok (set_properties o ps (match run with [] => updated o | _ => observed_at end)).

Definition delivery_id (p : Plan) (c : RuntimeCompletion) (s : Step) : string :=
  "tenkai:runtime-deployment:" +:+ plan_id_of p +:+ ":" +:+ pretty (completion_generation c) +:+ ":" +:+ step_id s.

Definition outcome_events (p : Plan) (c : RuntimeCompletion) (environment : Object) (observed_at : Z) :
    result (list string) completion_error :=
  try_fold (λ acc s,
    match terminal_receipt c s with
    | None => Ok acc
    | Some (_, state) =>
      let? e := map_err OutcomeRefused
        (terminal_outcome_record p s (delivery_id p c s) state environment observed_at) in
      Ok (acc ++ [e])
    end) [] (steps p).

Definition step_observation (version environment : string) (before : option Object) (p : Plan) (c : RuntimeCompletion)
    (observed_at : Z) (s : Step) : option FeedbackObservation :=
  '(r, _) ← terminal_receipt c s;
  Some (capture version {|
    cap_id := delivery_id p c s; cap_operation := RuntimeCompletionOperation; cap_environment := environment;
    cap_product := step_product s; cap_plan_id := plan_id_of p; cap_step_id := step_id s;
    cap_action := Some (step_action s); cap_release_id := step_release_id s;
    cap_status := if receipt_succeeded r then "succeeded" else "failed";
    cap_reason := runtime_reason (receipt_succeeded r); cap_started_at_ms := None;
    cap_lease_generation := completion_generation c; cap_observed_at_ms := observed_at;
    cap_context := {|
      takeover := false; runtime_claim_generation := Some (completion_generation c);
      failed_target_retry :=
        bool_decide ((o ← before; properties o !! failed_target_key (step_product s)) = Some (step_release_id s));
      recovery_reason := recalled_recovery_reason p |} |}).

(** The clock readings of one completion: of the transition to running, of
    the outcome, and of the last write. *)
Record CompletionClock := { running_at : Z; observed_at : Z; written_at : Z }.

Definition CLAIMED_DETAIL : string := "claimed by assigned environment runtime".

(** [complete_runtime_work], with the version the server was built as,
    whether its store is embedded and whether outcomes are exported. *)
Definition complete_runtime_work (version : string) (embedded exports : bool)
    (lease_status : result (option string) handoff_error) (clock : CompletionClock)
    (environment : string) (c : RuntimeCompletion) (db : RuntimeDb) : result unit completion_error * RuntimeDb :=
  match validate_runtime_completion (rdb_plans db) environment c with
  | Err e => (Err e, db)
  | Ok stored =>
    if terminal (plan_state stored) then (Ok tt, db)
    else
      let '(p, o, moved) :=
        if bool_decide (plan_state stored = Computed)
        then transition (rdb_plans db) (running_at clock) stored (Transition_new Running CLAIMED_DETAIL) Standard
        else (stored, rdb_plans db, Ok tt) in
      let db := with_objects db o in
      match moved with
      | Err e => (Err (CompletionPlan e), db)
      | Ok _ =>
        match lease_status with
        | Err e => (Err (LeaseUnreadable e), db)
        | Ok (Some _) => (Err (EnvironmentBusy environment), db)
        | Ok None =>
          let before := ctx_get (rdb_ctx db) (env_id environment) in
          match completed_environment (rdb_ctx db) environment p c (observed_at clock) with
          | Err e => (Err e, db)
          | Ok env' =>
            match (if exports then outcome_events p c env' (observed_at clock) else Ok []) with
            | Err e => (Err e, db)
            | Ok events =>
              let observations := omap (step_observation version environment before p c (observed_at clock)) (steps p) in
              let final := Transition_new (completion_state c) (completion_detail c) in
              if embedded then
                let '(_, o, ended) := transition (rdb_plans db) (written_at clock) p final (WithEnvironment env') in
                match ended with
                | Err e => (Err (CompletionPlan e), with_objects db o)
                | Ok _ =>
                  (Ok tt, {| rdb_ctx := rdb_ctx (with_objects db o);
                             rdb_observations := observations ++ rdb_observations db;
                             rdb_events := events ++ rdb_events db |})
                end
              else
                let put := <[object_id env' := env']> (rdb_plans db) in
                let '(_, o, ended) := transition put (written_at clock) p final Standard in
                (map_err CompletionPlan ended, with_objects db o)
            end
          end
        end
      end
  end.
End Completing.

(** ** Receipts *)

Section Recorded.
Context {E : PlanEncoding} {L : PlanEncodingLaws E} {SV : Semver} {MF : ManifestFormat} {HO : HashOrder}
        {PS : PlanningServices} {OR : OutcomeRecords}.

Lemma wf_step_ids p : wf_plan p → NoDup (map step_id (steps p)).
Proof.
  intros Hw. apply NoDup_alt. intros i j x Hi Hj.
  apply list_lookup_fmap_Some_1 in Hi as (s & -> & Hi). apply list_lookup_fmap_Some_1 in Hj as (s' & Hs & Hj).
  apply (wf_steps p Hw) in Hi as [_ Hi]. apply (wf_steps p Hw) in Hj as [_ Hj].
  rewrite Hi, Hj in Hs. apply (inj (String.append _)) in Hs. apply (inj (String.append _)) in Hs.
  by apply (inj pretty) in Hs.
Qed.

(** What an accepted completion says: one receipt per step, no failed one
    in a success, and a plan it can still end or has ended. *)
Record completes (db : Store) (environment : string) (c : RuntimeCompletion) (p : Plan) : Prop := {
  cp_load : load db (completion_plan_id c) = Ok p;
  cp_environment : plan_environment p = environment;
  cp_receipts : map receipt_step_id (receipts c) ≡ₚ map step_id (steps p);
  cp_succeeded : completion_succeeded c = true → forallb receipt_succeeded (receipts c) = true;
  cp_state : (terminal (plan_state p) = true ∧ plan_state p = completion_state c)
             ∨ plan_state p = Computed ∨ plan_state p = Running
}.

Lemma parse_i64_bounds s z : parse_i64 s = Some z → i64_min ≤ z ≤ i64_max.
Proof.
  unfold parse_i64. destruct s as [|c s]; [done|]. case_decide.
  - destruct (str_is_empty s); [done|]. destruct (parse_digits _ _ s) as [d|] eqn:Hd; [|done].
    intros [= <-]. apply parse_digits_bounds in Hd; unfold i64_min, i64_max in *; lia.
  - intros Hz%parse_uint_bounds; unfold i64_min, i64_max in *; lia.
Qed.

Lemma load_wf db id p : load db id = Ok p → wf_plan p ∧ i64_min ≤ created_at p ≤ i64_max.
Proof.
  unfold load. intros (o & _ & H)%bind_ok. apply from_object_sound in H as [Hd Hw]. split; [done|].
  destruct Hd as [_ _ _ _ _ Hc _ _]. destruct (properties o !! "created_at") as [t|]; [|done].
  by apply parse_i64_bounds in Hc.
Qed.

Lemma validate_runtime_completion_ok db environment c p :
  validate_runtime_completion db environment c = Ok p → completes db environment c p.
Proof.
  unfold validate_runtime_completion. intros H. ok_inv H.
  apply andb_true_iff in Hg1 as [Hset%bool_decide_eq_true Hsize%Nat.eqb_eq].
  assert (x = p ∧ ((terminal (plan_state x) = true ∧ plan_state x = completion_state c)
                   ∨ plan_state x = Computed ∨ plan_state x = Running)) as [<- Hst].
  { destruct (terminal (plan_state x)); ok_inv H; simplify_eq; [by auto|].
    split; [done|]. right. by apply orb_true_iff in Hg1 as [?%bool_decide_eq_true|?%bool_decide_eq_true]; auto. }
  split; try done.
  - apply NoDup_Permutation; [|by apply wf_step_ids, (load_wf db (completion_plan_id c))|].
    + apply size_list_to_set_NoDup. by rewrite Hsize, length_map.
    + intros i. rewrite <- !(elem_of_list_to_set (C := gset string)). by rewrite Hset.
  - intros Hs. destruct Hg2 as [?|?]; congruence.
Qed.

(** ** The plan *)

(** What a write of a plan leaves under its id. *)
Lemma validated_plan_object_reads existing now q o :
  wf_plan q → i64_min ≤ created_at q ≤ i64_max → validated_plan_object existing now q = Ok o →
  object_id o = plan_id_of q ∧ from_object o = Ok q.
Proof.
  intros Hw Hc. unfold validated_plan_object. intros (_ & _ & [= <-])%bind_ok. split; [by destruct existing|].
  rewrite from_object_keep_overrides. by apply to_object_roundtrip.
Qed.

Lemma transition_written db now p t persistence p' db' :
  (∀ confirm write, persistence ≠ Guarded confirm write) → well_marked t → wf_plan p → i64_min ≤ created_at p ≤ i64_max →
  transition db now p t persistence = (p', db', Ok tt) →
  p' = Transition_apply t p ∧ ∃ o, object_id o = plan_id_of p ∧ from_object o = Ok p'
    ∧ db' = match persistence with
            | WithEnvironment env => <[object_id env := env]> (<[plan_id_of p := o]> db)
            | _ => <[plan_id_of p := o]> db
            end.
Proof.
  intros Hg Ht Hw Hc. assert (Hw' := Transition_apply_wf t p Ht Hw). unfold transition, store, store_with_environment.
  destruct persistence as [|env|confirm write]; [| |by destruct (Hg confirm write)];
    destruct (validated_plan_object _ _ _) as [o|e] eqn:Ho; simpl; intros [= <- <-]; (split; [done|]);
    apply validated_plan_object_reads in Ho as [Hid Hf]; try done; exists o; by rewrite Hid.
Qed.

(** ** The environment's records *)

(** A version that is replaced by another is the one to roll back to. *)
Definition runtime_transition (s : Step) : DeploymentTransition :=
  Deployed (step_to s) (match step_from s with Some f => if decide (f ≠ step_to s) then Some f else None | None => None end).

Definition report_step (instance : string) (r : option string * option string * option string * option string)
    (s : Step) : option string * option string * option string * option string :=
  if decide (instance = step_instance_name s) then transitioned (step_product s) (runtime_transition s) r else r.

Lemma instance_key s : valid_identifier (step_product s) = true →
  deployment_key (step_product s) (step_instance_name s) = step_instance_name s.
Proof.
  intros Hv. unfold deployment_key. destruct (str_is_empty (step_instance_name s)) eqn:He; [|done].
  unfold step_instance_name in *. destruct (str_is_empty (step_instance s)) eqn:Hi; [done|congruence].
Qed.

Lemma recorded_runtime ctx ps s ps' instance :
  update_runtime_deployment ctx ps s = Ok ps' → recorded ps' instance = report_step instance (recorded ps instance) s.
Proof.
  unfold update_runtime_deployment, update_reconciled_deployment. intros H. ok_inv H.
  rewrite instance_key in * by done. ok_inv Hg0. simplify_eq. ok_inv Hg1. simplify_eq.
  apply (recorded_stamp _ _ _ _ instance) in Hg2. rewrite recorded_overlays, recorded_error in Hg2.
  unfold report_step, runtime_transition. set (k := step_instance_name s) in *.
  assert (Hbase : ∀ v r, r = recorded (match v with Some v => <["deployed_prev." +:+ k := v]> | None => id end
                             (clear_unknown_origin k (delete ("deployed_prev." +:+ k) x1))) instance →
    (instance = k → r = (Some (step_to s), Some (release_id (step_product s) (step_to s)), v, Some "healthy"))
    ∧ (instance ≠ k → r = recorded ps instance)).
  { intros v r ->. unfold recorded, clear_unknown_origin in *. injection Hg2 as Hd Hr Hp Hh.
    split; intros Hi; [subst instance|]; destruct v; unfold id; revert Hd Hr Hp Hh; read_through; intros; congruence. }
  unfold transitioned. case_decide as Hi.
  - subst instance. unfold recorded at 2.
    destruct (step_from s) as [f|]; [destruct (decide (f ≠ step_to s))|]; simpl;
      [|destruct (ps !! ("deployed_prev." +:+ k)) as [kept|]..];
      first [ exact (proj1 (Hbase (Some f) _ eq_refl) eq_refl) | exact (proj1 (Hbase (Some kept) _ eq_refl) eq_refl)
            | exact (proj1 (Hbase None _ eq_refl) eq_refl) ].
  - destruct (step_from s) as [f|]; [destruct (decide (f ≠ step_to s))|];
      [|destruct (ps !! ("deployed_prev." +:+ k)) as [kept|]..];
      first [ exact (proj2 (Hbase (Some f) _ eq_refl) Hi) | exact (proj2 (Hbase (Some kept) _ eq_refl) Hi)
            | exact (proj2 (Hbase None _ eq_refl) Hi) ].
Qed.

Lemma recorded_runtimes ctx l ps ps' instance :
  update_runtime_deployments ctx l ps = Ok ps' →
  recorded ps' instance = foldl (report_step instance) (recorded ps instance) l.
Proof.
  revert ps. induction l as [|s l IH]; intros ps; [by intros [= <-]|]. simpl.
  intros (ps1 & H1%(recorded_runtime _ _ _ _ instance) & H)%bind_ok. rewrite <- H1. by apply IH.
Qed.

Lemma recorded_settled plan at_ms c ps s instance :
  recorded (settle_failed_target plan at_ms c ps s) instance = recorded ps instance.
Proof.
  unfold settle_failed_target, record_failed_target_error, failed_target_key, recorded.
  repeat case_match; by read_through.
Qed.

Lemma recorded_all_settled plan at_ms c l ps instance :
  recorded (foldl (settle_failed_target plan at_ms c) ps l) instance = recorded ps instance.
Proof. revert ps. induction l as [|s l IH]; intros ps; [done|]. simpl. by rewrite IH, recorded_settled. Qed.

(** A step the runtime reports as done. *)
Definition ran_well (c : RuntimeCompletion) (s : Step) : bool := is_some_and (receipt_of c s) receipt_succeeded.

Lemma filter_equal {A} (P Q : A → Prop) `{∀ x, Decision (P x), ∀ x, Decision (Q x)} (l : list A) :
  (∀ x, x ∈ l → P x ↔ Q x) → filter P l = filter Q l.
Proof.
  induction l as [|x l IH]; intros Hl; [done|]. rewrite !filter_cons.
  rewrite IH by (intros y Hy; apply Hl; by right). specialize (Hl x (list_elem_of_here _ _)).
  repeat case_decide; tauto.
Qed.

Lemma filter_everything {A} (l : list A) : filter (λ _, True) l = l.
Proof. induction l as [|x l IH]; [done|]. by rewrite filter_cons_True, IH. Qed.

Lemma receipt_found db environment c p s :
  completes db environment c p → s ∈ steps p → ∃ r, receipt_of c s = Some r ∧ r ∈ receipts c ∧ receipt_step_id r = step_id s.
Proof.
  intros Hc Hs. assert (step_id s ∈ map receipt_step_id (receipts c)) as Hin.
  { rewrite (cp_receipts _ _ _ _ Hc). by apply list_elem_of_fmap_2. }
  destruct (receipt_of c s) as [r|] eqn:Hr.
  - apply find_first_some in Hr as [Hr Hid]. apply bool_decide_eq_true in Hid. by exists r.
  - exfalso. apply list_elem_of_fmap in Hin as (r & Hid & Hr'). unfold receipt_of in Hr.
    rewrite find_first_none in Hr. specialize (Hr r Hr'). by rewrite bool_decide_eq_false in Hr.
Qed.

Lemma receipt_unique db environment c p r r' :
  completes db environment c p → r ∈ receipts c → r' ∈ receipts c → receipt_step_id r = receipt_step_id r' → r = r'.
Proof.
  intros Hc Hr Hr' Heq. assert (NoDup (map receipt_step_id (receipts c))) as Hn.
  { rewrite (cp_receipts _ _ _ _ Hc). eapply wf_step_ids, load_wf, (cp_load _ _ _ _ Hc). }
  apply list_elem_of_lookup in Hr as [i Hi], Hr' as [j Hj].
  assert (i = j) as ->; [|congruence]. eapply NoDup_lookup; [exact Hn|..].
  - by rewrite list_lookup_fmap, Hi.
  - by rewrite list_lookup_fmap, Hj, Heq.
Qed.

Lemma recorded_steps_ran db environment c p :
  completes db environment c p → recorded_steps c (steps p) = filter (λ s, ran_well c s = true) (steps p).
Proof.
  intros Hc. assert (Hran : ∀ s, s ∈ steps p → ran_well c s = existsb (λ r, bool_decide (receipt_step_id r = step_id s)
                                    && receipt_succeeded r) (receipts c)).
  { intros s Hs. destruct (receipt_found _ _ _ _ _ Hc Hs) as (r & Hr & Hin & Hid). unfold ran_well. rewrite Hr. simpl.
    apply eq_true_iff_eq. rewrite existsb_elem. split.
    - intros Hok. exists r. rewrite bool_decide_eq_true_2 by done. by split.
    - intros (r' & Hin' & [Hid'%bool_decide_eq_true Hok]%andb_true_iff).
      by rewrite (receipt_unique _ _ _ _ r r' Hc) by congruence. }
  unfold recorded_steps. destruct (completion_succeeded c) eqn:Hs.
  - rewrite (filter_equal _ (λ _, True)); [by rewrite filter_everything|].
    intros s Hin. split; [done|]. intros _. destruct (receipt_found _ _ _ _ _ Hc Hin) as (r & Hr & Hin' & _).
    unfold ran_well. rewrite Hr. simpl. apply (forallb_elem _ (receipts c)); [by apply (cp_succeeded _ _ _ _ Hc)|done].
  - apply filter_equal. intros s Hin. by rewrite Hran.
Qed.

(** ** Held failed targets *)

Lemma settle_other plan at_ms c ps s product :
  step_product s ≠ product →
  settle_failed_target plan at_ms c ps s !! failed_target_key product = ps !! failed_target_key product.
Proof.
  intros Hne. unfold settle_failed_target, record_failed_target_error, failed_target_key.
  repeat case_match; by read_through.
Qed.

Lemma settle_others plan at_ms c ps l product :
  (∀ s, s ∈ l → step_product s ≠ product) →
  foldl (settle_failed_target plan at_ms c) ps l !! failed_target_key product = ps !! failed_target_key product.
Proof.
  revert ps. induction l as [|s l IH]; intros ps Hl; [done|]. simpl.
  rewrite IH by (intros s' Hs'; apply Hl; by right). apply settle_other, Hl, list_elem_of_here.
Qed.

(** The runtime says the step ran and failed forward, or ran well; a receipt
    of a skipped step says neither. *)
Definition failed_forward (c : RuntimeCompletion) (s : Step) : Prop :=
  ∃ r, receipt_of c s = Some r ∧ receipt_detail r ≠ RUNTIME_SKIPPED_DETAIL
    ∧ receipt_succeeded r = false ∧ step_action s ≠ Rollback.

Definition came_up (c : RuntimeCompletion) (s : Step) : Prop :=
  ∃ r, receipt_of c s = Some r ∧ receipt_detail r ≠ RUNTIME_SKIPPED_DETAIL ∧ receipt_succeeded r = true.

(** How one step moves the held target of its product. *)
Lemma settle_step plan at_ms c ps s :
  let held := settle_failed_target plan at_ms c ps s !! failed_target_key (step_product s) in
  let was := ps !! failed_target_key (step_product s) in
  (failed_forward c s ∧ held = Some (step_release_id s))
  ∨ (came_up c s ∧ was = Some (step_release_id s) ∧ held = None)
  ∨ (¬ failed_forward c s ∧ (came_up c s → was ≠ Some (step_release_id s)) ∧ held = was).
Proof.
  cbv zeta. unfold settle_failed_target, terminal_receipt, failed_forward, came_up.
  destruct (receipt_of c s) as [r|] eqn:Hr; simpl; [|right; right; naive_solver].
  unfold classify_runtime. destruct (bool_decide_reflect (receipt_detail r = RUNTIME_SKIPPED_DETAIL)) as [Hd|Hd];
    simpl; [right; right; split_and!; [intros (r' & [= <-] & ? & _)|intros (r' & [= <-] & ? & _)|]; done|].
  destruct (receipt_succeeded r) eqn:Hok; simpl.
  - case_bool_decide as Hk; [right; left|right; right].
    + split_and!; [by exists r|done|]. unfold failed_target_key. by read_through.
    + split_and!; [|done|done]. intros (r' & [= <-] & _ & Ho & _). congruence.
  - case_bool_decide as Ha; simpl; [right; right|left].
    { split_and!; [by intros (r' & _ & _ & _ & ?)| |done]. intros (r' & [= <-] & _ & Ho). congruence. }
    split; [by exists r|]. unfold record_failed_target_error, failed_target_key. by read_through.
Qed.

(** The held target of a product after steps.  A failed forward step holds its
    release back until a later step of the product fails forward or brings that
    release up; a release that came up is free unless it failed forward later;
    and a target is held only by a failed step, or was held already and no step
    of the product failed or brought it up. *)
Record held_after (c : RuntimeCompletion) (l : list Step) (product : string)
    (was held : option string) : Prop := {
  ha_failed before s after : l = before ++ s :: after → step_product s = product → failed_forward c s →
    (∀ s', s' ∈ after → step_product s' = product →
       ¬ failed_forward c s' ∧ (came_up c s' → step_release_id s' ≠ step_release_id s)) →
    held = Some (step_release_id s);
  ha_free before s after : l = before ++ s :: after → step_product s = product → came_up c s →
    (∀ s', s' ∈ after → step_product s' = product → failed_forward c s' →
       step_release_id s' ≠ step_release_id s) →
    held ≠ Some (step_release_id s);
  ha_origin release : held = Some release →
    (∃ s, s ∈ l ∧ step_product s = product ∧ failed_forward c s ∧ step_release_id s = release)
    ∨ was = Some release;
  ha_kept :
    (∀ s, s ∈ l → step_product s = product →
       ¬ failed_forward c s ∧ (came_up c s → was ≠ Some (step_release_id s))) →
    held = was
}.

(** A decomposition of a longer list ends in its last element or before it. *)
Lemma snoc_split {A} (l : list A) x before s after :
  l ++ [x] = before ++ s :: after →
  (after = [] ∧ s = x ∧ before = l) ∨ ∃ after', after = after' ++ [x] ∧ l = before ++ s :: after'.
Proof.
  destruct after as [|y after' _] using rev_ind.
  - intros H. left. apply app_inj_tail in H as [-> ->]. done.
  - rewrite app_comm_cons, app_assoc. intros [-> ->]%app_inj_tail. right. by exists after'.
Qed.

Lemma settle_held_after plan at_ms c ps l product :
  held_after c l product (ps !! failed_target_key product)
    (foldl (settle_failed_target plan at_ms c) ps l !! failed_target_key product).
Proof.
  induction l as [|x l [Hfail Hfree Horig Hkept]] using rev_ind.
  { split; simpl; [intros [] ? ? [=]|intros [] ? ? [=]|by right|done]. }
  rewrite foldl_app. simpl. set (ps' := foldl _ ps l) in *. clearbody ps'.
  destruct (decide (step_product x = product)) as [Hx|Hx].
  2: { rewrite settle_other by done. split.
       - intros before s after [(-> & -> & ->)|(after' & -> & Hl)]%snoc_split Hs Hf Hlater; [done|].
         apply (Hfail before s after'); try done. intros s' Hs'. apply Hlater. set_solver.
       - intros before s after [(-> & -> & ->)|(after' & -> & Hl)]%snoc_split Hs Hf Hlater; [done|].
         apply (Hfree before s after'); try done. intros s' Hs'. apply Hlater. set_solver.
       - intros release [(s & Hs & ?)|?]%Horig; [left|by right]. exists s. set_solver.
       - intros Hall. apply Hkept. intros s Hs. apply Hall. set_solver. }
  subst product. pose proof (settle_step plan at_ms c ps' x) as Hstep. cbv zeta in Hstep.
  set (held := settle_failed_target _ _ _ ps' x !! _) in *. clearbody held.
  destruct Hstep as [[Hf ->]|[(Hu & Hwas & ->)|(Hnf & Hnu & ->)]].
  - split.
    + intros before s after [(-> & -> & ->)|(after' & -> & Hl)]%snoc_split Hs Hfs Hlater; [done|].
      destruct (Hlater x) as [Hn _]; [set_solver|done|]. done.
    + intros before s after [(-> & -> & ->)|(after' & -> & Hl)]%snoc_split Hs Hus Hlater.
      * destruct Hf as (r & Hr & _ & Ho & _), Hus as (r' & Hr' & _ & Ho'). congruence.
      * intros [= Heq]. by apply (Hlater x); [set_solver|..].
    + intros release [= <-]. left. exists x. set_solver.
    + intros Hall. destruct (Hall x) as [Hn _]; [set_solver|done|]. done.
  - split; [|done|done|].
    + intros before s after [(-> & -> & ->)|(after' & -> & Hl)]%snoc_split Hs Hfs Hlater.
      * destruct Hu as (r & Hr & _ & Ho), Hfs as (r' & Hr' & _ & Ho' & _). congruence.
      * destruct (Hlater x) as [_ Hne]; [set_solver|done|]. specialize (Hne Hu).
        rewrite (Hfail before s after') in Hwas; [congruence|done..|].
        intros s' Hs'. apply Hlater. set_solver.
    + intros Hall. destruct (Hall x) as [_ Hne]; [set_solver|done|]. specialize (Hne Hu).
      rewrite Hkept in Hwas; [done|]. intros s Hs. apply Hall. set_solver.
  - split.
    + intros before s after [(-> & -> & ->)|(after' & -> & Hl)]%snoc_split Hs Hfs Hlater; [done|].
      apply (Hfail before s after'); try done. intros s' Hs'. apply Hlater. set_solver.
    + intros before s after [(-> & -> & ->)|(after' & -> & Hl)]%snoc_split Hs Hus Hlater; [by apply Hnu|].
      apply (Hfree before s after'); try done. intros s' Hs'. apply Hlater. set_solver.
    + intros release [(s & Hs & ?)|?]%Horig; [left|by right]. exists s. set_solver.
    + intros Hall. apply Hkept. intros s Hs. apply Hall. set_solver.
Qed.

(** Recording deployments leaves the held targets alone. *)
Lemma stamp_keeps_held ctx product ps ps' k :
  stamp ctx product ps = Ok ps' → ps' !! failed_target_key k = ps !! failed_target_key k.
Proof.
  unfold stamp, failed_target_key. destruct (ps !! _) as [version|].
  2: { intros [= <-]. by read_through. }
  intros (profile & _ & H)%bind_ok. destruct profile as [profile|].
  2: { injection H as <-. by read_through. }
  ok_inv H. injection H as <-. destruct x0; by read_through.
Qed.

Lemma overlays_keep_held product instance ps k :
  stamp_applied_overlays product instance ps !! failed_target_key k = ps !! failed_target_key k.
Proof. unfold stamp_applied_overlays, failed_target_key. case_match; by read_through. Qed.

Lemma deployment_keeps_held ctx ps s ps' k :
  update_runtime_deployment ctx ps s = Ok ps' → ps' !! failed_target_key k = ps !! failed_target_key k.
Proof.
  unfold update_runtime_deployment, update_reconciled_deployment. intros H. ok_inv H. ok_inv Hg0.
  simplify_eq. ok_inv Hg1. simplify_eq. apply (stamp_keeps_held _ _ _ _ k) in Hg2.
  rewrite overlays_keep_held in Hg2. unfold clear_unknown_origin, failed_target_key in *.
  revert Hg2. read_through. intros Hg2.
  destruct (step_from s); [case_decide|]; repeat case_match; by read_through.
Qed.

Lemma deployments_keep_held ctx l ps ps' k :
  update_runtime_deployments ctx l ps = Ok ps' → ps' !! failed_target_key k = ps !! failed_target_key k.
Proof.
  unfold update_runtime_deployments.
  apply (try_fold_invariant (λ ps', ps' !! failed_target_key k = ps !! failed_target_key k)); [done|].
  intros s ps1 ps2 _ <-. apply deployment_keeps_held.
Qed.

(** ** A completion that was accepted *)

Definition same_content (p p' : Plan) : Prop :=
  executable_digest p' = executable_digest p ∧ steps p' = steps p ∧ plan_environment p' = plan_environment p.

(** What the stores before and after say of it. *)
Record completed (db db' : RuntimeDb) (environment : string) (c : RuntimeCompletion) (p : Plan) : Prop := {
  cd_plan : ∃ p', load (rdb_plans db') (completion_plan_id c) = Ok p' ∧ plan_state p' = completion_state c
                  ∧ same_content p p';
  cd_replay : terminal (plan_state p) = true → db' = db;
  cd_environment : terminal (plan_state p) = false →
    ∃ o o', ctx_get (rdb_ctx db) (env_id environment) = Some o ∧ ctx_get (rdb_ctx db') (env_id environment) = Some o'
    ∧ (∀ instance, recorded (properties o') instance
         = foldl (report_step instance) (recorded (properties o) instance) (filter (λ s, ran_well c s = true) (steps p)))
    ∧ ∀ product, held_after c (steps p) product (properties o !! ("failed_target." +:+ product))
                   (properties o' !! ("failed_target." +:+ product));
  cd_others id : id ≠ completion_plan_id c → id ≠ env_id environment → rdb_plans db' !! id = rdb_plans db !! id
}.

Lemma completed_environment_records ctx environment p q c at_ms db o' :
  completes db environment c p → (∀ o, ctx_get ctx (env_id environment) = Some o → object_id o = env_id environment) →
  steps q = steps p → completed_environment ctx environment q c at_ms = Ok o' →
  object_id o' = env_id environment ∧ ∃ o, ctx_get ctx (env_id environment) = Some o
  ∧ (∀ instance, recorded (properties o') instance
       = foldl (report_step instance) (recorded (properties o) instance) (filter (λ s, ran_well c s = true) (steps p)))
  ∧ ∀ product, held_after c (steps p) product (properties o !! ("failed_target." +:+ product))
      (properties o' !! ("failed_target." +:+ product)).
Proof.
  intros Hc Hk Hq. unfold completed_environment. rewrite Hq. intros H. ok_inv H. injection H as <-. simpl.
  split; [by apply Hk|]. exists x. split; [done|]. split.
  2: { intros product. change ("failed_target." +:+ product) with (failed_target_key product).
       rewrite <- (deployments_keep_held _ _ _ _ product Hg0). apply settle_held_after. }
  intros instance. rewrite recorded_all_settled. apply (recorded_runtimes _ _ _ _ instance) in Hg0.
  by rewrite Hg0, (recorded_steps_ran _ _ _ _ Hc).
Qed.

Lemma plan_not_environment p environment : wf_plan p → plan_id_of p ≠ env_id environment.
Proof. intros Hw. rewrite (wf_id p Hw). done. Qed.

Lemma load_id ctx id p : keyed ctx → load (objects ctx) id = Ok p → plan_id_of p = id.
Proof.
  intros Hk. unfold load. intros (o & Ho%ok_or_ok & [[_ _ Hid _ _ _ _ _] _]%from_object_sound)%bind_ok.
  rewrite <- Hid. by apply Hk.
Qed.

(** The same plan, about to end, in a store that differs only in it. *)
Record ready (db : Store) (stored : Plan) (db1 : Store) (p : Plan) : Prop := {
  rd_wf : wf_plan p; rd_created : i64_min ≤ created_at p ≤ i64_max;
  rd_id : plan_id_of p = plan_id_of stored; rd_content : same_content stored p;
  rd_others id : id ≠ plan_id_of stored → db1 !! id = db !! id
}.

Lemma begin_running db now stored p db1 :
  wf_plan stored → i64_min ≤ created_at stored ≤ i64_max →
  (if bool_decide (plan_state stored = Computed)
   then transition db now stored (Transition_new Running CLAIMED_DETAIL) Standard
   else (stored, db, Ok tt)) = (p, db1, Ok tt) → ready db stored db1 p.
Proof.
  intros Hw Hc. case_bool_decide; [|by intros [= -> ->]].
  intros (-> & o & _ & _ & ->)%transition_written; try done.
  split; try done; [by apply Transition_apply_wf|]. intros id Hid. by rewrite lookup_insert_ne.
Qed.

Lemma ready_keyed ctx stored p db1 environment c db0 :
  completes db0 environment c stored → ready (objects ctx) stored db1 p → keyed ctx →
  ctx_get {| objects := db1; catalog_links := catalog_links ctx |} (env_id environment) = ctx_get ctx (env_id environment).
Proof.
  intros Hc Hr Hk. apply (rd_others _ _ _ _ Hr). apply not_eq_sym, plan_not_environment.
  apply (load_wf _ _ _ (cp_load _ _ _ _ Hc)).
Qed.

(** The last write of a completion: the plan and the environment. *)
Lemma completion_ends embedded db db1 p q env' c now o r environment :
  ready db p db1 q → wf_plan p → object_id env' = env_id environment →
  (let final := Transition_new (completion_state c) (completion_detail c) in
   if embedded : bool then transition db1 now q final (WithEnvironment env')
   else transition (<[object_id env' := env']> db1) now q final Standard) = (r, o, Ok tt) →
  (∃ p', load o (plan_id_of p) = Ok p' ∧ plan_state p' = completion_state c ∧ same_content p p')
  ∧ o !! env_id environment = Some env'
  ∧ ∀ id, id ≠ plan_id_of p → id ≠ env_id environment → o !! id = db !! id.
Proof.
  intros Hr Hw Henv. cbv zeta. assert (Hne := plan_not_environment p environment Hw).
  assert (well_marked (Transition_new (completion_state c) (completion_detail c))) as Hm by done.
  destruct embedded; intros (-> & w & Hid & Hf & ->)%transition_written; try done; try apply Hr;
    rewrite Henv, (rd_id _ _ _ _ Hr) in *; unfold load.
  - rewrite lookup_insert_ne, lookup_insert_eq by done. split_and!.
    + exists (Transition_apply (Transition_new (completion_state c) (completion_detail c)) q). simpl.
      rewrite Hf. by split_and!; [..|apply (rd_content _ _ _ _ Hr)].
    + by rewrite lookup_insert_eq.
    + intros id H1 H2. rewrite !lookup_insert_ne by done. by apply (rd_others _ _ _ _ Hr).
  - rewrite lookup_insert_eq. split_and!.
    + exists (Transition_apply (Transition_new (completion_state c) (completion_detail c)) q). simpl.
      rewrite Hf. by split_and!; [..|apply (rd_content _ _ _ _ Hr)].
    + by rewrite lookup_insert_ne, lookup_insert_eq.
    + intros id H1 H2. rewrite !lookup_insert_ne by done. by apply (rd_others _ _ _ _ Hr).
Qed.

Lemma completion_records version embedded exports status clock environment c db db' :
  keyed (rdb_ctx db) →
  complete_runtime_work version embedded exports status clock environment c db = (Ok tt, db') →
  ∃ p, completes (rdb_plans db) environment c p ∧ completed db db' environment c p.
Proof.
  intros Hk. unfold complete_runtime_work.
  destruct (validate_runtime_completion _ _ _) as [p|] eqn:Hv; [|done].
  apply validate_runtime_completion_ok in Hv as Hc. assert (Hl := cp_load _ _ _ _ Hc).
  destruct (load_wf _ _ _ Hl) as [Hw Hcr]. assert (Hid := load_id _ _ _ Hk Hl).
  intros H. exists p. split; [done|]. destruct (terminal (plan_state p)) eqn:Ht.
  { injection H as <-. split; [|done|congruence|done]. exists p. split; [done|].
    destruct (cp_state _ _ _ _ Hc) as [[_ ?]|[He|He]]; [by repeat split|by rewrite He in Ht..]. }
  destruct (if bool_decide _ then _ else _) as [[q db1] moved] eqn:Hb. destruct moved as [[]|]; [|done].
  apply begin_running in Hb as Hr; [|done..]. destruct status as [[|]|]; [done| |done].
  destruct (completed_environment _ _ _ _ _) as [env'|] eqn:He; [|done].
  assert (Hget := ready_keyed _ _ _ _ _ _ _ Hc Hr Hk).
  eapply completed_environment_records in He as (Henv & o & Ho & Hrec & Hheld);
    [|exact Hc|intros o Ho; apply Hk; by rewrite <- Hget|apply Hr].
  destruct (if exports then _ else _) as [events|]; [|done].
  assert (∃ r o1, (if embedded
     then transition db1 (written_at clock) q (Transition_new (completion_state c) (completion_detail c)) (WithEnvironment env')
     else transition (<[object_id env' := env']> db1) (written_at clock) q
            (Transition_new (completion_state c) (completion_detail c)) Standard) = (r, o1, Ok tt) ∧ rdb_plans db' = o1)
    as (r & o1 & Hend & Hdb).
  { change (rdb_plans (with_objects db db1)) with db1 in H. clear Hb. revert H.
    destruct embedded; destruct (transition _ _ _ _ _) as [[r o1] [[]|]]; intros H; try done;
      injection H as <-; by exists r, o1. }
  eapply completion_ends in Hend as (Hplan & Henv' & Hothers); [|done..]. split.
  - rewrite Hdb, <- Hid. exact Hplan.
  - congruence.
  - intros _. exists o, env'.
    split_and!; [by rewrite <- Hget|unfold ctx_get; by rewrite <- Hdb in Henv'|done|exact Hheld].
  - intros id Hi1 Hi2. rewrite Hdb. apply Hothers; congruence.
Qed.

(** C14: when the server records a runtime's completion, the completion had
    exactly one receipt per step of a plan of that environment and no failed
    receipt in a success; the plan, its content unchanged, is then stored as
    succeeded or failed as the completion said; a plan that had ended keeps
    the store as it was; otherwise every instance is recorded exactly as if
    the server had run the steps the receipts report done, and no other object
    changed.  A forward step of a product that ran and failed holds its release
    back unless a later step of the product failed too or brought that release
    up; a skipped step changes nothing; a release that came up is not held
    unless it failed later; and nothing else is held but what was held before
    and no step of the product failed or brought up. *)
Theorem completion_recorded version embedded exports status clock environment c db db' :
  keyed (rdb_ctx db) →
  complete_runtime_work version embedded exports status clock environment c db = (Ok tt, db') →
  ∃ p, completes (rdb_plans db) environment c p ∧ completed db db' environment c p.
Proof. apply completion_records. Qed.

(** ** Replays *)

Lemma validate_runtime_completion_complete db environment c p :
  completes db environment c p → validate_runtime_completion db environment c = Ok p.
Proof.
  intros [Hl He Hp Hs Hst]. unfold validate_runtime_completion. rewrite Hl. simpl.
  rewrite (bool_decide_eq_true_2 (plan_environment p = environment)) by done. simpl.
  rewrite bool_decide_eq_true_2 by (apply set_eq; intros i; by rewrite !elem_of_list_to_set, Hp).
  rewrite (size_list_to_set (map receipt_step_id (receipts c))), length_map, Nat.eqb_refl; simpl.
  2:{ rewrite Hp. eapply wf_step_ids, load_wf, Hl. }
  destruct (completion_succeeded c) eqn:Hok; simpl; [rewrite Hs by done; simpl|];
    (destruct Hst as [[-> Hst]|[->| ->]]; [rewrite bool_decide_eq_true_2 by done|..]; done).
Qed.

(** C15: a completion that was recorded can be sent again, by whoever and
    whenever: it is accepted and changes nothing.  One that contradicts it is
    refused and changes nothing, so the first recorded completion of a plan
    is the last. *)
Theorem completion_replayed version embedded exports status clock environment c db db' :
  keyed (rdb_ctx db) →
  complete_runtime_work version embedded exports status clock environment c db = (Ok tt, db') →
  ∀ version' embedded' exports' status' clock',
    complete_runtime_work version' embedded' exports' status' clock' environment c db' = (Ok tt, db')
    ∧ ∀ environment' c', completion_plan_id c' = completion_plan_id c →
        completion_succeeded c' ≠ completion_succeeded c →
        ∃ e, complete_runtime_work version' embedded' exports' status' clock' environment' c' db' = (Err e, db').
Proof.
  intros Hk H version' embedded' exports' status' clock'.
  destruct (completion_records _ _ _ _ _ _ _ _ _ Hk H) as (p & [Hl He Hp Hs _] & [(p' & Hl' & Hst & _ & Hsteps & Henv) _ _ _]).
  assert (Ht : terminal (plan_state p') = true) by (rewrite Hst; by unfold completion_state; destruct (completion_succeeded c)).
  unfold complete_runtime_work. split.
  - rewrite (validate_runtime_completion_complete _ _ _ p'), Ht; [done|].
    split; [done|congruence|by rewrite Hsteps|done|by left].
  - intros environment' c' Hid Hne. destruct (validate_runtime_completion _ environment' c') as [q|e] eqn:Hv; [|by exists e].
    exfalso. apply validate_runtime_completion_ok in Hv as [Hq _ _ _ Hqst]. rewrite Hid, Hl' in Hq. injection Hq as ->.
    destruct Hqst as [[_ Hq]|[Hq|Hq]]; rewrite Hq in *; [|done..].
    unfold completion_state in Hst. by destruct (completion_succeeded c), (completion_succeeded c').
Qed.

(** An error leaves, in an embedded store, at most the plan's move to
    running behind. *)
Lemma completion_error_keeps version exports status clock environment c db db' e :
  complete_runtime_work version true exports status clock environment c db = (Err e, db') →
  rdb_observations db' = rdb_observations db ∧ rdb_events db' = rdb_events db
  ∧ (rdb_plans db' = rdb_plans db
     ∨ ∃ p q, load (rdb_plans db) (completion_plan_id c) = Ok p ∧ plan_state p = Computed
         ∧ transition (rdb_plans db) (running_at clock) p (Transition_new Running CLAIMED_DETAIL) Standard
           = (q, rdb_plans db', Ok tt)).
Proof.
  unfold complete_runtime_work.
  destruct (validate_runtime_completion _ _ _) as [p|] eqn:Hv; [|by intros [= <- <-]; auto].
  apply validate_runtime_completion_ok in Hv as Hc. assert (Hl := cp_load _ _ _ _ Hc).
  destruct (terminal (plan_state p)); [done|].
  destruct (if bool_decide _ then _ else _) as [[q db1] moved] eqn:Hb.
  assert (Hdb : db1 = rdb_plans db ∨ ∃ p q, load (rdb_plans db) (completion_plan_id c) = Ok p ∧ plan_state p = Computed
         ∧ transition (rdb_plans db) (running_at clock) p (Transition_new Running CLAIMED_DETAIL) Standard = (q, db1, Ok tt)).
  { revert Hb. case_bool_decide as Hs; [|intros [= <- <- <-]; by left]. intros Hb. destruct moved as [[]|e'].
    - right. by exists p, q.
    - left. revert Hb. unfold transition. destruct (store _ _ _); by intros [= <- <- _]. }
  assert (Hsame : ∀ db2, db2 = with_objects db db1 →
    rdb_observations db2 = rdb_observations db ∧ rdb_events db2 = rdb_events db
    ∧ (rdb_plans db2 = rdb_plans db ∨ ∃ p q, load (rdb_plans db) (completion_plan_id c) = Ok p ∧ plan_state p = Computed
         ∧ transition (rdb_plans db) (running_at clock) p (Transition_new Running CLAIMED_DETAIL) Standard
           = (q, rdb_plans db2, Ok tt))) by (by intros db2 ->).
  clear Hb Hdb. intros H. destruct moved as [u|e']; [|injection H as _ <-; by apply Hsame].
  destruct status as [[|]|]; [injection H as _ <-; by apply Hsame| |injection H as _ <-; by apply Hsame].
  destruct (completed_environment _ _ _ _ _); [|injection H as _ <-; by apply Hsame].
  destruct (if exports then _ else _); [|injection H as _ <-; by apply Hsame].
  change (rdb_plans (with_objects db db1)) with db1 in H. unfold transition in H.
  destruct (store_with_environment _ _ _ _); [done|]. injection H as _ <-. by apply Hsame.
Qed.
End Recorded.

Module CompletionExamples.
#[local] Existing Instance PlainSemver.instance.
#[local] Existing Instance PlainEncoding.instance.
#[local] Existing Instance PlainEncoding.encoding_laws.

#[local] Instance no_manifests : ManifestFormat := {| parse_raw _ := None |}.

#[local] Instance listed_order : HashOrder := {|
  hash_iter := map_to_list; hash_iter_perm := λ m, Permutation_refl _ |}.

#[local] Instance silent : PlanningServices := {|
  lookup_release _ _ _ := None; load_recoverable _ _ _ := None; report_eval _ _ _ := Ok None;
  placement_allowed _ _ _ := true; module_admitted _ _ _ _ := true; branch_pin_matches _ := true;
  overlay_of_json _ := None; overlay_hash _ := ""; document_digest _ := "";
  observe_paths_valid _ := true; advisories _ _ _ := ([], "", None) |}.

#[local] Instance plain_records : OutcomeRecords := {|
  terminal_outcome_record _ s id _ _ _ := Ok id |}.

Definition web_step (id : string) : Step := {|
  step_id := id; step_order := 0; step_product := "web"; step_instance := ""; step_action := Upgrade;
  step_from := Some "1.0.0"; step_to := "2.0.0"; step_release_id := release_id "web" "2.0.0";
  step_release_digest := "d"; step_artifact_digest := "a"; step_workdir := ""; step_restore := None;
  step_host := None |}.

Definition web_content : string := content_address "prod" 7 [] [web_step ""] None.
Definition web_plan_id : string := plan_id "prod" 7 web_content.

Definition web_plan : Plan := {|
  format_version := 1; plan_id_of := web_plan_id; content_id := web_content; plan_environment := "prod";
  created_at := 7; inputs := []; steps := [web_step (web_plan_id +:+ ":step:0")]; plan_state := Computed;
  gates_skipped := None; status_detail := ""; maintenance_blocked := false; prior_warnings := [];
  recalled_recovery_reason := None; credential_runway := None |}.

Definition thing (id : string) (ps : gmap string string) : Object := {|
  object_id := id; object_kind := ""; object_name := ""; object_namespace := NS; external_id := "";
  properties := ps; created := 0; updated := 0 |}.

Definition db : RuntimeDb := {|
  rdb_ctx := {|
    objects := {[ web_plan_id := to_object 8 web_plan;
                  "tenkai:env:prod" := thing "tenkai:env:prod" {["deployed.web" := "1.0.0"]};
                  "tenkai:release:web@2.0.0" := thing "tenkai:release:web@2.0.0" ∅ ]};
    catalog_links := [] |};
  rdb_observations := []; rdb_events := [] |}.

Definition report (ok : bool) : RuntimeCompletion := {|
  completion_plan_id := web_plan_id; completion_generation := 1; completion_succeeded := ok; completion_detail := "";
  receipts := [{| receipt_step_id := web_plan_id +:+ ":step:0"; receipt_succeeded := ok; receipt_detail := "ran" |}] |}.

Definition complete (ok : bool) : result unit completion_error * RuntimeDb :=
  complete_runtime_work "1.0.0" true true (Ok None) {| running_at := 10; observed_at := 11; written_at := 12 |}
    "prod" (report ok) db.

Definition said (o : option Object) : option (option string * option string) :=
  (λ o, (properties o !! "deployed.web", properties o !! "failed_target.web")) <$> o.

Example success_recorded :
  (complete true).1 = Ok tt
  ∧ said (ctx_get (rdb_ctx (complete true).2) "tenkai:env:prod") = Some (Some "2.0.0", None).
Proof. vm_compute. done. Qed.

(** A failed step that was not skipped holds its release back. *)
Example failure_recorded :
  (complete false).1 = Ok tt
  ∧ said (ctx_get (rdb_ctx (complete false).2) "tenkai:env:prod") = Some (Some "1.0.0", Some "tenkai:release:web@2.0.0").
Proof. vm_compute. done. Qed.

(** While the environment is being applied to nothing is recorded but that
    the plan was claimed. *)
Example busy_environment_refused :
  let r := complete_runtime_work "1.0.0" true true (Ok (Some "plan:1")) {| running_at := 10; observed_at := 11; written_at := 12 |}
             "prod" (report true) db in
  r.1 = Err (EnvironmentBusy "prod")
  ∧ plan_state <$> (match load (rdb_plans r.2) web_plan_id with Ok p => Some p | Err _ => None end) = Some Running.
Proof. vm_compute. done. Qed.

Lemma db_keyed : keyed (rdb_ctx db).
Proof.
  assert (H : bool_decide (map_Forall (λ id o, object_id o = id) (objects (rdb_ctx db))) = true) by (vm_compute; done).
  apply bool_decide_eq_true in H. intros id o. apply H.
Qed.

Lemma complete_ok ok : complete ok = (Ok tt, (complete ok).2).
Proof.
  rewrite (surjective_pairing (complete ok)) at 1. f_equal. destruct ok; vm_compute; done.
Qed.

Lemma completion_recorded_witness :
  (complete true).1 = Ok tt
  ∧ ∃ p', load (rdb_plans (complete true).2) web_plan_id = Ok p' ∧ plan_state p' = Succeeded.
Proof.
  split; [by rewrite complete_ok|].
  destruct (completion_recorded _ _ _ _ _ _ _ _ _ db_keyed (complete_ok true)) as (p & _ & [(p' & Hl & Hs & _) _ _ _]).
  exists p'. by split.
Defined.

Lemma completion_replayed_witness :
  ∃ e, complete_runtime_work "2.0.0" true false (Ok None) {| running_at := 20; observed_at := 21; written_at := 22 |}
         "prod" (report false) (complete true).2 = (Err e, (complete true).2).
Proof.
  exact (proj2 (completion_replayed _ _ _ _ _ _ _ _ _ db_keyed (complete_ok true) "2.0.0" true false (Ok None)
    {| running_at := 20; observed_at := 21; written_at := 22 |}) "prod" (report false) eq_refl ltac:(done)).
Defined.
End CompletionExamples.
