(* ===== verification/RuntimeDelivery.v ===== *)
(** * Delivery through runtime agents

    [runtime_delivery.rs]: which runtime is calling and for which environment,
    the work it is handed, the claim it renews, the completion it sends, and
    its enrollment ([management_operations/runtime_enrollment.rs],
    [storage/runtime_enrollment.rs]).  The handlers are programs over what they
    ask of the store, of the application core and of the execution lease. *)

From S2P Require Import Prelude RustStr Kinds Facts Plan Leases Effects ExecutionLease Outcomes RuntimeClaims RuntimeCompletion.

(** ** Who is calling *)

Record RuntimeCaller := {
  caller_instance : option string; caller_version : option string; caller_certificate : option string
}.

Record RuntimeIdentity := { id_owner : string; runner_id : string; id_instance : string }.

Inductive RuntimeDeliveryError :=
| MissingCredential | InvalidCredential | InvalidInstance | ForeignEnvironment
| InvalidRequest (text : string) | DeliveryConflict (text : string) | DeliveryUnavailable (text : string)
| DeliveryInternal (text : string) | AttestationRefused (code : string).

Definition ENROLLMENT_TOKEN_PREFIX : string := "tke_".
Definition CREDENTIAL_PREFIX : string := "tkr_".

(** [constant_time_eq], on bytes; lengths are [usize]. *)
Definition byte_at (s : list Z) (i : nat) : Z := default 0 (s !! i).

Definition constant_time_eq (left right : list Z) : bool :=
  let difference := Z.lxor (Z.of_nat (length left)) (Z.of_nat (length right)) in
  let len := Nat.max (length left) (length right) in
  foldl (λ d i, Z.lor d (Z.lxor (byte_at left i) (byte_at right i))) difference (seq 0 len) =? 0.

Fixpoint bytes_of (s : string) : list Z :=
  match s with EmptyString => [] | String c s => byte_of c :: bytes_of s end.

(** [runtime_assignment]: over the entries of the map, in some order. *)
Definition runtime_assignment (assignments : list (string * string)) (token : string) : option string :=
  foldl (λ matched '(candidate, environment),
    if constant_time_eq (bytes_of candidate) (bytes_of token) then Some environment else matched) None assignments.

Record CredentialRecord := {
  credential_digest : string; credential_environment : string; enrollment_digest : string;
  credential_created : Z; credential_revoked : option Z
}.

Record EnrollmentRow := {
  enrollment_environment : string; enrollment_expires : Z; enrollment_created_by : string;
  enrollment_redeemed : option Z
}.

(** [runner_ca::RunnerCa::verify]: the environment and the runner a
    certificate names at a time. *)
Class RunnerCa := { ca_verify : string → Z → option (string * string) }.

(** How a host is set up: static tokens, a runner CA, an application core. *)
Record DeliverySetup := {
  assignments : list (string * string); has_runner_ca : bool; has_core : bool
}.

(** ** What the handlers ask for *)

(** A check of one release of a plan: passed, refused with a reason, or not
    answered. *)
Inductive preflight := Cleared | NotCleared (reason : string) | PreflightUnavailable.

Inductive Activity := WorkActivity | HeartbeatActivity | InventoryActivity.
#[export] Instance Activity_eq : EqDecision Activity.
Proof. solve_decision. Defined.

Inductive redeem_error := RedeemRefused | RedeemFailed (text : string).

Inductive inventory_error := InventoryAttestation (code : string) | InventoryInvalid (text : string).

(** The verified binding of an attestation. *)
Record Binding := { evidence_digest : string; key_fingerprint : string; binding_checked_at : Z }.

Inductive delivery_effect : Type → Type :=
| OnLease {X} (e : lease_effect X) : delivery_effect X
(** [store.runtime_credential]. *)
| ReadCredential (digest : string) : delivery_effect (result (option CredentialRecord) string)
(** Whether the environment requires runner attestation. *)
| AttestationRequired (environment : string) : delivery_effect (result bool string)
| RefuseAttestation (environment : string) (runner : option string) (code : string) : delivery_effect unit
| RecordActivity (id : RuntimeIdentity) (environment : string) (version : option string) (kind : Activity) :
    delivery_effect unit
(** [Reconciler::pending_work]. *)
| PendingWork (environment : string) : delivery_effect (result (option Plan) string)
(** [software_compatibility::require_release] and [topology::require_placement]. *)
| RequireCompatible (environment release : string) : delivery_effect preflight
| RequirePlacement (environment release : string) : delivery_effect preflight
(** [delivery_hold::active_for_plan]. *)
| HeldBack (p : Plan) : delivery_effect (result bool string)
(** The claims of [RuntimeClaims]. *)
| DurableCompletion (plan holder : string) : delivery_effect (result (option ClaimRow) string)
| ClaimPlan (environment plan holder : string) (expires : Z) : delivery_effect (result (option ClaimRow) string)
| RenewPlan (plan holder : string) (generation expires : Z) : delivery_effect (result (option ClaimRow) string)
| StoreClaimCompletion (plan holder : string) (generation : Z) (json : string) : delivery_effect (result unit string)
| LapsedCompletion (environment plan : string) (now : Z) : delivery_effect (result (option string) string)
(** [plan::transition] to failed, and [plan::load]. *)
| FailPlan (p : Plan) (detail : string) : delivery_effect (result unit string)
| LoadPlan (id : string) : delivery_effect (result Plan string)
(** [validate_runtime_completion] and [complete_runtime_work]. *)
| ValidateCompletion (environment : string) (c : RuntimeCompletion) : delivery_effect (result unit string)
| CompleteWork (environment : string) (c : RuntimeCompletion) : delivery_effect (result unit string)
| ApplyInventory (environment : string) (facts : gmap string string) :
    delivery_effect (result (list string) inventory_error)
(** Enrollment. *)
| MintSecret (prefix : string) : delivery_effect (result string string)
| CreateEnrollment (digest environment : string) (expires : Z) (actor : string) : delivery_effect (result unit string)
| EnrollmentUsable (environment digest : string) (now : Z) : delivery_effect (result bool string)
| EnrollmentBinding (environment : string) (csr : option string) : delivery_effect (result (option Binding) RuntimeDeliveryError)
| RedeemEnrollment (environment token credential : string) (now : Z) (binding : option Binding) :
    delivery_effect (result CredentialRecord redeem_error)
| RevokeCredential (digest : string) (now : Z) (reason actor : string) : delivery_effect (result unit string)
| CheckCsr (csr : string) : delivery_effect bool
| IssueCertificate (csr environment runner : string) (now : Z) (binding : option Binding) : delivery_effect (result string string)
| NoteCertificate (runner environment : string) : delivery_effect unit
| AuditRecord (actor operation : string) : delivery_effect (result unit string).

Notation delivery_prog A := (prog delivery_effect (result A RuntimeDeliveryError)).

(** Running the lease's programs here. *)
Definition on_lease {A} (p : prog lease_effect A) : prog delivery_effect A := hoist (@OnLease) p.

Definition now_millis : prog delivery_effect Z := perform (OnLease LeaseNow).

(** The codec of completions ([serde_json]). *)
Class CompletionJson := {
  completion_json : RuntimeCompletion → string;
  completion_of_json : string → option RuntimeCompletion
}.

Section Handlers.
Context {E : PlanEncoding} {RC : RunnerCa} {CJ : CompletionJson}.

Definition token_digest (secret : string) : string := "sha256:" +:+ sha256_hex secret.

Definition runtime_owner (token instance : string) : string :=
  "runtime:" +:+ sha256_hex (token +:+ String "000" instance).

(** ** Admission *)

Definition valid_instance (instance : option string) : option string :=
  i ← instance;
  if negb (str_is_empty i) && (str_len i <=? 128) && all_bytes (λ c, byte_of c <? 128) i then Some i else None.

Definition enrolled_environment (token : string) : delivery_prog string :=
  if negb (starts_with CREDENTIAL_PREFIX token) then Ret (Err InvalidCredential)
  else
    do record := perform (ReadCredential (token_digest token)) in
    Ret (match record with
         | Ok (Some r) => if is_some_b (credential_revoked r) then Err InvalidCredential else Ok (credential_environment r)
         | Ok None => Err InvalidCredential
         | Err text => Err (DeliveryUnavailable text)
         end).

Definition admit_certificate (certificate : string) (instance : option string) (environment : string) :
    delivery_prog RuntimeIdentity :=
  do now := now_millis in
  match ca_verify certificate (Z.quot now 1000) with
  | None => Ret (Err InvalidCredential)
  | Some (named_environment, named_runner) =>
    match valid_instance instance with
    | None => Ret (Err InvalidInstance)
    | Some instance =>
      do record := perform (ReadCredential named_runner) in
      Ret (match record with
           | Ok (Some r) =>
             if negb (is_some_b (credential_revoked r)) && bool_decide (credential_environment r = named_environment) then
               if bool_decide (named_environment = environment) then
                 Ok {| id_owner := runtime_owner named_runner instance; runner_id := named_runner; id_instance := instance |}
               else Err ForeignEnvironment
             else Err InvalidCredential
           | Ok None => Err InvalidCredential
           | Err text => Err (DeliveryUnavailable text)
           end)
    end
  end.

Definition admit_bearer (d : DeliverySetup) (token : option string) (instance : option string) (environment : string) :
    delivery_prog RuntimeIdentity :=
  match token with
  | None => Ret (Err MissingCredential)
  | Some token =>
    if str_is_empty token then Ret (Err MissingCredential)
    else
      do? assigned := match runtime_assignment (assignments d) token with
        | Some environment => Ret (Ok environment)
        | None => enrolled_environment token
        end in
      Ret (let? instance := ok_or (valid_instance instance) InvalidInstance in
           bail_if negb (bool_decide (assigned = environment)) with ForeignEnvironment in
           Ok {| id_owner := runtime_owner token instance; runner_id := token_digest token; id_instance := instance |})
  end.

Definition admit_caller (d : DeliverySetup) (token : option string) (caller : RuntimeCaller) (environment : string) :
    delivery_prog RuntimeIdentity :=
  match caller_certificate caller, has_runner_ca d with
  | Some certificate, true => admit_certificate certificate (caller_instance caller) environment
  | _, _ => admit_bearer d token (caller_instance caller) environment
  end.

Definition CLIENT_CERTIFICATE_REQUIRED : string := "attestation_requires_client_certificate".

Definition admit_work (d : DeliverySetup) (token : option string) (caller : RuntimeCaller) (environment : string) :
    delivery_prog RuntimeIdentity :=
  do? id := admit_caller d token caller environment in
  if negb (is_some_b (caller_certificate caller) && has_runner_ca d) && has_core d then
    do required := perform (AttestationRequired environment) in
    match required with
    | Err text => Ret (Err (DeliveryUnavailable text))
    | Ok false => Ret (Ok id)
    | Ok true =>
      do _ := perform (RefuseAttestation environment (Some (runner_id id)) CLIENT_CERTIFICATE_REQUIRED) in
      Ret (Err (AttestationRefused CLIENT_CERTIFICATE_REQUIRED))
    end
  else Ret (Ok id).

(** ** Work *)

Record RuntimeWork := { work_environment : string; work_plan : option Plan; work_claim : option ClaimRow }.

Definition no_work (environment : string) : RuntimeWork :=
  {| work_environment := environment; work_plan := None; work_claim := None |}.

Definition handed (environment : string) (p : Plan) (c : ClaimRow) : RuntimeWork :=
  {| work_environment := environment; work_plan := Some p; work_claim := Some c |}.

Definition CORE_MISSING : RuntimeDeliveryError :=
  DeliveryUnavailable "application core is not available on this host".
Definition COMPATIBILITY_UNAVAILABLE : RuntimeDeliveryError :=
  DeliveryUnavailable "software compatibility preflight unavailable".
Definition PLACEMENT_UNAVAILABLE : RuntimeDeliveryError :=
  DeliveryUnavailable "topology placement preflight unavailable".

Definition each_release (check : string → delivery_effect preflight) (missing : RuntimeDeliveryError) (l : list Step) :
    delivery_prog unit :=
  each (λ _ s,
    do answer := perform (check (step_release_id s)) in
    Ret (match answer with
         | Cleared => Ok (tt, false)
         | NotCleared reason => Err (InvalidRequest reason)
         | PreflightUnavailable => Err missing
         end)) tt l.

Definition require_compatible (environment : string) (p : Plan) : delivery_prog unit :=
  each_release (RequireCompatible environment) COMPATIBILITY_UNAVAILABLE (steps p).

Definition require_runtime_placement (environment : string) (p : Plan) : delivery_prog unit :=
  each_release (RequirePlacement environment) PLACEMENT_UNAVAILABLE (steps p).

(** An answer of the store or of the core, with its failure. *)
Definition asking {A} (failed : string → RuntimeDeliveryError) (e : delivery_effect (result A string)) : delivery_prog A :=
  do answer := perform e in Ret (map_err failed answer).

Definition CLAIM_MS : Z := 2 * 60 * 1000.

Definition ABANDONED_BY_SERVER : string :=
  "controller stopped after execution began; lease expired before recovery".

(** A claim was granted. *)
Definition hand_out (environment : string) (p : Plan) (claim : ClaimRow) : delivery_prog RuntimeWork :=
  if negb (is_some_b (claim_completion claim)) && bool_decide (plan_state p = Running) then
    do? _ := asking DeliveryUnavailable (FailPlan p ABANDONED_BY_SERVER) in Ret (Ok (no_work environment))
  else
    do? _ := (if is_some_b (claim_completion claim) then Ret (Ok tt) else require_runtime_placement environment p) in
    Ret (Ok (handed environment p claim)).

(** Another runtime holds the claim. *)
Definition settle_lapsed (environment : string) (p : Plan) : delivery_prog RuntimeWork :=
  do now := now_millis in
  do? lapsed := asking DeliveryUnavailable (LapsedCompletion environment (plan_id_of p) now) in
  match lapsed with
  | None => Ret (Ok (no_work environment))
  | Some json =>
    match completion_of_json json with
    | None => Ret (Err (DeliveryInternal "undecodable completion"))
    | Some c =>
      do? _ := asking DeliveryInternal (CompleteWork environment c) in Ret (Ok (no_work environment))
    end
  end.

(** The plan that was chosen is claimed. *)
Definition claim_chosen (environment : string) (id : RuntimeIdentity) (p : Plan) : delivery_prog RuntimeWork :=
  do? _ := require_compatible environment p in
  do? held := (if bool_decide (plan_state p = Computed) then asking DeliveryUnavailable (HeldBack p) else Ret (Ok false)) in
  if held : bool then Ret (Ok (no_work environment))
  else
    do trusted := perform (OnLease TrustedTime) in
    if negb trusted then
      do durable := perform (DurableCompletion (plan_id_of p) (id_owner id)) in
      Ret (match durable with
           | Ok (Some claim) => Ok (handed environment p claim)
           | _ => Err (DeliveryUnavailable "runtime lease claim refused: clock not trusted")
           end)
    else
      do now := now_millis in
      do? claim := asking DeliveryUnavailable
        (ClaimPlan environment (plan_id_of p) (id_owner id) (i64_saturating_add now CLAIM_MS)) in
      match claim with
      | Some claim => hand_out environment p claim
      | None => settle_lapsed environment p
      end.

Definition claim_work (d : DeliverySetup) (token : option string) (caller : RuntimeCaller) (environment : string) :
    delivery_prog RuntimeWork :=
  do? id := admit_work d token caller environment in
  do _ := perform (RecordActivity id environment (caller_version caller) WorkActivity) in
  if negb (has_core d) then Ret (Err CORE_MISSING)
  else
    do may := on_lease (runtime_may_take_over environment) in
    match may with
    | Err _ => Ret (Err (DeliveryUnavailable "execution lease unavailable"))
    | Ok false => Ret (Ok (no_work environment))
    | Ok true =>
      do? p := asking DeliveryUnavailable (PendingWork environment) in
      match p with
      | None => Ret (Ok (no_work environment))
      | Some p => claim_chosen environment id p
      end
    end.

(** ** Completion *)

Definition complete (d : DeliverySetup) (token : option string) (caller : RuntimeCaller) (environment : string)
    (c : RuntimeCompletion) : delivery_prog unit :=
  do? id := admit_work d token caller environment in
  let json := completion_json c in
  do? _ := asking InvalidRequest (ValidateCompletion environment c) in
  do? _ := asking DeliveryConflict
    (StoreClaimCompletion (completion_plan_id c) (id_owner id) (completion_generation c) json) in
  asking DeliveryInternal (CompleteWork environment c).

(** ** Renewal *)

Record RuntimeHeartbeat := { heartbeat_plan : string; heartbeat_generation : Z }.

Definition renew (d : DeliverySetup) (token : option string) (caller : RuntimeCaller) (environment : string)
    (heartbeat : RuntimeHeartbeat) : delivery_prog ClaimRow :=
  do? id := admit_work d token caller environment in
  do _ := perform (RecordActivity id environment (caller_version caller) HeartbeatActivity) in
  if negb (has_core d) then Ret (Err COMPATIBILITY_UNAVAILABLE)
  else
    do? p := asking (λ _, COMPATIBILITY_UNAVAILABLE) (LoadPlan (heartbeat_plan heartbeat)) in
    if negb (bool_decide (plan_environment p = environment)) then Ret (Err ForeignEnvironment)
    else
      do? _ := require_compatible environment p in
      do now := now_millis in
      do? renewed := asking DeliveryConflict (RenewPlan (heartbeat_plan heartbeat) (id_owner id)
        (heartbeat_generation heartbeat) (i64_saturating_add now CLAIM_MS)) in
      match renewed with
      | None => Ret (Err (DeliveryConflict "runtime claim is no longer active"))
      | Some claim =>
        do? _ := (if is_some_b (claim_completion claim) then Ret (Ok tt) else require_runtime_placement environment p) in
        Ret (Ok claim)
      end.

(** ** Inventory *)

Definition validate_inventory_source (source : string) : result unit RuntimeDeliveryError :=
  bail_if str_is_empty (trim source) || (64 <? str_len source)
    with (InvalidRequest "inventory source must be 1..=64 characters") in
  bail_if existsb (λ needle, str_contains needle (to_ascii_lowercase source)) ["bearer "; "password="; "secret="; "token="]
    with (InvalidRequest "inventory source must not contain credential material") in
  Ok tt.

Definition report_inventory (d : DeliverySetup) (token : option string) (caller : RuntimeCaller) (environment source : string)
    (facts : gmap string string) : delivery_prog (string * string * list string) :=
  do? id := admit_work d token caller environment in
  do _ := perform (RecordActivity id environment (caller_version caller) InventoryActivity) in
  do? _ := Ret (validate_inventory_source source) in
  do applied := perform (ApplyInventory environment facts) in
  match applied with
  | Ok applied => Ret (Ok (environment, source, applied))
  | Err (InventoryAttestation code) =>
    do _ := perform (RefuseAttestation environment (Some (runner_id id)) code) in Ret (Err (AttestationRefused code))
  | Err (InventoryInvalid text) => Ret (Err (InvalidRequest text))
  end.

(** ** Enrollment *)

Definition MAX_ENROLLMENT_TTL_SECONDS : Z := 24 * 60 * 60.

(** [create_runtime_enrollment], from the check of the lifetime on: the
    caller is authorized. *)
Definition create_runtime_enrollment (environment actor : string) (ttl_seconds : Z) :
    delivery_prog (string * Z) :=
  if (ttl_seconds =? 0) || (MAX_ENROLLMENT_TTL_SECONDS <? ttl_seconds) then
    Ret (Err (InvalidRequest "enrollment ttl_seconds out of range"))
  else
    do trusted := perform (OnLease TrustedTime) in
    if negb trusted then Ret (Err (DeliveryUnavailable "runtime enrollment refused: clock not trusted"))
    else
      do marked := on_lease (mark_runtime_managed environment) in
      match marked with
      | Err _ => Ret (Err (DeliveryUnavailable "marking the environment failed"))
      | Ok _ =>
        do? token := asking DeliveryUnavailable (MintSecret ENROLLMENT_TOKEN_PREFIX) in
        do now := now_millis in
        let expires := now + ttl_seconds * 1000 in
        do? _ := asking DeliveryUnavailable (CreateEnrollment (token_digest token) environment expires actor) in
        do? _ := asking DeliveryUnavailable (AuditRecord actor "runtime.enrollment.create.completed") in
        Ret (Ok (token, expires))
      end.

Record RuntimeEnrolled := {
  enrolled_in : string; enrolled_credential : string; enrolled_id : string; enrolled_certificate : option string
}.

(** Whether the server can sign what the request asks for. *)
Definition check_csr (d : DeliverySetup) (csr : option string) : delivery_prog unit :=
  match csr with
  | None => Ret (Ok tt)
  | Some csr =>
    if negb (has_runner_ca d) then
      Ret (Err (InvalidRequest "this server has no runner CA to sign a certificate request"))
    else
      do valid := perform (CheckCsr csr) in
      Ret (if valid : bool then Ok tt
           else Err (InvalidRequest "the CSR is not a valid, self-signed certificate request"))
  end.

(** The certificate of a runner that was just registered. *)
Definition certify (csr : option string) (record : CredentialRecord) (binding : option Binding) :
    delivery_prog (option string) :=
  match csr with
  | None => Ret (Ok None)
  | Some csr =>
    do now := now_millis in
    do? certificate := asking DeliveryInternal
      (IssueCertificate csr (credential_environment record) (credential_digest record) (Z.quot now 1000) binding) in
    do _ := perform (NoteCertificate (credential_digest record) (credential_environment record)) in
    Ret (Ok (Some certificate))
  end.

Definition enroll (d : DeliverySetup) (environment token : string) (csr : option string) :
    delivery_prog RuntimeEnrolled :=
  if negb (starts_with ENROLLMENT_TOKEN_PREFIX token) then Ret (Err InvalidCredential)
  else
    do trusted := perform (OnLease TrustedTime) in
    if negb trusted then Ret (Err (DeliveryUnavailable "runtime enrollment refused: clock not trusted"))
    else
      do? _ := check_csr d csr in
      do now := now_millis in
      do? usable := asking DeliveryUnavailable (EnrollmentUsable environment (token_digest token) now) in
      if negb usable then Ret (Err InvalidCredential)
      else
        do? credential := asking DeliveryUnavailable (MintSecret CREDENTIAL_PREFIX) in
        do binding := perform (EnrollmentBinding environment csr) in
        match binding with
        | Err (AttestationRefused code) =>
          do _ := perform (RefuseAttestation environment None code) in Ret (Err (AttestationRefused code))
        | Err e => Ret (Err e)
        | Ok binding =>
          do now := now_millis in
          do redeemed := perform (RedeemEnrollment environment (token_digest token) (token_digest credential) now binding) in
          match redeemed with
          | Err RedeemRefused => Ret (Err InvalidCredential)
          | Err (RedeemFailed text) => Ret (Err (DeliveryUnavailable text))
          | Ok record =>
            do? certificate := certify csr record binding in
            Ret (Ok {| enrolled_in := credential_environment record; enrolled_credential := credential;
                       enrolled_id := credential_digest record; enrolled_certificate := certificate |})
          end
        end.
End Handlers.

(** ** Comparing tokens *)

Lemma lor_fold_zero (f : nat → Z) l d :
  foldl (λ d i, Z.lor d (f i)) d l = 0 ↔ d = 0 ∧ ∀ i, i ∈ l → f i = 0.
Proof.
  revert d. induction l as [|i l IH]; intros d; simpl.
  - split; [intros ->; split; [done|]; by intros i ?%not_elem_of_nil|tauto].
  - rewrite IH, Z.lor_eq_0_iff. split.
    + intros [[-> Hi] Hl]. split; [done|]. by intros j [->|?]%elem_of_cons; auto.
    + intros [-> Hl]. split; [split; [done|apply Hl; left]|]. intros j Hj. apply Hl. by right.
Qed.

(** The comparison that does not stop at the first difference decides
    equality. *)
Lemma constant_time_eq_iff left right : constant_time_eq left right = true ↔ left = right.
Proof.
  unfold constant_time_eq. rewrite Z.eqb_eq, lor_fold_zero, Z.lxor_eq_0_iff. split.
  - intros [Hlen Hbytes]. apply Nat2Z.inj in Hlen. apply list_eq_same_length with (length left); [done|done|].
    intros i x y Hi Hx Hy. specialize (Hbytes i). unfold byte_at in Hbytes. rewrite Hx, Hy in Hbytes. simpl in Hbytes.
    apply Z.lxor_eq_0_iff, Hbytes. rewrite elem_of_seq. lia.
  - intros ->. split; [done|]. intros i _. apply Z.lxor_nilpotent.
Qed.

Lemma bytes_of_inj a b : bytes_of a = bytes_of b → a = b.
Proof.
  revert b. induction a as [|c a IH]; intros [|c' b]; [done..|]. simpl. intros [= Hc Hab].
  f_equal; [|by apply IH]. unfold byte_of in Hc. rewrite <- (ascii_N_embedding c), <- (ascii_N_embedding c'). f_equal. lia.
Qed.

(** A token is assigned an environment only by an entry with that very
    token. *)
Lemma runtime_assignment_in l token environment :
  runtime_assignment l token = Some environment → (token, environment) ∈ l.
Proof.
  unfold runtime_assignment.
  assert (∀ m, foldl (λ matched '(candidate, environment),
      if constant_time_eq (bytes_of candidate) (bytes_of token) then Some environment else matched) m l = Some environment →
    m = Some environment ∨ (token, environment) ∈ l) as H.
  { induction l as [|[t e] l IH]; intros m; simpl; [by left|].
    intros [Hm|Hin]%IH; [|right; by right].
    destruct (constant_time_eq _ _) eqn:Heq; [|by left]. injection Hm as ->.
    apply constant_time_eq_iff, bytes_of_inj in Heq as ->. right. left. }
  intros Hm. by destruct (H None Hm).
Qed.

Lemma runtime_assignment_none l token :
  runtime_assignment l token = None → ∀ environment, (token, environment) ∉ l.
Proof.
  unfold runtime_assignment.
  assert (∀ m, foldl (λ matched '(candidate, environment),
      if constant_time_eq (bytes_of candidate) (bytes_of token) then Some environment else matched) m l = None →
    m = None ∧ ∀ environment, (token, environment) ∉ l) as H.
  { induction l as [|[t e] l IH]; intros m; simpl; [intros ->; split; [done|]; by intros environment ?%not_elem_of_nil|].
    intros [Hm Hl]%IH. destruct (constant_time_eq _ _) eqn:Heq; [done|]. split; [done|].
    intros environment [[= <- <-]|?]%elem_of_cons; [|by eapply Hl].
    by rewrite (proj2 (constant_time_eq_iff _ _) eq_refl) in Heq. }
  intros Hm. by destruct (H None Hm).
Qed.

(** ** What a handler learns *)

Inductive delivery_fact :=
| ClockRead (now : Z)
| Unattested (environment : string)
| IsCredential (digest : string) (r : CredentialRecord)
| IsPending (environment : string) (p : Plan)
| IsCompatible (environment release : string)
| IsPlaced (environment release : string)
| NotHeld (p : Plan)
| IsClaimed (environment plan holder : string) (row : ClaimRow)
| IsRenewed (plan holder : string) (generation : Z) (row : ClaimRow)
| IsDurable (plan holder : string) (row : ClaimRow)
| IsValid (environment : string) (c : RuntimeCompletion)
| IsStored (plan holder : string) (generation : Z) (json : string)
| HasLapsed (environment plan json : string).

Definition delivery_learnt (X : Type) (e : delivery_effect X) : X → list delivery_fact :=
  match e in delivery_effect X return X → list delivery_fact with
  | OnLease e => match e in lease_effect X return X → list delivery_fact with
                 | LeaseNow => λ now, [ClockRead now]
                 | _ => λ _, []
                 end
  | AttestationRequired environment => λ x, match x with Ok false => [Unattested environment] | _ => [] end
  | ReadCredential digest => λ x, match x with Ok (Some r) => [IsCredential digest r] | _ => [] end
  | PendingWork environment => λ x, match x with Ok (Some p) => [IsPending environment p] | _ => [] end
  | RequireCompatible environment release => λ x, match x with Cleared => [IsCompatible environment release] | _ => [] end
  | RequirePlacement environment release => λ x, match x with Cleared => [IsPlaced environment release] | _ => [] end
  | HeldBack p => λ x, match x with Ok false => [NotHeld p] | _ => [] end
  | ClaimPlan environment plan holder _ => λ x, match x with Ok (Some row) => [IsClaimed environment plan holder row] | _ => [] end
  | RenewPlan plan holder generation _ => λ x, match x with Ok (Some row) => [IsRenewed plan holder generation row] | _ => [] end
  | DurableCompletion plan holder => λ x, match x with Ok (Some row) => [IsDurable plan holder row] | _ => [] end
  | ValidateCompletion environment c => λ x, match x with Ok _ => [IsValid environment c] | _ => [] end
  | StoreClaimCompletion plan holder generation json => λ x, match x with Ok _ => [IsStored plan holder generation json] | _ => [] end
  | LapsedCompletion environment plan _ => λ x, match x with Ok (Some json) => [HasLapsed environment plan json] | _ => [] end
  | _ => λ _, []
  end.

Section Learned.
Context {E : PlanEncoding} {RC : RunnerCa} {CJ : CompletionJson}.

(** The caller may act in the environment: a static token assigned to it, or
    a registered credential of it that is not revoked. *)
Definition entitled (d : DeliverySetup) (environment : string) (id : RuntimeIdentity) (w : list delivery_fact) : Prop :=
  (∃ token, (token, environment) ∈ assignments d ∧ id_owner id = runtime_owner token (id_instance id))
  ∨ ∃ r name, IsCredential (runner_id id) r ∈ w ∧ credential_revoked r = None ∧ credential_environment r = environment
      ∧ id_owner id = runtime_owner name (id_instance id) ∧ (runner_id id = name ∨ runner_id id = token_digest name).

(** The credential is registered for the environment and not revoked. *)
Definition unrevoked (environment digest : string) (w : list delivery_fact) : Prop :=
  ∃ r, IsCredential digest r ∈ w ∧ credential_revoked r = None ∧ credential_environment r = environment.

(** What the caller presented admits it to the environment, as the runtime the
    identity names.  The owner of the claims it makes is computed from its own
    token, or from the runner its own certificate names, and its instance. *)
Inductive presents (d : DeliverySetup) (token : option string) (caller : RuntimeCaller) (environment : string)
    (id : RuntimeIdentity) (w : list delivery_fact) : Prop :=
| PresentsToken t :
    token = Some t → t ≠ "" →
    (caller_certificate caller = None ∨ has_runner_ca d = false) →
    ((t, environment) ∈ assignments d
     ∨ (∀ other, (t, other) ∉ assignments d) ∧ unrevoked environment (token_digest t) w) →
    runner_id id = token_digest t →
    id_owner id = runtime_owner t (id_instance id) →
    (has_core d = true → Unattested environment ∈ w) →
    presents d token caller environment id w
| PresentsCertificate certificate now :
    caller_certificate caller = Some certificate → has_runner_ca d = true →
    ClockRead now ∈ w → ca_verify certificate (Z.quot now 1000) = Some (environment, runner_id id) →
    unrevoked environment (runner_id id) w →
    id_owner id = runtime_owner (runner_id id) (id_instance id) →
    presents d token caller environment id w.

(** The runtime admitted is the one calling. *)
Record admitted (d : DeliverySetup) (token : option string) (caller : RuntimeCaller) (environment : string)
    (id : RuntimeIdentity) (w : list delivery_fact) : Prop := {
  ad_instance : caller_instance caller = Some (id_instance id);
  ad_length : 1 ≤ str_len (id_instance id) ≤ 128;
  ad_presents : presents d token caller environment id w
}.

(** A completion may be applied: it was validated and is stored under the
    claim of a runtime entitled to the environment, or it is what a claim that
    lapsed there had stored. *)
Definition completion_due (d : DeliverySetup) (environment : string) (c : RuntimeCompletion) (w : list delivery_fact) : Prop :=
  (∃ id, entitled d environment id w ∧ IsValid environment c ∈ w
     ∧ IsStored (completion_plan_id c) (id_owner id) (completion_generation c) (completion_json c) ∈ w)
  ∨ ∃ p json, IsPending environment p ∈ w ∧ HasLapsed environment (plan_id_of p) json ∈ w ∧ completion_of_json json = Some c.

Definition delivery_allowed (d : DeliverySetup) (X : Type) (e : delivery_effect X) (w : list delivery_fact) : Prop :=
  match e with CompleteWork environment c => completion_due d environment c w | _ => True end.

Definition delivery_semantics (d : DeliverySetup) : Semantics delivery_effect (list delivery_fact) :=
  learning delivery_learnt (delivery_allowed d).

Context (d : DeliverySetup).

Notation handles p Q w := (reads delivery_learnt (delivery_allowed d) (λ _, true) p Q w).

Lemma anything_extends (w w' : list delivery_fact) : w `suffix_of` w' → extends (λ _, true) w w'.
Proof. intros [k ->]. exists k. split; [done|]. by apply forallb_elem. Qed.

Lemma handles_do {X A} (e : delivery_effect X) (f : X → delivery_prog A) Q w :
  delivery_allowed d X e w → (∀ x, handles (f x) Q (delivery_learnt X e x ++ w)) → handles (do x := perform e in f x) Q w.
Proof.
  intros Ha Hf. eapply reads_bind with (Q := λ x w', w' = delivery_learnt X e x ++ w).
  - apply learns_perform; [done|]. intros x. split; [|done]. apply anything_extends. by exists (delivery_learnt X e x).
  - intros x ? _ ->. apply Hf.
Qed.

Lemma handles_asking {A} failed (e : delivery_effect (result A string)) (Q : A → list delivery_fact → Prop) w :
  delivery_allowed d _ e w → (∀ a, Q a (delivery_learnt _ e (Ok a) ++ w)) → handles (asking failed e) Q w.
Proof.
  intros Ha HQ. apply handles_do; [done|]. intros [a|text]; apply reads_ret; simpl; [apply HQ|done].
Qed.

Lemma entitled_mono environment id w w' : extends (λ _, true) w w' → entitled d environment id w → entitled d environment id w'.
Proof.
  intros Hx%extends_suffix [H|(r & name & Hr & H)]; [by left|]. right. exists r, name. split; [|done].
  by eapply suffix_elem.
Qed.

Lemma unrevoked_mono environment digest w w' :
  w `suffix_of` w' → unrevoked environment digest w → unrevoked environment digest w'.
Proof. intros Hs (r & Hr & H). exists r. split; [|done]. by eapply suffix_elem. Qed.

Lemma admitted_mono token caller environment id w w' :
  extends (λ _, true) w w' → admitted d token caller environment id w → admitted d token caller environment id w'.
Proof.
  intros Hx%extends_suffix [Hi Hl Hp]. split; [done|done|].
  destruct Hp as [t Ht Hne Hc Ha Hr Ho Hu|certificate now Hc Hca Hnow Hv Hr Ho].
  - eapply PresentsToken; try done.
    + destruct Ha as [?|[Hn Ha]]; [by left|right; split; [done|by eapply unrevoked_mono]].
    + intros Hcore. by eapply suffix_elem, Hu.
  - eapply PresentsCertificate; try done; [by eapply suffix_elem|by eapply unrevoked_mono].
Qed.

(** A runtime that was admitted is entitled to act in the environment. *)
Lemma admitted_entitled token caller environment id w :
  admitted d token caller environment id w → entitled d environment id w.
Proof.
  intros [_ _ [t Ht _ _ [Ha|[_ (r & Hr & Hn & He)]] Hrun Ho _|certificate now _ _ _ _ (r & Hr & Hn & He) Ho]].
  - left. by exists t.
  - right. exists r, t. rewrite Hrun. split_and!; try done. by right.
  - right. exists r, (runner_id id). split_and!; try done. by left.
Qed.

(** ** Admission *)

Lemma valid_instance_ok instance i :
  valid_instance instance = Some i → instance = Some i ∧ 1 ≤ str_len i ≤ 128.
Proof.
  destruct instance as [j|]; [|done]. cbn. destruct (str_is_empty j) eqn:He; [done|]. simpl.
  destruct (str_len j <=? 128) eqn:Hl; simpl; [|done]. destruct (all_bytes _ j); [|done]. intros [= ->].
  split; [done|]. apply Z.leb_le in Hl. split; [|done]. destruct i; [done|]. unfold str_len. simpl. lia.
Qed.

(** Without a certificate, attestation is looked at after the token. *)
Definition token_admitted (token : option string) (caller : RuntimeCaller) (environment : string) (id : RuntimeIdentity)
    (w : list delivery_fact) : Prop :=
  (Unattested environment ∈ w ∨ has_core d = false) → admitted d token caller environment id w.

Lemma admit_bearer_handles token caller environment w :
  (caller_certificate caller = None ∨ has_runner_ca d = false) →
  handles (admit_bearer d token (caller_instance caller) environment)
    (λ id w', ∀ w'', extends (λ _, true) w' w'' → token_admitted token caller environment id w'') w.
Proof.
  intros Hnocert. unfold admit_bearer. destruct token as [t|]; [|by apply reads_ret].
  destruct (str_is_empty t) eqn:Hne; [by apply reads_ret|].
  eapply reads_try with (Q := λ assigned w', (t, assigned) ∈ assignments d
    ∨ (∀ other, (t, other) ∉ assignments d) ∧ unrevoked assigned (token_digest t) w').
  - destruct (runtime_assignment _ _) as [e|] eqn:He; [apply reads_ret; left; by apply runtime_assignment_in|].
    unfold enrolled_environment. destruct (negb _); [by apply reads_ret|]. apply handles_do; [done|].
    intros [[r|]|text]; apply reads_ret; simpl; try done. destruct (credential_revoked r) eqn:Hr; simpl; [done|].
    right. split; [by apply runtime_assignment_none|]. exists r. split; [left|done].
  - intros assigned w' _ Has. apply reads_ret. destruct (valid_instance _) as [i|] eqn:Hi; simpl; [|done].
    apply valid_instance_ok in Hi as [Hi Hlen].
    case_bool_decide as Heq; simpl; [|done]. subst assigned. intros w'' Hx%extends_suffix Hatt. split; [done|done|].
    eapply PresentsToken; try done.
    + by intros ->.
    + destruct Has as [?|[? ?]]; [by left|right; split; [done|by eapply unrevoked_mono]].
    + intros Hcore. destruct Hatt as [?|?]; [done|congruence].
Qed.

Lemma admit_certificate_handles token caller certificate environment w :
  caller_certificate caller = Some certificate → has_runner_ca d = true →
  handles (admit_certificate certificate (caller_instance caller) environment) (admitted d token caller environment) w.
Proof.
  intros Hc Hca. unfold admit_certificate. apply handles_do; [done|]. intros now. simpl.
  destruct (ca_verify _ _) as [[env runner]|] eqn:Hv; [|by apply reads_ret].
  destruct (valid_instance _) as [i|] eqn:Hi; [|by apply reads_ret]. apply valid_instance_ok in Hi as [Hi Hlen].
  apply handles_do; [done|]. intros [[r|]|text]; apply reads_ret; simpl; try done.
  destruct (credential_revoked r) eqn:Hr; simpl; [done|]. case_bool_decide as He; [|done]. case_bool_decide as He'; [|done].
  subst environment. split; [done|done|].
  eapply (PresentsCertificate _ _ _ _ _ _ certificate now); try done; [right; left|]. exists r. split; [left|done].
Qed.

Lemma admit_work_handles token caller environment w :
  handles (admit_work d token caller environment) (admitted d token caller environment) w.
Proof.
  unfold admit_work, admit_caller.
  destruct (caller_certificate caller) as [certificate|] eqn:Hc; [destruct (has_runner_ca d) eqn:Hca|]; simpl.
  1: { eapply reads_try; [by apply admit_certificate_handles|]. intros id w' _ Had. by apply reads_ret. }
  all: (eapply reads_try; [apply admit_bearer_handles; by auto|]; intros id w' _ Had).
  all: (destruct (has_core d) eqn:Hcore; [|apply reads_ret; apply (Had w'); [apply extends_refl|by right]]).
  all: (apply handles_do; [done|]; intros [[|]|text]; simpl; [|apply reads_ret|by apply reads_ret]).
  all: try (apply handles_do; [done|]; intros u; by apply reads_ret).
  all: (apply Had; [apply anything_extends; by repeat apply suffix_cons_r|by left; left]).
Qed.

(** ** Work *)

Lemma each_release_handles (check : string → delivery_effect preflight) missing (fact : string → delivery_fact) l w :
  (∀ release x, delivery_learnt _ (check release) x = match x with Cleared => [fact release] | _ => [] end) →
  (∀ release w, delivery_allowed d _ (check release) w) →
  handles (each_release check missing l) (λ _ w', ∀ s, s ∈ l → fact (step_release_id s) ∈ w') w.
Proof.
  intros Hlearnt Hallowed. unfold each_release.
  eapply reads_mono; [eapply (reads_each _ _ _ _ (λ _ rest w', ∀ s, s ∈ l → s ∈ rest ∨ fact (step_release_id s) ∈ w'))|].
  - intros s Hs. by left.
  - intros u s rest w' HI. apply handles_do; [done|]. intros x. rewrite Hlearnt.
    destruct x; apply reads_ret; simpl; try done. split; [done|]. intros s' Hs'.
    destruct (HI s' Hs') as [[->|?]%elem_of_cons|?]; [right; left|by left|right; by right].
  - intros u w' _ H s Hs. destruct (H s Hs) as [?%not_elem_of_nil|?]; done.
Qed.

Lemma lease_quiet {A} (p : prog lease_effect A) w :
  learns delivery_learnt (delivery_allowed d) (on_lease p) (λ _ w', extends (λ _, true) w w' ∧ True) w.
Proof.
  unfold on_lease. revert w. induction p as [a|X e k IH]; intros w; simpl.
  - apply learns_ret. split; [apply extends_refl|done].
  - apply learns_do; [done|]. intros x. eapply learns_mono; [apply IH|]. intros ? ? _ [Hx _]. split; [|done].
    eapply extends_trans; [|exact Hx]. apply anything_extends. by eexists.
Qed.

(** What was checked before a plan is handed out. *)
Record work_checked (environment : string) (id : RuntimeIdentity) (p : Plan) (claim : ClaimRow) (w : list delivery_fact) : Prop := {
  wc_pending : IsPending environment p ∈ w;
  wc_compatible s : s ∈ steps p → IsCompatible environment (step_release_id s) ∈ w;
  wc_not_held : plan_state p = Computed → NotHeld p ∈ w;
  wc_claimed :
    (IsClaimed environment (plan_id_of p) (id_owner id) claim ∈ w
     ∧ (claim_completion claim = None →
        plan_state p ≠ Running ∧ ∀ s, s ∈ steps p → IsPlaced environment (step_release_id s) ∈ w))
    ∨ IsDurable (plan_id_of p) (id_owner id) claim ∈ w
}.

Definition work_ok (environment : string) (id : RuntimeIdentity) (r : RuntimeWork) (w : list delivery_fact) : Prop :=
  r = no_work environment ∨ ∃ p claim, r = handed environment p claim ∧ work_checked environment id p claim w.

(** What is known of the plan when its claim is asked for. *)
Record chosen (environment : string) (p : Plan) (w : list delivery_fact) : Prop := {
  ch_pending : IsPending environment p ∈ w;
  ch_compatible s : s ∈ steps p → IsCompatible environment (step_release_id s) ∈ w;
  ch_not_held : plan_state p = Computed → NotHeld p ∈ w
}.

Lemma chosen_mono environment p w w' : w `suffix_of` w' → chosen environment p w → chosen environment p w'.
Proof. intros Hs [H1 H2 H3]. split; [|intros s ?|intros ?]; (eapply suffix_elem; [done|auto]). Qed.

Lemma hand_out_handles environment id p claim w :
  chosen environment p w → IsClaimed environment (plan_id_of p) (id_owner id) claim ∈ w →
  handles (hand_out environment p claim) (work_ok environment id) w.
Proof.
  intros Hch Hcl. unfold hand_out. destruct (_ && _) eqn:Hr.
  { eapply reads_try with (Q := λ _ _, True); [by apply handles_asking|]. intros u w' _ _. apply reads_ret. by left. }
  eapply reads_try with (Q := λ _ w', claim_completion claim = None →
    ∀ s, s ∈ steps p → IsPlaced environment (step_release_id s) ∈ w').
  - destruct (claim_completion claim); simpl; [by apply reads_ret|].
    eapply reads_mono; [by apply (each_release_handles _ _ (IsPlaced environment))|]. by intros u w' _ H _.
  - intros u w' Hx%extends_suffix Hp. apply reads_ret. right. exists p, claim. split; [done|].
    destruct (chosen_mono _ _ _ _ Hx Hch) as [H1 H2 H3]. split; [done..|]. left. split; [by eapply suffix_elem|].
    intros Hn. split; [|by apply Hp]. intros Hrun. by rewrite Hn, (bool_decide_eq_true_2 _ Hrun) in Hr.
Qed.

Lemma settle_lapsed_handles environment id p w :
  IsPending environment p ∈ w → handles (settle_lapsed environment p) (work_ok environment id) w.
Proof.
  intros Hp. unfold settle_lapsed. apply handles_do; [done|]. intros now. simpl.
  eapply reads_try with (Q := λ lapsed w', w `suffix_of` w' ∧ ∀ json, lapsed = Some json → HasLapsed environment (plan_id_of p) json ∈ w').
  { apply handles_asking; [done|]. intros [json|]; simpl; (split; [by repeat apply suffix_cons_r|]).
    - intros j [= <-]. left.
    - done. }
  intros [json|] w' _ [Hs Hj]; [|apply reads_ret; by left].
  destruct (completion_of_json json) as [c|] eqn:Hc; [|by apply reads_ret].
  eapply reads_try with (Q := λ _ _, True); [|intros u w'' _ _; apply reads_ret; by left].
  apply handles_asking; [|done]. right. exists p, json. split_and!; [by eapply suffix_elem|by apply Hj|done].
Qed.

Lemma claim_chosen_handles environment id p w :
  IsPending environment p ∈ w → handles (claim_chosen environment id p) (work_ok environment id) w.
Proof.
  intros Hp. unfold claim_chosen.
  eapply reads_try; [by apply (each_release_handles _ _ (IsCompatible environment))|]. intros u w1 X1%extends_suffix Hcomp.
  eapply reads_try with (Q := λ held w', w1 `suffix_of` w' ∧ (held = false → plan_state p = Computed → NotHeld p ∈ w')).
  { case_bool_decide.
    - apply handles_asking; [done|]. intros [|]; simpl; (split; [by repeat apply suffix_cons_r|]); [done|]. intros _ _. left.
    - apply reads_ret. by split. }
  intros [|] w2 _ [X2 Hheld]; [apply reads_ret; by left|].
  assert (Hch : chosen environment p w2).
  { split; [eapply suffix_elem; [etrans; [exact X1|exact X2]|done]|intros s Hs; eapply suffix_elem; [done|by apply Hcomp]|by apply Hheld]. }
  apply handles_do; [done|]. intros [|]; simpl.
  - apply handles_do; [done|]. intros now. simpl.
    eapply reads_try with (Q := λ claim w', w2 `suffix_of` w' ∧ ∀ row, claim = Some row →
      IsClaimed environment (plan_id_of p) (id_owner id) row ∈ w').
    { apply handles_asking; [done|]. intros [row|]; simpl; (split; [by repeat apply suffix_cons_r|]); [|done]. intros r [= <-]. left. }
    intros [row|] w3 _ [X3 Hrow].
    + apply hand_out_handles; [by eapply chosen_mono|by apply Hrow].
    + apply settle_lapsed_handles. eapply suffix_elem; [done|apply Hch].
  - apply handles_do; [done|]. intros [[row|]|text]; apply reads_ret; simpl; try done.
    right. exists p, row. split; [done|]. destruct Hch as [H1 H2 H3].
    split; [by right|intros s Hs; right; by apply H2|intros Hst; right; by apply H3|right; left].
Qed.

Lemma claim_work_handles token caller environment w :
  handles (claim_work d token caller environment)
    (λ r w', ∃ id, admitted d token caller environment id w' ∧ work_ok environment id r w') w.
Proof.
  unfold claim_work. eapply reads_try; [apply admit_work_handles|]. intros id w1 X1 Hid.
  assert (Hnone : ∀ w', extends (λ _, true) w1 w' → handles (Ret (Ok (no_work environment)) : delivery_prog RuntimeWork)
    (λ r w', ∃ id, admitted d token caller environment id w' ∧ work_ok environment id r w') w').
  { intros w' Hx. apply reads_ret. exists id. split; [by eapply admitted_mono|by left]. }
  apply handles_do; [done|]. intros u. cbn [delivery_learnt app]. destruct (has_core d); cbn [negb]; [|by apply reads_ret].
  eapply reads_bind; [apply lease_quiet|]. intros may w2 X2 _.
  assert (Xw : extends (λ _, true) w1 w2).
  { eapply extends_trans; [|exact X2]. apply anything_extends. by repeat apply suffix_cons_r. }
  destruct may as [[|]|]; [|by apply Hnone|by apply reads_ret].
  eapply reads_try with (Q := λ p w', extends (λ _, true) w1 w' ∧ ∀ q, p = Some q → IsPending environment q ∈ w').
  { apply handles_asking; [done|]. intros [q|]; simpl; (split; [eapply extends_trans; [exact Xw|]; apply anything_extends; by repeat apply suffix_cons_r|]); [|done].
    intros q' [= <-]. left. }
  intros [p|] w3 _ [X3 Hp]; [|by apply Hnone].
  eapply reads_mono; [by apply claim_chosen_handles, Hp|]. intros r w4 X4 Hr. exists id. split; [|done].
  eapply admitted_mono; [|exact Hid]. by eapply extends_trans.
Qed.

Lemma complete_handles token caller environment c w :
  handles (complete d token caller environment c) (λ _ _, True) w.
Proof.
  unfold complete. eapply reads_try; [apply admit_work_handles|]. intros id w1 X1 Hid. cbv zeta.
  eapply reads_try with (Q := λ _ w', extends (λ _, true) w1 w' ∧ IsValid environment c ∈ w').
  { apply handles_asking; [done|]. intros u. split; [apply anything_extends; by repeat apply suffix_cons_r|left]. }
  intros u w2 _ [X2 Hv].
  eapply reads_try with (Q := λ _ w', extends (λ _, true) w2 w'
    ∧ IsStored (completion_plan_id c) (id_owner id) (completion_generation c) (completion_json c) ∈ w').
  { apply handles_asking; [done|]. intros u'. split; [apply anything_extends; by repeat apply suffix_cons_r|left]. }
  intros u' w3 _ [X3 Hst]. apply handles_asking; [|done]. left. exists id. split_and!; [|by eapply suffix_elem; [eapply extends_suffix, X3|]|done].
  eapply entitled_mono; [|by eapply admitted_entitled]. by eapply extends_trans.
Qed.
End Learned.

Section Delivery.
Context {E : PlanEncoding} {RC : RunnerCa} {CJ : CompletionJson}.

(** C16: whatever the store and the application core answer, a runtime is
    handed a plan only on what it presented itself.  With a certificate and a
    runner CA, the certificate verifies at the time read and names the
    environment and a registered, unrevoked credential of it; otherwise its own
    token is assigned to the environment, or is assigned to none and is a
    registered, unrevoked credential of it, and the environment does not
    require attestation.  The plan is what is pending in that environment,
    every release in it was found compatible, and a plan not yet begun was not
    held back.  The claim was asked for as the owner its token, or the runner
    its certificate names, and its instance make: either it was granted, in
    which case a plan without a stored completion was not begun by the server
    and the placement of every release was cleared, or that owner's stored
    completion is replayed. *)
Theorem work_handed_out_checked d token caller environment r w p :
  runs (delivery_semantics d) (claim_work d token caller environment) [] (Ok r) w → work_plan r = Some p →
  ∃ id claim, work_claim r = Some claim ∧ work_environment r = environment ∧ admitted d token caller environment id w
    ∧ work_checked environment id p claim w.
Proof.
  intros Hr Hp. eapply learns_runs in Hr; [|apply claim_work_handles]. destruct Hr as [_ (id & Hid & [->|(q & claim & -> & Hw)])]; [done|].
  simpl in *. simplify_eq. by exists id, claim.
Qed.

(** C17: the outcome of a plan is recorded only from a completion that was
    validated and stored under the claim of a runtime entitled to the
    environment, or from one a lapsed claim on the pending plan had stored. *)
Theorem completions_applied_when_due d token caller environment c :
  (∀ c' w, reaches (delivery_semantics d) (CompleteWork environment c') (complete d token caller environment c) [] w →
     completion_due d environment c' w)
  ∧ ∀ c' w, reaches (delivery_semantics d) (CompleteWork environment c') (claim_work d token caller environment) [] w →
      completion_due d environment c' w.
Proof.
  split; intros c' w Hr.
  - exact (learns_reaches _ _ _ _ _ _ _ (complete_handles d token caller environment c []) Hr).
  - exact (learns_reaches _ _ _ _ _ _ _ (claim_work_handles d token caller environment []) Hr).
Qed.
End Delivery.

Module DeliveryExamples.
#[local] Existing Instance PlainEncoding.instance.

#[local] Instance no_ca : RunnerCa := {| ca_verify _ _ := None |}.
#[local] Instance one_completion : CompletionJson := {|
  completion_json _ := "done"; completion_of_json s := if bool_decide (s = "done") then Some (CompletionExamples.report true) else None |}.

Definition host : DeliverySetup := {| assignments := []; has_runner_ca := false; has_core := true |}.

Definition caller : RuntimeCaller :=
  {| caller_instance := Some "i-1"; caller_version := None; caller_certificate := None |}.

Definition quiet_store (X : Type) (e : lease_effect X) : X :=
  match e in lease_effect X return X with
  | LeaseNow => 100
  | TrustedTime => true
  | ReadObject _ => Ok None
  | CreateOnce _ => Created
  | PutObject _ => Ok tt
  | DeleteObject _ => Ok tt
  | ReadLinks _ => Ok []
  | LinkOnce _ => Created
  | Unlink _ => Ok tt
  | ReadLease _ => Ok None
  | AcquireLease _ _ _ => Err HeldAlready
  | TakeoverLease _ _ _ _ _ => Err LeaseExists
  | ReleaseLease _ _ => Ok tt
  | GuardedUpdate _ _ _ => Ok tt
  | RefreshLeases _ _ _ _ => Ok []
  | FreshUuid => "u"
  end.

Definition row (plan holder : string) : ClaimRow := {|
  claim_plan := plan; claim_environment := "prod"; claim_owner := holder; claim_generation := 1;
  claim_expires := 120100; claim_completion := None |}.

(** A plan is pending; its claim is granted. *)
Definition granting (X : Type) (e : delivery_effect X) : X :=
  match e in delivery_effect X return X with
  | OnLease e => quiet_store _ e
  | ReadCredential digest => Ok (Some {| credential_digest := digest; credential_environment := "prod";
      enrollment_digest := ""; credential_created := 0; credential_revoked := None |})
  | AttestationRequired _ => Ok false
  | RefuseAttestation _ _ _ => tt
  | RecordActivity _ _ _ _ => tt
  | PendingWork _ => Ok (Some CompletionExamples.web_plan)
  | RequireCompatible _ _ => Cleared
  | RequirePlacement _ _ => Cleared
  | HeldBack _ => Ok false
  | DurableCompletion _ _ => Ok None
  | ClaimPlan _ plan holder _ => Ok (Some (row plan holder))
  | RenewPlan plan holder _ _ => Ok (Some (row plan holder))
  | StoreClaimCompletion _ _ _ _ => Ok tt
  | LapsedCompletion _ _ _ => Ok None
  | FailPlan _ _ => Ok tt
  | LoadPlan _ => Ok CompletionExamples.web_plan
  | ValidateCompletion _ _ => Ok tt
  | CompleteWork _ _ => Ok tt
  | ApplyInventory _ _ => Ok []
  | MintSecret prefix => Ok (prefix +:+ "secret")
  | CreateEnrollment _ _ _ _ => Ok tt
  | EnrollmentUsable _ _ _ => Ok true
  | EnrollmentBinding _ _ => Ok None
  | RedeemEnrollment environment token credential now _ => Ok {| credential_digest := credential;
      credential_environment := environment; enrollment_digest := token; credential_created := now; credential_revoked := None |}
  | RevokeCredential _ _ _ _ => Ok tt
  | CheckCsr _ => true
  | IssueCertificate _ _ _ _ _ => Ok "certificate"
  | NoteCertificate _ _ => tt
  | AuditRecord _ _ => Ok tt
  end.

Definition claiming : delivery_prog RuntimeWork := claim_work host (Some "tkr_secret") caller "prod".

Definition outcome : result RuntimeWork RuntimeDeliveryError * list delivery_fact :=
  run (delivery_semantics host) granting claiming [].

Definition work : RuntimeWork := match outcome.1 with Ok r => r | Err _ => no_work "" end.

Lemma work_handed_out_checked_witness :
  is_some_b (work_plan work) = true
  ∧ ∃ claim, work_claim work = Some claim
    ∧ unrevoked "prod" (token_digest "tkr_secret") outcome.2
    ∧ ∀ s, s ∈ steps CompletionExamples.web_plan → IsCompatible "prod" (step_release_id s) ∈ outcome.2.
Proof.
  split; [vm_compute; reflexivity|].
  assert (Hw : outcome.1 = Ok work) by (vm_compute; reflexivity).
  assert (Hr : runs (delivery_semantics host) claiming [] (Ok work) outcome.2)
    by (rewrite <- Hw; apply run_runs).
  assert (Hp : work_plan work = Some CompletionExamples.web_plan) by (vm_compute; reflexivity).
  destruct (work_handed_out_checked host (Some "tkr_secret") caller "prod" work outcome.2 _ Hr Hp)
    as (id & claim & Hcl & _ & [_ _ Hpr] & Hc).
  exists claim. split; [exact Hcl|]. split; [|exact (wc_compatible _ _ _ _ _ Hc)].
  destruct Hpr as [t Ht _ _ [Ha|[_ Hu]] _ _ _|certificate now Hcert _ _ _ _ _].
  - exfalso. inversion Ha.
  - injection Ht as <-. exact Hu.
  - discriminate Hcert.
Defined.

Definition secret_record : CredentialRecord := {|
  credential_digest := token_digest "tkr_secret"; credential_environment := "prod";
  enrollment_digest := ""; credential_created := 0; credential_revoked := None |}.

(** The completion is applied after it was stored. *)
Definition stored_facts : list delivery_fact :=
  [IsStored CompletionExamples.web_plan_id (runtime_owner "tkr_secret" "i-1") 1 "done";
   IsValid "prod" (CompletionExamples.report true);
   Unattested "prod";
   IsCredential (token_digest "tkr_secret") secret_record].

Lemma completions_applied_when_due_witness :
  completion_due host "prod" (CompletionExamples.report true) stored_facts.
Proof.
  refine (proj1 (completions_applied_when_due host (Some "tkr_secret") caller "prod" (CompletionExamples.report true))
            (CompletionExamples.report true) stored_facts _).
  unfold complete, admit_work, admit_caller, admit_bearer, enrolled_environment.
  refine (reaches_later _ _ _ _ (Ok (Some secret_record)) _ _ _).
  refine (reaches_later _ _ _ _ (Ok false) _ _ _).
  refine (reaches_later _ _ _ _ (Ok tt) _ _ _).
  refine (reaches_later _ _ _ _ (Ok tt) _ _ _).
  apply reaches_here.
Defined.

(** A server that has begun the plan stopped: its plan is failed, not run again. *)
Example begun_plan_is_failed :
  let begun (X : Type) (e : delivery_effect X) : X :=
    match e in delivery_effect X return X with
    | PendingWork _ => Ok (Some (Transition_apply (Transition_new Running "") CompletionExamples.web_plan))
    | e => granting _ e
    end in
  (run (delivery_semantics host) begun claiming []).1 = Ok (no_work "prod").
Proof. vm_compute. reflexivity. Qed.
End DeliveryExamples.
