(* ===== verification/RuntimeHandoff.v ===== *)
(** * Servers and runtimes on one store

    [apply/execution_lease.rs], [runtime_credentials.rs],
    [storage/runtime_enrollment.rs] and the handlers of [runtime_delivery.rs]
    together: several servers claim, renew and give up environments, enroll
    runtimes and hand them plans, one statement of the store at a time, in any
    order, with statements that fail or whose answer is lost, and with clocks
    that move either way.  A server that executes an environment and a
    runtime that was handed a plan of it never both hold it. *)

From S2P Require Import Prelude RustStr Kinds Plan ObjectStore Leases Effects Interleaving ExecutionLease Outcomes RuntimeClaims RuntimeCompletion RuntimeDelivery.

(** ** The world *)

Inductive handoff_request :=
| RequestExecution (environment claimant : string)
| RequestEnvironment (environment claimant : string)
| RequestDrill (environment claimant : string)
| RequestRelease (lease : EnvironmentLease)
| RequestRefresh (held : list HeldExecutionLease) (lease : EnvironmentLease)
| RequestUnlock (environment : string)
| RequestInspect (environment : string)
| RequestEnrollment (environment actor : string) (ttl_seconds : Z)
| RequestEnroll (environment token : string) (csr : option string)
| RequestWork (token : option string) (caller : RuntimeCaller) (environment : string)
| RequestComplete (token : option string) (caller : RuntimeCaller) (environment : string) (c : RuntimeCompletion)
| RequestRenew (token : option string) (caller : RuntimeCaller) (environment : string) (h : RuntimeHeartbeat).

Inductive handoff_answer :=
| ExecutionAnswer (r : result EnvironmentLease handoff_error)
| WorkAnswer (r : result RuntimeWork RuntimeDeliveryError)
| OtherAnswer (ok : bool).

Record HandoffWorld := {
  hw_clock : Z; hw_catalog : Catalog; hw_objects : Store;
  (** The environments linked to their claim object. *)
  hw_links : gset string;
  hw_enrollments : gmap string EnrollmentRow; hw_credentials : gmap string CredentialRecord;
  (** The fencing tokens given out. *)
  hw_issued : gset string;
  hw_log : list (handoff_request * handoff_answer)
}.

Definition with_catalog (w : HandoffWorld) (c : Catalog) (issued : gset string) : HandoffWorld := {|
  hw_clock := hw_clock w; hw_catalog := c; hw_objects := hw_objects w; hw_links := hw_links w;
  hw_enrollments := hw_enrollments w; hw_credentials := hw_credentials w; hw_issued := issued; hw_log := hw_log w |}.

Definition with_store_objects (w : HandoffWorld) (o : Store) : HandoffWorld := {|
  hw_clock := hw_clock w; hw_catalog := hw_catalog w; hw_objects := o; hw_links := hw_links w;
  hw_enrollments := hw_enrollments w; hw_credentials := hw_credentials w; hw_issued := hw_issued w; hw_log := hw_log w |}.

Definition with_store_links (w : HandoffWorld) (l : gset string) : HandoffWorld := {|
  hw_clock := hw_clock w; hw_catalog := hw_catalog w; hw_objects := hw_objects w; hw_links := l;
  hw_enrollments := hw_enrollments w; hw_credentials := hw_credentials w; hw_issued := hw_issued w; hw_log := hw_log w |}.

Definition with_runners (w : HandoffWorld) (en : gmap string EnrollmentRow) (cr : gmap string CredentialRecord) :
    HandoffWorld := {|
  hw_clock := hw_clock w; hw_catalog := hw_catalog w; hw_objects := hw_objects w; hw_links := hw_links w;
  hw_enrollments := en; hw_credentials := cr; hw_issued := hw_issued w; hw_log := hw_log w |}.

(** How a call fares, and what the parts that are not modelled here answer. *)
Record Fate := {
  fate : statement_fate; fresh : string; trusted : bool;
  says_plan : result (option Plan) string; says_row : result (option ClaimRow) string;
  says_bool : result bool string; says_unit : result unit string; says_text : result (option string) string;
  says_preflight : preflight; says_secret : result string string; says_load : result Plan string;
  says_binding : result (option Binding) RuntimeDeliveryError; says_inventory : result (list string) inventory_error
}.

Definition fares {X F} (f : statement_fate) (down : string → F) (ran : result (X * HandoffWorld) F) (w : HandoffWorld) :
    option (result X F * HandoffWorld) :=
  match ran, f with
  | Err e, _ => Some (Err e, w)
  | Ok (x, w'), Done => Some (Ok x, w')
  | Ok _, Broken text => Some (Err (down text), w)
  | Ok (_, w'), AnswerLost text => Some (Err (down text), w')
  end.

(** A record that must be new. *)
Definition creates (f : statement_fate) (exists_already : bool) (w w' : HandoffWorld) : option (create_answer * HandoffWorld) :=
  Some (match f with
        | Broken text => (CreateFailed text, w)
        | Done => if exists_already then (UniqueConflict, w) else (Created, w')
        | AnswerLost text => (CreateFailed text, if exists_already then w else w')
        end).

Notation APPLY := ENVIRONMENT_LEASE_NAMESPACE.

Definition apply_row (w : HandoffWorld) (environment : string) : option Lease :=
  catalog_leases (hw_catalog w) !! (APPLY, environment).

(** [guarded_update] of an object that exists. *)
Definition guarded_write (w : HandoffWorld) (c : Catalog) (o : Object) (environment token : string) :
    result Store lease_error :=
  let? _ := require_active_lease c (hw_clock w) APPLY environment token in
  bail_if negb (is_some_b (hw_objects w !! object_id o)) with (ObjectDoesNotExist (object_id o)) in
  Ok (<[object_id o := o]> (hw_objects w)).

(** Every statement reads the clock once. *)
Definition lease_act (X : Type) (e : lease_effect X) (c : Fate) (w : HandoffWorld) : option (X * HandoffWorld) :=
  let now := hw_clock w in
  match e in lease_effect X return option (X * HandoffWorld) with
  | LeaseNow => Some (now, w)
  | TrustedTime => Some (trusted c, w)
  | FreshUuid => Some (fresh c, w)
  | ReadObject id => fares (fate c) StoreDown (Ok (hw_objects w !! id, w)) w
  | CreateOnce o =>
    creates (fate c) (is_some_b (hw_objects w !! object_id o)) w (with_store_objects w (<[object_id o := o]> (hw_objects w)))
  | PutObject o => fares (fate c) StoreDown (Ok (tt, with_store_objects w (<[object_id o := o]> (hw_objects w)))) w
  | DeleteObject id => fares (fate c) StoreDown (Ok (tt, with_store_objects w (delete id (hw_objects w)))) w
  | ReadLinks environment =>
    fares (fate c) StoreDown
      (Ok (if bool_decide (environment ∈ hw_links w) then [object_environment_claim_id environment] else [], w)) w
  | LinkOnce environment =>
    creates (fate c) (bool_decide (environment ∈ hw_links w)) w (with_store_links w ({[environment]} ∪ hw_links w))
  | Unlink environment => fares (fate c) StoreDown (Ok (tt, with_store_links w (hw_links w ∖ {[environment]}))) w
  | ReadLease environment => fares (fate c) StoreDown (Ok (apply_row w environment, w)) w
  | AcquireLease environment holder ttl_ms =>
    if bool_decide (fresh c ∈ hw_issued w) then None
    else
      fares (fate c) (λ text, AcquireFailed (StoreDown text))
        (match acquire_namespaced_lease (hw_catalog w) now APPLY environment holder (fresh c) ttl_ms with
         | Ok (l, c') => Ok (l, with_catalog w c' ({[fresh c]} ∪ hw_issued w))
         | Err (LeaseAlreadyHeld _ _) => Err HeldAlready
         | Err e => Err (AcquireFailed (LeaseRefused e))
         end) w
  | TakeoverLease environment holder expected expires ttl_ms =>
    if bool_decide (fresh c ∈ hw_issued w) then None
    else
      fares (fate c) StoreDown
        (map_err LeaseRefused
           (let? (l, c') := takeover_namespaced_lease (hw_catalog w) now now APPLY environment holder (fresh c)
                              expected expires ttl_ms in
            Ok (l, with_catalog w c' ({[fresh c]} ∪ hw_issued w)))) w
  | ReleaseLease environment token =>
    fares (fate c) StoreDown
      (map_err LeaseRefused
         (let? (_, c') := release_namespaced_lease (hw_catalog w) now now APPLY environment token in
          Ok (tt, with_catalog w c' (hw_issued w)))) w
  | GuardedUpdate o environment token =>
    fares (fate c) StoreDown
      (map_err LeaseRefused
         (let? o := guarded_write w (hw_catalog w) o environment token in Ok (tt, with_store_objects w o))) w
  | RefreshLeases refreshes claim environment token =>
    fares (fate c) StoreDown
      (map_err LeaseRefused
         (let? (c1, leases) := try_fold (refresh_one now now) (hw_catalog w, []) refreshes in
          let? o := guarded_write w c1 (stamp_claim_expiry claim leases APPLY environment) environment token in
          Ok (leases, with_store_objects (with_catalog w c1 (hw_issued w)) o))) w
  end.

(** ** The runner registry *)

Definition create_enrollment (w : HandoffWorld) (digest environment : string) (expires : Z) (actor : string) :
    result (unit * HandoffWorld) string :=
  bail_if is_some_b (hw_enrollments w !! digest) with "runtime enrollment already exists" in
  Ok (tt, with_runners w
    (<[digest := {| enrollment_environment := environment; enrollment_expires := expires;
                    enrollment_created_by := actor; enrollment_redeemed := None |}]> (hw_enrollments w))
    (hw_credentials w)).

Definition usable (w : HandoffWorld) (environment digest : string) (now : Z) : bool :=
  is_some_and (hw_enrollments w !! digest) (λ r,
    bool_decide (enrollment_environment r = environment) && negb (is_some_b (enrollment_redeemed r))
    && (now <? enrollment_expires r)).

(** The transaction of [redeem_runtime_enrollment_sqlite]. *)
Definition redeem (w : HandoffWorld) (environment token credential : string) (now : Z) :
    result (CredentialRecord * HandoffWorld) redeem_error :=
  match hw_enrollments w !! token with
  | Some r =>
    if usable w environment token now then
      bail_if is_some_b (hw_credentials w !! credential)
              || bool_decide (map_Exists (λ _ c, enrollment_digest c = token) (hw_credentials w))
        with (RedeemFailed "UNIQUE constraint failed") in
      let record := {| credential_digest := credential; credential_environment := environment;
                       enrollment_digest := token; credential_created := now; credential_revoked := None |} in
      Ok (record, with_runners w
        (<[token := {| enrollment_environment := enrollment_environment r; enrollment_expires := enrollment_expires r;
                       enrollment_created_by := enrollment_created_by r; enrollment_redeemed := Some now |}]>
           (hw_enrollments w))
        (<[credential := record]> (hw_credentials w)))
    else Err RedeemRefused
  | None => Err RedeemRefused
  end.

(** [revoke_runtime_credential_sqlite]: the first revocation stands. *)
Definition revoke (w : HandoffWorld) (digest : string) (now : Z) : result (unit * HandoffWorld) string :=
  match hw_credentials w !! digest with
  | None => Err "runtime credential not found"
  | Some r =>
    Ok (tt, with_runners w (hw_enrollments w)
      (<[digest := {| credential_digest := credential_digest r; credential_environment := credential_environment r;
                      enrollment_digest := enrollment_digest r; credential_created := credential_created r;
                      credential_revoked := Some (default now (credential_revoked r)) |}]> (hw_credentials w)))
  end.

Definition delivery_act (X : Type) (e : delivery_effect X) (c : Fate) (w : HandoffWorld) : option (X * HandoffWorld) :=
  match e in delivery_effect X return option (X * HandoffWorld) with
  | OnLease e => lease_act _ e c w
  | ReadCredential digest => fares (fate c) id (Ok (hw_credentials w !! digest, w)) w
  | CreateEnrollment digest environment expires actor =>
    fares (fate c) id (create_enrollment w digest environment expires actor) w
  | EnrollmentUsable environment digest now => fares (fate c) id (Ok (usable w environment digest now, w)) w
  | RedeemEnrollment environment token credential now _ =>
    fares (fate c) RedeemFailed (redeem w environment token credential now) w
  | RevokeCredential digest now _ _ => fares (fate c) id (revoke w digest now) w
  | AttestationRequired _ => Some (says_bool c, w)
  | RefuseAttestation _ _ _ => Some (tt, w)
  | RecordActivity _ _ _ _ => Some (tt, w)
  | PendingWork _ => Some (says_plan c, w)
  | RequireCompatible _ _ => Some (says_preflight c, w)
  | RequirePlacement _ _ => Some (says_preflight c, w)
  | HeldBack _ => Some (says_bool c, w)
  | DurableCompletion _ _ => Some (says_row c, w)
  | ClaimPlan _ _ _ _ => Some (says_row c, w)
  | RenewPlan _ _ _ _ => Some (says_row c, w)
  | StoreClaimCompletion _ _ _ _ => Some (says_unit c, w)
  | LapsedCompletion _ _ _ => Some (says_text c, w)
  | FailPlan _ _ => Some (says_unit c, w)
  | LoadPlan _ => Some (says_load c, w)
  | ValidateCompletion _ _ => Some (says_unit c, w)
  | CompleteWork _ _ => Some (says_unit c, w)
  | ApplyInventory _ _ => Some (says_inventory c, w)
  | MintSecret _ => Some (says_secret c, w)
  | EnrollmentBinding _ _ => Some (says_binding c, w)
  | CheckCsr _ => Some (trusted c, w)
  | IssueCertificate _ _ _ _ _ => Some (says_secret c, w)
  | NoteCertificate _ _ => Some (tt, w)
  | AuditRecord _ _ => Some (says_unit c, w)
  end.

(** What else happens: clocks, the object tables, other objects and links. *)
Inductive handoff_move :=
| TickTo (t : Z)
| OtherTables (t : Tables)
| OtherObject (o : Object)
| OtherDelete (id : string)
| OtherLinks (l : gset string).

Definition handoff_moves (m : handoff_move) (w : HandoffWorld) : option HandoffWorld :=
  match m with
  | TickTo t => Some {|
      hw_clock := t; hw_catalog := hw_catalog w; hw_objects := hw_objects w; hw_links := hw_links w;
      hw_enrollments := hw_enrollments w; hw_credentials := hw_credentials w; hw_issued := hw_issued w; hw_log := hw_log w |}
  | OtherTables t => Some (with_catalog w (with_tables (hw_catalog w) t) (hw_issued w))
  | OtherObject o => Some (with_store_objects w (<[object_id o := o]> (hw_objects w)))
  (** The marker of an environment is never deleted. *)
  | OtherDelete id =>
    if starts_with (marker_id "") id then None else Some (with_store_objects w (delete id (hw_objects w)))
  | OtherLinks l => Some (with_store_links w l)
  end.

Section Handoff.
Context {E : PlanEncoding} {RC : RunnerCa} {CJ : CompletionJson} (d : DeliverySetup).

Definition done_with {A F} (p : prog delivery_effect (result A F)) : prog delivery_effect handoff_answer :=
  do a := p in Ret (OtherAnswer (match a with Ok _ => true | Err _ => false end)).

Definition begin_handoff (r : handoff_request) : prog delivery_effect handoff_answer :=
  match r with
  | RequestExecution environment claimant =>
    do a := on_lease (claim_execution_environment environment claimant) in Ret (ExecutionAnswer a)
  | RequestEnvironment environment claimant => done_with (on_lease (ExecutionLease.claim_environment environment claimant))
  | RequestDrill environment claimant => done_with (on_lease (claim_environment_for_drill environment claimant))
  | RequestRelease lease => done_with (on_lease (release_environment lease))
  | RequestRefresh held lease => done_with (on_lease (refresh_environment_lease held lease))
  | RequestUnlock environment => done_with (on_lease (unlock_environment environment))
  | RequestInspect environment => done_with (on_lease (inspect_environment_lease environment))
  | RequestEnrollment environment actor ttl => done_with (create_runtime_enrollment environment actor ttl)
  | RequestEnroll environment token csr => done_with (enroll d environment token csr)
  | RequestWork token caller environment =>
    do a := claim_work d token caller environment in Ret (WorkAnswer a)
  | RequestComplete token caller environment c => done_with (complete d token caller environment c)
  | RequestRenew token caller environment h => done_with (renew d token caller environment h)
  end.

Definition handoff_threads : Threads delivery_effect HandoffWorld handoff_request handoff_answer Fate handoff_move := {|
  begin := begin_handoff;
  act := delivery_act;
  report r a w := {|
    hw_clock := hw_clock w; hw_catalog := hw_catalog w; hw_objects := hw_objects w; hw_links := hw_links w;
    hw_enrollments := hw_enrollments w; hw_credentials := hw_credentials w; hw_issued := hw_issued w;
    hw_log := (r, a) :: hw_log w |};
  move := handoff_moves |}.

(** A store without leases, markers, enrollments or credentials. *)
Definition handoff_start (now : Z) (t : Tables) : @system delivery_effect HandoffWorld handoff_request handoff_answer :=
  at_rest {| hw_clock := now; hw_catalog := {| catalog_leases := ∅; tables := t |}; hw_objects := ∅; hw_links := ∅;
             hw_enrollments := ∅; hw_credentials := ∅; hw_issued := ∅; hw_log := [] |}.
End Handoff.

(** ** What a statement changes *)

Definition marked (w : HandoffWorld) (environment : string) : Prop := is_Some (hw_objects w !! marker_id environment).

(** The token's lease is the environment's, and neither given up nor taken
    over.  It may have run out. *)
Definition live (w : HandoffWorld) (environment token : string) : Prop :=
  ∃ l, apply_row w environment = Some l ∧ fencing_token l = token ∧ lease_status l = "active".

Definition idle (w : HandoffWorld) (environment : string) : Prop := ∀ token, ¬ live w environment token.

(** Tokens stay issued, markers stay, and a lease that is over is over. *)
Record handoff_older (w w' : HandoffWorld) : Prop := {
  ho_issued : hw_issued w ⊆ hw_issued w';
  ho_marked environment : marked w environment → marked w' environment;
  ho_over environment token : token ∈ hw_issued w → ¬ live w environment token → ¬ live w' environment token
}.

#[local] Instance handoff_older_preorder : PreOrder handoff_older.
Proof.
  split.
  - intros w. split; auto.
  - intros w1 w2 w3 [i1 m1 o1] [i2 m2 o2]. split; [set_solver|auto|].
    intros environment token Ht H. apply o2; [set_solver|by apply o1].
Qed.

(** Tokens in rows were issued; a registered runner's environment is marked. *)
Record tidy (w : HandoffWorld) : Prop := {
  td_named : rows_named (hw_catalog w);
  td_issued environment l : apply_row w environment = Some l → fencing_token l ∈ hw_issued w;
  td_enrolled digest r : hw_enrollments w !! digest = Some r → marked w (enrollment_environment r);
  td_credential digest r : hw_credentials w !! digest = Some r → marked w (credential_environment r)
}.

Definition forward (w w' : HandoffWorld) : Prop := handoff_older w w' ∧ tidy w' ∧ hw_log w' = hw_log w.

Lemma forward_refl w : tidy w → forward w w.
Proof. intros H. unfold forward. by split_and!. Qed.

Lemma forward_trans w1 w2 w3 : forward w1 w2 → forward w2 w3 → forward w1 w3.
Proof. intros (H1 & _ & L1) (H2 & T2 & L2). unfold forward. split_and!; [by etrans|done|congruence]. Qed.

(** Each row is an earlier one of the same token that is no livelier, or
    carries a token that is new. *)
Definition rows_follow (issued issued' : gset string) (c c' : Catalog) : Prop :=
  rows_named c' ∧ issued ⊆ issued' ∧ ∀ environment l', catalog_leases c' !! (APPLY, environment) = Some l' →
    (∃ l, catalog_leases c !! (APPLY, environment) = Some l ∧ fencing_token l' = fencing_token l
          ∧ (lease_status l' = "active" → lease_status l = "active"))
    ∨ (fencing_token l' ∉ issued ∧ fencing_token l' ∈ issued').

Lemma catalog_forward w c' issued' :
  tidy w → rows_follow (hw_issued w) issued' (hw_catalog w) c' → forward w (with_catalog w c' issued').
Proof.
  intros [Hn Hi He Hc] (Hn' & Hsub & Hrows). unfold forward. split_and!; [|split; [done| |done..]|done].
  - split; [done|done|]. intros environment token Ht Hover (l' & Hl' & Htok & Hst).
    destruct (Hrows environment l' Hl') as [(l & Hl & Htl & Hstl)|[Hnew _]]; [|congruence].
    apply Hover. exists l. split_and!; [done|congruence|by apply Hstl].
  - intros environment l' Hl'. destruct (Hrows environment l' Hl') as [(l & Hl & -> & _)|[_ Hin]]; [|done].
    apply Hsub. by eapply Hi.
Qed.

Lemma save_follows issued issued' c ns k l l' :
  rows_named c → issued ⊆ issued' → catalog_leases c !! (ns, k) = Some l →
  lease_namespace l' = lease_namespace l → lease_key l' = lease_key l → fencing_token l' = fencing_token l →
  (lease_status l' = "active" → lease_status l = "active") → rows_follow issued issued' c (save_lease c l').
Proof.
  intros Hn Hsub Hl Hns Hk Ht Hst. destruct (Hn ns k l Hl) as [E1 E2]. unfold save_lease. rewrite Hns, Hk, E1, E2. unfold rows_follow. split_and!; [|done|].
  - intros ns' k' x. simpl. rewrite lookup_insert. case_decide as Ek; [|apply Hn]. intros [= <-]. by simplify_eq.
  - intros environment x. simpl. rewrite lookup_insert. case_decide as Ek; [|intros Hx; left; by exists x].
    intros [= <-]. left. exists l. injection Ek as <- <-. by split_and!.
Qed.

Lemma fresh_follows issued c l' :
  rows_named c → fencing_token l' ∉ issued → rows_follow issued ({[fencing_token l']} ∪ issued) c (save_lease c l').
Proof.
  intros Hn Hf. unfold save_lease. unfold rows_follow. split_and!; [|set_solver|].
  - intros ns' k' x. simpl. rewrite lookup_insert. case_decide as Ek; [|apply Hn]. intros [= <-]. by simplify_eq.
  - intros environment x. simpl. rewrite lookup_insert. case_decide as Ek; [|intros Hx; left; by exists x].
    intros [= <-]. right. set_solver.
Qed.

Lemma same_follows issued c : rows_named c → rows_follow issued issued c c.
Proof. intros Hn. unfold rows_follow. split_and!; [done..|]. intros environment l Hl. left. by exists l. Qed.

Lemma rows_follow_trans issued c1 c2 c3 :
  rows_follow issued issued c1 c2 → rows_follow issued issued c2 c3 → rows_follow issued issued c1 c3.
Proof.
  intros (_ & _ & H1) (Hn & _ & H2). unfold rows_follow. split_and!; [done..|]. intros environment l3 Hl3.
  destruct (H2 environment l3 Hl3) as [(l2 & Hl2 & Ht2 & Hs2)|[? ?]]; [|done].
  destruct (H1 environment l2 Hl2) as [(l1 & Hl1 & Ht1 & Hs1)|[? ?]]; [|done].
  left. exists l1. split_and!; [done|congruence|auto].
Qed.

Lemma refresh_follows issued now c refreshes acc :
  rows_named c → try_fold (refresh_one now now) (c, []) refreshes = Ok acc → rows_follow issued issued c acc.1.
Proof.
  intros Hn. apply (try_fold_invariant (λ acc, rows_follow issued issued c acc.1)); [by apply same_follows|].
  intros r [c1 ls] acc2 _ Hc1 H. eapply rows_follow_trans; [exact Hc1|]. unfold refresh_one in H. rewrite bail_ok in H.
  destruct H as [_ H]. destruct Hc1 as (Hn1 & _). destruct (extend r); ok_inv H.
  - destruct x as [l c2]. unfold refresh_lease in Hg. ok_inv Hg. simplify_eq.
    apply require_active_ok in Hg0 as (Hl & _ & _). by eapply save_follows.
  - simplify_eq/=. by apply same_follows.
Qed.

Lemma objects_forward w o :
  tidy w → (∀ environment, marked w environment → is_Some (o !! marker_id environment)) → forward w (with_store_objects w o).
Proof.
  intros [Hn Hi He Hc] Hm. unfold forward. split_and!; [by split|split; [done|done|..]|done].
  - intros digest r Hr. apply Hm. by eapply He.
  - intros digest r Hr. apply Hm. by eapply Hc.
Qed.

Lemma object_insert_forward w id o : tidy w → forward w (with_store_objects w (<[id := o]> (hw_objects w))).
Proof. intros Ht. apply objects_forward; [done|]. intros environment Hm. by apply lookup_insert_is_Some'; right. Qed.

Lemma object_delete_forward w id :
  tidy w → starts_with (marker_id "") id = false → forward w (with_store_objects w (delete id (hw_objects w))).
Proof.
  intros Ht Hid. apply objects_forward; [done|]. intros environment Hm. rewrite lookup_delete_ne; [done|].
  intros ->. unfold starts_with, marker_id in Hid. change ("tenkai:runtime-enrollment:" +:+ "") with "tenkai:runtime-enrollment:" in Hid.
  by rewrite strip_prefix_app in Hid.
Qed.

Lemma links_forward w l : tidy w → forward w (with_store_links w l).
Proof. intros [Hn Hi He Hc]. unfold forward. by split_and!; [split|split|]. Qed.

Lemma runners_forward w en cr :
  tidy w → (∀ digest r, en !! digest = Some r → marked w (enrollment_environment r)) →
  (∀ digest r, cr !! digest = Some r → marked w (credential_environment r)) → forward w (with_runners w en cr).
Proof. intros [Hn Hi He Hc] He' Hc'. unfold forward. by split_and!; [split|split|]. Qed.

(** What the programs do not do: delete a marker. *)
Definition harmless {X} (e : lease_effect X) : Prop :=
  match e with DeleteObject id => starts_with (marker_id "") id = false | _ => True end.

Lemma fares_forward {X F} f (down : string → F) (ran : result (X * HandoffWorld) F) w x w' :
  tidy w → (∀ a w1, ran = Ok (a, w1) → forward w w1) → fares f down ran w = Some (x, w') → forward w w'.
Proof.
  intros Ht Hr. unfold fares. destruct ran as [[a w1]|e].
  - specialize (Hr a w1 eq_refl). destruct f; intros [= <- <-]; [done|by apply forward_refl|done].
  - intros [= <- <-]. by apply forward_refl.
Qed.

Lemma creates_forward f b w w1 x w' : tidy w → forward w w1 → creates f b w w1 = Some (x, w') → forward w w'.
Proof.
  intros Ht H. unfold creates. destruct f, b; intros [= <- <-]; first [done|by apply forward_refl].
Qed.

Lemma guarded_write_forward w c o environment token s :
  tidy w → guarded_write w c o environment token = Ok s → forward w (with_store_objects w s).
Proof. intros Ht. unfold guarded_write. intros H. ok_inv H. injection H as <-. by apply object_insert_forward. Qed.

Lemma lease_act_forward {X} (e : lease_effect X) c w x w' :
  tidy w → harmless e → lease_act X e c w = Some (x, w') → forward w w'.
Proof.
  intros Ht Hh. assert (Hn := td_named _ Ht). destruct e; cbn [lease_act].
  - intros [= <- <-]. by apply forward_refl.
  - intros [= <- <-]. by apply forward_refl.
  - apply fares_forward; [done|]. intros a w1 [= <- <-]. by apply forward_refl.
  - apply creates_forward; [done|]. by apply object_insert_forward.
  - apply fares_forward; [done|]. intros a w1 [= <- <-]. by apply object_insert_forward.
  - apply fares_forward; [done|]. intros a w1 [= <- <-]. by apply object_delete_forward.
  - apply fares_forward; [done|]. intros a w1 [= <- <-]. by apply forward_refl.
  - apply creates_forward; [done|]. by apply links_forward.
  - apply fares_forward; [done|]. intros a w1 [= <- <-]. by apply links_forward.
  - apply fares_forward; [done|]. intros a w1 [= <- <-]. by apply forward_refl.
  - case_bool_decide as Hf; [done|]. apply fares_forward; [done|]. intros a w1.
    destruct (acquire_namespaced_lease _ _ _ _ _ _ _) as [[l c']|[]] eqn:Ha; try done. intros [= <- <-].
    unfold acquire_namespaced_lease in Ha. ok_inv Ha. injection Ha as <- <-. apply catalog_forward; [done|]. by apply fresh_follows.
  - case_bool_decide as Hf; [done|]. apply fares_forward; [done|]. intros a w1 H%map_err_ok. ok_inv H. destruct x0 as [l c'].
    injection H as <- <-. unfold takeover_namespaced_lease in Hg. ok_inv Hg. injection Hg as <- <-.
    apply catalog_forward; [done|]. by apply fresh_follows.
  - apply fares_forward; [done|]. intros a w1 H%map_err_ok. ok_inv H. destruct x0 as [l c'].
    injection H as <- <-. unfold release_namespaced_lease in Hg. ok_inv Hg. injection Hg as <- <-.
    apply require_active_ok in Hg0 as (Hl & _ & _). apply catalog_forward; [done|]. by eapply save_follows.
  - apply fares_forward; [done|]. intros a w1 H%map_err_ok. ok_inv H. injection H as <- <-. by eapply guarded_write_forward.
  - apply fares_forward; [done|]. intros a w1 H%map_err_ok. ok_inv H. destruct x0 as [c1 leases]. ok_inv H. injection H as <- <-.
    eapply forward_trans; [apply (catalog_forward w c1 (hw_issued w)); [done|]; by eapply refresh_follows in Hg|].
    unfold guarded_write in Hg0. ok_inv Hg0. injection Hg0 as <-. apply (object_insert_forward (with_catalog w c1 (hw_issued w))).
    apply (catalog_forward w c1 (hw_issued w)); [done|]. by eapply refresh_follows in Hg.
  - intros [= <- <-]. by apply forward_refl.
Qed.

(** ** Programs that only move the world forward *)

Notation steady p := (yields (@harmless) p (λ _, True)).

Lemma legacy_not_marker environment : starts_with (marker_id "") (legacy_environment_claim_id environment) = false.
Proof. done. Qed.

Lemma claim_steady environment claimant ttl takeover : steady (claim_environment_with_options environment claimant ttl takeover).
Proof. yielding. Qed.

Lemma release_steady lease : steady (release_environment lease).
Proof. yielding. Qed.

Lemma refresh_steady held lease : steady (refresh_environment_lease held lease).
Proof. yielding. Qed.

Lemma inspect_steady environment : steady (inspect_environment_lease environment).
Proof. yielding. Qed.

Lemma drill_steady environment claimant : steady (claim_environment_for_drill environment claimant).
Proof. yielding. Qed.

Lemma unlock_steady environment : steady (unlock_environment environment).
Proof. yielding. Qed.

(** The same for what the handlers ask; an enrollment is recorded only for an
    environment that is marked. *)
Definition delivery_harmless (X : Type) (e : delivery_effect X) : Prop :=
  match e with
  | OnLease e => harmless e
  | CreateEnrollment _ _ _ _ => False
  | _ => True
  end.

Lemma redeem_forward w environment token credential now r w' :
  tidy w → redeem w environment token credential now = Ok (r, w') → forward w w'.
Proof.
  intros Ht. unfold redeem. destruct (hw_enrollments w !! token) as [en|] eqn:He; [|done].
  destruct (usable _ _ _ _) eqn:Hu; [|done]. rewrite bail_ok. intros [_ [= _ <-]].
  assert (Hm := td_enrolled _ Ht _ _ He). apply runners_forward; [done| |].
  - intros digest r'. rewrite lookup_insert. case_decide; [intros [= <-]; exact Hm|by apply td_enrolled].
  - intros digest r'. rewrite lookup_insert. case_decide; [|by apply td_credential]. intros [= <-]. simpl.
    unfold usable in Hu. rewrite He in Hu. simpl in Hu. rewrite !andb_true_iff, bool_decide_eq_true in Hu.
    by destruct Hu as [[<- _] _].
Qed.

Lemma revoke_forward w digest now u w' : tidy w → revoke w digest now = Ok (u, w') → forward w w'.
Proof.
  intros Ht. unfold revoke. destruct (hw_credentials w !! digest) as [r|] eqn:Hr; [|done]. intros [= _ <-].
  apply runners_forward; [done|by apply td_enrolled|]. intros digest' r'. rewrite lookup_insert.
  case_decide; [|by apply td_credential]. intros [= <-]. simpl. by apply (td_credential _ Ht digest).
Qed.

Lemma create_enrollment_forward w digest environment expires actor u w' :
  tidy w → marked w environment → create_enrollment w digest environment expires actor = Ok (u, w') → forward w w'.
Proof.
  intros Ht Hm. unfold create_enrollment. rewrite bail_ok. intros [_ [= _ <-]].
  apply runners_forward; [done| |by apply td_credential]. intros digest' r'. rewrite lookup_insert.
  case_decide; [|by apply td_enrolled]. by intros [= <-].
Qed.

Lemma delivery_act_forward {X} (e : delivery_effect X) c w x w' :
  tidy w → delivery_harmless X e → delivery_act X e c w = Some (x, w') → forward w w'.
Proof.
  intros Ht Hh. destruct e; cbn [delivery_act]; try (intros [= <- <-]; by apply forward_refl).
  - by apply lease_act_forward.
  - apply fares_forward; [done|]. intros a w1 [= <- <-]. by apply forward_refl.
  - done.
  - apply fares_forward; [done|]. intros a w1 [= <- <-]. by apply forward_refl.
  - apply fares_forward; [done|]. intros a w1. by apply redeem_forward.
  - apply fares_forward; [done|]. intros a w1. by apply revoke_forward.
Qed.

Section Exclusion.
Context {E : PlanEncoding} {RC : RunnerCa} {CJ : CompletionJson} (d : DeliverySetup).

(** ** The invariant *)

Definition unassigned (environment : string) : Prop := ∀ token, (token, environment) ∉ assignments d.

(** A server was granted an environment that was then not marked.  A
    runtime was handed a plan after the environment was marked and idle. *)
Definition answer_ok (r : handoff_request) (a : handoff_answer) (h : list HandoffWorld) : Prop :=
  match r, a with
  | RequestExecution environment _, ExecutionAnswer (Ok lease) =>
    ∃ w, w ∈ h ∧ el_token lease ∈ hw_issued w ∧ ¬ marked w environment
  | RequestWork _ _ environment, WorkAnswer (Ok r) =>
    is_Some (work_plan r) → unassigned environment → ∃ w, w ∈ h ∧ marked w environment ∧ idle w environment
  | _, _ => True
  end.

Lemma answer_ok_later r a h h' : h ⊆ h' → answer_ok r a h → answer_ok r a h'.
Proof.
  intros Hs. unfold answer_ok. destruct r; try done; destruct a as [[|]|[|]|]; try done; [|].
  - intros (w & Hw & H). exists w. split; [by apply Hs|done].
  - intros H Hp Hu. destruct (H Hp Hu) as (w & Hw & ?). exists w. split; [by apply Hs|done].
Qed.

Definition handoff_inv (w : HandoffWorld) (past : list HandoffWorld) : Prop :=
  newest_first handoff_older (w :: past) ∧ tidy w ∧ ∀ r a, (r, a) ∈ hw_log w → answer_ok r a (w :: past).

Lemma inv_forward w past w' : handoff_inv w past → forward w w' → handoff_inv w' (w :: past).
Proof.
  intros (Ho & Ht & Hl) (Hold & Ht' & Hlog). split; [by apply newest_first_next|]. split; [done|].
  intros r a. rewrite Hlog. intros Hin. eapply answer_ok_later; [|by apply Hl]. intros x Hx. by right.
Qed.

Lemma inv_head w past w1 : handoff_inv w past → w1 ∈ w :: past → handoff_older w1 w.
Proof. intros (Ho & _ & _). by apply newest_first_head. Qed.

Definition lease_threads : Threads lease_effect HandoffWorld handoff_request unit Fate handoff_move := {|
  begin _ := Ret tt; act := lease_act; report _ _ w := w; move := handoff_moves |}.

Notation lease_safe p Q h := (safe lease_threads handoff_inv p Q h).
Notation delivery_safe p Q h := (safe (handoff_threads d) handoff_inv p Q h).

Lemma safe_hoisted {A} (p : prog lease_effect A) Q h : lease_safe p Q h → delivery_safe (on_lease p) Q h.
Proof.
  unfold on_lease. revert h. induction p as [a|X e k IH]; intros h; simpl; [done|].
  intros Hp w past Hs HI c x w' Ha. destruct (Hp w past Hs HI c x w' Ha) as [HI' Hk]. split; [done|]. by apply IH.
Qed.

Lemma lease_safe_yields {A} (p : prog lease_effect A) (P : A → Prop) h :
  yields (@harmless) p P → lease_safe p (λ a h', h `suffix_of` h' ∧ P a) h.
Proof.
  intros Hp. assert (∀ h0, h `suffix_of` h0 → lease_safe p (λ a h', h `suffix_of` h' ∧ P a) h0) as H; [|by apply H].
  revert Hp. induction p as [a|X e k IH]; simpl; [done|]. intros [He Hk] h0 Hs w past Hs' HI c x w' Ha.
  split; [apply (inv_forward w); [done|]; by eapply lease_act_forward; [apply HI|..]|]. apply IH; [done|].
  etrans; [exact Hs|]. etrans; [exact Hs'|]. by exists [w'].
Qed.

Lemma delivery_safe_yields {A} (p : prog delivery_effect A) (P : A → Prop) h :
  yields delivery_harmless p P → delivery_safe p (λ a h', h `suffix_of` h' ∧ P a) h.
Proof.
  intros Hp. assert (∀ h0, h `suffix_of` h0 → delivery_safe p (λ a h', h `suffix_of` h' ∧ P a) h0) as H; [|by apply H].
  revert Hp. induction p as [a|X e k IH]; simpl; [done|]. intros [He Hk] h0 Hs w past Hs' HI c x w' Ha.
  split; [apply (inv_forward w); [done|]; by eapply delivery_act_forward; [apply HI|..]|]. apply IH; [done|].
  etrans; [exact Hs|]. etrans; [exact Hs'|]. by exists [w'].
Qed.

(** One statement, and what its answer says of the world. *)
Lemma lease_safe_perform {X} (e : lease_effect X) (Q : X → list HandoffWorld → Prop) h :
  harmless e →
  (∀ w past c x w', h `suffix_of` w :: past → handoff_inv w past → handoff_inv w' (w :: past) →
     lease_act X e c w = Some (x, w') → Q x (w' :: w :: past)) →
  lease_safe (perform e) Q h.
Proof.
  intros He HQ. apply safe_perform. intros w past Hs HI c x w' Ha.
  assert (handoff_inv w' (w :: past)) as HI'.
  { apply (inv_forward w); [done|]. by eapply lease_act_forward; [apply HI|..]. }
  split; [done|]. by eapply HQ.
Qed.

(** ** Leases *)

Definition issued_in (token : string) (h : list HandoffWorld) : Prop := ∃ w, w ∈ h ∧ token ∈ hw_issued w.

Lemma issued_in_later token h h' : h `suffix_of` h' → issued_in token h → issued_in token h'.
Proof. intros Hs (w & Hw & Ht). exists w. split; [by apply (suffix_subset h)|done]. Qed.

(** Past a program that only moves the world forward. *)
Lemma lease_safe_past {A F} {B} (p : prog lease_effect (result B F)) (f : B → prog lease_effect (result A F)) Q h :
  yields (@harmless) p (λ _, True) → (∀ b h', h `suffix_of` h' → lease_safe (f b) Q h') →
  (∀ e h', h `suffix_of` h' → Q (Err e) h') → lease_safe (try_bind p f) Q h.
Proof.
  intros Hp Hf He. apply safe_try. eapply safe_mono; [by apply lease_safe_yields|].
  intros [b|e] h' _ [Hs _]; [by apply Hf|by apply He].
Qed.

Lemma acquire_safe environment claimant ttl now takeover h :
  lease_safe (acquire_or_take_over environment claimant ttl now takeover)
    (λ r h', h `suffix_of` h' ∧ match r with Ok (l, _) => issued_in (fencing_token l) h' | Err _ => True end) h.
Proof.
  unfold acquire_or_take_over. apply lease_safe_past; [yielding| |done]. intros row h1 Hs1.
  apply lease_safe_past; [yielding| |]; [|intros e h2 Hs2; split; [later|done]]. intros u h2 Hs2.
  apply safe_bind, lease_safe_perform; [done|]. intros w past c acquired w' Hs HI HI' Ha.
  cbn [lease_act] in Ha. case_bool_decide as Hf; [done|].
  assert (Hsx : h `suffix_of` w' :: w :: past) by later.
  destruct acquired as [l|[|e]]; [| |done].
  - split; [done|]. exists w'. split; [left|]. unfold fares in Ha.
    destruct (acquire_namespaced_lease _ _ _ _ _ _ _) as [[l0 c']|[]] eqn:Hq; try done.
    destruct (fate c); try done. injection Ha as <- <-. unfold acquire_namespaced_lease in Hq. ok_inv Hq. injection Hq as <- <-.
    simpl. set_solver.
  - apply lease_safe_past; [yielding| |]; [|intros e h3 Hs3; split; [later|done]]. intros existing h3 Hs3.
    destruct existing as [l|]; [|split; [later|done]]. destruct (expired_active now l); [|split; [later|done]].
    destruct takeover; simpl negb; cbn iota; [|split; [later|done]].
    apply safe_try, lease_safe_perform; [done|]. intros w2 past2 c2 taken w2' Hs4 HI2 HI2' Ha2.
    cbn [lease_act] in Ha2. case_bool_decide as Hf2; [done|].
    assert (Hsy : h `suffix_of` w2' :: w2 :: past2) by later.
    destruct taken as [l'|e]; [|by split]. split; [done|]. exists w2'. split; [left|]. unfold fares in Ha2.
    destruct (map_err _ _) as [[l0 w0]|] eqn:Hq; [|done]. destruct (fate c2); try done. injection Ha2 as <- <-.
    apply map_err_ok in Hq. ok_inv Hq. destruct x as [l1 c1]. injection Hq as <- <-.
    unfold takeover_namespaced_lease in Hg. ok_inv Hg. injection Hg as <- <-. simpl. set_solver.
Qed.

Lemma publish_yields lease claimant expires linked :
  yields (@harmless) (publish_claim lease claimant expires linked) (λ r, match r with Ok l => l = lease | Err _ => True end).
Proof. yielding. Qed.

Lemma claim_safe environment claimant ttl takeover h :
  lease_safe (claim_environment_with_options environment claimant ttl takeover)
    (λ r h', h `suffix_of` h' ∧ match r with
       | Ok lease => issued_in (el_token lease) h' ∧ el_environment lease = environment
       | Err _ => True end) h.
Proof.
  unfold claim_environment_with_options.
  apply safe_bind, lease_safe_perform; [done|]. intros w past c ok w' Hs _ _ _.
  destruct ok; cbn [negb]; [|split; [later|done]].
  apply safe_bind, lease_safe_perform; [done|]. intros w2 past2 c2 now w2' Hs2 _ _ _.
  apply lease_safe_past; [yielding| |intros e h3 Hs3; split; [later|done]]. intros retired h3 Hs3.
  destruct retired; [split; [later|done]|].
  apply lease_safe_past; [yielding| |intros e h4 Hs4; split; [later|done]]. intros u h4 Hs4.
  apply lease_safe_past; [yielding| |intros e h5 Hs5; split; [later|done]]. intros legacy h5 Hs5.
  destruct legacy as [o|]; [split; [later|done]|].
  apply lease_safe_past; [yielding| |intros e h6 Hs6; split; [later|done]]. intros linked h6 Hs6.
  apply lease_safe_past; [destruct linked; yielding| |intros e h7 Hs7; split; [later|done]]. intros u' h7 Hs7.
  apply safe_try. eapply safe_mono; [apply acquire_safe|]. intros [[l taken]|e] h8 _ [Hs8 Hl]; [|split; [later|done]].
  eapply safe_mono; [apply lease_safe_yields, publish_yields|]. intros [lease|e] h9 _ [Hs9 Heq]; (split; [later|]); [|done].
  subst lease. split; [|done]. by eapply issued_in_later.
Qed.

(** The server looks for the marker after it has the lease. *)
Lemma execution_safe environment claimant h :
  lease_safe (claim_execution_environment environment claimant)
    (λ r h', match r with
       | Ok lease => ∃ w, w ∈ h' ∧ el_token lease ∈ hw_issued w ∧ ¬ marked w environment
       | Err _ => True end) h.
Proof.
  unfold claim_execution_environment. apply safe_try. eapply safe_mono; [apply claim_safe|].
  intros [lease|e] h1 _ [_ Hl]; [|done]. destruct Hl as [(w0 & Hw0 & Ht) _].
  apply safe_bind. unfold ask_runtime_managed. apply safe_try, lease_safe_perform; [done|].
  intros w past c x w' Hs HI HI' Ha. cbn [lease_act] in Ha.
  assert (Hlate : ∀ managed : result bool handoff_error, lease_safe (do? _ := release_environment lease in
      Ret (let? _ := managed in Err (RuntimeManaged environment)))
    (λ r h', match r with
       | Ok lease => ∃ w, w ∈ h' ∧ el_token lease ∈ hw_issued w ∧ ¬ marked w environment
       | Err _ => True end) (w' :: w :: past)).
  { intros managed. apply lease_safe_past; [apply release_steady|by intros u h' _; destruct managed|done]. }
  destruct x as [o|e].
  - unfold fares in Ha. destruct (fate c); try done. injection Ha as <- <-.
    destruct (hw_objects w !! marker_id environment) as [o|] eqn:Ho; simpl is_some_b.
    + apply (Hlate (Ok true)).
    + exists w. split_and!; [left| |].
      * eapply ho_issued; [eapply inv_head; [exact HI|]|exact Ht]. by apply (suffix_subset h1).
      * intros [o Hm]. congruence.
  - apply (Hlate (Err e)).
Qed.

(** ** What a runtime finds *)

Definition marked_in (environment : string) (h : list HandoffWorld) : Prop := ∃ w, w ∈ h ∧ marked w environment.

(** A time at which the environment was marked and nothing held it. *)
Definition handed_over (environment : string) (h : list HandoffWorld) : Prop :=
  ∃ w, w ∈ h ∧ marked w environment ∧ idle w environment.

Lemma marked_in_later environment h h' : h `suffix_of` h' → marked_in environment h → marked_in environment h'.
Proof. intros Hs (w & Hw & Hm). exists w. split; [by apply (suffix_subset h)|done]. Qed.

Lemma handed_over_later environment h h' : h `suffix_of` h' → handed_over environment h → handed_over environment h'.
Proof. intros Hs (w & Hw & H). exists w. split; [by apply (suffix_subset h)|done]. Qed.

Lemma marked_now environment h w past :
  marked_in environment h → h `suffix_of` w :: past → handoff_inv w past → marked w environment.
Proof.
  intros (w0 & Hw0 & Hm) Hs HI. eapply ho_marked; [eapply inv_head; [exact HI|]|exact Hm]. by apply (suffix_subset h).
Qed.

(** The lease row, read as not active. *)
Lemma read_lease_safe {A} environment (f : option Lease → result A handoff_error) (Q : result A handoff_error → Prop) h :
  marked_in environment h →
  (∀ row, Q (f row) → ∀ l, row = Some l → is_active_row l = false) → ¬ (∃ e, Q (Err e)) →
  lease_safe (do? row := perform (ReadLease environment) in Ret (f row)) (λ r h', h `suffix_of` h' ∧ (Q r → handed_over environment h')) h.
Proof.
  intros Hm Hf He. apply safe_try, lease_safe_perform; [done|]. intros w past c x w' Hs HI HI' Ha. cbn [lease_act] in Ha.
  destruct x as [row|e]; (split; [later|]).
  - unfold fares in Ha. destruct (fate c); try done. injection Ha as <- <-. intros HQ.
    exists w. split; [left|]. split; [by eapply marked_now|]. intros token (l & Hl & _ & Hst).
    specialize (Hf _ HQ l Hl). unfold is_active_row in Hf. by rewrite bool_decide_eq_true_2 in Hf.
  - intros HQ. destruct He. by exists e.
Qed.

Lemma status_safe environment h :
  marked_in environment h →
  lease_safe (environment_lease_status environment)
    (λ r h', h `suffix_of` h' ∧ (r = Ok None → handed_over environment h')) h.
Proof.
  intros Hm. unfold environment_lease_status.
  assert (Hread : ∀ h', h `suffix_of` h' → lease_safe (do? active := perform (ReadLease environment) in
      Ret (Ok (match active with Some l => if is_active_row l then Some (owner l) else None | None => None end)))
    (λ r h', h `suffix_of` h' ∧ (r = Ok None → handed_over environment h')) h').
  { intros h' Hs. eapply safe_mono; [apply (read_lease_safe environment _ (λ r, r = Ok None)); [by eapply marked_in_later|..]|].
    - intros row Hr l ->. by destruct (is_active_row l).
    - by intros [e ?].
    - intros r h2 _ [Hs2 H]. split; [later|done]. }
  apply lease_safe_past; [yielding| |intros e h1 Hs1; split; [later|done]]. intros legacy h1 Hs1.
  destruct legacy as [o|]; [destruct (properties o !! "owner"); split; [later|done|later|done]|].
  apply lease_safe_past; [yielding| |intros e h2 Hs2; split; [later|done]]. intros linked h2 Hs2.
  destruct linked; [|apply Hread; later].
  apply lease_safe_past; [yielding| |intros e h3 Hs3; split; [later|done]]. intros claim h3 Hs3.
  destruct claim as [claim|]; [|split; [later|done]].
  destruct (properties claim !! "owner") as [o|]; [|split; [later|done]].
  destruct (negb _); [split; [later|done]|]. apply Hread. later.
Qed.

(** Giving up a lease leaves the environment idle. *)
Lemma release_safe lease h :
  marked_in (el_environment lease) h →
  lease_safe (release_environment lease)
    (λ r h', h `suffix_of` h' ∧ (r = Ok tt → handed_over (el_environment lease) h')) h.
Proof.
  intros Hm. unfold release_environment. apply lease_safe_past; [yielding| |intros e h1 Hs1; split; [later|done]].
  intros u h1 Hs1. apply lease_safe_perform; [done|]. intros w past c x w' Hs HI HI' Ha. cbn [lease_act] in Ha.
  split; [later|]. intros ->. exists w'. split; [left|]. split.
  { apply (ho_marked w w'); [eapply inv_head; [exact HI'|right; left]|]. eapply marked_now; [|exact Hs|exact HI].
    by eapply marked_in_later. }
  unfold fares in Ha. destruct (map_err _ _) as [[v w1]|] eqn:Hq; [|done]. destruct (fate c); try done. injection Ha as _ <-.
  apply map_err_ok in Hq. ok_inv Hq. destruct x as [l c']. injection Hq as Hv. unfold release_namespaced_lease in Hg.
  ok_inv Hg. injection Hg as <- <-. apply require_active_ok in Hg0 as (Hl & _ & _).
  destruct (td_named w ltac:(apply HI) _ _ _ Hl) as [Hns Hk]. intros token (l' & Hl' & _ & Hst).
  subst w1. unfold apply_row, save_lease in Hl'. simpl in Hl'. rewrite Hns, Hk, lookup_insert_eq in Hl'. injection Hl' as <-. done.
Qed.

Lemma may_take_over_safe environment h :
  marked_in environment h →
  lease_safe (runtime_may_take_over environment)
    (λ r h', h `suffix_of` h' ∧ (r = Ok true → handed_over environment h')) h.
Proof.
  intros Hm. unfold runtime_may_take_over. apply safe_try. eapply safe_mono; [by apply status_safe|].
  intros [[o|]|e] h1 _ [Hs1 H1]; [|split; [later|by intros; apply H1]|split; [later|done]].
  apply lease_safe_past; [yielding| |intros e h2 Hs2; split; [later|done]]. intros legacy h2 Hs2.
  destruct (is_some_b legacy); [split; [later|done]|].
  apply lease_safe_past; [yielding| |intros e h3 Hs3; split; [later|done]]. intros row h3 Hs3.
  destruct row as [l|]; [|split; [later|done]]. destruct (negb _); [split; [later|done]|].
  apply safe_bind, lease_safe_perform; [done|]. intros w past c now w' Hs4 _ _ _. case_match; [split; [later|done]|].
  apply safe_try. eapply safe_mono; [apply claim_safe|]. intros [lease|e] h5 _ [Hs5 H5]; [|split; [later|done]].
  destruct H5 as [_ Henv]. assert (Hsx : h `suffix_of` h5) by later.
  apply safe_try. eapply safe_mono; [apply release_safe; rewrite Henv; by eapply marked_in_later|].
  intros [[]|e] h6 _ [Hs6 H6]; (split; [later|]); [|done]. intros _. rewrite <- Henv. by apply H6.
Qed.

(** ** Handlers *)

Notation handler_steady p := (yields delivery_harmless p (λ _, True)).

Lemma hoist_yields {A} (p : prog lease_effect A) (P : A → Prop) :
  yields (@harmless) p P → yields delivery_harmless (on_lease p) P.
Proof.
  unfold on_lease. induction p as [a|X e k IH]; simpl; [done|]. intros [He Hk]. split; [done|]. intros x. by apply IH.
Qed.

Lemma delivery_safe_perform {X} (e : delivery_effect X) (Q : X → list HandoffWorld → Prop) h :
  (∀ w past, h `suffix_of` w :: past → handoff_inv w past → ∀ c x w', delivery_act X e c w = Some (x, w') → forward w w') →
  (∀ w past c x w', h `suffix_of` w :: past → handoff_inv w past → handoff_inv w' (w :: past) →
     delivery_act X e c w = Some (x, w') → Q x (w' :: w :: past)) →
  delivery_safe (perform e) Q h.
Proof.
  intros He HQ. apply safe_perform. intros w past Hs HI c x w' Ha.
  assert (handoff_inv w' (w :: past)) as HI' by (apply (inv_forward w); [done|by eapply He]).
  split; [done|]. by eapply HQ.
Qed.

Lemma delivery_safe_past {A B F} (p : prog delivery_effect (result B F)) (f : B → prog delivery_effect (result A F)) Q h :
  handler_steady p → (∀ b h', h `suffix_of` h' → delivery_safe (f b) Q h') →
  (∀ e h', h `suffix_of` h' → Q (Err e) h') → delivery_safe (try_bind p f) Q h.
Proof.
  intros Hp Hf He. apply safe_try. eapply safe_mono; [by apply delivery_safe_yields|].
  intros [b|e] h' _ [Hs _]; [by apply Hf|by apply He].
Qed.

(** A registered credential's environment is marked. *)
Lemma read_credential_safe digest (Q : result (option CredentialRecord) string → list HandoffWorld → Prop) h :
  (∀ r w h', h `suffix_of` h' → w ∈ h' → marked w (credential_environment r) → Q (Ok (Some r)) h') →
  (∀ h', h `suffix_of` h' → Q (Ok None) h') → (∀ e h', h `suffix_of` h' → Q (Err e) h') →
  delivery_safe (perform (ReadCredential digest)) Q h.
Proof.
  intros Hsome Hnone Herr. apply delivery_safe_perform.
  { intros w past _ HI c x w' Ha. refine (delivery_act_forward _ _ _ _ _ (proj1 (proj2 HI)) _ Ha). done. }
  intros w past c x w' Hs HI HI' Ha. cbn [delivery_act] in Ha. assert (Hsx : h `suffix_of` w' :: w :: past) by later.
  unfold fares in Ha. destruct (fate c); injection Ha as <- <-; [|by apply Herr..].
  destruct (hw_credentials w !! digest) as [r|] eqn:Hr; [|by apply Hnone].
  apply (Hsome r w); [done|left|]. by eapply td_credential; [apply HI|].
Qed.

Lemma admit_safe token caller environment h :
  unassigned environment →
  delivery_safe (admit_caller d token caller environment)
    (λ r h', h `suffix_of` h' ∧ match r with Ok _ => marked_in environment h' | Err _ => True end) h.
Proof.
  intros Hu. unfold admit_caller.
  assert (Hbearer : delivery_safe (admit_bearer d token (caller_instance caller) environment)
    (λ r h', h `suffix_of` h' ∧ match r with Ok _ => marked_in environment h' | Err _ => True end) h).
  { unfold admit_bearer. destruct token as [token|]; [|by split]. destruct (str_is_empty token); [by split|].
    apply safe_try. eapply safe_mono with (Q := λ r h', h `suffix_of` h' ∧ match r with
      | Ok assigned => (token, assigned) ∈ assignments d ∨ marked_in assigned h' | Err _ => True end).
    - destruct (runtime_assignment _ _) as [e|] eqn:He; [split; [done|]; left; by apply runtime_assignment_in|].
      unfold enrolled_environment. destruct (negb _); [by split|]. apply safe_bind, read_credential_safe.
      + intros r w h' Hs Hw Hm. simpl. destruct (is_some_b _); (split; [done|]); [done|]. right. by exists w.
      + by split.
      + by split.
    - intros [assigned|e] h' _ [Hs Ha]; [|by split]. destruct (valid_instance _) as [i|]; [|by split]. simpl.
      case_bool_decide as Heq; simpl; [|by split]. subst assigned. split; [done|]. destruct Ha as [Ha|Ha]; [|done].
      by destruct (Hu token). }
  destruct (caller_certificate caller) as [certificate|]; [|exact Hbearer]. destruct (has_runner_ca d); [|exact Hbearer].
  unfold admit_certificate, now_millis. apply safe_bind, delivery_safe_perform.
  { intros w past _ HI c x w' Ha. refine (delivery_act_forward _ _ _ _ _ (proj1 (proj2 HI)) _ Ha). done. }
  intros w past c now w' Hs _ _ _. assert (Hsx : h `suffix_of` w' :: w :: past) by later.
  destruct (ca_verify _ _) as [[env runner]|]; [|by split]. destruct (valid_instance _) as [i|]; [|by split].
  apply safe_bind, read_credential_safe.
  - intros r w1 h' Hs' Hw Hm. assert (Hsy : h `suffix_of` h') by later. simpl.
    destruct (_ && _) eqn:Hr; [|by split]. destruct (bool_decide (env = environment)) eqn:He; [|by split].
    apply bool_decide_eq_true in He. split; [done|]. apply andb_true_iff in Hr as [_ Hr%bool_decide_eq_true]. exists w1. split; [done|]. congruence.
  - intros h' Hs'. split; [later|done].
  - intros e h' Hs'. split; [later|done].
Qed.

Lemma admit_work_safe token caller environment h :
  unassigned environment →
  delivery_safe (admit_work d token caller environment)
    (λ r h', h `suffix_of` h' ∧ match r with Ok _ => marked_in environment h' | Err _ => True end) h.
Proof.
  intros Hu. unfold admit_work. apply safe_try. eapply safe_mono; [by apply admit_safe|].
  intros [id|e] h1 _ [Hs1 H1]; [|by split]. destruct (_ && has_core d); [|by split].
  eapply safe_mono; [apply (delivery_safe_yields _ (λ _, True)); yielding|]. intros [id'|e] h2 _ [Hs2 _]; (split; [later|]); [|done].
  by eapply marked_in_later.
Qed.

Lemma claim_chosen_steady environment id p : handler_steady (claim_chosen environment id p).
Proof. yielding. Qed.

Lemma claim_work_steady token caller environment : handler_steady (claim_work d token caller environment).
Proof.
  unfold claim_work. apply (yields_try _ _ _ (λ _, True)); [yielding| |yielding]. intros id _.
  apply (yields_bind _ _ _ (λ _, True)); [yielding|]. intros u _. destruct (negb _); [yielding|].
  apply (yields_bind _ _ _ (λ _, True)); [apply hoist_yields; yielding|]. intros may _. yielding.
Qed.

Lemma enroll_steady environment token csr : handler_steady (enroll d environment token csr).
Proof. yielding. Qed.

Lemma complete_steady token caller environment c : handler_steady (complete d token caller environment c).
Proof. yielding. Qed.

Lemma renew_steady token caller environment heartbeat : handler_steady (renew d token caller environment heartbeat).
Proof. yielding. Qed.

(** A plan is handed out only after the environment was seen idle. *)
Lemma claim_work_safe token caller environment h :
  delivery_safe (claim_work d token caller environment)
    (λ r h', match r with
       | Ok r => is_Some (work_plan r) → unassigned environment → handed_over environment h'
       | Err _ => True end) h.
Proof.
  destruct (decide (environment ∈ map snd (assignments d))) as [Has|Has].
  { eapply safe_mono; [apply delivery_safe_yields, claim_work_steady|]. intros [r|e] h' _ _; [|done].
    intros _ Hu. exfalso. apply list_elem_of_fmap in Has as ([token' e] & -> & Hin). by apply (Hu token'). }
  assert (Hu : unassigned environment) by (intros token' Hin; apply Has; by apply (list_elem_of_fmap_2 snd) in Hin).
  unfold claim_work. apply safe_try. eapply safe_mono; [by apply admit_work_safe|].
  intros [id|e] h1 _ [_ Hm]; [|done]. apply safe_bind. eapply safe_mono; [apply (delivery_safe_yields _ (λ _, True)); yielding|].
  intros u h2 _ [Hs2 _]. destruct (negb _); [done|]. apply safe_bind, safe_hoisted.
  eapply safe_mono; [apply may_take_over_safe; by eapply marked_in_later|].
  intros [[|]|e] h3 _ [_ H3]; [|by intros [? ?]|done].
  eapply safe_mono; [apply (delivery_safe_yields _ (λ _, True)); yielding|].
  intros [r|e] h4 _ [Hs4 _]; [|done]. intros _ _. eapply handed_over_later; [exact Hs4|]. by apply H3.
Qed.

(** The marker is there before the enrollment is. *)
Lemma mark_safe environment h :
  lease_safe (mark_runtime_managed environment)
    (λ r h', match r with Ok _ => marked_in environment h' | Err _ => True end) h.
Proof.
  unfold mark_runtime_managed. apply safe_bind, lease_safe_perform; [done|]. intros w past c now w' Hs _ _ _.
  apply safe_bind, lease_safe_perform; [done|]. intros w2 past2 c2 created w2' Hs2 _ _ Ha. cbn [lease_act] in Ha.
  unfold creates in Ha. injection Ha as Ha. cbn [lease_record object_id] in Ha.
  destruct (hw_objects w2 !! marker_id environment) as [o|] eqn:Ho; cbn [is_some_b] in Ha;
    destruct (fate c2); injection Ha as <- <-; try done.
  - exists w2. split; [left|]. by exists o.
  - eexists. split; [left|]. unfold marked. simpl. by rewrite lookup_insert_eq.
Qed.

Lemma enrollment_safe environment actor ttl h :
  delivery_safe (create_runtime_enrollment environment actor ttl) (λ _ _, True) h.
Proof.
  unfold create_runtime_enrollment. destruct (_ || _); [done|].
  apply safe_bind, delivery_safe_perform.
  { intros w past _ HI c x w' Ha. refine (delivery_act_forward _ _ _ _ _ (proj1 (proj2 HI)) _ Ha). done. }
  intros w past c ok w' _ _ _ _. destruct ok; cbn [negb]; [|done].
  apply safe_bind, safe_hoisted. eapply safe_mono; [apply mark_safe|]. intros [u|e] h1 _ Hm; [|done].
  apply delivery_safe_past; [yielding| |done]. intros token h2 Hs2.
  apply safe_bind. eapply safe_mono; [apply (delivery_safe_yields _ (λ _, True)); yielding|]. intros now h3 _ [Hs3 _].
  apply safe_try, safe_bind, delivery_safe_perform.
  - intros w2 past2 Hs4 HI c2 x w2' Ha. cbn [delivery_act] in Ha. eapply fares_forward; [apply HI| |exact Ha].
    intros v w3. apply create_enrollment_forward; [apply HI|].
    eapply (marked_now environment h1); [done|later|done].
  - intros w2 past2 c2 [v|e] w2' _ _ _ _; [|done].
    change (delivery_safe (do? _ := asking DeliveryUnavailable (AuditRecord actor "runtime.enrollment.create.completed") in
              Ret (Ok (token, now + ttl * 1000))) (λ _ _, True) (w2' :: w2 :: past2)).
    eapply safe_mono; [apply (delivery_safe_yields _ (λ _, True)); yielding|]. done.
Qed.

(** ** Every schedule *)

Lemma answer_reportable r a h : answer_ok r a h → reportable (handoff_threads d) handoff_inv r a h.
Proof.
  intros Ha w past Hs (Ho & Ht & Hl). split; [apply newest_first_next; [done|by split]|]. split; [by destruct Ht; split|].
  simpl. intros r' a' [[= -> ->]|Hin]%elem_of_cons.
  - eapply answer_ok_later; [|exact Ha]. intros x Hx. right. by apply (suffix_subset h).
  - eapply answer_ok_later; [|by apply Hl]. intros x Hx. by right.
Qed.

Lemma done_with_safe {A F} (p : prog delivery_effect (result A F)) r h :
  delivery_safe p (λ _ _, True) h → delivery_safe (done_with p) (reportable (handoff_threads d) handoff_inv r) h.
Proof.
  intros Hp. apply safe_bind. eapply safe_mono; [exact Hp|]. intros a h' _ _. apply answer_reportable.
  by destruct r.
Qed.

Lemma lease_done {A} (p : prog lease_effect (result A handoff_error)) r h :
  steady p → delivery_safe (done_with (on_lease p)) (reportable (handoff_threads d) handoff_inv r) h.
Proof. intros Hp. apply done_with_safe, safe_hoisted. eapply safe_mono; [by apply lease_safe_yields|done]. Qed.

Lemma handler_done {A F} (p : prog delivery_effect (result A F)) r h :
  handler_steady p → delivery_safe (done_with p) (reportable (handoff_threads d) handoff_inv r) h.
Proof. intros Hp. apply done_with_safe. eapply safe_mono; [by apply delivery_safe_yields|done]. Qed.

Lemma handoff_begin_safe r w past :
  handoff_inv w past → delivery_safe (begin_handoff d r) (reportable (handoff_threads d) handoff_inv r) (w :: past).
Proof.
  intros _. destruct r as [environment claimant|environment claimant|environment claimant|lease|held lease|environment
    |environment|environment actor ttl|environment token csr|token caller environment|token caller environment c
    |token caller environment heartbeat]; cbn [begin_handoff].
  - apply safe_bind, safe_hoisted. eapply safe_mono; [apply execution_safe|]. intros [lease|e] h' _ H; by apply answer_reportable.
  - apply lease_done, claim_steady.
  - apply lease_done, drill_steady.
  - apply lease_done, release_steady.
  - apply lease_done, refresh_steady.
  - apply lease_done, unlock_steady.
  - apply lease_done, inspect_steady.
  - apply done_with_safe, enrollment_safe.
  - apply handler_done, enroll_steady.
  - apply safe_bind. eapply safe_mono; [apply claim_work_safe|]. intros [work|e] h' _ H; by apply answer_reportable.
  - apply handler_done, complete_steady.
  - apply handler_done, renew_steady.
Qed.

Lemma handoff_move_forward m w w' : tidy w → handoff_moves m w = Some w' → forward w w'.
Proof.
  intros Ht. assert (Hn := td_named _ Ht). destruct m; simpl.
  - intros [= <-]. destruct Ht. unfold forward. by split_and!; [split|split|].
  - intros [= <-]. apply catalog_forward; [done|]. split_and!; [exact Hn|done|].
    intros environment l Hl. left. by exists l.
  - intros [= <-]. by apply object_insert_forward.
  - destruct (starts_with _ _) eqn:Hid; [done|]. intros [= <-]. by apply object_delete_forward.
  - intros [= <-]. by apply links_forward.
Qed.

Lemma handoff_sound now t ls s :
  interleave (handoff_threads d) ls (handoff_start now t) = Some s → handoff_inv (world s) (past s).
Proof.
  intros Hs. refine (proj1 (interleave_sound (handoff_threads d) handoff_inv _ _ ls _ s _ Hs)).
  - intros r w past HI. by apply handoff_begin_safe.
  - intros m w past w' HI Hm. eapply inv_forward; [exact HI|]. eapply handoff_move_forward; [apply HI|exact Hm].
  - apply at_rest_sound. split; [by repeat constructor|]. split; [|by intros r a ?%not_elem_of_nil].
    split; [by intros ns k l|done|done|done].
Qed.

(** C4: however servers and runtimes interleave their statements, whichever
    of them fail, and whatever the clocks show: once a runtime enrolled for an
    environment was handed a plan of it, a lease under which a server was
    granted the environment's execution, before or after, is over; no renewal
    and no guarded write under it succeeds at any time. *)
Theorem server_and_runtime_exclude now t ls s environment claimant lease token caller work p :
  unassigned environment →
  interleave (handoff_threads d) ls (handoff_start now t) = Some s →
  (RequestExecution environment claimant, ExecutionAnswer (Ok lease)) ∈ hw_log (world s) →
  (RequestWork token caller environment, WorkAnswer (Ok work)) ∈ hw_log (world s) → work_plan work = Some p →
  ∀ at_ms, ∃ e, require_active_lease (hw_catalog (world s)) at_ms APPLY environment (el_token lease) = Err e.
Proof.
  intros Hu Hs He Hw Hp at_ms. apply handoff_sound in Hs as HI. assert (HI' := HI). destruct HI' as (Ho & _ & Hl).
  destruct (Hl _ _ He) as (w1 & Hw1 & Ht & Hm1).
  destruct (Hl _ _ Hw) as (w2 & Hw2 & Hm2 & Hidle); [by rewrite Hp|done|].
  destruct (newest_first_total _ _ _ Ho Hw1 Hw2) as [H12|H21]; [|by destruct Hm1; apply (ho_marked _ _ H21)].
  destruct (require_active_lease _ _ _ _ _) as [l|e] eqn:Hr; [exfalso|by exists e].
  apply require_active_ok in Hr as (Hrow & Htok & Hact). unfold is_active in Hact.
  apply andb_true_iff in Hact as [Hst%bool_decide_eq_true _].
  apply (ho_over _ _ (inv_head _ _ _ HI Hw2) environment (el_token lease)); [by apply (ho_issued _ _ H12)|apply Hidle|].
  by exists l.
Qed.
End Exclusion.

(** ** A schedule *)

Module HandoffExamples.
#[local] Existing Instance PlainEncoding.instance.
#[local] Existing Instance DeliveryExamples.no_ca.
#[local] Existing Instance DeliveryExamples.one_completion.

#[local] Notation step := (label handoff_request Fate handoff_move).
#[local] Notation host := DeliveryExamples.host.

Definition answers (uuid secret : string) : Fate := {|
  fate := Done; fresh := uuid; trusted := true;
  says_plan := Ok (Some CompletionExamples.web_plan);
  says_row := Ok (Some (DeliveryExamples.row CompletionExamples.web_plan_id (runtime_owner "tkr_secret" "i-1")));
  says_bool := Ok false; says_unit := Ok tt; says_text := Ok None; says_preflight := Cleared; says_secret := Ok secret;
  says_load := Ok CompletionExamples.web_plan; says_binding := Ok None; says_inventory := Ok [] |}.

Definition does (i n : nat) (c : Fate) : list step := replicate n (Perform i c).

(** A server executes and dies; a runtime is enrolled for the environment,
    asks while the server's lease runs and again after it ran out. *)
Definition handed_over_schedule : list step :=
  [Arrive 0 (RequestExecution "prod" "server")] ++ does 0 15 (answers "t1" "") ++ [Report 0;
   Arrive 1 (RequestEnrollment "prod" "ops" 600)] ++ does 1 7 (answers "" "tke_once") ++ [Report 1;
   Arrive 0 (RequestEnroll "prod" "tke_once" None)] ++ does 0 7 (answers "" "tkr_secret") ++ [Report 0;
   Arrive 1 (RequestWork (Some "tkr_secret") DeliveryExamples.caller "prod")] ++ does 1 9 (answers "t2" "") ++ [Report 1;
   Move (TickTo 5000000);
   Arrive 1 (RequestWork (Some "tkr_secret") DeliveryExamples.caller "prod")] ++ does 1 34 (answers "t3" "") ++ [Report 1].

Definition started := handoff_start 100 empty_tables.

Definition ended_in (ls : list step) := default started (interleave (handoff_threads host) ls started).

Lemma handoff_run_ends ls :
  is_some_b (interleave (handoff_threads host) ls started) = true →
  interleave (handoff_threads host) ls started = Some (ended_in ls).
Proof. unfold ended_in. by destruct (interleave _ _ _). Qed.

Definition summary (a : handoff_answer) : string :=
  match a with
  | ExecutionAnswer (Ok l) => "executes under " +:+ el_token l
  | ExecutionAnswer (Err _) => "execution refused"
  | WorkAnswer (Ok r) => if is_some_b (work_plan r) then "plan handed out" else "no work"
  | WorkAnswer (Err _) => "work refused"
  | OtherAnswer ok => if ok then "done" else "failed"
  end.

Definition summaries (ls : list step) : list string := map (summary ∘ snd) (hw_log (world (ended_in ls))).

Example handed_over_in_turn :
  summaries handed_over_schedule = ["plan handed out"; "no work"; "done"; "done"; "executes under t1"].
Proof. vm_compute. done. Qed.

(** The server is refused once the environment is the runtime's. *)
Example server_comes_back :
  summaries (handed_over_schedule ++ [Arrive 0 (RequestExecution "prod" "server")] ++ does 0 20 (answers "t4" "") ++ [Report 0])
  = ["execution refused"; "plan handed out"; "no work"; "done"; "done"; "executes under t1"].
Proof. vm_compute. done. Qed.

(** A server that was granted the environment before the enrollment, and
    whose marker read comes after it, gives the environment up. *)
Example enrolled_meanwhile :
  summaries ([Arrive 0 (RequestExecution "prod" "server")] ++ does 0 14 (answers "t1" "") ++
             [Arrive 1 (RequestEnrollment "prod" "ops" 600)] ++ does 1 7 (answers "" "tke_once") ++ [Report 1] ++
             does 0 5 (answers "" "") ++ [Report 0])
  = ["execution refused"; "done"].
Proof. vm_compute. done. Qed.

Definition last_answer : handoff_answer :=
  match hw_log (world (ended_in handed_over_schedule)) with (_, a) :: _ => a | [] => OtherAnswer false end.

Definition handed : RuntimeWork := match last_answer with WorkAnswer (Ok r) => r | _ => no_work "" end.

Definition granted : EnvironmentLease := {|
  el_environment := "prod"; el_owner := "server"; el_generation := 1; el_token := "t1"; el_ttl_ms := 30000;
  took_over := false |}.

Lemma server_and_runtime_exclude_witness :
  (RequestExecution "prod" "server", ExecutionAnswer (Ok granted)) ∈ hw_log (world (ended_in handed_over_schedule))
  ∧ ∀ at_ms, ∃ e,
      require_active_lease (hw_catalog (world (ended_in handed_over_schedule))) at_ms APPLY "prod" "t1" = Err e.
Proof.
  assert (He : hw_log (world (ended_in handed_over_schedule)) !! 4%nat
               = Some (RequestExecution "prod" "server", ExecutionAnswer (Ok granted))) by (vm_compute; reflexivity).
  assert (Hw : hw_log (world (ended_in handed_over_schedule)) !! 0%nat
               = Some (RequestWork (Some "tkr_secret") DeliveryExamples.caller "prod", WorkAnswer (Ok handed)))
    by (vm_compute; reflexivity).
  apply list_elem_of_lookup_2 in He, Hw. split; [exact He|].
  apply (server_and_runtime_exclude host 100 empty_tables handed_over_schedule (ended_in handed_over_schedule)
           "prod" "server" granted (Some "tkr_secret") DeliveryExamples.caller handed CompletionExamples.web_plan).
  - intros token. apply not_elem_of_nil.
  - apply handoff_run_ends. vm_compute. reflexivity.
  - exact He.
  - exact Hw.
  - vm_compute. reflexivity.
Defined.
End HandoffExamples.
