(* ===== verification/ReleaseEvidence.v ===== *)
(** * The evidence a release is published with

    [release_provenance.rs], [change_set_pin.rs] and [family_release.rs]:
    provenance envelopes of registered issuers, the pin of an accepted change
    set, and the family release manifest with its gate flags; how each is
    checked, bound to the release, stored on it and read back.  Reading the
    files is I/O, and what they decode to comes in as an argument. *)

From S2P Require Import Prelude RustStr Kinds Plan Approvals ReleaseSigning.

Inductive evidence_error :=
| UnknownProfile (profile : string)
| BadEvidenceText (label value : string)
| BadEvidenceDigest (label value : string)
| IssuerNotAdmitted (profile issuer : string)
| ReceiptSchemaNotAdmitted (profile schema : string)
| ReferenceKindNotAdmitted (profile kind : string)
| DecisionNotAllow
| TooManyReferences
| ReferencesNotCanonical
| BadFreshness
| BadEvidenceSignature
| ObservedInFuture
| EvidenceStale
| IssuerNotTrusted (error : signing_error)
| IssuerNotKeyIdentity
| EvidenceUnreadable (text : string)
| TooManyEnvelopes
| RootsWithoutEnvelopes
| EnvelopesWithoutRoots
| DuplicateProfile
| NotBoundToContent (profile : string)
| ProvenanceIncomplete
| ProvenanceProjectionsDiffer
| UnknownPinContract (contract : string)
| NoMembers
| TooManyMembers
| UnknownMemberKind (kind : string)
| MembersNotCanonical
| UnknownEvidenceSchema (schema : string)
| UnknownEvidenceStatus (status : string)
| EvidenceUnavailable (reason : string)
| EvidenceUnauthorized (reason : string)
| ChangeSetNotAccepted (status : string)
| EvidenceIdentityDiffers
| EvidenceMembersDiffer
| EvidenceWithoutPin
| PinWithoutEvidence
| PinIncomplete
| PinDigestDiffers
| UnknownGateFlag (flag : string)
| FamilyManifestRefused (why : string).

(** [ontology::validate_opaque_identifier]. *)
Definition MAX_OPAQUE_IDENTIFIER_BYTES : Z := 256.

Definition validate_opaque_identifier (label value : string) : result unit evidence_error :=
  bail_if str_is_empty value || (MAX_OPAQUE_IDENTIFIER_BYTES <? str_len value) || any_control value
          || str_contains "://" value || str_contains "/" value || str_contains "\" value
    with (BadEvidenceText label value) in
  Ok tt.

Definition validate_schema_id (label value : string) : result unit evidence_error :=
  bail_if str_is_empty value || (MAX_OPAQUE_IDENTIFIER_BYTES <? str_len value) || any_control value
          || str_contains "://" value || str_contains "\" value || starts_with "/" value
          || str_contains "../" value
    with (BadEvidenceText label value) in
  Ok tt.

Definition check_digest (label value : string) : result unit evidence_error :=
  map_err (λ _, BadEvidenceDigest label value) (validate_prefixed_digest label value).

(** A list strictly sorted by a key of two strings: kinds, then ids. *)
Definition two_cmp : string * string → string * string → comparison :=
  cmp_lex (cmp_on fst String.compare) (cmp_on snd String.compare).

Definition sorted_after (previous : option (string * string)) (current : string * string) : bool :=
  is_none_or previous (λ p, bool_decide (two_cmp p current = Lt)).

(** ** Provenance *)

Record GovernedReference := { ref_kind : string; ref_id : string; ref_digest : string }.
#[export] Instance GovernedReference_eq : EqDecision GovernedReference.
Proof. solve_decision. Defined.

Record ProvenanceEnvelope := {
  pe_profile : string; pe_issuer : string; pe_issuer_key_id : string; pe_subject : string;
  pe_content_digest : string; pe_decision : string; pe_receipt_schema : string; pe_receipt_digest : string;
  pe_references : list GovernedReference; pe_observed_at : Z; pe_expires_at : Z; pe_signature : string
}.

Record ProvenanceProjection := {
  pp_profile : string; pp_issuer : string; pp_issuer_key_id : string; pp_subject : string;
  pp_envelope_digest : string; pp_decision : string; pp_receipt_schema : string; pp_receipt_digest : string;
  pp_references : list GovernedReference; pp_observed_at : Z; pp_expires_at : Z
}.
#[export] Instance ProvenanceProjection_eq : EqDecision ProvenanceProjection.
Proof. solve_decision. Defined.

Record ProvenanceProfile := {
  profile_id : string; profile_issuer : string; profile_receipt_schema : string; profile_kinds : list string
}.

Definition PROFILES : list ProvenanceProfile := [
  {| profile_id := "example.governed-subject-receipt/v1"; profile_issuer := "sekai-chisei";
     profile_receipt_schema := "chisei.governed-subject-receipt/v1"; profile_kinds := ["operation"; "evidence"] |};
  {| profile_id := "example.build-attestation/v1"; profile_issuer := "example-builder";
     profile_receipt_schema := "example.build-attestation-receipt/v1"; profile_kinds := ["build"; "material"] |}].

Definition provenance_profile (id : string) : result ProvenanceProfile evidence_error :=
  ok_or (find_first (λ p, bool_decide (profile_id p = id)) PROFILES) (UnknownProfile id).

Definition MAX_ENVELOPES : nat := 4.
Definition MAX_REFERENCES : nat := 8.
Definition MAX_FRESHNESS_MS : Z := 31 * 24 * 60 * 60 * 1000.
Definition MAX_CLOCK_SKEW_MS : Z := 5 * 60 * 1000.
Definition PROVENANCE_DOMAIN : string := "TENKAI-RELEASE-PROVENANCE-V1" +:+ String NUL "".
Definition CONTENT_DOMAIN : string := "TENKAI-RELEASE-PROVENANCE-CONTENT-V1" +:+ String NUL "".

Definition reference_bytes (r : GovernedReference) : string :=
  len_prefixed (ref_kind r) +:+ len_prefixed (ref_id r) +:+ len_prefixed (ref_digest r).

(** [canonical_signed_bytes]. *)
Definition provenance_bytes (e : ProvenanceEnvelope) : string :=
  PROVENANCE_DOMAIN
  +:+ len_prefixed (pe_profile e) +:+ len_prefixed (pe_issuer e) +:+ len_prefixed (pe_issuer_key_id e)
  +:+ len_prefixed (pe_subject e) +:+ len_prefixed (pe_content_digest e) +:+ len_prefixed (pe_decision e)
  +:+ len_prefixed (pe_receipt_schema e) +:+ len_prefixed (pe_receipt_digest e)
  +:+ be_bytes 8 (Z.of_nat (length (pe_references e)))
  +:+ foldr (λ r rest, reference_bytes r +:+ rest) "" (pe_references e)
  +:+ i64_be_bytes (pe_observed_at e) +:+ i64_be_bytes (pe_expires_at e).

Section Provenance.
Context {U : UrlFormat} {B : Base64} {E : PlanEncoding} {C : Crypto}.

Definition validate_reference (previous : option (string * string)) (r : GovernedReference) :
    result (option (string * string)) evidence_error :=
  let? _ := validate_schema_id "release provenance reference kind" (ref_kind r) in
  let? _ := validate_opaque_identifier "release provenance reference id" (ref_id r) in
  let? _ := check_digest "release provenance reference digest" (ref_digest r) in
  bail_if negb (sorted_after previous (ref_kind r, ref_id r)) with ReferencesNotCanonical in
  Ok (Some (ref_kind r, ref_id r)).

Definition validate_stored_structure (e : ProvenanceEnvelope) : result unit evidence_error :=
  let? _ := validate_schema_id "release provenance profile" (pe_profile e) in
  let? _ := validate_opaque_identifier "release provenance issuer" (pe_issuer e) in
  let? _ := map_err (λ _, BadEvidenceDigest "release provenance issuer_key_id" (pe_issuer_key_id e))
              (validate_key_id (pe_issuer_key_id e)) in
  let? _ := validate_opaque_identifier "release provenance subject" (pe_subject e) in
  let? _ := check_digest "release provenance content_digest" (pe_content_digest e) in
  bail_if negb (bool_decide (pe_decision e = "allow")) with DecisionNotAllow in
  let? _ := validate_schema_id "release provenance receipt_schema" (pe_receipt_schema e) in
  let? _ := check_digest "release provenance receipt_digest" (pe_receipt_digest e) in
  bail_if (MAX_REFERENCES <? length (pe_references e))%nat with TooManyReferences in
  let? _ := try_fold validate_reference None (pe_references e) in
  bail_if (pe_observed_at e <=? 0) || (pe_expires_at e <? pe_observed_at e)
          || (MAX_FRESHNESS_MS <? pe_expires_at e - pe_observed_at e) with BadFreshness in
  bail_if negb (decodes_to 64 (pe_signature e)) with BadEvidenceSignature in
  Ok tt.

Definition validate_structure (e : ProvenanceEnvelope) : result unit evidence_error :=
  let? p := provenance_profile (pe_profile e) in
  let? _ := validate_stored_structure e in
  bail_if negb (bool_decide (pe_issuer e = profile_issuer p)) with (IssuerNotAdmitted (pe_profile e) (pe_issuer e)) in
  bail_if negb (bool_decide (pe_receipt_schema e = profile_receipt_schema p))
    with (ReceiptSchemaNotAdmitted (pe_profile e) (pe_receipt_schema e)) in
  try_for_each (λ r,
    bail_if negb (bool_decide (ref_kind r ∈ profile_kinds p)) with (ReferenceKindNotAdmitted (pe_profile e) (ref_kind r)) in
    Ok tt) (pe_references e).

(** [ProvenanceEnvelope::validate]. *)
Definition validate_envelope (now : Z) (e : ProvenanceEnvelope) : result unit evidence_error :=
  let? _ := validate_structure e in
  bail_if i64_saturating_add now MAX_CLOCK_SKEW_MS <? pe_observed_at e with ObservedInFuture in
  bail_if pe_expires_at e <? now with EvidenceStale in
  Ok tt.

Definition provenance_signed_bytes (e : ProvenanceEnvelope) : result string evidence_error :=
  let? _ := validate_structure e in Ok (provenance_bytes e).

Definition envelope_hash (e : ProvenanceEnvelope) : string :=
  "sha256:" +:+ sha256_hex (provenance_bytes e +:+ len_prefixed (pe_signature e)).

Definition provenance_digest (e : ProvenanceEnvelope) : result string evidence_error :=
  let? _ := provenance_signed_bytes e in Ok (envelope_hash e).

Definition stored_digest (e : ProvenanceEnvelope) : result string evidence_error :=
  let? _ := validate_stored_structure e in Ok (envelope_hash e).

Definition projected (e : ProvenanceEnvelope) (digest : string) : ProvenanceProjection := {|
  pp_profile := pe_profile e; pp_issuer := pe_issuer e; pp_issuer_key_id := pe_issuer_key_id e;
  pp_subject := pe_subject e; pp_envelope_digest := digest; pp_decision := pe_decision e;
  pp_receipt_schema := pe_receipt_schema e; pp_receipt_digest := pe_receipt_digest e;
  pp_references := pe_references e; pp_observed_at := pe_observed_at e; pp_expires_at := pe_expires_at e |}.

Definition provenance_projection (e : ProvenanceEnvelope) : result ProvenanceProjection evidence_error :=
  let? digest := provenance_digest e in Ok (projected e digest).

Definition stored_projection (e : ProvenanceEnvelope) : result ProvenanceProjection evidence_error :=
  let? _ := validate_stored_structure e in
  let? digest := stored_digest e in
  Ok (projected e digest).

Definition verify_issuer (now : Z) (roots : ReleaseTrustRoots) (e : ProvenanceEnvelope) : result unit evidence_error :=
  let? _ := map_err IssuerNotTrusted (validate_release_roots roots) in
  let? signer := map_err IssuerNotTrusted (resolve_signed_at roots (pe_issuer_key_id e) (pe_observed_at e) now) in
  bail_if negb (bool_decide (release_identity signer = pe_issuer e)) with IssuerNotKeyIdentity in
  let? bytes := provenance_signed_bytes e in
  bail_if negb (verify_strict (release_public_key signer) (pe_signature e) bytes) with BadEvidenceSignature in
  Ok tt.

(** [ProvenanceEnvelope::load], of what the file decodes to. *)
Definition load_envelope (decoded : result ProvenanceEnvelope string) : result ProvenanceEnvelope evidence_error :=
  let? e := map_err EvidenceUnreadable decoded in
  let? _ := validate_structure e in
  Ok e.

Fixpoint neighbours_share {A B} `{EqDecision B} (f : A → B) (l : list A) : bool :=
  match l with
  | x :: ((y :: _) as rest) => bool_decide (f x = f y) || neighbours_share f rest
  | _ => false
  end.

(** [load_all]: of what the files decode to. *)
Definition load_all (now : Z) (files : list (result ProvenanceEnvelope string))
    (roots : option (result ReleaseTrustRoots string)) : result (list ProvenanceEnvelope) evidence_error :=
  bail_if (MAX_ENVELOPES <? length files)%nat with TooManyEnvelopes in
  let? envelopes := try_fold (λ acc f, let? e := load_envelope f in Ok (acc ++ [e])) [] files in
  let? _ := match envelopes, roots with
    | [], Some _ => Err RootsWithoutEnvelopes
    | [], None => Ok tt
    | _, None => Err EnvelopesWithoutRoots
    | _, Some roots =>
      let? roots := map_err EvidenceUnreadable roots in
      try_for_each (verify_issuer now roots) envelopes
    end in
  let sorted := sort_by (cmp_on pe_profile String.compare) envelopes in
  bail_if neighbours_share pe_profile sorted with DuplicateProfile in
  Ok sorted.

Definition release_content_digest (manifest_digest artifact_digest : string) : result string evidence_error :=
  bail_if negb (valid_hex_digest manifest_digest) with (BadEvidenceDigest "manifest digest" manifest_digest) in
  bail_if negb (valid_hex_digest artifact_digest) with (BadEvidenceDigest "artifact digest" artifact_digest) in
  Ok ("sha256:" +:+ sha256_hex (CONTENT_DOMAIN +:+ len_prefixed manifest_digest +:+ len_prefixed artifact_digest)).

Definition validate_release_binding (l : list ProvenanceEnvelope) (manifest_digest artifact_digest : string) :
    result unit evidence_error :=
  let? expected := release_content_digest manifest_digest artifact_digest in
  try_for_each (λ e,
    bail_if negb (bool_decide (pe_content_digest e = expected)) with (NotBoundToContent (pe_profile e)) in Ok tt) l.
End Provenance.

(** The provenance a release stores, and reads back. *)

Class ProvenanceJson := {
  envelopes_json : list ProvenanceEnvelope → string; envelopes_of_json : string → option (list ProvenanceEnvelope);
  digests_json : list string → string; digests_of_json : string → option (list string);
  projections_json : list ProvenanceProjection → string;
  projections_of_json : string → option (list ProvenanceProjection)
}.

Class ProvenanceJsonLaws (J : ProvenanceJson) := {
  envelopes_decode l : envelopes_of_json (envelopes_json l) = Some l;
  digests_decode l : digests_of_json (digests_json l) = Some l;
  projections_decode l : projections_of_json (projections_json l) = Some l
}.

Definition try_map {A B F} (f : A → result B F) (l : list A) : result (list B) F :=
  try_fold (λ acc a, let? b := f a in Ok (acc ++ [b])) [] l.

Section StoredProvenance.
Context {U : UrlFormat} {B : Base64} {E : PlanEncoding} {C : Crypto} {PJ : ProvenanceJson}.

(** [catalog::provenance_properties]. *)
Definition provenance_properties (l : list ProvenanceEnvelope) :
    result (gmap string string * list string) evidence_error :=
  match l with
  | [] => Ok (∅, [])
  | _ =>
    let? digests := try_map provenance_digest l in
    let? projections := try_map provenance_projection l in
    Ok (<["provenance_envelopes" := envelopes_json l]> (<["provenance_digests" := digests_json digests]>
          {["provenance_projections" := projections_json projections]}), digests)
  end.

(** [trust::stored_provenance]. *)
Definition stored_provenance (ps : gmap string string) : result (list ProvenanceProjection) evidence_error :=
  match ps !! "provenance_envelopes" with
  | None =>
    bail_if is_some_b (ps !! "provenance_digests") || is_some_b (ps !! "provenance_projections")
      with ProvenanceIncomplete in
    Ok []
  | Some raw =>
    let? l := ok_or (envelopes_of_json raw) ProvenanceIncomplete in
    let? digests := ok_or (ps !! "provenance_digests" ≫= digests_of_json) ProvenanceIncomplete in
    let? projections := ok_or (ps !! "provenance_projections" ≫= projections_of_json) ProvenanceIncomplete in
    let? expected_digests := try_map stored_digest l in
    let? expected := try_map stored_projection l in
    bail_if negb (bool_decide (digests = expected_digests)) || negb (bool_decide (projections = expected))
      with ProvenanceProjectionsDiffer in
    Ok expected
  end.
End StoredProvenance.

(** ** Change sets *)

Record ChangeSetMember := { member_kind : string; member_id : string; member_digest : string }.
#[export] Instance ChangeSetMember_eq : EqDecision ChangeSetMember.
Proof. solve_decision. Defined.

(** [ChangeSetPin], and the manifest's [ChangeSetPinSection] it comes from. *)
Record ChangeSetPin := {
  pin_contract : string; pin_namespace : string; pin_branch_id : string; pin_proposal_id : string;
  pin_base_digest : string; pin_closure_digest : string; pin_receipt_digest : string;
  pin_members : list ChangeSetMember
}.

Record ChangeSetPublicationEvidence := {
  cs_schema : string; cs_status : string; cs_authorized : bool; cs_contract : string; cs_namespace : string;
  cs_branch_id : string; cs_proposal_id : string; cs_base_digest : string; cs_closure_digest : string;
  cs_receipt_digest : string; cs_members : list ChangeSetMember
}.

Record ChangeSetPinProjection := {
  csp_contract : string; csp_namespace : string; csp_branch_id : string; csp_proposal_id : string;
  csp_closure_digest : string; csp_receipt_digest : string; csp_pin_digest : string; csp_status : string;
  csp_members : list ChangeSetMember
}.

Record AdmittedChangeSetPin := {
  admitted_pin : ChangeSetPin; admitted_evidence : ChangeSetPublicationEvidence; admitted_pin_digest : string
}.

(** [ChangeSetEvidenceInput]; a file is what it decodes to. *)
Inductive ChangeSetEvidenceInput :=
| EvidenceDocument (decoded : result ChangeSetPublicationEvidence string)
| UnavailableEvidence (reason : string)
| UnauthorizedEvidence (reason : string).

Definition PIN_CONTRACT : string := "tenkai.change_set_pin.v1".
Definition EVIDENCE_SCHEMA : string := "tenkai.change_set_publication_evidence.v1".
Definition MAX_MEMBERS : nat := 32.
Definition MEMBER_KINDS : list string :=
  ["object_type"; "interface_type"; "ontology_class"; "ontology_relation"; "link_type"; "action_type"; "control";
   "workshop_module"; "type_revision"; "runtime"].
Definition PIN_DOMAIN : string := "TENKAI-CHANGE-SET-PIN-V1" +:+ String NUL "".

Definition member_key (m : ChangeSetMember) : string * string := (member_kind m, member_id m).

Definition validate_member (previous : option (string * string)) (m : ChangeSetMember) :
    result (option (string * string)) evidence_error :=
  bail_if negb (bool_decide (member_kind m ∈ MEMBER_KINDS)) with (UnknownMemberKind (member_kind m)) in
  let? _ := validate_opaque_identifier "change-set member id" (member_id m) in
  let? _ := check_digest "change-set member digest" (member_digest m) in
  bail_if negb (sorted_after previous (member_key m)) with MembersNotCanonical in
  Ok (Some (member_key m)).

Definition validate_members (l : list ChangeSetMember) : result unit evidence_error :=
  bail_if (length l =? 0)%nat with NoMembers in
  bail_if (MAX_MEMBERS <? length l)%nat with TooManyMembers in
  let? _ := try_fold validate_member None l in
  Ok tt.

(** [canonicalize], of a pin and of evidence. *)
Definition canonical_members (l : list ChangeSetMember) : list ChangeSetMember := sort_by (cmp_on member_key two_cmp) l.

Definition with_pin_members (p : ChangeSetPin) (l : list ChangeSetMember) : ChangeSetPin := {|
  pin_contract := pin_contract p; pin_namespace := pin_namespace p; pin_branch_id := pin_branch_id p;
  pin_proposal_id := pin_proposal_id p; pin_base_digest := pin_base_digest p;
  pin_closure_digest := pin_closure_digest p; pin_receipt_digest := pin_receipt_digest p; pin_members := l |}.

Definition with_cs_members (e : ChangeSetPublicationEvidence) (l : list ChangeSetMember) : ChangeSetPublicationEvidence := {|
  cs_schema := cs_schema e; cs_status := cs_status e; cs_authorized := cs_authorized e; cs_contract := cs_contract e;
  cs_namespace := cs_namespace e; cs_branch_id := cs_branch_id e; cs_proposal_id := cs_proposal_id e;
  cs_base_digest := cs_base_digest e; cs_closure_digest := cs_closure_digest e;
  cs_receipt_digest := cs_receipt_digest e; cs_members := l |}.

(** [ChangeSetPin::validate]. *)
Definition validate_change_set_pin (p : ChangeSetPin) : result unit evidence_error :=
  bail_if negb (bool_decide (pin_contract p = PIN_CONTRACT)) with (UnknownPinContract (pin_contract p)) in
  let? _ := validate_opaque_identifier "change-set pin namespace" (pin_namespace p) in
  let? _ := validate_opaque_identifier "change-set pin branch_id" (pin_branch_id p) in
  let? _ := validate_opaque_identifier "change-set pin proposal_id" (pin_proposal_id p) in
  let? _ := check_digest "change-set pin base_digest" (pin_base_digest p) in
  let? _ := check_digest "change-set pin closure_digest" (pin_closure_digest p) in
  let? _ := check_digest "change-set pin receipt_digest" (pin_receipt_digest p) in
  validate_members (pin_members p).

Definition from_section (section : ChangeSetPin) : result ChangeSetPin evidence_error :=
  let pin := with_pin_members section (canonical_members (pin_members section)) in
  let? _ := validate_change_set_pin pin in
  Ok pin.

Definition member_bytes (m : ChangeSetMember) : string :=
  len_prefixed (member_kind m) +:+ len_prefixed (member_id m) +:+ len_prefixed (member_digest m).

Definition pin_bytes (p : ChangeSetPin) : string :=
  PIN_DOMAIN
  +:+ len_prefixed (pin_contract p) +:+ len_prefixed (pin_namespace p) +:+ len_prefixed (pin_branch_id p)
  +:+ len_prefixed (pin_proposal_id p) +:+ len_prefixed (pin_base_digest p) +:+ len_prefixed (pin_closure_digest p)
  +:+ len_prefixed (pin_receipt_digest p) +:+ be_bytes 8 (Z.of_nat (length (pin_members p)))
  +:+ foldr (λ m rest, member_bytes m +:+ rest) "" (pin_members p).

(** [ChangeSetPublicationEvidence::validate_structure]. *)
Definition validate_evidence (e : ChangeSetPublicationEvidence) : result unit evidence_error :=
  bail_if negb (bool_decide (cs_schema e = EVIDENCE_SCHEMA)) with (UnknownEvidenceSchema (cs_schema e)) in
  bail_if negb (bool_decide (cs_status e ∈ ["accepted"; "unaccepted"; "incomplete"; "recalled"]))
    with (UnknownEvidenceStatus (cs_status e)) in
  bail_if negb (bool_decide (cs_contract e = PIN_CONTRACT)) with (UnknownPinContract (cs_contract e)) in
  let? _ := validate_opaque_identifier "change-set evidence namespace" (cs_namespace e) in
  let? _ := validate_opaque_identifier "change-set evidence branch_id" (cs_branch_id e) in
  let? _ := validate_opaque_identifier "change-set evidence proposal_id" (cs_proposal_id e) in
  let? _ := check_digest "change-set evidence base_digest" (cs_base_digest e) in
  let? _ := check_digest "change-set evidence closure_digest" (cs_closure_digest e) in
  let? _ := check_digest "change-set evidence receipt_digest" (cs_receipt_digest e) in
  if negb (bool_decide (cs_status e = "incomplete")) then validate_members (cs_members e)
  else bail_if (MAX_MEMBERS <? length (cs_members e))%nat with TooManyMembers in Ok tt.

(** [load_evidence], with [load_file]. *)
Definition load_evidence (input : ChangeSetEvidenceInput) : result ChangeSetPublicationEvidence evidence_error :=
  match input with
  | EvidenceDocument decoded =>
    let? e := map_err EvidenceUnreadable decoded in
    let e := with_cs_members e (canonical_members (cs_members e)) in
    let? _ := validate_evidence e in
    Ok e
  | UnavailableEvidence reason => Err (EvidenceUnavailable reason)
  | UnauthorizedEvidence reason => Err (EvidenceUnauthorized reason)
  end.

Definition require_accepted_match (p : ChangeSetPin) (e : ChangeSetPublicationEvidence) : result unit evidence_error :=
  bail_if negb (cs_authorized e) with (EvidenceUnauthorized "") in
  bail_if negb (bool_decide (cs_status e = "accepted")) with (ChangeSetNotAccepted (cs_status e)) in
  bail_if negb (bool_decide (cs_contract e = pin_contract p)) || negb (bool_decide (cs_namespace e = pin_namespace p))
          || negb (bool_decide (cs_branch_id e = pin_branch_id p))
          || negb (bool_decide (cs_proposal_id e = pin_proposal_id p))
          || negb (bool_decide (cs_base_digest e = pin_base_digest p))
          || negb (bool_decide (cs_closure_digest e = pin_closure_digest p))
          || negb (bool_decide (cs_receipt_digest e = pin_receipt_digest p))
    with EvidenceIdentityDiffers in
  bail_if negb (bool_decide (cs_members e = pin_members p)) with EvidenceMembersDiffer in
  Ok tt.

Class ChangeSetJson := {
  pin_json : ChangeSetPin → string; pin_of_json : string → option ChangeSetPin;
  evidence_json : ChangeSetPublicationEvidence → string;
  evidence_of_json : string → option ChangeSetPublicationEvidence
}.

Class ChangeSetJsonLaws (J : ChangeSetJson) := {
  pin_decode p : pin_of_json (pin_json p) = Some p;
  evidence_decode e : evidence_of_json (evidence_json e) = Some e
}.

Section ChangeSets.
Context {E : PlanEncoding} {CJ : ChangeSetJson}.

(** [ChangeSetPin::digest]. *)
Definition change_set_digest (p : ChangeSetPin) : result string evidence_error :=
  let? _ := validate_change_set_pin p in Ok ("sha256:" +:+ sha256_hex (pin_bytes p)).

Definition admit_pin (section : ChangeSetPin) (input : ChangeSetEvidenceInput) :
    result AdmittedChangeSetPin evidence_error :=
  let? pin := from_section section in
  let? e := load_evidence input in
  let? _ := require_accepted_match pin e in
  let? digest := change_set_digest pin in
  Ok {| admitted_pin := pin; admitted_evidence := e; admitted_pin_digest := digest |}.

(** [admit_publication]. *)
Definition admit_change_set (pin : option ChangeSetPin) (evidence : option ChangeSetEvidenceInput) :
    result (option AdmittedChangeSetPin) evidence_error :=
  match pin, evidence with
  | None, None => Ok None
  | None, Some _ => Err EvidenceWithoutPin
  | Some _, None => Err PinWithoutEvidence
  | Some section, Some input => let? a := admit_pin section input in Ok (Some a)
  end.

(** [stored_properties]. *)
Definition pin_properties (a : AdmittedChangeSetPin) : gmap string string :=
  <["change_set_pin" := pin_json (admitted_pin a)]> (<["change_set_evidence" := evidence_json (admitted_evidence a)]>
    {["change_set_pin_digest" := admitted_pin_digest a]}).

(** [stored_projection]. *)
Definition pin_projection (ps : gmap string string) : result (option ChangeSetPinProjection) evidence_error :=
  match ps !! "change_set_pin" with
  | None =>
    bail_if is_some_b (ps !! "change_set_evidence") || is_some_b (ps !! "change_set_pin_digest")
      with PinIncomplete in
    Ok None
  | Some raw =>
    let? p := ok_or (pin_of_json raw) PinIncomplete in
    let? e := ok_or (ps !! "change_set_evidence" ≫= evidence_of_json) PinIncomplete in
    let? stored := ok_or (ps !! "change_set_pin_digest") PinIncomplete in
    let? _ := validate_change_set_pin p in
    let? _ := validate_evidence e in
    let? _ := require_accepted_match p e in
    let? digest := change_set_digest p in
    bail_if negb (bool_decide (stored = digest)) with PinDigestDiffers in
    Ok (Some {| csp_contract := pin_contract p; csp_namespace := pin_namespace p; csp_branch_id := pin_branch_id p;
                csp_proposal_id := pin_proposal_id p; csp_closure_digest := pin_closure_digest p;
                csp_receipt_digest := pin_receipt_digest p; csp_pin_digest := digest; csp_status := cs_status e;
                csp_members := pin_members p |})
  end.
End ChangeSets.

(** ** Family releases *)

Inductive GateFlag := BreakingFlag | MigrationFlag | RealmFlag.
#[export] Instance GateFlag_eq : EqDecision GateFlag.
Proof. solve_decision. Defined.

(** In the order of the enum, which is the order of a [BTreeSet] of flags. *)
Definition GATE_FLAGS : list GateFlag := [BreakingFlag; MigrationFlag; RealmFlag].

#[export] Instance GateFlag_countable : Countable GateFlag.
Proof.
  refine (inj_countable' (λ f, match f with BreakingFlag => 0%nat | MigrationFlag => 1%nat | RealmFlag => 2%nat end)
    (λ n, match n with 0%nat => BreakingFlag | 1%nat => MigrationFlag | _ => RealmFlag end) _).
  by intros [].
Defined.

Definition GateFlag_str (f : GateFlag) : string :=
  match f with BreakingFlag => "breaking" | MigrationFlag => "migration" | RealmFlag => "realm" end.

Definition GateFlag_parse (value : string) : result GateFlag evidence_error :=
  if bool_decide (value = "breaking") then Ok BreakingFlag
  else if bool_decide (value = "migration") then Ok MigrationFlag
  else if bool_decide (value = "realm") then Ok RealmFlag
  else Err (UnknownGateFlag value).

Definition flags_iter (flags : gset GateFlag) : list GateFlag := filter (λ f, f ∈ flags) GATE_FLAGS.

Definition join_flags (flags : gset GateFlag) : string := String.concat "," (map GateFlag_str (flags_iter flags)).

Definition parse_flags (value : string) : result (gset GateFlag) evidence_error :=
  try_fold (λ acc piece, let? f := GateFlag_parse piece in Ok ({[f]} ∪ acc)) ∅
    (List.filter (λ piece, negb (str_is_empty piece)) (split_on "," value)).

Definition FAMILY_DIGEST : string := "family_release_digest".
Definition FAMILY_GATE_FLAGS : string := "family_release_gate_flags".
Definition FAMILY_SCHEMA : string := "tenkai.family-release-manifest.v1".

Record NamedDigest := { named_name : string; named_digest : string }.

Record FamilyManifest := {
  fm_schema : string; fm_component : string; fm_version : string; fm_git_sha : string; fm_tag : option string;
  fm_binaries : list NamedDigest; fm_images : list NamedDigest; fm_attestations : list string;
  fm_gate_flags : list GateFlag
}.

(** [family_release::Admitted]. *)
Record AdmittedFamily := { family_digest : string; family_flags : gset GateFlag }.

(** [Admitted::properties]. *)
Definition family_properties (a : AdmittedFamily) : gmap string string :=
  <[FAMILY_DIGEST := family_digest a]> {[FAMILY_GATE_FLAGS := join_flags (family_flags a)]}.

Definition stored_gate_flags (ps : gmap string string) : result (gset GateFlag) evidence_error :=
  parse_flags (default "" (ps !! FAMILY_GATE_FLAGS)).

Definition hold_reason (release : string) (flags : gset GateFlag) : string :=
  "release " +:+ release +:+ " carries gate flags " +:+ join_flags flags +:+ "; approve before this channel serves it".

(** [rsplit_once] on one byte. *)
Definition after_last (sep : ascii) (s : string) : option string :=
  match rev (split_on sep s) with last :: _ :: _ => Some last | _ => None end.

Definition validate_image (image : NamedDigest) : result unit evidence_error :=
  bail_if str_is_empty (named_name image) with (FamilyManifestRefused "image name must not be empty") in
  bail_if str_contains "@" (named_name image) with (FamilyManifestRefused "digest in the image name") in
  let tag := after_last ":" (default (named_name image) (after_last "/" (named_name image))) in
  bail_if bool_decide (tag = Some "latest") with (FamilyManifestRefused "latest tag") in
  check_digest "image digest" (named_digest image).

Definition validate_family (m : FamilyManifest) (product version : string) : result unit evidence_error :=
  bail_if negb (bool_decide (fm_schema m = FAMILY_SCHEMA)) with (FamilyManifestRefused "schema") in
  bail_if negb (bool_decide (fm_component m = product)) with (FamilyManifestRefused "component") in
  bail_if negb (bool_decide (fm_version m = version)) with (FamilyManifestRefused "version") in
  bail_if negb ((str_len (fm_git_sha m) =? 40) && all_bytes lowercase_hex (fm_git_sha m))
    with (FamilyManifestRefused "git_sha") in
  bail_if negb (is_none_or (fm_tag m) (λ tag, bool_decide (tag = "v" +:+ version))) with (FamilyManifestRefused "tag") in
  bail_if (length (fm_binaries m) =? 0)%nat && (length (fm_images m) =? 0)%nat with (FamilyManifestRefused "empty") in
  let? _ := try_for_each (λ b,
    bail_if str_is_empty (named_name b) with (FamilyManifestRefused "binary name must not be empty") in
    check_digest "binary digest" (named_digest b)) (fm_binaries m) in
  let? _ := try_for_each validate_image (fm_images m) in
  try_for_each (λ a,
    bail_if str_is_empty a || any_control a with (FamilyManifestRefused "attestation") in Ok tt) (fm_attestations m).

Definition content_lines (m : FamilyManifest) : list string :=
  sort_by String.compare
    (map (λ b, "binary " +:+ named_name b +:+ " " +:+ named_digest b) (fm_binaries m)
     ++ map (λ i, "image " +:+ named_name i +:+ " " +:+ named_digest i) (fm_images m)).

Class FamilyJson := { family_of_json : string → option FamilyManifest }.

Section Family.
Context {U : UrlFormat} {B : Base64} {E : PlanEncoding} {C : Crypto} {FJ : FamilyJson}.

Definition contents_digest (m : FamilyManifest) : string :=
  sha256_hex (foldr (λ line rest, line +:+ String "010" rest) "" (content_lines m)).

(** [signed_digests], with the digest of the document. *)
Definition signed_digests (raw : string) : result (string * string) evidence_error :=
  let? m := ok_or (family_of_json raw) (FamilyManifestRefused "parse") in
  Ok (sha256_hex raw, contents_digest m).

(** [family_release::admit], of what its files hold. *)
Definition admit_family (now : Z) (raw : result string string) (envelope : result SignatureEnvelope string)
    (roots : result ReleaseTrustRoots string) (product version : string) : result AdmittedFamily evidence_error :=
  let? raw := map_err EvidenceUnreadable raw in
  let? m := ok_or (family_of_json raw) (FamilyManifestRefused "parse") in
  let? _ := validate_family m product version in
  let? digests := signed_digests raw in
  let? envelope := map_err EvidenceUnreadable envelope in
  let? roots := map_err EvidenceUnreadable roots in
  let? _ := map_err IssuerNotTrusted (verify_release envelope roots now digests.1 digests.2) in
  Ok {| family_digest := digests.1; family_flags := list_to_set (fm_gate_flags m) |}.
End Family.

(** ** What holds of admitted evidence *)

(** What a release stores of its gate flags is read back. *)
Lemma gate_flags_round_trip flags : parse_flags (join_flags flags) = Ok flags.
Proof.
  unfold join_flags, flags_iter, GATE_FLAGS. rewrite !filter_cons, filter_nil.
  destruct (decide (BreakingFlag ∈ flags)), (decide (MigrationFlag ∈ flags)), (decide (RealmFlag ∈ flags));
    unfold parse_flags; simpl; f_equal; apply set_eq; intros []; set_solver.
Qed.

(** Lengths and counts are machine words, times are [i64]s. *)
Definition reference_fits (r : GovernedReference) : Prop :=
  str_len (ref_kind r) ≤ u64_max ∧ str_len (ref_id r) ≤ u64_max ∧ str_len (ref_digest r) ≤ u64_max.

Record envelope_fits (e : ProvenanceEnvelope) : Prop := {
  ef_text : Forall (λ s, str_len s ≤ u64_max)
    [pe_profile e; pe_issuer e; pe_issuer_key_id e; pe_subject e; pe_content_digest e; pe_decision e;
     pe_receipt_schema e; pe_receipt_digest e];
  ef_references : Z.of_nat (length (pe_references e)) ≤ u64_max ∧ Forall reference_fits (pe_references e);
  ef_times : i64_min ≤ pe_observed_at e ≤ i64_max ∧ i64_min ≤ pe_expires_at e ≤ i64_max
}.

Lemma reference_list_inj l k s t :
  length l = length k → Forall reference_fits l → Forall reference_fits k →
  foldr (λ r rest, reference_bytes r +:+ rest) "" l +:+ s = foldr (λ r rest, reference_bytes r +:+ rest) "" k +:+ t →
  l = k ∧ s = t.
Proof.
  revert k. induction l as [|[a b c] l IH]; intros [|[a' b' c'] k] Hlen Hl Hk H; try done. simpl in H.
  apply Forall_cons in Hl as [(H1 & H2 & H3) Hl]. apply Forall_cons in Hk as [(K1 & K2 & K3) Hk].
  unfold reference_bytes in H. rewrite !string_app_assoc in H. simpl in *.
  apply len_prefixed_inj in H as [-> H]; [|done..]. apply len_prefixed_inj in H as [-> H]; [|done..].
  apply len_prefixed_inj in H as [-> H]; [|done..].
  apply IH in H as [-> ->]; [done|by injection Hlen|done|done].
Qed.

(** The signed bytes determine everything but the signature. *)
Lemma provenance_bytes_inj e e' :
  envelope_fits e → envelope_fits e' → provenance_bytes e = provenance_bytes e' → pe_signature e = pe_signature e' →
  e = e'.
Proof.
  intros [H1 [H2 H3] [H4 H5]] [K1 [K2 K3] [K4 K5]] H Hs. unfold provenance_bytes in H.
  repeat (apply Forall_cons in H1 as [? H1]). repeat (apply Forall_cons in K1 as [? K1]).
  apply string_app_inj in H as [_ H]; [|done].
  do 8 (apply len_prefixed_inj in H as [? H]; [|done..]).
  apply string_app_inj in H as [Hn H]; [|by rewrite !be_bytes_length].
  apply be_bytes_inj in Hn; [|unfold u64_max in *; simpl; lia..].
  apply reference_list_inj in H as [Hr H]; [|lia|done|done].
  apply string_app_inj in H as [Ho%i64_be_bytes_inj Hx%i64_be_bytes_inj]; [|done..].
  destruct e, e'; simpl in *. congruence.
Qed.

Lemma try_map_ok {A B F} (f : A → result B F) l k : try_map f l = Ok k ↔ Forall2 (λ a b, f a = Ok b) l k.
Proof.
  assert (H : ∀ acc k, try_fold (λ acc a, let? b := f a in Ok (acc ++ [b])) acc l = Ok k
                ↔ ∃ k', k = acc ++ k' ∧ Forall2 (λ a b, f a = Ok b) l k').
  { clear k. induction l as [|a l IH]; intros acc k; simpl.
    - split; [intros [= <-]; exists []; split; [by rewrite app_nil_r|constructor]|].
      intros (k' & -> & H). apply Forall2_nil_inv_l in H as ->. by rewrite app_nil_r.
    - destruct (f a) as [b|e] eqn:Hf.
      + rewrite IH. split.
        * intros (k' & -> & H). exists (b :: k'). rewrite <- app_assoc. by split; [|constructor].
        * intros (k' & -> & H). apply Forall2_cons_inv_l in H as (b' & k'' & Hb & H & ->).
          rewrite Hf in Hb. injection Hb as ->. exists k''. by rewrite <- app_assoc.
      + split; [done|]. intros (k' & -> & H). apply Forall2_cons_inv_l in H as (b' & k'' & Hb & _). by rewrite Hf in Hb. }
  unfold try_map. rewrite H. split; [by intros (k' & -> & Hk)|by exists k].
Qed.

Lemma compare_le_antisym a b : String.compare a b ≠ Gt → String.compare b a ≠ Gt → a = b.
Proof.
  intros H1 H2. destruct (String.compare a b) eqn:Hc; [by apply String.compare_eq_iff| |done].
  rewrite String.compare_antisym, Hc in H2. done.
Qed.

Lemma neighbours_distinct (l : list ProvenanceEnvelope) :
  StronglySorted (λ x y, cmp_on pe_profile String.compare x y ≠ Gt) l → neighbours_share pe_profile l = false →
  NoDup (map pe_profile l).
Proof.
  unfold cmp_on. induction 1 as [|x l Hl IH Hx]; simpl; [constructor|]. destruct l as [|y l].
  { intros _. by apply NoDup_singleton. }
  intros [Hxy%bool_decide_eq_false Hrest]%orb_false_iff. constructor; [|by apply IH].
  intros Hin. change (pe_profile x ∈ map pe_profile (y :: l)) in Hin.
  apply list_elem_of_fmap in Hin as (z & Hz & Hin). apply Hxy. rewrite Forall_forall in Hx.
  apply compare_le_antisym; [by apply Hx; left|]. rewrite Hz.
  apply StronglySorted_inv in Hl as [_ Hy]. rewrite Forall_forall in Hy.
  apply elem_of_cons in Hin as [->|Hin]; [|by apply Hy]. rewrite Hz in Hxy. done.
Qed.

Section Authenticated.
Context {U : UrlFormat} {B : Base64} {E : PlanEncoding} {C : Crypto}.

(** What an authenticated envelope of a registered profile says. *)
Record provenance_vouched (now : Z) (roots : ReleaseTrustRoots) (e : ProvenanceEnvelope) : Prop := {
  pv_profile : ∃ p, p ∈ PROFILES ∧ profile_id p = pe_profile e ∧ pe_issuer e = profile_issuer p
                    ∧ pe_receipt_schema e = profile_receipt_schema p
                    ∧ ∀ r, r ∈ pe_references e → ref_kind r ∈ profile_kinds p;
  pv_allows : pe_decision e = "allow";
  pv_signer : ∃ s, s ∈ release_signers roots ∧ release_key_id s = pe_issuer_key_id e ∧ release_identity s = pe_issuer e
                   ∧ is_revoked (release_key_id s) = false
                   ∧ verify_strict (release_public_key s) (pe_signature e) (provenance_bytes e) = true
}.

Lemma structure_ok e :
  validate_structure e = Ok tt →
  pe_decision e = "allow" ∧
  ∃ p, p ∈ PROFILES ∧ profile_id p = pe_profile e ∧ pe_issuer e = profile_issuer p
       ∧ pe_receipt_schema e = profile_receipt_schema p ∧ ∀ r, r ∈ pe_references e → ref_kind r ∈ profile_kinds p.
Proof.
  unfold validate_structure, provenance_profile. intros H. ok_inv H.
  apply find_first_some in Hg as [Hin Hid%bool_decide_eq_true]. rewrite try_for_each_ok in H.
  unfold validate_stored_structure in Hg0. ok_inv Hg0. split; [done|]. exists x. split_and!; try done.
  intros r Hr. specialize (H r Hr). by ok_inv H.
Qed.

Lemma resolved_signer roots key signed now s :
  resolve_signed_at roots key signed now = Ok s →
  s ∈ release_signers roots ∧ release_key_id s = key ∧ is_revoked (release_key_id s) = false.
Proof.
  unfold resolve_signed_at, release_signer, resolved, check_signed_at. intros H. ok_inv H. injection H as ->.
  apply find_first_some in Hg as [Hin Hk%bool_decide_eq_true]. by split_and!.
Qed.

Lemma issuer_vouched now roots e : verify_issuer now roots e = Ok tt → provenance_vouched now roots e.
Proof.
  unfold verify_issuer, provenance_signed_bytes. intros H. ok_inv H. ok_inv Hg2. injection Hg2 as <-. destruct x2.
  apply resolved_signer in Hg0 as (Hin & Hk & Hr). apply structure_ok in Hg4 as [Ha Hp]. split; [done..|]. by exists x0.
Qed.

(** Every envelope [load_all] returns is authenticated, and no profile is
    there twice. *)
Lemma load_all_vouched now files roots l :
  load_all now files roots = Ok l →
  NoDup (map pe_profile l) ∧ (l = [] ∨ ∃ r, roots = Some (Ok r) ∧ Forall (provenance_vouched now r) l).
Proof.
  unfold load_all. intros H. ok_inv H. injection H as <-. split.
  { apply neighbours_distinct; [|done]. apply (sort_by_sorted (cmp_on pe_profile String.compare)). }
  destruct x as [|e es]; [by left|right]. destruct roots as [roots|]; [|done]. ok_inv Hg1.
  exists x. split; [by rewrite Hg3|]. apply Forall_forall. intros y Hy. apply elem_of_sort_by in Hy.
  destruct x0, x1. apply issuer_vouched. apply elem_of_cons in Hy as [->|Hy]; [done|].
  by apply (proj1 (try_for_each_ok _ es) Hg1).
Qed.

Lemma binding_ok l md ad :
  validate_release_binding l md ad = Ok tt →
  ∃ d, release_content_digest md ad = Ok d ∧ ∀ e, e ∈ l → pe_content_digest e = d.
Proof.
  unfold validate_release_binding. intros H. ok_inv H. exists x. split; [done|]. intros e He.
  rewrite try_for_each_ok in H. specialize (H e He). by ok_inv H.
Qed.
End Authenticated.

(** ** What is stored is read back *)

Section StoredEvidence.
Context {U : UrlFormat} {B : Base64} {E : PlanEncoding} {C : Crypto} {PJ : ProvenanceJson} {PL : ProvenanceJsonLaws PJ}
        {CJ : ChangeSetJson} {CL : ChangeSetJsonLaws CJ}.

Lemma stored_after_digest e d : provenance_digest e = Ok d → stored_digest e = Ok d.
Proof.
  unfold provenance_digest, provenance_signed_bytes, validate_structure, stored_digest. intros H. ok_inv H.
  ok_inv Hg. ok_inv Hg0. match goal with Hv : validate_stored_structure e = Ok _ |- _ => by rewrite Hv end.
Qed.

Lemma stored_after_projection e p : provenance_projection e = Ok p → stored_projection e = Ok p.
Proof.
  unfold provenance_projection, stored_projection. intros H. ok_inv H. apply stored_after_digest in Hg.
  rewrite Hg. unfold stored_digest in Hg. ok_inv Hg.
  match goal with Hv : validate_stored_structure e = Ok _ |- _ => by rewrite Hv end.
Qed.

Lemma provenance_round_trip l ps digests stored :
  provenance_properties l = Ok (ps, digests) →
  (∀ k, k ∈ ["provenance_envelopes"; "provenance_digests"; "provenance_projections"] → stored !! k = ps !! k) →
  ∃ projections, stored_provenance stored = Ok projections ∧ map pp_envelope_digest projections = digests.
Proof.
  intros H Hk. unfold stored_provenance.
  rewrite !Hk by set_solver. destruct l as [|e l].
  { injection H as <- <-. rewrite !lookup_empty. by exists []. }
  unfold provenance_properties in H. ok_inv H. injection H as <- <-. simplify_map_eq.
  rewrite envelopes_decode, digests_decode, projections_decode. simpl.
  apply try_map_ok in Hg, Hg0.
  assert (Hd : try_map stored_digest (e :: l) = Ok x).
  { apply try_map_ok. eapply Forall2_impl; [exact Hg|]. apply stored_after_digest. }
  assert (Hp : try_map stored_projection (e :: l) = Ok x0).
  { apply try_map_ok. eapply Forall2_impl; [exact Hg0|]. apply stored_after_projection. }
  rewrite Hd, Hp, !bool_decide_true by done. simpl. exists x0. split; [done|].
  clear -Hg Hg0. revert x x0 Hg Hg0. induction (e :: l) as [|e' l' IH]; intros x x0 Hd Hp.
  { apply Forall2_nil_inv_l in Hd as ->. by apply Forall2_nil_inv_l in Hp as ->. }
  apply Forall2_cons_inv_l in Hd as (d & ds & Hd & Hds & ->). apply Forall2_cons_inv_l in Hp as (p & ps & Hp & Hps & ->).
  simpl. f_equal; [|by apply IH]. unfold provenance_projection in Hp. rewrite Hd in Hp. by injection Hp as <-.
Qed.

(** The pin an admitted change set leaves on the release. *)
Lemma pin_round_trip section input a stored :
  admit_pin section input = Ok a →
  (∀ k, k ∈ ["change_set_pin"; "change_set_evidence"; "change_set_pin_digest"] → stored !! k = pin_properties a !! k) →
  ∃ p, pin_projection stored = Ok (Some p) ∧ csp_pin_digest p = admitted_pin_digest a ∧ csp_status p = "accepted"
       ∧ csp_members p = canonical_members (pin_members section).
Proof.
  intros H Hk. unfold admit_pin in H. ok_inv H. injection H as <-. unfold pin_projection. rewrite !Hk by set_solver.
  unfold pin_properties. simplify_map_eq. rewrite pin_decode, evidence_decode. simpl.
  assert (Hpin : validate_change_set_pin x = Ok tt ∧ pin_members x = canonical_members (pin_members section)).
  { unfold from_section in Hg. ok_inv Hg. injection Hg as <-.
    match goal with Hv : validate_change_set_pin _ = Ok ?u |- _ => by destruct u end. }
  assert (Hev : validate_evidence x0 = Ok tt).
  { unfold load_evidence in Hg0. destruct input; [|done..]. ok_inv Hg0. injection Hg0 as <-.
    match goal with Hv : validate_evidence _ = Ok ?u |- _ => by destruct u end. }
  destruct Hpin as [Hpin Hm]. destruct x1. rewrite Hpin, Hev, Hg1, Hg2, bool_decide_true by done. simpl.
  eexists. split; [done|]. simpl. split_and!; [done| |done].
  unfold require_accepted_match in Hg1. by ok_inv Hg1.
Qed.
End StoredEvidence.
