(* ===== verification/Publication.v ===== *)
(** * Publishing, recalling, promoting and trusting releases

    [catalog.rs], [catalog/publication.rs] and [catalog/trust.rs]: a release
    is admitted once and never changes, carries one verification claim, is
    promoted to channels, is recalled for good, and is handed to execution
    only with the trust it was published with.  The store is an effect; what
    a file decodes to is part of the request, but for the trust roots and the
    published content, which are read when they are needed. *)

From S2P Require Import Prelude RustStr Kinds Plan ObjectStore Catalog Effects AuthContext Approvals ReleaseSigning Criticality DeliveryHolds ExecutionLease ReleaseEvidence.

(** ** Records *)

Definition KIND_PRODUCT : string := "tenkai.product".
Definition KIND_RELEASE_VERIFICATION : string := "tenkai.release_verification".
Definition KIND_RELEASE_RECALL : string := "tenkai.release_recall".
Definition REL_RELEASE_OF : string := "release_of".
Definition REL_HAS_RELEASE_VERIFICATION : string := "has_release_verification".
Definition REL_PROMOTES : string := "promotes".
Definition CHANNEL_HEALTH_GATES_PROPERTY : string := "health_gates".

Definition release_verification_id (release : string) : string := release +:+ ":verification".

(** [manifest::LoadedManifest], as far as publication reads it. *)
Record Loaded := {
  ld_raw : string; ld_name : string; ld_version : string; ld_description : string; ld_kind : ProductKind;
  ld_workdir : string; ld_artifacts : list string; ld_inventory : option string;
  ld_has_migration : bool; ld_changes_identity_config : bool; ld_change_set_pin : option ChangeSetPin
}.

(** A component inventory as it was read. *)
Record LoadedInventory := { inventory_schema : string; inventory_digest : string; inventory_document : string }.

(** [PublishOptions] and what the files of a publication hold. *)
Record PublishRequest := {
  rq_manifest : result Loaded string;
  (** [validate_resource_reference], when the result is bounded. *)
  rq_reference : option (result unit string);
  (** [oci_artifact::verify_publication], [artifact_digest], and what
      [identity_digest] hashes of the work directory. *)
  rq_artifacts : result unit string; rq_file_digest : result string string; rq_identity : result string string;
  rq_provenance : list (result ProvenanceEnvelope string);
  rq_provenance_roots : option (result ReleaseTrustRoots string);
  rq_change_set : option ChangeSetEvidenceInput;
  (** [workshop_module::admit_publication]. *)
  rq_workshop : result unit string;
  rq_signature : option (result SignatureEnvelope string);
  (** The path of the trust roots. *)
  rq_trust_roots : option string;
  rq_allow_unsigned_development : bool;
  rq_family : option (result string string * result SignatureEnvelope string);
  (** [snapshot_workdir_in], and the inventory in the snapshot. *)
  rq_snapshot : result string string; rq_inventory : result LoadedInventory string
}.

Record PublishResult := { published_release : string; published_digests : list string; published_before : bool }.

Inductive catalog_error :=
| CatalogDown (text : string)
| RequestRefused (text : string)
| EvidenceRefused (error : evidence_error)
| InvalidCatalogName (label value : string)
| SignedAndUnsigned
| SignatureIncomplete
| SignatureMissing
| ReleaseSignatureRefused (error : signing_error)
| FamilyNeedsRoots
| UnsignedInventory
| DifferentContent (release : string)
| ConcurrentDifferentContent (release : string)
| RecordVanished (id : string)
| NoStoredManifest (release : string)
| StoredManifestDiffers (release : string)
| NoStoredWorkdir (release : string)
| StoredArtifactsDiffer (release : string)
| DifferentProvenance (release : string)
| DifferentPin (release : string)
| DifferentFamily (release : string)
| DifferentVerification (release : string)
| VerificationLinkConflict (release : string)
| ProductRefused (error : crit_error)
| NotAuthorized (error : AuthError)
| BadReleaseSpec (spec : string)
| NotPublished (release : string)
| IdentityMismatch (release : string)
| RecallConflict (release : string)
| NotARelease (id : string)
| ReleaseRecalled (release : string)
| NoVerification (release : string)
| MalformedVerification (release : string)
| VerificationNotLinked (release : string)
| NoEvidenceField (key : string)
| UnsupportedAlgorithm (algorithm : string)
| StatementDigestDiffers
| SignedProvenanceDiffers
| UnknownVerificationStatus (status : string)
| NotDeployable (status : option string) (environment : string)
| NoHostTrustRoots
| UnsignedNotReverified
| NotSigned (release : string)
| ReverificationDiffers
| ChannelConflict (channel : string)
| HeadMoved (channel head : string)
| HeadNotReplaceable (channel head : string).

#[export] Instance Provenance_eq : EqDecision Provenance.
Proof. solve_decision. Defined.

(** ** Effects *)

Inductive catalog_effect : Type → Type :=
| CatalogNow : catalog_effect Z
| GetRecord (id : string) : catalog_effect (result (option Object) string)
| PutRecord (o : Object) : catalog_effect (result unit string)
| CreateRecord (o : Object) : catalog_effect create_answer
| LinkRecords (from to relation : string) : catalog_effect (result unit string)
| RecordLinks (from relation : string) : catalog_effect (result (list Link) string)
(** [TrustRoots::load], for a publication and for a host. *)
| ReadRoots (path : string) : catalog_effect (result ReleaseTrustRoots string)
| ReadHostRoots (path : string) : catalog_effect (result ReleaseTrustRoots string)
(** [manifest::parse_raw] and [identity_digest] of a stored release. *)
| HashStored (workdir raw : string) : catalog_effect (result string string)
(** [parse_raw]: the product and version a manifest names. *)
| ParseStored (raw : string) : catalog_effect (result (string * string) string)
(** [exposure::validate_stored_inventory]. *)
| CheckStoredInventory (o : Object) (workdir : option string) : catalog_effect (result unit string)
(** The lease of a product, and its object written under the lease. *)
| OnProduct {X} (e : crit_effect X) : catalog_effect X
| PersistProduct (o : Object) (h : Held) (create : bool) : catalog_effect (crit unit)
(** [require_published_model_evaluation] and
    [require_classical_registry_attestation]. *)
| RequireModelEvidence (o : Object) : catalog_effect (result unit string)
| RequireAttestation (o : Object) : catalog_effect (result unit string)
(** [canary::guarded_promotion] up to the promotion, and its end. *)
| BeginPromotion (actor product version channel owner : string) : catalog_effect (result unit string)
| EndPromotion (product channel : string) : catalog_effect (result unit string)
| ReadHold (s : HoldScope) : catalog_effect (result (option DeliveryHold) string)
| SetHold (s : HoldScope) (why who : string) : catalog_effect (result unit string).

Notation catalog_prog A := (prog catalog_effect (result A catalog_error)).

Definition ask {A} (e : catalog_effect (result A string)) : catalog_prog A :=
  do answer := perform e in Ret (map_err CatalogDown answer).

Definition on_product {A} (p : prog crit_effect (crit A)) : catalog_prog A :=
  do answer := hoist (@OnProduct) p in Ret (map_err ProductRefused answer).

(** [catalog::object]. *)
Definition catalog_object (id kind name : string) (ps : gmap string string) (now : Z) : Object := {|
  object_id := id; object_kind := kind; object_name := name; object_namespace := NS; external_id := "";
  properties := ps; created := now; updated := now |}.

(** JSON of signatures. *)
Class SignatureJson := {
  signature_json : SignatureEnvelope → string; signature_of_json : string → option SignatureEnvelope;
  origin_json : Provenance → string; origin_of_json : string → option Provenance;
  artifacts_json : list string → string
}.

Class SignatureJsonLaws (J : SignatureJson) := {
  signature_decode e : signature_of_json (signature_json e) = Some e;
  origin_decode p : origin_of_json (origin_json p) = Some p
}.

(** ** What is stored of a publication *)

Section Operations.
Context {U : UrlFormat} {B : Base64} {E : PlanEncoding} {C : Crypto} {PJ : ProvenanceJson} {CJ : ChangeSetJson}
        {FJ : FamilyJson} {SJ : SignatureJson}.

Definition SIGNATURE_ALGORITHM : string := "ed25519".

Inductive PublicationTrust := TrustVerified (evidence : ReleaseEvidence) (envelope : SignatureEnvelope) | TrustUnsigned.

(** [PublicationTrust::properties]. *)
Definition trust_properties (t : PublicationTrust) : gmap string string :=
  match t with
  | TrustVerified ev e => list_to_map [
      ("verification_status", "verified"); ("signature_algorithm", SIGNATURE_ALGORITHM);
      ("signer_identity", ev_signer_identity ev); ("signer_key_id", ev_signer_key_id ev);
      ("signer_public_key", ev_signer_public_key ev); ("signature_statement_digest", ev_statement_digest ev);
      ("signature_envelope", signature_json e); ("provenance", origin_json (ev_provenance ev))]
  | TrustUnsigned => list_to_map [("verification_status", "unsigned-development"); ("signature_algorithm", "none")]
  end.

Definition verify_publication (r : PublishRequest) (manifest_digest artifact_digest : string) :
    catalog_prog PublicationTrust :=
  match rq_signature r, rq_trust_roots r with
  | Some signature, Some path =>
    if rq_allow_unsigned_development r then Ret (Err SignedAndUnsigned)
    else
      do? e := Ret (map_err RequestRefused signature) in
      do? roots := ask (ReadRoots path) in
      do now := perform CatalogNow in
      do? ev := Ret (map_err ReleaseSignatureRefused (verify_release e roots now manifest_digest artifact_digest)) in
      Ret (Ok (TrustVerified ev e))
  | None, None => Ret (if rq_allow_unsigned_development r then Ok TrustUnsigned else Err SignatureMissing)
  | _, _ => Ret (Err SignatureIncomplete)
  end.

Definition admit_family_release (r : PublishRequest) (product version : string) : catalog_prog (option AdmittedFamily) :=
  match rq_family r with
  | None => Ret (Ok None)
  | Some (raw, signature) =>
    match rq_trust_roots r with
    | None => Ret (Err FamilyNeedsRoots)
    | Some path =>
      do roots := perform (ReadRoots path) in
      do now := perform CatalogNow in
      do? a := Ret (map_err EvidenceRefused (admit_family now raw signature roots product version)) in
      Ret (Ok (Some a))
    end
  end.

(** [validate_provenance_admission]: a release that exists may be replayed
    with evidence that has expired since. *)
Definition validate_provenance_admission (l : list ProvenanceEnvelope) (existing_release : bool) (now : Z) :
    result unit catalog_error :=
  if existing_release then Ok tt else map_err EvidenceRefused (try_for_each (validate_envelope now) l).

Definition agree_on (keys : list string) (stored wanted : gmap string string) : bool :=
  forallb (λ k, bool_decide (default "" (stored !! k) = default "" (wanted !! k))) keys.

Definition PROVENANCE_KEYS : list string := ["provenance_envelopes"; "provenance_digests"; "provenance_projections"].
Definition PIN_KEYS : list string := ["change_set_pin"; "change_set_evidence"; "change_set_pin_digest"].

Definition validate_stored_provenance (o : Object) (wanted : gmap string string) : result unit catalog_error :=
  bail_if negb (agree_on PROVENANCE_KEYS (properties o) wanted) with (DifferentProvenance (object_id o)) in Ok tt.

Definition admitted_properties (pin : option AdmittedChangeSetPin) : gmap string string :=
  match pin with Some a => pin_properties a | None => ∅ end.

(** [change_set_pin::validate_stored]. *)
Definition validate_stored_pin (o : Object) (pin : option AdmittedChangeSetPin) : result unit catalog_error :=
  bail_if negb (agree_on PIN_KEYS (properties o) (admitted_properties pin)) with (DifferentPin (object_id o)) in Ok tt.

(** [family_release::validate_stored]. *)
Definition validate_stored_family (o : Object) (family : option AdmittedFamily) : result unit catalog_error :=
  match properties o !! FAMILY_DIGEST, family with
  | None, None => Ok tt
  | Some stored, Some a =>
    bail_if negb (bool_decide (stored = family_digest a)) with (DifferentFamily (object_name o)) in Ok tt
  | _, _ => Err (DifferentFamily (object_name o))
  end.

Definition nonempty (ps : gmap string string) (key : string) : option string :=
  v ← ps !! key; if str_is_empty v then None else Some v.

Definition validate_stored_release_content (o : Object) (manifest_digest artifact_digest : string) : catalog_prog unit :=
  let id := object_id o in
  do? raw := Ret (ok_or (nonempty (properties o) "manifest") (NoStoredManifest id)) in
  let actual := sha256_hex raw in
  if negb (bool_decide (actual = manifest_digest)) || negb (bool_decide (properties o !! "digest" = Some actual))
  then Ret (Err (StoredManifestDiffers id))
  else
    do? _ := ask (ParseStored raw) in
    do? workdir := Ret (ok_or (nonempty (properties o) "workdir") (NoStoredWorkdir id)) in
    do? actual := ask (HashStored workdir raw) in
    Ret (bail_if negb (bool_decide (actual = artifact_digest))
                 || is_some_and (nonempty (properties o) "artifact_digest") (λ v, negb (bool_decide (v = actual)))
           with (StoredArtifactsDiffer id) in
         Ok tt).

Definition persist_oci_artifacts (ps : gmap string string) (artifacts : list string) : gmap string string :=
  match artifacts with
  | [] => delete "oci_artifacts" ps
  | _ => <["oci_artifacts" := artifacts_json artifacts]> ps
  end.

Definition persist_inventory (ps : gmap string string) (loaded : Loaded) (file : result LoadedInventory string)
    (signed : bool) : result (gmap string string) catalog_error :=
  match ld_inventory loaded with
  | None => Ok ps
  | Some _ =>
    bail_if negb signed with UnsignedInventory in
    let? file := map_err RequestRefused file in
    Ok (<["inventory.document" := inventory_document file]> (<["inventory.digest" := inventory_digest file]>
          (<["inventory.schema" := inventory_schema file]> ps)))
  end.

Definition bool_text (b : bool) : string := if b then "true" else "false".

Definition persist_delivery_properties (ps : gmap string string) (loaded : Loaded) : gmap string string :=
  <["changes_identity_config" := bool_text (ld_changes_identity_config loaded)]>
    (<["has_migration" := bool_text (ld_has_migration loaded)]> ps).

(** ** Publishing *)

(** What a publication established before it looked at the release. *)
Record Admission := {
  ad_loaded : Loaded; ad_digest : string; ad_artifact_digest : string; ad_provenance : gmap string string;
  ad_pin : option AdmittedChangeSetPin; ad_family : option AdmittedFamily; ad_signed : bool;
  ad_workdir : string; ad_inventory : result LoadedInventory string
}.

Definition admitted_id (a : Admission) : string := release_id (ld_name (ad_loaded a)) (ld_version (ad_loaded a)).

(** A release that exists is checked, and its content pinned again. *)
Definition readmit (a : Admission) (o : Object) : catalog_prog unit :=
  do? _ := validate_stored_release_content o (ad_digest a) (ad_artifact_digest a) in
  do? _ := ask (CheckStoredInventory o (Some (ad_workdir a))) in
  do? _ := Ret (validate_stored_provenance o (ad_provenance a)) in
  do? _ := Ret (validate_stored_pin o (ad_pin a)) in
  do? _ := Ret (validate_stored_family o (ad_family a)) in
  let ps := <["artifact_digest" := ad_artifact_digest a]> (properties o) in
  do? ps := Ret (persist_inventory (persist_oci_artifacts ps (ld_artifacts (ad_loaded a))) (ad_loaded a)
                   (ad_inventory a) (ad_signed a)) in
  do now := perform CatalogNow in
  ask (PutRecord (with_properties o (<["workdir" := ad_workdir a]> ps) now)).

(** The object of a new release. *)
Definition release_properties (a : Admission) : result (gmap string string) catalog_error :=
  let loaded := ad_loaded a in
  let base : gmap string string := list_to_map [
    ("product", ld_name loaded); ("version", ld_version loaded); ("digest", ad_digest a);
    ("artifact_digest", ad_artifact_digest a); ("manifest", ld_raw loaded); ("workdir", ad_workdir a)] in
  let? ps := persist_inventory (persist_oci_artifacts base (ld_artifacts loaded)) loaded (ad_inventory a) (ad_signed a) in
  let ps := persist_delivery_properties ps loaded in
  Ok (match ad_family a with Some f => family_properties f | None => ∅ end
      ∪ (admitted_properties (ad_pin a) ∪ (ad_provenance a ∪ ps))).

(** A release no one had published, unless someone did meanwhile. *)
Definition admit_new (a : Admission) : catalog_prog unit :=
  let id := admitted_id a in
  do? ps := Ret (release_properties a) in
  do now := perform CatalogNow in
  do made := perform (CreateRecord (catalog_object id KIND_RELEASE
                (ld_name (ad_loaded a) +:+ "@" +:+ ld_version (ad_loaded a)) ps now)) in
  match made with
  | Created => Ret (Ok tt)
  | UniqueConflict =>
    do? existing := ask (GetRecord id) in
    match existing with
    | None => Ret (Err (RecordVanished id))
    | Some o =>
      if negb (bool_decide (properties o !! "digest" = Some (ad_digest a)))
         || is_some_and (nonempty (properties o) "artifact_digest") (λ v, negb (bool_decide (v = ad_artifact_digest a)))
      then Ret (Err (ConcurrentDifferentContent id))
      else readmit a o
    end
  | RetiredIdentity => Ret (Err (CatalogDown "object IDs with audit history"))
  | CreateFailed text => Ret (Err (CatalogDown text))
  end.

Definition admit_existing (a : Admission) (o : Object) : catalog_prog unit :=
  if bool_decide (default "" (properties o !! "digest") = ad_digest a)
     && is_none_or (nonempty (properties o) "artifact_digest") (λ v, bool_decide (v = ad_artifact_digest a))
  then readmit a o
  else Ret (Err (DifferentContent (admitted_id a))).

(** [backfill_legacy_verification]. *)
Definition backfill_verification (release : string) (ps : gmap string string) : catalog_prog unit :=
  let id := release_verification_id release in
  let ps := <["release_id" := release]> ps in
  let name := "verification for " +:+ release in
  do now := perform CatalogNow in
  do made := perform (CreateRecord (catalog_object id KIND_RELEASE_VERIFICATION name ps now)) in
  do? _ := match made with
    | Created => Ret (Ok tt)
    | UniqueConflict =>
      do? existing := ask (GetRecord id) in
      Ret (let? o := ok_or existing (RecordVanished id) in
           bail_if negb (bool_decide (object_id o = id)) || negb (bool_decide (object_kind o = KIND_RELEASE_VERIFICATION))
                   || negb (bool_decide (object_name o = name)) || negb (bool_decide (object_namespace o = NS))
                   || negb (bool_decide (external_id o = "")) || negb (bool_decide (properties o = ps))
             with (DifferentVerification release) in
           Ok tt)
    | RetiredIdentity => Ret (Err (CatalogDown "object IDs with audit history"))
    | CreateFailed text => Ret (Err (CatalogDown text))
    end in
  do? _ := ask (LinkRecords release id REL_HAS_RELEASE_VERIFICATION) in
  do? links := ask (RecordLinks release REL_HAS_RELEASE_VERIFICATION) in
  Ret (bail_if negb (existsb (λ l,
           bool_decide (link_id l = release +:+ "--" +:+ REL_HAS_RELEASE_VERIFICATION +:+ "--" +:+ id)
           && bool_decide (from_id l = release) && bool_decide (to_id l = id)
           && bool_decide (link_relation l = REL_HAS_RELEASE_VERIFICATION)) links)
         with (VerificationLinkConflict release) in
       Ok tt).

(** The product's own object, under its mutation lease. *)
Definition record_product (name description : string) : catalog_prog unit :=
  do? h := on_product (claim_product_mutation name) in
  do r := (
    do existing := perform (GetRecord (product_id name)) in
    match existing with
    | Err text => Ret (Err (StoreError text))
    | Ok existing =>
      do now := perform CatalogNow in
      perform (PersistProduct (catalog_object (product_id name) KIND_PRODUCT name
        (preserve_product_properties (properties <$> existing) {["description" := description]}) now)
        h (negb (is_some_b existing)))
    end) in
  on_product (finish_mutation h r).

(** What a publication checks before it reads the store. *)
Definition check_request (r : PublishRequest) (now : Z) :
    result (Loaded * string * string * list ProvenanceEnvelope * (gmap string string * list string)
            * option AdmittedChangeSetPin) catalog_error :=
  let? loaded := map_err RequestRefused (rq_manifest r) in
  bail_if negb (valid_identifier (ld_name loaded)) with (InvalidCatalogName "product.name" (ld_name loaded)) in
  bail_if negb (valid_identifier (ld_version loaded)) with (InvalidCatalogName "product.version" (ld_version loaded)) in
  let? _ := map_err RequestRefused (default (Ok tt) (rq_reference r)) in
  let digest := sha256_hex (ld_raw loaded) in
  let? _ := map_err RequestRefused (rq_artifacts r) in
  let? _ := map_err RequestRefused (rq_file_digest r) in
  let? content := map_err RequestRefused (rq_identity r) in
  let artifact_digest := sha256_hex content in
  let? provenance := map_err EvidenceRefused (load_all now (rq_provenance r) (rq_provenance_roots r)) in
  let? _ := map_err EvidenceRefused (validate_release_binding provenance digest artifact_digest) in
  let? stored := map_err EvidenceRefused (provenance_properties provenance) in
  let? pin := map_err EvidenceRefused (admit_change_set (ld_change_set_pin loaded) (rq_change_set r)) in
  let? _ := (if bool_decide (ld_kind loaded = WorkshopModule) then map_err RequestRefused (rq_workshop r) else Ok tt) in
  Ok (loaded, digest, artifact_digest, provenance, stored, pin).

(** [publication::admit]. *)
Definition publish (r : PublishRequest) : catalog_prog PublishResult :=
  do now := perform CatalogNow in
  do? checked := Ret (check_request r now) in
  let '(loaded, digest, artifact_digest, provenance, stored, pin) := checked in
  let name := ld_name loaded in
  let version := ld_version loaded in
  let id := release_id name version in
  do? preexisting := ask (GetRecord id) in
  do now := perform CatalogNow in
  do? _ := Ret (validate_provenance_admission provenance (is_some_b preexisting) now) in
  do? trust := verify_publication r digest artifact_digest in
  do? family := admit_family_release r name version in
  do? workdir := Ret (map_err RequestRefused (rq_snapshot r)) in
  let a := {| ad_loaded := loaded; ad_digest := digest; ad_artifact_digest := artifact_digest;
              ad_provenance := stored.1; ad_pin := pin; ad_family := family;
              ad_signed := match trust with TrustVerified _ _ => true | TrustUnsigned => false end;
              ad_workdir := workdir; ad_inventory := rq_inventory r |} in
  do? _ := match preexisting with Some o => admit_existing a o | None => admit_new a end in
  do? _ := backfill_verification id (trust_properties trust) in
  do? _ := record_product name (ld_description loaded) in
  do? _ := ask (LinkRecords id (product_id name) REL_RELEASE_OF) in
  Ret (Ok {| published_release := name +:+ "@" +:+ version; published_digests := stored.2;
             published_before := is_some_b preexisting |}).

(** ** Recalling *)

Definition principal_kind_name (c : AuthenticatedRequestContext) : string :=
  match principal_kind (principal c) with
  | Human => "human" | Service => "service" | RuntimePrincipal => "runtime" | ManagementPrincipal => "management"
  end.

Definition require_capability (actor : AuthenticatedRequestContext) (c : DeliveryCapability) : result unit catalog_error :=
  map_err NotAuthorized (require_delivery_capability actor c).

Definition parse_release_spec (spec : string) : result (string * string) catalog_error :=
  match split_once "@" spec with
  | None => Err (BadReleaseSpec spec)
  | Some (product, version) =>
    bail_if negb (valid_identifier product) with (InvalidCatalogName "product" product) in
    bail_if negb (valid_identifier version) with (InvalidCatalogName "version" version) in
    Ok (product, version)
  end.

Definition validate_release_identity (o : Object) (product version : string) : result unit catalog_error :=
  bail_if negb (bool_decide (object_kind o = KIND_RELEASE))
          || negb (bool_decide (object_id o = release_id product version))
          || negb (bool_decide (properties o !! "product" = Some product))
          || negb (bool_decide (properties o !! "version" = Some version))
    with (IdentityMismatch (object_id o)) in
  Ok tt.

Definition release_for_spec (spec : string) : catalog_prog Object :=
  do? named := Ret (parse_release_spec spec) in
  let '(product, version) := named in
  do? found := ask (GetRecord (release_id product version)) in
  Ret (let? o := ok_or found (NotPublished spec) in
       let? _ := validate_release_identity o product version in
       Ok o).

Definition persist_recall_claim (actor : AuthenticatedRequestContext) (release : string) : catalog_prog unit :=
  do? _ := Ret (require_capability actor ManagementCapability) in
  let id := release_recall_id release in
  do at_ms := perform CatalogNow in
  let recalled_by := principal_id (principal actor) in
  do now := perform CatalogNow in
  let proposed := catalog_object id KIND_RELEASE_RECALL ("recall " +:+ release)
    (list_to_map [("release_id", release); ("recalled_at", pretty at_ms); ("recalled_by", recalled_by);
                  ("principal_kind", principal_kind_name actor)]) now in
  do made := perform (CreateRecord proposed) in
  do? claim := match made with
    | Created => Ret (Ok proposed)
    | UniqueConflict =>
      do? existing := ask (GetRecord id) in Ret (ok_or existing (RecordVanished id))
    | RetiredIdentity => Ret (Err (CatalogDown "object IDs with audit history"))
    | CreateFailed text => Ret (Err (CatalogDown text))
    end in
  if negb (bool_decide (object_kind claim = KIND_RELEASE_RECALL))
     || negb (bool_decide (properties claim !! "release_id" = Some release))
  then Ret (Err (RecallConflict release))
  else
    do? found := ask (GetRecord release) in
    match found with
    | None => Ret (Ok tt)
    | Some o =>
      if negb (bool_decide (object_kind o = KIND_RELEASE)) then Ret (Err (NotARelease release))
      else if release_object_is_recalled o then Ret (Ok tt)
      else
        ask (PutRecord (with_properties o
          (<["recalled_by" := default recalled_by (nonempty (properties claim) "recalled_by")]>
            (<["recalled_at" := default (pretty at_ms) (nonempty (properties claim) "recalled_at")]> (properties o)))
          (updated o)))
    end.

(** [recall]: whether it was recalled before. *)
Definition recall (actor : AuthenticatedRequestContext) (spec : string) : catalog_prog bool :=
  do? _ := Ret (require_capability actor ManagementCapability) in
  do? o := release_for_spec spec in
  if release_object_is_recalled o then Ret (Ok true)
  else do? _ := persist_recall_claim actor (object_id o) in Ret (Ok false).

(** ** Trusting *)

Record ReleaseDescriptor := {
  desc_release : string; desc_product : string; desc_version : string; desc_manifest_digest : string;
  desc_artifact_digest : string; desc_content_path : string; desc_provenance : list ProvenanceProjection;
  desc_change_set : option ChangeSetPinProjection
}.

Record DeployableSnapshot := { snapshot_descriptor : ReleaseDescriptor; snapshot_object : Object }.

Inductive SnapshotAdmission := StandardAdmission | AuditedRecovery.

(** What the host demands of a deployment besides the stored evidence. *)
Record HostTrust := { require_host_release_trust : bool; release_trust_roots : option string }.

Record ReleaseVerificationView := {
  view_release : string; view_product : string; view_version : string; view_status : string; view_algorithm : string;
  view_manifest_digest : string; view_artifact_digest : string; view_evidence : option ReleaseEvidence
}.

Definition evidence_property (ps : gmap string string) (key : string) : result string catalog_error :=
  ok_or (nonempty ps key) (NoEvidenceField key).

Definition admit_recall (o : Object) (admission : SnapshotAdmission) : catalog_prog unit :=
  match admission with
  | AuditedRecovery => Ret (Ok tt)
  | StandardAdmission =>
    if release_object_is_recalled o then Ret (Err (ReleaseRecalled (object_id o)))
    else
      do? claim := ask (GetRecord (release_recall_id (object_id o))) in
      Ret (bail_if is_some_and claim (λ c, bool_decide (object_kind c = KIND_RELEASE_RECALL))
             with (ReleaseRecalled (object_id o)) in
           Ok tt)
  end.

Definition stored_verification_properties (o : Object) : catalog_prog (gmap string string) :=
  let id := release_verification_id (object_id o) in
  do? found := ask (GetRecord id) in
  match found with
  | None => Ret (Err (NoVerification (object_id o)))
  | Some claim =>
    if negb (bool_decide (object_id claim = id)) || negb (bool_decide (object_kind claim = KIND_RELEASE_VERIFICATION))
       || negb (bool_decide (object_namespace claim = NS)) || negb (bool_decide (external_id claim = ""))
       || negb (bool_decide (properties claim !! "release_id" = Some (object_id o)))
    then Ret (Err (MalformedVerification (object_id o)))
    else
      do? links := ask (RecordLinks (object_id o) REL_HAS_RELEASE_VERIFICATION) in
      Ret (bail_if negb (existsb (λ l,
               bool_decide (link_id l = object_id o +:+ "--" +:+ REL_HAS_RELEASE_VERIFICATION +:+ "--" +:+ id)
               && bool_decide (from_id l = object_id o) && bool_decide (to_id l = id)
               && bool_decide (link_relation l = REL_HAS_RELEASE_VERIFICATION)) links)
             with (VerificationNotLinked (object_id o)) in
           Ok (properties claim))
  end.

(** The one signer a release was verified under. *)
Definition stored_signer (ps : gmap string string) : result ReleaseTrustRoots catalog_error :=
  let? key := evidence_property ps "signer_key_id" in
  let? identity := evidence_property ps "signer_identity" in
  let? public := evidence_property ps "signer_public_key" in
  Ok {| release_roots_version := TRUST_ROOT_VERSION;
        release_signers := [{| release_key_id := key; release_identity := identity; release_public_key := public;
                               release_not_before := None; release_not_after := None |}] |}.

Definition stored_envelope (ps : gmap string string) : result SignatureEnvelope catalog_error :=
  let? text := evidence_property ps "signature_envelope" in
  ok_or (signature_of_json text) (NoEvidenceField "signature_envelope").

Definition verification_view (o : Object) (ps : gmap string string) (now : Z) :
    result ReleaseVerificationView catalog_error :=
  let? status := evidence_property ps "verification_status" in
  let? algorithm := evidence_property ps "signature_algorithm" in
  let? product := evidence_property (properties o) "product" in
  let? version := evidence_property (properties o) "version" in
  let? manifest_digest := evidence_property (properties o) "digest" in
  let? artifact_digest := evidence_property (properties o) "artifact_digest" in
  let? evidence :=
    (if bool_decide (status = "verified") then
       bail_if negb (bool_decide (algorithm = SIGNATURE_ALGORITHM)) with (UnsupportedAlgorithm algorithm) in
       let? e := stored_envelope ps in
       let? roots := stored_signer ps in
       let? ev := map_err ReleaseSignatureRefused (verify_release e roots now manifest_digest artifact_digest) in
       let? stored := evidence_property ps "signature_statement_digest" in
       bail_if negb (bool_decide (ev_statement_digest ev = stored)) with StatementDigestDiffers in
       let? text := evidence_property ps "provenance" in
       let? origin := ok_or (origin_of_json text) (NoEvidenceField "provenance") in
       bail_if negb (bool_decide (origin = ev_provenance ev)) with SignedProvenanceDiffers in
       Ok (Some ev)
     else if bool_decide (status = "unsigned-development") then
       bail_if negb (bool_decide (algorithm = "none")) with (UnsupportedAlgorithm algorithm) in
       Ok None
     else Err (UnknownVerificationStatus status)) in
  let? _ := map_err EvidenceRefused (stored_provenance (properties o)) in
  let? _ := map_err EvidenceRefused (pin_projection (properties o)) in
  Ok {| view_release := object_id o; view_product := product; view_version := version; view_status := status;
        view_algorithm := algorithm; view_manifest_digest := manifest_digest;
        view_artifact_digest := artifact_digest; view_evidence := evidence |}.

Definition require_deployable_trust_properties (ps : gmap string string) (environment : string) :
    result unit catalog_error :=
  if bool_decide (environment = "local") then Ok tt
  else
    bail_if negb (bool_decide (ps !! "verification_status" = Some "verified"))
      with (NotDeployable (ps !! "verification_status") environment) in
    Ok tt.

Definition require_deployable_trust (t : HostTrust) (o : Object) (environment : string) : catalog_prog unit :=
  if bool_decide (environment = "local") then Ret (Ok tt)
  else
    do? ps := stored_verification_properties o in
    do now := perform CatalogNow in
    do? _ := Ret (verification_view o ps now) in
    do? _ := (if require_host_release_trust t then
                match release_trust_roots t with
                | None => Ret (Err NoHostTrustRoots)
                | Some path =>
                  do? roots := ask (ReadHostRoots path) in
                  do now := perform CatalogNow in
                  Ret (let? e := stored_envelope ps in
                       let? manifest_digest := evidence_property (properties o) "digest" in
                       let? artifact_digest := evidence_property (properties o) "artifact_digest" in
                       let? _ := map_err ReleaseSignatureRefused
                                   (verify_release e roots now manifest_digest artifact_digest) in
                       Ok tt)
                end
              else Ret (Ok tt)) in
    Ret (require_deployable_trust_properties ps environment).

Definition descriptor_of (o : Object) : result ReleaseDescriptor catalog_error :=
  let? product := evidence_property (properties o) "product" in
  let? version := evidence_property (properties o) "version" in
  let? manifest_digest := evidence_property (properties o) "digest" in
  let? artifact_digest := evidence_property (properties o) "artifact_digest" in
  let? path := evidence_property (properties o) "workdir" in
  let? provenance := map_err EvidenceRefused (stored_provenance (properties o)) in
  let? pin := map_err EvidenceRefused (pin_projection (properties o)) in
  Ok {| desc_release := object_id o; desc_product := product; desc_version := version;
        desc_manifest_digest := manifest_digest; desc_artifact_digest := artifact_digest; desc_content_path := path;
        desc_provenance := provenance; desc_change_set := pin |}.

Definition descriptor_from_object (t : HostTrust) (o : Object) (environment : string) (admission : SnapshotAdmission) :
    catalog_prog ReleaseDescriptor :=
  if negb (bool_decide (object_kind o = KIND_RELEASE)) then Ret (Err (NotARelease (object_id o)))
  else
    do? _ := admit_recall o admission in
    do? _ := require_deployable_trust t o environment in
    Ret (descriptor_of o).

(** [lookup_release] of the embedded catalog. *)
Definition lookup_release (t : HostTrust) (release environment : string) : catalog_prog ReleaseDescriptor :=
  do? found := ask (GetRecord release) in
  match found with
  | None => Ret (Err (NotPublished release))
  | Some o => descriptor_from_object t o environment StandardAdmission
  end.

(** [load_snapshot]: looked up, then read and admitted again. *)
Definition load_snapshot (t : HostTrust) (release environment : string) (admission : SnapshotAdmission) :
    catalog_prog DeployableSnapshot :=
  do? first := ask (GetRecord release) in
  match first with
  | None => Ret (Err (NotPublished release))
  | Some first =>
    do? d := descriptor_from_object t first environment admission in
    do? second := ask (GetRecord release) in
    match second with
    | None => Ret (Err (NotPublished release))
    | Some o =>
      if negb (bool_decide (object_kind o = KIND_RELEASE)) then Ret (Err (NotARelease release))
      else
        do? _ := admit_recall o admission in
        do? _ := require_deployable_trust t o environment in
        Ret (Ok {| snapshot_descriptor := d; snapshot_object := o |})
    end
  end.

(** [signature_envelope]. *)
Definition signature_envelope (release : string) : catalog_prog SignatureEnvelope :=
  do? found := ask (GetRecord release) in
  match found with
  | None => Ret (Err (NotPublished release))
  | Some o =>
    do? ps := stored_verification_properties o in
    do now := perform CatalogNow in
    do? _ := Ret (verification_view o ps now) in
    Ret (let? status := evidence_property ps "verification_status" in
         bail_if negb (bool_decide (status = "verified")) with (NotSigned release) in
         stored_envelope ps)
  end.

Definition inspect_release (spec : string) : catalog_prog ReleaseVerificationView :=
  do? o := release_for_spec spec in
  do? ps := stored_verification_properties o in
  do now := perform CatalogNow in
  Ret (verification_view o ps now).

Definition reverify_release (spec roots_path : string) : catalog_prog ReleaseVerificationView :=
  do? o := release_for_spec spec in
  do? ps := stored_verification_properties o in
  do now := perform CatalogNow in
  do? stored := Ret (verification_view o ps now) in
  if negb (bool_decide (view_status stored = "verified")) then Ret (Err UnsignedNotReverified)
  else
    do? e := Ret (stored_envelope ps) in
    do? _ := Ret (map_err ReleaseSignatureRefused (validate_signature e)) in
    do? roots := ask (ReadHostRoots roots_path) in
    do? raw := Ret (evidence_property (properties o) "manifest") in
    do? named := ask (ParseStored raw) in
    if negb (bool_decide (named = (view_product stored, view_version stored))) then Ret (Err (IdentityMismatch (object_id o)))
    else
      do? workdir := Ret (evidence_property (properties o) "workdir") in
      do? artifact_digest := ask (HashStored workdir raw) in
      do now := perform CatalogNow in
      do? ev := Ret (map_err ReleaseSignatureRefused (verify_release e roots now (sha256_hex raw) artifact_digest)) in
      Ret (bail_if negb (bool_decide (ev_signer_identity <$> view_evidence stored = Some (ev_signer_identity ev)))
                   || negb (bool_decide (ev_signer_key_id <$> view_evidence stored = Some (ev_signer_key_id ev)))
                   || negb (bool_decide (ev_statement_digest <$> view_evidence stored = Some (ev_statement_digest ev)))
                   || negb (bool_decide (view_manifest_digest stored = ev_manifest_digest ev))
                   || negb (bool_decide (view_artifact_digest stored = ev_artifact_digest ev))
                   || negb (bool_decide (ev_provenance <$> view_evidence stored = Some (ev_provenance ev)))
             with ReverificationDiffers in
           Ok stored).

(** ** Channels *)

Definition channel_name (product channel : string) : string := product +:+ "/" +:+ channel.

(** The head of a channel; a health gate overlay of the channel stays. *)
Definition head_properties (product channel version release : string) (existing : option Object) : gmap string string :=
  let ps : gmap string string := list_to_map [
    ("product", product); ("channel", channel); ("current_version", version); ("current_release", release)] in
  match o ← existing; properties o !! CHANNEL_HEALTH_GATES_PROPERTY with
  | Some overlay => <[CHANNEL_HEALTH_GATES_PROPERTY := overlay]> ps
  | None => ps
  end.

Definition new_channel (product channel : string) (now : Z) : Object :=
  catalog_object (channel_id product channel) KIND_CHANNEL (channel_name product channel)
    (list_to_map [("product", product); ("channel", channel)]) now.

(** [create_once], where a record that exists is an error too. *)
Definition create_only (o : Object) : catalog_prog unit :=
  do made := perform (CreateRecord o) in
  Ret (match made with
       | Created => Ok tt
       | UniqueConflict => Err (CatalogDown "unique conflict")
       | RetiredIdentity => Err (CatalogDown "object IDs with audit history")
       | CreateFailed text => Err (CatalogDown text)
       end).

(** [trust::release_is_recalled]. *)
Definition ask_release_is_recalled (release : string) : catalog_prog bool :=
  do? o := ask (GetRecord release) in
  if is_some_and o release_object_is_recalled then Ret (Ok true)
  else
    do? claim := ask (GetRecord (release_recall_id release)) in
    Ret (Ok (is_some_and claim (λ c, bool_decide (object_kind c = KIND_RELEASE_RECALL)))).

Definition pin_isolated_channel (product version channel : string) : catalog_prog unit :=
  do? _ := Ret (bail_if negb (valid_identifier product) with (InvalidCatalogName "product" product) in
                bail_if negb (valid_identifier version) with (InvalidCatalogName "version" version) in
                bail_if negb (valid_identifier channel) with (InvalidCatalogName "channel" channel) in
                Ok tt) in
  let release := release_id product version in
  let id := channel_id product channel in
  do? found := ask (GetRecord release) in
  if negb (is_some_b found) then Ret (Err (NotPublished release))
  else
    do? recalled := ask_release_is_recalled release in
    if recalled : bool then Ret (Err (ReleaseRecalled release))
    else
      do? existing := ask (GetRecord id) in
      do? _ := match existing with
        | Some o =>
          Ret (bail_if negb (bool_decide (object_kind o = KIND_CHANNEL)) with (ChannelConflict id) in
               let head := default "" (properties o !! "current_release") in
               bail_if negb (str_is_empty head) && negb (bool_decide (head = release)) with (HeadMoved id head) in
               Ok tt)
        | None => do now := perform CatalogNow in create_only (new_channel product channel now)
        end in
      do? existing := ask (GetRecord id) in
      do? _ := ask (LinkRecords id release REL_PROMOTES) in
      do now := perform CatalogNow in
      ask (PutRecord (catalog_object id KIND_CHANNEL (channel_name product channel)
                        (head_properties product channel version release existing) now)).

(** What is asked of a release before it is promoted, and again under the
    promotion lock. *)
Definition require_promotable (release : string) : catalog_prog Object :=
  do? found := ask (GetRecord release) in
  match found with
  | None => Ret (Err (NotPublished release))
  | Some o =>
    do? _ := Ret (map_err EvidenceRefused (pin_projection (properties o))) in
    do? _ := ask (RequireModelEvidence o) in
    do? _ := ask (RequireAttestation o) in
    Ret (Ok o)
  end.

(** A release with gate flags holds the channel before its head moves. *)
Definition hold_for_flags (o : Object) (product version channel who : string) : catalog_prog unit :=
  do? flags := Ret (map_err EvidenceRefused (stored_gate_flags (properties o))) in
  if bool_decide (flags = ∅) then Ret (Ok tt)
  else
    do? held := ask (ReadHold (ChannelScope product channel)) in
    if is_some_b held then Ret (Ok tt)
    else ask (SetHold (ChannelScope product channel) (hold_reason (product +:+ "@" +:+ version) flags) who).

(** The promotion [guarded_promotion] runs. *)
Definition move_head (product version channel who : string) (replaceable : option (list string)) : catalog_prog unit :=
  let release := release_id product version in
  let id := channel_id product channel in
  do? o := require_promotable release in
  do? current := match replaceable with
    | None => Ret (Ok None)
    | Some _ => do? c := ask (GetRecord id) in Ret (Ok (Some (default "" (c ≫= λ c, properties c !! "current_release"))))
    end in
  if bool_decide (current = Some release) then Ret (Ok tt)
  else if is_some_and current (λ head, negb (str_is_empty head) && negb (bool_decide (head ∈ default [] replaceable)))
  then Ret (Err (HeadNotReplaceable id (default "" current)))
  else
    do? existing := ask (GetRecord id) in
    do now := perform CatalogNow in
    let head := catalog_object id KIND_CHANNEL (channel_name product channel)
                  (head_properties product channel version release existing) now in
    do? existing := ask (GetRecord id) in
    do? _ := (if is_some_b existing then Ret (Ok tt)
              else do now := perform CatalogNow in create_only (new_channel product channel now)) in
    do? _ := hold_for_flags o product version channel who in
    do? _ := ask (LinkRecords id release REL_PROMOTES) in
    ask (PutRecord head).

(** [promote_inner]. *)
Definition promote (actor : AuthenticatedRequestContext) (spec channel : string) (replaceable : option (list string)) :
    catalog_prog unit :=
  do? _ := Ret (require_capability actor PublishCapability) in
  do? named := Ret (parse_release_spec spec) in
  let '(product, version) := named in
  do? _ := Ret (bail_if negb (valid_identifier channel) with (InvalidCatalogName "channel" channel) in Ok tt) in
  do? _ := require_promotable (release_id product version) in
  do now := perform CatalogNow in
  let who := principal_id (principal actor) in
  do? _ := ask (BeginPromotion who product version channel ("promotion:" +:+ who +:+ ":" +:+ spec +:+ ":" +:+ pretty now)) in
  do res := move_head product version channel who replaceable in
  do unlocked := perform (EndPromotion product channel) in
  Ret (match res, unlocked with
       | Ok _, Ok _ => Ok tt
       | Ok _, Err text => Err (CatalogDown text)
       | Err e, _ => Err e
       end).
End Operations.
