(* ===== verification/CatalogHistory.v ===== *)
(** * The catalog over every schedule

    Publications, recalls, promotions and lookups of [Publication] on one
    store, any number of them at a time, one statement after another in any
    order, with statements that fail or whose answer is lost.  A release never
    changes once it is published, a recall is final for every lookup that
    starts after it, and what is deployed beyond the local environment was
    signed under the roots a publication was told to trust. *)

From S2P Require Import Prelude RustStr Kinds Plan ObjectStore Catalog Effects Interleaving AuthContext Approvals ReleaseSigning Criticality DeliveryHolds ExecutionLease RuntimeClaims Outcomes ReleaseEvidence Publication.

(** ** The world *)

Inductive catalog_request :=
| RequestPublish (r : PublishRequest)
| RequestRecall (actor : AuthenticatedRequestContext) (spec : string)
| RequestRecallClaim (actor : AuthenticatedRequestContext) (release : string)
| RequestPromote (actor : AuthenticatedRequestContext) (spec channel : string) (replaceable : option (list string))
| RequestPin (product version channel : string)
| RequestSnapshot (release environment : string) (admission : SnapshotAdmission)
| RequestLookup (release environment : string)
| RequestView (spec : string)
| RequestEnvelope (release : string)
| RequestReverify (spec roots : string).

Inductive catalog_answer :=
| PublishAnswer (r : result PublishResult catalog_error)
| RecallAnswer (r : result unit catalog_error)
| SnapshotAnswer (r : result DeployableSnapshot catalog_error)
| LookupAnswer (r : result ReleaseDescriptor catalog_error)
| CatalogDone (ok : bool).

Record CatalogWorld := {
  cw_clock : Z; cw_objects : Store;
  (** The links: from, relation, to. *)
  cw_links : gset (string * string * string);
  (** The trust roots that publications have read. *)
  cw_roots : list (string * ReleaseTrustRoots);
  cw_log : list (catalog_request * catalog_answer)
}.

Definition with_records (w : CatalogWorld) (o : Store) : CatalogWorld := {|
  cw_clock := cw_clock w; cw_objects := o; cw_links := cw_links w; cw_roots := cw_roots w; cw_log := cw_log w |}.

Definition with_record_links (w : CatalogWorld) (l : gset (string * string * string)) : CatalogWorld := {|
  cw_clock := cw_clock w; cw_objects := cw_objects w; cw_links := l; cw_roots := cw_roots w; cw_log := cw_log w |}.

(** How a call fares, and what the parts that are not modelled here answer. *)
Record CatalogFate := {
  cf_fate : statement_fate; cf_roots : result ReleaseTrustRoots string; cf_hash : result string string;
  cf_named : result (string * string) string; cf_unit : result unit string;
  cf_hold : result (option DeliveryHold) string; cf_token : crit string; cf_crit : crit unit
}.

Definition statement {X} (f : statement_fate) (x : X) (w w' : CatalogWorld) : option (result X string * CatalogWorld) :=
  Some (match f with
        | Done => (Ok x, w')
        | Broken text => (Err text, w)
        | AnswerLost text => (Err text, w')
        end).

Definition record_links (w : CatalogWorld) (from relation : string) : list Link :=
  map (λ '(f, r, t), {| link_id := f +:+ "--" +:+ r +:+ "--" +:+ t; from_id := f; to_id := t; link_relation := r |})
    (filter (λ l, l.1.1 = from ∧ l.1.2 = relation) (elements (cw_links w))).

Definition product_act (X : Type) (e : crit_effect X) (c : CatalogFate) (w : CatalogWorld) : option (X * CatalogWorld) :=
  match e in crit_effect X return option (X * CatalogWorld) with
  | Now => Some (cw_clock w, w)
  | Criticality.ReadObject id => Some (Ok (cw_objects w !! id), w)
  | Claim _ _ _ => Some (cf_token c, w)
  | Release _ => Some (cf_crit c, w)
  | Update o _ => Some (cf_crit c, if is_ok (cf_crit c) then with_records w (<[object_id o := o]> (cw_objects w)) else w)
  end.

Definition catalog_act (X : Type) (e : catalog_effect X) (c : CatalogFate) (w : CatalogWorld) : option (X * CatalogWorld) :=
  match e in catalog_effect X return option (X * CatalogWorld) with
  | CatalogNow => Some (cw_clock w, w)
  | GetRecord id => statement (cf_fate c) (cw_objects w !! id) w w
  | PutRecord o => statement (cf_fate c) tt w (with_records w (<[object_id o := o]> (cw_objects w)))
  | CreateRecord o =>
    let w' := with_records w (<[object_id o := o]> (cw_objects w)) in
    Some (match cf_fate c, cw_objects w !! object_id o with
          | Broken text, _ => (CreateFailed text, w)
          | Done, None => (Created, w')
          | Done, Some _ => (UniqueConflict, w)
          | AnswerLost text, None => (CreateFailed text, w')
          | AnswerLost text, Some _ => (CreateFailed text, w)
          end)
  | LinkRecords from to relation =>
    statement (cf_fate c) tt w (with_record_links w ({[(from, relation, to)]} ∪ cw_links w))
  | RecordLinks from relation => statement (cf_fate c) (record_links w from relation) w w
  | ReadRoots path =>
    Some (cf_roots c,
          match cf_roots c with
          | Ok roots => {| cw_clock := cw_clock w; cw_objects := cw_objects w; cw_links := cw_links w;
                           cw_roots := (path, roots) :: cw_roots w; cw_log := cw_log w |}
          | Err _ => w
          end)
  | ReadHostRoots _ => Some (cf_roots c, w)
  | HashStored _ _ => Some (cf_hash c, w)
  | ParseStored _ => Some (cf_named c, w)
  | CheckStoredInventory _ _ => Some (cf_unit c, w)
  | OnProduct e => product_act _ e c w
  | PersistProduct o _ create =>
    if create && is_some_b (cw_objects w !! object_id o) then Some (Err (StoreError "unique conflict"), w)
    else Some (cf_crit c, if is_ok (cf_crit c) then with_records w (<[object_id o := o]> (cw_objects w)) else w)
  | RequireModelEvidence _ => Some (cf_unit c, w)
  | RequireAttestation _ => Some (cf_unit c, w)
  | BeginPromotion _ _ _ _ _ => Some (cf_unit c, w)
  | EndPromotion _ _ => Some (cf_unit c, w)
  | ReadHold _ => Some (cf_hold c, w)
  | SetHold _ _ _ => Some (cf_unit c, w)
  end.

(** The records of releases: themselves, their claims and their recalls. *)
Definition RELEASE_PREFIX : string := "tenkai:release:".
Definition protected (id : string) : bool := starts_with RELEASE_PREFIX id.

(** What else happens: clocks, and the records of other parts. *)
Inductive catalog_move :=
| ClockTo (t : Z)
| OtherRecord (o : Object)
| OtherRecordGone (id : string)
| OtherRecordLinks (l : gset (string * string * string)).

Definition catalog_moves (m : catalog_move) (w : CatalogWorld) : option CatalogWorld :=
  match m with
  | ClockTo t => Some {| cw_clock := t; cw_objects := cw_objects w; cw_links := cw_links w; cw_roots := cw_roots w; cw_log := cw_log w |}
  | OtherRecord o => if protected (object_id o) then None else Some (with_records w (<[object_id o := o]> (cw_objects w)))
  | OtherRecordGone id => if protected id then None else Some (with_records w (delete id (cw_objects w)))
  | OtherRecordLinks l => Some (with_record_links w l)
  end.

Section Threads.
Context {U : UrlFormat} {B : Base64} {E : PlanEncoding} {C : Crypto} {PJ : ProvenanceJson} {CJ : ChangeSetJson}
        {FJ : FamilyJson} {SJ : SignatureJson} (host : HostTrust).

Definition finished {A} (p : catalog_prog A) : prog catalog_effect catalog_answer :=
  do a := p in Ret (CatalogDone (is_ok a)).

Definition begin_catalog (r : catalog_request) : prog catalog_effect catalog_answer :=
  match r with
  | RequestPublish r => do a := publish r in Ret (PublishAnswer a)
  | RequestRecall actor spec => do a := recall actor spec in Ret (RecallAnswer (let? _ := a in Ok tt))
  | RequestRecallClaim actor release => finished (persist_recall_claim actor release)
  | RequestPromote actor spec channel replaceable => finished (promote actor spec channel replaceable)
  | RequestPin product version channel => finished (pin_isolated_channel product version channel)
  | RequestSnapshot release environment admission =>
    do a := load_snapshot host release environment admission in Ret (SnapshotAnswer a)
  | RequestLookup release environment => do a := lookup_release host release environment in Ret (LookupAnswer a)
  | RequestView spec => finished (inspect_release spec)
  | RequestEnvelope release => finished (signature_envelope release)
  | RequestReverify spec roots => finished (reverify_release spec roots)
  end.

Definition catalog_threads :
    Threads catalog_effect CatalogWorld catalog_request catalog_answer CatalogFate catalog_move := {|
  begin := begin_catalog;
  act := catalog_act;
  report r a w := {| cw_clock := cw_clock w; cw_objects := cw_objects w; cw_links := cw_links w; cw_roots := cw_roots w;
                     cw_log := (r, a) :: cw_log w |};
  move := catalog_moves |}.

(** A store without releases. *)
Definition catalog_start (now : Z) : @system catalog_effect CatalogWorld catalog_request catalog_answer :=
  at_rest {| cw_clock := now; cw_objects := ∅; cw_links := ∅; cw_roots := []; cw_log := [] |}.
End Threads.

(** ** What is kept *)

Lemma protected_release product version : protected (release_id product version) = true.
Proof. unfold protected, starts_with, release_id. by rewrite (strip_prefix_app RELEASE_PREFIX). Qed.

Lemma protected_app id suffix : protected id = true → protected (id +:+ suffix) = true.
Proof.
  unfold protected, starts_with. destruct (strip_prefix RELEASE_PREFIX id) as [rest|] eqn:Hp; [|done]. intros _.
  apply strip_prefix_spec in Hp as ->. unfold RELEASE_PREFIX. by rewrite string_app_assoc, strip_prefix_app.
Qed.

(** What a release is: its content, and the evidence it was admitted with. *)
Definition IDENTITY_KEYS : list string :=
  ["product"; "version"; "digest"; "artifact_digest"; "manifest"; "has_migration"; "changes_identity_config";
   FAMILY_DIGEST; FAMILY_GATE_FLAGS] ++ PROVENANCE_KEYS ++ PIN_KEYS.

(** The keys of the parts of a release are apart. *)
Ltac apart := refine (bool_decide_unpack _ _); vm_compute; exact I.

Definition keeps_identity (o o' : Object) : Prop := ∀ k, k ∈ IDENTITY_KEYS → properties o' !! k = properties o !! k.

(** Releases keep their identity; claims are kept as they are. *)
Definition keeps (o o' : Object) : Prop :=
  object_kind o' = object_kind o ∧ keeps_identity o o' ∧ (object_kind o ≠ KIND_RELEASE → o' = o).

#[local] Instance keeps_preorder : PreOrder keeps.
Proof.
  split; [by intros o|]. intros o1 o2 o3 (K1 & I1 & C1) (K2 & I2 & C2). split_and!; [congruence| |].
  - intros k Hk. rewrite I2, I1; done.
  - intros H. rewrite <- (C1 H). apply C2. congruence.
Qed.

(** Two forms one release had. *)
Lemma keeps_release o o1 o2 : object_kind o = KIND_RELEASE → keeps o o1 → keeps o o2 → keeps o1 o2.
Proof.
  intros Hk (K1 & I1 & _) (K2 & I2 & _). split_and!; [congruence| |congruence]. intros k Hin. by rewrite I1, I2.
Qed.

Definition kept_in (w : CatalogWorld) (id : string) (o : Object) : Prop :=
  ∃ o', cw_objects w !! id = Some o' ∧ keeps o o'.

(** Along a history. *)
Record catalog_older (w w' : CatalogWorld) : Prop := {
  co_kept id o : protected id = true → cw_objects w !! id = Some o → kept_in w' id o;
  co_roots : cw_roots w ⊆ cw_roots w'
}.

#[local] Instance catalog_older_preorder : PreOrder catalog_older.
Proof.
  split; [split; [|done]; intros id o _ Ho; by exists o|].
  intros w1 w2 w3 [k1 r1] [k2 r2]. split; [|set_solver]. intros id o Hp Ho.
  destruct (k1 id o Hp Ho) as (o2 & Ho2 & H2). destruct (k2 id o2 Hp Ho2) as (o3 & Ho3 & H3).
  exists o3. split; [done|]. by etrans.
Qed.

(** The recall of a release is on record. *)
Definition recalled_in (w : CatalogWorld) (release : string) : Prop :=
  ∃ claim, cw_objects w !! release_recall_id release = Some claim ∧ object_kind claim = KIND_RELEASE_RECALL.

Section Tidy.
Context {U : UrlFormat} {B : Base64} {E : PlanEncoding} {C : Crypto} {SJ : SignatureJson}.

(** The signature over a release's digests verified under roots a
    publication read. *)
Definition vouched_for (w : CatalogWorld) (manifest_digest artifact_digest : string) (e : SignatureEnvelope) : Prop :=
  ∃ path roots now ev, (path, roots) ∈ cw_roots w
    ∧ verify_release e roots now manifest_digest artifact_digest = Ok ev.

(** A release whose claim says it was verified. *)
Definition signed_in (w : CatalogWorld) (release : string) (claim : Object) : Prop :=
  ∃ o manifest_digest artifact_digest e, cw_objects w !! release = Some o
    ∧ properties o !! "digest" = Some manifest_digest ∧ properties o !! "artifact_digest" = Some artifact_digest
    ∧ properties claim !! "signature_envelope" = Some (signature_json e)
    ∧ vouched_for w manifest_digest artifact_digest e.

Record tidy (w : CatalogWorld) : Prop := {
  td_keyed id o : cw_objects w !! id = Some o → object_id o = id;
  td_release id o : protected id = true → cw_objects w !! id = Some o → object_kind o = KIND_RELEASE →
    is_Some (nonempty (properties o) "artifact_digest");
  td_claim id o : protected id = true → cw_objects w !! id = Some o → object_kind o ≠ KIND_RELEASE →
    properties o !! "manifest" = None;
  td_recalled id o : protected id = true → cw_objects w !! id = Some o → object_kind o = KIND_RELEASE →
    release_object_is_recalled o = true → recalled_in w id;
  td_signed id o release : protected id = true → cw_objects w !! id = Some o →
    object_kind o = KIND_RELEASE_VERIFICATION → properties o !! "verification_status" = Some "verified" →
    properties o !! "release_id" = Some release → protected release = true ∧ signed_in w release o
}.

Definition forward (w w' : CatalogWorld) : Prop := catalog_older w w' ∧ tidy w' ∧ cw_log w' = cw_log w.

Lemma catalog_still w : tidy w → forward w w.
Proof. intros H. unfold forward. by split_and!. Qed.

Lemma recalled_older w w' release :
  catalog_older w w' → protected release = true → recalled_in w release → recalled_in w' release.
Proof.
  intros Ho Hp (claim & Hc & Hk). destruct (co_kept _ _ Ho _ claim (protected_app _ _ Hp) Hc) as (claim' & Hc' & K & _).
  exists claim'. split; [done|congruence].
Qed.

Lemma signed_older w w' release claim :
  catalog_older w w' → protected release = true → signed_in w release claim → signed_in w' release claim.
Proof.
  intros Ho Hp (o & md & ad & e & H & Hmd & Had & He & path & roots & now & ev & Hr & Hv).
  destruct (co_kept _ _ Ho _ o Hp H) as (o' & H' & _ & Hi & _).
  exists o', md, ad, e. split_and!; [done|rewrite Hi; [done|apart]..|done|].
  exists path, roots, now, ev. split; [by apply (co_roots _ _ Ho)|done].
Qed.

(** A record that may be written: nothing that is kept is lost by it, and it
    is what its kind and name promise. *)
Record fits (w : CatalogWorld) (o : Object) : Prop := {
  ft_keeps o0 : cw_objects w !! object_id o = Some o0 → keeps o0 o;
  ft_release : object_kind o = KIND_RELEASE → is_Some (nonempty (properties o) "artifact_digest");
  ft_claim : object_kind o ≠ KIND_RELEASE → properties o !! "manifest" = None;
  ft_recalled : object_kind o = KIND_RELEASE → release_object_is_recalled o = true → recalled_in w (object_id o);
  ft_signed release : object_kind o = KIND_RELEASE_VERIFICATION →
    properties o !! "verification_status" = Some "verified" → properties o !! "release_id" = Some release →
    protected release = true ∧ signed_in w release o
}.

Lemma insert_older w o :
  (protected (object_id o) = true → fits w o) → catalog_older w (with_records w (<[object_id o := o]> (cw_objects w))).
Proof.
  intros Hf. split; [|done]. intros id o0 Hp H0. unfold kept_in. simpl. rewrite lookup_insert.
  case_decide as Hid; [|by exists o0]. subst id. exists o. split; [done|]. by apply (ft_keeps _ _ (Hf Hp)).
Qed.

Lemma record_forward w o :
  tidy w → (protected (object_id o) = true → fits w o) →
  forward w (with_records w (<[object_id o := o]> (cw_objects w))).
Proof.
  intros Ht Hf. assert (Ho := insert_older w o Hf). split_and!; [done| |done].
  assert (Hin : ∀ id o', <[object_id o := o]> (cw_objects w) !! id = Some o' →
            object_id o = id ∧ o' = o ∨ object_id o ≠ id ∧ cw_objects w !! id = Some o').
  { intros id o'. rewrite lookup_insert. case_decide; [intros [= <-]; by left|by right]. }
  split; simpl; intros id o'; [intros H|intros H H0..| intros release H H0 H1 H2 H3]; [| | |intros H1 H2|].
  - destruct (Hin id o' H) as [[? ->]|[_ H']]; [done|]. by apply (td_keyed _ Ht).
  - destruct (Hin id o' H0) as [[<- ->]|[_ H']]; [by apply (ft_release _ _ (Hf H))|by apply (td_release _ Ht id)].
  - destruct (Hin id o' H0) as [[<- ->]|[_ H']]; [by apply (ft_claim _ _ (Hf H))|by apply (td_claim _ Ht id)].
  - eapply recalled_older; [exact Ho|done|].
    destruct (Hin id o' H0) as [[<- ->]|[_ H']]; [by apply (ft_recalled _ _ (Hf H))|by apply (td_recalled _ Ht id o')].
  - assert (protected release = true ∧ signed_in w release o') as [? ?]; [|by split; [|eapply signed_older]].
    destruct (Hin id o' H0) as [[<- ->]|[_ H']]; [by apply (ft_signed _ _ (Hf H))|by apply (td_signed _ Ht id)].
Qed.

Lemma tidy_records w w' :
  (∀ id, protected id = true → cw_objects w' !! id = cw_objects w !! id) → cw_objects w' ⊆ cw_objects w →
  cw_roots w ⊆ cw_roots w' → cw_log w' = cw_log w → tidy w → forward w w'.
Proof.
  intros Ho Hsub Hr Hl [t1 t2 t3 t4 t5].
  assert (catalog_older w w') as Hold.
  { split; [|done]. intros id o Hp H. exists o. by rewrite Ho. }
  split_and!; [done| |done]. split; intros id o; [..|intros release].
  - intros H. apply t1. by eapply lookup_weaken.
  - intros Hp. rewrite Ho by done. by apply t2.
  - intros Hp. rewrite Ho by done. by apply t3.
  - intros Hp H Hk Hs. eapply recalled_older; [exact Hold|done|]. rewrite Ho in H by done. by eapply t4.
  - intros Hp H Hk Hs Hr'. rewrite Ho in H by done. destruct (t5 id o release Hp H Hk Hs Hr') as [? ?].
    split; [done|]. by eapply signed_older.
Qed.

(** A claim of a recall is made where nothing is. *)
Definition recall_claim (o : Object) : Prop :=
  object_kind o = KIND_RELEASE_RECALL ∧ properties o !! "manifest" = None.

Lemma recall_claim_fits w o : recall_claim o → cw_objects w !! object_id o = None → fits w o.
Proof. intros [Hk Hm] Hn. split; rewrite ?Hk; try done. intros o0. by rewrite Hn. Qed.
End Tidy.

(** ** Statements that only move the catalog forward *)

Definition product_harmless {X} (e : crit_effect X) : Prop :=
  match e with Update _ _ => False | _ => True end.

Definition catalog_harmless (X : Type) (e : catalog_effect X) : Prop :=
  match e with
  | PutRecord o => protected (object_id o) = false
  | CreateRecord o => protected (object_id o) = true → recall_claim o
  | PersistProduct o _ _ => protected (object_id o) = false
  | OnProduct e => product_harmless e
  | _ => True
  end.

Section Forward.
Context {U : UrlFormat} {B : Base64} {E : PlanEncoding} {C : Crypto} {SJ : SignatureJson}.

Lemma statement_forward {X} f (a : X) w w1 x w' :
  tidy w → forward w w1 → statement f a w w1 = Some (x, w') → forward w w'.
Proof. intros Ht H. unfold statement. destruct f; intros [= <- <-]; first [done|by apply catalog_still]. Qed.

Lemma create_forward w o c x w' :
  tidy w → (protected (object_id o) = true → cw_objects w !! object_id o = None → fits w o) →
  catalog_act _ (CreateRecord o) c w = Some (x, w') → forward w w'.
Proof.
  intros Ht Hf. cbn [catalog_act]. intros [= H].
  destruct (cf_fate c), (cw_objects w !! object_id o) eqn:Ho; simplify_eq; try by apply catalog_still.
  - apply record_forward; auto.
  - apply record_forward; auto.
Qed.

Lemma put_forward w o c x w' :
  tidy w → (protected (object_id o) = true → fits w o) →
  catalog_act _ (PutRecord o) c w = Some (x, w') → forward w w'.
Proof. intros Ht Hf. apply statement_forward; [done|]. by apply record_forward. Qed.

Lemma catalog_act_forward {X} (e : catalog_effect X) c w x w' :
  tidy w → catalog_harmless X e → catalog_act X e c w = Some (x, w') → forward w w'.
Proof.
  intros Ht Hh. destruct e; cbn [catalog_act]; try (intros [= <- <-]; by apply catalog_still).
  - apply statement_forward; [done|]. by apply catalog_still.
  - apply put_forward; [done|]. intros Hp. simpl in Hh. congruence.
  - apply create_forward; [done|]. intros Hp Hn. by apply recall_claim_fits; [apply Hh|].
  - apply statement_forward; [done|]. by apply tidy_records.
  - apply statement_forward; [done|]. by apply catalog_still.
  - intros [= <- <-]. destruct (cf_roots c); [|by apply catalog_still]. apply tidy_records; try done. simpl. set_solver.
  - destruct e; cbn [product_act]; try (intros [= <- <-]; by apply catalog_still). done.
  - destruct (create && _); intros [= <- <-]; [by apply catalog_still|]. destruct (is_ok _); [|by apply catalog_still].
    apply record_forward; [done|]. intros Hp. simpl in Hh. congruence.
Qed.

Lemma catalog_move_forward m w w' : tidy w → catalog_moves m w = Some w' → forward w w'.
Proof.
  intros Ht. destruct m as [t|o|id|l]; simpl.
  - intros [= <-]. by apply tidy_records.
  - destruct (protected _) eqn:Hp; [done|]. intros [= <-]. apply record_forward; [done|]. congruence.
  - destruct (protected _) eqn:Hp; [done|]. intros [= <-]. apply tidy_records; try done; [|apply delete_subseteq].
    intros id' Hp'. simpl. apply lookup_delete_ne. congruence.
  - intros [= <-]. by apply tidy_records.
Qed.
End Forward.

Section History.
Context {U : UrlFormat} {B : Base64} {E : PlanEncoding} {C : Crypto} {PJ : ProvenanceJson} {CJ : ChangeSetJson}
        {FJ : FamilyJson} {SJ : SignatureJson} (host : HostTrust).

(** ** The invariant *)

Definition family_of (r : PublishRequest) (loaded : Loaded) (family : option AdmittedFamily) : Prop :=
  match rq_family r with
  | None => family = None
  | Some (raw, signature) => ∃ now roots f,
      admit_family now raw signature roots (ld_name loaded) (ld_version loaded) = Ok f ∧ family = Some f
  end.

(** What a publication asked to admit. *)
Definition publication (r : PublishRequest) (a : Admission) : Prop :=
  (∃ now provenance digests,
     check_request r now = Ok (ad_loaded a, ad_digest a, ad_artifact_digest a, provenance, (ad_provenance a, digests), ad_pin a))
  ∧ family_of r (ad_loaded a) (ad_family a).

(** A release that carries what was admitted. *)
Record stored_as (a : Admission) (o : Object) : Prop := {
  sa_kind : object_kind o = KIND_RELEASE;
  sa_digest : properties o !! "digest" = Some (ad_digest a);
  sa_artifact : properties o !! "artifact_digest" = Some (ad_artifact_digest a);
  sa_provenance : agree_on PROVENANCE_KEYS (properties o) (ad_provenance a) = true;
  sa_pin : agree_on PIN_KEYS (properties o) (admitted_properties (ad_pin a)) = true;
  sa_family : properties o !! FAMILY_DIGEST = family_digest <$> ad_family a
}.

(** What a thread saw in the store. *)
Definition seen (id : string) (o : Object) (h : list CatalogWorld) : Prop :=
  ∃ w, w ∈ h ∧ tidy w ∧ cw_objects w !! id = Some o.

Definition recall_seen (release : string) (h : list CatalogWorld) : Prop := ∃ w, w ∈ h ∧ recalled_in w release.

Definition admitted_in (a : Admission) (h : list CatalogWorld) : Prop :=
  ∃ o, seen (admitted_id a) o h ∧ stored_as a o.

(** A release as it is handed to execution carries digests that were signed. *)
Definition signed_release (release : string) (o : Object) (h : list CatalogWorld) : Prop :=
  ∃ w claim, w ∈ h ∧ seen release o h ∧ signed_in w release claim.

Definition answer_ok (r : catalog_request) (a : catalog_answer) (h : list CatalogWorld) : Prop :=
  match r, a with
  | RequestPublish r, PublishAnswer (Ok _) => ∃ a, publication r a ∧ admitted_in a h
  | RequestRecall _ spec, RecallAnswer (Ok _) =>
    ∃ product version, parse_release_spec spec = Ok (product, version) ∧ recall_seen (release_id product version) h
  | RequestSnapshot release environment _, SnapshotAnswer (Ok s) =>
    protected release = true → environment ≠ "local" →
    ∃ first, signed_release release first h ∧ signed_release release (snapshot_object s) h
             ∧ descriptor_of first = Ok (snapshot_descriptor s)
  | _, _ => True
  end.

Lemma record_seen_later id o h h' : h ⊆ h' → seen id o h → seen id o h'.
Proof. intros Hs (w & Hw & H). exists w. split; [by apply Hs|done]. Qed.

Lemma recall_seen_later release h h' : h ⊆ h' → recall_seen release h → recall_seen release h'.
Proof. intros Hs (w & Hw & H). exists w. split; [by apply Hs|done]. Qed.

Lemma admitted_later a h h' : h ⊆ h' → admitted_in a h → admitted_in a h'.
Proof. intros Hs (o & Ho & H). exists o. split; [by eapply record_seen_later|done]. Qed.

Lemma signed_later release o h h' : h ⊆ h' → signed_release release o h → signed_release release o h'.
Proof.
  intros Hs (w & claim & Hw & Ho & H). exists w, claim. split_and!; [by apply Hs|by eapply record_seen_later|done].
Qed.

Lemma catalog_answer_later r a h h' : h ⊆ h' → answer_ok r a h → answer_ok r a h'.
Proof.
  intros Hs. unfold answer_ok. destruct r; try done; destruct a as [[|]|[|]|[|]|[|]|]; try done; [| |].
  - intros (x & Hp & Ha). exists x. split; [done|]. by eapply admitted_later.
  - intros (product & version & Hp & Hr). exists product, version. split; [done|]. by eapply recall_seen_later.
  - intros H Hp He. destruct (H Hp He) as (first & H1 & H2 & Hd). exists first.
    split_and!; [by eapply signed_later..|done].
Qed.

Definition catalog_inv (w : CatalogWorld) (past : list CatalogWorld) : Prop :=
  newest_first catalog_older (w :: past) ∧ tidy w ∧ ∀ r a, (r, a) ∈ cw_log w → answer_ok r a (w :: past).

Lemma catalog_inv_forward w past w' : catalog_inv w past → forward w w' → catalog_inv w' (w :: past).
Proof.
  intros (Ho & Ht & Hl) (Hold & Ht' & Hlog). split; [by apply newest_first_next|]. split; [done|].
  intros r a. rewrite Hlog. intros Hin. eapply catalog_answer_later; [|by apply Hl]. intros x Hx. by right.
Qed.

Lemma catalog_inv_head w past w1 : catalog_inv w past → w1 ∈ w :: past → catalog_older w1 w.
Proof. intros (Ho & _ & _). by apply newest_first_head. Qed.

Notation cat_safe p Q h := (safe (catalog_threads host) catalog_inv p Q h).
Notation steady p := (yields catalog_harmless p (λ _, True)).

Lemma cat_safe_yields {A} (p : prog catalog_effect A) (P : A → Prop) h :
  yields catalog_harmless p P → cat_safe p (λ a _, P a) h.
Proof.
  revert h. induction p as [a|X e k IH]; intros h; simpl; [done|]. intros [He Hk] w past Hs HI c x w' Ha.
  split; [|by apply IH]. apply (catalog_inv_forward w); [done|]. by eapply catalog_act_forward; [apply HI|..].
Qed.

(** Past a program that only moves the catalog forward. *)
Lemma cat_safe_past {A F D} (p : prog catalog_effect (result D F)) (f : D → prog catalog_effect (result A F)) Q h :
  steady p → (∀ b h', h `suffix_of` h' → cat_safe (f b) Q h') →
  (∀ e h', h `suffix_of` h' → Q (Err e) h') → cat_safe (try_bind p f) Q h.
Proof.
  intros Hp Hf He. apply safe_try. eapply safe_mono; [by apply cat_safe_yields|].
  intros [b|e] h' Hs _; [by apply Hf|by apply He].
Qed.

Lemma cat_safe_let {A D} (p : prog catalog_effect D) (f : D → prog catalog_effect A) Q h :
  steady p → (∀ b h', h `suffix_of` h' → cat_safe (f b) Q h') → cat_safe (bind p f) Q h.
Proof. intros Hp Hf. apply safe_bind. eapply safe_mono; [by apply cat_safe_yields|]. intros b h' Hs _. by apply Hf. Qed.

(** A value that was computed. *)
Lemma cat_safe_value {A F D} (r : result D F) (f : D → prog catalog_effect (result A F)) Q h :
  (∀ b, r = Ok b → cat_safe (f b) Q h) → (∀ e, Q (Err e) h) → cat_safe (try_bind (Ret r) f) Q h.
Proof. intros Hf He. destruct r as [b|e]; simpl; [by apply Hf|apply He]. Qed.

Lemma cat_safe_perform {X} (e : catalog_effect X) (Q : X → list CatalogWorld → Prop) h :
  (∀ w past c x w', h `suffix_of` w :: past → catalog_inv w past → catalog_act X e c w = Some (x, w') → forward w w') →
  (∀ w past c x w', h `suffix_of` w :: past → catalog_inv w past → catalog_inv w' (w :: past) →
     catalog_act X e c w = Some (x, w') → Q x (w' :: w :: past)) →
  cat_safe (perform e) Q h.
Proof.
  intros He HQ. apply safe_perform. intros w past Hs HI c x w' Ha.
  assert (catalog_inv w' (w :: past)) as HI'; [|by split; [|eapply HQ]].
  apply (catalog_inv_forward w); [done|]. by eapply He.
Qed.

(** ** Reading *)

Lemma read_safe id h :
  cat_safe (ask (GetRecord id)) (λ r h', match r with Ok (Some o) => seen id o h' | _ => True end) h.
Proof.
  apply safe_bind, cat_safe_perform.
  { intros w past c x w' _ HI. by apply catalog_act_forward; [apply HI|]. }
  intros w past c x w' Hs HI _ Ha. cbn [catalog_act] in Ha. unfold statement in Ha.
  destruct (cf_fate c); injection Ha as <- <-; simpl; try done.
  destruct (cw_objects w !! id) as [o|] eqn:Ho; [|done]. exists w. split; [by right; left|]. split; [apply HI|done].
Qed.

Lemma seen_keyed id o h : seen id o h → object_id o = id.
Proof. intros (w & _ & Ht & Ho). by apply (td_keyed _ Ht). Qed.

Lemma seen_now id o h w past :
  catalog_inv w past → h `suffix_of` w :: past → protected id = true → seen id o h → kept_in w id o.
Proof.
  intros HI Hs Hp (w1 & Hw1 & _ & Ho). apply (co_kept w1); [|done..]. apply (catalog_inv_head w past); [done|].
  by apply (suffix_subset h).
Qed.

Lemma recalled_now release h w past :
  catalog_inv w past → h `suffix_of` w :: past → protected release = true → recall_seen release h → recalled_in w release.
Proof.
  intros HI Hs Hp (w1 & Hw1 & Hr). eapply recalled_older; [|done|exact Hr]. apply (catalog_inv_head w past); [done|].
  by apply (suffix_subset h).
Qed.

(** ** Publishing *)

(** The properties a publication may write again. *)
Definition STAGED_KEYS : list string :=
  ["workdir"; "oci_artifacts"; "inventory.document"; "inventory.digest"; "inventory.schema"].

Lemma staged_elsewhere ps loaded artifacts file signed ps' k :
  persist_inventory (persist_oci_artifacts ps artifacts) loaded file signed = Ok ps' → k ∉ STAGED_KEYS → ps' !! k = ps !! k.
Proof.
  intros Hi Hk. unfold STAGED_KEYS in Hk. rewrite !not_elem_of_cons in Hk. destruct Hk as (? & ? & ? & ? & ? & _).
  assert (persist_oci_artifacts ps artifacts !! k = ps !! k) as Ho.
  { unfold persist_oci_artifacts. destruct artifacts; [by rewrite lookup_delete_ne|by rewrite lookup_insert_ne]. }
  unfold persist_inventory in Hi. destruct (ld_inventory loaded); [|by simplify_eq]. ok_inv Hi. simplify_eq.
  by rewrite !lookup_insert_ne.
Qed.

Lemma identity_not_staged k : k ∈ IDENTITY_KEYS → k ∉ STAGED_KEYS.
Proof.
  assert (Forall (λ k, k ∉ STAGED_KEYS) IDENTITY_KEYS) as H; [|by rewrite Forall_forall in H; apply H].
  refine (bool_decide_unpack _ _). vm_compute. exact I.
Qed.

Lemma nonempty_some ps k v : nonempty ps k = Some v ↔ ps !! k = Some v ∧ v ≠ "".
Proof.
  unfold nonempty. destruct (ps !! k) as [v'|]; simpl; [|naive_solver]. destruct v'; naive_solver.
Qed.

Definition admission_ok (a : Admission) : Prop :=
  ad_artifact_digest a ≠ "" ∧ ∀ k, k ∉ PROVENANCE_KEYS → ad_provenance a !! k = None.

Lemma stored_family_ok o f : validate_stored_family o f = Ok tt → properties o !! FAMILY_DIGEST = family_digest <$> f.
Proof.
  unfold validate_stored_family. destruct (properties o !! FAMILY_DIGEST), f; try done. rewrite bail_ok.
  intros [Hd _]. apply negb_false_iff, bool_decide_eq_true in Hd. by subst.
Qed.

(** A release that passed the checks of a publication carries what it
    admits, and keeps it when it is written again. *)
Lemma readmit_keeps (a : Admission) o ps now :
  stored_as a o →
  persist_inventory (persist_oci_artifacts (<["artifact_digest" := ad_artifact_digest a]> (properties o))
    (ld_artifacts (ad_loaded a))) (ad_loaded a) (ad_inventory a) (ad_signed a) = Ok ps →
  keeps o (with_properties o (<["workdir" := ad_workdir a]> ps) now).
Proof.
  intros Hst Hps. split_and!; [done| |by intros []; apply sa_kind in Hst]. intros k Hk. simpl.
  assert (Hn := identity_not_staged k Hk). rewrite lookup_insert_ne by (intros <-; apply Hn; left).
  rewrite (staged_elsewhere _ _ _ _ _ _ _ Hps Hn), lookup_insert. case_decide; [|done].
  subst k. by rewrite (sa_artifact _ _ Hst).
Qed.

Lemma readmit_unstamped (a : Admission) o ps now :
  persist_inventory (persist_oci_artifacts (<["artifact_digest" := ad_artifact_digest a]> (properties o))
    (ld_artifacts (ad_loaded a))) (ad_loaded a) (ad_inventory a) (ad_signed a) = Ok ps →
  release_object_is_recalled (with_properties o (<["workdir" := ad_workdir a]> ps) now) = release_object_is_recalled o.
Proof.
  intros Hps. unfold release_object_is_recalled. simpl. rewrite lookup_insert_ne by done.
  rewrite (staged_elsewhere _ _ _ _ _ _ _ Hps) by apart. by rewrite lookup_insert_ne.
Qed.

(** A release a thread read may be written again as long as it keeps what it
    was. *)
Lemma rewrite_fits id o o' h w past :
  catalog_inv w past → h `suffix_of` w :: past → protected id = true → seen id o h →
  object_kind o = KIND_RELEASE → object_id o' = object_id o → keeps o o' →
  (release_object_is_recalled o' = true → release_object_is_recalled o = true ∨ recall_seen id h) → fits w o'.
Proof.
  intros HI Hs Hp Hseen Hk Hid Hkeep Hst. assert (Hid' := seen_keyed _ _ _ Hseen).
  destruct (seen_now _ _ _ _ _ HI Hs Hp Hseen) as (o1 & Ho1 & Hk1).
  assert (Hk' : object_kind o' = KIND_RELEASE) by (destruct Hkeep; congruence). split.
  - intros o0. rewrite Hid, Hid', Ho1. intros [= <-]. by apply (keeps_release o).
  - intros _. destruct Hseen as (w1 & _ & Ht1 & Ho). destruct (td_release _ Ht1 id o Hp Ho Hk) as [v Hv].
    exists v. apply nonempty_some in Hv. apply nonempty_some. destruct Hkeep as (_ & Hsame & _). rewrite Hsame; [done|apart].
  - by rewrite Hk'.
  - intros _ Hr. rewrite Hid, Hid'. apply (recalled_now _ h w past); [done..|]. destruct (Hst Hr) as [Hr0|]; [|done].
    destruct Hseen as (w1 & Hw1 & Ht1 & Ho). exists w1. split; [done|]. by apply (td_recalled _ Ht1 id o).
  - by rewrite Hk'.
Qed.

Lemma put_safe o (Q : result unit catalog_error → list CatalogWorld → Prop) h :
  (∀ w past, h `suffix_of` w :: past → catalog_inv w past → protected (object_id o) = true → fits w o) →
  (∀ r h', h `suffix_of` h' → Q r h') → cat_safe (ask (PutRecord o)) Q h.
Proof.
  intros Hf HQ. apply safe_bind, cat_safe_perform.
  - intros w past c x w' Hs HI. apply put_forward; [apply HI|]. by eapply Hf.
  - intros w past c x w' Hs _ _ _. apply HQ. later.
Qed.

Lemma stored_content_yields o md ad :
  yields catalog_harmless (validate_stored_release_content o md ad) (λ r, match r with
    | Ok _ => is_Some (properties o !! "manifest") ∧ properties o !! "digest" = Some md
              ∧ ∀ v, nonempty (properties o) "artifact_digest" = Some v → v = ad
    | Err _ => True end).
Proof.
  unfold validate_stored_release_content. destruct (nonempty (properties o) "manifest") as [raw|] eqn:Hm; [|done].
  apply nonempty_some in Hm as [Hm _]. simpl ok_or. change (try_bind (Ret (Ok raw)) ?f) with (f raw). cbv beta zeta.
  destruct (_ || _) eqn:Hd; [done|]. apply orb_false_iff in Hd as [H1 H2].
  apply negb_false_iff, bool_decide_eq_true in H1, H2.
  apply (yields_try _ _ _ (λ _, True)); [yielding| |done]. intros named _.
  destruct (nonempty (properties o) "workdir") as [workdir|]; [|done]. simpl ok_or.
  change (try_bind (Ret (Ok workdir)) ?f) with (f workdir). cbv beta.
  apply (yields_try _ _ _ (λ _, True)); [yielding| |done]. intros actual _. simpl.
  destruct (_ || _) eqn:Ha; [done|]. apply orb_false_iff in Ha as [H3 H4].
  apply negb_false_iff, bool_decide_eq_true in H3. split_and!; [by eexists|congruence|].
  intros v Hv. rewrite Hv in H4. simpl in H4. apply negb_false_iff, bool_decide_eq_true in H4. congruence.
Qed.

Lemma readmit_safe a o h :
  admission_ok a → protected (admitted_id a) = true → seen (admitted_id a) o h →
  cat_safe (readmit a o) (λ r h', match r with Ok _ => admitted_in a h' | Err _ => True end) h.
Proof.
  intros [Hn _] Hp Hseen. unfold readmit. apply safe_try.
  eapply safe_mono; [apply cat_safe_yields, stored_content_yields|].
  intros [u|e] h1 Hs1 H; [|done]. destruct H as (Hm & Hd & Hart).
  assert (object_kind o = KIND_RELEASE ∧ properties o !! "artifact_digest" = Some (ad_artifact_digest a)) as [Hk Ha].
  { destruct Hseen as (w & _ & Ht & Ho). destruct (decide (object_kind o = KIND_RELEASE)) as [Hk|Hk].
    - split; [done|]. destruct (td_release _ Ht _ _ Hp Ho Hk) as [v Hv]. rewrite <- (Hart v Hv).
      by apply nonempty_some in Hv as [Hv _].
    - rewrite (td_claim _ Ht _ _ Hp Ho Hk) in Hm. by destruct Hm. }
  apply cat_safe_past; [yielding| |done]. intros u1 h2 Hs2.
  apply cat_safe_value; [|done]. intros u2 Hprov. apply cat_safe_value; [|done]. intros u3 Hpin.
  apply cat_safe_value; [|done]. intros [] Hfam%stored_family_ok.
  assert (stored_as a o) as Hst.
  { split; try done.
    - unfold validate_stored_provenance in Hprov. rewrite bail_ok in Hprov. apply negb_false_iff, Hprov.
    - unfold validate_stored_pin in Hpin. rewrite bail_ok in Hpin. apply negb_false_iff, Hpin. }
  apply cat_safe_value; [|done]. intros ps Hps. apply cat_safe_let; [yielding|]. intros now h3 Hs3.
  assert (Hseen' : seen (admitted_id a) o h3) by (eapply record_seen_later; [|exact Hseen]; apply suffix_subset; later).
  apply put_safe.
  - intros w past Hs HI _. eapply (rewrite_fits (admitted_id a) o); try done; [by apply readmit_keeps|].
    rewrite (readmit_unstamped _ _ _ _ Hps). by left.
  - intros [u4|e] h4 Hs4; [|done]. exists o. split; [|done]. eapply record_seen_later; [|exact Hseen'].
    by apply suffix_subset.
Qed.

(** The object of a new release. *)
Lemma family_elsewhere f k :
  k ∉ [FAMILY_DIGEST; FAMILY_GATE_FLAGS] → match f with Some f => family_properties f | None => ∅ end !! k = None.
Proof.
  intros Hk. rewrite !not_elem_of_cons in Hk. destruct Hk as (? & ? & _). destruct f; [|done].
  unfold family_properties. by rewrite lookup_insert_ne, lookup_singleton_ne.
Qed.

Lemma pin_elsewhere pin k : k ∉ PIN_KEYS → admitted_properties pin !! k = None.
Proof.
  intros Hk. unfold PIN_KEYS in Hk. rewrite !not_elem_of_cons in Hk. destruct Hk as (? & ? & ? & _). destruct pin; [|done].
  simpl. unfold pin_properties. by rewrite !lookup_insert_ne, lookup_singleton_ne.
Qed.

Definition base_properties (a : Admission) : gmap string string := list_to_map [
  ("product", ld_name (ad_loaded a)); ("version", ld_version (ad_loaded a)); ("digest", ad_digest a);
  ("artifact_digest", ad_artifact_digest a); ("manifest", ld_raw (ad_loaded a)); ("workdir", ad_workdir a)].

Lemma release_properties_split a ps :
  release_properties a = Ok ps →
  ∃ ps0, ps = match ad_family a with Some f => family_properties f | None => ∅ end
              ∪ (admitted_properties (ad_pin a) ∪ (ad_provenance a ∪ ps0))
    ∧ ∀ k, k ∉ STAGED_KEYS → k ∉ ["has_migration"; "changes_identity_config"] → ps0 !! k = base_properties a !! k.
Proof.
  unfold release_properties. intros H. ok_inv H. simplify_eq. eexists. split; [done|]. intros k Hs Hk.
  rewrite !not_elem_of_cons in Hk. destruct Hk as (? & ? & _). unfold persist_delivery_properties.
  rewrite !lookup_insert_ne by done. by eapply staged_elsewhere.
Qed.

Lemma release_plain a ps k :
  admission_ok a → release_properties a = Ok ps → k ∉ [FAMILY_DIGEST; FAMILY_GATE_FLAGS] → k ∉ PIN_KEYS →
  k ∉ PROVENANCE_KEYS → k ∉ STAGED_KEYS → k ∉ ["has_migration"; "changes_identity_config"] →
  ps !! k = base_properties a !! k.
Proof.
  intros [_ Hprov] (ps0 & -> & H0)%release_properties_split Hf Hpin Hk Hs Hd.
  rewrite lookup_union_r by (by apply family_elsewhere). rewrite lookup_union_r by (by apply pin_elsewhere).
  rewrite lookup_union_r by (by apply Hprov). by apply H0.
Qed.

Lemma agree_on_union keys (m m' : gmap string string) :
  (∀ k, k ∈ keys → m' !! k = None) → agree_on keys (m ∪ m') m = true.
Proof.
  intros H. apply forallb_elem. intros k Hk. apply bool_decide_eq_true. rewrite lookup_union, (H k Hk).
  by destruct (m !! k).
Qed.

Lemma agree_on_ext keys (m m1 m2 : gmap string string) :
  (∀ k, k ∈ keys → m1 !! k = m2 !! k) → agree_on keys m1 m = agree_on keys m2 m.
Proof.
  intros H. unfold agree_on. induction keys as [|k keys IH]; [done|]. simpl. rewrite H by left. f_equal.
  apply IH. intros k' Hk'. apply H. by right.
Qed.

Lemma among {A} (P : A → Prop) (l : list A) : Forall P l → ∀ k, k ∈ l → P k.
Proof. apply Forall_forall. Qed.

Lemma new_release_stored a ps name now :
  admission_ok a → release_properties a = Ok ps →
  stored_as a (catalog_object (admitted_id a) KIND_RELEASE name ps now).
Proof.
  intros Hok Hps. split; cbn [catalog_object properties object_kind]; [done|rewrite (release_plain a) by (done || apart); done..| | |].
  - destruct (release_properties_split _ _ Hps) as (ps0 & Heq & H0).
    rewrite (agree_on_ext _ _ _ (ad_provenance a ∪ ps0)).
    + apply agree_on_union. intros k Hk. rewrite H0.
      * revert k Hk. apply among. by repeat constructor.
      * revert k Hk. apply among. apart.
      * revert k Hk. apply among. apart.
    + intros k Hk. rewrite Heq. rewrite lookup_union_r.
      * apply lookup_union_r, pin_elsewhere. revert k Hk. apply among. apart.
      * apply family_elsewhere. revert k Hk. apply among. apart.
  - destruct (release_properties_split _ _ Hps) as (ps0 & Heq & H0). destruct Hok as [_ Hprov].
    rewrite (agree_on_ext _ _ _ (admitted_properties (ad_pin a) ∪ (ad_provenance a ∪ ps0))).
    + apply agree_on_union. intros k Hk. rewrite lookup_union_r.
      * rewrite H0; revert k Hk; apply among; [by repeat constructor|apart..].
      * apply Hprov. revert k Hk. apply among. apart.
    + intros k Hk. rewrite Heq. apply lookup_union_r, family_elsewhere. revert k Hk. apply among. apart.
  - destruct (release_properties_split _ _ Hps) as (ps0 & -> & H0). destruct Hok as [_ Hprov].
    destruct (ad_family a) as [f|].
    { apply lookup_union_Some_l. unfold family_properties. by rewrite lookup_insert_eq. }
    rewrite lookup_union_r by done. rewrite lookup_union_r by (apply pin_elsewhere; apart).
    rewrite lookup_union_r by (apply Hprov; apart). rewrite H0 by apart. done.
Qed.

Lemma new_release_fits a ps name now w :
  admission_ok a → release_properties a = Ok ps → cw_objects w !! admitted_id a = None →
  fits w (catalog_object (admitted_id a) KIND_RELEASE name ps now).
Proof.
  intros Hok Hps Hn. split; try done.
  - simpl. by rewrite Hn.
  - intros _. exists (ad_artifact_digest a). apply nonempty_some. split; [|apply Hok].
    by apply (sa_artifact _ _ (new_release_stored a ps name now Hok Hps)).
  - intros _. unfold release_object_is_recalled. cbn [properties catalog_object].
    by rewrite (release_plain a) by (done || apart).
Qed.

Notation admits a := (λ r h', match r with Ok _ => admitted_in a h' | Err _ => True end).

Lemma admit_new_safe a h :
  admission_ok a → protected (admitted_id a) = true → cat_safe (admit_new a) (admits a) h.
Proof.
  intros Hok Hp. unfold admit_new. apply cat_safe_value; [|done]. intros ps Hps.
  apply cat_safe_let; [yielding|]. intros now h1 Hs1. apply safe_bind, cat_safe_perform.
  { intros w past c x w' _ HI. apply create_forward; [apply HI|]. intros _. by apply new_release_fits. }
  intros w past c made w' Hs HI HI' Ha. cbn [catalog_act] in Ha. injection Ha as Ha. cbn [catalog_object object_id] in Ha.
  destruct made; try done.
  - destruct (cw_objects w !! _), (cf_fate c); try discriminate Ha. injection Ha as <-.
    eexists. split; [|by apply new_release_stored]. eexists. split; [left|]. split; [apply HI'|].
    simpl. by rewrite lookup_insert_eq.
  - apply safe_try. eapply safe_mono; [apply read_safe|]. intros [[o|]|e] h2 Hs2 Ho; [|done..].
    destruct (_ || _); [done|]. by apply readmit_safe.
Qed.

Lemma admit_existing_safe a o h :
  admission_ok a → protected (admitted_id a) = true → seen (admitted_id a) o h →
  cat_safe (admit_existing a o) (admits a) h.
Proof. intros Hok Hp Ho. unfold admit_existing. destruct (_ && _); [|done]. by apply readmit_safe. Qed.

(** What a publication's trust rests on. *)
Definition trust_ok (t : PublicationTrust) (md ad : string) (h : list CatalogWorld) : Prop :=
  match t with
  | TrustVerified _ e => ∃ w, w ∈ h ∧ vouched_for w md ad e
  | TrustUnsigned => True
  end.

Lemma verify_publication_safe r md ad h :
  cat_safe (verify_publication r md ad)
    (λ t h', match t with Ok t => trust_ok t md ad h' | Err _ => True end) h.
Proof.
  unfold verify_publication. destruct (rq_signature r) as [signature|], (rq_trust_roots r) as [path|]; [|done|done|].
  - destruct (rq_allow_unsigned_development r); [done|]. apply cat_safe_value; [|done]. intros e _.
    apply safe_try, safe_bind, cat_safe_perform.
    { intros w past c x w' _ HI. by apply catalog_act_forward; [apply HI|]. }
    intros w past c roots w' Hs HI HI' Ha. cbn [catalog_act] in Ha. injection Ha as <- Hw.
    destruct (cf_roots c) as [roots|text] eqn:Hc; [|done]. simpl.
    intros w2 past2 Hs2 HI2 c2 now w2' [= <- <-]. split; [by apply (catalog_inv_forward w2); [|apply catalog_still, HI2]|].
    destruct (verify_release e roots (cw_clock w2) md ad) as [ev|] eqn:Hv; simpl; [|done].
    exists w'. split; [right; by apply (suffix_subset _ _ Hs2); left|].
    exists path, roots, (cw_clock w2), ev. split; [|done]. subst w'. simpl. left.
  - destruct (rq_allow_unsigned_development r); done.
Qed.

Lemma admit_family_yields r loaded :
  yields catalog_harmless (admit_family_release r (ld_name loaded) (ld_version loaded))
    (λ f, match f with Ok f => family_of r loaded f | Err _ => True end).
Proof.
  unfold admit_family_release, family_of. destruct (rq_family r) as [[raw signature]|]; [|done].
  destruct (rq_trust_roots r) as [path|]; [|done]. simpl. split; [done|]. intros roots. split; [done|]. intros now.
  destruct (admit_family _ _ _ _ _ _) as [f|] eqn:Hf; simpl; [|done]. by exists now, roots, f.
Qed.

Lemma trust_claim_fits a t w past h now :
  catalog_inv w past → h `suffix_of` w :: past → protected (admitted_id a) = true → admitted_in a h →
  trust_ok t (ad_digest a) (ad_artifact_digest a) h →
  cw_objects w !! release_verification_id (admitted_id a) = None →
  fits w (catalog_object (release_verification_id (admitted_id a)) KIND_RELEASE_VERIFICATION
            ("verification for " +:+ admitted_id a) (<["release_id" := admitted_id a]> (trust_properties t)) now).
Proof.
  intros HI Hs Hp (o & Hseen & Hst) Ht Hn. split; try done.
  - simpl. by rewrite Hn.
  - intros _. cbn [catalog_object properties]. rewrite lookup_insert_ne by done. by destruct t.
  - intros release _. cbn [catalog_object properties]. rewrite lookup_insert_ne, lookup_insert_eq by done.
    intros Hv [= <-]. split; [done|]. destruct t as [ev e|]; [|done].
    destruct (seen_now _ _ _ _ _ HI Hs Hp Hseen) as (o' & Ho' & _ & Hsame & _).
    exists o', (ad_digest a), (ad_artifact_digest a), e. destruct Ht as (w1 & Hw1 & path & roots & now1 & ev1 & Hr & Hver).
    split_and!; [done|rewrite Hsame; [apply Hst|apart]..|by cbn [catalog_object properties]; rewrite lookup_insert_ne|].
    exists path, roots, now1, ev1. split; [|done]. apply (co_roots w1); [|done]. apply (catalog_inv_head w past); [done|].
    by apply (suffix_subset h).
Qed.

Lemma backfill_safe a t h :
  protected (admitted_id a) = true → admitted_in a h → trust_ok t (ad_digest a) (ad_artifact_digest a) h →
  cat_safe (backfill_verification (admitted_id a) (trust_properties t)) (λ _ _, True) h.
Proof.
  intros Hp Ha Ht. unfold backfill_verification. apply cat_safe_let; [yielding|]. intros now h1 Hs1.
  apply safe_bind, cat_safe_perform.
  { intros w past c x w' Hs HI. apply create_forward; [apply HI|]. intros _. eapply trust_claim_fits; [done| |done..].
    later. }
  intros w past c made w' Hs HI HI' _. apply cat_safe_yields. yielding.
Qed.

Lemma provenance_elsewhere l ps digests k : provenance_properties l = Ok (ps, digests) → k ∉ PROVENANCE_KEYS → ps !! k = None.
Proof.
  intros H Hk. unfold PROVENANCE_KEYS in Hk. rewrite !not_elem_of_cons in Hk. destruct Hk as (? & ? & ? & _).
  unfold provenance_properties in H. destruct l; [by simplify_eq|]. ok_inv H. simplify_eq.
  by rewrite !lookup_insert_ne, lookup_singleton_ne.
Qed.

Lemma hoist_steady {A} (p : prog crit_effect A) (P : A → Prop) :
  yields (@product_harmless) p P → yields catalog_harmless (hoist (@OnProduct) p) P.
Proof. induction p as [a|X e k IH]; simpl; [done|]. intros [He Hk]. split; [done|]. intros x. by apply IH. Qed.

Lemma on_product_steady {A} (p : prog crit_effect (crit A)) :
  yields (@product_harmless) p (λ _, True) → steady (on_product p).
Proof. intros Hp. eapply yields_bind; [by apply hoist_steady|]. done. Qed.

Lemma record_product_steady name description : steady (record_product name description).
Proof.
  unfold record_product. eapply (yields_try _ _ _ (λ _, True)); [|intros h _|done].
  { eapply yields_mono; [|apply on_product_steady]; [by intros [|]|yielding]. }
  apply (yields_bind _ _ _ (λ _, True)); [yielding|]. intros r _. apply on_product_steady. yielding.
Qed.

Lemma check_request_ok r now loaded digest ad provenance stored pin :
  check_request r now = Ok (loaded, digest, ad, provenance, stored, pin) →
  (∃ content, ad = sha256_hex content) ∧ ∀ k, k ∉ PROVENANCE_KEYS → stored.1 !! k = None.
Proof.
  unfold check_request. intros H. ok_inv H. simplify_eq. split; [by eexists|].
  intros k Hk. destruct stored as [ps digests]. repeat match goal with H : map_err _ _ = Ok _ |- _ => apply map_err_ok in H end.
  by eapply provenance_elsewhere.
Qed.

Context (hex : hex_digests).

Lemma hex_nonempty s : sha256_hex s ≠ "".
Proof. intros H. destruct (hex s) as [Hl _]. by rewrite H in Hl. Qed.

Lemma publish_safe r h :
  cat_safe (publish r) (λ res h', match res with Ok _ => ∃ a, publication r a ∧ admitted_in a h' | Err _ => True end) h.
Proof.
  unfold publish. apply cat_safe_let; [yielding|]. intros now h1 Hs1.
  apply cat_safe_value; [|done]. intros [[[[[loaded digest] ad] provenance] stored] pin] Hcheck. cbv beta iota zeta.
  destruct (check_request_ok _ _ _ _ _ _ _ _ Hcheck) as [[content Hc] Hprov].
  apply safe_try. eapply safe_mono; [apply read_safe|]. intros [preexisting|e] h2 Hs2 Hpre; [|done].
  apply cat_safe_let; [yielding|]. intros now2 h3 Hs3. apply cat_safe_value; [|done]. intros u _.
  apply safe_try. eapply safe_mono; [apply verify_publication_safe|]. intros [t|e] h4 Hs4 Ht; [|done].
  apply safe_try. eapply safe_mono; [apply cat_safe_yields, admit_family_yields|]. intros [family|e] h5 Hs5 Hfam; [|done].
  apply cat_safe_value; [|done]. intros workdir _. set (a := Build_Admission _ _ _ _ _ _ _ _ _).
  assert (Hok : admission_ok a) by (split; [subst ad; apply hex_nonempty|exact Hprov]).
  assert (Hp : protected (admitted_id a) = true) by apply protected_release.
  assert (Hpub : publication r a).
  { split; [|exact Hfam]. exists now, provenance, stored.2. rewrite Hcheck. subst a. simpl. by destruct stored. }
  apply safe_try. eapply safe_mono with (Q := admits a).
  { destruct preexisting as [o|]; [|by apply admit_new_safe]. apply admit_existing_safe; [done..|].
    eapply record_seen_later; [|exact Hpre]. apply suffix_subset. later. }
  intros [u1|e] h6 Hs6 Ha; [|done].
  apply safe_try. change (release_id _ _) with (admitted_id a).
  eapply safe_mono; [apply (backfill_safe a t); [done..|]|].
  { destruct t as [ev e|]; [|done]. destruct Ht as (w1 & Hw1 & Hv). exists w1. split; [|exact Hv].
    eapply suffix_subset; [|exact Hw1]. later. }
  intros [u2|e] h7 Hs7 _; [|done].
  eapply safe_mono; [apply (cat_safe_yields _ (λ _, True))|].
  { apply (yields_try _ _ _ (λ _, True)); [|intros b _; yielding|done].
    eapply yields_mono; [|apply record_product_steady]. by intros [|]. }
  intros [res|e] h8 Hs8 _; [|done]. exists a. split; [done|]. eapply admitted_later; [|exact Ha]. apply suffix_subset. later.
Qed.

(** ** Recalling *)

Lemma stamp_keeps o by_whom at_text now :
  object_kind o = KIND_RELEASE →
  keeps o (with_properties o (<["recalled_by" := by_whom]> (<["recalled_at" := at_text]> (properties o))) now).
Proof.
  intros Hk. split_and!; [done| |by rewrite Hk]. intros k Hin. simpl.
  assert (k ∉ ["recalled_by"; "recalled_at"]) as Hn by (revert k Hin; apply among; apart).
  rewrite !not_elem_of_cons in Hn. destruct Hn as (? & ? & _). by rewrite !lookup_insert_ne.
Qed.

Lemma persist_recall_safe actor release h :
  cat_safe (persist_recall_claim actor release)
    (λ r h', match r with Ok _ => recall_seen release h' | Err _ => True end) h.
Proof.
  unfold persist_recall_claim. apply cat_safe_value; [|done]. intros u _.
  apply cat_safe_let; [yielding|]. intros at_ms h1 Hs1. apply cat_safe_let; [yielding|]. intros now h2 Hs2. cbv zeta.
  apply safe_bind, cat_safe_perform.
  { intros w past c x w' _ HI. apply catalog_act_forward; [apply HI|]. intros _. by split. }
  intros w past c made w' Hs HI HI' Ha. apply safe_try.
  eapply safe_mono with (Q := λ r h', match r with
    | Ok claim => ∃ w0, w0 ∈ h' ∧ cw_objects w0 !! release_recall_id release = Some claim | Err _ => True end).
  { destruct made; [|..|done|done].
    - cbn [catalog_act] in Ha. injection Ha as Ha. cbn [catalog_object object_id] in Ha.
      destruct (cw_objects w !! _), (cf_fate c); try discriminate Ha. injection Ha as <-.
      eexists. split; [left|]. simpl. by rewrite lookup_insert_eq.
    - apply safe_try. eapply safe_mono; [apply read_safe|]. intros [[o|]|e] h3 _ Ho; [|done..]. simpl.
      destruct Ho as (w0 & Hw0 & _ & Ho). by exists w0. }
  intros [claim|e] h3 Hs3 Hc; [|done]. destruct Hc as (w0 & Hw0 & Hc).
  destruct (_ || _) eqn:Hk; [done|]. apply orb_false_iff in Hk as [Hk _]. apply negb_false_iff, bool_decide_eq_true in Hk.
  assert (Hr : recall_seen release h3) by (exists w0; split; [done|]; by exists claim).
  apply safe_try. eapply safe_mono; [apply read_safe|]. intros [[o|]|e] h4 Hs4 Ho; [| |done].
  - destruct (negb _) eqn:Hok; [done|]. apply negb_false_iff, bool_decide_eq_true in Hok.
    assert (Hr4 : recall_seen release h4) by (eapply recall_seen_later; [|exact Hr]; by apply suffix_subset).
    destruct (release_object_is_recalled o); [done|]. apply put_safe.
    + intros w5 past5 Hs5 HI5 Hp. cbn [with_properties object_id] in Hp. rewrite (seen_keyed _ _ _ Ho) in Hp.
      eapply (rewrite_fits release o); try done; [by apply stamp_keeps|by right].
    + intros [v|e] h5 Hs5; [|done]. eapply recall_seen_later; [|exact Hr4]. by apply suffix_subset.
  - eapply recall_seen_later; [|exact Hr]. by apply suffix_subset.
Qed.

Lemma recall_safe actor spec h :
  cat_safe (recall actor spec) (λ r h', match r with
    | Ok _ => ∃ product version, parse_release_spec spec = Ok (product, version)
                                 ∧ recall_seen (release_id product version) h'
    | Err _ => True end) h.
Proof.
  unfold recall. apply cat_safe_value; [|done]. intros u _. unfold release_for_spec. apply safe_try.
  apply cat_safe_value; [|done]. intros [product version] Hspec.
  apply safe_try. eapply safe_mono; [apply read_safe|]. intros [[o|]|e] h1 Hs1 Ho; [|done..]. simpl ok_or. cbv iota.
  destruct (validate_release_identity o product version) as [v|e] eqn:Hid; [|done]. simpl.
  unfold validate_release_identity in Hid. rewrite bail_ok, !orb_false_iff, !negb_false_iff, !bool_decide_eq_true in Hid.
  destruct Hid as [[[[Hk Hoid] _] _] _]. destruct (release_object_is_recalled o) eqn:Hr.
  - exists product, version. split; [done|]. destruct Ho as (w & Hw & Ht & Ho). exists w. split; [done|].
    apply (td_recalled _ Ht _ o); done.
  - apply safe_try. eapply safe_mono; [apply persist_recall_safe|]. intros [v1|e] h2 Hs2 Hseen; [|done].
    exists product, version. rewrite <- Hoid. done.
Qed.

(** ** Trusting *)

Lemma stored_verification_safe o release h :
  object_id o = release → protected release = true →
  cat_safe (stored_verification_properties o) (λ r h', match r with
    | Ok ps => ps !! "verification_status" = Some "verified" → ∃ w claim, w ∈ h' ∧ signed_in w release claim
    | Err _ => True end) h.
Proof.
  intros <- Hp. unfold stored_verification_properties. apply safe_try. eapply safe_mono; [apply read_safe|].
  intros [[claim|]|e] h1 Hs1 Hc; [|done..]. destruct (_ || _) eqn:Hok; [done|].
  rewrite !orb_false_iff, !negb_false_iff, !bool_decide_eq_true in Hok. destruct Hok as [[[[_ Hk] _] _] Hrel].
  eapply cat_safe_past; [yielding| |done]. intros links h2 Hs2. simpl. destruct (negb _); [done|]. intros Hv.
  destruct Hc as (w & Hw & Ht & Hc). exists w, claim. split; [by apply (suffix_subset h1)|].
  by apply (td_signed _ Ht (release_verification_id (object_id o)) claim); [apply protected_app|..].
Qed.

Lemma deployable_safe o release environment h :
  seen release o h → protected release = true → environment ≠ "local" →
  cat_safe (require_deployable_trust host o environment)
    (λ r h', match r with Ok _ => signed_release release o h' | Err _ => True end) h.
Proof.
  intros Ho Hp He. unfold require_deployable_trust. rewrite bool_decide_eq_false_2 by done.
  apply safe_try. eapply safe_mono; [apply stored_verification_safe; [by eapply seen_keyed|done]|].
  intros [ps|e] h1 Hs1 Hsig; [|done]. apply cat_safe_let; [yielding|]. intros now h2 Hs2.
  apply cat_safe_value; [|done]. intros view _. eapply cat_safe_past; [yielding| |done]. intros u h3 Hs3.
  unfold require_deployable_trust_properties. rewrite bool_decide_eq_false_2 by done. simpl.
  case_bool_decide as Hv; simpl; [|done]. destruct (Hsig Hv) as (w & claim & Hw & Hin). exists w, claim.
  split_and!; [|eapply record_seen_later; [|exact Ho]; apply suffix_subset; later|done].
  eapply suffix_subset; [|exact Hw]. later.
Qed.

Lemma admit_recall_steady o admission : steady (admit_recall o admission).
Proof. yielding. Qed.

Lemma descriptor_safe o release environment admission h :
  seen release o h → protected release = true → environment ≠ "local" →
  cat_safe (descriptor_from_object host o environment admission)
    (λ r h', match r with Ok d => signed_release release o h' ∧ descriptor_of o = Ok d | Err _ => True end) h.
Proof.
  intros Ho Hp He. unfold descriptor_from_object. destruct (negb _); [done|].
  apply cat_safe_past; [apply admit_recall_steady| |done]. intros u h1 Hs1.
  apply safe_try. eapply safe_mono; [apply (deployable_safe o release); [|done..]|].
  { eapply record_seen_later; [|exact Ho]. by apply suffix_subset. }
  intros [u1|e] h2 Hs2 Hsig; [|done]. simpl. by destruct (descriptor_of o).
Qed.

Lemma snapshot_steady release environment admission : steady (load_snapshot host release environment admission).
Proof. yielding. Qed.

Lemma lookup_steady release environment : steady (lookup_release host release environment).
Proof. yielding. Qed.

Lemma snapshot_safe release environment admission h :
  cat_safe (load_snapshot host release environment admission)
    (λ r h', answer_ok (RequestSnapshot release environment admission) (SnapshotAnswer r) h') h.
Proof.
  destruct (decide (protected release = true ∧ environment ≠ "local")) as [[Hp He]|Hn].
  2: { eapply safe_mono; [apply cat_safe_yields, snapshot_steady|]. intros [s|e] h' _ _; [|done].
       intros Hp He. by destruct Hn. }
  unfold load_snapshot. apply safe_try. eapply safe_mono; [apply read_safe|]. intros [[first|]|e] h1 Hs1 H1; [|done..].
  apply safe_try. eapply safe_mono; [by apply descriptor_safe|]. intros [d|e] h2 Hs2 Hd; [|done]. destruct Hd as [Hsig Hd].
  apply safe_try. eapply safe_mono; [apply read_safe|]. intros [[o|]|e] h3 Hs3 H3; [|done..].
  destruct (negb _); [done|]. apply cat_safe_past; [apply admit_recall_steady| |done]. intros u h4 Hs4.
  apply safe_try. eapply safe_mono; [apply (deployable_safe o release); [|done..]|].
  { eapply record_seen_later; [|exact H3]. by apply suffix_subset. }
  intros [u1|e] h5 Hs5 Hsig'; [|done]. simpl. intros _ _. exists first. split_and!; [|done..].
  eapply signed_later; [|exact Hsig]. apply suffix_subset. later.
Qed.

(** ** Every schedule *)

Lemma catalog_reportable r a h : answer_ok r a h → reportable (catalog_threads host) catalog_inv r a h.
Proof.
  intros Ha w past Hs (Ho & Ht & Hl). split; [apply newest_first_next; [done|by split; [intros id o _ H; exists o|]]|].
  split; [by destruct Ht; split|]. simpl. intros r' a' [[= -> ->]|Hin]%elem_of_cons.
  - eapply catalog_answer_later; [|exact Ha]. intros x Hx. right. by apply (suffix_subset h).
  - eapply catalog_answer_later; [|by apply Hl]. intros x Hx. by right.
Qed.

Lemma finished_safe {A} (p : catalog_prog A) r h :
  cat_safe p (λ _ _, True) h → cat_safe (finished p) (reportable (catalog_threads host) catalog_inv r) h.
Proof.
  intros Hp. apply safe_bind. eapply safe_mono; [exact Hp|]. intros a h' _ _. apply catalog_reportable. by destruct r.
Qed.

Lemma finished_steady {A} (p : catalog_prog A) r h :
  steady p → cat_safe (finished p) (reportable (catalog_threads host) catalog_inv r) h.
Proof. intros Hp. by apply finished_safe, cat_safe_yields. Qed.

Lemma catalog_begin_safe r h :
  cat_safe (begin_catalog host r) (reportable (catalog_threads host) catalog_inv r) h.
Proof.
  destruct r as [r|actor spec|actor release|actor spec channel replaceable|product version channel
    |release environment admission|release environment|spec|release|spec roots]; cbn [begin_catalog].
  - apply safe_bind. eapply safe_mono; [apply publish_safe|]. intros [res|e] h' _ H; by apply catalog_reportable.
  - apply safe_bind. eapply safe_mono; [apply recall_safe|]. intros [res|e] h' _ H; by apply catalog_reportable.
  - apply finished_safe. eapply safe_mono; [apply persist_recall_safe|done].
  - apply finished_steady. yielding.
  - apply finished_steady. yielding.
  - apply safe_bind. eapply safe_mono; [apply snapshot_safe|]. intros res h' _ H. by apply catalog_reportable.
  - apply safe_bind. eapply safe_mono; [apply (cat_safe_yields _ (λ _, True)), lookup_steady|].
    intros res h' _ _. by apply catalog_reportable.
  - apply finished_steady. yielding.
  - apply finished_steady. yielding.
  - apply finished_steady. yielding.
Qed.

Lemma catalog_sound now ls s :
  interleave (catalog_threads host) ls (catalog_start now) = Some s → sound (catalog_threads host) catalog_inv s.
Proof.
  apply interleave_sound.
  - intros r w past _. apply catalog_begin_safe.
  - intros m w past w' HI Hm. eapply catalog_inv_forward; [exact HI|]. eapply catalog_move_forward; [apply HI|exact Hm].
  - apply at_rest_sound. split; [by repeat constructor|]. split; [by split|]. by intros r a ?%not_elem_of_nil.
Qed.

Lemma stored_keeps a o o' : keeps o o' → stored_as a o → stored_as a o'.
Proof.
  intros (K & Hsame & _) []. split; [congruence|rewrite Hsame; [done|apart]..| | |rewrite Hsame; [done|apart]].
  - rewrite <- sa_provenance0. apply agree_on_ext. intros k Hk. apply Hsame. revert k Hk. apply among. apart.
  - rewrite <- sa_pin0. apply agree_on_ext. intros k Hk. apply Hsame. revert k Hk. apply among. apart.
Qed.

Lemma admitted_now a w past :
  catalog_inv w past → admitted_in a (w :: past) → ∃ o, cw_objects w !! admitted_id a = Some o ∧ stored_as a o.
Proof.
  intros HI (o & Hseen & Hst). destruct (seen_now _ _ _ _ _ HI (reflexivity _) (protected_release _ _) Hseen) as (o' & Ho' & Hk).
  exists o'. split; [done|]. by eapply stored_keeps.
Qed.

Lemma publication_names r a l : publication r a → rq_manifest r = Ok l → ad_loaded a = l.
Proof.
  intros [(now & provenance & digests & H) _] Hl. unfold check_request in H. rewrite Hl in H. simpl in H. ok_inv H.
  by simplify_eq.
Qed.

(** C5: however publications, recalls, promotions and lookups interleave,
    and whichever statements fail: a publication that succeeded is what the
    catalog holds for its product and version from then on, so that two
    publications of one version that succeeded had the same manifest, the
    same artifacts and the same evidence. *)
Theorem published_releases_immutable now ls s r1 r2 res1 res2 l1 l2 :
  interleave (catalog_threads host) ls (catalog_start now) = Some s →
  (RequestPublish r1, PublishAnswer (Ok res1)) ∈ cw_log (world s) →
  (RequestPublish r2, PublishAnswer (Ok res2)) ∈ cw_log (world s) →
  rq_manifest r1 = Ok l1 → rq_manifest r2 = Ok l2 → ld_name l1 = ld_name l2 → ld_version l1 = ld_version l2 →
  ∃ a1 a2 o, publication r1 a1 ∧ publication r2 a2
    ∧ cw_objects (world s) !! release_id (ld_name l1) (ld_version l1) = Some o ∧ stored_as a1 o ∧ stored_as a2 o
    ∧ ad_digest a1 = ad_digest a2 ∧ ad_artifact_digest a1 = ad_artifact_digest a2.
Proof.
  intros Hs H1 H2 Hl1 Hl2 Hn Hv. destruct (proj1 (catalog_sound _ _ _ Hs)) as (Ho & Ht & Hlog).
  assert (HI : catalog_inv (world s) (past s)) by (split; [done|by split]).
  destruct (Hlog _ _ H1) as (a1 & P1 & A1). destruct (Hlog _ _ H2) as (a2 & P2 & A2).
  destruct (admitted_now _ _ _ HI A1) as (o1 & Ho1 & S1). destruct (admitted_now _ _ _ HI A2) as (o2 & Ho2 & S2).
  unfold admitted_id in Ho1, Ho2. rewrite (publication_names _ _ _ P1 Hl1) in Ho1.
  rewrite (publication_names _ _ _ P2 Hl2), <- Hn, <- Hv, Ho1 in Ho2. injection Ho2 as <-.
  exists a1, a2, o1. destruct S1 as [? D1 R1 ? ? ?], S2 as [? D2 R2 ? ? ?]. split_and!; [done..|congruence|congruence].
Qed.

(** What a release that was handed to execution is now. *)
Lemma signed_now release o w past :
  catalog_inv w past → protected release = true → signed_release release o (w :: past) →
  ∃ o' claim, cw_objects w !! release = Some o' ∧ keeps_identity o o' ∧ signed_in w release claim.
Proof.
  intros HI Hp (w1 & claim & Hw1 & Hseen & Hsig).
  destruct (seen_now _ _ _ _ _ HI (reflexivity _) Hp Hseen) as (o' & Ho' & _ & Hsame & _).
  exists o', claim. split_and!; [done..|]. eapply signed_older; [|done|exact Hsig]. by apply (catalog_inv_head w past).
Qed.

Lemma descriptor_digests o d :
  descriptor_of o = Ok d →
  properties o !! "digest" = Some (desc_manifest_digest d) ∧ properties o !! "artifact_digest" = Some (desc_artifact_digest d).
Proof.
  unfold descriptor_of, evidence_property. intros H. ok_inv H. simplify_eq/=.
  repeat match goal with H : ok_or (nonempty _ _) _ = Ok _ |- _ => unfold ok_or in H end.
  destruct (nonempty (properties o) "digest") as [md|] eqn:Hmd; [|done].
  destruct (nonempty (properties o) "artifact_digest") as [ad|] eqn:Had; [|done]. simplify_eq.
  apply nonempty_some in Hmd as [Hmd _], Had as [Had _]. by split.
Qed.

(** C7: a snapshot that was taken for an environment other than the local one
    names digests over which a signature verified, when it was published,
    under trust roots the publication read; the snapshot's descriptor, its
    object and the release as the catalog holds it since are of those
    digests, although each was read on its own. *)
Theorem deployable_releases_signed now ls s product version environment admission snapshot :
  interleave (catalog_threads host) ls (catalog_start now) = Some s → environment ≠ "local" →
  (RequestSnapshot (release_id product version) environment admission, SnapshotAnswer (Ok snapshot))
    ∈ cw_log (world s) →
  ∃ o path roots at_ms e ev,
    cw_objects (world s) !! release_id product version = Some o ∧ (path, roots) ∈ cw_roots (world s)
    ∧ verify_release e roots at_ms (desc_manifest_digest (snapshot_descriptor snapshot))
        (desc_artifact_digest (snapshot_descriptor snapshot)) = Ok ev
    ∧ properties o !! "digest" = Some (desc_manifest_digest (snapshot_descriptor snapshot))
    ∧ properties o !! "artifact_digest" = Some (desc_artifact_digest (snapshot_descriptor snapshot))
    ∧ keeps_identity (snapshot_object snapshot) o.
Proof.
  intros Hs He Hin. assert (HI := proj1 (catalog_sound _ _ _ Hs)). assert (Hp := protected_release product version).
  destruct (proj2 (proj2 HI) _ _ Hin Hp He) as (first & H1 & H2 & [Hmd Had]%descriptor_digests).
  destruct (signed_now _ _ _ _ HI Hp H1) as (o & claim & Ho & Hsame & o' & md & ad & e & Ho' & Hmd' & Had' & _ & Hv).
  destruct (signed_now _ _ _ _ HI Hp H2) as (o2 & _ & Ho2 & Hsame2 & _). simplify_eq.
  destruct Hv as (path & roots & at_ms & ev & Hr & Hv). rewrite Hsame in Hmd', Had' by apart. simplify_eq.
  exists o, path, roots, at_ms, e, ev. split_and!; [done|done|done|rewrite Hsame; [done|apart]..|done].
Qed.

(** ** After a recall *)

(** A request to deploy a release. *)
Definition deploys (release : string) (r : catalog_request) : Prop :=
  match r with
  | RequestSnapshot release' _ StandardAdmission => release' = release
  | RequestLookup release' _ => release' = release
  | _ => False
  end.

Definition refused (a : catalog_answer) : Prop :=
  match a with SnapshotAnswer (Ok _) | LookupAnswer (Ok _) => False | _ => True end.

Section Recalled.
Context (release : string) (release_protected : protected release = true).
Context (log : list (catalog_request * catalog_answer)).

(** The release is recalled, and refused since. *)
Definition stays_recalled (w : CatalogWorld) : Prop :=
  recalled_in w release ∧ ∃ new, cw_log w = new ++ log ∧ ∀ r a, (r, a) ∈ new → deploys release r → refused a.

Definition recalled_inv (w : CatalogWorld) (past : list CatalogWorld) : Prop := catalog_inv w past ∧ stays_recalled w.

Notation rec_safe p Q h := (safe (catalog_threads host) recalled_inv p Q h).

Lemma catalog_act_log {X} (e : catalog_effect X) c w x w' : catalog_act X e c w = Some (x, w') → cw_log w' = cw_log w.
Proof.
  assert (Hst : ∀ Y f (y : Y) w w1 r w2, statement f y w w1 = Some (r, w2) → cw_log w1 = cw_log w → cw_log w2 = cw_log w).
  { intros Y f y w0 w1 r w2. unfold statement. by destruct f; intros [= <- <-]. }
  destruct e; cbn [catalog_act]; try (by intros [= <- <-]); try (intros H; by apply Hst in H).
  - intros [= H]. destruct (cf_fate c), (cw_objects w !! object_id o); by simplify_eq.
  - intros [= <- <-]. by destruct (cf_roots c).
  - destruct e; cbn [product_act]; intros [= <- <-]; try done. by destruct (is_ok _).
  - destruct (create && _); intros [= <- <-]; [done|]. by destruct (is_ok _).
Qed.

Lemma stays_recalled_next w w' past :
  catalog_inv w' (w :: past) → cw_log w' = cw_log w → stays_recalled w → stays_recalled w'.
Proof.
  intros HI Hl (Hr & new & Hnew & H). split; [|exists new; by rewrite Hl].
  eapply recalled_older; [|done|exact Hr]. apply (catalog_inv_head w' (w :: past)); [done|]. right. left.
Qed.

Lemma recalled_with {A} (p : prog catalog_effect A) Q h : cat_safe p Q h → rec_safe p Q h.
Proof.
  apply safe_with. intros X e c x w w' past Ha _ HI'. eapply stays_recalled_next; [exact HI'|]. by eapply catalog_act_log.
Qed.

Lemma recalled_reportable r a h :
  (deploys release r → refused a) → reportable (catalog_threads host) catalog_inv r a h →
  reportable (catalog_threads host) recalled_inv r a h.
Proof.
  intros Hd Hr w past Hs [HI (Hrec & new & Hnew & H)]. split; [by apply Hr|]. split; [done|].
  exists ((r, a) :: new). split; [simpl; by rewrite Hnew|]. intros r' a' [[= -> ->]|Hin]%elem_of_cons; [done|by apply H].
Qed.

Lemma recalled_read id h :
  rec_safe (ask (GetRecord id)) (λ r _, match r with
    | Ok found => (∀ o, found = Some o → object_id o = id)
                  ∧ (id = release_recall_id release → ∃ o, found = Some o ∧ object_kind o = KIND_RELEASE_RECALL)
    | Err _ => True end) h.
Proof.
  apply safe_bind, safe_perform. intros w past Hs [HI Hst] c x w' Ha. assert (Ha' := Ha). cbn in Ha.
  assert (catalog_inv w' (w :: past)) as HI'.
  { apply (catalog_inv_forward w); [done|]. by eapply catalog_act_forward; [apply HI| |exact Ha']. }
  split; [split; [done|]; eapply stays_recalled_next; [done|by eapply catalog_act_log|done]|].
  unfold statement in Ha. destruct (cf_fate c); injection Ha as <- <-; simpl; try done. split.
  - intros o Ho. by apply (td_keyed _ (proj1 (proj2 HI))).
  - intros ->. destruct Hst as [(claim & Hc & Hk) _]. by exists claim.
Qed.

Lemma recalled_refuses o environment h :
  object_id o = release →
  rec_safe (descriptor_from_object host o environment StandardAdmission) (λ r _, is_ok r = false) h.
Proof.
  intros Ho. unfold descriptor_from_object. destruct (negb _); [done|]. apply safe_try. unfold admit_recall.
  destruct (release_object_is_recalled o); [done|]. apply safe_try. eapply safe_mono; [apply recalled_read|].
  intros [found|e] h1 _ Hf; [|done]. destruct Hf as [_ Hf]. rewrite Ho in Hf |- *. destruct (Hf eq_refl) as (claim & -> & Hk).
  simpl. by rewrite bool_decide_eq_true_2.
Qed.

Lemma refusal_safe r h : rec_safe (begin_catalog host r) (λ a _, deploys release r → refused a) h.
Proof.
  assert (Hany : ¬ deploys release r → rec_safe (begin_catalog host r) (λ a _, deploys release r → refused a) h).
  { intros Hn. eapply safe_mono; [apply recalled_with, catalog_begin_safe|]. by intros a h' _ _ Hd. }
  destruct r as [r|actor spec|actor id|actor spec channel replaceable|product version channel
    |id environment [|]|id environment|spec|id|spec roots]; try solve [apply Hany; intros []].
  - destruct (decide (id = release)) as [->|Hn]; [clear Hany|by apply Hany]. cbn [begin_catalog]. apply safe_bind.
    unfold load_snapshot. apply safe_try. eapply safe_mono; [apply recalled_read|].
    intros [[o|]|e] h1 _ Ho; [|done..]. apply safe_try. eapply safe_mono; [apply recalled_refuses; by apply Ho|].
    intros [d|e] h2 _ Hd; done.
  - destruct (decide (id = release)) as [->|Hn]; [clear Hany|by apply Hany]. cbn [begin_catalog]. apply safe_bind.
    unfold lookup_release. apply safe_try. eapply safe_mono; [apply recalled_read|].
    intros [[o|]|e] h1 _ Ho; [|done..]. eapply safe_mono; [apply recalled_refuses; by apply Ho|].
    intros [d|e] h2 _ Hd; done.
Qed.

Lemma recalled_begin r h : rec_safe (begin_catalog host r) (reportable (catalog_threads host) recalled_inv r) h.
Proof.
  eapply safe_mono; [apply safe_and; [apply recalled_with, catalog_begin_safe|apply refusal_safe]|].
  intros a h' _ [Hr Hd]. by apply recalled_reportable.
Qed.

Lemma recalled_sound s ls s' :
  sound (catalog_threads host) catalog_inv s → recalled_in (world s) release → cw_log (world s) = log →
  (∀ i r rest, slots s i = Busy r rest → ¬ deploys release r) →
  interleave (catalog_threads host) ls s = Some s' → stays_recalled (world s').
Proof.
  intros [HI Hslots] Hr Hlog Hidle Hs. refine (proj2 (proj1 (interleave_sound (catalog_threads host) recalled_inv _ _ ls s s' _ Hs))).
  - intros r w past _. apply recalled_begin.
  - intros m w past w' [HI1 Hst] Hm. assert (Hf : forward w w') by (eapply catalog_move_forward; [apply HI1|exact Hm]).
    assert (catalog_inv w' (w :: past)) as HI' by (by eapply catalog_inv_forward). split; [done|].
    eapply stays_recalled_next; [exact HI'|apply Hf|done].
  - split.
    + split; [done|]. split; [done|]. exists []. split; [done|]. by intros r a ?%not_elem_of_nil.
    + intros i. specialize (Hslots i). specialize (Hidle i). destruct (slots s i) as [|r rest]; [done|]. simpl in *.
      eapply safe_mono; [by apply recalled_with|]. intros a h' _ Ha. apply recalled_reportable; [|done].
      intros Hd. by destruct (Hidle r rest).
Qed.
End Recalled.

(** C6: once the recall of a release was reported, no lookup and no snapshot
    of it that arrives later succeeds, however requests interleave, whichever
    statements fail and whatever a publication that was on its way writes
    over the release's own recall stamp; only the recovery that asks for
    recalled releases still gets it. *)
Theorem recalled_never_deployed now ls s actor spec product version ls' s' :
  interleave (catalog_threads host) ls (catalog_start now) = Some s →
  (RequestRecall actor spec, RecallAnswer (Ok tt)) ∈ cw_log (world s) →
  parse_release_spec spec = Ok (product, version) →
  (∀ i r rest, slots s i = Busy r rest → ¬ deploys (release_id product version) r) →
  interleave (catalog_threads host) ls' s = Some s' →
  ∃ new, cw_log (world s') = new ++ cw_log (world s)
    ∧ ∀ r a, (r, a) ∈ new → deploys (release_id product version) r → refused a.
Proof.
  intros Hs Hin Hspec Hidle Hs'. assert (Hsound := catalog_sound _ _ _ Hs). assert (HI := proj1 Hsound).
  destruct (proj2 (proj2 HI) _ _ Hin) as (product' & version' & Hspec' & Hseen). rewrite Hspec in Hspec'. simplify_eq.
  assert (Hp := protected_release product' version').
  assert (Hr := recalled_now _ _ _ _ HI (reflexivity _) Hp Hseen).
  apply (recalled_sound _ Hp (cw_log (world s)) s ls' s' Hsound Hr eq_refl Hidle Hs').
Qed.
End History.

(** ** Schedules *)

Module CatalogExamples.
Notation zeros := ApprovalExamples.zeros.
Definition ones : string := "1111111111111111111111111111111111111111111111111111111111111111".

(** Two contents. *)
#[local] Instance two_digests : PlanEncoding := {|
  content_json := @content_json PlainEncoding.instance;
  executable_json := @executable_json PlainEncoding.instance;
  plan_json := @plan_json PlainEncoding.instance;
  plan_of_json := @plan_of_json PlainEncoding.instance;
  sha256_hex := λ s, if bool_decide (s = "other") then ones else zeros |}.
#[local] Existing Instance ApprovalExamples.transparent.
#[local] Existing Instance SigningExamples.plain_urls.
#[local] Existing Instance SigningExamples.fixed_base64.

#[local] Instance no_provenance : ProvenanceJson := {|
  envelopes_json _ := "[]"; envelopes_of_json _ := Some []; digests_json _ := "[]"; digests_of_json _ := Some [];
  projections_json _ := "[]"; projections_of_json _ := Some [] |}.
#[local] Instance no_change_sets : ChangeSetJson := {|
  pin_json _ := "{}"; pin_of_json _ := None; evidence_json _ := "{}"; evidence_of_json _ := None |}.
#[local] Instance no_families : FamilyJson := {| family_of_json _ := None |}.
#[local] Instance one_signature : SignatureJson := {|
  signature_json := signature_text;
  signature_of_json s := if bool_decide (s = release_bytes SigningExamples.built) then Some SigningExamples.signed else None;
  origin_json _ := "origin"; origin_of_json _ := Some (provenance SigningExamples.built); artifacts_json _ := "[]" |}.

Lemma two_digests_hex : hex_digests.
Proof. intros s. simpl. by case_bool_decide. Qed.

#[local] Notation step := (label catalog_request CatalogFate catalog_move).

Definition host : HostTrust := {| require_host_release_trust := false; release_trust_roots := None |}.

Definition loaded (raw : string) : Loaded := {|
  ld_raw := raw; ld_name := "web"; ld_version := "1.0"; ld_description := "a service"; ld_kind := Software;
  ld_workdir := "."; ld_artifacts := []; ld_inventory := None; ld_has_migration := false;
  ld_changes_identity_config := false; ld_change_set_pin := None |}.

Definition request (raw : string) : PublishRequest := {|
  rq_manifest := Ok (loaded raw); rq_reference := None; rq_artifacts := Ok tt; rq_file_digest := Ok "";
  rq_identity := Ok "files"; rq_provenance := []; rq_provenance_roots := None; rq_change_set := None;
  rq_workshop := Ok tt; rq_signature := Some (Ok SigningExamples.signed); rq_trust_roots := Some "roots.json";
  rq_allow_unsigned_development := false; rq_family := None; rq_snapshot := Ok "/work/web"; rq_inventory := Err "none" |}.

Definition ops : AuthenticatedRequestContext := {|
  contract_version := 1; context_request_id := "r1";
  principal := {| principal_id := "ops"; principal_kind := ManagementPrincipal |};
  tenant := None; authenticator_id := "community"; delivery_capabilities := {[ManagementCapability]};
  environment_binding := None; channel_bindings := ∅; product_bindings := ∅; actor_chain := []; host_identity := None |}.

(** Everything works. *)
Definition works : CatalogFate := {|
  cf_fate := Done; cf_roots := Ok SigningExamples.roots; cf_hash := Ok zeros; cf_named := Ok ("web", "1.0");
  cf_unit := Ok tt; cf_hold := Ok None; cf_token := Ok "t1"; cf_crit := Ok tt |}.

Definition does (i n : nat) : list step := replicate n (Perform i works).

Definition started := catalog_start 20.
Definition ended_in (ls : list step) := default started (interleave (catalog_threads host) ls started).

Definition summary (a : catalog_answer) : string :=
  match a with
  | PublishAnswer (Ok r) => if published_before r then "published again" else "published"
  | PublishAnswer (Err _) => "publication refused"
  | RecallAnswer r => if is_ok r then "recalled" else "recall refused"
  | SnapshotAnswer r => if is_ok r then "snapshot taken" else "snapshot refused"
  | LookupAnswer r => if is_ok r then "found" else "lookup refused"
  | CatalogDone ok => if ok then "done" else "failed"
  end.

Definition summaries (ls : list step) : list string := map (summary ∘ snd) (cw_log (world (ended_in ls))).

Definition web : string := release_id "web" "1.0".

(** A development release, without a signature. *)
Definition unsigned (raw : string) : PublishRequest := {|
  rq_manifest := Ok (loaded raw); rq_reference := None; rq_artifacts := Ok tt; rq_file_digest := Ok "";
  rq_identity := Ok "files"; rq_provenance := []; rq_provenance_roots := None; rq_change_set := None;
  rq_workshop := Ok tt; rq_signature := None; rq_trust_roots := None; rq_allow_unsigned_development := true;
  rq_family := None; rq_snapshot := Ok "/work/web"; rq_inventory := Err "none" |}.

(** A request from its arrival to its report. *)
Definition serves (r : catalog_request) (n : nat) : list step := [Arrive 0 r] ++ does 0 n ++ [Report 0].

(** Published twice, deployed, and recalled. *)
Definition recall_schedule : list step :=
  serves (RequestPublish (request "m")) 18 ++ serves (RequestPublish (request "m")) 22
  ++ serves (RequestSnapshot web "prod" StandardAdmission) 10 ++ serves (RequestRecall ops "web@1.0") 6.

Definition later_schedule : list step :=
  serves (RequestLookup web "prod") 1 ++ serves (RequestSnapshot web "prod" AuditedRecovery) 8.

Example recalled_in_turn :
  summaries (recall_schedule ++ later_schedule)
  = ["snapshot taken"; "lookup refused"; "recalled"; "snapshot taken"; "published again"; "published"].
Proof. vm_compute. done. Qed.

(** Two publications of one version at a time: the one that comes second
    sees what the first wrote, and is refused. *)
Example published_at_once :
  summaries ([Arrive 0 (RequestPublish (unsigned "m")); Arrive 1 (RequestPublish (unsigned "other"))]
             ++ does 0 4 ++ does 1 4 ++ does 1 1 ++ does 0 2 ++ [Report 0] ++ does 1 11 ++ [Report 1])
  = ["published"; "publication refused"].
Proof. vm_compute. done. Qed.

(** A publication that read the release before its recall writes the stamp
    away; the claim stays, and the release is refused all the same. *)
Definition stamp_lost_schedule : list step :=
  serves (RequestPublish (request "m")) 18
  ++ [Arrive 1 (RequestPublish (request "m"))] ++ does 1 9
  ++ serves (RequestRecall ops "web@1.0") 6 ++ does 1 13 ++ [Report 1].

Example recall_stamp_lost :
  let w := world (ended_in stamp_lost_schedule) in
  release_object_is_recalled <$> cw_objects w !! web = Some false
  ∧ object_kind <$> cw_objects w !! release_recall_id web = Some KIND_RELEASE_RECALL
  ∧ summaries (stamp_lost_schedule ++ serves (RequestLookup web "prod") 2)
    = ["lookup refused"; "published again"; "recalled"; "published"].
Proof. vm_compute. done. Qed.

Lemma catalog_run_ends ls :
  is_some_b (interleave (catalog_threads host) ls started) = true →
  interleave (catalog_threads host) ls started = Some (ended_in ls).
Proof. unfold ended_in. by destruct (interleave _ _ _). Qed.

Definition published : PublishResult :=
  {| published_release := "web@1.0"; published_digests := []; published_before := false |}.
Definition published_again : PublishResult :=
  {| published_release := "web@1.0"; published_digests := []; published_before := true |}.

Lemma published_releases_immutable_witness :
  ∃ a1 a2 o, publication (request "m") a1 ∧ publication (request "m") a2
    ∧ cw_objects (world (ended_in recall_schedule)) !! web = Some o ∧ stored_as a1 o ∧ stored_as a2 o
    ∧ ad_digest a1 = ad_digest a2 ∧ ad_artifact_digest a1 = ad_artifact_digest a2.
Proof.
  apply (published_releases_immutable host two_digests_hex 20 recall_schedule (ended_in recall_schedule)
           (request "m") (request "m") published published_again (loaded "m") (loaded "m")).
  - apply catalog_run_ends. vm_compute. reflexivity.
  - apply (list_elem_of_lookup_2 _ 3). vm_compute. reflexivity.
  - apply (list_elem_of_lookup_2 _ 2). vm_compute. reflexivity.
  - reflexivity.
  - reflexivity.
  - reflexivity.
  - reflexivity.
Defined.

Definition taken : DeployableSnapshot :=
  match cw_log (world (ended_in recall_schedule)) !! 1%nat with
  | Some (_, SnapshotAnswer (Ok s)) => s
  | _ => {| snapshot_descriptor := {| desc_release := ""; desc_product := ""; desc_version := ""; desc_manifest_digest := "";
              desc_artifact_digest := ""; desc_content_path := ""; desc_provenance := []; desc_change_set := None |};
            snapshot_object := catalog_object "" "" "" ∅ 0 |}
  end.

Lemma deployable_releases_signed_witness :
  desc_manifest_digest (snapshot_descriptor taken) = zeros
  ∧ ∃ o path roots at_ms e ev,
      cw_objects (world (ended_in recall_schedule)) !! web = Some o
      ∧ (path, roots) ∈ cw_roots (world (ended_in recall_schedule))
      ∧ verify_release e roots at_ms (desc_manifest_digest (snapshot_descriptor taken))
          (desc_artifact_digest (snapshot_descriptor taken)) = Ok ev
      ∧ properties o !! "digest" = Some (desc_manifest_digest (snapshot_descriptor taken))
      ∧ properties o !! "artifact_digest" = Some (desc_artifact_digest (snapshot_descriptor taken))
      ∧ keeps_identity (snapshot_object taken) o.
Proof.
  split; [vm_compute; reflexivity|].
  apply (deployable_releases_signed host two_digests_hex 20 recall_schedule (ended_in recall_schedule)
           "web" "1.0" "prod" StandardAdmission taken).
  - apply catalog_run_ends. vm_compute. reflexivity.
  - discriminate.
  - apply (list_elem_of_lookup_2 _ 1). vm_compute. reflexivity.
Defined.

Lemma recalled_never_deployed_witness :
  ∃ new, cw_log (world (ended_in (recall_schedule ++ later_schedule))) = new ++ cw_log (world (ended_in recall_schedule))
    ∧ ∀ r a, (r, a) ∈ new → deploys web r → refused a.
Proof.
  apply (recalled_never_deployed host two_digests_hex 20 recall_schedule (ended_in recall_schedule) ops "web@1.0" "web" "1.0"
           later_schedule (ended_in (recall_schedule ++ later_schedule))).
  - apply catalog_run_ends. vm_compute. reflexivity.
  - apply (list_elem_of_lookup_2 _ 0). vm_compute. reflexivity.
  - vm_compute. reflexivity.
  - intros [|i] r rest Hi.
    + exfalso. revert Hi. vm_compute. discriminate.
    + rewrite (untouched_slot (catalog_threads host) recall_schedule started _ (S i)) in Hi; [discriminate| |apply catalog_run_ends; vm_compute; reflexivity].
      by repeat constructor.
  - rewrite <- (catalog_run_ends (recall_schedule ++ later_schedule)) by (vm_compute; reflexivity).
    rewrite interleave_app, (catalog_run_ends recall_schedule) by (vm_compute; reflexivity). reflexivity.
Defined.
End CatalogExamples.
