(* ===== verification/Canary.v ===== *)
(** * Canary policies and evidence

    [canary.rs] and the pure part of [canary/evaluation.rs]: a policy names a
    release by its digests and the environments that try it before it is
    promoted to a channel; an outcome is what one step of one attempt did in
    one environment; a stored outcome counts only when the attempt, the plan
    and the deployment it names bear it out. *)

From S2P Require Import Prelude RustStr Kinds Facts Compatibility Contracts Plan ObjectStore Catalog Deployments Effects ProductExecution.

(** ** Data *)

Inductive SuccessPolicy := SuccessAll.

Record CanaryPolicy := {
  policy_release_id : string; policy_release_digest : string; policy_artifact_digest : string;
  policy_product : string; policy_version : string; policy_channel : string;
  cohort : list string; success_policy : SuccessPolicy
}.

Record ActiveCanaryPolicy := {
  active_rules : CanaryPolicy; active_digest : string; activated_at : Z
}.

Inductive GateOutcome := GateSatisfied | GateSkipped | GateBlocked.
Inductive ExecutionOutcome := ExecutionSucceeded | ExecutionFailed | ExecutionBlocked.
Inductive HealthOutcome := HealthPassed | HealthFailedOrUnknown | HealthNotRun.
Inductive RollbackOutcome := RollbackNotNeeded | RollbackSucceeded | RollbackFailedOrUnknown.
Inductive EvidencePlanState := EvidenceSucceeded | EvidenceFailed | EvidenceBlocked.

Record CanaryOutcome := {
  co_release_id : string; co_release_digest : string; co_artifact_digest : string;
  co_policy_digest : string; co_activated_at : Z; co_environment : string; co_plan_id : string;
  co_attempt_id : string; co_step_order : Z; co_plan_state : EvidencePlanState;
  co_deployment_id : option string; executed_at : Z; recorded_at : Z; co_gate : GateOutcome;
  co_execution : ExecutionOutcome; co_health : HealthOutcome; co_rollback : RollbackOutcome;
  co_detail : string
}.

Record CanaryAttemptEvidence := {
  attempt_id : string; attempt_plan_id : string; attempt_plan_state : EvidencePlanState;
  attempt_gates_skipped : bool; started_at : Z; finished_at : Z
}.

#[export] Instance SuccessPolicy_eq : EqDecision SuccessPolicy.
Proof. solve_decision. Defined.
#[export] Instance CanaryPolicy_eq : EqDecision CanaryPolicy.
Proof. solve_decision. Defined.
#[export] Instance ActiveCanaryPolicy_eq : EqDecision ActiveCanaryPolicy.
Proof. solve_decision. Defined.
#[export] Instance GateOutcome_eq : EqDecision GateOutcome.
Proof. solve_decision. Defined.
#[export] Instance ExecutionOutcome_eq : EqDecision ExecutionOutcome.
Proof. solve_decision. Defined.
#[export] Instance HealthOutcome_eq : EqDecision HealthOutcome.
Proof. solve_decision. Defined.
#[export] Instance RollbackOutcome_eq : EqDecision RollbackOutcome.
Proof. solve_decision. Defined.
#[export] Instance EvidencePlanState_eq : EqDecision EvidencePlanState.
Proof. solve_decision. Defined.
#[export] Instance CanaryOutcome_eq : EqDecision CanaryOutcome.
Proof. solve_decision. Defined.

Definition KIND_DEPLOYMENT : string := "tenkai.deployment".
Definition KIND_CANARY_DESIGNATION : string := "tenkai.canary_designation".
Definition KIND_CANARY_POLICY : string := "tenkai.canary_policy".
Definition KIND_CANARY_POLICY_POINTER : string := "tenkai.canary_policy_pointer".
Definition KIND_CANARY_ATTEMPT : string := "tenkai.canary_attempt".
Definition KIND_CANARY_OUTCOME : string := "tenkai.canary_outcome".
Definition KIND_PROMOTION_AUDIT : string := "tenkai.promotion_audit".
Definition KIND_PROMOTION_LOCK : string := "tenkai.promotion_lock".

Definition EvidencePlanState_str (s : EvidencePlanState) : string :=
  match s with
  | EvidenceSucceeded => "succeeded" | EvidenceFailed => "failed" | EvidenceBlocked => "blocked"
  end.

(** [serde_json] of what the canary code stores. *)
Class CanaryJson := {
  policy_json : CanaryPolicy → string;
  policy_of_json : string → option CanaryPolicy;
  outcome_json : CanaryOutcome → string;
  outcome_of_json : string → option CanaryOutcome
}.

Section Policy.
Context {E : PlanEncoding} {J : CanaryJson}.

(** ** Policies *)

(** [CanaryPolicy::validate]. *)
Definition validate_cohort (seen : gset string) (environment : string) : result (gset string) failure :=
  bail_if negb (valid_identifier environment) with (OtherFailure "environment") in
  bail_if bool_decide (environment ∈ seen)
    with (OtherFailure ("canary cohort contains duplicate environment " +:+ environment)) in
  Ok ({[environment]} ∪ seen).

Definition validate_policy (p : CanaryPolicy) : result unit failure :=
  bail_if negb (valid_identifier (policy_product p)) with (OtherFailure "product") in
  bail_if negb (valid_identifier (policy_version p)) with (OtherFailure "version") in
  bail_if negb (valid_identifier (policy_channel p)) with (OtherFailure "channel") in
  bail_if str_is_empty (policy_release_id p) || str_is_empty (policy_release_digest p)
          || str_is_empty (policy_artifact_digest p)
    with (OtherFailure "canary policy release pins must not be empty") in
  bail_if negb (bool_decide (policy_release_id p = release_id (policy_product p) (policy_version p)))
    with (OtherFailure "canary policy release id does not match") in
  bail_if bool_decide (cohort p = []) with (OtherFailure "canary policy cohort must not be empty") in
  let? _ := try_fold validate_cohort ∅ (cohort p) in
  Ok tt.

(** [CanaryPolicy::canonicalized]. *)
Definition canonicalized (p : CanaryPolicy) : result CanaryPolicy failure :=
  let? _ := validate_policy p in
  Ok {| policy_release_id := policy_release_id p; policy_release_digest := policy_release_digest p;
        policy_artifact_digest := policy_artifact_digest p; policy_product := policy_product p;
        policy_version := policy_version p; policy_channel := policy_channel p;
        cohort := sort_by String.compare (cohort p); success_policy := success_policy p |}.

(** [CanaryPolicy::digest]. *)
Definition policy_digest (p : CanaryPolicy) : result string failure :=
  let? canonical := canonicalized p in Ok (sha256_hex (policy_json canonical)).

(** [ActiveCanaryPolicy::new]. *)
Definition activate_policy (p : CanaryPolicy) (at_ms : Z) : result ActiveCanaryPolicy failure :=
  let? p := canonicalized p in
  let? digest := policy_digest p in
  Ok {| active_rules := p; active_digest := digest; activated_at := at_ms |}.

(** ** Outcomes *)

Definition plan_matches_environment (o : CanaryOutcome) : bool :=
  match strip_prefix "tenkai:plan:" (co_plan_id o) with
  | None => false
  | Some identity =>
    match split_on ":" identity with
    | [environment; created; content] =>
      bool_decide (environment = co_environment o) && is_some_b (parse_i64 created)
      && negb (str_is_empty content)
    | _ => false
    end
  end.

(** [CanaryOutcome::passes]. *)
Definition passes (o : CanaryOutcome) (p : CanaryPolicy) (digest : string) : bool :=
  bool_decide (co_release_id o = policy_release_id p)
  && bool_decide (co_release_digest o = policy_release_digest p)
  && bool_decide (co_artifact_digest o = policy_artifact_digest p)
  && bool_decide (co_policy_digest o = digest)
  && (co_activated_at o <=? executed_at o)
  && plan_matches_environment o
  && bool_decide (co_plan_state o = EvidenceSucceeded)
  && bool_decide (co_gate o = GateSatisfied)
  && bool_decide (co_execution o = ExecutionSucceeded)
  && bool_decide (co_health o = HealthPassed)
  && bool_decide (co_rollback o = RollbackNotNeeded).

(** The product and the version a release id names. *)
Definition release_identity (o : CanaryOutcome) : option (string * string) :=
  strip_prefix "tenkai:release:" (co_release_id o) ≫= split_once "@".

Definition release_product (o : CanaryOutcome) : string := default "" (fst <$> release_identity o).
Definition release_version (o : CanaryOutcome) : string := default "" (snd <$> release_identity o).

(** [evidence_release]: a removal deploys nothing to gather evidence on. *)
Definition evidence_release (s : Step) : option string :=
  match step_action s with
  | Rollback => pin_release_id <$> step_restore s
  | Install | Upgrade | Downgrade | Restart => Some (step_release_id s)
  | Remove => None
  end.

(** ** Verification *)

Definition deploys_candidate (o : CanaryOutcome) (s : Step) : bool :=
  bool_decide (step_product s = release_product o)
  && bool_decide (step_action s ∈ [Install; Upgrade; Downgrade; Restart])
  && bool_decide (step_to s = release_version o)
  && bool_decide (step_release_id s = co_release_id o)
  && bool_decide (step_release_digest s = co_release_digest o)
  && bool_decide (step_artifact_digest s = co_artifact_digest o).

Definition rolls_back_candidate (o : CanaryOutcome) (s : Step) : bool :=
  bool_decide (step_product s = release_product o)
  && bool_decide (step_action s = Rollback)
  && bool_decide (step_from s = Some (release_version o))
  && match step_restore s with
     | Some pin => bool_decide (pin_release_id pin = co_release_id o)
                   && bool_decide (pin_digest pin = co_release_digest o)
                   && bool_decide (pin_artifact_digest pin = co_artifact_digest o)
     | None => false
     end.

(** The step the outcome is about. *)
Definition deployment_step (o : CanaryOutcome) (p : Plan) : option Step :=
  s ← find_first (λ s, step_order s =? co_step_order o) (steps p);
  if deploys_candidate o s || rolls_back_candidate o s then Some s else None.

Definition verify_policy (o : CanaryOutcome) (active : ActiveCanaryPolicy) : result unit failure :=
  bail_if negb (bool_decide (co_policy_digest o = active_digest active))
          || negb (co_activated_at o =? activated_at active)
          || (recorded_at o <? activated_at active) || (recorded_at o <? executed_at o)
    with (OtherFailure "canary outcome was not recorded under the active policy") in
  Ok tt.

Definition verify_plan_identity (o : CanaryOutcome) (p : Plan) : result unit failure :=
  bail_if negb (bool_decide (co_plan_id o = plan_id_of p))
          || negb (bool_decide (co_environment o = plan_environment p))
          || negb (plan_matches_environment o)
    with (OtherFailure "canary outcome plan identity does not match the stored plan") in
  Ok tt.

Definition verify_attempt (o : CanaryOutcome) (a : CanaryAttemptEvidence) (active : ActiveCanaryPolicy) :
    result unit failure :=
  bail_if negb (bool_decide (co_attempt_id o = attempt_id a))
          || negb (bool_decide (co_plan_id o = attempt_plan_id a))
          || negb (bool_decide (co_plan_state o = attempt_plan_state a))
          || (started_at a <? activated_at active) || (finished_at a <? started_at a)
          || (executed_at o <? started_at a) || (finished_at a <? executed_at o)
          || (recorded_at o <? finished_at a)
          || negb (Bool.eqb (bool_decide (co_gate o = GateSkipped)) (attempt_gates_skipped a))
    with (OtherFailure "canary outcome does not match its immutable execution attempt") in
  Ok tt.

Definition verify_result (o : CanaryOutcome) (p : Plan) (a : CanaryAttemptEvidence) : result unit failure :=
  bail_if bool_decide (co_plan_state o = EvidenceSucceeded)
          && (negb (bool_decide (plan_state p = Succeeded))
              || negb (bool_decide (gates_skipped p = Some (attempt_gates_skipped a))))
    with (OtherFailure "canary outcome does not match the stored plan result") in
  match co_plan_state o with
  | EvidenceSucceeded =>
    bail_if negb (bool_decide (co_execution o = ExecutionSucceeded))
            || negb (bool_decide (co_health o = HealthPassed))
            || negb (bool_decide (co_rollback o ∈ [RollbackNotNeeded; RollbackSucceeded]))
      with (OtherFailure "succeeded canary plan has a non-passing deployment outcome") in
    Ok tt
  | EvidenceBlocked =>
    bail_if negb (bool_decide (co_execution o = ExecutionBlocked))
      with (OtherFailure "blocked canary plan has a non-blocked execution outcome") in
    Ok tt
  | EvidenceFailed => Ok tt
  end.

Definition verify_deployment (o : CanaryOutcome) (s : Step) (a : CanaryAttemptEvidence)
    (deployment : option Object) (linked : bool) (active : ActiveCanaryPolicy) : result unit failure :=
  let? d := ok_or (if linked then deployment else None)
              (OtherFailure "passing canary outcome has no linked deployment") in
  bail_if negb (bool_decide (object_kind d = KIND_DEPLOYMENT))
          || negb (bool_decide (co_deployment_id o = Some (object_id d)))
          || (created d <? executed_at o) || (finished_at a <? created d)
          || (recorded_at o <? created d) || (updated d <? created d)
          || (finished_at a <? updated d) || (recorded_at o <? updated d)
          || (created d <? activated_at active)
          || negb (bool_decide (properties d !! "environment" = Some (co_environment o)))
          || negb (bool_decide (properties d !! "product" = Some (release_product o)))
          || negb (bool_decide (properties d !! "to_version" = Some (step_to s)))
          || negb (bool_decide (properties d !! "status" = Some "succeeded"))
    with (OtherFailure "passing canary outcome does not match its deployment evidence") in
  Ok tt.

(** [VerifiedCanaryOutcome::verify]. *)
Definition verify_outcome (o : CanaryOutcome) (p : Plan) (a : CanaryAttemptEvidence)
    (deployment : option Object) (linked : bool) (active : ActiveCanaryPolicy) :
    result CanaryOutcome failure :=
  let? _ := verify_policy o active in
  let? _ := verify_plan_identity o p in
  let? _ := verify_attempt o a active in
  let? _ := verify_result o p a in
  let? s := ok_or (deployment_step o p)
              (OtherFailure "canary outcome release pins do not occur in the stored plan") in
  bail_if bool_decide (step_action s = Rollback) && bool_decide (co_rollback o = RollbackNotNeeded)
    with (OtherFailure "explicit rollback plan claims that rollback was not needed") in
  let? _ := (if bool_decide (co_plan_state o = EvidenceSucceeded)
             then verify_deployment o s a deployment linked active else Ok tt) in
  Ok o.

(** ** Evaluation *)

Inductive CohortResult :=
| CohortPassed (outcomes : list CanaryOutcome)
| CohortFailed (outcomes : list CanaryOutcome)
| CohortMissing.

Record PromotionEvaluation := {
  evaluated_digest : string; evaluated_activation : Z; allowed : bool;
  cohort_results : gmap string CohortResult
}.

Definition is_passed (r : CohortResult) : bool :=
  match r with CohortPassed _ => true | _ => false end.

(** [#[derive(Ord)]] of an outcome: its fields in order. *)
Definition gate_rank (g : GateOutcome) : Z :=
  match g with GateSatisfied => 0 | GateSkipped => 1 | GateBlocked => 2 end.
Definition execution_rank (x : ExecutionOutcome) : Z :=
  match x with ExecutionSucceeded => 0 | ExecutionFailed => 1 | ExecutionBlocked => 2 end.
Definition health_rank (h : HealthOutcome) : Z :=
  match h with HealthPassed => 0 | HealthFailedOrUnknown => 1 | HealthNotRun => 2 end.
Definition rollback_rank (r : RollbackOutcome) : Z :=
  match r with RollbackNotNeeded => 0 | RollbackSucceeded => 1 | RollbackFailedOrUnknown => 2 end.
Definition state_rank (s : EvidencePlanState) : Z :=
  match s with EvidenceSucceeded => 0 | EvidenceFailed => 1 | EvidenceBlocked => 2 end.

Definition option_str_cmp (x y : option string) : comparison :=
  match x, y with
  | None, None => Eq
  | None, Some _ => Lt
  | Some _, None => Gt
  | Some a, Some b => String.compare a b
  end.

Definition outcome_cmp : CanaryOutcome → CanaryOutcome → comparison :=
  cmp_lex (cmp_on co_release_id String.compare) (cmp_lex (cmp_on co_release_digest String.compare)
  (cmp_lex (cmp_on co_artifact_digest String.compare) (cmp_lex (cmp_on co_policy_digest String.compare)
  (cmp_lex (cmp_on co_activated_at Z.compare) (cmp_lex (cmp_on co_environment String.compare)
  (cmp_lex (cmp_on co_plan_id String.compare) (cmp_lex (cmp_on co_attempt_id String.compare)
  (cmp_lex (cmp_on co_step_order Z.compare)
  (cmp_lex (cmp_on (λ o, state_rank (co_plan_state o)) Z.compare)
  (cmp_lex (cmp_on co_deployment_id option_str_cmp) (cmp_lex (cmp_on executed_at Z.compare)
  (cmp_lex (cmp_on recorded_at Z.compare) (cmp_lex (cmp_on (λ o, gate_rank (co_gate o)) Z.compare)
  (cmp_lex (cmp_on (λ o, execution_rank (co_execution o)) Z.compare)
  (cmp_lex (cmp_on (λ o, health_rank (co_health o)) Z.compare)
  (cmp_lex (cmp_on (λ o, rollback_rank (co_rollback o)) Z.compare)
     (cmp_on co_detail String.compare))))))))))))))))).

Definition tidy (l : list CanaryOutcome) : list CanaryOutcome := dedup (sort_by outcome_cmp l).

(** The outcomes that speak for [environment] under the active policy. *)
Definition speaks_for (active : ActiveCanaryPolicy) (environment : string) (o : CanaryOutcome) : bool :=
  bool_decide (co_environment o = environment)
  && bool_decide (co_release_id o = policy_release_id (active_rules active))
  && bool_decide (co_policy_digest o = active_digest active)
  && (co_activated_at o =? activated_at active).

Definition cohort_result (active : ActiveCanaryPolicy) (outcomes : list CanaryOutcome)
    (environment : string) : CohortResult :=
  let matching := tidy (List.filter (speaks_for active environment) outcomes) in
  if bool_decide (matching = []) then CohortMissing
  else if forallb (λ o, passes o (active_rules active) (active_digest active)) matching
  then CohortPassed matching else CohortFailed matching.

Definition all_passed (m : gmap string CohortResult) : bool :=
  forallb (λ '(_, r), is_passed r) (btree_iter m).

(** [evaluate]. *)
Definition evaluate (active : ActiveCanaryPolicy) (outcomes : list CanaryOutcome) : PromotionEvaluation :=
  let results := foldl (λ m environment, <[environment := cohort_result active outcomes environment]> m)
                   ∅ (cohort (active_rules active)) in
  {| evaluated_digest := active_digest active; evaluated_activation := activated_at active;
     allowed := match success_policy (active_rules active) with SuccessAll => all_passed results end;
     cohort_results := results |}.

(** The failures of attempts that ended without passing, over an evaluation:
    a failure outside the cohort is left out. *)
Definition add_failures (e : PromotionEvaluation) (entry : string * list CanaryOutcome) : PromotionEvaluation :=
  let '(environment, failures) := entry in
  match cohort_results e !! environment with
  | None => e
  | Some r =>
    let known := match r with CohortPassed l | CohortFailed l => l | CohortMissing => [] end in
    {| evaluated_digest := evaluated_digest e; evaluated_activation := evaluated_activation e;
       allowed := false;
       cohort_results := <[environment := CohortFailed (tidy (known ++ failures))]> (cohort_results e) |}
  end.

(** ** Evidence of an outcome *)

Definition is_gate_blocked (o : Outcome) : option bool :=
  (λ s, bool_decide (s = OutcomeBlocked) && starts_with "gate " (outcome_detail o))
    <$> StepOutcomeStatus_parse (outcome_status o).

(** [evidence_status]. *)
Definition evidence_status (p : Plan) (o : Outcome) (skipped : bool) :
    result (GateOutcome * ExecutionOutcome * HealthOutcome * RollbackOutcome) failure :=
  let? gate := (if skipped then Ok GateSkipped
                else let? blocked := ok_or (is_gate_blocked o) (OtherFailure "unknown outcome status") in
                     Ok (if blocked : bool then GateBlocked else GateSatisfied)) in
  if bool_decide (step_action (outcome_step o) = Rollback) && bool_decide (plan_state p = Succeeded)
  then Ok (gate, ExecutionSucceeded, HealthPassed, RollbackSucceeded)
  else
    let? status := ok_or (StepOutcomeStatus_parse (outcome_status o)) (OtherFailure "unknown outcome status") in
    Ok (match status with
        | OutcomeSucceeded => (gate, ExecutionSucceeded, HealthPassed, RollbackNotNeeded)
        | OutcomeBlocked => (gate, ExecutionBlocked, HealthNotRun, RollbackNotNeeded)
        | OutcomeRolledBack => (gate, ExecutionFailed, HealthFailedOrUnknown, RollbackSucceeded)
        | OutcomeFailed => (gate, ExecutionFailed, HealthFailedOrUnknown, RollbackFailedOrUnknown)
        end).

(** [Iterator::max_by_key] on the time of creation: the last of the newest. *)
Fixpoint newest (l : list Object) : option Object :=
  match l with
  | [] => None
  | o :: l =>
    match newest l with
    | Some best => if created o <=? created best then Some best else Some o
    | None => Some o
    end
  end.

Definition deployment_of_step (s : Step) (d : Object) : bool :=
  bool_decide (properties d !! "step_id" = Some (step_id s))
  || (bool_decide (properties d !! "step_id" = None)
      && bool_decide (properties d !! "product" = Some (step_product s))
      && bool_decide (properties d !! "to_version" = Some (step_to s))).

(** [reconstructed_outcomes]. *)
Fixpoint reconstruct (p : Plan) (deployments : list Object) (l : list Step) : result (list Outcome) failure :=
  match l with
  | [] => Ok []
  | s :: l =>
    match newest (List.filter (deployment_of_step s) deployments) with
    | None => reconstruct p deployments l
    | Some d =>
      let? status := ok_or (StepOutcomeStatus_parse (default "failed" (properties d !! "status")))
                       (OtherFailure "unknown outcome status") in
      let? rest := reconstruct p deployments l in
      Ok (Outcome_new s status (default (status_detail p) (properties d !! "detail")) :: rest)
    end
  end.

Definition reconstructed_outcomes (p : Plan) (deployments : list Object) : result (list Outcome) failure :=
  reconstruct p deployments (steps p).
End Policy.

(** ** What an evaluation says *)

Section Evaluation.
Context {E : PlanEncoding} {J : CanaryJson}.

Lemma elem_of_tidy o l : o ∈ tidy l ↔ o ∈ l.
Proof. unfold tidy. by rewrite elem_of_dedup, elem_of_sort_by. Qed.

Lemma tidy_nil l : tidy l = [] ↔ l = [].
Proof.
  split; [|by intros ->]. intros H. destruct l as [|o l]; [done|].
  assert (o ∈ tidy (o :: l)) as Ho by (apply elem_of_tidy; left). rewrite H in Ho. by apply elem_of_nil in Ho.
Qed.

(** What a cohort environment needs. *)
Definition environment_passes (active : ActiveCanaryPolicy) (outcomes : list CanaryOutcome)
    (environment : string) : Prop :=
  (∃ o, o ∈ outcomes ∧ speaks_for active environment o = true)
  ∧ ∀ o, o ∈ outcomes → speaks_for active environment o = true →
         passes o (active_rules active) (active_digest active) = true.

Lemma cohort_result_passed active outcomes environment :
  is_passed (cohort_result active outcomes environment) = true ↔ environment_passes active outcomes environment.
Proof.
  unfold cohort_result, environment_passes. set (l := List.filter _ _).
  assert (∀ o, o ∈ l ↔ o ∈ outcomes ∧ speaks_for active environment o = true) as Hl.
  { intros o. unfold l. by rewrite !list_elem_of_In, filter_In. }
  case_bool_decide as Hnil.
  - split; [done|]. intros [(o & Ho & Hs) _]. apply (proj1 (tidy_nil _)) in Hnil.
    assert (o ∈ l) as Hin by by apply Hl. rewrite Hnil in Hin. by apply elem_of_nil in Hin.
  - destruct (forallb _ _) eqn:Hall; simpl; split; try done.
    + intros _. split.
      * destruct l as [|o l'] eqn:Heq; [by destruct Hnil|]. exists o. apply Hl. left.
      * intros o Ho Hs. apply (proj1 (forallb_elem _ _) Hall). by apply elem_of_tidy, Hl.
    + intros [_ H]. exfalso. apply Bool.not_true_iff_false in Hall. apply Hall.
      apply forallb_elem. intros o [Ho Hs]%elem_of_tidy%Hl. by apply H.
Qed.

Lemma results_lookup active outcomes l (m : gmap string CohortResult) environment :
  foldl (λ m e, <[e := cohort_result active outcomes e]> m) m l !! environment
  = if decide (environment ∈ l) then Some (cohort_result active outcomes environment) else m !! environment.
Proof.
  revert m. induction l as [|e l IH]; intros m; simpl; [done|]. rewrite IH.
  destruct (decide (environment ∈ l)) as [Hin|Hin], (decide (environment ∈ e :: l)) as [Hin'|Hin']; try done.
  - exfalso. apply Hin'. by right.
  - apply elem_of_cons in Hin' as [->|]; [|done]. by rewrite lookup_insert_eq.
  - rewrite lookup_insert_ne; [done|]. intros ->. apply Hin'. left.
Qed.

Lemma all_passed_iff m : all_passed m = true ↔ ∀ environment r, m !! environment = Some r → is_passed r = true.
Proof.
  unfold all_passed. rewrite forallb_elem. split.
  - intros H environment r Hr. apply (H (environment, r)). by apply elem_of_btree_iter.
  - intros H [environment r] Hr. apply elem_of_btree_iter in Hr. by eapply H.
Qed.

Lemma evaluate_allowed active outcomes :
  allowed (evaluate active outcomes) = true ↔
  ∀ environment, environment ∈ cohort (active_rules active) → environment_passes active outcomes environment.
Proof.
  unfold evaluate. simpl. destruct (success_policy _). rewrite all_passed_iff.
  split.
  - intros H environment Hin. apply cohort_result_passed. apply (H environment).
    rewrite results_lookup. by rewrite decide_True.
  - intros H environment r. rewrite results_lookup. case_decide as Hin; [|done].
    intros [= <-]. by apply cohort_result_passed, H.
Qed.

Lemma evaluate_cohort active outcomes environment :
  is_Some (cohort_results (evaluate active outcomes) !! environment)
  ↔ environment ∈ cohort (active_rules active).
Proof. simpl. rewrite results_lookup. case_decide; [naive_solver|]. rewrite lookup_empty. split; [by intros []|done]. Qed.

(** Failed attempts only take away. *)
Lemma add_failures_allowed e entries :
  allowed (foldl add_failures e entries) = true ↔
  allowed e = true ∧ ∀ environment l, (environment, l) ∈ entries → cohort_results e !! environment = None.
Proof.
  revert e. induction entries as [|[environment l] entries IH]; intros e; simpl.
  { split; [intros ?; split; [done|]; by intros ? ? ?%elem_of_nil|by intros []]. }
  rewrite IH. destruct (cohort_results e !! environment) as [r|] eqn:Hr.
  - unfold add_failures. simpl. split; [by intros []|].
    intros [_ H]. specialize (H environment l ltac:(left)). congruence.
  - split; intros [Ha H]; (split; [done|]).
    + intros x y [[= -> ->]|Hin]%elem_of_cons; [done|by eapply H].
    + intros x y Hin. eapply H. by right.
Qed.

(** ** What a verified outcome rests on *)

(** The attempt, the plan and the deployment of an outcome that passes. *)
Record borne_out (active : ActiveCanaryPolicy) (o : CanaryOutcome) (p : Plan) (a : CanaryAttemptEvidence)
    (d : Object) (s : Step) : Prop := {
  bo_plan : co_plan_id o = plan_id_of p ∧ co_environment o = plan_environment p;
  bo_plan_succeeded : plan_state p = Succeeded ∧ gates_skipped p = Some false;
  bo_step : s ∈ steps p ∧ step_order s = co_step_order o ∧ deploys_candidate o s = true;
  bo_attempt : co_attempt_id o = attempt_id a ∧ co_plan_id o = attempt_plan_id a
               ∧ attempt_gates_skipped a = false;
  bo_times : activated_at active ≤ started_at a ≤ executed_at o ∧ executed_at o ≤ created d ≤ updated d
             ∧ updated d ≤ finished_at a ≤ recorded_at o;
  bo_deployment : object_kind d = KIND_DEPLOYMENT ∧ co_deployment_id o = Some (object_id d)
                  ∧ properties d !! "environment" = Some (co_environment o)
                  ∧ properties d !! "product" = Some (release_product o)
                  ∧ properties d !! "to_version" = Some (step_to s)
                  ∧ properties d !! "status" = Some "succeeded"
}.

Ltac gates :=
  repeat match goal with
  | H : _ || _ = false |- _ => apply orb_false_iff in H as [? ?]
  | H : _ && _ = true |- _ => apply andb_true_iff in H as [? ?]
  | H : negb _ = false |- _ => apply negb_false_iff in H
  | H : bool_decide _ = true |- _ => apply bool_decide_eq_true in H
  | H : bool_decide _ = false |- _ => apply bool_decide_eq_false in H
  end.

Lemma verify_outcome_same o p a d linked active o' :
  verify_outcome o p a d linked active = Ok o' → o' = o.
Proof.
  unfold verify_outcome. destruct (verify_policy _ _); [|done]. simpl.
  destruct (verify_plan_identity _ _); [|done]. simpl. destruct (verify_attempt _ _ _); [|done]. simpl.
  destruct (verify_result _ _ _); [|done]. simpl. destruct (deployment_step _ _) as [s|]; [|done]. simpl.
  intros [_ H]%bail_ok. destruct (if bool_decide _ then _ else _); [|done]. by injection H.
Qed.

Lemma verify_outcome_sound o p a d linked active o' :
  verify_outcome o p a d linked active = Ok o' →
  passes o (active_rules active) (active_digest active) = true →
  o' = o ∧ linked = true ∧ ∃ d' s, d = Some d' ∧ borne_out active o p a d' s.
Proof.
  intros Hv Hp. unfold passes in Hp. gates. unfold verify_outcome in Hv.
  destruct (verify_policy o active) as [[]|] eqn:V1; [|done]. simpl in Hv.
  destruct (verify_plan_identity o p) as [[]|] eqn:V2; [|done]. simpl in Hv.
  destruct (verify_attempt o a active) as [[]|] eqn:V3; [|done]. simpl in Hv.
  destruct (verify_result o p a) as [[]|] eqn:V4; [|done]. simpl in Hv.
  destruct (deployment_step o p) as [s|] eqn:V5; [|done]. simpl in Hv.
  apply bail_ok in Hv as [V6 Hv]. rewrite bool_decide_true in Hv by done.
  destruct (verify_deployment o s a d linked active) as [[]|] eqn:V7; [|done]. injection Hv as <-.
  unfold verify_policy in V1. unfold verify_plan_identity in V2. unfold verify_attempt in V3.
  unfold verify_result in V4. unfold verify_deployment in V7.
  apply bail_ok in V1 as [V1 _]. apply bail_ok in V2 as [V2 _]. apply bail_ok in V3 as [V3 _].
  apply bail_ok in V4 as [V4 _]. destruct linked; [|done]. destruct d as [d|]; [|done]. simpl in V7.
  apply bail_ok in V7 as [V7 _].
  rewrite bool_decide_true in V4 by done. simpl in V4. gates.
  split_and!; [done|done|]. exists d, s. split; [done|].
  unfold deployment_step in V5. destruct (find_first _ (steps p)) as [s'|] eqn:Hs; [|done]. simpl in V5.
  destruct (deploys_candidate o s') eqn:Hdep; [injection V5 as ->|].
  2: { simpl in V5. destruct (rolls_back_candidate o s') eqn:Hroll; [|done]. injection V5 as ->.
       unfold rolls_back_candidate in Hroll. gates. rewrite !bool_decide_true in V6 by done. done. }
  apply find_first_some in Hs as [Hs Ho].
  assert (attempt_gates_skipped a = false) as Hskip.
  { match goal with H : Bool.eqb _ _ = true |- _ => apply Bool.eqb_prop in H; rewrite <- H end.
    by rewrite bool_decide_false by congruence. }
  split; try (split_and!; try done; lia).
  - by rewrite Hskip in *.
Qed.
End Evaluation.
