(* ===== verification/CanaryPromotion.v ===== *)
(** * Canary promotion

    [canary/promotion_lifecycle.rs] and [canary/evaluation.rs]: the locks that
    keep policies, attempts and promotions of a channel apart, the policies,
    the evaluation of the evidence under the active one, and the promotion it
    guards.  The store is an effect; a promotion is what the caller does
    between the checks and the release of the lock. *)

From S2P Require Import Prelude RustStr Kinds Facts Compatibility Contracts Plan ObjectStore Catalog Deployments Effects ProductExecution AuthContext Canary.

(** ** Effects *)

Inductive canary_effect : Type → Type :=
| Now : canary_effect Z
(** [tokio::time::sleep] of fifty milliseconds. *)
| Sleep : canary_effect unit
| RequireCanarySchema : canary_effect (result unit failure)
| GetObject (id : string) : canary_effect (result (option Object) failure)
| PutObject (o : Object) : canary_effect (result unit failure)
| DeleteObject (id : string) : canary_effect (result unit failure)
(** [create_once] and [create_link_once]: [false] is a unique conflict. *)
| CreateOnce (o : Object) : canary_effect (result bool failure)
| CreateLinkOnce (l : Link) : canary_effect (result bool failure)
| LinkObjects (from to relation : string) : canary_effect (result unit failure)
| Unlink (from to relation : string) : canary_effect (result unit failure)
| Links (id relation : string) : canary_effect (result (list Link) failure)
| Linked (id relation : string) (d : Direction) : canary_effect (result (list Object) failure)
| FindByProperty (kind key value : string) : canary_effect (result (list Object) failure)
| LoadPlan (id : string) : canary_effect (result Plan failure)
(** [apply::claim_environment], [release_environment] and
    [environment_lease_status], the owner of a live lease. *)
| ClaimEnvironment (environment owner : string) : canary_effect (result string failure)
| ReleaseEnvironment (environment token : string) : canary_effect (result unit failure)
| EnvironmentLease (environment : string) : canary_effect (result (option string) failure)
(** [Plan.transition] under the standard persistence. *)
| TransitionPlan (p : Plan) (state : PlanState) (detail : string) : canary_effect (result Plan failure)
(** [export_model_runtime_canary_evidence], whose result is ignored. *)
| ExportEvidence (plan release : string) (o : CanaryOutcome) : canary_effect (result unit failure)
(** What the caller of [guarded_promotion] does to the catalog. *)
| Promote : canary_effect (result unit failure).

Notation canary_prog A := (prog canary_effect (result A failure)).

Definition REL_SUBSCRIBES : string := "subscribes".
Definition REL_DEPLOYED_RELEASE : string := "deployed_release".
Definition REL_PART_OF_PLAN : string := "part_of_plan".
Definition REL_GOVERNS_RELEASE : string := "governs_release".
Definition REL_EVIDENCE_FOR_POLICY : string := "evidence_for_policy".
Definition REL_ATTEMPT_FOR_POLICY : string := "attempt_for_policy".
Definition REL_AUDITS_PROMOTION : string := "audits_promotion".
Definition REL_ACTIVE_PROMOTION_LOCK : string := "active_promotion_lock".

(** [tenkai] errors of the caller's context. *)
Definition of_auth (r : result unit AuthError) : result unit failure :=
  match r with
  | Ok tt => Ok tt
  | Err (InvalidCredential t) => Err (OtherFailure ("invalid credential: " +:+ t))
  | Err (Unauthorized t) => Err (OtherFailure ("unauthorized: " +:+ t))
  | Err (Forbidden t) => Err (OtherFailure ("forbidden: " +:+ t))
  | Err (IncompatibleContract _ _) => Err (OtherFailure "incompatible auth contract version")
  end.

Definition require_management (actor : AuthenticatedRequestContext) : result unit failure :=
  of_auth (require_delivery_capability actor ManagementCapability).

Definition require_publish (actor : AuthenticatedRequestContext) : result unit failure :=
  of_auth (require_delivery_capability actor PublishCapability).

(** A result and the release of what it was computed under. *)
Definition and_released {A} (r : result A failure) (unlock : option failure) : result A failure :=
  match r, unlock with
  | Ok a, None => Ok a
  | Err e, _ => Err e
  | Ok _, Some e => Err e
  end.

Definition err_of {A} (r : result A failure) : option failure :=
  match r with Ok _ => None | Err e => Some e end.

(** [object_property]. *)
Definition object_property (o : Object) (key : string) : result string failure :=
  match properties o !! key with
  | Some v => if str_is_empty v then Err (OtherFailure ("object has no " +:+ key)) else Ok v
  | None => Err (OtherFailure ("object has no " +:+ key))
  end.

Notation failures_by_environment := (gmap string (list CanaryOutcome)).

Section Operations.
Context {E : PlanEncoding} {J : CanaryJson}.

(** ** Locks *)

Definition policy_id (product version channel : string) : string :=
  "tenkai:canary-policy:" +:+ product +:+ "@" +:+ version +:+ ":" +:+ channel.

Definition policy_record_id (a : ActiveCanaryPolicy) : string :=
  policy_id (policy_product (active_rules a)) (policy_version (active_rules a))
    (policy_channel (active_rules a)) +:+ ":" +:+ pretty (activated_at a) +:+ ":" +:+ active_digest a.

Definition designation_id (environment : string) : string :=
  "tenkai:canary-designation:" +:+ environment.

Definition POLICY_DISCOVERY_LOCK_CHANNEL : string := "_policy-index".
Definition RELEASED_PROMOTION_LOCK_OWNER : string := "released".

Definition promotion_lock_id (product channel : string) : string :=
  "tenkai:promotion-lock:v2:" +:+ product +:+ ":" +:+ channel.

Definition legacy_promotion_lock_id (product channel : string) : string :=
  "tenkai:promotion-lock:" +:+ product +:+ ":" +:+ channel.

Record PromotionLock := { lock_id : string; lock_owner : string }.

Definition promotion_lock_link (id : string) : Link := {|
  link_id := id +:+ "--" +:+ REL_ACTIVE_PROMOTION_LOCK +:+ "--" +:+ id;
  from_id := id; to_id := id; link_relation := REL_ACTIVE_PROMOTION_LOCK |}.

Definition lock_object (id name owner : string) (made changed : Z) : Object := {|
  object_id := id; object_kind := KIND_PROMOTION_LOCK; object_name := name;
  object_namespace := NS; external_id := ""; properties := {["owner" := owner]};
  created := made; updated := changed |}.

(** [claim_promotion_lock]: the link is the lock, the object says whose. *)
Definition claim_promotion_lock (product channel owner : string) : canary_prog PromotionLock :=
  do? _ := perform RequireCanarySchema in
  do now := perform Now in
  do? legacy := perform (GetObject (legacy_promotion_lock_id product channel)) in
  if is_some_b legacy
  then Ret (Err (OtherFailure "legacy promotion or policy update already in progress"))
  else
    let id := promotion_lock_id product channel in
    let name := product +:+ "/" +:+ channel +:+ " promotion lock" in
    do? found := perform (GetObject id) in
    do? _ := (if is_some_b found then Ret (Ok tt)
              else
                do? _ := perform (CreateOnce (lock_object id name RELEASED_PROMOTION_LOCK_OWNER now now)) in
                Ret (Ok tt)) in
    do? made := perform (CreateLinkOnce (promotion_lock_link id)) in
    if made : bool then
      do changed := perform Now in
      do written := perform (PutObject (lock_object id name owner now changed)) in
      match written with
      | Ok _ => Ret (Ok {| lock_id := id; lock_owner := owner |})
      | Err e => do _ := perform (Unlink id id REL_ACTIVE_PROMOTION_LOCK) in Ret (Err e)
      end
    else Ret (Err (OtherFailure "promotion or policy update already in progress")).

Definition MAX_ATTEMPTS : nat := 100.

(** [claim_promotion_lock_with_retry]: [more] tries are left. *)
Fixpoint claim_with_retry (more : nat) (product channel owner : string) : canary_prog PromotionLock :=
  do claimed := claim_promotion_lock product channel owner in
  match claimed, more with
  | Ok lock, _ => Ret (Ok lock)
  | Err e, S more =>
    if str_contains "already in progress" (failure_text e)
    then do _ := perform Sleep in claim_with_retry more product channel owner
    else Ret (Err e)
  | Err e, O => Ret (Err e)
  end.

Definition claim_promotion_lock_with_retry (product channel owner : string) : canary_prog PromotionLock :=
  claim_with_retry (pred MAX_ATTEMPTS) product channel owner.

(** [confirm_promotion_lock]. *)
Definition confirm_promotion_lock (lock : PromotionLock) : canary_prog unit :=
  do? found := perform (GetObject (lock_id lock)) in
  match found with
  | None => Ret (Err (OtherFailure "promotion lock was lost"))
  | Some o =>
    do? l := perform (Links (lock_id lock) REL_ACTIVE_PROMOTION_LOCK) in
    Ret (bail_if negb (existsb (λ x, bool_decide (to_id x = lock_id lock)) l)
                 || negb (bool_decide (properties o !! "owner" = Some (lock_owner lock)))
           with (OtherFailure "promotion lock is no longer owned by this operation") in
         Ok tt)
  end.

Definition with_owner (o : Object) (owner : string) (now : Z) : Object := {|
  object_id := object_id o; object_kind := object_kind o; object_name := object_name o;
  object_namespace := object_namespace o; external_id := external_id o;
  properties := <["owner" := owner]> (properties o); created := created o; updated := now |}.

(** [unlock_promotion]: an operator's decision. *)
Definition unlock_promotion (actor : AuthenticatedRequestContext) (product channel : string) :
    canary_prog string :=
  do? _ := Ret (require_management actor) in
  if negb (valid_identifier product) then Ret (Err (OtherFailure "product"))
  else if negb (bool_decide (channel = POLICY_DISCOVERY_LOCK_CHANNEL)) && negb (valid_identifier channel)
  then Ret (Err (OtherFailure "channel"))
  else
    let id := promotion_lock_id product channel in
    do? l := perform (Links id REL_ACTIVE_PROMOTION_LOCK) in
    if negb (existsb (λ x, bool_decide (link_id x = link_id (promotion_lock_link id))) l) then
      do? legacy := perform (GetObject (legacy_promotion_lock_id product channel)) in
      if is_some_b legacy then
        do? _ := perform (DeleteObject (legacy_promotion_lock_id product channel)) in
        Ret (Ok ("legacy promotion lock removed for " +:+ product +:+ "/" +:+ channel))
      else Ret (Ok ("no promotion lock exists for " +:+ product +:+ "/" +:+ channel))
    else
      do? found := perform (GetObject id) in
      do? _ := (match found with
                | Some o =>
                  do now := perform Now in
                  perform (PutObject (with_owner o RELEASED_PROMOTION_LOCK_OWNER now))
                | None => Ret (Ok tt)
                end) in
      do? _ := perform (Unlink id id REL_ACTIVE_PROMOTION_LOCK) in
      Ret (Ok ("promotion lock removed for " +:+ product +:+ "/" +:+ channel)).

(** [release_promotion_lock]: only of the owner's own lock. *)
Definition release_promotion_lock (lock : PromotionLock) : canary_prog unit :=
  do? found := perform (GetObject (lock_id lock)) in
  match found with
  | Some o =>
    if bool_decide (properties o !! "owner" = Some (lock_owner lock)) then
      do now := perform Now in
      do? _ := perform (PutObject (with_owner o RELEASED_PROMOTION_LOCK_OWNER now)) in
      do? _ := perform (Unlink (lock_id lock) (lock_id lock) REL_ACTIVE_PROMOTION_LOCK) in
      Ret (Ok tt)
    else Ret (Ok tt)
  | None => Ret (Ok tt)
  end.

(** Every lock is given back, the last first; the first failure is kept. *)
Fixpoint release_locks (locks : list PromotionLock) : prog canary_effect (option failure) :=
  match locks with
  | [] => Ret None
  | lock :: locks =>
    do r := release_promotion_lock lock in
    do rest := release_locks locks in
    Ret (match r with Err e => Some e | Ok _ => rest end)
  end.

(** [release_policy_locks]. *)
Definition release_policy_locks (locks : list PromotionLock) : canary_prog unit :=
  do failed := release_locks (rev locks) in
  Ret (match failed with Some e => Err e | None => Ok tt end).

(** A [BTreeSet] of pairs: sorted, without repetitions. *)
Definition pair_cmp : string * string → string * string → comparison :=
  cmp_lex (cmp_on fst String.compare) (cmp_on snd String.compare).

Definition lock_keys (policies : list ActiveCanaryPolicy) : list (string * string) :=
  dedup (sort_by pair_cmp
    ((λ a, (policy_product (active_rules a), policy_channel (active_rules a))) <$> policies)).

Fixpoint claim_locks (held : list PromotionLock) (keys : list (string * string)) (owner : string) :
    canary_prog (list PromotionLock) :=
  match keys with
  | [] => Ret (Ok held)
  | (product, channel) :: keys =>
    do claimed := claim_promotion_lock_with_retry product channel owner in
    match claimed with
    | Ok lock => claim_locks (held ++ [lock]) keys owner
    | Err e => do _ := release_locks (rev held) in Ret (Err e)
    end
  end.

(** [claim_policy_locks]. *)
Definition claim_policy_locks (policies : list ActiveCanaryPolicy) (owner : string) :
    canary_prog (list PromotionLock) :=
  claim_locks [] (lock_keys policies) owner.

(** ** Policies of the store *)

(** [active_from_object]. *)
Definition active_from_object (o : Object) : result ActiveCanaryPolicy failure :=
  bail_if negb (bool_decide (object_kind o = KIND_CANARY_POLICY))
    with (OtherFailure "object is not a canary policy") in
  let? flag := object_property o "active" in
  bail_if negb (bool_decide (flag = "true")) with (OtherFailure "canary policy object is not active") in
  let? raw := object_property o "policy" in
  let? p := ok_or (policy_of_json raw) (OtherFailure "canary policy object has invalid JSON") in
  let? active := activate_policy p (updated o) in
  bail_if negb (bool_decide (object_id o = policy_record_id active))
    with (OtherFailure "canary policy object has inconsistent identity") in
  let? digest := object_property o "policy_digest" in
  bail_if negb (bool_decide (digest = active_digest active))
    with (OtherFailure "canary policy object has inconsistent identity") in
  let? release := object_property o "release_id" in
  bail_if negb (bool_decide (release = policy_release_id (active_rules active)))
    with (OtherFailure "canary policy object has inconsistent identity") in
  Ok active.

(** The checks of a pointer against the policy it names. *)
Definition pointer_agrees (pointer : Object) (active : ActiveCanaryPolicy) : result unit failure :=
  let p := active_rules active in
  bail_if negb (bool_decide (object_id pointer
                  = policy_id (policy_product p) (policy_version p) (policy_channel p)))
    with (OtherFailure "canary policy pointer has inconsistent identity") in
  let? release := object_property pointer "release_id" in
  bail_if negb (bool_decide (release = policy_release_id p))
    with (OtherFailure "canary policy pointer has inconsistent identity") in
  let? channel := object_property pointer "target_channel" in
  bail_if negb (bool_decide (channel = policy_channel p))
    with (OtherFailure "canary policy pointer has inconsistent identity") in
  let? digest := object_property pointer "policy_digest" in
  bail_if negb (bool_decide (digest = active_digest active))
    with (OtherFailure "canary policy pointer has inconsistent identity") in
  Ok tt.

(** [active_from_pointer]. *)
Definition active_from_pointer (pointer : Object) : canary_prog ActiveCanaryPolicy :=
  if negb (bool_decide (object_kind pointer = KIND_CANARY_POLICY_POINTER))
  then Ret (Err (OtherFailure "object is not a canary policy pointer"))
  else
    do? id := Ret (object_property pointer "policy_id") in
    do? found := perform (GetObject id) in
    Ret (let? o := ok_or found (OtherFailure "active canary policy is missing") in
         let? active := active_from_object o in
         let? _ := pointer_agrees pointer active in
         Ok active).

(** [active_policy], [policies_for_release] and [maybe_active_policy]. *)
Definition active_policy (product version channel : string) : canary_prog ActiveCanaryPolicy :=
  do? found := perform (GetObject (policy_id product version channel)) in
  match found with
  | None => Ret (Err (OtherFailure "no canary policy configured"))
  | Some pointer => active_from_pointer pointer
  end.

Definition policies_for_release (release : string) : canary_prog (list ActiveCanaryPolicy) :=
  do? pointers := perform (FindByProperty KIND_CANARY_POLICY_POINTER "release_id" release) in
  each (λ acc pointer,
    do? active := active_from_pointer pointer in Ret (Ok (acc ++ [active], false))) [] pointers.

Definition maybe_active_policy (product version channel : string) :
    canary_prog (option ActiveCanaryPolicy) :=
  do? found := perform (GetObject (policy_id product version channel)) in
  match found with
  | None => Ret (Ok None)
  | Some pointer => do? active := active_from_pointer pointer in Ret (Ok (Some active))
  end.

(** [confirm_policy_active]. *)
Definition confirm_policy_active (expected : ActiveCanaryPolicy) : canary_prog unit :=
  let p := active_rules expected in
  do? current := active_policy (policy_product p) (policy_version p) (policy_channel p) in
  Ret (bail_if negb (bool_decide (current = expected))
         with (OtherFailure "canary policy changed after promotion authorization") in
       Ok tt).

(** [set_designated], under the environment's lease. *)
Definition set_designated (actor : AuthenticatedRequestContext) (environment : string) (designated : bool) :
    canary_prog string :=
  do? _ := Ret (require_management actor) in
  do? _ := perform RequireCanarySchema in
  if negb (valid_identifier environment) then Ret (Err (OtherFailure "environment"))
  else
    do now := perform Now in
    do? token := perform (ClaimEnvironment environment
      ("canary-designation:" +:+ principal_id (principal actor) +:+ ":" +:+ pretty now)) in
    do res := (
      do? found := perform (GetObject (env_id environment)) in
      match found with
      | None => Ret (Err (OtherFailure "environment is not registered"))
      | Some o =>
        if negb (bool_decide (object_kind o = KIND_ENVIRONMENT))
        then Ret (Err (OtherFailure "object is not an environment"))
        else
          do? _ := (if designated then
              do now := perform Now in
              perform (PutObject {|
                object_id := designation_id environment; object_kind := KIND_CANARY_DESIGNATION;
                object_name := environment +:+ " canary designation"; object_namespace := NS;
                external_id := ""; properties := {["environment" := environment]};
                created := now; updated := now |})
            else
              do? there := perform (GetObject (designation_id environment)) in
              if is_some_b there then perform (DeleteObject (designation_id environment))
              else Ret (Ok tt)) in
          Ret (Ok ("environment " +:+ environment +:+ " "
                   +:+ (if designated then "designated" else "removed") +:+ " as canary"))
      end) in
    do unlock := perform (ReleaseEnvironment environment token) in
    Ret (and_released res (err_of unlock)).

(** [is_designated]. *)
Definition is_designated (environment product : string) : canary_prog bool :=
  do? found := perform (GetObject (env_id environment)) in
  match found with
  | None => Ret (Err (OtherFailure "environment is not registered"))
  | Some o =>
    do? designation := perform (GetObject (designation_id environment)) in
    match designation with
    | Some d =>
      Ret (bail_if negb (bool_decide (object_kind d = KIND_CANARY_DESIGNATION))
                   || negb (bool_decide (properties d !! "environment" = Some environment))
             with (OtherFailure "canary designation is inconsistent") in
           Ok true)
    | None =>
      do? channels := perform (Linked (object_id o) REL_SUBSCRIBES Outward) in
      Ret (Ok (existsb (λ c, bool_decide (properties c !! "product" = Some product)
                             && bool_decide (properties c !! "channel" = Some "canary")) channels))
    end
  end.

(** *** Configuring a policy *)

(** The policy of [spec], before it is activated. *)
Definition policy_of (release : Object) (product version channel : string) (members : list string) :
    result CanaryPolicy failure :=
  let? digest := object_property release "digest" in
  let? artifact := object_property release "artifact_digest" in
  canonicalized {|
    policy_release_id := release_id product version; policy_release_digest := digest;
    policy_artifact_digest := artifact; policy_product := product; policy_version := version;
    policy_channel := channel; cohort := members; success_policy := SuccessAll |}.

Definition policy_object (spec : string) (active : ActiveCanaryPolicy) : Object := {|
  object_id := policy_record_id active; object_kind := KIND_CANARY_POLICY;
  object_name := spec +:+ " promotion to " +:+ policy_channel (active_rules active);
  object_namespace := NS; external_id := "";
  properties := list_to_map [
    ("release_id", policy_release_id (active_rules active));
    ("release_digest", policy_release_digest (active_rules active));
    ("artifact_digest", policy_artifact_digest (active_rules active));
    ("target_channel", policy_channel (active_rules active));
    ("policy_digest", active_digest active); ("active", "true");
    ("policy", policy_json (active_rules active))];
  created := activated_at active; updated := activated_at active |}.

Definition pointer_object (spec : string) (active : ActiveCanaryPolicy) (made : Z) : Object := {|
  object_id := policy_id (policy_product (active_rules active)) (policy_version (active_rules active))
                 (policy_channel (active_rules active));
  object_kind := KIND_CANARY_POLICY_POINTER;
  object_name := "active " +:+ spec +:+ " promotion to " +:+ policy_channel (active_rules active);
  object_namespace := NS; external_id := "";
  properties := list_to_map [
    ("release_id", policy_release_id (active_rules active));
    ("target_channel", policy_channel (active_rules active));
    ("policy_id", policy_record_id active); ("policy_digest", active_digest active)];
  created := made; updated := activated_at active |}.

(** The record, then the pointer that makes it the active one, the lock
    confirmed before each. *)
Definition store_policy (spec : string) (active : ActiveCanaryPolicy) (made : Z) (lock : PromotionLock) :
    canary_prog ActiveCanaryPolicy :=
  do? _ := confirm_promotion_lock lock in
  do? created := perform (CreateOnce (policy_object spec active)) in
  if negb created then Ret (Err (OtherFailure "unique conflict"))
  else
    do? _ := perform (LinkObjects (policy_record_id active) (policy_release_id (active_rules active))
                        REL_GOVERNS_RELEASE) in
    do? _ := confirm_promotion_lock lock in
    do? _ := perform (PutObject (pointer_object spec active made)) in
    Ret (Ok active).

(** [configure_locked]. *)
Definition configure_locked (spec channel : string) (members : list string) (reactivate : bool)
    (lock : PromotionLock) : canary_prog ActiveCanaryPolicy :=
  match split_once "@" spec with
  | None => Ret (Err (OtherFailure "expected <product>@<version>"))
  | Some (product, version) =>
    if negb (valid_identifier product) then Ret (Err (OtherFailure "product"))
    else if negb (valid_identifier version) then Ret (Err (OtherFailure "version"))
    else if negb (valid_identifier channel) then Ret (Err (OtherFailure "channel"))
    else
      do? found := perform (GetObject (release_id product version)) in
      match found with
      | None => Ret (Err (OtherFailure "release is not published"))
      | Some release =>
        do? _ := each (λ _ environment,
          do? ok := is_designated environment product in
          Ret (if ok : bool then Ok (tt, false)
               else Err (OtherFailure "environment is not designated as a canary"))) tt members in
        do? p := Ret (policy_of release product version channel members) in
        do? existing := perform (GetObject (policy_id product version channel)) in
        do? unchanged := (match existing with
                          | Some pointer =>
                            do? current := active_from_pointer pointer in
                            Ret (Ok (if bool_decide (active_rules current = p) && negb reactivate
                                     then Some current else None))
                          | None => Ret (Ok None)
                          end) in
        match unchanged with
        | Some current => Ret (Ok current)
        | None =>
          do now := perform Now in
          let at_ms := match existing with
                       | Some pointer => Z.max now (i64_saturating_add (updated pointer) 1)
                       | None => now
                       end in
          do? active := Ret (activate_policy p at_ms) in
          store_policy spec active
            (match existing with Some pointer => created pointer | None => at_ms end) lock
        end
      end
  end.

(** [configure]: the index of the product's policies is locked before the
    channel. *)
Definition configure (actor : AuthenticatedRequestContext) (spec channel : string)
    (members : list string) (reactivate : bool) : canary_prog ActiveCanaryPolicy :=
  do? _ := Ret (require_management actor) in
  let product := match split_once "@" spec with Some (product, _) => product | None => spec end in
  if negb (valid_identifier product) then Ret (Err (OtherFailure "product"))
  else if negb (valid_identifier channel) then Ret (Err (OtherFailure "channel"))
  else
    do now := perform Now in
    let owner := "policy:" +:+ principal_id (principal actor) +:+ ":" +:+ spec +:+ ":" +:+ pretty now in
    do? discovery := claim_promotion_lock product POLICY_DISCOVERY_LOCK_CHANNEL owner in
    do claimed := claim_promotion_lock product channel owner in
    match claimed with
    | Err e => do _ := release_promotion_lock discovery in Ret (Err e)
    | Ok target =>
      do res := configure_locked spec channel members reactivate target in
      do unlocked := release_locks [target; discovery] in
      Ret (and_released res unlocked)
    end.

(** ** Evaluating the evidence *)

(** [serde_json] of an evaluation. *)
Class EvaluationJson := { evaluation_json : PromotionEvaluation → string }.

(** A [HashMap] of the attempts is walked in some order. *)
Class AttemptOrder := {
  attempt_iter : gmap string Object → list (string * Object);
  attempt_iter_perm m : attempt_iter m ≡ₚ map_to_list m
}.

Definition parse_bool (s : string) : option bool :=
  if bool_decide (s = "true") then Some true
  else if bool_decide (s = "false") then Some false else None.

Definition bool_property (o : Object) (key : string) : result bool failure :=
  let? raw := object_property o key in ok_or (parse_bool raw) (OtherFailure ("invalid " +:+ key)).

Definition i64_property (o : Object) (key : string) : result Z failure :=
  let? raw := object_property o key in ok_or (parse_i64 raw) (OtherFailure ("invalid " +:+ key)).

(** An attempt of the policy that is settled. *)
Definition settled_attempt (m : gmap string Object) (attempt : Object) : result (gmap string Object) failure :=
  bail_if negb (bool_decide (object_kind attempt = KIND_CANARY_ATTEMPT))
    with (OtherFailure "canary policy links to something that is not an attempt") in
  let? status := object_property attempt "status" in
  bail_if bool_decide (status = "ready") || bool_decide (status = "pending")
    with (OtherFailure "finish or repair the canary attempt before promotion") in
  Ok (<[object_id attempt := attempt]> m).

(** [load_plan_cached] and [load_attempt_cached]. *)
Definition load_plan_cached (cache : gmap string Plan) (id : string) :
    canary_prog (Plan * gmap string Plan) :=
  match cache !! id with
  | Some p => Ret (Ok (p, cache))
  | None => do? p := perform (LoadPlan id) in Ret (Ok (p, <[id := p]> cache))
  end.

Definition load_attempt_cached (cache : gmap string Object) (id : string) :
    canary_prog (Object * gmap string Object) :=
  match cache !! id with
  | Some a => Ret (Ok (a, cache))
  | None =>
    do? found := perform (GetObject id) in
    match found with
    | Some a => Ret (Ok (a, <[id := a]> cache))
    | None => Ret (Err (OtherFailure "canary attempt not found"))
    end
  end.

(** The outcome a failed or blocked attempt stands for. *)
Definition failure_outcome (active : ActiveCanaryPolicy) (attempt : Object) (p : Plan) (s : Step)
    (state : EvidencePlanState) (skipped : bool) : CanaryOutcome := {|
  co_release_id := policy_release_id (active_rules active);
  co_release_digest := policy_release_digest (active_rules active);
  co_artifact_digest := policy_artifact_digest (active_rules active);
  co_policy_digest := active_digest active; co_activated_at := activated_at active;
  co_environment := plan_environment p; co_plan_id := plan_id_of p;
  co_attempt_id := object_id attempt; co_step_order := step_order s; co_plan_state := state;
  co_deployment_id := None; executed_at := created attempt;
  recorded_at := Z.max (updated attempt) (created attempt);
  co_gate := if skipped then GateSkipped else GateSatisfied;
  co_execution := match state with EvidenceBlocked => ExecutionBlocked | _ => ExecutionFailed end;
  co_health := HealthFailedOrUnknown; co_rollback := RollbackFailedOrUnknown;
  co_detail := match properties attempt !! "status_detail" with
               | Some d => if str_is_empty d then "canary apply did not complete successfully" else d
               | None => "canary apply did not complete successfully"
               end |}.

Definition push_failure (m : failures_by_environment) (o : CanaryOutcome) : failures_by_environment :=
  push_entry m (co_environment o) o.

Definition terminal_state (s : string) : option EvidencePlanState :=
  if bool_decide (s = "failed") then Some EvidenceFailed
  else if bool_decide (s = "blocked") then Some EvidenceBlocked else None.

(** One settled attempt: a failed or blocked one counts against its
    environment. *)
Definition terminal_failure (active : ActiveCanaryPolicy)
    (acc : failures_by_environment * gmap string Plan) (attempt : Object) :
    canary_prog (failures_by_environment * gmap string Plan * bool) :=
  do? status := Ret (object_property attempt "status") in
  if negb (bool_decide (status = "complete")) then Ret (Ok (acc, false))
  else
    do? state := Ret (object_property attempt "plan_state") in
    if bool_decide (state = "succeeded") then Ret (Ok (acc, false))
    else
      do? state := Ret (ok_or (terminal_state state)
                          (OtherFailure "canary attempt has invalid terminal state")) in
      do? id := Ret (object_property attempt "plan_id") in
      do? loaded := load_plan_cached acc.2 id in
      let '(p, plans) := loaded in
      do? s := Ret (ok_or (find_first (λ s, bool_decide
                        (evidence_release s = Some (policy_release_id (active_rules active)))) (steps p))
                      (OtherFailure "canary attempt has no step for the release")) in
      do? skipped := Ret (bool_property attempt "gates_skipped") in
      Ret (Ok ((push_failure acc.1 (failure_outcome active attempt p s state skipped), plans), false)).

(** The attempt a stored outcome names, checked against it. *)
Definition outcome_attempt (o : CanaryOutcome) (attempt : Object) : result CanaryAttemptEvidence failure :=
  let inconsistent := OtherFailure "canary outcome references inconsistent attempt" in
  bail_if negb (bool_decide (object_kind attempt = KIND_CANARY_ATTEMPT)) with inconsistent in
  let? status := object_property attempt "status" in
  bail_if negb (bool_decide (status = "complete")) with inconsistent in
  let? plan := object_property attempt "plan_id" in
  bail_if negb (bool_decide (plan = co_plan_id o)) with inconsistent in
  let? state := object_property attempt "plan_state" in
  bail_if negb (bool_decide (state = EvidencePlanState_str (co_plan_state o))) with inconsistent in
  let? skipped := bool_property attempt "gates_skipped" in
  bail_if negb (Bool.eqb skipped (bool_decide (co_gate o = GateSkipped)))
    with (OtherFailure "canary outcome gate state does not match attempt") in
  let? started := i64_property attempt "execution_started_at" in
  let? finished := i64_property attempt "finished_at" in
  Ok {| attempt_id := object_id attempt; attempt_plan_id := plan; attempt_plan_state := co_plan_state o;
        attempt_gates_skipped := skipped; started_at := started; finished_at := finished |}.

Record evidence_state := {
  verified : list CanaryOutcome; known_attempts : gmap string Object; known_plans : gmap string Plan
}.

(** One stored outcome: of another activation it is skipped, else it must
    verify. *)
Definition verify_stored (active : ActiveCanaryPolicy) (st : evidence_state) (object : Object) :
    canary_prog (evidence_state * bool) :=
  do? raw := Ret (object_property object "outcome") in
  do? o := Ret (ok_or (outcome_of_json raw) (OtherFailure "invalid outcome")) in
  if negb (co_activated_at o =? activated_at active) then Ret (Ok (st, false))
  else
    do? raw_order := Ret (object_property object "step_order") in
    do? order := Ret (ok_or (parse_u32 raw_order) (OtherFailure "canary outcome has invalid step order")) in
    if negb (order =? co_step_order o)
    then Ret (Err (OtherFailure "canary outcome step index does not match its evidence"))
    else
      do? loaded := load_attempt_cached (known_attempts st) (co_attempt_id o) in
      let '(attempt, attempts) := loaded in
      do? evidence := Ret (outcome_attempt o attempt) in
      do? found := load_plan_cached (known_plans st) (co_plan_id o) in
      let '(p, plans) := found in
      do? deployment := (match co_deployment_id o with
                         | Some id => perform (GetObject id)
                         | None => Ret (Ok None)
                         end) in
      do? linked := (match deployment with
                     | Some d =>
                       do? l := perform (Links (object_id d) REL_PART_OF_PLAN) in
                       Ret (Ok (existsb (λ x, bool_decide (to_id x = plan_id_of p)) l))
                     | None => Ret (Ok false)
                     end) in
      do? o := Ret (verify_outcome o p evidence deployment linked active) in
      Ret (Ok ({| verified := verified st ++ [o]; known_attempts := attempts; known_plans := plans |}, false)).

(** [evaluate_active]. *)
Definition evaluate_active {AO : AttemptOrder} (active : ActiveCanaryPolicy) : canary_prog PromotionEvaluation :=
  do? linked := perform (Linked (policy_record_id active) REL_ATTEMPT_FOR_POLICY Inward) in
  do? attempts := Ret (try_fold settled_attempt ∅ linked) in
  do? failed := each (terminal_failure active) (∅, ∅) ((attempt_iter attempts).*2) in
  let '(failures, plans) := failed in
  do? objects := perform (FindByProperty KIND_CANARY_OUTCOME "policy_digest" (active_digest active)) in
  do? st := each (verify_stored active)
              {| verified := []; known_attempts := attempts; known_plans := plans |} objects in
  Ret (Ok (foldl add_failures (evaluate active (verified st)) (btree_iter failures))).

(** ** Promotion *)

Definition AUDIT_SEQUENCES : nat := 1024.

(** [record_promotion_audit]: the first free sequence number. *)
Fixpoint audit_from (free : nat) (sequence : Z) (actor : AuthenticatedRequestContext)
    (active : ActiveCanaryPolicy) (text : string) (allows : bool) (activation at_ms : Z) : canary_prog unit :=
  match free with
  | O => Ret (Err (OtherFailure "could not allocate promotion audit"))
  | S free =>
    let p := active_rules active in
    let id := policy_release_id p +:+ ":promotion-audit:" +:+ policy_channel p +:+ ":"
              +:+ pretty at_ms +:+ ":" +:+ pretty sequence in
    do? made := perform (CreateOnce {|
      object_id := id; object_kind := KIND_PROMOTION_AUDIT;
      object_name := policy_release_id p +:+ " promotion to " +:+ policy_channel p;
      object_namespace := NS; external_id := "";
      properties := list_to_map [
        ("release_id", policy_release_id p); ("target_channel", policy_channel p);
        ("policy_digest", active_digest active); ("policy_activated_at", pretty activation);
        ("allowed", if allows then "true" else "false"); ("evaluated_at", pretty at_ms);
        ("evaluation", text); ("principal_id", principal_id (principal actor));
        ("principal_kind", match principal_kind (principal actor) with
                           | Human => "human" | Service => "service"
                           | RuntimePrincipal => "runtime" | ManagementPrincipal => "management"
                           end)];
      created := at_ms; updated := at_ms |}) in
    if made : bool then
      do? _ := perform (LinkObjects id (policy_release_id p) REL_AUDITS_PROMOTION) in
      do? _ := perform (LinkObjects id (policy_record_id active) REL_EVIDENCE_FOR_POLICY) in
      Ret (Ok tt)
    else audit_from free (sequence + 1) actor active text allows activation at_ms
  end.

Definition record_promotion_audit {EJ : EvaluationJson}
    (actor : AuthenticatedRequestContext) (active : ActiveCanaryPolicy) (e : PromotionEvaluation) :
    canary_prog unit :=
  do now := perform Now in
  audit_from AUDIT_SEQUENCES 0 actor active (evaluation_json e) (allowed e) (evaluated_activation e) now.

(** [authorize_promotion]: [None] is a release without a policy. *)
Definition authorize_promotion {AO : AttemptOrder} {EJ : EvaluationJson}
    (actor : AuthenticatedRequestContext) (product version channel : string) :
    canary_prog (option ActiveCanaryPolicy) :=
  do? _ := Ret (require_publish actor) in
  do? found := maybe_active_policy product version channel in
  match found with
  | None => Ret (Ok None)
  | Some active =>
    do? e := evaluate_active active in
    do? _ := record_promotion_audit actor active e in
    Ret (bail_if negb (allowed e) with (OtherFailure "canary promotion blocked") in Ok (Some active))
  end.

(** [guarded_promotion]. *)
Definition guarded_promotion {AO : AttemptOrder} {EJ : EvaluationJson}
    (actor : AuthenticatedRequestContext) (product version channel owner : string) : canary_prog unit :=
  do? _ := Ret (require_publish actor) in
  do? lock := claim_promotion_lock product channel owner in
  do res := (
    do? authorization := authorize_promotion actor product version channel in
    do? _ := (match authorization with
              | Some expected => confirm_policy_active expected
              | None => Ret (Ok tt)
              end) in
    do? _ := confirm_promotion_lock lock in
    perform Promote) in
  do unlock := release_promotion_lock lock in
  Ret (and_released res (err_of unlock)).
End Operations.

(** ** What a promotion learns *)

Inductive canary_fact :=
| LinkMade (l : Link)
| LinkGone (from : string)
| Got (id : string) (o : option Object)
| LinksAre (id relation : string) (l : list Link)
| LinkedAre (id relation : string) (d : Direction) (l : list Object)
| FoundAre (kind key value : string) (l : list Object)
| PlanIs (id : string) (p : Plan)
| Made (o : Object).

Definition canary_learnt (X : Type) (e : canary_effect X) : X → list canary_fact :=
  match e in canary_effect X return X → list canary_fact with
  | GetObject id => λ r, match r with Ok o => [Got id o] | Err _ => [] end
  | CreateOnce o => λ r, match r with Ok true => [Made o] | _ => [] end
  | CreateLinkOnce l => λ r, match r with Ok true => [LinkMade l] | _ => [] end
  | Unlink from _ _ => λ _, [LinkGone from]
  | Links id relation => λ r, match r with Ok l => [LinksAre id relation l] | Err _ => [] end
  | Linked id relation d => λ r, match r with Ok l => [LinkedAre id relation d l] | Err _ => [] end
  | FindByProperty kind key value => λ r, match r with Ok l => [FoundAre kind key value l] | Err _ => [] end
  | LoadPlan id => λ r, match r with Ok p => [PlanIs id p] | Err _ => [] end
  | _ => λ _, []
  end.

Definition kept (f : canary_fact) : bool := match f with LinkGone _ => false | _ => true end.

Section Promotion.
Context {E : PlanEncoding} {J : CanaryJson} {AO : AttemptOrder} {EJ : EvaluationJson}.

(** A policy was read through its pointer. *)
Definition policy_read (w : list canary_fact) (id : string) (active : ActiveCanaryPolicy) : Prop :=
  ∃ pointer record o,
    Got id (Some pointer) ∈ w ∧ object_property pointer "policy_id" = Ok record
    ∧ Got record (Some o) ∈ w ∧ active_from_object o = Ok active
    ∧ pointer_agrees pointer active = Ok tt.

Definition stored_outcome (objects : list Object) (o : CanaryOutcome) : Prop :=
  ∃ x raw, x ∈ objects ∧ object_property x "outcome" = Ok raw ∧ outcome_of_json raw = Some o.

(** The attempt was read by its id, or with the attempts of the policy. *)
Definition attempt_known (w : list canary_fact) (attempts : list Object) (id : string) (a : Object) : Prop :=
  Got id (Some a) ∈ w ∨ (a ∈ attempts ∧ object_id a = id).

(** The records an outcome rests on were read and bear it out. *)
Definition rests_on_records (w : list canary_fact) (active : ActiveCanaryPolicy) (attempts : list Object)
    (o : CanaryOutcome) : Prop :=
  ∃ a evidence p d s id l,
    attempt_known w attempts (co_attempt_id o) a ∧ outcome_attempt o a = Ok evidence
    ∧ PlanIs (co_plan_id o) p ∈ w
    ∧ co_deployment_id o = Some id ∧ Got id (Some d) ∈ w
    ∧ LinksAre (object_id d) REL_PART_OF_PLAN l ∈ w ∧ (∃ x, x ∈ l ∧ to_id x = plan_id_of p)
    ∧ borne_out active o p evidence d s.

(** Every environment of the cohort has an outcome under this activation, all
    of its outcomes pass and rest on records, no attempt is unfinished and
    none failed in the cohort. *)
Definition canaries_passed (w : list canary_fact) (active : ActiveCanaryPolicy) : Prop :=
  ∃ attempts objects,
    LinkedAre (policy_record_id active) REL_ATTEMPT_FOR_POLICY Inward attempts ∈ w
    ∧ FoundAre KIND_CANARY_OUTCOME "policy_digest" (active_digest active) objects ∈ w
    ∧ (∀ a, a ∈ attempts → object_kind a = KIND_CANARY_ATTEMPT
         ∧ ∃ status, object_property a "status" = Ok status ∧ status ≠ "ready" ∧ status ≠ "pending")
    ∧ (NoDup (object_id <$> attempts) → ∀ a, a ∈ attempts → object_property a "status" = Ok "complete" →
         object_property a "plan_state" = Ok "succeeded"
         ∨ ∃ id p, object_property a "plan_id" = Ok id ∧ PlanIs id p ∈ w
                   ∧ plan_environment p ∉ cohort (active_rules active))
    ∧ ∀ environment, environment ∈ cohort (active_rules active) →
        (∃ o, stored_outcome objects o ∧ speaks_for active environment o = true)
        ∧ ∀ o, stored_outcome objects o → speaks_for active environment o = true →
               passes o (active_rules active) (active_digest active) = true
               ∧ rests_on_records w active attempts o.

Context (actor : AuthenticatedRequestContext) (product version channel owner : string).

Notation lock := (promotion_lock_id product channel).

(** The channel's lock was taken, is not given back, and was confirmed. *)
Definition lock_confirmed (w : list canary_fact) : Prop :=
  LinkMade (promotion_lock_link lock) ∈ w ∧ LinkGone lock ∉ w
  ∧ ∃ o l, Got lock (Some o) ∈ w ∧ properties o !! "owner" = Some owner
           ∧ LinksAre lock REL_ACTIVE_PROMOTION_LOCK l ∈ w ∧ ∃ x, x ∈ l ∧ to_id x = lock.

(** No policy, or one under which the canaries passed, read again after its
    evidence. *)
Definition policy_satisfied (w : list canary_fact) : Prop :=
  Got (policy_id product version channel) None ∈ w
  ∨ ∃ active w1 w2, w = w2 ++ w1
      ∧ policy_read w1 (policy_id product version channel) active ∧ canaries_passed w1 active
      ∧ policy_read w2 (policy_id (policy_product (active_rules active))
                          (policy_version (active_rules active)) (policy_channel (active_rules active))) active.

Definition may_promote (w : list canary_fact) : Prop :=
  has_delivery_capability actor PublishCapability = true ∧ lock_confirmed w ∧ policy_satisfied w.

Definition promotion_allowed (X : Type) (e : canary_effect X) (w : list canary_fact) : Prop :=
  match e with Promote => may_promote w | _ => True end.

(** Everything but the promotion itself. *)
Definition no_promotion (X : Type) (e : canary_effect X) (w : list canary_fact) : Prop :=
  match e with Promote => False | _ => True end.

Notation finds := (reads canary_learnt no_promotion kept).

Ltac finding := first [done | intros [?|?]; simpl; repeat case_match; done].
Ltac found := apply reads_perform; [finding|finding|].
(** A pure step of a program. *)
Ltac computed x :=
  lazymatch goal with |- reads _ _ _ _ _ ?w =>
    eapply reads_try with (Q := λ r w', x = Ok r ∧ w' = w); [apply reads_ret; by destruct x|]
  end.

(** *** Policies *)

Lemma pointer_finds pointer id w :
  Got id (Some pointer) ∈ w → finds (active_from_pointer pointer) (λ active w', policy_read w' id active) w.
Proof.
  intros Hp. unfold active_from_pointer. destruct (negb _); [by apply reads_ret|].
  computed (object_property pointer "policy_id"). intros record ? _ [Hrec ->].
  eapply reads_try with (Q := λ o w', w' = Got record o :: w); [by found|].
  intros [o|] ? _ ->; [|by apply reads_ret]. apply reads_ret. simpl.
  destruct (active_from_object o) as [active|] eqn:Ha; [|done]. simpl.
  destruct (pointer_agrees pointer active) as [[]|] eqn:Hg; [|done]. simpl.
  exists pointer, record, o. split_and!; try done; [by right|left].
Qed.

Lemma active_finds p v c w :
  finds (active_policy p v c) (λ active w', policy_read w' (policy_id p v c) active) w.
Proof.
  unfold active_policy.
  eapply reads_try with (Q := λ o w', w' = Got (policy_id p v c) o :: w); [by found|].
  intros [pointer|] ? _ ->; [|by apply reads_ret]. apply pointer_finds. left.
Qed.

Lemma maybe_finds p v c w :
  finds (maybe_active_policy p v c) (λ found w', match found with
    | Some active => policy_read w' (policy_id p v c) active
    | None => Got (policy_id p v c) None ∈ w'
    end) w.
Proof.
  unfold maybe_active_policy.
  eapply reads_try with (Q := λ o w', w' = Got (policy_id p v c) o :: w); [by found|].
  intros [pointer|] ? _ ->; [|apply reads_ret; left].
  eapply reads_try; [apply pointer_finds; left|]. intros active w' _ H. by apply reads_ret.
Qed.

Lemma confirm_finds expected w :
  finds (confirm_policy_active expected) (λ _ w', policy_read w'
    (policy_id (policy_product (active_rules expected)) (policy_version (active_rules expected))
       (policy_channel (active_rules expected))) expected) w.
Proof.
  unfold confirm_policy_active. eapply reads_try; [apply active_finds|]. intros current w' _ H.
  apply reads_ret. case_bool_decide as Heq; simpl; [by subst|done].
Qed.

Lemma policy_read_mono w w' id active : w `suffix_of` w' → policy_read w id active → policy_read w' id active.
Proof.
  intros Hs (pointer & record & o & Hp & Hr & Ho & Ha & Hg). exists pointer, record, o.
  split_and!; try done; by eapply suffix_elem.
Qed.

(** *** The attempts of the policy *)

Definition attempt_settled (a : Object) : Prop :=
  object_kind a = KIND_CANARY_ATTEMPT
  ∧ ∃ status, object_property a "status" = Ok status ∧ status ≠ "ready" ∧ status ≠ "pending".

Lemma settled_all l m m' :
  try_fold settled_attempt m l = Ok m' →
  (∀ a, a ∈ l → attempt_settled a)
  ∧ (∀ id a, m' !! id = Some a → m !! id = Some a ∨ (a ∈ l ∧ object_id a = id))
  ∧ (NoDup (object_id <$> l) → ∀ a, a ∈ l → m' !! object_id a = Some a)
  ∧ (∀ id, id ∉ object_id <$> l → m' !! id = m !! id).
Proof.
  revert m. induction l as [|a l IH]; intros m; simpl.
  { intros [= <-]. split_and!; [by intros ? ?%elem_of_nil|by left|by intros _ ? ?%elem_of_nil|done]. }
  destruct (settled_attempt m a) as [m1|] eqn:Ha; [|done]. simpl.
  unfold settled_attempt in Ha. apply bail_ok in Ha as [Hk Ha].
  destruct (object_property a "status") as [status|] eqn:Hst; [|done]. simpl in Ha.
  apply bail_ok in Ha as [Hs Ha]. injection Ha as <-.
  apply orb_false_iff in Hs as [Hr%bool_decide_eq_false Hp%bool_decide_eq_false].
  apply negb_false_iff, bool_decide_eq_true in Hk.
  intros (H1 & H2 & H3 & H4)%IH. split_and!.
  - intros x [->|Hx]%elem_of_cons; [|by apply H1]. split; [done|]. by exists status.
  - intros id x Hx. destruct (H2 id x Hx) as [Hm|[Hin Hid]]; [|right; split; [by right|done]].
    destruct (decide (id = object_id a)) as [->|Hne].
    + rewrite lookup_insert_eq in Hm. injection Hm as <-. right. split; [left|done].
    + rewrite lookup_insert_ne in Hm by done. by left.
  - intros [Hnin Hnd]%NoDup_cons x [->|Hx]%elem_of_cons; [|by apply H3].
    rewrite H4 by done. by rewrite lookup_insert_eq.
  - intros id Hid. apply not_elem_of_cons in Hid as [Hne Hid]. rewrite H4 by done.
    by rewrite lookup_insert_ne.
Qed.

(** What is cached was read. *)
Definition plans_known (w : list canary_fact) (plans : gmap string Plan) : Prop :=
  ∀ id p, plans !! id = Some p → PlanIs id p ∈ w.

Lemma plans_known_mono w w' plans : extends kept w w' → plans_known w plans → plans_known w' plans.
Proof. intros Hx H id p Hp. eapply suffix_elem; [by eapply extends_suffix|]. by apply H. Qed.

Lemma load_plan_finds plans id w :
  plans_known w plans →
  finds (load_plan_cached plans id) (λ '(p, plans') w', PlanIs id p ∈ w' ∧ plans_known w' plans') w.
Proof.
  intros Hk. unfold load_plan_cached. destruct (plans !! id) as [p|] eqn:Hp.
  { apply reads_ret. split; [by apply Hk|done]. }
  eapply reads_try with (Q := λ p w', w' = PlanIs id p :: w); [by found|]. intros p ? _ ->.
  apply reads_ret. split; [left|]. intros id' p' Hl. destruct (decide (id' = id)) as [->|Hne].
  - rewrite lookup_insert_eq in Hl. injection Hl as <-. left.
  - rewrite lookup_insert_ne in Hl by done. right. by apply Hk.
Qed.

(** A completed attempt that did not succeed is counted against its
    environment. *)
Definition attempt_counted (w : list canary_fact) (failures : failures_by_environment) (a : Object) : Prop :=
  object_property a "status" = Ok "complete" →
  object_property a "plan_state" = Ok "succeeded"
  ∨ ∃ id p, object_property a "plan_id" = Ok id ∧ PlanIs id p ∈ w ∧ is_Some (failures !! plan_environment p).

Lemma counted_mono w w' (f f' : failures_by_environment) a :
  extends kept w w' → (∀ k, is_Some (f !! k) → is_Some (f' !! k)) →
  attempt_counted w f a → attempt_counted w' f' a.
Proof.
  intros Hx Hf Ha Hst. destruct (Ha Hst) as [?|(id & p & Hid & Hp & Hs)]; [by left|right].
  exists id, p. split_and!; [done|by eapply suffix_elem; [eapply extends_suffix|]|by apply Hf].
Qed.

Lemma pushed_some (f : failures_by_environment) o k :
  is_Some (f !! k) ∨ k = co_environment o → is_Some (push_failure f o !! k).
Proof.
  intros H. unfold push_failure, push_entry. destruct (decide (k = co_environment o)) as [->|Hne].
  - by rewrite lookup_insert_eq.
  - rewrite lookup_insert_ne by done. by destruct H.
Qed.

Lemma terminal_failure_finds active f plans attempt w :
  plans_known w plans →
  finds (terminal_failure active (f, plans) attempt) (λ '(acc, stop) w', stop = false
    ∧ plans_known w' acc.2 ∧ (∀ k, is_Some (f !! k) → is_Some (acc.1 !! k))
    ∧ attempt_counted w' acc.1 attempt) w.
Proof.
  intros Hk. unfold terminal_failure.
  computed (object_property attempt "status"). intros status ? _ [Hst ->].
  case_bool_decide as Hc; simpl.
  2: { apply reads_ret. split_and!; [done|done|done|]. intros Hst'. rewrite Hst in Hst'. by injection Hst'. }
  computed (object_property attempt "plan_state"). intros state ? _ [Hstate ->].
  case_bool_decide as Hsucc; simpl.
  { apply reads_ret. split_and!; [done|done|done|]. intros _. left. by rewrite Hstate, Hsucc. }
  set (t := ok_or (terminal_state state) _). computed t. intros st ? _ [_ ->].
  computed (object_property attempt "plan_id"). intros id ? _ [Hid ->].
  eapply reads_try; [by apply load_plan_finds|]. intros [p plans'] w' _ [Hp Hk'].
  set (t2 := ok_or (find_first _ _) _). computed t2. intros s ? _ [_ ->].
  computed (bool_property attempt "gates_skipped"). intros skipped ? _ [_ ->].
  apply reads_ret. split_and!; [done|done| |].
  - intros k Hs. apply pushed_some. by left.
  - intros _. right. exists id, p. split_and!; [done|done|]. apply pushed_some. by right.
Qed.

Lemma failures_find active l w :
  finds (each (terminal_failure active) (∅, ∅) l) (λ acc w', plans_known w' acc.2
    ∧ ∀ a, a ∈ l → attempt_counted w' acc.1 a) w.
Proof.
  eapply reads_mono; [eapply (reads_each canary_learnt no_promotion kept) with (I := λ acc rest w',
    plans_known w' acc.2 ∧ ∀ a, a ∈ l → a ∈ rest ∨ attempt_counted w' acc.1 a)|].
  - split; [by intros id p; simpl; rewrite lookup_empty|]. intros a Ha. by left.
  - intros [f plans] a rest w1 [Hk HI].
    eapply learns_mono; [by apply terminal_failure_finds|]. intros [[acc stop]|] w2 _ [Hx H]; (split; [done|]); [|done].
    destruct H as (-> & Hk' & Hf & Ha). split; [done|]. split; [done|].
    intros x Hin. destruct (HI x Hin) as [[->|?]%elem_of_cons|Hc]; [by right|by left|right].
    by eapply counted_mono.
  - intros acc w' _ [Hk HI]. split; [done|]. intros a Ha. by destruct (HI a Ha) as [?%elem_of_nil|?].
Qed.

(** *** The stored outcomes *)

Section Stored.
Context (active : ActiveCanaryPolicy) (attempts objects : list Object).

(** What is cached of the attempts was read. *)
Definition attempts_known (w : list canary_fact) (m : gmap string Object) : Prop :=
  ∀ id a, m !! id = Some a → attempt_known w attempts id a.

Lemma attempt_known_mono w w' id a :
  w `suffix_of` w' → attempt_known w attempts id a → attempt_known w' attempts id a.
Proof. intros Hs [?|?]; [left; by eapply suffix_elem|by right]. Qed.

Lemma load_attempt_finds m id w :
  attempts_known w m →
  finds (load_attempt_cached m id) (λ '(a, m') w', attempt_known w' attempts id a ∧ attempts_known w' m') w.
Proof.
  intros Hk. unfold load_attempt_cached. destruct (m !! id) as [a|] eqn:Ha.
  { apply reads_ret. split; [by apply Hk|done]. }
  eapply reads_try with (Q := λ o w', w' = Got id o :: w); [by found|].
  intros [a|] ? _ ->; [|by apply reads_ret]. apply reads_ret. split; [left; left|].
  intros id' a' Hl. destruct (decide (id' = id)) as [->|Hne].
  - rewrite lookup_insert_eq in Hl. injection Hl as <-. left. left.
  - rewrite lookup_insert_ne in Hl by done. eapply attempt_known_mono; [|by apply Hk]. by exists [Got id (Some a)].
Qed.

Definition passing_rests (w : list canary_fact) (o : CanaryOutcome) : Prop :=
  passes o (active_rules active) (active_digest active) = true → rests_on_records w active attempts o.

Lemma rests_mono w w' o : w `suffix_of` w' → rests_on_records w active attempts o → rests_on_records w' active attempts o.
Proof.
  intros Hs (a & ev & p & d & s & id & l & Ha & Hev & Hp & Hid & Hd & Hl & Hx & Hb).
  exists a, ev, p, d, s, id, l. split_and!; try done; [by eapply attempt_known_mono|by eapply suffix_elem..].
Qed.

(** A stored outcome was skipped, for it is of another activation, or was
    verified. *)
Definition outcome_counted (w : list canary_fact) (done : list CanaryOutcome) (x : Object) : Prop :=
  ∃ raw o, object_property x "outcome" = Ok raw ∧ outcome_of_json raw = Some o
    ∧ (co_activated_at o ≠ activated_at active ∨ (o ∈ done ∧ passing_rests w o)).

Record evidence_known (st : evidence_state) (w : list canary_fact) : Prop := {
  known_are_attempts : attempts_known w (known_attempts st);
  known_are_plans : plans_known w (known_plans st);
  verified_are_stored o : o ∈ verified st → stored_outcome objects o
}.

Lemma deployment_finds o w :
  finds (match co_deployment_id o with Some id => perform (GetObject id) | None => Ret (Ok None) end)
    (λ d w', ∀ d', d = Some d' → ∃ id, co_deployment_id o = Some id ∧ Got id (Some d') ∈ w') w.
Proof.
  destruct (co_deployment_id o) as [id|]; [|by apply reads_ret].
  found. intros d d' ->. exists id. split; [done|left].
Qed.

Lemma link_finds (deployment : option Object) (p : Plan) w :
  finds (match deployment with
         | Some d =>
           do? l := perform (Links (object_id d) REL_PART_OF_PLAN) in
           Ret (Ok (existsb (λ x, bool_decide (to_id x = plan_id_of p)) l))
         | None => Ret (Ok false)
         end)
    (λ linked w', linked = true → ∃ d l, deployment = Some d
       ∧ LinksAre (object_id d) REL_PART_OF_PLAN l ∈ w' ∧ ∃ x, x ∈ l ∧ to_id x = plan_id_of p) w.
Proof.
  destruct deployment as [d|]; [|by apply reads_ret].
  eapply reads_try with (Q := λ l w', LinksAre (object_id d) REL_PART_OF_PLAN l ∈ w'); [found; intros l; left|].
  intros l w' _ Hl. apply reads_ret. intros (x & Hx & Hto)%existsb_exists.
  exists d, l. split_and!; [done|done|]. exists x. split; [by apply list_elem_of_In|]. by apply bool_decide_eq_true in Hto.
Qed.

Lemma verify_stored_finds st x w :
  x ∈ objects → evidence_known st w →
  finds (verify_stored active st x) (λ '(st', stop) w', stop = false ∧ evidence_known st' w'
    ∧ verified st ⊆ verified st' ∧ outcome_counted w' (verified st') x) w.
Proof.
  intros Hx [Ka Kp Ks]. unfold verify_stored.
  computed (object_property x "outcome"). intros raw ? _ [Hraw ->].
  set (t0 := ok_or (outcome_of_json raw) _). computed t0. intros o ? _ [Ho ->].
  assert (outcome_of_json raw = Some o) as Hjson by (unfold t0 in Ho; by destruct (outcome_of_json raw); [injection Ho as ->|]).
  destruct (Z.eqb_spec (co_activated_at o) (activated_at active)) as [Hact|Hact].
  2: { apply reads_ret. split_and!; [done|done|done|]. exists raw, o. split_and!; [done|done|by left]. }
  computed (object_property x "step_order"). intros order ? _ [_ ->].
  set (t := ok_or (parse_u32 order) _). computed t. intros n ? _ [_ ->].
  destruct (negb _); [by apply reads_ret|].
  eapply reads_try; [by apply load_attempt_finds|]. intros [a m] w1 X1 [Ha Ka1].
  computed (outcome_attempt o a). intros ev ? _ [Hev ->].
  eapply reads_try; [apply load_plan_finds; by eapply plans_known_mono|]. intros [p plans] w2 X2 [Hp Kp2].
  eapply reads_try; [apply deployment_finds|]. intros d w3 X3 Hd.
  eapply reads_try; [apply link_finds|]. intros linked w4 X4 Hl.
  computed (verify_outcome o p ev d linked active). intros o' ? _ [Hv ->].
  assert (o' = o) as -> by (by eapply verify_outcome_same).
  apply extends_suffix in X1, X2, X3, X4.
  assert (w2 `suffix_of` w4) as X24 by by etrans. assert (w1 `suffix_of` w4) as X14 by by etrans.
  apply reads_ret. split_and!; [done| | |]; simpl.
  - split; simpl.
    + intros id b Hb. by eapply attempt_known_mono; [|apply Ka1].
    + intros id b Hb. by eapply suffix_elem; [|apply Kp2].
    + intros b [Hb|Hb%list_elem_of_singleton]%elem_of_app; [by apply Ks|subst b]. by exists x, raw.
  - set_solver.
  - exists raw, o. split_and!; [done|done|]. right. split; [set_solver|]. intros Hpass.
    destruct (verify_outcome_sound _ _ _ _ _ _ _ Hv Hpass) as (_ & -> & d' & s & -> & Hb).
    destruct (Hl eq_refl) as (? & l & [= <-] & Hlink & Hto).
    destruct (Hd d' eq_refl) as (id & Hid & Hgot).
    exists a, ev, p, d', s, id, l.
    split_and!; [exact (attempt_known_mono _ _ _ _ X14 Ha)|exact Hev|exact (suffix_elem _ _ _ X24 Hp)
      |exact Hid|exact (suffix_elem _ _ _ X4 Hgot)|exact Hlink|exact Hto|exact Hb].
Qed.
End Stored.

Lemma canaries_passed_mono active w w' : w `suffix_of` w' → canaries_passed w active → canaries_passed w' active.
Proof.
  intros Hs (attempts & objects & Hl & Hf & Hset & Hfail & Hco). exists attempts, objects.
  split_and!; [by eapply suffix_elem|by eapply suffix_elem|done| |].
  - intros Hnd a Ha Hc. destruct (Hfail Hnd a Ha Hc) as [?|(id & p & Hid & Hp & He)]; [by left|right].
    exists id, p. split_and!; [done|by eapply suffix_elem|done].
  - intros environment Henv. destruct (Hco environment Henv) as [Hex Hall]. split; [done|].
    intros o Ho Hsp. destruct (Hall o Ho Hsp) as [Hp Hr]. split; [done|]. by eapply rests_mono.
Qed.

Lemma outcome_counted_mono active attempts w w' done done' x :
  w `suffix_of` w' → done ⊆ done' →
  outcome_counted active attempts w done x → outcome_counted active attempts w' done' x.
Proof.
  intros Hs Hd (raw & o & Hraw & Ho & H). exists raw, o. split_and!; [done|done|].
  destruct H as [?|[Hin Hr]]; [by left|right]. split; [by apply Hd|]. intros Hp. by eapply rests_mono; [|apply Hr].
Qed.

Lemma outcomes_find active attempts objects st w :
  evidence_known attempts objects st w → verified st = [] →
  finds (each (verify_stored active) st objects) (λ st' w',
    (∀ o, o ∈ verified st' → stored_outcome objects o)
    ∧ ∀ x, x ∈ objects → outcome_counted active attempts w' (verified st') x) w.
Proof.
  intros Hk Hnil. eapply reads_mono; [eapply (reads_each canary_learnt no_promotion kept) with (I := λ st' rest w',
    evidence_known attempts objects st' w' ∧ rest ⊆ objects
    ∧ ∀ x, x ∈ objects → x ∈ rest ∨ outcome_counted active attempts w' (verified st') x)|].
  - split_and!; [done|done|]. intros x Hx. by left.
  - intros st1 x rest w1 (Hk1 & Hsub & HI).
    eapply learns_mono; [eapply (verify_stored_finds active attempts objects); [apply Hsub; left|done]|].
    intros [[st2 stop]|] w2 _ [Hx H]; (split; [done|]); [|done]. destruct H as (-> & Hk2 & Hmore & Hc).
    split; [done|]. split_and!; [done|set_solver|]. intros y Hy.
    destruct (HI y Hy) as [[->|?]%elem_of_cons|Hold]; [by right|by left|right].
    eapply outcome_counted_mono; [by eapply extends_suffix|exact Hmore|exact Hold].
  - intros st' w' _ (Hk' & _ & HI). split; [apply Hk'|]. intros x Hx. by destruct (HI x Hx) as [?%elem_of_nil|?].
Qed.

(** *** The evaluation *)

(** What the loops leave, and the evaluation that allows. *)
Lemma evidence_suffices active attempts objects done (failures : failures_by_environment) m w :
  LinkedAre (policy_record_id active) REL_ATTEMPT_FOR_POLICY Inward attempts ∈ w →
  FoundAre KIND_CANARY_OUTCOME "policy_digest" (active_digest active) objects ∈ w →
  try_fold settled_attempt ∅ attempts = Ok m →
  (∀ a, a ∈ (attempt_iter m).*2 → attempt_counted w failures a) →
  (∀ o, o ∈ done → stored_outcome objects o) →
  (∀ x, x ∈ objects → outcome_counted active attempts w done x) →
  allowed (foldl add_failures (evaluate active done) (btree_iter failures)) = true →
  canaries_passed w active.
Proof.
  intros Hl Hf Hm Hfail Hst Hout [Hall Hnone]%add_failures_allowed.
  pose proof (proj1 (evaluate_allowed active done) Hall) as Hpass.
  destruct (settled_all _ _ _ Hm) as (Hset & _ & Hmap & _).
  exists attempts, objects. split_and!; [done|done|exact Hset| |].
  - intros Hnd a Ha Hc.
    assert (a ∈ (attempt_iter m).*2) as Hin.
    { apply list_elem_of_fmap. exists (object_id a, a). split; [done|]. rewrite attempt_iter_perm.
      apply elem_of_map_to_list. by apply Hmap. }
    destruct (Hfail a Hin Hc) as [?|(id & p & Hid & Hp & [l Hs])]; [by left|right].
    exists id, p. split_and!; [done|done|]. intros Hco.
    apply (evaluate_cohort active done) in Hco as [r Hr].
    rewrite (Hnone (plan_environment p) l) in Hr; [done|by apply elem_of_btree_iter].
  - intros environment Henv. destruct (Hpass environment Henv) as [(o & Ho & Hs) Hp].
    split; [exists o; split; [by apply Hst|done]|]. intros o' (x & raw & Hx & Hraw & Hj) Hs'.
    destruct (Hout x Hx) as (raw' & o2 & Hraw' & Hj' & H).
    rewrite Hraw in Hraw'. injection Hraw' as <-. rewrite Hj in Hj'. injection Hj' as <-.
    destruct H as [Hne|[Hin Hrest]].
    + exfalso. apply Hne. unfold speaks_for in Hs'. apply andb_true_iff in Hs' as [_ H]. lia.
    + assert (passes o' (active_rules active) (active_digest active) = true) as Hp' by by apply Hp.
      split; [done|]. by apply Hrest.
Qed.

Lemma evaluate_finds active w :
  finds (evaluate_active active) (λ e w', allowed e = true → canaries_passed w' active) w.
Proof.
  unfold evaluate_active.
  eapply reads_try with (Q := λ l w', LinkedAre (policy_record_id active) REL_ATTEMPT_FOR_POLICY Inward l ∈ w').
  { found. intros l. left. }
  intros attempts w1 _ Hl. computed (try_fold settled_attempt ∅ attempts). intros m ? _ [Hm ->].
  eapply reads_try; [apply failures_find|]. intros [failures plans] w2 X2 [Hk Hfail]. simpl in *.
  eapply reads_try with (Q := λ l w', w' = FoundAre KIND_CANARY_OUTCOME "policy_digest" (active_digest active) l :: w2).
  { by found. }
  intros objects w3 X3 ->.
  eapply reads_try; [eapply (outcomes_find active attempts objects); [|done]|].
  - split; simpl; [|by intros id p Hp; right; apply Hk|by intros o ?%elem_of_nil].
    intros id a Ha. destruct (settled_all _ _ _ Hm) as (_ & Hm' & _). right.
    destruct (Hm' id a Ha) as [Hempty|?]; [by rewrite lookup_empty in Hempty|done].
  - intros st w4 X4 [Hst Hout]. apply reads_ret. apply extends_suffix in X2, X4.
    assert (w2 `suffix_of` w4) as X24 by (etrans; [|exact X4]; by eexists [_]).
    eapply evidence_suffices; [| |exact Hm| |exact Hst|exact Hout].
    + exact (suffix_elem _ _ _ X24 (suffix_elem _ _ _ X2 Hl)).
    + eapply suffix_elem; [exact X4|left].
    + intros a Ha Hc. destruct (Hfail a Ha Hc) as [?|(id & p & Hid & Hp & Hs)]; [by left|right].
      exists id, p. split_and!; [done|by eapply suffix_elem|done].
Qed.

Lemma audit_finds free sequence active text allows activation at_ms w :
  finds (audit_from free sequence actor active text allows activation at_ms) (λ _ _, True) w.
Proof.
  revert sequence w. induction free as [|free IH]; intros sequence w; simpl; [by apply reads_ret|].
  eapply reads_try with (Q := λ _ _, True); [found; intros []; done|]. intros [] w1 _ _; [|apply IH].
  eapply reads_try with (Q := λ _ _, True); [by found|]. intros [] w2 _ _.
  eapply reads_try with (Q := λ _ _, True); [by found|]. intros [] w3 _ _. by apply reads_ret.
Qed.

(** *** The promotion *)

Lemma authorize_finds w :
  finds (authorize_promotion actor product version channel) (λ found w', match found with
    | None => Got (policy_id product version channel) None ∈ w'
    | Some active => policy_read w' (policy_id product version channel) active ∧ canaries_passed w' active
    end) w.
Proof.
  unfold authorize_promotion. computed (require_publish actor). intros [] ? _ [_ ->].
  eapply reads_try; [apply maybe_finds|]. intros [active|] w1 _ Hp; [|by apply reads_ret].
  eapply reads_try; [apply evaluate_finds|]. intros e w2 X2 He.
  eapply reads_try with (Q := λ _ _, True).
  { unfold record_promotion_audit. eapply reads_bind with (Q := λ _ _, True); [|intros; apply audit_finds].
    apply learns_perform; [done|]. intros now. split; [apply extends_refl|done]. }
  intros [] w3 X3 _. apply reads_ret. destruct (allowed e) eqn:Hall; simpl; [|done].
  apply extends_suffix in X2, X3. split.
  - eapply policy_read_mono; [|exact Hp]. exact (transitivity X2 X3).
  - eapply canaries_passed_mono; [exact X3|]. by apply He.
Qed.

Lemma allow_promotion : ∀ X (e : canary_effect X) w, no_promotion X e w → promotion_allowed X e w.
Proof. by intros X []. Qed.

(** The lock is taken by making its link. *)
Lemma claim_learns :
  learns canary_learnt promotion_allowed (claim_promotion_lock product channel owner) (λ res w', match res with
    | Ok l => l = {| lock_id := lock; lock_owner := owner |}
              ∧ LinkMade (promotion_lock_link lock) ∈ w' ∧ LinkGone lock ∉ w'
    | Err _ => True
    end) [].
Proof.
  unfold claim_promotion_lock.
  assert (∀ w, extends kept [] w → LinkGone lock ∉ w) as Hkept.
  { intros w Hx Hin. by apply (extends_elem _ _ _ _ Hx), elem_of_nil in Hin. }
  eapply learns_try with (Q := λ _ w', extends kept [] w'); [by apply learns_perform; [|intros [?|?]; exists []]| |done].
  intros [] w1 _ X1. apply learns_do; [done|]. intros now.
  eapply learns_try with (Q := λ _ w', extends kept [] w'); [| |done].
  { apply learns_perform; [done|]. intros x. eapply extends_trans; [exact X1|]. eexists. split; [done|]. by destruct x. }
  intros [legacy|] w2 _ X2; [by apply learns_ret|].
  eapply learns_try with (Q := λ _ w', extends kept [] w'); [| |done].
  { apply learns_perform; [done|]. intros x. eapply extends_trans; [exact X2|]. eexists. split; [done|]. by destruct x. }
  intros found w3 _ X3.
  eapply learns_try with (Q := λ _ w', extends kept [] w'); [| |done].
  { destruct (is_some_b found); [by apply learns_ret|].
    apply learns_do; [done|]. intros x. set (w' := _ ++ w3).
    assert (extends kept [] w') as Hx by (eapply extends_trans; [exact X3|]; eexists; split; [done|]; by destruct x as [[]|]).
    by destruct x; apply learns_ret. }
  intros [] w4 _ X4. apply learns_do; [done|]. intros [[|]|e]; [|by apply learns_ret..].
  apply learns_do; [done|]. intros changed. apply learns_do; [done|]. intros [[]|e].
  - apply learns_ret. simpl. split_and!; [done|left|]. intros [?|?]%elem_of_cons; [done|]. by eapply Hkept.
  - apply learns_do; [done|]. intros x. by apply learns_ret.
Qed.

Lemma confirm_lock_finds w :
  finds (confirm_promotion_lock {| lock_id := lock; lock_owner := owner |}) (λ _ w', ∃ o l,
    Got lock (Some o) ∈ w' ∧ properties o !! "owner" = Some owner
    ∧ LinksAre lock REL_ACTIVE_PROMOTION_LOCK l ∈ w' ∧ ∃ x, x ∈ l ∧ to_id x = lock) w.
Proof.
  unfold confirm_promotion_lock. simpl.
  eapply reads_try with (Q := λ o w', w' = Got lock o :: w); [by found|].
  intros [o|] ? _ ->; [|by apply reads_ret].
  eapply reads_try with (Q := λ l w', w' = LinksAre lock REL_ACTIVE_PROMOTION_LOCK l :: Got lock (Some o) :: w).
  { by found. }
  intros l ? _ ->. apply reads_ret. destruct (existsb _ l) eqn:Hl; simpl; [|done].
  case_bool_decide as Ho; simpl; [|done]. exists o, l. apply existsb_exists in Hl as (x & Hx & Hto).
  split_and!; [by right; left|done|left|]. exists x. split; [by apply list_elem_of_In|].
  by apply bool_decide_eq_true in Hto.
Qed.

Lemma policy_satisfied_mono w w' : w `suffix_of` w' → policy_satisfied w → policy_satisfied w'.
Proof.
  intros [l ->] [H|(active & w1 & w2 & -> & H1 & H2 & H3)]; [left; apply elem_of_app; by right|right].
  exists active, w1, (l ++ w2). rewrite app_assoc. split_and!; try done.
  eapply policy_read_mono; [|exact H3]. by exists l.
Qed.

Lemma promotion_body_learns w :
  require_publish actor = Ok tt → LinkMade (promotion_lock_link lock) ∈ w → LinkGone lock ∉ w →
  learns canary_learnt promotion_allowed
    (do? authorization := authorize_promotion actor product version channel in
     do? _ := (match authorization with
               | Some expected => confirm_policy_active expected
               | None => Ret (Ok tt)
               end) in
     do? _ := confirm_promotion_lock {| lock_id := lock; lock_owner := owner |} in
     perform Promote) (λ _ _, True) w.
Proof.
  intros Hcap Hmade Hgone.
  eapply learns_try; [eapply reads_allow; [apply allow_promotion|apply authorize_finds]| |done].
  intros found w1 _ [X1 H1].
  eapply learns_try with (Q := λ res w', extends kept w1 w' ∧ match res with Ok _ => policy_satisfied w' | Err _ => True end);
    [| |done].
  { destruct found as [expected|]; [|by apply learns_ret; split; [apply extends_refl|left]].
    eapply learns_mono; [eapply (reads_frame canary_learnt no_promotion promotion_allowed w1);
      [by intros X e w0 ?; apply allow_promotion; destruct e|apply confirm_finds]|].
    intros [[]|] w2 _ [X2 H2]; (split; [done|]); [|done]. destruct H2 as (w' & -> & H2).
    right. exists expected, w1, w'. by destruct H1. }
  intros [] w2 _ [X2 H2].
  eapply learns_try; [eapply reads_allow; [apply allow_promotion|apply confirm_lock_finds]| |done].
  intros [] w3 _ [X3 H3].
  assert (extends kept w w3) as X by (eapply extends_trans; [exact X1|]; by eapply extends_trans).
  apply learns_perform; [|done]. simpl. split_and!.
  - unfold require_publish, require_delivery_capability in Hcap.
    destruct (has_delivery_capability actor PublishCapability); [done|].
    by destruct (validate_context actor) as [[]|[]].
  - split_and!; [by eapply suffix_elem; [eapply extends_suffix|]| |exact H3].
    intros Hin. by apply Hgone, (extends_elem _ _ _ _ X).
  - eapply policy_satisfied_mono; [eapply extends_suffix; exact X3|done].
Qed.

Lemma release_lock_learns l w :
  learns canary_learnt promotion_allowed (release_promotion_lock l) (λ _ _, True) w.
Proof.
  unfold release_promotion_lock. eapply learns_try with (Q := λ _ _, True); [by apply learns_perform| |done].
  intros [o|] w1 _ _; [|by apply learns_ret]. destruct (bool_decide _); [|by apply learns_ret].
  apply learns_do; [done|]. intros now.
  eapply learns_try with (Q := λ _ _, True); [by apply learns_perform| |done]. intros [] w2 _ _.
  eapply learns_try with (Q := λ _ _, True); [by apply learns_perform| |done]. intros [] w3 _ _. by apply learns_ret.
Qed.

Lemma guarded_learns :
  learns canary_learnt promotion_allowed (guarded_promotion actor product version channel owner) (λ _ _, True) [].
Proof.
  unfold guarded_promotion.
  eapply learns_try with (Q := λ res w', res = require_publish actor ∧ w' = []); [by apply learns_ret| |done].
  intros [] ? _ [Hcap ->]. eapply learns_try; [apply claim_learns| |done].
  intros l w1 _ (-> & Hmade & Hgone).
  eapply learns_bind; [by apply promotion_body_learns|]. intros res w2 _ _.
  eapply learns_bind; [apply release_lock_learns|]. intros unlock w3 _ _. by apply learns_ret.
Qed.
End Promotion.

(** C11: a guarded promotion changes the catalog only for a caller that may
    publish, while the channel's lock that it made is neither given back nor
    owned by another, and only when the release has no policy for the channel
    or its canaries passed: the policy was read through its pointer, before
    its evidence and unchanged after it; no attempt under it is unfinished;
    every completed attempt succeeded or ran outside the cohort; every cohort
    environment has an outcome of this activation, and each one there passes
    and rests on an attempt that started after the activation, a succeeded
    plan with its gates run that deploys the pinned release, and a succeeded
    deployment of that plan within the attempt. *)
Theorem promotion_follows_canaries {E : PlanEncoding} {J : CanaryJson} {AO : AttemptOrder} {EJ : EvaluationJson}
    actor product version channel owner w :
  reaches (learning canary_learnt (λ _ _ _, True)) Promote
    (guarded_promotion actor product version channel owner) [] w →
  may_promote actor product version channel owner w.
Proof.
  intros Hr. refine (learns_reaches canary_learnt (promotion_allowed actor product version channel owner)
    Promote _ _ _ _ (guarded_learns _ _ _ _ _) _).
  clear -Hr. induction Hr; [apply reaches_here|by eapply reaches_later].
Qed.

(** ** One canary environment *)
Module PromotionExamples.
#[local] Existing Instance PlainEncoding.instance.

Definition policy : CanaryPolicy := {|
  policy_release_id := release_id "api" "2.0.0"; policy_release_digest := "d";
  policy_artifact_digest := "a"; policy_product := "api"; policy_version := "2.0.0";
  policy_channel := "stable"; cohort := ["edge"]; success_policy := SuccessAll |}.

Definition active : ActiveCanaryPolicy := {|
  active_rules := policy; active_digest := "policy"; activated_at := 10 |}.

Definition plan_name : string := "tenkai:plan:edge:5:c".

Definition outcome : CanaryOutcome := {|
  co_release_id := release_id "api" "2.0.0"; co_release_digest := "d"; co_artifact_digest := "a";
  co_policy_digest := "policy"; co_activated_at := 10; co_environment := "edge";
  co_plan_id := plan_name; co_attempt_id := "a1"; co_step_order := 0;
  co_plan_state := EvidenceSucceeded; co_deployment_id := Some "d1"; executed_at := 20;
  recorded_at := 40; co_gate := GateSatisfied; co_execution := ExecutionSucceeded;
  co_health := HealthPassed; co_rollback := RollbackNotNeeded; co_detail := "" |}.

#[local] Instance texts : CanaryJson := {|
  policy_json := λ _, "policy"; policy_of_json := λ s, if decide (s = "policy") then Some policy else None;
  outcome_json := λ _, "outcome"; outcome_of_json := λ s, if decide (s = "outcome") then Some outcome else None |}.

#[local] Instance in_order : AttemptOrder := {| attempt_iter := map_to_list; attempt_iter_perm m := reflexivity _ |}.
#[local] Instance no_evaluation_text : EvaluationJson := {| evaluation_json := λ _, "" |}.

Definition step : Step := {|
  step_id := "s"; step_order := 0; step_product := "api"; step_instance := "";
  step_action := Upgrade; step_from := Some "1.0.0"; step_to := "2.0.0";
  step_release_id := release_id "api" "2.0.0"; step_release_digest := "d";
  step_artifact_digest := "a"; step_workdir := ""; step_restore := None; step_host := None |}.

Definition plan : Plan := {|
  format_version := 1; plan_id_of := plan_name; content_id := "c"; plan_environment := "edge";
  created_at := 5; inputs := []; steps := [step]; plan_state := Succeeded;
  gates_skipped := Some false; status_detail := ""; maintenance_blocked := false;
  prior_warnings := []; recalled_recovery_reason := None; credential_runway := None |}.

Definition record (id kind : string) (from until : Z) (props : list (string * string)) : Object := {|
  object_id := id; object_kind := kind; object_name := ""; object_namespace := NS; external_id := "";
  properties := list_to_map props; created := from; updated := until |}.

Definition attempt (id state : string) : Object :=
  record id KIND_CANARY_ATTEMPT 15 35
    [("status", "complete"); ("plan_id", plan_name); ("plan_state", state); ("gates_skipped", "false");
     ("execution_started_at", "20"); ("finished_at", "30")].

Definition deployment : Object :=
  record "d1" KIND_DEPLOYMENT 25 26
    [("environment", "edge"); ("product", "api"); ("to_version", "2.0.0"); ("status", "succeeded")].

Definition lock_name : string := promotion_lock_id "api" "stable".

(** A store with one outcome and these attempts of the policy. *)
Definition answer (attempts : list Object) : answers canary_effect := λ X e,
  match e in canary_effect X return X with
  | Now => 50
  | Sleep => tt
  | GetObject id =>
    Ok (if decide (id = lock_name) then Some (lock_object lock_name "" "op" 1 2)
        else if decide (id = policy_id "api" "2.0.0" "stable") then Some (pointer_object "api@2.0.0" active 10)
        else if decide (id = policy_record_id active) then Some (policy_object "api@2.0.0" active)
        else if decide (id = "d1") then Some deployment else None)
  | CreateOnce _ | CreateLinkOnce _ => Ok true
  | Links id relation =>
    Ok [if decide (id = "d1")
        then {| link_id := ""; from_id := id; to_id := plan_name; link_relation := relation |}
        else promotion_lock_link id]
  | Linked _ _ _ => Ok attempts
  | FindByProperty _ _ _ => Ok [record "o1" KIND_CANARY_OUTCOME 40 40 [("outcome", "outcome"); ("step_order", "0")]]
  | LoadPlan _ => Ok plan
  | ClaimEnvironment _ _ => Ok "t"
  | EnvironmentLease _ => Ok None
  | TransitionPlan p _ _ => Ok p
  | RequireCanarySchema | PutObject _ | DeleteObject _ | LinkObjects _ _ _ | Unlink _ _ _
  | ReleaseEnvironment _ _ | ExportEvidence _ _ _ | Promote => Ok tt
  end.

Definition publisher : AuthenticatedRequestContext := {|
  contract_version := 1; context_request_id := "r"; principal := {| principal_id := "ops"; principal_kind := Service |};
  tenant := None; authenticator_id := "tokens"; delivery_capabilities := {[PublishCapability]};
  environment_binding := None; channel_bindings := ∅; product_bindings := ∅; actor_chain := [];
  host_identity := None |}.

Definition promotion : canary_prog unit := guarded_promotion publisher "api" "2.0.0" "stable" "op".
Definition learnt_by (n : nat) : list canary_fact :=
  world_at [] (nth_effect (learning canary_learnt (λ _ _ _, True)) (answer [attempt "a1" "succeeded"]) n promotion []).

(** The only attempt succeeded: promoted; a second one failed: refused. *)
Example failed_attempt_refuses :
  (run (learning canary_learnt (λ _ _ _, True)) (answer [attempt "a1" "succeeded"]) promotion []).1 = Ok tt
  ∧ (run (learning canary_learnt (λ _ _ _, True))
       (answer [attempt "a1" "succeeded"; attempt "a2" "failed"]) promotion []).1
    = Err (OtherFailure "canary promotion blocked").
Proof. vm_compute. done. Qed.

Lemma promotion_follows_canaries_witness :
  may_promote publisher "api" "2.0.0" "stable" "op" (learnt_by 22).
Proof.
  apply promotion_follows_canaries.
  refine (nth_reaches (learning canary_learnt (λ _ _ _, True)) (answer [attempt "a1" "succeeded"]) 22 promotion []
    (At Promote (learnt_by 22)) _).
  vm_compute. reflexivity.
Defined.
End PromotionExamples.
