(* ===== verification/CanaryAttempts.v ===== *)
(** * Canary attempts

    [canary/attempt_lifecycle.rs]: an attempt is opened under the policies in
    force before a plan runs in a canary environment, marked when the plan
    starts, and closed with one outcome per step and policy once the plan has
    ended.  An attempt left behind by a crash is closed by the next repair
    from what the store still says. *)

From S2P Require Import Prelude RustStr Kinds Facts Compatibility Contracts Plan ObjectStore Catalog Deployments Effects ProductExecution AuthContext Canary CanaryPromotion.

(** [serde_json] of an attempt's policies and of its outcomes. *)
Class AttemptJson := {
  snapshot_json : list ActiveCanaryPolicy → string;
  snapshot_of_json : string → option (list ActiveCanaryPolicy);
  outcomes_json : list Outcome → string;
  outcomes_of_json : string → option (list Outcome)
}.

Definition amend (o : Object) (props : list (string * string)) (now : Z) : Object := {|
  object_id := object_id o; object_kind := object_kind o; object_name := object_name o;
  object_namespace := object_namespace o; external_id := external_id o;
  properties := list_to_map props ∪ properties o; created := created o; updated := now |}.

Definition attempt_is (o : Object) (s : string) : bool := bool_decide (properties o !! "status" = Some s).

Section Operations.
Context {E : PlanEncoding} {J : CanaryJson} {AJ : AttemptJson}.

(** ** Opening *)

(** The products whose policies a plan's steps may fall under, in order. *)
Definition evidence_products (p : Plan) : list string :=
  btree_set_iter (list_to_set (step_product <$> List.filter (λ s, is_some_b (evidence_release s)) (steps p))).

(** The policies of the plan's releases that list its environment, each
    activation once. *)
Definition step_policies (p : Plan) (acc : list ActiveCanaryPolicy) (s : Step) :
    canary_prog (list ActiveCanaryPolicy * bool) :=
  match evidence_release s with
  | None => Ret (Ok (acc, false))
  | Some release =>
    do? found := policies_for_release release in
    Ret (Ok (foldl (λ acc a,
      if bool_decide (plan_environment p ∈ cohort (active_rules a))
         && negb (existsb (λ b, bool_decide (active_digest b = active_digest a)
                                && (activated_at b =? activated_at a)) acc)
      then acc ++ [a] else acc) acc found, false))
  end.

Definition policy_order : ActiveCanaryPolicy → ActiveCanaryPolicy → comparison :=
  cmp_lex (cmp_on (λ a, policy_release_id (active_rules a)) String.compare)
    (cmp_lex (cmp_on (λ a, policy_channel (active_rules a)) String.compare)
       (cmp_on activated_at Z.compare)).

Definition attempt_object (p : Plan) (skipped : bool) (policies : list ActiveCanaryPolicy)
    (sequence at_ms : Z) : Object := {|
  object_id := plan_id_of p +:+ ":canary-attempt:" +:+ pretty sequence;
  object_kind := KIND_CANARY_ATTEMPT; object_name := plan_environment p +:+ " canary attempt";
  object_namespace := NS; external_id := "";
  properties := list_to_map [
    ("plan_id", plan_id_of p); ("initial_plan_state", PlanState_str (plan_state p));
    ("gates_skipped", if skipped then "true" else "false"); ("status", "pending");
    ("policies", snapshot_json policies)];
  created := at_ms; updated := at_ms |}.

Definition link_attempt_to_policies (id : string) (policies : list ActiveCanaryPolicy) : canary_prog unit :=
  each (λ _ a, do? _ := perform (LinkObjects id (policy_record_id a) REL_ATTEMPT_FOR_POLICY) in
               Ret (Ok (tt, false))) tt policies.

Fixpoint allocate_attempt (free : nat) (sequence : Z) (p : Plan) (skipped : bool)
    (policies : list ActiveCanaryPolicy) (at_ms : Z) : canary_prog (option string) :=
  match free with
  | O => Ret (Err (OtherFailure "could not allocate canary attempt"))
  | S free =>
    let o := attempt_object p skipped policies sequence at_ms in
    do? made := perform (CreateOnce o) in
    if made : bool then
      do? _ := link_attempt_to_policies (object_id o) policies in Ret (Ok (Some (object_id o)))
    else allocate_attempt free (sequence + 1) p skipped policies at_ms
  end.

(** [persist_attempt]: not before any of its policies was activated. *)
Definition persist_attempt (p : Plan) (skipped : bool) (policies : list ActiveCanaryPolicy) :
    canary_prog (option string) :=
  do now := perform Now in
  let latest := match policies with
                | [] => 0
                | a :: rest => foldl Z.max (activated_at a) (activated_at <$> rest)
                end in
  allocate_attempt 1024 0 p skipped policies (Z.max latest now).

(** Locks are added to the ones held, also when a later one fails. *)
Fixpoint add_locks (held : list PromotionLock) (keys : list (string * string)) (owner : string) :
    prog canary_effect (list PromotionLock * result unit failure) :=
  match keys with
  | [] => Ret (held, Ok tt)
  | (product, channel) :: keys =>
    do claimed := claim_promotion_lock_with_retry product channel owner in
    match claimed with
    | Ok lock => add_locks (held ++ [lock]) keys owner
    | Err e => Ret (held, Err e)
    end
  end.

(** Under every lock: no pending attempt, the policies still in force. *)
Definition open_attempt (p : Plan) (skipped : bool) (policies : list ActiveCanaryPolicy) :
    canary_prog (option string) :=
  do? attempts := perform (FindByProperty KIND_CANARY_ATTEMPT "plan_id" (plan_id_of p)) in
  if existsb (λ a, attempt_is a "pending") attempts
  then Ret (Err (OtherFailure "plan already has a pending canary attempt; repair or recover it before retrying"))
  else
    do? _ := each (λ _ a, do? _ := confirm_policy_active a in Ret (Ok (tt, false))) tt policies in
    match policies with
    | [] => Ret (Ok None)
    | _ => persist_attempt p skipped policies
    end.

(** [begin_attempt]. *)
Definition begin_attempt (p : Plan) (skipped : bool) : canary_prog (option string) :=
  do now := perform Now in
  let owner := "attempt:" +:+ plan_id_of p +:+ ":" +:+ pretty now in
  do? discovery := claim_locks [] ((λ product, (product, POLICY_DISCOVERY_LOCK_CHANNEL)) <$> evidence_products p)
                     owner in
  do found := each (step_policies p) [] (steps p) in
  match found with
  | Err e =>
    do unlocked := release_locks (rev discovery) in Ret (and_released (Err e) unlocked)
  | Ok found =>
    let policies := sort_by policy_order found in
    do claimed := add_locks discovery (lock_keys policies) owner in
    let '(locks, ok) := claimed in
    do res := (match ok with
               | Err e => Ret (Err e)
               | Ok _ => open_attempt p skipped policies
               end) in
    do unlocked := release_locks (rev locks) in
    Ret (and_released res unlocked)
  end.

(** ** Starting *)

(** What is left of a start that could not be written. *)
Definition abandon_unstarted (id : string) : canary_prog unit :=
  do? found := perform (GetObject id) in
  match found with
  | None => Ret (Err (OtherFailure "canary attempt disappeared"))
  | Some current =>
    do? status := Ret (object_property current "status") in
    if bool_decide (status = "pending") then
      do now := perform Now in
      perform (PutObject (amend current [("status", "abandoned")] (Z.max now (created current))))
    else Ret (Ok tt)
  end.

(** [mark_attempt_started]. *)
Definition mark_attempt_started (id : string) : canary_prog unit :=
  do? found := perform (GetObject id) in
  match found with
  | None => Ret (Err (OtherFailure "canary attempt not found"))
  | Some a =>
    do? status := Ret (object_property a "status") in
    if negb (bool_decide (status = "pending")) then Ret (Err (OtherFailure "canary attempt is not pending"))
    else
      do? _ := Ret (object_property a "plan_id") in
      do now := perform Now in
      let at_ms := Z.max now (created a) in
      do written := perform (PutObject (amend a [("execution_started_at", pretty at_ms)] at_ms)) in
      match written with
      | Ok _ => Ret (Ok tt)
      | Err e => do _ := abandon_unstarted id in Ret (Err e)
      end
  end.

(** ** Recording *)

(** The evidence of one outcome under one policy. *)
Definition attempt_evidence (p : Plan) (o : Outcome) (skipped : bool) (active : ActiveCanaryPolicy)
    (release : string) (deployment : option Object) (started now : Z) (attempt : string) :
    result CanaryOutcome failure :=
  let executed := Z.max (match deployment with Some d => created d | None => 0 end) started in
  let? status := evidence_status p o skipped in
  let '(gate, execution, health, rollback) := status in
  let? state := (match plan_state p with
                 | Succeeded => Ok EvidenceSucceeded
                 | Failed => Ok EvidenceFailed
                 | Blocked => Ok EvidenceBlocked
                 | Computed | Running =>
                   Err (OtherFailure "cannot record canary evidence for a non-terminal plan")
                 end) in
  Ok {| co_release_id := release; co_release_digest := policy_release_digest (active_rules active);
        co_artifact_digest := policy_artifact_digest (active_rules active);
        co_policy_digest := active_digest active; co_activated_at := activated_at active;
        co_environment := plan_environment p; co_plan_id := plan_id_of p; co_attempt_id := attempt;
        co_step_order := step_order (outcome_step o); co_plan_state := state;
        co_deployment_id := object_id <$> deployment; executed_at := executed;
        recorded_at := Z.max now executed; co_gate := gate; co_execution := execution;
        co_health := health; co_rollback := rollback; co_detail := outcome_detail o |}.

Definition outcome_object (id : string) (e : CanaryOutcome) : Object := {|
  object_id := id; object_kind := KIND_CANARY_OUTCOME;
  object_name := co_environment e +:+ " canary outcome"; object_namespace := NS; external_id := "";
  properties := list_to_map [
    ("release_id", co_release_id e); ("policy_digest", co_policy_digest e);
    ("policy_activated_at", pretty (co_activated_at e)); ("environment", co_environment e);
    ("plan_id", co_plan_id e); ("attempt_id", co_attempt_id e);
    ("step_order", pretty (co_step_order e));
    ("plan_state", EvidencePlanState_str (co_plan_state e));
    ("deployment_id", default "" (co_deployment_id e)); ("executed_at", pretty (executed_at e));
    ("recorded_at", pretty (recorded_at e)); ("outcome", outcome_json e)];
  created := recorded_at e; updated := recorded_at e |}.

(** The first free id, or the one that already holds this evidence. *)
Fixpoint allocate_outcome (free : nat) (sequence : Z) (e : CanaryOutcome) : canary_prog string :=
  match free with
  | O => Ret (Err (OtherFailure "could not allocate canary evidence"))
  | S free =>
    let id := co_plan_id e +:+ ":canary:" +:+ String.substring 0 12 (co_policy_digest e) +:+ ":"
              +:+ pretty (co_step_order e) +:+ ":" +:+ pretty sequence in
    do? made := perform (CreateOnce (outcome_object id e)) in
    if made : bool then Ret (Ok id)
    else
      do? found := perform (GetObject id) in
      match found with
      | None => Ret (Err (OtherFailure "canary outcome disappeared"))
      | Some existing =>
        do? text := Ret (object_property existing "outcome") in
        if bool_decide (text = outcome_json e) then Ret (Ok id) else allocate_outcome free (sequence + 1) e
      end
  end.

Definition link_outcome (id plan : string) (active : ActiveCanaryPolicy) : canary_prog unit :=
  do? _ := perform (LinkObjects id (policy_release_id (active_rules active)) REL_DEPLOYED_RELEASE) in
  do? _ := perform (LinkObjects id (policy_record_id active) REL_EVIDENCE_FOR_POLICY) in
  perform (LinkObjects id plan REL_PART_OF_PLAN).

(** The outcome that was already recorded for the attempt, policy and step. *)
Definition recorded_already (active : ActiveCanaryPolicy) (release : string) (o : Outcome) (x : Object) : bool :=
  bool_decide (properties x !! "policy_digest" = Some (active_digest active))
  && bool_decide (properties x !! "release_id" = Some release)
  && bool_decide (properties x !! "step_order" = Some (pretty (step_order (outcome_step o)))).

Definition deployment_for (o : Outcome) (d : Object) : bool :=
  bool_decide (properties d !! "product" = Some (step_product (outcome_step o)))
  && bool_decide (properties d !! "to_version" = Some (step_to (outcome_step o)))
  && bool_decide (properties d !! "status" = Some (outcome_status o)).

Definition record_outcome (p : Plan) (deployments : list Object) (skipped : bool) (started : Z)
    (attempt release : string) (o : Outcome) (active : ActiveCanaryPolicy) : canary_prog unit :=
  if negb (bool_decide (plan_environment p ∈ cohort (active_rules active))) then Ret (Ok tt)
  else
    do? known := perform (FindByProperty KIND_CANARY_OUTCOME "attempt_id" attempt) in
    match find_first (recorded_already active release o) known with
    | Some existing =>
      do? _ := link_outcome (object_id existing) (plan_id_of p) active in
      do? text := Ret (object_property existing "outcome") in
      do? e := Ret (ok_or (outcome_of_json text) (OtherFailure "canary outcome has invalid persisted evidence")) in
      do _ := perform (ExportEvidence (plan_id_of p) release e) in Ret (Ok tt)
    | None =>
      do now := perform Now in
      do? e := Ret (attempt_evidence p o skipped active release (find_first (deployment_for o) deployments)
                      started now attempt) in
      do? id := allocate_outcome 1024 0 e in
      do? _ := link_outcome id (plan_id_of p) active in
      do _ := perform (ExportEvidence (plan_id_of p) release e) in Ret (Ok tt)
    end.

(** [record_plan_outcomes]. *)
Definition record_plan_outcomes (p : Plan) (outcomes : list Outcome) (skipped : bool)
    (policies : list ActiveCanaryPolicy) (started : Z) (attempt : string) : canary_prog unit :=
  do? deployments := perform (Linked (plan_id_of p) REL_PART_OF_PLAN Inward) in
  each (λ _ o,
    match evidence_release (outcome_step o) with
    | None => Ret (Ok (tt, false))
    | Some release =>
      do? _ := each (λ _ active,
                 do? _ := record_outcome p deployments skipped started attempt release o active in
                 Ret (Ok (tt, false))) tt
                 (List.filter (λ a, bool_decide (policy_release_id (active_rules a) = release)) policies) in
      Ret (Ok (tt, false))
    end) tt outcomes.

(** ** Closing *)

Definition terminal_plan_state (s : string) : option PlanState :=
  if bool_decide (s = "succeeded") then Some Succeeded
  else if bool_decide (s = "failed") then Some Failed
  else if bool_decide (s = "blocked") then Some Blocked else None.

(** The plan as it stood when the attempt ended. *)
Definition plan_at (p : Plan) (state : PlanState) (detail : string) : Plan := {|
  format_version := format_version p; plan_id_of := plan_id_of p; content_id := content_id p;
  plan_environment := plan_environment p; created_at := created_at p; inputs := inputs p;
  steps := steps p; plan_state := state; gates_skipped := gates_skipped p; status_detail := detail;
  maintenance_blocked := maintenance_blocked p; prior_warnings := prior_warnings p;
  recalled_recovery_reason := recalled_recovery_reason p; credential_runway := credential_runway p |}.

(** The ready attempt: its outcomes recorded, then complete. *)
Definition complete_attempt (stored : Plan) (deployments : list Object) (a : Object) : canary_prog unit :=
  do? raw := Ret (object_property a "plan_state") in
  do? state := Ret (ok_or (terminal_plan_state raw) (OtherFailure "canary attempt has invalid plan state")) in
  let p := plan_at stored state (default "" (properties a !! "status_detail")) in
  do? finished := Ret (i64_property a "finished_at") in
  do? started := Ret (i64_property a "execution_started_at") in
  let within := List.filter (λ d, (started <=? created d) && (created d <=? finished)) deployments in
  do? outcomes := Ret (match properties a !! "outcomes" with
                       | Some text => ok_or (outcomes_of_json text)
                                        (OtherFailure "canary attempt has invalid execution outcomes")
                       | None => reconstructed_outcomes p within
                       end) in
  do? text := Ret (object_property a "policies") in
  do? policies := Ret (ok_or (snapshot_of_json text) (OtherFailure "canary attempt has invalid policies")) in
  do? skipped := Ret (bool_property a "gates_skipped") in
  do? _ := record_plan_outcomes p outcomes skipped policies started (object_id a) in
  do now := perform Now in
  perform (PutObject (amend a [("status", "complete"); ("plan_state", PlanState_str state)]
                        (Z.max now (created a)))).

Definition has_property (o : Object) (key : string) : bool := is_some_b (properties o !! key).

(** One attempt of a plan: [true] counts as repaired. *)
Definition finalize_attempt (stored : Plan) (deployments : list Object) (a : Object) : canary_prog bool :=
  if attempt_is a "pending"
     && (negb (has_property a "execution_started_at") || bool_decide (plan_state stored = Computed)) then
    do now := perform Now in
    do? _ := perform (PutObject (amend a [("status", "abandoned")] (Z.max now (created a)))) in
    Ret (Ok true)
  else
    do? a := (if attempt_is a "pending" && bool_decide (plan_state stored ∈ [Succeeded; Failed; Blocked])
                 && has_property a "execution_started_at" then
                do finished := perform Now in
                do now := perform Now in
                let a := amend a
                  [("status", "ready"); ("plan_state", PlanState_str (plan_state stored));
                   ("status_detail", status_detail stored);
                   ("finished_at", pretty (Z.max finished (created a)))] (Z.max now (created a)) in
                do? _ := perform (PutObject a) in Ret (Ok a)
              else Ret (Ok a)) in
    if attempt_is a "ready" then do? _ := complete_attempt stored deployments a in Ret (Ok true)
    else Ret (Ok false).

(** [finalize_pending_attempts]. *)
Definition finalize_pending_attempts (plan : string) : canary_prog Z :=
  do? stored := perform (LoadPlan plan) in
  do? deployments := perform (Linked plan REL_PART_OF_PLAN Inward) in
  do? attempts := perform (FindByProperty KIND_CANARY_ATTEMPT "plan_id" plan) in
  do? lease := perform (EnvironmentLease (plan_environment stored)) in
  if existsb (λ a, attempt_is a "pending") attempts && is_some_b lease
  then Ret (Err (OtherFailure "environment still has an apply lease"))
  else
    do? stored := (if existsb (λ a, attempt_is a "pending" && has_property a "execution_started_at") attempts
                      && bool_decide (plan_state stored = Running)
                   then perform (TransitionPlan stored Failed
                     "apply was interrupted; canary repair finalized the orphaned execution after its environment lease ended")
                   else Ret (Ok stored)) in
    each (λ n a, do? done := finalize_attempt stored deployments a in
                 Ret (Ok (if done : bool then n + 1 else n, false))) 0 attempts.

(** [finish_attempt_locked]. *)
Definition finish_attempt_locked (plan id : string) (abandon : bool) (completed : option (list Outcome)) :
    canary_prog unit :=
  do? p := perform (LoadPlan plan) in
  do? found := perform (GetObject id) in
  match found with
  | None => Ret (Err (OtherFailure "canary attempt not found"))
  | Some a =>
    do? status := Ret (object_property a "status") in
    if bool_decide (status = "ready") then do? _ := finalize_pending_attempts plan in Ret (Ok tt)
    else if bool_decide (status = "complete") || bool_decide (status = "abandoned") then Ret (Ok tt)
    else if negb (bool_decide (status = "pending")) then Ret (Err (OtherFailure "canary attempt has invalid status"))
    else
      do? initial := Ret (object_property a "initial_plan_state") in
      let unchanged := bool_decide (initial = PlanState_str (plan_state p))
                       && bool_decide (plan_state p = Blocked) in
      if abandon && (bool_decide (plan_state p ∈ [Computed; Running]) || unchanged) then
        do now := perform Now in
        perform (PutObject (amend a [("status", "abandoned")] (Z.max now (created a))))
      else if bool_decide (plan_state p ∈ [Computed; Running])
      then Ret (Err (OtherFailure "canary attempt is still in progress or requires recovery"))
      else
        do finished := perform Now in
        do now := perform Now in
        let known := match completed with Some l => [("outcomes", outcomes_json l)] | None => [] end in
        do? _ := perform (PutObject (amend a
          ([("status", "ready"); ("plan_state", PlanState_str (plan_state p));
            ("status_detail", status_detail p); ("finished_at", pretty (Z.max finished (created a)))] ++ known)
          (Z.max now (created a)))) in
        do? _ := finalize_pending_attempts plan in Ret (Ok tt)
  end.

(** What runs under the locks of an attempt's policies. *)
Definition under_policy_locks {A} (policies : list ActiveCanaryPolicy) (owner : string)
    (body : canary_prog A) : canary_prog A :=
  do? locks := claim_policy_locks policies owner in
  do res := body in
  do unlock := release_policy_locks locks in
  Ret (and_released res (err_of unlock)).

(** [finish_attempt]. *)
Definition finish_attempt (plan id : string) (abandon : bool) (completed : option (list Outcome)) :
    canary_prog unit :=
  do? found := perform (GetObject id) in
  match found with
  | None => Ret (Err (OtherFailure "canary attempt not found"))
  | Some a =>
    do? status := Ret (object_property a "status") in
    if bool_decide (status = "complete") || bool_decide (status = "abandoned") then Ret (Ok tt)
    else
      do? text := Ret (object_property a "policies") in
      do? policies := Ret (ok_or (snapshot_of_json text) (OtherFailure "canary attempt has invalid policies")) in
      do now := perform Now in
      under_policy_locks policies ("attempt-finalize:" +:+ id +:+ ":" +:+ pretty now)
        (finish_attempt_locked plan id abandon completed)
  end.

(** [repair_pending]. *)
Definition repair_pending (actor : AuthenticatedRequestContext) (plan : string) : canary_prog Z :=
  do? _ := Ret (require_management actor) in
  do? attempts := perform (FindByProperty KIND_CANARY_ATTEMPT "plan_id" plan) in
  do? policies := Ret (try_fold (λ acc a,
    let? text := object_property a "policies" in
    let? l := ok_or (snapshot_of_json text) (OtherFailure "canary attempt has invalid policies") in
    Ok (acc ++ l)) [] attempts) in
  do now := perform Now in
  under_policy_locks policies
    ("attempt-repair:" +:+ principal_id (principal actor) +:+ ":" +:+ plan +:+ ":" +:+ pretty now)
    (do? _ := Ret (require_management actor) in finalize_pending_attempts plan).
End Operations.

(** ** A clean attempt opens the way *)

(** One run of a plan in a canary environment: its plan, the step that
    deployed the release, the attempt as read back, the deployment recorded,
    the times. *)
Record canary_run := {
  run_plan : Plan; run_step : Step; run_attempt : CanaryAttemptEvidence; run_deployment : Object;
  run_created : Z; run_content : string; run_recorded : Z; run_detail : string
}.

(** Nothing went wrong: the plan [create_with_content] named was executed with
    its gates and succeeded, its one step of this order deployed the pinned
    release, and the deployment lies within the attempt. *)
Record clean_run (active : ActiveCanaryPolicy) (c : canary_run) : Prop := {
  run_named : plan_id_of (run_plan c)
    = plan_id (plan_environment (run_plan c)) (run_created c) (run_content c);
  run_environment : valid_identifier (plan_environment (run_plan c)) = true;
  run_time : i64_min ≤ run_created c ≤ i64_max;
  run_digest : run_content c ≠ "" ∧ lacks ":" (run_content c) = true;
  run_succeeded : plan_state (run_plan c) = Succeeded ∧ gates_skipped (run_plan c) = Some false;
  run_step_of : find_first (λ s, step_order s =? step_order (run_step c)) (steps (run_plan c)) = Some (run_step c);
  run_action : step_action (run_step c) ∈ [Install; Upgrade; Downgrade; Restart];
  run_pinned : step_product (run_step c) = policy_product (active_rules active)
    ∧ step_to (run_step c) = policy_version (active_rules active)
    ∧ step_release_id (run_step c) = policy_release_id (active_rules active)
    ∧ step_release_digest (run_step c) = policy_release_digest (active_rules active)
    ∧ step_artifact_digest (run_step c) = policy_artifact_digest (active_rules active);
  run_attempted : attempt_plan_id (run_attempt c) = plan_id_of (run_plan c)
    ∧ attempt_plan_state (run_attempt c) = EvidenceSucceeded ∧ attempt_gates_skipped (run_attempt c) = false;
  run_times : activated_at active ≤ started_at (run_attempt c) ≤ created (run_deployment c)
    ∧ created (run_deployment c) ≤ updated (run_deployment c) ≤ finished_at (run_attempt c)
    ∧ finished_at (run_attempt c) ≤ run_recorded c;
  run_deployed : object_kind (run_deployment c) = KIND_DEPLOYMENT
    ∧ properties (run_deployment c) !! "environment" = Some (plan_environment (run_plan c))
    ∧ properties (run_deployment c) !! "product" = Some (step_product (run_step c))
    ∧ properties (run_deployment c) !! "to_version" = Some (step_to (run_step c))
    ∧ properties (run_deployment c) !! "status" = Some "succeeded"
}.

Section Clean.
Context {E : PlanEncoding} {J : CanaryJson}.

(** What [record_outcome] stores of the run. *)
Definition recorded_evidence (active : ActiveCanaryPolicy) (c : canary_run) : result CanaryOutcome failure :=
  attempt_evidence (run_plan c) (Outcome_new (run_step c) OutcomeSucceeded (run_detail c)) false active
    (policy_release_id (active_rules active)) (Some (run_deployment c)) (started_at (run_attempt c))
    (run_recorded c) (attempt_id (run_attempt c)).

Definition clean_evidence (active : ActiveCanaryPolicy) (c : canary_run) : CanaryOutcome := {|
  co_release_id := policy_release_id (active_rules active);
  co_release_digest := policy_release_digest (active_rules active);
  co_artifact_digest := policy_artifact_digest (active_rules active);
  co_policy_digest := active_digest active; co_activated_at := activated_at active;
  co_environment := plan_environment (run_plan c); co_plan_id := plan_id_of (run_plan c);
  co_attempt_id := attempt_id (run_attempt c); co_step_order := step_order (run_step c);
  co_plan_state := EvidenceSucceeded; co_deployment_id := Some (object_id (run_deployment c));
  executed_at := created (run_deployment c); recorded_at := run_recorded c;
  co_gate := GateSatisfied; co_execution := ExecutionSucceeded; co_health := HealthPassed;
  co_rollback := RollbackNotNeeded; co_detail := run_detail c |}.

Context (active : ActiveCanaryPolicy).
Hypothesis policy_named :
  policy_release_id (active_rules active)
  = release_id (policy_product (active_rules active)) (policy_version (active_rules active)).
Hypothesis policy_product_ok : valid_identifier (policy_product (active_rules active)) = true.

Lemma clean_not_rollback c :
  step_action (run_step c) ∈ [Install; Upgrade; Downgrade; Restart] →
  bool_decide (step_action (run_step c) = Rollback) = false.
Proof.
  intros Hin. apply bool_decide_eq_false. intros Ha. rewrite Ha in Hin.
  by repeat apply elem_of_cons in Hin as [?|Hin]; [..|apply elem_of_nil in Hin].
Qed.

Lemma recorded_clean c : clean_run active c → recorded_evidence active c = Ok (clean_evidence active c).
Proof.
  intros []. destruct run_succeeded0 as [Hs _]. unfold recorded_evidence, attempt_evidence.
  unfold evidence_status. simpl. rewrite Hs.
  rewrite (clean_not_rollback c run_action0).
  simpl. unfold clean_evidence. do 2 f_equal; lia.
Qed.

Lemma clean_names c : clean_run active c → plan_matches_environment (clean_evidence active c) = true.
Proof.
  intros []. unfold plan_matches_environment.
  change (co_plan_id (clean_evidence active c)) with (plan_id_of (run_plan c)).
  change (co_environment (clean_evidence active c)) with (plan_environment (run_plan c)).
  rewrite run_named0. unfold plan_id.
  rewrite strip_prefix_app.
  change (":" +:+ pretty (run_created c) +:+ ":" +:+ run_content c)
    with (String ":" (pretty (run_created c) +:+ String ":" (run_content c))).
  rewrite split_on_piece by by apply lacks_identifier. rewrite split_on_piece by by apply lacks_pretty.
  rewrite split_on_lacks by apply run_digest0. rewrite bool_decide_true by done.
  rewrite parse_i64_pretty by done. simpl. destruct run_digest0 as [Hne _]. by destruct (run_content c).
Qed.

Lemma clean_release c :
  release_product (clean_evidence active c) = policy_product (active_rules active)
  ∧ release_version (clean_evidence active c) = policy_version (active_rules active).
Proof.
  unfold release_product, release_version, release_identity.
  change (co_release_id (clean_evidence active c)) with (policy_release_id (active_rules active)).
  rewrite policy_named. unfold release_id. rewrite strip_prefix_app.
  cbn [mbind option_bind].
  change ("@" +:+ policy_version (active_rules active)) with (String "@" (policy_version (active_rules active))).
  by rewrite split_once_lacks by by apply lacks_identifier.
Qed.

Lemma clean_step c : clean_run active c → deployment_step (clean_evidence active c) (run_plan c) = Some (run_step c).
Proof.
  intros []. unfold deployment_step. simpl. rewrite run_step_of0. simpl.
  assert (deploys_candidate (clean_evidence active c) (run_step c) = true) as ->; [|done].
  destruct (clean_release c) as [Hp Hv]. destruct run_pinned0 as (H1 & H2 & H3 & H4 & H5).
  unfold deploys_candidate. rewrite Hp, Hv. simpl. by rewrite !bool_decide_true.
Qed.

Lemma clean_verifies c :
  clean_run active c →
  verify_outcome (clean_evidence active c) (run_plan c) (run_attempt c) (Some (run_deployment c)) true active
  = Ok (clean_evidence active c).
Proof.
  intros Hc. pose proof (clean_names c Hc) as Hn. pose proof (clean_step c Hc) as Hs.
  destruct (clean_release c) as [Hp _]. destruct Hc.
  destruct run_succeeded0 as [Hst Hsk], run_attempted0 as (Ha1 & Ha2 & Ha3), run_deployed0 as (Hd1 & Hd2 & Hd3 & Hd4 & Hd5).
  destruct run_pinned0 as (H1 & _).
  unfold verify_outcome. rewrite Hs.
  unfold verify_policy, verify_plan_identity, verify_attempt, verify_result, verify_deployment. rewrite Hn, Hp.
  simpl. rewrite (clean_not_rollback c run_action0), Hst, Hsk, Ha1, Ha2, Ha3, Hd1, Hd2, Hd3, Hd4, Hd5, H1, Z.eqb_refl, !bool_decide_true by done.
  by rewrite !(proj2 (Z.ltb_ge _ _)) by lia.
Qed.

Lemma clean_passes c :
  clean_run active c → passes (clean_evidence active c) (active_rules active) (active_digest active) = true.
Proof.
  intros Hc. pose proof (clean_names c Hc) as Hn. destruct Hc. unfold passes. rewrite Hn. simpl.
  rewrite (proj2 (Z.leb_le _ _)) by lia. by rewrite !bool_decide_true.
Qed.

(** Canaries that go well open the promotion: of clean runs under an
    active policy, at least one in every environment of its cohort and none
    of them failed, the evidence that is recorded verifies against the plan,
    the attempt and the deployment it names, and the evaluation of this
    evidence allows the promotion. *)
Theorem clean_canaries_allow l :
  Forall (clean_run active) l →
  (∀ environment, environment ∈ cohort (active_rules active) →
     ∃ c, c ∈ l ∧ plan_environment (run_plan c) = environment) →
  ∃ outcomes,
    Forall2 (λ c o, recorded_evidence active c = Ok o
      ∧ verify_outcome o (run_plan c) (run_attempt c) (Some (run_deployment c)) true active = Ok o) l outcomes
    ∧ allowed (evaluate active outcomes) = true.
Proof.
  intros Hl Hco. exists (clean_evidence active <$> l). split.
  - clear Hco. induction Hl as [|c l Hc _ IH]; simpl; constructor; [|done].
    split; [by apply recorded_clean|by apply clean_verifies].
  - apply evaluate_allowed. intros environment Henv. destruct (Hco environment Henv) as (c & Hin & He).
    split.
    + exists (clean_evidence active c). split; [by apply list_elem_of_fmap_2|].
      unfold speaks_for. simpl. by rewrite Z.eqb_refl, !bool_decide_true.
    + intros o (c' & -> & Hin')%list_elem_of_fmap _. apply clean_passes. by eapply Forall_forall in Hl.
Qed.
End Clean.

(** ** One clean run, and a crash *)
Module AttemptExamples.
Import PromotionExamples.
#[local] Existing Instance PlainEncoding.instance.
#[local] Existing Instance texts.

Definition clean : canary_run := {|
  run_plan := plan; run_step := step;
  run_attempt := {| attempt_id := "a1"; attempt_plan_id := plan_name;
    attempt_plan_state := EvidenceSucceeded; attempt_gates_skipped := false;
    started_at := 20; finished_at := 30 |};
  run_deployment := deployment; run_created := 5; run_content := "c"; run_recorded := 40; run_detail := "" |}.

Lemma clean_is_clean : clean_run active clean.
Proof. split; vm_compute; done || set_solver. Qed.

Lemma clean_canaries_allow_witness :
  ∃ outcomes,
    Forall2 (λ c o, recorded_evidence active c = Ok o
      ∧ verify_outcome o (run_plan c) (run_attempt c) (Some (run_deployment c)) true active = Ok o) [clean] outcomes
    ∧ allowed (evaluate active outcomes) = true.
Proof.
  refine (clean_canaries_allow active _ _ [clean] _ _).
  - reflexivity.
  - reflexivity.
  - apply Forall_cons. split; [apply clean_is_clean|apply Forall_nil; done].
  - intros environment Henv. exists clean. apply list_elem_of_singleton in Henv as ->. split; [left|reflexivity].
Defined.

#[local] Instance attempt_texts : AttemptJson := {|
  snapshot_json := λ _, "policies";
  snapshot_of_json := λ s, if decide (s = "policies") then Some [active] else None;
  outcomes_json := λ _, "outcomes"; outcomes_of_json := λ _, None |}.

(** An attempt that was pending when the process died. *)
Definition left_behind (started : bool) : Object :=
  record "a1" KIND_CANARY_ATTEMPT 15 20
    ([("status", "pending"); ("plan_id", plan_name); ("gates_skipped", "false"); ("policies", "policies")]
     ++ (if started then [("execution_started_at", "20")] else [])).

(** The statuses written by a repair, in order. *)
Fixpoint statuses_put {A} (h : answers canary_effect) (p : prog canary_effect A) : list string :=
  match p with
  | Ret _ => []
  | Do e k =>
    match e in canary_effect X return (X → list string) → X → list string with
    | PutObject o => λ rest x, match properties o !! "status" with Some s => s :: rest x | None => rest x end
    | _ => λ rest x, rest x
    end (λ x, statuses_put h (k x)) (h _ e)
  end.

Definition crashed (started : bool) : answers canary_effect := λ X e,
  match e in canary_effect X return X with
  | FindByProperty kind _ _ => Ok (if decide (kind = KIND_CANARY_ATTEMPT) then [left_behind started] else [])
  | Linked _ _ _ => Ok [deployment]
  | e => answer [] _ e
  end.

(** A repair completes an attempt whose plan had started, from the
    deployments within it, and abandons one that never started. *)
Example repair_after_crash :
  statuses_put (crashed true) (finalize_pending_attempts plan_name) = ["ready"; "complete"]
  ∧ statuses_put (crashed false) (finalize_pending_attempts plan_name) = ["abandoned"].
Proof. vm_compute. done. Qed.

(** A plan that is retried after it was blocked has a deployment of each
    attempt; the evidence takes the first that matches, whatever its attempt,
    and is refused when it is read back. *)
Definition earlier : Object :=
  record "d0" KIND_DEPLOYMENT 12 13
    [("environment", "edge"); ("product", "api"); ("to_version", "2.0.0"); ("status", "succeeded")].

Definition stale_evidence : result CanaryOutcome failure :=
  let o := Outcome_new step OutcomeSucceeded "" in
  attempt_evidence plan o false active (release_id "api" "2.0.0")
    (find_first (deployment_for o) [earlier; deployment]) 20 40 "a1".

Example earlier_deployment_refused :
  match stale_evidence with
  | Ok e => co_deployment_id e = Some "d0"
            ∧ verify_outcome e plan (run_attempt clean) (Some earlier) true active
              = Err (OtherFailure "passing canary outcome does not match its deployment evidence")
  | Err _ => False
  end.
Proof. vm_compute. done. Qed.
End AttemptExamples.
